(* ===== verification/_CoqProject ===== *)
-Q . S2P
Prelude.v
Store.v
HierarchicalKey.v
CrdtSet.v
CrdtRefine.v
ORSetFacts.v
CrdtSetProps.v
CrdtHeads.v
LruCache.v
DagSyncer.v
DagSyncerProps.v
CrdtDataFilter.v
CrdtDatastore.v
CrdtDatastoreProps.v
AtomicTransaction.v
SubTaskQueue.v
Validation.v
SubTaskQueueManager.v
SubTaskQueueManagerProps.v
SubTaskQueueAccessor.v
ScaledInteger.v
Utxo.v
Transactions.v
GlobalDB.v
TransactionManager.v
TransactionManagerProps.v
BufferStorage.v
Scale.v
ScaleProps.v
Trie.v
TrieLemmas.v
TrieProps.v
TrieMap.v
TrieCodec.v
TrieCodecProps.v
TrieSerializer.v
ChangesTrie.v
TrieStorage.v
TransactionPool.v
TransactionPoolInv.v
TransactionPoolProps.v
TransactionPoolRemoval.v
TransactionPoolBounds.v
BlockStorage.v
BlockStorageProps.v
BlockTree.v
BlockTreeProps.v
BlockTreeSpec.v
Votes.v
VotesProps.v
VoteGraph.v
VoteGraphProps.v
VoteGraphCount.v
VoteGraphTheorems.v
VoteGraphGhost.v
VoteGraphDemo.v
VoterWeights.v
VotingRound.v
VotingRoundInv.v
VotingRoundVotes.v
VotingRoundTheorems.v
Finality.v
VotingRoundDemo.v
FinalityVotes.v
FinalityRestart.v
Environment.v
Authority.v
AuthorityTimeline.v
AuthorityRestart.v
WasmMemory.v
TrieCursor.v
TrieCursorProps.v
StorageExtension.v
Production.v
Authorship.v
ProductionNode.v
ProductionProps.v
ProductionSlots.v
ProductionDemo.v
