(* ===== verification/Prelude.v ===== *)
(** * SuperGenius: a verification development of the node's core logic

    SuperGenius is a node of a network that runs computing jobs for tokens.
    The nodes share one replicated key-value database; over it they keep a
    ledger of token transactions, and they hand out the subtasks of a job
    through a table that passes from node to node.  The sources are under
    [src/src]; this library models the parts below as executable functions and
    proves what makes them correct.

    ** The parts and where they are modelled

    - The local store, [storage/rocksdb]: [Store].  A database is a class
      ([RocksDBLib], with [RocksDBHealthy] for a store that does not fail) over
      an ordered map; module [RocksDb] has the wrapper: [get], [put],
      [contains], prefix queries, batches.
    - Keys, [crdt/impl/hierarchical_key.cpp]: [HierarchicalKey], module [HKey].
    - The replicated set, [crdt/impl/crdt_set.cpp]: [CrdtSet], module
      [CrdtSet]; its state is the store, its operations [Merge], [PutElems],
      [PutTombs], [SetValue], [GetElement], [IsValueInSet], the queries and the
      creation of deltas.  [CrdtRefine] shows that the store keys of different
      entries differ, and has the abstract observed-remove set with a value
      register per key (module [ORSet]) and the refinement lemmas, [ORSetFacts]
      the facts about the abstract set, [CrdtSetProps] the theorems.
    - The heads of the replicated graph, [crdt/impl/crdt_heads.cpp]:
      [CrdtHeads].
    - Fetching blocks and the block cache, [crdt/graphsync_dagsyncer.hpp] and
      [crdt/impl/graphsync_dagsyncer.cpp]: [LruCache], [DagSyncer],
      [DagSyncerProps].
      Blocks, identifiers and peers are classes ([CIDLib], [IPLDLib],
      [MerkleDag], [PeerLib]) with the laws of their libraries; module [DemoDag]
      of [CrdtDatastoreProps] has concrete instances of all of them, over which
      the theorems are applied.
    - The filter of deltas, [crdt/impl/crdt_data_filter.cpp]: [CrdtDataFilter].
    - The datastore, [crdt/impl/crdt_datastore.cpp]: [CrdtDatastore],
      [CrdtDatastoreProps].  It publishes deltas as blocks and merges the blocks
      it receives; its threads are step functions on an explicit state.
    - Transactions on the datastore, [crdt/impl/atomic_transaction.cpp]:
      [AtomicTransaction]; the database object of the node,
      [crdt/globaldb/globaldb.cpp]: [GlobalDB].
    - Fixed-point amounts, [base/ScaledInteger.cpp] and
      [account/TokenAmount.cpp]: [ScaledInteger].
    - The account and its outputs, [account/GeniusAccount.*],
      [account/GeniusUTXO.hpp], [account/TokenID.hpp] and
      [account/UTXOTxParameters.*]: [Utxo].
    - The transaction classes, [account/*Transaction.cpp] and
      [base/blob.hpp]: [Transactions]; protobuf, hash and signature are the
      class [TxLib] with the laws [TxSpec].
    - The transaction manager, [account/TransactionManager.cpp]:
      [TransactionManager], [TransactionManagerProps].
    - The table of subtasks, [processing/processing_subtask_queue.cpp]:
      [SubTaskQueue]; splitting a task and validating its results,
      [processing/processing_tasksplit.cpp] and
      [processing/processing_validation_core.cpp]: [Validation]; what a node
      does with the table, [processing/processing_subtask_queue_manager.cpp]:
      [SubTaskQueueManager] (handlers as stateful operations with numbered
      clock reads and recorded effects) and [SubTaskQueueManagerProps];
      collecting results, [processing_subtask_queue_accessor_impl.cpp]:
      [SubTaskQueueAccessor].
    - The SCALE codec, [scale]: [Scale], where a type code [ty] stands for the
      C++ types with a codec and [encode] and [decode] for the overloaded
      operators; [ScaleProps].
    - Storage behind the trie, [storage/in_memory] and [base/hexutil.cpp]:
      [BufferStorage], with the interface [BufferStorage] that the in-memory
      storage and RocksDB implement.
    - The Merkle trie, [storage/trie/supergenius_trie]: [Trie], with children
      that are not in memory as dummy nodes and a function that loads them;
      [TrieLemmas], [TrieProps] and [TrieMap] relate it to a finite map.  Its
      node codec, [storage/trie/serialization/supergenius_codec.cpp]:
      [TrieCodec], [TrieCodecProps]; storing and loading tries,
      [trie_serializer_impl.cpp]: [TrieSerializer]; the changes of a block,
      [storage/changes_trie/impl]: [ChangesTrie]; the storage object and its
      batches, [storage/trie/impl]: [TrieStorage], with the interface
      [TrieBatch] against which the batch on top of another one is proved.  The cursor, [supergenius_trie_cursor.cpp]: [TrieCursor] and
      [TrieCursorProps].
    - The transaction pool, [transaction_pool]: [TransactionPool], with the
      nodes of its multimaps, iterators that can dangle and pointers that can
      expire; [TransactionPoolInv] has the invariant, [TransactionPoolProps]
      submission, [TransactionPoolRemoval] removal and stale transactions,
      against the interface [PoolModerator], [TransactionPoolBounds] the limits
      and the inputs on which the pool fails.
    - The block storage, [blockchain/impl/key_value_block_storage.cpp],
      [key_value_block_header_repository.cpp], [storage_util.cpp] and
      [types.cpp]: [BlockStorage], module [KeyValueBlockStorage], over the
      interface [KeyValueDB], which the database object implements; messages and
      hash are the class [BlocksLib] with the laws [BlocksSpec];
      [BlockStorageProps].
    - The block tree, [blockchain/impl/block_tree_impl.cpp]: [BlockTree], module
      [BlockTreeImpl], over the interface [BlockStore]; nodes have identities,
      so that a reference to a destroyed node is undefined behaviour.
      [BlockTreeProps] has searches, chains and what a change does to a tree,
      [BlockTreeSpec] the operations against the promises of the storage
      ([BlockStoreSpec]) and the tree over the key-value storage.
    - Finality, [verification/finality]: voters, weights and the tracker of
      votes in [Votes] and [VotesProps]; the vote graph in [VoteGraph], with
      its invariant in [VoteGraphProps] and its theorems in
      [VoteGraphTheorems] and [VoteGraphGhost]; a round, [voting_round_impl.cpp],
      in [VotingRound], with [VotingRoundInv], [VotingRoundTheorems] and
      [VotingRoundDemo]; the node that plays rounds, [finality_impl.cpp], in
      [Finality], with [FinalityVotes] and [FinalityRestart]; its environment
      over the block tree, [environment_impl.cpp], in [Environment].  The rounds
      are proved against the interface [Chain], which the environment
      implements.
    - The authorities, [verification/authority]: [Authority], modules for the
      schedule tree, where lists are shared by pointers, and for the manager;
      [AuthorityTimeline] relates the manager to a list of dated changes,
      [AuthorityRestart] to its storage.
    - Making blocks, [verification/production] and
      [verification/validation]: [Production] has the digests, epochs, the
      threshold, the lottery and the validator; [ProductionNode] the executor of
      blocks (module [BlockExecutor]) and the producer (module
      [ProductionImpl]), whose clock is a sequence of readings and whose timer
      and requests are parts of the state; [ProductionProps],
      [ProductionSlots] and [ProductionDemo] the theorems and their instances.
      Filling a block, [authorship/impl] and [primitives/inherent_data.hpp]:
      [Authorship], over an interface of the runtime.
    - The memory of the runtime, [runtime/binaryen/wasm_memory_impl.cpp]:
      [WasmMemory], over an interface of the memory of the interpreter; the
      storage it sees, [extensions/impl/storage_extension.cpp],
      [memory_extension.cpp] and
      [runtime/common/trie_storage_provider_impl.cpp]: [StorageExtension].

    The transaction manager calls the database object, which calls atomic
    transactions and the datastore; the datastore calls the set, the heads, the
    filter and the block syncer; all of them end in the store.  The accessor
    of results calls the queue manager, which calls the table of subtasks.  The
    trie storage calls the serializer, which calls the node codec, which calls
    the SCALE codec, over a buffer storage.  The block tree calls the block
    storage, which calls the database object.  The finality node calls the
    rounds, which call the vote graph and the environment, which calls the block
    tree.  The producer calls the proposer, which calls the transaction pool and
    the runtime, and the executor, which calls the validator, the block tree, the
    authority manager and the pool.  The storage extension calls the memory, the
    batches of the trie storage and the cursor.  The files require each other in
    that order.

    ** Conventions

    A byte string is a [list ascii].  A 64-bit integer is a [Z] with the wrap
    written out ([u64]).  A result of [outcome::result] is [outcome]; a failed
    operation that changed state before it failed returns the changed state
    beside the error.  Undefined behaviour of the language and a thrown
    exception are the error [undefined_behaviour], so that a theorem that an
    operation succeeds excludes them.  Times and generated identifiers are
    arguments.  Code that is not part of the sources (RocksDB, boost, IPLD,
    protobuf, cryptography, regular expressions) is a class of operations;
    its documented laws are a second class, named where they are used.

    Recursion is structural, loops over containers recurse over the lists that
    stand for them, and the recursions of the trie and the loop of the queue
    manager have fuel: one more than the nibbles of the key
    ([trie_terminates] shows that no operation exhausts it), two rounds for
    every waiting callback and one to leave ([manager_handlers_return]), and
    for the pool two more than the imported transactions
    ([pool_operations_return]).  The search of the block tree has the number of
    its nodes ([bfs_spec]); walks along stored headers take their fuel as an
    argument, since stored headers can form a circle.  The allocator needs two
    calls ([allocate_exact]), the cursor a bound that depends on the trie
    ([cursor_enumerates]), and the loop over slots that are over ends when the
    readings of the clock are in the long run less than a slot apart
    ([slots_go_on]).
    Exhausted fuel is the error [out_of_fuel], which no theorem about success
    allows.  The SCALE decoder is structural over the type code.  [to_string] has as fuel the number of binary
    digits, which [to_string_fuel] shows to be enough; the traversal of linked
    blocks takes its depth as the code does; the waiting for a block takes the
    sequence of polls.

    ** What is proved

    - The replicated set implements an abstract observed-remove set, for deltas
      that name each key at most once; replicas that merge the same such blocks
      in any order agree on additions, on membership of keys without an added
      ancestor and, without removals, on values; a removal removes what it has
      seen and nothing else ([CrdtSetProps]).  Three theorems state how far that
      goes: a delta with one new key twice leaves the key unusable, with removals
      the values can differ, and adding the parent of a removed key can bring it
      back.
    - Heads in memory and in the store stay in step over any sequence of
      operations and across a restart, but for a head that is replaced by itself
      and is then lost in the store ([CrdtHeads]); a key put is read
      back, a key deleted is gone, broadcasts are decoded to what was encoded
      ([CrdtDatastoreProps]); a committed transaction is in the store
      ([AtomicTransaction]); a rejected element is not added
      ([CrdtDataFilter]).
    - The block cache implements a list of entries in order of use; traversal
      finds exactly the missing blocks; routes and the blacklist are consistent
      ([LruCache], [DagSyncerProps]).
    - Amounts print and parse back, conversions never create tokens
      ([ScaledInteger]); a payment pays what it spends, chosen from unlocked
      outputs only ([Utxo]); stored transactions are read back unchanged
      ([Transactions]); an account holds exactly the outputs it received and
      did not spend, two transfers never spend the same output, an escrow pays
      out its amount, and a restart can bring spent outputs back
      ([TransactionManagerProps]).
    - A lock on a subtask is exclusive until it expires, whatever the nodes do
      in whatever order, and is handed on after; at most one node takes over a
      table whose owner is gone; requests are served in order
      ([SubTaskQueue]).  The validation of results names exactly the subtasks
      described there ([Validation]).  In every state a queue manager can
      reach its handlers return, except on a table with too few items and on a
      first table that makes a node with a sink the owner; callbacks are called in
      order and once, and a subtask is handed out only after its lock was
      published; ownership moves from a node without work to the node that asks
      ([SubTaskQueueManagerProps]).  The last result makes the owner finish the
      task ([SubTaskQueueAccessor]).
    - The SCALE codec reads back what it wrote and leaves what follows it, and
      refuses input that is cut off, for all types without [std::array] and all
      values but the least ones of the signed types of 4 and 8 bytes; compact
      integers have the bounds of their categories ([ScaleProps]).
      [array_decodes_shifted] shows what becomes of an array.
    - The trie implements a finite map: [put], [remove] and [clearPrefix] change
      exactly the keys they should on every well-formed trie, also on one whose
      nodes are loaded on demand; the trie depends on the entries alone and not
      on the order they were put; no recursion runs away ([TrieProps],
      [TrieMap]).  [get] is right for keys that are present and among keys of
      one length; [absent_key_confused] shows that this is the limit.  Nodes
      are read back from their encoding ([TrieCodecProps]), stored tries from
      storage when the hash does not collide on them ([TrieSerializer]),
      and a key that was put and committed is read by later batches
      ([TrieStorage]).  The changes trie of a block holds exactly its changes
      ([ChangesTrie]).
    - As long as no two transactions require one tag and all of them fit, the
      operations of the pool return, and after submissions in any order the
      ready transactions are those whose tags are available
      ([TransactionPoolProps], [TransactionPoolRemoval]); the limits hold
      always ([TransactionPoolBounds]).
    - A block put into the storage is read back, and the genesis block survives
      a restart; [fork_overwrites] and [justification_replaces_block] show what
      the storage loses ([BlockStorageProps]).  After every operation of the
      block tree its leaves, deepest leaf and last finalized block are those of
      the tree, finalizing a block leaves exactly the blocks at or below it
      ([BlockTreeSpec]), chains are branches of the tree ([BlockTreeProps]), and
      an added block is in the tree and in the database.
      [prune_forgets_root_branches] and [collect_misses_tip] show what pruning
      leaves in the storage ([BlockTreeSpec]).
    - When blocks of one round on different branches are finalized, more than a
      third of the weight signed two precommits; a finalized block has the
      signatures of a quorum ([VotingRoundTheorems]); a node casts each of its
      votes once for a round, and resumes after the last completed round
      ([FinalityVotes], [FinalityRestart]).  The vote graph counts every vote at
      its block and above ([VoteGraphTheorems]); the environment keeps the
      promises the rounds rely on, over a storage that reads under a hash the
      header of that block, as the key-value storage does while no two blocks
      share a number ([Environment]).
    - Along a chain, for changes in its order, the manager of the authorities
      answers what a list of dated changes has in force, from the last finalized
      block on, also after a restart ([AuthorityTimeline], [AuthorityRestart]);
      beside the chain and for changes above a recorded one it reaches undefined
      behaviour ([change_on_fork_undefined], [change_above_undefined]).
    - A synchronized producer that starts inside an epoch is in the epoch of its
      slot and holds the output that was drawn for the slot; one that starts at
      the begin of an epoch is one epoch ahead; its slots go on while its clock
      is not too slow ([ProductionSlots]).  A block is applied only if it was
      validated, and a validator accepts one block of an authority in a slot
      ([ProductionProps]).  [own_block_validated] says on what condition a block
      of the node itself is accepted.  A proposed block holds the inherent
      extrinsics and the ready transactions in order, whatever the runtime does
      ([Authorship]).
    - The allocator hands out pieces that do not overlap, and the memory
      implements a heap ([WasmMemory]); [allocate_never_returns] shows the sizes
      for which the allocator calls itself for ever.  The cursor reads every
      entry once and in order ([TrieCursorProps]); the runtime reads back what
      it stores and can walk its storage ([StorageExtension]).

    ** What is not modelled

    Threads, sockets and logging; locks are not modelled where an operation
    holds one for its whole duration, since it is then one step.  A timer is a
    part of the state and its firing an event, where the code sets one.
    Cryptography, zero-knowledge proofs, protobuf and the WebAssembly
    interpreter are libraries.  Of the parts above: copying and comparing of the
    set and the heads, printing of the graph, the construction of the database
    object, and of the transaction manager the filters registered by its
    constructor, the waiting calls and the timer; of the queue manager calls that
    come back from a callback or from another thread; of the SCALE codec
    [uint256_t], whose operators do nothing, and [std::list], whose decoder does
    not compile; of the cursor [prev], which is not implemented; of the block
    storage [putWithPrefix], [getWithPrefix] and [prependPrefix], which nothing
    modelled calls; of the synchronizer the choice of a next client, which
    nothing calls; of the storage extension the roots of the changes trie.  The
    processing engine and the task queue over the subtask table, the network
    protocols, the RPC server and the migration of old databases are not
    modelled. *)

From Stdlib Require Export ZArith Lia Ascii.
From stdpp Require Export base gmap strings list fin_maps sets sorting.

#[export] Set Default Goal Selector "!".

(** ** Error codes and fallible results

    [outcome::result<T>] is either a value or an error code.  The error codes
    the sources compare against or return are the constructors below;
    [error_code_zero] is [boost::system::error_code{}], which
    [outcome::failure] turns into a failure although its value is 0.
    [undefined_behaviour] stands for an access out of range, an overflow of a
    signed integer or an exception that is not caught; [out_of_fuel] is no
    result of the code but of a model whose recursion ran out of fuel, and the
    theorems on termination show that it is not returned. *)

Inductive DatabaseError : Type :=
  | DB_OK | NOT_FOUND | CORRUPTION | NOT_SUPPORTED | INVALID_ARGUMENT
  | IO_ERROR | DB_UNKNOWN.

Inductive DagSyncerError : Type :=
  | CID_NOT_FOUND | ROUTE_NOT_FOUND | PEER_BLACKLISTED | TIMED_OUT
  | DAGSYNCHER_NOT_STARTED | GRAPHSYNC_IS_NULL | HOST_IS_NULL.

Inductive CrdtDatastoreError : Type :=
  | INVALID_PARAM | FETCH_ROOT_NODE | NODE_DESERIALIZATION | FETCHING_GRAPH
  | NODE_CREATION | GET_NODE.

Inductive GlobalDBError : Type :=
  | ROCKSDB_IO | IPFS_DB_NOT_CREATED | DAG_SYNCHER_NOT_LISTENING | CRDT_DATASTORE_NOT_CREATED
  | PUBSUB_BROADCASTER_NOT_CREATED | INVALID_PARAMETERS | GLOBALDB_NOT_STARTED.

Inductive EncodeError : Type :=
  | COMPACT_INTEGER_TOO_BIG | NEGATIVE_COMPACT_INTEGER | WRONG_CATEGORY | WRONG_ALTERNATIVE
  | DEREF_NULLPOINTER.

Inductive DecodeError : Type :=
  | NOT_ENOUGH_DATA | UNEXPECTED_VALUE | TOO_MANY_ITEMS | WRONG_TYPE_INDEX | INVALID_DATA
  | OUT_OF_BOUNDARIES.

Inductive CodecError : Type :=
  | TOO_MANY_NIBBLES | UNKNOWN_NODE_TYPE | INPUT_TOO_SMALL | NO_NODE_VALUE.

Inductive CursorError : Type :=
  | INVALID_CURSOR_POSITION | CURSOR_NOT_FOUND | NULL_ROOT | METHOD_NOT_IMPLEMENTED.

Inductive TransactionPoolError : Type :=
  | TX_ALREADY_IMPORTED | TX_NOT_FOUND | POOL_IS_FULL.

Inductive BlockStorageError : Type :=
  | BLOCK_EXISTS | BODY_DOES_NOT_EXIST | JUSTIFICATION_DOES_NOT_EXIST | GENESIS_BLOCK_ALREADY_EXISTS
  | GENESIS_BLOCK_NOT_FOUND | FINALIZED_BLOCK_NOT_FOUND.

Inductive BlockTreeError : Type :=
  | NO_PARENT | NO_SUCH_BLOCK | INCORRECT_ARGS | TARGET_IS_PAST_MAX | BLOCK_ON_DEAD_END | TREE_BLOCK_NOT_FOUND
  | TREE_BLOCK_EXISTS.

Inductive VotingRoundError : Type :=
  | FIN_VALIDATION_FAILED | LAST_ESTIMATE_BETTER_THAN_PREVOTE | NEW_STATE_EQUAL_TO_OLD.

(** [AuthorityManagerError] and [AuthorityUpdateObserverError]. *)
Inductive AuthorityManagerError : Type :=
  | UNKNOWN_ENGINE_ID | WRONG_FINALISATION_ORDER | ORPHAN_BLOCK_OR_ALREADY_FINALISED.
Inductive AuthorityUpdateError : Type :=
  | UNSUPPORTED_MESSAGE_TYPE | WRONG_AUTHORITY_INDEX | NO_SCHEDULED_CHANGE_APPLIED_YET | NO_FORCED_CHANGE_APPLIED_YET
  | NO_PAUSE_APPLIED_YET | NO_RESUME_APPLIED_YET.

(** [ProductionBlockValidator::ValidationError] and [DigestError]. *)
Inductive ValidationError : Type :=
  | NO_AUTHORITIES | INVALID_SIGNATURE | INVALID_VRF | TWO_BLOCKS_IN_SLOT | INVALID_TRANSACTIONS.
Inductive DigestError : Type :=
  | INVALID_DIGESTS | MULTIPLE_EPOCH_CHANGE_DIGESTS | NEXT_EPOCH_DIGEST_DOES_NOT_EXIST.

Inductive error : Type :=
  | error_code_zero
  | database_error (e : DatabaseError)
  | dagsyncer_error (e : DagSyncerError)
  | crdt_datastore_error (e : CrdtDatastoreError)
  | blob_incorrect_length
  | globaldb_error (e : GlobalDBError)
  | encode_error (e : EncodeError)
  | decode_error (e : DecodeError)
  | trie_no_value
  | trie_invalid_node_type
  | codec_error (e : CodecError)
  | cursor_error (e : CursorError)
  | transaction_pool_error (e : TransactionPoolError)
  | block_not_found
  | repository_invalid_key
  | block_storage_error (e : BlockStorageError)
  | block_tree_error (e : BlockTreeError)
  | voting_round_error (e : VotingRoundError)
  | authority_manager_error (e : AuthorityManagerError)
  | authority_update_error (e : AuthorityUpdateError)
  | validation_error (e : ValidationError)
  | digest_error (e : DigestError)
  | inherent_identifier_already_exists
  | inherent_identifier_does_not_exist
  | extrinsic_application_failed
  | batch_parent_expired
  | changes_invalid_parent_hash
  | errc_invalid_argument
  | errc_value_too_large
  | errc_result_out_of_range
  | other_error (code : Z)
  | undefined_behaviour
  | out_of_fuel.

#[export] Instance DatabaseError_eq_dec : EqDecision DatabaseError.
Proof. solve_decision. Defined.
#[export] Instance DagSyncerError_eq_dec : EqDecision DagSyncerError.
Proof. solve_decision. Defined.
#[export] Instance CrdtDatastoreError_eq_dec : EqDecision CrdtDatastoreError.
Proof. solve_decision. Defined.
#[export] Instance GlobalDBError_eq_dec : EqDecision GlobalDBError.
Proof. solve_decision. Defined.
#[export] Instance EncodeError_eq_dec : EqDecision EncodeError.
Proof. solve_decision. Defined.
#[export] Instance DecodeError_eq_dec : EqDecision DecodeError.
Proof. solve_decision. Defined.
#[export] Instance CodecError_eq_dec : EqDecision CodecError.
Proof. solve_decision. Defined.
#[export] Instance CursorError_eq_dec : EqDecision CursorError.
Proof. solve_decision. Defined.
#[export] Instance TransactionPoolError_eq_dec : EqDecision TransactionPoolError.
Proof. solve_decision. Defined.
#[export] Instance BlockStorageError_eq_dec : EqDecision BlockStorageError.
Proof. solve_decision. Defined.
#[export] Instance BlockTreeError_eq_dec : EqDecision BlockTreeError.
Proof. solve_decision. Defined.
#[export] Instance VotingRoundError_eq_dec : EqDecision VotingRoundError.
Proof. solve_decision. Defined.
#[export] Instance AuthorityManagerError_eq_dec : EqDecision AuthorityManagerError.
Proof. solve_decision. Defined.
#[export] Instance AuthorityUpdateError_eq_dec : EqDecision AuthorityUpdateError.
Proof. solve_decision. Defined.
#[export] Instance ValidationError_eq_dec : EqDecision ValidationError.
Proof. solve_decision. Defined.
#[export] Instance DigestError_eq_dec : EqDecision DigestError.
Proof. solve_decision. Defined.
#[export] Instance error_eq_dec : EqDecision error.
Proof. solve_decision. Defined.

Inductive outcome (A : Type) : Type :=
  | Ok (a : A)
  | Err (e : error).
Arguments Ok {A} a.
Arguments Err {A} e.

#[export] Instance outcome_eq_dec `{EqDecision A} : EqDecision (outcome A).
Proof. solve_decision. Defined.

#[export] Instance outcome_ret : MRet outcome := fun A a => Ok a.
#[export] Instance outcome_bind : MBind outcome := fun A B f m =>
  match m with Ok a => f a | Err e => Err e end.

Definition has_failure {A} (r : outcome A) : bool :=
  match r with Ok _ => false | Err _ => true end.

(** A value of an optional lookup, as [outcome] with a given error. *)
Definition ok_or {A} (e : error) (o : option A) : outcome A :=
  match o with Some a => Ok a | None => Err e end.

Lemma outcome_bind_ok {A B} (m : outcome A) (f : A -> outcome B) (b : B) :
  m ≫= f = Ok b -> exists a, m = Ok a /\ f a = Ok b.
Proof. destruct m; naive_solver. Qed.

(** ** Stateful code

    An operation on a state of type [St] that returns a value or fails. *)

Definition act (St A : Type) : Type := St -> outcome (A * St).

#[export] Instance act_ret {St} : MRet (act St) := fun A a s => Ok (a, s).
#[export] Instance act_bind {St} : MBind (act St) := fun A B f m s =>
  match m s with Ok (a, s') => f a s' | Err e => Err e end.

Definition gets {St A} (f : St -> A) : act St A := fun s => Ok (f s, s).
Definition modify {St} (f : St -> St) : act St unit := fun s => Ok (tt, f s).
Definition lift {St A} (r : outcome A) : act St A := fun s =>
  match r with Ok a => Ok (a, s) | Err e => Err e end.
Definition when {St} (b : bool) (m : act St unit) : act St unit := if b then m else mret tt.

(** [OUTCOME_TRY]: goes on with the value, or returns the error as the result. *)
Definition try {St A B} (m : act St (outcome A)) (f : A -> act St (outcome B)) : act St (outcome B) :=
  r ← m; match r with Ok a => f a | Err e => mret (Err e) end.

(** An error is a value for the caller, undefined behaviour and missing fuel are not. *)
Definition returned {St A} (r : outcome A) : act St (outcome A) := fun s =>
  match r with
  | Err undefined_behaviour => Err undefined_behaviour
  | Err out_of_fuel => Err out_of_fuel
  | _ => Ok (r, s)
  end.

(** [m] returns from the state [s], with a value and a state as [Q] says. *)
Definition runs {St A} (m : act St A) (s : St) (Q : A -> St -> Prop) : Prop :=
  exists a s', m s = Ok (a, s') /\ Q a s'.

Section runs.
Context {St : Type}.

Lemma runs_ret {A} (a : A) (s : St) (Q : A -> St -> Prop) : Q a s -> runs (mret a) s Q.
Proof. intros H. by exists a, s. Qed.

Lemma runs_bind {A B} (m : act St A) (f : A -> act St B) (s : St) (Q : B -> St -> Prop) :
  runs m s (fun a s' => runs (f a) s' Q) -> runs (m ≫= f) s Q.
Proof.
  intros (a & s' & Hm & b & s'' & Hf & HQ). exists b, s''. split; [|done].
  unfold mbind, act_bind. by rewrite Hm.
Qed.

Lemma runs_gets {A} (f : St -> A) (s : St) (Q : A -> St -> Prop) : Q (f s) s -> runs (gets f) s Q.
Proof. intros H. by exists (f s), s. Qed.

Lemma runs_modify (f : St -> St) (s : St) (Q : unit -> St -> Prop) : Q tt (f s) -> runs (modify f) s Q.
Proof. intros H. by exists tt, (f s). Qed.

Lemma runs_lift {A} (r : outcome A) (a : A) (s : St) (Q : A -> St -> Prop) :
  r = Ok a -> Q a s -> runs (lift r) s Q.
Proof. intros -> H. by exists a, s. Qed.

Lemma runs_mono {A} (m : act St A) (s : St) (P Q : A -> St -> Prop) :
  runs m s P -> (forall a s', P a s' -> Q a s') -> runs m s Q.
Proof. intros (a & s' & Hm & HP) HPQ. exists a, s'. eauto. Qed.

Lemma runs_when (b : bool) (m : act St unit) (s : St) (Q : unit -> St -> Prop) :
  (b = true -> runs m s Q) -> (b = false -> Q tt s) -> runs (when b m) s Q.
Proof. destruct b; intros Ht Hf; [by apply Ht|by apply runs_ret, Hf]. Qed.

Lemma runs_try {A B} (m : act St (outcome A)) (f : A -> act St (outcome B)) (s : St) (Q : outcome B -> St -> Prop) :
  runs m s (fun r s' => match r with Ok a => runs (f a) s' Q | Err e => Q (Err e) s' end) -> runs (try m f) s Q.
Proof.
  intros H. apply runs_bind. eapply runs_mono; [exact H|]. intros [a|e] s' Hs'; [done|by apply runs_ret].
Qed.

Lemma runs_det {A} (m : act St A) (s : St) (Q : A -> St -> Prop) a s' : runs m s Q -> m s = Ok (a, s') -> Q a s'.
Proof. intros (b & s'' & Hm & HQ) E. rewrite E in Hm. by injection Hm as -> ->. Qed.

Lemma act_bind_ok {A B} (m : act St A) (f : A -> act St B) (s : St) b s'' :
  (m ≫= f) s = Ok (b, s'') -> exists a s', m s = Ok (a, s') /\ f a s' = Ok (b, s'').
Proof. unfold mbind, act_bind. destruct (m s) as [[a s']|]; naive_solver. Qed.

(** When [m] returns, its states before and after are in the relation [R]. *)
Definition preserves {A} (R : St -> St -> Prop) (m : act St A) : Prop := forall s a s', m s = Ok (a, s') -> R s s'.

Context (R : St -> St -> Prop) `{!PreOrder R}.

Lemma preserves_ret {A} (a : A) : preserves R (mret a).
Proof using All. intros s b s' [= <- <-]. done. Qed.

Lemma preserves_gets {A} (f : St -> A) : preserves R (gets f).
Proof using All. intros s b s' [= <- <-]. done. Qed.

Lemma preserves_lift {A} (r : outcome A) : preserves R (lift r).
Proof using All. intros s b s'. unfold lift. destruct r; [|done]. by intros [= <- <-]. Qed.

Lemma preserves_bind {A B} (m : act St A) (f : A -> act St B) :
  preserves R m -> (forall a, preserves R (f a)) -> preserves R (m ≫= f).
Proof using All. intros Hm Hf s b s'' (a & s' & E1 & E2)%act_bind_ok. etrans; [by eapply Hm|by eapply Hf]. Qed.

End runs.

Create HintDb preserves.
#[export] Hint Extern 0 (preserves _ (mret _)) => apply preserves_ret; apply _ : preserves.
#[export] Hint Extern 0 (preserves _ (gets _)) => apply preserves_gets; apply _ : preserves.
#[export] Hint Extern 0 (preserves _ (lift _)) => apply preserves_lift; apply _ : preserves.

(** Goes through the code of an operation, with the hints for its calls. *)
Ltac preserves_step :=
  first [ apply preserves_bind; [apply _| |intros ?] | solve [eauto with preserves] | case_match ].

(** One step of a proof about stateful code. *)
Ltac run_step :=
  first [ apply runs_bind | apply runs_ret | apply runs_gets | apply runs_modify | apply runs_when; intros ? ].

Declare Scope try_scope.
Delimit Scope try_scope with try.
Notation "'TRY' x ← m ; k" := (try m (fun x => k))
  (at level 20, x pattern, m at level 100, k at level 200, only parsing) : try_scope.
Open Scope try_scope.

(** ** Machine integers *)

Section machine_integers.
Local Open Scope Z_scope.

Definition u64_max : Z := 2 ^ 64 - 1.
Definition u64 (z : Z) : Z := z mod 2 ^ 64.
Definition u32 (z : Z) : Z := z mod 2 ^ 32.
Definition is_u64 (z : Z) : Prop := 0 <= z < 2 ^ 64.

Lemma u64_range z : is_u64 (u64 z).
Proof. apply Z.mod_pos_bound. lia. Qed.

Lemma u64_id z : is_u64 z -> u64 z = z.
Proof. apply Z.mod_small. Qed.

Lemma u64_pred_succ z : is_u64 z -> u64 (u64 (z + 1) - 1) = z.
Proof.
  intros H. unfold u64. rewrite Zminus_mod_idemp_l.
  replace (z + 1 - 1) with z by lia. by apply Z.mod_small.
Qed.

Lemma u64_add_id a b : u64 (u64 a + b) = u64 (a + b).
Proof. unfold u64. by rewrite Zplus_mod_idemp_l. Qed.

End machine_integers.

(** Linear arithmetic with the bounds of 64-bit integers. *)
Ltac u64_lia := unfold is_u64, u64_max in *; lia.

(** ** Byte strings

    A [std::string] (and a [base::Buffer]) is a sequence of bytes. *)

Abbreviation bytes := (list ascii).

Definition str (s : string) : bytes := String.list_ascii_of_string s.
Definition slash : ascii := "/"%char.

(** *** Lexicographic comparison

    [std::lexicographical_compare] over [char] compares with the platform's
    [char], whose signedness is implementation defined; RocksDB's default
    comparator compares bytes as unsigned.  Both are [lex_lt] for a valuation
    of the bytes. *)
Section lexicographic.
Local Open Scope Z_scope.

Definition uchar (c : ascii) : Z := Z.of_N (N_of_ascii c).
Definition schar (c : ascii) : Z := if uchar c <? 128 then uchar c else uchar c - 256.

Fixpoint lex_lt (f : ascii -> Z) (a b : bytes) : bool :=
  match a, b with
  | _, [] => false
  | [], _ :: _ => true
  | x :: a, y :: b =>
      if f x <? f y then true else if f y <? f x then false else lex_lt f a b
  end.

Lemma uchar_inj x y : uchar x = uchar y -> x = y.
Proof.
  unfold uchar. intros H%N2Z.inj.
  rewrite <-(ascii_N_embedding x), <-(ascii_N_embedding y). by rewrite H.
Qed.

Lemma uchar_range x : 0 <= uchar x < 256.
Proof. unfold uchar. pose proof (N_ascii_bounded x). lia. Qed.

Lemma schar_inj x y : schar x = schar y -> x = y.
Proof.
  intros H. apply uchar_inj. unfold schar in H.
  pose proof (uchar_range x). pose proof (uchar_range y).
  destruct (Z.ltb_spec (uchar x) 128), (Z.ltb_spec (uchar y) 128); lia.
Qed.

Section order.
Context (f : ascii -> Z) (Hinj : forall x y, f x = f y -> x = y).

Ltac lex_cases := repeat match goal with
  | H : context [Z.ltb ?a ?b] |- _ => destruct (Z.ltb_spec a b)
  | |- context [Z.ltb ?a ?b] => destruct (Z.ltb_spec a b)
  end; try lia; try done.

Lemma lex_lt_irrefl a : lex_lt f a a = false.
Proof. induction a as [|x a IH]; simpl; [done|]. lex_cases. Qed.

Lemma lex_lt_trans a b c :
  lex_lt f a b = true -> lex_lt f b c = true -> lex_lt f a c = true.
Proof.
  revert b c. induction a as [|x a IH]; intros [|y b] [|z c]; simpl; try done.
  intros H1 H2. lex_cases. eauto.
Qed.

Lemma lex_lt_total a b : a <> b -> lex_lt f a b = false -> lex_lt f b a = true.
Proof using Hinj.
  revert b. induction a as [|x a IH]; intros [|y b]; simpl; try done.
  intros Hne H. lex_cases. apply IH; [|done].
  intros ->. apply Hne. f_equal. apply Hinj. lia.
Qed.

Lemma lex_lt_asym a b : lex_lt f a b = true -> lex_lt f b a = false.
Proof.
  intros H. destruct (lex_lt f b a) eqn:E; [|done].
  pose proof (lex_lt_trans _ _ _ H E) as C. by rewrite lex_lt_irrefl in C.
Qed.
End order.
End lexicographic.

(** The elements of a [std::set] of strings, and the entries of a [std::map],
    in the order of their keys. *)
Definition key_le (a b : bytes) : Prop := lex_lt uchar b a = false.
Definition pair_le {A} (a b : bytes * A) : Prop := key_le a.1 b.1.

#[export] Instance key_le_dec (a b : bytes) : Decision (key_le a b).
Proof. unfold key_le. apply _. Defined.
#[export] Instance pair_le_dec {A} (a b : bytes * A) : Decision (pair_le a b).
Proof. unfold pair_le. apply _. Defined.

#[export] Instance pair_le_total {A} : Total (@pair_le A).
Proof.
  intros a b. unfold pair_le, key_le. destruct (lex_lt uchar b.1 a.1) eqn:E; [|by left].
  right. by apply lex_lt_asym.
Qed.

#[export] Instance pair_le_trans {A} : Transitive (@pair_le A).
Proof.
  intros a b c Hab Hbc. unfold pair_le, key_le in *.
  destruct (lex_lt uchar c.1 a.1) eqn:E; [exfalso|done].
  destruct (decide (c.1 = b.1)) as [Heq|Hne]; [rewrite Heq in E; congruence|].
  apply (lex_lt_total uchar uchar_inj) in Hbc; [|done].
  pose proof (lex_lt_trans uchar _ _ _ Hbc E). congruence.
Qed.

Definition set_in_order (s : gset bytes) : list bytes := merge_sort key_le (elements s).
Definition in_key_order {A} (m : gmap bytes A) : list (bytes * A) := merge_sort pair_le (map_to_list m).

Lemma set_in_order_permutation (s : gset bytes) : set_in_order s ≡ₚ elements s.
Proof. apply merge_sort_Permutation. Qed.

Lemma in_key_order_permutation {A} (m : gmap bytes A) : in_key_order m ≡ₚ map_to_list m.
Proof. apply merge_sort_Permutation. Qed.

(** *** Decimal conversions

    [std::to_string] on an unsigned 64-bit integer, and the value of a string
    of decimal digits. *)
Section decimal.
Local Open Scope Z_scope.

Definition digit_char (d : Z) : ascii := ascii_of_N (Z.to_N (d + 48)).
Definition digit_val (c : ascii) : Z := uchar c - 48.
Definition is_digit (c : ascii) : bool := (0 <=? digit_val c) && (digit_val c <=? 9).

Fixpoint dec_digits (fuel : nat) (n : Z) (acc : bytes) : bytes :=
  match fuel with
  | O => acc
  | S fuel =>
      let acc' := digit_char (n mod 10) :: acc in
      if n <? 10 then acc' else dec_digits fuel (n / 10) acc'
  end.

(** A number has at most as many decimal as binary digits, so the fuel
    suffices (see [to_string_value]). *)
Definition to_string (n : Z) : bytes := dec_digits (S (Z.to_nat (Z.log2 n))) n [].

Definition dec_value (s : bytes) : Z :=
  fold_left (fun a c => 10 * a + digit_val c) s 0.

Lemma digit_char_val d : 0 <= d <= 9 -> digit_val (digit_char d) = d.
Proof.
  intros H. unfold digit_val, digit_char, uchar.
  rewrite N_ascii_embedding by lia. lia.
Qed.

Lemma digit_char_is_digit d : 0 <= d <= 9 -> is_digit (digit_char d) = true.
Proof. intros H. unfold is_digit. rewrite digit_char_val by done. lia. Qed.

Lemma dec_digits_value fuel n acc a :
  0 <= n < 10 ^ Z.of_nat fuel -> n = 0 \/ a = 0 ->
  exists k, fold_left (fun a c => 10 * a + digit_val c) (dec_digits fuel n acc) a
    = fold_left (fun a c => 10 * a + digit_val c) acc (10 ^ k * a + n).
Proof.
  revert n acc. induction fuel as [|fuel IH]; intros n acc Hn Ha.
  { exists 0. simpl. f_equal. change (10 ^ Z.of_nat 0) with 1 in Hn. lia. }
  simpl. assert (0 <= n mod 10 <= 9) as Hd by (pose proof (Z.mod_pos_bound n 10); lia).
  destruct (Z.ltb_spec n 10) as [Hlt|Hge].
  { exists 1. simpl. f_equal. rewrite digit_char_val by done.
    rewrite Z.mod_small by lia. lia. }
  assert (a = 0) as -> by lia.
  rewrite Nat2Z.inj_succ, Z.pow_succ_r in Hn by lia.
  destruct (IH (n / 10) (digit_char (n mod 10) :: acc)) as [k Hk].
  - split; [apply Z.div_pos; lia|]. apply Z.div_lt_upper_bound; lia.
  - by right.
  - exists k. rewrite Hk. simpl. f_equal. rewrite digit_char_val by done.
    pose proof (Z.div_mod n 10). lia.
Qed.

Lemma dec_digits_digits fuel n acc :
  forallb is_digit acc = true -> 0 <= n -> forallb is_digit (dec_digits fuel n acc) = true.
Proof.
  revert n acc. induction fuel as [|fuel IH]; intros n acc Hacc Hn; simpl; [done|].
  assert (is_digit (digit_char (n mod 10)) = true) as Hd.
  { apply digit_char_is_digit. pose proof (Z.mod_pos_bound n 10). lia. }
  destruct (n <? 10); simpl; [by rewrite Hd|].
  apply IH; [simpl; by rewrite Hd|]. apply Z.div_pos; lia.
Qed.

Lemma dec_digits_nonempty fuel n acc : dec_digits (S fuel) n acc <> [].
Proof.
  revert n acc. induction fuel as [|fuel IH]; intros n acc; simpl.
  { by destruct (n <? 10). }
  destruct (n <? 10); [done|]. apply IH.
Qed.

Lemma to_string_fuel n : 0 <= n -> n < 10 ^ Z.of_nat (S (Z.to_nat (Z.log2 n))).
Proof.
  intros Hn. rewrite Nat2Z.inj_succ, Z2Nat.id by apply Z.log2_nonneg.
  destruct (Z.eq_dec n 0) as [->|]; [by vm_compute|].
  pose proof (Z.log2_spec n ltac:(lia)) as [_ H].
  eapply Z.lt_le_trans; [exact H|]. apply Z.pow_le_mono_l. lia.
Qed.

Lemma to_string_value n : 0 <= n -> dec_value (to_string n) = n.
Proof.
  intros Hn. unfold dec_value, to_string.
  destruct (dec_digits_value (S (Z.to_nat (Z.log2 n))) n [] 0) as [k ->]; [|by right|].
  - split; [done|]. by apply to_string_fuel.
  - simpl. lia.
Qed.

Lemma to_string_digits n : 0 <= n -> forallb is_digit (to_string n) = true.
Proof. intros. by apply dec_digits_digits. Qed.

Lemma to_string_nonempty n : to_string n <> [].
Proof. apply dec_digits_nonempty. Qed.

Lemma dec_value_app a b : dec_value (a ++ b) = dec_value a * 10 ^ Z.of_nat (length b) + dec_value b.
Proof.
  unfold dec_value. rewrite fold_left_app. generalize (fold_left (fun a c => 10 * a + digit_val c) a 0).
  intros z. revert z. induction b as [|c b IH] using rev_ind; intros z; [simpl; lia|].
  rewrite !fold_left_app, IH, length_app. simpl.
  rewrite Nat2Z.inj_add, Z.pow_add_r by lia. change (10 ^ Z.of_nat 1) with 10. lia.
Qed.

Lemma dec_value_range s :
  forallb is_digit s = true -> 0 <= dec_value s < 10 ^ Z.of_nat (length s).
Proof.
  induction s as [|c s IH] using rev_ind; [done|].
  rewrite forallb_app. simpl. rewrite andb_true_r. intros [Hs Hc]%andb_prop.
  rewrite dec_value_app, length_app. simpl. specialize (IH Hs).
  unfold is_digit in Hc. apply andb_prop in Hc as [? ?].
  rewrite Nat2Z.inj_add, Z.pow_add_r by lia. change (10 ^ Z.of_nat 1) with 10.
  unfold dec_value at 2 4. simpl. lia.
Qed.

Lemma dec_value_zeros n : dec_value (replicate n "0"%char) = 0.
Proof.
  induction n as [|n IH]; [done|]. rewrite replicate_S_end, dec_value_app, IH. done.
Qed.

Lemma dec_digits_length fuel n acc (p : nat) :
  0 <= n < 10 ^ Z.of_nat p -> (1 <= p)%nat -> (length (dec_digits fuel n acc) <= p + length acc)%nat.
Proof.
  revert n acc p. induction fuel as [|fuel IH]; intros n acc p Hn Hp; simpl; [lia|].
  destruct (Z.ltb_spec n 10); [simpl; lia|].
  destruct p as [|[|p]]; [lia|change (10 ^ Z.of_nat 1) with 10 in Hn; lia|].
  etrans; [apply (IH _ _ (S p))|simpl; lia]; [|lia].
  rewrite (Nat2Z.inj_succ (S p)), Z.pow_succ_r in Hn by lia.
  split; [apply Z.div_pos; lia|]. apply Z.div_lt_upper_bound; lia.
Qed.

Lemma to_string_length n (p : nat) :
  0 <= n < 10 ^ Z.of_nat p -> (1 <= p)%nat -> (length (to_string n) <= p)%nat.
Proof. intros Hn Hp. etrans; [by apply (dec_digits_length _ _ _ p)|]. simpl. lia. Qed.

Lemma to_string_inj n m : 0 <= n -> 0 <= m -> to_string n = to_string m -> n = m.
Proof. intros Hn Hm H. by rewrite <-(to_string_value n), <-(to_string_value m), H. Qed.
End decimal.

(** Printed numbers. *)
Create HintDb decimal discriminated.
#[export] Hint Resolve to_string_digits to_string_nonempty to_string_value : decimal.

(** *** String operations of the standard library *)

Fixpoint starts_with (p s : bytes) : bool :=
  match p, s with
  | [], _ => true
  | x :: p, y :: s => if decide (x = y) then starts_with p s else false
  | _ :: _, [] => false
  end.

Lemma starts_with_prefix p s : starts_with p s = true <-> p `prefix_of` s.
Proof.
  revert s. induction p as [|x p IH]; intros s; simpl.
  { split; [intros _; apply prefix_nil|done]. }
  destruct s as [|y s].
  { split; [done|]. by intros ?%prefix_nil_not. }
  case_decide as Hxy.
  - subst. rewrite IH. split; [apply prefix_cons|apply prefix_cons_inv_2].
  - split; [done|]. intros ?%prefix_cons_inv_1. by destruct Hxy.
Qed.

Lemma starts_with_app p s : starts_with p (p ++ s) = true.
Proof. apply starts_with_prefix. by apply prefix_app_r. Qed.

(** Position of the first occurrence of [pat] in [s], [std::string::find]. *)
Fixpoint find_sub (pat s : bytes) : option nat :=
  if starts_with pat s then Some 0 else
  match s with
  | [] => None
  | _ :: s => S <$> find_sub pat s
  end.

Lemma find_sub_char c a s : c ∉ a -> find_sub [c] (a ++ c :: s) = Some (length a).
Proof.
  induction a as [|x a IH]; intros Hn; cbn -[decide].
  { by rewrite decide_True. }
  rewrite decide_False by set_solver. by rewrite IH by set_solver.
Qed.

Lemma find_sub_none c a : c ∉ a -> find_sub [c] a = None.
Proof.
  induction a as [|x a IH]; intros Hn; cbn -[decide]; [done|].
  rewrite decide_False by set_solver. by rewrite IH by set_solver.
Qed.

(** [s.find(pat, pos)]: the search starts at [pos]. *)
Definition find_from (pat s : bytes) (pos : nat) : option nat :=
  if decide (length s < pos) then None else Nat.add pos <$> find_sub pat (drop pos s).

(** A string that has [p] as a prefix lies, in the byte order, at or after
    [p], and every string between [p] and an extension of [p] extends [p]. *)
Lemma lex_between_prefix f (Hinj : forall x y, f x = f y -> x = y) p k s :
  lex_lt f k p = false -> lex_lt f k (p ++ s) = true -> starts_with p k = true.
Proof.
  revert k. induction p as [|x p IH]; intros [|y k]; simpl; try done.
  intros H1 H2. destruct (Z.ltb_spec (f y) (f x)); [done|].
  destruct (Z.ltb_spec (f x) (f y)); [done|].
  assert (x = y) as -> by (apply Hinj; lia).
  rewrite decide_True by done. eauto.
Qed.

Lemma prefix_not_lex_lt f p s : lex_lt f (p ++ s) p = false.
Proof.
  induction p as [|x p IH]; simpl; [by destruct s|].
  destruct (Z.ltb_spec (f x) (f x)); [lia|done].
Qed.

(** ** Ordered associative containers

    A [std::map] keyed by byte strings, as the list of its entries in key
    order; [emplace] keeps an entry that is already there. *)

Fixpoint map_emplace {V} (k : bytes) (v : V) (m : list (bytes * V)) : list (bytes * V) :=
  match m with
  | [] => [(k, v)]
  | (k', v') :: m' =>
      if lex_lt uchar k k' then (k, v) :: m
      else if lex_lt uchar k' k then (k', v') :: map_emplace k v m'
      else m
  end.

Lemma map_emplace_elem {V} (k : bytes) (v : V) m kv :
  k ∉ m.*1 -> kv ∈ map_emplace k v m <-> kv = (k, v) \/ kv ∈ m.
Proof.
  induction m as [|[k' v'] m IH]; intros Hk; simpl.
  { rewrite list_elem_of_singleton. set_solver. }
  destruct (lex_lt uchar k k') eqn:E1; [by rewrite elem_of_cons|].
  destruct (lex_lt uchar k' k) eqn:E2.
  - rewrite !elem_of_cons, IH by set_solver. naive_solver.
  - destruct Hk. destruct (decide (k = k')) as [->|Hne]; [set_solver|].
    apply (lex_lt_total uchar uchar_inj) in E1; [congruence|done].
Qed.

Lemma map_emplace_keys {V} (k : bytes) (v : V) m k' :
  k' ∈ (map_emplace k v m).*1 -> k' = k \/ k' ∈ m.*1.
Proof.
  induction m as [|[k2 v2] m IH]; simpl; [set_solver|].
  destruct (lex_lt uchar k k2); [set_solver|].
  destruct (lex_lt uchar k2 k); simpl; [|by right].
  rewrite !elem_of_cons. naive_solver.
Qed.

(** ** Lists *)

Lemma filter_iff_mem {A} (P Q : A -> Prop) `{!forall x, Decision (P x), !forall x, Decision (Q x)} (l : list A) :
  (forall x, x ∈ l -> P x <-> Q x) -> filter P l = filter Q l.
Proof.
  induction l as [|x l IH]; intros HPQ; [done|]. rewrite !filter_cons.
  assert (P x <-> Q x) as Hx by (apply HPQ; left).
  destruct (decide (P x)), (decide (Q x)); [f_equal| tauto | tauto |]; apply IH; intros y Hy; apply HPQ; by right.
Qed.

Lemma filter_all {A} (P : A -> Prop) `{!forall x, Decision (P x)} (l : list A) :
  (forall x, x ∈ l -> P x) -> filter P l = l.
Proof.
  induction l as [|x l IH]; intros HP; [done|]. rewrite filter_cons_True; [|apply HP; left].
  f_equal. apply IH. intros y Hy. apply HP. by right.
Qed.

Lemma filter_none {A} (P : A -> Prop) `{!forall x, Decision (P x)} (l : list A) :
  (forall x, x ∈ l -> ~ P x) -> filter P l = [].
Proof.
  induction l as [|x l IH]; intros HP; [done|]. rewrite filter_cons_False; [|apply HP; left].
  apply IH. intros y Hy. apply HP. by right.
Qed.

Lemma NoDup_fmap_eq {A B} (f : A -> B) (l : list A) x y :
  NoDup (f <$> l) -> x ∈ l -> y ∈ l -> f x = f y -> x = y.
Proof.
  induction l as [|z l IH]; cbn; intros Hnd Hx Hy Heq; [set_solver|]. apply NoDup_cons in Hnd as [Hz Hnd].
  assert (forall w, w ∈ l -> f w <> f z) as Hw by (intros w Hw Hf; apply Hz; rewrite <- Hf; by apply list_elem_of_fmap_2).
  apply elem_of_cons in Hx as [->|Hx], Hy as [->|Hy]; [done| | |by apply IH].
  - by destruct (Hw y Hy).
  - by destruct (Hw x Hx).
Qed.

Lemma fmap_concat {A B} (f : A -> B) (l : list (list A)) : fmap (M:=list) f (concat l) = concat (fmap (M:=list) (fmap (M:=list) f) l).
Proof. induction l as [|a l IH]; [done|]. cbn. by rewrite fmap_app, IH. Qed.

Lemma elem_of_concat_fmap {A B} (f : A -> list B) l x : x ∈ concat (f <$> l) <-> exists a, a ∈ l /\ x ∈ f a.
Proof.
  induction l as [|a l IH]; cbn; [set_solver|]. rewrite elem_of_app, IH. set_solver.
Qed.

(** ** Countable data as byte strings

    An encoding of any countable type, for the concrete codecs of the
    examples. *)

Fixpoint pos_bits (p : positive) : bytes :=
  match p with
  | xH => ["1"%char]
  | xO p => "0"%char :: pos_bits p
  | xI p => "I"%char :: pos_bits p
  end.

Fixpoint bits_pos (b : bytes) : option positive :=
  match b with
  | [] => None
  | c :: b =>
      if decide (c = "1"%char) then Some xH
      else if decide (c = "0"%char) then xO <$> bits_pos b
      else xI <$> bits_pos b
  end.

Lemma bits_pos_bits p : bits_pos (pos_bits p) = Some p.
Proof. induction p as [p IH|p IH|]; simpl; rewrite ?IH; done. Qed.

Definition encode_bytes `{Countable A} (x : A) : bytes := pos_bits (encode x).
Definition decode_bytes `{Countable A} (b : bytes) : option A := bits_pos b ≫= decode.

Lemma decode_encode_bytes `{Countable A} (x : A) : decode_bytes (encode_bytes x) = Some x.
Proof. unfold decode_bytes, encode_bytes. rewrite bits_pos_bits. apply decode_encode. Qed.
