(* ===== verification/Store.v ===== *)
(** * The key-value store

    The RocksDB library is not part of the repository: it is the class
    [RocksDBLib], the operations the code calls, and [RocksDBHealthy], what
    their documentation promises when no operation reports an I/O error.  The
    wrapper [storage/rocksdb/rocksdb.cpp] and its write batch are modelled over
    that class in [Module RocksDb].  [map_db] is an instance of the class. *)

From S2P Require Import Prelude.

Inductive Status : Type :=
  | Status_ok | Status_NotFound | Status_IOError | Status_InvalidArgument
  | Status_Corruption | Status_NotSupported | Status_other.

(** One record of a [WriteBatch]. *)
Inductive batch_op : Type :=
  | BPut (k v : bytes)
  | BDelete (k : bytes).

(** [DB_Seek db t] is the sequence of entries an iterator yields after
    [Seek(t)], and [DB_SeekToFirst db] the one it yields after
    [SeekToFirst()]. *)
Class RocksDBLib (DB : Type) := {
  DB_Get : DB -> bytes -> Status * bytes;
  DB_Put : DB -> bytes -> bytes -> Status * DB;
  DB_Delete : DB -> bytes -> Status * DB;
  DB_Write : DB -> list batch_op -> Status * DB;
  DB_Seek : DB -> bytes -> list (bytes * bytes);
  DB_SeekToFirst : DB -> list (bytes * bytes)
}.

Definition batch_op_apply (m : gmap bytes bytes) (op : batch_op) : gmap bytes bytes :=
  match op with
  | BPut k v => <[k := v]> m
  | BDelete k => delete k m
  end.

Definition batch_apply (ops : list batch_op) (m : gmap bytes bytes) : gmap bytes bytes :=
  fold_left batch_op_apply ops m.

(** Keys in strictly increasing byte order. *)
Definition key_lt (a b : bytes * bytes) : Prop := lex_lt uchar a.1 b.1 = true.

Class RocksDBHealthy (DB : Type) `{RocksDBLib DB} := {
  db_view : DB -> gmap bytes bytes;
  DB_Get_spec db k :
    match db_view db !! k with
    | Some v => DB_Get db k = (Status_ok, v)
    | None => (DB_Get db k).1 = Status_NotFound
    end;
  DB_Put_spec db k v :
    (DB_Put db k v).1 = Status_ok /\
    db_view (DB_Put db k v).2 = <[k := v]> (db_view db);
  DB_Delete_spec db k :
    (DB_Delete db k).1 = Status_ok /\
    db_view (DB_Delete db k).2 = delete k (db_view db);
  DB_Write_spec db ops :
    (DB_Write db ops).1 = Status_ok /\
    db_view (DB_Write db ops).2 = batch_apply ops (db_view db);
  DB_Seek_elem db t k v :
    (k, v) ∈ DB_Seek db t <-> db_view db !! k = Some v /\ lex_lt uchar k t = false;
  DB_Seek_sorted db t : StronglySorted key_lt (DB_Seek db t);
  DB_SeekToFirst_elem db k v :
    (k, v) ∈ DB_SeekToFirst db <-> db_view db !! k = Some v;
  DB_SeekToFirst_sorted db : StronglySorted key_lt (DB_SeekToFirst db)
}.

Module RocksDb.
Section wrapper.
Context {DB : Type} `{!RocksDBLib DB}.

(** [error_as_result] of [rocksdb_util.hpp]. *)
Definition error_as_result (s : Status) : error :=
  database_error
    match s with
    | Status_ok => DB_OK
    | Status_NotFound => NOT_FOUND
    | Status_IOError => IO_ERROR
    | Status_InvalidArgument => INVALID_ARGUMENT
    | Status_Corruption => CORRUPTION
    | Status_NotSupported => NOT_SUPPORTED
    | Status_other => DB_UNKNOWN
    end.

Definition get (db : DB) (key : bytes) : outcome bytes :=
  let '(status, value) := DB_Get db key in
  match status with
  | Status_ok => Ok value
  | _ => Err (error_as_result status)
  end.

Fixpoint query_loop (prefix : bytes) (it results : list (bytes * bytes))
    : list (bytes * bytes) :=
  match it with
  | [] => results
  | (k, v) :: it =>
      if starts_with prefix k then query_loop prefix it (map_emplace k v results)
      else results
  end.

Definition query (db : DB) (keyPrefix : bytes) : outcome (list (bytes * bytes)) :=
  Ok (query_loop keyPrefix (DB_Seek db keyPrefix) []).

(** The loop body of the three-part query, after the prefix test. *)
Definition query3_keep (strKeyPrefix middle_part remainder_prefix key_string : bytes)
    (negated_query simplified_query : bool) : bool :=
  if negb simplified_query then
    match find_from remainder_prefix key_string (length strKeyPrefix) with
    | None => false
    | Some _ =>
        if negated_query then
          match find_from (drop 1 middle_part) key_string (length strKeyPrefix) with
          | None => true
          | Some _ => false
          end
        else true
    end
  else true.

Fixpoint query3_loop (strKeyPrefix : bytes) (keep : bytes -> bool)
    (it results : list (bytes * bytes)) : list (bytes * bytes) :=
  match it with
  | [] => results
  | (k, v) :: it =>
      if starts_with strKeyPrefix k then
        query3_loop strKeyPrefix keep it
          (if keep k then map_emplace k v results else results)
      else results
  end.

Definition query3 (db : DB) (prefix_base middle_part remainder_prefix : bytes)
    : outcome (list (bytes * bytes)) :=
  let negated_query := match middle_part with c :: _ => bool_decide (c = "!"%char) | [] => false end in
  let simplified_query := negb (bool_decide (middle_part = str "*")) && negb negated_query in
  let strKeyPrefix :=
    if simplified_query then prefix_base ++ middle_part ++ remainder_prefix else prefix_base in
  Ok (query3_loop strKeyPrefix
        (fun k => query3_keep strKeyPrefix middle_part remainder_prefix k
                    negated_query simplified_query)
        (DB_Seek db strKeyPrefix) []).

Definition contains (db : DB) (key : bytes) : bool := negb (has_failure (get db key)).

Definition empty (db : DB) : bool :=
  match DB_SeekToFirst db with [] => true | _ => false end.

Definition put (db : DB) (key value : bytes) : outcome unit * DB :=
  let '(status, db) := DB_Put db key value in
  match status with
  | Status_ok => (Ok tt, db)
  | _ => (Err (error_as_result status), db)
  end.

Definition remove (db : DB) (key : bytes) : outcome unit * DB :=
  let '(status, db) := DB_Delete db key in
  match status with
  | Status_ok => (Ok tt, db)
  | _ => (Err (error_as_result status), db)
  end.

Definition GetAll (db : DB) : list (bytes * bytes) := DB_SeekToFirst db.

(** The write batch: the records put so far, oldest first. *)
Definition batch : list batch_op := [].
Definition batch_put (b : list batch_op) (key value : bytes) : list batch_op :=
  b ++ [BPut key value].
Definition batch_remove (b : list batch_op) (key : bytes) : list batch_op :=
  b ++ [BDelete key].
Definition batch_clear (b : list batch_op) : list batch_op := [].
Definition batch_commit (b : list batch_op) (db : DB) : outcome unit * DB :=
  let '(status, db) := DB_Write db b in
  match status with
  | Status_ok => (Ok tt, db)
  | _ => (Err (error_as_result status), db)
  end.

Section healthy.
Context `{!RocksDBHealthy DB}.

Lemma get_spec (db : DB) k :
  get db k = ok_or (database_error NOT_FOUND) (db_view db !! k).
Proof.
  unfold get. pose proof (DB_Get_spec db k) as H.
  destruct (db_view db !! k); simpl; [by rewrite H|].
  destruct (DB_Get db k) as [s v]. simpl in H. by subst s.
Qed.

Lemma contains_spec (db : DB) k :
  contains db k = bool_decide (is_Some (db_view db !! k)).
Proof.
  unfold contains. rewrite get_spec. by destruct (db_view db !! k).
Qed.

Lemma put_spec (db : DB) k v :
  exists db', put db k v = (Ok tt, db') /\ db_view db' = <[k := v]> (db_view db).
Proof.
  unfold put. destruct (DB_Put_spec db k v) as [H1 H2].
  destruct (DB_Put db k v) as [s db']. simpl in *. subst s. eauto.
Qed.

Lemma remove_spec (db : DB) k :
  exists db', remove db k = (Ok tt, db') /\ db_view db' = delete k (db_view db).
Proof.
  unfold remove. destruct (DB_Delete_spec db k) as [H1 H2].
  destruct (DB_Delete db k) as [s db']. simpl in *. subst s. eauto.
Qed.

Lemma batch_commit_spec (db : DB) b :
  exists db', batch_commit b db = (Ok tt, db') /\ db_view db' = batch_apply b (db_view db).
Proof.
  unfold batch_commit. destruct (DB_Write_spec db b) as [H1 H2].
  destruct (DB_Write db b) as [s db']. simpl in *. subst s. eauto.
Qed.

(** The entries an iterator yields before the first key without the prefix
    are the entries with the prefix. *)
Lemma query_loop_spec prefix it results kv :
  StronglySorted key_lt it ->
  (forall k v, (k, v) ∈ it -> lex_lt uchar k prefix = false) ->
  (forall k, k ∈ results.*1 -> k ∉ it.*1) ->
  kv ∈ query_loop prefix it results <->
  kv ∈ results \/ (kv ∈ it /\ starts_with prefix kv.1 = true).
Proof.
  revert results. induction it as [|[k v] it IH]; intros results Hs Hge Hdisj; simpl.
  { set_solver. }
  apply StronglySorted_inv in Hs as [Hs Hk]. rewrite Forall_forall in Hk.
  destruct (starts_with prefix k) eqn:Ep.
  - rewrite IH; [| done | set_solver |].
    + rewrite map_emplace_elem, elem_of_cons; [naive_solver|]. set_solver.
    + intros k' [->|Hin]%map_emplace_keys; [|set_solver].
      intros ([k2 v2] & Heq & Hin)%list_elem_of_fmap. simpl in Heq. subst k2.
      specialize (Hk _ Hin). unfold key_lt in Hk. simpl in Hk.
      by rewrite lex_lt_irrefl in Hk.
  - split; [by left|]. intros [?|[Hin Hp]]; [done|exfalso].
    rewrite elem_of_cons in Hin. destruct Hin as [->|Hin]; [simpl in Hp; congruence|].
    destruct kv as [k' v']. simpl in *. apply starts_with_prefix in Hp as [s ->].
    specialize (Hk _ Hin). unfold key_lt in Hk. simpl in Hk.
    assert (starts_with prefix k = true); [|congruence].
    eapply lex_between_prefix; [apply uchar_inj| |exact Hk].
    apply (Hge k v). apply elem_of_cons. by left.
Qed.

(** [query] returns the entries whose key has the prefix. *)
Lemma query_spec (db : DB) prefix :
  exists res, query db prefix = Ok res /\
    forall k v, (k, v) ∈ res <-> db_view db !! k = Some v /\ prefix `prefix_of` k.
Proof.
  unfold query. eexists. split; [done|]. intros k v.
  rewrite query_loop_spec.
  - rewrite DB_Seek_elem, <-starts_with_prefix. simpl. split; [set_solver|].
    intros [Hk Hp]. right. split; [|done]. split; [done|].
    apply starts_with_prefix in Hp as [s ->]. apply prefix_not_lex_lt.
  - apply DB_Seek_sorted.
  - intros k' v' [_ ?]%DB_Seek_elem. done.
  - set_solver.
Qed.
End healthy.
End wrapper.
End RocksDb.

(** ** An in-memory instance of the library interface

    A finite map whose iterator sorts the entries by key. *)

Definition sorted_entries (m : gmap bytes bytes) : list (bytes * bytes) := in_key_order m.

Definition map_db_seek (m : gmap bytes bytes) (t : bytes) : list (bytes * bytes) :=
  filter (fun kv => lex_lt uchar kv.1 t = false) (sorted_entries m).

#[export] Instance map_db : RocksDBLib (gmap bytes bytes) := {
  DB_Get m k := match m !! k with
                | Some v => (Status_ok, v)
                | None => (Status_NotFound, [])
                end;
  DB_Put m k v := (Status_ok, <[k := v]> m);
  DB_Delete m k := (Status_ok, delete k m);
  DB_Write m ops := (Status_ok, batch_apply ops m);
  DB_Seek := map_db_seek;
  DB_SeekToFirst := sorted_entries
}.

Lemma sorted_entries_elem m k v : (k, v) ∈ sorted_entries m <-> m !! k = Some v.
Proof.
  unfold sorted_entries. rewrite in_key_order_permutation. apply elem_of_map_to_list.
Qed.

Lemma sorted_entries_sorted m : StronglySorted key_lt (sorted_entries m).
Proof.
  assert (NoDup (sorted_entries m).*1) as Hnd.
  { unfold sorted_entries. rewrite in_key_order_permutation. apply NoDup_fst_map_to_list. }
  assert (StronglySorted pair_le (sorted_entries m)) as Hs
    by (apply (StronglySorted_merge_sort pair_le); apply _).
  induction Hs as [|a l Hs IH Ha]; [constructor|].
  rewrite fmap_cons, NoDup_cons in Hnd. destruct Hnd as [Hna Hnd].
  constructor; [by apply IH|]. rewrite Forall_forall in Ha |- *.
  intros b Hb. specialize (Ha b Hb). unfold pair_le, key_le, key_lt in *.
  apply (lex_lt_total uchar uchar_inj); [|done].
  intros Heq. apply Hna. rewrite <-Heq. by apply list_elem_of_fmap_2.
Qed.

Lemma StronglySorted_filter {A} (R : relation A) (P : A -> Prop) `{forall x, Decision (P x)} l :
  StronglySorted R l -> StronglySorted R (filter P l).
Proof.
  induction 1 as [|a l Hs IH Ha]; [constructor|].
  rewrite filter_cons. destruct (decide (P a)); [|done].
  constructor; [done|]. rewrite Forall_forall in Ha |- *.
  intros b [_ Hb]%list_elem_of_filter. eauto.
Qed.

#[export] Instance map_db_healthy : RocksDBHealthy (gmap bytes bytes).
Proof.
  refine {| db_view := fun m : gmap bytes bytes => m |}.
  - intros m k. simpl. by destruct (m !! k).
  - done.
  - done.
  - done.
  - intros m t k v. simpl. unfold map_db_seek.
    rewrite list_elem_of_filter, sorted_entries_elem. simpl. naive_solver.
  - intros m t. simpl. apply StronglySorted_filter, sorted_entries_sorted.
  - intros m k v. apply sorted_entries_elem.
  - intros m. apply sorted_entries_sorted.
Defined.
