(* ===== verification/HierarchicalKey.v ===== *)
(** * Hierarchical keys ([crdt/hierarchical_key.hpp], [crdt/impl/hierarchical_key.cpp])

    A key is a byte string that starts with a slash; [ChildString] appends a
    component.  The Boost string algorithms the CRDT code calls are the class
    [BoostLib], with their documented behaviour as [BoostSpec] and an instance
    [boost_ref]. *)

From S2P Require Import Prelude.

(** ** Boost *)

Fixpoint join_with (c : ascii) (l : list bytes) : bytes :=
  match l with
  | [] => []
  | [t] => t
  | t :: l => t ++ c :: join_with c l
  end.

(** [boost::split] on [is_any_of("/")], [boost::algorithm::ends_with] and
    [boost::lexical_cast<uint64_t>] (a thrown [bad_lexical_cast] is [None]). *)
Class BoostLib := {
  split_slash : bytes -> list bytes;
  ends_with : bytes -> bytes -> bool;
  lexical_cast_u64 : bytes -> option Z
}.

Class BoostSpec `{BoostLib} := {
  split_slash_join s : join_with slash (split_slash s) = s;
  split_slash_tokens s : Forall (fun t => slash ∉ t) (split_slash s);
  split_slash_nonempty s : split_slash s <> [];
  ends_with_spec s t : ends_with s t = true <-> t `suffix_of` s;
  lexical_cast_to_string n : is_u64 n -> lexical_cast_u64 (to_string n) = Some n;
  lexical_cast_range s n : lexical_cast_u64 s = Some n -> is_u64 n
}.

Fixpoint split_ref (s : bytes) : list bytes :=
  match s with
  | [] => [[]]
  | c :: s =>
      if decide (c = slash) then [] :: split_ref s
      else match split_ref s with [] => [[c]] | t :: l => (c :: t) :: l end
  end.

#[export] Instance boost_ref : BoostLib := {
  split_slash := split_ref;
  ends_with s t := bool_decide (t `suffix_of` s);
  lexical_cast_u64 s :=
    if forallb is_digit s && negb (bool_decide (s = [])) && (dec_value s <? 2 ^ 64)%Z
    then Some (dec_value s) else None
}.

Lemma split_ref_nonempty s : split_ref s <> [].
Proof. destruct s as [|c s]; simpl; [done|]. case_decide; [done|]. by destruct (split_ref s). Qed.

Lemma dec_value_nonneg s : forallb is_digit s = true -> (0 <= dec_value s)%Z.
Proof.
  assert (forall a, (0 <= a)%Z -> forallb is_digit s = true ->
    (0 <= fold_left (fun a c => 10 * a + digit_val c) s a)%Z) as H; [|by apply H].
  induction s as [|c s IH]; simpl; intros a Ha Hs; [done|].
  apply andb_prop in Hs as [Hc Hs]. apply IH; [|done].
  unfold is_digit in Hc. lia.
Qed.

#[export] Instance boost_ref_spec : BoostSpec.
Proof.
  split.
  - induction s as [|c s IH]; [done|]. simpl in *. case_decide as Hc.
    + subst. pose proof (split_ref_nonempty s).
      destruct (split_ref s) eqn:E; [done|]. simpl in *. by rewrite IH.
    + pose proof (split_ref_nonempty s).
      destruct (split_ref s) as [|t [|t' l]] eqn:E; [done|..]; simpl in *; by rewrite IH.
  - induction s as [|c s IH]; simpl in *.
    { repeat constructor. set_solver. }
    case_decide; [constructor; [set_solver|done]|].
    destruct (split_ref s); [repeat constructor; set_solver|].
    inversion IH; subst. constructor; [|done]. set_solver.
  - apply split_ref_nonempty.
  - intros s t. simpl. apply bool_decide_eq_true.
  - intros n Hn. simpl. rewrite to_string_digits, to_string_value by apply Hn.
    rewrite bool_decide_eq_false_2 by apply to_string_nonempty. simpl.
    destruct (Z.ltb_spec n (2 ^ 64)); [done|]. unfold is_u64 in Hn. lia.
  - intros s n. simpl. destruct (forallb is_digit s) eqn:E; [|done].
    destruct (negb _); [|done]. simpl.
    destruct (Z.ltb_spec (dec_value s) (2 ^ 64)); [|done].
    intros [= <-]. split; [by apply dec_value_nonneg|done].
Qed.

Lemma filter_eq_nil_iff (c : ascii) (t : bytes) : filter (fun x => x = c) t = [] <-> c ∉ t.
Proof.
  induction t as [|x t IH]; [set_solver|]. rewrite filter_cons.
  case_decide; [set_solver|]. rewrite IH. set_solver.
Qed.

Lemma join_with_count c l :
  Forall (fun t => c ∉ t) l -> l <> [] ->
  length (filter (fun x => x = c) (join_with c l)) + 1 = length l.
Proof.
  assert (forall t, c ∉ t -> filter (fun x => x = c) t = []) as Hnone.
  { intros t Ht. by apply filter_eq_nil_iff. }
  induction l as [|t l IH]; intros Hall Hne; [done|].
  inversion Hall as [|? ? Ht Hl]; subst. destruct l as [|t' l].
  { simpl. by rewrite Hnone. }
  change (join_with c (t :: t' :: l)) with (t ++ c :: join_with c (t' :: l)).
  rewrite filter_app, filter_cons_True, Hnone by done. simpl.
  specialize (IH Hl ltac:(done)). simpl in IH. lia.
Qed.

(** ** Keys *)

Module HKey.
Section hkey.
Context `{BoostLib}.

(** The constructor: a slash in front if missing, one trailing slash dropped. *)
Definition HierarchicalKey (key : bytes) : bytes :=
  let key := match key with
             | [] => [slash]
             | c :: _ => if decide (c = slash) then key else slash :: key
             end in
  if decide (1 < length key /\ last key = Some slash) then removelast key else key.

Definition ChildString (key_ s : bytes) : bytes :=
  let childString := match s with
                     | [] => s
                     | c :: _ => if decide (c = slash) then s else slash :: s
                     end in
  HierarchicalKey (key_ ++ childString).

Definition GetList (key_ : bytes) : list bytes :=
  match key_ with
  | [] => []
  | _ => tail (split_slash key_)
  end.

Definition IsTopLevel (key_ : bytes) : bool := bool_decide (length (GetList key_) = 1).
End hkey.

(** A key the CRDT code works with: it starts with a slash and does not end
    with one.  [HierarchicalKey] leaves such a key as it is. *)
Definition wf_key (k : bytes) : Prop := head k = Some slash /\ last k <> Some slash.

(** A path component: not empty, and without a slash. *)
Definition wf_name (s : bytes) : Prop := s <> [] /\ slash ∉ s.

#[export] Instance wf_key_dec k : Decision (wf_key k).
Proof. unfold wf_key. apply _. Defined.
#[export] Instance wf_name_dec k : Decision (wf_name k).
Proof. unfold wf_name. apply _. Defined.

Lemma HierarchicalKey_wf k : wf_key k -> HierarchicalKey k = k.
Proof.
  intros [Hh Hl]. unfold HierarchicalKey. destruct k as [|c k]; [done|].
  simpl in Hh. injection Hh as ->. destruct (decide (slash = slash)) as [_|]; [|done].
  rewrite decide_False; [done|]. intros [_ ?]. by apply Hl.
Qed.

Lemma wf_key_cons k : wf_key k -> exists s, k = slash :: s /\ s <> [].
Proof.
  intros [Hh Hl]. destruct k as [|c k]; [done|]. injection Hh as ->.
  exists k. split; [done|]. by intros ->.
Qed.

Lemma wf_key_app a b : wf_key a -> wf_key b -> wf_key (a ++ b).
Proof.
  intros [Ha _] Hb. destruct (wf_key_cons _ Hb) as (s & -> & _). split.
  - by destruct a.
  - rewrite last_app_cons. apply Hb.
Qed.

Lemma wf_key_name s : wf_name s -> wf_key (slash :: s).
Proof.
  intros [Hne Hs]. split; [done|]. intros Hl.
  destruct s as [|c s]; [done|]. change (last (slash :: c :: s)) with (last (c :: s)) in Hl.
  apply Hs. rewrite last_lookup in Hl. by eapply list_elem_of_lookup_2.
Qed.

Lemma ChildString_key a b : wf_key a -> wf_key b -> ChildString a b = a ++ b.
Proof.
  intros Ha Hb. unfold ChildString. destruct (wf_key_cons _ Hb) as (s & -> & _).
  rewrite decide_True by done. by apply HierarchicalKey_wf, wf_key_app.
Qed.

Lemma ChildString_name a s : wf_key a -> wf_name s -> ChildString a s = a ++ slash :: s.
Proof.
  intros Ha Hs. unfold ChildString. destruct s as [|c s]; [by destruct Hs|].
  rewrite decide_False by (intros ->; destruct Hs as [_ Hs]; set_solver).
  by apply HierarchicalKey_wf, wf_key_app, wf_key_name.
Qed.

Lemma IsTopLevel_spec `{BoostSpec} s :
  IsTopLevel (slash :: s) = bool_decide (slash ∉ s).
Proof.
  unfold IsTopLevel. apply bool_decide_ext. unfold GetList.
  pose proof (join_with_count slash (split_slash (slash :: s))
    (split_slash_tokens _) (split_slash_nonempty _)) as Hc.
  rewrite split_slash_join in Hc. rewrite filter_cons_True in Hc by done. simpl in Hc.
  pose proof (split_slash_nonempty (slash :: s)) as Hne.
  destruct (split_slash (slash :: s)) as [|t l]; [done|]. simpl in *.
  assert (length (filter (fun x => x = slash) s) = 0 <-> slash ∉ s) as <-; [|lia].
  by rewrite length_zero_iff_nil, filter_eq_nil_iff.
Qed.
End HKey.
