(* ===== verification/CrdtSet.v ===== *)
(** * The CRDT set ([crdt/crdt_set.hpp], [crdt/impl/crdt_set.cpp])

    An add-wins observed-remove set of key/value elements kept in the key-value
    store: every addition of a key by the DAG block [id] is the entry
    [/ns/s/key/id], every removal of that addition the entry [/ns/t/key/id],
    and the current value and priority of the key are [/ns/k/key/v] and
    [/ns/k/key/p]. *)

From S2P Require Import Prelude Store HierarchicalKey.

(** Whether [char] is signed is up to the platform the node is built for. *)
Class Platform := { char_signed : bool }.
Definition char_val `{Platform} (c : ascii) : Z := if char_signed then schar c else uchar c.

Lemma char_val_inj `{Platform} x y : char_val x = char_val y -> x = y.
Proof. unfold char_val. destruct char_signed; [apply schar_inj|apply uchar_inj]. Qed.

(** ** Messages of [crdt/proto/delta.proto] *)

Record Element := { el_key : bytes; el_id : bytes; el_value : bytes }.
Record Delta := { elements : list Element; tombstones : list Element; priority : Z }.

(** Calls of the put and delete hooks, in order. *)
Inductive HookEvent : Type :=
  | PutHook (k v : bytes)
  | DeleteHook (k : bytes).

Inductive QuerySuffix : Type := QUERY_ALL | QUERY_VALUESUFFIX | QUERY_PRIORITYSUFFIX.

Module CrdtSet.

(** The object: its namespace and whether the hooks are set.  [dataStore_] is
    a shared pointer, so the store is part of the state the operations pass
    on; it is [None] for a null pointer. *)
Record t := { namespaceKey_ : bytes; putHookFunc_ : bool; deleteHookFunc_ : bool }.

Definition elemsNamespace_ : bytes := str "s".
Definition tombsNamespace_ : bytes := str "t".
Definition keysNamespace_ : bytes := str "k".
Definition valueSuffix_ : bytes := str "v".
Definition prioritySuffix_ : bytes := str "p".

Definition SetPutHook (s : t) (putHookPtr : bool) : t :=
  {| namespaceKey_ := namespaceKey_ s; putHookFunc_ := putHookPtr;
     deleteHookFunc_ := deleteHookFunc_ s |}.

Definition SetDeleteHook (s : t) (deleteHookPtr : bool) : t :=
  {| namespaceKey_ := namespaceKey_ s; putHookFunc_ := putHookFunc_ s;
     deleteHookFunc_ := deleteHookPtr |}.

Section ops.
Context {DB : Type} `{!RocksDBLib DB} `{!BoostLib} `{!Platform}.

Record World := { dataStore_ : option DB; hook_events : list HookEvent }.

Definition set_db (w : World) (db : DB) : World :=
  {| dataStore_ := Some db; hook_events := hook_events w |}.
Definition add_event (w : World) (e : HookEvent) : World :=
  {| dataStore_ := dataStore_ w; hook_events := hook_events w ++ [e] |}.

Implicit Types (s : t) (w : World).

(** *** Keys *)

Definition KeyPrefix s (aKey : bytes) : bytes := HKey.ChildString (namespaceKey_ s) aKey.
Definition ElemsPrefix s (aKey : bytes) : bytes :=
  HKey.ChildString (KeyPrefix s elemsNamespace_) aKey.
Definition TombsPrefix s (aKey : bytes) : bytes :=
  HKey.ChildString (KeyPrefix s tombsNamespace_) aKey.
Definition KeysKey s (aKey : bytes) : bytes :=
  HKey.ChildString (KeyPrefix s keysNamespace_) aKey.
Definition ValueKey s (aKey : bytes) : bytes := HKey.ChildString (KeysKey s aKey) valueSuffix_.
Definition PriorityKey s (aKey : bytes) : bytes :=
  HKey.ChildString (KeysKey s aKey) prioritySuffix_.

(** *** Reading *)

Definition GetValueFromDatastore w (aKey : bytes) : outcome bytes :=
  match dataStore_ w with
  | None => Err error_code_zero
  | Some db => RocksDb.get db aKey
  end.

Definition InTombsKeyID s w (aKey aID : bytes) : outcome bool :=
  match dataStore_ w with
  | None => Err error_code_zero
  | Some db => Ok (RocksDb.contains db (HKey.ChildString (TombsPrefix s aKey) aID))
  end.

(** The loop of [InElemsNotTombstoned] over the entries found. *)
Fixpoint in_elems_loop s w (aKey strElemsPrefix : bytes) (res : list (bytes * bytes)) : bool :=
  match res with
  | [] => false
  | (keyWithPrefix, _) :: res =>
      let id := drop (length strElemsPrefix) keyWithPrefix in
      let hId := HKey.HierarchicalKey id in
      if negb (HKey.IsTopLevel hId) then in_elems_loop s w aKey strElemsPrefix res
      else match InTombsKeyID s w aKey hId with
           | Ok false => true
           | _ => in_elems_loop s w aKey strElemsPrefix res
           end
  end.

Definition InElemsNotTombstoned s w (aKey : bytes) : outcome bool :=
  let strElemsPrefix := ElemsPrefix s aKey in
  match dataStore_ w with
  | None => Err undefined_behaviour
  | Some db =>
      match RocksDb.query db strElemsPrefix with
      | Err e => Err e
      | Ok [] => Ok true
      | Ok res => Ok (in_elems_loop s w aKey strElemsPrefix res)
      end
  end.

Definition GetElement s w (aKey : bytes) : outcome bytes :=
  match GetValueFromDatastore w (ValueKey s aKey) with
  | Err e => Err e
  | Ok value =>
      match InElemsNotTombstoned s w aKey with
      | Err e => Err e
      | Ok false => Err error_code_zero
      | Ok true => Ok value
      end
  end.

Definition IsValueInSet s w (aKey : bytes) : outcome bool :=
  match dataStore_ w with
  | None => Err error_code_zero
  | Some db =>
      if negb (RocksDb.contains db (ValueKey s aKey)) then Ok false
      else match InElemsNotTombstoned s w aKey with
           | Err e => Err e
           | Ok b => Ok b
           end
  end.

(** The filter both [QueryElements] apply to the entries of their query. *)
Fixpoint query_elements_loop s w (aSuffix : QuerySuffix) (res : list (bytes * bytes))
    (elements : list (bytes * bytes)) : list (bytes * bytes) :=
  match res with
  | [] => elements
  | (key, v) :: res =>
      match InElemsNotTombstoned s w key with
      | Ok true =>
          let keep := match aSuffix with
                      | QUERY_ALL => true
                      | QUERY_PRIORITYSUFFIX => ends_with key (slash :: prioritySuffix_)
                      | QUERY_VALUESUFFIX => ends_with key (slash :: valueSuffix_)
                      end in
          query_elements_loop s w aSuffix res
            (if keep then map_emplace key v elements else elements)
      | _ => query_elements_loop s w aSuffix res elements
      end
  end.

Definition QueryElements s w (aPrefix : bytes) (aSuffix : QuerySuffix)
    : outcome (list (bytes * bytes)) :=
  match dataStore_ w with
  | None => Err error_code_zero
  | Some db =>
      match RocksDb.query db (KeysKey s aPrefix) with
      | Err e => Err e
      | Ok res => Ok (query_elements_loop s w aSuffix res [])
      end
  end.

Definition QueryElements3 s w (prefix_base middle_part remainder_prefix : bytes)
    (aSuffix : QuerySuffix) : outcome (list (bytes * bytes)) :=
  match dataStore_ w with
  | None => Err error_code_zero
  | Some db =>
      match RocksDb.query3 db (KeysKey s prefix_base ++ [slash]) middle_part remainder_prefix with
      | Err e => Err e
      | Ok res => Ok (query_elements_loop s w aSuffix res [])
      end
  end.

(** *** Deltas *)

Definition CreateDeltaToAdd (aKey aValue : bytes) : outcome Delta :=
  Ok {| elements := [{| el_key := aKey; el_id := []; el_value := aValue |}];
        tombstones := []; priority := 0 |}.

Fixpoint delta_to_remove_loop s w (aKey strElemsPrefix : bytes) (res : list (bytes * bytes))
    : list Element :=
  match res with
  | [] => []
  | (keyWithPrefix, _) :: res =>
      let id := drop (length strElemsPrefix) keyWithPrefix in
      let hId := HKey.HierarchicalKey id in
      if negb (HKey.IsTopLevel hId) then delta_to_remove_loop s w aKey strElemsPrefix res
      else match InTombsKeyID s w aKey hId with
           | Ok false =>
               {| el_key := aKey; el_id := hId; el_value := [] |}
                 :: delta_to_remove_loop s w aKey strElemsPrefix res
           | _ => delta_to_remove_loop s w aKey strElemsPrefix res
           end
  end.

Definition CreateDeltaToRemove s w (aKey : bytes) : outcome Delta :=
  let strElemsPrefix := ElemsPrefix s aKey in
  match dataStore_ w with
  | None => Err undefined_behaviour
  | Some db =>
      match RocksDb.query db strElemsPrefix with
      | Err e => Err e
      | Ok res => Ok {| elements := [];
                        tombstones := delta_to_remove_loop s w aKey strElemsPrefix res;
                        priority := 0 |}
      end
  end.

(** *** Priorities

    The stored text is the priority plus one, both ways modulo 2^64. *)

Definition GetPriority s w (aKey : bytes) : outcome Z :=
  match GetValueFromDatastore w (PriorityKey s aKey) with
  | Ok v =>
      match lexical_cast_u64 v with
      | Some n => Ok (u64 (n - 1))
      | None => Err error_code_zero
      end
  | Err e => if decide (e = database_error NOT_FOUND) then Ok 0%Z else Err e
  end.

Definition SetPriority s (aKey : bytes) (aPriority : Z) w : outcome unit * World :=
  match dataStore_ w with
  | None => (Err error_code_zero, w)
  | Some db =>
      let '(r, db) := RocksDb.put db (PriorityKey s aKey) (to_string (u64 (aPriority + 1))) in
      (r, set_db w db)
  end.

(** *** Writing

    [SetValue] on a batch puts the value into the batch but writes the
    priority to the store at once; the batch is the caller's to commit. *)

Definition SetValueBatch s (b : list batch_op) (aKey aID aValue : bytes) (aPriority : Z) w
    : outcome unit * list batch_op * World :=
  match InTombsKeyID s w aKey aID with
  | Err _ => (Err error_code_zero, b, w)
  | Ok true => (Ok tt, b, w)
  | Ok false =>
      match GetPriority s w aKey with
      | Err e => (Err e, b, w)
      | Ok prio =>
          if (aPriority <? prio)%Z then (Ok tt, b, w) else
          let store :=
            let b := RocksDb.batch_put b (ValueKey s aKey) aValue in
            match SetPriority s aKey aPriority w with
            | (Err e, w) => (Err e, b, w)
            | (Ok _, w) =>
                (Ok tt, b, if putHookFunc_ s then add_event w (PutHook aKey aValue) else w)
            end in
          if (aPriority =? prio)%Z then
            match GetValueFromDatastore w (ValueKey s aKey) with
            | Err e => (Err e, b, w)
            | Ok v => if negb (lex_lt char_val v aValue) then (Ok tt, b, w) else store
            end
          else store
      end
  end.

Definition SetValue s (aKey aID aValue : bytes) (aPriority : Z) w : outcome unit * World :=
  match dataStore_ w with
  | None => (Err error_code_zero, w)
  | Some _ =>
      match SetValueBatch s RocksDb.batch aKey aID aValue aPriority w with
      | (Err e, _, w) => (Err e, w)
      | (Ok _, b, w) =>
          match dataStore_ w with
          | None => (Err undefined_behaviour, w)
          | Some db => let '(r, db) := RocksDb.batch_commit b db in (r, set_db w db)
          end
      end
  end.

Fixpoint put_elems_loop s (aElems : list Element) (aID : bytes) (aPriority : Z)
    (b : list batch_op) w : outcome unit * list batch_op * World :=
  match aElems with
  | [] => (Ok tt, b, w)
  | elem :: aElems =>
      let key := el_key elem in
      let kNamespace := HKey.ChildString (ElemsPrefix s key) aID in
      let b := RocksDb.batch_put b kNamespace [] in
      match SetValueBatch s b key aID (el_value elem) aPriority w with
      | (Err e, b, w) => (Err e, b, w)
      | (Ok _, b, w) => put_elems_loop s aElems aID aPriority b w
      end
  end.

Definition PutElems s (aElems : list Element) (aID : bytes) (aPriority : Z) w
    : outcome unit * World :=
  match aElems with
  | [] => (Ok tt, w)
  | _ =>
      match dataStore_ w with
      | None => (Err error_code_zero, w)
      | Some _ =>
          match put_elems_loop s aElems aID aPriority RocksDb.batch w with
          | (Err e, _, w) => (Err e, w)
          | (Ok _, b, w) =>
              match dataStore_ w with
              | None => (Err undefined_behaviour, w)
              | Some db => let '(r, db) := RocksDb.batch_commit b db in (r, set_db w db)
              end
          end
      end
  end.

(** The identifier a tombstone is stored under. *)
Definition tomb_id (aID : bytes) (tomb : Element) : bytes :=
  match el_id tomb with [] => aID | id => id end.

Definition put_tombs_batch s (aTombs : list Element) (aID : bytes) : list batch_op :=
  fold_left (fun b tomb =>
    RocksDb.batch_put b (HKey.ChildString (TombsPrefix s (el_key tomb)) (tomb_id aID tomb)) [])
    aTombs RocksDb.batch.

Definition PutTombs s (aTombs : list Element) (aID : bytes) w : outcome unit * World :=
  match aTombs with
  | [] => (Ok tt, w)
  | _ =>
      match dataStore_ w with
      | None => (Err error_code_zero, w)
      | Some db =>
          match RocksDb.batch_commit (put_tombs_batch s aTombs aID) db with
          | (Err e, db) => (Err e, set_db w db)
          | (Ok _, db) =>
              let w := set_db w db in
              (Ok tt, if deleteHookFunc_ s
                      then fold_left (fun w tomb => add_event w (DeleteHook (el_key tomb))) aTombs w
                      else w)
          end
      end
  end.

Definition Merge s (aDelta : option Delta) (aID : bytes) w : outcome unit * World :=
  match aDelta with
  | None => (Err error_code_zero, w)
  | Some d =>
      match PutTombs s (tombstones d) aID w with
      | (Err e, w) => (Err e, w)
      | (Ok _, w) => PutElems s (elements d) aID (priority d) w
      end
  end.

Definition DataStoreSync s (aKeyList : list bytes) w : outcome unit * World :=
  match dataStore_ w with
  | None => (Err error_code_zero, w)
  | Some _ =>
      match aKeyList with
      | [aKey; aID; aValue; aPrio] =>
          match GetPriority s w aPrio with
          | Ok p => SetValue s aKey aID aValue p w
          | Err _ => (Err undefined_behaviour, w)
          end
      | _ => (Err error_code_zero, w)
      end
  end.
End ops.
Arguments World DB : clear implicits.
End CrdtSet.
