(* ===== verification/CrdtRefine.v ===== *)
(** * Key layout of the CRDT set

    The store keys the set writes for well-formed keys and block identifiers,
    in closed form, and that keys of different kinds, of different set keys or
    of different blocks never coincide.

    [ORSet] is what the set promises: a set of additions, a set of removed
    additions, and one register per key that keeps the value of the highest
    (priority, value) pair.  [repr] relates a store to such a set; the theorems
    show that every operation of [CrdtSet] commutes with [repr]. *)

From S2P Require Import Prelude Store HierarchicalKey CrdtSet.
Import HKey CrdtSet.

(** The identifier of a block: the hierarchical key of its CID. *)
Definition wf_id (id : bytes) : Prop := exists n, id = slash :: n /\ wf_name n.

Definition elem_key (ns k id : bytes) : bytes := ns ++ str "/s" ++ k ++ id.
Definition tomb_key (ns k id : bytes) : bytes := ns ++ str "/t" ++ k ++ id.
Definition value_key (ns k : bytes) : bytes := ns ++ str "/k" ++ k ++ str "/v".
Definition prio_key (ns k : bytes) : bytes := ns ++ str "/k" ++ k ++ str "/p".

Lemma wf_id_key id : wf_id id -> wf_key id.
Proof. intros (n & -> & Hn). by apply wf_key_name. Qed.

Lemma elem_of_middle (a b : bytes) (c : ascii) : c ∈ a ++ c :: b.
Proof. apply elem_of_app. right. apply elem_of_cons. by left. Qed.

Lemma app_slash_inj a b n m :
  slash ∉ n -> slash ∉ m -> a ++ slash :: n = b ++ slash :: m -> a = b /\ n = m.
Proof.
  intros Hn Hm. revert b. induction a as [|x a IH]; intros [|y b]; simpl.
  - by intros [= ->].
  - intros [= _ ->]. destruct Hn. apply elem_of_middle.
  - intros [= _ <-]. destruct Hm. apply elem_of_middle.
  - intros [= -> H]. by apply IH in H as [-> ->].
Qed.

Lemma key_id_inj k id k' id' :
  wf_id id -> wf_id id' -> k ++ id = k' ++ id' -> k = k' /\ id = id'.
Proof.
  intros (n & -> & _ & Hn) (m & -> & _ & Hm) H.
  by apply app_slash_inj in H as [-> ->].
Qed.

Lemma key_suffix_inj (c : ascii) k k' :
  k ++ [slash; c] = k' ++ [slash; c] -> k = k'.
Proof. by intros ?%(inj (fun l => l ++ _)). Qed.

Lemma wf_name_valueSuffix : wf_name valueSuffix_.
Proof. by apply (bool_decide_unpack _). Qed.
Lemma wf_name_prioritySuffix : wf_name prioritySuffix_.
Proof. by apply (bool_decide_unpack _). Qed.

Section layout.
Context (s : t) (Hns : wf_key (namespaceKey_ s)).
Abbreviation ns := (namespaceKey_ s).

Lemma KeyPrefix_ns c : c <> slash -> KeyPrefix s [c] = ns ++ [slash; c].
Proof using Hns.
  intros Hc. unfold KeyPrefix. apply ChildString_name; [done|].
  split; [done|]. set_solver.
Qed.

Lemma wf_key_ns c : c <> slash -> wf_key (ns ++ [slash; c]).
Proof using Hns. intros Hc. apply wf_key_app; [done|]. apply wf_key_name. split; [done|]. set_solver. Qed.

Lemma ElemsPrefix_eq k : wf_key k -> ElemsPrefix s k = ns ++ str "/s" ++ k.
Proof using Hns.
  intros Hk. unfold ElemsPrefix. change elemsNamespace_ with ["s"%char].
  rewrite KeyPrefix_ns, ChildString_key, <-app_assoc by first [done|by apply wf_key_ns]. done.
Qed.

Lemma TombsPrefix_eq k : wf_key k -> TombsPrefix s k = ns ++ str "/t" ++ k.
Proof using Hns.
  intros Hk. unfold TombsPrefix. change tombsNamespace_ with ["t"%char].
  rewrite KeyPrefix_ns, ChildString_key, <-app_assoc by first [done|by apply wf_key_ns]. done.
Qed.

Lemma KeysKey_eq k : wf_key k -> KeysKey s k = ns ++ str "/k" ++ k.
Proof using Hns.
  intros Hk. unfold KeysKey. change keysNamespace_ with ["k"%char].
  rewrite KeyPrefix_ns, ChildString_key, <-app_assoc by first [done|by apply wf_key_ns]. done.
Qed.

Lemma prefix_key_wf c k : c <> slash -> wf_key k -> wf_key (ns ++ [slash; c] ++ k).
Proof using Hns. intros Hc Hk. rewrite app_assoc. apply wf_key_app; [by apply wf_key_ns|done]. Qed.

Lemma elem_key_eq k id :
  wf_key k -> wf_id id -> ChildString (ElemsPrefix s k) id = elem_key ns k id.
Proof using Hns.
  intros Hk Hid. rewrite ElemsPrefix_eq, ChildString_key by
    first [done|by apply wf_id_key|by apply prefix_key_wf].
  unfold elem_key. by rewrite <-!app_assoc.
Qed.

Lemma tomb_key_eq k id :
  wf_key k -> wf_id id -> ChildString (TombsPrefix s k) id = tomb_key ns k id.
Proof using Hns.
  intros Hk Hid. rewrite TombsPrefix_eq, ChildString_key by
    first [done|by apply wf_id_key|by apply prefix_key_wf].
  unfold tomb_key. by rewrite <-!app_assoc.
Qed.

Lemma value_key_eq k : wf_key k -> ValueKey s k = value_key ns k.
Proof using Hns.
  intros Hk. unfold ValueKey. rewrite KeysKey_eq, ChildString_name by
    first [done|apply wf_name_valueSuffix|by apply (prefix_key_wf "k"%char)]. unfold value_key. by rewrite <-!app_assoc.
Qed.

Lemma prio_key_eq k : wf_key k -> PriorityKey s k = prio_key ns k.
Proof using Hns.
  intros Hk. unfold PriorityKey. rewrite KeysKey_eq, ChildString_name by
    first [done|apply wf_name_prioritySuffix|by apply (prefix_key_wf "k"%char)]. unfold prio_key. by rewrite <-!app_assoc.
Qed.
End layout.

(** ** Disjointness *)

Ltac key_clash := 
  unfold elem_key, tomb_key, value_key, prio_key; simpl; intros Hclash;
  apply (inj (app _)) in Hclash; simpl in Hclash; congruence.

Lemma elem_tomb_ne ns k id k' id' : elem_key ns k id <> tomb_key ns k' id'.
Proof. key_clash. Qed.
Lemma elem_value_ne ns k id k' : elem_key ns k id <> value_key ns k'.
Proof. key_clash. Qed.
Lemma elem_prio_ne ns k id k' : elem_key ns k id <> prio_key ns k'.
Proof. key_clash. Qed.
Lemma tomb_value_ne ns k id k' : tomb_key ns k id <> value_key ns k'.
Proof. key_clash. Qed.
Lemma tomb_prio_ne ns k id k' : tomb_key ns k id <> prio_key ns k'.
Proof. key_clash. Qed.

Lemma value_prio_ne ns k k' : value_key ns k <> prio_key ns k'.
Proof.
  intros H%(f_equal last). unfold value_key, prio_key in H.
  rewrite !app_assoc in H. simpl in H. rewrite !last_app_cons in H. done.
Qed.

Lemma elem_key_inj ns k id k' id' :
  wf_id id -> wf_id id' -> elem_key ns k id = elem_key ns k' id' -> k = k' /\ id = id'.
Proof. intros Hid Hid' H%(inj (app _))%(inj (app _)). by apply key_id_inj. Qed.

Lemma tomb_key_inj ns k id k' id' :
  wf_id id -> wf_id id' -> tomb_key ns k id = tomb_key ns k' id' -> k = k' /\ id = id'.
Proof. intros Hid Hid' H%(inj (app _))%(inj (app _)). by apply key_id_inj. Qed.

Lemma value_key_inj ns k k' : value_key ns k = value_key ns k' -> k = k'.
Proof. intros H%(inj (app _))%(inj (app _)). by apply key_suffix_inj in H. Qed.

Lemma prio_key_inj ns k k' : prio_key ns k = prio_key ns k' -> k = k'.
Proof. intros H%(inj (app _))%(inj (app _)). by apply key_suffix_inj in H. Qed.

Create HintDb crdt_keys discriminated.
#[export] Hint Resolve elem_tomb_ne elem_value_ne elem_prio_ne tomb_value_ne tomb_prio_ne
  value_prio_ne not_eq_sym : crdt_keys.

(** ** The CRDT set refines an observed-remove set *)

Import HKey CrdtSet.

Module ORSet.

Record t := {
  os_elems : gset (bytes * bytes);
  os_tombs : gset (bytes * bytes);
  os_reg : gmap bytes (Z * bytes)
}.

Definition empty : t := {| os_elems := ∅; os_tombs := ∅; os_reg := ∅ |}.

Section spec.
Context `{!Platform}.

(** The register of a key after an addition of priority [p]; [None] when the
    addition is refused, which happens for priority 0 on a fresh key. *)
Definition reg_put (old : option (Z * bytes)) (p : Z) (v : bytes) : option (Z * bytes) :=
  match old with
  | None => if (p =? 0)%Z then None else Some (p, v)
  | Some (p0, v0) =>
      if (p <? p0)%Z then old
      else if (p =? p0)%Z then Some (if lex_lt char_val v0 v then (p, v) else (p0, v0))
      else Some (p, v)
  end.

Definition add_elem (a : t) (k id : bytes) : t :=
  {| os_elems := {[(k, id)]} ∪ os_elems a; os_tombs := os_tombs a; os_reg := os_reg a |}.

Definition set_reg (a : t) (k : bytes) (r : Z * bytes) : t :=
  {| os_elems := os_elems a; os_tombs := os_tombs a; os_reg := <[k := r]> (os_reg a) |}.

Definition set_value (p : Z) (id : bytes) (a : t) (k v : bytes) : option t :=
  if decide ((k, id) ∈ os_tombs a) then Some a
  else set_reg a k <$> reg_put (os_reg a !! k) p v.

Definition put_elem (p : Z) (id : bytes) (a : t) (k v : bytes) : option t :=
  set_value p id (add_elem a k id) k v.

Fixpoint put_elems (p : Z) (id : bytes) (l : list Element) (a : t) : option t :=
  match l with
  | [] => Some a
  | e :: l => a ← put_elem p id a (el_key e) (el_value e); put_elems p id l a
  end.

Definition put_tombs (id : bytes) (l : list Element) (a : t) : t :=
  {| os_elems := os_elems a;
     os_tombs := list_to_set ((fun e => (el_key e, tomb_id id e)) <$> l) ∪ os_tombs a;
     os_reg := os_reg a |}.

Definition merge (d : Delta) (id : bytes) (a : t) : option t :=
  put_elems (priority d) id (elements d) (put_tombs id (tombstones d) a).
End spec.

(** The additions of [k] that have not been removed. *)
Definition live (a : t) (k : bytes) : gset (bytes * bytes) :=
  filter (fun p => p.1 = k) (os_elems a ∖ os_tombs a).

Definition in_set (a : t) (k : bytes) : Prop := is_Some (os_reg a !! k) /\ live a k <> ∅.

#[export] Instance in_set_dec a k : Decision (in_set a k).
Proof. unfold in_set. apply _. Defined.

Lemma live_elem a k p : p ∈ live a k <-> p.1 = k /\ p ∈ os_elems a /\ p ∉ os_tombs a.
Proof. unfold live. rewrite elem_of_filter, elem_of_difference. done. Qed.

(** No key with an addition is a proper path ancestor of [k]. *)
Definition no_ancestor (a : t) (k : bytes) : Prop :=
  forall k' id, (k', id) ∈ os_elems a -> ~ (k' ++ [slash]) `prefix_of` k.

(** Every register belongs to a key that was added, and holds a priority
    that is a 64-bit integer. *)
Record valid (a : t) : Prop := {
  valid_reg : forall k p v, os_reg a !! k = Some (p, v) ->
    is_u64 p /\ exists id, (k, id) ∈ os_elems a;
  valid_elems : forall k id, (k, id) ∈ os_elems a -> wf_key k /\ wf_id id
}.
End ORSet.
Import ORSet.

(** The entries of the store a set with namespace [ns] owns, for the abstract
    set [a]. *)
Record repr (ns : bytes) (m : gmap bytes bytes) (a : ORSet.t) : Prop := {
  repr_elems k id : wf_key k -> wf_id id ->
    is_Some (m !! elem_key ns k id) <-> (k, id) ∈ os_elems a;
  repr_tombs k id : wf_key k -> wf_id id ->
    is_Some (m !! tomb_key ns k id) <-> (k, id) ∈ os_tombs a;
  repr_value k : wf_key k -> m !! value_key ns k = snd <$> os_reg a !! k;
  repr_prio k : wf_key k ->
    m !! prio_key ns k = (fun r => to_string (u64 (r.1 + 1))) <$> os_reg a !! k;
  repr_only key : is_Some (m !! key) -> (ns ++ str "/s") `prefix_of` key ->
    exists k id, wf_key k /\ wf_id id /\ key = elem_key ns k id;
  repr_valid : ORSet.valid a
}.

(** A delta the refinement applies to: well-formed keys, every key at most
    once among the elements, tombstones of well-formed blocks. *)
Record wf_delta (d : Delta) : Prop := {
  wf_delta_keys : Forall (fun e => wf_key (el_key e)) (elements d);
  wf_delta_nodup : NoDup (el_key <$> elements d);
  wf_delta_tombs :
    Forall (fun e => wf_key (el_key e) /\ (el_id e = [] \/ wf_id (el_id e))) (tombstones d);
  wf_delta_prio : is_u64 (priority d)
}.

(** ** The remainder of an entry key after a key prefix *)

Lemma HierarchicalKey_two_slashes `{BoostSpec} r n :
  r <> [] -> last (r ++ slash :: n) <> Some slash ->
  IsTopLevel (HierarchicalKey (r ++ slash :: n)) = false.
Proof.
  intros Hr Hl. destruct r as [|c r]; [done|].
  assert (exists t, HierarchicalKey ((c :: r) ++ slash :: n) = slash :: t /\ slash ∈ t)
    as (t & -> & Ht).
  { destruct (decide (c = slash)) as [->|Hc].
    - exists (r ++ slash :: n). split; [|apply elem_of_middle].
      by apply HierarchicalKey_wf.
    - exists ((c :: r) ++ slash :: n). split; [|apply elem_of_middle].
      unfold HierarchicalKey. simpl. rewrite (decide_False (P := c = slash)) by done.
      rewrite decide_False; [done|]. intros [_ Hlast]. by apply Hl. }
  rewrite IsTopLevel_spec. by apply bool_decide_eq_false_2; auto.
Qed.

Lemma entry_remainder `{BoostSpec} k k' id' rest :
  wf_key k -> wf_key k' -> wf_id id' ->
  ~ (k' ++ [slash]) `prefix_of` k -> k' ++ id' = k ++ rest ->
  (k' = k /\ rest = id' /\ HierarchicalKey rest = rest /\ IsTopLevel rest = true) \/
  (k' <> k /\ IsTopLevel (HierarchicalKey rest) = false).
Proof.
  intros Hk Hk' Hid Hanc Heq. destruct Hid as (n & -> & Hn). 
  assert (wf_id (slash :: n)) as Hid by (by exists n).
  destruct (decide (k' = k)) as [->|Hne].
  { left. apply (inj (app k)) in Heq as <-. split; [done|]. split; [done|].
    rewrite HierarchicalKey_wf by (by apply wf_id_key). split; [done|].
    rewrite IsTopLevel_spec. apply bool_decide_eq_true_2, Hn. }
  right. split; [done|]. symmetry in Heq.
  assert ((exists r, r <> [] /\ k' = k ++ r /\ rest = r ++ slash :: n) \/
          exists r, k = k' ++ slash :: r) as [(r & Hr & -> & ->)|(r & ->)].
  { destruct (app_eq_inv _ _ _ _ Heq) as [(r & -> & Hr)|(r & -> & Hr)].
    - right. destruct r as [|c r]; [by rewrite app_nil_r in Hne|].
      injection Hr as -> _. by exists r.
    - left. exists r. split; [|done]. intros ->. by rewrite app_nil_r in Hne. }
  - apply HierarchicalKey_two_slashes; [done|].
    rewrite last_app_cons. by apply wf_id_key.
  - destruct Hanc. exists r. by rewrite <-app_assoc.
Qed.

(** ** Reading a represented store *)

Section reads.
Context {DB : Type} `{!RocksDBLib DB, !RocksDBHealthy DB, !BoostLib, !BoostSpec, !Platform}.
Context (s : CrdtSet.t) (Hns : wf_key (namespaceKey_ s)).
Abbreviation ns := (namespaceKey_ s).
Implicit Types (w : World DB) (a : ORSet.t).

(** The store of [w] is there and represents [a]. *)
Definition world_repr w a : Prop :=
  exists db, dataStore_ w = Some db /\ repr ns (db_view db) a.

Lemma InTombsKeyID_eq w db k id :
  dataStore_ w = Some db -> wf_key k -> wf_id id ->
  InTombsKeyID s w k id = Ok (bool_decide (is_Some (db_view db !! tomb_key ns k id))).
Proof using All.
  intros Hdb Hk Hid. unfold InTombsKeyID. rewrite Hdb, (tomb_key_eq s Hns) by done.
  by rewrite RocksDb.contains_spec.
Qed.

Lemma InTombsKeyID_repr w a k id :
  world_repr w a -> wf_key k -> wf_id id ->
  InTombsKeyID s w k id = Ok (bool_decide ((k, id) ∈ os_tombs a)).
Proof using All.
  intros (db & Hdb & Hr) Hk Hid. rewrite (InTombsKeyID_eq w db) by done.
  f_equal. apply bool_decide_ext. by apply (repr_tombs _ _ _ Hr).
Qed.

Lemma GetPriority_lookup w db k o :
  dataStore_ w = Some db -> wf_key k ->
  db_view db !! prio_key ns k = (fun r => to_string (u64 (r.1 + 1))) <$> o ->
  (forall r : Z * bytes, o = Some r -> is_u64 r.1) ->
  GetPriority s w k = Ok (from_option fst 0%Z o).
Proof using All.
  intros Hdb Hk Ho Hu. unfold GetPriority, GetValueFromDatastore.
  rewrite Hdb, (prio_key_eq s Hns), RocksDb.get_spec, Ho by done.
  destruct o as [[p v]|]; simpl; [|done].
  rewrite lexical_cast_to_string by apply u64_range.
  rewrite u64_pred_succ; [done|]. by apply (Hu (p, v)).
Qed.

Lemma GetPriority_repr w a k :
  world_repr w a -> wf_key k ->
  GetPriority s w k = Ok (from_option fst 0%Z (os_reg a !! k)).
Proof using All.
  intros (db & Hdb & Hr) Hk. apply (GetPriority_lookup w db); [done..| |].
  - by apply (repr_prio _ _ _ Hr).
  - intros [p v] Hreg. by eapply (valid_reg _ (repr_valid _ _ _ Hr)).
Qed.

Lemma GetValue_lookup w db k :
  dataStore_ w = Some db -> wf_key k ->
  GetValueFromDatastore w (ValueKey s k) =
  ok_or (database_error NOT_FOUND) (db_view db !! value_key ns k).
Proof using All.
  intros Hdb Hk. unfold GetValueFromDatastore.
  by rewrite Hdb, (value_key_eq s Hns), RocksDb.get_spec.
Qed.

Lemma GetValue_repr w a k :
  world_repr w a -> wf_key k ->
  GetValueFromDatastore w (ValueKey s k) =
  ok_or (database_error NOT_FOUND) (snd <$> os_reg a !! k).
Proof using All.
  intros (db & Hdb & Hr) Hk.
  by rewrite (GetValue_lookup w db), (repr_value _ _ _ Hr).
Qed.

(** The entries a query for the additions of [k] returns. *)
Lemma elems_query_entry m a k key :
  repr ns m a -> wf_key k -> no_ancestor a k ->
  is_Some (m !! key) -> ElemsPrefix s k `prefix_of` key ->
  let hId := HierarchicalKey (drop (length (ElemsPrefix s k)) key) in
  IsTopLevel hId = true ->
  wf_id hId /\ (k, hId) ∈ os_elems a /\ key = elem_key ns k hId.
Proof using All.
  intros Hr Hk Hanc Hkey [rest ->] hId Htop.
  assert ((ns ++ str "/s") `prefix_of` ElemsPrefix s k ++ rest) as Hp.
  { rewrite (ElemsPrefix_eq s Hns) by done. exists (k ++ rest). by rewrite <-!app_assoc. }
  destruct (repr_only _ _ _ Hr _ Hkey Hp) as (k' & id' & Hk' & Hid' & Heq).
  rewrite Heq in Hkey. apply (repr_elems _ _ _ Hr) in Hkey; [|done..].
  unfold hId in *. rewrite drop_app_length in *. rewrite Heq.
  rewrite (ElemsPrefix_eq s Hns) in Heq by done. unfold elem_key in Heq.
  rewrite <-!app_assoc in Heq. apply (inj (app _)), (inj (app _)) in Heq.
  destruct (entry_remainder k k' id' rest) as [(-> & -> & -> & _)|[_ Hf]]; try done.
  - by eapply Hanc.
  - congruence.
Qed.

(** Conversely every addition of [k] is found. *)
Lemma elems_query_found m a k id :
  repr ns m a -> wf_key k -> (k, id) ∈ os_elems a ->
  is_Some (m !! elem_key ns k id) /\ ElemsPrefix s k `prefix_of` elem_key ns k id /\
  HierarchicalKey (drop (length (ElemsPrefix s k)) (elem_key ns k id)) = id /\
  IsTopLevel id = true.
Proof using All.
  intros Hr Hk Hin. destruct (valid_elems _ (repr_valid _ _ _ Hr) _ _ Hin) as [_ Hid].
  assert (elem_key ns k id = ElemsPrefix s k ++ id) as Heq.
  { rewrite (ElemsPrefix_eq s Hns) by done. unfold elem_key. by rewrite <-!app_assoc. }
  split; [by apply (repr_elems _ _ _ Hr)|]. rewrite Heq, drop_app_length.
  split; [by apply prefix_app_r|]. split; [by apply HierarchicalKey_wf, wf_id_key|].
  destruct Hid as (n & -> & Hn). rewrite IsTopLevel_spec. apply bool_decide_eq_true_2, Hn.
Qed.

Lemma in_elems_loop_spec w k pre res :
  in_elems_loop s w k pre res = true <->
  Exists (fun kv => let hId := HierarchicalKey (drop (length pre) kv.1) in
    IsTopLevel hId = true /\ InTombsKeyID s w k hId = Ok false) res.
Proof.
  induction res as [|[key v] res IH]; simpl; [by rewrite Exists_nil|].
  rewrite Exists_cons, <-IH. simpl.
  destruct (IsTopLevel _); simpl; [|intuition congruence].
  destruct (InTombsKeyID _ _ _ _) as [[]|]; intuition congruence.
Qed.

Lemma InElemsNotTombstoned_repr w a k :
  world_repr w a -> wf_key k -> no_ancestor a k -> is_Some (os_reg a !! k) ->
  InElemsNotTombstoned s w k = Ok (bool_decide (live a k <> ∅)).
Proof using All.
  intros Hw Hk Hanc [[p v] Hreg]. pose proof Hw as (db & Hdb & Hr).
  destruct (valid_reg _ (repr_valid _ _ _ Hr) _ _ _ Hreg) as [_ [id0 Hid0]].
  unfold InElemsNotTombstoned. rewrite Hdb.
  destruct (RocksDb.query_spec db (ElemsPrefix s k)) as (res & -> & Hres).
  assert (exists kv, kv ∈ res) as [kv0 Hkv0].
  { destruct (elems_query_found _ _ _ _ Hr Hk Hid0) as ([v0 ?] & ? & _).
    exists (elem_key ns k id0, v0). by apply Hres. }
  destruct res as [|kv1 res1]; [by apply elem_of_nil in Hkv0|].
  f_equal. apply eq_bool_prop_intro. rewrite bool_decide_spec, Is_true_true, in_elems_loop_spec, Exists_exists.
  split.
  - intros ([key v1] & Hin & Htop & Ht) Hempty. apply Hres in Hin as [Hm Hp].
    destruct (elems_query_entry _ _ _ key Hr Hk Hanc ltac:(by eexists) Hp Htop) as (Hid & Hel & _).
    simpl in Ht. rewrite (InTombsKeyID_repr w a) in Ht by done.
    injection Ht as Ht. apply bool_decide_eq_false in Ht.
    assert ((k, HierarchicalKey (drop (length (ElemsPrefix s k)) key)) ∈ live a k) as Hl
      by (by apply live_elem).
    rewrite Hempty in Hl. by apply elem_of_empty in Hl.
  - intros Hl. apply set_choose_L in Hl as [[k' id] Hl].
    apply live_elem in Hl as (Heq & Hel & Ht). simpl in Heq. subst k'.
    destruct (elems_query_found _ _ _ _ Hr Hk Hel) as ([v1 Hm] & Hp & Hh & Htop).
    exists (elem_key ns k id, v1). split; [by apply Hres|]. simpl. rewrite Hh. split; [done|].
    rewrite (InTombsKeyID_repr w a); [|done..|].
    + by rewrite bool_decide_eq_false_2.
    + by eapply (valid_elems _ (repr_valid _ _ _ Hr)).
Qed.
End reads.

(** ** Writing a represented store *)

Section insertion.
Context (ns : bytes).
Implicit Types (m : gmap bytes bytes) (a : ORSet.t).

Ltac other_key := rewrite lookup_insert_ne by eauto with crdt_keys.

Lemma repr_add_elem m a k id v :
  repr ns m a -> wf_key k -> wf_id id ->
  repr ns (<[elem_key ns k id := v]> m) (add_elem a k id).
Proof.
  intros Hr Hk Hid. split; simpl.
  - intros k' id' Hk' Hid'. rewrite lookup_insert_is_Some, elem_of_union, elem_of_singleton.
    rewrite <-(repr_elems _ _ _ Hr) by done. split.
    + intros [H|[_ H]]; [|by right]. left.
      apply elem_key_inj in H as [-> ->]; done.
    + intros [[= -> ->]|H]; [by left|].
      destruct (decide (elem_key ns k id = elem_key ns k' id')); [by left|by right].
  - intros k' id' Hk' Hid'. other_key. by apply (repr_tombs _ _ _ Hr).
  - intros k' Hk'. other_key. by apply (repr_value _ _ _ Hr).
  - intros k' Hk'. other_key. by apply (repr_prio _ _ _ Hr).
  - intros key Hkey Hp. apply lookup_insert_is_Some in Hkey as [<-|[_ Hkey]]; [eauto|].
    by apply (repr_only _ _ _ Hr).
  - destruct (repr_valid _ _ _ Hr) as [Hv1 Hv2]. split; simpl.
    + intros k' p' v' H. destruct (Hv1 _ _ _ H) as (? & id' & ?). split; [done|].
      exists id'. apply elem_of_union. by right.
    + intros k' id'. rewrite elem_of_union, elem_of_singleton. intros [[= -> ->]|H]; eauto.
Qed.

Lemma repr_put_tomb m a k id v :
  repr ns m a -> wf_key k -> wf_id id ->
  repr ns (<[tomb_key ns k id := v]> m)
    {| os_elems := os_elems a; os_tombs := {[(k, id)]} ∪ os_tombs a; os_reg := os_reg a |}.
Proof.
  intros Hr Hk Hid. split; simpl.
  - intros k' id' Hk' Hid'. other_key. by apply (repr_elems _ _ _ Hr).
  - intros k' id' Hk' Hid'. rewrite lookup_insert_is_Some, elem_of_union, elem_of_singleton.
    rewrite <-(repr_tombs _ _ _ Hr) by done. split.
    + intros [H|[_ H]]; [|by right]. left.
      apply tomb_key_inj in H as [-> ->]; done.
    + intros [[= -> ->]|H]; [by left|].
      destruct (decide (tomb_key ns k id = tomb_key ns k' id')); [by left|by right].
  - intros k' Hk'. other_key. by apply (repr_value _ _ _ Hr).
  - intros k' Hk'. other_key. by apply (repr_prio _ _ _ Hr).
  - intros key Hkey Hp. apply lookup_insert_is_Some in Hkey as [<-|[_ Hkey]].
    + destruct Hp as [r Hp]. revert Hp. unfold tomb_key. rewrite <-!app_assoc.
      intros Hp%(inj (app _)). by injection Hp.
    + by apply (repr_only _ _ _ Hr).
  - destruct (repr_valid _ _ _ Hr). by split.
Qed.

Lemma keys_not_elem m a key v :
  repr ns m a -> (exists r, key = ns ++ str "/k" ++ r) ->
  forall key', is_Some (<[key := v]> m !! key') -> (ns ++ str "/s") `prefix_of` key' ->
  exists k id, wf_key k /\ wf_id id /\ key' = elem_key ns k id.
Proof.
  intros Hr [r ->] key' Hkey Hp. apply lookup_insert_is_Some in Hkey as [<-|[_ Hkey]].
  - destruct Hp as [r' Hp]. revert Hp. rewrite <-!app_assoc.
    intros Hp%(inj (app _)). by injection Hp.
  - by apply (repr_only _ _ _ Hr).
Qed.

Lemma repr_set_reg m a k p v :
  repr ns m a -> wf_key k -> is_u64 p -> (exists id, (k, id) ∈ os_elems a) ->
  repr ns (<[prio_key ns k := to_string (u64 (p + 1))]> (<[value_key ns k := v]> m))
    (set_reg a k (p, v)).
Proof.
  intros Hr Hk Hp Hid. split; simpl.
  - intros k' id' Hk' Hid'. do 2 other_key. by apply (repr_elems _ _ _ Hr).
  - intros k' id' Hk' Hid'. do 2 other_key. by apply (repr_tombs _ _ _ Hr).
  - intros k' Hk'. other_key. destruct (decide (k = k')) as [<-|Hne].
    + by rewrite !lookup_insert_eq.
    + rewrite !lookup_insert_ne by (done || by intros ?%value_key_inj).
      by apply (repr_value _ _ _ Hr).
  - intros k' Hk'. destruct (decide (k = k')) as [<-|Hne].
    + by rewrite !lookup_insert_eq.
    + rewrite lookup_insert_ne by (by intros ?%prio_key_inj). other_key.
      rewrite lookup_insert_ne by done. by apply (repr_prio _ _ _ Hr).
  - intros key Hkey Hpre. apply lookup_insert_is_Some in Hkey as [<-|[_ Hkey]].
    + eapply (keys_not_elem m a (prio_key ns k) []); [done|by eexists| |done].
      by rewrite lookup_insert_eq.
    + eapply (keys_not_elem m a (value_key ns k) v); [done|by eexists|done|done].
  - destruct (repr_valid _ _ _ Hr) as [Hv1 Hv2]. split; simpl; [|done].
    intros k' p' v' H. apply lookup_insert_Some in H as [[<- [= <- <-]]|[_ H]]; eauto.
Qed.
End insertion.

(** ** Batches *)

Definition op_key (op : batch_op) : bytes :=
  match op with BPut k _ => k | BDelete k => k end.

Lemma batch_apply_cons op b m :
  batch_apply (op :: b) m = batch_apply b (batch_op_apply m op).
Proof. done. Qed.

Lemma batch_apply_app b b' m : batch_apply (b ++ b') m = batch_apply b' (batch_apply b m).
Proof. apply fold_left_app. Qed.

Lemma batch_apply_other b m key :
  Forall (fun op => op_key op <> key) b -> batch_apply b m !! key = m !! key.
Proof.
  revert m. induction b as [|op b IH]; intros m Hb; [done|].
  inversion Hb; subst. rewrite batch_apply_cons, IH by done. destruct op; simpl in *; [by rewrite lookup_insert_ne|by rewrite lookup_delete_ne].
Qed.

Lemma batch_apply_insert b m key v :
  Forall (fun op => op_key op <> key) b ->
  batch_apply b (<[key := v]> m) = <[key := v]> (batch_apply b m).
Proof.
  revert m. induction b as [|op b IH]; intros m Hb; [done|].
  inversion Hb; subst.
  rewrite !batch_apply_cons, <-IH by done. f_equal. destruct op; simpl in *.
  - by rewrite insert_insert_ne.
  - by rewrite delete_insert_ne.
Qed.

(** What the batch of [PutElems] holds: additions, and values of the keys
    handled so far. *)
Definition elems_op (ns : bytes) (P : list bytes) (op : batch_op) : Prop :=
  (exists k id, op_key op = elem_key ns k id) \/ (exists k, k ∈ P /\ op_key op = value_key ns k).

Section batch_keys.
Context (ns : bytes) (P : list bytes) (b : list batch_op) (Hb : Forall (elems_op ns P) b).

Lemma elems_ops_tomb k id : Forall (fun op => op_key op <> tomb_key ns k id) b.
Proof using Hb.
  eapply Forall_impl; [exact Hb|]. intros op [(k' & id' & ->)|(k' & _ & ->)]; eauto with crdt_keys.
Qed.

Lemma elems_ops_prio k : Forall (fun op => op_key op <> prio_key ns k) b.
Proof using Hb.
  eapply Forall_impl; [exact Hb|]. intros op [(k' & id' & ->)|(k' & _ & ->)]; eauto with crdt_keys.
Qed.

Lemma elems_ops_value k : k ∉ P -> Forall (fun op => op_key op <> value_key ns k) b.
Proof using Hb.
  intros Hk. eapply Forall_impl; [exact Hb|].
  intros op [(k' & id' & ->)|(k' & Hk' & ->)]; [eauto with crdt_keys|].
  by intros ->%value_key_inj.
Qed.

Lemma elems_ops_mono k : Forall (elems_op ns (k :: P)) b.
Proof using Hb.
  eapply Forall_impl; [exact Hb|]. intros op [?|(k' & ? & ?)]; [by left|right].
  exists k'. split; [|done]. by apply elem_of_cons; right.
Qed.
End batch_keys.

(** ** The writing operations *)

Section writes.
Context {DB : Type} `{!RocksDBLib DB, !RocksDBHealthy DB, !BoostLib, !BoostSpec, !Platform}.
Context (s : CrdtSet.t) (Hns : wf_key (namespaceKey_ s)).
Abbreviation ns := (namespaceKey_ s).
Implicit Types (w : World DB) (a : ORSet.t).

(** The state between two elements of [PutElems]: once the batch [b] is
    committed the store will represent [a]. *)
Definition pending (P : list bytes) (b : list batch_op) w a : Prop :=
  exists db, dataStore_ w = Some db /\ Forall (elems_op ns P) b /\
    repr ns (batch_apply b (db_view db)) a.

Lemma add_event_store w e : dataStore_ (add_event w e) = dataStore_ w.
Proof. done. Qed.

(** Writing value and priority, from a pending state. *)
Lemma store_value_pending P b w a k p v :
  pending P b w a -> wf_key k -> is_u64 p -> (exists id, (k, id) ∈ os_elems a) ->
  exists w', SetPriority s k p w = (Ok tt, w') /\
    pending (k :: P) (RocksDb.batch_put b (ValueKey s k) v) w' (set_reg a k (p, v)).
Proof using All.
  intros (db & Hdb & Hb & Hr) Hk Hp Hid. unfold SetPriority. rewrite Hdb.
  rewrite (prio_key_eq s Hns), (value_key_eq s Hns) by done.
  destruct (RocksDb.put_spec db (prio_key ns k) (to_string (u64 (p + 1)))) as (db' & -> & Hdb').
  eexists. split; [done|]. exists db'. split; [done|]. split.
  - apply Forall_app. split; [by apply elems_ops_mono|]. apply Forall_singleton. right.
    exists k. split; [|done]. apply elem_of_cons. by left.
  - unfold RocksDb.batch_put. rewrite batch_apply_app, Hdb'.
    rewrite batch_apply_insert by (by eapply elems_ops_prio).
    simpl. rewrite insert_insert_ne by eauto with crdt_keys.
    by apply repr_set_reg.
Qed.

Lemma pending_mono P b w a k : pending P b w a -> pending (k :: P) b w a.
Proof. intros (db & ? & ? & ?). exists db. split; [done|]. split; [by apply elems_ops_mono|done]. Qed.

Lemma set_reg_id a k r : os_reg a !! k = Some r -> set_reg a k r = a.
Proof. intros Hreg. destruct a. unfold set_reg. simpl in *. by rewrite insert_id. Qed.

Lemma SetValueBatch_pending P b w a k id p v :
  pending P b w a -> k ∉ P -> wf_key k -> wf_id id -> is_u64 p -> (k, id) ∈ os_elems a ->
  match set_value p id a k v with
  | Some a' => exists b' w', SetValueBatch s b k id v p w = (Ok tt, b', w') /\
                 pending (k :: P) b' w' a'
  | None => SetValueBatch s b k id v p w = (Err (database_error NOT_FOUND), b, w)
  end.
Proof using All.
  intros Hpend HkP Hk Hid Hp Hin. pose proof Hpend as (db & Hdb & Hb & Hr).
  pose proof (store_value_pending P b w a k p v Hpend Hk Hp ltac:(eauto)) as (w1 & Hset & Hpend1).
  apply (pending_mono _ _ _ _ k) in Hpend.
  assert (forall r, os_reg a !! k = Some r -> is_u64 r.1) as Hu.
  { intros [? ?] ?. by eapply (valid_reg _ (repr_valid _ _ _ Hr)). }
  unfold SetValueBatch, set_value.
  rewrite (InTombsKeyID_eq s Hns w db), <-(batch_apply_other b) by
    first [done|by eapply elems_ops_tomb].
  rewrite (bool_decide_ext _ _ (repr_tombs _ _ _ Hr k id Hk Hid)).
  case_decide as Ht; [rewrite bool_decide_eq_true_2 by done; eauto|].
  rewrite bool_decide_eq_false_2 by done.
  rewrite (GetPriority_lookup s Hns w db k (os_reg a !! k)); [|done|done| |done].
  2:{ rewrite <-(batch_apply_other b) by (by eapply elems_ops_prio).
      by apply (repr_prio _ _ _ Hr). }
  rewrite (GetValue_lookup s Hns w db), <-(batch_apply_other b) by
    first [done|by eapply elems_ops_value].
  rewrite (repr_value _ _ _ Hr) by done. rewrite Hset.
  assert (pending (k :: P) (RocksDb.batch_put b (ValueKey s k) v)
    (if putHookFunc_ s then add_event w1 (PutHook k v) else w1) (set_reg a k (p, v))) as Hpend2.
  { by destruct (putHookFunc_ s). }
  destruct (os_reg a !! k) as [[p0 v0]|] eqn:Ereg; simpl.
  - destruct (p <? p0)%Z; simpl; [rewrite set_reg_id by done; eauto|].
    destruct (p =? p0)%Z; simpl; [|eauto].
    destruct (lex_lt char_val v0 v); simpl; [eauto|]. rewrite set_reg_id by done. eauto.
  - destruct (Z.ltb_spec p 0); [unfold is_u64 in Hp; lia|].
    destruct (p =? 0)%Z; simpl; eauto.
Qed.

Lemma put_elems_loop_pending P b w a l id p :
  pending P b w a -> Forall (fun e => wf_key (el_key e)) l -> NoDup (el_key <$> l) ->
  (forall k, k ∈ el_key <$> l -> k ∉ P) -> wf_id id -> is_u64 p ->
  match put_elems p id l a with
  | Some a' => exists P' b' w', put_elems_loop s l id p b w = (Ok tt, b', w') /\
                 pending P' b' w' a'
  | None => exists b' w', put_elems_loop s l id p b w = (Err (database_error NOT_FOUND), b', w')
  end.
Proof using All.
  intros Hpend Hwf Hnd HP Hid Hp. revert P b w a Hpend HP.
  induction l as [|[k i v] l IH]; intros P b w a Hpend HP; simpl in *; [eauto 10|].
  apply NoDup_cons in Hnd as [Hk Hnd]. inversion Hwf as [|? ? Hwk Hwl]; subst. simpl in *.
  assert (pending P (RocksDb.batch_put b (ChildString (ElemsPrefix s k) id) []) w
            (add_elem a k id)) as Hpend1.
  { destruct Hpend as (db & Hdb & Hb & Hr). exists db. split; [done|].
    rewrite (elem_key_eq s Hns) by done. unfold RocksDb.batch_put. split.
    - apply Forall_app. split; [done|]. apply Forall_singleton. left. by exists k, id.
    - rewrite batch_apply_app. by apply repr_add_elem. }
  unfold put_elem. pose proof (SetValueBatch_pending P _ w _ k id p v Hpend1) as Hset.
  specialize (Hset ltac:(apply HP; set_solver) Hwk Hid Hp ltac:(simpl; set_solver)).
  destruct (set_value p id (add_elem a k id) k v) as [a'|]; simpl; [|rewrite Hset; eauto].
  destruct Hset as (b' & w' & -> & Hpend'). apply (IH Hwl Hnd _ _ _ _ Hpend').
  intros k' Hk' [->|Hin]%elem_of_cons; [done|]. apply (HP k'); [|done].
  apply elem_of_cons. by right.
Qed.

Definition tomb_op (id : bytes) (e : Element) : batch_op :=
  BPut (ChildString (TombsPrefix s (el_key e)) (tomb_id id e)) [].

Lemma put_tombs_batch_eq l id : put_tombs_batch s l id = tomb_op id <$> l.
Proof.
  assert (forall b, fold_left (fun b e => b ++ [tomb_op id e]) l b = b ++ (tomb_op id <$> l)) as Hfold;
    [|by apply (Hfold [])].
  induction l as [|e l IH]; intros b; simpl; [by rewrite app_nil_r|].
  by rewrite IH, <-app_assoc.
Qed.

Lemma repr_put_tombs m a l id :
  repr ns m a -> wf_id id ->
  Forall (fun e => wf_key (el_key e) /\ (el_id e = [] \/ wf_id (el_id e))) l ->
  repr ns (batch_apply (put_tombs_batch s l id) m) (put_tombs id l a).
Proof using All.
  intros Hr Hid Hl. rewrite put_tombs_batch_eq. revert m a Hr.
  induction l as [|e l IH]; intros m a Hr.
  { unfold put_tombs. simpl. rewrite union_empty_l_L. by destruct a. }
  inversion Hl as [|? ? [Hk He] Hl']; subst.
  assert (wf_id (tomb_id id e)) as Hti.
  { unfold tomb_id. destruct (el_id e); [done|]. by destruct He. }
  apply (repr_put_tomb ns m a (el_key e) (tomb_id id e) []) in Hr; [|done..].
  specialize (IH Hl' _ _ Hr). rewrite fmap_cons, batch_apply_cons.
  simpl batch_op_apply. rewrite (tomb_key_eq s Hns) by done.
  unfold put_tombs in *. simpl in *.
  by rewrite (comm_L (∪) {[_]}), <-(assoc_L (∪)).
Qed.
End writes.
