(* ===== verification/ORSetFacts.v ===== *)
(** * Facts of the abstract observed-remove set

    Registers form a join-semilattice, so additions commute; the sets of
    additions and removals only grow, so which keys are in the set after a
    sequence of merges does not depend on the order of the sequence. *)

From S2P Require Import Prelude Store HierarchicalKey CrdtSet CrdtRefine.
Import HKey CrdtSet ORSet.

Lemma fold_left_Permutation {A B} (f : A -> B -> A) l l' a :
  (forall a x y, f (f a x) y = f (f a y) x) ->
  l ≡ₚ l' -> fold_left f l a = fold_left f l' a.
Proof.
  intros Hf Hl. revert a. induction Hl as [|x l l' _ IH|x y l|l l' l'' _ IH1 _ IH2];
    intros a; simpl; [done|apply IH|by rewrite Hf|by rewrite IH1].
Qed.

Section facts.
Context {plat : Platform}.
Implicit Types (a : ORSet.t) (d : Delta).

(** ** Registers *)

(** [reg_put] where it does not refuse. *)
Definition reg_join (old : option (Z * bytes)) (pv : Z * bytes) : Z * bytes :=
  match old with
  | None => pv
  | Some r => if (pv.1 <? r.1)%Z then r
              else if (pv.1 =? r.1)%Z then (if lex_lt char_val r.2 pv.2 then pv else r)
              else pv
  end.

Lemma reg_put_join old p v : (1 <= p)%Z -> reg_put old p v = Some (reg_join old (p, v)).
Proof.
  intros Hp. destruct old as [[p0 v0]|]; simpl.
  - destruct (p <? p0)%Z; [done|]. destruct (p =? p0)%Z; [|done]. by destruct (lex_lt _ _ _).
  - destruct (Z.eqb_spec p 0); [lia|done].
Qed.

(** The order of registers: by priority, then by value. *)
Definition reg_lt (r r' : Z * bytes) : bool :=
  (r.1 <? r'.1)%Z || ((r.1 =? r'.1)%Z && lex_lt char_val r.2 r'.2).

Lemma reg_join_lt r r' : reg_join (Some r) r' = if reg_lt r r' then r' else r.
Proof.
  unfold reg_join, reg_lt. destruct (Z.ltb_spec r'.1 r.1), (Z.ltb_spec r.1 r'.1); try lia;
    destruct (Z.eqb_spec r'.1 r.1), (Z.eqb_spec r.1 r'.1); simpl; try lia; done.
Qed.

Lemma reg_lt_trans r1 r2 r3 : reg_lt r1 r2 = true -> reg_lt r2 r3 = true -> reg_lt r1 r3 = true.
Proof.
  unfold reg_lt. rewrite !orb_true_iff, !andb_true_iff, !Z.ltb_lt, !Z.eqb_eq.
  intros [?|[? H1]] [?|[? H2]]; try (left; lia). right. split; [lia|].
  by eapply lex_lt_trans.
Qed.

Lemma reg_lt_total r1 r2 : r1 <> r2 -> reg_lt r1 r2 = false -> reg_lt r2 r1 = true.
Proof.
  destruct r1 as [p1 v1], r2 as [p2 v2]. unfold reg_lt. simpl. intros Hne.
  destruct (Z.ltb_spec p1 p2); [done|]. destruct (Z.ltb_spec p2 p1); [done|]. simpl.
  assert (p1 = p2) as -> by lia. rewrite Z.eqb_refl. simpl.
  apply lex_lt_total; [apply char_val_inj|congruence].
Qed.

Lemma reg_lt_asym r1 r2 : reg_lt r1 r2 = true -> reg_lt r2 r1 = false.
Proof.
  intros H. destruct (reg_lt r2 r1) eqn:E; [|done].
  pose proof (reg_lt_trans _ _ _ H E) as C. unfold reg_lt in C.
  rewrite Z.ltb_irrefl, lex_lt_irrefl, andb_false_r in C. done.
Qed.

Lemma reg_join_comm old r r' :
  reg_join (Some (reg_join old r)) r' = reg_join (Some (reg_join old r')) r.
Proof.
  assert (forall x y, reg_join (Some x) y = reg_join (Some y) x) as Hc.
  { intros x y. rewrite !reg_join_lt. destruct (decide (x = y)) as [->|Hne]; [done|].
    destruct (reg_lt x y) eqn:E; [by rewrite (reg_lt_asym _ _ E)|].
    by rewrite (reg_lt_total _ _ Hne E). }
  destruct old as [o|]; [|apply Hc]. rewrite !reg_join_lt.
  destruct (reg_lt o r) eqn:E1, (reg_lt o r') eqn:E2; rewrite ?E1, ?E2; try done.
  - specialize (Hc r r'). by rewrite !reg_join_lt in Hc.
  - destruct (reg_lt r r') eqn:E3; [|done]. by rewrite (reg_lt_trans _ _ _ E1 E3) in E2.
  - destruct (reg_lt r' r) eqn:E3; [|done]. by rewrite (reg_lt_trans _ _ _ E2 E3) in E1.
Qed.

(** ** Additions commute *)

Record addition := { ad_prio : Z; ad_id : bytes; ad_key : bytes; ad_value : bytes }.

Definition apply_addition a (x : addition) : ORSet.t :=
  let a' := add_elem a (ad_key x) (ad_id x) in
  if decide ((ad_key x, ad_id x) ∈ os_tombs a) then a'
  else set_reg a' (ad_key x) (reg_join (os_reg a !! ad_key x) (ad_prio x, ad_value x)).

Lemma put_elem_addition p id a k v :
  (1 <= p)%Z ->
  put_elem p id a k v = Some (apply_addition a (Build_addition p id k v)).
Proof.
  intros Hp. unfold put_elem, set_value, apply_addition. simpl.
  case_decide; [done|]. by rewrite reg_put_join.
Qed.

Lemma apply_addition_comm a x y :
  apply_addition (apply_addition a x) y = apply_addition (apply_addition a y) x.
Proof.
  destruct x as [p id k v], y as [p' id' k' v']. unfold apply_addition. simpl.
  repeat (case_decide; simpl in *; try done); unfold add_elem, set_reg; simpl;
    f_equal; try set_solver.
  destruct (decide (k = k')) as [<-|Hne].
  - rewrite !lookup_insert_eq, !insert_insert_eq. f_equal. apply reg_join_comm.
  - rewrite !lookup_insert_ne by done. by rewrite insert_insert_ne.
Qed.

Definition delta_additions (idd : bytes * Delta) : list addition :=
  (fun e => Build_addition (priority idd.2) idd.1 (el_key e) (el_value e)) <$> elements idd.2.

Lemma put_elems_additions p id l a :
  (1 <= p)%Z -> put_elems p id l a =
  Some (fold_left apply_addition
          ((fun e => Build_addition p id (el_key e) (el_value e)) <$> l) a).
Proof.
  intros Hp. revert a. induction l as [|e l IH]; intros a; simpl; [done|].
  rewrite put_elem_addition by done. simpl. apply IH.
Qed.

(** Additions of distinct keys with a priority above every register set them
    all. *)
Lemma fold_additions_other l a k :
  (forall y, y ∈ l -> ad_key y <> k) -> os_reg (fold_left apply_addition l a) !! k = os_reg a !! k.
Proof.
  revert a. induction l as [|y l IH]; intros a Hl; simpl; [done|].
  rewrite IH by set_solver. unfold apply_addition. case_decide; [done|]. simpl.
  apply lookup_insert_ne. set_solver.
Qed.

Lemma additions_above p id l a k v :
  NoDup (el_key <$> l) -> (forall k, k ∈ el_key <$> l -> (k, id) ∉ os_tombs a) ->
  (forall k p0 v0, k ∈ el_key <$> l -> os_reg a !! k = Some (p0, v0) -> (p0 < p)%Z) ->
  (exists i, Build_Element k i v ∈ l) ->
  os_reg (fold_left apply_addition ((fun e => Build_addition p id (el_key e) (el_value e)) <$> l) a)
    !! k = Some (p, v).
Proof.
  revert a. induction l as [|[k' i' v'] l IH]; intros a Hnd Ht Hlt [i Hin]; [by apply not_elem_of_nil in Hin|].
  simpl in *. apply NoDup_cons in Hnd as [Hk' Hnd]. unfold apply_addition at 2. simpl.
  rewrite decide_False by (apply Ht; set_solver). apply elem_of_cons in Hin as [[= -> -> ->]|Hin].
  - rewrite fold_additions_other; simpl.
    + rewrite lookup_insert_eq. unfold reg_join.
      destruct (os_reg a !! k') as [[p0 v0]|] eqn:E; [|done].
      pose proof (Hlt k' p0 v0 ltac:(set_solver) E). simpl.
      destruct (Z.ltb_spec p p0); [lia|]. destruct (Z.eqb_spec p p0); [lia|done].
    + intros x (e & -> & He)%list_elem_of_fmap. simpl. intros <-. apply Hk'.
      by apply list_elem_of_fmap_2.
  - apply IH; [done| | |by exists i]; simpl.
    + intros k0 Hk0. apply Ht. set_solver.
    + intros k0 p0 v0 Hk0. rewrite lookup_insert_ne by set_solver. apply Hlt. set_solver.
Qed.

(** ** Sequences of merges *)

Fixpoint merges (l : list (bytes * Delta)) a : option ORSet.t :=
  match l with
  | [] => Some a
  | (id, d) :: l => a ← merge d id a; merges l a
  end.

Lemma put_tombs_nil id a : put_tombs id [] a = a.
Proof. destruct a. unfold put_tombs. simpl. by rewrite union_empty_l_L. Qed.

Lemma merges_additions l a :
  Forall (fun idd => tombstones idd.2 = [] /\ (1 <= priority idd.2)%Z) l ->
  merges l a = Some (fold_left apply_addition (concat (delta_additions <$> l)) a).
Proof.
  intros Hl. revert a. induction Hl as [|[id d] l [Ht Hp] _ IH]; intros a; simpl in *; [done|].
  unfold merge. rewrite Ht, put_tombs_nil, put_elems_additions by done. simpl.
  rewrite IH. by rewrite fold_left_app.
Qed.

Lemma merges_additions_perm l l' a :
  l ≡ₚ l' ->
  Forall (fun idd => tombstones idd.2 = [] /\ (1 <= priority idd.2)%Z) l ->
  merges l a = merges l' a /\ is_Some (merges l a).
Proof.
  intros Hp Hl. rewrite (merges_additions l) by done.
  rewrite (merges_additions l') by (by rewrite <-Hp).
  split; [|done]. f_equal. apply fold_left_Permutation; [apply apply_addition_comm|].
  induction Hp; simpl; [done|..].
  - inversion Hl; subst. by rewrite IHHp.
  - by rewrite !app_assoc, (Permutation_app_comm (delta_additions y)).
  - rewrite IHHp1 by done. apply IHHp2. by rewrite <-Hp1.
Qed.

(** ** Membership *)

Definition delta_adds (idd : bytes * Delta) : gset (bytes * bytes) :=
  list_to_set ((fun e => (el_key e, idd.1)) <$> elements idd.2).
Definition delta_tombs (idd : bytes * Delta) : gset (bytes * bytes) :=
  list_to_set ((fun e => (el_key e, tomb_id idd.1 e)) <$> tombstones idd.2).

(** A key with a live addition has a register. *)
Definition live_reg a : Prop :=
  forall k id, (k, id) ∈ os_elems a -> (k, id) ∉ os_tombs a -> is_Some (os_reg a !! k).

Lemma put_elem_sets p id a k v a' :
  put_elem p id a k v = Some a' -> live_reg a ->
  os_elems a' = {[(k, id)]} ∪ os_elems a /\ os_tombs a' = os_tombs a /\ live_reg a'.
Proof.
  unfold put_elem, set_value. intros Hput Hl.
  assert (forall k' id', (k', id') ∈ {[(k, id)]} ∪ os_elems a -> (k', id') ∉ os_tombs a ->
    k' = k /\ id' = id \/ is_Some (os_reg a !! k')) as Hl'.
  { intros k' id' [[= -> ->]%elem_of_singleton|Hin]%elem_of_union Hn; [by left|right].
    by eapply Hl. }
  case_decide as Ht; simpl in *.
  - injection Hput as <-. split; [done|]. split; [done|]. intros k' id' Hin Hn.
    by destruct (Hl' _ _ Hin Hn) as [[-> ->]|?].
  - destruct (reg_put _ p v) as [r|]; [|done]. injection Hput as <-.
    split; [done|]. split; [done|]. intros k' id' Hin Hn. simpl.
    apply lookup_insert_is_Some. destruct (decide (k = k')); [by left|right].
    split; [done|]. by destruct (Hl' _ _ Hin Hn) as [[-> ->]|?].
Qed.

Lemma put_elems_sets p id l a a' :
  put_elems p id l a = Some a' -> live_reg a ->
  os_elems a' = list_to_set ((fun e => (el_key e, id)) <$> l) ∪ os_elems a /\
  os_tombs a' = os_tombs a /\ live_reg a'.
Proof.
  revert a. induction l as [|e l IH]; intros a Hput Hl; simpl in *.
  { injection Hput as <-. by rewrite union_empty_l_L. }
  apply bind_Some in Hput as (a1 & H1 & H2).
  destruct (put_elem_sets _ _ _ _ _ _ H1 Hl) as (He & Ht & Hl1).
  destruct (IH _ H2 Hl1) as (He' & Ht' & Hl'). rewrite He', Ht', He, Ht.
  split; [set_solver|done].
Qed.

Lemma merge_sets d id a a' :
  merge d id a = Some a' -> live_reg a ->
  os_elems a' = delta_adds (id, d) ∪ os_elems a /\
  os_tombs a' = delta_tombs (id, d) ∪ os_tombs a /\ live_reg a'.
Proof.
  intros Hm Hl. apply put_elems_sets in Hm; [done|].
  intros k i Hin Hn. simpl in *. eapply Hl; [done|]. set_solver.
Qed.

Lemma merges_sets l a a' :
  merges l a = Some a' -> live_reg a ->
  os_elems a' = ⋃ (delta_adds <$> l) ∪ os_elems a /\
  os_tombs a' = ⋃ (delta_tombs <$> l) ∪ os_tombs a /\ live_reg a'.
Proof.
  revert a. induction l as [|[id d] l IH]; intros a Hm Hl; simpl in *.
  { injection Hm as <-. by rewrite !union_empty_l_L. }
  apply bind_Some in Hm as (a1 & H1 & H2).
  destruct (merge_sets _ _ _ _ H1 Hl) as (He & Ht & Hl1).
  destruct (IH _ H2 Hl1) as (He' & Ht' & Hl'). rewrite He', Ht', He, Ht.
  split; [set_solver|]. split; [set_solver|done].
Qed.

Lemma in_set_live a k :
  live_reg a -> in_set a k <-> exists id, (k, id) ∈ os_elems a /\ (k, id) ∉ os_tombs a.
Proof.
  intros Hl. unfold in_set. split.
  - intros [_ [[k' id] Hin]%set_choose_L]. apply live_elem in Hin as (<- & ? & ?). eauto.
  - intros (id & Hin & Hn). split; [by eapply Hl|]. intros He.
    assert ((k, id) ∈ live a k) as Hk by (by apply live_elem).
    rewrite He in Hk. by apply elem_of_empty in Hk.
Qed.

Lemma union_fmap_perm {A} (f : A -> gset (bytes * bytes)) l l' :
  l ≡ₚ l' -> ⋃ (f <$> l) = ⋃ (f <$> l').
Proof.
  intros Hp. apply set_eq. intros x. rewrite !elem_of_union_list. by setoid_rewrite Hp.
Qed.

Lemma merges_perm_sets l l' a a1 a2 :
  l ≡ₚ l' -> live_reg a -> merges l a = Some a1 -> merges l' a = Some a2 ->
  os_elems a1 = os_elems a2 /\ os_tombs a1 = os_tombs a2 /\ live_reg a1 /\ live_reg a2.
Proof.
  intros Hp Hl H1 H2.
  destruct (merges_sets _ _ _ H1 Hl) as (-> & -> & Hl1).
  destruct (merges_sets _ _ _ H2 Hl) as (-> & -> & Hl2).
  by rewrite !(union_fmap_perm _ _ _ Hp).
Qed.

(** A delta the merge cannot refuse: it adds nothing, or has a positive
    priority, as every published delta has. *)
Definition accepted (idd : bytes * Delta) : Prop :=
  elements idd.2 = [] \/ (1 <= priority idd.2)%Z.

Lemma merges_total l a : Forall accepted l -> is_Some (merges l a).
Proof.
  intros Hl. revert a. induction Hl as [|[id d] l [Hd|Hd] _ IH]; intros a; simpl in *; [done|..];
    unfold merge; [rewrite Hd|rewrite put_elems_additions by done]; apply IH.
Qed.

(** An addition that no block removes keeps its key in the set. *)
Lemma merges_fresh_addition l a a' k id :
  live_reg a -> merges l a = Some a' ->
  (k, id) ∈ ⋃ (delta_adds <$> l) -> (k, id) ∉ ⋃ (delta_tombs <$> l) -> (k, id) ∉ os_tombs a ->
  in_set a' k.
Proof.
  intros Hl Hm Ha Ht Hn. destruct (merges_sets _ _ _ Hm Hl) as (He & Hte & Hl').
  apply in_set_live; [done|]. exists id. rewrite He, Hte, !elem_of_union. tauto.
Qed.
End facts.
