(* ===== verification/CrdtSetProps.v ===== *)
(** * Correctness of the CRDT set

    [Merge] implements the merge of the abstract observed-remove set, the
    reading operations answer from it, and the consequences for replicas:
    additions converge in any order, which keys are in the set converges with
    removals too, a removal removes what it has seen, and a concurrent
    addition wins.  The last part proves where the implementation departs from
    its intent. *)

From S2P Require Import Prelude Store HierarchicalKey CrdtSet CrdtRefine ORSetFacts.
Import HKey CrdtSet ORSet.

#[local] Arguments CrdtSet.Merge : simpl never.
#[local] Arguments ORSet.merge : simpl never.

(** A sequence of blocks merged one after the other, up to the first error. *)
Section sequences.
Context {DB : Type} `{!RocksDBLib DB, !BoostLib, !Platform}.

Fixpoint merge_all (s : CrdtSet.t) (l : list (bytes * Delta)) (w : World DB)
    : outcome unit * World DB :=
  match l with
  | [] => (Ok tt, w)
  | (id, d) :: l =>
      match Merge s (Some d) id w with
      | (Err e, w) => (Err e, w)
      | (Ok _, w) => merge_all s l w
      end
  end.
End sequences.

Section props.
Context {DB : Type} `{!RocksDBLib DB, !RocksDBHealthy DB, !BoostLib, !BoostSpec}.
Context {plat : Platform}.
Context (s : CrdtSet.t).
Implicit Types (w : World DB) (a : ORSet.t) (d : Delta).

(** The state of a replica: its store represents [a]. *)
Definition replica w a : Prop :=
  wf_key (namespaceKey_ s) /\ world_repr s w a /\ live_reg a.

Definition wf_block (idd : bytes * Delta) : Prop := wf_id idd.1 /\ wf_delta idd.2.

Lemma delete_events_store (l : list Element) w :
  dataStore_ (fold_left (fun w e => add_event w (DeleteHook (el_key e))) l w) = dataStore_ w.
Proof. revert w. induction l as [|e l IH]; intros w; simpl; [done|]. by rewrite IH. Qed.

Lemma PutTombs_repr w a l id :
  wf_key (namespaceKey_ s) -> world_repr s w a -> wf_id id ->
  Forall (fun e => wf_key (el_key e) /\ (el_id e = [] \/ wf_id (el_id e))) l ->
  exists w', PutTombs s l id w = (Ok tt, w') /\ world_repr s w' (put_tombs id l a).
Proof using All.
  intros Hns (db & Hdb & Hr) Hid Hl. destruct l as [|e l].
  { exists w. split; [done|]. rewrite put_tombs_nil. by exists db. }
  unfold PutTombs. rewrite Hdb.
  destruct (RocksDb.batch_commit_spec db (put_tombs_batch s (e :: l) id)) as (db' & -> & Hdb').
  eexists. split; [done|]. exists db'. rewrite Hdb'. split.
  - destruct (deleteHookFunc_ s); [|done]. by rewrite delete_events_store.
  - by apply repr_put_tombs.
Qed.

Lemma PutElems_repr w a l id p :
  wf_key (namespaceKey_ s) -> world_repr s w a -> wf_id id -> is_u64 p ->
  Forall (fun e => wf_key (el_key e)) l -> NoDup (el_key <$> l) ->
  match put_elems p id l a with
  | Some a' => exists w', PutElems s l id p w = (Ok tt, w') /\ world_repr s w' a'
  | None => exists w', PutElems s l id p w = (Err (database_error NOT_FOUND), w')
  end.
Proof using All.
  intros Hns (db & Hdb & Hr) Hid Hp Hl Hnd. destruct l as [|e l].
  { exists w. split; [done|]. by exists db. }
  unfold PutElems. rewrite Hdb.
  assert (pending s [] RocksDb.batch w a) as Hpend by (by exists db).
  pose proof (put_elems_loop_pending s Hns [] _ w a (e :: l) id p Hpend Hl Hnd
    ltac:(set_solver) Hid Hp) as Hloop.
  destruct (put_elems p id (e :: l) a) as [a'|].
  - destruct Hloop as (P & b & w' & -> & (db' & -> & _ & Hr')).
    destruct (RocksDb.batch_commit_spec db' b) as (db2 & -> & Hdb2).
    eexists. split; [done|]. exists db2. split; [done|]. by rewrite Hdb2.
  - destruct Hloop as (b & w' & ->). eauto.
Qed.

Lemma Merge_repr w a d id :
  wf_key (namespaceKey_ s) -> world_repr s w a -> wf_id id -> wf_delta d ->
  match merge d id a with
  | Some a' => exists w', Merge s (Some d) id w = (Ok tt, w') /\ world_repr s w' a'
  | None => exists w', Merge s (Some d) id w = (Err (database_error NOT_FOUND), w')
  end.
Proof using All.
  intros Hns Hw Hid [Hk Hnd Ht Hp]. unfold Merge, merge.
  destruct (PutTombs_repr w a (tombstones d) id Hns Hw Hid Ht) as (w1 & -> & Hw1).
  by apply PutElems_repr.
Qed.

Lemma merge_all_replica l w a a' :
  replica w a -> Forall wf_block l -> merges l a = Some a' ->
  exists w', merge_all s l w = (Ok tt, w') /\ replica w' a'.
Proof using All.
  intros Hrep Hl. revert w a Hrep.
  induction Hl as [|[id d] l [Hid Hd] _ IH]; intros w a Hrep Hm; simpl in *.
  { injection Hm as <-. eauto. }
  apply bind_Some in Hm as (a1 & H1 & H2). destruct Hrep as (Hns & Hw & Hlive).
  pose proof (Merge_repr w a d id Hns Hw Hid Hd) as Hmr. rewrite H1 in Hmr.
  destruct Hmr as (w1 & -> & Hw1). apply (IH w1 a1); [|done].
  split; [done|]. split; [done|]. by apply (merge_sets _ _ _ _ H1 Hlive).
Qed.

Lemma IsValueInSet_replica w a k :
  replica w a -> wf_key k -> no_ancestor a k ->
  IsValueInSet s w k = Ok (bool_decide (in_set a k)).
Proof using All.
  intros (Hns & Hw & _) Hk Hanc. pose proof Hw as (db & Hdb & Hr).
  unfold IsValueInSet. rewrite Hdb, RocksDb.contains_spec, (value_key_eq s Hns) by done.
  rewrite (repr_value _ _ _ Hr) by done. destruct (os_reg a !! k) as [r|] eqn:E; simpl.
  - rewrite (InElemsNotTombstoned_repr s Hns w a) by (done || by rewrite E).
    f_equal. apply bool_decide_ext. unfold in_set. rewrite E. naive_solver.
  - f_equal. symmetry. apply bool_decide_eq_false_2. unfold in_set. rewrite E.
    intros [[? ?] _]. done.
Qed.

(** What [GetElement] answers from the abstract set. *)
Definition get_spec (a : ORSet.t) (k : bytes) : outcome bytes :=
  match os_reg a !! k with
  | None => Err (database_error NOT_FOUND)
  | Some r => if decide (in_set a k) then Ok r.2 else Err error_code_zero
  end.

Lemma GetElement_replica w a k :
  replica w a -> wf_key k -> no_ancestor a k -> GetElement s w k = get_spec a k.
Proof using All.
  intros (Hns & Hw & _) Hk Hanc. unfold GetElement, get_spec.
  rewrite (GetValue_repr s Hns w a) by done. destruct (os_reg a !! k) as [r|] eqn:E; simpl; [|done].
  rewrite (InElemsNotTombstoned_repr s Hns w a) by (done || by rewrite E).
  assert (in_set a k <-> live a k <> ∅) as Hin by (unfold in_set; rewrite E; naive_solver).
  case_bool_decide; case_decide; tauto.
Qed.

Lemma delta_to_remove_elem w k pre res e :
  e ∈ delta_to_remove_loop s w k pre res <->
  Exists (fun kv => let hId := HierarchicalKey (drop (length pre) kv.1) in
    e = Build_Element k hId [] /\ IsTopLevel hId = true /\ InTombsKeyID s w k hId = Ok false) res.
Proof.
  induction res as [|[key v] res IH]; simpl; [by rewrite Exists_nil, elem_of_nil|].
  rewrite Exists_cons. simpl. destruct (IsTopLevel _); simpl; [|intuition congruence].
  destruct (InTombsKeyID _ _ _ _) as [[]|]; simpl; rewrite ?elem_of_cons; intuition congruence.
Qed.

(** The removal delta names exactly the live additions. *)
Lemma CreateDeltaToRemove_replica w a k :
  replica w a -> wf_key k -> no_ancestor a k ->
  exists l, CreateDeltaToRemove s w k = Ok {| elements := []; tombstones := l; priority := 0 |} /\
    forall e, e ∈ l <-> exists id, e = Build_Element k id [] /\ (k, id) ∈ live a k.
Proof using All.
  intros (Hns & Hw & _) Hk Hanc. pose proof Hw as (db & Hdb & Hr).
  unfold CreateDeltaToRemove. rewrite Hdb.
  destruct (RocksDb.query_spec db (ElemsPrefix s k)) as (res & -> & Hres).
  eexists. split; [done|]. intros e. rewrite delta_to_remove_elem, Exists_exists. split.
  - intros ([key v] & Hin & -> & Htop & Ht). apply Hres in Hin as [Hm Hp]. simpl in *.
    destruct (elems_query_entry s Hns _ _ _ key Hr Hk Hanc ltac:(by eexists) Hp Htop)
      as (Hid & Hel & _).
    rewrite (InTombsKeyID_repr s Hns w a) in Ht by done.
    injection Ht as Ht%bool_decide_eq_false. eexists. split; [done|]. by apply live_elem.
  - intros (id & -> & (_ & Hel & Ht)%live_elem).
    destruct (elems_query_found s Hns _ _ _ _ Hr Hk Hel) as ([v1 Hm] & Hp & Hh & Htop).
    exists (elem_key (namespaceKey_ s) k id, v1). split; [by apply Hres|]. simpl.
    rewrite Hh. split; [done|]. split; [done|].
    rewrite (InTombsKeyID_repr s Hns w a); [by rewrite bool_decide_eq_false_2|done..|].
    by eapply (valid_elems _ (repr_valid _ _ _ Hr)).
Qed.

Lemma removal_wf a k l :
  wf_key k -> valid a ->
  (forall e, e ∈ l <-> exists id, e = Build_Element k id [] /\ (k, id) ∈ live a k) ->
  wf_delta {| elements := []; tombstones := l; priority := 0 |}.
Proof.
  intros Hk Hv Hl. split; simpl; [constructor|constructor| |done].
  apply Forall_forall. intros e (id & -> & (_ & Hel & _)%live_elem)%Hl. simpl.
  split; [done|right]. by eapply (valid_elems _ Hv).
Qed.

Lemma removal_tombs a k l id0 :
  valid a -> (forall e, e ∈ l <-> exists id, e = Build_Element k id [] /\ (k, id) ∈ live a k) ->
  os_tombs (put_tombs id0 l a) = live a k ∪ os_tombs a.
Proof.
  intros Hv Hl. simpl. f_equal. apply set_eq. intros [k' id].
  rewrite elem_of_list_to_set, list_elem_of_fmap. split.
  - intros (e & Heq & (id' & -> & Hin)%Hl). unfold tomb_id in Heq. simpl in Heq.
    pose proof Hin as (_ & Hel & _)%live_elem. apply (valid_elems _ Hv) in Hel as [_ (n & -> & _)].
    injection Heq as -> ->. done.
  - intros Hin. pose proof Hin as (Heq & Hel & _)%live_elem. simpl in Heq. subst k'.
    exists (Build_Element k id []). split; [|by apply Hl; eauto].
    apply (valid_elems _ Hv) in Hel as [_ (n & -> & _)]. done.
Qed.

Lemma replica_valid w a : replica w a -> valid a.
Proof. intros (_ & (db & _ & Hr) & _). exact (repr_valid _ _ _ Hr). Qed.

Lemma removal_in_set a k l id0 k' :
  valid a -> (forall e, e ∈ l <-> exists id, e = Build_Element k id [] /\ (k, id) ∈ live a k) ->
  in_set (put_tombs id0 l a) k' <-> k' <> k /\ in_set a k'.
Proof.
  intros Hv Hl. unfold in_set.
  assert (live (put_tombs id0 l a) k' = if decide (k' = k) then ∅ else live a k') as ->.
  { apply set_eq. intros [k2 id]. rewrite live_elem, (removal_tombs a k l id0) by done.
    simpl. rewrite elem_of_union. case_decide as Hk; rewrite ?elem_of_empty, !live_elem; simpl.
    - subst k'. tauto.
    - intuition congruence. }
  simpl. case_decide; intuition congruence.
Qed.

(** A removal merged into a replica. *)
Lemma removal_replica w a k l id :
  replica w a -> wf_key k -> wf_id id ->
  (forall e, e ∈ l <-> exists id, e = Build_Element k id [] /\ (k, id) ∈ live a k) ->
  exists w', Merge s (Some {| elements := []; tombstones := l; priority := 0 |}) id w = (Ok tt, w') /\
    replica w' (put_tombs id l a).
Proof using All.
  intros Hrep Hk Hid Hl. pose proof (replica_valid _ _ Hrep) as Hv.
  destruct (merge_all_replica [(id, {| elements := []; tombstones := l; priority := 0 |})]
    w a (put_tombs id l a) Hrep) as (w' & Hm & Hrep').
  - apply Forall_singleton. split; [done|]. by eapply (removal_wf a k l Hk Hv Hl).
  - done.
  - simpl in Hm. exists w'. split; [|done].
    by destruct (Merge _ _ _ _) as [[[]|] ?].
Qed.

Lemma no_ancestor_add a a' k id :
  no_ancestor a k -> os_elems a' ⊆ {[(k, id)]} ∪ os_elems a -> no_ancestor a' k.
Proof.
  intros Hanc He k' id' Hin. specialize (He _ Hin).
  apply elem_of_union in He as [[= -> ->]%elem_of_singleton|?]; [|by eapply Hanc].
  intros [r Hr]. apply (f_equal length) in Hr. rewrite !length_app in Hr. simpl in Hr. lia.
Qed.

(** A fresh addition and a removal of what [a] holds, merged in some order. *)
Lemma addition_survives w a k id1 id2 add l l' :
  replica w a -> wf_key k -> no_ancestor a k ->
  (forall e, e ∈ l <-> exists id, e = Build_Element k id [] /\ (k, id) ∈ live a k) ->
  wf_block (id1, add) -> wf_id id2 -> (1 <= priority add)%Z ->
  el_key <$> elements add = [k] -> tombstones add = [] ->
  (k, id1) ∉ os_elems a -> (k, id1) ∉ os_tombs a ->
  l' ≡ₚ [(id1, add); (id2, {| elements := []; tombstones := l; priority := 0 |})] ->
  exists w', merge_all s l' w = (Ok tt, w') /\ IsValueInSet s w' k = Ok true.
Proof using All.
  intros Hrep Hk Hanc Hl Hwa Hid2 Hp Hek Het Hne Hnt Hp'.
  pose proof (replica_valid _ _ Hrep) as Hv. pose proof Hrep as (_ & _ & Hlive).
  set (rem := (id2, {| elements := []; tombstones := l; priority := 0 |})) in *.
  assert (⋃ (delta_adds <$> l') = {[(k, id1)]}) as Hadds.
  { rewrite (union_fmap_perm _ _ _ Hp'). unfold delta_adds. simpl.
    destruct (elements add) as [|e [|]]; try done. injection Hek as <-. simpl.
    by rewrite !union_empty_r_L. }
  assert ((k, id1) ∉ ⋃ (delta_tombs <$> l')) as Htombs.
  { rewrite (union_fmap_perm _ _ _ Hp'). simpl. unfold delta_tombs at 1. simpl.
    rewrite Het. simpl. rewrite union_empty_l_L, union_empty_r_L. intros Hx.
    assert ((k, id1) ∈ os_tombs (put_tombs id2 l a)) as Hx' by (apply elem_of_union; by left).
    rewrite (removal_tombs a k l id2 Hv Hl) in Hx'.
    by apply elem_of_union in Hx' as [(_ & ? & _)%live_elem|]. }
  destruct (merges_total l' a) as [a' Ha'].
  { rewrite Hp'. apply Forall_cons. split; [by right|]. apply Forall_singleton. by left. }
  assert (in_set a' k) as Hin.
  { eapply (merges_fresh_addition l' a a' k id1); try done. rewrite Hadds.
    by apply elem_of_singleton. }
  destruct (merge_all_replica l' w a a' Hrep) as (w' & ? & Hrep'); [|done|].
  { rewrite Hp'. apply Forall_cons. split; [done|]. apply Forall_singleton.
    split; [done|]. by eapply removal_wf. }
  exists w'. split; [done|]. rewrite (IsValueInSet_replica w' a'); [|done..|].
  { by rewrite bool_decide_eq_true_2. }
  apply (no_ancestor_add a a' k id1 Hanc). destruct (merges_sets _ _ _ Ha' Hlive) as (-> & _).
  by rewrite Hadds.
Qed.

(** ** Theorems *)

(** C1. [Merge] implements the merge of the abstract observed-remove set.  For a
    delta whose keys and block identifiers are well formed and which names each key
    at most once among its elements, it succeeds with a store that represents the
    merged set, or, when the abstract merge refuses the delta, reports
    [NOT_FOUND].  A delta that names a new key twice is not covered: it fails and
    leaves a store that represents no set ([duplicate_key_poisons]). *)
Theorem Merge_refines_merge w a d id :
  replica w a -> wf_id id -> wf_delta d ->
  match merge d id a with
  | Some a' => exists w', Merge s (Some d) id w = (Ok tt, w') /\ replica w' a'
  | None => exists w', Merge s (Some d) id w = (Err (database_error NOT_FOUND), w')
  end.
Proof using All.
  intros (Hns & Hw & Hl) Hid Hd. pose proof (Merge_repr w a d id Hns Hw Hid Hd) as Hm.
  destruct (merge d id a) as [a'|] eqn:E; [|done].
  destruct Hm as (w' & -> & Hw'). exists w'. split; [done|]. split; [done|]. split; [done|].
  by apply (merge_sets _ _ _ _ E Hl).
Qed.

(** [IsValueInSet] and [GetElement] answer from the abstract set: a key is
    in the set iff it has a value and an addition that was not removed, and the
    value returned is the one of its register. *)
Theorem reads_refine w a k :
  replica w a -> wf_key k -> no_ancestor a k ->
  IsValueInSet s w k = Ok (bool_decide (in_set a k)) /\ GetElement s w k = get_spec a k.
Proof using All. intros. split; [by apply IsValueInSet_replica|by apply GetElement_replica]. Qed.

(** C2. Two replicas that start from the same set and merge the same blocks of
    additions, in any order, all succeed and end with the same abstract set:
    the same additions, and the same value and priority of every key.  The blocks
    have well-formed keys, each key at most once in a block, no removals, and a
    priority of at least 1, as every published delta has. *)
Theorem additions_converge w1 w2 a l1 l2 :
  replica w1 a -> replica w2 a -> l1 ≡ₚ l2 -> Forall wf_block l1 ->
  Forall (fun idd => tombstones idd.2 = [] /\ (1 <= priority idd.2)%Z) l1 ->
  exists w1' w2' a', merge_all s l1 w1 = (Ok tt, w1') /\ merge_all s l2 w2 = (Ok tt, w2') /\
    replica w1' a' /\ replica w2' a'.
Proof using All.
  intros H1 H2 Hp Hwf Hl.
  destruct (merges_additions_perm l1 l2 a Hp Hl) as [Heq [a' Ha']].
  destruct (merge_all_replica l1 w1 a a' H1 Hwf Ha') as (w1' & ? & ?).
  rewrite Heq in Ha'. rewrite Hp in Hwf.
  destruct (merge_all_replica l2 w2 a a' H2 Hwf Ha') as (w2' & ? & ?). eauto 10.
Qed.

(** C9. With removals too, the order of the blocks does not matter for which
    keys are in the set: after merging the same blocks in any order two
    replicas agree on [IsValueInSet] for every well-formed key no proper ancestor
    of which was ever added.  The blocks have well-formed keys, each key at most
    once among the additions of a block, and a priority of at least 1 where they
    add something.  For a key below an added one [parent_addition_resurrects] shows
    another answer. *)
Theorem membership_converges w1 w2 a l1 l2 :
  replica w1 a -> replica w2 a -> l1 ≡ₚ l2 -> Forall wf_block l1 -> Forall accepted l1 ->
  exists w1' w2' a1, merge_all s l1 w1 = (Ok tt, w1') /\ merge_all s l2 w2 = (Ok tt, w2') /\
    replica w1' a1 /\
    forall k, wf_key k -> no_ancestor a1 k -> IsValueInSet s w1' k = IsValueInSet s w2' k.
Proof using All.
  intros H1 H2 Hp Hwf Hl. pose proof H1 as (_ & _ & Hlive).
  destruct (merges_total l1 a Hl) as [a1 Ha1].
  destruct (merges_total l2 a ltac:(by rewrite <-Hp)) as [a2 Ha2].
  destruct (merge_all_replica l1 w1 a a1 H1 Hwf Ha1) as (w1' & ? & Hr1).
  rewrite Hp in Hwf.
  destruct (merge_all_replica l2 w2 a a2 H2 Hwf Ha2) as (w2' & ? & Hr2).
  exists w1', w2', a1. split; [done|]. split; [done|]. split; [done|]. intros k Hk Hanc.
  destruct (merges_perm_sets _ _ _ _ _ Hp Hlive Ha1 Ha2) as (He & Ht & Hl1 & Hl2).
  rewrite (IsValueInSet_replica w1' a1), (IsValueInSet_replica w2' a2) by
    first [done|unfold no_ancestor; rewrite <-He; done].
  f_equal. apply bool_decide_ext. rewrite !in_set_live by done. by rewrite He, Ht.
Qed.

(** C10. Observed remove: the delta [CreateDeltaToRemove] builds, merged into
    the same replica, takes the key out of the set and leaves every other
    key's membership and value as it was.  Both keys are well formed, and no
    proper ancestor of them was ever added. *)
Theorem removal_removes w a k id :
  replica w a -> wf_key k -> no_ancestor a k -> wf_id id ->
  exists d w', CreateDeltaToRemove s w k = Ok d /\ Merge s (Some d) id w = (Ok tt, w') /\
    IsValueInSet s w' k = Ok false /\
    forall k', wf_key k' -> no_ancestor a k' -> k' <> k ->
      IsValueInSet s w' k' = IsValueInSet s w k' /\ GetElement s w' k' = GetElement s w k'.
Proof using All.
  intros Hrep Hk Hanc Hid. pose proof (replica_valid _ _ Hrep) as Hv.
  destruct (CreateDeltaToRemove_replica w a k Hrep Hk Hanc) as (l & Hc & Hl).
  destruct (removal_replica w a k l id Hrep Hk Hid Hl) as (w' & Hm & Hrep').
  pose proof (fun k' => removal_in_set a k l id k' Hv Hl) as Hin.
  eexists _, w'. split; [exact Hc|]. split; [exact Hm|]. split.
  - rewrite (IsValueInSet_replica w' (put_tombs id l a)) by done.
    f_equal. apply bool_decide_eq_false_2. rewrite Hin. naive_solver.
  - intros k' Hk' Hanc' Hne. specialize (Hin k').
    rewrite !(IsValueInSet_replica w' (put_tombs id l a)), !(IsValueInSet_replica w a),
      !(GetElement_replica w' (put_tombs id l a)), !(GetElement_replica w a) by done.
    split; [f_equal; apply bool_decide_ext; tauto|]. unfold get_spec. simpl.
    destruct (os_reg a !! k'); [|done]. do 2 case_decide; tauto.
Qed.

(** C11. Add wins: an addition of a key by a block the removal has not seen
    survives the removal, whichever of the two is merged first.  The addition has a
    priority of at least 1, and no proper ancestor of the key was ever added. *)
Theorem addition_wins w a k v p id1 id2 d :
  replica w a -> wf_key k -> no_ancestor a k -> wf_id id1 -> wf_id id2 ->
  (1 <= p < 2 ^ 64)%Z -> (k, id1) ∉ os_elems a -> (k, id1) ∉ os_tombs a ->
  CreateDeltaToRemove s w k = Ok d ->
  let add := {| elements := [Build_Element k [] v]; tombstones := []; priority := p |} in
  exists w1 w2,
    merge_all s [(id1, add); (id2, d)] w = (Ok tt, w1) /\ IsValueInSet s w1 k = Ok true /\
    merge_all s [(id2, d); (id1, add)] w = (Ok tt, w2) /\ IsValueInSet s w2 k = Ok true.
Proof using All.
  intros Hrep Hk Hanc Hid1 Hid2 Hp Hne Hnt Hd add.
  destruct (CreateDeltaToRemove_replica w a k Hrep Hk Hanc) as (l & Hc & Hl).
  rewrite Hc in Hd. injection Hd as <-.
  assert (wf_block (id1, add)) as Hwa.
  { split; [done|]. split; simpl; [by constructor|apply NoDup_singleton|done|u64_lia]. }
  pose proof (fun l' => addition_survives w a k id1 id2 add l l' Hrep Hk Hanc Hl Hwa Hid2
    ltac:(simpl; lia) eq_refl eq_refl Hne Hnt) as Hrun.
  destruct (Hrun _ (reflexivity _)) as (w1 & ? & ?).
  destruct (Hrun _ (perm_swap _ _ _)) as (w2 & ? & ?). eauto 10.
Qed.

(** A priority written by [SetPriority] is read back by [GetPriority]
    unchanged, for every 64-bit value: the plus one of the stored text and the
    minus one of the reader cancel modulo 2^64, the largest value included. *)
Theorem priority_roundtrip w db k p :
  dataStore_ w = Some db -> is_u64 p ->
  exists w', SetPriority s k p w = (Ok tt, w') /\ GetPriority s w' k = Ok p.
Proof using All.
  intros Hdb Hp. unfold SetPriority. rewrite Hdb.
  destruct (RocksDb.put_spec db (PriorityKey s k) (to_string (u64 (p + 1)))) as (db' & -> & Hdb').
  eexists. split; [done|]. unfold GetPriority, GetValueFromDatastore. simpl.
  rewrite RocksDb.get_spec, Hdb', lookup_insert_eq. simpl.
  rewrite lexical_cast_to_string by apply u64_range. by rewrite u64_pred_succ.
Qed.
End props.

(** ** A concrete replica *)

Lemma repr_empty ns : repr ns ∅ ORSet.empty.
Proof.
  assert (forall key, ~ is_Some ((∅ : gmap bytes bytes) !! key)) as Hnone.
  { intros key [v Hv]. by rewrite lookup_empty in Hv. }
  split.
  - intros k id _ _. split; [by intros ?%Hnone|by intros ?%elem_of_empty].
  - intros k id _ _. split; [by intros ?%Hnone|by intros ?%elem_of_empty].
  - done.
  - done.
  - by intros key ?%Hnone.
  - split; [done|]. by intros k id ?%elem_of_empty.
Qed.

Module Demo.
#[local] Instance demo_platform : Platform := {| char_signed := true |}.

Definition set : CrdtSet.t :=
  {| namespaceKey_ := str "/g"; putHookFunc_ := true; deleteHookFunc_ := true |}.
Definition world : World (gmap bytes bytes) := {| dataStore_ := Some ∅; hook_events := [] |}.

Definition elem (k v : string) : Element :=
  {| el_key := str k; el_id := []; el_value := str v |}.
Definition tomb (k id : string) : Element :=
  {| el_key := str k; el_id := str id; el_value := [] |}.
Definition adds (l : list Element) (p : Z) : Delta :=
  {| elements := l; tombstones := []; priority := p |}.
Definition removes (l : list Element) (p : Z) : Delta :=
  {| elements := []; tombstones := l; priority := p |}.

Definition blocks : list (bytes * Delta) :=
  [(str "/B1", adds [elem "/a" "1"; elem "/b" "2"] 1); (str "/B2", adds [elem "/a" "3"] 2)].
Definition blocks_tomb : list (bytes * Delta) :=
  [(str "/B1", adds [elem "/a" "1"] 1); (str "/B2", adds [elem "/a" "3"] 2);
   (str "/B3", removes [tomb "/a" "/B2"] 3)].
Definition after (l : list (bytes * Delta)) : World (gmap bytes bytes) := (merge_all set l world).2.
End Demo.

Lemma demo_replica : replica (DB := gmap bytes bytes) Demo.set Demo.world ORSet.empty.
Proof.
  split; [by apply (bool_decide_unpack _)|]. split; [|by intros k id ?%elem_of_empty].
  exists ∅. split; [done|]. apply repr_empty.
Qed.

Lemma wf_id_intro n : bool_decide (wf_name n) = true -> wf_id (slash :: n).
Proof. intros H%bool_decide_eq_true. by exists n. Qed.

(** Well-formedness of concrete keys, identifiers and deltas. *)
Ltac wf_demo := repeat match goal with
  | |- Forall _ _ => constructor
  | |- wf_block _ => split
  | |- wf_delta _ => split
  | |- wf_id _ => apply wf_id_intro; reflexivity
  | |- wf_key _ => apply (bool_decide_unpack _); exact I
  | |- NoDup _ => apply (bool_decide_unpack _); exact I
  | |- is_u64 _ => unfold is_u64; simpl; lia
  | |- _ /\ _ => split
  | |- no_ancestor ORSet.empty _ => by intros ? ? ?%elem_of_empty
  | |- (_ <= _)%Z => simpl; lia
  | |- _ ∉ _ => apply not_elem_of_empty
  | |- _ \/ wf_id _ => right
  | |- accepted _ => right
  | |- tombstones _ = _ => reflexivity
  end.

Section witnesses.
#[local] Existing Instance Demo.demo_platform.

Lemma Merge_refines_merge_witness :
  match merge (Demo.adds [Demo.elem "/a" "1"] 1) (str "/B1") ORSet.empty with
  | Some a' => exists w', Merge Demo.set (Some (Demo.adds [Demo.elem "/a" "1"] 1)) (str "/B1")
                 Demo.world = (Ok tt, w') /\ replica Demo.set w' a'
  | None => exists w', Merge Demo.set (Some (Demo.adds [Demo.elem "/a" "1"] 1)) (str "/B1")
                 Demo.world = (Err (database_error NOT_FOUND), w')
  end.
Proof.
  apply (Merge_refines_merge Demo.set Demo.world ORSet.empty); [apply demo_replica|..]; wf_demo.
Defined.

Lemma reads_refine_witness :
  IsValueInSet Demo.set Demo.world (str "/a") = Ok (bool_decide (in_set ORSet.empty (str "/a"))) /\
  GetElement Demo.set Demo.world (str "/a") = get_spec ORSet.empty (str "/a").
Proof.
  apply (reads_refine Demo.set Demo.world ORSet.empty); [apply demo_replica|..]; wf_demo.
Defined.

Lemma additions_converge_witness : exists w1 w2 a',
  merge_all Demo.set Demo.blocks Demo.world = (Ok tt, w1) /\
  merge_all Demo.set (rev Demo.blocks) Demo.world = (Ok tt, w2) /\
  replica Demo.set w1 a' /\ replica Demo.set w2 a'.
Proof.
  apply (additions_converge Demo.set Demo.world Demo.world ORSet.empty);
    [apply demo_replica|apply demo_replica|apply Permutation_rev|..]; wf_demo.
Defined.

Lemma membership_converges_witness : exists w1 w2 a1,
  merge_all Demo.set Demo.blocks_tomb Demo.world = (Ok tt, w1) /\
  merge_all Demo.set (rev Demo.blocks_tomb) Demo.world = (Ok tt, w2) /\
  replica Demo.set w1 a1 /\
  forall k, wf_key k -> no_ancestor a1 k -> IsValueInSet Demo.set w1 k = IsValueInSet Demo.set w2 k.
Proof.
  apply (membership_converges Demo.set Demo.world Demo.world ORSet.empty);
    [apply demo_replica|apply demo_replica|apply Permutation_rev|..]; wf_demo.
Defined.

(** A replica that holds two keys. *)
Definition demo_added : ORSet.t := default ORSet.empty (merges Demo.blocks ORSet.empty).

Lemma demo_added_replica : replica Demo.set (Demo.after Demo.blocks) demo_added.
Proof.
  destruct (merges_total Demo.blocks ORSet.empty ltac:(wf_demo)) as [a Ha]. unfold demo_added, Demo.after. rewrite Ha.
  destruct (merge_all_replica Demo.set Demo.blocks Demo.world ORSet.empty a demo_replica ltac:(wf_demo) Ha) as (w' & -> & Hw').
  exact Hw'.
Qed.

Lemma no_ancestor_intro a k : bool_decide (set_Forall (fun x => ~ (x.1 ++ [slash]) `prefix_of` k) (os_elems a)) = true ->
  no_ancestor a k.
Proof. intros H%bool_decide_eq_true k' id Hin. exact (H (k', id) Hin). Qed.

Ltac by_demo := (apply no_ancestor_intro || apply (bool_decide_unpack _)); vm_compute; (reflexivity || exact I).

Lemma removal_removes_witness :
  IsValueInSet Demo.set (Demo.after Demo.blocks) (str "/a") = Ok true /\
  exists d w', CreateDeltaToRemove Demo.set (Demo.after Demo.blocks) (str "/a") = Ok d /\
  Merge Demo.set (Some d) (str "/B3") (Demo.after Demo.blocks) = (Ok tt, w') /\
  IsValueInSet Demo.set w' (str "/a") = Ok false /\ IsValueInSet Demo.set w' (str "/b") = Ok true /\
  GetElement Demo.set w' (str "/b") = Ok (str "2").
Proof.
  split; [vm_compute; reflexivity|].
  destruct (removal_removes Demo.set (Demo.after Demo.blocks) demo_added (str "/a") (str "/B3") demo_added_replica
    ltac:(wf_demo) ltac:(by_demo) ltac:(wf_demo)) as (d & w' & Hd & Hm & Ha & Hb). exists d, w'.
  destruct (Hb (str "/b") ltac:(wf_demo) ltac:(by_demo) ltac:(by_demo)) as [-> ->].
  split; [exact Hd|]. split; [exact Hm|]. split; [exact Ha|]. split; vm_compute; reflexivity.
Defined.

Lemma addition_wins_witness :
  let removal := Demo.removes [Demo.tomb "/a" "/B1"; Demo.tomb "/a" "/B2"] 0 in
  CreateDeltaToRemove Demo.set (Demo.after Demo.blocks) (str "/a") = Ok removal /\
  exists w1 w2,
  merge_all Demo.set [(str "/B3", Demo.adds [Demo.elem "/a" "1"] 3); (str "/B4", removal)]
    (Demo.after Demo.blocks) = (Ok tt, w1) /\ IsValueInSet Demo.set w1 (str "/a") = Ok true /\
  merge_all Demo.set [(str "/B4", removal); (str "/B3", Demo.adds [Demo.elem "/a" "1"] 3)]
    (Demo.after Demo.blocks) = (Ok tt, w2) /\ IsValueInSet Demo.set w2 (str "/a") = Ok true.
Proof.
  intros removal. assert (Hd : CreateDeltaToRemove Demo.set (Demo.after Demo.blocks) (str "/a") = Ok removal) by (vm_compute; reflexivity).
  split; [exact Hd|].
  apply (addition_wins Demo.set (Demo.after Demo.blocks) demo_added (str "/a") (str "1") 3 (str "/B3") (str "/B4")
    removal demo_added_replica ltac:(wf_demo) ltac:(by_demo)); [wf_demo|wf_demo|lia|by_demo|by_demo|exact Hd].
Defined.

Lemma priority_roundtrip_witness : exists w',
  SetPriority Demo.set (str "/a") u64_max Demo.world = (Ok tt, w') /\
  GetPriority Demo.set w' (str "/a") = Ok u64_max.
Proof. apply (priority_roundtrip Demo.set Demo.world ∅); [reflexivity|]. unfold is_u64, u64_max. lia. Defined.
End witnesses.

(** ** Where the implementation departs from its intent *)

Section poisoned.
Context {DB : Type} `{!RocksDBLib DB, !RocksDBHealthy DB, !BoostLib, !BoostSpec}.
Context {plat : Platform}.
Context (s : CrdtSet.t) (Hns : wf_key (namespaceKey_ s)).
Abbreviation ns := (namespaceKey_ s).
Implicit Types (w : World DB).

(** A key whose priority is in the store but not its value. *)
Definition poisoned w (k : bytes) (p : Z) : Prop :=
  exists db, dataStore_ w = Some db /\
    db_view db !! prio_key ns k = Some (to_string (u64 (p + 1))) /\
    db_view db !! value_key ns k = None.

Definition not_tombstoned w (k id : bytes) : Prop :=
  exists db, dataStore_ w = Some db /\ db_view db !! tomb_key ns k id = None.

Lemma SetValueBatch_poisoned w k id p v b :
  poisoned w k p -> not_tombstoned w k id -> wf_key k -> wf_id id -> is_u64 p ->
  SetValueBatch s b k id v p w = (Err (database_error NOT_FOUND), b, w).
Proof using All.
  intros (db & Hdb & Hp & Hv) (db' & Hdb' & Ht) Hk Hid Hu.
  rewrite Hdb in Hdb'. injection Hdb' as <-. unfold SetValueBatch.
  rewrite (InTombsKeyID_eq s Hns w db), Ht by done. simpl.
  rewrite (GetPriority_lookup s Hns w db k (Some (p, []))) by
    first [done|by intros [? ?] [= <- <-]].
  simpl. rewrite Z.ltb_irrefl, Z.eqb_refl.
  by rewrite (GetValue_lookup s Hns w db), Hv.
Qed.

Lemma Merge_poisoned w k id p v :
  poisoned w k p -> not_tombstoned w k id -> wf_key k -> wf_id id -> is_u64 p ->
  Merge s (Some {| elements := [Build_Element k [] v]; tombstones := []; priority := p |}) id w
  = (Err (database_error NOT_FOUND), w).
Proof using All.
  intros Hpo Ht Hk Hid Hu. pose proof Hpo as (db & Hdb & _).
  unfold Merge, PutElems. simpl. rewrite Hdb. by rewrite SetValueBatch_poisoned.
Qed.

(** The store after the failed merge of a delta that sets a new key twice. *)
Lemma Merge_duplicate_key w db k v1 v2 p id :
  dataStore_ w = Some db -> wf_key k -> wf_id id -> (1 <= p < 2 ^ 64)%Z ->
  db_view db !! prio_key ns k = None -> db_view db !! value_key ns k = None ->
  db_view db !! tomb_key ns k id = None ->
  exists w' db', Merge s (Some {| elements := [Build_Element k [] v1; Build_Element k [] v2];
                              tombstones := []; priority := p |}) id w
             = (Err (database_error NOT_FOUND), w') /\
    dataStore_ w' = Some db' /\
    db_view db' = <[prio_key ns k := to_string (u64 (p + 1))]> (db_view db).
Proof using All.
  intros Hdb Hk Hid Hp Hprio Hval Ht. assert (is_u64 p) as Hu by (u64_lia).
  destruct (RocksDb.put_spec db (prio_key ns k) (to_string (u64 (p + 1)))) as (db1 & Hput & Hdb1).
  set (w1 := set_db w db1).
  set (w' := if putHookFunc_ s then add_event w1 (PutHook k v1) else w1).
  assert (dataStore_ w' = Some db1) as Hw' by (unfold w'; by destruct (putHookFunc_ s)).
  assert (poisoned w' k p) as Hpo.
  { exists db1. rewrite Hdb1, lookup_insert_eq, lookup_insert_ne by eauto with crdt_keys. done. }
  assert (not_tombstoned w' k id) as Hnt.
  { exists db1. split; [done|]. by rewrite Hdb1, lookup_insert_ne by eauto with crdt_keys. }
  exists w', db1. split; [|done].
  unfold Merge, PutElems. simpl. rewrite Hdb. unfold SetValueBatch at 1.
  rewrite (InTombsKeyID_eq s Hns w db), Ht by done. simpl.
  rewrite (GetPriority_lookup s Hns w db k None) by done. simpl.
  destruct (Z.ltb_spec p 0); [lia|]. destruct (Z.eqb_spec p 0); [lia|].
  unfold SetPriority. rewrite Hdb, (prio_key_eq s Hns), Hput by done. simpl.
  by rewrite SetValueBatch_poisoned by auto.
Qed.

(** A delta that sets one key twice fails when the key is new, and leaves
    the key unusable: its priority is written to the store at once, its value
    only with the batch that is then dropped, so that the second element, and
    every later addition of the key with the same priority, does not find the
    value it expects. *)
Theorem duplicate_key_poisons w db k v1 v2 p id :
  dataStore_ w = Some db -> wf_key k -> wf_id id -> (1 <= p < 2 ^ 64)%Z ->
  db_view db !! prio_key ns k = None -> db_view db !! value_key ns k = None ->
  db_view db !! tomb_key ns k id = None ->
  exists w', Merge s (Some {| elements := [Build_Element k [] v1; Build_Element k [] v2];
                              tombstones := []; priority := p |}) id w
             = (Err (database_error NOT_FOUND), w') /\
    forall id2 v, wf_id id2 -> db_view db !! tomb_key ns k id2 = None ->
      Merge s (Some {| elements := [Build_Element k [] v]; tombstones := []; priority := p |}) id2 w'
      = (Err (database_error NOT_FOUND), w').
Proof using All.
  intros Hdb Hk Hid Hp Hprio Hval Ht.
  destruct (Merge_duplicate_key w db k v1 v2 p id) as (w' & db' & Hm & Hdb' & Hv); [done..|].
  exists w'. split; [done|]. intros id2 v Hid2 Ht2.
  apply Merge_poisoned; [|exists db'|done|done|u64_lia].
  - exists db'. rewrite Hv, lookup_insert_eq, lookup_insert_ne by eauto with crdt_keys. done.
  - split; [done|]. by rewrite Hv, lookup_insert_ne by eauto with crdt_keys.
Qed.
End poisoned.

Section departures.
#[local] Existing Instance Demo.demo_platform.

Lemma duplicate_key_poisons_witness : exists w',
  Merge Demo.set (Some (Demo.adds [Demo.elem "/a" "1"; Demo.elem "/a" "2"] 1)) (str "/B1")
    Demo.world = (Err (database_error NOT_FOUND), w') /\
  forall id2 v, wf_id id2 -> (∅ : gmap bytes bytes) !! tomb_key (str "/g") (str "/a") id2 = None ->
    Merge Demo.set (Some {| elements := [Build_Element (str "/a") [] v]; tombstones := [];
      priority := 1 |}) id2 w' = (Err (database_error NOT_FOUND), w').
Proof.
  apply (duplicate_key_poisons Demo.set ltac:(wf_demo) Demo.world ∅ (str "/a") (str "1") (str "2") 1
    (str "/B1")); wf_demo; try reflexivity.
Defined.

(** Values do not converge when removals are involved: two additions of a
    key and the removal of the second one leave the removed value on a replica
    that merges the removal last, and the first value on one that merges it
    first. *)
Theorem values_diverge :
  GetElement Demo.set (Demo.after Demo.blocks_tomb) (str "/a") = Ok (str "3") /\
  GetElement Demo.set (Demo.after (rev Demo.blocks_tomb)) (str "/a") = Ok (str "1").
Proof. split; vm_compute; reflexivity. Qed.

(** [QueryElements] returns removed elements: it asks whether the key of
    the store entry, not the key of the element, is in the set, which an empty
    search answers with yes. *)
Theorem query_returns_removed :
  let w := Demo.after [(str "/B1", Demo.adds [Demo.elem "/a" "1"] 1);
                       (str "/B2", Demo.removes [Demo.tomb "/a" "/B1"] 2)] in
  IsValueInSet Demo.set w (str "/a") = Ok false /\
  QueryElements Demo.set w (str "/a") QUERY_VALUESUFFIX = Ok [(str "/g/k/a/v", str "1")].
Proof. split; vm_compute; reflexivity. Qed.

(** The search for the additions of a key also finds those of its path
    parent: a removed key [/a/Q] is back in the set once its parent [/a] is
    added by a block whose identifier starts with [Q]. *)
Theorem parent_addition_resurrects :
  let removed := [(str "/B1", Demo.adds [Demo.elem "/a/Q" "1"] 1);
                  (str "/B2", Demo.removes [Demo.tomb "/a/Q" "/B1"] 2)] in
  IsValueInSet Demo.set (Demo.after removed) (str "/a/Q") = Ok false /\
  IsValueInSet Demo.set (Demo.after (removed ++ [(str "/Qm", Demo.adds [Demo.elem "/a" "2"] 3)]))
    (str "/a/Q") = Ok true.
Proof. split; vm_compute; reflexivity. Qed.
End departures.
