(* ===== verification/CrdtHeads.v ===== *)
(** * The heads of the Merkle-CRDT ([crdt/crdt_heads.hpp], [crdt/impl/crdt_heads.cpp])

    The current heads of every topic with their heights: a cache in memory and
    one store entry [/ns/topic/cid] per head.  The theorems show that cache and
    store stay in step, so that a restart finds the heads it left, except for a
    head that was replaced by itself.

    [synced]: the entries of the store under the heads' namespace are the heads
    of the cache.  [Add] and [Replace] preserve it but for the heads of [lost]
    ([tracks]), and a new object built from the store has the other heads. *)

From S2P Require Import Prelude Store HierarchicalKey CrdtSet CrdtRefine.
Import HKey.

(** Content identifiers are a library's: a type with decidable equality, a
    text form and a parser of that form. *)
Class CIDLib := {
  CID : Type;
  #[global] CID_eq_dec :: EqDecision CID;
  #[global] CID_countable :: Countable CID;
  cid_toString : CID -> outcome bytes;
  cid_fromString : bytes -> outcome CID
}.

Class CIDSpec `{CIDLib} := {
  cid_round_trip c s : cid_toString c = Ok s -> cid_fromString s = Ok c;
  cid_text c s : cid_toString c = Ok s -> wf_name s
}.

Module CrdtHeads.
Section ops.
Context {DB : Type} `{!RocksDBLib DB} `{!BoostLib} `{!CIDLib}.
Abbreviation World := (CrdtSet.World DB).

(** An unordered map of ordered maps.  Loops over it visit the entries in some
    order; [map_to_list] is one. *)
Abbreviation Cache := (gmap bytes (gmap CID Z)).

Record t := { namespaceKey_ : bytes; cache_ : Cache }.

Implicit Types (h : t) (w : World).

Definition with_cache h (c : Cache) : t := {| namespaceKey_ := namespaceKey_ h; cache_ := c |}.

(** [cache_[topic]], which creates an empty entry. *)
Definition cache_at (c : Cache) (topic : bytes) : gmap CID Z := default ∅ (c !! topic).

Definition GetNamespaceKey h : bytes := namespaceKey_ h.

Definition GetKey h (topic : bytes) (aCid : CID) : outcome bytes :=
  let topicNs := ChildString (namespaceKey_ h) topic in
  match cid_toString aCid with
  | Err e => Err e
  | Ok cidStr => Ok (ChildString topicNs cidStr)
  end.

Definition Write h (b : list batch_op) (aCid : CID) (aHeight : Z) (topic : bytes)
    : outcome unit * list batch_op :=
  match GetKey h topic aCid with
  | Err e => (Err e, b)
  | Ok key => (Ok tt, RocksDb.batch_put b key (to_string aHeight))
  end.

Definition Delete h (b : list batch_op) (aCid : CID) (topic : bytes)
    : outcome unit * list batch_op :=
  match GetKey h topic aCid with
  | Err e => (Err e, b)
  | Ok key => (Ok tt, RocksDb.batch_remove b key)
  end.

Definition IsHead h (cid : CID) (topic : bytes) : bool :=
  match topic with
  | [] => existsb (fun tMap => bool_decide (is_Some (tMap.2 !! cid))) (map_to_list (cache_ h))
  | _ => match cache_ h !! topic with
         | None => false
         | Some m => bool_decide (is_Some (m !! cid))
         end
  end.

(** The height of the first entry for [cid] of the topics visited. *)
Fixpoint first_height (aCid : CID) (l : list (bytes * gmap CID Z)) : Z :=
  match l with
  | [] => 0
  | (_, m) :: l => match m !! aCid with Some height => height | None => first_height aCid l end
  end.

Definition GetHeadHeight h (aCid : CID) (topic : bytes) : outcome Z :=
  if negb (IsHead h aCid topic) then Ok 0%Z else
  match topic with
  | [] => Ok (first_height aCid (map_to_list (cache_ h)))
  | _ => match cache_ h !! topic with
         | None => Ok 0%Z
         | Some m => Ok (default 0%Z (m !! aCid))
         end
  end.

(** [static_cast<int>] of a size. *)
Definition to_int (n : nat) : Z := ((Z.of_nat n + 2 ^ 31) mod 2 ^ 32 - 2 ^ 31)%Z.

Definition GetLength h (topic : bytes) : outcome Z * t :=
  match topic with
  | [] => (Ok (to_int (foldr (fun kv n => size kv.2 + n) 0 (map_to_list (cache_ h)))), h)
  | _ => (Ok (to_int (size (cache_at (cache_ h) topic))),
          with_cache h (<[topic := cache_at (cache_ h) topic]> (cache_ h)))
  end.

Definition Add (aCid : CID) (aHeight : Z) (topic : bytes) h w : outcome unit * t * World :=
  match CrdtSet.dataStore_ w with
  | None => (Err error_code_zero, h, w)
  | Some db =>
      match Write h RocksDb.batch aCid aHeight topic with
      | (Err e, _) => (Err e, h, w)
      | (Ok _, b) =>
          match RocksDb.batch_commit b db with
          | (Err e, db) => (Err e, h, CrdtSet.set_db w db)
          | (Ok _, db) =>
              (Ok tt,
               with_cache h (<[topic := <[aCid := aHeight]> (cache_at (cache_ h) topic)]> (cache_ h)),
               CrdtSet.set_db w db)
          end
      end
  end.

Definition Replace (aCidHead aNewHeadCid : CID) (aHeight : Z) (topic : bytes) h w
    : outcome unit * t * World :=
  match CrdtSet.dataStore_ w with
  | None => (Err error_code_zero, h, w)
  | Some db =>
      match Write h RocksDb.batch aNewHeadCid aHeight topic with
      | (Err e, _) => (Err e, h, w)
      | (Ok _, b) =>
          match Delete h b aCidHead topic with
          | (Err e, _) => (Err e, h, w)
          | (Ok _, b) =>
              match RocksDb.batch_commit b db with
              | (Err e, db) => (Err e, h, CrdtSet.set_db w db)
              | (Ok _, db) =>
                  (Ok tt,
                   with_cache h
                     (<[topic := <[aNewHeadCid := aHeight]>
                                   (delete aCidHead (cache_at (cache_ h) topic))]> (cache_ h)),
                   CrdtSet.set_db w db)
              end
          end
      end
  end.

(** The heads of the topics asked for, of all topics when none is, and their
    greatest height. *)
Definition topic_wanted (topics : gset bytes) (topic : bytes) : bool :=
  bool_decide (topics = ∅) || bool_decide (topic ∈ topics).

Definition GetList h (topics : gset bytes) : gmap bytes (gset CID) * Z :=
  foldr (fun (kv : bytes * gmap CID Z) (acc : gmap bytes (gset CID) * Z) =>
      if topic_wanted topics kv.1 then
        (if decide (kv.2 = ∅) then acc.1 else <[kv.1 := dom kv.2]> acc.1,
         foldr (fun cv m => Z.max m cv.2) acc.2 (map_to_list kv.2))
      else acc)
    (∅, 0%Z) (map_to_list (cache_ h)).

(** One entry of the store, as a topic, a head and its height; [None] for an
    entry the loop skips. *)
Definition prime_entry (strNamespace : bytes) (kv : bytes * bytes) : option (bytes * CID * Z) :=
  let full := kv.1 in
  if decide (length full <= length strNamespace + 1) then None else
  let rel := drop (length strNamespace + 1) full in
  match find_sub [slash] rel with
  | None => None
  | Some sepPos =>
      let topic := take sepPos rel in
      let strCid := drop (sepPos + 1) rel in
      if decide (topic = [] \/ strCid = []) then None else
      match cid_fromString strCid with
      | Err _ => None
      | Ok cid =>
          match lexical_cast_u64 kv.2 with
          | None => None
          | Some height => Some (topic, cid, height)
          end
      end
  end.

Definition prime_step (strNamespace : bytes) (c : Cache) (kv : bytes * bytes) : Cache :=
  match prime_entry strNamespace kv with
  | None => c
  | Some (topic, cid, height) => <[topic := <[cid := height]> (cache_at c topic)]> c
  end.

Definition PrimeCache h w : outcome unit * t :=
  match CrdtSet.dataStore_ w with
  | None => (Err undefined_behaviour, h)
  | Some db =>
      match RocksDb.query db (namespaceKey_ h) with
      | Err e => (Err e, h)
      | Ok res => (Ok tt, with_cache h (fold_left (prime_step (namespaceKey_ h)) res (cache_ h)))
      end
  end.

(** The constructor: an empty cache, filled from the store. *)
Definition new (aNamespace : bytes) w : t :=
  (PrimeCache {| namespaceKey_ := aNamespace; cache_ := ∅ |} w).2.
End ops.
End CrdtHeads.

(** ** Correctness of the heads *)

Import HKey.

Section lookup2.
Context `{!CIDLib}.
Implicit Types (c : gmap bytes (gmap CID Z)).

Definition lookup2 c (topic : bytes) (cid : CID) : option Z := CrdtHeads.cache_at c topic !! cid.

Lemma lookup2_empty topic cid : lookup2 ∅ topic cid = None.
Proof. done. Qed.

Lemma lookup2_insert c topic m topic' cid :
  lookup2 (<[topic := m]> c) topic' cid =
  if decide (topic = topic') then m !! cid else lookup2 c topic' cid.
Proof.
  unfold lookup2, CrdtHeads.cache_at. case_decide; subst.
  - by rewrite lookup_insert_eq.
  - by rewrite lookup_insert_ne.
Qed.

Lemma lookup2_Some c topic cid height :
  lookup2 c topic cid = Some height <-> exists m, c !! topic = Some m /\ m !! cid = Some height.
Proof.
  unfold lookup2, CrdtHeads.cache_at. destruct (c !! topic) as [m|]; simpl; [naive_solver|].
  rewrite lookup_empty. naive_solver.
Qed.
End lookup2.

Section props.
Context {DB : Type} `{!RocksDBLib DB, !RocksDBHealthy DB}.
Context {boost : BoostLib} {boostspec : BoostSpec}.
Context {cidlib : CIDLib} {cidspec : CIDSpec}.
Abbreviation World := (CrdtSet.World DB).
Implicit Types (h : CrdtHeads.t) (w : World) (topic s : bytes) (cid : CID).

Definition head_key (ns topic s : bytes) : bytes := ns ++ slash :: topic ++ slash :: s.

Record synced_store (ns : bytes) (m : gmap bytes bytes) (c : gmap bytes (gmap CID Z)) : Prop := {
  synced_ns : wf_key ns;
  synced_entry topic cid s : wf_name topic -> cid_toString cid = Ok s ->
    m !! head_key ns topic s = to_string <$> lookup2 c topic cid;
  synced_only key : is_Some (m !! key) -> ns `prefix_of` key ->
    exists topic cid s, wf_name topic /\ cid_toString cid = Ok s /\ key = head_key ns topic s;
  synced_cache topic cid height : lookup2 c topic cid = Some height ->
    is_u64 height /\ wf_name topic /\ exists s, cid_toString cid = Ok s
}.

Definition synced h w : Prop :=
  exists db, CrdtSet.dataStore_ w = Some db /\
    synced_store (CrdtHeads.namespaceKey_ h) (db_view db) (CrdtHeads.cache_ h).

Lemma GetKey_eq h topic cid s :
  wf_key (CrdtHeads.namespaceKey_ h) -> wf_name topic -> cid_toString cid = Ok s ->
  CrdtHeads.GetKey h topic cid = Ok (head_key (CrdtHeads.namespaceKey_ h) topic s).
Proof using All.
  intros Hns Ht Hs. unfold CrdtHeads.GetKey. rewrite Hs. f_equal.
  pose proof (cid_text _ _ Hs) as Hw. rewrite (ChildString_name _ topic) by done.
  rewrite ChildString_name by (done || by apply wf_key_app, wf_key_name).
  unfold head_key. by rewrite <-app_assoc.
Qed.

Lemma head_key_inj ns topic s topic' s' cid cid' :
  cid_toString cid = Ok s -> cid_toString cid' = Ok s' ->
  head_key ns topic s = head_key ns topic' s' -> topic = topic' /\ s = s' /\ cid = cid'.
Proof using All.
  intros Hs Hs' Heq. apply (inj (app ns)) in Heq. injection Heq as Heq.
  apply app_slash_inj in Heq as [-> ->];
    [|by eapply cid_text|by eapply cid_text].
  split; [done|]. split; [done|]. apply cid_round_trip in Hs, Hs'. congruence.
Qed.

Lemma head_key_prefix ns topic s : ns `prefix_of` head_key ns topic s.
Proof. by apply prefix_app_r. Qed.

Lemma synced_insert ns m c topic cid s height :
  synced_store ns m c -> wf_name topic -> cid_toString cid = Ok s -> is_u64 height ->
  synced_store ns (<[head_key ns topic s := to_string height]> m)
    (<[topic := <[cid := height]> (CrdtHeads.cache_at c topic)]> c).
Proof using All.
  intros Hsy Ht Hs Hu. split.
  - apply Hsy.
  - intros topic' cid' s' Ht' Hs'. rewrite lookup2_insert.
    destruct (decide (head_key ns topic s = head_key ns topic' s')) as [Heq|Hne].
    + rewrite Heq, lookup_insert_eq.
      apply (head_key_inj _ _ _ _ _ cid cid') in Heq as (-> & -> & ->); [|done..].
      by rewrite decide_True, lookup_insert_eq.
    + rewrite lookup_insert_ne, (synced_entry _ _ _ Hsy _ cid' s') by done.
      case_decide; subst; [|done]. destruct (decide (cid = cid')) as [->|].
      * destruct Hne. by replace s' with s by congruence.
      * by rewrite lookup_insert_ne.
  - intros key Hkey Hp. apply lookup_insert_is_Some in Hkey as [<-|[_ Hkey]]; [eauto 10|].
    by apply (synced_only _ _ _ Hsy).
  - intros topic' cid' height'. rewrite lookup2_insert. case_decide; subst.
    + intros [[<- <-]|[_ H]]%lookup_insert_Some; [eauto|].
      by apply (synced_cache _ _ _ Hsy topic' cid' height').
    + apply (synced_cache _ _ _ Hsy).
Qed.

Lemma synced_delete ns m c topic cid s :
  synced_store ns m c -> wf_name topic -> cid_toString cid = Ok s ->
  synced_store ns (delete (head_key ns topic s) m)
    (<[topic := delete cid (CrdtHeads.cache_at c topic)]> c).
Proof using All.
  intros Hsy Ht Hs. split.
  - apply Hsy.
  - intros topic' cid' s' Ht' Hs'. rewrite lookup2_insert.
    destruct (decide (head_key ns topic s = head_key ns topic' s')) as [Heq|Hne].
    + rewrite Heq, lookup_delete_eq.
      apply (head_key_inj _ _ _ _ _ cid cid') in Heq as (-> & -> & ->); [|done..].
      by rewrite decide_True, lookup_delete_eq.
    + rewrite lookup_delete_ne, (synced_entry _ _ _ Hsy _ cid' s') by done.
      case_decide; subst; [|done]. destruct (decide (cid = cid')) as [->|].
      * destruct Hne. by replace s' with s by congruence.
      * by rewrite lookup_delete_ne.
  - intros key Hkey Hp. apply (synced_only _ _ _ Hsy); [|done].
    destruct Hkey as [v Hkey]. apply lookup_delete_Some in Hkey as [_ ?]. by eexists.
  - intros topic' cid' height'. rewrite lookup2_insert. case_decide; subst.
    + intros [_ H]%lookup_delete_Some. by apply (synced_cache _ _ _ Hsy topic' cid' height').
    + apply (synced_cache _ _ _ Hsy).
Qed.

(** ** Rebuilding the cache *)

Lemma prime_entry_eq ns topic cid s height :
  wf_name topic -> cid_toString cid = Ok s -> is_u64 height ->
  CrdtHeads.prime_entry ns (head_key ns topic s, to_string height) = Some (topic, cid, height).
Proof using All.
  intros [Hne Hn] Hs Hu. pose proof (cid_text _ _ Hs) as [Hsne _].
  unfold CrdtHeads.prime_entry. simpl fst. simpl snd.
  assert (drop (length ns + 1) (head_key ns topic s) = topic ++ slash :: s) as Hd.
  { unfold head_key. rewrite drop_app_ge by lia.
    by replace (length ns + 1 - length ns) with 1 by lia. }
  rewrite decide_False.
  2:{ unfold head_key. rewrite length_app. simpl. rewrite length_app. simpl.
      destruct topic; [done|]. simpl. lia. }
  rewrite Hd, find_sub_char, take_app_length by done.
  rewrite drop_app_ge by lia. replace (length topic + 1 - length topic) with 1 by lia.
  simpl. rewrite ?drop_0, decide_False by naive_solver.
  by rewrite (cid_round_trip _ _ Hs), lexical_cast_to_string.
Qed.

(** Entries that agree with [F] build a cache below [F] that holds them all. *)
Lemma prime_fold ns F res c :
  (forall topic cid height, lookup2 c topic cid = Some height -> F topic cid = Some height) ->
  (forall kv topic cid height, kv ∈ res ->
     CrdtHeads.prime_entry ns kv = Some (topic, cid, height) -> F topic cid = Some height) ->
  let c' := fold_left (CrdtHeads.prime_step ns) res c in
  (forall topic cid height, lookup2 c' topic cid = Some height -> F topic cid = Some height) /\
  (forall topic cid height, lookup2 c topic cid = Some height -> lookup2 c' topic cid = Some height) /\
  (forall kv topic cid height, kv ∈ res ->
     CrdtHeads.prime_entry ns kv = Some (topic, cid, height) -> lookup2 c' topic cid = Some height).
Proof.
  revert c. induction res as [|kv res IH]; intros c Hc Hres; simpl.
  { split; [done|]. split; [done|]. by intros ???? ?%elem_of_nil. }
  assert (forall topic cid height,
    lookup2 (CrdtHeads.prime_step ns c kv) topic cid = Some height -> F topic cid = Some height) as Hc1.
  { unfold CrdtHeads.prime_step. intros topic cid height.
    destruct (CrdtHeads.prime_entry ns kv) as [[[t1 c1] h1]|] eqn:E; [|apply Hc].
    rewrite lookup2_insert. case_decide; subst; [|apply Hc].
    intros [[<- <-]|[_ H]]%lookup_insert_Some; [|by apply Hc].
    eapply Hres; [|exact E]. apply elem_of_cons. by left. }
  assert (forall topic cid height, lookup2 c topic cid = Some height \/
    CrdtHeads.prime_entry ns kv = Some (topic, cid, height) ->
    lookup2 (CrdtHeads.prime_step ns c kv) topic cid = Some height) as Hmono.
  { intros topic cid height Hor.
    assert (F topic cid = Some height) as HF.
    { destruct Hor as [?|?]; [by apply Hc|]. eapply Hres; [|done]. apply elem_of_cons. by left. }
    unfold CrdtHeads.prime_step.
    destruct (CrdtHeads.prime_entry ns kv) as [[[t1 c1] h1]|] eqn:E; [|by destruct Hor].
    assert (F t1 c1 = Some h1) as HF1 by (eapply Hres; [|exact E]; apply elem_of_cons; by left).
    rewrite lookup2_insert. case_decide; subst; [|destruct Hor; [done|congruence]].
    destruct (decide (c1 = cid)) as [->|]; [rewrite lookup_insert_eq; congruence|].
    rewrite lookup_insert_ne by done. destruct Hor; [done|congruence]. }
  destruct (IH _ Hc1) as (H1 & H2 & H3).
  { intros kv' topic cid height Hin. apply Hres. apply elem_of_cons. by right. }
  split; [done|]. split; [by auto|].
  intros kv' topic cid height [->|Hin]%elem_of_cons He; [apply H2, Hmono; by right|by eapply H3].
Qed.

Lemma new_restores h w :
  synced h w -> forall topic cid,
    lookup2 (CrdtHeads.cache_ (CrdtHeads.new (CrdtHeads.namespaceKey_ h) w)) topic cid =
    lookup2 (CrdtHeads.cache_ h) topic cid.
Proof using All.
  intros (db & Hdb & Hsy) topic cid. set (ns := CrdtHeads.namespaceKey_ h) in *.
  unfold CrdtHeads.new, CrdtHeads.PrimeCache. rewrite Hdb.
  cbn [CrdtHeads.namespaceKey_ CrdtHeads.cache_].
  destruct (RocksDb.query_spec db ns) as (res & Hq & Hres). rewrite Hq. simpl.
  assert (forall key v, (key, v) ∈ res -> exists topic cid height,
    CrdtHeads.prime_entry ns (key, v) = Some (topic, cid, height) /\
    lookup2 (CrdtHeads.cache_ h) topic cid = Some height) as Hall.
  { intros key v [Hm Hp]%Hres.
    destruct (synced_only _ _ _ Hsy key) as (t1 & c1 & s1 & Ht1 & Hs1 & ->); [done..|].
    rewrite (synced_entry _ _ _ Hsy _ c1) in Hm by done.
    destruct (lookup2 _ t1 c1) as [h1|] eqn:E; [|done]. injection Hm as <-.
    exists t1, c1, h1. split; [|done]. apply prime_entry_eq; [done..|].
    by eapply (synced_cache _ _ _ Hsy). }
  destruct (prime_fold ns (lookup2 (CrdtHeads.cache_ h)) res ∅) as (H1 & _ & H3).
  { done. }
  { intros [key v] t1 c1 h1 Hin He. destruct (Hall _ _ Hin) as (t2 & c2 & h2 & He2 & ?). congruence. }
  apply option_eq. intros height. split; [apply H1|]. intros Hl.
  destruct (synced_cache _ _ _ Hsy _ _ _ Hl) as (Hu & Ht & s & Hs).
  eapply (H3 (head_key ns topic s, to_string height)); [|by apply prime_entry_eq].
  apply Hres. rewrite (synced_entry _ _ _ Hsy _ cid), Hl by done. split; [done|].
  apply head_key_prefix.
Qed.

(** ** Changes of the heads *)

Inductive head_op : Type :=
  | HAdd (cid : CID) (height : Z) (topic : bytes)
  | HReplace (old new : CID) (height : Z) (topic : bytes).

Definition run_op (op : head_op) h w : outcome unit * CrdtHeads.t * World :=
  match op with
  | HAdd cid height topic => CrdtHeads.Add cid height topic h w
  | HReplace old new height topic => CrdtHeads.Replace old new height topic h w
  end.

Fixpoint run_ops (ops : list head_op) h w : outcome unit * CrdtHeads.t * World :=
  match ops with
  | [] => (Ok tt, h, w)
  | op :: ops =>
      match run_op op h w with
      | (Ok _, h, w) => run_ops ops h w
      | (Err e, h, w) => (Err e, h, w)
      end
  end.

Definition has_text (cid : CID) : Prop := exists s, cid_toString cid = Ok s.

Definition wf_op (op : head_op) : Prop :=
  match op with
  | HAdd cid height topic => wf_name topic /\ is_u64 height /\ has_text cid
  | HReplace old new height topic => wf_name topic /\ is_u64 height /\ has_text old /\ has_text new
  end.

(** The heads that are in the cache and not in the store.  [Replace] of a head by
    itself writes and then deletes the one entry of the store, and erases and then
    sets the one of the cache. *)
Definition lost_op (op : head_op) (l : gset (bytes * CID)) : gset (bytes * CID) :=
  match op with
  | HAdd cid _ topic => l ∖ {[(topic, cid)]}
  | HReplace old new _ topic =>
      if decide (old = new) then {[(topic, new)]} ∪ l else l ∖ {[(topic, new)]} ∖ {[(topic, old)]}
  end.

Definition lost (ops : list head_op) (l : gset (bytes * CID)) : gset (bytes * CID) :=
  fold_left (fun l op => lost_op op l) ops l.

(** The store holds the heads of the cache but for those of [l]. *)
Definition tracks (l : gset (bytes * CID)) h w : Prop := exists c, synced (CrdtHeads.with_cache h c) w /\
  forall topic cid, lookup2 c topic cid = (if decide ((topic, cid) ∈ l) then None else lookup2 (CrdtHeads.cache_ h) topic cid) /\
    ((topic, cid) ∈ l -> is_Some (lookup2 (CrdtHeads.cache_ h) topic cid)).

Lemma synced_tracks h w : synced h w <-> tracks ∅ h w.
Proof.
  split.
  - intros Hsy. exists (CrdtHeads.cache_ h). by destruct h.
  - intros (c & (db & Hdb & Hsy) & Hc). exists db. split; [done|]. cbn in Hsy.
    assert (He : forall topic cid, lookup2 c topic cid = lookup2 (CrdtHeads.cache_ h) topic cid) by (intros topic cid; apply Hc).
    split; [apply Hsy| |apply Hsy|].
    + intros topic cid s. rewrite <- He. apply Hsy.
    + intros topic cid height. rewrite <- He. apply Hsy.
Qed.

Ltac lost_solve := rewrite ?elem_of_union, ?elem_of_difference, ?elem_of_singleton; intuition congruence.

Lemma Add_tracks l h w cid height topic :
  tracks l h w -> wf_name topic -> is_u64 height -> has_text cid ->
  exists h' w', CrdtHeads.Add cid height topic h w = (Ok tt, h', w') /\
    tracks (lost_op (HAdd cid height topic) l) h' w' /\ CrdtHeads.namespaceKey_ h' = CrdtHeads.namespaceKey_ h.
Proof using All.
  intros (c & (db & Hdb & Hsy) & Hc) Ht Hu [s Hs]. cbn in Hsy. unfold CrdtHeads.Add, CrdtHeads.Write.
  rewrite Hdb, (GetKey_eq h topic cid s) by (done || apply Hsy).
  match goal with |- context [RocksDb.batch_commit ?b _] =>
    destruct (RocksDb.batch_commit_spec db b) as (db' & -> & Hdb') end.
  eexists _, _. split; [done|]. split; [|done]. exists (<[topic := <[cid := height]> (CrdtHeads.cache_at c topic)]> c). split.
  - exists db'. split; [done|]. rewrite Hdb'. by apply synced_insert.
  - intros topic' cid'. specialize (Hc topic' cid') as [Hc Hin]. cbn. rewrite !lookup2_insert.
    destruct (decide (topic = topic')) as [->|]; [destruct (decide (cid = cid')) as [->|]|].
    + rewrite !lookup_insert_eq. rewrite decide_False by lost_solve. done.
    + rewrite !lookup_insert_ne by done. fold (lookup2 c topic' cid') (lookup2 (CrdtHeads.cache_ h) topic' cid').
      rewrite Hc. split; [|lost_solve]. by apply decide_ext; lost_solve.
    + rewrite Hc. split; [|lost_solve]. by apply decide_ext; lost_solve.
Qed.

Lemma Replace_tracks l h w old new height topic :
  tracks l h w -> wf_name topic -> is_u64 height -> has_text old -> has_text new ->
  exists h' w', CrdtHeads.Replace old new height topic h w = (Ok tt, h', w') /\
    tracks (lost_op (HReplace old new height topic) l) h' w' /\ CrdtHeads.namespaceKey_ h' = CrdtHeads.namespaceKey_ h.
Proof using All.
  intros (c & (db & Hdb & Hsy) & Hc) Ht Hu [s Hs] [s' Hs']. cbn in Hsy.
  unfold CrdtHeads.Replace, CrdtHeads.Write, CrdtHeads.Delete.
  rewrite Hdb, (GetKey_eq h topic new s'), (GetKey_eq h topic old s) by (done || apply Hsy).
  match goal with |- context [RocksDb.batch_commit ?b _] =>
    destruct (RocksDb.batch_commit_spec db b) as (db' & -> & Hdb') end.
  eexists _, _. split; [done|]. split; [|done].
  apply (synced_insert _ _ _ topic new s' height) in Hsy; [|done..].
  apply (synced_delete _ _ _ topic old s) in Hsy; [|done..].
  eexists. split; [exists db'; split; [done|]; rewrite Hdb'; exact Hsy|].
  intros topic' cid'. specialize (Hc topic' cid') as [Hc Hin]. cbn. rewrite !lookup2_insert.
  destruct (decide (topic = topic')) as [->|Hne].
  2: { rewrite Hc. split; [apply decide_ext|]; destruct (decide (old = new)); lost_solve. }
  unfold CrdtHeads.cache_at at 1. rewrite lookup_insert_eq. cbn [default from_option id].
  destruct (decide (old = cid')) as [->|Ho]; [rewrite lookup_delete_eq|rewrite lookup_delete_ne by done];
    (destruct (decide (new = cid')) as [->|Hn]; [rewrite ?lookup_insert_eq|rewrite ?lookup_insert_ne by done]).
  - rewrite (decide_True (P := cid' = cid')) by done. rewrite decide_True by lost_solve. by split.
  - rewrite (decide_False (P := cid' = new)) by congruence. rewrite lookup_delete_eq, decide_False by lost_solve. split; [done|lost_solve].
  - rewrite (decide_False (P := old = cid')) by done. rewrite decide_False by lost_solve. split; [done|lost_solve].
  - rewrite lookup_delete_ne by done. fold (lookup2 c topic' cid') (lookup2 (CrdtHeads.cache_ h) topic' cid').
    rewrite Hc. split; [apply decide_ext|]; destruct (decide (old = new)); lost_solve.
Qed.

Lemma run_ops_tracks ops l h w :
  tracks l h w -> Forall wf_op ops ->
  exists h' w', run_ops ops h w = (Ok tt, h', w') /\ tracks (lost ops l) h' w' /\
    CrdtHeads.namespaceKey_ h' = CrdtHeads.namespaceKey_ h.
Proof using All.
  intros Htr Hops. revert l h w Htr. induction Hops as [|op ops Hop _ IH]; intros l h w Htr; simpl.
  { eauto. }
  assert (exists h1 w1, run_op op h w = (Ok tt, h1, w1) /\ tracks (lost_op op l) h1 w1 /\
    CrdtHeads.namespaceKey_ h1 = CrdtHeads.namespaceKey_ h) as (h1 & w1 & -> & Htr1 & Hns1).
  { destruct op; cbn [wf_op run_op] in *; [apply Add_tracks|apply Replace_tracks]; naive_solver. }
  destruct (IH _ _ _ Htr1) as (h' & w' & -> & ? & ?). exists h', w'. by rewrite <-Hns1.
Qed.

Lemma IsHead_lookup2 h cid topic :
  topic <> [] -> CrdtHeads.IsHead h cid topic =
  bool_decide (is_Some (lookup2 (CrdtHeads.cache_ h) topic cid)).
Proof.
  intros Ht. unfold CrdtHeads.IsHead. destruct topic as [|c topic]; [done|].
  unfold lookup2, CrdtHeads.cache_at. by destruct (CrdtHeads.cache_ h !! (c :: topic)).
Qed.

Lemma GetHeadHeight_lookup2 h cid topic :
  topic <> [] -> CrdtHeads.GetHeadHeight h cid topic =
  Ok (default 0%Z (lookup2 (CrdtHeads.cache_ h) topic cid)).
Proof.
  intros Ht. unfold CrdtHeads.GetHeadHeight. rewrite IsHead_lookup2 by done.
  destruct topic as [|c topic]; [done|]. unfold lookup2, CrdtHeads.cache_at.
  destruct (CrdtHeads.cache_ h !! (c :: topic)) as [m|]; [|done]. simpl.
  by destruct (m !! cid).
Qed.

(** C12. The heads survive a restart: whatever additions and replacements of
    heads are made, each succeeds, and a heads object built from the store
    afterwards has the same heads with the same heights in every topic, but for the
    heads that were last replaced by themselves: those are heads of the object and
    none of the one built from the store.  When there are none, cache and store
    are in step.  Topics are names without a slash, heights 64-bit numbers and
    identifiers such that have a text. *)
Theorem heads_survive_restart ops h w :
  synced h w -> Forall wf_op ops ->
  exists h' w', run_ops ops h w = (Ok tt, h', w') /\ (lost ops ∅ = ∅ -> synced h' w') /\
    forall topic cid, topic <> [] ->
      let restarted := CrdtHeads.new (CrdtHeads.namespaceKey_ h) w' in
      if decide ((topic, cid) ∈ lost ops ∅)
      then CrdtHeads.IsHead restarted cid topic = false /\ CrdtHeads.IsHead h' cid topic = true
      else CrdtHeads.IsHead restarted cid topic = CrdtHeads.IsHead h' cid topic /\
           CrdtHeads.GetHeadHeight restarted cid topic = CrdtHeads.GetHeadHeight h' cid topic.
Proof using All.
  intros Hsy%synced_tracks Hops. destruct (run_ops_tracks ops ∅ h w Hsy Hops) as (h' & w' & Hrun & Htr & Hns).
  exists h', w'. split; [done|]. split; [intros E; rewrite E in Htr; by apply synced_tracks|].
  intros topic cid Ht restarted. destruct Htr as (c & Hc & Hl). destruct (Hl topic cid) as [Hlook Hin].
  unfold restarted. rewrite <-Hns, !IsHead_lookup2, !GetHeadHeight_lookup2 by done.
  pose proof (new_restores _ _ Hc topic cid) as Hnew. cbn in Hnew. rewrite Hnew, Hlook.
  case_decide as Hlost; [|done]. split; [done|]. by apply bool_decide_eq_true_2, Hin.
Qed.

End props.

(** ** The list of heads *)

Section listing.
Context {cidlib : CIDLib}.
Implicit Types (h : CrdtHeads.t) (topic : bytes) (cid : CID).

Definition list_step (topics : gset bytes) (kv : bytes * gmap CID Z)
    (acc : gmap bytes (gset CID) * Z) : gmap bytes (gset CID) * Z :=
  if CrdtHeads.topic_wanted topics kv.1 then
    (if decide (kv.2 = ∅) then acc.1 else <[kv.1 := dom kv.2]> acc.1,
     foldr (fun cv m => Z.max m cv.2) acc.2 (map_to_list kv.2))
  else acc.

Lemma max_fold (l : list (CID * Z)) z :
  (z <= foldr (fun cv m => Z.max m cv.2) z l)%Z /\
  (forall cv, cv ∈ l -> (cv.2 <= foldr (fun cv m => Z.max m cv.2) z l)%Z) /\
  (foldr (fun cv m => Z.max m cv.2) z l = z \/
   exists cv, cv ∈ l /\ foldr (fun cv m => Z.max m cv.2) z l = cv.2).
Proof.
  induction l as [|cv l (IH1 & IH2 & IH3)]; simpl.
  { split; [lia|]. split; [by intros ? ?%elem_of_nil|by left]. }
  split; [lia|]. split.
  - intros cv' [->|Hin]%elem_of_cons; [lia|]. specialize (IH2 _ Hin). lia.
  - setoid_rewrite elem_of_cons.
    destruct (Z.max_spec (foldr (fun cv m => Z.max m cv.2) z l) cv.2) as [[_ ->]|[_ ->]]; [eauto|].
    destruct IH3 as [->|(cv' & ? & ?)]; eauto 10.
Qed.

Lemma list_fold topics l :
  NoDup l.*1 ->
  let r := foldr (list_step topics) (∅, 0%Z) l in
  (forall topic S, r.1 !! topic = Some S <->
     exists m, (topic, m) ∈ l /\ CrdtHeads.topic_wanted topics topic = true /\ m <> ∅ /\ S = dom m) /\
  (0 <= r.2)%Z /\
  (forall topic m cid height, (topic, m) ∈ l -> CrdtHeads.topic_wanted topics topic = true ->
     m !! cid = Some height -> (height <= r.2)%Z) /\
  (r.2 = 0%Z \/ exists topic m cid, (topic, m) ∈ l /\
     CrdtHeads.topic_wanted topics topic = true /\ m !! cid = Some r.2).
Proof.
  induction l as [|[t m] l IH]; intros Hnd.
  { simpl. split; [|split; [lia|split; [|by left]]]; intros; rewrite ?lookup_empty; set_solver. }
  rewrite fmap_cons in Hnd. apply NoDup_cons in Hnd as [Hnt Hnd].
  destruct (IH Hnd) as (H1 & H2 & H3 & H4). clear IH. simpl.
  set (r := foldr (list_step topics) (∅, 0%Z) l) in *. unfold list_step at 1 2 3 4 5. simpl.
  assert (forall m', (t, m') ∉ l) as Hnot.
  { intros m' Hin. apply Hnt. by apply (list_elem_of_fmap_2 fst) in Hin. }
  destruct (CrdtHeads.topic_wanted topics t) eqn:Ew; simpl; setoid_rewrite elem_of_cons.
  - destruct (max_fold (map_to_list m) r.2) as (M1 & M2 & M3).
    split; [|split; [lia|split]].
    + intros topic S. case_decide as Hm; [rewrite H1; naive_solver|].
      rewrite lookup_insert_Some, H1. split.
      * intros [[-> <-]|[Hne (m' & ? & ?)]]; [exists m; naive_solver|exists m'; naive_solver].
      * intros (m' & [[= -> ->]|Hin] & ? & ? & ->); [by left|right].
        split; [|eauto]. intros ->. by apply (Hnot m').
    + intros topic m' cid height [[= -> ->]|Hin] Hw Hl.
      * apply (M2 (cid, height)). by apply elem_of_map_to_list.
      * specialize (H3 _ _ _ _ Hin Hw Hl). lia.
    + destruct M3 as [->|([cid z] & Hin & ->)].
      * destruct H4 as [?|(topic & m' & cid & ? & ? & ?)]; [by left|right; eauto 10].
      * apply elem_of_map_to_list in Hin. right. exists t, m, cid. eauto.
  - split; [|split; [done|split]].
    + intros topic S. rewrite H1. split; [naive_solver|].
      intros (m' & [[= -> ->]|Hin] & ? & ? & ->); [congruence|eauto].
    + intros topic m' cid height [[= -> ->]|Hin]; [congruence|by apply H3].
    + destruct H4 as [?|(topic & m' & cid & ? & ? & ?)]; [by left|right; eauto 10].
Qed.

(** [GetList] returns exactly the heads of the topics asked for, of all
    topics when none is named, and a height that is the greatest of theirs, 0
    when there are none. *)
Theorem GetList_heads h topics :
  let '(heads, height) := CrdtHeads.GetList h topics in
  (forall topic cid, (exists S, heads !! topic = Some S /\ cid ∈ S) <->
     CrdtHeads.topic_wanted topics topic = true /\
     is_Some (lookup2 (CrdtHeads.cache_ h) topic cid)) /\
  (forall topic cid z, CrdtHeads.topic_wanted topics topic = true ->
     lookup2 (CrdtHeads.cache_ h) topic cid = Some z -> (z <= height)%Z) /\
  (height = 0%Z \/ exists topic cid, CrdtHeads.topic_wanted topics topic = true /\
     lookup2 (CrdtHeads.cache_ h) topic cid = Some height).
Proof.
  destruct (list_fold topics (map_to_list (CrdtHeads.cache_ h))) as (H1 & _ & H3 & H4).
  { apply NoDup_fst_map_to_list. }
  change (CrdtHeads.GetList h topics) with
    (foldr (list_step topics) (∅, 0%Z) (map_to_list (CrdtHeads.cache_ h))).
  destruct (foldr _ _ _) as [heads height]. simpl in *.
  setoid_rewrite elem_of_map_to_list in H1. setoid_rewrite elem_of_map_to_list in H3.
  setoid_rewrite elem_of_map_to_list in H4. split; [|split].
  - intros topic cid. split.
    + intros (S & (m & Hm & Hw & _ & ->)%H1 & [z Hz]%elem_of_dom). split; [done|].
      exists z. apply lookup2_Some. eauto.
    + intros [Hw [z (m & Hm & Hz)%lookup2_Some]]. exists (dom m).
      split; [|by apply elem_of_dom]. apply H1. exists m. split; [done|]. split; [done|].
      split; [|done]. intros ->. by rewrite lookup_empty in Hz.
  - intros topic cid z Hw (m & Hm & Hz)%lookup2_Some. eauto.
  - destruct H4 as [?|(topic & m & cid & ? & ? & ?)]; [by left|right].
    exists topic, cid. split; [done|]. apply lookup2_Some. eauto.
Qed.
End listing.

(** ** A concrete library of identifiers *)

Module DemoCid.
(** Identifiers that are their own text. *)
#[export] Instance text_cid : CIDLib := {|
  CID := bytes;
  cid_toString c := if decide (wf_name c) then Ok c else Err error_code_zero;
  cid_fromString s := if decide (wf_name s) then Ok s else Err error_code_zero
|}.

#[export] Instance text_cid_spec : CIDSpec.
Proof. split; intros c s; simpl; repeat case_decide; naive_solver. Qed.

Definition world : CrdtSet.World (gmap bytes bytes) :=
  {| CrdtSet.dataStore_ := Some ∅; CrdtSet.hook_events := [] |}.
Definition heads : CrdtHeads.t := {| CrdtHeads.namespaceKey_ := str "/g/h"; CrdtHeads.cache_ := ∅ |}.
Definition ops : list head_op :=
  [HAdd (str "Q1" : CID) 1 (str "topic"); HReplace (str "Q1" : CID) (str "Q2") 2 (str "topic");
   HAdd (str "Q3" : CID) 4 (str "topic"); HReplace (str "Q2" : CID) (str "Q2") 3 (str "topic")].
End DemoCid.
#[local] Existing Instance DemoCid.text_cid.
#[local] Existing Instance DemoCid.text_cid_spec.

Lemma demo_synced : synced DemoCid.heads DemoCid.world.
Proof.
  exists ∅. split; [done|]. split.
  - by apply (bool_decide_unpack _).
  - intros. reflexivity.
  - intros key [v Hv]. discriminate Hv.
  - intros topic cid height [=].
Qed.

Lemma heads_survive_restart_witness : exists h' w',
  run_ops DemoCid.ops DemoCid.heads DemoCid.world = (Ok tt, h', w') /\
  let restarted := CrdtHeads.new (CrdtHeads.namespaceKey_ DemoCid.heads) w' in
  CrdtHeads.GetHeadHeight restarted (str "Q3") (str "topic") = CrdtHeads.GetHeadHeight h' (str "Q3") (str "topic") /\
  CrdtHeads.IsHead restarted (str "Q2") (str "topic") = false /\ CrdtHeads.IsHead h' (str "Q2") (str "topic") = true.
Proof.
  assert (forall c : bytes, bool_decide (wf_name c) = true -> has_text (c : CID)) as Ht.
  { intros c Hc%bool_decide_eq_true. exists c. simpl. by rewrite decide_True. }
  assert (Forall wf_op DemoCid.ops) as Hops.
  { repeat constructor; first [by apply Ht|done|by apply (bool_decide_unpack _)|idtac]. }
  destruct (heads_survive_restart DemoCid.ops DemoCid.heads DemoCid.world demo_synced Hops) as (h' & w' & Hrun & _ & Hh).
  exists h', w'. split; [exact Hrun|]. cbn zeta. pose proof (Hh (str "topic") (str "Q3") ltac:(done)) as H3.
  pose proof (Hh (str "topic") (str "Q2") ltac:(done)) as H2. cbn zeta in H2, H3.
  rewrite decide_False in H3 by (apply (bool_decide_unpack _); vm_compute; exact I).
  rewrite decide_True in H2 by (apply (bool_decide_unpack _); vm_compute; exact I).
  split; [exact (proj2 H3)|exact H2].
Defined.
