(* ===== verification/LruCache.v ===== *)
(** * The block cache of the DAG syncer ([LRUCIDCache] of [crdt/graphsync_dagsyncer.hpp])

    A bounded map from content identifiers to blocks, a null block standing for
    one that was asked for but has not arrived, with a list of the identifiers
    in order of use.  The theorem shows that the pair of map and list
    implements one list of entries, most recently used first, cut off at the
    capacity. *)

From S2P Require Import Prelude Store HierarchicalKey CrdtSet CrdtRefine CrdtHeads.

Module LRUCIDCache.
Section cache.
Context {CID : Type} `{Countable CID} {Node : Type}.

Definition MAX_CACHE_SIZE : nat := 250.

(** The list iterator stored with a map entry points to the one occurrence of
    its identifier in the list, so that it is not part of the state: erasing at
    the iterator is [list_erase]. *)
Record t := { cache_map_ : gmap CID (option Node); lru_list_ : list CID }.

Definition new : t := {| cache_map_ := ∅; lru_list_ := [] |}.

Definition list_erase (cid : CID) (l : list CID) : list CID := filter (fun x => x <> cid) l.

Definition list_pop_back (l : list CID) : list CID := removelast l.

(** The least recently used entry is removed when the cache is full. *)
Definition evict (c : t) : t :=
  if decide (MAX_CACHE_SIZE <= size (cache_map_ c)) then
    match last (lru_list_ c) with
    | Some lru_cid => {| cache_map_ := delete lru_cid (cache_map_ c);
                         lru_list_ := list_pop_back (lru_list_ c) |}
    | None => c
    end
  else c.

Definition init (cid : CID) (c : t) : t :=
  match cache_map_ c !! cid with
  | Some _ => {| cache_map_ := cache_map_ c; lru_list_ := cid :: list_erase cid (lru_list_ c) |}
  | None =>
      let c := evict c in
      {| cache_map_ := <[cid := None]> (cache_map_ c); lru_list_ := cid :: lru_list_ c |}
  end.

Definition add (cid : CID) (node : option Node) (c : t) : bool * t :=
  match cache_map_ c !! cid with
  | Some _ =>
      (false, {| cache_map_ := <[cid := node]> (cache_map_ c);
                 lru_list_ := cid :: list_erase cid (lru_list_ c) |})
  | None =>
      let c := evict c in
      (true, {| cache_map_ := <[cid := node]> (cache_map_ c); lru_list_ := cid :: lru_list_ c |})
  end.

Definition get (cid : CID) (c : t) : option Node * t :=
  match cache_map_ c !! cid with
  | None => (None, c)
  | Some node =>
      (node, {| cache_map_ := cache_map_ c; lru_list_ := cid :: list_erase cid (lru_list_ c) |})
  end.

Definition remove (cid : CID) (c : t) : bool * t :=
  match cache_map_ c !! cid with
  | None => (false, c)
  | Some _ => (true, {| cache_map_ := delete cid (cache_map_ c);
                        lru_list_ := list_erase cid (lru_list_ c) |})
  end.

Definition contains (cid : CID) (c : t) : bool := bool_decide (is_Some (cache_map_ c !! cid)).

Definition hasContent (cid : CID) (c : t) : bool :=
  match cache_map_ c !! cid with Some (Some _) => true | _ => false end.

Definition csize (c : t) : nat := size (cache_map_ c).

(** ** The invariant and the list the cache stands for *)

Record wf (c : t) : Prop := {
  wf_nodup : NoDup (lru_list_ c);
  wf_dom cid : cid ∈ lru_list_ c <-> is_Some (cache_map_ c !! cid);
  wf_bound : length (lru_list_ c) <= MAX_CACHE_SIZE
}.

Definition entries (c : t) : list (CID * option Node) :=
  (fun cid => (cid, default None (cache_map_ c !! cid))) <$> lru_list_ c.

(** The specification: entries in order of use. *)
Definition without (cid : CID) (l : list (CID * option Node)) : list (CID * option Node) :=
  filter (fun e => e.1 <> cid) l.
Definition use (cid : CID) (node : option Node) (l : list (CID * option Node))
    : list (CID * option Node) := take MAX_CACHE_SIZE ((cid, node) :: without cid l).
Definition content (cid : CID) (l : list (CID * option Node)) : option Node :=
  match list_find (fun e => e.1 = cid) l with Some (_, e) => e.2 | None => None end.

Implicit Types (c : t) (cid : CID).

Lemma wf_size c : wf c -> size (cache_map_ c) = length (lru_list_ c).
Proof.
  intros Hc. rewrite <-size_dom. replace (dom (cache_map_ c)) with
    (list_to_set (lru_list_ c) : gset CID).
  - apply size_list_to_set. by apply wf_nodup.
  - apply set_eq. intros cid. rewrite elem_of_list_to_set, elem_of_dom. by apply wf_dom.
Qed.

Lemma elem_of_list_erase cid x l : x ∈ list_erase cid l <-> x <> cid /\ x ∈ l.
Proof. unfold list_erase. by rewrite list_elem_of_filter. Qed.

Lemma entries_ext (m m' : gmap CID (option Node)) (l : list CID) :
  (forall cid, cid ∈ l -> m !! cid = m' !! cid) ->
  (fun cid => (cid, default None (m !! cid))) <$> l =
  (fun cid => (cid, default None (m' !! cid) : option Node)) <$> l.
Proof. intros Hm. apply list_fmap_ext. intros i cid Hi. rewrite Hm; [done|]. by eapply list_elem_of_lookup_2. Qed.

Lemma without_entries cid (m : gmap CID (option Node)) l :
  without cid ((fun x => (x, default None (m !! x) : option Node)) <$> l) =
  (fun x => (x, default None (m !! x))) <$> list_erase cid l.
Proof.
  induction l as [|x l IH]; [done|]. unfold without, list_erase in *.
  rewrite fmap_cons, !filter_cons. simpl. rewrite IH. by case_decide.
Qed.

Lemma list_erase_notin cid l : cid ∉ l -> list_erase cid l = l.
Proof.
  induction l as [|x l IH]; intros Hn; [done|]. unfold list_erase in *.
  rewrite filter_cons_True by set_solver. by rewrite IH by set_solver.
Qed.

Lemma length_list_erase cid l :
  NoDup l -> cid ∈ l -> S (length (list_erase cid l)) = length l.
Proof.
  induction l as [|x l IH]; [by intros _ ?%elem_of_nil|].
  rewrite NoDup_cons, elem_of_cons. intros [Hx Hnd] [->|Hin]; unfold list_erase in *.
  - rewrite filter_cons_False by naive_solver. fold (list_erase x l). by rewrite (list_erase_notin x l Hx).
  - rewrite filter_cons_True by (intros ->; done). simpl. by rewrite IH.
Qed.

Lemma removelast_last {A} (l : list A) x : last l = Some x -> l = removelast l ++ [x].
Proof.
  intros Hl. apply last_Some in Hl as [l' ->]. by rewrite removelast_last.
Qed.

(** Moving an entry to the front, with a new content. *)
Lemma touch_spec cid node c :
  wf c -> is_Some (cache_map_ c !! cid) ->
  let c' := {| cache_map_ := <[cid := node]> (cache_map_ c);
               lru_list_ := cid :: list_erase cid (lru_list_ c) |} in
  wf c' /\ entries c' = use cid node (entries c).
Proof.
  intros [Hnd Hdom Hb] Hin c'. apply Hdom in Hin.
  pose proof (length_list_erase _ _ Hnd Hin) as Hlen. split.
  - split; simpl.
    + apply NoDup_cons. split; [rewrite elem_of_list_erase; naive_solver|by apply NoDup_filter].
    + intros x. rewrite elem_of_cons, elem_of_list_erase, lookup_insert_is_Some, Hdom.
      destruct (decide (x = cid)); naive_solver.
    + lia.
  - unfold entries, use. simpl. rewrite without_entries, lookup_insert_eq. simpl.
    rewrite take_ge by (rewrite length_fmap; unfold MAX_CACHE_SIZE in *; lia). f_equal. apply entries_ext.
    intros x [Hx _]%elem_of_list_erase. by rewrite lookup_insert_ne.
Qed.

Lemma evict_spec c :
  wf c -> wf (evict c) /\ entries (evict c) = take (MAX_CACHE_SIZE - 1) (entries c) /\
  (forall cid, cid ∉ lru_list_ c -> cid ∉ lru_list_ (evict c)) /\
  length (lru_list_ (evict c)) <= MAX_CACHE_SIZE - 1.
Proof.
  intros Hc. pose proof (wf_size c Hc) as Hs. destruct Hc as [Hnd Hdom Hb].
  unfold evict. rewrite Hs. unfold entries. case_decide as Hfull.
  - destruct (last (lru_list_ c)) as [x|] eqn:El.
    2:{ apply last_None in El. rewrite El in Hfull. unfold MAX_CACHE_SIZE in Hfull. simpl in Hfull. lia. }
    pose proof (removelast_last _ _ El) as Heq. unfold list_pop_back. simpl.
    set (l := removelast (lru_list_ c)) in *. rewrite Heq in Hnd, Hdom, Hfull, Hb |- *.
    rewrite length_app in Hfull, Hb. simpl in Hfull, Hb.
    apply NoDup_app in Hnd as (Hnd & Hx & _).
    assert (x ∉ l) as Hxl by (intros ?; by apply (Hx x); [|apply list_elem_of_singleton]).
    split; [split; simpl; [done| |unfold MAX_CACHE_SIZE in *; lia]|split; [|split]].
    + intros cid. rewrite lookup_delete_is_Some, <-Hdom, elem_of_app, list_elem_of_singleton.
      split; [intros Hin; split; [by intros ->|by left]|naive_solver].
    + rewrite fmap_app, take_app_le by (rewrite length_fmap; unfold MAX_CACHE_SIZE in *; lia).
      rewrite take_ge by (rewrite length_fmap; unfold MAX_CACHE_SIZE in *; lia). apply entries_ext.
      intros y Hy. rewrite lookup_delete_ne; [done|]. by intros ->.
    + intros cid. set_solver.
    + unfold MAX_CACHE_SIZE in *. lia.
  - split; [by split|]. split; [|split; [done|unfold MAX_CACHE_SIZE in *; lia]].
    by rewrite take_ge by (rewrite length_fmap; unfold MAX_CACHE_SIZE in *; lia).
Qed.

(** A new entry at the front. *)
Lemma insert_spec cid node c :
  wf c -> cache_map_ c !! cid = None ->
  let c' := {| cache_map_ := <[cid := node]> (cache_map_ (evict c));
               lru_list_ := cid :: lru_list_ (evict c) |} in
  wf c' /\ entries c' = use cid node (entries c).
Proof.
  intros Hc Hn c'. assert (cid ∉ lru_list_ c) as Hnl.
  { rewrite (wf_dom _ Hc), Hn. by intros [? ?]. }
  destruct (evict_spec c Hc) as ([Hnd Hdom _] & He & Hsub & Hlen). specialize (Hsub _ Hnl). split.
  - split; simpl.
    + by apply NoDup_cons.
    + intros x. rewrite elem_of_cons, lookup_insert_is_Some, Hdom.
      destruct (decide (x = cid)); naive_solver.
    + unfold MAX_CACHE_SIZE in *. lia.
  - unfold use. unfold entries at 2. rewrite without_entries, list_erase_notin by done.
    change (take MAX_CACHE_SIZE (?x :: ?l)) with (x :: take (MAX_CACHE_SIZE - 1) l).
    fold (entries c). rewrite <-He. unfold entries. simpl. rewrite lookup_insert_eq. simpl. f_equal.
    apply entries_ext. intros x Hx. rewrite lookup_insert_ne; [done|]. by intros ->.
Qed.

Lemma content_entries cid c : wf c -> content cid (entries c) = default None (cache_map_ c !! cid).
Proof.
  intros Hc. unfold content, entries. pose proof (wf_dom _ Hc cid) as Hd.
  destruct (list_find _ _) as [[i e]|] eqn:E.
  - apply list_find_Some in E as (Hi & He & _). apply list_lookup_fmap_Some in Hi as (x & -> & Hx).
    simpl in *. by subst.
  - apply list_find_None in E. rewrite Forall_fmap, Forall_forall in E.
    destruct (cache_map_ c !! cid) eqn:El; [|done]. exfalso.
    apply (E cid); [|done]. apply Hd. by eexists.
Qed.

(** The block cache is a list of entries in order of use, cut off at 250:
    [init], [add] and [get] move their entry to the front, [init] keeping its
    block and [add] setting it, an entry beyond the capacity is the least
    recently used one and is dropped, and [remove] takes an entry out. *)
Theorem cache_refines_recency_list c cid node :
  wf c ->
  (wf (init cid c) /\ entries (init cid c) = use cid (content cid (entries c)) (entries c)) /\
  (wf (add cid node c).2 /\ entries (add cid node c).2 = use cid node (entries c) /\
     (add cid node c).1 = negb (contains cid c)) /\
  (wf (get cid c).2 /\ (get cid c).1 = content cid (entries c) /\
     entries (get cid c).2 = if contains cid c then use cid (content cid (entries c)) (entries c)
                             else entries c) /\
  (wf (remove cid c).2 /\ entries (remove cid c).2 = without cid (entries c) /\
     (remove cid c).1 = contains cid c).
Proof.
  intros Hc. rewrite content_entries by done. unfold init, add, get, remove, contains.
  destruct (cache_map_ c !! cid) as [old|] eqn:E; simpl.
  - pose proof (touch_spec cid old c Hc ltac:(by eexists)) as [Hw He].
    rewrite (insert_id _ _ _ E) in Hw, He.
    pose proof (touch_spec cid node c Hc ltac:(by eexists)) as [Hw' He'].
    split; [done|]. split; [done|]. split; [done|]. split; [|split; [|done]].
    + destruct Hc as [Hnd Hdom Hb]. split; simpl.
      * by apply NoDup_filter.
      * intros x. rewrite elem_of_list_erase, lookup_delete_is_Some, Hdom. naive_solver.
      * unfold list_erase. rewrite length_filter. done.
    + unfold entries. simpl. rewrite without_entries. apply entries_ext.
      intros x [Hx _]%elem_of_list_erase. by rewrite lookup_delete_ne.
  - destruct (insert_spec cid None c Hc E) as [Hw He].
    destruct (insert_spec cid node c Hc E) as [Hw' He'].
    split; [done|]. split; [done|]. split; [done|]. split; [done|]. split; [|done].
    unfold entries. rewrite without_entries, list_erase_notin; [done|].
    rewrite (wf_dom _ Hc), E. by intros [? ?].
Qed.

Lemma new_wf : wf new.
Proof. split; simpl; [constructor| |lia]. intros cid. rewrite lookup_empty. set_solver. Qed.
End cache.
End LRUCIDCache.

Lemma cache_refines_recency_list_witness :
  let c := (LRUCIDCache.add (Node := nat) 1%positive (Some 7) LRUCIDCache.new).2 in
  LRUCIDCache.entries (LRUCIDCache.init 2%positive c) = [(2%positive, None); (1%positive, Some 7)].
Proof.
  cbv zeta.
  pose proof (proj1 (proj2 (LRUCIDCache.cache_refines_recency_list LRUCIDCache.new 1%positive
    (Some 7) LRUCIDCache.new_wf))) as [Hw _].
  destruct (LRUCIDCache.cache_refines_recency_list _ 2%positive None Hw) as [[_ ->] _].
  reflexivity.
Defined.
