(* ===== verification/DagSyncer.v ===== *)
(** * The DAG syncer ([crdt/dagsyncer.hpp], [crdt/impl/graphsync_dagsyncer.cpp])

    The blocks of the Merkle-DAG a node has, the peers it may ask for others,
    and the peers it does not ask for a while.  The Merkle-DAG service, the
    block format and the transport are libraries: [IPLDLib], [MerkleDag] and
    [PeerLib]. *)

From S2P Require Import Prelude Store HierarchicalKey CrdtSet CrdtRefine CrdtHeads LruCache.

(** Blocks: an identifier, named links, the topics they are meant for and a
    payload. *)
Class IPLDLib `{CIDLib} := {
  Node : Type;
  node_getCID : Node -> CID;
  node_getLinks : Node -> list (CID * bytes);
  node_getDestinations : Node -> gset bytes;
  node_content : Node -> bytes;
  node_createFromRawBytes : bytes -> outcome Node;
  node_createFromString : bytes -> option Node;
  node_addDestination : Node -> bytes -> Node;
  node_addLink : Node -> CID -> bytes -> Z -> Node;
  cid_toBytes : CID -> outcome bytes
}.

(** A block as built has no links and no topics; adding one changes nothing
    else.  Its identifier follows from all of it. *)
Class IPLDSpec `{IPLDLib} := {
  create_links b n : node_createFromString b = Some n -> node_getLinks n = [];
  create_destinations b n : node_createFromString b = Some n -> node_getDestinations n = ∅;
  create_content b n : node_createFromString b = Some n -> node_content n = b;
  addDestination_links n d : node_getLinks (node_addDestination n d) = node_getLinks n;
  addDestination_destinations n d :
    node_getDestinations (node_addDestination n d) = {[d]} ∪ node_getDestinations n;
  addDestination_content n d : node_content (node_addDestination n d) = node_content n;
  addLink_links n c name size : node_getLinks (node_addLink n c name size) = node_getLinks n ++ [(c, name)];
  addLink_destinations n c name size :
    node_getDestinations (node_addLink n c name size) = node_getDestinations n;
  addLink_content n c name size : node_content (node_addLink n c name size) = node_content n
}.

(** ** The interface of [crdt/dagsyncer.hpp]

    Its operations on the state of an implementation. *)
Class DAGSyncer (S : Type) `{IPLDLib} := {
  sync_HasBlock : CID -> S -> outcome bool * S;
  sync_IsCIDInCache : CID -> S -> bool;
  sync_InitCIDBlock : CID -> S -> S;
  sync_DeleteCIDBlock : CID -> S -> outcome unit * S;
  sync_addNode : Node -> S -> outcome unit * S;
  sync_getNode : CID -> S -> outcome Node * S;
  sync_TraverseCIDsLinks : nat -> bytes -> bool -> Node -> gset (CID * bytes) -> S ->
    gset (CID * bytes) * gset (CID * bytes) * S
}.

Class MerkleDag (Dag : Type) `{IPLDLib} := {
  dag_getNode : Dag -> CID -> outcome Node;
  dag_addNode : Dag -> Node -> outcome unit * Dag;
  dag_removeNode : Dag -> CID -> outcome unit * Dag
}.

Class PeerLib := {
  PeerId : Type;
  #[global] PeerId_eq_dec :: EqDecision PeerId;
  #[global] PeerId_countable :: Countable PeerId;
  Multihash : Type;
  #[global] Multihash_eq_dec :: EqDecision Multihash;
  #[global] Multihash_countable :: Countable Multihash;
  peer_toMultihash : PeerId -> Multihash;
  Multiaddress : Type
}.

(** The state of a request, as the transport reports it. *)
Inductive RequestState : Type := COMPLETED | FAILED | IN_PROGRESS.

Record BlacklistEntry := {
  timestamp : Z; failures : Z; ever_connected : bool; backoff_attempts : Z
}.

Module GraphsyncDAGSyncer.
Section syncer.
Context `{!CIDLib, !IPLDLib} {Dag : Type} `{!MerkleDag Dag} `{!PeerLib}.

Abbreviation PeerEntry := (PeerId * list Multiaddress)%type.
Abbreviation LinkInfoSet := (gset (CID * bytes)).

Record t := {
  dagService_ : Dag;
  lru_cid_cache_ : LRUCIDCache.t (CID := CID) (Node := Node);
  peer_registry_ : list PeerEntry;
  peer_index_ : gmap PeerId nat;
  routing_ : gmap CID nat;
  blacklist_ : gmap Multihash BlacklistEntry;
  started_ : bool;
  has_graphsync : bool;
  is_stopped_ : bool
}.
Implicit Types (s : t) (cid : CID) (peer : PeerId).

Definition with_dag s d : t :=
  {| dagService_ := d; lru_cid_cache_ := lru_cid_cache_ s; peer_registry_ := peer_registry_ s;
     peer_index_ := peer_index_ s; routing_ := routing_ s; blacklist_ := blacklist_ s;
     started_ := started_ s; has_graphsync := has_graphsync s; is_stopped_ := is_stopped_ s |}.
Definition with_cache s c : t :=
  {| dagService_ := dagService_ s; lru_cid_cache_ := c; peer_registry_ := peer_registry_ s;
     peer_index_ := peer_index_ s; routing_ := routing_ s; blacklist_ := blacklist_ s;
     started_ := started_ s; has_graphsync := has_graphsync s; is_stopped_ := is_stopped_ s |}.
Definition with_registry s reg idx : t :=
  {| dagService_ := dagService_ s; lru_cid_cache_ := lru_cid_cache_ s; peer_registry_ := reg;
     peer_index_ := idx; routing_ := routing_ s; blacklist_ := blacklist_ s;
     started_ := started_ s; has_graphsync := has_graphsync s; is_stopped_ := is_stopped_ s |}.
Definition with_routing s r : t :=
  {| dagService_ := dagService_ s; lru_cid_cache_ := lru_cid_cache_ s;
     peer_registry_ := peer_registry_ s; peer_index_ := peer_index_ s; routing_ := r;
     blacklist_ := blacklist_ s; started_ := started_ s; has_graphsync := has_graphsync s;
     is_stopped_ := is_stopped_ s |}.
Definition with_blacklist s b : t :=
  {| dagService_ := dagService_ s; lru_cid_cache_ := lru_cid_cache_ s;
     peer_registry_ := peer_registry_ s; peer_index_ := peer_index_ s; routing_ := routing_ s;
     blacklist_ := b; started_ := started_ s; has_graphsync := has_graphsync s;
     is_stopped_ := is_stopped_ s |}.

Definition Stop s : t :=
  {| dagService_ := dagService_ s; lru_cid_cache_ := lru_cid_cache_ s;
     peer_registry_ := peer_registry_ s; peer_index_ := peer_index_ s; routing_ := routing_ s;
     blacklist_ := blacklist_ s; started_ := started_ s; has_graphsync := has_graphsync s;
     is_stopped_ := true |}.

(** ** Peers and routes *)

Definition RegisterPeer peer (address : list Multiaddress) s : nat * t :=
  match peer_index_ s !! peer with
  | Some key =>
      (key, with_registry s
              (alter (fun e => (e.1, address)) key (peer_registry_ s)) (peer_index_ s))
  | None =>
      let key := length (peer_registry_ s) in
      (key, with_registry s (peer_registry_ s ++ [(peer, address)])
              (<[peer := key]> (peer_index_ s)))
  end.

Definition GetPeerById (id : nat) s : outcome PeerEntry :=
  ok_or (dagsyncer_error ROUTE_NOT_FOUND) (peer_registry_ s !! id).

Definition AddRoute cid peer (address : list Multiaddress) s : t :=
  let '(peerKey, s) := RegisterPeer peer address s in
  with_routing s (<[cid := peerKey]> (routing_ s)).

Definition GetRoute cid s : outcome PeerEntry :=
  match routing_ s !! cid with
  | None => Err (dagsyncer_error ROUTE_NOT_FOUND)
  | Some peerKey => GetPeerById peerKey s
  end.

Definition EraseRoutesFromPeerID peer s : t :=
  match peer_index_ s !! peer with
  | None => s
  | Some peerKeyToRemove =>
      with_routing s (filter (fun kv => kv.2 <> peerKeyToRemove) (routing_ s))
  end.

Definition EraseRoute cid s : t := with_routing s (delete cid (routing_ s)).

(** ** The blacklist

    Times are in seconds.  Shifting a 64-bit integer by 64 or more is
    undefined. *)

Definition getBackoffTimeout (failures : Z) (ever_connected : bool) : outcome Z :=
  if (64 <=? failures)%Z then Err undefined_behaviour else
  let base_seconds := if ever_connected then 5%Z else 10%Z in
  let max_seconds := if ever_connected then 30%Z else 1800%Z in
  let timeout := u64 (base_seconds * Z.shiftl 1 failures) in
  Ok (Z.min timeout max_seconds).

Definition AddToBlackList peer (now : Z) s : outcome unit * t :=
  let mh := peer_toMultihash peer in
  match blacklist_ s !! mh with
  | None =>
      (Ok tt, with_blacklist s (<[mh := {| timestamp := now; failures := 1;
                                  ever_connected := false; backoff_attempts := 0 |}]> (blacklist_ s)))
  | Some entry =>
      match getBackoffTimeout (failures entry) (ever_connected entry) with
      | Err e => (Err e, s)
      | Ok _ =>
          (Ok tt, with_blacklist s
             (<[mh := {| timestamp := now; failures := u64 (failures entry + 1);
                         ever_connected := ever_connected entry;
                         backoff_attempts := backoff_attempts entry |}]> (blacklist_ s)))
      end
  end.

Definition IsOnBlackList peer (now : Z) s : outcome bool * t :=
  let mh := peer_toMultihash peer in
  match blacklist_ s !! mh with
  | None => (Ok false, s)
  | Some entry =>
      if (failures entry =? 0)%Z then (Ok false, s) else
      match getBackoffTimeout (failures entry - 1) (ever_connected entry) with
      | Err e => (Err e, s)
      | Ok timeout =>
          if (timeout <? u64 (now - timestamp entry))%Z then
            (Ok false, with_blacklist s
               (<[mh := {| timestamp := now; failures := failures entry;
                           ever_connected := ever_connected entry;
                           backoff_attempts := u64 (backoff_attempts entry + 1) |}]> (blacklist_ s)))
          else (Ok true, s)
      end
  end.

Definition RecordSuccessfulConnection peer s : t :=
  let mh := peer_toMultihash peer in
  match blacklist_ s !! mh with
  | None => s
  | Some entry =>
      with_blacklist s (<[mh := {| timestamp := timestamp entry; failures := 0;
                                   ever_connected := true; backoff_attempts := 0 |}]> (blacklist_ s))
  end.

(** The clock is read once by each of the two calls. *)
Definition BlackListPeer peer (now now' : Z) s : outcome unit * t :=
  match AddToBlackList peer now s with
  | (Err e, s) => (Err e, s)
  | (Ok _, s) =>
      match IsOnBlackList peer now' s with
      | (Err e, s) => (Err e, s)
      | (Ok b, s) => (Ok tt, if b : bool then EraseRoutesFromPeerID peer s else s)
      end
  end.

(** ** Blocks *)

Definition InitCIDBlock cid s : t := with_cache s (LRUCIDCache.init cid (lru_cid_cache_ s)).

Definition AddCIDBlock cid (block : Node) s : bool * t :=
  let '(was_created, c) := LRUCIDCache.add cid (Some block) (lru_cid_cache_ s) in
  (was_created, with_cache s c).

Definition IsCIDInCache cid s : bool := LRUCIDCache.contains cid (lru_cid_cache_ s).

Definition GrabCIDBlock cid s : outcome Node * t :=
  if LRUCIDCache.hasContent cid (lru_cid_cache_ s) then
    let '(node, c) := LRUCIDCache.get cid (lru_cid_cache_ s) in
    let s := with_cache s c in
    match node with
    | Some node => (Ok node, s)
    | None => (Err (dagsyncer_error CID_NOT_FOUND), s)
    end
  else (Err (dagsyncer_error CID_NOT_FOUND), s).

Definition DeleteCIDBlock cid s : outcome unit * t :=
  let '(removed, c) := LRUCIDCache.remove cid (lru_cid_cache_ s) in
  let s := with_cache s c in
  if removed then (Ok tt, s) else (Err (dagsyncer_error CID_NOT_FOUND), s).

Definition GetNodeFromMerkleDAG cid s : outcome Node := dag_getNode (dagService_ s) cid.

Definition addNode (node : Node) s : outcome unit * t :=
  let '(r, d) := dag_addNode (dagService_ s) node in (r, with_dag s d).

Definition removeNode cid s : outcome unit * t :=
  let '(r, d) := dag_removeNode (dagService_ s) cid in (r, with_dag s d).

Definition HasBlock cid s : outcome bool * t :=
  let getNodeResult := GetNodeFromMerkleDAG cid s in
  let '(getCachedNodeResult, s) := GrabCIDBlock cid s in
  (Ok (negb (has_failure getNodeResult) || negb (has_failure getCachedNodeResult)), s).

Definition GetNodeWithoutRequest cid s : outcome Node * t :=
  match GetNodeFromMerkleDAG cid s with
  | Ok node => (Ok node, s)
  | Err _ => GrabCIDBlock cid s
  end.

(** ** Traversal

    The loop over the links of a block, given the traversal of a child;
    [None] once the depth is used up. *)
Fixpoint traverse_links
    (rec : option (Node -> LinkInfoSet -> t -> LinkInfoSet * LinkInfoSet * t))
    (link_name : bytes) (links : list (CID * bytes))
    (links_to_fetch visited : LinkInfoSet) s : LinkInfoSet * LinkInfoSet * t :=
  match links with
  | [] => (links_to_fetch, visited, s)
  | (child, name) :: links =>
      if negb (bool_decide (link_name = [])) && negb (bool_decide (name = link_name)) then
        traverse_links rec link_name links links_to_fetch visited s
      else if decide ((child, name) ∈ visited) then
        traverse_links rec link_name links links_to_fetch visited s
      else
        let visited := {[(child, name)]} ∪ visited in
        match GetNodeWithoutRequest child s with
        | (Err _, s) =>
            traverse_links rec link_name links ({[(child, name)]} ∪ links_to_fetch) visited s
        | (Ok node, s) =>
            match rec with
            | None => traverse_links rec link_name links links_to_fetch visited s
            | Some rec' =>
                let '(child_links, child_visited, s) := rec' node visited s in
                traverse_links rec link_name links
                  (links_to_fetch ∪ child_links) (visited ∪ child_visited) s
            end
        end
  end.

Fixpoint TraverseCIDsLinks (max_depth : nat) (link_name : bytes) (skip_if_visited_root : bool)
    (node : Node) (visited_links : LinkInfoSet) s : LinkInfoSet * LinkInfoSet * t :=
  let root_cid := node_getCID node in
  if skip_if_visited_root &&
     existsb (fun p => bool_decide (p.1 = root_cid)) (base.elements visited_links) then
    (∅, visited_links, s)
  else
    traverse_links
      match max_depth with
      | O => None
      | S d => Some (TraverseCIDsLinks d link_name skip_if_visited_root)
      end link_name (node_getLinks node) ∅ visited_links s.

(** ** Receiving a block *)

Definition add_routes (links : list (CID * bytes)) peer (address : list Multiaddress) s : t :=
  fold_left (fun s l => AddRoute l.1 peer address s) links s.

Definition BlockReceivedCallback cid (buffer : bytes) (now : Z) s : outcome unit * t :=
  match HasBlock cid s with
  | (Err _, s) => (Ok tt, s)
  | (Ok true, s) => (Ok tt, s)
  | (Ok false, s) =>
      match node_createFromRawBytes buffer with
      | Err _ => (Ok tt, s)
      | Ok node =>
          let '(_, s) := AddCIDBlock cid node s in
          match GetRoute cid s with
          | Err _ => (Ok tt, EraseRoute cid s)
          | Ok (peerID, address) =>
              match IsOnBlackList peerID now s with
              | (Err e, s) => (Err e, s)
              | (Ok true, s) => (Ok tt, EraseRoute cid s)
              | (Ok false, s) =>
                  let s := RecordSuccessfulConnection peerID s in
                  let '(links_to_fetch, _, s) := TraverseCIDsLinks 100 [] false node ∅ s in
                  let s := add_routes (base.elements links_to_fetch) peerID address s in
                  (Ok tt, EraseRoute cid s)
              end
          end
      end
  end.

(** ** Fetching a block

    What the waiting loop sees at each poll: whether the syncer was stopped,
    the state of the request, and the blocks that arrived before it; and the
    two readings of the clock, should the peer be blacklisted. *)
Record Poll := {
  poll_arrived : list (CID * Node); poll_stopped : bool; poll_state : option RequestState;
  poll_now : Z; poll_now' : Z
}.

Definition arrive (blocks : list (CID * Node)) s : t :=
  fold_left (fun s b => (AddCIDBlock b.1 b.2 s).2) blocks s.

(** [None]: still waiting after the given polls. *)
Fixpoint wait_loop cid peer (polls : list Poll) s : option (outcome Node) * t :=
  match polls with
  | [] => (None, s)
  | q :: polls =>
      let s := arrive (poll_arrived q) s in
      if poll_stopped q then (Some (Err (dagsyncer_error DAGSYNCHER_NOT_STARTED)), Stop s) else
      match poll_state q with
      | None =>
          match GrabCIDBlock cid s with
          | (Ok node, s) => (Some (Ok node), s)
          | (Err _, s) =>
              let '(r, s) := BlackListPeer peer (poll_now q) (poll_now' q) s in
              (Some (match r with Err e => Err e | Ok _ => Err (dagsyncer_error ROUTE_NOT_FOUND) end), s)
          end
      | Some COMPLETED =>
          match GrabCIDBlock cid s with
          | (Ok node, s) => (Some (Ok node), s)
          | (Err _, s) => (Some (Err (dagsyncer_error CID_NOT_FOUND)), s)
          end
      | Some FAILED =>
          let '(r, s) := BlackListPeer peer (poll_now q) (poll_now' q) s in
          (Some (match r with Err e => Err e | Ok _ => Err (dagsyncer_error CID_NOT_FOUND) end), s)
      | Some IN_PROGRESS => wait_loop cid peer polls s
      end
  end.

(** [RequestNode] up to the call of the transport. *)
Definition RequestNode s : outcome unit :=
  if negb (started_ s) then Err (dagsyncer_error DAGSYNCHER_NOT_STARTED)
  else if negb (has_graphsync s) then Err (dagsyncer_error GRAPHSYNC_IS_NULL)
  else Ok tt.

Definition getNode cid (initial_state : option RequestState) (polls : list Poll) s
    : option (outcome Node) * t :=
  match GrabCIDBlock cid s with
  | (Ok node, s) => (Some (Ok node), s)
  | (Err _, s) =>
      match GetNodeFromMerkleDAG cid s with
      | Ok node => (Some (Ok node), s)
      | Err _ =>
          if negb (has_graphsync s) then (Some (Err undefined_behaviour), s) else
          match initial_state with
          | Some IN_PROGRESS => (Some (Err (dagsyncer_error ROUTE_NOT_FOUND)), s)
          | _ =>
              match GetRoute cid s with
              | Err e => (Some (Err e), s)
              | Ok (peerID, address) =>
                  match RequestNode s with
                  | Err e => (Some (Err e), s)
                  | Ok _ => wait_loop cid peerID polls s
                  end
              end
          end
      end
  end.
End syncer.
End GraphsyncDAGSyncer.
