(* ===== verification/DagSyncerProps.v ===== *)
(** * Correctness of the DAG syncer

    The peer registry and the routes stay consistent, a blacklisted peer has no
    routes left, the back-off times are the documented ones up to one
    overflow, and the traversal of a block finds exactly the blocks that are
    missing among the links it visits. *)

From S2P Require Import Prelude Store HierarchicalKey CrdtSet CrdtRefine CrdtHeads LruCache DagSyncer.
Import GraphsyncDAGSyncer.

Section backoff.
Local Open Scope Z_scope.

Lemma shiftl_1 n : 0 <= n -> Z.shiftl 1 n = 2 ^ n.
Proof. intros. rewrite Z.shiftl_mul_pow2 by done. lia. Qed.

(** A power of two that reaches 2^61 leaves a large remainder. *)
Lemma backoff_wraps base n :
  0 <= n < 64 -> (base = 5 \/ base = 10) -> ~ (base = 10 /\ n = 63) ->
  u64 (base * 2 ^ n) = base * 2 ^ n \/ 2 ^ 61 <= u64 (base * 2 ^ n) /\ 2 ^ 60 <= 2 ^ n.
Proof.
  intros Hn Hb Hx. destruct (Z.le_gt_cases n 60) as [Hle|Hgt].
  - left. apply u64_id. unfold is_u64. assert (2 ^ n <= 2 ^ 60) by (apply Z.pow_le_mono_r; lia).
    assert (0 < 2 ^ n) by (apply Z.pow_pos_nonneg; lia). lia.
  - right. split; [|apply Z.pow_le_mono_r; lia].
    assert (n = 61 \/ n = 62 \/ n = 63) as [->|[->| ->]] by lia;
      destruct Hb as [->| ->]; vm_compute; try discriminate. by destruct Hx.
Qed.

(** The back-off time is the documented one, 5 seconds doubled per failure
    and at most 30 for a peer that was connected before, 10 seconds doubled and
    at most 30 minutes for another, for every number of failures below 64,
    except that the product wraps to 0 at 63 failures of a peer that never
    connected; from 64 failures on the shift is undefined. *)
Theorem backoff_timeout n c :
  0 <= n ->
  getBackoffTimeout n c =
    if 64 <=? n then Err undefined_behaviour
    else if negb c && (n =? 63) then Ok 0
    else Ok (Z.min ((if c then 5 else 10) * 2 ^ n) (if c then 30 else 1800)).
Proof.
  intros Hn. unfold getBackoffTimeout. rewrite shiftl_1 by done.
  destruct (Z.leb_spec 64 n) as [|Hlt]; [done|].
  destruct (negb c && (n =? 63)) eqn:Ex.
  { apply andb_prop in Ex as [Hc Hx%Z.eqb_eq]. destruct c; [done|]. by subst. }
  f_equal.
  assert (~ ((if c then 5 else 10) = 10 /\ n = 63)) as Hx.
  { destruct c; [lia|]. simpl in Ex. apply Z.eqb_neq in Ex. lia. }
  destruct (backoff_wraps (if c then 5 else 10) n) as [->|[H1 H2]];
    [lia|destruct c; auto|done|done|].
  destruct c; lia.
Qed.
End backoff.

Lemma backoff_timeout_witness :
  getBackoffTimeout 3 true = Ok 30%Z /\ getBackoffTimeout 3 false = Ok 80%Z.
Proof. split; rewrite backoff_timeout by lia; reflexivity. Defined.

Section props.
Context {cidlib : CIDLib} {ipld : IPLDLib} {Dag : Type} {dag : MerkleDag Dag} {peers : PeerLib}.
Implicit Types (s : t (Dag := Dag)) (cid : CID) (peer : PeerId).

(** ** Routes *)

(** The index and the registry name the same peers at the same places, and
    routes lead to registered peers. *)
Record routes_ok s : Prop := {
  index_registry peer key : peer_index_ s !! peer = Some key <->
    exists address, peer_registry_ s !! key = Some (peer, address);
  routes_registered cid key : routing_ s !! cid = Some key -> key < length (peer_registry_ s)
}.

Definition route_peer (r : outcome (PeerId * list Multiaddress)) : option PeerId :=
  match r with Ok e => Some e.1 | Err _ => None end.

Lemma RegisterPeer_ok peer address s :
  routes_ok s ->
  let '(key, s') := RegisterPeer peer address s in
  routes_ok s' /\ routing_ s' = routing_ s /\ blacklist_ s' = blacklist_ s /\
  peer_registry_ s' !! key = Some (peer, address) /\
  (forall k, k < length (peer_registry_ s) ->
     fst <$> peer_registry_ s' !! k = fst <$> peer_registry_ s !! k).
Proof.
  intros [Hidx Hr]. unfold RegisterPeer.
  destruct (peer_index_ s !! peer) as [key|] eqn:E; simpl.
  - apply Hidx in E as E'. destruct E' as [old Hold].
    split; [split; simpl|split; [done|split; [done|split]]].
    + intros p k. rewrite Hidx. destruct (decide (k = key)) as [->|Hne].
      * rewrite list_lookup_alter_eq, Hold. simpl. naive_solver.
      * by rewrite list_lookup_alter_ne.
    + intros cid k Hk. rewrite length_alter. by eapply Hr.
    + by rewrite list_lookup_alter_eq, Hold.
    + intros k _. destruct (decide (k = key)) as [->|].
      * by rewrite list_lookup_alter_eq, Hold.
      * by rewrite list_lookup_alter_ne.
  - assert (forall k a, peer_registry_ s !! k = Some (peer, a) -> False) as Hno.
    { intros k a Hk. assert (peer_index_ s !! peer = Some k) by (apply Hidx; eauto). congruence. }
    assert (forall k, (peer_registry_ s ++ [(peer, address)]) !! k =
      if decide (k = length (peer_registry_ s)) then Some (peer, address) else peer_registry_ s !! k) as Hl.
    { intros k. case_decide; [subst; by rewrite lookup_app_r, Nat.sub_diag by lia|].
      destruct (decide (k < length (peer_registry_ s))); [by rewrite lookup_app_l|].
      rewrite lookup_app_r by lia. rewrite (lookup_ge_None_2 (peer_registry_ s)) by lia.
      rewrite lookup_ge_None_2; [done|simpl; lia]. }
    split; [split; simpl|split; [done|split; [done|split]]].
    + intros p k. rewrite Hl, lookup_insert_Some, Hidx. case_decide as Hk; subst.
      * split; [|intros [a [= -> ->]]; by left].
        intros [[<- _]|[_ [a Ha]]]; [eauto|]. apply lookup_lt_Some in Ha. lia.
      * split; [intros [[_ ?]|[_ ?]]; [by subst|done]|].
        intros [a Ha]. right. split; [|eauto]. intros ->. by eapply Hno.
    + intros cid k Hk%Hr. rewrite length_app. lia.
    + rewrite Hl. by rewrite decide_True.
    + intros k Hk. rewrite Hl, decide_False; [done|lia].
Qed.

Lemma AddRoute_ok cid peer address s : routes_ok s -> routes_ok (AddRoute cid peer address s).
Proof.
  intros Hs. unfold AddRoute. pose proof (RegisterPeer_ok peer address s Hs) as Hreg.
  destruct (RegisterPeer peer address s) as [key s1]. destruct Hreg as ([Hidx Hr] & _ & _ & Hkey & _).
  split; simpl; [done|].
  intros c k [[_ <-]|[_ ?]]%lookup_insert_Some; [by eapply lookup_lt_Some|eauto].
Qed.

(** A route that is added is the one found afterwards, with the address
    given, and every other block keeps the peer it was routed to; the registry
    stays consistent, a peer being registered once. *)
Theorem AddRoute_GetRoute cid peer address s :
  routes_ok s ->
  routes_ok (AddRoute cid peer address s) /\
  GetRoute cid (AddRoute cid peer address s) = Ok (peer, address) /\
  forall cid', cid' <> cid ->
    route_peer (GetRoute cid' (AddRoute cid peer address s)) = route_peer (GetRoute cid' s).
Proof.
  intros Hs. split; [by apply AddRoute_ok|].
  unfold AddRoute. pose proof (RegisterPeer_ok peer address s Hs) as Hreg.
  destruct (RegisterPeer peer address s) as [key s1]. destruct Hreg as ([Hidx Hr] & Hrt & _ & Hkey & Hk).
  unfold GetRoute, GetPeerById. simpl. split.
  - by rewrite lookup_insert_eq, Hkey.
  - intros cid' Hne. rewrite lookup_insert_ne, Hrt by done.
    destruct (routing_ s !! cid') as [k|] eqn:E; [|done].
    specialize (Hk k (routes_registered _ Hs _ _ E)).
    destruct (peer_registry_ s1 !! k) as [[]|], (peer_registry_ s !! k) as [[]|]; simpl in *; congruence.
Qed.

Lemma EraseRoutes_spec peer s cid key :
  routes_ok s ->
  routing_ (EraseRoutesFromPeerID peer s) !! cid = Some key <->
  routing_ s !! cid = Some key /\ peer_index_ s !! peer <> Some key.
Proof.
  intros _. unfold EraseRoutesFromPeerID. destruct (peer_index_ s !! peer) as [k|]; simpl.
  - rewrite map_lookup_filter_Some. simpl. intuition congruence.
  - intuition congruence.
Qed.

Lemma erase_routes_peer peer s cid :
  routes_ok s ->
  route_peer (GetRoute cid (EraseRoutesFromPeerID peer s)) =
  if decide (route_peer (GetRoute cid s) = Some peer) then None else route_peer (GetRoute cid s).
Proof.
  intros Hs. unfold GetRoute, GetPeerById.
  assert (peer_registry_ (EraseRoutesFromPeerID peer s) = peer_registry_ s) as ->.
  { unfold EraseRoutesFromPeerID. by destruct (peer_index_ s !! peer). }
  pose proof (fun key => EraseRoutes_spec peer s cid key Hs) as He.
  destruct (routing_ s !! cid) as [k|] eqn:Er.
  - pose proof (routes_registered _ Hs _ _ Er) as [[p a] Hp]%lookup_lt_is_Some.
    assert (peer_index_ s !! p = Some k) as Hk by (apply (index_registry _ Hs); eauto).
    rewrite Hp. simpl. destruct (decide (p = peer)) as [->|Hne].
    + rewrite decide_True by done.
      destruct (routing_ (EraseRoutesFromPeerID peer s) !! cid) as [k'|] eqn:E'; [|done].
      destruct (proj1 (He k') eq_refl) as [[= <-] ?]. congruence.
    + rewrite decide_False by congruence.
      assert (routing_ (EraseRoutesFromPeerID peer s) !! cid = Some k) as ->; [|by rewrite Hp].
      apply He. split; [done|]. intros Hpk. apply (index_registry _ Hs) in Hpk as [a' Ha'].
      congruence.
  - destruct (routing_ (EraseRoutesFromPeerID peer s) !! cid) as [k'|] eqn:E'; [|by case_decide].
    by destruct (proj1 (He k') eq_refl) as [? _].
Qed.

(** Blacklisting a peer for the first time leaves no block routed to it
    and keeps the peer of every other route, when the clock moves by at most
    the 10 seconds of the first back-off between its two readings. *)
Theorem BlackListPeer_routes peer now now' s :
  routes_ok s -> blacklist_ s !! peer_toMultihash peer = None ->
  (0 <= now <= now')%Z -> (now' <= now + 10)%Z ->
  exists s', BlackListPeer peer now now' s = (Ok tt, s') /\
    (forall cid, route_peer (GetRoute cid s') =
       if decide (route_peer (GetRoute cid s) = Some peer) then None
       else route_peer (GetRoute cid s)) /\
    (IsOnBlackList peer now' s').1 = Ok true.
Proof.
  intros Hs Hbl Hnow Hle. unfold BlackListPeer, AddToBlackList. rewrite Hbl.
  set (s1 := with_blacklist s _).
  assert (routes_ok s1) as Hs1 by (destruct Hs; by split).
  assert (forall s2, blacklist_ s2 = blacklist_ s1 -> IsOnBlackList peer now' s2 = (Ok true, s2)) as Hon.
  { intros s2 H2. unfold IsOnBlackList. rewrite H2. unfold s1. cbn [blacklist_ with_blacklist].
    rewrite lookup_insert_eq. cbn [failures timestamp ever_connected Z.eqb].
    replace (getBackoffTimeout (1 - 1) false) with (@Ok Z 10%Z) by reflexivity.
    assert (u64 (now' - now) = (now' - now)%Z) as -> by (apply u64_id; u64_lia).
    destruct (Z.ltb_spec 10 (now' - now)); [lia|done]. }
  rewrite Hon by done. eexists. split; [done|]. split.
  - intros cid. apply (erase_routes_peer peer s1 cid Hs1).
  - rewrite Hon; [done|]. unfold EraseRoutesFromPeerID. by destruct (peer_index_ s1 !! peer).
Qed.

(** ** Traversal *)

(** The block a syncer has for an identifier. *)
Definition block s cid : option Node :=
  match (GetNodeWithoutRequest cid s).1 with Ok n => Some n | Err _ => None end.

Definition wanted (link_name : bytes) (l : CID * bytes) : Prop := link_name = [] \/ l.2 = link_name.

(** Links reached from a block through blocks that are present. *)
Inductive reach (B : CID -> option Node) (link_name : bytes) (node : Node) : CID * bytes -> Prop :=
  | reach_link l : l ∈ node_getLinks node -> wanted link_name l -> reach B link_name node l
  | reach_next l child l' : l ∈ node_getLinks node -> wanted link_name l -> B l.1 = Some child ->
      reach B link_name child l' -> reach B link_name node l'.

#[export] Instance wanted_dec link_name l : Decision (wanted link_name l).
Proof. unfold wanted. apply _. Defined.

Lemma forall_cons_elem {A} (P : A -> Prop) x l :
  (forall y, y ∈ x :: l -> P y) -> P x /\ forall y, y ∈ l -> P y.
Proof. intros H. split; [|intros y Hy]; apply H, elem_of_cons; auto. Qed.

Lemma GetNodeWithoutRequest_block cid s :
  let '(r, s') := GetNodeWithoutRequest cid s in
  (forall c, block s' c = block s c) /\
  block s cid = match r with Ok n => Some n | Err _ => None end.
Proof.
  unfold block. destruct (GetNodeWithoutRequest cid s) as [r s'] eqn:E.
  split; [|done]. intros c.
  assert (dagService_ s' = dagService_ s /\
    LRUCIDCache.cache_map_ (lru_cid_cache_ s') = LRUCIDCache.cache_map_ (lru_cid_cache_ s)) as [Hd Hc].
  { revert E. unfold GetNodeWithoutRequest, GrabCIDBlock, LRUCIDCache.get.
    destruct (GetNodeFromMerkleDAG cid s); [by intros [= _ <-]|].
    destruct (LRUCIDCache.hasContent cid (lru_cid_cache_ s)); [|by intros [= _ <-]].
    destruct (LRUCIDCache.cache_map_ (lru_cid_cache_ s) !! cid) as [[n|]|]; by intros [= _ <-]. }
  unfold GetNodeWithoutRequest, GetNodeFromMerkleDAG, GrabCIDBlock, LRUCIDCache.hasContent,
    LRUCIDCache.get. rewrite Hd, Hc. destruct (dag_getNode (dagService_ s) c); [done|].
  by destruct (LRUCIDCache.cache_map_ (lru_cid_cache_ s) !! c) as [[n|]|].
Qed.

(** What a traversal from [node] with [V0] already visited may return. *)
Definition traversed (B : CID -> option Node) (link_name : bytes) (node : Node)
    (V0 : gset (CID * bytes)) (r : gset (CID * bytes) * gset (CID * bytes) * t (Dag := Dag)) : Prop :=
  let '(F, V, s) := r in
  (forall c, block s c = B c) /\ V0 ⊆ V /\
  (forall p, p ∈ V -> p ∈ V0 \/ reach B link_name node p) /\
  (forall p, p ∈ F <-> p ∈ V /\ p ∉ V0 /\ B p.1 = None).

Section steps.
Context (B : CID -> option Node) (link_name : bytes) (node : Node) (V0 : gset (CID * bytes)).
Context (F V : gset (CID * bytes)) (s : t (Dag := Dag)).
Context (Ht : traversed B link_name node V0 (F, V, s)).
Context (l : CID * bytes) (Hl : l ∈ node_getLinks node) (Hw : wanted link_name l).

Lemma traversed_missing s' :
  (forall c, block s' c = B c) -> l ∉ V -> B l.1 = None ->
  traversed B link_name node V0 ({[l]} ∪ F, {[l]} ∪ V, s').
Proof using Ht Hl Hw.
  intros Hs' Hn HB. destruct Ht as (_ & HV & Hreach & HF). split; [done|]. split; [set_solver|].
  split; intros p; rewrite !elem_of_union, !elem_of_singleton.
  - intros [->|Hp]; [right; by apply reach_link|by apply Hreach].
  - rewrite HF. split; [|tauto]. intros [->|?]; [|tauto]. split; [by left|].
    split; [|done]. intros ?. by apply Hn, HV.
Qed.

Lemma traversed_present s' child :
  (forall c, block s' c = B c) -> B l.1 = Some child ->
  traversed B link_name node V0 (F, {[l]} ∪ V, s').
Proof using Ht Hl Hw.
  intros Hs' HB. destruct Ht as (_ & HV & Hreach & HF). split; [done|]. split; [set_solver|].
  split; intros p; rewrite !elem_of_union, !elem_of_singleton.
  - intros [->|Hp]; [right; by apply reach_link|by apply Hreach].
  - rewrite HF. split; [tauto|]. intros ([->|?] & ? & ?); [congruence|tauto].
Qed.

Lemma traversed_child child r :
  B l.1 = Some child -> traversed B link_name child V r ->
  traversed B link_name node V0 (F ∪ r.1.1, V ∪ r.1.2, r.2).
Proof using Ht Hl Hw.
  destruct r as [[F1 V1] s1]. simpl. intros HB (Hs1 & HV1 & Hreach1 & HF1).
  destruct Ht as (_ & HV & Hreach & HF). split; [done|]. split; [set_solver|].
  split; intros p; rewrite !elem_of_union.
  - intros [Hp|Hp]; [by apply Hreach|]. apply Hreach1 in Hp as [Hp|Hp]; [by apply Hreach|right].
    by eapply reach_next.
  - rewrite HF, HF1. destruct (decide (p ∈ V)) as [Hp|Hp]; [tauto|]. specialize (HV p). tauto.
Qed.
End steps.

Lemma traverse_links_cons rec link_name child name links F V s :
  let r := GetNodeWithoutRequest child s in
  traverse_links rec link_name ((child, name) :: links) F V s =
  if decide (wanted link_name (child, name)) then
    if decide ((child, name) ∈ V) then traverse_links rec link_name links F V s
    else match r.1, rec with
         | Err _, _ =>
             traverse_links rec link_name links ({[(child, name)]} ∪ F) ({[(child, name)]} ∪ V) r.2
         | Ok n, None => traverse_links rec link_name links F ({[(child, name)]} ∪ V) r.2
         | Ok n, Some f =>
             let c := f n ({[(child, name)]} ∪ V) r.2 in
             traverse_links rec link_name links (F ∪ c.1.1) ({[(child, name)]} ∪ V ∪ c.1.2) c.2
         end
  else traverse_links rec link_name links F V s.
Proof.
  simpl. assert (negb (bool_decide (link_name = [])) && negb (bool_decide (name = link_name)) =
    negb (bool_decide (wanted link_name (child, name)))) as ->.
  { repeat case_bool_decide; unfold wanted in *; simpl in *; naive_solver. }
  rewrite bool_decide_decide. destruct (decide (wanted link_name (child, name))); simpl; [|done].
  case_decide; [done|].
  destruct (GetNodeWithoutRequest child s) as [[n|] s1]; simpl; [|done].
  destruct rec as [f|]; [|done]. by destruct (f n _ s1) as [[F1 V1] s2].
Qed.

Lemma traverse_links_traversed B rec link_name node V0 links F V s :
  (forall f, rec = Some f -> forall n V s, (forall c, block s c = B c) ->
     traversed B link_name n V (f n V s)) ->
  (forall l, l ∈ links -> l ∈ node_getLinks node) ->
  traversed B link_name node V0 (F, V, s) ->
  let r := traverse_links rec link_name links F V s in
  traversed B link_name node V0 r /\
  (forall l, l ∈ links -> wanted link_name l -> l ∈ r.1.2) /\ V ⊆ r.1.2.
Proof.
  intros Hrec. revert F V s. induction links as [|[child name] links IH]; intros F V s Hin Ht.
  { split; [done|]. split; [by intros ? ?%elem_of_nil|done]. }
  apply forall_cons_elem in Hin as [Hc Hin]. cbv zeta. rewrite traverse_links_cons. cbv zeta.
  setoid_rewrite elem_of_cons.
  case_decide as Hw; [|destruct (IH F V s Hin Ht) as (? & ? & ?); naive_solver].
  case_decide as HV; [destruct (IH F V s Hin Ht) as (? & ? & ?); naive_solver|].
  pose proof (GetNodeWithoutRequest_block child s) as Hb.
  destruct (GetNodeWithoutRequest child s) as [r s1]. destruct Hb as [Hs1 Hr]. simpl.
  assert (forall c, block s1 c = B c) as Hs1B by (intros c; rewrite Hs1; apply Ht).
  assert (B child = match r with Ok n => Some n | Err _ => None end) as HB
    by (rewrite <-Hr; symmetry; apply Ht).
  assert (forall F' V' s', traversed B link_name node V0 (F', V', s') -> {[(child, name)]} ∪ V ⊆ V' ->
    let r := traverse_links rec link_name links F' V' s' in
    traversed B link_name node V0 r /\
    (forall l, l = (child, name) \/ l ∈ links -> wanted link_name l -> l ∈ r.1.2) /\ V ⊆ r.1.2) as Hfin.
  { intros F' V' s' Ht' HV'. destruct (IH F' V' s' Hin Ht') as (H1 & H2 & H3).
    assert (V ⊆ V') as HV'' by (etrans; [apply union_subseteq_r|exact HV']).
    split; [done|]. split; [|by etrans]. intros l [->|?] ?; [|auto].
    apply H3, HV', elem_of_union_l. by apply elem_of_singleton. }
  destruct r as [n|e]; [|by apply Hfin, set_eq_subseteq; [eapply traversed_missing|]].
  pose proof (traversed_present _ _ _ _ _ _ _ Ht (child, name) Hc Hw s1 n Hs1B HB) as Ht1.
  destruct rec as [f|]; [|by apply Hfin].
  apply Hfin; [|apply union_subseteq_l].
  eapply (traversed_child _ _ _ _ _ _ _ Ht1 (child, name) Hc Hw n); [done|]. by apply Hrec.
Qed.

Lemma traverse_traversed B d link_name skip node V s :
  (forall c, block s c = B c) ->
  traversed B link_name node V (TraverseCIDsLinks d link_name skip node V s).
Proof.
  revert node V s. induction d as [|d IH]; intros node V s Hs.
  all: assert (traversed B link_name node V (∅, V, s)) as H0
    by (split; [done|]; split; [done|]; split; [by left|set_solver]).
  all: cbn [TraverseCIDsLinks]; destruct (skip && _); [done|].
  all: apply traverse_links_traversed; [|done|done].
  - done.
  - intros f [= <-] n V1 s1 Hs1. by apply IH.
Qed.

(** The traversal of a block from nothing visited: it changes no block of
    the syncer, it visits only links reached through blocks that are present,
    the links of the block itself among them, and the links to fetch are
    exactly the visited ones whose block is missing. *)
Theorem traverse_finds_missing d link_name skip node s :
  let '(to_fetch, visited, s') := TraverseCIDsLinks d link_name skip node ∅ s in
  (forall c, block s' c = block s c) /\
  (forall l, l ∈ node_getLinks node -> wanted link_name l -> l ∈ visited) /\
  (forall l, l ∈ visited -> reach (block s) link_name node l) /\
  (forall l, l ∈ to_fetch <-> l ∈ visited /\ block s l.1 = None).
Proof.
  pose proof (traverse_traversed (block s) d link_name skip node ∅ s ltac:(done)) as Ht.
  assert (forall l, l ∈ node_getLinks node -> wanted link_name l ->
    l ∈ (TraverseCIDsLinks d link_name skip node ∅ s).1.2) as Hl.
  { destruct d; cbn [TraverseCIDsLinks]; rewrite elements_empty; simpl existsb; rewrite andb_false_r.
    all: apply (traverse_links_traversed (block s) _ link_name node ∅);
      [intros f; try done; intros [= <-] n V s1 Hs1; by apply traverse_traversed|done|].
    all: split; [done|]; split; [done|]; split; [by left|set_solver]. }
  destruct (TraverseCIDsLinks d link_name skip node ∅ s) as [[F V] s'].
  destruct Ht as (Hs & _ & Hr & HF). split; [done|]. split; [done|]. split.
  - intros l Hin. apply Hr in Hin as [?|?]; [set_solver|done].
  - intros l. rewrite HF. set_solver.
Qed.
End props.
