(* ===== verification/CrdtDataFilter.v ===== *)
(** * The CRDT data filter ([crdt/crdt_data_filter.hpp], [crdt/impl/crdt_data_filter.cpp])

    Callbacks by key pattern that reject elements of incoming deltas.  A
    rejected element is not taken out of its delta: a tombstone for it is added
    to the same delta.  The theorem shows that this keeps the element out of
    the set. *)

From S2P Require Import Prelude Store HierarchicalKey CrdtSet CrdtRefine ORSetFacts.
From S2P Require Import CrdtSetProps.
Import HKey CrdtSet ORSet.

#[local] Arguments CrdtSet.Merge : simpl never.
#[local] Arguments ORSet.merge : simpl never.

(** The regular expressions of patterns, and whether a key matches one. *)
Class RegexLib := { regex_match : bytes -> bytes -> bool }.

Module CRDTDataFilter.
Section filter.
Context {regexlib : RegexLib}.

(** A callback returns the tombstones of an element it rejects. *)
Abbreviation ElementFilterCallback := (Element -> option (list Element)).

(** A registry is an unordered map: a list of its entries in the order in
    which it is iterated, at most one per pattern. *)
Abbreviation FilterCallbackRegistry := (list (bytes * ElementFilterCallback)).

Record t := {
  accept_by_default_ : bool;
  element_registry_ : FilterCallbackRegistry;
  tombstone_registry_ : FilterCallbackRegistry
}.

Definition new (accept_by_default : bool) : t :=
  {| accept_by_default_ := accept_by_default; element_registry_ := []; tombstone_registry_ := [] |}.

Definition registry_erase (pattern : bytes) (r : FilterCallbackRegistry) : FilterCallbackRegistry :=
  filter (fun e => e.1 <> pattern) r.

Definition registry_set (pattern : bytes) (f : ElementFilterCallback) (r : FilterCallbackRegistry)
    : FilterCallbackRegistry := (pattern, f) :: registry_erase pattern r.

Definition RegisterElementFilter (pattern : bytes) (f : ElementFilterCallback) (x : t) : bool * t :=
  (true, {| accept_by_default_ := accept_by_default_ x;
            element_registry_ := registry_set pattern f (element_registry_ x);
            tombstone_registry_ := tombstone_registry_ x |}).

Definition RegisterTombstoneFilter (pattern : bytes) (f : ElementFilterCallback) (x : t) : bool * t :=
  (true, {| accept_by_default_ := accept_by_default_ x;
            element_registry_ := element_registry_ x;
            tombstone_registry_ := registry_set pattern f (tombstone_registry_ x) |}).

Definition UnregisterElementFilter (pattern : bytes) (x : t) : t :=
  {| accept_by_default_ := accept_by_default_ x;
     element_registry_ := registry_erase pattern (element_registry_ x);
     tombstone_registry_ := tombstone_registry_ x |}.

Definition UnregisterTombstoneFilter (pattern : bytes) (x : t) : t :=
  {| accept_by_default_ := accept_by_default_ x;
     element_registry_ := element_registry_ x;
     tombstone_registry_ := registry_erase pattern (tombstone_registry_ x) |}.

(** The tombstones for one element: those of the first pattern that matches. *)
Fixpoint element_tombstones (registry : FilterCallbackRegistry) (accept_by_default : bool)
    (element : Element) : list Element :=
  match registry with
  | [] => if accept_by_default then [] else [element]
  | (pattern, f) :: registry =>
      if regex_match (el_key element) pattern then default [] (f element)
      else element_tombstones registry accept_by_default element
  end.

Definition FilterElementsOnDelta (x : t) (delta : Delta) : Delta :=
  let new_tombstones :=
    concat (element_tombstones (element_registry_ x) (accept_by_default_ x) <$> elements delta) in
  {| elements := elements delta; tombstones := tombstones delta ++ new_tombstones;
     priority := priority delta |}.

(** Not supported: it throws. *)
Definition FilterTombstonesOnDelta (x : t) (delta : Delta) : outcome Delta :=
  Err undefined_behaviour.

(** The filter rejects the element, with a tombstone for it in its own block. *)
Definition rejects (x : t) (e : Element) : Prop :=
  exists tomb, tomb ∈ element_tombstones (element_registry_ x) (accept_by_default_ x) e /\
    el_key tomb = el_key e /\ el_id tomb = [].

Lemma filter_rejected x d e :
  e ∈ elements d -> rejects x e ->
  exists tomb, tomb ∈ tombstones (FilterElementsOnDelta x d) /\
    el_key tomb = el_key e /\ el_id tomb = [].
Proof.
  intros He (tomb & Ht & Hk & Hi). exists tomb. split; [|done]. simpl.
  apply elem_of_app. right. apply list_elem_of_In, in_concat. eexists.
  split; apply list_elem_of_In; [|exact Ht]. by apply list_elem_of_fmap_2.
Qed.
End filter.
End CRDTDataFilter.
Import CRDTDataFilter.

Section props.
Context {DB : Type} `{!RocksDBLib DB, !RocksDBHealthy DB}.
Context {boost : BoostLib} {boostspec : BoostSpec} {plat : Platform} {regexlib : RegexLib}.
Context (s : CrdtSet.t).
Implicit Types (w : World DB) (a : ORSet.t).

(** Elements that are tombstoned in their own block add no value. *)
Lemma put_elems_tombstoned p id l a a' k :
  put_elems p id l a = Some a' ->
  (forall e, e ∈ l -> el_key e = k -> (k, id) ∈ os_tombs a) ->
  os_reg a' !! k = os_reg a !! k /\ os_tombs a' = os_tombs a.
Proof.
  revert a. induction l as [|e l IH]; intros a Hput Hall; simpl in *; [by simplify_eq|].
  apply bind_Some in Hput as (a1 & H1 & H2).
  assert (os_reg a1 !! k = os_reg a !! k /\ os_tombs a1 = os_tombs a) as [Hr Ht].
  { revert H1. unfold put_elem, set_value. simpl. case_decide as Hd; [by intros [= <-]|].
    destruct (reg_put _ _ _) as [r|]; [|done]. intros [= <-]. simpl. split; [|done].
    apply lookup_insert_ne. intros <-. apply Hd. apply (Hall e); [|done].
    apply elem_of_cons. by left. }
  destruct (IH a1 H2) as [-> ->]; [|done].
  intros e' He' Hk. rewrite Ht. apply (Hall e'); [|done]. apply elem_of_cons. by right.
Qed.

(** The abstract merge of a filtered delta, for a key it rejects. *)
Lemma rejected_merge x d id a a' k :
  merge (FilterElementsOnDelta x d) id a = Some a' -> live_reg a -> (k, id) ∉ os_elems a ->
  (forall tomb, tomb ∈ tombstones (FilterElementsOnDelta x d) -> el_key tomb = k -> el_id tomb = []) ->
  (forall e, e ∈ elements d -> el_key e = k -> rejects x e) ->
  os_reg a' !! k = os_reg a !! k /\ live a' k = live a k.
Proof.
  set (d' := FilterElementsOnDelta x d). intros Hm Hlive Hfresh Htomb Hrej.
  destruct (merge_sets _ _ _ _ Hm Hlive) as (He & Ht & _).
  assert (forall e, e ∈ elements d' -> el_key e = k -> (k, id) ∈ os_tombs (put_tombs id (tombstones d') a))
    as Hown.
  { intros e Hin Hke. destruct (filter_rejected x d e Hin (Hrej e Hin Hke)) as (tomb & Hto & Hkt & Hit).
    apply elem_of_union_l, elem_of_list_to_set, list_elem_of_fmap. exists tomb.
    unfold tomb_id. rewrite Hit, Hkt, Hke. done. }
  destruct (put_elems_tombstoned _ _ _ _ _ k Hm Hown) as [Hreg Htm]. split; [done|].
  apply set_eq. intros [k' i]. rewrite !live_elem, He, Ht, !elem_of_union.
  unfold delta_adds, delta_tombs. simpl. rewrite !elem_of_list_to_set, !list_elem_of_fmap.
  split; intros (-> & Hin & Hn); (split; [done|]); [destruct Hin as [(e & [= -> ->] & Hin)|Hin]|].
  - exfalso. apply Hn. specialize (Hown e Hin eq_refl). rewrite <-Htm, Ht in Hown.
    apply elem_of_union in Hown as [Hown|?]; [left|by right].
    by apply elem_of_list_to_set, list_elem_of_fmap in Hown.
  - tauto.
  - split; [by right|]. intros [(tomb & [= Hk1 ->] & Hto)|?]; [|done]. apply Hfresh.
    unfold tomb_id in Hin. by rewrite (Htomb tomb Hto) in Hin.
Qed.

(** An element the filter rejects with a tombstone of its own leaves the
    set as it was: when the filtered delta of a new block is merged, the
    membership and the value of its key are those of before. *)
Theorem rejected_element_not_added w a x d id k :
  replica s w a -> wf_id id -> wf_delta (FilterElementsOnDelta x d) -> wf_key k ->
  no_ancestor a k -> (k, id) ∉ os_elems a -> accepted (id, d) ->
  (forall e, e ∈ elements d -> ~ (el_key e ++ [slash]) `prefix_of` k) ->
  (forall tomb, tomb ∈ tombstones (FilterElementsOnDelta x d) -> el_key tomb = k -> el_id tomb = []) ->
  (forall e, e ∈ elements d -> el_key e = k -> rejects x e) ->
  exists w', Merge s (Some (FilterElementsOnDelta x d)) id w = (Ok tt, w') /\
    IsValueInSet s w' k = IsValueInSet s w k /\ GetElement s w' k = GetElement s w k.
Proof using All.
  intros Hrep Hid Hwf Hk Hanc Hfresh Hacc Hsub Htomb Hrej. pose proof Hrep as (_ & _ & Hlive).
  set (d' := FilterElementsOnDelta x d) in *.
  destruct (merges_total [(id, d')] a) as [a' Ha']; [by apply Forall_singleton|].
  destruct (merge_all_replica s [(id, d')] w a a' Hrep) as (w' & Hm & Hrep');
    [by apply Forall_singleton|done|].
  simpl in Ha', Hm. apply bind_Some in Ha' as (a1 & Ha1 & [= ->]).
  exists w'. split; [by destruct (Merge s (Some d') id w) as [[[]|] ?]|].
  destruct (rejected_merge x d id a a' k Ha1 Hlive Hfresh Htomb Hrej) as [Hreg Hl].
  assert (in_set a' k <-> in_set a k) as Hin by (unfold in_set; by rewrite Hreg, Hl).
  assert (no_ancestor a' k) as Hanc1.
  { intros k' i. rewrite (proj1 (merge_sets _ _ _ _ Ha1 Hlive)), elem_of_union.
    intros [Hin'|?]; [|by eapply Hanc].
    apply elem_of_list_to_set, list_elem_of_fmap in Hin' as (e & [= -> ->] & Hin'). by apply Hsub. }
  rewrite (IsValueInSet_replica s w' a'), (IsValueInSet_replica s w a),
    (GetElement_replica s w' a'), (GetElement_replica s w a) by done.
  split; [f_equal; by apply bool_decide_ext|]. unfold get_spec. rewrite Hreg.
  destruct (os_reg a !! k); [|done]. do 2 case_decide; tauto.
Qed.
End props.

(** Exact matching, for the concrete example. *)
#[local] Instance literal_regex : RegexLib := {| regex_match key pattern := bool_decide (key = pattern) |}.
#[local] Existing Instance Demo.demo_platform.

Definition demo_filter : CRDTDataFilter.t :=
  (RegisterElementFilter (str "/a") (fun e => Some [Build_Element (el_key e) [] []])
     (CRDTDataFilter.new true)).2.

Lemma rejected_element_not_added_witness :
  let d := Demo.adds [Demo.elem "/a" "1"; Demo.elem "/b" "2"] 1 in
  exists w', Merge Demo.set (Some (FilterElementsOnDelta demo_filter d)) (str "/B1") Demo.world
             = (Ok tt, w') /\
    IsValueInSet Demo.set w' (str "/a") = IsValueInSet Demo.set Demo.world (str "/a") /\
    GetElement Demo.set w' (str "/a") = GetElement Demo.set Demo.world (str "/a").
Proof.
  cbv zeta. apply (rejected_element_not_added Demo.set Demo.world ORSet.empty); [apply demo_replica|..].
  - wf_demo.
  - split; [wf_demo|wf_demo| |wf_demo].
    apply Forall_singleton. split; [wf_demo|by left].
  - wf_demo.
  - wf_demo.
  - wf_demo.
  - by right.
  - intros e [->|[->|[]%elem_of_nil]%elem_of_cons]%elem_of_cons Hp; apply starts_with_prefix in Hp; done.
  - intros tomb [->|[]%elem_of_nil]%elem_of_cons; done.
  - intros e [->|[->|[]%elem_of_nil]%elem_of_cons]%elem_of_cons Hk; [|done].
    exists (Build_Element (str "/a") [] []). split; [|done]. by apply elem_of_cons; left.
Defined.
