(* ===== verification/CrdtDatastore.v ===== *)
(** * The CRDT datastore ([crdt/crdt_datastore.hpp], [crdt/impl/crdt_datastore.cpp])

    The replicated store: local changes become blocks that link the current
    heads, blocks of others are fetched, filtered and merged, and the heads are
    broadcast.  The worker threads take turns on the state below; each
    definition is what one of them does between two waits. *)

From S2P Require Import Prelude Store HierarchicalKey CrdtSet CrdtHeads LruCache DagSyncer.
From S2P Require Import CrdtRefine ORSetFacts CrdtSetProps CrdtDataFilter.
Import HKey.

(** The protocol-buffer codecs of deltas and of broadcast messages. *)
Class DeltaCodec := {
  delta_serialize : Delta -> bytes;
  delta_parse : bytes -> option Delta;
  bcast_serialize : list bytes -> bytes;
  bcast_parse : bytes -> option (list bytes)
}.

Class DeltaCodecSpec `{DeltaCodec} := {
  delta_round_trip d : is_u64 (priority d) -> delta_parse (delta_serialize d) = Some d;
  bcast_round_trip l : bcast_parse (bcast_serialize l) = Some l;
  bcast_nonempty l : l <> [] -> bcast_serialize l <> []
}.

(** The interface of [crdt/broadcaster.hpp]. *)
Class Broadcaster (B : Type) := {
  bc_Next : B -> outcome bytes * B;
  bc_Broadcast : bytes -> bytes -> B -> outcome unit * B
}.

Definition datastore_error {A} (e : CrdtDatastoreError) : outcome A := Err (crdt_datastore_error e).

Module CrdtDatastore.
Section datastore.
Context {DB : Type} `{!RocksDBLib DB}.
Context {boost : BoostLib} {plat : Platform} {regexlib : RegexLib} {codec : DeltaCodec}.
Context {cidlib : CIDLib} {ipld : IPLDLib} {S : Type} {syncer : DAGSyncer S}.
Context {B : Type} {bcaster : Broadcaster B}.

Definition headsNamespace_ : bytes := str "h".
Definition setsNamespace_ : bytes := str "s".

Record DagJob := {
  rootCid_ : CID; rootPriority_ : Z; delta_ : Delta; node_ : Node; root_node_ : option Node
}.

(** [world_] holds the store that set and heads share. *)
Record t := {
  namespaceKey_ : bytes;
  set_ : CrdtSet.t;
  heads_ : CrdtHeads.t;
  world_ : CrdtSet.World DB;
  dagSyncer_ : S;
  broadcaster_ : option B;
  crdt_filter_ : CRDTDataFilter.t;
  topicNames_ : gset bytes;
  dagWorkerJobList : list DagJob
}.
Implicit Types (ds : t).

Definition with_world ds w : t :=
  {| namespaceKey_ := namespaceKey_ ds; set_ := set_ ds; heads_ := heads_ ds; world_ := w;
     dagSyncer_ := dagSyncer_ ds; broadcaster_ := broadcaster_ ds; crdt_filter_ := crdt_filter_ ds;
     topicNames_ := topicNames_ ds; dagWorkerJobList := dagWorkerJobList ds |}.
Definition with_heads ds h w : t :=
  {| namespaceKey_ := namespaceKey_ ds; set_ := set_ ds; heads_ := h; world_ := w;
     dagSyncer_ := dagSyncer_ ds; broadcaster_ := broadcaster_ ds; crdt_filter_ := crdt_filter_ ds;
     topicNames_ := topicNames_ ds; dagWorkerJobList := dagWorkerJobList ds |}.
Definition with_syncer ds x : t :=
  {| namespaceKey_ := namespaceKey_ ds; set_ := set_ ds; heads_ := heads_ ds; world_ := world_ ds;
     dagSyncer_ := x; broadcaster_ := broadcaster_ ds; crdt_filter_ := crdt_filter_ ds;
     topicNames_ := topicNames_ ds; dagWorkerJobList := dagWorkerJobList ds |}.
Definition with_broadcaster ds b : t :=
  {| namespaceKey_ := namespaceKey_ ds; set_ := set_ ds; heads_ := heads_ ds; world_ := world_ ds;
     dagSyncer_ := dagSyncer_ ds; broadcaster_ := b; crdt_filter_ := crdt_filter_ ds;
     topicNames_ := topicNames_ ds; dagWorkerJobList := dagWorkerJobList ds |}.
Definition with_jobs ds j : t :=
  {| namespaceKey_ := namespaceKey_ ds; set_ := set_ ds; heads_ := heads_ ds; world_ := world_ ds;
     dagSyncer_ := dagSyncer_ ds; broadcaster_ := broadcaster_ ds; crdt_filter_ := crdt_filter_ ds;
     topicNames_ := topicNames_ ds; dagWorkerJobList := j |}.

(** The constructor, for options without hooks. *)
Definition new (aKey : bytes) (w : CrdtSet.World DB) (x : S) (b : B) : t :=
  let fullSetNs := ChildString aKey setsNamespace_ in
  let fullHeadsNs := ChildString aKey headsNamespace_ in
  {| namespaceKey_ := aKey;
     set_ := {| CrdtSet.namespaceKey_ := fullSetNs; CrdtSet.putHookFunc_ := false;
                CrdtSet.deleteHookFunc_ := false |};
     heads_ := CrdtHeads.new fullHeadsNs w;
     world_ := w; dagSyncer_ := x; broadcaster_ := Some b;
     crdt_filter_ := CRDTDataFilter.new true; topicNames_ := ∅; dagWorkerJobList := [] |}.

Definition AddTopicName (topic : bytes) ds : t :=
  {| namespaceKey_ := namespaceKey_ ds; set_ := set_ ds; heads_ := heads_ ds; world_ := world_ ds;
     dagSyncer_ := dagSyncer_ ds; broadcaster_ := broadcaster_ ds; crdt_filter_ := crdt_filter_ ds;
     topicNames_ := {[topic]} ∪ topicNames_ ds; dagWorkerJobList := dagWorkerJobList ds |}.

Definition RegisterElementFilter (pattern : bytes) (f : Element -> option (list Element)) ds : bool * t :=
  let '(r, x) := CRDTDataFilter.RegisterElementFilter pattern f (crdt_filter_ ds) in
  (r, {| namespaceKey_ := namespaceKey_ ds; set_ := set_ ds; heads_ := heads_ ds;
         world_ := world_ ds; dagSyncer_ := dagSyncer_ ds; broadcaster_ := broadcaster_ ds;
         crdt_filter_ := x; topicNames_ := topicNames_ ds; dagWorkerJobList := dagWorkerJobList ds |}).

(** ** Deltas *)

(** A null pointer is [None]. *)
Definition DeltaMerge (aDelta1 aDelta2 : option Delta) : Delta :=
  let result := match aDelta1 with
                | Some d => d
                | None => {| elements := []; tombstones := []; priority := 0 |}
                end in
  match aDelta2 with
  | None => result
  | Some d => {| elements := elements result ++ elements d;
                 tombstones := tombstones result ++ tombstones d;
                 priority := if (priority result <? priority d)%Z then priority d
                             else priority result |}
  end.

Definition CreateDeltaToAdd (key value : bytes) : outcome Delta := CrdtSet.CreateDeltaToAdd key value.
Definition CreateDeltaToRemove (key : bytes) ds : outcome Delta :=
  CrdtSet.CreateDeltaToRemove (set_ ds) (world_ ds) key.

(** ** Reading *)

Definition GetKey (aKey : bytes) ds : outcome bytes := CrdtSet.GetElement (set_ ds) (world_ ds) aKey.
Definition HasKey (aKey : bytes) ds : outcome bool := CrdtSet.IsValueInSet (set_ ds) (world_ ds) aKey.
Definition GetKeysPrefix ds : outcome bytes := Ok (CrdtSet.KeysKey (set_ ds) [] ++ [slash]).
Definition GetValueSuffix : outcome bytes := Ok (slash :: CrdtSet.valueSuffix_).
Definition QueryKeyValues (aPrefix : bytes) ds : outcome (list (bytes * bytes)) :=
  CrdtSet.QueryElements (set_ ds) (world_ ds) aPrefix QUERY_VALUESUFFIX.
Definition QueryKeyValues3 (prefix_base middle_part remainder_prefix : bytes) ds
    : outcome (list (bytes * bytes)) :=
  CrdtSet.QueryElements3 (set_ ds) (world_ ds) prefix_base middle_part remainder_prefix
    QUERY_VALUESUFFIX.

(** ** Broadcasts *)

Fixpoint decode_heads (l : list bytes) : outcome (list CID) :=
  match l with
  | [] => Ok []
  | head :: l =>
      match cid_fromString head with
      | Err _ => Err error_code_zero
      | Ok cid => match decode_heads l with Err e => Err e | Ok cids => Ok (cid :: cids) end
      end
  end.

Definition DecodeBroadcast (buff : bytes) : outcome (list CID) :=
  match buff with
  | [] => Err error_code_zero
  | _ => match bcast_parse buff with
         | None => Err error_code_zero
         | Some heads => decode_heads heads
         end
  end.

(** A head whose text cannot be made is added with an empty identifier. *)
Definition EncodeBroadcast (heads : gset CID) : outcome bytes :=
  Ok (bcast_serialize
        ((fun head => match cid_toString head with Ok s => s | Err _ => [] end) <$> base.elements heads)).

Definition Broadcast (cids : gset CID) (topic : bytes) ds : outcome unit * t :=
  match broadcaster_ ds with
  | None => (Err error_code_zero, ds)
  | Some b =>
      if decide (cids = ∅) then (Ok tt, ds) else
      match EncodeBroadcast cids with
      | Err e => (Err e, ds)
      | Ok buffer =>
          let '(r, b) := bc_Broadcast buffer topic b in (r, with_broadcaster ds (Some b))
      end
  end.

Definition RebroadcastHeads ds : t :=
  let '(head_map, _) := CrdtHeads.GetList (heads_ ds) ∅ in
  fold_left (fun ds kv => (Broadcast kv.2 kv.1 ds).2) (map_to_list head_map) ds.

(** ** Processing a block *)

Fixpoint add_heads (topics : list bytes) (aRoot : CID) (aRootPrio : Z) ds : outcome unit * t :=
  match topics with
  | [] => (Ok tt, ds)
  | topic :: topics =>
      match CrdtHeads.Add aRoot aRootPrio topic (heads_ ds) (world_ ds) with
      | (Err e, h, w) => (Err e, with_heads ds h w)
      | (Ok _, h, w) => add_heads topics aRoot aRootPrio (with_heads ds h w)
      end
  end.

Fixpoint replace_heads (known_cids : list (CID * bytes)) (aRoot : CID) (aRootPrio : Z) ds
    : outcome unit * t :=
  match known_cids with
  | [] => (Ok tt, ds)
  | (cid, link_name) :: known_cids =>
      if CrdtHeads.IsHead (heads_ ds) cid link_name then
        match CrdtHeads.Replace cid aRoot aRootPrio link_name (heads_ ds) (world_ ds) with
        | (Err e, h, w) => (Err e, with_heads ds h w)
        | (Ok _, h, w) => replace_heads known_cids aRoot aRootPrio (with_heads ds h w)
        end
      else replace_heads known_cids aRoot aRootPrio ds
  end.

Fixpoint process_topics (topics : list bytes) (aNode : Node) (aRoot : CID) (aRootPrio : Z)
    (skip_if_visited : bool) (children : gset CID) ds : outcome (gset CID) * t :=
  match topics with
  | [] => (Ok children, ds)
  | topic :: topics =>
      let '(links_to_fetch, known_cids, x) :=
        sync_TraverseCIDsLinks 50 topic skip_if_visited aNode ∅ (dagSyncer_ ds) in
      match replace_heads (base.elements known_cids) aRoot aRootPrio (with_syncer ds x) with
      | (Err e, ds) => (Err e, ds)
      | (Ok _, ds) =>
          match (if decide (known_cids = ∅) then add_heads [topic] aRoot aRootPrio ds
                 else (Ok tt, ds)) with
          | (Err e, ds) => (Err e, ds)
          | (Ok _, ds) =>
              let fetch := filter (fun l => l.2 ∈ topicNames_ ds) links_to_fetch in
              process_topics topics aNode aRoot aRootPrio skip_if_visited
                (set_map fst fetch ∪ children) ds
          end
      end
  end.

Definition ProcessNode (aRoot : CID) (aRootPrio : Z) (aDelta : Delta) (aNode : Node)
    (filter_crdt : bool) ds : outcome (gset CID) * t :=
  let topics_to_update_cid := base.elements (node_getDestinations aNode) in
  match cid_toString (node_getCID aNode) with
  | Err e => (Err e, ds)
  | Ok strCid =>
      let hKey := HierarchicalKey strCid in
      let aDelta := if filter_crdt then CRDTDataFilter.FilterElementsOnDelta (crdt_filter_ ds) aDelta
                    else aDelta in
      let skip_if_visited := negb filter_crdt in
      match CrdtSet.Merge (set_ ds) (Some aDelta) hKey (world_ ds) with
      | (Err e, w) => (Err e, with_world ds w)
      | (Ok _, w) =>
          let ds := with_world ds w in
          match node_getLinks aNode with
          | [] => match add_heads topics_to_update_cid aRoot aRootPrio ds with
                  | (Err e, ds) => (Err e, ds)
                  | (Ok _, ds) => (Ok ∅, ds)
                  end
          | _ => process_topics topics_to_update_cid aNode aRoot aRootPrio skip_if_visited ∅ ds
          end
      end
  end.

(** ** Publishing *)

Definition PutBlock (aHeads : list (CID * bytes)) (aDelta : Delta) (topics : gset bytes)
    : outcome Node :=
  match node_createFromString (delta_serialize aDelta) with
  | None => Err error_code_zero
  | Some node =>
      let node := fold_left node_addDestination (base.elements topics) node in
      Ok (fold_left (fun node h =>
            match cid_toBytes h.1 with
            | Err _ => node
            | Ok cidByte => node_addLink node h.1 h.2 (Z.of_nat (length cidByte))
            end) aHeads node)
  end.

Definition heads_with_topics (head_map : gmap bytes (gset CID)) : list (CID * bytes) :=
  concat ((fun kv => (fun cid => (cid, kv.1)) <$> base.elements kv.2) <$> map_to_list head_map).

Definition set_priority (d : Delta) (p : Z) : Delta :=
  {| elements := elements d; tombstones := tombstones d; priority := p |}.

Definition AddDAGNode (aDelta : Delta) (topics : gset bytes) ds : outcome CID * t :=
  let '(head_map, height) := CrdtHeads.GetList (heads_ ds) topics in
  let height := u64 (height + 1) in
  let aDelta := set_priority aDelta height in
  match PutBlock (heads_with_topics head_map) aDelta topics with
  | Err e => (Err e, ds)
  | Ok node =>
      match ProcessNode (node_getCID node) height aDelta node false ds with
      | (Err e, ds) => (Err e, ds)
      | (Ok children, ds) =>
          if decide (children = ∅) then
            match sync_addNode node (dagSyncer_ ds) with
            | (Err e, x) => (Err e, with_syncer ds x)
            | (Ok _, x) =>
                let '(_, x) := sync_DeleteCIDBlock (node_getCID node) x in
                (Ok (node_getCID node), with_syncer ds x)
            end
          else (Ok (node_getCID node), ds)
      end
  end.

Definition Publish (aDelta : Delta) (topics : gset bytes) ds : outcome CID * t :=
  AddDAGNode aDelta topics ds.

(** The result of [Publish] is not looked at: the test after it is on the
    delta again. *)
Definition PutKey (aKey aValue : bytes) (topics : gset bytes) ds : outcome unit * t :=
  match CreateDeltaToAdd aKey aValue with
  | Err e => (Err e, ds)
  | Ok delta => let '(_, ds) := Publish delta topics ds in (Ok tt, ds)
  end.

Definition DeleteKey (aKey : bytes) (topics : gset bytes) ds : outcome unit * t :=
  match CreateDeltaToRemove aKey ds with
  | Err e => (Err e, ds)
  | Ok delta =>
      match tombstones delta with
      | [] => (Ok tt, ds)
      | _ => let '(_, ds) := Publish delta topics ds in (Ok tt, ds)
      end
  end.

(** ** Jobs *)

Definition parse_node (node : Node) : option Delta := delta_parse (node_content node).

Fixpoint push_jobs (aRootCID : CID) (rootPriority : Z) (rootNode : option Node) (children : list CID)
    ds : outcome unit * t :=
  match children with
  | [] => (Ok tt, ds)
  | cid :: children =>
      match sync_getNode cid (dagSyncer_ ds) with
      | (Err _, x) => (datastore_error GET_NODE, with_syncer ds x)
      | (Ok node, x) =>
          let ds := with_syncer ds x in
          match parse_node node with
          | None => (datastore_error NODE_DESERIALIZATION, ds)
          | Some delta =>
              push_jobs aRootCID rootPriority rootNode children
                (with_jobs ds (dagWorkerJobList ds ++
                   [{| rootCid_ := aRootCID; rootPriority_ := rootPriority; delta_ := delta;
                       node_ := node; root_node_ := rootNode |}]))
          end
      end
  end.

Definition SendNewJobs (aRootCID : CID) (aRootPriority : Z) (aChildren : gset CID)
    (aRootNode : option Node) ds : outcome unit * t :=
  match base.elements aChildren with
  | [] => (datastore_error INVALID_PARAM, ds)
  | first :: _ as children =>
      if (aRootPriority =? 0)%Z then
        match sync_getNode first (dagSyncer_ ds) with
        | (Err _, x) => (datastore_error FETCH_ROOT_NODE, with_syncer ds x)
        | (Ok node, x) =>
            let ds := with_syncer ds x in
            match parse_node node with
            | None => (datastore_error NODE_DESERIALIZATION, ds)
            | Some delta =>
                let rootNode :=
                  match aRootNode with
                  | Some n => Some n
                  | None => if decide (length children = 1 /\ first = aRootCID) then Some node else None
                  end in
                push_jobs aRootCID (priority delta) rootNode children ds
            end
        end
      else push_jobs aRootCID aRootPriority aRootNode children ds
  end.

Definition HandleBlock (aCid : CID) ds : outcome unit * t := SendNewJobs aCid 0 {[aCid]} None ds.

(** The identifiers of a broadcast that are neither stored nor asked for. *)
Fixpoint new_heads (l : list CID) ds : list CID * t :=
  match l with
  | [] => ([], ds)
  | cid :: l =>
      match sync_HasBlock cid (dagSyncer_ ds) with
      | (Err _, x) | (Ok true, x) => new_heads l (with_syncer ds x)
      | (Ok false, x) =>
          if sync_IsCIDInCache cid x then new_heads l (with_syncer ds x)
          else let '(r, ds) := new_heads l (with_syncer ds (sync_InitCIDBlock cid x)) in (cid :: r, ds)
      end
  end.

(** When the message cannot be decoded, the error branch reads the error of
    the result that holds the message. *)
Definition HandleNextIteration ds : outcome unit * t :=
  match broadcaster_ ds with
  | None => (Ok tt, ds)
  | Some b =>
      match bc_Next b with
      | (Err _, b) => (Ok tt, with_broadcaster ds (Some b))
      | (Ok buffer, b) =>
          let ds := with_broadcaster ds (Some b) in
          match DecodeBroadcast buffer with
          | Err _ => (Err undefined_behaviour, ds)
          | Ok cids =>
              let '(heads_to_process_cids, ds) := new_heads cids ds in
              (Ok tt, fold_left (fun ds cid => (HandleBlock cid ds).2) heads_to_process_cids ds)
          end
      end
  end.

(** The jobs with the root of the first one, and the others. *)
Definition take_jobs (l : list DagJob) : option (DagJob * list DagJob * list DagJob) :=
  match l with
  | [] => None
  | first_job :: l =>
      Some (first_job,
            first_job :: filter (fun j => rootCid_ j = rootCid_ first_job) l,
            filter (fun j => rootCid_ j <> rootCid_ first_job) l)
  end.

Fixpoint process_jobs (jobs : list DagJob) (current_root_cid : CID) (root_priority : Z)
    (root_node : option Node) (aggregated : gset CID) ds : option Node * gset CID * t :=
  match jobs with
  | [] => (root_node, aggregated, ds)
  | dagJob :: jobs =>
      match ProcessNode current_root_cid root_priority (delta_ dagJob) (node_ dagJob) true ds with
      | (Err _, ds) => process_jobs jobs current_root_cid root_priority root_node aggregated ds
      | (Ok children, ds) =>
          let aggregated := aggregated ∪ children in
          if decide (current_root_cid = node_getCID (node_ dagJob)) then
            process_jobs jobs current_root_cid root_priority
              (match root_node with Some n => Some n | None => Some (node_ dagJob) end) aggregated ds
          else
            let '(_, x) := sync_addNode (node_ dagJob) (dagSyncer_ ds) in
            let '(_, x) := sync_DeleteCIDBlock (node_getCID (node_ dagJob)) x in
            process_jobs jobs current_root_cid root_priority root_node aggregated (with_syncer ds x)
      end
  end.

Definition SendJobWorkerIteration ds : t :=
  match take_jobs (dagWorkerJobList ds) with
  | None => ds
  | Some (first_job, jobs_to_process, rest) =>
      let current_root_cid := rootCid_ first_job in
      let root_priority := rootPriority_ first_job in
      let '(root_node, aggregated, ds) :=
        process_jobs jobs_to_process current_root_cid root_priority (root_node_ first_job) ∅
          (with_jobs ds rest) in
      if decide (aggregated = ∅) then
        let x := match root_node with
                 | Some n => (sync_addNode n (dagSyncer_ ds)).2
                 | None => dagSyncer_ ds
                 end in
        with_syncer ds (sync_DeleteCIDBlock current_root_cid x).2
      else
        match SendNewJobs current_root_cid root_priority aggregated root_node ds with
        | (Err _, ds) => with_syncer ds (sync_DeleteCIDBlock current_root_cid (dagSyncer_ ds)).2
        | (Ok _, ds) => ds
        end
  end.

(** ** Synchronisation of the store *)

Definition SyncDatastore (aKeyList : list bytes) ds : outcome unit * t :=
  let '(r, w) := CrdtSet.DataStoreSync (set_ ds) aKeyList (world_ ds) in (r, with_world ds w).

(** For the key [/] the call is repeated with the namespace, without end when
    that is [/] as well. *)
Definition Sync (aKey : bytes) ds : outcome unit * t :=
  let aKey := if decide (aKey = [slash]) then namespaceKey_ ds else aKey in
  if decide (aKey = [slash]) then (Err undefined_behaviour, ds) else
  SyncDatastore
    [CrdtSet.ElemsPrefix (set_ ds) aKey; CrdtSet.TombsPrefix (set_ ds) aKey;
     CrdtSet.KeysKey (set_ ds) aKey; CrdtHeads.GetNamespaceKey (heads_ ds)] ds.
End datastore.
End CrdtDatastore.
