(* ===== verification/CrdtDatastoreProps.v ===== *)
(** * Concrete instances of the library interfaces

    Blocks as records, a Merkle-DAG service as a finite map, peers as numbers
    and a codec of deltas and broadcasts, each with the laws of its interface.
    The examples of the other files are evaluated with them.

    Set and heads share a store without touching each other's entries, so that
    a key that was put is read back, whatever happens to the heads. *)

From S2P Require Import Prelude Store HierarchicalKey CrdtSet CrdtHeads LruCache DagSyncer CrdtRefine ORSetFacts CrdtSetProps DagSyncerProps CrdtDataFilter CrdtDatastore.
Import HKey.

Module DemoDag.
#[export] Existing Instance DemoCid.text_cid.
#[export] Existing Instance DemoCid.text_cid_spec.

Record block := {
  blk_links : list (bytes * bytes); blk_destinations : gset bytes; blk_content : bytes
}.

(** The identifier of a block: its content and the identifiers it links. *)
Definition blk_cid (b : block) : bytes :=
  str "Qm" ++ filter (fun c => c <> slash) (blk_content b ++ concat (fst <$> blk_links b)).

#[export] Instance block_ipld : IPLDLib := {|
  Node := block;
  node_getCID := blk_cid : block -> CID;
  node_getLinks := blk_links : block -> list (CID * bytes);
  node_getDestinations := blk_destinations;
  node_content := blk_content;
  node_createFromRawBytes b :=
    Ok {| blk_links := []; blk_destinations := ∅; blk_content := b |};
  node_createFromString b :=
    Some {| blk_links := []; blk_destinations := ∅; blk_content := b |};
  node_addDestination n d :=
    {| blk_links := blk_links n; blk_destinations := {[d]} ∪ blk_destinations n;
       blk_content := blk_content n |};
  node_addLink n c name size :=
    {| blk_links := blk_links n ++ [(c, name)]; blk_destinations := blk_destinations n;
       blk_content := blk_content n |};
  cid_toBytes c := Ok c
|}.

#[export] Instance block_ipld_spec : IPLDSpec.
Proof. split; simpl; intros; by simplify_eq. Qed.

Lemma blk_cid_text b : cid_toString (blk_cid b : CID) = Ok (blk_cid b).
Proof.
  simpl. rewrite decide_True; [done|]. split; [done|]. unfold blk_cid.
  rewrite elem_of_app, list_elem_of_filter. intros [H|[? _]]; [|done].
  revert H. apply (bool_decide_unpack _). exact I.
Qed.

#[export] Instance map_dag : MerkleDag (gmap bytes block) := {|
  dag_getNode d c := ok_or error_code_zero (d !! (c : bytes));
  dag_addNode d n := (Ok tt, <[blk_cid n := n]> d);
  dag_removeNode d c := (Ok tt, delete (c : bytes) d)
|}.

#[export] Instance number_peers : PeerLib := {|
  PeerId := positive; Multihash := positive; peer_toMultihash p := p; Multiaddress := bytes
|}.

(** The syncer over this service, when the transport has no peer to ask. *)
#[export] Instance local_syncer : DAGSyncer (GraphsyncDAGSyncer.t (Dag := gmap bytes block)) := {|
  sync_HasBlock := GraphsyncDAGSyncer.HasBlock;
  sync_IsCIDInCache := GraphsyncDAGSyncer.IsCIDInCache;
  sync_InitCIDBlock := GraphsyncDAGSyncer.InitCIDBlock;
  sync_DeleteCIDBlock := GraphsyncDAGSyncer.DeleteCIDBlock;
  sync_addNode := GraphsyncDAGSyncer.addNode;
  sync_getNode cid s :=
    match GraphsyncDAGSyncer.getNode cid (Some IN_PROGRESS) [] s with
    | (Some r, s) => (r, s)
    | (None, s) => (Err (dagsyncer_error TIMED_OUT), s)
    end;
  sync_TraverseCIDsLinks := GraphsyncDAGSyncer.TraverseCIDsLinks
|}.

Definition empty_syncer : GraphsyncDAGSyncer.t (Dag := gmap bytes block) :=
  {| GraphsyncDAGSyncer.dagService_ := ∅; GraphsyncDAGSyncer.lru_cid_cache_ := LRUCIDCache.new;
     GraphsyncDAGSyncer.peer_registry_ := []; GraphsyncDAGSyncer.peer_index_ := ∅;
     GraphsyncDAGSyncer.routing_ := ∅; GraphsyncDAGSyncer.blacklist_ := ∅;
     GraphsyncDAGSyncer.started_ := true; GraphsyncDAGSyncer.has_graphsync := true;
     GraphsyncDAGSyncer.is_stopped_ := false |}.

(** Broadcasts are recorded; none arrive. *)
#[export] Instance log_broadcaster : Broadcaster (list (bytes * bytes)) := {|
  bc_Next b := (Err error_code_zero, b);
  bc_Broadcast m topic b := (Ok tt, b ++ [(topic, m)])
|}.

(** ** A codec *)

Definition element_tuple (e : Element) : bytes * bytes * bytes := (el_key e, el_id e, el_value e).
Definition tuple_element (x : bytes * bytes * bytes) : Element :=
  {| el_key := x.1.1; el_id := x.1.2; el_value := x.2 |}.

Definition delta_tuple (d : Delta) :=
  (element_tuple <$> elements d, element_tuple <$> tombstones d, priority d).

Lemma tuple_elements (l : list Element) : tuple_element <$> (element_tuple <$> l) = l.
Proof. rewrite <-list_fmap_compose. rewrite <-(list_fmap_id l) at 2. by apply list_fmap_ext; intros ? []. Qed.

#[export] Instance bit_codec : DeltaCodec := {|
  delta_serialize d := pos_bits (encode (delta_tuple d));
  delta_parse b :=
    p ← bits_pos b;
    x ← decode (A := list (bytes * bytes * bytes) * list (bytes * bytes * bytes) * Z) p;
    Some {| elements := tuple_element <$> x.1.1; tombstones := tuple_element <$> x.1.2;
            priority := x.2 |};
  bcast_serialize l := pos_bits (encode l);
  bcast_parse b := bits_pos b ≫= decode
|}.

#[export] Instance bit_codec_spec : DeltaCodecSpec.
Proof.
  split.
  - intros [es ts p] _. simpl. rewrite bits_pos_bits. simpl. rewrite decode_encode. simpl.
    by rewrite !tuple_elements.
  - intros l. simpl. rewrite bits_pos_bits. simpl. by rewrite decode_encode.
  - intros l _. simpl. by destruct (encode l).
Qed.
#[export] Existing Instance Demo.demo_platform.
#[export] Instance no_regex : RegexLib := {| regex_match key pattern := false |}.

Definition datastore : CrdtDatastore.t (DB := gmap bytes bytes)
    (S := GraphsyncDAGSyncer.t (Dag := gmap bytes block)) (B := list (bytes * bytes)) :=
  CrdtDatastore.new (str "/g") {| CrdtSet.dataStore_ := Some ∅; CrdtSet.hook_events := [] |}
    empty_syncer [].
End DemoDag.

(** ** Routes of a syncer without peers *)

Section routes.
Import DemoDag GraphsyncDAGSyncer.

Definition peer : @PeerId number_peers := 2%positive.
Definition wanted_cid : @CID DemoCid.text_cid := str "Qmx".
Definition routed := AddRoute wanted_cid peer [str "/ip4"] empty_syncer.

Lemma empty_routes_ok : routes_ok empty_syncer.
Proof.
  split.
  - intros p k. split; [intros H|intros [e H]]; discriminate H.
  - intros c k H. discriminate H.
Qed.

Lemma AddRoute_GetRoute_witness : GetRoute wanted_cid routed = Ok (peer, [str "/ip4"]).
Proof. exact (proj1 (proj2 (AddRoute_GetRoute _ _ _ empty_syncer empty_routes_ok))). Defined.

Lemma BlackListPeer_routes_witness : exists s',
  BlackListPeer peer 100 105 routed = (Ok tt, s') /\
  route_peer (GetRoute wanted_cid s') = None /\ (IsOnBlackList peer 105 s').1 = Ok true.
Proof.
  destruct (BlackListPeer_routes peer 100 105 routed) as (s' & Hs' & Hr & Hb);
    [apply AddRoute_ok, empty_routes_ok|reflexivity|lia|lia|].
  exists s'. split; [exact Hs'|]. split; [|exact Hb]. rewrite (Hr wanted_cid). reflexivity.
Defined.
End routes.

(** ** Correctness of the CRDT datastore *)

Import HKey ORSet.
Import CrdtDatastore.

#[local] Arguments CrdtSet.Merge : simpl never.
#[local] Arguments ORSet.merge : simpl never.

(** ** Entries under a namespace *)

Lemma removelast_app_ne {A} (a b : list A) : b <> [] -> removelast (a ++ b) = a ++ removelast b.
Proof. apply removelast_app. Qed.

Lemma HierarchicalKey_prefix a c : wf_key a -> a `prefix_of` c -> a `prefix_of` HierarchicalKey c.
Proof.
  intros [Hh Hl] [x ->]. destruct a as [|y a]; [done|]. injection Hh as ->.
  unfold HierarchicalKey. simpl ((slash :: a) ++ x). cbv iota beta.
  destruct (decide (slash = slash)) as [_|]; [|done].
  change (slash :: a ++ x) with ((slash :: a) ++ x).
  case_decide as Hd; [|by apply prefix_app_r]. destruct x as [|z x].
  - rewrite app_nil_r in Hd. by destruct Hd.
  - rewrite removelast_app_ne by done. by apply prefix_app_r.
Qed.

Lemma ChildString_prefix a b c : wf_key a -> a `prefix_of` b -> a `prefix_of` ChildString b c.
Proof.
  intros Ha Hp. unfold ChildString. apply HierarchicalKey_prefix; [done|].
  by apply prefix_app_r.
Qed.

(** Only entries under [ns] may differ. *)
Definition frame (ns : bytes) (m m' : gmap bytes bytes) : Prop :=
  forall key, ~ ns `prefix_of` key -> m' !! key = m !! key.

Lemma frame_refl ns m : frame ns m m.
Proof. done. Qed.

Lemma frame_trans ns m1 m2 m3 : frame ns m1 m2 -> frame ns m2 m3 -> frame ns m1 m3.
Proof. intros H1 H2 key Hk. by rewrite H2, H1. Qed.

Lemma frame_insert ns m key v : ns `prefix_of` key -> frame ns m (<[key := v]> m).
Proof. intros Hp key' Hk. rewrite lookup_insert_ne; [done|]. by intros <-. Qed.

Lemma frame_batch ns b m : Forall (fun op => ns `prefix_of` op_key op) b -> frame ns m (batch_apply b m).
Proof.
  intros Hb key Hk. apply batch_apply_other. eapply Forall_impl; [exact Hb|].
  intros op Hop <-. by apply Hk.
Qed.

Section frames.
Context {DB : Type} `{!RocksDBLib DB, !RocksDBHealthy DB}.
Context {boost : BoostLib} {plat : Platform} {cidlib : CIDLib}.
Implicit Types (w : CrdtSet.World DB).

(** The stores of two worlds differ only under [ns]. *)
Definition world_frame (ns : bytes) w w' : Prop :=
  match CrdtSet.dataStore_ w, CrdtSet.dataStore_ w' with
  | Some db, Some db' => frame ns (db_view db) (db_view db')
  | None, None => True
  | _, _ => False
  end.

Lemma world_frame_refl ns w : world_frame ns w w.
Proof. unfold world_frame. by destruct (CrdtSet.dataStore_ w). Qed.

Lemma world_frame_trans ns w1 w2 w3 :
  world_frame ns w1 w2 -> world_frame ns w2 w3 -> world_frame ns w1 w3.
Proof.
  unfold world_frame. destruct (CrdtSet.dataStore_ w1), (CrdtSet.dataStore_ w2),
    (CrdtSet.dataStore_ w3); try done. apply frame_trans.
Qed.

Lemma world_frame_commit ns b w db r db' :
  CrdtSet.dataStore_ w = Some db -> RocksDb.batch_commit b db = (r, db') ->
  Forall (fun op => ns `prefix_of` op_key op) b -> world_frame ns w (CrdtSet.set_db w db').
Proof using All.
  intros Hdb Hc Hb. unfold world_frame. rewrite Hdb. simpl.
  destruct (RocksDb.batch_commit_spec db b) as (db2 & H2 & Hv). rewrite H2 in Hc.
  injection Hc as <- <-. rewrite Hv. by apply frame_batch.
Qed.

(** ** The heads write under their namespace *)

Lemma head_key_under h topic cid key :
  wf_key (CrdtHeads.namespaceKey_ h) -> CrdtHeads.GetKey h topic cid = Ok key ->
  CrdtHeads.namespaceKey_ h `prefix_of` key.
Proof.
  intros Hns. unfold CrdtHeads.GetKey. destruct (cid_toString cid); [|done]. intros [= <-].
  by apply ChildString_prefix, ChildString_prefix.
Qed.

Lemma Add_frame cid height topic h w r h' w' :
  wf_key (CrdtHeads.namespaceKey_ h) ->
  CrdtHeads.Add cid height topic h w = (r, h', w') ->
  world_frame (CrdtHeads.namespaceKey_ h) w w' /\
  CrdtHeads.namespaceKey_ h' = CrdtHeads.namespaceKey_ h.
Proof using All.
  intros Hns. unfold CrdtHeads.Add, CrdtHeads.Write.
  destruct (CrdtSet.dataStore_ w) as [db|] eqn:Hdb; [|intros [= _ <- <-]; split; [apply world_frame_refl|done]].
  destruct (CrdtHeads.GetKey h topic cid) as [key|] eqn:Hk;
    [|intros [= _ <- <-]; split; [apply world_frame_refl|done]].
  apply head_key_under in Hk; [|done].
  destruct (RocksDb.batch_commit _ db) as [[|] db'] eqn:Hc; intros [= _ <- <-];
    (split; [|done]); eapply world_frame_commit; try done; by apply Forall_singleton.
Qed.

Lemma Replace_frame old new height topic h w r h' w' :
  wf_key (CrdtHeads.namespaceKey_ h) ->
  CrdtHeads.Replace old new height topic h w = (r, h', w') ->
  world_frame (CrdtHeads.namespaceKey_ h) w w' /\
  CrdtHeads.namespaceKey_ h' = CrdtHeads.namespaceKey_ h.
Proof using All.
  intros Hns. unfold CrdtHeads.Replace, CrdtHeads.Write, CrdtHeads.Delete.
  destruct (CrdtSet.dataStore_ w) as [db|] eqn:Hdb; [|intros [= _ <- <-]; split; [apply world_frame_refl|done]].
  destruct (CrdtHeads.GetKey h topic new) as [key|] eqn:Hk;
    [|intros [= _ <- <-]; split; [apply world_frame_refl|done]].
  destruct (CrdtHeads.GetKey h topic old) as [key'|] eqn:Hk';
    [|intros [= _ <- <-]; split; [apply world_frame_refl|done]].
  apply head_key_under in Hk, Hk'; [|done..].
  destruct (RocksDb.batch_commit _ db) as [[|] db'] eqn:Hc; intros [= _ <- <-];
    (split; [|done]); eapply world_frame_commit; try done;
    apply Forall_cons; (split; [done|by apply Forall_singleton]).
Qed.

(** ** The set is not changed by writes elsewhere *)

Lemma set_keys_under ns k id :
  ns `prefix_of` elem_key ns k id /\ ns `prefix_of` tomb_key ns k id /\
  ns `prefix_of` value_key ns k /\ ns `prefix_of` prio_key ns k.
Proof. repeat split; by apply prefix_app_r. Qed.

Lemma repr_frame ns ns' m m' a :
  (forall key, ns `prefix_of` key -> ~ ns' `prefix_of` key) ->
  frame ns' m m' -> repr ns m a -> repr ns m' a.
Proof.
  intros Hdis Hf Hr.
  assert (forall key, ns `prefix_of` key -> m' !! key = m !! key) as Heq by (intros; apply Hf; auto).
  split.
  - intros k id. rewrite Heq by apply set_keys_under. apply (repr_elems _ _ _ Hr).
  - intros k id. rewrite Heq by apply set_keys_under. apply (repr_tombs _ _ _ Hr).
  - intros k. rewrite Heq by apply (set_keys_under ns k []). apply (repr_value _ _ _ Hr).
  - intros k. rewrite Heq by apply (set_keys_under ns k []). apply (repr_prio _ _ _ Hr).
  - intros key Hkey Hp. apply (repr_only _ _ _ Hr); [|done]. rewrite <-Heq; [done|].
    etrans; [|exact Hp]. by apply prefix_app_r.
  - apply (repr_valid _ _ _ Hr).
Qed.

Lemma replica_frame s ns' w w' a :
  (forall key, CrdtSet.namespaceKey_ s `prefix_of` key -> ~ ns' `prefix_of` key) ->
  world_frame ns' w w' -> replica s w a -> replica s w' a.
Proof.
  intros Hdis Hf (Hns & (db & Hdb & Hr) & Hl). split; [done|]. split; [|done].
  unfold world_frame in Hf. rewrite Hdb in Hf.
  destruct (CrdtSet.dataStore_ w') as [db'|] eqn:Hdb'; [|done].
  exists db'. split; [done|]. by eapply repr_frame.
Qed.
End frames.

Lemma sibling_disjoint ns key :
  (ns ++ str "/s") `prefix_of` key -> ~ (ns ++ str "/h") `prefix_of` key.
Proof.
  intros [x ->] [y Hy]. rewrite <-!app_assoc in Hy. by apply (inj (app ns)) in Hy.
Qed.

Lemma HierarchicalKey_name s : wf_name s -> HierarchicalKey s = slash :: s.
Proof.
  intros Hs. pose proof (wf_key_name s Hs) as [_ Hl]. destruct Hs as [Hne Hs].
  destruct s as [|c s]; [done|]. unfold HierarchicalKey. cbv iota beta.
  rewrite (decide_False (P := c = slash)) by set_solver.
  rewrite decide_False; [done|]. intros [_ H]. by apply Hl.
Qed.

Section props.
Context {DB : Type} `{!RocksDBLib DB, !RocksDBHealthy DB}.
Context {boost : BoostLib} {boostspec : BoostSpec} {plat : Platform} {regexlib : RegexLib}.
Context {codec : DeltaCodec} {cidlib : CIDLib} {cidspec : CIDSpec} {ipld : IPLDLib}.
Context {S : Type} {syncer : DAGSyncer S} {B : Type} {bcaster : Broadcaster B}.
Implicit Types (ds : t (DB := DB) (S := S) (B := B)) (a : ORSet.t).

(** The parts of a datastore are laid out as the constructor does, and its set
    represents [a]. *)
Record holds ds a : Prop := {
  holds_ns : wf_key (namespaceKey_ ds);
  holds_set : CrdtSet.namespaceKey_ (set_ ds) = namespaceKey_ ds ++ str "/s";
  holds_heads : CrdtHeads.namespaceKey_ (heads_ ds) = namespaceKey_ ds ++ str "/h";
  holds_replica : replica (set_ ds) (world_ ds) a
}.

(** The same set over a store that may differ in the entries of the heads. *)
Definition same_set ds ds' : Prop :=
  set_ ds' = set_ ds /\ namespaceKey_ ds' = namespaceKey_ ds /\
  CrdtHeads.namespaceKey_ (heads_ ds') = CrdtHeads.namespaceKey_ (heads_ ds) /\
  world_frame (CrdtHeads.namespaceKey_ (heads_ ds)) (world_ ds) (world_ ds').

Lemma same_set_refl ds : same_set ds ds.
Proof. repeat split. apply world_frame_refl. Qed.

Lemma same_set_trans ds1 ds2 ds3 : same_set ds1 ds2 -> same_set ds2 ds3 -> same_set ds1 ds3.
Proof.
  intros (? & ? & Hh & ?) (? & ? & ? & H2). rewrite Hh in *. split; [congruence|].
  split; [congruence|]. split; [congruence|]. by eapply world_frame_trans.
Qed.

Lemma wf_key_heads ds a : holds ds a -> wf_key (CrdtHeads.namespaceKey_ (heads_ ds)).
Proof.
  intros H. rewrite (holds_heads _ _ H). apply wf_key_app; [apply H|].
  by apply (bool_decide_unpack _).
Qed.

Lemma holds_same ds ds' a : holds ds a -> same_set ds ds' -> holds ds' a.
Proof.
  intros [Hns Hs Hh Hr] (Hs' & Hns' & Hh' & Hf). split; rewrite ?Hs', ?Hns', ?Hh'; try done.
  eapply replica_frame; [|exact Hf|done]. rewrite Hs, Hh. intros key. apply sibling_disjoint.
Qed.

Lemma add_heads_same topics root prio ds a :
  holds ds a -> same_set ds (add_heads topics root prio ds).2.
Proof using All.
  revert ds. induction topics as [|topic topics IH]; intros ds Hds; simpl; [apply same_set_refl|].
  destruct (CrdtHeads.Add root prio topic (heads_ ds) (world_ ds)) as [[r h] w] eqn:E.
  apply Add_frame in E as [Hf Hn]; [|by eapply wf_key_heads].
  assert (same_set ds (with_heads ds h w)) as Hsame by (by repeat split).
  destruct r; [|done]. eapply same_set_trans; [exact Hsame|]. apply IH. by eapply holds_same.
Qed.

Lemma replace_heads_same known root prio ds a :
  holds ds a -> same_set ds (replace_heads known root prio ds).2.
Proof using All.
  revert ds. induction known as [|[cid name] known IH]; intros ds Hds; simpl; [apply same_set_refl|].
  destruct (CrdtHeads.IsHead (heads_ ds) cid name); [|by apply IH].
  destruct (CrdtHeads.Replace cid root prio name (heads_ ds) (world_ ds)) as [[r h] w] eqn:E.
  apply Replace_frame in E as [Hf Hn]; [|by eapply wf_key_heads].
  assert (same_set ds (with_heads ds h w)) as Hsame by (by repeat split).
  destruct r; [|done]. eapply same_set_trans; [exact Hsame|]. apply IH. by eapply holds_same.
Qed.

Lemma process_topics_same topics node root prio skip children ds a :
  holds ds a -> same_set ds (process_topics topics node root prio skip children ds).2.
Proof using All.
  revert children ds. induction topics as [|topic topics IH]; intros children ds Hds;
    cbn [process_topics]; [apply same_set_refl|].
  destruct (sync_TraverseCIDsLinks _ _ _ _ _ _) as [[F V] x].
  assert (same_set ds (with_syncer ds x)) as Hx by (repeat split; apply world_frame_refl).
  pose proof (replace_heads_same (base.elements V) root prio (with_syncer ds x) a
    ltac:(by eapply holds_same)) as Hr.
  destruct (replace_heads _ _ _ _) as [r ds1]. simpl in Hr.
  assert (same_set ds ds1) as H1 by (eapply same_set_trans; [exact Hx|exact Hr]).
  destruct r; [|done].
  assert (same_set ds (if decide (V = ∅) then add_heads [topic] root prio ds1 else (Ok tt, ds1)).2) as H2.
  { eapply same_set_trans; [exact H1|]. case_decide; [|apply same_set_refl].
    eapply add_heads_same. by eapply holds_same. }
  destruct (if decide (V = ∅) then add_heads [topic] root prio ds1 else (Ok tt, ds1)) as [r ds2].
  simpl in H2. destruct r; [|done].
  eapply same_set_trans; [exact H2|]. apply IH. by eapply holds_same.
Qed.

(** A processed block has its delta merged, whatever becomes of the heads. *)
Lemma ProcessNode_holds root prio (d : Delta) node (filter_crdt : bool) ds a a' s :
  holds ds a -> cid_toString (node_getCID node) = Ok s ->
  let d' := if filter_crdt then CRDTDataFilter.FilterElementsOnDelta (crdt_filter_ ds) d else d in
  wf_delta d' -> merge d' (slash :: s) a = Some a' ->
  holds (ProcessNode root prio d node filter_crdt ds).2 a'.
Proof using All.
  intros Hds Hs d' Hwf Hm. pose proof (cid_text _ _ Hs) as Hname.
  unfold ProcessNode. rewrite Hs, HierarchicalKey_name by done. fold d'.
  destruct Hds as [Hns Hset Hh (Hwns & Hw & Hl)].
  pose proof (Merge_repr (set_ ds) (world_ ds) a d' (slash :: s) Hwns Hw
    ltac:(by exists s) Hwf) as Hmr.
  rewrite Hm in Hmr. destruct Hmr as (w' & -> & Hw').
  assert (holds (with_world ds w') a') as Hds'.
  { split; [done..|]. split; [done|]. split; [done|]. by apply (merge_sets _ _ _ _ Hm Hl). }
  destruct (node_getLinks node).
  - pose proof (add_heads_same (base.elements (node_getDestinations node)) root prio _ _ Hds') as H1.
    destruct (add_heads _ _ _ _) as [[] ds1]; by eapply holds_same.
  - eapply holds_same; [exact Hds'|]. by eapply process_topics_same.
Qed.

Lemma AddDAGNode_holds d topics ds a a' node s :
  let '(head_map, height) := CrdtHeads.GetList (heads_ ds) topics in
  let d' := set_priority d (u64 (height + 1)) in
  holds ds a -> PutBlock (heads_with_topics head_map) d' topics = Ok node ->
  cid_toString (node_getCID node) = Ok s -> wf_delta d' -> merge d' (slash :: s) a = Some a' ->
  holds (AddDAGNode d topics ds).2 a'.
Proof using All.
  unfold AddDAGNode. destruct (CrdtHeads.GetList (heads_ ds) topics) as [head_map height].
  intros Hds Hput Hs Hwf Hm. set (d' := set_priority d (u64 (height + 1))) in *. rewrite Hput.
  pose proof (ProcessNode_holds (node_getCID node) (u64 (height + 1)) d' node false ds a a' s
    Hds Hs Hwf Hm) as Hp.
  destruct (ProcessNode _ _ _ _ _ _) as [[children|] ds1]; simpl in *; [|done].
  case_decide; [|done]. assert (forall x, holds (with_syncer ds1 x) a') as Hx.
  { intros x. eapply holds_same; [exact Hp|]. repeat split. apply world_frame_refl. }
  destruct (sync_addNode node (dagSyncer_ ds1)) as [[] x1]; [|apply Hx].
  destruct (sync_DeleteCIDBlock (node_getCID node) x1) as [? x2]. apply Hx.
Qed.

(** What is read after a put: the join of the register of the key with the
    value put, at the height above the heads of the topics. *)
Lemma PutKey_joins k v topics ds a node s head_map height :
  CrdtHeads.GetList (heads_ ds) topics = (head_map, height) ->
  let d := {| elements := [Build_Element k [] v]; tombstones := []; priority := u64 (height + 1) |} in
  holds ds a -> wf_key k -> no_ancestor a k -> (0 <= height < u64_max)%Z ->
  PutBlock (heads_with_topics head_map) d topics = Ok node ->
  cid_toString (node_getCID node) = Ok s -> (k, slash :: s) ∉ os_tombs a ->
  exists ds', PutKey k v topics ds = (Ok tt, ds') /\
    GetKey k ds' = Ok (reg_join (os_reg a !! k) (height + 1, v)%Z).2 /\ HasKey k ds' = Ok true.
Proof using All.
  intros EL d Hds Hk Hanc Hh Hput Hs Hnt.
  unfold PutKey. simpl. unfold Publish. set (d0 := {| elements := _; tombstones := _; priority := 0 |}).
  pose proof (AddDAGNode_holds d0 topics ds a) as Hadd. rewrite EL in Hadd.
  assert (u64 (height + 1) = (height + 1)%Z) as Hu.
  { apply u64_id. unfold is_u64, u64_max in *. lia. }
  assert (wf_delta d) as Hwf.
  { split; simpl; [by apply Forall_singleton|apply NoDup_singleton|done|apply u64_range]. }
  set (r := reg_join (os_reg a !! k) (height + 1, v)%Z).
  assert (merge d (slash :: s) a = Some (set_reg (add_elem a k (slash :: s)) k r)) as Hm.
  { unfold merge. simpl. rewrite put_tombs_nil. unfold put_elem, set_value. simpl.
    rewrite decide_False by done. rewrite Hu, reg_put_join by lia. done. }
  specialize (Hadd _ node s Hds Hput Hs Hwf Hm).
  destruct (AddDAGNode d0 topics ds) as [res ds']. simpl in Hadd. exists ds'. split; [done|].
  set (a' := set_reg _ _ _) in *.
  assert (no_ancestor a' k) as Hanc' by (by apply (no_ancestor_add a a' k (slash :: s))).
  assert (in_set a' k) as Hin.
  { apply in_set_live; [apply Hadd|]. exists (slash :: s). simpl. split; [set_solver|done]. }
  unfold GetKey, HasKey.
  rewrite (GetElement_replica _ _ a'), (IsValueInSet_replica _ _ a') by first [done|apply Hadd].
  rewrite bool_decide_eq_true_2 by done. split; [|done].
  unfold get_spec. unfold a' at 1. simpl. rewrite lookup_insert_eq. by rewrite decide_True.
Qed.

(** Read your writes: after [PutKey] a key is in the store with the value
    put, when no register of the key is ahead of the heads of the topics it is
    published to, the block is new, and its identifier has a text form. *)
Theorem PutKey_GetKey k v topics ds a node s :
  let '(head_map, height) := CrdtHeads.GetList (heads_ ds) topics in
  let d := {| elements := [Build_Element k [] v]; tombstones := []; priority := u64 (height + 1) |} in
  holds ds a -> wf_key k -> no_ancestor a k -> (0 <= height < u64_max)%Z ->
  (forall p v0, os_reg a !! k = Some (p, v0) -> (p <= height)%Z) ->
  PutBlock (heads_with_topics head_map) d topics = Ok node ->
  cid_toString (node_getCID node) = Ok s -> (k, slash :: s) ∉ os_tombs a ->
  exists ds', PutKey k v topics ds = (Ok tt, ds') /\
    GetKey k ds' = Ok v /\ HasKey k ds' = Ok true.
Proof using All.
  destruct (CrdtHeads.GetList (heads_ ds) topics) as [head_map height] eqn:EL.
  intros d Hds Hk Hanc Hh Hreg Hput Hs Hnt.
  replace (Ok v) with (Ok (reg_join (os_reg a !! k) (height + 1, v)%Z).2); [by eapply PutKey_joins|].
  unfold reg_join. destruct (os_reg a !! k) as [[p v0]|] eqn:E; [|done]. simpl.
  specialize (Hreg p v0 eq_refl).
  destruct (Z.ltb_spec (height + 1) p); [lia|]. by destruct (Z.eqb_spec (height + 1) p); [lia|].
Qed.

(** A put can be lost in silence: when the register of the key has a
    priority above the next height of the topics given, which happens when the
    key was last put through other topics, [PutKey] reports success and the
    key still reads as the old value. *)
Theorem PutKey_behind_is_lost k v p v0 topics ds a node s :
  let '(head_map, height) := CrdtHeads.GetList (heads_ ds) topics in
  let d := {| elements := [Build_Element k [] v]; tombstones := []; priority := u64 (height + 1) |} in
  holds ds a -> wf_key k -> no_ancestor a k -> (0 <= height < u64_max)%Z ->
  os_reg a !! k = Some (p, v0) -> (height + 1 < p)%Z ->
  PutBlock (heads_with_topics head_map) d topics = Ok node ->
  cid_toString (node_getCID node) = Ok s -> (k, slash :: s) ∉ os_tombs a ->
  exists ds', PutKey k v topics ds = (Ok tt, ds') /\
    GetKey k ds' = Ok v0 /\ HasKey k ds' = Ok true.
Proof using All.
  destruct (CrdtHeads.GetList (heads_ ds) topics) as [head_map height] eqn:EL.
  intros d Hds Hk Hanc Hh Hreg Hp Hput Hs Hnt.
  replace (Ok v0) with (Ok (reg_join (os_reg a !! k) (height + 1, v)%Z).2); [by eapply PutKey_joins|].
  rewrite Hreg. simpl. by destruct (Z.ltb_spec (height + 1) p); [|lia].
Qed.

(** [PutKey] reports success whatever the outcome of publishing: the test
    after [Publish] is on the delta. *)
Lemma PutKey_swallows_errors k v topics ds :
  (PutKey k v topics ds).1 = Ok tt.
Proof. unfold PutKey. simpl. by destruct (Publish _ _ _). Qed.

(** [DeleteKey] takes the key out: afterwards [HasKey] is false, when the
    block of the removal could be made and its identifier has a text form. *)
Theorem DeleteKey_HasKey k topics ds a :
  let '(head_map, height) := CrdtHeads.GetList (heads_ ds) topics in
  holds ds a -> wf_key k -> no_ancestor a k ->
  (forall l, exists node s,
     PutBlock (heads_with_topics head_map)
       {| elements := []; tombstones := l; priority := u64 (height + 1) |} topics = Ok node /\
     cid_toString (node_getCID node) = Ok s) ->
  exists ds', DeleteKey k topics ds = (Ok tt, ds') /\ HasKey k ds' = Ok false.
Proof using All.
  destruct (CrdtHeads.GetList (heads_ ds) topics) as [head_map height] eqn:EL.
  intros Hds Hk Hanc Hput. pose proof (holds_replica _ _ Hds) as Hrep.
  pose proof (replica_valid _ _ _ Hrep) as Hv.
  destruct (CreateDeltaToRemove_replica _ _ _ k Hrep Hk Hanc) as (l & Hc & Hl).
  unfold DeleteKey, CreateDeltaToRemove. rewrite Hc. simpl.
  assert (forall id, ~ in_set (put_tombs id l a) k) as Hout.
  { intros id Hin. by apply (removal_in_set a k l id k Hv Hl) in Hin as [? _]. }
  destruct l as [|e l'].
  - exists ds. split; [done|]. unfold HasKey. rewrite (IsValueInSet_replica _ _ a) by done.
    f_equal. apply bool_decide_eq_false_2. rewrite <-(put_tombs_nil [] a). apply Hout.
  - destruct (Hput (e :: l')) as (node & s & Hn & Hs). unfold Publish.
    set (d0 := {| elements := _; tombstones := _; priority := 0 |}).
    pose proof (AddDAGNode_holds d0 topics ds a (put_tombs (slash :: s) (e :: l') a) node s) as Hadd.
    rewrite EL in Hadd.
    assert (wf_delta (set_priority d0 (u64 (height + 1)))) as Hwf.
    { destruct (removal_wf a k (e :: l') Hk Hv Hl). split; try done. apply u64_range. }
    specialize (Hadd Hds Hn Hs Hwf eq_refl).
    destruct (AddDAGNode d0 topics ds) as [r ds']. simpl in Hadd. exists ds'. split; [done|].
    unfold HasKey. rewrite (IsValueInSet_replica _ _ _ k (holds_replica _ _ Hadd)) by done.
    f_equal. apply bool_decide_eq_false_2, Hout.
Qed.

(** [Sync] does not synchronise: for a key that is not [/] it asks the set
    to write a value for its own prefix of additions with the priority of the
    heads' namespace, which is 0, and reports [NOT_FOUND] for every store that
    has no such value. *)
Theorem Sync_reports_not_found k ds a :
  holds ds a -> wf_key k ->
  let sk := CrdtSet.ElemsPrefix (set_ ds) k in
  let hk := CrdtHeads.namespaceKey_ (heads_ ds) in
  os_reg a !! sk = None -> os_reg a !! hk = None ->
  (CrdtSet.InTombsKeyID (set_ ds) (world_ ds) sk (CrdtSet.TombsPrefix (set_ ds) k)) = Ok false ->
  Sync k ds = (Err (database_error NOT_FOUND), ds).
Proof using All.
  intros Hds Hk sk hk Hsk Hhk Ht. pose proof (wf_key_heads _ _ Hds) as Hwh.
  destruct Hds as [Hns Hs Hh (Hsns & Hw & _)]. pose proof Hw as (db & Hdb & Hr).
  assert (wf_key sk) as Hwsk.
  { unfold sk. rewrite (ElemsPrefix_eq _ Hsns) by done. by apply (prefix_key_wf _ Hsns "s"%char). }
  assert (k <> [slash]) as Hne by (intros ->; by destruct Hk).
  unfold Sync. rewrite !(decide_False (P := k = [slash])) by done.
  unfold SyncDatastore, CrdtSet.DataStoreSync. rewrite Hdb. unfold CrdtHeads.GetNamespaceKey.
  rewrite (GetPriority_repr (set_ ds) Hsns (world_ ds) a) by done. fold hk. rewrite Hhk. simpl.
  unfold CrdtSet.SetValue. rewrite Hdb. unfold CrdtSet.SetValueBatch. fold sk. rewrite Ht.
  rewrite (GetPriority_repr (set_ ds) Hsns (world_ ds) a), Hsk by done. simpl.
  rewrite (GetValue_repr (set_ ds) Hsns (world_ ds) a), Hsk by done. simpl.
  by destruct ds.
Qed.

(** A block whose links are all known but none of them a head, a fork of
    the DAG below the heads, is merged but becomes no head: the heads stay as
    they were, so that neither later blocks nor broadcasts lead to it. *)
Theorem fork_becomes_no_head root prio d node filter_crdt ds topic F V x :
  node_getDestinations node = {[topic]} -> node_getLinks node <> [] ->
  sync_TraverseCIDsLinks 50 topic (negb filter_crdt) node ∅ (dagSyncer_ ds) = (F, V, x) ->
  V <> ∅ -> (forall l, l ∈ V -> CrdtHeads.IsHead (heads_ ds) l.1 l.2 = false) ->
  heads_ (ProcessNode root prio d node filter_crdt ds).2 = heads_ ds.
Proof.
  intros Hdest Hlinks Htr HV Hno. unfold ProcessNode. rewrite Hdest, elements_singleton.
  destruct (cid_toString (node_getCID node)) as [s|]; [|done].
  destruct (CrdtSet.Merge _ _ _ _) as [[] w]; [|done].
  destruct (node_getLinks node) as [|l0 ls]; [done|]. cbn [process_topics].
  change (dagSyncer_ (with_world ds w)) with (dagSyncer_ ds). rewrite Htr.
  assert (forall ds' l, heads_ ds' = heads_ ds -> (forall p, p ∈ l -> p ∈ V) ->
    replace_heads l root prio ds' = (Ok tt, ds')) as Hrep.
  { intros ds' l Hh. induction l as [|[c n] l IH]; intros Hl; simpl; [done|].
    pose proof (Hno (c, n) ltac:(apply Hl, elem_of_cons; by left)) as Hcn. simpl in Hcn.
    rewrite Hh, Hcn.
    apply IH. intros p Hp. apply Hl, elem_of_cons. by right. }
  rewrite Hrep; [|done|by intros p ?%elem_of_elements].
  by rewrite decide_False.
Qed.

(** ** Blocks and messages *)

Section codec.
Context {ipldspec : IPLDSpec} {codecspec : DeltaCodecSpec}.

Lemma add_destinations n l :
  let n' := fold_left node_addDestination l n in
  node_getLinks n' = node_getLinks n /\ node_content n' = node_content n /\
  node_getDestinations n' = list_to_set l ∪ node_getDestinations n.
Proof using ipldspec.
  revert n. induction l as [|d l IH]; intros n; simpl; [by rewrite union_empty_l_L|].
  destruct (IH (node_addDestination n d)) as (-> & -> & ->).
  rewrite addDestination_links, addDestination_content, addDestination_destinations.
  split; [done|]. split; [done|]. by rewrite (assoc_L (∪)), (comm_L (∪) (list_to_set l)).
Qed.

Lemma add_links n l :
  Forall (fun h => is_Some (match cid_toBytes h.1 with Ok b => Some b | Err _ => None end)) l ->
  let n' := fold_left (fun node h =>
    match cid_toBytes h.1 with
    | Err _ => node
    | Ok cidByte => node_addLink node h.1 h.2 (Z.of_nat (length cidByte))
    end) l n in
  node_getLinks n' = node_getLinks n ++ l /\ node_content n' = node_content n /\
  node_getDestinations n' = node_getDestinations n.
Proof using ipldspec.
  intros Hl. revert n. induction Hl as [|[c name] l Hc _ IH]; intros n; simpl in *.
  { by rewrite app_nil_r. }
  destruct (cid_toBytes c) as [b|]; [|by destruct Hc].
  destruct (IH (node_addLink n c name (Z.of_nat (length b)))) as (-> & -> & ->).
  rewrite addLink_links, addLink_content, addLink_destinations, <-app_assoc. done.
Qed.

(** The block made for a delta carries it: its payload parses to the
    delta, its links are the given heads in order and its destinations the
    topics. *)
Theorem PutBlock_carries_delta heads d topics node :
  Forall (fun h => is_Some (match cid_toBytes h.1 with Ok b => Some b | Err _ => None end)) heads ->
  is_u64 (priority d) -> PutBlock heads d topics = Ok node ->
  parse_node node = Some d /\ node_getLinks node = heads /\ node_getDestinations node = topics.
Proof using ipldspec codecspec.
  intros Hb Hp. unfold PutBlock. destruct (node_createFromString _) as [n|] eqn:E; [|done].
  intros [= <-]. destruct (add_destinations n (base.elements topics)) as (H1 & H2 & H3).
  destruct (add_links (fold_left node_addDestination (base.elements topics) n) heads Hb) as (-> & Hc & ->).
  unfold parse_node. rewrite Hc, H1, H2, H3, (create_content _ _ E), (create_links _ _ E),
    (create_destinations _ _ E), delta_round_trip, list_to_set_elements_L, union_empty_r_L by done. done.
Qed.

Lemma decode_heads_text l :
  Forall (fun c => exists s, cid_toString c = Ok s) l ->
  decode_heads ((fun c => match cid_toString c with Ok s => s | Err _ => [] end) <$> l) = Ok l.
Proof using cidspec.
  induction 1 as [|c l [s Hs] _ IH]; [done|]. rewrite fmap_cons. cbn [decode_heads].
  by rewrite Hs, (cid_round_trip _ _ Hs), IH.
Qed.

(** A broadcast of heads decodes to the heads that were broadcast, when
    each has a text form and there is at least one. *)
Theorem broadcast_round_trip heads buffer :
  heads <> ∅ -> (forall c, c ∈ heads -> exists s, cid_toString c = Ok s) ->
  EncodeBroadcast heads = Ok buffer -> DecodeBroadcast buffer = Ok (base.elements heads).
Proof using cidspec codecspec.
  intros Hne Htext [= <-]. unfold DecodeBroadcast.
  pose proof (bcast_nonempty ((fun c => match cid_toString c with Ok s => s | Err _ => [] end)
    <$> base.elements heads)) as Hb.
  destruct (bcast_serialize _) as [|c b] eqn:E.
  { destruct Hb; [|done]. intros Hnil%fmap_nil_inv. apply Hne. apply leibniz_equiv. by apply elements_empty_iff. }
  rewrite <-E, bcast_round_trip. apply decode_heads_text. apply Forall_forall.
  intros x Hx%elem_of_elements. auto.
Qed.
End codec.
End props.

(** ** Concrete datastores *)

Import DemoDag.

Definition cid (s : string) : @CID DemoCid.text_cid := str s.

Lemma demo_holds : holds datastore ORSet.empty.
Proof.
  split; [by apply (bool_decide_unpack _)|reflexivity|reflexivity|].
  split; [by apply (bool_decide_unpack _)|]. split; [|by intros k id ?%elem_of_empty].
  exists ∅. split; [reflexivity|]. apply repr_empty.
Qed.

Lemma no_ancestor_empty k : no_ancestor ORSet.empty k.
Proof. intros k' id Hin. by apply elem_of_empty in Hin. Qed.

Lemma demo_GetList : CrdtHeads.GetList (heads_ datastore) {[str "t"]} = (∅, 0%Z).
Proof. vm_compute. reflexivity. Qed.

Lemma PutKey_GetKey_witness : exists ds',
  PutKey (str "/a") (str "1") {[str "t"]} datastore = (Ok tt, ds') /\
  GetKey (str "/a") ds' = Ok (str "1") /\ HasKey (str "/a") ds' = Ok true.
Proof.
  destruct (PutBlock [] {| elements := [Build_Element (str "/a") [] (str "1")]; tombstones := [];
    priority := 1 |} {[str "t"]}) as [node|] eqn:E; [|discriminate E].
  pose proof (PutKey_GetKey (str "/a") (str "1") {[str "t"]} datastore ORSet.empty node
    (blk_cid node)) as H.
  rewrite demo_GetList in H. apply H; clear H.
  - apply demo_holds.
  - by apply (bool_decide_unpack _).
  - apply no_ancestor_empty.
  - unfold u64_max. lia.
  - intros p v0 [=].
  - exact E.
  - apply blk_cid_text.
  - apply not_elem_of_empty.
Defined.

(** A datastore in which [/a] was put with priority 9 and no head is known. *)
Module Ahead.
Definition delta : Delta := Demo.adds [Demo.elem "/a" "old"] 9.
Definition store : CrdtDatastore.t (DB := gmap bytes bytes)
    (S := GraphsyncDAGSyncer.t (Dag := gmap bytes block)) (B := list (bytes * bytes)) :=
  with_world datastore (CrdtSet.Merge (set_ datastore) (Some delta) (str "/Qm9") (world_ datastore)).2.
Definition set : ORSet.t :=
  set_reg (add_elem ORSet.empty (str "/a") (str "/Qm9")) (str "/a") (9%Z, str "old").
End Ahead.

Lemma ahead_holds : holds Ahead.store Ahead.set.
Proof.
  destruct (holds_replica _ _ demo_holds) as (Hns & Hw & Hl).
  assert (merge Ahead.delta (str "/Qm9") ORSet.empty = Some Ahead.set) as Hm by reflexivity.
  pose proof (Merge_repr (set_ datastore) (world_ datastore) ORSet.empty Ahead.delta (str "/Qm9")
    Hns Hw) as H.
  specialize (H ltac:(wf_demo) ltac:(wf_demo)). rewrite Hm in H.
  destruct H as (w' & Hmerge & Hw'). destruct demo_holds as [H1 H2 H3 _].
  unfold Ahead.store. rewrite Hmerge. split; [exact H1|exact H2|exact H3|].
  split; [exact Hns|]. split; [exact Hw'|]. by apply (merge_sets _ _ _ _ Hm Hl).
Qed.

Lemma PutKey_behind_is_lost_witness : exists ds',
  PutKey (str "/a") (str "new") {[str "t"]} Ahead.store = (Ok tt, ds') /\
  GetKey (str "/a") ds' = Ok (str "old") /\ HasKey (str "/a") ds' = Ok true.
Proof.
  destruct (PutBlock [] {| elements := [Build_Element (str "/a") [] (str "new")]; tombstones := [];
    priority := 1 |} {[str "t"]}) as [node|] eqn:E; [|discriminate E].
  pose proof (PutKey_behind_is_lost (str "/a") (str "new") 9 (str "old") {[str "t"]} Ahead.store
    Ahead.set node (blk_cid node)) as H.
  change (heads_ Ahead.store) with (heads_ datastore) in H.
  rewrite demo_GetList in H. apply H; clear H.
  - apply ahead_holds.
  - by apply (bool_decide_unpack _).
  - apply (no_ancestor_add ORSet.empty _ _ (str "/Qm9")); [apply no_ancestor_empty|done].
  - unfold u64_max. lia.
  - reflexivity.
  - lia.
  - exact E.
  - apply blk_cid_text.
  - apply not_elem_of_empty.
Defined.

Lemma DeleteKey_HasKey_witness : exists ds',
  DeleteKey (str "/a") {[str "t"]} datastore = (Ok tt, ds') /\ HasKey (str "/a") ds' = Ok false.
Proof.
  pose proof (DeleteKey_HasKey (str "/a") {[str "t"]} datastore ORSet.empty) as H.
  rewrite demo_GetList in H. apply H; clear H.
  - apply demo_holds.
  - by apply (bool_decide_unpack _).
  - apply no_ancestor_empty.
  - intros l. eexists _, _. split; [reflexivity|]. apply blk_cid_text.
Defined.

Lemma Sync_reports_not_found_witness :
  Sync (str "/a") datastore = (Err (database_error NOT_FOUND), datastore).
Proof.
  apply (Sync_reports_not_found (str "/a") datastore ORSet.empty);
    [apply demo_holds|by apply (bool_decide_unpack _)|reflexivity|reflexivity|reflexivity].
Defined.

(** A fork: block [F] links [Q], which is stored, while the topic's head is
    another block. *)
Module Fork.
Definition block_q : Node := {| blk_links := []; blk_destinations := {[str "t"]}; blk_content := str "q" |}.
Definition block_f : Node :=
  {| blk_links := [(str "Qmq", str "t")]; blk_destinations := {[str "t"]}; blk_content := str "f" |}.
Definition store : CrdtDatastore.t (DB := gmap bytes bytes)
    (S := GraphsyncDAGSyncer.t (Dag := gmap bytes block)) (B := list (bytes * bytes)) :=
  with_syncer
    (with_heads datastore
       {| CrdtHeads.namespaceKey_ := str "/g/h";
          CrdtHeads.cache_ := {[str "t" := {[(cid "Qmh") := 7%Z]}]} |} (world_ datastore))
    (GraphsyncDAGSyncer.addNode block_q empty_syncer).2.
Definition delta : Delta := Demo.adds [Demo.elem "/a" "1"] 2.
End Fork.

Lemma fork_visited :
  (sync_TraverseCIDsLinks 50 (str "t") false Fork.block_f ∅ (dagSyncer_ Fork.store)).1.2
  = {[(cid "Qmq", str "t")]}.
Proof. vm_compute. reflexivity. Qed.

Lemma fork_becomes_no_head_witness :
  heads_ (ProcessNode (cid "Qmf") 2 Fork.delta Fork.block_f true Fork.store).2
  = heads_ Fork.store.
Proof.
  pose proof fork_visited as HV.
  destruct (sync_TraverseCIDsLinks 50 (str "t") false Fork.block_f ∅ (dagSyncer_ Fork.store))
    as [[F V] x] eqn:E. simpl in HV. subst V.
  eapply (fork_becomes_no_head _ _ _ _ true Fork.store (str "t")).
  - reflexivity.
  - discriminate.
  - exact E.
  - apply non_empty_singleton_L.
  - intros l ->%elem_of_singleton. vm_compute. reflexivity.
Defined.

Lemma PutBlock_carries_delta_witness : exists node,
  PutBlock [((cid "Qm1"), str "t")] Fork.delta {[str "t"]} = Ok node /\
  parse_node node = Some Fork.delta /\ node_getLinks node = [((cid "Qm1"), str "t")] /\
  node_getDestinations node = {[str "t"]}.
Proof.
  eexists. split; [reflexivity|].
  eapply (PutBlock_carries_delta [((cid "Qm1"), str "t")] Fork.delta {[str "t"]});
    [|unfold is_u64; simpl; lia|reflexivity].
  apply Forall_singleton. eexists. reflexivity.
Defined.

Lemma broadcast_round_trip_witness : exists buffer,
  EncodeBroadcast {[(cid "Qm1")]} = Ok buffer /\
  DecodeBroadcast buffer = Ok (base.elements ({[(cid "Qm1")]} : gset CID)).
Proof.
  eexists. split; [reflexivity|].
  eapply (broadcast_round_trip {[(cid "Qm1")]}); [| |reflexivity].
  - apply (bool_decide_unpack _). exact I.
  - intros c ->%elem_of_singleton. exists (str "Qm1"). reflexivity.
Defined.
