(* ===== verification/AtomicTransaction.v ===== *)
(** * Atomic transactions ([crdt/atomic_transaction.hpp], [crdt/impl/atomic_transaction.cpp])

    Pending changes that are published together as one delta. *)

From S2P Require Import Prelude Store HierarchicalKey CrdtSet CrdtHeads LruCache DagSyncer.
From S2P Require Import CrdtRefine ORSetFacts CrdtSetProps CrdtHeads CrdtDataFilter CrdtDatastore CrdtDatastoreProps.
From S2P Require Import CrdtDatastoreProps.
Import HKey ORSet.

#[local] Arguments CrdtSet.Merge : simpl never.
#[local] Arguments ORSet.merge : simpl never.

Inductive Operation : Type := PUT | REMOVE.
#[export] Instance Operation_eq_dec : EqDecision Operation.
Proof. solve_decision. Defined.

Record PendingOperation := { type : Operation; key : bytes; value : bytes }.

Module AtomicTransaction.

(** The datastore is a shared object: it is passed to [Commit]. *)
Record t := {
  operations_ : list PendingOperation; modified_keys_ : gset bytes; is_committed_ : bool
}.
Implicit Types (x : t) (k v : bytes).

Definition new : t := {| operations_ := []; modified_keys_ := ∅; is_committed_ := false |}.

Definition Put k v x : outcome unit * t :=
  if is_committed_ x then (Err error_code_zero, x) else
  (Ok tt, {| operations_ := operations_ x ++ [{| type := PUT; key := k; value := v |}];
             modified_keys_ := {[k]} ∪ modified_keys_ x; is_committed_ := false |}).

Definition Remove k x : outcome unit * t :=
  if is_committed_ x then (Err error_code_zero, x) else
  (Ok tt, {| operations_ := operations_ x ++ [{| type := REMOVE; key := k; value := [] |}];
             modified_keys_ := modified_keys_ x; is_committed_ := false |}).

Fixpoint find_key k (l : list PendingOperation) : option PendingOperation :=
  match l with
  | [] => None
  | op :: l => if decide (key op = k) then Some op else find_key k l
  end.

Definition FindLatestOperation k x : option PendingOperation := find_key k (rev (operations_ x)).

Definition Get k x : outcome bytes :=
  match FindLatestOperation k x with
  | Some op => match type op with REMOVE => Err error_code_zero | PUT => Ok (value op) end
  | None => Err error_code_zero
  end.

Definition Erase k x : outcome unit * t :=
  if is_committed_ x then (Err error_code_zero, x) else
  let ops := filter (fun op => key op <> k) (operations_ x) in
  if decide (length ops = length (operations_ x)) then (Ok tt, x) else
  (Ok tt, {| operations_ := ops; modified_keys_ := modified_keys_ x ∖ {[k]}; is_committed_ := false |}).

Definition HasKey k x : bool := bool_decide (k ∈ modified_keys_ x).

Definition Rollback x : t :=
  {| operations_ := []; modified_keys_ := ∅; is_committed_ := is_committed_ x |}.

Definition destroy x : t := if is_committed_ x then x else Rollback x.

Section commit.
Context {DB : Type} `{!RocksDBLib DB}.
Context {boost : BoostLib} {plat : Platform} {regexlib : RegexLib} {codec : DeltaCodec}.
Context {cidlib : CIDLib} {ipld : IPLDLib} {S : Type} {syncer : DAGSyncer S}.
Context {B : Type} {bcaster : Broadcaster B}.
Implicit Types (ds : CrdtDatastore.t (DB := DB) (S := S) (B := B)).

Definition op_delta (op : PendingOperation) ds : outcome Delta :=
  match type op with
  | PUT => CrdtDatastore.CreateDeltaToAdd (key op) (value op)
  | REMOVE => CrdtDatastore.CreateDeltaToRemove (key op) ds
  end.

Fixpoint combine_deltas (l : list PendingOperation) ds (combined : Delta) : outcome Delta :=
  match l with
  | [] => Ok combined
  | op :: l =>
      match op_delta op ds with
      | Err e => Err e
      | Ok delta =>
          combine_deltas l ds {| elements := elements combined ++ elements delta;
                                 tombstones := tombstones combined ++ tombstones delta;
                                 priority := Z.max (priority combined) (priority delta) |}
      end
  end.

Definition Commit (topics : gset bytes) x ds : outcome unit * t * CrdtDatastore.t :=
  if is_committed_ x then (Err error_code_zero, x, ds) else
  match combine_deltas (operations_ x) ds {| elements := []; tombstones := []; priority := 0 |} with
  | Err e => (Err e, x, ds)
  | Ok combined_delta =>
      match CrdtDatastore.Publish combined_delta topics ds with
      | (Err e, ds) => (Err e, x, ds)
      | (Ok _, ds) =>
          (Ok tt, {| operations_ := operations_ x; modified_keys_ := modified_keys_ x;
                     is_committed_ := true |}, ds)
      end
  end.
End commit.

(** ** Steps of a transaction before it is committed *)

Inductive step : t -> t -> Prop :=
  | step_put k v x : step x (Put k v x).2
  | step_remove k x : step x (Remove k x).2
  | step_erase k x : step x (Erase k x).2.

Inductive reachable : t -> Prop :=
  | reachable_new : reachable new
  | reachable_step x y : reachable x -> step x y -> reachable y.

Definition is_put k (op : PendingOperation) : Prop := type op = PUT /\ key op = k.

Lemma filter_same_length {A} (P : A -> Prop) `{forall a, Decision (P a)} l :
  length (filter P l) = length l -> filter P l = l.
Proof.
  induction l as [|y l IH]; [done|]. rewrite filter_cons. case_decide; simpl.
  - intros [= ?]. by rewrite IH.
  - intros Hl. pose proof (length_filter P l). lia.
Qed.

Lemma rev_filter {A} (P : A -> Prop) `{forall a, Decision (P a)} l :
  rev (filter P l) = filter P (rev l).
Proof.
  induction l as [|y l IH]; [done|]. simpl. rewrite filter_app, <-IH, !filter_cons, filter_nil.
  destruct (decide (P y)); simpl; [done|by rewrite app_nil_r].
Qed.

(** [HasKey] is true exactly for the keys with a pending [Put]: a key that
    is only removed in the transaction does not count as modified. *)
Theorem HasKey_pending_put x k :
  reachable x -> HasKey k x = true <-> exists op, op ∈ operations_ x /\ is_put k op.
Proof.
  intros Hx. unfold HasKey. rewrite bool_decide_eq_true. revert k.
  induction Hx as [|x y Hx IH Hstep]; intros k; [simpl; set_solver|].
  destruct Hstep as [k' v x|k' x|k' x]; simpl.
  - unfold Put. destruct (is_committed_ x); simpl; [apply IH|].
    rewrite elem_of_union, elem_of_singleton, IH. setoid_rewrite elem_of_app.
    setoid_rewrite list_elem_of_singleton. unfold is_put. naive_solver.
  - unfold Remove. destruct (is_committed_ x); simpl; [apply IH|].
    rewrite IH. setoid_rewrite elem_of_app. setoid_rewrite list_elem_of_singleton.
    unfold is_put. naive_solver.
  - unfold Erase. destruct (is_committed_ x); simpl; [apply IH|].
    case_decide; simpl; [apply IH|]. rewrite elem_of_difference, elem_of_singleton, IH.
    setoid_rewrite list_elem_of_filter. unfold is_put. naive_solver.
Qed.

Lemma find_key_Some k l op : find_key k l = Some op -> op ∈ l /\ key op = k.
Proof.
  induction l as [|o l IH]; simpl; [done|]. case_decide; [intros [= <-]|intros ?%IH]; set_solver.
Qed.

(** A transaction reads its own pending changes, the latest first: a key
    put reads as the value put, a key removed as absent, and a key erased as
    if it had not been touched. *)
Theorem Get_pending x k v k' :
  is_committed_ x = false ->
  Get k' (Put k v x).2 = (if decide (k = k') then Ok v else Get k' x) /\
  Get k' (Remove k x).2 = (if decide (k = k') then Err error_code_zero else Get k' x) /\
  Get k' (Erase k x).2 = (if decide (k = k') then Err error_code_zero else Get k' x).
Proof.
  intros Hc. unfold Put, Remove, Erase, Get, FindLatestOperation. rewrite Hc. simpl.
  rewrite !rev_app_distr. simpl. split; [by case_decide|]. split; [by case_decide|].
  assert (forall l, find_key k' (filter (fun op => key op <> k) l) =
    if decide (k = k') then None else find_key k' l) as Hf.
  { induction l as [|op l IH]; [simpl; by case_decide|]. rewrite filter_cons.
    destruct (decide (key op <> k)) as [Hk|Hk]; simpl; rewrite IH;
      [|apply dec_stable in Hk]; repeat case_decide; congruence. }
  assert (rev (filter (fun op => key op <> k) (operations_ x)) =
    filter (fun op => key op <> k) (rev (operations_ x))) as Hrev.
  { apply rev_filter. }
  destruct (decide (length (filter _ _) = length _)) as [Hlen|]; simpl; [|rewrite Hrev, Hf; by case_decide].
  apply filter_same_length in Hlen. rewrite Hlen in Hrev. rewrite Hrev, Hf. by repeat case_decide.
Qed.

Lemma HasKey_pending_put_witness :
  let x := (Remove (str "/b") (Put (str "/a") (str "1") new).2).2 in
  HasKey (str "/b") x = true <-> exists op, op ∈ operations_ x /\ is_put (str "/b") op.
Proof.
  apply (HasKey_pending_put (Remove (str "/b") (Put (str "/a") (str "1") new).2).2).
  eapply reachable_step; [|apply step_remove]. eapply reachable_step; [|apply step_put].
  apply reachable_new.
Defined.

Lemma Get_pending_witness :
  Get (str "/a") (Put (str "/a") (str "1") new).2 = Ok (str "1").
Proof. destruct (Get_pending new (str "/a") (str "1") (str "/a") eq_refl) as [-> _]. reflexivity. Defined.

(** ** Committing *)

Definition put_op (kv : bytes * bytes) : PendingOperation := {| type := PUT; key := kv.1; value := kv.2 |}.
Definition put_element (kv : bytes * bytes) : Element := Build_Element kv.1 [] kv.2.

Section commits.
Context {DB : Type} `{!RocksDBLib DB, !RocksDBHealthy DB}.
Context {boost : BoostLib} {boostspec : BoostSpec} {plat : Platform} {regexlib : RegexLib}.
Context {codec : DeltaCodec} {cidlib : CIDLib} {cidspec : CIDSpec} {ipld : IPLDLib}.
Context {S : Type} {syncer : DAGSyncer S} {B : Type} {bcaster : Broadcaster B}.
Implicit Types (ds : CrdtDatastore.t (DB := DB) (S := S) (B := B)) (a : ORSet.t).

Lemma combine_puts l ds c :
  (0 <= priority c)%Z ->
  combine_deltas (put_op <$> l) ds c =
  Ok {| elements := elements c ++ (put_element <$> l); tombstones := tombstones c;
        priority := priority c |}.
Proof.
  revert c. induction l as [|kv l IH]; intros c Hc; simpl.
  - rewrite app_nil_r. by destruct c.
  - rewrite IH; simpl; [|lia]. rewrite app_nil_r, <-app_assoc, Z.max_l by lia. done.
Qed.

Lemma puts_keys l : el_key <$> (put_element <$> l) = l.*1.
Proof. rewrite <-list_fmap_compose. done. Qed.

(** The delta of a transaction of puts of distinct keys. *)
Definition puts_delta (l : list (bytes * bytes)) (p : Z) : Delta :=
  {| elements := put_element <$> l; tombstones := []; priority := p |}.

Lemma wf_puts_delta l p : Forall wf_key l.*1 -> NoDup l.*1 -> is_u64 p -> wf_delta (puts_delta l p).
Proof.
  intros Hk Hnd Hp. split; simpl; [|by rewrite puts_keys|done|done].
  rewrite Forall_fmap. rewrite Forall_fmap in Hk. exact Hk.
Qed.

(** A transaction is atomic: after [Commit] every key it puts is in the
    store with its value, when its keys are distinct and not under each other,
    no register of a key is ahead of the heads of the topics, and the block is
    new. *)
Theorem Commit_puts l topics ds a node s :
  let '(head_map, height) := CrdtHeads.GetList (CrdtDatastore.heads_ ds) topics in
  let x := {| operations_ := put_op <$> l; modified_keys_ := list_to_set l.*1; is_committed_ := false |} in
  holds ds a -> Forall wf_key l.*1 -> NoDup l.*1 -> (0 <= height < u64_max)%Z ->
  (forall k, k ∈ l.*1 -> no_ancestor a k) ->
  (forall k k', k ∈ l.*1 -> k' ∈ l.*1 -> ~ (k' ++ [slash]) `prefix_of` k) ->
  (forall k p v, k ∈ l.*1 -> os_reg a !! k = Some (p, v) -> (p <= height)%Z) ->
  CrdtDatastore.PutBlock (CrdtDatastore.heads_with_topics head_map) (puts_delta l (u64 (height + 1)))
    topics = Ok node ->
  cid_toString (node_getCID node) = Ok s -> (forall k, k ∈ l.*1 -> (k, slash :: s) ∉ os_tombs a) ->
  forall k v, (k, v) ∈ l -> CrdtDatastore.GetKey k (Commit topics x ds).2 = Ok v.
Proof using All.
  destruct (CrdtHeads.GetList (CrdtDatastore.heads_ ds) topics) as [head_map height] eqn:EL.
  intros x Hds Hk Hnd Hh Hanc Hpre Hreg Hput Hs Hnt k v Hkv.
  assert (u64 (height + 1) = (height + 1)%Z) as Hu.
  { apply u64_id. unfold is_u64, u64_max in *. lia. }
  pose proof (AddDAGNode_holds (puts_delta l 0) topics ds a) as Hadd. rewrite EL in Hadd.
  set (a' := fold_left apply_addition
    ((fun e => Build_addition (height + 1) (slash :: s) (el_key e) (el_value e)) <$> (put_element <$> l)) a).
  assert (merge (puts_delta l (u64 (height + 1))) (slash :: s) a = Some a') as Hm.
  { unfold merge. simpl. rewrite put_tombs_nil, Hu. apply put_elems_additions. lia. }
  pose proof (merge_sets _ _ _ _ Hm (proj2 (proj2 (holds_replica _ _ Hds)))) as (He & Ht & _).
  specialize (Hadd a' node s Hds Hput Hs ltac:(apply wf_puts_delta; [done..|apply u64_range]) Hm).
  assert (k ∈ l.*1) as Hkl by (apply list_elem_of_fmap; by exists (k, v)).
  assert (CrdtDatastore.GetKey k (CrdtDatastore.AddDAGNode (puts_delta l 0) topics ds).2 = Ok v) as Hg.
  { unfold CrdtDatastore.GetKey. rewrite (GetElement_replica _ _ a').
    - unfold get_spec.
      assert (os_reg a' !! k = Some (height + 1, v)%Z) as Hr.
      { apply additions_above; rewrite ?puts_keys; [done..| |].
        - intros k0 p0 v0 Hk0 E. specialize (Hreg _ _ _ Hk0 E). lia.
        - exists []. apply list_elem_of_fmap. by exists (k, v). }
      rewrite Hr, decide_True; [done|]. apply in_set_live; [apply Hadd|]. exists (slash :: s).
      rewrite He, Ht. split; [apply elem_of_union_l, elem_of_list_to_set|].
      + apply list_elem_of_fmap. exists (put_element (k, v)). split; [done|].
        by apply list_elem_of_fmap_2.
      + unfold delta_tombs. simpl. rewrite union_empty_l_L. by apply Hnt.
    - apply Hadd.
    - by eapply Forall_forall in Hk.
    - intros k' id. rewrite He. intros [Hin|Hin]%elem_of_union; [|by eapply Hanc].
      apply Hpre; [done|]. unfold delta_adds in Hin. simpl in Hin.
      apply elem_of_list_to_set, list_elem_of_fmap in Hin as (e & [= -> ->] & Hin).
      rewrite <-puts_keys. by apply list_elem_of_fmap_2. }
  unfold Commit. simpl. rewrite combine_puts by done. simpl. unfold CrdtDatastore.Publish.
  by destruct (CrdtDatastore.AddDAGNode _ _ _) as [[] ds'].
Qed.
(** A transaction that puts a new key twice cannot be committed: its delta
    has the key twice, which the set refuses with a not-found error. *)
Theorem Commit_key_twice k v1 v2 topics ds a node s :
  let '(head_map, height) := CrdtHeads.GetList (CrdtDatastore.heads_ ds) topics in
  let l := [(k, v1); (k, v2)] in
  let x := (Put k v2 (Put k v1 new).2).2 in
  holds ds a -> wf_key k -> (0 <= height < u64_max)%Z -> os_reg a !! k = None ->
  CrdtDatastore.PutBlock (CrdtDatastore.heads_with_topics head_map) (puts_delta l (u64 (height + 1)))
    topics = Ok node ->
  cid_toString (node_getCID node) = Ok s -> (k, slash :: s) ∉ os_tombs a ->
  exists ds', Commit topics x ds = (Err (database_error NOT_FOUND), x, ds').
Proof using All.
  destruct (CrdtHeads.GetList (CrdtDatastore.heads_ ds) topics) as [head_map height] eqn:EL.
  intros l x Hds Hk Hh Hreg Hput Hs Hnt.
  assert (u64 (height + 1) = (height + 1)%Z) as Hu.
  { apply u64_id. unfold is_u64, u64_max in *. lia. }
  pose proof (cid_text _ _ Hs) as Hname. assert (wf_id (slash :: s)) as Hid by (by exists s).
  destruct (holds_replica _ _ Hds) as (Hns & (db & Hdb & Hr) & _).
  destruct (Merge_duplicate_key (CrdtDatastore.set_ ds) Hns (CrdtDatastore.world_ ds) db k v1 v2
    (height + 1) (slash :: s)) as (w' & _ & Hm & _); [done..| | | | |].
  - unfold u64_max in *. lia.
  - by rewrite (repr_prio _ _ _ Hr), Hreg.
  - by rewrite (repr_value _ _ _ Hr), Hreg.
  - apply eq_None_not_Some. by rewrite (repr_tombs _ _ _ Hr).
  - unfold Commit. simpl.
    unfold CrdtDatastore.Publish, CrdtDatastore.AddDAGNode. rewrite EL.
    match goal with |- context [CrdtDatastore.set_priority ?d ?h] =>
      change (CrdtDatastore.set_priority d h) with (puts_delta l (u64 (height + 1))) end.
    rewrite Hput. unfold CrdtDatastore.ProcessNode. rewrite Hs, HierarchicalKey_name by done.
    unfold puts_delta in *. simpl in *. rewrite Hu in *. unfold put_element in *. simpl in *.
    rewrite Hm. simpl. eauto.
Qed.
End commits.

Import DemoDag.

Lemma Commit_puts_witness :
  let l := [(str "/a", str "1"); (str "/b", str "2")] in
  let x := {| operations_ := put_op <$> l; modified_keys_ := list_to_set l.*1; is_committed_ := false |} in
  CrdtDatastore.GetKey (str "/b") (Commit {[str "t"]} x datastore).2 = Ok (str "2").
Proof.
  intros l x.
  destruct (CrdtDatastore.PutBlock [] (puts_delta l 1) {[str "t"]}) as [node|] eqn:E; [|discriminate E].
  pose proof (Commit_puts l {[str "t"]} datastore ORSet.empty node (blk_cid node)) as H.
  rewrite demo_GetList in H. eapply H; clear H.
  - apply demo_holds.
  - by apply (bool_decide_unpack _).
  - by apply (bool_decide_unpack _).
  - unfold u64_max. lia.
  - intros k _. apply no_ancestor_empty.
  - assert (Forall (fun k => Forall (fun k' => ~ (k' ++ [slash]) `prefix_of` k) l.*1) l.*1) as Hp.
    { apply (bool_decide_unpack _). vm_compute. exact I. }
    intros k k' Hk Hk'. eapply Forall_forall in Hp; [|exact Hk]. by eapply Forall_forall in Hp.
  - intros k p v _ [=].
  - exact E.
  - apply blk_cid_text.
  - intros k _. apply not_elem_of_empty.
  - apply elem_of_cons. right. by apply list_elem_of_singleton.
Defined.

Lemma Commit_key_twice_witness : exists ds',
  let x := (Put (str "/a") (str "2") (Put (str "/a") (str "1") new).2).2 in
  Commit {[str "t"]} x datastore = (Err (database_error NOT_FOUND), x, ds').
Proof.
  destruct (CrdtDatastore.PutBlock [] (puts_delta [(str "/a", str "1"); (str "/a", str "2")] 1)
    {[str "t"]}) as [node|] eqn:E; [|discriminate E].
  pose proof (Commit_key_twice (str "/a") (str "1") (str "2") {[str "t"]} datastore ORSet.empty node
    (blk_cid node)) as H.
  rewrite demo_GetList in H. apply H; clear H.
  - apply demo_holds.
  - by apply (bool_decide_unpack _).
  - unfold u64_max. lia.
  - reflexivity.
  - exact E.
  - apply blk_cid_text.
  - apply not_elem_of_empty.
Defined.
End AtomicTransaction.
