(* ===== verification/SubTaskQueue.v ===== *)
(** * The distributed subtask queue

    [processing/processing_subtask_queue.cpp]: the table of subtasks that the
    processing nodes of one job share.  One node at a time owns the table and
    may lock items of it; a lock expires; ownership moves on request, or falls
    back to the previous owner when the owner no longer answers.

    The table is a protobuf message ([ProcessingQueue], from
    [processing/proto/SGProcessing.proto]) that a [ProcessingSubTaskQueue]
    holds by pointer ([m_queue], null until a table was created or received).
    Module [ProcessingSubTaskQueue] has the operations; the second part states
    when a lock may change hands, who may take the ownership back and in which
    order ownership requests are served. *)

From S2P Require Import Prelude.

Open Scope Z_scope.

Record ProcessingQueueItem : Type := mkItem {
  lock_timestamp : Z;
  lock_node_id : bytes;
  lock_expiration_timestamp : Z
}.

Record OwnershipRequest : Type := mkRequest {
  node_id : bytes;
  request_timestamp : Z
}.

Record ProcessingQueue : Type := mkQueue {
  items : list ProcessingQueueItem;
  last_update_timestamp : Z;
  processing_timeout_length : Z;
  owner_node_id : bytes;
  ownership_requests : list OwnershipRequest;
  processed_subtask_ids : list bytes
}.

#[export] Instance ProcessingQueueItem_eq_dec : EqDecision ProcessingQueueItem.
Proof. solve_decision. Defined.
#[export] Instance OwnershipRequest_eq_dec : EqDecision OwnershipRequest.
Proof. solve_decision. Defined.
#[export] Instance ProcessingQueue_eq_dec : EqDecision ProcessingQueue.
Proof. solve_decision. Defined.

(** The setters of the generated message class. *)
Definition set_items (l : list ProcessingQueueItem) (q : ProcessingQueue) : ProcessingQueue :=
  mkQueue l (last_update_timestamp q) (processing_timeout_length q) (owner_node_id q)
    (ownership_requests q) (processed_subtask_ids q).
Definition set_last_update_timestamp (now : Z) (q : ProcessingQueue) : ProcessingQueue :=
  mkQueue (items q) now (processing_timeout_length q) (owner_node_id q)
    (ownership_requests q) (processed_subtask_ids q).
Definition set_owner_node_id (n : bytes) (q : ProcessingQueue) : ProcessingQueue :=
  mkQueue (items q) (last_update_timestamp q) (processing_timeout_length q) n
    (ownership_requests q) (processed_subtask_ids q).
Definition set_ownership_requests (l : list OwnershipRequest) (q : ProcessingQueue) : ProcessingQueue :=
  mkQueue (items q) (last_update_timestamp q) (processing_timeout_length q) (owner_node_id q)
    l (processed_subtask_ids q).

(** An item nobody holds: a string field is empty until it is set. *)
Definition unlocked_item : ProcessingQueueItem := mkItem 0 [] 0.
Definition is_free (it : ProcessingQueueItem) : bool := bool_decide (lock_node_id it = []).

Module ProcessingSubTaskQueue.

Record t : Type := mk {
  m_localNodeId : bytes;
  m_queue : option ProcessingQueue;
  m_enabledItemIndices : list nat
}.

Definition New (localNodeId : bytes) : t := mk localNodeId None [].

Definition with_queue (q : ProcessingQueue) (s : t) : t :=
  mk (m_localNodeId s) (Some q) (m_enabledItemIndices s).

(** Dereferencing [m_queue]. *)
Definition deref (s : t) : outcome ProcessingQueue := ok_or undefined_behaviour (m_queue s).

Definition HasOwnership (s : t) : bool :=
  match m_queue s with
  | None => false
  | Some q => bool_decide (owner_node_id q = m_localNodeId s)
  end.

Definition ChangeOwnershipTo (nodeId : bytes) (s : t) : outcome t :=
  q ← deref s; mret (with_queue (set_owner_node_id nodeId q) s).

Definition CreateQueue (queue : ProcessingQueue) (enabledItemIndices : list nat) (s : t) : outcome t :=
  ChangeOwnershipTo (m_localNodeId s) (mk (m_localNodeId s) (Some queue) enabledItemIndices).

Definition UpdateQueue (queue : ProcessingQueue) (enabledItemIndices : list nat) (s : t) : bool * t :=
  let accept := (true, mk (m_localNodeId s) (Some queue) enabledItemIndices) in
  match m_queue s with
  | None => accept
  | Some q =>
      if last_update_timestamp q <=? last_update_timestamp queue then accept else (false, s)
  end.

(** The loop of [LockItem] over the enabled indices; [items(i)] out of range
    is undefined. *)
Fixpoint lock_loop (local : bytes) (now : Z) (idxs : list nat) (q : ProcessingQueue) :
    outcome (option nat * ProcessingQueue) :=
  match idxs with
  | [] => Ok (None, q)
  | i :: idxs =>
      it ← ok_or undefined_behaviour (items q !! i);
      if is_free it then
        let it' := mkItem now local (u64 (now + processing_timeout_length q)) in
        Ok (Some i, set_items (<[i := it']> (items q)) q)
      else lock_loop local now idxs q
  end.

(** The returned index is the out parameter, [None] the result [false]. *)
Definition LockItem (now : Z) (s : t) : outcome (option nat * t) :=
  q ← deref s;
  r ← lock_loop (m_localNodeId s) now (m_enabledItemIndices s) (set_last_update_timestamp now q);
  mret (r.1, with_queue r.2 s).

Definition GrabItem (now : Z) (s : t) : outcome (option nat * t) :=
  if HasOwnership s then LockItem now s else Ok (None, s).

Definition MoveOwnershipTo (nodeId : bytes) (s : t) : outcome (bool * t) :=
  if HasOwnership s then s' ← ChangeOwnershipTo nodeId s; mret (true, s')
  else Ok (false, s).

(** First index of an item the owner holds. *)
Fixpoint owner_index (owner : bytes) (l : list ProcessingQueueItem) (itemIdx : nat) : option nat :=
  match l with
  | [] => None
  | it :: l => if bool_decide (lock_node_id it = owner) then Some itemIdx
               else owner_index owner l (S itemIdx)
  end.

(** Both backward loops of [RollbackOwnership]: [idx] runs over [idxs], [at_]
    is the computed item index.  The first held item decides; [None] is
    leaving the loop without a decision. *)
Fixpoint backward_loop (local : bytes) (q : ProcessingQueue) (at_ : Z -> Z) (idxs : list nat) :
    outcome (option bool) :=
  match idxs with
  | [] => Ok None
  | idx :: idxs =>
      it ← ok_or undefined_behaviour (items q !! Z.to_nat (at_ (Z.of_nat idx)));
      if is_free it then backward_loop local q at_ idxs
      else Ok (Some (bool_decide (lock_node_id it = local)))
  end.

Definition RollbackOwnership (s : t) : outcome (bool * t) :=
  match m_queue s with
  | None => Ok (false, s)
  | Some q =>
      if HasOwnership s then Ok (true, s)
      else
        let n := length (items q) in
        found ← match owner_index (owner_node_id q) (items q) 0 with
                | Some o =>
                    backward_loop (m_localNodeId s) q
                      (fun idx => Z.rem (Z.of_nat n + Z.of_nat o - idx) (Z.of_nat n)) (seq 1 (n - 1))
                | None =>
                    backward_loop (m_localNodeId s) q (fun idx => Z.of_nat n - idx) (seq 1 n)
                end;
        if (found : option bool) is Some false then Ok (false, s)
        else s' ← ChangeOwnershipTo (m_localNodeId s) s; mret (true, s')
  end.

Fixpoint unlock_loop (now : Z) (idxs : list nat) (q : ProcessingQueue) (unlocked : bool) :
    outcome (bool * ProcessingQueue) :=
  match idxs with
  | [] => Ok (unlocked, q)
  | i :: idxs =>
      item ← ok_or undefined_behaviour (items q !! i);
      if negb (is_free item) && (lock_expiration_timestamp item <? now)
      then unlock_loop now idxs (set_items (<[i := mkItem 0 [] 0]> (items q)) q) true
      else unlock_loop now idxs q unlocked
  end.

Definition UnlockExpiredItems (now : Z) (s : t) : outcome (bool * t) :=
  q ← deref s;
  let s := with_queue (set_last_update_timestamp now q) s in
  if HasOwnership s then
    r ← unlock_loop now (m_enabledItemIndices s) (set_last_update_timestamp now q) false;
    mret (r.1, with_queue r.2 s)
  else Ok (false, s).

Fixpoint last_lock_loop (q : ProcessingQueue) (idxs : list nat) (lastLockTimestamp : Z) : outcome Z :=
  match idxs with
  | [] => Ok lastLockTimestamp
  | i :: idxs =>
      it ← ok_or undefined_behaviour (items q !! i);
      last_lock_loop q idxs
        (if is_free it then lastLockTimestamp else Z.max lastLockTimestamp (lock_timestamp it))
  end.

(** Without enabled items the table is not touched. *)
Definition GetLastLockTimestamp (s : t) : outcome Z :=
  match m_enabledItemIndices s with
  | [] => Ok 0
  | idxs => q ← deref s; last_lock_loop q idxs 0
  end.

Definition AddOwnershipRequest (nodeId : bytes) (timestamp : Z) (s : t) : bool * t :=
  match m_queue s with
  | None => (false, s)
  | Some q =>
      (true, with_queue (set_last_update_timestamp timestamp
                (set_ownership_requests (ownership_requests q ++ [mkRequest nodeId timestamp]) q)) s)
  end.

(** Copying every request over the one before it, front to back, and removing
    the last. *)
Fixpoint move_up (k i : nat) (l : list OwnershipRequest) : list OwnershipRequest :=
  match k with
  | O => l
  | S k => match l !! S i with
           | Some r => move_up k (S i) (<[i := r]> l)
           | None => l
           end
  end.

Definition remove_first (l : list OwnershipRequest) : list OwnershipRequest :=
  removelast (move_up (length l - 1) 0 l).

Definition ProcessNextOwnershipRequest (s : t) : outcome (bool * t) :=
  match m_queue s with
  | Some q =>
      if HasOwnership s then
        match ownership_requests q with
        | [] => Ok (false, s)
        | request :: _ =>
            s' ← ChangeOwnershipTo (node_id request)
                   (with_queue (set_ownership_requests (remove_first (ownership_requests q)) q) s);
            mret (true, s')
        end
      else Ok (false, s)
  | None => Ok (false, s)
  end.

End ProcessingSubTaskQueue.
Import ProcessingSubTaskQueue.

(** ** Locks *)

(** The enabled indices are positions of the table. *)
Definition enabled_in_range (s : t) (q : ProcessingQueue) : Prop :=
  Forall (fun i => (i < length (items q))%nat) (m_enabledItemIndices s).

Definition free_at (l : list ProcessingQueueItem) (i : nat) : bool :=
  match l !! i with Some it => is_free it | None => false end.

(** Held, and its expiration lies before [now]. *)
Definition expired (now : Z) (it : ProcessingQueueItem) : bool :=
  negb (is_free it) && (lock_expiration_timestamp it <? now).

Lemma lock_loop_spec local now idxs q :
  Forall (fun i => (i < length (items q))%nat) idxs ->
  lock_loop local now idxs q =
    Ok match find (free_at (items q)) idxs with
       | Some i => (Some i, set_items (<[i := mkItem now local (u64 (now + processing_timeout_length q))]>
                                         (items q)) q)
       | None => (None, q)
       end.
Proof.
  induction 1 as [|i idxs Hi _ IH]; simpl; [done|].
  apply lookup_lt_is_Some_2 in Hi as [it Hit].
  unfold free_at at 1. rewrite Hit. simpl. by destruct (is_free it).
Qed.

Lemma find_free_insert l i it' idxs :
  find (free_at l) idxs = Some i ->
  exists it, l !! i = Some it /\ lock_node_id it = [] /\ <[i := it']> l !! i = Some it'.
Proof.
  intros [Hin Hf]%find_some. unfold free_at in Hf.
  destruct (l !! i) as [it|] eqn:Hit; [|done]. exists it. split_and!; [done| |].
  - by apply bool_decide_eq_true in Hf.
  - apply list_lookup_insert_eq. by eapply lookup_lt_Some.
Qed.

Lemma unlock_loop_spec now idxs q u :
  Forall (fun i => (i < length (items q))%nat) idxs ->
  exists u' q', unlock_loop now idxs q u = Ok (u', q') /\
    q' = set_items (items q') q /\ length (items q') = length (items q) /\
    (forall i it, items q !! i = Some it ->
       items q' !! i = Some (if decide (i ∈ idxs) then if expired now it then unlocked_item else it else it)) /\
    (u' = true <-> u = true \/ exists i it, i ∈ idxs /\ items q !! i = Some it /\ expired now it = true).
Proof.
  intros Hr. revert q u Hr. induction idxs as [|i idxs IH]; intros q u Hr; simpl.
  { exists u, q. split_and!; [done|by destruct q|done|by intros|].
    split; [by left|intros [?|(? & ? & []%elem_of_nil & _)]; done]. }
  apply Forall_cons in Hr as [Hi Hr].
  destruct (lookup_lt_is_Some_2 (items q) i Hi) as [it Hit]. rewrite Hit. simpl.
  fold (expired now it). change (mkItem 0 [] 0) with unlocked_item.
  assert (Hfree : expired now unlocked_item = false) by done.
  destruct (expired now it) eqn:He.
  - edestruct (IH (set_items (<[i := unlocked_item]> (items q)) q) true) as (u' & q' & -> & Hq & Hl & Hat & Hu).
    { simpl. by rewrite length_insert. }
    simpl in *. rewrite length_insert in Hl. exists u', q'. split_and!; [done|done|done| |].
    + intros j jt Hj. destruct (decide (j = i)) as [->|Hne].
      * rewrite (Hat i unlocked_item) by (by apply list_lookup_insert_eq).
        rewrite Hj in Hit. simplify_eq. rewrite Hfree, (decide_True (P := i ∈ i :: idxs)) by set_solver.
        rewrite He. by case_decide.
      * rewrite (Hat j jt) by (by rewrite list_lookup_insert_ne).
        by rewrite (decide_ext (j ∈ idxs) (j ∈ i :: idxs)) by set_solver.
    + split; [intros _; right; exists i, it; set_solver|intros _; apply Hu; by left].
  - destruct (IH q u Hr) as (u' & q' & -> & Hq & Hl & Hat & Hu).
    exists u', q'. split_and!; [done|done|done| |].
    + intros j jt Hj. rewrite (Hat j jt Hj). destruct (decide (j = i)) as [->|Hne].
      * rewrite Hj in Hit. simplify_eq. rewrite He. repeat case_decide; done.
      * by rewrite (decide_ext (j ∈ idxs) (j ∈ i :: idxs)) by set_solver.
    + rewrite Hu. split; (intros [->|(j & jt & Hj & Hjt & Hx)]; [by left|right]).
      * exists j, jt. set_solver.
      * exists j, jt. split_and!; [|done|done]. apply elem_of_cons in Hj as [->|]; [congruence|done].
Qed.

(** The owner's [GrabItem] takes the first enabled item that nobody holds:
    it is locked by the local node from [now] until [now] plus the timeout of
    the table, every other item, the owner and the pending requests stay as
    they are, and [false] means that every enabled item is held.  A node that
    is not the owner gets nothing and changes nothing. *)
Theorem GrabItem_locks_first_free (s : t) (q : ProcessingQueue) (now : Z)
    (Hq : m_queue s = Some q) (Hr : enabled_in_range s q) :
  exists r s' q', GrabItem now s = Ok (r, s') /\ m_queue s' = Some q' /\
    m_localNodeId s' = m_localNodeId s /\ m_enabledItemIndices s' = m_enabledItemIndices s /\
    owner_node_id q' = owner_node_id q /\ ownership_requests q' = ownership_requests q /\
    if HasOwnership s then
      r = find (free_at (items q)) (m_enabledItemIndices s) /\
      match r with
      | Some i =>
          items q' !! i = Some (mkItem now (m_localNodeId s) (u64 (now + processing_timeout_length q))) /\
          forall j, j <> i -> items q' !! j = items q !! j
      | None => items q' = items q
      end
    else r = None /\ q' = q.
Proof.
  unfold GrabItem. destruct (HasOwnership s) eqn:Ho.
  2:{ exists None, s, q. by rewrite Hq. }
  unfold LockItem, deref. rewrite Hq. simpl.
  rewrite lock_loop_spec by apply Hr. simpl.
  destruct (find _ _) as [i|] eqn:Hf; simpl.
  - eexists (Some i), _, _. split; [done|]. split; [done|]. simpl. split_and!; try done.
    + by destruct (find_free_insert _ _ (mkItem now (m_localNodeId s)
        (u64 (now + processing_timeout_length q))) _ Hf) as (it & _ & _ & ?).
    + intros j Hj. by apply list_lookup_insert_ne.
  - by eexists None, _, _.
Qed.

(** What a node may do with the table while it passes from node to node. *)
Inductive op : Type :=
  | OpGrab (now : Z)
  | OpUnlockExpired (now : Z)
  | OpMove (nodeId : bytes)
  | OpRollback
  | OpRequest (nodeId : bytes) (timestamp : Z)
  | OpNextRequest.

Definition perform (o : op) (s : t) : outcome t :=
  match o with
  | OpGrab now => r ← GrabItem now s; mret r.2
  | OpUnlockExpired now => r ← UnlockExpiredItems now s; mret r.2
  | OpMove n => r ← MoveOwnershipTo n s; mret r.2
  | OpRollback => r ← RollbackOwnership s; mret r.2
  | OpRequest n ts => Ok (AddOwnershipRequest n ts s).2
  | OpNextRequest => r ← ProcessNextOwnershipRequest s; mret r.2
  end.

(** [evolves limit q q']: any nodes, each with enabled indices of its own,
    turn the table [q] into [q'] by operations in any order, expired items
    being looked for at times up to [limit] only. *)
Inductive evolves (limit : Z) : ProcessingQueue -> ProcessingQueue -> Prop :=
  | evolves_refl q : evolves limit q q
  | evolves_step q node idxs o s' q' q'' :
      Forall (fun i => (i < length (items q))%nat) idxs ->
      (forall now, o = OpUnlockExpired now -> now <= limit) ->
      perform o (mk node (Some q) idxs) = Ok s' -> m_queue s' = Some q' ->
      evolves limit q' q'' -> evolves limit q q''.

Lemma GrabItem_keeps_locked (s : t) q now r s' q' i it :
  m_queue s = Some q -> enabled_in_range s q ->
  GrabItem now s = Ok (r, s') -> m_queue s' = Some q' ->
  items q !! i = Some it -> is_free it = false -> items q' !! i = Some it.
Proof.
  intros Hq Hr Hg Hq' Hit Hl. unfold GrabItem in Hg.
  destruct (HasOwnership s); [|simplify_eq; congruence]. unfold LockItem, deref in Hg. rewrite Hq in Hg. simpl in Hg.
  rewrite lock_loop_spec in Hg by apply Hr. simpl in Hg.
  destruct (find _ _) as [j|] eqn:Hf; injection Hg as <- <-; injection Hq' as <-; [|done]. simpl.
  apply find_some in Hf as [_ Hf]. unfold free_at in Hf.
  rewrite list_lookup_insert_ne; [done|]. intros ->. rewrite Hit in Hf. congruence.
Qed.

Lemma UnlockExpiredItems_keeps_running (s : t) q now r s' q' i it :
  m_queue s = Some q -> enabled_in_range s q ->
  UnlockExpiredItems now s = Ok (r, s') -> m_queue s' = Some q' ->
  items q !! i = Some it -> now <= lock_expiration_timestamp it -> items q' !! i = Some it.
Proof.
  intros Hq Hr Hu Hq' Hit Hnow. unfold UnlockExpiredItems, deref in Hu. rewrite Hq in Hu. simpl in Hu.
  destruct (HasOwnership _); [|by simplify_eq/=].
  destruct (unlock_loop_spec now (m_enabledItemIndices s) (set_last_update_timestamp now q) false Hr)
    as (u & q1 & Hu1 & _ & _ & Hat & _).
  rewrite Hu1 in Hu. injection Hu as <- <-. injection Hq' as <-. rewrite (Hat i it Hit).
  replace (expired now it) with false; [by case_decide|].
  unfold expired. symmetry. apply andb_false_iff. right. lia.
Qed.

(** Reads the table off a state that an operation returned. *)
Ltac read_table H Hq Hq' :=
  first [injection H as <- <- | injection H as <-]; simpl in Hq'; rewrite ?Hq in Hq'; injection Hq' as <-; done.

Lemma RollbackOwnership_items (s : t) q b s' q' :
  m_queue s = Some q -> RollbackOwnership s = Ok (b, s') -> m_queue s' = Some q' -> items q' = items q.
Proof.
  intros Hq Hro Hq'. unfold RollbackOwnership, ChangeOwnershipTo, deref in Hro. rewrite Hq in Hro.
  destruct (HasOwnership s); [by simplify_eq|].
  apply outcome_bind_ok in Hro as (found & _ & Hro). destruct found as [[]|]; read_table Hro Hq Hq'.
Qed.

Lemma perform_items (s : t) q o s' q' :
  m_queue s = Some q -> perform o s = Ok s' -> m_queue s' = Some q' ->
  match o with OpGrab _ | OpUnlockExpired _ => True | _ => items q' = items q end.
Proof.
  intros Hq Hp Hq'. destruct o; simpl in *; try done.
  - unfold MoveOwnershipTo, ChangeOwnershipTo, deref in Hp. rewrite Hq in Hp.
    destruct (HasOwnership s); read_table Hp Hq Hq'.
  - apply outcome_bind_ok in Hp as ([b s1] & Hro & [= <-]). by eapply RollbackOwnership_items.
  - unfold AddOwnershipRequest in Hp. rewrite Hq in Hp. read_table Hp Hq Hq'.
  - unfold ProcessNextOwnershipRequest, ChangeOwnershipTo, deref in Hp. rewrite Hq in Hp.
    destruct (HasOwnership s), (ownership_requests q); read_table Hp Hq Hq'.
Qed.

(** A lock is exclusive until it expires: however the nodes pass the table
    around, grab items, collect expired ones, move, request and take back the
    ownership, an item locked by a node stays locked by that node, with the
    same times, as long as nobody looks for expired items at a time after its
    expiration. *)
Theorem lock_kept_until_expiration (limit : Z) (q q' : ProcessingQueue) (i : nat) (it : ProcessingQueueItem)
    (Hev : evolves limit q q') (Hit : items q !! i = Some it) (Hl : lock_node_id it <> [])
    (He : limit <= lock_expiration_timestamp it) :
  items q' !! i = Some it.
Proof.
  induction Hev as [q|q node idxs o s' q' q'' Hr Hnow Hp Hq' _ IH]; [done|]. apply IH.
  assert (is_free it = false) as Hf by (by apply bool_decide_eq_false).
  pose proof (perform_items (mk node (Some q) idxs) q o s' q' eq_refl Hp Hq') as Hsame.
  destruct o as [now|now| | | |]; simpl in Hp, Hsame; try (by rewrite Hsame).
  - apply outcome_bind_ok in Hp as ([r s1] & Hg & [= <-]).
    by eapply (GrabItem_keeps_locked (mk node (Some q) idxs)).
  - apply outcome_bind_ok in Hp as ([r s1] & Hu & [= <-]).
    eapply (UnlockExpiredItems_keeps_running (mk node (Some q) idxs)); eauto.
    specialize (Hnow now eq_refl). lia.
Qed.

Lemma find_none_held l idxs i it :
  find (free_at l) idxs = None -> i ∈ idxs -> l !! i = Some it -> is_free it = false.
Proof.
  intros Hf Hi Hit. eapply find_none in Hf; [|by apply list_elem_of_In].
  unfold free_at in Hf. by rewrite Hit in Hf.
Qed.

Lemma owner_has_ownership (s : t) q :
  owner_node_id q = m_localNodeId s -> HasOwnership (with_queue q s) = true.
Proof. intros Ho. by apply bool_decide_eq_true. Qed.

Lemma GrabItem_owner (s : t) q now :
  owner_node_id q = m_localNodeId s -> enabled_in_range s q ->
  GrabItem now (with_queue q s) =
    Ok match find (free_at (items q)) (m_enabledItemIndices s) with
       | Some i => (Some i, with_queue (set_items (<[i := mkItem now (m_localNodeId s)
            (u64 (now + processing_timeout_length q))]> (items q)) (set_last_update_timestamp now q)) s)
       | None => (None, with_queue (set_last_update_timestamp now q) s)
       end.
Proof.
  intros Ho Hr. unfold GrabItem. rewrite owner_has_ownership by done.
  unfold LockItem, deref. simpl. rewrite lock_loop_spec by apply Hr. simpl.
  by destruct (find _ _).
Qed.

Lemma UnlockExpiredItems_owner (s : t) q now :
  owner_node_id q = m_localNodeId s -> enabled_in_range s q ->
  exists u q', UnlockExpiredItems now (with_queue q s) = Ok (u, with_queue q' s) /\
    owner_node_id q' = owner_node_id q /\ length (items q') = length (items q) /\
    (forall i it, i ∈ m_enabledItemIndices s -> items q !! i = Some it ->
       items q' !! i = Some (if expired now it then unlocked_item else it)) /\
    (u = true <->
     exists i it, i ∈ m_enabledItemIndices s /\ items q !! i = Some it /\ expired now it = true).
Proof.
  intros Ho Hr.
  destruct (unlock_loop_spec now (m_enabledItemIndices s) (set_last_update_timestamp now q) false Hr)
    as (u & q' & Hu & Hq' & Hlen & Hat & Hiff).
  exists u, q'. split_and!.
  - unfold UnlockExpiredItems. cbn -[HasOwnership unlock_loop].
    change (mk (m_localNodeId s) (Some ?q0) _) with (with_queue q0 s).
    rewrite owner_has_ownership by done. by rewrite Hu.
  - by rewrite Hq'.
  - done.
  - intros i it Hi Hit. rewrite (Hat i it Hit). by rewrite decide_True.
  - rewrite Hiff. split; [by intros [?|?]|by right].
Qed.

(** Work of a node that stopped is handed on.  When every enabled item is
    held and one of the locks has expired, the owner's [GrabItem] finds
    nothing, [UnlockExpiredItems] reports success, and the [GrabItem] after it
    returns an enabled item whose lock had expired. *)
Theorem expired_lock_reassigned (s : t) (q : ProcessingQueue) (now : Z) (i : nat) (it : ProcessingQueueItem)
    (Hq : m_queue s = Some q) (Hr : enabled_in_range s q) (Ho : owner_node_id q = m_localNodeId s)
    (Hheld : find (free_at (items q)) (m_enabledItemIndices s) = None)
    (Hi : i ∈ m_enabledItemIndices s) (Hit : items q !! i = Some it)
    (Hx : lock_expiration_timestamp it < now) :
  exists s1 s2 s3 j jt,
    GrabItem now s = Ok (None, s1) /\ UnlockExpiredItems now s1 = Ok (true, s2) /\
    GrabItem now s2 = Ok (Some j, s3) /\ j ∈ m_enabledItemIndices s /\
    items q !! j = Some jt /\ expired now jt = true.
Proof.
  assert (s = with_queue q s) as Hs by (destruct s; simpl in *; by subst).
  destruct (UnlockExpiredItems_owner s (set_last_update_timestamp now q) now Ho Hr)
    as (u & q2 & Hun & Ho2 & Hlen & Hat & Hiff).
  simpl in Ho2, Hlen, Hat, Hiff.
  assert (expired now it = true) as Hexp.
  { unfold expired. rewrite (find_none_held _ _ _ _ Hheld Hi Hit). simpl. lia. }
  assert (u = true) as -> by (apply Hiff; eauto).
  destruct (find (free_at (items q2)) (m_enabledItemIndices s)) as [j|] eqn:Hj.
  2:{ pose proof (Hat i it Hi Hit) as H2. rewrite Hexp in H2.
      by pose proof (find_none_held _ _ _ _ Hj Hi H2). }
  pose proof Hj as [Hjin%list_elem_of_In Hjf]%find_some.
  destruct (lookup_lt_is_Some_2 (items q) j) as [jt Hjt].
  { unfold enabled_in_range in Hr. rewrite Forall_forall in Hr. by apply Hr. }
  eexists _, _, _, j, jt. split_and!.
  - rewrite Hs at 1. rewrite GrabItem_owner by done. by rewrite Hheld.
  - exact Hun.
  - rewrite GrabItem_owner; [by rewrite Hj|congruence|]. unfold enabled_in_range. by rewrite Hlen.
  - done.
  - done.
  - unfold free_at in Hjf. rewrite (Hat j jt Hjin Hjt) in Hjf.
    destruct (expired now jt); [done|]. pose proof (find_none_held _ _ _ _ Hheld Hjin Hjt). congruence.
Qed.

(** ** Taking the ownership back *)

(** The holders of the other items, going backward from the owner's first item
    and around the end of the table; backward from the end when the owner
    holds none. *)
Definition items_before (q : ProcessingQueue) : list ProcessingQueueItem :=
  match owner_index (owner_node_id q) (items q) 0 with
  | Some o => reverse (take o (items q)) ++ reverse (drop (S o) (items q))
  | None => reverse (items q)
  end.

Definition heir (q : ProcessingQueue) : option bytes :=
  lock_node_id <$> find (fun it => negb (is_free it)) (items_before q).

Definition may_take_over (n : bytes) (q : ProcessingQueue) : bool :=
  bool_decide (owner_node_id q = n) ||
  match heir q with Some h => bool_decide (h = n) | None => true end.

Lemma owner_index_lt owner l k o : owner_index owner l k = Some o -> (k <= o < k + length l)%nat.
Proof.
  revert k. induction l as [|it l IH]; simpl; intros k Ho; [done|].
  case_bool_decide; [simplify_eq; lia|]. apply IH in Ho. lia.
Qed.

Lemma backward_loop_spec local q at_ idxs visited :
  Forall2 (fun idx it => items q !! Z.to_nat (at_ (Z.of_nat idx)) = Some it) idxs visited ->
  backward_loop local q at_ idxs =
    Ok ((fun it => bool_decide (lock_node_id it = local)) <$> find (fun it => negb (is_free it)) visited).
Proof.
  induction 1 as [|idx it idxs visited Hit _ IH]; simpl; [done|].
  rewrite Hit. simpl. by destruct (is_free it).
Qed.

Lemma backward_from_owner (l : list ProcessingQueueItem) (o : nat) :
  (o < length l)%nat ->
  Forall2 (fun idx it => l !! Z.to_nat (Z.rem (Z.of_nat (length l) + Z.of_nat o - Z.of_nat idx)
                                             (Z.of_nat (length l))) = Some it)
    (seq 1 (length l - 1)) (reverse (take o l) ++ reverse (drop (S o) l)).
Proof.
  intros Ho. apply Forall2_same_length_lookup. split.
  { rewrite length_seq, length_app, !length_reverse, length_take, length_drop. lia. }
  intros k idx it Hk Hit. apply lookup_seq in Hk as [-> Hk].
  assert (length (take o l) = o) as Hlen by (rewrite length_take; lia).
  apply lookup_app_Some in Hit as [Hit|[Hge Hit]].
  - assert (k < o)%nat by (apply lookup_lt_Some in Hit; by rewrite length_reverse, Hlen in Hit).
    rewrite reverse_lookup, Hlen, lookup_take_lt in Hit by lia.
    rewrite <- Hit. f_equal.
    rewrite Z.rem_mod_nonneg by lia.
    rewrite <- (Z.mod_add _ (-1)), Z.mod_small by lia. lia.
  - rewrite length_reverse, Hlen in Hge, Hit.
    assert (k - o < length l - S o)%nat
      by (apply lookup_lt_Some in Hit; by rewrite length_reverse, length_drop in Hit).
    rewrite reverse_lookup, length_drop, lookup_drop in Hit by (rewrite length_drop; lia).
    rewrite <- Hit. f_equal. rewrite Z.rem_small by lia. lia.
Qed.

Lemma backward_from_end (l : list ProcessingQueueItem) :
  Forall2 (fun idx it => l !! Z.to_nat (Z.of_nat (length l) - Z.of_nat idx) = Some it)
    (seq 1 (length l)) (reverse l).
Proof.
  apply Forall2_same_length_lookup. split; [by rewrite length_seq, length_reverse|].
  intros k idx it Hk Hit. apply lookup_seq in Hk as [-> Hk].
  rewrite reverse_lookup in Hit by done. rewrite <- Hit. f_equal. lia.
Qed.

Lemma RollbackOwnership_spec n q idxs :
  RollbackOwnership (mk n (Some q) idxs) =
    Ok (may_take_over n q, mk n (Some (if may_take_over n q then set_owner_node_id n q else q)) idxs).
Proof.
  unfold RollbackOwnership, may_take_over. cbn -[backward_loop owner_index seq].
  destruct (bool_decide (owner_node_id q = n)) eqn:Ho; simpl.
  { apply bool_decide_eq_true in Ho as <-. by destruct q. }
  unfold heir, items_before.
  destruct (owner_index _ _ 0) as [o|] eqn:Hoi.
  - apply owner_index_lt in Hoi.
    rewrite (backward_loop_spec _ _ _ _ _ (backward_from_owner (items q) o ltac:(lia))). simpl.
    destruct (find _ _) as [it|]; simpl; [|done]. by destruct (bool_decide (lock_node_id it = n)).
  - rewrite (backward_loop_spec _ _ _ _ _ (backward_from_end (items q))). simpl.
    destruct (find _ _) as [it|]; simpl; [|done]. by destruct (bool_decide (lock_node_id it = n)).
Qed.

Lemma heir_none q i it :
  heir q = None -> items q !! i = Some it ->
  owner_index (owner_node_id q) (items q) 0 <> Some i -> is_free it = true.
Proof.
  unfold heir, items_before. intros Hh Hit Hne.
  destruct (find _ _) as [|] eqn:Hf; [done|].
  enough (it ∈ match owner_index (owner_node_id q) (items q) 0 with
               | Some o => reverse (take o (items q)) ++ reverse (drop (S o) (items q))
               | None => reverse (items q) end) as Hin.
  { apply list_elem_of_In in Hin. eapply find_none in Hf; [|done]. by destruct (is_free it). }
  destruct (owner_index _ _ 0) as [o|].
  2:{ apply elem_of_reverse. by eapply list_elem_of_lookup_2. }
  apply elem_of_app. destruct (decide (i < o)%nat).
  - left. apply elem_of_reverse, (list_elem_of_lookup_2 _ i). by rewrite lookup_take_lt.
  - right. apply elem_of_reverse, (list_elem_of_lookup_2 _ (i - S o)). rewrite lookup_drop.
    by replace (S o + (i - S o))%nat with i by (assert (i <> o) by congruence; lia).
Qed.

(** [RollbackOwnership] always decides, and it elects one node: when two
    nodes that do not own the table both take it over, they are the same node,
    unless nobody holds an item beside the owner's own first one.  The elected
    node is the holder of the nearest held item backward from the owner's
    first item, so no node can take over when that item is the owner's too. *)
Theorem rollback_elects_one (q : ProcessingQueue) (a b : bytes) (ia ib : list nat)
    (Ha : a <> owner_node_id q) (Hb : b <> owner_node_id q) :
  exists ra sa rb sb,
    RollbackOwnership (mk a (Some q) ia) = Ok (ra, sa) /\
    RollbackOwnership (mk b (Some q) ib) = Ok (rb, sb) /\
    HasOwnership sa = ra /\ HasOwnership sb = rb /\
    (ra = true -> rb = true -> a = b \/
       forall i it, items q !! i = Some it ->
         owner_index (owner_node_id q) (items q) 0 <> Some i -> is_free it = true) /\
    (ra = true <-> heir q = None \/ heir q = Some a) /\
    (heir q = Some (owner_node_id q) -> ra = false /\ rb = false).
Proof.
  assert (forall n idxs, n <> owner_node_id q ->
    HasOwnership (mk n (Some (if may_take_over n q then set_owner_node_id n q else q)) idxs) = may_take_over n q /\
    may_take_over n q = match heir q with Some h => bool_decide (h = n) | None => true end) as Hown.
  { intros n idxs Hn. unfold may_take_over. rewrite (bool_decide_false (_ = n)) by congruence. simpl.
    split; [|done]. unfold HasOwnership. simpl.
    destruct (match heir q with Some _ => _ | None => _ end); simpl;
      [by apply bool_decide_eq_true|by apply bool_decide_eq_false]. }
  eexists _, _, _, _. rewrite !RollbackOwnership_spec. split_and!; [done|done|by apply Hown|by apply Hown|..].
  all: rewrite ?(proj2 (Hown a ia Ha)), ?(proj2 (Hown b ib Hb)).
  - destruct (heir q) as [h|] eqn:Hh.
    + intros ->%bool_decide_eq_true ->%bool_decide_eq_true. by left.
    + intros _ _. right. intros i it. by apply heir_none.
  - destruct (heir q) as [h|]; [rewrite bool_decide_eq_true|]; naive_solver.
  - intros ->. by rewrite !bool_decide_false.
Qed.

(** ** Ownership requests *)

Lemma move_up_spec k i l :
  (k + i < length l)%nat ->
  move_up k i l = take i l ++ take k (drop (S i) l) ++ drop (k + i) l.
Proof.
  revert i l. induction k as [|k IH]; intros i l Hl; simpl.
  { by rewrite take_drop. }
  destruct (lookup_lt_is_Some_2 l (S i)) as [r Hr]; [lia|]. rewrite Hr.
  rewrite IH by (rewrite length_insert; lia).
  rewrite (take_S_r _ i r) by (apply list_lookup_insert_eq; lia).
  rewrite take_insert_ge, !drop_insert_lt by lia.
  rewrite (drop_S l r (S i)) by done. simpl. rewrite <- app_assoc. simpl.
  by replace (k + S i)%nat with (S (k + i)) by lia.
Qed.

Lemma remove_first_tail r l : remove_first (r :: l) = l.
Proof.
  unfold remove_first. cbn [length]. replace (S (length l) - 1)%nat with (length l) by lia.
  rewrite move_up_spec by (simpl; lia). simpl. rewrite drop_0, Nat.add_0_r.
  rewrite (take_ge l) by lia.
  destruct l as [|x l] using rev_ind; simpl; [done|].
  rewrite length_app, Nat.add_1_r. simpl. rewrite drop_app_length. apply removelast_last.
Qed.

(** [k] times, the node that owns the table serves the next request. *)
Fixpoint serve (k : nat) (q : ProcessingQueue) : outcome ProcessingQueue :=
  match k with
  | O => Ok q
  | S k => r ← ProcessNextOwnershipRequest (mk (owner_node_id q) (Some q) []);
           q' ← deref r.2;
           serve k q'
  end.

Definition add_requests (rs : list OwnershipRequest) (s : t) : t :=
  fold_left (fun s r => (AddOwnershipRequest (node_id r) (request_timestamp r) s).2) rs s.

Lemma add_requests_table rs s q :
  m_queue s = Some q ->
  exists q', m_queue (add_requests rs s) = Some q' /\ owner_node_id q' = owner_node_id q /\
    items q' = items q /\ ownership_requests q' = ownership_requests q ++ rs.
Proof.
  revert s q. induction rs as [|r rs IH]; intros s q Hq; simpl.
  { exists q. by rewrite app_nil_r. }
  destruct (IH (AddOwnershipRequest (node_id r) (request_timestamp r) s).2
    (set_last_update_timestamp (request_timestamp r)
       (set_ownership_requests (ownership_requests q ++ [mkRequest (node_id r) (request_timestamp r)]) q)))
    as (q' & -> & Ho & Hi & Hrs).
  { unfold AddOwnershipRequest. by rewrite Hq. }
  exists q'. split_and!; [done|done|done|]. rewrite Hrs. simpl. rewrite <- app_assoc. by destruct r.
Qed.

Lemma serve_spec rs q :
  forall k, ownership_requests q = rs -> (k <= length rs)%nat ->
  exists q', serve k q = Ok q' /\ items q' = items q /\ ownership_requests q' = drop k rs /\
    owner_node_id q' = default (owner_node_id q) (node_id <$> last (take k rs)).
Proof.
  revert q. induction rs as [|r rs IH]; intros q k Hrs Hk; simpl in Hk.
  { replace k with O by lia. by exists q. }
  destruct k as [|k]; [by exists q|].
  destruct (IH (set_owner_node_id (node_id r) (set_ownership_requests rs q)) k) as (q' & Hs & Hi & Hr & Ho);
    [done|lia|].
  exists q'. split_and!; [|done|done|].
  - cbn [serve]. unfold ProcessNextOwnershipRequest, HasOwnership. simpl.
    rewrite bool_decide_true, Hrs, remove_first_tail by done. simpl. exact Hs.
  - rewrite Ho. simpl. rewrite last_cons. by destruct (last (take k rs)).
Qed.

(** Ownership requests are served first come, first served: after requests
    were added to a table without pending ones and [k] of them were served, by
    whichever node then owned the table, the owner is the [k]-th requester,
    the requests behind it are pending in order, and no item changed. *)
Theorem requests_served_in_order (s : t) (q : ProcessingQueue) (rs : list OwnershipRequest) (k : nat)
    (Hq : m_queue s = Some q) (Hnone : ownership_requests q = []) (Hk : (k <= length rs)%nat) :
  exists q1 q2, m_queue (add_requests rs s) = Some q1 /\ serve k q1 = Ok q2 /\
    owner_node_id q2 = default (owner_node_id q) (node_id <$> last (take k rs)) /\
    ownership_requests q2 = drop k rs /\ items q2 = items q.
Proof.
  destruct (add_requests_table rs s q Hq) as (q1 & Hq1 & Ho & Hi & Hrs). rewrite Hnone in Hrs.
  destruct (serve_spec rs q1 k Hrs Hk) as (q2 & Hs & Hi2 & Hr2 & Ho2).
  exists q1, q2. split_and!; [done|done| |done|congruence]. by rewrite Ho2, Ho.
Qed.

(** ** Instances at a concrete table *)

Module DemoQueue.

(** Three items: [nodeA] holds the first until 100, [nodeC] the second until
    200, the third is free; [nodeB] owns the table. *)
Definition table : ProcessingQueue :=
  mkQueue [mkItem 10 (str "nodeA") 100; mkItem 20 (str "nodeC") 200; unlocked_item]
    20 90 (str "nodeB") [] [].

Definition node_b (idxs : list nat) : t := mk (str "nodeB") (Some table) idxs.

(** [nodeB] grabs the last item and serves a request of [nodeC]. *)
Definition table_later : ProcessingQueue :=
  mkQueue [mkItem 10 (str "nodeA") 100; mkItem 20 (str "nodeC") 200; mkItem 60 (str "nodeB") 150]
    65 90 (str "nodeC") [] [].

End DemoQueue.

Lemma GrabItem_locks_first_free_witness : exists r s' q',
  GrabItem 60 (DemoQueue.node_b [0; 1; 2]%nat) = Ok (r, s') /\ m_queue s' = Some q' /\ r = Some 2%nat /\
  items q' !! 2%nat = Some (mkItem 60 (str "nodeB") 150).
Proof.
  destruct (GrabItem_locks_first_free (DemoQueue.node_b [0; 1; 2]%nat) DemoQueue.table 60)
    as (r & s' & q' & Hg & Hq & _ & _ & _ & _ & Hr & Hi).
  - reflexivity.
  - repeat constructor; simpl; lia.
  - change (r = Some 2%nat) in Hr. subst r. exists (Some 2%nat), s', q'. by destruct Hi as [Hi _].
Defined.

Lemma lock_kept_until_expiration_witness :
  items DemoQueue.table_later !! 0%nat = Some (mkItem 10 (str "nodeA") 100).
Proof.
  apply (lock_kept_until_expiration 100 DemoQueue.table).
  - eapply (evolves_step 100 _ (str "nodeB") [0; 1; 2]%nat (OpGrab 60));
      [repeat constructor; simpl; lia|done|reflexivity|reflexivity|].
    eapply (evolves_step 100 _ (str "nodeA") [] (OpRequest (str "nodeC") 65));
      [constructor|done|reflexivity|reflexivity|].
    eapply (evolves_step 100 _ (str "nodeB") [] OpNextRequest);
      [constructor|done|reflexivity|reflexivity|].
    apply evolves_refl.
  - reflexivity.
  - discriminate.
  - simpl. lia.
Defined.

Lemma expired_lock_reassigned_witness : exists s1 s2 s3 j,
  GrabItem 150 (DemoQueue.node_b [0; 1]%nat) = Ok (None, s1) /\ UnlockExpiredItems 150 s1 = Ok (true, s2) /\
  GrabItem 150 s2 = Ok (Some j, s3).
Proof.
  destruct (expired_lock_reassigned (DemoQueue.node_b [0; 1]%nat) DemoQueue.table 150 0
              (mkItem 10 (str "nodeA") 100)) as (s1 & s2 & s3 & j & jt & H1 & H2 & H3 & _).
  - reflexivity.
  - repeat constructor; simpl; lia.
  - reflexivity.
  - reflexivity.
  - apply elem_of_cons. by left.
  - reflexivity.
  - simpl. lia.
  - by exists s1, s2, s3, j.
Defined.

Lemma rollback_elects_one_witness : exists sa sc,
  RollbackOwnership (mk (str "nodeA") (Some DemoQueue.table) []) = Ok (false, sa) /\
  RollbackOwnership (mk (str "nodeC") (Some DemoQueue.table) []) = Ok (true, sc).
Proof.
  destruct (rollback_elects_one DemoQueue.table (str "nodeA") (str "nodeC") [] [])
    as (ra & sa & rc & sc & Ha & Hc & _).
  - discriminate.
  - discriminate.
  - exists sa, sc. rewrite Ha, Hc. vm_compute in Ha, Hc. by simplify_eq.
Defined.

Lemma requests_served_in_order_witness : exists q1 q2,
  m_queue (add_requests [mkRequest (str "nodeA") 70; mkRequest (str "nodeC") 71] (DemoQueue.node_b [])) = Some q1 /\
  serve 2 q1 = Ok q2 /\ owner_node_id q2 = str "nodeC".
Proof.
  destruct (requests_served_in_order (DemoQueue.node_b []) DemoQueue.table
    [mkRequest (str "nodeA") 70; mkRequest (str "nodeC") 71] 2) as (q1 & q2 & H1 & H2 & H3 & _).
  - reflexivity.
  - reflexivity.
  - simpl. lia.
  - by exists q1, q2.
Defined.
