(* ===== verification/Validation.v ===== *)
(** * Splitting a task and validating its results

    Module [ProcessTaskSplitter] is [processing/processing_tasksplit.cpp]: a
    task becomes one subtask of numbered chunks, and on request a second one
    that repeats the first chunk.  Module [ProcessingValidationCore] is
    [processing/processing_validation_core.cpp]: the results of all subtasks of
    a job are accepted or some subtasks are named invalid.

    The serialized form of a chunk ([SerializeAsString], protobuf) and the
    generated subtask identifier (a boost UUID seeded with the time) are
    arguments of the definitions. *)

From S2P Require Import Prelude.

Open Scope Z_scope.

Record Task : Type := mkTask {
  ipfs_block_id : bytes;
  task_json_data : bytes;
  random_seed : Z;              (* the bits of the float *)
  results_channel : bytes;
  escrow_path : bytes
}.

Record ProcessingChunk : Type := mkChunk {
  chunkid : bytes;
  n_subchunks : Z
}.

Record SubTask : Type := mkSubTask {
  ipfsblock : bytes;
  json_data : bytes;
  chunkstoprocess : list ProcessingChunk;
  datalen : Z;
  subtaskid : bytes
}.

Record SubTaskResult : Type := mkResult {
  result_hash : bytes;
  chunk_hashes : list bytes;
  ipfs_results_data_id : bytes;
  result_subtaskid : bytes;
  node_address : bytes;
  result_token_id : bytes
}.

#[export] Instance ProcessingChunk_eq_dec : EqDecision ProcessingChunk.
Proof. solve_decision. Defined.
#[export] Instance SubTask_eq_dec : EqDecision SubTask.
Proof. solve_decision. Defined.

(** ** Splitting *)

Module ProcessTaskSplitter.

(** [boost::format( "CHUNK_%d_%d" ) % uuidstring % chunkId], one subchunk. *)
Definition chunk (uuidstring : bytes) (chunkId : Z) : ProcessingChunk :=
  mkChunk (str "CHUNK_" ++ uuidstring ++ str "_" ++ to_string chunkId) 1.

(** The loop over [chunkIdx], [n] rounds left: the chunks of the subtask and
    those of the validation subtask, when there is one. *)
Fixpoint split_loop (uuidstring : bytes) (n : nat) (chunkIdx chunkId : Z)
    (chunks : list ProcessingChunk) (validation : option (list ProcessingChunk)) :
    list ProcessingChunk * option (list ProcessingChunk) :=
  match n with
  | O => (chunks, validation)
  | S n =>
      let c := chunk uuidstring chunkId in
      let validation :=
        match validation with
        | Some v => Some (if chunkIdx =? 0 then v ++ [c] else v)
        | None => None
        end in
      split_loop uuidstring n (chunkIdx + 1) (chunkId + 1) (chunks ++ [c]) validation
  end.

Definition SplitTask (task : Task) (subTasks : list SubTask) (json_data : bytes) (numchunks : Z)
    (addvalidationsubtask : bool) (uuidstring : bytes) : list SubTask :=
  let '(chunks, validation) :=
    split_loop uuidstring (Z.to_nat numchunks) 0 0 [] (if addvalidationsubtask then Some [] else None) in
  let subTasks := subTasks ++ [mkSubTask (ipfs_block_id task) json_data chunks 0 uuidstring] in
  match validation with
  | Some v => subTasks ++ [mkSubTask (ipfs_block_id task) [] v 0 (str "subtask_validation")]
  | None => subTasks
  end.

End ProcessTaskSplitter.

(** ** Validation *)

Module ProcessingValidationCore.

Section validation.
Context (SerializeAsString : ProcessingChunk -> bytes).

(** [chunks.insert] keeps an entry that is there; the hash is appended to it. *)
Definition append_hash (chunks : gmap bytes bytes) (key hash : bytes) : gmap bytes bytes :=
  <[key := default [] (chunks !! key) ++ hash]> chunks.

Fixpoint hash_loop (cs : list ProcessingChunk) (hashes : list bytes) (chunks : gmap bytes bytes) :
    gmap bytes bytes :=
  match cs, hashes with
  | c :: cs, h :: hashes => hash_loop cs hashes (append_hash chunks (SerializeAsString c) h)
  | _, _ => chunks
  end.

Fixpoint collect_loop (subTasks : list SubTask) (results : gmap bytes SubTaskResult)
    (chunks : gmap bytes bytes) (invalidSubTaskIds : gset bytes) : gmap bytes bytes * gset bytes :=
  match subTasks with
  | [] => (chunks, invalidSubTaskIds)
  | subTask :: subTasks =>
      match results !! subtaskid subTask with
      | Some r =>
          if bool_decide (length (chunk_hashes r) = length (chunkstoprocess subTask))
          then collect_loop subTasks results
                 (hash_loop (chunkstoprocess subTask) (chunk_hashes r) chunks) invalidSubTaskIds
          else collect_loop subTasks results chunks ({[subtaskid subTask]} ∪ invalidSubTaskIds)
      | None => collect_loop subTasks results chunks ({[subtaskid subTask]} ∪ invalidSubTaskIds)
      end
  end.

Fixpoint check_hashes_loop (cs : list ProcessingChunk) (chunks : gmap bytes bytes)
    (encounteredHashes : gset bytes) : bool :=
  match cs with
  | [] => true
  | c :: cs =>
      match chunks !! SerializeAsString c with
      | Some chunkHash =>
          if bool_decide (chunkHash ∈ encounteredHashes) then false
          else check_hashes_loop cs chunks ({[chunkHash]} ∪ encounteredHashes)
      | None => false
      end
  end.

Definition CheckSubTaskResultHashes (subTask : SubTask) (chunks : gmap bytes bytes) : bool :=
  check_hashes_loop (chunkstoprocess subTask) chunks ∅.

Fixpoint check_loop (subTasks : list SubTask) (chunks : gmap bytes bytes) (invalidSubTaskIds : gset bytes) :
    gset bytes :=
  match subTasks with
  | [] => invalidSubTaskIds
  | subTask :: subTasks =>
      check_loop subTasks chunks
        (if negb (bool_decide (subtaskid subTask ∈ invalidSubTaskIds)) &&
            negb (CheckSubTaskResultHashes subTask chunks)
         then {[subtaskid subTask]} ∪ invalidSubTaskIds else invalidSubTaskIds)
  end.

(** The result and the set of invalid identifiers, an out parameter. *)
Definition ValidateResults (subTasks : list SubTask) (results : gmap bytes SubTaskResult)
    (invalidSubTaskIds : gset bytes) : bool * gset bytes :=
  let '(chunks, invalid) := collect_loop subTasks results ∅ invalidSubTaskIds in
  let invalid := check_loop subTasks chunks invalid in
  (bool_decide (invalid = ∅), invalid).

End validation.

End ProcessingValidationCore.

(** ** Splitting makes distinct chunks *)

Lemma split_loop_chunks uuid n i chunks v :
  (ProcessTaskSplitter.split_loop uuid n i i chunks v).1 =
    chunks ++ (ProcessTaskSplitter.chunk uuid <$> seqZ i (Z.of_nat n)).
Proof.
  revert i chunks v. induction n as [|n IH]; intros i chunks v; [by rewrite app_nil_r|].
  cbn [ProcessTaskSplitter.split_loop]. rewrite IH, <- app_assoc.
  rewrite (seqZ_cons i) by lia.
  by replace (Z.pred (Z.of_nat (S n))) with (Z.of_nat n) by lia.
Qed.

Lemma split_loop_later uuid n i chunks v :
  0 < i -> (ProcessTaskSplitter.split_loop uuid n i i chunks v).2 = v.
Proof.
  revert i chunks v. induction n as [|n IH]; intros i chunks v Hi; [done|].
  cbn [ProcessTaskSplitter.split_loop]. rewrite IH by lia.
  rewrite (proj2 (Z.eqb_neq i 0)) by lia. by destruct v.
Qed.

Lemma split_loop_validation uuid n chunks v :
  (ProcessTaskSplitter.split_loop uuid n 0 0 chunks v).2 =
    (fun l => l ++ take 1 (ProcessTaskSplitter.chunk uuid <$> seqZ 0 (Z.of_nat n))) <$> v.
Proof.
  destruct n as [|n]; [destruct v; simpl; by rewrite ?app_nil_r|].
  cbn [ProcessTaskSplitter.split_loop]. rewrite split_loop_later, (seqZ_cons 0) by lia. by destruct v.
Qed.

Lemma chunk_inj uuid : forall i j, 0 <= i -> 0 <= j ->
  chunkid (ProcessTaskSplitter.chunk uuid i) = chunkid (ProcessTaskSplitter.chunk uuid j) -> i = j.
Proof.
  intros i j Hi Hj Heq. cbn [chunkid ProcessTaskSplitter.chunk] in Heq.
  do 3 apply app_inv_head in Heq. by apply to_string_inj.
Qed.

(** [SplitTask] appends one subtask of [numchunks] chunks with pairwise
    different identifiers and, when asked to, a validation subtask that repeats
    the first of them; both name the block of the task. *)
Theorem SplitTask_chunks (task : Task) (subTasks : list SubTask) (json uuid : bytes) (numchunks : Z)
    (addvalidation : bool) (Hn : 0 <= numchunks < 2 ^ 32) :
  exists st,
    ProcessTaskSplitter.SplitTask task subTasks json numchunks addvalidation uuid =
      subTasks ++ st ::
        (if addvalidation
         then [mkSubTask (ipfs_block_id task) [] (take 1 (chunkstoprocess st)) 0 (str "subtask_validation")]
         else []) /\
    subtaskid st = uuid /\ ipfsblock st = ipfs_block_id task /\ json_data st = json /\
    Z.of_nat (length (chunkstoprocess st)) = numchunks /\ NoDup (chunkid <$> chunkstoprocess st).
Proof.
  set (cs := ProcessTaskSplitter.chunk uuid <$> seqZ 0 (Z.of_nat (Z.to_nat numchunks))).
  exists (mkSubTask (ipfs_block_id task) json cs 0 uuid). split_and!; try done.
  - unfold ProcessTaskSplitter.SplitTask.
    destruct (ProcessTaskSplitter.split_loop _ _ 0 0 [] _) as [chunks v] eqn:Hl.
    pose proof (split_loop_chunks uuid (Z.to_nat numchunks) 0 [] (if addvalidation then Some [] else None)) as Hc.
    pose proof (split_loop_validation uuid (Z.to_nat numchunks) [] (if addvalidation then Some [] else None)) as Hv.
    rewrite Hl in Hc, Hv. cbn [fst snd app] in Hc, Hv. subst chunks v.
    destruct addvalidation; simpl; [by rewrite <- app_assoc|done].
  - simpl. unfold cs. rewrite length_fmap, length_seqZ. lia.
  - simpl. unfold cs. rewrite <- list_fmap_compose. apply NoDup_fmap_2_strong; [|apply NoDup_seqZ].
    intros i j Hi Hj. apply elem_of_seqZ in Hi, Hj. apply chunk_inj; lia.
Qed.

Lemma SplitTask_chunks_witness : exists st,
  ProcessTaskSplitter.SplitTask (mkTask (str "block") [] 0 [] []) [] (str "{}") 3 true (str "id") =
    [st; mkSubTask (str "block") [] (take 1 (chunkstoprocess st)) 0 (str "subtask_validation")] /\
  NoDup (chunkid <$> chunkstoprocess st).
Proof.
  destruct (SplitTask_chunks (mkTask (str "block") [] 0 [] []) [] (str "{}") (str "id") 3 true)
    as (st & Heq & _ & _ & _ & _ & Hnd); [lia|].
  by exists st.
Defined.

(** ** What is accepted *)

Section accepted.
Import ProcessingValidationCore.
Context (SerializeAsString : ProcessingChunk -> bytes).

Definition contribution (key : bytes) (cs : list ProcessingChunk) (hashes : list bytes) : bytes :=
  concat (map snd (filter (fun p => SerializeAsString p.1 = key) (zip cs hashes))).

(** A subtask with a result of one hash per chunk. *)
Definition answered (results : gmap bytes SubTaskResult) (st : SubTask) : bool :=
  match results !! subtaskid st with
  | Some r => bool_decide (length (chunk_hashes r) = length (chunkstoprocess st))
  | None => false
  end.

Definition subtask_hashes (results : gmap bytes SubTaskResult) (key : bytes) (st : SubTask) : bytes :=
  if answered results st
  then contribution key (chunkstoprocess st) (from_option chunk_hashes [] (results !! subtaskid st))
  else [].

(** All hashes of a chunk, over the subtasks in order. *)
Definition chunk_hash (subTasks : list SubTask) (results : gmap bytes SubTaskResult) (c : ProcessingChunk) : bytes :=
  concat (map (subtask_hashes results (SerializeAsString c)) subTasks).

Lemma hash_loop_lookup cs hashes m key :
  default [] (hash_loop SerializeAsString cs hashes m !! key) = default [] (m !! key) ++ contribution key cs hashes.
Proof.
  revert hashes m. induction cs as [|c cs IH]; intros [|h hashes] m; try by rewrite app_nil_r.
  cbn [hash_loop]. rewrite IH. unfold append_hash, contribution. simpl.
  destruct (decide (SerializeAsString c = key)) as [<-|Hne].
  - rewrite lookup_insert_eq, filter_cons_True by done. simpl. by rewrite app_assoc.
  - by rewrite lookup_insert_ne, filter_cons_False by done.
Qed.

Lemma hash_loop_some cs hashes m key :
  length hashes = length cs ->
  (is_Some (m !! key) \/ key ∈ SerializeAsString <$> cs) ->
  is_Some (hash_loop SerializeAsString cs hashes m !! key).
Proof.
  revert hashes m. induction cs as [|c cs IH]; intros [|h hashes] m Hl Hk; simplify_eq/=.
  { destruct Hk as [Hk|Hk]; [exact Hk|by apply elem_of_nil in Hk]. }
  apply IH; [lia|]. unfold append_hash.
  destruct (decide (SerializeAsString c = key)) as [->|Hne]; [left; by rewrite lookup_insert_eq|].
  rewrite lookup_insert_ne by done. destruct Hk as [?|Hk]; [by left|right].
  apply elem_of_cons in Hk as [?|?]; [congruence|done].
Qed.

Lemma collect_loop_spec subTasks results m inv :
  let r := collect_loop SerializeAsString subTasks results m inv in
  (forall key, default [] (r.1 !! key) = default [] (m !! key) ++ concat (map (subtask_hashes results key) subTasks)) /\
  (forall key, is_Some (m !! key) \/
     (exists st, st ∈ subTasks /\ answered results st = true /\ key ∈ SerializeAsString <$> chunkstoprocess st) ->
     is_Some (r.1 !! key)) /\
  (forall id, id ∈ r.2 <-> id ∈ inv \/ exists st, st ∈ subTasks /\ answered results st = false /\ subtaskid st = id).
Proof.
  revert m inv. induction subTasks as [|st sts IH]; intros m inv r.
  { split_and!; simpl.
    - intros key. by rewrite app_nil_r.
    - intros key [?|(st & []%elem_of_nil & _)]; done.
    - intros id. split; [by left|]. intros [?|(st & []%elem_of_nil & _)]; done. }
  assert ((answered results st = true /\ exists res, results !! subtaskid st = Some res /\
            length (chunk_hashes res) = length (chunkstoprocess st) /\
            r = collect_loop SerializeAsString sts results
                  (hash_loop SerializeAsString (chunkstoprocess st) (chunk_hashes res) m) inv) \/
          answered results st = false /\
            r = collect_loop SerializeAsString sts results m ({[subtaskid st]} ∪ inv)) as Hcase.
  { subst r. cbn [collect_loop]. unfold answered. destruct (results !! subtaskid st) as [res|]; [|by right].
    case_bool_decide; [left|by right]. split; [done|]. by exists res. }
  clearbody r. cbn [map concat].
  destruct Hcase as [(Ha & res & Hres & Hlen & ->)|(Ha & ->)];
    [destruct (IH (hash_loop SerializeAsString (chunkstoprocess st) (chunk_hashes res) m) inv) as (H1 & H2 & H3)
    |destruct (IH m ({[subtaskid st]} ∪ inv)) as (H1 & H2 & H3)].
  all: split_and!.
  - intros key. rewrite H1, hash_loop_lookup, <- app_assoc. unfold subtask_hashes at 2. by rewrite Ha, Hres.
  - intros key Hk. apply H2. destruct Hk as [Hk|(st' & Hin & Ha' & Hk)].
    + left. apply hash_loop_some; [done|by left].
    + apply elem_of_cons in Hin as [->|Hin]; [left; apply hash_loop_some; [done|by right]|right; by exists st'].
  - intros id. rewrite H3. split; (intros [?|(st' & Hin & Ha' & Hid)]; [by left|right]); exists st';
      (split_and!; [|done|done]); [apply elem_of_cons; by right|]. apply elem_of_cons in Hin as [->|?]; [congruence|done].
  - intros key. rewrite H1. unfold subtask_hashes at 2. by rewrite Ha.
  - intros key Hk. apply H2. destruct Hk as [Hk|(st' & Hin & Ha' & Hk)]; [by left|right].
    exists st'. apply elem_of_cons in Hin as [->|Hin]; [congruence|done].
  - intros id. rewrite H3, elem_of_union, elem_of_singleton. split.
    + intros [[->|?]|(st' & Hin & Ha' & Hid)]; [right; exists st; split_and!; [apply elem_of_cons; by left|done|done]|by left|].
      right. exists st'. split_and!; [apply elem_of_cons; by right|done|done].
    + intros [?|(st' & Hin & Ha' & Hid)]; [left; by right|].
      apply elem_of_cons in Hin as [->|?]; [left; by left|right; by exists st'].
Qed.

Lemma check_hashes_loop_spec cs m seen :
  Forall (fun c => is_Some (m !! SerializeAsString c)) cs ->
  check_hashes_loop SerializeAsString cs m seen = true <->
    NoDup ((fun c => default [] (m !! SerializeAsString c)) <$> cs) /\
    Forall (fun c => default [] (m !! SerializeAsString c) ∉ seen) cs.
Proof.
  intros Hs. revert seen. induction Hs as [|c cs [h Hh] _ IH]; intros seen.
  { split; [split; constructor|done]. }
  cbn [check_hashes_loop fmap list_fmap]. rewrite NoDup_cons, Forall_cons, Hh. simpl.
  case_bool_decide as Hin; [by split; [|intros [_ [? _]]]|]. rewrite IH, !Forall_forall, list_elem_of_fmap.
  split.
  - intros [Hnd Hall]. split_and!; [|done|done|].
    + intros (c' & Heq & Hc'). apply (Hall c' Hc'). apply elem_of_union. left. by apply elem_of_singleton.
    + intros c' Hc'. specialize (Hall c' Hc'). by intros ?; apply Hall, elem_of_union; right.
  - intros [[Hne Hnd] [_ Hall]]. split; [done|]. intros c' Hc' [Heq%elem_of_singleton|?]%elem_of_union.
    + apply Hne. by exists c'.
    + by apply (Hall c' Hc').
Qed.

Lemma check_loop_spec subTasks m inv id :
  id ∈ check_loop SerializeAsString subTasks m inv <->
    id ∈ inv \/ exists st, st ∈ subTasks /\ subtaskid st = id /\ CheckSubTaskResultHashes SerializeAsString st m = false.
Proof.
  revert inv. induction subTasks as [|st sts IH]; intros inv; cbn [check_loop].
  { split; [by left|]. intros [?|(st & []%elem_of_nil & _)]; done. }
  rewrite IH. setoid_rewrite elem_of_cons.
  assert (forall inv' : gset bytes, (id ∈ inv' <-> id ∈ inv \/ id = subtaskid st /\
            CheckSubTaskResultHashes SerializeAsString st m = false) ->
    (id ∈ inv' \/ (exists st', st' ∈ sts /\ subtaskid st' = id /\
                     CheckSubTaskResultHashes SerializeAsString st' m = false)) <->
    (id ∈ inv \/ (exists st', (st' = st \/ st' ∈ sts) /\ subtaskid st' = id /\
                     CheckSubTaskResultHashes SerializeAsString st' m = false))) as Hstep.
  { intros inv' ->. split.
    - intros [[?|[-> ?]]|(st' & ? & ? & ?)]; [by left|right; exists st|right; exists st']; auto.
    - intros [?|(st' & [->|?] & ? & ?)]; [by left; left|left; right|right; exists st']; auto. }
  apply Hstep. destruct (CheckSubTaskResultHashes SerializeAsString st m) eqn:Hc; simpl.
  { rewrite andb_false_r. split; [by left|by intros [?|[_ ?]]]. }
  case_bool_decide as Hi; simpl.
  - split; [by left|by intros [?|[-> _]]].
  - rewrite elem_of_union, elem_of_singleton. split; (intros [Hl|Hr]; [|]); [by right|by left|by right|].
    left. by destruct Hr.
Qed.

(** The chunks of the subtask have pairwise different hashes. *)
Definition distinct_hashes (subTasks : list SubTask) (results : gmap bytes SubTaskResult) (st : SubTask) : Prop :=
  NoDup (chunk_hash subTasks results <$> chunkstoprocess st).

Lemma CheckSubTaskResultHashes_spec subTasks results inv st :
  st ∈ subTasks -> answered results st = true ->
  CheckSubTaskResultHashes SerializeAsString st (collect_loop SerializeAsString subTasks results ∅ inv).1 = true <->
    distinct_hashes subTasks results st.
Proof.
  intros Hin Ha. destruct (collect_loop_spec subTasks results ∅ inv) as (Hh & Hs & _).
  unfold CheckSubTaskResultHashes. rewrite check_hashes_loop_spec.
  - unfold distinct_hashes.
    rewrite (list_fmap_ext _ (chunk_hash subTasks results) (chunkstoprocess st)).
    + split; [by intros [? _]|]. intros Hnd. split; [done|]. apply Forall_forall. intros c _. apply not_elem_of_empty.
    + intros i c _. rewrite Hh, lookup_empty. done.
  - apply Forall_forall. intros c Hc. apply Hs. right. exists st. split_and!; [done|done|].
    by apply list_elem_of_fmap_2.
Qed.

(** [ValidateResults] names exactly the subtasks (beside those named
    before) that have no result, or a result with another number of hashes
    than chunks, or two chunks with the same accumulated hash; and it accepts
    exactly when it names none.  The hashes that two subtasks report for one
    chunk are concatenated, never compared. *)
Theorem ValidateResults_names (subTasks : list SubTask) (results : gmap bytes SubTaskResult) (inv : gset bytes) :
  let r := ValidateResults SerializeAsString subTasks results inv in
  (forall id, id ∈ r.2 <-> id ∈ inv \/
     exists st, st ∈ subTasks /\ subtaskid st = id /\
       ~ (answered results st = true /\ distinct_hashes subTasks results st)) /\
  (r.1 = true <-> r.2 = ∅).
Proof.
  intros r. unfold ValidateResults in r.
  destruct (collect_loop SerializeAsString subTasks results ∅ inv) as [m invalid] eqn:Hcl.
  destruct (collect_loop_spec subTasks results ∅ inv) as (_ & _ & Hi). rewrite Hcl in Hi.
  assert (Hc := CheckSubTaskResultHashes_spec subTasks results inv). rewrite Hcl in Hc.
  simpl in Hi, Hc. subst r. cbn [fst snd]. split; [|apply bool_decide_eq_true].
  intros id. rewrite check_loop_spec, Hi. split.
  - intros [[?|(st & Hin & Ha & Hid)]|(st & Hin & Hid & Hck)]; [by left|right..]; exists st;
      (split_and!; [done|done|]); intros [Ha' Hd]; [congruence|].
    apply Hc in Hd; [congruence|done|done].
  - intros [?|(st & Hin & Hid & Hno)]; [left; by left|].
    destruct (answered results st) eqn:Ha; [right|left; right; by exists st].
    exists st. split_and!; [done|done|]. apply not_true_is_false. intros Hck.
    apply Hno. split; [done|]. by apply Hc.
Qed.

End accepted.
