(* ===== verification/SubTaskQueueManager.v ===== *)
(** * The subtask queue manager

    Models [src/src/processing/processing_subtask_queue_manager.cpp]: what a
    processing node does with the shared table of [SubTaskQueue] when a subtask
    is asked for, when a table or a request for ownership arrives, and when a
    timer fires.

    [m_queue] and the pointer of [m_processingQueue] refer to one message; the
    model keeps its table in [m_processingQueue] and its subtasks beside it.
    Reads of the steady clock and of the number of active nodes are numbered;
    the [n]-th one returns [clock n], in nanoseconds, and [active_nodes n].
    What leaves the manager is recorded as a list of effects: published
    tables, requests, calls of the stored callbacks and of the sink.  A
    callback does not call the manager back.  Of a timer the model keeps
    whether a wait is pending: setting its expiry or cancelling it ends the
    wait with [operation_aborted], on which the handlers do nothing. *)

From S2P Require Import Prelude SubTaskQueue Validation.

Open Scope Z_scope.

(** The message [SGProcessing::SubTaskQueue]. *)
Record SubTaskQueue : Type := mkSubTaskQueue {
  processing_queue : ProcessingQueue;
  subtasks : list SubTask
}.

Definition set_processed_subtask_ids (l : list bytes) (q : ProcessingQueue) : ProcessingQueue :=
  mkQueue (items q) (last_update_timestamp q) (processing_timeout_length q) (owner_node_id q)
    (ownership_requests q) l.

Inductive effect : Type :=
  | Publish (q : SubTaskQueue)
  | RequestOwnership (node : bytes)
  | Callback (callback : nat) (subtask : option SubTask)
  | Assigned (subTaskIds : list bytes).

Module ProcessingSubTaskQueueManager.

Record time : Type := mkTime {
  m_queue_timestamp_ : Z;
  m_ownership_acquired_at_ : Z;
  m_ownership_last_delta_time_ : Z
}.

Record quota : Type := mkQuota {
  m_processedSubtasksInCurrentOwnership : Z;
  m_defaultMaxSubtasksPerOwnership : Z;
  m_maxSubtasksPerOwnership : Z;
  m_lastActiveCountCheck : Z;
  m_waitTimeBeforeReset : Z;
  m_initialDelayPassed : bool
}.

(** Whether waits are pending on the two timers, the number of reads of the
    clock so far, and the effects. *)
Record world : Type := mkWorld {
  m_dltGrabSubTaskTimeout : option Z;
  m_dltQueueResponseTimeout : bool;
  reads : nat;
  effects : list effect
}.

Record t : Type := mk {
  m_processingQueue : ProcessingSubTaskQueue.t;
  m_subtasks : list SubTask;
  m_onSubTaskGrabbedCallbacks : list nat;
  m_subTaskQueueAssignmentEventSink : bool;
  m_processedSubTaskIds : gset bytes;
  m_time : time;
  m_quota : quota;
  m_processingTimeout : Z;
  m_lastQueueUpdateTime : Z;
  m_world : world
}.

Definition set_processingQueue (x : ProcessingSubTaskQueue.t) (m : t) : t :=
  mk x (m_subtasks m) (m_onSubTaskGrabbedCallbacks m) (m_subTaskQueueAssignmentEventSink m)
    (m_processedSubTaskIds m) (m_time m) (m_quota m) (m_processingTimeout m) (m_lastQueueUpdateTime m) (m_world m).
Definition set_subtasks (x : list SubTask) (m : t) : t :=
  mk (m_processingQueue m) x (m_onSubTaskGrabbedCallbacks m) (m_subTaskQueueAssignmentEventSink m)
    (m_processedSubTaskIds m) (m_time m) (m_quota m) (m_processingTimeout m) (m_lastQueueUpdateTime m) (m_world m).
Definition set_callbacks (x : list nat) (m : t) : t :=
  mk (m_processingQueue m) (m_subtasks m) x (m_subTaskQueueAssignmentEventSink m)
    (m_processedSubTaskIds m) (m_time m) (m_quota m) (m_processingTimeout m) (m_lastQueueUpdateTime m) (m_world m).
Definition set_sink (x : bool) (m : t) : t :=
  mk (m_processingQueue m) (m_subtasks m) (m_onSubTaskGrabbedCallbacks m) x
    (m_processedSubTaskIds m) (m_time m) (m_quota m) (m_processingTimeout m) (m_lastQueueUpdateTime m) (m_world m).
Definition set_ids (x : gset bytes) (m : t) : t :=
  mk (m_processingQueue m) (m_subtasks m) (m_onSubTaskGrabbedCallbacks m) (m_subTaskQueueAssignmentEventSink m)
    x (m_time m) (m_quota m) (m_processingTimeout m) (m_lastQueueUpdateTime m) (m_world m).
Definition set_time (x : time) (m : t) : t :=
  mk (m_processingQueue m) (m_subtasks m) (m_onSubTaskGrabbedCallbacks m) (m_subTaskQueueAssignmentEventSink m)
    (m_processedSubTaskIds m) x (m_quota m) (m_processingTimeout m) (m_lastQueueUpdateTime m) (m_world m).
Definition set_quota (x : quota) (m : t) : t :=
  mk (m_processingQueue m) (m_subtasks m) (m_onSubTaskGrabbedCallbacks m) (m_subTaskQueueAssignmentEventSink m)
    (m_processedSubTaskIds m) (m_time m) x (m_processingTimeout m) (m_lastQueueUpdateTime m) (m_world m).
Definition set_world (x : world) (m : t) : t :=
  mk (m_processingQueue m) (m_subtasks m) (m_onSubTaskGrabbedCallbacks m) (m_subTaskQueueAssignmentEventSink m)
    (m_processedSubTaskIds m) (m_time m) (m_quota m) (m_processingTimeout m) (m_lastQueueUpdateTime m) x.

Definition set_timestamp (ts : Z) (m : t) : t :=
  set_time (mkTime ts (m_ownership_acquired_at_ (m_time m)) (m_ownership_last_delta_time_ (m_time m))) m.
Definition set_processed_count (n : Z) (m : t) : t :=
  let q := m_quota m in
  set_quota (mkQuota n (m_defaultMaxSubtasksPerOwnership q) (m_maxSubtasksPerOwnership q)
    (m_lastActiveCountCheck q) (m_waitTimeBeforeReset q) (m_initialDelayPassed q)) m.

Definition emit (e : effect) : act t unit := modify (fun m =>
  let w := m_world m in
  set_world (mkWorld (m_dltGrabSubTaskTimeout w) (m_dltQueueResponseTimeout w) (reads w) (effects w ++ [e])) m).
(** Setting the expiry of the grab timer, with the time of a wait that is
    started then, and of the response timer. *)
Definition grab_timer (wait : option Z) : act t unit := modify (fun m =>
  let w := m_world m in set_world (mkWorld wait (m_dltQueueResponseTimeout w) (reads w) (effects w)) m).
Definition response_timer (wait : bool) : act t unit := modify (fun m =>
  let w := m_world m in set_world (mkWorld (m_dltGrabSubTaskTimeout w) wait (reads w) (effects w)) m).

(** A call on [m_processingQueue] that returns a value. *)
Definition on_queue {A} (f : ProcessingSubTaskQueue.t -> outcome (A * ProcessingSubTaskQueue.t)) : act t A := fun m =>
  match f (m_processingQueue m) with
  | Ok (a, q) => Ok (a, set_processingQueue q m)
  | Err e => Err e
  end.

(** Dereferencing [m_queue]. *)
Definition queue : act t ProcessingQueue := fun m =>
  match ProcessingSubTaskQueue.deref (m_processingQueue m) with
  | Ok q => Ok (q, m)
  | Err e => Err e
  end.

Definition is_init (m : t) : bool := bool_decide (is_Some (ProcessingSubTaskQueue.m_queue (m_processingQueue m))).

Definition localNodeId (m : t) : bytes := ProcessingSubTaskQueue.m_localNodeId (m_processingQueue m).
Definition timestamp (m : t) : Z := m_queue_timestamp_ (m_time m).

Section manager.
Context (clock : nat -> Z) (active_nodes : nat -> Z).

(** [duration_cast<milliseconds>]. *)
Definition ms (ns : Z) : Z := Z.quot ns 1000000.

Definition now : act t Z := fun m =>
  let w := m_world m in
  Ok (clock (reads w),
      set_world (mkWorld (m_dltGrabSubTaskTimeout w) (m_dltQueueResponseTimeout w) (S (reads w)) (effects w)) m).

(** The constructor: the two clocks are read by the initializers of members. *)
Definition New (localNodeId : bytes) (first_read second_read : Z) : t :=
  mk (ProcessingSubTaskQueue.New localNodeId) [] [] false ∅ (mkTime 0 0 0)
    (mkQuota 0 1 1 second_read 3000 false) 15000000000 first_read (mkWorld None false 0 []).

Definition HasOwnership : act t bool := gets (fun m => ProcessingSubTaskQueue.HasOwnership (m_processingQueue m)).

Definition UpdateQueueTimestamp : act t unit :=
  own ← HasOwnership;
  if (own : bool) then
    current ← now;
    let current_time_ms := ms current in
    modify (fun m =>
      let ts := u64 (timestamp m + u64 (current_time_ms - m_ownership_last_delta_time_ (m_time m))) in
      let m := set_time (mkTime ts (m_ownership_acquired_at_ (m_time m)) (u64 current_time_ms)) m in
      match ProcessingSubTaskQueue.m_queue (m_processingQueue m) with
      | Some q => set_processingQueue
          (ProcessingSubTaskQueue.with_queue (set_last_update_timestamp ts q) (m_processingQueue m)) m
      | None => m
      end)
  else mret tt.

(** [PublishQueue( m_queue )]: the table is serialized. *)
Definition PublishSubTaskQueue : act t unit :=
  UpdateQueueTimestamp;;
  q ← queue;
  l ← gets m_subtasks;
  emit (Publish (mkSubTaskQueue q l)).

(** The loop of [UpdateUnprocessedSubTaskIndices], from index [i] on. *)
Fixpoint unprocessed_loop (processed : gset bytes) (ts : Z) (table : list ProcessingQueueItem) (i : nat)
    (l : list SubTask) : outcome (list nat) :=
  match l with
  | [] => Ok []
  | subTask :: l =>
      item ← ok_or undefined_behaviour (table !! i);
      rest ← unprocessed_loop processed ts table (S i) l;
      mret (if bool_decide (subtaskid subTask ∉ processed) && (is_free item || (lock_timestamp item <=? ts))
            then i :: rest else rest)
  end.

Definition UpdateUnprocessedSubTaskIndices (q : SubTaskQueue) : act t (list nat) := fun m =>
  match unprocessed_loop (m_processedSubTaskIds m) (timestamp m) (items (processing_queue q)) 0 (subtasks q) with
  | Ok idxs => Ok (idxs, m)
  | Err e => Err e
  end.

Definition HasAvailableWork (checkOwnershipQuota : bool) : act t bool :=
  m ← gets id;
  let q := m_quota m in
  if checkOwnershipQuota && (m_maxSubtasksPerOwnership q <=? m_processedSubtasksInCurrentOwnership q)
  then mret false
  else if negb (is_init m) then mret false
  else
    pq ← queue;
    idxs ← UpdateUnprocessedSubTaskIndices (mkSubTaskQueue pq (m_subtasks m));
    mret (negb (bool_decide (idxs = []))).

Definition CheckActiveCount : act t unit :=
  i ← gets (fun m => reads (m_world m));
  current ← now;
  many ← (if 1 <? active_nodes i then mret true
          else pq ← queue; mret (negb (bool_decide (ownership_requests pq = []))));
  modify (fun m =>
    let q := m_quota m in
    let duration := u64 (ms (current - m_lastActiveCountCheck q)) in
    set_quota
      (if (many : bool) then
         mkQuota (m_processedSubtasksInCurrentOwnership q) (m_defaultMaxSubtasksPerOwnership q)
           (m_defaultMaxSubtasksPerOwnership q) current 100 true
       else if m_waitTimeBeforeReset q <? duration then
         mkQuota 0 (m_defaultMaxSubtasksPerOwnership q) (m_defaultMaxSubtasksPerOwnership q) current
           (if m_initialDelayPassed q then m_waitTimeBeforeReset q else 100) true
       else
         mkQuota (m_processedSubtasksInCurrentOwnership q) (m_defaultMaxSubtasksPerOwnership q)
           (m_maxSubtasksPerOwnership q) current (m_waitTimeBeforeReset q) (m_initialDelayPassed q)) m).

Definition CalculateGrabSubTaskTimeout : act t Z :=
  m ← gets id;
  lastLockTimestamp ← lift (ProcessingSubTaskQueue.GetLastLockTimestamp (m_processingQueue m));
  let lockExpirationTime := u64 (lastLockTimestamp + ms (m_processingTimeout m)) in
  mret (if timestamp m <? lockExpirationTime
        then Z.min (u64 (lockExpirationTime - timestamp m)) (m_waitTimeBeforeReset (m_quota m))
        else 1).

Definition IsProcessed : act t bool := gets (fun m =>
  is_init m && bool_decide (length (m_subtasks m) <= size (m_processedSubTaskIds m))%nat).

(** One subtask is handed to the first callback; the result says whether
    requests for ownership are waiting. *)
Definition hand_out (itemIdx : nat) : act t bool :=
  PublishSubTaskQueue;;
  modify (fun m => set_processed_count (u64 (m_processedSubtasksInCurrentOwnership (m_quota m) + 1)) m);;
  m ← gets id;
  subtask ← lift (ok_or undefined_behaviour (m_subtasks m !! itemIdx));
  match m_onSubTaskGrabbedCallbacks m with
  | [] => lift (Err undefined_behaviour)
  | callback :: callbacks =>
      modify (set_callbacks callbacks);;
      pq ← queue;
      emit (Callback callback (Some subtask));;
      mret (negb (bool_decide (ownership_requests pq = [])))
  end.

(** The loop of [ProcessPendingSubTaskGrabbing]; its result is
    [losingOwnership]. *)
Fixpoint grab_loop (fuel : nat) : act t bool :=
  match fuel with
  | O => lift (Err out_of_fuel)
  | S fuel =>
      m ← gets id;
      if bool_decide (m_onSubTaskGrabbedCallbacks m <> []) &&
         (m_processedSubtasksInCurrentOwnership (m_quota m) <? m_maxSubtasksPerOwnership (m_quota m)) then
        item ← on_queue (ProcessingSubTaskQueue.GrabItem (timestamp m));
        match (item : option nat) with
        | Some itemIdx =>
            losingOwnership ← hand_out itemIdx;
            if (losingOwnership : bool) then mret true else grab_loop fuel
        | None =>
            unlocked ← on_queue (ProcessingSubTaskQueue.UnlockExpiredItems (timestamp m));
            if (unlocked : bool) then grab_loop fuel else mret false
        end
      else mret false
  end.

(** Two rounds for every callback, and one to leave the loop. *)
Definition grab_fuel (m : t) : nat := 2 * length (m_onSubTaskGrabbedCallbacks m) + 1.

(** The loop that tells the callbacks that no subtask is available. *)
Fixpoint none_available (callbacks : list nat) : act t unit :=
  match callbacks with
  | [] => mret tt
  | c :: callbacks => emit (Callback c None);; modify (set_callbacks callbacks);; none_available callbacks
  end.

Definition ProcessPendingSubTaskGrabbing : act t unit :=
  grab_timer None;;
  UpdateQueueTimestamp;;
  CheckActiveCount;;
  fuel ← gets grab_fuel;
  losingOwnership ← grab_loop fuel;
  own ← HasOwnership;
  processed ← IsProcessed;
  when (losingOwnership && negb own && negb processed) (
    UpdateQueueTimestamp;;
    m ← gets id;
    on_queue (fun q => Ok (ProcessingSubTaskQueue.AddOwnershipRequest (localNodeId m) (timestamp m) q));;
    PublishSubTaskQueue);;
  m ← gets id;
  match m_onSubTaskGrabbedCallbacks m with
  | [] => mret tt
  | callbacks =>
      pq ← queue;
      if bool_decide (size (m_processedSubTaskIds m) < length (items pq))%nat then
        timeout ← CalculateGrabSubTaskTimeout;
        grab_timer (Some timeout)
      else none_available callbacks
  end.

Definition GrabSubTasks : act t unit :=
  own ← HasOwnership;
  if (own : bool) then ProcessPendingSubTaskGrabbing
  else node ← gets localNodeId; emit (RequestOwnership node).

Definition GrabSubTask (callback : nat) : act t unit :=
  modify (fun m => set_callbacks (m_onSubTaskGrabbedCallbacks m ++ [callback]) m);;
  GrabSubTasks.

(** [HandleGrabSubTaskTimeout] without [operation_aborted]. *)
Definition HandleGrabSubTaskTimeout : act t unit :=
  grab_timer None;;
  m ← gets id;
  match m_onSubTaskGrabbedCallbacks m with
  | [] => mret tt
  | _ =>
      pq ← queue;
      when (bool_decide (size (m_processedSubTaskIds m) < length (items pq))%nat) GrabSubTasks
  end.

Definition MoveOwnershipTo (nodeId : bytes) : act t bool :=
  moved ← on_queue (ProcessingSubTaskQueue.MoveOwnershipTo nodeId);
  if (moved : bool) then PublishSubTaskQueue;; mret true else mret false.

(** The indices of the subtasks whose identifier is not in [processed]. *)
Definition unprocessed_indices (processed : gset bytes) (l : list SubTask) : list nat :=
  filter (fun i => match l !! i with
                   | Some st => bool_decide (subtaskid st ∉ processed)
                   | None => false
                   end = true) (seq 0 (length l)).

Definition acquire_time (ts : Z) : act t unit :=
  current ← now;
  let acquired := u64 (ms current) in
  modify (set_time (mkTime ts acquired acquired)).

Definition CreateQueue (subTasks : list SubTask) : act t bool :=
  if bool_decide (Exists (fun st => chunkstoprocess st = []) subTasks) then mret false else
  current ← now;
  let acquired := u64 (ms current) in
  modify (set_time (mkTime acquired acquired acquired));;
  m ← gets id;
  let pq := mkQueue (replicate (length subTasks) unlocked_item) acquired (m_processingTimeout m) [] [] [] in
  modify (set_subtasks subTasks);;
  modify (set_ids ∅);;
  on_queue (fun q => q' ← ProcessingSubTaskQueue.CreateQueue pq (unprocessed_indices ∅ subTasks) q; mret (tt, q'));;
  PublishSubTaskQueue;;
  when (m_subTaskQueueAssignmentEventSink m) (emit (Assigned (subtaskid <$> subTasks)));;
  mret true.

Definition UpdateQueue (q : SubTaskQueue) : act t bool :=
  own ← HasOwnership;
  m ← gets id;
  let received := list_to_set (processed_subtask_ids (processing_queue q)) : gset bytes in
  let ids := m_processedSubTaskIds m ∪ received in
  let newer := last_update_timestamp (processing_queue q) in
  modify (set_ids ids);;
  let merged := own && bool_decide (~ received ⊆ m_processedSubTaskIds m) in
  let q := if (own : bool)
           then mkSubTaskQueue (set_processed_subtask_ids (set_in_order ids) (processing_queue q)) (subtasks q)
           else q in
  when (negb own || merged) (modify (set_timestamp newer);; UpdateQueueTimestamp);;
  when merged PublishSubTaskQueue;;
  idxs ← UpdateUnprocessedSubTaskIndices q;
  accepted ← on_queue (fun pq => Ok (ProcessingSubTaskQueue.UpdateQueue (processing_queue q) idxs pq));
  if (accepted : bool) then modify (set_subtasks (subtasks q));; mret true else mret merged.

(** The branch of [ProcessSubTaskQueueMessage] for a table that makes this node
    the owner. *)
Definition ownership_acquired (ts : Z) : act t unit :=
  acquire_time ts;;
  modify (set_processed_count 0);;
  work ← HasAvailableWork true;
  callbacks ← gets m_onSubTaskGrabbedCallbacks;
  when (work && bool_decide (callbacks <> [])) (
    grab_timer None;; response_timer false;; ProcessPendingSubTaskGrabbing);;
  PublishSubTaskQueue.

(** [guard] is released before the subtasks are handed out; releasing it once
    more for the sink throws. *)
Definition ProcessSubTaskQueueMessage (q : SubTaskQueue) : act t bool :=
  hadOwnership ← HasOwnership;
  local ← gets localNodeId;
  if hadOwnership && bool_decide (owner_node_id (processing_queue q) = local) then mret false else
  response_timer false;;
  queueInitialized ← gets is_init;
  queueChanged ← UpdateQueue q;
  hasOwnershipNow ← HasOwnership;
  when (queueChanged && negb hadOwnership && hasOwnershipNow)
    (pq ← queue; ownership_acquired (last_update_timestamp pq));;
  when (queueChanged && hasOwnershipNow) ProcessPendingSubTaskGrabbing;;
  sink ← gets m_subTaskQueueAssignmentEventSink;
  when (sink && negb queueInitialized && queueChanged) (
    if (hasOwnershipNow : bool) then lift (Err undefined_behaviour)
    else emit (Assigned (subtaskid <$> subtasks q)));;
  mret queueChanged.

(** [HandleQueueRequestTimeout] without [operation_aborted].  The wait it starts
    last is ended by the expiry that is set right after it. *)
Definition HandleQueueRequestTimeout : act t unit :=
  response_timer false;;
  work ← HasAvailableWork false;
  if negb work then
    pq ← queue;
    modify (fun m => set_processingQueue
      (ProcessingSubTaskQueue.with_queue (set_ownership_requests [] pq) (m_processingQueue m)) m);;
    PublishSubTaskQueue
  else
  own ← HasOwnership;
  served ← (if (own : bool) then on_queue ProcessingSubTaskQueue.ProcessNextOwnershipRequest else mret false);
  if (served : bool) then PublishSubTaskQueue else
  current ← now;
  m ← gets id;
  taken ← (if 5000 <? ms (current - m_lastQueueUpdateTime m)
           then on_queue ProcessingSubTaskQueue.RollbackOwnership else mret false);
  if (taken : bool) then
    pq ← queue;
    acquire_time (last_update_timestamp pq);;
    modify (set_processed_count 0);;
    PublishSubTaskQueue;;
    own ← HasOwnership;
    if (own : bool) then
      served ← on_queue ProcessingSubTaskQueue.ProcessNextOwnershipRequest;
      if (served : bool) then PublishSubTaskQueue else ProcessPendingSubTaskGrabbing
    else response_timer true;; response_timer false
  else response_timer true;; response_timer false.

Definition ProcessSubTaskQueueRequestMessage (request : OwnershipRequest) : act t bool :=
  own ← HasOwnership;
  work ← HasAvailableWork true;
  moved ← (if own && negb work then on_queue (ProcessingSubTaskQueue.MoveOwnershipTo (node_id request)) else mret false);
  if (moved : bool) then PublishSubTaskQueue;; mret true else
  anything ← HasAvailableWork false;
  when anything (
    added ← on_queue (fun q => Ok (ProcessingSubTaskQueue.AddOwnershipRequest (node_id request) (request_timestamp request) q));
    when added (
      PublishSubTaskQueue;;
      pq ← queue;
      when (bool_decide (length (ownership_requests pq) = 1%nat)) (
        response_timer false;; HandleQueueRequestTimeout)));;
  mret true.

Definition GetQueueSnapshot : act t (option SubTaskQueue) := gets (fun m =>
  pq ← ProcessingSubTaskQueue.m_queue (m_processingQueue m);
  mret (mkSubTaskQueue pq (m_subtasks m))).

(** One identifier of [ChangeSubTaskProcessingStates]: it is entered into the
    table, or the identifiers of the table are written anew. *)
Definition change_state (isProcessed : bool) (id : bytes) : act t unit :=
  pq ← queue;
  m ← gets (fun m => m);
  let ids := if isProcessed then m_processedSubTaskIds m ∪ {[id]} else m_processedSubTaskIds m ∖ {[id]} in
  let l := if isProcessed then processed_subtask_ids pq ++ [id] else set_in_order ids in
  modify (set_ids ids);;
  modify (fun m => set_processingQueue
    (ProcessingSubTaskQueue.with_queue (set_processed_subtask_ids l pq) (m_processingQueue m)) m).

Fixpoint change_states (isProcessed : bool) (ids : list bytes) : act t unit :=
  match ids with
  | [] => mret tt
  | id :: ids => change_state isProcessed id;; change_states isProcessed ids
  end.

Definition ChangeSubTaskProcessingStates (subTaskIds : gset bytes) (isProcessed : bool) : act t unit :=
  init ← gets is_init;
  if negb init then mret tt else
  change_states isProcessed (set_in_order subTaskIds);;
  pq ← queue;
  l ← gets m_subtasks;
  idxs ← UpdateUnprocessedSubTaskIndices (mkSubTaskQueue pq l);
  on_queue (fun q => Ok (ProcessingSubTaskQueue.UpdateQueue pq idxs q));;
  own ← HasOwnership;
  when own PublishSubTaskQueue.

Definition SetSubTaskQueueAssignmentEventSink (sink : bool) : act t unit :=
  modify (set_sink sink);;
  m ← gets id;
  when (sink && is_init m) (emit (Assigned (subtaskid <$> m_subtasks m))).

End manager.
End ProcessingSubTaskQueueManager.
