(* ===== verification/SubTaskQueueManagerProps.v ===== *)
(** * Properties of the subtask queue manager

    Tables and requests arrive in whatever order.  A table with fewer items than
    subtasks, and a first table that names the node itself as owner while there is
    a sink, end in undefined behaviour; every other event is handled and keeps the
    invariant: the table fits the subtasks, every callback is called once and in
    the order of registration, and a subtask is handed out only after a table that
    shows its lock has been published.  A table that is handed over makes its
    receiver the owner. *)

From S2P Require Import Prelude SubTaskQueue Validation SubTaskQueueManager.

Import ProcessingSubTaskQueueManager.

Open Scope Z_scope.

Definition table (m : t) : option ProcessingQueue := ProcessingSubTaskQueue.m_queue (m_processingQueue m).
Definition enabled (m : t) : list nat := ProcessingSubTaskQueue.m_enabledItemIndices (m_processingQueue m).
Definition log (m : t) : list effect := effects (m_world m).

(** The callbacks that have been called. *)
Definition called (es : list effect) : list nat :=
  omap (fun e => match e with Callback c _ => Some c | _ => None end) es.

(** A subtask is handed to a callback right after a table has been published
    in which [node] owns the table and holds the lock of the subtask. *)
Definition trace_ok (node : bytes) (es : list effect) : Prop :=
  forall l1 c st l2, es = l1 ++ Callback c (Some st) :: l2 ->
    exists l0 q i it, l1 = l0 ++ [Publish q] /\ subtasks q !! i = Some st /\
      items (processing_queue q) !! i = Some it /\ lock_node_id it = node /\
      owner_node_id (processing_queue q) = node.

(** The table has an item for every subtask and the enabled indices are
    positions of it. *)
Definition fits (q : ProcessingQueue) (l : list SubTask) (idxs : list nat) : Prop :=
  (length l <= length (items q))%nat /\ Forall (fun i => (i < length l)%nat) idxs.

Lemma fits_range q l idxs : fits q l idxs -> Forall (fun i => (i < length (items q))%nat) idxs.
Proof. intros [Hl Hi]. eapply Forall_impl; [exact Hi|]. cbn. lia. Qed.

Record inv (node : bytes) (registered : list nat) (m : t) : Prop := {
  inv_node : localNodeId m = node;
  inv_table : match table m with Some q => fits q (m_subtasks m) (enabled m) | None => enabled m = [] end;
  inv_callbacks : called (log m) ++ m_onSubTaskGrabbedCallbacks m = registered;
  inv_trace : trace_ok node (log m);
  inv_response : m_dltQueueResponseTimeout (m_world m) = false;
  inv_grab : is_Some (m_dltGrabSubTaskTimeout (m_world m)) -> is_Some (table m)
}.

(** ** What an operation leaves alone *)

Record frame (m m' : t) : Prop := {
  frame_node : localNodeId m' = localNodeId m;
  frame_enabled : enabled m' = enabled m;
  frame_subtasks : m_subtasks m' = m_subtasks m;
  frame_callbacks : m_onSubTaskGrabbedCallbacks m' = m_onSubTaskGrabbedCallbacks m;
  frame_ids : m_processedSubTaskIds m' = m_processedSubTaskIds m;
  frame_sink : m_subTaskQueueAssignmentEventSink m' = m_subTaskQueueAssignmentEventSink m;
  frame_grab : m_dltGrabSubTaskTimeout (m_world m') = m_dltGrabSubTaskTimeout (m_world m);
  frame_response : m_dltQueueResponseTimeout (m_world m') = m_dltQueueResponseTimeout (m_world m)
}.

Lemma unchanged_refl m : frame m m.
Proof. by split. Qed.

(** Effects that are no calls of callbacks. *)
Definition silent (es : list effect) : Prop :=
  Forall (fun e => match e with Callback _ _ => False | _ => True end) es.

Lemma called_app es es' : called (es ++ es') = called es ++ called es'.
Proof. apply omap_app. Qed.

Lemma called_silent es : silent es -> called es = [].
Proof. induction 1 as [|[] es He]; done. Qed.

Lemma trace_ok_snoc node es e :
  trace_ok node es ->
  (forall c st, e = Callback c (Some st) -> exists l0 q i it, es = l0 ++ [Publish q] /\ subtasks q !! i = Some st /\
      items (processing_queue q) !! i = Some it /\ lock_node_id it = node /\
      owner_node_id (processing_queue q) = node) ->
  trace_ok node (es ++ [e]).
Proof.
  intros Hes He l1 c st l2 Heq. destruct (decide (l2 = [])) as [-> | Hne].
  - apply app_inj_tail in Heq as [-> ->]. by apply (He c st).
  - destruct (exists_last Hne) as (l2' & e' & ->). rewrite app_comm_cons, app_assoc in Heq.
    apply app_inj_tail in Heq as [-> _]. by apply (Hes l1 c st l2').
Qed.

Lemma trace_ok_silent node es es' : trace_ok node es -> silent es' -> trace_ok node (es ++ es').
Proof.
  intros Hes Hs. revert es Hes. induction Hs as [|e es' He Hs IH]; intros es Hes; [by rewrite app_nil_r|].
  rewrite cons_middle, app_assoc. apply IH, trace_ok_snoc; [done|]. by intros c st ->.
Qed.

(** The invariant after a step that calls no callback and changes the table at
    most within its items. *)
Lemma inv_frame node reg m m' q q' es :
  inv node reg m -> frame m m' -> table m = Some q -> table m' = Some q' ->
  length (items q') = length (items q) -> log m' = log m ++ es -> silent es -> inv node reg m'.
Proof.
  intros [Hn Ht Hc Htr Hr Hg] F Hq Hq' Hl Hlog Hs. destruct F as [F1 F2 F3 F4 F5 F6 F7 F8].
  split; rewrite ?F1, ?F2, ?F3, ?F4, ?F7, ?F8, ?Hq', ?Hlog; try done.
  - rewrite Hq in Ht. unfold fits in *. by rewrite Hl.
  - rewrite called_app, (called_silent es Hs), app_nil_r. done.
  - by apply trace_ok_silent.
Qed.

Lemma inv_frame_nil node reg m m' q q' :
  inv node reg m -> frame m m' -> table m = Some q -> table m' = Some q' ->
  length (items q') = length (items q) -> log m' = log m -> inv node reg m'.
Proof.
  intros Hinv F Hq Hq' Hl Hlog. apply (inv_frame node reg m m' q q' []); try done; [by rewrite app_nil_r|constructor].
Qed.

Section handlers.
Context (clock : nat -> Z) (active_nodes : nat -> Z) (node : bytes).

(** ** Time and publishing *)

Lemma set_last_update_timestamp_same q : set_last_update_timestamp (last_update_timestamp q) q = q.
Proof. by destruct q. Qed.

Lemma UpdateQueueTimestamp_runs m q :
  table m = Some q ->
  runs (UpdateQueueTimestamp clock) m (fun _ m' =>
    frame m m' /\ log m' = log m /\ m_quota m' = m_quota m /\
    exists ts, table m' = Some (set_last_update_timestamp ts q)).
Proof.
  intros Hq. unfold UpdateQueueTimestamp. do 2 run_step.
  destruct (ProcessingSubTaskQueue.HasOwnership _).
  - run_step. eexists _, _. split; [reflexivity|]. run_step. unfold table in Hq. cbn. rewrite Hq.
    split_and!; [by split|done|done|by eexists].
  - run_step. split_and!; [apply unchanged_refl|done|done|]. exists (last_update_timestamp q).
    by rewrite set_last_update_timestamp_same.
Qed.

Lemma queue_runs m q (Q : ProcessingQueue -> t -> Prop) : table m = Some q -> Q q m -> runs queue m Q.
Proof.
  intros Hq HQ. exists q, m. split; [|done]. unfold queue, ProcessingSubTaskQueue.deref.
  unfold table in Hq. by rewrite Hq.
Qed.

Lemma PublishSubTaskQueue_runs m q :
  table m = Some q ->
  runs (PublishSubTaskQueue clock) m (fun _ m' =>
    frame m m' /\ m_quota m' = m_quota m /\ exists ts,
      table m' = Some (set_last_update_timestamp ts q) /\
      log m' = log m ++ [Publish (mkSubTaskQueue (set_last_update_timestamp ts q) (m_subtasks m))]).
Proof.
  intros Hq. unfold PublishSubTaskQueue. run_step.
  eapply runs_mono; [by apply UpdateQueueTimestamp_runs|]. intros _ m' (F & Hlog & Hquota & ts & Ht).
  run_step. eapply queue_runs; [done|]. do 2 run_step. unfold emit. run_step.
  split_and!; [by destruct F|done|]. exists ts. split; [done|].
  unfold log in *. cbn. by rewrite Hlog, (frame_subtasks _ _ F).
Qed.

(** ** Operations on the table *)

(** Live states: the invariant holds and there is a table. *)
Definition live (reg : list nat) (m : t) : Prop := inv node reg m /\ is_Some (table m).

Lemma UpdateQueueTimestamp_live reg m :
  live reg m -> runs (UpdateQueueTimestamp clock) m (fun _ m' => live reg m' /\ frame m m').
Proof.
  intros [Hinv [q Hq]]. eapply runs_mono; [by apply UpdateQueueTimestamp_runs|].
  intros _ m' (F & Hlog & _ & ts & Ht). split; [|done]. split; [|by eexists].
  by eapply inv_frame_nil.
Qed.

Lemma PublishSubTaskQueue_live reg m :
  live reg m -> runs (PublishSubTaskQueue clock) m (fun _ m' => live reg m' /\ frame m m').
Proof.
  intros [Hinv [q Hq]]. eapply runs_mono; [by apply PublishSubTaskQueue_runs|].
  intros _ m' (F & _ & ts & Ht & Hlog). split; [|done]. split; [|by eexists].
  eapply inv_frame; try done. by constructor.
Qed.

Lemma unprocessed_loop_ok processed ts tab i l :
  (i + length l <= length tab)%nat ->
  exists idxs, unprocessed_loop processed ts tab i l = Ok idxs /\ Forall (fun j => (j < i + length l)%nat) idxs.
Proof.
  revert i. induction l as [|st l IH]; intros i Hi; simpl; [by exists []|]. simpl in Hi.
  destruct (lookup_lt_is_Some_2 tab i ltac:(lia)) as [it ->]. simpl.
  destruct (IH (S i) ltac:(lia)) as (idxs & -> & Hr). simpl. rewrite Nat.add_succ_r.
  destruct (_ && _); eexists; (split; [done|]); [|done]. constructor; [lia|done].
Qed.

Lemma UpdateUnprocessedSubTaskIndices_runs q m :
  (length (subtasks q) <= length (items (processing_queue q)))%nat ->
  runs (UpdateUnprocessedSubTaskIndices q) m (fun idxs m' =>
    m' = m /\ fits (processing_queue q) (subtasks q) idxs).
Proof.
  intros Hl. destruct (unprocessed_loop_ok (m_processedSubTaskIds m) (timestamp m)
    (items (processing_queue q)) 0 (subtasks q)) as (idxs & Hu & Hr); [simpl; lia|].
  exists idxs, m. split; [|done]. unfold UpdateUnprocessedSubTaskIndices. by rewrite Hu.
Qed.

(** [HasAvailableWork] only looks. *)
Lemma HasAvailableWork_runs reg b m :
  inv node reg m -> runs (HasAvailableWork b) m (fun w m' => m' = m /\ (w = true -> is_Some (table m))).
Proof.
  intros Hinv. unfold HasAvailableWork. do 2 run_step.
  destruct (b && _); [by run_step|]. unfold is_init. fold (table (id m)).
  destruct (table (id m)) as [q|] eqn:Hq; cbn; [|by run_step].
  pose proof (inv_table _ _ _ Hinv) as Ht. change (table (id m)) with (table m) in Hq. rewrite Hq in Ht.
  run_step. eapply queue_runs; [done|]. run_step.
  eapply runs_mono; [apply UpdateUnprocessedSubTaskIndices_runs, Ht|].
  intros idxs m' [-> _]. run_step. eauto.
Qed.

Lemma CheckActiveCount_live reg m :
  live reg m -> runs (CheckActiveCount clock active_nodes) m (fun _ m' => live reg m' /\ frame m m').
Proof.
  intros [Hinv [q Hq]]. unfold CheckActiveCount. do 3 run_step. eexists _, _. split; [reflexivity|].
  assert (forall c quo, let m' := set_quota quo (set_world (mkWorld (m_dltGrabSubTaskTimeout (m_world m))
    (m_dltQueueResponseTimeout (m_world m)) c (effects (m_world m))) m) in live reg m' /\ frame m m') as Hend.
  { intros c quo. split; [split; [|by exists q]|by split].
    by apply (inv_frame_nil node reg m _ q q). }
  run_step. destruct (1 <? _); [|run_step; eapply queue_runs; [done|]]; do 2 run_step; apply Hend.
Qed.

Lemma on_queue_runs {A} (f : ProcessingSubTaskQueue.t -> outcome (A * ProcessingSubTaskQueue.t)) m a pq
    (Q : A -> t -> Prop) :
  f (m_processingQueue m) = Ok (a, pq) -> Q a (set_processingQueue pq m) -> runs (on_queue f) m Q.
Proof. intros Hf HQ. exists a, (set_processingQueue pq m). unfold on_queue. by rewrite Hf. Qed.

Lemma pq_eta m q :
  table m = Some q -> m_processingQueue m = ProcessingSubTaskQueue.with_queue q (m_processingQueue m).
Proof. unfold table. destruct m as [[l o e]]. simpl. by intros ->. Qed.

(** Another table of the same size is put in place. *)
Lemma set_table_live reg m q q' :
  live reg m -> table m = Some q -> length (items q') = length (items q) ->
  let m' := set_processingQueue (ProcessingSubTaskQueue.with_queue q' (m_processingQueue m)) m in
  live reg m' /\ frame m m'.
Proof.
  intros [Hinv _] Hq Hl m'. assert (frame m m') as F by by split.
  split; [split; [|by exists q']|done]. by apply (inv_frame_nil node reg m m' q q').
Qed.

Definition owns (m : t) : Prop := exists q, table m = Some q /\ owner_node_id q = node.

(** An enabled item is free. *)
Definition some_free (m : t) : Prop := exists q,
  table m = Some q /\ owner_node_id q = node /\ find (free_at (items q)) (enabled m) <> None.

Lemma GrabItem_table reg m q ts :
  live reg m -> table m = Some q ->
  exists r q', ProcessingSubTaskQueue.GrabItem ts (m_processingQueue m) =
      Ok (r, ProcessingSubTaskQueue.with_queue q' (m_processingQueue m)) /\
    length (items q') = length (items q) /\ owner_node_id q' = owner_node_id q /\
    match r with
    | Some i => owner_node_id q' = node /\ i ∈ enabled m /\ exists it, items q' !! i = Some it /\ lock_node_id it = node
    | None => items q' = items q /\ ~ some_free m
    end.
Proof.
  intros [Hinv _] Hq. pose proof (inv_table _ _ _ Hinv) as Ht. rewrite Hq in Ht.
  pose proof (inv_node _ _ _ Hinv) as Hn. unfold localNodeId in Hn.
  assert (ProcessingSubTaskQueue.GrabItem ts (m_processingQueue m) = ProcessingSubTaskQueue.GrabItem ts
    (ProcessingSubTaskQueue.with_queue q (m_processingQueue m))) as -> by (by rewrite <-pq_eta).
  destruct (decide (owner_node_id q = node)) as [Ho | Ho].
  - rewrite <-Hn in Ho. rewrite GrabItem_owner by (done || exact (fits_range _ _ _ Ht)).
    destruct (find _ _) as [i|] eqn:Hf.
    + eexists (Some i), _. split; [done|]. cbn. rewrite length_insert. split_and!; [done|done|by rewrite Ho| |].
      { apply find_some in Hf as [Hf _]. by apply list_elem_of_In. }
      destruct (find_free_insert _ _ (mkItem ts (ProcessingSubTaskQueue.m_localNodeId (m_processingQueue m))
        (u64 (ts + processing_timeout_length q))) _ Hf) as (it & _ & _ & Hit). eexists. split; [exact Hit|done].
    + eexists None, _. split_and!; [done..|]. intros (q0 & Hq0 & _ & Hne). rewrite Hq in Hq0. by injection Hq0 as <-.
  - exists None, q. split_and!; [|done..|].
    + unfold ProcessingSubTaskQueue.GrabItem, ProcessingSubTaskQueue.HasOwnership. cbn.
      by rewrite bool_decide_false by (by rewrite Hn).
    + intros (q0 & Hq0 & Hne & _). rewrite Hq in Hq0. by injection Hq0 as <-.
Qed.

Lemma UnlockExpiredItems_table reg m q ts :
  live reg m -> table m = Some q ->
  exists u q', ProcessingSubTaskQueue.UnlockExpiredItems ts (m_processingQueue m) =
      Ok (u, ProcessingSubTaskQueue.with_queue q' (m_processingQueue m)) /\
    length (items q') = length (items q) /\ owner_node_id q' = owner_node_id q /\
    (u = true -> owner_node_id q' = node /\ find (free_at (items q')) (enabled m) <> None).
Proof.
  intros [Hinv _] Hq. pose proof (inv_table _ _ _ Hinv) as Ht. rewrite Hq in Ht.
  pose proof (inv_node _ _ _ Hinv) as Hn. unfold localNodeId in Hn.
  assert (ProcessingSubTaskQueue.UnlockExpiredItems ts (m_processingQueue m) =
    ProcessingSubTaskQueue.UnlockExpiredItems ts (ProcessingSubTaskQueue.with_queue q (m_processingQueue m))) as ->
    by (by rewrite <-pq_eta).
  destruct (decide (owner_node_id q = node)) as [Ho | Ho].
  - destruct (UnlockExpiredItems_owner (m_processingQueue m) q ts) as (u & q' & -> & Ho' & Hl & Hat & Hu);
      [by rewrite Hn|exact (fits_range _ _ _ Ht)|].
    exists u, q'. split_and!; [done..|]. intros Hut. split; [by rewrite Ho'|].
    apply Hu in Hut as (i & it & Hi & Hit & Hx). intros Hf.
    pose proof (Hat i it Hi Hit) as Hit'. rewrite Hx in Hit'.
    by pose proof (find_none_held _ _ i unlocked_item Hf Hi Hit').
  - exists false, (set_last_update_timestamp ts q). split_and!; [|done|done|done].
    unfold ProcessingSubTaskQueue.UnlockExpiredItems, ProcessingSubTaskQueue.HasOwnership. cbn.
    by rewrite bool_decide_false by (by rewrite Hn).
Qed.

(** ** Handing out subtasks *)

Lemma hand_out_runs reg m q i it c cs :
  live reg m -> table m = Some q -> owner_node_id q = node -> i ∈ enabled m -> items q !! i = Some it ->
  lock_node_id it = node -> m_onSubTaskGrabbedCallbacks m = c :: cs ->
  runs (hand_out clock i) m (fun _ m' => live reg m' /\ m_onSubTaskGrabbedCallbacks m' = cs).
Proof.
  intros [Hinv _] Hq Ho Hen Hit Hlock Hcs. pose proof (inv_table _ _ _ Hinv) as Ht. rewrite Hq in Ht.
  unfold hand_out. run_step. eapply runs_mono; [by apply PublishSubTaskQueue_runs|].
  intros _ m1 (F & _ & ts & Ht1 & Hlog). do 4 run_step.
  assert (m_subtasks m1 = m_subtasks m) as Hst by apply F.
  destruct (lookup_lt_is_Some_2 (m_subtasks m) i) as [st Hsti].
  { destruct Ht as [_ Ht]. rewrite Forall_forall in Ht. by apply Ht. }
  run_step. eapply runs_lift; [cbn; by rewrite Hst, Hsti|].
  cbn [id set_processed_count set_quota m_onSubTaskGrabbedCallbacks]. rewrite (frame_callbacks _ _ F), Hcs.
  do 2 run_step. run_step. eapply queue_runs; [exact Ht1|]. run_step. unfold emit. run_step. run_step.
  destruct Hinv as [Hn _ Hc Htr Hr Hg]. unfold log in *. split; [split|done].
  - split; cbn.
    + by rewrite <-Hn, <-(frame_node _ _ F).
    + unfold table in *. cbn. rewrite Ht1, Hst. unfold enabled. cbn. by rewrite <-(frame_enabled _ _ F) in Ht.
    + rewrite Hlog, !called_app. cbn. rewrite app_nil_r, <-app_assoc. by rewrite <-Hc, Hcs.
    + apply trace_ok_snoc.
      * rewrite Hlog. apply trace_ok_silent; [done|by constructor].
      * intros c' st' [= -> ->]. rewrite Hlog. eexists _, _, i, it. by split_and!.
    + by rewrite (frame_response _ _ F).
    + intros _. by exists (set_last_update_timestamp ts q).
  - by exists (set_last_update_timestamp ts q).
Qed.

(** After items have been unlocked the next round hands one out, so that two
    rounds for every callback are enough. *)
Lemma grab_loop_runs reg fuel m :
  live reg m ->
  (let n := length (m_onSubTaskGrabbedCallbacks m) in
   2 * n + 1 <= fuel \/ some_free m /\ 1 <= n /\ 2 * n <= fuel)%nat ->
  runs (grab_loop clock fuel) m (fun _ m' => live reg m').
Proof.
  revert m. induction fuel as [|fuel IH]; intros m Hm Hfuel; [simpl in Hfuel; lia|].
  cbn [grab_loop]. do 2 run_step. change (id m) with m.
  destruct (m_onSubTaskGrabbedCallbacks m) as [|c cs] eqn:Hcs; [by run_step|].
  destruct (bool_decide _ && _); [|by run_step]. simpl in Hfuel.
  destruct Hm as [Hinv [q Hq]]. assert (live reg m) as Hm by (split; [done|by exists q]).
  run_step. destruct (GrabItem_table reg m q (timestamp m) Hm Hq) as (r & q' & Hg & Hl & Ho & Hr).
  eapply on_queue_runs; [exact Hg|]. destruct (set_table_live reg m q q' Hm Hq Hl) as [Hm1 F1].
  set (m1 := set_processingQueue _ m) in *. assert (table m1 = Some q') as Hq1 by done.
  destruct r as [i|].
  - destruct Hr as (Ho' & Hen & it & Hit & Hlock). run_step.
    eapply runs_mono; [by eapply hand_out_runs|]. intros losing m2 [Hm2 Hcs2].
    destruct losing; [by run_step|]. apply IH; [done|]. rewrite Hcs2. left. lia.
  - destruct Hr as [_ Hnf]. run_step.
    destruct (UnlockExpiredItems_table reg m1 q' (timestamp m) Hm1 Hq1) as (u & q2 & Hu & Hl2 & _ & Hfree).
    eapply on_queue_runs; [exact Hu|]. destruct (set_table_live reg m1 q' q2 Hm1 Hq1 Hl2) as [Hm2 F2].
    destruct u; [|by run_step]. apply IH; [done|]. right.
    rewrite (frame_callbacks _ _ F2), (frame_callbacks _ _ F1), Hcs. simpl.
    destruct (Hfree eq_refl) as [Ho2 Hf]. split_and!; [|lia|].
    + exists q2. split_and!; [done|done|]. exact Hf.
    + destruct Hfuel as [?|[Hsf _]]; [lia|done].
Qed.

Lemma none_available_runs reg cs m :
  live reg m -> m_onSubTaskGrabbedCallbacks m = cs ->
  runs (none_available cs) m (fun _ m' => live reg m').
Proof.
  revert m. induction cs as [|c cs IH]; intros m [Hinv [q Hq]] Hcs; [by run_step|].
  cbn [none_available]. run_step. unfold emit. do 3 run_step. apply IH; [|done].
  split; [|by exists q]. destruct Hinv as [Hn Ht Hc Htr Hr Hg]. split; try done.
  - unfold log. cbn. rewrite called_app. simpl. rewrite <-app_assoc. by rewrite <-Hc, Hcs.
  - by apply trace_ok_snoc.
Qed.

(** A table with other requests, owner or processed identifiers. *)
Lemma with_queue_live reg m q q' a (Q : _ -> t -> Prop) (f : ProcessingSubTaskQueue.t -> outcome (bool * _)) :
  live reg m -> table m = Some q -> length (items q') = length (items q) ->
  f (m_processingQueue m) = Ok (a, ProcessingSubTaskQueue.with_queue q' (m_processingQueue m)) ->
  (forall m', live reg m' -> frame m m' -> table m' = Some q' -> Q a m') -> runs (on_queue f) m Q.
Proof.
  intros Hm Hq Hl Hf HQ. eapply on_queue_runs; [exact Hf|].
  destruct (set_table_live reg m q q' Hm Hq Hl) as [Hm' F]. by apply HQ.
Qed.

Lemma AddOwnershipRequest_live reg m n ts :
  live reg m ->
  runs (on_queue (fun q => Ok (ProcessingSubTaskQueue.AddOwnershipRequest n ts q))) m
    (fun added m' => live reg m' /\ frame m m').
Proof.
  intros Hm. destruct Hm as [Hinv [q Hq]]. eapply with_queue_live; [by split|exact Hq| | |].
  3:{ intros m' Hm' F _. by split. }
  2:{ unfold ProcessingSubTaskQueue.AddOwnershipRequest. unfold table in Hq. by rewrite Hq. }
  done.
Qed.

Lemma GetLastLockTimestamp_ok reg m :
  live reg m -> exists z, ProcessingSubTaskQueue.GetLastLockTimestamp (m_processingQueue m) = Ok z.
Proof.
  intros [Hinv [q Hq]]. pose proof (inv_table _ _ _ Hinv) as Ht. rewrite Hq in Ht. apply fits_range in Ht as Hr.
  unfold ProcessingSubTaskQueue.GetLastLockTimestamp, ProcessingSubTaskQueue.deref.
  unfold table in Hq. rewrite Hq. fold (enabled m).
  assert (forall idxs z, Forall (fun i => (i < length (items q))%nat) idxs ->
    exists z', ProcessingSubTaskQueue.last_lock_loop q idxs z = Ok z') as H.
  { induction idxs as [|i idxs IH]; intros z Hi; [by exists z|]. apply Forall_cons in Hi as [Hi Hidxs]. simpl.
    apply lookup_lt_is_Some_2 in Hi as [it ->]. simpl. by apply IH. }
  destruct (enabled m) as [|i idxs]; [by eexists|]. by apply H.
Qed.

Lemma grab_timer_live reg m z :
  live reg m -> runs (grab_timer z) m (fun _ m' => live reg m' /\
    m_onSubTaskGrabbedCallbacks m' = m_onSubTaskGrabbedCallbacks m /\ m_processingQueue m' = m_processingQueue m).
Proof.
  intros [[Hn Ht Hc Htr Hr Hg] Hs]. unfold grab_timer. run_step. split; [|done].
  split; [|done]. by split.
Qed.

Lemma ProcessPendingSubTaskGrabbing_live reg m :
  live reg m -> runs (ProcessPendingSubTaskGrabbing clock active_nodes) m (fun _ m' => live reg m').
Proof.
  intros Hm. unfold ProcessPendingSubTaskGrabbing.
  run_step. eapply runs_mono; [by apply grab_timer_live|]. intros _ m1 [Hm1 _].
  run_step. eapply runs_mono; [by apply UpdateQueueTimestamp_live|]. intros _ m2 [Hm2 _].
  run_step. eapply runs_mono; [by apply CheckActiveCount_live|]. intros _ m3 [Hm3 _].
  do 2 run_step. run_step. eapply runs_mono; [apply grab_loop_runs; [done|by left]|]. intros losing m4 Hm4.
  do 4 run_step. run_step.
  assert (forall m5, live reg m5 -> runs (m ← gets id; match m_onSubTaskGrabbedCallbacks m with
    | [] => mret tt
    | callbacks => pq ← queue; if bool_decide (size (m_processedSubTaskIds m) < length (items pq))%nat
        then timeout ← CalculateGrabSubTaskTimeout; grab_timer (Some timeout) else none_available callbacks
    end) m5 (fun _ m' => live reg m')) as Hend.
  { intros m5 Hm5. do 2 run_step. change (id m5) with m5.
    destruct (m_onSubTaskGrabbedCallbacks m5) as [|c cs] eqn:Hcs; [by run_step|].
    destruct (proj2 Hm5) as [q Hq]. run_step. eapply queue_runs; [exact Hq|].
    destruct (bool_decide _); [|by apply none_available_runs].
    run_step. unfold CalculateGrabSubTaskTimeout. do 2 run_step.
    destruct (GetLastLockTimestamp_ok reg m5 Hm5) as [z Hz]. run_step. eapply runs_lift; [exact Hz|]. run_step.
    eapply runs_mono; [by apply grab_timer_live|]. by intros _ m6 []. }
  run_step; [|by apply Hend].
  run_step. eapply runs_mono; [exact (UpdateQueueTimestamp_live reg m4 Hm4)|]. intros _ m5 [Hm5 _].
  do 2 run_step. run_step. eapply runs_mono; [exact (AddOwnershipRequest_live reg m5 _ _ Hm5)|]. intros added m6 [Hm6 _].
  eapply runs_mono; [exact (PublishSubTaskQueue_live reg m6 Hm6)|]. intros _ m7 [Hm7 _]. by apply Hend.
Qed.

(** ** The handlers *)

Lemma emit_inv reg m e :
  inv node reg m -> silent [e] ->
  runs (emit e) m (fun _ m' => inv node reg m' /\ m_processingQueue m' = m_processingQueue m).
Proof.
  intros [Hn Ht Hc Htr Hr Hg] He. unfold emit. run_step. split; [|done]. split; try done.
  - unfold log. cbn. rewrite called_app, (called_silent [e]), app_nil_r; done.
  - by apply trace_ok_silent.
Qed.

Lemma response_timer_inv reg m : inv node reg m -> runs (response_timer false) m (fun _ m' =>
  inv node reg m' /\ m_processingQueue m' = m_processingQueue m).
Proof. intros [Hn Ht Hc Htr Hr Hg]. unfold response_timer. run_step. split; [|done]. by split. Qed.

Lemma owns_live reg m :
  inv node reg m -> ProcessingSubTaskQueue.HasOwnership (m_processingQueue m) = true -> live reg m.
Proof.
  intros Hinv Ho. split; [done|]. unfold ProcessingSubTaskQueue.HasOwnership in Ho. fold (table m) in Ho.
  destruct (table m); [by eexists|done].
Qed.

Lemma GrabSubTasks_inv reg m :
  inv node reg m -> runs (GrabSubTasks clock active_nodes) m (fun _ m' => inv node reg m').
Proof.
  intros Hinv. unfold GrabSubTasks. do 2 run_step. destruct (ProcessingSubTaskQueue.HasOwnership _) eqn:Ho.
  - eapply runs_mono; [apply (ProcessPendingSubTaskGrabbing_live reg m); by apply owns_live|]. by intros _ m' [].
  - do 2 run_step. eapply runs_mono; [by apply (emit_inv reg); [|constructor]|]. by intros _ m' [].
Qed.

Lemma GrabSubTask_inv reg m c :
  inv node reg m -> runs (GrabSubTask clock active_nodes c) m (fun _ m' => inv node (reg ++ [c]) m').
Proof.
  intros [Hn Ht Hc Htr Hr Hg]. unfold GrabSubTask. do 2 run_step. apply GrabSubTasks_inv.
  split; try done. change (called (log m) ++ (m_onSubTaskGrabbedCallbacks m ++ [c]) = reg ++ [c]).
  by rewrite app_assoc, Hc.
Qed.

Lemma HandleGrabSubTaskTimeout_live reg m :
  live reg m -> runs (HandleGrabSubTaskTimeout clock active_nodes) m (fun _ m' => inv node reg m').
Proof.
  intros Hm. unfold HandleGrabSubTaskTimeout. run_step. eapply runs_mono; [by apply (grab_timer_live reg)|].
  intros _ m1 [Hm1 _]. do 2 run_step. change (id m1) with m1.
  destruct (m_onSubTaskGrabbedCallbacks m1); [run_step; apply Hm1|].
  destruct (proj2 Hm1) as [q Hq]. run_step. eapply queue_runs; [exact Hq|].
  run_step; [|apply Hm1]. apply GrabSubTasks_inv, Hm1.
Qed.

Lemma set_owner_live reg m q n b (Q : bool -> t -> Prop) f :
  live reg m -> table m = Some q ->
  f (m_processingQueue m) = Ok (b, ProcessingSubTaskQueue.with_queue (set_owner_node_id n q) (m_processingQueue m)) ->
  (forall m', live reg m' -> Q b m') -> runs (on_queue f) m Q.
Proof. intros Hm Hq Hf HQ. eapply with_queue_live; [done|exact Hq| |exact Hf|by eauto]. done. Qed.

Lemma MoveOwnershipTo_runs reg m n :
  inv node reg m ->
  runs (on_queue (ProcessingSubTaskQueue.MoveOwnershipTo n)) m (fun moved m' =>
    inv node reg m' /\ (moved = true -> live reg m') /\ (moved = false -> m' = m)).
Proof.
  intros Hinv. destruct (ProcessingSubTaskQueue.HasOwnership (m_processingQueue m)) eqn:Ho.
  - pose proof (owns_live reg m Hinv Ho) as Hm. destruct (proj2 Hm) as [q Hq].
    eapply (set_owner_live reg m q n true); [done|done| |].
    + unfold ProcessingSubTaskQueue.MoveOwnershipTo, ProcessingSubTaskQueue.ChangeOwnershipTo, ProcessingSubTaskQueue.deref.
      unfold table in Hq. by rewrite Ho, Hq.
    + intros m' Hm'. split_and!; [apply Hm'|done|done].
  - exists false, m. unfold on_queue, ProcessingSubTaskQueue.MoveOwnershipTo. rewrite Ho. by destruct m.
Qed.

Lemma MoveOwnershipTo_inv reg m n :
  inv node reg m -> runs (MoveOwnershipTo clock n) m (fun _ m' => inv node reg m').
Proof.
  intros Hinv. unfold MoveOwnershipTo. run_step. eapply runs_mono; [by apply MoveOwnershipTo_runs|].
  intros [] m1 (H1 & H2 & _); [|by run_step]. run_step.
  eapply runs_mono; [by apply (PublishSubTaskQueue_live reg), H2|]. intros _ m2 [Hm2 _]. run_step. apply Hm2.
Qed.

Lemma set_quota_live reg m quo : live reg m -> live reg (set_quota quo m).
Proof. intros [[] ?]. by split; [split|]. Qed.

Lemma set_time_live reg m x : live reg m -> live reg (set_time x m).
Proof. intros [[] ?]. by split; [split|]. Qed.

Lemma acquire_time_live reg m ts :
  live reg m -> runs (acquire_time clock ts) m (fun _ m' => live reg m').
Proof.
  intros [[] ?]. unfold acquire_time. run_step. eexists _, _. split; [reflexivity|]. run_step.
  by split; [split|].
Qed.

Lemma ownership_acquired_live reg m ts :
  live reg m -> runs (ownership_acquired clock active_nodes ts) m (fun _ m' => live reg m').
Proof.
  intros Hm. unfold ownership_acquired. run_step. eapply runs_mono; [by apply (acquire_time_live reg)|].
  intros ? m1 Hm1. do 2 run_step.
  assert (live reg (set_processed_count 0 m1)) as Hm2 by by apply set_quota_live.
  run_step. eapply runs_mono; [eapply HasAvailableWork_runs, Hm2|]. intros work m3 [-> _].
  do 2 run_step. run_step.
  assert (forall m3, live reg m3 -> runs (PublishSubTaskQueue clock) m3 (fun _ m' => live reg m')) as Hend.
  { intros m3 Hm3. eapply runs_mono; [by apply (PublishSubTaskQueue_live reg)|]. by intros _ m4 []. }
  run_step; [|by apply Hend].
  run_step. eapply runs_mono; [by apply (grab_timer_live reg)|]. intros _ m3 [Hm3 _].
  run_step. eapply runs_mono; [eapply response_timer_inv, Hm3|]. intros _ m4 [Hm4 Hpq].
  eapply runs_mono; [apply (ProcessPendingSubTaskGrabbing_live reg)|by eauto].
  split; [done|]. unfold table. rewrite Hpq. apply Hm3.
Qed.

(** A state whose table has been replaced by one that fits. *)
Lemma replace_table_live reg m q l idxs :
  inv node reg m -> fits q l idxs ->
  live reg (set_subtasks l (set_processingQueue (ProcessingSubTaskQueue.mk (localNodeId m) (Some q) idxs) m)).
Proof. intros [] Hf. split; [|by exists q]. by split. Qed.

Lemma install_inv reg m q (b : bool) :
  inv node reg m -> (length (subtasks q) <= length (items (processing_queue q)))%nat -> (b = true -> is_Some (table m)) ->
  runs (idxs ← UpdateUnprocessedSubTaskIndices q;
    accepted ← on_queue (fun pq => Ok (ProcessingSubTaskQueue.UpdateQueue (processing_queue q) idxs pq));
    if (accepted : bool) then modify (set_subtasks (subtasks q));; mret true else mret b) m
  (fun changed m' => inv node reg m' /\ (changed = true -> is_Some (table m')) /\
    (table m = None -> table m' = Some (processing_queue q))).
Proof.
  intros Hm Hl Hb. run_step. eapply runs_mono; [by apply UpdateUnprocessedSubTaskIndices_runs|].
  intros idxs m1 [-> Hf]. run_step.
  pose proof (replace_table_live reg m _ _ _ Hm Hf) as Hrep.
  eapply on_queue_runs; [by rewrite (surjective_pairing (ProcessingSubTaskQueue.UpdateQueue _ _ _))|].
  unfold ProcessingSubTaskQueue.UpdateQueue. fold (table m).
  destruct (table m) as [q0|] eqn:Hq0; [destruct (last_update_timestamp q0 <=? _)|]; cbn [fst snd].
  - do 3 run_step. split_and!; [apply Hrep|by eexists|done].
  - run_step. destruct m. split_and!; [done|by rewrite <-Hq0 in Hb|done].
  - do 3 run_step. split_and!; [apply Hrep|by eexists|done].
Qed.

Lemma set_ids_inv reg m ids : inv node reg m -> inv node reg (set_ids ids m).
Proof. intros []. by split. Qed.

Lemma set_timestamp_inv reg m ts : inv node reg m -> inv node reg (set_timestamp ts m).
Proof. intros []. by split. Qed.

(** Without a table there is no owner, and time stands still. *)
Lemma UpdateQueueTimestamp_inv reg m :
  inv node reg m -> runs (UpdateQueueTimestamp clock) m (fun _ m' =>
    inv node reg m' /\ (is_Some (table m') <-> is_Some (table m))).
Proof.
  intros Hinv. destruct (table m) as [q|] eqn:Hq.
  - eapply runs_mono; [apply (UpdateQueueTimestamp_live reg); split; [done|by exists q]|]. intros _ m' [[Hm' Hs] _].
    split; [done|]. split; [by eexists|done].
  - unfold UpdateQueueTimestamp. do 2 run_step. unfold ProcessingSubTaskQueue.HasOwnership.
    unfold table in *. rewrite Hq. run_step. by rewrite Hq.
Qed.

(** What [UpdateQueue] does before it looks at the subtasks returns; [k] is the
    rest of it. *)
Lemma update_prefix {A} reg m (own merged : bool) ts (k : act t A) (Q : outcome (A * t) -> Prop) :
  inv node reg m -> (own = true -> is_Some (table m)) -> (merged = true -> own = true) ->
  (forall m', inv node reg m' -> (is_Some (table m') <-> is_Some (table m)) -> Q (k m')) ->
  Q ((when (negb own || merged) (modify (set_timestamp ts);; UpdateQueueTimestamp clock);;
      when merged (PublishSubTaskQueue clock);; k) m).
Proof.
  intros Hm Hown Hmerged HQ.
  assert (runs (when (negb own || merged) (modify (set_timestamp ts);; UpdateQueueTimestamp clock);;
      when merged (PublishSubTaskQueue clock)) m (fun _ m' => inv node reg m' /\ (is_Some (table m') <-> is_Some (table m))))
    as ([] & m' & Hr & Hm' & Hs).
  { run_step. apply (runs_mono _ _ (fun _ m1 => inv node reg m1 /\ (is_Some (table m1) <-> is_Some (table m)))).
    - run_step; [|done]. do 2 run_step. eapply runs_mono; [by apply UpdateQueueTimestamp_inv, set_timestamp_inv|].
      intros _ m2 [Hm2 Hs2]. split; [done|]. by rewrite Hs2.
    - intros _ m1 [Hm1 Hs1]. run_step; [|done].
      eapply runs_mono; [apply (PublishSubTaskQueue_live reg); by split; [|apply Hs1, Hown, Hmerged]|].
      intros _ m2 [[Hm2 Hs2] _]. split; [done|]. split; [intros _; by apply Hown, Hmerged|done]. }
  apply act_bind_ok in Hr as ([] & m1 & H1 & H2). unfold mbind, act_bind in *. rewrite H1, H2. by apply HQ.
Qed.

Lemma UpdateQueue_inv reg m q :
  inv node reg m -> (length (subtasks q) <= length (items (processing_queue q)))%nat ->
  runs (UpdateQueue clock q) m (fun changed m' =>
    inv node reg m' /\ (changed = true -> is_Some (table m')) /\
    (table m = None -> table m' = Some (processing_queue q))).
Proof.
  intros Hinv Hl. unfold UpdateQueue. do 4 run_step. change (id m) with m.
  set (own := ProcessingSubTaskQueue.HasOwnership _). set (ids := m_processedSubTaskIds m ∪ _).
  set (merged := own && _). do 2 run_step.
  assert (own = true -> is_Some (table m)) as Hown by (intros Ho; by apply (owns_live reg)).
  assert (merged = true -> own = true) as Hmerged by (by intros []%andb_true_iff).
  set (q1 := if own then _ else _).
  assert ((length (subtasks q1) <= length (items (processing_queue q1)))%nat /\
          (own = false -> processing_queue q1 = processing_queue q)) as [Hl1 Ho1] by (by destruct own).
  clearbody q1 merged. unfold runs. eapply (update_prefix reg); [by apply set_ids_inv|done|done|]. intros m2 Hm2 Hs2.
  eapply runs_mono; [apply (install_inv reg); [done|done|intros ?; by apply Hs2, Hown, Hmerged]|].
  intros changed m3 (Hm3 & Hc & Hnone). split_and!; [done|done|]. intros Hm0.
  rewrite Hnone, Ho1; [done| |].
  - destruct own; [|done]. destruct (Hown eq_refl) as [? Hx]. congruence.
  - destruct (table m2); [|done]. change (is_Some (table (set_ids ids m))) with (is_Some (table m)) in Hs2.
    rewrite Hm0 in Hs2. destruct Hs2 as [Hs2 _]. by destruct (Hs2 ltac:(by eexists)).
Qed.

(** ** Tables that break the handler *)

Lemma unprocessed_loop_short processed ts tab i l :
  (i <= length tab < i + length l)%nat -> unprocessed_loop processed ts tab i l = Err undefined_behaviour.
Proof.
  revert i. induction l as [|st l IH]; intros i Hi; simpl in *; [lia|].
  destruct (tab !! i) as [it|] eqn:Hit; [|done]. apply lookup_lt_Some in Hit. simpl. by rewrite IH by lia.
Qed.

Lemma UpdateQueue_short reg m q :
  inv node reg m -> (length (items (processing_queue q)) < length (subtasks q))%nat ->
  UpdateQueue clock q m = Err undefined_behaviour.
Proof.
  intros Hinv Hl. unfold UpdateQueue, HasOwnership. unfold mbind at 1, act_bind at 1, gets at 1.
  unfold mbind at 1, act_bind at 1, gets at 1. unfold mbind at 1, act_bind at 1, modify at 1. change (id m) with m.
  set (own := ProcessingSubTaskQueue.HasOwnership _). set (ids := m_processedSubTaskIds m ∪ _). set (merged := own && _).
  set (q1 := if own then _ else _).
  assert (length (items (processing_queue q1)) < length (subtasks q1))%nat as Hl1 by (by destruct own).
  assert (own = true -> is_Some (table m)) as Hown by (intros Ho; by apply (owns_live reg)).
  assert (merged = true -> own = true) as Hmerged by (by intros []%andb_true_iff).
  clearbody q1 merged. eapply (update_prefix reg _ own merged _ _ (fun o => o = Err undefined_behaviour));
    [by apply set_ids_inv|done|done|]. intros m2 _ _.
  unfold mbind, act_bind, UpdateUnprocessedSubTaskIndices. by rewrite unprocessed_loop_short by lia.
Qed.

(** A message from the owner about a table this node owns is dropped. *)
Definition dropped (m : t) (q : SubTaskQueue) : bool :=
  ProcessingSubTaskQueue.HasOwnership (m_processingQueue m) && bool_decide (owner_node_id (processing_queue q) = localNodeId m).

Lemma message_short reg m q : inv node reg m -> dropped m q = false ->
  (length (items (processing_queue q)) < length (subtasks q))%nat ->
  ProcessSubTaskQueueMessage clock active_nodes q m = Err undefined_behaviour.
Proof.
  intros Hm Hd Hl. unfold dropped in Hd. destruct (response_timer_inv reg m Hm) as ([] & m1 & Hr & Hm1 & _).
  unfold ProcessSubTaskQueueMessage, mbind, act_bind, HasOwnership, gets. rewrite Hd, Hr.
  by rewrite (UpdateQueue_short reg m1 q Hm1 Hl).
Qed.

(** ** What handing out keeps *)

Definition sink (m : t) : bool := m_subTaskQueueAssignmentEventSink m.

(** The sink, the subtasks and the owner of the table. *)
Record steady (m m' : t) : Prop := mkSteady {
  steady_sink : sink m' = sink m;
  steady_node : localNodeId m' = localNodeId m;
  steady_subtasks : m_subtasks m' = m_subtasks m;
  steady_owner : owner_node_id <$> table m' = owner_node_id <$> table m
}.

#[local] Instance steady_preorder : PreOrder steady.
Proof. split; [by split|]. intros x y z [] []. split; congruence. Qed.

Lemma steady_modify f : (forall m, steady m (f m)) -> preserves steady (modify f).
Proof. intros Hf m a m' [= _ <-]. apply Hf. Qed.

Lemma steady_queue {A} (f : ProcessingSubTaskQueue.t -> outcome (A * ProcessingSubTaskQueue.t)) :
  (forall pq a pq', f pq = Ok (a, pq') -> ProcessingSubTaskQueue.m_localNodeId pq' = ProcessingSubTaskQueue.m_localNodeId pq /\
     owner_node_id <$> ProcessingSubTaskQueue.m_queue pq' = owner_node_id <$> ProcessingSubTaskQueue.m_queue pq) ->
  preserves steady (on_queue f).
Proof. intros Hf m a m'. unfold on_queue. destruct (f _) as [[x pq]|] eqn:E; [|done]. intros [= <- <-]. apply Hf in E as []. by split. Qed.

Lemma lock_loop_owner local ts idxs q r q' : ProcessingSubTaskQueue.lock_loop local ts idxs q = Ok (r, q') -> owner_node_id q' = owner_node_id q.
Proof.
  induction idxs as [|i idxs IH]; simpl; [by intros [= _ <-]|]. destruct (items q !! i); [|done]. simpl.
  case_match; [by intros [= _ <-]|done].
Qed.

Lemma unlock_loop_keeps_owner ts idxs q b r q' : ProcessingSubTaskQueue.unlock_loop ts idxs q b = Ok (r, q') -> owner_node_id q' = owner_node_id q.
Proof.
  revert q b. induction idxs as [|i idxs IH]; intros q b; simpl; [by intros [= _ <-]|]. destruct (items q !! i); [|done]. simpl.
  case_match; [by intros ->%IH|by apply IH].
Qed.

Lemma GrabItem_steady ts : preserves steady (on_queue (ProcessingSubTaskQueue.GrabItem ts)).
Proof.
  apply steady_queue. intros [l [q|] e] a pq'; unfold ProcessingSubTaskQueue.GrabItem, ProcessingSubTaskQueue.LockItem; cbn;
    [|by intros [= _ <-]]. case_match; [|by intros [= _ <-]].
  destruct (ProcessingSubTaskQueue.lock_loop _ _ _ _) as [[r q']|] eqn:E; [|done]. intros [= _ <-]. cbn. by rewrite (lock_loop_owner _ _ _ _ _ _ E).
Qed.

Lemma UnlockExpiredItems_steady ts : preserves steady (on_queue (ProcessingSubTaskQueue.UnlockExpiredItems ts)).
Proof.
  apply steady_queue. intros [l [q|] e] a pq'; unfold ProcessingSubTaskQueue.UnlockExpiredItems; cbn; [|done].
  case_match; [|by intros [= _ <-]].
  destruct (ProcessingSubTaskQueue.unlock_loop _ _ _ _) as [[r q']|] eqn:E; [|done]. intros [= _ <-]. cbn.
  by rewrite (unlock_loop_keeps_owner _ _ _ _ _ _ E).
Qed.

Lemma AddOwnershipRequest_steady n ts :
  preserves steady (on_queue (fun q => Ok (ProcessingSubTaskQueue.AddOwnershipRequest n ts q))).
Proof. apply steady_queue. intros [l [q|] e] a pq'; cbn; by intros [= _ <-]. Qed.

Lemma now_steady : preserves steady (now clock).
Proof. intros m a m' [= _ <-]. by split. Qed.

Lemma queue_steady : preserves steady queue.
Proof. intros m a m'. unfold queue. destruct (ProcessingSubTaskQueue.deref _); [|done]. by intros [= _ <-]. Qed.

Lemma unprocessed_steady q : preserves steady (UpdateUnprocessedSubTaskIndices q).
Proof. intros m a m'. unfold UpdateUnprocessedSubTaskIndices. case_match; [|done]. by intros [= _ <-]. Qed.

#[local] Hint Extern 1 (preserves steady (modify _)) => apply steady_modify; intros []; by split : preserves.
#[local] Hint Resolve GrabItem_steady UnlockExpiredItems_steady AddOwnershipRequest_steady now_steady queue_steady unprocessed_steady : preserves.

Ltac steady_step := first [solve [eauto with preserves] | preserves_step].

Lemma UpdateQueueTimestamp_steady : preserves steady (UpdateQueueTimestamp clock).
Proof.
  unfold UpdateQueueTimestamp, HasOwnership. repeat steady_step. apply steady_modify. intros [[l [q|] e]]; by split.
Qed.
#[local] Hint Resolve UpdateQueueTimestamp_steady : preserves.

Lemma PublishSubTaskQueue_steady : preserves steady (PublishSubTaskQueue clock).
Proof. unfold PublishSubTaskQueue, emit. repeat steady_step. Qed.

Lemma CheckActiveCount_steady : preserves steady (CheckActiveCount clock active_nodes).
Proof. unfold CheckActiveCount. repeat steady_step. Qed.
#[local] Hint Resolve PublishSubTaskQueue_steady CheckActiveCount_steady : preserves.

Lemma grab_loop_steady fuel : preserves steady (grab_loop clock fuel).
Proof. induction fuel as [|fuel IH]; cbn [grab_loop]; unfold hand_out, emit; repeat (steady_step || apply IH). Qed.

Lemma none_available_steady cs : preserves steady (none_available cs).
Proof. induction cs as [|c cs IH]; cbn [none_available]; unfold emit; repeat (steady_step || apply IH). Qed.
#[local] Hint Resolve grab_loop_steady none_available_steady : preserves.

Lemma ProcessPendingSubTaskGrabbing_steady : preserves steady (ProcessPendingSubTaskGrabbing clock active_nodes).
Proof.
  unfold ProcessPendingSubTaskGrabbing, grab_timer, HasOwnership, IsProcessed, CalculateGrabSubTaskTimeout, when. repeat steady_step.
Qed.
#[local] Hint Resolve ProcessPendingSubTaskGrabbing_steady : preserves.

Lemma ownership_acquired_steady ts : preserves steady (ownership_acquired clock active_nodes ts).
Proof. unfold ownership_acquired, acquire_time, HasAvailableWork, grab_timer, response_timer, when. repeat steady_step. Qed.

(** A message that is not the first table with this node as its owner. *)
Lemma ProcessSubTaskQueueMessage_inv reg m q :
  inv node reg m -> (length (subtasks q) <= length (items (processing_queue q)))%nat ->
  is_Some (table m) \/ owner_node_id (processing_queue q) <> node ->
  runs (ProcessSubTaskQueueMessage clock active_nodes q) m (fun _ m' => inv node reg m').
Proof.
  intros Hinv Hl Hfirst. unfold ProcessSubTaskQueueMessage. do 4 run_step. destruct (_ && _); [by run_step|].
  run_step. eapply runs_mono; [by apply response_timer_inv|]. intros _ m1 [Hm1 Hpq]. do 2 run_step.
  assert (table m1 = table m) as Ht by (unfold table; by rewrite Hpq). run_step.
  eapply runs_mono; [by apply (UpdateQueue_inv reg)|]. intros changed m2 (Hm2 & Hc & Hnone). do 2 run_step.
  set (own := ProcessingSubTaskQueue.HasOwnership (m_processingQueue m2)).
  assert (own = true -> live reg m2) as Hown by (by apply owns_live).
  assert (is_init m1 = false -> own = false) as Hown'.
  { unfold is_init. fold (table m1). intros Hi%bool_decide_eq_false.
    destruct (table m1) as [?|] eqn:Ht1; [by destruct Hi; eexists|].
    unfold own, ProcessingSubTaskQueue.HasOwnership. fold (table m2). rewrite Hnone by done.
    apply bool_decide_eq_false. fold (localNodeId m2). rewrite (inv_node _ _ _ Hm2).
    destruct Hfirst as [Hf|]; [rewrite <-Ht in Hf; by destruct Hf|done]. }
  clearbody own. run_step.
  assert (forall m3, inv node reg m3 -> (changed && own = true -> live reg m3) ->
    runs (when (changed && own) (ProcessPendingSubTaskGrabbing clock active_nodes)) m3 (fun _ m4 => inv node reg m4)) as Hpend.
  { intros m3 Hm3 Hl3. run_step; [|done].
    eapply runs_mono; [by apply (ProcessPendingSubTaskGrabbing_live reg), Hl3|]. by intros ? m4 []. }
  assert (runs (when (changed && negb (ProcessingSubTaskQueue.HasOwnership (m_processingQueue m)) && own)
    (pq ← queue; ownership_acquired clock active_nodes (last_update_timestamp pq))) m2
    (fun _ m3 => inv node reg m3 /\ (changed && own = true -> live reg m3))) as Hacq.
  { run_step; [|split; [done|]; by intros [_ ?%Hown]%andb_true_iff].
    apply andb_true_iff in H as [_ [Hm2' [q2 Hq2]]%Hown]. run_step. eapply queue_runs; [exact Hq2|].
    eapply runs_mono; [apply (ownership_acquired_live reg); split; [done|by exists q2]|].
    intros ? m3 Hm3. split; [apply Hm3|done]. }
  eapply runs_mono; [exact Hacq|]. intros _ m3 [Hm3 Hl3]. run_step.
  eapply runs_mono; [by apply Hpend|]. intros ? m4 Hm4. do 2 run_step. run_step.
  run_step; [|by run_step].
  apply andb_true_iff in H as [[_ Hni%negb_true_iff]%andb_true_iff _]. rewrite (Hown' Hni).
  eapply runs_mono; [by apply (emit_inv reg); [|constructor]|]. intros _ m5 [Hm5 _]. by run_step.
Qed.

(** A node that is not the owner takes over a table that is not older than its
    own. *)
Lemma UpdateQueue_accepts reg m q :
  inv node reg m -> ProcessingSubTaskQueue.HasOwnership (m_processingQueue m) = false ->
  (length (subtasks q) <= length (items (processing_queue q)))%nat ->
  (forall q0, table m = Some q0 -> last_update_timestamp q0 <= last_update_timestamp (processing_queue q)) ->
  exists m', UpdateQueue clock q m = Ok (true, m') /\ table m' = Some (processing_queue q) /\
    m_subtasks m' = subtasks q /\ localNodeId m' = node /\ sink m' = sink m.
Proof.
  intros Hinv Hown Hl Hold.
  assert (runs (UpdateQueue clock q) m (fun changed m' => changed = true /\ table m' = Some (processing_queue q) /\
    m_subtasks m' = subtasks q /\ localNodeId m' = node /\ sink m' = sink m)) as (c & m' & -> & -> & H); [|by exists m'].
  unfold UpdateQueue. do 4 run_step. rewrite Hown. cbn [andb negb orb]. do 3 run_step. cbn [when].
  do 2 run_step. unfold UpdateQueueTimestamp. do 2 run_step.
  change (ProcessingSubTaskQueue.HasOwnership (m_processingQueue (set_timestamp _ _)))
    with (ProcessingSubTaskQueue.HasOwnership (m_processingQueue m)). rewrite Hown. do 2 run_step. cbn [when]. do 2 run_step.
  eapply runs_mono; [by apply UpdateUnprocessedSubTaskIndices_runs|]. intros idxs m1 [-> _]. run_step.
  eapply on_queue_runs.
  { unfold ProcessingSubTaskQueue.UpdateQueue.
    change (ProcessingSubTaskQueue.m_queue _) with (table m). instantiate (1 := ProcessingSubTaskQueue.mk
      (localNodeId m) (Some (processing_queue q)) idxs). instantiate (1 := true).
    destruct (table m) as [q0|]; [|done]. by rewrite (proj2 (Z.leb_le _ _)) by (by apply Hold). }
  do 3 run_step. split_and!; [done..| |done]. apply (inv_node _ _ _ Hinv).
Qed.

Lemma owns_table m q : table m = Some q -> owner_node_id q = localNodeId m ->
  ProcessingSubTaskQueue.HasOwnership (m_processingQueue m) = true.
Proof.
  intros Hq Ho. unfold ProcessingSubTaskQueue.HasOwnership. fold (table m). rewrite Hq. by apply bool_decide_eq_true.
Qed.

Lemma steady_owns m m' : steady m m' -> ProcessingSubTaskQueue.HasOwnership (m_processingQueue m) = true ->
  ProcessingSubTaskQueue.HasOwnership (m_processingQueue m') = true.
Proof.
  intros [_ Hn _ Ho]. unfold ProcessingSubTaskQueue.HasOwnership. fold (table m) (table m') (localNodeId m) (localNodeId m').
  rewrite Hn. destruct (table m), (table m'); try done. injection Ho as ->. done.
Qed.

(** A node that is not the owner receives a table, not older than its own, that
    makes it the owner.  It owns the table then, unless it is its first table and
    there is a sink: releasing the lock once more throws. *)
Lemma message_acquires reg m q :
  inv node reg m -> ProcessingSubTaskQueue.HasOwnership (m_processingQueue m) = false ->
  (length (subtasks q) <= length (items (processing_queue q)))%nat ->
  (forall q0, table m = Some q0 -> last_update_timestamp q0 <= last_update_timestamp (processing_queue q)) ->
  owner_node_id (processing_queue q) = node ->
  exists m', inv node reg m' /\ m_subtasks m' = subtasks q /\
    ProcessingSubTaskQueue.HasOwnership (m_processingQueue m') = true /\
    ProcessSubTaskQueueMessage clock active_nodes q m =
      if sink m && negb (is_init m) then Err undefined_behaviour else Ok (true, m').
Proof.
  intros Hm Hown Hl Hold Ho. destruct (response_timer_inv reg m Hm) as ([] & m1 & Hr & Hm1 & Hpq).
  pose proof Hr as Hr'. injection Hr' as E1. assert (sink m1 = sink m) as Hs1 by (by rewrite <-E1).
  destruct (UpdateQueue_accepts reg m1 q Hm1) as (m2 & Hu & Ht2 & Hst2 & Hn2 & Hs2);
    [by rewrite Hpq|done|unfold table; by rewrite Hpq|].
  pose proof (runs_det _ _ _ _ _ (UpdateQueue_inv reg m1 q Hm1 Hl) Hu) as (Hm2 & _).
  assert (ProcessingSubTaskQueue.HasOwnership (m_processingQueue m2) = true) as Hown2
    by (eapply owns_table; [exact Ht2|by rewrite Hn2]).
  assert (live reg m2) as Hl2 by (by apply owns_live).
  destruct (ownership_acquired_live reg m2 (last_update_timestamp (processing_queue q)) Hl2) as ([] & m3 & H3 & Hl3).
  pose proof (ownership_acquired_steady _ _ _ _ H3) as S3.
  destruct (ProcessPendingSubTaskGrabbing_live reg m3 Hl3) as ([] & m4 & H4 & Hl4).
  pose proof (ProcessPendingSubTaskGrabbing_steady _ _ _ H4) as S4. pose proof (transitivity S3 S4) as S.
  exists m4. split_and!; [apply Hl4|by rewrite (steady_subtasks _ _ S)|by eapply steady_owns|].
  unfold ProcessSubTaskQueueMessage, mbind, act_bind, HasOwnership, gets. rewrite Hown. cbn [andb]. rewrite Hr, Hu, Hown2.
  cbn [andb negb when]. unfold queue, ProcessingSubTaskQueue.deref at 1. unfold table in Ht2. rewrite Ht2. cbn [ok_or].
  rewrite H3, H4. fold (sink m4). rewrite (steady_sink _ _ S), Hs2, Hs1. unfold is_init. rewrite Hpq.
  fold (is_init m). rewrite andb_true_r. by destruct (sink m && negb (is_init m)).
Qed.

Lemma ProcessNextOwnershipRequest_live reg m :
  live reg m -> runs (on_queue ProcessingSubTaskQueue.ProcessNextOwnershipRequest) m (fun _ m' => live reg m').
Proof.
  intros Hm. destruct (proj2 Hm) as [q Hq].
  unfold on_queue, ProcessingSubTaskQueue.ProcessNextOwnershipRequest, runs. fold (table m). rewrite Hq.
  destruct (ProcessingSubTaskQueue.HasOwnership _); [destruct (ownership_requests q) as [|r rs]|].
  - eexists _, _. split; [done|]. by destruct m.
  - eexists _, _. split; [done|].
    by apply (set_table_live reg m q (set_owner_node_id (node_id r)
      (set_ownership_requests (ProcessingSubTaskQueue.remove_first (r :: rs)) q))).
  - eexists _, _. split; [done|]. by destruct m.
Qed.

Lemma RollbackOwnership_live reg m :
  live reg m -> runs (on_queue ProcessingSubTaskQueue.RollbackOwnership) m (fun _ m' => live reg m').
Proof.
  intros Hm. destruct (proj2 Hm) as [q Hq]. unfold on_queue, runs. rewrite (pq_eta m q Hq).
  unfold ProcessingSubTaskQueue.with_queue. rewrite RollbackOwnership_spec. eexists _, _. split; [done|].
  apply (set_table_live reg m q (if may_take_over (ProcessingSubTaskQueue.m_localNodeId (m_processingQueue m)) q
    then set_owner_node_id (ProcessingSubTaskQueue.m_localNodeId (m_processingQueue m)) q else q)); [done|done|].
  by destruct (may_take_over _ _).
Qed.

Lemma publish_live reg m :
  live reg m -> runs (PublishSubTaskQueue clock) m (fun _ m' => live reg m').
Proof. intros Hm. eapply runs_mono; [by apply (PublishSubTaskQueue_live reg)|]. by intros _ m' []. Qed.

(** The wait that is started for another look is ended at once. *)
Lemma response_retry_live reg m :
  live reg m -> runs (response_timer true;; response_timer false) m (fun _ m' => live reg m').
Proof. intros [[] ?]. unfold response_timer. do 3 run_step. by split; [split|]. Qed.

Lemma HandleQueueRequestTimeout_live reg m :
  live reg m -> runs (HandleQueueRequestTimeout clock active_nodes) m (fun _ m' => live reg m').
Proof.
  intros Hm. unfold HandleQueueRequestTimeout. run_step.
  eapply runs_mono; [apply (response_timer_inv reg), Hm|]. intros _ m1 [Hm1 Hpq].
  assert (live reg m1) as Hl1 by (split; [done|]; unfold table; rewrite Hpq; apply Hm).
  run_step. eapply runs_mono; [by apply (HasAvailableWork_runs reg)|]. intros work m2 [-> _].
  destruct (proj2 Hl1) as [q Hq]. destruct work; cbn [negb].
  2:{ run_step. eapply queue_runs; [exact Hq|]. do 2 run_step. apply publish_live.
      by apply (set_table_live reg m1 q (set_ownership_requests [] q)). }
  do 3 run_step.
  assert (runs (if ProcessingSubTaskQueue.HasOwnership (m_processingQueue m1)
    then on_queue ProcessingSubTaskQueue.ProcessNextOwnershipRequest else mret false) m1
    (fun _ m' => live reg m')) as Hserve.
  { destruct (ProcessingSubTaskQueue.HasOwnership _); [by apply ProcessNextOwnershipRequest_live|by run_step]. }
  eapply runs_mono; [exact Hserve|]. intros served m3 Hm3. destruct served; [by apply publish_live|].
  run_step. eexists _, _. split; [reflexivity|]. set (m4 := set_world _ m3).
  assert (live reg m4) as Hm4 by (destruct Hm3 as [[] ?]; by split; [split|]). clearbody m4.
  do 3 run_step.
  assert (runs (if 5000 <? ms (clock (reads (m_world m3)) - m_lastQueueUpdateTime (id m4))
    then on_queue ProcessingSubTaskQueue.RollbackOwnership else mret false) m4 (fun _ m' => live reg m')) as Hroll.
  { destruct (5000 <? _); [by apply RollbackOwnership_live|by run_step]. }
  eapply runs_mono; [exact Hroll|]. intros taken m5 Hm5. destruct taken; [|by apply response_retry_live].
  destruct (proj2 Hm5) as [q5 Hq5]. run_step. eapply queue_runs; [exact Hq5|].
  run_step. eapply runs_mono; [by apply (acquire_time_live reg)|]. intros ? m6 Hm6. do 2 run_step.
  run_step. eapply runs_mono; [apply (publish_live reg), set_quota_live, Hm6|]. intros ? m7 Hm7. do 2 run_step.
  destruct (ProcessingSubTaskQueue.HasOwnership (m_processingQueue m7)); [|by apply response_retry_live].
  run_step. eapply runs_mono; [apply (ProcessNextOwnershipRequest_live reg), Hm7|]. intros served m8 Hm8.
  destruct served; [by apply publish_live|by apply ProcessPendingSubTaskGrabbing_live].
Qed.

Lemma ProcessSubTaskQueueRequestMessage_inv reg m r :
  inv node reg m -> runs (ProcessSubTaskQueueRequestMessage clock active_nodes r) m (fun _ m' => inv node reg m').
Proof.
  intros Hm. unfold ProcessSubTaskQueueRequestMessage. do 2 run_step.
  run_step. eapply runs_mono; [by apply (HasAvailableWork_runs reg)|]. intros work m1 [-> _]. run_step.
  assert (runs (if ProcessingSubTaskQueue.HasOwnership (m_processingQueue m) && negb work
    then on_queue (ProcessingSubTaskQueue.MoveOwnershipTo (node_id r)) else mret false) m
    (fun moved m' => inv node reg m' /\ (moved = true -> live reg m'))) as Hmove.
  { destruct (_ && _); [|by run_step]. eapply runs_mono; [by apply (MoveOwnershipTo_runs reg)|]. naive_solver. }
  eapply runs_mono; [exact Hmove|]. intros moved m1 [Hm1 Hl1]. destruct moved.
  { run_step. eapply runs_mono; [by apply (publish_live reg), Hl1|]. intros ? m2 Hm2. run_step. apply Hm2. }
  run_step. eapply runs_mono; [by apply (HasAvailableWork_runs reg)|]. intros anything m2 [-> Hs]. run_step.
  run_step; [|by run_step].
  run_step. eapply runs_mono; [apply (AddOwnershipRequest_live reg); split; [done|by apply Hs]|].
  intros added m2 [Hm2 _]. run_step; [|run_step; apply Hm2].
  run_step. eapply runs_mono; [by apply (publish_live reg)|]. intros ? m3 Hm3.
  destruct (proj2 Hm3) as [q Hq]. run_step. eapply queue_runs; [exact Hq|].
  run_step; [|run_step; apply Hm3].
  run_step. eapply runs_mono; [apply (response_timer_inv reg), Hm3|]. intros _ m4 [Hm4 Hpq].
  eapply runs_mono; [apply (HandleQueueRequestTimeout_live reg); split; [done|]|].
  - unfold table. rewrite Hpq. apply Hm3.
  - intros ? m5 Hm5. run_step. apply Hm5.
Qed.

Lemma unprocessed_indices_range processed l : Forall (fun i => (i < length l)%nat) (unprocessed_indices processed l).
Proof.
  apply Forall_forall. intros i [_ Hi]%list_elem_of_filter. apply elem_of_seq in Hi. lia.
Qed.

Lemma CreateQueue_inv reg m l :
  inv node reg m -> runs (CreateQueue clock l) m (fun _ m' => inv node reg m').
Proof.
  intros Hm. unfold CreateQueue. destruct (bool_decide _); [by run_step|].
  run_step. eexists _, _. split; [reflexivity|]. do 4 run_step. do 4 run_step. run_step.
  eapply on_queue_runs; [unfold ProcessingSubTaskQueue.CreateQueue; reflexivity|]. set (m1 := set_processingQueue _ _).
  assert (live reg m1) as Hm1.
  { destruct Hm as [Hn Ht Hc Htr Hr Hg]. split; [|by eexists]. split; try done.
    cbn. split; cbn; rewrite ?length_replicate; [done|apply unprocessed_indices_range]. }
  run_step. eapply runs_mono; [by apply (publish_live reg)|]. intros ? m2 Hm2. run_step.
  run_step; [|run_step; apply Hm2].
  eapply runs_mono; [by apply (emit_inv reg); [apply Hm2|constructor]|]. intros _ m3 [Hm3 _]. by run_step.
Qed.

Lemma change_states_live reg b ids m :
  live reg m -> runs (change_states b ids) m (fun _ m' => live reg m').
Proof.
  revert m. induction ids as [|id ids IH]; intros m Hm; cbn [change_states]; [by run_step|].
  run_step. destruct (proj2 Hm) as [q Hq]. unfold change_state. run_step. eapply queue_runs; [exact Hq|].
  do 5 run_step. apply IH. set (ids' := if b then _ ∪ _ else _). set (l := if b then _ else _).
  assert (live reg (set_ids ids' m)) as Hm' by (destruct Hm; split; [by apply set_ids_inv|done]).
  by apply (set_table_live reg (set_ids ids' m) q (set_processed_subtask_ids l q)).
Qed.

Lemma ChangeSubTaskProcessingStates_inv reg m ids b :
  inv node reg m -> runs (ChangeSubTaskProcessingStates clock ids b) m (fun _ m' => inv node reg m').
Proof.
  intros Hm. unfold ChangeSubTaskProcessingStates. do 2 run_step. unfold is_init. fold (table m).
  destruct (table m) as [q|] eqn:Hq; cbn; [|by run_step].
  run_step. eapply runs_mono; [apply (change_states_live reg); split; [done|by exists q]|]. intros ? m1 Hm1.
  destruct (proj2 Hm1) as [q1 Hq1]. pose proof (inv_table _ _ _ (proj1 Hm1)) as Ht. rewrite Hq1 in Ht.
  run_step. eapply queue_runs; [exact Hq1|]. do 3 run_step.
  eapply runs_mono; [apply UpdateUnprocessedSubTaskIndices_runs, Ht|]. intros idxs m2 [-> Hf]. run_step.
  eapply on_queue_runs.
  { unfold ProcessingSubTaskQueue.UpdateQueue. fold (table m1). rewrite Hq1, Z.leb_refl. reflexivity. }
  assert (live reg (set_processingQueue (ProcessingSubTaskQueue.mk (localNodeId m1) (Some q1) idxs) m1)) as Hm2.
  { destruct Hm1 as [[] ?]. split; [|by eexists]. by split. }
  do 2 run_step. run_step; [|apply Hm2].
  eapply runs_mono; [apply (publish_live reg), Hm2|]. by intros ? m3 [].
Qed.

Lemma SetSubTaskQueueAssignmentEventSink_inv reg m b :
  inv node reg m -> runs (SetSubTaskQueueAssignmentEventSink b) m (fun _ m' => inv node reg m').
Proof.
  intros Hm. unfold SetSubTaskQueueAssignmentEventSink. do 4 run_step.
  assert (inv node reg (set_sink b m)) as Hm1 by (destruct Hm; by split).
  run_step; [|done]. eapply runs_mono; [by apply (emit_inv reg); [|constructor]|]. by intros _ m2 [].
Qed.

(** ** Sequences of events *)

Inductive event : Type :=
  | ECreate (subTasks : list SubTask)
  | EMessage (q : SubTaskQueue)
  | ERequest (r : OwnershipRequest)
  | EGrab (callback : nat)
  | EMove (nodeId : bytes)
  | EChange (subTaskIds : gset bytes) (isProcessed : bool)
  | ESink (sink : bool)
  | EGrabTimeout
  | EResponseTimeout.

Definition handle (e : event) : act t unit :=
  match e with
  | ECreate l => CreateQueue clock l;; mret tt
  | EMessage q => ProcessSubTaskQueueMessage clock active_nodes q;; mret tt
  | ERequest r => ProcessSubTaskQueueRequestMessage clock active_nodes r;; mret tt
  | EGrab c => GrabSubTask clock active_nodes c
  | EMove n => MoveOwnershipTo clock n;; mret tt
  | EChange ids b => ChangeSubTaskProcessingStates clock ids b
  | ESink b => SetSubTaskQueueAssignmentEventSink b
  | EGrabTimeout => HandleGrabSubTaskTimeout clock active_nodes
  | EResponseTimeout => HandleQueueRequestTimeout clock active_nodes
  end.

(** A timer fires while a wait is pending. *)
Definition occurs (e : event) (m : t) : Prop :=
  match e with
  | EGrabTimeout => is_Some (m_dltGrabSubTaskTimeout (m_world m))
  | EResponseTimeout => m_dltQueueResponseTimeout (m_world m) = true
  | _ => True
  end.

(** The messages that end in undefined behaviour: a table, not dropped, with fewer
    items than subtasks, and a first table that names this node as its owner while
    there is a sink. *)
Definition breaks (e : event) (m : t) : Prop :=
  match e with
  | EMessage q =>
      (dropped m q = false /\ (length (items (processing_queue q)) < length (subtasks q))%nat) \/
      (table m = None /\ owner_node_id (processing_queue q) = node /\ sink m = true)
  | _ => False
  end.

Definition registers (e : event) : list nat := match e with EGrab c => [c] | _ => [] end.

(** The states a manager can be in, with the callbacks that were given to it. *)
Inductive reachable : list nat -> t -> Prop :=
  | reachable_new first_read second_read : reachable [] (New node first_read second_read)
  | reachable_event reg m e m' : reachable reg m -> occurs e m -> handle e m = Ok (tt, m') ->
      reachable (reg ++ registers e) m'.

Lemma no_table_no_owner m : table m = None -> ProcessingSubTaskQueue.HasOwnership (m_processingQueue m) = false.
Proof. unfold table, ProcessingSubTaskQueue.HasOwnership. by intros ->. Qed.

Lemma dropped_runs reg m q : inv node reg m -> dropped m q = true ->
  runs (ProcessSubTaskQueueMessage clock active_nodes q) m (fun _ m' => inv node reg m').
Proof. intros Hm Hd. unfold ProcessSubTaskQueueMessage. do 4 run_step. unfold dropped in Hd. rewrite Hd. by run_step. Qed.

Lemma message_runs reg m q : inv node reg m -> ~ breaks (EMessage q) m ->
  runs (ProcessSubTaskQueueMessage clock active_nodes q) m (fun _ m' => inv node reg m').
Proof.
  intros Hm Hb. destruct (dropped m q) eqn:Hd; [by apply dropped_runs|].
  assert (length (subtasks q) <= length (items (processing_queue q)))%nat as Hl by (cbn in Hb; destruct (decide (length (items (processing_queue q)) < length (subtasks q))%nat); [tauto|lia]).
  destruct (table m) as [q0|] eqn:Ht; [apply ProcessSubTaskQueueMessage_inv; [done|done|left; rewrite Ht; by eexists]|].
  destruct (decide (owner_node_id (processing_queue q) = node)) as [Ho|Ho]; [|apply ProcessSubTaskQueueMessage_inv; auto].
  destruct (message_acquires reg m q Hm (no_table_no_owner m Ht) Hl ltac:(by rewrite Ht) Ho) as (m' & Hm' & _ & _ & Hr).
  destruct (sink m) eqn:Hs; [destruct Hb; cbn; tauto|]. by exists true, m'.
Qed.

Lemma breaking_message reg m q : inv node reg m -> breaks (EMessage q) m ->
  ProcessSubTaskQueueMessage clock active_nodes q m = Err undefined_behaviour.
Proof.
  intros Hm [[Hd Hl]|(Ht & Ho & Hs)]; [by eapply message_short|].
  destruct (decide (length (items (processing_queue q)) < length (subtasks q))%nat) as [Hl|Hl].
  { eapply message_short; [exact Hm| |done]. unfold dropped. by rewrite no_table_no_owner. }
  destruct (message_acquires reg m q Hm (no_table_no_owner m Ht) ltac:(lia) ltac:(by rewrite Ht) Ho) as (m' & _ & _ & _ & Hr).
  rewrite Hr, Hs. unfold is_init. fold (table m). by rewrite Ht.
Qed.

Lemma handle_breaks reg m e : inv node reg m -> breaks e m -> handle e m = Err undefined_behaviour.
Proof.
  destruct e as [|q| | | | | | |]; try done. intros Hm Hb. cbn [handle]. unfold mbind, act_bind. by rewrite (breaking_message reg).
Qed.

Lemma handle_inv reg m e :
  inv node reg m -> occurs e m -> ~ breaks e m -> runs (handle e) m (fun _ m' => inv node (reg ++ registers e) m').
Proof.
  intros Hm Ha Hb. destruct e; cbn [handle registers]; rewrite ?app_nil_r.
  - run_step. eapply runs_mono; [by apply (CreateQueue_inv reg)|]. intros ? m1 Hm1. by run_step.
  - run_step. eapply runs_mono; [by apply (message_runs reg)|]. intros ? m1 Hm1. by run_step.
  - run_step. eapply runs_mono; [by apply (ProcessSubTaskQueueRequestMessage_inv reg)|]. intros ? m1 Hm1. by run_step.
  - by apply GrabSubTask_inv.
  - run_step. eapply runs_mono; [by apply (MoveOwnershipTo_inv reg)|]. intros ? m1 Hm1. by run_step.
  - by apply ChangeSubTaskProcessingStates_inv.
  - by apply SetSubTaskQueueAssignmentEventSink_inv.
  - apply HandleGrabSubTaskTimeout_live. split; [done|]. by apply (inv_grab _ _ _ Hm).
  - pose proof (inv_response _ _ _ Hm). simpl in Ha. congruence.
Qed.

#[export] Instance breaks_dec e m : Decision (breaks e m).
Proof. destruct e; cbn; apply _. Defined.

Lemma reachable_inv reg m : reachable reg m -> inv node reg m.
Proof.
  induction 1 as [a b|reg m e m' Hm IH Ha Hh].
  - split; try done.
    + intros l1 c st l2 Heq. by destruct l1.
    + intros [? [=]].
  - destruct (decide (breaks e m)) as [Hb|Hb]; [by rewrite (handle_breaks reg m e IH Hb) in Hh|].
    exact (runs_det _ _ _ _ _ (handle_inv reg m e IH Ha Hb) Hh).
Qed.

(** C24. Whatever happens to a manager, in whatever order.  Two kinds of messages
    end in undefined behaviour: a table with fewer items than subtasks, and the
    first table of a node with a sink when it names that node as its owner.  Every
    other event is handled: the handler returns (the loop that hands out subtasks
    ends, no index or pointer is out of range), the table keeps an item for every
    subtask, the callbacks that were registered are called in the order of their
    registration and each at most once, and a subtask is handed out only right
    after a table has been published in which this node is the owner and holds the
    lock of the subtask.  A timer is taken to fire only while a wait is pending. *)
Theorem manager_handlers_return reg m e :
  reachable reg m -> occurs e m ->
  (breaks e m -> handle e m = Err undefined_behaviour) /\
  (~ breaks e m -> exists m', handle e m = Ok (tt, m') /\
    (forall q, table m' = Some q -> fits q (m_subtasks m') (enabled m')) /\
    called (log m') ++ m_onSubTaskGrabbedCallbacks m' = reg ++ registers e /\
    trace_ok node (log m')).
Proof.
  intros Hm Ha. pose proof (reachable_inv reg m Hm) as Hi. split; [by apply (handle_breaks reg)|]. intros Hb.
  destruct (handle_inv reg m e Hi Ha Hb) as ([] & m' & Hh & Hm').
  exists m'. split_and!; [done| |apply Hm'|apply Hm'].
  intros q Hq. pose proof (inv_table _ _ _ Hm') as Ht. by rewrite Hq in Ht.
Qed.

(** The second look at a request for ownership never comes: no wait is ever
    pending on the response timer, because setting its expiry ends the wait
    that was started just before. *)
Theorem no_response_wait reg m : reachable reg m -> m_dltQueueResponseTimeout (m_world m) = false.
Proof. intros Hm. apply (inv_response _ _ _ (reachable_inv reg m Hm)). Qed.

End handlers.

(** ** Two nodes *)

(** C25. Ownership is handed over.  An owner that has no work left within its
    quota answers a request by publishing its table with the requesting node
    as owner, and owns it no longer.  Say the node with that name is not the owner
    of its table and its table is not newer than the published one.  When it
    receives the published table, its handler returns and it owns the table, with
    the subtasks of the sender; only when that is its first table and it has a
    sink does the handler end in undefined behaviour, by releasing a lock twice. *)
Theorem ownership_handover clock active_nodes clock' active_nodes' a b rega regb (ma mb : t) (qa : ProcessingQueue) (r : OwnershipRequest) :
  inv a rega ma -> inv b regb mb -> a <> b -> node_id r = b ->
  table ma = Some qa -> owner_node_id qa = a -> HasAvailableWork true ma = Ok (false, ma) ->
  exists ma' ts, let q := mkSubTaskQueue (set_last_update_timestamp ts (set_owner_node_id b qa)) (m_subtasks ma) in
    ProcessSubTaskQueueRequestMessage clock active_nodes r ma = Ok (true, ma') /\
    log ma' = log ma ++ [Publish q] /\ ProcessingSubTaskQueue.HasOwnership (m_processingQueue ma') = false /\
    (ProcessingSubTaskQueue.HasOwnership (m_processingQueue mb) = false ->
     (forall qb, table mb = Some qb -> last_update_timestamp qb <= ts) ->
     exists mb', m_subtasks mb' = m_subtasks ma /\ ProcessingSubTaskQueue.HasOwnership (m_processingQueue mb') = true /\
       ProcessSubTaskQueueMessage clock' active_nodes' q mb =
         if sink mb && negb (is_init mb) then Err undefined_behaviour else Ok (true, mb')).
Proof.
  intros Ha Hb Hab Hr Hqa Hoa Hwork.
  assert (ProcessingSubTaskQueue.HasOwnership (m_processingQueue ma) = true) as Hown.
  { unfold ProcessingSubTaskQueue.HasOwnership. fold (table ma). rewrite Hqa. apply bool_decide_eq_true.
    fold (localNodeId ma). by rewrite (inv_node _ _ _ Ha). }
  set (ma1 := set_processingQueue (ProcessingSubTaskQueue.with_queue (set_owner_node_id b qa) (m_processingQueue ma)) ma).
  destruct (PublishSubTaskQueue_runs clock ma1 (set_owner_node_id b qa) eq_refl)
    as ([] & ma' & Hpub & F & _ & ts & Ht & Hlog).
  exists ma', ts. split_and!; [|exact Hlog| |].
  - unfold ProcessSubTaskQueueRequestMessage, mbind, act_bind, HasOwnership, gets. cbn beta iota.
    rewrite Hwork, Hown. cbn [andb negb]. unfold on_queue, ProcessingSubTaskQueue.MoveOwnershipTo,
      ProcessingSubTaskQueue.ChangeOwnershipTo, ProcessingSubTaskQueue.deref.
    unfold table in Hqa. rewrite Hown, Hqa, Hr. cbn. fold ma1. by rewrite Hpub.
  - unfold ProcessingSubTaskQueue.HasOwnership. fold (table ma'). rewrite Ht. apply bool_decide_eq_false. cbn.
    fold (localNodeId ma'). rewrite (frame_node _ _ F). change (localNodeId ma1) with (localNodeId ma).
    by rewrite (inv_node _ _ _ Ha).
  - intros Hnb Hold. pose proof (inv_table _ _ _ Ha) as Hfit. rewrite Hqa in Hfit.
    destruct (message_acquires clock' active_nodes' b regb mb (mkSubTaskQueue (set_last_update_timestamp ts
      (set_owner_node_id b qa)) (m_subtasks ma)) Hb Hnb (proj1 Hfit) Hold eq_refl) as (mb' & _ & H1 & H2 & H3). by exists mb'.
Qed.

(** ** Witnesses *)

Definition demo_clock (n : nat) : Z := Z.of_nat n * 1000000.
Definition demo_subtask : SubTask := mkSubTask (str "block") [] [mkChunk (str "chunk") 1] 0 (str "s1").

Definition demo_state (o : outcome (unit * t)) : t :=
  match o with Ok (_, m) => m | Err _ => New [] 0 0 end.

Definition demo_owner : t :=
  demo_state (handle demo_clock (fun _ => 1) (ECreate [demo_subtask]) (New (str "nodeA") 0 0)).

Lemma demo_owner_reachable : reachable demo_clock (fun _ => 1) (str "nodeA") [] demo_owner.
Proof.
  apply (reachable_event demo_clock (fun _ => 1) (str "nodeA") [] (New (str "nodeA") 0 0) (ECreate [demo_subtask])).
  - apply reachable_new.
  - done.
  - by vm_compute.
Qed.

Lemma manager_handlers_return_witness : exists m',
  handle demo_clock (fun _ => 1) (EGrab 7) demo_owner = Ok (tt, m') /\
  called (log m') ++ m_onSubTaskGrabbedCallbacks m' = [7%nat] /\ trace_ok (str "nodeA") (log m').
Proof.
  destruct (proj2 (manager_handlers_return demo_clock (fun _ => 1) (str "nodeA") [] demo_owner (EGrab 7)
    demo_owner_reachable I) id) as (m' & H1 & _ & H2 & H3).
  exists m'. exact (conj H1 (conj H2 H3)).
Defined.

(** The owner has handed out its only subtask and holds no other work. *)
Definition demo_done : t := demo_state (handle demo_clock (fun _ => 1) (EGrab 7) demo_owner).

(** Another node, that has a sink and a table of its own. *)
Definition demo_sink : t := demo_state (handle demo_clock (fun _ => 1) (ESink true) (New (str "nodeB") 0 0)).
Definition demo_table : SubTaskQueue :=
  mkSubTaskQueue (mkQueue [unlocked_item] 0 5 (str "nodeA") [] []) [demo_subtask].
Definition demo_other : t := demo_state (handle demo_clock (fun _ => 1) (EMessage demo_table) demo_sink).

Lemma demo_other_reachable : reachable demo_clock (fun _ => 1) (str "nodeB") [] demo_other.
Proof.
  apply (reachable_event demo_clock (fun _ => 1) (str "nodeB") [] demo_sink (EMessage demo_table)); [|exact I|by vm_compute].
  apply (reachable_event demo_clock (fun _ => 1) (str "nodeB") [] (New (str "nodeB") 0 0) (ESink true));
    [apply reachable_new|exact I|by vm_compute].
Qed.

(** The time of the table that was published last. *)
Definition published_at (o : outcome (bool * t)) : option Z :=
  match o with
  | Ok (_, m) => match last (log m) with Some (Publish q) => Some (last_update_timestamp (processing_queue q)) | _ => None end
  | Err _ => None
  end.

Lemma demo_published : default (-1) (published_at
  (ProcessSubTaskQueueRequestMessage demo_clock (fun _ => 1) (mkRequest (str "nodeB") 5) demo_done)) = 4.
Proof. vm_compute. reflexivity. Qed.

Lemma ownership_handover_witness : exists ma' mb' q,
  ProcessSubTaskQueueRequestMessage demo_clock (fun _ => 1) (mkRequest (str "nodeB") 5) demo_done = Ok (true, ma') /\
  ProcessingSubTaskQueue.HasOwnership (m_processingQueue ma') = false /\
  ProcessSubTaskQueueMessage demo_clock (fun _ => 1) q demo_other = Ok (true, mb') /\
  ProcessingSubTaskQueue.HasOwnership (m_processingQueue mb') = true.
Proof.
  assert (exists q, table demo_done = Some q /\ owner_node_id q = str "nodeA") as (q & Hq & Ho).
  { vm_compute. by eexists. }
  destruct (ownership_handover demo_clock (fun _ => 1) demo_clock (fun _ => 1) (str "nodeA") (str "nodeB") [7%nat] []
    demo_done demo_other q (mkRequest (str "nodeB") 5)) as (ma' & ts & H1 & Hlog & H2 & H3);
    [| |by vm_compute|reflexivity|exact Hq|exact Ho|vm_compute; reflexivity|].
  - apply (reachable_inv demo_clock (fun _ => 1) (str "nodeA")).
    apply (reachable_event demo_clock (fun _ => 1) (str "nodeA") [] demo_owner (EGrab 7) demo_done demo_owner_reachable I).
    by vm_compute.
  - apply (reachable_inv demo_clock (fun _ => 1) (str "nodeB")), demo_other_reachable.
  - destruct H3 as (mb' & _ & H4 & H5).
    + vm_compute. reflexivity.
    + intros qb [= <-]. pose proof demo_published as Hp. rewrite H1 in Hp. cbn [published_at] in Hp. rewrite Hlog, last_snoc in Hp.
      cbn in Hp. rewrite Hp. cbn. lia.
    + eexists ma', mb', _. exact (conj H1 (conj H2 (conj H5 H4))).
Defined.
