(* ===== verification/SubTaskQueueAccessor.v ===== *)
(** * The accessor of the subtask queue

    Models [src/src/processing/processing_subtask_queue_accessor_impl.cpp], which
    collects the results of subtasks, tells the queue manager which subtasks
    are processed, and finalizes a task when all its results are there and
    valid.  What the result storage returns and what a message of the result
    channel parses to are arguments; calls of the storages, the channel and the
    sinks are recorded. *)

From S2P Require Import Prelude SubTaskQueue Validation SubTaskQueueManager SubTaskQueueManagerProps.

Import ProcessingValidationCore.

Inductive FinalizationRetVal : Type := NOT_FINALIZED | FINALIZED | FINALIZED_BUT_NOT_OWNER.

#[export] Instance FinalizationRetVal_eq_dec : EqDecision FinalizationRetVal.
Proof. solve_decision. Defined.

Inductive SubTaskState : Type := ENQUEUED | PROCESSED.

Inductive notice : Type :=
  | TaskProcessed (results : list SubTaskResult)
  | ProcessingError (message : bytes)
  | StateChanged (subTaskId : bytes) (state : SubTaskState)
  | ResultStored (result : SubTaskResult)
  | ResultPublished (result : SubTaskResult).

Module SubTaskQueueAccessorImpl.

Module Manager := ProcessingSubTaskQueueManager.

Record t : Type := mk {
  m_subTaskQueueManager : Manager.t;
  m_resultChannel : bool;
  m_results : gmap bytes SubTaskResult;
  notices : list notice
}.

Definition set_manager (x : Manager.t) (a : t) : t := mk x (m_resultChannel a) (m_results a) (notices a).
Definition set_channel (x : bool) (a : t) : t := mk (m_subTaskQueueManager a) x (m_results a) (notices a).
Definition set_results (x : gmap bytes SubTaskResult) (a : t) : t :=
  mk (m_subTaskQueueManager a) (m_resultChannel a) x (notices a).
Definition notify (n : notice) : act t unit := modify (fun a =>
  mk (m_subTaskQueueManager a) (m_resultChannel a) (m_results a) (notices a ++ [n])).

(** A call of the queue manager. *)
Definition on_manager {A} (f : act Manager.t A) : act t A := fun a =>
  match f (m_subTaskQueueManager a) with
  | Ok (x, m) => Ok (x, set_manager m a)
  | Err e => Err e
  end.

Section accessor.
Context (SerializeAsString : ProcessingChunk -> bytes) (clock : nat -> Z) (active_nodes : nat -> Z).

Definition CreateResultsChannel : act t bool :=
  created ← gets m_resultChannel;
  if (created : bool) then mret false else modify (set_channel true);; mret true.

Definition ConnectToSubTaskQueue : act t bool :=
  on_manager (Manager.SetSubTaskQueueAssignmentEventSink true);;
  gets m_resultChannel.

Fixpoint enqueued (subTasks : list SubTask) : act t unit :=
  match subTasks with
  | [] => mret tt
  | st :: subTasks => notify (StateChanged (subtaskid st) ENQUEUED);; enqueued subTasks
  end.

Definition AssignSubTasks (subTasks : list SubTask) : act t bool :=
  enqueued subTasks;;
  on_manager (Manager.CreateQueue clock subTasks).

(** [emplace] keeps a result that is there. *)
Definition emplace (id : bytes) (r : SubTaskResult) (m : gmap bytes SubTaskResult) : gmap bytes SubTaskResult :=
  match m !! id with Some _ => m | None => <[id := r]> m end.

(** The loop of [UpdateResultsFromStorage] over what the storage returned. *)
Fixpoint UpdateResultsFromStorage (subTaskIds : gset bytes) (results : list SubTaskResult) : act t unit :=
  match results with
  | [] => mret tt
  | r :: results =>
      (if decide (result_subtaskid r ∈ subTaskIds)
       then modify (fun a => set_results (emplace (result_subtaskid r) r (m_results a)) a)
       else notify (ProcessingError (str "INVALID_RESULT_FOUND for subtasks")));;
      UpdateResultsFromStorage subTaskIds results
  end.

(** The second result is the out parameter [invalidSubTaskIds]. *)
Definition FinalizeQueueProcessing (subTasks : list SubTask) : act t (FinalizationRetVal * gset bytes) :=
  results ← gets m_results;
  let '(valid, invalidSubTaskIds) := ValidateResults SerializeAsString subTasks results ∅ in
  if (valid : bool) then
    own ← on_manager Manager.HasOwnership;
    if (own : bool) then
      notify (TaskProcessed (snd <$> in_key_order results));;
      mret (FINALIZED, invalidSubTaskIds)
    else mret (FINALIZED_BUT_NOT_OWNER, invalidSubTaskIds)
  else
    modify (set_results (filter (fun e => e.1 ∉ invalidSubTaskIds) results));;
    notify (ProcessingError (str "Invalid results for the entire task"));;
    mret (NOT_FINALIZED, invalidSubTaskIds).

Definition snapshot_subtasks : act t (list SubTask) :=
  q ← on_manager Manager.GetQueueSnapshot;
  mret (match q with Some q => subtasks q | None => [] end).

Definition GrabSubTask (stored : list SubTaskResult) (callback : nat) : act t unit :=
  subTasks ← snapshot_subtasks;
  UpdateResultsFromStorage (list_to_set (subtaskid <$> subTasks)) stored;;
  results ← gets m_results;
  let processedSubTaskIds := dom results in
  on_manager (Manager.ChangeSubTaskProcessingStates clock processedSubTaskIds true);;
  isProcessed ← on_manager Manager.IsProcessed;
  isFullyProcessed ← (if (isProcessed : bool) then
      ret ← FinalizeQueueProcessing subTasks;
      if decide (ret.1 = NOT_FINALIZED) then
        on_manager (Manager.ChangeSubTaskProcessingStates clock processedSubTaskIds false);; mret false
      else mret true
    else mret false);
  when (negb isFullyProcessed) (on_manager (Manager.GrabSubTask clock active_nodes callback)).

Definition CompleteSubTask (subTaskId : bytes) (result : SubTaskResult) : act t unit :=
  notify (ResultStored result);;
  notify (StateChanged subTaskId PROCESSED);;
  on_manager (Manager.ChangeSubTaskProcessingStates clock {[subTaskId]} true);;
  channel ← gets m_resultChannel;
  when channel (notify (ResultPublished result)).

Definition OnResultReceived (result : SubTaskResult) : act t bool :=
  init ← on_manager (gets Manager.is_init);
  if negb init then mret false else
  let subTaskId := result_subtaskid result in
  modify (fun a => set_results (emplace subTaskId result (m_results a)) a);;
  on_manager (Manager.ChangeSubTaskProcessingStates clock {[subTaskId]} true);;
  isProcessed ← on_manager Manager.IsProcessed;
  if (isProcessed : bool) then
    subTasks ← snapshot_subtasks;
    ret ← FinalizeQueueProcessing subTasks;
    match ret.1 with
    | NOT_FINALIZED => on_manager (Manager.ChangeSubTaskProcessingStates clock ret.2 false);; mret false
    | FINALIZED_BUT_NOT_OWNER => mret true
    | FINALIZED => mret false
    end
  else mret false.

Definition GetResults (a : t) : list (bytes * SubTaskResult) := in_key_order (m_results a).

(** [message] is what the data parsed to; a message that shows that the task is
    complete for a node that is not the owner is sent once more. *)
Definition OnResultChannelMessage (message : option SubTaskResult) : act t unit :=
  match message with
  | None => mret tt
  | Some result =>
      rebroadcast ← OnResultReceived result;
      when rebroadcast (notify (ResultPublished result))
  end.

End accessor.

End SubTaskQueueAccessorImpl.

(** ** Completing a task *)

Import ProcessingSubTaskQueueManager.

Lemma change_states_true clock_node reg ids m q :
  live clock_node reg m -> table m = Some q ->
  runs (change_states true ids) m (fun _ m' =>
    live clock_node reg m' /\ m_processedSubTaskIds m' = m_processedSubTaskIds m ∪ list_to_set ids /\
    m_subtasks m' = m_subtasks m /\ exists q', table m' = Some q' /\ owner_node_id q' = owner_node_id q).
Proof.
  revert m q. induction ids as [|id ids IH]; intros m q Hm Hq; cbn [change_states].
  { run_step. split_and!; [done|set_solver|done|by exists q]. }
  run_step. unfold change_state. run_step. eapply queue_runs; [exact Hq|]. do 5 run_step.
  set (ids' := m_processedSubTaskIds m ∪ {[id]}). set (q1 := set_processed_subtask_ids _ q).
  assert (live clock_node reg (set_ids ids' m)) as Hm' by (destruct Hm; split; [by apply set_ids_inv|done]).
  destruct (set_table_live clock_node reg (set_ids ids' m) q q1 Hm' Hq eq_refl) as [Hm1 _].
  eapply runs_mono; [by apply (IH _ q1)|]. intros _ m2 (Hm2 & Hids & Hsub & q2 & Hq2 & Ho).
  split_and!; [done| |done|by exists q2]. rewrite Hids. cbn. set_solver.
Qed.

(** Marking subtasks as processed adds their identifiers and changes neither
    the subtasks nor the owner. *)
Lemma mark_processed clock node reg m ids :
  live node reg m ->
  runs (ChangeSubTaskProcessingStates clock ids true) m (fun _ m' =>
    live node reg m' /\ m_processedSubTaskIds m' = m_processedSubTaskIds m ∪ ids /\ m_subtasks m' = m_subtasks m /\
    ProcessingSubTaskQueue.HasOwnership (m_processingQueue m') = ProcessingSubTaskQueue.HasOwnership (m_processingQueue m)).
Proof.
  intros Hm. destruct (proj2 Hm) as [q Hq]. unfold ChangeSubTaskProcessingStates. do 2 run_step.
  unfold is_init. fold (table m). rewrite Hq. cbn. run_step.
  eapply runs_mono; [by apply change_states_true|]. intros _ m1 (Hm1 & Hids & Hsub & q1 & Hq1 & Ho).
  run_step. eapply queue_runs; [exact Hq1|]. do 3 run_step.
  pose proof (inv_table _ _ _ (proj1 Hm1)) as Ht. rewrite Hq1 in Ht.
  eapply runs_mono; [apply UpdateUnprocessedSubTaskIndices_runs, Ht|]. intros idxs m2 [-> Hf]. run_step.
  eapply on_queue_runs.
  { unfold ProcessingSubTaskQueue.UpdateQueue. fold (table m1). rewrite Hq1, Z.leb_refl. reflexivity. }
  set (m2 := set_processingQueue _ m1).
  assert (live node reg m2) as Hm2.
  { destruct Hm1 as [[] ?]. split; [|by eexists]. by split. }
  assert (list_to_set (set_in_order ids) = ids) as Hset.
  { apply set_eq. intros x. by rewrite elem_of_list_to_set, set_in_order_permutation, elem_of_elements. }
  assert (forall m3 q3, table m3 = Some q3 -> owner_node_id q3 = owner_node_id q -> localNodeId m3 = node ->
    ProcessingSubTaskQueue.HasOwnership (m_processingQueue m3) = ProcessingSubTaskQueue.HasOwnership (m_processingQueue m)) as Hown.
  { intros m3 q3 Hq3 Ho3 Hn3. unfold ProcessingSubTaskQueue.HasOwnership. fold (table m3) (table m).
    rewrite Hq3, Hq, Ho3. fold (localNodeId m3) (localNodeId m). by rewrite Hn3, (inv_node _ _ _ (proj1 Hm)). }
  do 2 run_step. run_step.
  - eapply runs_mono; [apply PublishSubTaskQueue_runs; reflexivity|]. intros _ m3 (F & _ & ts & Ht3 & Hlog).
    assert (live node reg m3) as Hm3.
    { split; [|by eexists]. eapply (inv_frame node reg m2 m3); [apply Hm2|done|reflexivity|exact Ht3|done|exact Hlog|by constructor]. }
    split_and!; [done| | |].
    + rewrite (frame_ids _ _ F). cbn. by rewrite Hids, Hset.
    + by rewrite (frame_subtasks _ _ F).
    + by apply (Hown m3 _ Ht3); [|apply Hm3].
  - split_and!; [done|cbn; by rewrite Hids, Hset|done|]. by apply (Hown m2 q1); [| |apply Hm2].
Qed.

Import SubTaskQueueAccessorImpl.

Lemma on_manager_runs {A} (f : act ProcessingSubTaskQueueManager.t A) a (P : A -> _ -> Prop) (Q : A -> t -> Prop) :
  runs f (m_subTaskQueueManager a) P -> (forall x m, P x m -> Q x (set_manager m a)) -> runs (on_manager f) a Q.
Proof.
  intros (x & m & Hf & HP) HPQ. exists x, (set_manager m a). unfold on_manager. rewrite Hf. eauto.
Qed.

(** A task is completed by its owner: when the result of the last
    subtask arrives, and with it as many subtasks are processed as the queue
    has and all results are valid, the owner passes the results of all
    subtasks, in the order of their identifiers, to the sink, once; a node
    that is not the owner sends the result on instead. *)
Theorem last_result_finalizes ser clock node reg (a : t) (r : SubTaskResult) :
  let m := m_subTaskQueueManager a in
  let results := emplace (result_subtaskid r) r (m_results a) in
  live node reg m ->
  (length (m_subtasks m) <= size (m_processedSubTaskIds m ∪ {[result_subtaskid r]}))%nat ->
  ValidateResults ser (m_subtasks m) results ∅ = (true, ∅) ->
  exists a', OnResultChannelMessage ser clock (Some r) a = Ok (tt, a') /\ m_results a' = results /\
    notices a' = notices a ++
      (if ProcessingSubTaskQueue.HasOwnership (m_processingQueue m)
       then [TaskProcessed (snd <$> in_key_order results)] else [ResultPublished r]).
Proof.
  intros m results Hm Hsize Hvalid.
  assert (runs (OnResultChannelMessage ser clock (Some r)) a (fun _ a' => m_results a' = results /\
    notices a' = notices a ++ (if ProcessingSubTaskQueue.HasOwnership (m_processingQueue m)
       then [TaskProcessed (snd <$> in_key_order results)] else [ResultPublished r]))) as ([] & a' & H1 & H2);
    [|by exists a'].
  cbn [OnResultChannelMessage]. run_step. unfold OnResultReceived. run_step.
  eapply on_manager_runs; [apply (runs_gets is_init _ (fun b m' => b = true /\ m' = m))|].
  { split; [|done]. apply bool_decide_eq_true, Hm. }
  intros init m0 [-> ->]. cbn [negb]. do 2 run_step. fold results. run_step.
  eapply on_manager_runs; [by apply (mark_processed clock node reg)|].
  intros _ m1 (Hm1 & Hids & Hsub & Hown). run_step.
  eapply on_manager_runs; [apply (runs_gets _ _ (fun b m' => b = true /\ m' = m1))|].
  { split; [|done]. apply andb_true_iff. split; apply bool_decide_eq_true; [apply Hm1|].
    cbn in Hids, Hsub |- *. by rewrite Hsub, Hids. }
  intros processed m2 [-> ->]. destruct (proj2 Hm1) as [q Hq].
  run_step. unfold snapshot_subtasks. run_step.
  eapply on_manager_runs; [apply (runs_gets _ _ (fun s m' => s = Some (mkSubTaskQueue q (m_subtasks m)) /\ m' = m1))|].
  { split; [|done]. cbn. fold (table m1). rewrite Hq. cbn in Hsub |- *. by rewrite Hsub. }
  intros s m2 [-> ->]. run_step. cbn [subtasks]. run_step. unfold FinalizeQueueProcessing. do 2 run_step.
  match goal with |- context [ValidateResults ser ?l ?x ∅] =>
    change (ValidateResults ser l x ∅) with (ValidateResults ser (m_subtasks m) results ∅) end.
  rewrite Hvalid. run_step.
  eapply on_manager_runs; [apply (runs_gets _ _ (fun b m' => b = ProcessingSubTaskQueue.HasOwnership (m_processingQueue m) /\ m' = m1))|].
  { split; [exact Hown|done]. }
  intros own m2 [-> ->]. destruct (ProcessingSubTaskQueue.HasOwnership (m_processingQueue m)).
  - unfold notify. do 3 run_step. cbn [fst]. run_step. cbn [when]. by run_step.
  - do 2 run_step. cbn [when]. unfold notify. by run_step.
Qed.

(** ** Witnesses *)

Definition demo_result (id : bytes) : SubTaskResult := mkResult (str "hash") [str "h"] [] id (str "nodeA") [].

Lemma demo_done_live : live (str "nodeA") [7%nat] demo_done.
Proof.
  split; [|by vm_compute; eexists]. apply (reachable_inv demo_clock (fun _ => 1%Z)).
  apply (reachable_event demo_clock (fun _ => 1%Z) (str "nodeA") [] demo_owner (EGrab 7) demo_done demo_owner_reachable I).
  by vm_compute.
Qed.

Lemma last_result_finalizes_witness : exists a',
  OnResultChannelMessage chunkid demo_clock (Some (demo_result (str "s1"))) (mk demo_done true ∅ []) = Ok (tt, a') /\
  notices a' = [TaskProcessed [demo_result (str "s1")]].
Proof.
  destruct (last_result_finalizes chunkid demo_clock (str "nodeA") [7%nat] (mk demo_done true ∅ [])
    (demo_result (str "s1"))) as (a' & H1 & _ & H2); [exact demo_done_live|vm_compute; lia|vm_compute; reflexivity|].
  exists a'. split; [exact H1|]. rewrite H2. vm_compute. reflexivity.
Defined.

(** Processed subtasks are counted, not compared with those of the queue: after
    a result for a subtask the queue does not have, the only subtask counts as
    processed although there is no result for it, and the task is reported as
    failed. *)
Theorem foreign_result_counts : exists a',
  OnResultReceived chunkid demo_clock (demo_result (str "other")) (mk demo_owner true ∅ []) = Ok (false, a') /\
  IsProcessed (m_subTaskQueueManager a') = Ok (true, m_subTaskQueueManager a') /\
  notices a' = [ProcessingError (str "Invalid results for the entire task")].
Proof. eexists. split; [vm_compute; reflexivity|]. split; vm_compute; reflexivity. Qed.
