(* ===== verification/ScaledInteger.v ===== *)
(** * Fixed-point numbers ([base/ScaledInteger.cpp], [account/TokenAmount.cpp])

    Decimal numbers kept as a 64-bit integer and a number of fractional digits:
    parsing, printing and arithmetic, and the token amounts built on them. *)

From S2P Require Import Prelude.
From Stdlib Require Import Floats.SpecFloat.
Local Open Scope Z_scope.

(** ** Standard library *)

Fixpoint digit_prefix (s : bytes) : bytes :=
  match s with
  | [] => []
  | c :: s => if is_digit c then c :: digit_prefix s else []
  end.

(** [std::from_chars] into a [uint64_t]: the value of the digits at the front
    and what follows them; [None] without digits or when the value does not
    fit. *)
Definition from_chars (s : bytes) : option (Z * bytes) :=
  let ds := digit_prefix s in
  if decide (ds = []) then None
  else if dec_value ds <=? u64_max then Some (dec_value ds, drop (length ds) s) else None.

(** [double] is binary64. *)
Definition double : Type := spec_float.
Definition double_mul : double -> double -> double := SFmul 53 1024.
Definition double_of_u64 (n : Z) : double := binary_normalize 53 1024 n 0 false.

(** [std::round], half away from zero: the integer, when there is one. *)
Inductive rounded := not_a_number | infinite (negative : bool) | integer (n : Z).
Definition round (x : double) : rounded :=
  match x with
  | S754_nan => not_a_number
  | S754_infinity s => infinite s
  | S754_zero _ => integer 0
  | S754_finite s m e =>
      let n := if 0 <=? e then Z.pos m * 2 ^ e else (Z.pos m + 2 ^ (- e - 1)) / 2 ^ (- e) in
      integer (if s then - n else n)
  end.

(** Division of unsigned integers. *)
Definition udiv (a b : Z) : outcome Z := if b =? 0 then Err undefined_behaviour else Ok (a / b).
Definition umod (a b : Z) : outcome Z := if b =? 0 then Err undefined_behaviour else Ok (a mod b).

(** [std::string::find_last_not_of('0')], then [erase] after it. *)
Fixpoint strip_zeros (s : bytes) : bytes :=
  match s with
  | [] => []
  | c :: s => match strip_zeros s with
              | [] => if decide (c = "0"%char) then [] else [c]
              | r => c :: r
              end
  end.

Inductive ParseMode : Type := Strict | Truncate.

Module ScaledInteger.

Record t := { value_ : Z; precision_ : nat }.
Implicit Types (precision : nat) (x : t).

Fixpoint scale_loop precision (result : Z) : Z :=
  match precision with O => result | S precision => scale_loop precision (u64 (result * 10)) end.

Definition ScaleFactor precision : Z := scale_loop precision 1.

Definition dot : ascii := "."%char.

Definition FromString (str_value : bytes) precision (mode : ParseMode) : outcome Z :=
  if decide (str_value = []) then Err errc_invalid_argument else
  let '(integer_str, fractional_str) :=
    match find_sub [dot] str_value with
    | Some dot_pos => (take dot_pos str_value, drop (dot_pos + 1) str_value)
    | None => (str_value, [])
    end in
  match from_chars integer_str with
  | Some (integer_part, []) =>
      r ← (if decide (fractional_str = []) then Ok (fractional_str, 0) else
           s ← (if decide (precision < length fractional_str)%nat then
                  match mode with
                  | Strict => Err errc_value_too_large
                  | Truncate => Ok (take precision fractional_str)
                  end
                else Ok fractional_str);
           match from_chars s with
           | Some (fractional_part, []) => Ok (s, fractional_part)
           | _ => Err errc_invalid_argument
           end);
      let fractional_part := scale_loop (precision - length r.1) r.2 in
      Ok (u64 (u64 (integer_part * ScaleFactor precision) + fractional_part))
  | _ => Err errc_invalid_argument
  end.

Definition ToString (value : Z) precision : outcome bytes :=
  integer_part ← udiv value (ScaleFactor precision);
  fractional_part ← umod value (ScaleFactor precision);
  if decide (precision = 0%nat) then Ok (to_string integer_part) else
  let fractional_str := to_string fractional_part in
  let fractional_str :=
    replicate (precision - length fractional_str) "0"%char ++ fractional_str in
  Ok (to_string integer_part ++ [dot] ++ fractional_str).

Definition FromDouble (raw_value : double) precision : outcome Z :=
  let factor := double_of_u64 (ScaleFactor precision) in
  match round (double_mul raw_value factor) with
  | not_a_number => Err undefined_behaviour
  | infinite _ => Err errc_value_too_large
  | integer n =>
      if (n <? 0) || (2 ^ 64 <? n) then Err errc_value_too_large
      else if n <=? u64_max then Ok n else Err undefined_behaviour
  end.

Definition fits (result : Z) : outcome Z :=
  if u64_max <? result then Err errc_value_too_large else Ok result.

Definition Multiply (a b : Z) precision : outcome Z :=
  result ← udiv (a * b) (ScaleFactor precision); fits result.

Definition Divide (a b : Z) precision : outcome Z :=
  if b =? 0 then Err errc_result_out_of_range else fits (a * ScaleFactor precision / b).

Definition ConvertPrecision (value : Z) (from to : nat) : outcome Z :=
  if decide (from = to) then Ok value
  else if decide (from < to)%nat then fits (value * ScaleFactor (to - from))
  else udiv value (ScaleFactor (from - to)).

(** *** Objects *)

Definition New (raw_value : Z) precision : outcome t := Ok {| value_ := raw_value; precision_ := precision |}.
Definition New_double (raw_value : double) precision : outcome t :=
  v ← FromDouble raw_value precision; New v precision.
Definition New_string (str_value : bytes) precision (mode : ParseMode) : outcome t :=
  v ← FromString str_value precision mode; New v precision.
Definition New_text (str_value : bytes) : outcome t :=
  let precision_calc := match find_sub [dot] str_value with
                        | None => 0%nat
                        | Some dot_pos => (length str_value - dot_pos - 1)%nat
                        end in
  v ← FromString str_value precision_calc Strict; New v precision_calc.

Definition to_text (fixedDecimals : bool) x : outcome bytes :=
  s ← ToString (value_ x) (precision_ x);
  if fixedDecimals then Ok s else
  match find_sub [dot] s with
  | None => Ok s
  | Some _ =>
      let s := match strip_zeros s with [] => s | r => r end in
      Ok (if decide (last s = Some dot) then removelast s else s)
  end.

Definition same_precision x y : outcome unit :=
  if decide (precision_ x = precision_ y) then Ok tt else Err errc_invalid_argument.

Definition Add x y : outcome t :=
  _ ← same_precision x y; sum ← fits (value_ x + value_ y); New sum (precision_ x).
Definition Subtract x y : outcome t :=
  _ ← same_precision x y;
  if value_ x <? value_ y then Err errc_result_out_of_range else New (value_ x - value_ y) (precision_ x).
Definition multiply x y : outcome t :=
  _ ← same_precision x y; r ← Multiply (value_ x) (value_ y) (precision_ x); New r (precision_ x).
Definition divide x y : outcome t :=
  _ ← same_precision x y; r ← Divide (value_ x) (value_ y) (precision_ x); New r (precision_ x).
Definition convertPrecision (to : nat) x : outcome t :=
  r ← ConvertPrecision (value_ x) (precision_ x) to; New r to.
End ScaledInteger.

(** ** Token amounts *)

Module TokenAmount.
Import ScaledInteger.

Definition PRECISION : nat := 6.
Definition PRICE_PER_FLOP : Z := 500.
Definition PRICE_PER_FLOP_FRACTIONAL_DIGITS : nat := 15.
Definition FLOPS_PER_BYTE : Z := 20.
Definition MIN_MINION_UNITS : Z := 1.

Record t := { minions_ : Z }.

Definition New (raw_minions : Z) : outcome t := Ok {| minions_ := raw_minions |}.
Definition New_double (value : double) : outcome t := v ← FromDouble value PRECISION; New v.
Definition New_string (s : bytes) : outcome t := v ← FromString s PRECISION Strict; New v.
Definition Multiply (x y : t) : outcome t :=
  r ← ScaledInteger.Multiply (minions_ x) (minions_ y) PRECISION; New r.
Definition Divide (x y : t) : outcome t :=
  r ← ScaledInteger.Divide (minions_ x) (minions_ y) PRECISION; New r.
Definition ParseMinions (s : bytes) : outcome Z := FromString s PRECISION Strict.
Definition FormatMinions (minions : Z) : outcome bytes := ToString minions PRECISION.

(** One round of the loop of [CalculateCostMinions]: the quotient at [prec]
    fractional digits, if all three steps succeed. *)
Definition cost_at (scaled : Z) (price : double) (prec : nat) : outcome (option ScaledInteger.t) :=
  if u64_max <? scaled then Ok None else
  match ScaledInteger.New scaled prec with
  | Err _ => Ok None
  | Ok total_fp =>
      match ScaledInteger.New_double price prec with
      | Err undefined_behaviour => Err undefined_behaviour
      | Err _ => Ok None
      | Ok price_fp =>
          match divide total_fp price_fp with Ok r => Ok (Some r) | Err _ => Ok None end
      end
  end.

(** The loop, [n] rounds from [prec] down. *)
Fixpoint cost_loop (n prec : nat) (product divisor : Z) (price : double)
    : outcome (option ScaledInteger.t) :=
  match n with
  | O => Ok None
  | S n =>
      r ← cost_at (product / divisor) price prec;
      match r with
      | Some cost_fp => Ok (Some cost_fp)
      | None => cost_loop n (prec - 1) product (divisor * 10) price
      end
  end.

Definition CalculateCostMinions (total_bytes : Z) (price_usd_per_genius : double) : outcome Z :=
  let product := total_bytes * PRICE_PER_FLOP * FLOPS_PER_BYTE in
  r ← cost_loop (PRICE_PER_FLOP_FRACTIONAL_DIGITS - PRECISION + 1) PRICE_PER_FLOP_FRACTIONAL_DIGITS
        product 1 price_usd_per_genius;
  match r with
  | None => Err errc_value_too_large
  | Some cost_fp =>
      if decide (precision_ cost_fp < PRECISION)%nat then Err errc_value_too_large else
      minions_res ← convertPrecision PRECISION cost_fp;
      Ok (Z.max (value_ minions_res) MIN_MINION_UNITS)
  end.

Definition ConvertToChildToken (input : Z) (ratio : bytes) : outcome bytes :=
  ratio_fp ← ScaledInteger.New_string ratio PRECISION Strict;
  minion_fp ← ScaledInteger.New input PRECISION;
  child_fp ← divide minion_fp ratio_fp;
  to_text true child_fp.

Definition ConvertFromChildToken (input ratio : bytes) : outcome Z :=
  ratio_fp ← ScaledInteger.New_string ratio PRECISION Strict;
  child_fp ← ScaledInteger.New_string input PRECISION Truncate;
  minion_fp ← multiply child_fp ratio_fp;
  Ok (value_ minion_fp).
End TokenAmount.

(** ** Correctness *)

Section props.
Import ScaledInteger.

Lemma scale_loop_eq p r : 0 <= r -> r * 10 ^ Z.of_nat p < 2 ^ 64 -> scale_loop p r = r * 10 ^ Z.of_nat p.
Proof.
  revert r. induction p as [|p IH]; intros r Hr Hlt; [simpl; lia|].
  rewrite Nat2Z.inj_succ, Z.pow_succ_r in * by lia. simpl.
  assert (1 <= 10 ^ Z.of_nat p) by (apply (Z.pow_le_mono_r 10 0); lia).
  rewrite (u64_id (r * 10)) by (unfold is_u64; nia). rewrite IH; lia.
Qed.

Lemma pow10_u64 p : (p <= 19)%nat -> 10 ^ Z.of_nat p < 2 ^ 64.
Proof.
  intros Hp. apply (Z.le_lt_trans _ (10 ^ 19)); [|done]. apply Z.pow_le_mono_r; lia.
Qed.

Lemma ScaleFactor_eq p : (p <= 19)%nat -> ScaleFactor p = 10 ^ Z.of_nat p.
Proof.
  intros Hp%pow10_u64. unfold ScaleFactor. rewrite scale_loop_eq; lia.
Qed.

Lemma pow10_pos p : 0 < 10 ^ Z.of_nat p.
Proof. apply Z.pow_pos_nonneg; lia. Qed.

Lemma digit_prefix_digits s : forallb is_digit s = true -> digit_prefix s = s.
Proof. induction s as [|c s IH]; simpl; [done|]. intros [-> Hs]%andb_prop. by rewrite IH. Qed.

Lemma from_chars_digits s :
  s <> [] -> forallb is_digit s = true -> dec_value s <= u64_max -> from_chars s = Some (dec_value s, []).
Proof.
  intros Hne Hs Hv. unfold from_chars. rewrite digit_prefix_digits, decide_False by done.
  destruct (Z.leb_spec (dec_value s) u64_max); [|lia]. by rewrite drop_all.
Qed.

Lemma dot_not_digit s : forallb is_digit s = true -> dot ∉ s.
Proof. rewrite forallb_forall. intros Hs Hin%list_elem_of_In. by specialize (Hs _ Hin). Qed.

(** The value of a text of digits, with and without fraction. *)
Lemma FromString_integer i p mode :
  i <> [] -> forallb is_digit i = true -> dec_value i <= u64_max -> (p <= 19)%nat ->
  FromString i p mode = Ok (u64 (dec_value i * 10 ^ Z.of_nat p)).
Proof.
  intros Hne Hi Hv Hp. unfold FromString. rewrite decide_False by done.
  rewrite find_sub_none by (by apply dot_not_digit). rewrite from_chars_digits by done.
  simpl. rewrite scale_loop_eq by lia. rewrite ScaleFactor_eq by done.
  rewrite Z.mul_0_l, Z.add_0_r. f_equal. apply u64_id, u64_range.
Qed.

Lemma FromString_fraction i f p mode :
  i <> [] -> forallb is_digit i = true -> dec_value i <= u64_max ->
  f <> [] -> forallb is_digit f = true -> (length f <= p <= 19)%nat ->
  FromString (i ++ [dot] ++ f) p mode =
  Ok (u64 (dec_value i * 10 ^ Z.of_nat p + dec_value f * 10 ^ Z.of_nat (p - length f))).
Proof.
  intros Hni Hi Hvi Hnf Hf Hp. unfold FromString. rewrite decide_False by (by destruct i).
  simpl app. rewrite find_sub_char by (by apply dot_not_digit).
  rewrite take_app_length, drop_app_ge by lia.
  replace (length i + 1 - length i)%nat with 1%nat by lia. simpl drop. rewrite drop_0.
  rewrite from_chars_digits by done.
  rewrite decide_False, decide_False by (done || lia). simpl.
  pose proof (dec_value_range f Hf) as Hvf.
  assert (10 ^ Z.of_nat p < 2 ^ 64) as Hp19.
  { by apply pow10_u64; lia. }
  assert (10 ^ Z.of_nat p = 10 ^ Z.of_nat (length f) * 10 ^ Z.of_nat (p - length f)) as Hsplit.
  { rewrite <-Z.pow_add_r by lia. f_equal. lia. }
  pose proof (pow10_pos (p - length f)). pose proof (pow10_pos (length f)).
  rewrite from_chars_digits by (done || unfold u64_max; nia). simpl.
  rewrite scale_loop_eq by nia. rewrite ScaleFactor_eq by lia. by rewrite u64_add_id.
Qed.

Lemma strip_zeros_zeros s : exists n, s = strip_zeros s ++ replicate n "0"%char.
Proof.
  induction s as [|c s [n IH]]; [by exists 0%nat|]. simpl.
  destruct (strip_zeros s) as [|d r] eqn:E; [case_decide as Hc|].
  - exists (S n). simpl in *. by rewrite IH, Hc.
  - exists n. simpl in *. by rewrite IH.
  - exists n. simpl in *. by rewrite IH.
Qed.

Lemma strip_zeros_middle a c b : c <> "0"%char -> strip_zeros (a ++ c :: b) = a ++ c :: strip_zeros b.
Proof.
  intros Hc. induction a as [|x a IH]; simpl.
  - destruct (strip_zeros b); [by rewrite decide_False|done].
  - rewrite IH. by destruct a.
Qed.

(** The text of a number at a positive precision. *)
Lemma ToString_fraction v p :
  is_u64 v -> (1 <= p <= 19)%nat ->
  exists f, ToString v p = Ok (to_string (v / 10 ^ Z.of_nat p) ++ [dot] ++ f) /\
    forallb is_digit f = true /\ length f = p /\ dec_value f = v mod 10 ^ Z.of_nat p.
Proof.
  intros Hv Hp. pose proof (pow10_pos p) as Hpos. unfold ToString, udiv, umod.
  rewrite ScaleFactor_eq by lia. destruct (Z.eqb_spec (10 ^ Z.of_nat p) 0); [lia|]. simpl.
  rewrite decide_False by lia. eexists. split; [done|].
  pose proof (Z.mod_pos_bound v (10 ^ Z.of_nat p) Hpos) as Hm.
  pose proof (to_string_length _ p Hm ltac:(lia)) as Hlen. split; [|split].
  - rewrite forallb_app, to_string_digits, andb_true_r by lia.
    generalize (p - length (to_string (v mod 10 ^ Z.of_nat p)))%nat. by intros k; induction k.
  - rewrite length_app, length_replicate. lia.
  - rewrite dec_value_app, dec_value_zeros, to_string_value by lia. lia.
Qed.

(** A text of a fraction without its trailing zeros. *)
Lemma to_text_short i f :
  i <> [] -> forallb is_digit i = true -> forallb is_digit f = true ->
  let s := strip_zeros (i ++ [dot] ++ f) in
  (if decide (last s = Some dot) then removelast s else s) =
  (if decide (strip_zeros f = []) then i else i ++ [dot] ++ strip_zeros f).
Proof.
  intros Hne Hi Hf. cbv zeta. simpl app. rewrite strip_zeros_middle by done.
  destruct (strip_zeros_zeros f) as [n Hn]. destruct (strip_zeros f) as [|c g].
  - rewrite (decide_True (P := [] = [])), decide_True by (done || by rewrite last_app).
    by rewrite removelast_last.
  - rewrite (decide_False (P := c :: g = [])), decide_False; [done| |done].
    rewrite last_app. change (last (dot :: c :: g)) with (last (c :: g)).
    destruct (last (c :: g)) as [d|] eqn:Hl; [|by apply last_None in Hl]. intros [= ->].
    assert (dot ∈ f) as Hd; [|by eapply dot_not_digit].
    rewrite Hn. apply elem_of_app. left. apply last_Some in Hl as [l' ->]. set_solver.
Qed.

Lemma print_parse_fixed v p mode f :
  is_u64 v -> (1 <= p <= 19)%nat -> forallb is_digit f = true -> length f = p ->
  dec_value f = v mod 10 ^ Z.of_nat p ->
  FromString (to_string (v / 10 ^ Z.of_nat p) ++ [dot] ++ f) p mode = Ok v.
Proof.
  intros Hv Hp Hf Hlen Hval. unfold is_u64 in Hv. pose proof (pow10_pos p) as Hpos.
  assert (0 <= v / 10 ^ Z.of_nat p) as Hq by (apply Z.div_pos; lia).
  assert (v / 10 ^ Z.of_nat p <= u64_max).
  { unfold u64_max. apply Z.div_le_upper_bound; nia. }
  rewrite FromString_fraction; [|auto with decimal|auto with decimal| | |done|lia].
  - rewrite to_string_value, Hval, Hlen, Nat.sub_diag by done. f_equal.
    change (10 ^ Z.of_nat 0) with 1. pose proof (Z.div_mod v (10 ^ Z.of_nat p) ltac:(lia)).
    rewrite u64_id; u64_lia.
  - by rewrite to_string_value.
  - intros ->. simpl in Hlen. lia.
Qed.

Lemma print_parse_short v p mode f :
  is_u64 v -> (1 <= p <= 19)%nat -> forallb is_digit f = true -> length f = p ->
  dec_value f = v mod 10 ^ Z.of_nat p ->
  let i := to_string (v / 10 ^ Z.of_nat p) in
  FromString (if decide (strip_zeros f = []) then i else i ++ [dot] ++ strip_zeros f) p mode = Ok v.
Proof.
  intros Hv Hp Hf Hlen Hval i. unfold is_u64 in Hv. pose proof (pow10_pos p) as Hpos.
  pose proof (Z.div_mod v (10 ^ Z.of_nat p) ltac:(lia)) as Hdm.
  assert (0 <= v / 10 ^ Z.of_nat p <= v) as Hq.
  { split; [apply Z.div_pos; lia|]. apply Z.div_le_upper_bound; nia. }
  assert (dec_value i = v / 10 ^ Z.of_nat p) as Hi by (apply to_string_value; lia).
  assert (forallb is_digit i = true) as Hid by (apply to_string_digits; lia).
  assert (dec_value i <= u64_max) by (u64_lia).
  destruct (strip_zeros_zeros f) as [n Hn].
  assert (length f = length (strip_zeros f) + n)%nat as Hln.
  { rewrite Hn at 1. by rewrite length_app, length_replicate. }
  assert (dec_value f = dec_value (strip_zeros f) * 10 ^ Z.of_nat n) as Hdf.
  { rewrite Hn at 1. rewrite dec_value_app, dec_value_zeros, length_replicate. lia. }
  assert (forallb is_digit (strip_zeros f) = true) as Hsd.
  { rewrite Hn, forallb_app in Hf. by apply andb_prop in Hf as [? _]. }
  case_decide as Hz.
  - rewrite FromString_integer by (done || apply to_string_nonempty || lia).
    rewrite Hz in Hdf. change (dec_value []) with 0 in Hdf. f_equal.
    rewrite Hi, u64_id; u64_lia.
  - rewrite FromString_fraction by (done || apply to_string_nonempty || lia). f_equal.
    replace (p - length (strip_zeros f))%nat with n by lia.
    rewrite Hi, u64_id; u64_lia.
Qed.

(** Printing and parsing are inverse: a 64-bit value with at most 19
    fractional digits, printed with all its digits or without trailing zeros,
    is read back as itself at the same precision, in both parse modes. *)
Theorem print_parse v p fixedDecimals mode :
  is_u64 v -> (p <= 19)%nat ->
  exists s, to_text fixedDecimals {| value_ := v; precision_ := p |} = Ok s /\
    FromString s p mode = Ok v.
Proof.
  intros Hv Hp. unfold to_text. simpl value_. simpl precision_. destruct (decide (p = 0%nat)) as [->|Hp0].
  - exists (to_string v). unfold is_u64 in Hv.
    assert (forallb is_digit (to_string v) = true) as Hd by (apply to_string_digits; lia).
    split.
    + unfold ToString. simpl. rewrite Z.div_1_r. destruct fixedDecimals; [done|].
      by rewrite find_sub_none by (by apply dot_not_digit).
    + rewrite FromString_integer; [|apply to_string_nonempty|done|rewrite to_string_value|lia];
        [|u64_lia|lia].
      rewrite to_string_value by lia. f_equal. change (10 ^ Z.of_nat 0) with 1.
      rewrite u64_id; u64_lia.
  - destruct (ToString_fraction v p Hv ltac:(lia)) as (f & -> & Hf & Hlen & Hval). simpl.
    pose proof (pow10_pos p) as Hpos. unfold is_u64 in Hv.
    assert (0 <= v / 10 ^ Z.of_nat p) as Hq by (apply Z.div_pos; lia).
    destruct fixedDecimals.
    + exists (to_string (v / 10 ^ Z.of_nat p) ++ [dot] ++ f). split; [done|].
      apply print_parse_fixed; (done || lia).
    + rewrite find_sub_char by (by apply dot_not_digit, to_string_digits).
      eexists. split; [|by apply (print_parse_short v p mode f); (done || lia)].
      f_equal. rewrite <-to_text_short; [|auto with decimal|auto with decimal|done].
      simpl. rewrite strip_zeros_middle by done.
      by destruct (to_string (v / 10 ^ Z.of_nat p)).
Qed.

(** The value of a decimal text: the integer digits scaled by the precision
    plus the fraction filled up with zeros, for every text whose digits fit the
    precision; the sum is taken modulo 2^64 and no error is reported when it
    does not fit. *)
Theorem parse_value i f p mode :
  i <> [] -> forallb is_digit i = true -> dec_value i <= u64_max ->
  f <> [] -> forallb is_digit f = true -> (length f <= p <= 19)%nat ->
  FromString i p mode = Ok (u64 (dec_value i * 10 ^ Z.of_nat p)) /\
  FromString (i ++ [dot] ++ f) p mode =
  Ok (u64 (dec_value i * 10 ^ Z.of_nat p + dec_value f * 10 ^ Z.of_nat (p - length f))).
Proof. intros. split; [apply FromString_integer|apply FromString_fraction]; (done || lia). Qed.

Lemma FromString_range s p mode v : FromString s p mode = Ok v -> is_u64 v.
Proof.
  unfold FromString. case_decide; [done|]. destruct (find_sub _ _).
  all: destruct (from_chars _) as [[z [|]]|]; try done.
  all: intros (r & _ & [= <-])%outcome_bind_ok; apply u64_range.
Qed.

Lemma FromDouble_range x p v : FromDouble x p = Ok v -> is_u64 v.
Proof.
  unfold FromDouble. destruct (round _) as [|?|n]; [done..|].
  destruct (Z.ltb_spec n 0), (Z.ltb_spec (2 ^ 64) n); simpl; try done.
  destruct (Z.leb_spec n u64_max); [|done]. intros [= <-]. unfold is_u64, u64_max in *. lia.
Qed.

(** A conversion of a [double] is undefined exactly when the scaled value
    is not a number or rounds to 2^64: the comparison with the largest 64-bit
    integer is made after that integer was rounded up to 2^64. *)
Theorem FromDouble_undefined x p :
  FromDouble x p = Err undefined_behaviour <->
  round (double_mul x (double_of_u64 (ScaleFactor p))) = not_a_number \/
  round (double_mul x (double_of_u64 (ScaleFactor p))) = integer (2 ^ 64).
Proof.
  unfold FromDouble. destruct (round _) as [|?|n]; [naive_solver|naive_solver|].
  destruct (Z.ltb_spec n 0), (Z.ltb_spec (2 ^ 64) n); simpl;
    [split; [done|intros [?|[= ->]]; [done|lia]]..|].
  destruct (Z.leb_spec n u64_max); unfold u64_max in *.
  - split; [done|]. intros [?|[= ->]]; [done|lia].
  - split; [|done]. intros _. right. f_equal. lia.
Qed.
End props.

Section tokens.
Import ScaledInteger TokenAmount.
#[local] Arguments ScaledInteger.ToString : simpl never.
#[local] Arguments ScaledInteger.FromString : simpl never.
#[local] Arguments ScaledInteger.FromDouble : simpl never.
#[local] Arguments ScaledInteger.ScaleFactor : simpl never.

(** Converting an amount to a child token and back never creates tokens,
    and loses less than the worth of one unit of the child token and one
    minion. *)
Theorem child_token_round_trip input ratio r s :
  is_u64 input -> FromString ratio PRECISION Strict = Ok r ->
  ConvertToChildToken input ratio = Ok s ->
  exists back, ConvertFromChildToken s ratio = Ok back /\ back <= input /\
    (input - back) * 10 ^ 6 < r + 10 ^ 6.
Proof.
  intros Hin Hr. unfold ConvertToChildToken, ConvertFromChildToken, ScaledInteger.New_string. rewrite Hr.
  pose proof (FromString_range _ _ _ _ Hr) as Hru. unfold is_u64 in *. simpl.
  unfold divide, same_precision, ScaledInteger.Divide. simpl precision_. rewrite decide_True by done. simpl.
  destruct (Z.eqb_spec r 0) as [|Hr0]; [done|]. change (ScaleFactor PRECISION) with (10 ^ 6).
  set (c := input * 10 ^ 6 / r). unfold fits. destruct (Z.ltb_spec u64_max c); [done|]. simpl.
  pose proof (Z.div_mod (input * 10 ^ 6) r Hr0) as Hdm. fold c in Hdm.
  pose proof (Z.mod_pos_bound (input * 10 ^ 6) r ltac:(lia)) as Hmod.
  assert (0 <= c) as Hc by (apply Z.div_pos; lia).
  destruct (ToString_fraction c PRECISION ltac:(u64_lia) ltac:(unfold PRECISION; lia))
    as (f & Hs & Hf & Hlen & Hval).
  unfold to_text. cbn [value_ precision_]. rewrite Hs. intros Htext.
  assert (FromString s PRECISION Truncate = Ok c) as ->.
  { replace s with (to_string (c / 10 ^ Z.of_nat PRECISION) ++ [dot] ++ f) by (by injection Htext).
    apply print_parse_fixed; [u64_lia|unfold PRECISION; lia|done..]. }
  simpl.
  unfold multiply, same_precision. simpl precision_. rewrite decide_True by done. simpl.
  unfold ScaledInteger.Multiply, udiv. change (ScaleFactor PRECISION) with (10 ^ 6). simpl.
  pose proof (Z.div_mod (c * r) (10 ^ 6) ltac:(lia)) as Hb.
  pose proof (Z.mod_pos_bound (c * r) (10 ^ 6) ltac:(lia)) as Hbm.
  unfold fits. set (b := c * r / 10 ^ 6) in *.
  assert (b <= input) as Hle by nia.
  destruct (Z.ltb_spec u64_max b); [unfold u64_max in *; lia|]. simpl.
  exists b. split; [done|]. split; [done|]. nia.
Qed.

Lemma cost_at_spec scaled price prec r :
  (prec <= 19)%nat -> cost_at scaled price prec = Ok (Some r) ->
  exists P, FromDouble price prec = Ok P /\ 0 < P /\
    r = {| value_ := scaled * 10 ^ Z.of_nat prec / P; precision_ := prec |}.
Proof.
  intros Hprec. unfold cost_at, ScaledInteger.New_double. destruct (u64_max <? scaled); [done|]. simpl.
  destruct (FromDouble price prec) as [P|[]] eqn:EP; simpl; try done.
  pose proof (FromDouble_range _ _ _ EP) as HP. unfold is_u64 in HP.
  unfold divide, same_precision. simpl. rewrite decide_True by done. simpl.
  unfold ScaledInteger.Divide. destruct (Z.eqb_spec P 0); simpl; [done|].
  rewrite ScaleFactor_eq by done. unfold fits. destruct (_ <? _); simpl; [done|].
  intros [= <-]. exists P. repeat split; lia.
Qed.

Lemma cost_loop_spec n prec product price r :
  (prec <= 15)%nat -> (n <= prec)%nat ->
  cost_loop n prec product (10 ^ Z.of_nat (15 - prec)) price = Ok (Some r) ->
  exists prec' P, (prec - n < prec' <= prec)%nat /\ FromDouble price prec' = Ok P /\ 0 < P /\
    r = {| value_ := product / 10 ^ Z.of_nat (15 - prec') * 10 ^ Z.of_nat prec' / P;
           precision_ := prec' |}.
Proof.
  revert prec. induction n as [|n IH]; intros prec Hp Hn; simpl; [done|].
  intros (o & Hat & Ho)%outcome_bind_ok. destruct o as [c|].
  - injection Ho as <-. apply cost_at_spec in Hat as (P & HP & Hpos & ->); [|lia].
    exists prec, P. repeat split; (done || lia).
  - replace (10 ^ Z.of_nat (15 - prec) * 10) with (10 ^ Z.of_nat (15 - (prec - 1))) in Ho.
    + destruct (IH (prec - 1)%nat ltac:(lia) ltac:(lia) Ho) as (prec' & P & ? & ? & ? & ->).
      exists prec', P. repeat split; (done || lia).
    + replace (15 - (prec - 1))%nat with (S (15 - prec)) by lia.
      rewrite Nat2Z.inj_succ, Z.pow_succ_r by lia. lia.
Qed.

(** A cost is at least one minion and is the number of bytes times 10^4
    (the price of 20 operations, in 10^-15 dollars) divided by the price of a
    token, computed with some number of fractional digits between 6 and 15 in
    which the price is a positive 64-bit number. *)
Theorem cost_of_bytes total_bytes price n :
  CalculateCostMinions total_bytes price = Ok n ->
  exists prec P, (6 <= prec <= 15)%nat /\ FromDouble price prec = Ok P /\ 0 < P /\
    n = Z.max 1 (total_bytes * 10 ^ 4 / 10 ^ Z.of_nat (15 - prec) * 10 ^ Z.of_nat prec / P
                 / 10 ^ Z.of_nat (prec - 6)).
Proof.
  unfold CalculateCostMinions. intros (o & Hloop & Ho)%outcome_bind_ok.
  destruct o as [c|]; [|done].
  change 1 with (10 ^ Z.of_nat (15 - 15)) in Hloop at 1.
  apply cost_loop_spec in Hloop as (prec & P & Hprec & HP & Hpos & ->);
    [|unfold PRICE_PER_FLOP_FRACTIONAL_DIGITS, PRECISION; lia..].
  unfold PRICE_PER_FLOP_FRACTIONAL_DIGITS, PRECISION, PRICE_PER_FLOP, FLOPS_PER_BYTE in *.
  exists prec, P. split; [lia|]. split; [done|]. split; [done|]. revert Ho. simpl precision_.
  rewrite decide_False by lia. unfold convertPrecision, ConvertPrecision. simpl precision_. simpl value_.
  replace (total_bytes * 500 * 20) with (total_bytes * 10 ^ 4) by lia.
  destruct (decide (prec = 6%nat)) as [->|Hne].
  - simpl. intros [= <-]. rewrite Z.div_1_r. unfold MIN_MINION_UNITS. lia.
  - rewrite decide_False by lia. unfold udiv. rewrite ScaleFactor_eq by lia.
    pose proof (pow10_pos (prec - 6)). destruct (Z.eqb_spec (10 ^ Z.of_nat (prec - 6)) 0); [lia|].
    simpl. intros [= <-]. unfold MIN_MINION_UNITS. lia.
Qed.
End tokens.

(** ** Examples *)

Section examples.
Import ScaledInteger TokenAmount.

Lemma print_parse_witness : exists s,
  to_text false {| value_ := 1500000; precision_ := 6 |} = Ok s /\ FromString s 6 Strict = Ok 1500000.
Proof. apply (print_parse 1500000 6 false Strict); [unfold is_u64|]; lia. Defined.

(** More tokens than fit in 64 bits are read as less than half a token. *)
Lemma parse_value_witness :
  FromString (str "18446744073710") 6 Strict = Ok 448384 /\
  FromString (str "18446744073710" ++ [dot] ++ str "5") 6 Strict = Ok 948384.
Proof.
  destruct (parse_value (str "18446744073710") (str "5") 6 Strict) as [H1 H2].
  - done.
  - reflexivity.
  - vm_compute. discriminate.
  - done.
  - reflexivity.
  - vm_compute. lia.
  - split; [exact H1|exact H2].
Defined.

Lemma child_token_round_trip_witness : exists back,
  ConvertFromChildToken (str "0.333333") (str "3") = Ok back /\ back <= 1000000 /\
  (1000000 - back) * 10 ^ 6 < 3000000 + 10 ^ 6.
Proof.
  apply (child_token_round_trip 1000000 (str "3") 3000000 (str "0.333333"));
    [u64_lia|reflexivity|reflexivity].
Defined.

(** A gigabyte at 3.5 dollars per token. *)
Lemma cost_of_bytes_witness : exists prec P, (6 <= prec <= 15)%nat /\
  FromDouble (S754_finite false 7881299347898368 (-51)) prec = Ok P /\ 0 < P /\
  2857 = Z.max 1 (10 ^ 9 * 10 ^ 4 / 10 ^ Z.of_nat (15 - prec) * 10 ^ Z.of_nat prec / P
                 / 10 ^ Z.of_nat (prec - 6)).
Proof.
  apply (cost_of_bytes (10 ^ 9) (S754_finite false 7881299347898368 (-51)) 2857).
  vm_compute. reflexivity.
Defined.
End examples.
