(* ===== verification/Utxo.v ===== *)
(** * Unspent outputs ([account/GeniusUTXO.hpp], [account/TokenID.hpp],
      [account/GeniusAccount.*], [account/UTXOTxParameters.*])

    The outputs an account can spend, and how transactions choose, lock and
    remove them. *)

From S2P Require Import Prelude.
Local Open Scope Z_scope.

Module TokenID.

Record t := { data_ : bytes; valid_ : bool }.
#[export] Instance t_eq_dec : EqDecision t.
Proof. solve_decision. Defined.

Definition zero_byte : ascii := "000"%char.
Definition invalid : t := {| data_ := replicate 32 zero_byte; valid_ := false |}.

Definition FromBytes (data : bytes) : t :=
  if decide (length data = 0%nat) then invalid
  else if decide (length data <= 32)%nat then
    {| data_ := replicate (32 - length data) zero_byte ++ data; valid_ := true |}
  else invalid.

(** [operator==]; [Equals] holds for two tokens that both stand for the GNUS
    token as well. *)
Definition IsGNUS (x : t) : bool := negb (valid_ x) || forallb (fun b => bool_decide (b = zero_byte)) (data_ x).
Definition Equals (x y : t) : bool := bool_decide (x = y) || (IsGNUS x && IsGNUS y).
End TokenID.

Abbreviation Hash256 := bytes.

Record GeniusUTXO := {
  txid_hash_ : Hash256; output_idx_ : Z; amount_ : Z; locked_ : bool; tokein_id_ : TokenID.t
}.

Definition new_utxo (hash : Hash256) (previous_index amount : Z) (token_id : TokenID.t) : GeniusUTXO :=
  {| txid_hash_ := hash; output_idx_ := previous_index; amount_ := amount; locked_ := false;
     tokein_id_ := token_id |}.

Definition ToggleLock (lock : bool) (u : GeniusUTXO) : GeniusUTXO :=
  {| txid_hash_ := txid_hash_ u; output_idx_ := output_idx_ u; amount_ := amount_ u; locked_ := lock;
     tokein_id_ := tokein_id_ u |}.

Record InputUTXOInfo := { in_txid_hash_ : Hash256; in_output_idx_ : Z; in_signature_ : bytes }.
Record OutputDestInfo := { encrypted_amount : Z; dest_address : bytes; token_id : TokenID.t }.

(** The output an entry stands for. *)
Definition outpoint (u : GeniusUTXO) : Hash256 * Z := (txid_hash_ u, output_idx_ u).
Definition in_outpoint (i : InputUTXOInfo) : Hash256 * Z := (in_txid_hash_ i, in_output_idx_ i).

Module GeniusAccount.

Record t := { address : bytes; nonce : Z; utxos : list GeniusUTXO }.
Implicit Types (a : t) (u : GeniusUTXO).

Definition with_utxos a l : t := {| address := address a; nonce := nonce a; utxos := l |}.
Definition with_nonce a n : t := {| address := address a; nonce := n; utxos := utxos a |}.

Definition GetBalance a : Z :=
  fold_left (fun retval u => if locked_ u then retval else u64 (retval + amount_ u)) (utxos a) 0.

Definition GetBalanceOf (token_id : TokenID.t) a : Z :=
  fold_left (fun balance u =>
    if negb (locked_ u) && TokenID.Equals token_id (tokein_id_ u) then u64 (balance + amount_ u)
    else balance) (utxos a) 0.

Definition PutUTXO u a : bool * t :=
  if decide (outpoint u ∈ (outpoint <$> utxos a)) then (false, a)
  else (true, with_utxos a (utxos a ++ [u])).

Definition RefreshUTXOs (infos : list InputUTXOInfo) a : bool * t :=
  (true, with_utxos a (filter (fun u => outpoint u ∉ (in_outpoint <$> infos)) (utxos a))).
End GeniusAccount.

Module UTXOTxParameters.

Record t := { inputs_ : list InputUTXOInfo; outputs_ : list OutputDestInfo }.
Implicit Types (pool : list GeniusUTXO) (token : TokenID.t) (p : t).

(** The loop both constructors select inputs with: the unlocked outputs of the
    token, in order, until [target] is covered. *)
Fixpoint select pool (target : Z) token (used : Z) : list GeniusUTXO * Z :=
  match pool with
  | [] => ([], used)
  | u :: pool =>
      if target <=? used then ([], used)
      else if locked_ u then select pool target token used
      else if negb (TokenID.Equals token (tokein_id_ u)) then select pool target token used
      else let '(l, used) := select pool target token (u64 (used + amount_ u)) in (u :: l, used)
  end.

Definition input (u : GeniusUTXO) : InputUTXOInfo :=
  {| in_txid_hash_ := txid_hash_ u; in_output_idx_ := output_idx_ u; in_signature_ := [] |}.

(** How much of the selected outputs goes to the destination. *)
Fixpoint send_loop (l : list GeniusUTXO) (amount send_totals used_amount : Z) : Z :=
  match l with
  | [] => send_totals
  | u :: l =>
      if u64 (used_amount + amount_ u) <=? amount then
        send_loop l amount (u64 (send_totals + amount_ u)) (u64 (used_amount + amount_ u))
      else u64 (send_totals + u64 (amount - used_amount))
  end.

Definition construct pool (src_address : bytes) (amount : Z) (dest : bytes) token : t :=
  let '(selected_utxos, selected_amount) := select pool amount token 0 in
  if (selected_amount <? amount) || bool_decide (selected_utxos = []) then
    {| inputs_ := []; outputs_ := [] |}
  else
    let change := u64 (selected_amount - amount) in
    {| inputs_ := input <$> selected_utxos;
       outputs_ := {| encrypted_amount := send_loop selected_utxos amount 0 0; dest_address := dest;
                      token_id := token |}
                   :: (if 0 <? change then
                         [{| encrypted_amount := change; dest_address := src_address; token_id := token |}]
                       else []) |}.

Definition construct_many pool (src_address : bytes) (destinations : list OutputDestInfo) token : t :=
  let total_amount := fold_left (fun total d => u64 (total + encrypted_amount d)) destinations 0 in
  let '(selected, used_amount) := select pool total_amount token 0 in
  let change_token := match selected with [] => TokenID.invalid | _ => token end in
  let p := if used_amount <? total_amount then {| inputs_ := []; outputs_ := [] |}
           else {| inputs_ := input <$> selected; outputs_ := destinations |} in
  if total_amount <? used_amount then
    {| inputs_ := inputs_ p;
       outputs_ := outputs_ p ++ [{| encrypted_amount := u64 (used_amount - total_amount);
                                     dest_address := src_address; token_id := change_token |}] |}
  else p.

Definition checked p : outcome t :=
  if decide (inputs_ p = []) then Err error_code_zero else Ok p.

Definition create pool src_address amount dest token : outcome t :=
  checked (construct pool src_address amount dest token).
Definition create_many pool src_address destinations token : outcome t :=
  checked (construct_many pool src_address destinations token).

(** An input locks every output of its transaction. *)
Definition UpdateUTXOList pool p : list GeniusUTXO :=
  fold_left (fun l i => (fun u => if decide (in_txid_hash_ i = txid_hash_ u) then ToggleLock true u else u)
                          <$> l) (inputs_ p) pool.

Definition SignParameters p : bool := true.
End UTXOTxParameters.

(** ** Correctness *)

Import UTXOTxParameters.

Definition total (l : list GeniusUTXO) : Z := foldr (fun u s => amount_ u + s) 0 l.
Definition paid (l : list OutputDestInfo) : Z := foldr (fun o s => encrypted_amount o + s) 0 l.

Definition spendable (token : TokenID.t) (u : GeniusUTXO) : bool :=
  negb (locked_ u) && TokenID.Equals token (tokein_id_ u).

Definition spendables (token : TokenID.t) (pool : list GeniusUTXO) : list GeniusUTXO :=
  filter (fun u => spendable token u = true) pool.

(** A pool of 64-bit amounts whose spendable sum is one as well. *)
Record wf_pool (token : TokenID.t) (pool : list GeniusUTXO) : Prop := {
  wf_amounts : Forall (fun u => 0 <= amount_ u) pool;
  wf_total : total (spendables token pool) < 2 ^ 64
}.

Lemma total_app l l' : total (l ++ l') = total l + total l'.
Proof. induction l as [|u l IH]; simpl; lia. Qed.

Lemma total_nonneg l : Forall (fun u => 0 <= amount_ u) l -> 0 <= total l.
Proof. induction 1; simpl; lia. Qed.

Lemma spendables_cons token u pool :
  spendables token (u :: pool) =
  if spendable token u then u :: spendables token pool else spendables token pool.
Proof. unfold spendables. rewrite filter_cons. by destruct (spendable token u). Qed.

Lemma spendables_amounts token pool :
  Forall (fun u => 0 <= amount_ u) pool -> Forall (fun u => 0 <= amount_ u) (spendables token pool).
Proof.
  rewrite !Forall_forall. intros H u [_ Hu]%list_elem_of_filter. by apply H.
Qed.

(** The selection is the shortest prefix of the spendable outputs that covers
    the target, or all of them. *)
Lemma select_spec pool target token used :
  Forall (fun u => 0 <= amount_ u) pool -> 0 <= used ->
  used + total (spendables token pool) < 2 ^ 64 ->
  exists l rest, spendables token pool = l ++ rest /\
    select pool target token used = (l, used + total l) /\
    (target <= used + total l \/ rest = []) /\
    (l <> [] -> used + total (removelast l) < target).
Proof.
  intros Hpos. revert used. induction Hpos as [|u pool Hu Hpos IH]; intros used Hused Hlt.
  { exists [], []. simpl. repeat split; [by rewrite Z.add_0_r|by right|done]. }
  rewrite spendables_cons in *. simpl. destruct (Z.leb_spec target used).
  { eexists [], _. split; [done|]. simpl. repeat split; [by rewrite Z.add_0_r|left; lia|done]. }
  unfold spendable in *. destruct (locked_ u); simpl in *; [by apply IH|].
  destruct (TokenID.Equals token (tokein_id_ u)); simpl in *; [|by apply IH].
  pose proof (total_nonneg _ (spendables_amounts token pool Hpos)).
  rewrite u64_id by (u64_lia).
  destruct (IH (used + amount_ u)) as (l & rest & -> & -> & Hcov & Hmin); [lia..|].
  exists (u :: l), rest. split; [done|]. split; [f_equal; simpl; lia|]. split.
  - destruct Hcov; [left; simpl; lia|by right].
  - intros _. destruct l as [|u' l]; [simpl; lia|]. specialize (Hmin ltac:(done)).
    change (removelast (u :: u' :: l)) with (u :: removelast (u' :: l)). simpl total. simpl total in Hmin. lia.
Qed.

Lemma removelast_split {A} (l : list A) : l <> [] -> exists x, l = removelast l ++ [x].
Proof. intros Hl. destruct (exists_last Hl) as (l' & x & ->). exists x. by rewrite removelast_last. Qed.

Lemma send_loop_full l amount used rest :
  Forall (fun u => 0 <= amount_ u) l -> 0 <= used -> used + total l <= amount -> amount < 2 ^ 64 ->
  send_loop (l ++ rest) amount used used = send_loop rest amount (used + total l) (used + total l).
Proof.
  intros Hl. revert used. induction Hl as [|u l Hu Hl IH]; intros used Hused Hle Hlt; simpl.
  { by rewrite Z.add_0_r. }
  simpl in Hle. pose proof (total_nonneg _ Hl). rewrite u64_id by (u64_lia).
  destruct (Z.leb_spec (used + amount_ u) amount); [|lia]. rewrite IH by lia. f_equal; lia.
Qed.

(** The destination receives the amount asked for. *)
Lemma send_loop_amount l amount :
  Forall (fun u => 0 <= amount_ u) l -> l <> [] -> total (removelast l) < amount ->
  amount <= total l < 2 ^ 64 -> send_loop l amount 0 0 = amount.
Proof.
  intros Hl Hne Hmin Hcov. destruct (removelast_split l Hne) as [u Hu].
  generalize dependent (removelast l). intros l0 Hmin ->.
  apply Forall_app in Hl as [Hl Hu%Forall_singleton].
  rewrite total_app in Hcov. simpl in Hcov.
  pose proof (total_nonneg _ Hl). rewrite send_loop_full by (done || lia).
  rewrite Z.add_0_l. cbn [send_loop].
  rewrite (u64_id (total l0 + amount_ u)) by (u64_lia).
  destruct (Z.leb_spec (total l0 + amount_ u) amount).
  - lia.
  - rewrite (u64_id (amount - _)) by (u64_lia).
    rewrite u64_id by (u64_lia). lia.
Qed.

(** A payment is made exactly when the amount is positive and covered by
    the unlocked outputs of the token.  It spends the shortest prefix of them
    that covers the amount, pays the amount to the destination and the rest,
    if any, back to the sender, so that what it pays is what it spends. *)
Theorem create_pays pool src amount dest token :
  wf_pool token pool -> 0 <= amount < 2 ^ 64 ->
  if decide (0 < amount <= total (spendables token pool)) then
    exists l rest p, create pool src amount dest token = Ok p /\
      spendables token pool = l ++ rest /\ total (removelast l) < amount /\
      inputs_ p = input <$> l /\ paid (outputs_ p) = total l /\
      head (outputs_ p) = Some {| encrypted_amount := amount; dest_address := dest; token_id := token |} /\
      Forall (fun o => dest_address o = src) (tail (outputs_ p))
  else create pool src amount dest token = Err error_code_zero.
Proof.
  intros [Hpos Hlt] Ham. unfold create, construct.
  destruct (select_spec pool amount token 0 Hpos ltac:(lia) ltac:(lia))
    as (l & rest & Hsp & -> & Hcov & Hmin). rewrite Z.add_0_l in *.
  pose proof (spendables_amounts token pool Hpos) as Hsa. rewrite Hsp in *. rewrite total_app in *.
  apply Forall_app in Hsa as [Hl Hrest]. pose proof (total_nonneg _ Hrest). pose proof (total_nonneg _ Hl).
  case_decide as Hd.
  - assert (amount <= total l) as Hle by (destruct Hcov as [Hc|Hc]; [done|subst; simpl in *; lia]).
    assert (l <> []) as Hne by (intros ->; simpl in *; lia). specialize (Hmin Hne).
    destruct (Z.ltb_spec (total l) amount); [lia|]. rewrite bool_decide_eq_false_2 by done. simpl.
    rewrite u64_id by (u64_lia). rewrite send_loop_amount by (done || lia).
    unfold checked. rewrite decide_False by (simpl; intros ?%fmap_nil_inv; done).
    exists l, rest. eexists. split; [done|]. split; [done|]. split; [lia|]. split; [done|]. simpl.
    split; [|split; [done|]]; destruct (Z.ltb_spec 0 (total l - amount)); simpl; try lia; by repeat constructor.
  - assert ((total l <? amount) || bool_decide (l = []) = true) as ->; [|done].
    destruct (Z.ltb_spec (total l) amount); [done|]. simpl. apply bool_decide_eq_true.
    destruct l as [|u l]; [done|]. specialize (Hmin ltac:(done)).
    assert (0 <= total (removelast (u :: l))); [|lia].
    destruct (removelast_split (u :: l) ltac:(done)) as [x Hx]. rewrite Hx in Hl.
    apply Forall_app in Hl as [Hl _]. by apply total_nonneg.
Qed.

Lemma paid_app l l' : paid (l ++ l') = paid l + paid l'.
Proof. induction l as [|o l IH]; simpl; lia. Qed.

Lemma sum_destinations l z :
  fold_left (fun total d => u64 (total + encrypted_amount d)) l (u64 z) = u64 (z + paid l).
Proof.
  revert z. induction l as [|o l IH]; intros z; simpl; [f_equal; lia|].
  rewrite u64_add_id, IH. f_equal. lia.
Qed.

(** A payment to several destinations spends, modulo 2^64, what it pays:
    the destinations are kept as given, with at most one output back to the
    sender, and it is exact when the sum of the destinations is a 64-bit
    integer; a sum that does not fit is paid although only its remainder
    modulo 2^64 is spent. *)
Theorem create_many_pays pool src destinations token p :
  wf_pool token pool -> Forall (fun o => 0 <= encrypted_amount o) destinations ->
  create_many pool src destinations token = Ok p ->
  exists l rest, spendables token pool = l ++ rest /\ inputs_ p = input <$> l /\
    destinations `prefix_of` outputs_ p /\
    total l = paid (outputs_ p) - (paid destinations - u64 (paid destinations)).
Proof.
  intros [Hpos Hlt] Hd. unfold create_many, construct_many.
  pose proof (sum_destinations destinations 0) as Ht. change (u64 0) with 0 in Ht.
  rewrite Ht, Z.add_0_l. clear Ht.
  destruct (select_spec pool (u64 (paid destinations)) token 0 Hpos ltac:(lia) ltac:(lia))
    as (l & rest & Hsp & -> & Hcov & Hmin). rewrite Z.add_0_l in *.
  pose proof (spendables_amounts token pool Hpos) as Hsa. rewrite Hsp in *. rewrite total_app in *.
  apply Forall_app in Hsa as [Hl Hrest]. pose proof (total_nonneg _ Hrest). pose proof (total_nonneg _ Hl).
  pose proof (u64_range (paid destinations)) as Hr. unfold is_u64 in Hr.
  set (t0 := u64 (paid destinations)) in *. unfold checked.
  destruct (Z.ltb_spec (total l) t0), (Z.ltb_spec t0 (total l)); try lia; simpl; [done|..];
    case_decide; try done; intros [= <-]; exists l, rest; simpl; repeat split; try done.
  - by apply prefix_app_r.
  - rewrite paid_app. simpl. rewrite u64_id by (u64_lia). lia.
  - lia.
Qed.

(** *** Locking *)

Lemma UpdateUTXOList_spec pool p :
  UpdateUTXOList pool p =
  (fun u => if decide (txid_hash_ u ∈ in_txid_hash_ <$> inputs_ p) then ToggleLock true u else u) <$> pool.
Proof.
  unfold UpdateUTXOList. generalize (inputs_ p). intros l. revert pool.
  induction l as [|i l IH]; intros pool; cbn [fold_left].
  { rewrite <-(list_fmap_id pool) at 1. apply list_fmap_ext. intros ? u _. rewrite decide_False; [done|].
    by intros ?%not_elem_of_nil. }
  rewrite IH, <-list_fmap_compose, fmap_cons. apply list_fmap_ext. intros ? u _. unfold compose.
  destruct (decide (in_txid_hash_ i = txid_hash_ u)) as [Heq|Hne]; simpl.
  - rewrite (decide_True (P := txid_hash_ u ∈ _ :: _)) by (rewrite Heq; by left). by case_decide.
  - destruct (decide (txid_hash_ u ∈ in_txid_hash_ <$> l)) as [Hin|Hnin].
    + rewrite decide_True by (by right). done.
    + rewrite decide_False; [done|]. by intros [?|?]%elem_of_cons.
Qed.

Lemma select_spendable pool target token used u :
  u ∈ (select pool target token used).1 -> u ∈ pool /\ spendable token u = true.
Proof.
  revert used. induction pool as [|u' pool IH]; intros used; simpl; [by intros ?%not_elem_of_nil|].
  destruct (target <=? used); [by intros ?%not_elem_of_nil|].
  unfold spendable in *. destruct (locked_ u') eqn:El.
  { intros [? ?]%IH. split; [by right|done]. }
  destruct (TokenID.Equals token (tokein_id_ u')) eqn:Eq; simpl.
  2:{ intros [? ?]%IH. split; [by right|done]. }
  specialize (IH (u64 (used + amount_ u'))).
  destruct (select pool target token (u64 (used + amount_ u'))) as [l z]. simpl in *.
  intros [->|[? ?]%IH]%elem_of_cons; [split; [by left|by rewrite El, Eq]|split; [by right|done]].
Qed.

Lemma create_inputs pool src amount dest token p i :
  create pool src amount dest token = Ok p -> i ∈ inputs_ p ->
  exists u, i = input u /\ u ∈ pool /\ spendable token u = true.
Proof.
  unfold create, construct. pose proof (select_spendable pool amount token 0) as Hs.
  destruct (select pool amount token 0) as [l z]. simpl in Hs. unfold checked.
  destruct (_ || _); simpl; [done|].
  case_decide; intros [= <-]; simpl. intros (u & -> & Hu)%list_elem_of_fmap. eauto.
Qed.

(** No output is spent twice: once the outputs of a payment are locked, a
    later payment from the same pool does not choose any of them. *)
Lemma locked_not_spent pool src amount dest token p src' amount' dest' token' p' :
  create pool src amount dest token = Ok p ->
  create (UpdateUTXOList pool p) src' amount' dest' token' = Ok p' ->
  forall i i', i ∈ inputs_ p -> i' ∈ inputs_ p' -> in_outpoint i <> in_outpoint i'.
Proof.
  intros Hp Hp' i i' Hi Hi' [= Heq _].
  destruct (create_inputs _ _ _ _ _ _ _ Hp' Hi') as (u & -> & Hu & Hsp).
  rewrite UpdateUTXOList_spec in Hu. apply list_elem_of_fmap in Hu as (u0 & -> & _). simpl in *.
  assert (txid_hash_ u0 ∈ in_txid_hash_ <$> inputs_ p) as Hin.
  { apply list_elem_of_fmap. exists i. split; [|done]. by case_decide. }
  rewrite decide_True in Hsp by done. done.
Qed.

(** The lock goes too far: an output of the same transaction as an input,
    itself not spent, is locked by the payment, is still there and locked when
    the payment's inputs are removed, and receiving it again changes nothing;
    no operation of the account unlocks it. *)
Theorem sibling_stays_locked a p u i :
  u ∈ GeniusAccount.utxos a -> i ∈ inputs_ p -> in_txid_hash_ i = txid_hash_ u ->
  outpoint u ∉ (in_outpoint <$> inputs_ p) ->
  let a1 := GeniusAccount.with_utxos a (UpdateUTXOList (GeniusAccount.utxos a) p) in
  let a2 := (GeniusAccount.RefreshUTXOs (inputs_ p) a1).2 in
  ToggleLock true u ∈ GeniusAccount.utxos a2 /\
  forall u', outpoint u' = outpoint u -> GeniusAccount.PutUTXO u' a2 = (false, a2).
Proof.
  intros Hu Hi Htx Hnot a1 a2.
  assert (ToggleLock true u ∈ GeniusAccount.utxos a2) as Hin.
  { unfold a2, a1, GeniusAccount.RefreshUTXOs. simpl. apply list_elem_of_filter. split; [done|].
    rewrite UpdateUTXOList_spec. apply list_elem_of_fmap. exists u. split; [|done].
    rewrite decide_True; [done|]. apply list_elem_of_fmap. by exists i. }
  split; [done|]. intros u' Hu'. unfold GeniusAccount.PutUTXO. rewrite decide_True; [done|].
  rewrite Hu'. apply list_elem_of_fmap. by exists (ToggleLock true u).
Qed.

(** *** Examples *)

Definition gnus : TokenID.t := TokenID.FromBytes [TokenID.zero_byte].
Definition pool : list GeniusUTXO :=
  [new_utxo (str "t1") 0 5 gnus; new_utxo (str "t1") 1 7 gnus; new_utxo (str "t2") 0 9 gnus].

Lemma pool_wf : wf_pool gnus pool.
Proof. split; [by repeat constructor|reflexivity]. Qed.

Lemma create_pays_witness : exists l rest p, create pool (str "me") 6 (str "you") gnus = Ok p /\
  spendables gnus pool = l ++ rest /\ total (removelast l) < 6 /\
  inputs_ p = input <$> l /\ paid (outputs_ p) = total l /\
  head (outputs_ p) = Some {| encrypted_amount := 6; dest_address := str "you"; token_id := gnus |} /\
  Forall (fun o => dest_address o = str "me") (tail (outputs_ p)).
Proof. apply (create_pays pool (str "me") 6 (str "you") gnus pool_wf). lia. Defined.

(** Five units are spent where 2^64 + 5 are paid. *)
Lemma create_many_pays_witness :
  let d := [{| encrypted_amount := 2 ^ 64 - 1; dest_address := str "you"; token_id := gnus |};
            {| encrypted_amount := 6; dest_address := str "them"; token_id := gnus |}] in
  exists p l rest, spendables gnus pool = l ++ rest /\ inputs_ p = input <$> l /\
    d `prefix_of` outputs_ p /\ total l = paid (outputs_ p) - (paid d - u64 (paid d)).
Proof.
  intros d. destruct (create_many pool (str "me") d gnus) as [p|] eqn:E; [|discriminate E].
  exists p. apply (create_many_pays pool (str "me") d gnus p pool_wf); [|exact E].
  repeat constructor; simpl; lia.
Defined.

Lemma sibling_stays_locked_witness :
  let a := {| GeniusAccount.address := str "me"; GeniusAccount.nonce := 0; GeniusAccount.utxos := pool |} in
  let p := {| inputs_ := [input (new_utxo (str "t1") 0 5 gnus)]; outputs_ := [] |} in
  let a2 := (GeniusAccount.RefreshUTXOs (inputs_ p)
               (GeniusAccount.with_utxos a (UpdateUTXOList (GeniusAccount.utxos a) p))).2 in
  ToggleLock true (new_utxo (str "t1") 1 7 gnus) ∈ GeniusAccount.utxos a2.
Proof.
  intros a p a2. apply (sibling_stays_locked a p (new_utxo (str "t1") 1 7 gnus)
    (input (new_utxo (str "t1") 0 5 gnus))).
  - right. by left.
  - by left.
  - reflexivity.
  - by apply (bool_decide_unpack _).
Defined.
