(* ===== verification/Transactions.v ===== *)
(** * Transactions ([account/IGeniusTransactions.*], [account/*Transaction.*],
      [account/proto/SGTransaction.proto], [base/blob.hpp])

    The kinds of transactions, their paths in the store and their conversion to
    and from protobuf messages.  The wire format is the library's. *)

From S2P Require Import Prelude Utxo.
Local Open Scope Z_scope.

(** ** Hashes as text *)

Definition hex_digit (n : Z) : ascii := if n <? 10 then digit_char n else ascii_of_N (Z.to_N (n + 87)).

(** The value of a hexadecimal digit, in either case. *)
Definition hex_val (c : ascii) : option Z :=
  let n := uchar c in
  if (48 <=? n) && (n <=? 57) then Some (n - 48)
  else if (97 <=? n) && (n <=? 102) then Some (n - 87)
  else if (65 <=? n) && (n <=? 70) then Some (n - 55)
  else None.

Definition is_space (c : ascii) : bool := (uchar c =? 32) || ((9 <=? uchar c) && (uchar c <=? 13)).

Fixpoint skip_spaces (s : bytes) : bytes :=
  match s with c :: s' => if is_space c then skip_spaces s' else s | [] => [] end.

Fixpoint hex_number (s : bytes) (acc : option Z) : option Z :=
  match s with
  | c :: s => match hex_val c with
              | Some d => hex_number s (Some (16 * default 0 acc + d))
              | None => acc
              end
  | [] => acc
  end.

(** [std::stoul(s, nullptr, 16)] on strings too short to overflow; [None] is
    the exception thrown without digits.  A prefix [0x] needs a digit after
    it, which a string of two characters does not have. *)
Definition stoul16 (s : bytes) : option Z :=
  match skip_spaces s with
  | "-"%char :: s => (fun n => u64 (- n)) <$> hex_number s None
  | "+"%char :: s => hex_number s None
  | s => hex_number s None
  end.

Module Blob.
Definition toReadableString (b : bytes) : bytes :=
  concat ((fun c => [hex_digit (uchar c / 16); hex_digit (uchar c mod 16)]) <$> b).

(** Two characters at a time; a last single character is written one past the
    end. *)
Fixpoint read_loop (data : bytes) : outcome bytes :=
  match data with
  | [] => Ok []
  | [_] => Err undefined_behaviour
  | c :: d :: data =>
      match stoul16 [c; d] with
      | None => Err undefined_behaviour
      | Some n => b ← read_loop data; Ok (ascii_of_N (Z.to_N (n mod 256)) :: b)
      end
  end.

Definition fromReadableString (size_ : nat) (data : bytes) : outcome bytes :=
  if decide ((length data / 2)%nat = size_) then read_loop data else Err blob_incorrect_length.
End Blob.

(** ** Messages *)

Record DAGStruct := {
  dag_type : bytes; previous_hash : bytes; source_addr : bytes; dag_nonce : Z; timestamp : Z;
  uncle_hash : bytes; data_hash : bytes; signature : bytes
}.

Record TransferUTXOInput := { tx_id_hash : bytes; output_index : Z; input_signature : bytes }.
Record TransferOutput := { out_amount : Z; dest_addr : bytes; out_token : bytes }.
Record UTXOTxParams := { proto_inputs : list TransferUTXOInput; proto_outputs : list TransferOutput }.

Record TransferTx := { transfer_dag : DAGStruct; transfer_params : UTXOTxParams }.
Record ProcessingTx := {
  process_dag : DAGStruct; job_cid : bytes; subtask_cids : list bytes; node_addresses : list bytes
}.
Record MintTx := { mint_dag : DAGStruct; chain_id : bytes; mint_token : bytes; mint_amount : Z }.
Record EscrowTx := {
  escrow_dag : DAGStruct; escrow_params : UTXOTxParams; escrow_amount : Z; dev_addr : bytes; peers_cut : Z
}.
Record EscrowReleaseTx := {
  release_dag : DAGStruct; release_params : UTXOTxParams; release_amount : Z; release_address : bytes;
  escrow_source : bytes; original_escrow_hash : bytes
}.

Inductive Message : Type :=
  | TransferMessage (m : TransferTx)
  | ProcessingMessage (m : ProcessingTx)
  | MintMessage (m : MintTx)
  | EscrowMessage (m : EscrowTx)
  | EscrowReleaseMessage (m : EscrowReleaseTx).

(** ** Transactions *)

Inductive Transaction : Type :=
  | TransferTransaction (dag : DAGStruct) (input_tx_ : list InputUTXOInfo) (outputs_ : list OutputDestInfo)
  | ProcessingTransaction (dag : DAGStruct) (job_id_ : bytes) (subtask_ids_ node_addresses_ : list bytes)
  | MintTransaction (dag : DAGStruct) (amount : Z) (chain_id : bytes) (token_id : TokenID.t)
  | EscrowTransaction (dag : DAGStruct) (params : UTXOTxParameters.t) (amount_ : Z) (dev_addr_ : bytes)
      (peers_cut_ : Z)
  | EscrowReleaseTransaction (dag : DAGStruct) (params : UTXOTxParameters.t) (release_amount_ : Z)
      (release_address_ escrow_source_ original_escrow_hash_ : bytes).

Definition dag_st (tx : Transaction) : DAGStruct :=
  match tx with
  | TransferTransaction dag _ _ | ProcessingTransaction dag _ _ _ | MintTransaction dag _ _ _
  | EscrowTransaction dag _ _ _ _ | EscrowReleaseTransaction dag _ _ _ _ _ => dag
  end.

Definition with_dag (tx : Transaction) (dag : DAGStruct) : Transaction :=
  match tx with
  | TransferTransaction _ i o => TransferTransaction dag i o
  | ProcessingTransaction _ j s n => ProcessingTransaction dag j s n
  | MintTransaction _ a c t => MintTransaction dag a c t
  | EscrowTransaction _ p a d c => EscrowTransaction dag p a d c
  | EscrowReleaseTransaction _ p a r s h => EscrowReleaseTransaction dag p a r s h
  end.

Definition GetType (tx : Transaction) : bytes :=
  match tx with
  | TransferTransaction _ _ _ => str "transfer"
  | ProcessingTransaction _ _ _ _ => str "process"
  | MintTransaction _ _ _ _ => str "mint"
  | EscrowTransaction _ _ _ _ _ => str "escrow-hold"
  | EscrowReleaseTransaction _ _ _ _ _ _ => str "escrow-release"
  end.

Definition GetSrcAddress (tx : Transaction) : bytes := source_addr (dag_st tx).

Definition GetTransactionSpecificPath (tx : Transaction) : bytes :=
  match tx with
  | ProcessingTransaction _ job_id_ _ _ => GetType tx ++ [slash] ++ job_id_
  | _ => GetType tx
  end.

Definition GetTransactionFullPath (tx : Transaction) : bytes :=
  GetSrcAddress tx ++ str "/tx/" ++ GetTransactionSpecificPath tx ++ [slash] ++ to_string (dag_nonce (dag_st tx)).
Definition GetProofFullPath (tx : Transaction) : bytes :=
  GetSrcAddress tx ++ str "/proof/" ++ GetTransactionSpecificPath tx ++ [slash] ++ to_string (dag_nonce (dag_st tx)).

(** *** Fields of the DAG *)

Definition set_type (dag : DAGStruct) (type : bytes) : DAGStruct :=
  {| dag_type := type; previous_hash := previous_hash dag; source_addr := source_addr dag;
     dag_nonce := dag_nonce dag; timestamp := timestamp dag; uncle_hash := uncle_hash dag;
     data_hash := data_hash dag; signature := signature dag |}.
Definition set_hash (dag : DAGStruct) (hash : bytes) : DAGStruct :=
  {| dag_type := dag_type dag; previous_hash := previous_hash dag; source_addr := source_addr dag;
     dag_nonce := dag_nonce dag; timestamp := timestamp dag; uncle_hash := uncle_hash dag;
     data_hash := hash; signature := signature dag |}.
Definition set_signature (dag : DAGStruct) (sig : bytes) : DAGStruct :=
  {| dag_type := dag_type dag; previous_hash := previous_hash dag; source_addr := source_addr dag;
     dag_nonce := dag_nonce dag; timestamp := timestamp dag; uncle_hash := uncle_hash dag;
     data_hash := data_hash dag; signature := sig |}.

(** ** To messages *)

Definition input_proto (i : InputUTXOInfo) : TransferUTXOInput :=
  {| tx_id_hash := Blob.toReadableString (in_txid_hash_ i); output_index := in_output_idx_ i;
     input_signature := in_signature_ i |}.

(** [set_token_id(bytes().data(), size())]: an invalid token is written as no
    bytes. *)
Definition token_bytes (t : TokenID.t) : bytes :=
  take (if TokenID.valid_ t then 32 else 0) (TokenID.data_ t).

Definition output_proto (o : OutputDestInfo) : TransferOutput :=
  {| out_amount := encrypted_amount o; dest_addr := dest_address o; out_token := token_bytes (token_id o) |}.

Definition params_proto (inputs : list InputUTXOInfo) (outputs : list OutputDestInfo) : UTXOTxParams :=
  {| proto_inputs := input_proto <$> inputs; proto_outputs := output_proto <$> outputs |}.

Definition tx_struct (tx : Transaction) : Message :=
  match tx with
  | TransferTransaction dag i o =>
      TransferMessage {| transfer_dag := dag; transfer_params := params_proto i o |}
  | ProcessingTransaction dag j s n =>
      ProcessingMessage {| process_dag := dag; job_cid := j; subtask_cids := s; node_addresses := n |}
  | MintTransaction dag a c t =>
      MintMessage {| mint_dag := dag; chain_id := c; mint_token := token_bytes t; mint_amount := a |}
  | EscrowTransaction dag p a d c =>
      EscrowMessage {| escrow_dag := dag;
                       escrow_params := params_proto (UTXOTxParameters.inputs_ p) (UTXOTxParameters.outputs_ p);
                       escrow_amount := a; dev_addr := d; peers_cut := c |}
  | EscrowReleaseTransaction dag p a r s h =>
      EscrowReleaseMessage
        {| release_dag := dag;
           release_params := params_proto (UTXOTxParameters.inputs_ p) (UTXOTxParameters.outputs_ p);
           release_amount := a; release_address := r; escrow_source := s; original_escrow_hash := h |}
  end.

Definition message_dag (m : Message) : DAGStruct :=
  match m with
  | TransferMessage m => transfer_dag m
  | ProcessingMessage m => process_dag m
  | MintMessage m => mint_dag m
  | EscrowMessage m => escrow_dag m
  | EscrowReleaseMessage m => release_dag m
  end.

(** The protobuf library, the hash function and the signature scheme.  Parsing
    as a given message type is a function of the bytes; every message has its
    DAG structure as first field, so that a wrapper of that field alone reads
    any of them. *)
Class TxLib := {
  proto_serialize : Message -> bytes;
  proto_dag : bytes -> option DAGStruct;
  parse_transfer : bytes -> option TransferTx;
  parse_processing : bytes -> option ProcessingTx;
  parse_mint : bytes -> option MintTx;
  parse_escrow : bytes -> option EscrowTx;
  parse_release : bytes -> option EscrowReleaseTx;
  empty_transfer : TransferTx;
  empty_processing : ProcessingTx;
  blake2b_256 : bytes -> bytes;
  eth_sign : DAGStruct -> bytes;
  GenerateFullProof : Z -> Z -> outcome (option bytes)
}.

Class TxSpec `{TxLib} := {
  dag_round_trip m : proto_dag (proto_serialize m) = Some (message_dag m);
  transfer_round_trip m : parse_transfer (proto_serialize (TransferMessage m)) = Some m;
  mint_round_trip m : parse_mint (proto_serialize (MintMessage m)) = Some m;
  escrow_round_trip m : parse_escrow (proto_serialize (EscrowMessage m)) = Some m;
  release_round_trip m : parse_release (proto_serialize (EscrowReleaseMessage m)) = Some m
}.

Section lib.
Context {txlib : TxLib}.

Definition SerializeByteVector (tx : Transaction) : bytes := proto_serialize (tx_struct tx).

Definition FillHash (tx : Transaction) : Transaction :=
  let signature := signature (dag_st tx) in
  let tx := with_dag tx (set_hash (set_signature (dag_st tx) []) []) in
  let hash := blake2b_256 (SerializeByteVector tx) in
  with_dag tx (set_signature (set_hash (dag_st tx) (Blob.toReadableString hash)) signature).

Definition MakeSignature (tx : Transaction) : Transaction :=
  let dag := set_signature (dag_st tx) [] in
  with_dag tx (set_signature dag (eth_sign dag)).

(** The static functions [New]. *)
Definition New (tx : Transaction) : Transaction :=
  MakeSignature (FillHash (with_dag tx (set_type (dag_st tx) (GetType tx)))).

(** *** From messages *)

(** [value()] of a hash that cannot be read throws. *)
Definition read_input (i : TransferUTXOInput) : outcome InputUTXOInfo :=
  match Blob.fromReadableString 32 (tx_id_hash i) with
  | Ok h => Ok {| in_txid_hash_ := h; in_output_idx_ := output_index i; in_signature_ := input_signature i |}
  | Err _ => Err undefined_behaviour
  end.

Fixpoint read_inputs (l : list TransferUTXOInput) : outcome (list InputUTXOInfo) :=
  match l with
  | [] => Ok []
  | i :: l => i ← read_input i; l ← read_inputs l; Ok (i :: l)
  end.

Definition read_output (o : TransferOutput) : OutputDestInfo :=
  {| encrypted_amount := out_amount o; dest_address := dest_addr o;
     token_id := TokenID.FromBytes (out_token o) |}.

Definition deserialize_transfer (data : bytes) : outcome (option Transaction) :=
  let m := default empty_transfer (parse_transfer data) in
  inputs ← read_inputs (proto_inputs (transfer_params m));
  Ok (Some (TransferTransaction (set_type (transfer_dag m) (str "transfer")) inputs
              (read_output <$> proto_outputs (transfer_params m)))).

(** The constructor sets the hash of the data again. *)
Definition deserialize_processing (data : bytes) : outcome (option Transaction) :=
  let m := default empty_processing (parse_processing data) in
  let tx := ProcessingTransaction (set_type (process_dag m) (str "process")) (job_cid m) (subtask_cids m)
              (node_addresses m) in
  Ok (Some (with_dag tx (set_hash (dag_st tx) (Blob.toReadableString (blake2b_256 (SerializeByteVector tx)))))).

Definition deserialize_mint (data : bytes) : outcome (option Transaction) :=
  match parse_mint data with
  | None => Ok None
  | Some m => Ok (Some (MintTransaction (set_type (mint_dag m) (str "mint")) (mint_amount m) (chain_id m)
                          (TokenID.FromBytes (mint_token m))))
  end.

Definition deserialize_escrow (data : bytes) : outcome (option Transaction) :=
  match parse_escrow data with
  | None => Ok None
  | Some m =>
      inputs ← read_inputs (proto_inputs (escrow_params m));
      Ok (Some (EscrowTransaction (set_type (escrow_dag m) (str "escrow-hold"))
                  {| UTXOTxParameters.inputs_ := inputs;
                     UTXOTxParameters.outputs_ := read_output <$> proto_outputs (escrow_params m) |}
                  (escrow_amount m) (dev_addr m) (peers_cut m)))
  end.

(** Here a hash that cannot be read gives no transaction. *)
Fixpoint read_release_inputs (l : list TransferUTXOInput) : outcome (option (list InputUTXOInfo)) :=
  match l with
  | [] => Ok (Some [])
  | i :: l =>
      match Blob.fromReadableString 32 (tx_id_hash i) with
      | Err undefined_behaviour => Err undefined_behaviour
      | Err _ => Ok None
      | Ok h =>
          r ← read_release_inputs l;
          Ok (option_map (cons {| in_txid_hash_ := h; in_output_idx_ := output_index i;
                                  in_signature_ := input_signature i |}) r)
      end
  end.

Definition deserialize_release (data : bytes) : outcome (option Transaction) :=
  match parse_release data with
  | None => Ok None
  | Some m =>
      r ← read_release_inputs (proto_inputs (release_params m));
      Ok (option_map (fun inputs =>
             EscrowReleaseTransaction (set_type (release_dag m) (str "escrow-release"))
               {| UTXOTxParameters.inputs_ := inputs;
                  UTXOTxParameters.outputs_ := read_output <$> proto_outputs (release_params m) |}
               (release_amount m) (release_address m) (escrow_source m) (original_escrow_hash m)) r)
  end.

(** [None] is the null pointer some of the functions return. *)
Definition DeSerializeDAGStruct (data : bytes) : outcome DAGStruct := ok_or error_code_zero (proto_dag data).

Definition DeSerializeTransaction (tx_data : bytes) : outcome (option Transaction) :=
  dag ← DeSerializeDAGStruct tx_data;
  if decide (dag_type dag = str "transfer") then deserialize_transfer tx_data
  else if decide (dag_type dag = str "process") then deserialize_processing tx_data
  else if decide (dag_type dag = str "mint") then deserialize_mint tx_data
  else if decide (dag_type dag = str "escrow-hold") then deserialize_escrow tx_data
  else if decide (dag_type dag = str "escrow-release") then deserialize_release tx_data
  else Err errc_invalid_argument.
End lib.

(** ** Correctness *)

Lemma stoul16_byte c : stoul16 [hex_digit (uchar c / 16); hex_digit (uchar c mod 16)] = Some (uchar c).
Proof. by destruct c as [[] [] [] [] [] [] [] []]. Qed.

Lemma read_loop_readable b : Blob.read_loop (Blob.toReadableString b) = Ok b.
Proof.
  induction b as [|c b IH]; [done|]. unfold Blob.toReadableString in *. rewrite fmap_cons.
  cbn [concat app Blob.read_loop]. rewrite stoul16_byte, IH. simpl.
  pose proof (uchar_range c). rewrite Z.mod_small by lia.
  do 2 f_equal. unfold uchar. rewrite N2Z.id. apply ascii_N_embedding.
Qed.

Lemma length_readable b : length (Blob.toReadableString b) = (2 * length b)%nat.
Proof.
  induction b as [|c b IH]; [done|]. unfold Blob.toReadableString in *. rewrite fmap_cons.
  cbn [concat app length]. rewrite IH. lia.
Qed.

Lemma fromReadable_toReadable b n :
  length b = n -> Blob.fromReadableString n (Blob.toReadableString b) = Ok b.
Proof.
  intros Hb. unfold Blob.fromReadableString. rewrite decide_True; [apply read_loop_readable|].
  rewrite length_readable, Nat.mul_comm, Nat.div_mul; lia.
Qed.

(** Token identifiers the class can hold: 32 bytes, all zero when invalid. *)
Definition wf_token (t : TokenID.t) : Prop :=
  if TokenID.valid_ t then length (TokenID.data_ t) = 32%nat else t = TokenID.invalid.
Definition wf_input (i : InputUTXOInfo) : Prop := length (in_txid_hash_ i) = 32%nat.
Definition wf_output (o : OutputDestInfo) : Prop := wf_token (token_id o).
Definition wf_params (p : UTXOTxParameters.t) : Prop :=
  Forall wf_input (UTXOTxParameters.inputs_ p) /\ Forall wf_output (UTXOTxParameters.outputs_ p).

Definition wf_tx (tx : Transaction) : Prop :=
  match tx with
  | TransferTransaction _ i o => Forall wf_input i /\ Forall wf_output o
  | ProcessingTransaction _ _ _ _ => False
  | MintTransaction _ _ _ t => wf_token t
  | EscrowTransaction _ p _ _ _ | EscrowReleaseTransaction _ p _ _ _ _ => wf_params p
  end.

Lemma token_round_trip t : wf_token t -> TokenID.FromBytes (token_bytes t) = t.
Proof.
  destruct t as [d []]; unfold wf_token, token_bytes; simpl.
  - intros Hd. rewrite take_ge by lia. unfold TokenID.FromBytes.
    rewrite decide_False, decide_True, Hd by lia. done.
  - intros ->. reflexivity.
Qed.

Lemma outputs_round_trip l : Forall wf_output l -> read_output <$> (output_proto <$> l) = l.
Proof.
  induction 1 as [|o l Ho Hl IH]; [done|]. rewrite !fmap_cons, IH. f_equal.
  destruct o as [a d t]. unfold read_output, output_proto. simpl. f_equal. by apply token_round_trip.
Qed.

Lemma inputs_round_trip l : Forall wf_input l -> read_inputs (input_proto <$> l) = Ok l.
Proof.
  induction 1 as [|i l Hi Hl IH]; [done|]. rewrite fmap_cons. cbn [read_inputs].
  unfold read_input at 1. simpl. rewrite fromReadable_toReadable by done. simpl. rewrite IH.
  by destruct i.
Qed.

Lemma release_inputs_round_trip l :
  Forall wf_input l -> read_release_inputs (input_proto <$> l) = Ok (Some l).
Proof.
  induction 1 as [|i l Hi Hl IH]; [done|]. rewrite fmap_cons. cbn [read_release_inputs].
  simpl. rewrite fromReadable_toReadable by done. rewrite IH. by destruct i.
Qed.

Section round_trip.
Context {txlib : TxLib} {txspec : TxSpec}.

(** Hash and signature change nothing but the DAG. *)
Lemma New_shape tx : exists dag, New tx = with_dag tx dag /\ dag_type dag = GetType tx.
Proof. destruct tx; eexists; split; reflexivity. Qed.

Lemma set_type_id dag : set_type dag (dag_type dag) = dag.
Proof. by destruct dag. Qed.

(** What is stored for a new transaction is read back as the transaction,
    with its hash and signature, for every kind of transaction the manager
    creates. *)
Theorem transaction_round_trip tx :
  wf_tx tx -> DeSerializeTransaction (SerializeByteVector (New tx)) = Ok (Some (New tx)).
Proof using All.
  intros Hwf. destruct (New_shape tx) as (dag & -> & Hty).
  unfold DeSerializeTransaction, DeSerializeDAGStruct, SerializeByteVector.
  rewrite dag_round_trip. simpl.
  assert (message_dag (tx_struct (with_dag tx dag)) = dag) as -> by (by destruct tx).
  rewrite Hty. pose proof (set_type_id dag) as Hid. rewrite Hty in Hid.
  destruct tx as [? i o|? j s n|? a c t|? p a d c|? p a r s h]; simpl in *.
  - unfold deserialize_transfer. rewrite transfer_round_trip. simpl. destruct Hwf.
    rewrite inputs_round_trip by done. simpl. by rewrite outputs_round_trip, Hid by done.
  - done.
  - unfold deserialize_mint. rewrite mint_round_trip. simpl.
    by rewrite token_round_trip, Hid by done.
  - unfold deserialize_escrow. rewrite escrow_round_trip. simpl. destruct Hwf, p; simpl in *.
    rewrite inputs_round_trip by done. simpl. by rewrite outputs_round_trip, Hid by done.
  - unfold deserialize_release. rewrite release_round_trip. simpl. destruct Hwf, p; simpl in *.
    rewrite release_inputs_round_trip by done. simpl. by rewrite outputs_round_trip, Hid by done.
Qed.
End round_trip.

(** ** A concrete codec *)

Module DemoTx.
Definition dag_tuple (d : DAGStruct) :=
  (dag_type d, previous_hash d, source_addr d, dag_nonce d, timestamp d, uncle_hash d, data_hash d,
   signature d).
Definition tuple_dag (x : bytes * bytes * bytes * Z * Z * bytes * bytes * bytes) : DAGStruct :=
  let '(a, b, c, d, e, f, g, h) := x in Build_DAGStruct a b c d e f g h.

#[export] Instance DAGStruct_eq_dec : EqDecision DAGStruct.
Proof. solve_decision. Defined.
#[export] Instance DAGStruct_countable : Countable DAGStruct.
Proof. apply (inj_countable' dag_tuple tuple_dag). by intros []. Defined.

#[export] Instance UTXOInput_eq_dec : EqDecision TransferUTXOInput.
Proof. solve_decision. Defined.
#[export] Instance UTXOInput_countable : Countable TransferUTXOInput.
Proof.
  apply (inj_countable' (fun i => (tx_id_hash i, output_index i, input_signature i))
    (fun x => Build_TransferUTXOInput x.1.1 x.1.2 x.2)). by intros [].
Defined.

#[export] Instance Output_eq_dec : EqDecision TransferOutput.
Proof. solve_decision. Defined.
#[export] Instance Output_countable : Countable TransferOutput.
Proof.
  apply (inj_countable' (fun o => (out_amount o, dest_addr o, out_token o))
    (fun x => Build_TransferOutput x.1.1 x.1.2 x.2)). by intros [].
Defined.

#[export] Instance Params_eq_dec : EqDecision UTXOTxParams.
Proof. solve_decision. Defined.
#[export] Instance Params_countable : Countable UTXOTxParams.
Proof.
  apply (inj_countable' (fun p => (proto_inputs p, proto_outputs p))
    (fun x => Build_UTXOTxParams x.1 x.2)). by intros [].
Defined.

(** Every message as its DAG, its parameters, its numbers and its texts. *)
Definition fields : Type := DAGStruct * option UTXOTxParams * list Z * list (list bytes).

Definition message_fields (m : Message) : fields :=
  match m with
  | TransferMessage m => (transfer_dag m, Some (transfer_params m), [], [])
  | ProcessingMessage m => (process_dag m, None, [], [[job_cid m]; subtask_cids m; node_addresses m])
  | MintMessage m => (mint_dag m, None, [mint_amount m], [[chain_id m; mint_token m]])
  | EscrowMessage m => (escrow_dag m, Some (escrow_params m), [escrow_amount m; peers_cut m], [[dev_addr m]])
  | EscrowReleaseMessage m =>
      (release_dag m, Some (release_params m), [release_amount m],
       [[release_address m; escrow_source m; original_escrow_hash m]])
  end.

Definition no_dag : DAGStruct := Build_DAGStruct [] [] [] 0 0 [] [] [].
Definition no_params : UTXOTxParams := {| proto_inputs := []; proto_outputs := [] |}.

#[export] Instance demo_tx : TxLib := {|
  proto_serialize m := encode_bytes (message_fields m);
  proto_dag b := x ← decode_bytes (A := fields) b; Some x.1.1.1;
  parse_transfer b :=
    x ← decode_bytes (A := fields) b;
    match x with (d, Some p, [], []) => Some (Build_TransferTx d p) | _ => None end;
  parse_processing b :=
    x ← decode_bytes (A := fields) b;
    match x with (d, None, [], [[j]; s; n]) => Some (Build_ProcessingTx d j s n) | _ => None end;
  parse_mint b :=
    x ← decode_bytes (A := fields) b;
    match x with (d, None, [a], [[c; t]]) => Some (Build_MintTx d c t a) | _ => None end;
  parse_escrow b :=
    x ← decode_bytes (A := fields) b;
    match x with (d, Some p, [a; c], [[v]]) => Some (Build_EscrowTx d p a v c) | _ => None end;
  parse_release b :=
    x ← decode_bytes (A := fields) b;
    match x with
    | (d, Some p, [a], [[r; s; h]]) => Some (Build_EscrowReleaseTx d p a r s h)
    | _ => None
    end;
  empty_transfer := Build_TransferTx no_dag no_params;
  empty_processing := Build_ProcessingTx no_dag [] [] [];
  blake2b_256 b := take 32 (b ++ replicate 32 "000"%char);
  eth_sign d := replicate 64 "s"%char;
  GenerateFullProof balance amount := Ok None
|}.

#[export] Instance demo_tx_spec : TxSpec.
Proof.
  split; intros m; cbn [proto_serialize proto_dag parse_transfer parse_mint parse_escrow parse_release demo_tx];
    rewrite decode_encode_bytes; by destruct m.
Qed.

Definition dag : DAGStruct := Build_DAGStruct [] [] (str "me") 1 0 [] [] [].
Definition mint : Transaction := MintTransaction dag 5 (str "1") gnus.
End DemoTx.
Import DemoTx.

Lemma transaction_round_trip_witness :
  DeSerializeTransaction (SerializeByteVector (New DemoTx.mint)) = Ok (Some (New DemoTx.mint)).
Proof. apply (transaction_round_trip DemoTx.mint). reflexivity. Defined.
