(* ===== verification/GlobalDB.v ===== *)
(** * The global database ([crdt/globaldb/globaldb.cpp])

    The operations other components use: they forward to the CRDT datastore
    once the database is started. *)

From S2P Require Import Prelude Store HierarchicalKey CrdtSet CrdtHeads LruCache DagSyncer.
From S2P Require Import CrdtRefine ORSetFacts CrdtSetProps CrdtDataFilter CrdtDatastore.
From S2P Require Import CrdtDatastoreProps AtomicTransaction.
Import HKey.

(** [std::string::rfind]: the last position of [pat], looking down from [n]. *)
Fixpoint rfind_from (pat s : bytes) (n : nat) : option nat :=
  if starts_with pat (drop n s) then Some n
  else match n with O => None | S n => rfind_from pat s n end.
Definition rfind (pat s : bytes) : option nat := rfind_from pat s (length s).

Module GlobalDB.
Section ops.
Context {DB : Type} `{!RocksDBLib DB}.
Context {boost : BoostLib} {plat : Platform} {regexlib : RegexLib} {codec : DeltaCodec}.
Context {cidlib : CIDLib} {ipld : IPLDLib} {S : Type} {syncer : DAGSyncer S}.
Context {B : Type} {bcaster : Broadcaster B}.

Record t := { m_crdtDatastore : CrdtDatastore.t (DB := DB) (S := S) (B := B); started_ : bool }.
Implicit Types (g : t) (key value : bytes).

Definition with_store g ds : t := {| m_crdtDatastore := ds; started_ := started_ g |}.

(** The threads it starts are steps of the datastore. *)
Definition Start g : t := {| m_crdtDatastore := m_crdtDatastore g; started_ := true |}.

Definition Put key value (topics : gset bytes) g : outcome unit * t :=
  if negb (started_ g) then (Err (globaldb_error GLOBALDB_NOT_STARTED), g) else
  let '(r, ds) := CrdtDatastore.PutKey key value topics (m_crdtDatastore g) in (r, with_store g ds).

Fixpoint put_all (data : list (bytes * bytes)) (batch : AtomicTransaction.t)
    : outcome unit * AtomicTransaction.t :=
  match data with
  | [] => (Ok tt, batch)
  | (key, value) :: data =>
      match AtomicTransaction.Put key value batch with
      | (Err e, batch) => (Err e, batch)
      | (Ok _, batch) => put_all data batch
      end
  end.

Definition PutVector (data_vector : list (bytes * bytes)) (topics : gset bytes) g : outcome unit * t :=
  if negb (started_ g) then (Err (globaldb_error GLOBALDB_NOT_STARTED), g) else
  match put_all data_vector AtomicTransaction.new with
  | (Err e, _) => (Err e, g)
  | (Ok _, batch) =>
      let '(r, _, ds) := AtomicTransaction.Commit topics batch (m_crdtDatastore g) in (r, with_store g ds)
  end.

Definition Get key g : outcome bytes := CrdtDatastore.GetKey key (m_crdtDatastore g).

Definition Remove key (topics : gset bytes) g : outcome unit * t :=
  if negb (started_ g) then (Err (globaldb_error GLOBALDB_NOT_STARTED), g) else
  let '(r, ds) := CrdtDatastore.DeleteKey key topics (m_crdtDatastore g) in (r, with_store g ds).

Definition QueryKeyValues (keyPrefix : bytes) g : outcome (list (bytes * bytes)) :=
  CrdtDatastore.QueryKeyValues keyPrefix (m_crdtDatastore g).

Definition QueryKeyValues3 (prefix_base middle_part remainder_prefix : bytes) g
    : outcome (list (bytes * bytes)) :=
  if negb (started_ g) then Err (globaldb_error GLOBALDB_NOT_STARTED) else
  CrdtDatastore.QueryKeyValues3 prefix_base middle_part remainder_prefix (m_crdtDatastore g).

Definition KeyToString key g : outcome bytes :=
  match CrdtDatastore.GetKeysPrefix (m_crdtDatastore g), CrdtDatastore.GetValueSuffix with
  | Ok keysPrefix, Ok valueSuffix =>
      let prefixPos := if decide (keysPrefix = []) then Some 0 else find_from keysPrefix key 0 in
      if decide (prefixPos = Some 0) then
        let keyPos := length keysPrefix in
        match (if decide (valueSuffix = []) then Some (length key) else rfind valueSuffix key) with
        | None => Err error_code_zero
        | Some suffixPos =>
            if decide (suffixPos < keyPos) then Err error_code_zero
            else Ok (take (suffixPos - keyPos) (drop keyPos key))
        end
      else Err error_code_zero
  | _, _ => Err error_code_zero
  end.

Definition AddTopicName (topicName : bytes) g : t :=
  with_store g (CrdtDatastore.AddTopicName topicName (m_crdtDatastore g)).

Definition BeginTransaction : AtomicTransaction.t := AtomicTransaction.new.
End ops.
End GlobalDB.

(** ** Correctness *)

Lemma starts_with_length p s : starts_with p s = true -> length p <= length s.
Proof. intros [r ->]%starts_with_prefix. rewrite length_app. lia. Qed.

Lemma find_sub_front p s : find_sub p (p ++ s) = Some 0.
Proof. pose proof (starts_with_app p s) as H. destruct (p ++ s); simpl; by rewrite H. Qed.

Lemma starts_with_refl p : starts_with p p = true.
Proof. by apply starts_with_prefix. Qed.

Lemma rfind_suffix pat s : pat <> [] -> rfind pat (s ++ pat) = Some (length s).
Proof.
  intros Hne. unfold rfind. rewrite length_app.
  assert (length pat <= length pat) as Hj by done. revert Hj. generalize (length pat) at 1 3 as j.
  induction j as [|j IH]; intros Hj.
  - rewrite Nat.add_0_r. destruct (length s) as [|n] eqn:E; simpl.
    + apply nil_length_inv in E as ->. by rewrite drop_0, starts_with_refl.
    + by rewrite <-E, drop_app_length, starts_with_refl.
  - rewrite Nat.add_succ_r. simpl.
    destruct (starts_with pat (drop (S (length s + j)) (s ++ pat))) eqn:E; [|apply IH; lia].
    apply starts_with_length in E. rewrite length_drop, length_app in E. lia.
Qed.

Section keys.
Context {DB : Type} `{!RocksDBLib DB}.
Context {boost : BoostLib} {boostspec : BoostSpec} {plat : Platform} {regexlib : RegexLib}.
Context {codec : DeltaCodec}.
Context {cidlib : CIDLib} {ipld : IPLDLib} {S : Type} {syncer : DAGSyncer S}.
Context {B : Type} {bcaster : Broadcaster B}.

(** The name of a listed entry: for the entry under which the value of a
    key is stored, [KeyToString] returns the key without its first slash, and
    the key object made of that text is the key again. *)
Theorem KeyToString_value name (g : GlobalDB.t (DB := DB) (S := S) (B := B)) :
  let s := CrdtDatastore.set_ (GlobalDB.m_crdtDatastore g) in
  wf_key (CrdtSet.namespaceKey_ s) -> wf_key (slash :: name) -> head name <> Some slash ->
  GlobalDB.KeyToString (CrdtSet.ValueKey s (slash :: name)) g = Ok name /\
  HierarchicalKey name = slash :: name.
Proof using All.
  intros s Hns Hk Hhead. split.
  - rewrite (value_key_eq s Hns) by done. unfold GlobalDB.KeyToString.
    cbn [CrdtDatastore.GetKeysPrefix CrdtDatastore.GetValueSuffix]. fold s.
    assert (CrdtSet.KeysKey s [] = CrdtSet.namespaceKey_ s ++ str "/k") as ->.
    { unfold CrdtSet.KeysKey, ChildString. simpl. rewrite app_nil_r.
      change CrdtSet.keysNamespace_ with ["k"%char]. rewrite (KeyPrefix_ns s Hns) by done.
      by apply HierarchicalKey_wf, (wf_key_ns s Hns). }
    unfold value_key.
    replace (CrdtSet.namespaceKey_ s ++ str "/k" ++ (slash :: name) ++ str "/v")
      with (((CrdtSet.namespaceKey_ s ++ str "/k") ++ [slash]) ++ name ++ str "/v")
      by (by rewrite <-!app_assoc).
    set (pre := (CrdtSet.namespaceKey_ s ++ str "/k") ++ [slash]).
    assert (pre <> []) as Hpre by (unfold pre; by destruct (CrdtSet.namespaceKey_ s)).
    rewrite (decide_False (P := pre = [])) by done. unfold find_from.
    rewrite (decide_False (P := length _ < 0)) by lia. rewrite drop_0, find_sub_front.
    cbn [fmap option_fmap option_map Nat.add]. rewrite decide_True by done.
    change (slash :: CrdtSet.valueSuffix_) with (str "/v").
    rewrite (decide_False (P := str "/v" = [])) by done.
    rewrite app_assoc, rfind_suffix by done. rewrite length_app.
    rewrite (decide_False (P := _ + _ < _)) by lia.
    rewrite <-app_assoc, drop_app_length. f_equal.
    replace (length pre + length name - length pre) with (length name) by lia. apply take_app_length.
  - destruct Hk as [_ Hlast]. unfold HierarchicalKey. destruct name as [|c name]; [by destruct Hlast|].
    rewrite (decide_False (P := c = slash)) by (intros ->; by apply Hhead).
    apply decide_False. intros [_ Hl]. by apply Hlast.
Qed.
End keys.

Section examples.
Import DemoDag.

Lemma KeyToString_value_witness :
  let g := {| GlobalDB.m_crdtDatastore := datastore; GlobalDB.started_ := true |} in
  GlobalDB.KeyToString (CrdtSet.ValueKey (CrdtDatastore.set_ datastore) (str "/bc-963/me/tx")) g
  = Ok (str "bc-963/me/tx") /\
  HierarchicalKey (str "bc-963/me/tx") = str "/bc-963/me/tx".
Proof.
  intros g. apply (KeyToString_value (str "bc-963/me/tx") g).
  - by apply (bool_decide_unpack _).
  - by apply (bool_decide_unpack _).
  - discriminate.
Defined.
End examples.
