(* ===== verification/TransactionManager.v ===== *)
(** * The transaction manager ([account/TransactionManager.cpp])

    Creates transactions, sends them through the database, and applies the
    transactions it finds there to the account. *)

From S2P Require Import Prelude Store HierarchicalKey CrdtSet CrdtHeads LruCache DagSyncer.
From S2P Require Import CrdtDataFilter CrdtDatastore AtomicTransaction GlobalDB.
From S2P Require Import ScaledInteger Utxo Transactions Validation.
Import HKey.

Module TransactionManager.

(** [boost::format] of [/bc-%hu/] with the identifier of the test network. *)
Definition TEST_NET_ID : Z := 963.
Definition GetBlockChainBase : bytes := str "/bc-" ++ to_string TEST_NET_ID ++ [slash].
Definition GetTransactionPath (tx : Transaction) : bytes := GetBlockChainBase ++ GetTransactionFullPath tx.
Definition GetTransactionProofPath (tx : Transaction) : bytes := GetBlockChainBase ++ GetProofFullPath tx.
Definition GetTransactionBasePath (address : bytes) : bytes := GetBlockChainBase ++ address.

Section manager.
Context {DB : Type} `{!RocksDBLib DB}.
Context {boost : BoostLib} {plat : Platform} {regexlib : RegexLib} {codec : DeltaCodec}.
Context {cidlib : CIDLib} {ipld : IPLDLib} {S : Type} {syncer : DAGSyncer S}.
Context {B : Type} {bcaster : Broadcaster B} {txlib : TxLib}.

Abbreviation TransactionPair := (Transaction * option bytes)%type.
Abbreviation TransactionItem := (list TransactionPair * option AtomicTransaction.t)%type.

Record t := {
  globaldb_m : GlobalDB.t (DB := DB) (S := S) (B := B); account_m : GeniusAccount.t;
  full_node_m : bool; full_node_topic_m : bytes; tx_queue_m : list TransactionItem;
  outgoing_tx_processed_m : gmap bytes Transaction; incoming_tx_processed_m : gmap bytes Transaction
}.
Implicit Types (m : t) (tx : Transaction).

Definition with_account m a : t :=
  {| globaldb_m := globaldb_m m; account_m := a; full_node_m := full_node_m m;
     full_node_topic_m := full_node_topic_m m; tx_queue_m := tx_queue_m m;
     outgoing_tx_processed_m := outgoing_tx_processed_m m;
     incoming_tx_processed_m := incoming_tx_processed_m m |}.
Definition with_db m g : t :=
  {| globaldb_m := g; account_m := account_m m; full_node_m := full_node_m m;
     full_node_topic_m := full_node_topic_m m; tx_queue_m := tx_queue_m m;
     outgoing_tx_processed_m := outgoing_tx_processed_m m;
     incoming_tx_processed_m := incoming_tx_processed_m m |}.
Definition with_queue m q : t :=
  {| globaldb_m := globaldb_m m; account_m := account_m m; full_node_m := full_node_m m;
     full_node_topic_m := full_node_topic_m m; tx_queue_m := q;
     outgoing_tx_processed_m := outgoing_tx_processed_m m;
     incoming_tx_processed_m := incoming_tx_processed_m m |}.
Definition with_outgoing m o : t :=
  {| globaldb_m := globaldb_m m; account_m := account_m m; full_node_m := full_node_m m;
     full_node_topic_m := full_node_topic_m m; tx_queue_m := tx_queue_m m;
     outgoing_tx_processed_m := o; incoming_tx_processed_m := incoming_tx_processed_m m |}.
Definition with_incoming m i : t :=
  {| globaldb_m := globaldb_m m; account_m := account_m m; full_node_m := full_node_m m;
     full_node_topic_m := full_node_topic_m m; tx_queue_m := tx_queue_m m;
     outgoing_tx_processed_m := outgoing_tx_processed_m m; incoming_tx_processed_m := i |}.

Definition GetBalance m : Z := GeniusAccount.GetBalance (account_m m).

Definition EnqueueItem (element : TransactionItem) m : t := with_queue m (tx_queue_m m ++ [element]).
Definition EnqueueTransaction (element : TransactionPair) m : t := EnqueueItem ([element], None) m.

(** [now] is the clock, in milliseconds. *)
Definition FillDAGStruct (transaction_hash : bytes) (now : Z) m : DAGStruct * t :=
  let a := GeniusAccount.with_nonce (account_m m) (u64 (GeniusAccount.nonce (account_m m) + 1)) in
  ({| dag_type := []; previous_hash := transaction_hash; source_addr := GeniusAccount.address a;
      dag_nonce := GeniusAccount.nonce a; timestamp := now; uncle_hash := []; data_hash := [];
      signature := [] |}, with_account m a).

Definition lock_inputs (params : UTXOTxParameters.t) m : t :=
  with_account m (GeniusAccount.with_utxos (account_m m)
    (UTXOTxParameters.UpdateUTXOList (GeniusAccount.utxos (account_m m)) params)).

(** ** Creating transactions *)

Definition TransferFunds (amount : Z) (destination : bytes) (token_id : TokenID.t) (now : Z) m
    : outcome bytes * t :=
  match UTXOTxParameters.create (GeniusAccount.utxos (account_m m)) (GeniusAccount.address (account_m m))
          amount destination token_id with
  | Err e => (Err e, m)
  | Ok params =>
      let '(dag, m) := FillDAGStruct [] now m in
      let tx := New (TransferTransaction dag (UTXOTxParameters.inputs_ params)
                       (UTXOTxParameters.outputs_ params)) in
      match GenerateFullProof (GetBalance m) amount with
      | Err e => (Err e, m)
      | Ok maybe_proof =>
          (Ok (data_hash (dag_st tx)), EnqueueTransaction (tx, maybe_proof) (lock_inputs params m))
      end
  end.

Definition MintFunds (amount : Z) (transaction_hash chainid : bytes) (tokenid : TokenID.t) (now : Z) m
    : outcome bytes * t :=
  let '(dag, m) := FillDAGStruct transaction_hash now m in
  let tx := New (MintTransaction dag amount chainid tokenid) in
  match GenerateFullProof 1000000000000 amount with
  | Err e => (Err e, m)
  | Ok maybe_proof => (Ok (data_hash (dag_st tx)), EnqueueTransaction (tx, maybe_proof) m)
  end.

Definition HoldEscrow (amount : Z) (dev_addr : bytes) (peers_cut : Z) (job_id : bytes) (now : Z) m
    : outcome (bytes * (bytes * bytes)) * t :=
  let escrow_address := str "0x" ++ Blob.toReadableString (blake2b_256 job_id) in
  match UTXOTxParameters.create (GeniusAccount.utxos (account_m m)) (GeniusAccount.address (account_m m))
          amount escrow_address (TokenID.FromBytes [TokenID.zero_byte]) with
  | Err e => (Err e, m)
  | Ok params =>
      let m := lock_inputs params m in
      let '(dag, m) := FillDAGStruct [] now m in
      let tx := New (EscrowTransaction dag params amount dev_addr peers_cut) in
      match GenerateFullProof (GetBalance m) amount with
      | Err e => (Err e, m)
      | Ok maybe_proof =>
          (Ok (data_hash (dag_st tx), (escrow_address, SerializeByteVector tx)),
           EnqueueTransaction (tx, maybe_proof) m)
      end
  end.

Definition FetchTransaction (g : GlobalDB.t (DB := DB) (S := S) (B := B)) (transaction_key : bytes)
    : outcome (option Transaction) :=
  transaction_data ← GlobalDB.Get (HierarchicalKey transaction_key) g;
  DeSerializeTransaction transaction_data.

(** The shares of a payout: one per result, and what is left for the
    developer. *)
Fixpoint payout_loop (results : list SubTaskResult) (peers_amount remainder : Z)
    : list OutputDestInfo * Z :=
  match results with
  | [] => ([], remainder)
  | r :: results =>
      let '(l, remainder) := payout_loop results peers_amount (u64 (remainder - peers_amount)) in
      ({| encrypted_amount := peers_amount; dest_address := node_address r;
          token_id := TokenID.FromBytes (result_token_id r) |} :: l, remainder)
  end.

(** The outputs [PayEscrow] makes of an escrow. *)
Definition payout (amount cut : Z) (dev : bytes) (token : TokenID.t) (results : list SubTaskResult)
    : outcome (list OutputDestInfo) :=
  escrow_amount_ptr ← TokenAmount.New amount;
  peers_cut_ptr ← TokenAmount.New cut;
  peer_total ← TokenAmount.Multiply escrow_amount_ptr peers_cut_ptr;
  let peers_amount := (TokenAmount.minions_ peer_total / Z.of_nat (length results))%Z in
  let '(payout_peers, remainder) := payout_loop results peers_amount amount in
  Ok (payout_peers ++ [{| encrypted_amount := remainder; dest_address := dev; token_id := token |}]).

Definition PayEscrow (escrow_path : bytes) (results : list SubTaskResult)
    (crdt_transaction : option AtomicTransaction.t) (now now' : Z) m : outcome bytes * t :=
  if decide (results = []) then (Err error_code_zero, m)
  else if decide (escrow_path = []) then (Err error_code_zero, m) else
  match FetchTransaction (globaldb_m m) escrow_path with
  | Err e => (Err e, m)
  | Ok (Some (EscrowTransaction escrow_dag params amount dev_addr peers_cut as escrow_tx)) =>
      match head (UTXOTxParameters.outputs_ params) with
      | None => (Err undefined_behaviour, m)
      | Some first =>
          match payout amount peers_cut dev_addr (token_id first) results with
          | Err e => (Err e, m)
          | Ok payout_peers =>
              match Blob.fromReadableString 32 (data_hash escrow_dag) with
              | Err _ => (Err undefined_behaviour, m)
              | Ok hash =>
                  let escrow_utxo_input :=
                    {| in_txid_hash_ := hash; in_output_idx_ := 0; in_signature_ := [] |} in
                  let '(dag, m) := FillDAGStruct [] now m in
                  let transfer := New (TransferTransaction dag [escrow_utxo_input] payout_peers) in
                  match GenerateFullProof 1 1 with
                  | Err e => (Err e, m)
                  | Ok transfer_proof =>
                      let '(dag, m) := FillDAGStruct [] now' m in
                      let release := New (EscrowReleaseTransaction dag params amount dev_addr
                                            (source_addr escrow_dag) (data_hash escrow_dag)) in
                      match GenerateFullProof 1 1 with
                      | Err e => (Err e, m)
                      | Ok release_proof =>
                          (Ok (data_hash (dag_st transfer)),
                           EnqueueItem ([(transfer, transfer_proof); (release, release_proof)],
                                        crdt_transaction) m)
                      end
                  end
              end
          end
      end
  | Ok _ => (Err undefined_behaviour, m)
  end.

(** ** Applying transactions to the account *)

Definition initial_topics m : gset bytes := {[full_node_topic_m m; GeniusAccount.address (account_m m)]}.

(** The outputs of a transfer, from index [i] on. *)
Fixpoint parse_outputs (hash_text : bytes) (notify : bool) (i : Z) (l : list OutputDestInfo)
    (a : GeniusAccount.t) (topics : gset bytes) : outcome (gset bytes) * GeniusAccount.t :=
  match l with
  | [] => (Ok topics, a)
  | o :: l =>
      let topics' := if notify then {[dest_address o]} ∪ topics else topics in
      if decide (dest_address o = GeniusAccount.address a) then
        match Blob.fromReadableString 32 hash_text with
        | Err _ => (Err undefined_behaviour, a)
        | Ok hash =>
            let a := (GeniusAccount.PutUTXO (new_utxo hash i (encrypted_amount o) (token_id o)) a).2 in
            parse_outputs hash_text notify (i + 1) l a topics'
        end
      else parse_outputs hash_text notify (i + 1) l a topics'
  end.

Definition ParseTransferTransaction tx (inputs : list InputUTXOInfo) (dest_infos : list OutputDestInfo) m
    : outcome (gset bytes) * t :=
  let notify := bool_decide (GetSrcAddress tx = GeniusAccount.address (account_m m)) || full_node_m m in
  match parse_outputs (data_hash (dag_st tx)) notify 0 dest_infos (account_m m) (initial_topics m) with
  | (Err e, a) => (Err e, with_account m a)
  | (Ok topics, a) =>
      let topics := if full_node_m m then {[GetSrcAddress tx]} ∪ topics else topics in
      (Ok topics, with_account m (GeniusAccount.RefreshUTXOs inputs a).2)
  end.

Definition ParseMintTransaction tx (amount : Z) (token : TokenID.t) m : outcome (gset bytes) * t :=
  let topics := if full_node_m m then {[GetSrcAddress tx]} ∪ initial_topics m else initial_topics m in
  if decide (GetSrcAddress tx = GeniusAccount.address (account_m m)) then
    match Blob.fromReadableString 32 (data_hash (dag_st tx)) with
    | Err _ => (Err undefined_behaviour, m)
    | Ok hash =>
        (Ok topics, with_account m (GeniusAccount.PutUTXO (new_utxo hash 0 amount token) (account_m m)).2)
    end
  else (Ok topics, m).

(** The first output is the escrow, the second the change. *)
Definition ParseEscrowTransaction tx (params : UTXOTxParameters.t) m : outcome (gset bytes) * t :=
  let topics := if full_node_m m then {[GetSrcAddress tx]} ∪ initial_topics m else initial_topics m in
  if decide (GetSrcAddress tx = GeniusAccount.address (account_m m)) then
    match UTXOTxParameters.outputs_ params with
    | [] => (Ok topics, m)
    | _ :: rest =>
        match Blob.fromReadableString 32 (data_hash (dag_st tx)) with
        | Err _ => (Err undefined_behaviour, m)
        | Ok hash =>
            let a := match rest with
                     | change :: _ =>
                         if decide (dest_address change = GeniusAccount.address (account_m m)) then
                           (GeniusAccount.PutUTXO (new_utxo hash 1 (encrypted_amount change) (token_id change))
                              (account_m m)).2
                         else account_m m
                     | [] => account_m m
                     end in
            (Ok topics, with_account m (GeniusAccount.RefreshUTXOs (UTXOTxParameters.inputs_ params) a).2)
        end
    end
  else (Ok topics, m).

Definition ParseEscrowReleaseTransaction tx (source : bytes) m : outcome (gset bytes) * t :=
  let topics := initial_topics m in
  let topics := if bool_decide (GetSrcAddress tx = GeniusAccount.address (account_m m)) || full_node_m m
                then {[source]} ∪ topics else topics in
  (Ok (if full_node_m m then {[GetSrcAddress tx]} ∪ topics else topics), m).

Definition ParseTransaction tx m : outcome (gset bytes) * t :=
  match tx with
  | TransferTransaction _ inputs outputs => ParseTransferTransaction tx inputs outputs m
  | MintTransaction _ amount _ token => ParseMintTransaction tx amount token m
  | EscrowTransaction _ params _ _ _ => ParseEscrowTransaction tx params m
  | EscrowReleaseTransaction _ _ _ _ source _ => ParseEscrowReleaseTransaction tx source m
  | ProcessingTransaction _ _ _ _ => (Err errc_invalid_argument, m)
  end.

(** ** Sending *)

Fixpoint put_transactions (l : list TransactionPair) (x : AtomicTransaction.t)
    : outcome unit * AtomicTransaction.t :=
  match l with
  | [] => (Ok tt, x)
  | (tx, maybe_proof) :: l =>
      match AtomicTransaction.Put (HierarchicalKey (GetTransactionPath tx)) (SerializeByteVector tx) x with
      | (Err e, x) => (Err e, x)
      | (Ok _, x) =>
          match maybe_proof with
          | None => put_transactions l x
          | Some proof =>
              match AtomicTransaction.Put (HierarchicalKey (GetTransactionProofPath tx)) proof x with
              | (Err e, x) => (Err e, x)
              | (Ok _, x) => put_transactions l x
              end
          end
      end
  end.

Fixpoint parse_batch (l : list TransactionPair) (topicSet : gset bytes) m : outcome (gset bytes) * t :=
  match l with
  | [] => (Ok topicSet, m)
  | (tx, _) :: l =>
      match ParseTransaction tx m with
      | (Err e, m) => (Err e, m)
      | (Ok parsedTopics, m) =>
          let m := with_outgoing m (<[GetTransactionPath tx := tx]> (outgoing_tx_processed_m m)) in
          parse_batch l (parsedTopics ∪ topicSet) m
      end
  end.

Definition SendTransaction m : outcome unit * t :=
  match tx_queue_m m with
  | [] => (Ok tt, m)
  | (transaction_batch, maybe_crdt_transaction) :: queue =>
      let m := with_queue m queue in
      let crdt_transaction := default GlobalDB.BeginTransaction maybe_crdt_transaction in
      match put_transactions transaction_batch crdt_transaction with
      | (Err e, _) => (Err e, m)
      | (Ok _, crdt_transaction) =>
          match parse_batch transaction_batch ∅ m with
          | (Err e, m) => (Err e, m)
          | (Ok topicSet, m) =>
              let '(r, _, ds) := AtomicTransaction.Commit topicSet crdt_transaction
                                   (GlobalDB.m_crdtDatastore (globaldb_m m)) in
              (r, with_db m (GlobalDB.with_store (globaldb_m m) ds))
          end
      end
  end.

(** ** Finding transactions in the database *)

(** One listed entry; the map of processed transactions is the incoming or the
    outgoing one.  An exception leaves the loop. *)
Definition check_entry (outgoing : bool) (transaction_key : bytes) m : outcome unit * t :=
  let processed := if outgoing then outgoing_tx_processed_m m else incoming_tx_processed_m m in
  if decide (is_Some (processed !! transaction_key)) then (Ok tt, m) else
  match FetchTransaction (globaldb_m m) transaction_key with
  | Err undefined_behaviour => (Err undefined_behaviour, m)
  | Err _ => (Ok tt, m)
  | Ok None => (Err undefined_behaviour, m)
  | Ok (Some tx) =>
      match ParseTransaction tx m with
      | (Err undefined_behaviour, m) => (Err undefined_behaviour, m)
      | (Err _, m) => (Ok tt, m)
      | (Ok _, m) =>
          let processed := if outgoing then outgoing_tx_processed_m m else incoming_tx_processed_m m in
          if outgoing then
            let m := with_account m (GeniusAccount.with_nonce (account_m m)
                       (Z.max (GeniusAccount.nonce (account_m m)) (dag_nonce (dag_st tx)))) in
            (Ok tt, with_outgoing m (<[transaction_key := tx]> processed))
          else (Ok tt, with_incoming m (<[transaction_key := tx]> processed))
      end
  end.

Fixpoint check_entries (outgoing : bool) (l : list (bytes * bytes)) m : outcome unit * t :=
  match l with
  | [] => (Ok tt, m)
  | element :: l =>
      match GlobalDB.KeyToString element.1 (globaldb_m m) with
      | Err _ => check_entries outgoing l m
      | Ok transaction_key =>
          match check_entry outgoing transaction_key m with
          | (Err e, m) => (Err e, m)
          | (Ok _, m) => check_entries outgoing l m
          end
      end
  end.

Definition CheckIncoming m : outcome unit * t :=
  match GlobalDB.QueryKeyValues3 GetBlockChainBase ("!"%char :: GeniusAccount.address (account_m m))
          (str "/tx") (globaldb_m m) with
  | Err e => (Err e, m)
  | Ok transaction_list => check_entries false transaction_list m
  end.

Definition CheckOutgoing m : outcome unit * t :=
  match GlobalDB.QueryKeyValues3 GetBlockChainBase (GeniusAccount.address (account_m m)) (str "/tx")
          (globaldb_m m) with
  | Err e => (Err e, m)
  | Ok transaction_list => check_entries true transaction_list m
  end.

(** The periodic task; results are only logged. *)
Definition Update m : t :=
  let m := (SendTransaction m).2 in
  let m := (CheckOutgoing m).2 in
  (CheckIncoming m).2.
End manager.
End TransactionManager.
