(* ===== verification/TransactionManagerProps.v ===== *)
(** * Correctness of the transaction manager

    What a payout pays, which outputs an account holds after transactions were
    applied to it, that two transfers spend different outputs, and what a
    restarted manager makes of the transactions in the database. *)

From S2P Require Import Prelude Store HierarchicalKey CrdtSet CrdtHeads LruCache DagSyncer.
From S2P Require Import CrdtDataFilter CrdtDatastore AtomicTransaction GlobalDB CrdtDatastoreProps.
From S2P Require Import ScaledInteger Utxo Transactions Validation TransactionManager.
Import TransactionManager.

(** ** Payouts *)

Section payouts.
Local Open Scope Z_scope.

Lemma payout_loop_spec results p r l r' :
  0 <= p -> is_u64 r -> payout_loop results p r = (l, r') ->
  length l = length results /\ Forall (fun o => encrypted_amount o = p) l /\
  paid l = p * Z.of_nat (length results) /\ r' = u64 (r - p * Z.of_nat (length results)).
Proof.
  intros Hp. revert r l r'. induction results as [|x results IH]; intros r l r' Hr; simpl.
  - intros [= <- <-]. split; [done|]. split; [by constructor|]. split; [simpl; lia|].
    by rewrite Z.mul_0_r, Z.sub_0_r, u64_id.
  - destruct (payout_loop results p (u64 (r - p))) as [l1 r1] eqn:E. intros [= <- <-].
    destruct (IH (u64 (r - p)) l1 r1 (u64_range _) E) as (Hl & Hf & Hpaid & ->).
    split; [simpl; lia|]. split; [by constructor|]. split; [simpl; rewrite Hpaid; lia|].
    unfold u64. rewrite Zminus_mod_idemp_l. f_equal. lia.
Qed.

(** C23. What a payout pays.  Every result is paid the same share of the part of
    the escrow that goes to the peers, the developer receives what is left, and
    for a part of at most 100% the outputs add up to the amount of the escrow;
    a larger part is not refused, and when the shares exceed the escrow the
    developer's output wraps, so that 2^64 more is paid than is there. *)
Theorem payout_conserves amount cut dev token results :
  is_u64 amount -> 0 <= cut -> results <> [] -> amount * cut / 10 ^ 6 <= u64_max ->
  let share := amount * cut / 10 ^ 6 / Z.of_nat (length results) in
  exists l rest, payout amount cut dev token results =
      Ok (l ++ [{| encrypted_amount := rest; dest_address := dev; token_id := token |}]) /\
    length l = length results /\ Forall (fun o => encrypted_amount o = share) l /\
    paid l + rest = amount + (if amount <? share * Z.of_nat (length results) then 2 ^ 64 else 0) /\
    (cut <= 10 ^ 6 -> paid l + rest = amount).
Proof.
  intros Ham Hcut Hne Hfit share. unfold is_u64, u64_max in *.
  set (n := Z.of_nat (length results)) in *.
  assert (0 < n) as Hn by (destruct results; [done|unfold n; simpl; lia]).
  assert (0 <= amount * cut / 10 ^ 6) as H0 by (apply Z.div_pos; nia).
  assert (0 <= share) as Hs by (apply Z.div_pos; lia).
  pose proof (Z.mul_div_le (amount * cut / 10 ^ 6) n Hn) as Hsn.
  unfold payout. simpl. unfold TokenAmount.Multiply, ScaledInteger.Multiply, udiv. simpl.
  change (ScaledInteger.ScaleFactor TokenAmount.PRECISION) with (10 ^ 6). simpl.
  unfold ScaledInteger.fits. destruct (Z.ltb_spec u64_max (amount * cut / 10 ^ 6)); [unfold u64_max in *; lia|].
  simpl. fold n share. destruct (payout_loop results share amount) as [l rest] eqn:E.
  destruct (payout_loop_spec _ _ _ _ _ Hs ltac:(done) E) as (Hlen & Hf & Hpaid & ->). fold n in Hpaid |- *.
  exists l, (u64 (amount - share * n)). split; [done|]. split; [done|]. split; [done|].
  assert (paid l + u64 (amount - share * n) = amount + (if amount <? share * n then 2 ^ 64 else 0)) as Heq.
  { rewrite Hpaid. destruct (Z.ltb_spec amount (share * n)).
    - unfold u64. rewrite <-(Z.mod_unique (amount - share * n) (2 ^ 64) (-1)
        (amount - share * n + 2 ^ 64)); lia.
    - rewrite u64_id by (u64_lia). lia. }
  split; [done|]. intros Hle. rewrite Heq.
  assert (amount * cut / 10 ^ 6 <= amount).
  { apply Z.div_le_upper_bound; nia. }
  destruct (Z.ltb_spec amount (share * n)); lia.
Qed.

(** A tenth for the peers; and 300%, where two units become 2^64 + 2. *)
Lemma payout_conserves_witness :
  let results := [mkResult [] [] [] (str "1") (str "a") [];
                  mkResult [] [] [] (str "2") (str "b") []] in
  (exists l rest, payout 1000 100000 (str "dev") gnus results =
     Ok (l ++ [{| encrypted_amount := rest; dest_address := str "dev"; token_id := gnus |}]) /\
     paid l + rest = 1000) /\
  (exists l rest, payout 2 3000000 (str "dev") gnus results =
     Ok (l ++ [{| encrypted_amount := rest; dest_address := str "dev"; token_id := gnus |}]) /\
     paid l + rest = 2 + 2 ^ 64).
Proof.
  intros results. split.
  - destruct (payout_conserves 1000 100000 (str "dev") gnus results) as (l & rest & H1 & _ & _ & _ & H2);
      [u64_lia|lia|discriminate|vm_compute; discriminate|].
    exists l, rest. split; [exact H1|]. apply H2. lia.
  - destruct (payout_conserves 2 3000000 (str "dev") gnus results) as (l & rest & H1 & _ & _ & H2 & _);
      [u64_lia|lia|discriminate|vm_compute; discriminate|].
    exists l, rest. split; [exact H1|exact H2].
Defined.
End payouts.

(** ** The outputs of an account *)

(** The outputs of a transfer that go to [a], from index [i] on. *)
Fixpoint outputs_to (a : bytes) (hash : Hash256) (i : Z) (l : list OutputDestInfo) : list GeniusUTXO :=
  match l with
  | [] => []
  | o :: l =>
      let rest := outputs_to a hash (i + 1) l in
      if decide (dest_address o = a) then new_utxo hash i (encrypted_amount o) (token_id o) :: rest else rest
  end.

(** What a transaction gives to account [a], and what it takes from it. *)
Definition receives (a : bytes) (tx : Transaction) : list GeniusUTXO :=
  match Blob.fromReadableString 32 (data_hash (dag_st tx)) with
  | Err _ => []
  | Ok hash =>
      match tx with
      | TransferTransaction _ _ outputs => outputs_to a hash 0 outputs
      | MintTransaction _ amount _ token =>
          if decide (GetSrcAddress tx = a) then [new_utxo hash 0 amount token] else []
      | EscrowTransaction _ p _ _ _ =>
          match UTXOTxParameters.outputs_ p with
          | _ :: change :: _ =>
              if decide (GetSrcAddress tx = a /\ dest_address change = a) then
                [new_utxo hash 1 (encrypted_amount change) (token_id change)]
              else []
          | _ => []
          end
      | _ => []
      end
  end.

Definition spends (a : bytes) (tx : Transaction) : list InputUTXOInfo :=
  match tx with
  | TransferTransaction _ inputs _ => inputs
  | EscrowTransaction _ p _ _ _ =>
      if decide (GetSrcAddress tx = a /\ UTXOTxParameters.outputs_ p <> []) then UTXOTxParameters.inputs_ p
      else []
  | _ => []
  end.

Definition received (a : bytes) (tx : Transaction) : list (Hash256 * Z) := outpoint <$> receives a tx.
Definition spent (a : bytes) (tx : Transaction) : list (Hash256 * Z) := in_outpoint <$> spends a tx.

Definition put_all_utxos (l : list GeniusUTXO) (a : GeniusAccount.t) : GeniusAccount.t :=
  fold_left (fun a u => (GeniusAccount.PutUTXO u a).2) l a.

Definition outpoints (a : GeniusAccount.t) : list (Hash256 * Z) := outpoint <$> GeniusAccount.utxos a.

Lemma PutUTXO_outpoints u a o :
  o ∈ outpoints (GeniusAccount.PutUTXO u a).2 <-> o = outpoint u \/ o ∈ outpoints a.
Proof.
  unfold GeniusAccount.PutUTXO, outpoints. case_decide; simpl; [naive_solver|].
  rewrite fmap_app, elem_of_app. simpl. rewrite list_elem_of_singleton. naive_solver.
Qed.

Lemma PutUTXO_address u a : GeniusAccount.address (GeniusAccount.PutUTXO u a).2 = GeniusAccount.address a.
Proof. unfold GeniusAccount.PutUTXO. by case_decide. Qed.

Lemma put_all_outpoints l a o :
  o ∈ outpoints (put_all_utxos l a) <-> o ∈ outpoint <$> l \/ o ∈ outpoints a.
Proof.
  revert a. induction l as [|u l IH]; intros a; simpl.
  - split; [by right|]. by intros [?%not_elem_of_nil|?].
  - unfold put_all_utxos in *. simpl. rewrite IH, PutUTXO_outpoints, elem_of_cons. tauto.
Qed.

Lemma Refresh_outpoints inputs a o :
  o ∈ outpoints (GeniusAccount.RefreshUTXOs inputs a).2 <->
  o ∈ outpoints a /\ o ∉ in_outpoint <$> inputs.
Proof.
  unfold outpoints. simpl. split.
  - intros (u & -> & [Hn Hu]%list_elem_of_filter)%list_elem_of_fmap. split; [|done].
    by apply list_elem_of_fmap_2.
  - intros [(u & -> & Hu)%list_elem_of_fmap Hn]. by apply list_elem_of_fmap_2, list_elem_of_filter.
Qed.

#[local] Arguments GeniusAccount.RefreshUTXOs : simpl never.
#[local] Arguments GeniusAccount.PutUTXO : simpl never.
#[local] Arguments Blob.fromReadableString : simpl never.

Section ledger.
Context {DB : Type} `{!RocksDBLib DB}.
Context {boost : BoostLib} {plat : Platform} {regexlib : RegexLib} {codec : DeltaCodec}.
Context {cidlib : CIDLib} {ipld : IPLDLib} {S : Type} {syncer : DAGSyncer S}.
Context {B : Type} {bcaster : Broadcaster B} {txlib : TxLib}.
Implicit Types (m : t (DB := DB) (S := S) (B := B)) (tx : Transaction).

Abbreviation address m := (GeniusAccount.address (account_m m)).

Lemma parse_outputs_spec hash_text notify i l a topics topics' a' :
  parse_outputs hash_text notify i l a topics = (Ok topics', a') ->
  GeniusAccount.address a' = GeniusAccount.address a /\
  forall o, o ∈ outpoints a' <-> o ∈ outpoints a \/
    o ∈ outpoint <$> match Blob.fromReadableString 32 hash_text with
                     | Ok hash => outputs_to (GeniusAccount.address a) hash i l
                     | Err _ => []
                     end.
Proof.
  revert i a topics. induction l as [|x l IH]; intros i a topics; simpl.
  { intros [= <- <-]. split; [done|]. intros o. destruct (Blob.fromReadableString 32 hash_text); simpl;
      (split; [by left|]; by intros [?|?%not_elem_of_nil]). }
  case_decide as Hd.
  - destruct (Blob.fromReadableString 32 hash_text) as [hash|]; [|done].
    intros [Ha Ho]%IH. rewrite PutUTXO_address in *. split; [done|]. intros o. rewrite Ho, PutUTXO_outpoints.
    simpl. rewrite elem_of_cons. tauto.
  - intros [Ha Ho]%IH. split; [done|]. intros o. rewrite Ho. done.
Qed.

(** One transaction: what it gives is added, then what it takes removed. *)
Lemma ParseTransaction_spec tx m topics m' :
  ParseTransaction tx m = (Ok topics, m') ->
  address m' = address m /\
  forall o, o ∈ outpoints (account_m m') <->
    (o ∈ outpoints (account_m m) \/ o ∈ received (address m) tx) /\ o ∉ spent (address m) tx.
Proof.
  unfold received, spent. destruct tx as [dag i l|? ? ? ?|dag a c tk|dag p a d c|dag p ra rad es h]; simpl; try done.
  - unfold ParseTransferTransaction.
    destruct (parse_outputs _ _ _ _ _ _) as [[tp|] a'] eqn:E; [|done]. intros [= _ <-]. simpl.
    apply parse_outputs_spec in E as [Ha Ho]. split; [done|]. intros o. simpl.
    etrans; [apply (Refresh_outpoints i a')|]. rewrite Ho. unfold receives. simpl.
    by destruct (Blob.fromReadableString 32 (data_hash dag)).
  - unfold ParseMintTransaction, receives. simpl. destruct (decide (GetSrcAddress _ = _)) as [Hs|Hs].
    + destruct (Blob.fromReadableString 32 (data_hash dag)) as [hash|]; [|done]. intros [= _ <-].
      simpl. rewrite PutUTXO_address. split; [done|]. intros o. rewrite PutUTXO_outpoints. simpl.
      rewrite list_elem_of_singleton. set_solver.
    + intros [= _ <-]. split; [done|]. intros o.
      destruct (Blob.fromReadableString 32 (data_hash dag)); set_solver.
  - unfold ParseEscrowTransaction, receives. simpl. destruct (decide (GetSrcAddress _ = _)) as [Hs|Hs].
    2:{ intros [= _ <-]. split; [done|]. intros o. rewrite decide_False by tauto.
        destruct (Blob.fromReadableString 32 (data_hash dag)) as [hash|];
          [destruct (UTXOTxParameters.outputs_ p) as [|? [|ch ?]]; try rewrite decide_False by tauto|];
          set_solver. }
    destruct (UTXOTxParameters.outputs_ p) as [|out rest].
    { intros [= _ <-]. split; [done|]. intros o. rewrite decide_False by tauto.
      destruct (Blob.fromReadableString 32 (data_hash dag)); set_solver. }
    destruct (Blob.fromReadableString 32 (data_hash dag)) as [hash|]; [|done]. intros [= _ <-].
    rewrite (decide_True (P := _ /\ _ :: _ <> [])) by done. simpl.
    destruct rest as [|ch rest]; simpl.
    { split; [done|]. intros o. etrans; [apply Refresh_outpoints|]. set_solver. }
    destruct (decide (dest_address ch = _)) as [Hd|Hd].
    + rewrite PutUTXO_address, decide_True by done. split; [done|]. intros o.
      etrans; [apply Refresh_outpoints|]. rewrite PutUTXO_outpoints. simpl. rewrite list_elem_of_singleton. tauto.
    + rewrite decide_False by tauto. split; [done|]. intros o.
      etrans; [apply Refresh_outpoints|]. set_solver.
  - unfold ParseEscrowReleaseTransaction, receives. simpl. intros [= _ <-]. split; [done|]. intros o.
    destruct (Blob.fromReadableString 32 (data_hash dag)); set_solver.
Qed.

(** The transactions of a list, applied in its order. *)
Fixpoint parse_list (l : list Transaction) m : outcome unit * t :=
  match l with
  | [] => (Ok tt, m)
  | tx :: l => match ParseTransaction tx m with
               | (Err e, m) => (Err e, m)
               | (Ok _, m) => parse_list l m
               end
  end.

Lemma parse_list_spec l m m' :
  parse_list l m = (Ok tt, m') ->
  address m' = address m /\
  forall o, o ∈ outpoints (account_m m') <->
    (o ∈ outpoints (account_m m) /\ Forall (fun tx => o ∉ spent (address m) tx) l) \/
    exists l1 tx l2, l = l1 ++ tx :: l2 /\ o ∈ received (address m) tx /\
      Forall (fun tx => o ∉ spent (address m) tx) (tx :: l2).
Proof.
  revert m. induction l as [|tx l IH]; intros m; simpl.
  { intros [= <-]. split; [done|]. intros o. split; [left; split; [done|constructor]|].
    intros [[? _]|(l1 & ? & ? & ? & _)]; [done|by destruct l1]. }
  destruct (ParseTransaction tx m) as [[topics|] m1] eqn:E; [|done].
  apply ParseTransaction_spec in E as [Ha Ho]. intros [Ha' Ho']%IH. rewrite Ha in *.
  split; [done|]. intros o. rewrite Ho', Ho, Forall_cons. split.
  - intros [[[[?|?] ?] ?]|(l1 & tx' & l2 & -> & Hr & Hs)]; [by left| |].
    + right. exists [], tx, l. split; [done|]. split; [done|]. by constructor.
    + right. by exists (tx :: l1), tx', l2.
  - intros [[? [? ?]]|([|tx0 l1] & tx' & l2 & [= -> ->] & Hr & Hs)]; [by left; auto| |].
    + apply Forall_cons in Hs as [? ?]. left. auto.
    + right. by exists l1, tx', l2.
Qed.

(** No output is spent by a transaction that comes before the one it is
    received from. *)
Definition causal (a : bytes) (l : list Transaction) : Prop :=
  forall l1 tx l2, l = l1 ++ tx :: l2 ->
    forall o tx', o ∈ received a tx -> tx' ∈ l1 -> o ∉ spent a tx'.

(** C21. The account holds the unspent outputs: after transactions were applied
    to an account without outputs, in an order in which no output is spent
    before it is received, the account holds exactly the outputs that some
    transaction gives it and none takes.  The order does not matter
    otherwise. *)
Theorem account_holds_unspent l m m' :
  outpoints (account_m m) = [] -> causal (address m) l -> parse_list l m = (Ok tt, m') ->
  forall o, o ∈ outpoints (account_m m') <->
    (exists tx, tx ∈ l /\ o ∈ received (address m) tx) /\
    (forall tx, tx ∈ l -> o ∉ spent (address m) tx).
Proof.
  intros Hempty Hcausal [_ Ho]%parse_list_spec o. rewrite Ho, Hempty. split.
  - intros [[?%not_elem_of_nil _]|(l1 & tx & l2 & -> & Hr & Hs)]; [done|]. split.
    + exists tx. split; [|done]. apply elem_of_app. right. by left.
    + intros tx' [Hin|Hin]%elem_of_app; [by eapply Hcausal|]. by eapply Forall_forall in Hs.
  - intros [(tx & Hin & Hr) Hs]. right. apply list_elem_of_split in Hin as (l1 & l2 & ->).
    exists l1, tx, l2. split; [done|]. split; [done|]. apply Forall_forall. intros tx' Hin. apply Hs.
    apply elem_of_app. by right.
Qed.
End ledger.

Section transfers.
Context {DB : Type} `{!RocksDBLib DB}.
Context {boost : BoostLib} {plat : Platform} {regexlib : RegexLib} {codec : DeltaCodec}.
Context {cidlib : CIDLib} {ipld : IPLDLib} {S : Type} {syncer : DAGSyncer S}.
Context {B : Type} {bcaster : Broadcaster B} {txlib : TxLib}.
Implicit Types (m : t (DB := DB) (S := S) (B := B)).

(** What a successful transfer leaves behind: a transaction with the inputs of
    a payment at the end of the queue, and these inputs locked. *)
Lemma TransferFunds_queue amount dest token now m id m' :
  TransferFunds amount dest token now m = (Ok id, m') ->
  exists p tx proof,
    UTXOTxParameters.create (GeniusAccount.utxos (account_m m)) (GeniusAccount.address (account_m m))
      amount dest token = Ok p /\
    tx_queue_m m' = tx_queue_m m ++ [([(tx, proof)], None)] /\ data_hash (dag_st tx) = id /\
    (forall a, spends a tx = UTXOTxParameters.inputs_ p) /\
    GeniusAccount.utxos (account_m m') = UTXOTxParameters.UpdateUTXOList (GeniusAccount.utxos (account_m m)) p.
Proof.
  unfold TransferFunds. destruct (UTXOTxParameters.create _ _ _ _ _) as [p|]; [|done].
  destruct (FillDAGStruct [] now m) as [dag m1] eqn:Ed. unfold FillDAGStruct in Ed. injection Ed as <- <-.
  destruct (GenerateFullProof _ _) as [proof|]; [|done]. intros [= <- <-].
  exists p. eexists _, _. repeat split; reflexivity.
Qed.

(** C22. No double spending: the transactions of two successive transfers of an
    account take different outputs. *)
Theorem transfers_spend_apart amount dest token now m id m1 amount' dest' token' now' id' m2 :
  TransferFunds amount dest token now m = (Ok id, m1) ->
  TransferFunds amount' dest' token' now' m1 = (Ok id', m2) ->
  exists tx proof tx' proof', tx_queue_m m2 = tx_queue_m m ++ [([(tx, proof)], None); ([(tx', proof')], None)] /\
    data_hash (dag_st tx) = id /\ data_hash (dag_st tx') = id' /\
    forall a o, o ∈ spent a tx -> o ∉ spent a tx'.
Proof.
  intros (p & tx & proof & Hp & Hq & Hid & Hs & Hu)%TransferFunds_queue
    (p' & tx' & proof' & Hp' & Hq' & Hid' & Hs' & _)%TransferFunds_queue.
  exists tx, proof, tx', proof'. rewrite Hq', Hq, <-app_assoc. split; [done|]. split; [done|].
  split; [done|]. rewrite Hu in Hp'.
  intros a o Ho Ho'. unfold spent in *.
  apply list_elem_of_fmap in Ho as (i & -> & Hi). apply list_elem_of_fmap in Ho' as (i' & Heq & Hi').
  rewrite Hs in Hi. rewrite Hs' in Hi'. by eapply (locked_not_spent _ _ _ _ _ _ _ _ _ _ _ Hp Hp' i i').
Qed.
End transfers.

(** ** A restart

    An account mints 5 units and holds them in escrow.  The transactions are
    the only two of their kinds, so that a table of the two messages serves as
    codec. *)

Module Restart.
Import DemoDag.
Definition me : bytes := str "me".
Definition hash (kind : ascii) : Hash256 := kind :: replicate 31 "0"%char.
Definition dag (type : bytes) (n now : Z) (kind : ascii) : DAGStruct :=
  {| dag_type := type; previous_hash := []; source_addr := me; dag_nonce := n; timestamp := now;
     uncle_hash := []; data_hash := Blob.toReadableString (hash kind); signature := [] |}.
Definition mint_message : MintTx :=
  {| mint_dag := dag (str "mint") 1 0 "M"; chain_id := []; mint_token := [TokenID.zero_byte];
     mint_amount := 5 |}.
Definition escrow_message : EscrowTx :=
  {| escrow_dag := dag (str "escrow-hold") 2 0 "E";
     escrow_params := {| proto_inputs := [{| tx_id_hash := Blob.toReadableString (hash "M"); output_index := 0;
                                             input_signature := [] |}];
                         proto_outputs := [{| out_amount := 5; dest_addr := str "0x" ++ Blob.toReadableString (hash "J");
                                              out_token := [TokenID.zero_byte] |}] |};
     escrow_amount := 5; dev_addr := str "dev"; peers_cut := 0 |}.

#[local] Instance table_tx : TxLib := {|
  proto_serialize m := match m with MintMessage _ => str "M" | EscrowMessage _ => str "E" | _ => [] end;
  proto_dag b := if decide (b = str "M") then Some (mint_dag mint_message)
                 else if decide (b = str "E") then Some (escrow_dag escrow_message) else None;
  parse_transfer b := None;
  parse_processing b := None;
  parse_mint b := if decide (b = str "M") then Some mint_message else None;
  parse_escrow b := if decide (b = str "E") then Some escrow_message else None;
  parse_release b := None;
  empty_transfer := Build_TransferTx (dag [] 0 0 "T") {| proto_inputs := []; proto_outputs := [] |};
  empty_processing := Build_ProcessingTx (dag [] 0 0 "P") [] [] [];
  blake2b_256 b := hash (default "0"%char (head b));
  eth_sign d := [];
  GenerateFullProof balance amount := Ok None
|}.
#[local] Instance const_codec : DeltaCodec := {|
  delta_serialize d := str "d"; delta_parse b := None; bcast_serialize l := str "b"; bcast_parse b := None
|}.

Definition manager (g : GlobalDB.t (DB := gmap bytes bytes)
     (S := GraphsyncDAGSyncer.t (Dag := gmap bytes block)) (B := list (bytes * bytes)))
    : TransactionManager.t :=
  {| globaldb_m := g;
     account_m := {| GeniusAccount.address := me; GeniusAccount.nonce := 0; GeniusAccount.utxos := [] |};
     full_node_m := false; full_node_topic_m := str "full"; tx_queue_m := [];
     outgoing_tx_processed_m := ∅; incoming_tx_processed_m := ∅ |}.

Definition m0 := manager {| GlobalDB.m_crdtDatastore := datastore; GlobalDB.started_ := true |}.
Definition m1 := Update (MintFunds 5 [] [] (TokenID.FromBytes [TokenID.zero_byte]) 0 m0).2.
Definition m2 := Update (HoldEscrow 5 (str "dev") 0 (str "J") 0 m1).2.
(** A new manager over the database that [m2] leaves behind. *)
Definition restarted := (CheckOutgoing (CheckIncoming (manager (globaldb_m m2))).2).2.
End Restart.

Section restart.
Import DemoDag Restart.
#[local] Existing Instance table_tx.
#[local] Existing Instance const_codec.

(** A restart brings spent outputs back: the account has spent its 5 units,
    and a manager that starts over the same database, which applies the
    transactions it finds in the order of their keys, the escrow before the
    mint, has a balance of 5 units. *)
Theorem restart_restores_spent : GetBalance m1 = 5%Z /\ GetBalance m2 = 0%Z /\ GetBalance restarted = 5%Z.
Proof. vm_compute. done. Qed.

Definition mint_tx : Transaction :=
  MintTransaction (dag (str "mint") 1 0 "M") 5 [] (TokenID.FromBytes [TokenID.zero_byte]).
Definition hold_tx : Transaction :=
  EscrowTransaction (dag (str "escrow-hold") 2 0 "E")
    {| UTXOTxParameters.inputs_ := [{| in_txid_hash_ := hash "M"; in_output_idx_ := 0; in_signature_ := [] |}];
       UTXOTxParameters.outputs_ := [{| encrypted_amount := 5; dest_address := str "0x"; token_id := gnus |}] |}
    5 (str "dev") 0.

Lemma account_holds_unspent_witness : exists m',
  parse_list [mint_tx; hold_tx] m0 = (Ok tt, m') /\
  forall o, o ∈ outpoints (account_m m') <->
    (exists tx, tx ∈ [mint_tx; hold_tx] /\ o ∈ received me tx) /\
    (forall tx, tx ∈ [mint_tx; hold_tx] -> o ∉ spent me tx).
Proof.
  destruct (parse_list [mint_tx; hold_tx] m0) as [[[]|] m'] eqn:E; [|discriminate E].
  exists m'. split; [done|]. apply (account_holds_unspent [mint_tx; hold_tx] m0 m'); [done| |exact E].
  intros [|tx0 [|tx1 l1]] tx l2 [=] o tx' Ho Htx'; subst.
  - by apply not_elem_of_nil in Htx'.
  - apply not_elem_of_nil in Ho. done.
  - by destruct l1.
Defined.

(** Two transfers of 3 and 4 from outputs of 5 and 9 units. *)
Definition rich : TransactionManager.t :=
  with_account m0 {| GeniusAccount.address := me; GeniusAccount.nonce := 0;
    GeniusAccount.utxos := [new_utxo (hash "A") 0 5 gnus; new_utxo (hash "B") 0 9 gnus] |}.

Lemma transfers_spend_apart_witness : exists id m1 id' m2,
  TransferFunds 3 (str "you") gnus 0 rich = (Ok id, m1) /\
  TransferFunds 4 (str "you") gnus 0 m1 = (Ok id', m2) /\
  exists tx proof tx' proof', tx_queue_m m2 = tx_queue_m rich ++ [([(tx, proof)], None); ([(tx', proof')], None)] /\
    data_hash (dag_st tx) = id /\ data_hash (dag_st tx') = id' /\
    forall a o, o ∈ spent a tx -> o ∉ spent a tx'.
Proof.
  destruct (TransferFunds 3 (str "you") gnus 0 rich) as [[id|] m1] eqn:E; [|discriminate E].
  destruct (TransferFunds 4 (str "you") gnus 0 m1) as [[id'|] m2] eqn:E'.
  - exists id, m1, id', m2. split; [done|]. split; [done|].
    exact (transfers_spend_apart _ _ _ _ _ _ _ _ _ _ _ _ _ E E').
  - exfalso. injection E as <- <-. discriminate E'.
Defined.
End restart.
