(* ===== verification/BufferStorage.v ===== *)
(** * Storage of buffers and the in-memory storage

    Models [src/src/storage/in_memory] ([in_memory_storage.cpp],
    [in_memory_batch.hpp]) and the hexadecimal keys of [src/src/base/hexutil.cpp]
    it uses.  [BufferStorage] is the interface the trie is stored through, a map
    with batches of puts; the in-memory storage and the RocksDB wrapper of
    [Store] implement it.  The conversions of Boost are the class [HexLib]. *)

From S2P Require Import Prelude Store.

(** ** Hexadecimal strings *)

(** [boost::algorithm::hex_lower] and [boost::algorithm::unhex]: every byte is
    written as two digits, and [unhex] reads what [hex_lower] writes. *)
Class HexLib := {
  boost_hex_lower : bytes -> bytes;
  boost_unhex : bytes -> outcome bytes
}.

Class HexSpec `{HexLib} : Prop := {
  boost_unhex_hex b : boost_unhex (boost_hex_lower b) = Ok b;
  boost_hex_digits b : "x"%char ∉ boost_hex_lower b;
  boost_hex_length b : length (boost_hex_lower b) = 2 * length b
}.

Section hex.
Context `{HexLib}.

Definition hex_lower (b : bytes) : bytes := boost_hex_lower b.

(** [hex[0]] and [hex[1]] are read without a check of the length. *)
Definition unhex (hex : bytes) : outcome bytes :=
  match hex with
  | [] => Err undefined_behaviour
  | c0 :: hex' =>
      if decide (c0 = "0"%char) then
        match hex' with
        | [] => Err undefined_behaviour
        | c1 :: rest => if decide (c1 = "x"%char) then boost_unhex rest else boost_unhex hex
        end
      else boost_unhex hex
  end.

Lemma unhex_hex_lower `{!HexSpec} b : b <> [] -> unhex (hex_lower b) = Ok b.
Proof.
  intros Hb. pose proof (boost_unhex_hex b) as Hu. pose proof (boost_hex_digits b) as Hx.
  pose proof (boost_hex_length b) as Hl. unfold unhex, hex_lower.
  destruct (boost_hex_lower b) as [|c0 [|c1 rest]]; [by destruct b|simpl in Hl; destruct b; simpl in Hl; lia|].
  repeat case_decide; try done. subst c1. set_solver.
Qed.

Lemma hex_lower_inj `{!HexSpec} b b' : hex_lower b = hex_lower b' -> b = b'.
Proof.
  unfold hex_lower. intros E. pose proof (boost_unhex_hex b) as H1. rewrite E, boost_unhex_hex in H1. congruence.
Qed.

End hex.

(** ** [InMemoryStorage] *)

(** [std::map<std::string, Buffer>], by the hexadecimal key. *)
Abbreviation InMemoryStorage := (gmap bytes bytes).

Module InMemory.
Section in_memory.
Context `{HexLib}.

Definition get (storage : InMemoryStorage) (key : bytes) : outcome bytes :=
  match storage !! hex_lower key with
  | Some v => Ok v
  | None => Err (database_error NOT_FOUND)
  end.

Definition put (storage : InMemoryStorage) (key value : bytes) : InMemoryStorage :=
  <[hex_lower key := value]> storage.

Definition contains (storage : InMemoryStorage) (key : bytes) : bool :=
  bool_decide (is_Some (storage !! hex_lower key)).

Definition empty (storage : InMemoryStorage) : bool := bool_decide (storage = ∅).

Definition remove (storage : InMemoryStorage) (key : bytes) : InMemoryStorage :=
  delete (hex_lower key) storage.

(** *** [InMemoryBatch] *)

Definition batch : InMemoryStorage := ∅.
Definition batch_put (entries : InMemoryStorage) (key value : bytes) : InMemoryStorage :=
  <[hex_lower key := value]> entries.
Definition batch_remove (entries : InMemoryStorage) (key : bytes) : InMemoryStorage :=
  delete (hex_lower key) entries.
Definition batch_clear (entries : InMemoryStorage) : InMemoryStorage := ∅.

(** The loop of [commit] over the entries; [value()] of a failure throws. *)
Fixpoint commit_loop (entries : list (bytes * bytes)) (db : InMemoryStorage) : outcome InMemoryStorage :=
  match entries with
  | [] => Ok db
  | (k, v) :: entries =>
      match unhex k with
      | Ok key => commit_loop entries (put db key v)
      | Err _ => Err undefined_behaviour
      end
  end.

Definition commit (entries : InMemoryStorage) (db : InMemoryStorage) : outcome InMemoryStorage :=
  commit_loop (map_to_list entries) db.

(** A batch holds keys that were converted by [toHex]. *)
Definition batch_ok (entries : InMemoryStorage) : Prop :=
  forall hk v, entries !! hk = Some v -> exists k, hk = hex_lower k.

Lemma commit_loop_spec `{!HexSpec} entries db db' :
  (forall hk v, (hk, v) ∈ entries -> exists k, hk = hex_lower k) -> NoDup entries.*1 ->
  commit_loop entries db = Ok db' ->
  forall hk, db' !! hk = match (list_to_map entries : gmap bytes bytes) !! hk with
    | Some v => Some v | None => db !! hk end.
Proof.
  revert db. induction entries as [|[h v] entries IH]; intros db Hhex Hnd Hc hk.
  { injection Hc as <-. simpl. by rewrite lookup_empty. }
  apply NoDup_cons in Hnd as [Hh Hnd]. simpl in Hc.
  destruct (Hhex h v) as [k ->]; [by left|]. destruct (decide (k = [])) as [->|Hk].
  { pose proof (boost_hex_length []) as Hl. unfold hex_lower in Hc.
    by destruct (boost_hex_lower []). }
  rewrite unhex_hex_lower in Hc by done.
  rewrite (IH _ (fun hk v Hin => Hhex hk v (list_elem_of_further _ _ _ Hin)) Hnd Hc hk). simpl. unfold put.
  destruct (decide (hk = hex_lower k)) as [->|Hne].
  - rewrite (not_elem_of_list_to_map_1 entries (hex_lower k)) by done. by rewrite !lookup_insert_eq.
  - by rewrite !lookup_insert_ne by done.
Qed.

Lemma commit_spec `{!HexSpec} entries db db' k :
  batch_ok entries -> commit entries db = Ok db' ->
  db' !! hex_lower k = match entries !! hex_lower k with Some v => Some v | None => db !! hex_lower k end.
Proof.
  intros Hok Hc. rewrite (commit_loop_spec _ _ _) with (3 := Hc); [by rewrite list_to_map_to_list| |].
  - intros hk v Hin%elem_of_map_to_list. by eapply Hok.
  - apply NoDup_fst_map_to_list.
Qed.

(** A removal through a batch of the in-memory storage is lost: [remove]
    only drops a pending put, and [commit] writes the puts, so a key of the
    storage that was removed in the batch keeps its value. *)
Theorem batch_remove_lost (key value : bytes) (db : InMemoryStorage) :
  exists db', commit (batch_remove batch key) (put db key value) = Ok db' /\ get db' key = Ok value.
Proof.
  exists (put db key value). unfold batch_remove, batch, commit. rewrite delete_empty, map_to_list_empty.
  split; [done|]. unfold get, put. by rewrite lookup_insert_eq.
Qed.

End in_memory.
End InMemory.

(** ** The interface *)

(** Reading, and batches of puts. *)
Class BufferStorage (S B : Type) := {
  st_get : S -> bytes -> outcome bytes;
  st_batch : B;
  st_bput : B -> bytes -> bytes -> outcome unit * B;
  st_commit : B -> S -> outcome unit * S
}.

(** What the storage promises: [st_find] is what it holds and [b_find] what a
    batch is going to write; any operation may fail. *)
Class BufferStorageSpec (S B : Type) `{!BufferStorage S B} := {
  st_find : S -> bytes -> option bytes;
  b_find : B -> bytes -> option bytes;
  b_ok : B -> Prop;
  st_get_spec s k :
    match st_find s k with Some v => st_get s k = Ok v | None => has_failure (st_get s k) = true end;
  st_batch_spec : b_ok st_batch /\ forall k, b_find st_batch k = None;
  st_bput_spec b k v b' : b_ok b -> st_bput b k v = (Ok tt, b') ->
    b_ok b' /\ forall k', b_find b' k' = if decide (k' = k) then Some v else b_find b k';
  st_commit_spec b s s' : b_ok b -> st_commit b s = (Ok tt, s') ->
    forall k, st_find s' k = match b_find b k with Some v => Some v | None => st_find s k end
}.

(** *** The in-memory storage *)

#[export] Instance in_memory_storage `{HexLib} : BufferStorage InMemoryStorage InMemoryStorage := {
  st_get := InMemory.get;
  st_batch := InMemory.batch;
  st_bput b k v := (Ok tt, InMemory.batch_put b k v);
  st_commit b db := match InMemory.commit b db with Ok db' => (Ok tt, db') | Err e => (Err e, db) end
}.

#[export] Instance in_memory_storage_spec `{HexSpec} : BufferStorageSpec InMemoryStorage InMemoryStorage.
Proof.
  refine {| st_find s k := s !! hex_lower k; b_find b k := b !! hex_lower k; b_ok := InMemory.batch_ok |}.
  - intros s k. simpl. unfold InMemory.get. by destruct (s !! hex_lower k).
  - split; [intros hk v Hhk|intros k]; by rewrite ?lookup_empty in *.
  - intros b k v b' Hok [= <-]. split.
    + intros hk w Hw. unfold InMemory.batch_put in Hw. destruct (decide (hk = hex_lower k)) as [->|]; [eauto|].
      rewrite lookup_insert_ne in Hw by done. by eapply Hok.
    + intros k'. unfold InMemory.batch_put. case_decide as Hk; [subst; by rewrite lookup_insert_eq|].
      rewrite lookup_insert_ne; [done|]. by intros ?%hex_lower_inj.
  - intros b s s' Hok Hc k. simpl in Hc. destruct (InMemory.commit b s) eqn:E; simplify_eq.
    by apply InMemory.commit_spec.
Defined.

(** *** RocksDB *)

Section rocksdb.
Context {DB : Type} `{RocksDBHealthy DB}.

#[export] Instance rocksdb_storage : BufferStorage DB (list batch_op) := {
  st_get := RocksDb.get;
  st_batch := RocksDb.batch;
  st_bput b k v := (Ok tt, RocksDb.batch_put b k v);
  st_commit := RocksDb.batch_commit
}.

Definition only_puts (b : list batch_op) : Prop :=
  Forall (fun op => match op with BPut _ _ => True | BDelete _ => False end) b.

Lemma batch_apply_puts b m k :
  only_puts b ->
  batch_apply b m !! k = match batch_apply b ∅ !! k with Some v => Some v | None => m !! k end.
Proof.
  intros Hb. induction b as [|op b IH] using rev_ind.
  { unfold batch_apply. simpl. by rewrite lookup_empty. }
  apply Forall_app in Hb as [Hb Hop]. unfold batch_apply in *. rewrite !fold_left_app. simpl.
  destruct op as [k' v|]; [|by apply Forall_cons in Hop as []]. simpl.
  destruct (decide (k' = k)) as [->|]; [by rewrite !lookup_insert_eq|].
  rewrite !lookup_insert_ne by done. by apply IH.
Qed.

#[export] Instance rocksdb_storage_spec : BufferStorageSpec DB (list batch_op).
Proof.
  refine {| st_find s k := db_view s !! k; b_find b k := batch_apply b ∅ !! k; b_ok := only_puts |}.
  - intros s k. simpl. rewrite RocksDb.get_spec. by destruct (db_view s !! k).
  - split; [constructor|done].
  - intros b k v b' Hok [= <-]. split; [apply Forall_app; by repeat constructor|].
    intros k'. unfold RocksDb.batch_put, batch_apply. rewrite fold_left_app. simpl.
    case_decide as Hk; [subst; by rewrite lookup_insert_eq|by rewrite lookup_insert_ne].
  - intros b s s' Hok Hc k. simpl in Hc. destruct (RocksDb.batch_commit_spec s b) as (db' & Hdb & Hv).
    rewrite Hdb in Hc. simplify_eq. rewrite Hv. by apply batch_apply_puts.
Defined.

End rocksdb.

(** ** A hexadecimal library *)

Definition hex_digit (n : N) : ascii :=
  if decide (n < 10)%N then ascii_of_N (48 + n) else ascii_of_N (87 + n).

Definition hex_value (c : ascii) : option N :=
  let n := N_of_ascii c in
  if decide (48 <= n <= 57)%N then Some (n - 48)%N else
  if decide (97 <= n <= 102)%N then Some (n - 87)%N else
  if decide (65 <= n <= 70)%N then Some (n - 55)%N else None.

Fixpoint plain_unhex (s : bytes) : outcome bytes :=
  match s with
  | [] => Ok []
  | a :: b :: s =>
      match hex_value a, hex_value b with
      | Some x, Some y => r ← plain_unhex s; mret (ascii_of_N (16 * x + y) :: r)
      | _, _ => Err (other_error 2)
      end
  | _ => Err (other_error 1)
  end.

Fixpoint plain_hex_lower (s : bytes) : bytes :=
  match s with
  | [] => []
  | c :: s => hex_digit (N_of_ascii c / 16) :: hex_digit (N_of_ascii c mod 16) :: plain_hex_lower s
  end.

#[export] Instance plain_hex : HexLib := {
  boost_hex_lower := plain_hex_lower;
  boost_unhex := plain_unhex
}.

#[export] Instance plain_hex_spec : HexSpec.
Proof.
  split.
  - intros b. induction b as [|c b IH]; [done|]. simpl in *. rewrite IH. clear IH.
    by destruct c as [[] [] [] [] [] [] [] []].
  - intros b. simpl. induction b as [|c b IH]; [apply not_elem_of_nil|]. simpl.
    rewrite !not_elem_of_cons. split_and!; [..|done]; by destruct c as [[] [] [] [] [] [] [] []].
  - intros b. simpl. induction b as [|c b IH]; [done|]. simpl in *. lia.
Qed.
