(* ===== verification/Scale.v ===== *)
(** * SCALE codec

    Models [src/src/scale]: the encoder stream ([scale_encoder_stream.hpp],
    [scale_encoder_stream.cpp]), the decoder stream ([scale_decoder_stream.hpp],
    [scale_decoder_stream.cpp]), fixed-width integers
    ([detail/fixed_witdh_integer.hpp]), the entry points [encode] and [decode]
    ([scale.hpp]) and the codecs of [base::Blob] and [base::Buffer].

    The stream operators are templates over the encoded C++ type.  [ty] names
    the types the templates are instantiated with, [value] gives the values of
    a type, and [encode] and [decode] recurse on the type the way overload
    resolution does.  The encoder appends bytes, so a value is encoded into the
    bytes it appends or the error its exception carries; the decoder is a
    reader, a function from the bytes not yet consumed. *)

From S2P Require Import Prelude.

Local Open Scope Z_scope.

(** ** Bytes and little-endian integers *)

(** [static_cast<uint8_t>]. *)
Definition byte (z : Z) : ascii := ascii_of_N (Z.to_N (z mod 256)).

Fixpoint le_bytes (n : nat) (v : Z) : bytes :=
  match n with
  | O => []
  | S n => byte (Z.land v 255) :: le_bytes n (Z.shiftr v 8)
  end.

Fixpoint le_value (s : bytes) : Z :=
  match s with
  | [] => 0
  | c :: s => uchar c + 256 * le_value s
  end.

(** [static_cast] to a signed integer of [bits] bits, which keeps the value
    modulo [2 ^ bits]. *)
Definition to_signed (bits z : Z) : Z :=
  let m := z mod 2 ^ bits in
  if m <? 2 ^ (bits - 1) then m else m - 2 ^ bits.

(** ** The decoder stream *)

Definition reader (A : Type) : Type := bytes -> outcome (A * bytes).

#[export] Instance reader_ret : MRet reader := fun A a s => Ok (a, s).
#[export] Instance reader_bind : MBind reader := fun A B f m s =>
  match m s with
  | Ok (a, s') => f a s'
  | Err e => Err e
  end.

Definition raise {A} (e : error) : reader A := fun _ => Err e.

Definition hasMore (n : nat) : reader bool := fun s => Ok (bool_decide (n <= length s)%nat, s).

Definition nextByte : reader Z := fun s =>
  match s with
  | [] => Err (decode_error NOT_ENOUGH_DATA)
  | c :: s => Ok (uchar c, s)
  end.

(** The loops [for (i = 0; i < n; ++i) v += multiplier * nextByte()] with
    [multiplier] growing by [256]. *)
Fixpoint sum_bytes (n : nat) (multiplier v : Z) : reader Z :=
  match n with
  | O => mret v
  | S n => b ← nextByte; sum_bytes n (256 * multiplier) (v + b * multiplier)
  end.

(** ** Fixed-width integers *)

Definition encodeInteger (size : nat) (v : Z) : bytes := le_bytes size v.

(** The negation [-static_cast<T>((~v) + 1)] overflows when the operand is the
    least value of a [T] that integral promotion does not widen. *)
Definition decodeInteger (signed : bool) (size : nat) : reader Z :=
  let bits := 8 * Z.of_nat size in
  more ← hasMore size;
  if negb more then raise (decode_error NOT_ENOUGH_DATA) else
  v ← sum_bytes size 1 0;
  if negb signed || (v <? 2 ^ (bits - 1)) then mret v else
  let x := to_signed bits (u64 (u64 (Z.lnot v) + 1)) in
  if (32 <=? bits) && (x =? - 2 ^ (bits - 1)) then raise undefined_behaviour
  else mret (to_signed bits (- x)).

(** [operator>>] of an integral type other than [bool]. *)
Definition decodeIntegral (signed : bool) (size : nat) : reader Z :=
  if decide (size = 1%nat) then
    b ← nextByte; mret (if signed then to_signed 8 b else b)
  else decodeInteger signed size.

(** ** Compact integers *)

Definition kMinUint16 : Z := Z.shiftl 1 6.
Definition kMinUint32 : Z := Z.shiftl 1 14.
Definition kMinBigInteger : Z := Z.shiftl 1 30.

Definition encodeFirstCategory (value : Z) : bytes := [byte (Z.shiftl value 2)].

Definition encodeSecondCategory (value : Z) : bytes :=
  let v := (Z.shiftl value 2 + 1) mod 2 ^ 16 in
  [byte (Z.land v 255); byte (Z.land (Z.shiftr v 8) 255)].

Definition encodeThirdCategory (value : Z) : bytes :=
  encodeInteger 4 ((u32 (Z.shiftl value 2) + 2) mod 2 ^ 32).

Fixpoint countBytes_loop (fuel : nat) (v : Z) (counter : nat) : nat :=
  match fuel with
  | O => counter
  | S fuel => if 0 <? v then countBytes_loop fuel (Z.shiftr v 8) (S counter) else counter
  end.

(** The loop halts when [v] is 0, after at most as many steps as [v] has
    binary digits (see [countBytes_spec]). *)
Definition countBytes (v : Z) : nat :=
  if v =? 0 then 1%nat else countBytes_loop (S (Z.to_nat (Z.log2 v))) v 0.

Definition encodeCompactInteger (value : Z) : outcome bytes :=
  if value <? 0 then Err (encode_error NEGATIVE_COMPACT_INTEGER) else
  if value <? kMinUint16 then Ok (encodeFirstCategory value) else
  if value <? kMinUint32 then Ok (encodeSecondCategory value) else
  if value <? kMinBigInteger then Ok (encodeThirdCategory value) else
  let bigIntLength := countBytes value in
  if bool_decide (67 < bigIntLength)%nat then Err (encode_error COMPACT_INTEGER_TOO_BIG) else
  let header := (Z.of_nat bigIntLength - 4) * 4 + 3 in
  Ok (byte header :: le_bytes bigIntLength value).

Definition decodeCompactInteger : reader Z :=
  first_byte ← nextByte;
  match Z.land first_byte 3 with
  | 0 => mret (Z.shiftr first_byte 2)
  | 1 =>
      second_byte ← nextByte;
      mret (Z.shiftr (u64 (Z.land first_byte 252 + u64 (second_byte * 256))) 2)
  | 2 =>
      more ← hasMore 3;
      if negb more then raise (decode_error NOT_ENOUGH_DATA) else
      number ← sum_bytes 3 256 first_byte;
      mret (Z.shiftr number 2)
  | _ =>
      let bytes_count := Z.to_nat (Z.shiftr first_byte 2 + 4) in
      more ← hasMore bytes_count;
      if negb more then raise (decode_error NOT_ENOUGH_DATA) else
      sum_bytes bytes_count 1 0
  end.

(** ** The encoded types *)

(** [TInt signed size] is an integral type of [size] bytes, [TCompact] is
    [CompactInteger], [TUnit] the empty tuple; a tuple is a right-nested
    [TPair].  [TVector] is [std::vector], [std::string] or [base::Buffer], encoded
    as a collection; [TArray] is [std::array]; [TBlob] is [base::Blob]; [TPtr] is
    [std::shared_ptr] or [std::unique_ptr].  [alts] are the types of a
    [boost::variant], which are pairwise distinct.  There is no code for
    [gsl::span], which is encoded like a vector and has no decoder, for [std::list],
    whose decoder calls [reserve], which lists do not have, and cannot be
    instantiated, and for [uint256_t], whose operators do nothing. *)
Inductive ty : Type :=
  | TUnit
  | TBool
  | TInt (signed : bool) (size : nat)
  | TCompact
  | TOption (t : ty)
  | TPair (t u : ty)
  | TVector (t : ty)
  | TArray (size : nat) (t : ty)
  | TBlob (size : nat)
  | TPtr (t : ty)
  | TVariant (a : alts)
with alts : Type :=
  | One (t : ty)
  | More (t : ty) (a : alts).

Fixpoint value (t : ty) : Type :=
  match t with
  | TUnit => unit
  | TBool => bool
  | TInt _ _ | TCompact => Z
  | TOption t => option (value t)
  | TPair t u => (value t * value u)%type
  | TVector t | TArray _ t => list (value t)
  | TBlob _ => bytes
  | TPtr t => option (value t)
  | TVariant a => alt_value a
  end
with alt_value (a : alts) : Type :=
  match a with
  | One t => value t
  | More t a => (value t + alt_value a)%type
  end.

Fixpoint types_count (a : alts) : nat :=
  match a with One _ => 1 | More _ a => S (types_count a) end.

(** ** Encoding *)

Definition encodeBool (v : bool) : bytes := [byte (if v then 1 else 0)].

Definition encodeOptionalBool (v : option bool) : bytes :=
  [byte (match v with None => 0 | Some false => 1 | Some true => 2 end)].

(** [operator<<] of an optional that is not an optional [bool]. *)
Definition encodeOptional {A} (enc : A -> outcome bytes) (v : option A) : outcome bytes :=
  match v with
  | None => Ok [byte 0]
  | Some v => b ← enc v; mret (byte 1 :: b)
  end.

Fixpoint encodeItems {A} (enc : A -> outcome bytes) (l : list A) : outcome bytes :=
  match l with
  | [] => Ok []
  | x :: l => a ← enc x; b ← encodeItems enc l; mret (a ++ b)
  end.

Definition encodeCollection {A} (enc : A -> outcome bytes) (size : Z) (l : list A) : outcome bytes :=
  a ← encodeCompactInteger size; b ← encodeItems enc l; mret (a ++ b).

(** [operator<<] of the encoder stream at each type. *)
Fixpoint encode (t : ty) : value t -> outcome bytes :=
  match t return value t -> outcome bytes with
  | TUnit => fun _ => Ok []
  | TBool => fun v => Ok (encodeBool v)
  | TInt _ size => fun v => Ok (encodeInteger size v)
  | TCompact => encodeCompactInteger
  | TOption t =>
      match t return (value t -> outcome bytes) -> option (value t) -> outcome bytes with
      | TBool => fun _ v => Ok (encodeOptionalBool v)
      | _ => fun enc v => encodeOptional enc v
      end (encode t)
  | TPair t u => fun p => a ← encode t p.1; b ← encode u p.2; mret (a ++ b)
  | TVector t => fun l => encodeCollection (encode t) (Z.of_nat (length l)) l
  | TArray size t => fun l => encodeCollection (encode t) (Z.of_nat size) l
  | TBlob _ => fun b => Ok b
  | TPtr t => fun p =>
      match p with
      | None => Err (encode_error DEREF_NULLPOINTER)
      | Some v => encode t v
      end
  | TVariant a => tryEncodeAsOneOfVariant a 0
  end
with tryEncodeAsOneOfVariant (a : alts) (I : Z) : alt_value a -> outcome bytes :=
  match a return alt_value a -> outcome bytes with
  | One t => fun v => b ← encode t v; mret (byte I :: b)
  | More t a => fun v =>
      match v with
      | inl v => b ← encode t v; mret (byte I :: b)
      | inr v => tryEncodeAsOneOfVariant a (I + 1) v
      end
  end.

(** ** Decoding *)

Definition decodeBool : reader bool :=
  b ← nextByte;
  match b with
  | 0 => mret false
  | 1 => mret true
  | _ => raise (decode_error UNEXPECTED_VALUE)
  end.

Definition decodeOptionalBool : reader (option bool) :=
  b ← nextByte;
  match b with
  | 0 => mret None
  | 1 => mret (Some false)
  | 2 => mret (Some true)
  | _ => raise (decode_error UNEXPECTED_VALUE)
  end.

Definition decodeOptional {A} (dec : reader A) : reader (option A) :=
  has_value ← decodeBool;
  if negb has_value then mret None else v ← dec; mret (Some v).

Fixpoint decodeItems {A} (dec : reader A) (n : nat) : reader (list A) :=
  match n with
  | O => mret []
  | S n => x ← dec; l ← decodeItems dec n; mret (x :: l)
  end.

Definition decodeBlob (size : nat) : reader bytes :=
  l ← decodeItems nextByte size; mret (byte <$> l).

Section decoder.

(** [std::vector<T>::max_size()]: [resize] beyond it throws
    [std::length_error], which [decode] does not catch. *)
Context (max_size : ty -> Z).

Definition decodeVector {A} (t : ty) (dec : reader A) : reader (list A) :=
  size ← decodeCompactInteger;
  if u64_max <? size then raise (decode_error TOO_MANY_ITEMS) else
  if max_size t <? size then raise undefined_behaviour else
  decodeItems dec (Z.to_nat size).

(** [operator>>] of the decoder stream at each type. *)
Fixpoint decode (t : ty) : reader (value t) :=
  match t return reader (value t) with
  | TUnit => mret tt
  | TBool => decodeBool
  | TInt signed size => decodeIntegral signed size
  | TCompact => decodeCompactInteger
  | TOption t =>
      match t return reader (value t) -> reader (option (value t)) with
      | TBool => fun _ => decodeOptionalBool
      | _ => fun dec => decodeOptional dec
      end (decode t)
  | TPair t u => a ← decode t; b ← decode u; mret (a, b)
  | TVector t => decodeVector t (decode t)
  | TArray size t => decodeItems (decode t) size
  | TBlob size => decodeBlob size
  | TPtr t => v ← decode t; mret (Some v)
  | TVariant a =>
      type_index ← nextByte;
      if Z.of_nat (types_count a) <=? type_index then raise (decode_error WRONG_TYPE_INDEX)
      else tryDecodeAsOneOfVariant a 0 type_index
  end
with tryDecodeAsOneOfVariant (a : alts) (I i : Z) : reader (alt_value a) :=
  match a return reader (alt_value a) with
  | One t => if I =? i then decode t else raise undefined_behaviour
  | More t a =>
      if I =? i then v ← decode t; mret (inl v)
      else v ← tryDecodeAsOneOfVariant a (I + 1) i; mret (inr v)
  end.

(** [scale::decode<T>]: the bytes left over are not looked at. *)
Definition scale_decode (t : ty) (span : bytes) : outcome (value t) :=
  match decode t span with
  | Ok (v, _) => Ok v
  | Err e => Err e
  end.

End decoder.
