(* ===== verification/ScaleProps.v ===== *)
(** * Correctness of the SCALE codec

    [codes dec b v] says that the reader [dec] reads exactly the bytes [b] into
    the value [v], whatever follows them, and that it fails with
    [NOT_ENOUGH_DATA] on every proper prefix of [b].  The lemmas of the first
    sections build [codes] for each encoder along the structure of its decoder;
    the theorems are round trip, rejection of truncated input, unambiguity,
    and the bounds of compact integers. *)

From S2P Require Import Prelude Scale.

Local Open Scope Z_scope.

(** ** Bytes *)

Lemma uchar_byte z : uchar (byte z) = z mod 256.
Proof.
  unfold uchar, byte. pose proof (Z.mod_pos_bound z 256 ltac:(lia)).
  rewrite N_ascii_embedding by lia. lia.
Qed.

Lemma byte_uchar c : byte (uchar c) = c.
Proof. apply uchar_inj. rewrite uchar_byte. apply Z.mod_small, uchar_range. Qed.

Lemma land_255 v : Z.land v 255 = v mod 256.
Proof. change 255 with (Z.ones 8). by rewrite Z.land_ones. Qed.

Lemma uchar_byte_land v : uchar (byte (Z.land v 255)) = v mod 256.
Proof. rewrite uchar_byte, land_255. by apply Zmod_mod. Qed.

Lemma shiftr_8 v : Z.shiftr v 8 = v / 256.
Proof. by rewrite Z.shiftr_div_pow2. Qed.

Lemma shiftl_2 v : Z.shiftl v 2 = 4 * v.
Proof. rewrite Z.shiftl_mul_pow2 by done. lia. Qed.

Lemma shiftr_2 v : Z.shiftr v 2 = v / 4.
Proof. by rewrite Z.shiftr_div_pow2. Qed.

Lemma land_3 v : Z.land v 3 = v mod 4.
Proof. change 3 with (Z.ones 2). by rewrite Z.land_ones. Qed.

Lemma land_252 v : 0 <= v < 256 -> Z.land v 252 = 4 * (v / 4).
Proof.
  intros Hv. change 252 with (Z.ldiff 255 (Z.ones 2)).
  rewrite <-(Z.mul_comm (v / 4)). change 4 with (2 ^ 2).
  rewrite <-Z.shiftr_div_pow2, <-Z.shiftl_mul_pow2, <-Z.ldiff_ones_r by lia.
  apply Z.bits_inj'. intros n Hn. rewrite Z.land_spec, !Z.ldiff_spec.
  change 255 with (Z.ones 8). destruct (Z.testbit v n) eqn:Hb; [|done].
  rewrite (Z.ones_spec_low 8 n); [done|]. split; [done|].
  destruct (Z.lt_ge_cases n 8) as [|Hge]; [done|].
  rewrite (Z.bits_above_log2 v n) in Hb; [done|lia|].
  destruct (Z.eq_dec v 0) as [->|]; [simpl; lia|].
  apply Z.log2_lt_pow2; [lia|]. pose proof (Z.pow_le_mono_r 2 8 n). lia.
Qed.

Lemma length_le_bytes n v : length (le_bytes n v) = n.
Proof. revert v. induction n; intros v; simpl; auto. Qed.

Lemma le_value_le_bytes n v : le_value (le_bytes n v) = v mod 256 ^ Z.of_nat n.
Proof.
  revert v. induction n as [|n IH]; intros v; [simpl; by rewrite Z.mod_1_r|].
  cbn [le_bytes le_value].
  rewrite uchar_byte_land, IH, shiftr_8, Nat2Z.inj_succ, Z.pow_succ_r by lia.
  rewrite Z.rem_mul_r; lia.
Qed.

(** ** Readers *)

Definition NED : error := decode_error NOT_ENOUGH_DATA.

Definition codes {A} (dec : reader A) (b : bytes) (v : A) : Prop :=
  (forall r, dec (b ++ r) = Ok (v, r)) /\
  (forall p q, b = p ++ q -> q <> [] -> dec p = Err NED).

Lemma app_split {A} (b1 b2 p q : list A) :
  b1 ++ b2 = p ++ q -> q <> [] ->
  (exists q', b1 = p ++ q' /\ q' <> []) \/ (exists p', p = b1 ++ p' /\ b2 = p' ++ q).
Proof.
  revert p. induction b1 as [|x b1 IH]; intros [|y p] H Hq; simpl in *.
  - right. by exists [].
  - right. by exists (y :: p).
  - left. by exists (x :: b1).
  - injection H as -> H. destruct (IH p H Hq) as [(q'&->&?)|(p'&->&->)]; [left|right]; eauto.
Qed.

Lemma codes_ret {A} (v : A) : codes (mret v) [] v.
Proof. split; [done|]. by intros [|] [|]. Qed.

Lemma codes_bind {A B} (d : reader A) (f : A -> reader B) b b' a c :
  codes d b a -> codes (f a) b' c -> codes (d ≫= f) (b ++ b') c.
Proof.
  intros [H1 H1'] [H2 H2']. unfold mbind, reader_bind. split.
  - intros r. by rewrite <-(assoc_L (++)), H1.
  - intros p q Hp Hq. destruct (app_split _ _ _ _ Hp Hq) as [(q'&->&?)|(p'&->&->)].
    + by erewrite H1'.
    + rewrite H1. by eapply H2'.
Qed.

Lemma codes_map {A B} (d : reader A) (f : A -> B) b a :
  codes d b a -> codes (x ← d; mret (f x)) b (f a).
Proof. intros H. rewrite <-(app_nil_r b). eapply codes_bind; [done|apply codes_ret]. Qed.

Lemma codes_nextByte c : codes nextByte [c] (uchar c).
Proof. split; [done|]. intros [|? [|]] [|]; naive_solver. Qed.

Lemma codes_byte z : 0 <= z < 256 -> codes nextByte [byte z] z.
Proof.
  intros H. pose proof (codes_nextByte (byte z)) as Hc.
  by rewrite uchar_byte, Z.mod_small in Hc.
Qed.

Lemma codes_cons {B} z (f : Z -> reader B) b c :
  0 <= z < 256 -> codes (f z) b c -> codes (nextByte ≫= f) (byte z :: b) c.
Proof. intros ??. by apply (codes_bind nextByte f [byte z] b z c); [apply codes_byte|]. Qed.

Lemma codes_more {A} n (d : reader A) b v :
  length b = n -> codes d b v ->
  codes (more ← hasMore n; if negb more then raise NED else d) b v.
Proof.
  intros <- [H1 H2]. unfold mbind, reader_bind, hasMore. split.
  - intros r. rewrite bool_decide_eq_true_2 by (rewrite length_app; lia). apply H1.
  - intros p q -> Hq. rewrite bool_decide_eq_false_2; [done|].
    rewrite length_app. destruct q; simpl; [done|lia].
Qed.

Lemma codes_sum_bytes b m v : codes (sum_bytes (length b) m v) b (v + m * le_value b).
Proof.
  revert m v. induction b as [|c b IH]; intros m v; simpl.
  - replace (v + m * 0) with v by lia. apply codes_ret.
  - eapply (codes_bind nextByte _ [c] b); [apply codes_nextByte|].
    replace (v + m * (uchar c + 256 * le_value b))
      with (v + uchar c * m + 256 * m * le_value b) by lia. apply IH.
Qed.

Lemma codes_sum_le n m v z :
  codes (sum_bytes n m v) (le_bytes n z) (v + m * (z mod 256 ^ Z.of_nat n)).
Proof.
  pose proof (codes_sum_bytes (le_bytes n z) m v) as H.
  by rewrite length_le_bytes, le_value_le_bytes in H.
Qed.

(** ** Fixed-width integers *)

(** The values of an integral type that survive a round trip: the least value
    of a signed type of 4 or 8 bytes does not. *)
Definition int_range (signed : bool) (size : nat) (v : Z) : Prop :=
  let bits := 8 * Z.of_nat size in
  if signed then
    - 2 ^ (bits - 1) <= v < 2 ^ (bits - 1) /\ ((4 <= size)%nat -> v <> - 2 ^ (bits - 1))
  else 0 <= v < 2 ^ bits.

Definition int_size (size : nat) : bool := bool_decide (size ∈ [1; 2; 4; 8]%nat).

Lemma int_size_cases size :
  int_size size = true -> size = 1%nat \/ size = 2%nat \/ size = 4%nat \/ size = 8%nat.
Proof. unfold int_size. rewrite bool_decide_eq_true, !elem_of_cons, elem_of_nil. tauto. Qed.

Lemma to_signed_neg bits v :
  0 < bits -> 2 ^ (bits - 1) <= v < 2 ^ bits -> to_signed bits v = v - 2 ^ bits.
Proof.
  intros Hb Hv. pose proof (Z.pow_pos_nonneg 2 (bits - 1)).
  unfold to_signed. rewrite Z.mod_small by lia.
  by destruct (Z.ltb_spec v (2 ^ (bits - 1))); [lia|].
Qed.

Lemma pow_256 n : 256 ^ Z.of_nat n = 2 ^ (8 * Z.of_nat n).
Proof. rewrite Z.pow_mul_r by lia. done. Qed.

Ltac div_mod_lia := Z.to_euclidean_division_equations; lia.

(** The value [decodeInteger] makes of the low bytes of [v] is [v]. *)
Lemma negate_low bits v :
  bits = 16 \/ bits = 32 \/ bits = 64 -> - 2 ^ (bits - 1) <= v < 0 ->
  to_signed bits (u64 (u64 (Z.lnot (v mod 2 ^ bits)) + 1)) =
    if v =? - 2 ^ (bits - 1) then - 2 ^ (bits - 1) else - v.
Proof.
  intros Hb Hv. rewrite u64_add_id. unfold Z.lnot.
  replace (Z.pred (- (v mod 2 ^ bits)) + 1) with (- (v mod 2 ^ bits)) by lia.
  unfold to_signed, u64. rewrite Z.mod_mod_divide.
  2:{ destruct Hb as [->|[->| ->]]; [exists (2 ^ 48)|exists (2 ^ 32)|exists 1]; done. }
  replace (v mod 2 ^ bits) with (v + 2 ^ bits).
  2:{ apply (Z.mod_unique_pos v (2 ^ bits) (-1)); [|lia]. destruct Hb as [->|[->| ->]]; lia. }
  replace (- (v + 2 ^ bits)) with (- v + (-1) * 2 ^ bits) by lia.
  rewrite Z.mod_add by (destruct Hb as [->|[->| ->]]; done).
  rewrite (Z.mod_small (- v)) by (destruct Hb as [->|[->| ->]]; lia).
  destruct (Z.eqb_spec v (- 2 ^ (bits - 1))) as [->|];
    destruct Hb as [->|[->| ->]]; cbn; [done..|case_match; lia|case_match; lia|case_match; lia].
Qed.

Lemma codes_decodeInteger signed size v :
  int_size size = true -> size <> 1%nat -> int_range signed size v ->
  codes (decodeInteger signed size) (le_bytes size v) v.
Proof.
  intros Hs Hs1 Hv. unfold decodeInteger.
  apply codes_more; [apply length_le_bytes|]. rewrite <-(app_nil_r (le_bytes size v)).
  eapply codes_bind; [apply codes_sum_le|]. rewrite pow_256, Z.mul_1_l, Z.add_0_l.
  assert (8 * Z.of_nat size = 16 \/ 8 * Z.of_nat size = 32 \/ 8 * Z.of_nat size = 64) as Hb.
  { apply int_size_cases in Hs. lia. }
  unfold int_range in Hv. remember (8 * Z.of_nat size) as bits eqn:Ebits.
  assert (0 < 2 ^ (bits - 1) /\ 2 ^ bits = 2 * 2 ^ (bits - 1)) as [Hp Hd].
  { rewrite <-Z.pow_succ_r by lia. split; [apply Z.pow_pos_nonneg; lia|f_equal; lia]. }
  destruct signed; simpl.
  2:{ rewrite Z.mod_small by lia. apply codes_ret. }
  destruct Hv as [Hv Hmin]. destruct (Z.lt_ge_cases v 0) as [Hneg|Hpos].
  2:{ rewrite Z.mod_small by lia. destruct (Z.ltb_spec v (2 ^ (bits - 1))); [|lia]. apply codes_ret. }
  replace (v mod 2 ^ bits <? 2 ^ (bits - 1)) with false.
  2:{ symmetry. apply Z.ltb_ge. rewrite <-(Z.mod_unique_pos v (2 ^ bits) (-1) (v + 2 ^ bits)); lia. }
  rewrite negate_low by (done || lia). destruct (Z.eqb_spec v (- 2 ^ (bits - 1))) as [Hm|Hm].
  - assert (bits = 16) as ->; [|subst v; apply codes_ret].
    assert (~ (4 <= size)%nat) by (intros ?; by apply Hmin). lia.
  - replace ((32 <=? bits) && (- v =? - 2 ^ (bits - 1))) with false.
    2:{ symmetry. apply andb_false_iff. right. apply Z.eqb_neq. lia. }
    unfold to_signed. rewrite Z.opp_involutive.
    replace (v mod 2 ^ bits) with (v + 2 ^ bits) by (apply (Z.mod_unique_pos v (2 ^ bits) (-1)); lia).
    destruct (Z.ltb_spec (v + 2 ^ bits) (2 ^ (bits - 1))); [lia|].
    replace (v + 2 ^ bits - 2 ^ bits) with v by lia. apply codes_ret.
Qed.

Lemma codes_decodeIntegral signed size v :
  int_size size = true -> int_range signed size v ->
  codes (decodeIntegral signed size) (le_bytes size v) v.
Proof.
  intros Hs Hv. unfold decodeIntegral. case_decide as H1; [|by apply codes_decodeInteger].
  subst size. cbn in Hv. pose proof (codes_nextByte (byte (Z.land v 255))) as Hc.
  rewrite uchar_byte_land in Hc. apply (codes_map _ (fun b => if signed then to_signed 8 b else b)) in Hc.
  destruct signed; cbn.
  - replace (to_signed 8 (v mod 256)) with v in Hc; [done|]. unfold to_signed. destruct Hv as [Hv _].
    change (2 ^ 8) with 256. change (2 ^ (8 - 1)) with 128. change (2 ^ (Z.pos _ - 1)) with 128 in Hv.
    rewrite Zmod_mod. destruct (Z.ltb_spec (v mod 256) 128); div_mod_lia.
  - by rewrite Z.mod_small in Hc.
Qed.

(** ** Compact integers *)

Lemma countBytes_loop_spec fuel v counter :
  0 <= v < 2 ^ Z.of_nat fuel ->
  exists n, countBytes_loop fuel v counter = (counter + n)%nat /\
    v < 256 ^ Z.of_nat n /\ (n <> O -> 256 ^ (Z.of_nat n - 1) <= v).
Proof.
  revert v counter. induction fuel as [|fuel IH]; intros v counter Hv.
  { exists O. cbn in *. split_and!; [lia|lia|done]. }
  rewrite Nat2Z.inj_succ, Z.pow_succ_r in Hv by lia.
  cbn [countBytes_loop]. destruct (Z.ltb_spec 0 v).
  2:{ exists O. cbn in *. split_and!; [lia|lia|done]. }
  destruct (IH (Z.shiftr v 8) (S counter)) as (n & -> & Hlt & Hge).
  { rewrite shiftr_8. div_mod_lia. }
  rewrite shiftr_8 in *. exists (S n). split_and!; [lia| |intros _].
  - rewrite Nat2Z.inj_succ, Z.pow_succ_r by lia. div_mod_lia.
  - replace (Z.of_nat (S n) - 1) with (Z.of_nat n) by lia. destruct n as [|n]; [cbn; lia|].
    specialize (Hge ltac:(done)). replace (Z.of_nat (S n)) with (Z.succ (Z.of_nat (S n) - 1)) by lia.
    rewrite Z.pow_succ_r by lia. div_mod_lia.
Qed.

(** [countBytes] is the number of base-256 digits. *)
Lemma countBytes_spec v :
  0 < v -> (countBytes v <> O /\ 256 ^ (Z.of_nat (countBytes v) - 1) <= v < 256 ^ Z.of_nat (countBytes v)).
Proof.
  intros Hv. unfold countBytes. destruct (Z.eqb_spec v 0) as [|_]; [lia|].
  destruct (countBytes_loop_spec (S (Z.to_nat (Z.log2 v))) v 0) as (n & -> & Hlt & Hge).
  { rewrite Nat2Z.inj_succ, Z2Nat.id by apply Z.log2_nonneg.
    pose proof (Z.log2_spec v Hv). lia. }
  cbn [plus]. destruct n as [|n]; [cbn in Hlt; lia|]. split; [done|]. split; [by apply Hge|done].
Qed.

Lemma countBytes_le v n : 0 < v -> (countBytes v <= n)%nat <-> v < 256 ^ Z.of_nat n.
Proof.
  intros Hv. destruct (countBytes_spec v Hv) as [H0 [Hge Hlt]]. split; intros H.
  - eapply Z.lt_le_trans; [done|]. apply Z.pow_le_mono_r; lia.
  - assert (Z.of_nat (countBytes v) - 1 < Z.of_nat n); [|lia].
    apply (Z.pow_lt_mono_r_iff 256); lia.
Qed.

(** The integers with a compact encoding. *)
Definition compact_max : Z := 2 ^ 536.

Lemma codes_first_category v :
  0 <= v < 64 -> codes decodeCompactInteger (encodeFirstCategory v) v.
Proof.
  intros Hv. unfold encodeFirstCategory, decodeCompactInteger. rewrite shiftl_2.
  apply codes_cons; [lia|]. rewrite land_3, shiftr_2.
  replace ((4 * v) mod 4) with 0 by div_mod_lia. replace (4 * v / 4) with v by div_mod_lia.
  apply codes_ret.
Qed.

Lemma codes_second_category v :
  64 <= v < 16384 -> codes decodeCompactInteger (encodeSecondCategory v) v.
Proof.
  intros Hv. unfold encodeSecondCategory, decodeCompactInteger.
  rewrite shiftl_2, !land_255, shiftr_8, (Z.mod_small (4 * v + 1)) by lia.
  apply codes_cons; [by apply Z.mod_pos_bound|]. rewrite land_3.
  replace (((4 * v + 1) mod 256) mod 4) with 1 by div_mod_lia.
  apply codes_cons; [by apply Z.mod_pos_bound|].
  rewrite land_252, shiftr_2 by (by apply Z.mod_pos_bound).
  rewrite (u64_id (_ * 256)) by (unfold is_u64; div_mod_lia).
  rewrite u64_id by (unfold is_u64; div_mod_lia).
  match goal with |- codes (mret ?x) _ _ => replace x with v by div_mod_lia end. apply codes_ret.
Qed.

Lemma codes_third_category v :
  16384 <= v < 1073741824 -> codes decodeCompactInteger (encodeThirdCategory v) v.
Proof.
  intros Hv. unfold encodeThirdCategory, encodeInteger, decodeCompactInteger, u32.
  rewrite shiftl_2, (Z.mod_small (4 * v)), (Z.mod_small (4 * v + 2)) by lia.
  cbn [le_bytes]. rewrite land_255. apply codes_cons; [by apply Z.mod_pos_bound|]. rewrite land_3.
  replace (((4 * v + 2) mod 256) mod 4) with 2 by div_mod_lia.
  change (byte (Z.land (Z.shiftr (4 * v + 2) 8) 255) :: _) with (le_bytes 3 (Z.shiftr (4 * v + 2) 8)).
  apply codes_more; [done|]. rewrite shiftr_8.
  pose proof (codes_sum_le 3 256 ((4 * v + 2) mod 256) ((4 * v + 2) / 256)) as H.
  change (256 ^ Z.of_nat 3) with 16777216 in H.
  apply (codes_map _ (fun n => Z.shiftr n 2)) in H. rewrite shiftr_2 in H.
  match goal with H : codes _ _ ?x |- _ => replace x with v in H by div_mod_lia end. exact H.
Qed.

Lemma codes_big v :
  kMinBigInteger <= v -> (countBytes v <= 67)%nat ->
  codes decodeCompactInteger (byte ((Z.of_nat (countBytes v) - 4) * 4 + 3) :: le_bytes (countBytes v) v) v.
Proof.
  change kMinBigInteger with (2 ^ 30). intros Hv Hn.
  destruct (countBytes_spec v ltac:(lia)) as [_ [_ Hlt]].
  assert (3 < countBytes v)%nat as H4.
  { apply Nat.lt_nge. rewrite countBytes_le by lia. change (256 ^ Z.of_nat 3) with (2 ^ 24). lia. }
  remember (countBytes v) as n eqn:En.
  unfold decodeCompactInteger. apply codes_cons; [lia|]. rewrite land_3, shiftr_2.
  replace (((Z.of_nat n - 4) * 4 + 3) mod 4) with 3 by div_mod_lia.
  replace (((Z.of_nat n - 4) * 4 + 3) / 4 + 4) with (Z.of_nat n) by div_mod_lia.
  rewrite Nat2Z.id. apply codes_more; [apply length_le_bytes|].
  pose proof (codes_sum_le n 1 0 v) as H. by rewrite Z.mul_1_l, Z.add_0_l, Z.mod_small in H by lia.
Qed.

Lemma codes_compact v :
  0 <= v < compact_max ->
  exists b, encodeCompactInteger v = Ok b /\ codes decodeCompactInteger b v.
Proof.
  intros Hv. unfold encodeCompactInteger. destruct (Z.ltb_spec v 0) as [|_]; [lia|].
  change kMinUint16 with 64. change kMinUint32 with 16384.
  destruct (Z.ltb_spec v 64).
  { eexists. split; [done|]. apply codes_first_category. lia. }
  destruct (Z.ltb_spec v 16384).
  { eexists. split; [done|]. apply codes_second_category. lia. }
  destruct (Z.ltb_spec v kMinBigInteger) as [H3|H3].
  { eexists. split; [done|]. by apply codes_third_category. }
  assert (countBytes v <= 67)%nat as Hn.
  { apply countBytes_le; [lia|]. rewrite pow_256. apply Hv. }
  rewrite bool_decide_eq_false_2 by lia. eauto using codes_big.
Qed.


(** ** Every type *)

Scheme ty_mind := Induction for ty Sort Prop
with alts_mind := Induction for alts Sort Prop.
Combined Scheme ty_alts_ind from ty_mind, alts_mind.

(** The types whose decoder inverts their encoder: every type but the arrays,
    with the integral types of the language and at most 256 alternatives in a
    variant. *)
Fixpoint ty_ok (t : ty) : bool :=
  match t with
  | TUnit | TBool | TCompact | TBlob _ => true
  | TInt _ size => int_size size
  | TOption t | TVector t | TPtr t => ty_ok t
  | TPair t u => ty_ok t && ty_ok u
  | TArray _ _ => false
  | TVariant a => bool_decide (types_count a <= 256)%nat && alts_ok a
  end
with alts_ok (a : alts) : bool :=
  match a with
  | One t => ty_ok t
  | More t a => ty_ok t && alts_ok a
  end.

Section round_trip.
Context (max_size : ty -> Z).

(** The values of a type that can be encoded and held in memory. *)
Fixpoint wf (t : ty) : value t -> Prop :=
  match t return value t -> Prop with
  | TUnit | TBool => fun _ => True
  | TInt signed size => int_range signed size
  | TCompact => fun v => 0 <= v < compact_max
  | TOption t => fun o => match o with Some v => wf t v | None => True end
  | TPair t u => fun p => wf t p.1 /\ wf u p.2
  | TVector t => fun l => Z.of_nat (length l) <= u64_max /\ Z.of_nat (length l) <= max_size t /\ Forall (wf t) l
  | TArray size t => fun l => length l = size /\ Forall (wf t) l
  | TBlob size => fun b => length b = size
  | TPtr t => fun p => match p with Some v => wf t v | None => False end
  | TVariant a => alts_wf a
  end
with alts_wf (a : alts) : alt_value a -> Prop :=
  match a return alt_value a -> Prop with
  | One t => wf t
  | More t a => fun v => match v with inl v => wf t v | inr v => alts_wf a v end
  end.

(** [v] is encoded into bytes that its decoder reads back. *)
Definition encodes {A} (enc : A -> outcome bytes) (dec : reader A) (v : A) : Prop :=
  exists b, enc v = Ok b /\ codes dec b v.

Lemma codes_decodeBool v : codes decodeBool (encodeBool v) v.
Proof. apply codes_cons; [by destruct v|]. destruct v; apply codes_ret. Qed.

Lemma codes_decodeOptionalBool v : codes decodeOptionalBool (encodeOptionalBool v) v.
Proof. apply codes_cons; [by destruct v as [[]|]|]. destruct v as [[]|]; apply codes_ret. Qed.

Lemma encodes_optional {A} enc dec (o : option A) :
  (forall v, o = Some v -> encodes enc dec v) -> encodes (encodeOptional enc) (decodeOptional dec) o.
Proof.
  intros H. destruct o as [v|]; simpl.
  - destruct (H v eq_refl) as (b & Hb & Hc). eexists. simpl. rewrite Hb. split; [done|].
    eapply (codes_bind _ _ [byte 1] b); [apply (codes_decodeBool true)|]. by apply codes_map.
  - eexists. split; [done|]. rewrite <-(app_nil_r [byte 0]).
    eapply codes_bind; [apply (codes_decodeBool false)|apply codes_ret].
Qed.

Lemma encodes_items {A} enc dec (l : list A) :
  Forall (encodes enc dec) l ->
  exists b, encodeItems enc l = Ok b /\ codes (decodeItems dec (length l)) b l.
Proof.
  induction 1 as [|v l (b & Hb & Hc) _ (b' & Hb' & Hc')]; simpl.
  - eexists. split; [done|apply codes_ret].
  - rewrite Hb. simpl. rewrite Hb'. eexists. split; [done|].
    eapply codes_bind; [done|]. by apply codes_map.
Qed.

Lemma encodeItems_app {A} enc (l k : list A) :
  Forall (fun v => exists b, enc v = Ok b) k ->
  exists b', encodeItems enc (l ++ k) = (b ← encodeItems enc l; mret (b ++ b')).
Proof.
  intros Hk. induction l as [|x l [b' IH]]; simpl.
  - assert (exists b, encodeItems enc k = Ok b) as [b Hb]; [|eauto].
    induction Hk as [|x k [a Ha] _ [b Hb]]; simpl; [eauto|]. rewrite Ha. simpl. rewrite Hb. eauto.
  - exists b'. rewrite IH. destruct (enc x); [|done]. simpl.
    destruct (encodeItems enc l); [|done]. simpl. by rewrite <-(assoc_L (++)).
Qed.

Lemma encodes_vector {A} t enc dec (l : list A) :
  Z.of_nat (length l) <= u64_max -> Z.of_nat (length l) <= max_size t -> Forall (encodes enc dec) l ->
  encodes (fun l => encodeCollection enc (Z.of_nat (length l)) l) (decodeVector max_size t dec) l.
Proof.
  intros Hu Hm Hl. unfold encodes, encodeCollection.
  destruct (codes_compact (Z.of_nat (length l))) as (a & -> & Ha).
  { split; [lia|]. eapply Z.le_lt_trans; [apply Hu|]. by vm_compute. }
  destruct (encodes_items _ _ _ Hl) as (b & Hb & Hc). simpl. rewrite Hb.
  eexists. split; [done|]. eapply codes_bind; [done|].
  destruct (Z.ltb_spec u64_max (Z.of_nat (length l))); [lia|].
  destruct (Z.ltb_spec (max_size t) (Z.of_nat (length l))); [lia|].
  by rewrite Nat2Z.id.
Qed.

Lemma codes_blob b : codes (decodeBlob (length b)) b b.
Proof.
  assert (codes (decodeItems nextByte (length b)) b (uchar <$> b)) as H.
  { induction b as [|c b IH]; [apply codes_ret|].
    eapply (codes_bind nextByte _ [c]); [apply codes_nextByte|]. by eapply (codes_map _ (cons _)). }
  apply (codes_map _ (fun l : list Z => byte <$> l)) in H. rewrite <-list_fmap_compose in H.
  rewrite (list_fmap_ext _ id) in H by (intros; apply byte_uchar). by rewrite list_fmap_id in H.
Qed.

(** The alternative with index [I + k] of a variant, [I] alternatives having
    been passed. *)
Definition encodes_alt (a : alts) (v : alt_value a) : Prop :=
  forall I, 0 <= I -> I + Z.of_nat (types_count a) <= 256 ->
  exists i b, I <= i < I + Z.of_nat (types_count a) /\
    tryEncodeAsOneOfVariant a I v = Ok (byte i :: b) /\
    codes (tryDecodeAsOneOfVariant max_size a I i) b v.

Lemma encodes_one t v : encodes (encode t) (decode max_size t) v -> encodes_alt (One t) v.
Proof.
  intros (b & Hb & Hc) I HI HI'. exists I, b. simpl. rewrite Hb, Z.eqb_refl. split_and!; [lia|lia|done..].
Qed.

Lemma encodes_more t a v :
  match v with
  | inl v => encodes (encode t) (decode max_size t) v
  | inr v => encodes_alt a v
  end -> encodes_alt (More t a) v.
Proof.
  destruct v as [v|v]; intros H I HI HI'; cbn [types_count] in *.
  - destruct H as (b & Hb & Hc). exists I, b. simpl. rewrite Hb, Z.eqb_refl.
    split_and!; [lia|lia|done|]. by apply codes_map.
  - destruct (H (I + 1)) as (i & b & Hi & He & Hc); [lia|lia|].
    exists i, b. simpl. rewrite He. split_and!; [lia|lia|done|].
    destruct (Z.eqb_spec I i); [lia|]. by apply codes_map.
Qed.

Lemma encodes_variant a v :
  (types_count a <= 256)%nat -> encodes_alt a v ->
  encodes (encode (TVariant a)) (decode max_size (TVariant a)) v.
Proof.
  intros Ha H. destruct (H 0) as (i & b & Hi & He & Hc); [lia|lia|].
  exists (byte i :: b). split; [done|]. apply codes_cons; [lia|].
  by destruct (Z.leb_spec (Z.of_nat (types_count a)) i); [lia|].
Qed.

(** The decoder of every type inverts its encoder. *)
Lemma encode_codes :
  (forall t v, ty_ok t = true -> wf t v -> encodes (encode t) (decode max_size t) v) /\
  (forall a v, alts_ok a = true -> alts_wf a v -> encodes_alt a v).
Proof.
  apply ty_alts_ind; simpl.
  - intros [] _ _. eexists. split; [done|apply codes_ret].
  - intros v _ _. eexists. split; [done|apply codes_decodeBool].
  - intros s n v Hn Hv. eexists. split; [done|]. by apply codes_decodeIntegral.
  - intros v _ Hv. by apply codes_compact.
  - intros t IH o Ht Ho.
    assert (forall v, o = Some v -> encodes (encode t) (decode max_size t) v) as H by (intros v ->; auto).
    destruct t; try by apply encodes_optional.
    eexists. split; [done|apply codes_decodeOptionalBool].
  - intros t IHt u IHu [v w] [Ht Hu]%andb_prop [Hv Hw].
    destruct (IHt v Ht Hv) as (a & Ha & Hca), (IHu w Hu Hw) as (b & Hb & Hcb). simpl in *.
    exists (a ++ b). simpl. rewrite Ha. simpl. rewrite Hb. split; [done|].
    eapply codes_bind; [done|]. by apply (codes_map _ (fun b => (v, b))).
  - intros t IH l Ht (Hu & Hm & Hl). apply encodes_vector; [done..|].
    eapply Forall_impl; [done|]. auto.
  - done.
  - intros n b _ <-. eexists. split; [done|apply codes_blob].
  - intros t IH [v|] Ht Hv; [|done]. destruct (IH v Ht Hv) as (b & Hb & Hc).
    exists b. split; [done|]. by apply codes_map.
  - intros a IH v [Hn%bool_decide_eq_true Ha]%andb_prop Hv. apply encodes_variant; auto.
  - intros t IH v Ht Hv. apply encodes_one. auto.
  - intros t IHt a IHa v [Ht Ha]%andb_prop Hv. apply encodes_more. destruct v; auto.
Qed.

(** C39. The SCALE decoder inverts the encoder: a value that fits its type is
    encoded without error, and decoding the bytes returns the value and leaves
    exactly what followed them.  The types are booleans, integers of 1, 2, 4 and
    8 bytes, compact integers, optionals (with the one-byte optional boolean),
    pairs and tuples, vectors and strings, blobs, pointers and variants with at
    most 256 alternatives, nested in any way.  [std::array] is not among them: it
    is not read back ([array_decodes_shifted]).  A value fits when it is not the
    least one of a signed type of 4 or 8 bytes, a compact integer is less than
    2^536, a vector is no longer than its type allows, and a pointer is not
    null. *)
Theorem scale_round_trip t v r :
  ty_ok t = true -> wf t v ->
  exists b, encode t v = Ok b /\ decode max_size t (b ++ r) = Ok (v, r) /\
    scale_decode max_size t b = Ok v.
Proof.
  intros Ht Hv. destruct (proj1 encode_codes t v Ht Hv) as (b & Hb & Hc & _).
  exists b. split_and!; [done..|]. unfold scale_decode.
  by rewrite <-(app_nil_r b), Hc.
Qed.

(** C40. Truncated input is rejected: decoding any proper prefix of the
    encoding of a value fails with [NOT_ENOUGH_DATA].  The types are those without
    [std::array] whose decoder inverts the encoder ([ty_ok]), and the value is one
    that fits its type ([wf]): not the least one of a signed type of 4 or 8 bytes,
    with pointers that are not null. *)
Theorem scale_truncated t v p q :
  ty_ok t = true -> wf t v -> encode t v = Ok (p ++ q) -> q <> [] ->
  scale_decode max_size t p = Err (decode_error NOT_ENOUGH_DATA).
Proof.
  intros Ht Hv He Hq. destruct (proj1 encode_codes t v Ht Hv) as (b & Hb & _ & Hc).
  rewrite He in Hb. injection Hb as <-. unfold scale_decode. by erewrite Hc.
Qed.

(** Encodings of a type are prefix free: a byte sequence starts with the
    encoding of at most one value. *)
Theorem scale_prefix_free t v w b b' r r' :
  ty_ok t = true -> wf t v -> wf t w -> encode t v = Ok b -> encode t w = Ok b' ->
  b ++ r = b' ++ r' -> v = w /\ r = r'.
Proof.
  intros Ht Hv Hw Hb Hb' He.
  destruct (proj1 encode_codes t v Ht Hv) as (c & Hc & Hd & _).
  destruct (proj1 encode_codes t w Ht Hw) as (c' & Hc' & Hd' & _).
  assert (c = b) as -> by congruence. assert (c' = b') as -> by congruence.
  specialize (Hd r). rewrite He, Hd' in Hd. by simplify_eq.
Qed.

End round_trip.

(** A type with every combinator, for the witnesses: a vector of pairs of an
    optional boolean and a variant of a signed integer, a string and a pointer
    to a compact integer. *)
Definition demo_ty : ty :=
  TVector (TPair (TOption TBool)
    (TVariant (More (TInt true 4) (More (TVector (TInt false 1)) (One (TPtr TCompact)))))).

Definition demo_value : value demo_ty :=
  [(Some true, inl (-5)); (None, inr (inl [104; 105])); (Some false, inr (inr (Some (2 ^ 100))))].

Lemma demo_wf : wf (fun _ => u64_max) demo_ty demo_value.
Proof.
  cbn. split_and!; [by vm_compute..|]. unfold int_range, compact_max.
  repeat constructor; cbn; try done; try lia.
Qed.

Lemma scale_round_trip_witness :
  exists b, encode demo_ty demo_value = Ok b /\
    decode (fun _ => u64_max) demo_ty (b ++ str "rest") = Ok (demo_value, str "rest") /\
    scale_decode (fun _ => u64_max) demo_ty b = Ok demo_value.
Proof. apply (scale_round_trip (fun _ => u64_max)); [by vm_compute|exact demo_wf]. Defined.

Lemma scale_truncated_witness :
  scale_decode (fun _ => u64_max) demo_ty
    (take 12 (match encode demo_ty demo_value with Ok b => b | Err _ => [] end))
  = Err (decode_error NOT_ENOUGH_DATA).
Proof.
  apply (scale_truncated (fun _ => u64_max) demo_ty demo_value _
           (drop 12 (match encode demo_ty demo_value with Ok b => b | Err _ => [] end)));
    [by vm_compute|exact demo_wf|rewrite take_drop; by vm_compute|by vm_compute].
Defined.

(** ** Bounds and errors *)

(** A compact integer has an encoding exactly when it is between 0 and
    [2 ^ 536 - 1], of 1, 2 or 4 bytes below [2 ^ 6], [2 ^ 14] and [2 ^ 30] and
    of one byte more than its base-256 digits otherwise, at most 68; a
    negative one is refused with [NEGATIVE_COMPACT_INTEGER], a larger one with
    [COMPACT_INTEGER_TOO_BIG]. *)
Theorem compact_bounds v :
  match encodeCompactInteger v with
  | Ok b =>
      0 <= v < 2 ^ 536 /\ (length b <= 68)%nat /\
      length b = (if v <? 2 ^ 6 then 1%nat else if v <? 2 ^ 14 then 2%nat
                  else if v <? 2 ^ 30 then 4%nat else S (countBytes v))
  | Err e =>
      (v < 0 /\ e = encode_error NEGATIVE_COMPACT_INTEGER) \/
      (2 ^ 536 <= v /\ e = encode_error COMPACT_INTEGER_TOO_BIG)
  end.
Proof.
  unfold encodeCompactInteger. destruct (Z.ltb_spec v 0); [by left|].
  change kMinUint16 with (2 ^ 6). change kMinUint32 with (2 ^ 14). change kMinBigInteger with (2 ^ 30).
  assert (2 ^ 30 < 2 ^ 536) as H536 by by vm_compute.
  destruct (Z.ltb_spec v (2 ^ 6)); [split_and!; simpl; lia|].
  destruct (Z.ltb_spec v (2 ^ 14)); [split_and!; simpl; lia|].
  destruct (Z.ltb_spec v (2 ^ 30)); [split_and!; simpl; lia|].
  pose proof (countBytes_le v 67 ltac:(lia)) as Hle. rewrite pow_256 in Hle.
  change (8 * Z.of_nat 67) with 536 in Hle. case_bool_decide as Hn.
  - right. split; [|done]. lia.
  - simpl. rewrite length_le_bytes. split_and!; [lia..|done].
Qed.

(** The least value of a signed integer of 4 or 8 bytes is encoded, but
    negating it in [decodeInteger] overflows. *)
Theorem decode_least_overflows max_size size r :
  size = 4%nat \/ size = 8%nat ->
  exists b, encode (TInt true size) (- 2 ^ (8 * Z.of_nat size - 1)) = Ok b /\
    decode max_size (TInt true size) (b ++ r) = Err undefined_behaviour.
Proof. intros [-> | ->]; eexists; (split; [done|]); by vm_compute. Qed.

(** Decoding [n] bytes from the encodings of [n] bytes with one byte in front. *)
Lemma shifted_items c n (l : list Z) :
  length l = S n -> Forall (int_range false 1) l ->
  exists b, encodeItems (fun v => Ok (encodeInteger 1 v)) l = Ok b /\
    exists r, decodeItems (decodeIntegral false 1) (S n) (c :: b) = Ok (uchar c :: take n l, r).
Proof.
  intros Hl Hf. set (enc := fun v => Ok (encodeInteger 1 v)). set (dec := decodeIntegral false 1).
  assert (Forall (encodes enc dec) (take n l)) as He.
  { eapply Forall_impl; [by apply Forall_take|]. intros v Hv. eexists. split; [done|].
    by apply codes_decodeIntegral. }
  destruct (encodes_items _ _ _ He) as (b & Hb & [Hc _]). rewrite length_take_le in Hc by lia.
  destruct (encodeItems_app enc (take n l) (drop n l)) as [b' Hb'].
  { apply Forall_true. intros v. by eexists. }
  rewrite take_drop, Hb in Hb'. exists (b ++ b'). split; [done|]. exists b'.
  change (decodeItems dec (S n) (c :: b ++ b'))
    with (match decodeItems dec n (b ++ b') with Ok (k, r) => Ok (uchar c :: k, r) | Err e => Err e end).
  by rewrite Hc.
Qed.

(** An array is encoded with its length in front but decoded without it:
    an array of [n] bytes, [0 < n < 64], decodes to the length byte [4 * n]
    followed by its first [n - 1] elements. *)
Theorem array_decodes_shifted max_size n (l : list Z) :
  (0 < n < 64)%nat -> wf max_size (TArray n (TInt false 1)) l ->
  exists b, encode (TArray n (TInt false 1)) l = Ok b /\
    scale_decode max_size (TArray n (TInt false 1)) b = Ok (4 * Z.of_nat n :: take (n - 1) l).
Proof.
  intros Hn [Hl Hf]. destruct n as [|n]; [lia|].
  replace (S n - 1)%nat with n by lia.
  destruct (shifted_items (byte (4 * Z.of_nat (S n))) n l Hl Hf) as (b & Hb & r & Hr).
  rewrite uchar_byte, Z.mod_small in Hr by lia.
  exists (byte (4 * Z.of_nat (S n)) :: b). split.
  - change (encodeCollection (fun v => Ok (encodeInteger 1 v)) (Z.of_nat (S n)) l = Ok (byte (4 * Z.of_nat (S n)) :: b)).
    unfold encodeCollection, encodeCompactInteger. change kMinUint16 with 64.
    destruct (Z.ltb_spec (Z.of_nat (S n)) 0); [lia|].
    destruct (Z.ltb_spec (Z.of_nat (S n)) 64); [|lia].
    unfold encodeFirstCategory. rewrite shiftl_2, Hb. done.
  - unfold scale_decode. change (decode max_size _) with (decodeItems (decodeIntegral false 1) (S n)).
    by rewrite Hr.
Qed.

Lemma array_decodes_shifted_witness :
  exists b, encode (TArray 3 (TInt false 1)) [1; 2; 3] = Ok b /\
    scale_decode (fun _ => u64_max) (TArray 3 (TInt false 1)) b = Ok [12; 1; 2].
Proof.
  apply (array_decodes_shifted (fun _ => u64_max) 3 [1; 2; 3]); [lia|].
  split; [done|]. repeat constructor; done.
Defined.
