(* ===== verification/Trie.v ===== *)
(** * The Merkle trie in memory

    Models [src/src/storage/trie/supergenius_trie]: the nodes
    ([supergenius_node.hpp], [supergenius_node.cpp]) and the trie
    ([supergenius_trie_impl.hpp], [supergenius_trie_impl.cpp]), with
    [SuperGeniusCodec::keyToNibbles] and [nibblesToKey] of
    [src/src/storage/trie/serialization/supergenius_codec.cpp].

    Nodes are shared pointers that only the trie owns, so a node is a value and
    an operation that updates nodes in place returns the new node.  Children of
    a branch are fetched with a functor given at construction; [load] is what
    it makes of a child that is present.  The recursive operations descend by
    at least one nibble of the key at each step; they take the length of the
    key as fuel. *)

From S2P Require Import Prelude Scale.

(** ** Nodes *)

(** A nibble is a [uint8_t] below 16. *)
Abbreviation KeyNibbles := (list nat).

Definition kMaxChildren : nat := 16.

(** [LeafNode], [BranchNode] and [DummyNode]. *)
Inductive node : Type :=
  | Leaf (key_nibbles : KeyNibbles) (value : option bytes)
  | Branch (key_nibbles : KeyNibbles) (value : option bytes) (children : list (option node))
  | Dummy (db_key : bytes).

(** [SuperGeniusNode::Type]. *)
Inductive NodeType : Type := Special | TLeaf | BranchEmptyValue | BranchWithValue.

Definition getTrieType (n : node) : NodeType :=
  match n with
  | Leaf _ _ => TLeaf
  | Branch _ (Some _) _ => BranchWithValue
  | Branch _ None _ => BranchEmptyValue
  | Dummy _ => Special
  end.

Definition node_key (n : node) : KeyNibbles :=
  match n with Leaf k _ | Branch k _ _ => k | Dummy _ => [] end.

Definition node_value (n : node) : option bytes :=
  match n with Leaf _ v | Branch _ v _ => v | Dummy _ => None end.

Definition isDummy (n : node) : bool :=
  match n with Dummy _ => true | _ => false end.

(** The assignment [node->key_nibbles = key]. *)
Definition set_key (n : node) (key : KeyNibbles) : node :=
  match n with
  | Leaf _ v => Leaf key v
  | Branch _ v ch => Branch key v ch
  | Dummy k => Dummy k
  end.

Definition no_children : list (option node) := replicate kMaxChildren None.

Definition childrenNum (ch : list (option node)) : nat := length (filter is_Some ch).

Fixpoint bitmap_from (i : Z) (ch : list (option node)) : Z :=
  match ch with
  | [] => 0
  | c :: ch =>
      let rest := bitmap_from (i + 1) ch in
      match c with Some _ => Z.lor rest (Z.shiftl 1 i) | None => rest end
  end.

Definition childrenBitmap (ch : list (option node)) : Z := bitmap_from 0 ch.

(** [children.at(idx) = c] throws [std::out_of_range] beyond the array. *)
Definition set_child (ch : list (option node)) (idx : nat) (c : option node) : outcome (list (option node)) :=
  if decide (idx < length ch) then Ok (<[idx := c]> ch) else Err undefined_behaviour.

(** ** Keys *)

Definition nibbles_of (c : ascii) : KeyNibbles :=
  [Z.to_nat (Z.shiftr (uchar c) 4); Z.to_nat (Z.land (uchar c) 15)].

Definition keyToNibbles (key : bytes) : KeyNibbles :=
  match key with
  | [] => []
  | [c] => if (uchar c =? 0)%Z then [0; 0] else nibbles_of c
  | _ => mjoin (nibbles_of <$> key)
  end.

Definition byteFromNibbles (high low : nat) : ascii :=
  byte (Z.lor (Z.shiftl (Z.of_nat high) 4) (Z.land (Z.of_nat low) 15)).

Fixpoint bytes_of_pairs (n : KeyNibbles) : bytes :=
  match n with
  | high :: low :: n => byteFromNibbles high low :: bytes_of_pairs n
  | _ => []
  end.

Definition nibblesToKey (n : KeyNibbles) : bytes :=
  if Nat.even (length n) then bytes_of_pairs n else
  match n with
  | first :: n => byte (Z.of_nat first) :: bytes_of_pairs n
  | [] => []
  end.

Fixpoint getCommonPrefixLength (pref1 pref2 : KeyNibbles) : nat :=
  match pref1, pref2 with
  | x :: pref1, y :: pref2 => if decide (x = y) then S (getCommonPrefixLength pref1 pref2) else 0
  | _, _ => 0
  end.

(** [key[index]]: reading past the end is not checked. *)
Definition nibble_at (key : KeyNibbles) (index : nat) : outcome nat :=
  ok_or undefined_behaviour (key !! index).

(** ** The operations *)

(** [defaultChildRetrieveFunctor] returns the child as it is. *)
Definition default_load (n : node) : outcome (option node) := Ok (Some n).

Section trie.
Context (load : node -> outcome (option node)).

Definition retrieveChild (ch : list (option node)) (idx : nat) : outcome (option node) :=
  match ch !! idx with
  | None => Err undefined_behaviour
  | Some None => Ok None
  | Some (Some c) => load c
  end.

(** [updateBranch] of the branch with fields [pk], [pv] and [ch]; [insert_in]
    is [insert]. *)
Definition updateBranch (insert_in : option node -> KeyNibbles -> node -> outcome node)
    (pk : KeyNibbles) (pv : option bytes) (ch : list (option node))
    (key_nibbles : KeyNibbles) (n : node) : outcome node :=
  let length' := getCommonPrefixLength key_nibbles pk in
  if decide (length' = length pk) then
    if decide (key_nibbles = pk) then Ok (Branch pk (node_value n) ch) else
    idx ← nibble_at key_nibbles length';
    child ← retrieveChild ch idx;
    match child with
    | Some c =>
        m ← insert_in (Some c) (drop (length' + 1) key_nibbles) n;
        ch' ← set_child ch idx (Some m);
        mret (Branch pk pv ch')
    | None =>
        ch' ← set_child ch idx (Some (set_key n (drop (length' + 1) key_nibbles)));
        mret (Branch pk pv ch')
    end
  else
    parentIdx ← nibble_at pk length';
    new_branch ← insert_in None (drop (length' + 1) pk) (Branch pk pv ch);
    br_ch ← set_child no_children parentIdx (Some new_branch);
    if decide (length key_nibbles <= length') then
      mret (Branch (take length' key_nibbles) (node_value n) br_ch)
    else
      new_child ← insert_in None (drop (length' + 1) key_nibbles) n;
      idx ← nibble_at key_nibbles length';
      br_ch' ← set_child br_ch idx (Some new_child);
      mret (Branch (take length' key_nibbles) None br_ch').

(** The case [T::Leaf] of [insert], for the leaf with fields [pk] and [pv]. *)
Definition insert_at_leaf (pk : KeyNibbles) (pv : option bytes)
    (key_nibbles : KeyNibbles) (n : node) : outcome node :=
  let length' := getCommonPrefixLength key_nibbles pk in
  if decide (pk = key_nibbles /\ length key_nibbles = length') then Ok (set_key n key_nibbles) else
  let br_key := take length' key_nibbles in
  if decide (length key_nibbles = length') then
    if decide (length key_nibbles < length pk) then
      idx ← nibble_at pk length';
      ch ← set_child no_children idx (Some (Leaf (drop (length' + 1) pk) pv));
      mret (Branch br_key (node_value n) ch)
    else mret (Branch br_key (node_value n) no_children)
  else
  let n' := set_key n (drop (length' + 1) key_nibbles) in
  if decide (length' = length pk) then
    idx ← nibble_at key_nibbles length';
    ch ← set_child no_children idx (Some n');
    mret (Branch br_key pv ch)
  else
    parentIdx ← nibble_at pk length';
    ch ← set_child no_children parentIdx (Some (Leaf (drop (length' + 1) pk) pv));
    idx ← nibble_at key_nibbles length';
    ch' ← set_child ch idx (Some n');
    mret (Branch br_key None ch').

Fixpoint insert (fuel : nat) (parent : option node) (key_nibbles : KeyNibbles) (n : node) : outcome node :=
  match parent with
  | None => Ok (set_key n key_nibbles)
  | Some p =>
      match fuel with
      | O => Err out_of_fuel
      | S fuel =>
          match p with
          | Branch pk pv ch => updateBranch (insert fuel) pk pv ch key_nibbles n
          | Leaf pk pv => insert_at_leaf pk pv key_nibbles n
          | Dummy _ => Err trie_invalid_node_type
          end
      end
  end.

Fixpoint getNode (fuel : nat) (parent : option node) (key_nibbles : KeyNibbles) : outcome (option node) :=
  match parent with
  | None => Ok None
  | Some p =>
      match fuel with
      | O => Err out_of_fuel
      | S fuel =>
          match p with
          | Branch pk pv ch =>
              let length' := getCommonPrefixLength pk key_nibbles in
              if decide (pk = key_nibbles \/ key_nibbles = []) then Ok (Some p) else
              if decide (take length' pk = key_nibbles /\ length key_nibbles < length pk) then Ok None else
              idx ← nibble_at key_nibbles length';
              n ← retrieveChild ch idx;
              getNode fuel n (drop (length' + 1) key_nibbles)
          | Leaf pk _ => if decide (pk = key_nibbles) then Ok (Some p) else Ok None
          | Dummy _ => Err trie_invalid_node_type
          end
      end
  end.

(** A branch of the path and the index of the child the path goes on with. *)
Fixpoint getPath (fuel : nat) (parent : option node) (key_nibbles : KeyNibbles) : outcome (list (node * nat)) :=
  match parent with
  | None => Err trie_no_value
  | Some p =>
      match fuel with
      | O => Err out_of_fuel
      | S fuel =>
          match p with
          | Branch pk pv ch =>
              let length' := getCommonPrefixLength pk key_nibbles in
              if decide (pk = key_nibbles \/ key_nibbles = []) then Ok [] else
              if decide (take length' pk = key_nibbles /\ length key_nibbles < length pk) then Ok [] else
              idx ← nibble_at key_nibbles length';
              n ← retrieveChild ch idx;
              path ← getPath fuel n (drop (length' + 1) key_nibbles);
              mret ((p, idx) :: path)
          | Leaf pk _ => if decide (pk = key_nibbles) then Ok [] else Err trie_no_value
          | Dummy _ => Err trie_invalid_node_type
          end
      end
  end.

(** The loop of [handleDeletion]: shifts the bitmap until it is empty. *)
Fixpoint last_bit (fuel idx : nat) (bitmap : Z) : nat :=
  match fuel with
  | O => idx
  | S fuel =>
      let bitmap := Z.shiftr bitmap 1 in
      if (bitmap =? 0)%Z then idx else last_bit fuel (S idx) bitmap
  end.

(** [handleDeletion] of the branch with fields [pk], [pv] and [ch], which is
    also the node it is called with. *)
Definition handleDeletion (pk : KeyNibbles) (pv : option bytes) (ch : list (option node))
    (key_nibbles : KeyNibbles) : outcome node :=
  let length' := getCommonPrefixLength key_nibbles pk in
  let bitmap := childrenBitmap ch in
  if (bitmap =? 0)%Z && bool_decide (is_Some pv) then Ok (Leaf (take length' key_nibbles) pv) else
  if bool_decide (childrenNum ch = 1) && negb (bool_decide (is_Some pv)) then
    let idx := last_bit 16 0 bitmap in
    child ← retrieveChild ch idx;
    match child with
    | None => Err undefined_behaviour
    | Some (Leaf ck cv) => Ok (Leaf (pk ++ idx :: ck) cv)
    | Some (Branch ck cv cch) => Ok (Branch (pk ++ idx :: ck) cv cch)
    | Some (Dummy _) => Ok (Branch pk pv ch)
    end
  else Ok (Branch pk pv ch).

Fixpoint deleteNode (fuel : nat) (parent : option node) (key_nibbles : KeyNibbles) : outcome (option node) :=
  match parent with
  | None => Ok None
  | Some p =>
      match fuel with
      | O => Err out_of_fuel
      | S fuel =>
          match p with
          | Branch pk pv ch =>
              let length' := getCommonPrefixLength pk key_nibbles in
              if decide (pk = key_nibbles \/ key_nibbles = []) then
                n ← handleDeletion pk None ch key_nibbles; mret (Some n)
              else
                idx ← nibble_at key_nibbles length';
                child ← retrieveChild ch idx;
                n ← deleteNode fuel child (drop (length' + 1) key_nibbles);
                ch' ← set_child ch idx n;
                m ← handleDeletion pk pv ch' key_nibbles;
                mret (Some m)
          | Leaf pk _ => if decide (pk = key_nibbles \/ key_nibbles = []) then Ok None else Ok (Some p)
          | Dummy _ => Err trie_invalid_node_type
          end
      end
  end.

Fixpoint detachNode (fuel : nat) (parent : option node) (prefix_nibbles : KeyNibbles) : outcome (option node) :=
  match parent with
  | None => Ok None
  | Some p =>
      match fuel with
      | O => Err out_of_fuel
      | S fuel =>
          if decide (length prefix_nibbles <= length (node_key p)) then
            if decide (take (length prefix_nibbles) (node_key p) = prefix_nibbles) then Ok None
            else Ok (Some p)
          else
          if decide (take (length (node_key p)) prefix_nibbles <> node_key p) then Ok (Some p) else
          match p with
          | Branch pk pv ch =>
              let length' := getCommonPrefixLength pk prefix_nibbles in
              idx ← nibble_at prefix_nibbles length';
              child ← retrieveChild ch idx;
              match child with
              | None => Ok (Some p)
              | Some _ =>
                  n ← detachNode fuel child (drop (length' + 1) prefix_nibbles);
                  ch' ← set_child ch idx n;
                  mret (Some (Branch pk pv ch'))
              end
          | _ => Ok (Some p)
          end
      end
  end.

(** The fuel of an operation on [key_nibbles]. *)
Definition trie_fuel (key_nibbles : KeyNibbles) : nat := S (length key_nibbles).

(** *** The interface

    The trie is its [root_]. *)

Definition put (root : option node) (key value : bytes) : outcome (option node) :=
  let k_enc := keyToNibbles key in
  n ← insert (trie_fuel k_enc) root k_enc (Leaf k_enc (Some value));
  mret (Some n).

Definition clearPrefix (root : option node) (prefix : bytes) : outcome (option node) :=
  let key_nibbles := keyToNibbles prefix in
  detachNode (trie_fuel key_nibbles) root key_nibbles.

Definition get (root : option node) (key : bytes) : outcome bytes :=
  let nibbles := keyToNibbles key in
  n ← getNode (trie_fuel nibbles) root nibbles;
  match n ≫= node_value with
  | Some v => Ok v
  | None => Err trie_no_value
  end.

Definition contains (root : option node) (key : bytes) : bool :=
  let nibbles := keyToNibbles key in
  match getNode (trie_fuel nibbles) root nibbles with
  | Ok n => bool_decide (is_Some (n ≫= node_value))
  | Err _ => false
  end.

Definition empty (root : option node) : bool := negb (bool_decide (is_Some root)).

Definition remove (root : option node) (key : bytes) : outcome (option node) :=
  let key_nibbles := keyToNibbles key in
  deleteNode (trie_fuel key_nibbles) root key_nibbles.

End trie.
