(* ===== verification/TrieLemmas.v ===== *)
(** * The Merkle trie: reference lookup and invariant

    The reference is [find], which follows a key nibble by nibble.  The file
    holds the lemmas on it that the correctness of the operations is proved
    from: [insert] changes the lookup of one key ([insert_find]) and
    [handleDeletion] keeps every lookup ([handleDeletion_find]); the invariant
    [inv] of the nodes, in the variants [any_branch] (the shape) and
    [canonical]. *)

From S2P Require Import Prelude Scale Trie.

(** ** Lists of nibbles *)

(** [k] without the prefix [p]. *)
Fixpoint strip (p k : KeyNibbles) : option KeyNibbles :=
  match p, k with
  | [], _ => Some k
  | x :: p, y :: k => if decide (x = y) then strip p k else None
  | _ :: _, [] => None
  end.

Lemma strip_Some p k s : strip p k = Some s <-> k = p ++ s.
Proof.
  revert k. induction p as [|x p IH]; intros [|y k]; simpl; [naive_solver..|].
  case_decide; [subst; rewrite IH|]; naive_solver.
Qed.

Lemma strip_None p k : strip p k = None <-> ~ p `prefix_of` k.
Proof.
  destruct (strip p k) as [s|] eqn:E.
  - apply strip_Some in E as ->. split; [done|]. intros []. by apply prefix_app_r.
  - split; [|done]. intros _ [s ->]. rewrite (proj2 (strip_Some p _ s) eq_refl) in E. done.
Qed.

Lemma strip_app_eq p s : strip p (p ++ s) = Some s.
Proof. by apply strip_Some. Qed.

Lemma strip_self p : strip p p = Some [].
Proof. apply strip_Some. by rewrite app_nil_r. Qed.

Lemma strip_app p q k : strip (p ++ q) k = strip p k ≫= strip q.
Proof.
  revert k. induction p as [|x p IH]; intros [|y k]; simpl; try done. by case_decide.
Qed.

(** Splits two keys after their common prefix. *)
Definition heads_differ (a b : KeyNibbles) : Prop :=
  match a, b with x :: _, y :: _ => x <> y | _, _ => True end.

Lemma common_prefix a b :
  exists c a' b', a = c ++ a' /\ b = c ++ b' /\ getCommonPrefixLength a b = length c /\ heads_differ a' b'.
Proof.
  revert b. induction a as [|x a IH]; intros [|y b]; simpl.
  1-3: by eexists [], _, _.
  case_decide as Hxy.
  - subst y. destruct (IH b) as (c & a' & b' & -> & -> & -> & H). by exists (x :: c), a', b'.
  - by eexists [], _, _.
Qed.

Lemma getCommonPrefixLength_app c s : getCommonPrefixLength c (c ++ s) = length c.
Proof. induction c as [|x c IH]; simpl; [by destruct s|]. by rewrite decide_True, IH. Qed.

Lemma getCommonPrefixLength_comm a b : getCommonPrefixLength a b = getCommonPrefixLength b a.
Proof.
  revert b. induction a as [|x a IH]; intros [|y b]; simpl; try done.
  repeat case_decide; subst; try done. by rewrite IH.
Qed.

Lemma drop_app_S {A} (c a : list A) : drop (length c + 1) (c ++ a) = tail a.
Proof. rewrite <-drop_drop, drop_app_length. by destruct a. Qed.

Lemma nibble_at_app c a :
  nibble_at (c ++ a) (length c) = match a with i :: _ => Ok i | [] => Err undefined_behaviour end.
Proof. unfold nibble_at. rewrite lookup_app_r by lia. rewrite Nat.sub_diag. by destruct a. Qed.

(** Takes apart a successful computation. *)
Ltac inv_ok H :=
  let a := fresh "a" in let Ha := fresh "Ha" in
  apply outcome_bind_ok in H as (a & Ha & H).

Lemma set_child_ok ch i c ch' : set_child ch i c = Ok ch' -> i < length ch /\ ch' = <[i := c]> ch.
Proof. unfold set_child. case_decide; naive_solver. Qed.

(** ** Children *)

Definition one (c : option node) : nat := if decide (is_Some c) then 1 else 0.

Lemma childrenNum_cons c ch : childrenNum (c :: ch) = one c + childrenNum ch.
Proof. unfold childrenNum, one. rewrite filter_cons. by case_decide. Qed.

Lemma childrenNum_app ch ch' : childrenNum (ch ++ ch') = childrenNum ch + childrenNum ch'.
Proof. unfold childrenNum. by rewrite filter_app, length_app. Qed.

Lemma childrenNum_none n : childrenNum (replicate n None) = 0.
Proof. induction n as [|n IH]; [done|]. simpl replicate. by rewrite childrenNum_cons, IH. Qed.

Lemma childrenNum_insert ch i c x :
  ch !! i = Some x -> childrenNum (<[i := c]> ch) + one x = childrenNum ch + one c.
Proof.
  intros H. rewrite insert_take_drop by (by eapply lookup_lt_Some).
  rewrite <-(take_drop_middle ch i x H) at 3.
  rewrite !childrenNum_app, !childrenNum_cons. lia.
Qed.

Lemma childrenNum_zero ch : childrenNum ch = 0 <-> ch = replicate (length ch) None.
Proof.
  induction ch as [|c ch IH]; [done|]. rewrite childrenNum_cons. simpl. split.
  - intros H. destruct c as [c|]; [done|]. f_equal. apply IH. done.
  - intros [= -> H]. apply IH in H. by rewrite H.
Qed.

Lemma childrenNum_one ch :
  childrenNum ch = 1 ->
  exists i c j, ch = replicate i None ++ Some c :: replicate j None.
Proof.
  induction ch as [|c ch IH]; [done|]. rewrite childrenNum_cons. intros H. destruct c as [c|].
  - exists 0, c, (length ch). simpl. f_equal. apply childrenNum_zero. by injection H.
  - destruct (IH H) as (i & d & j & ->). by exists (S i), d, j.
Qed.

Lemma bitmap_from_zero i ch : (0 <= i)%Z -> bitmap_from i ch = 0%Z <-> childrenNum ch = 0.
Proof.
  revert i. induction ch as [|c ch IH]; intros i Hi; [done|].
  rewrite childrenNum_cons. simpl. destruct c as [c|].
  - rewrite Z.lor_eq_0_iff, Z.shiftl_mul_pow2 by done. split; [|done].
    intros [_ H]. pose proof (Z.pow_pos_nonneg 2 i). lia.
  - apply IH. lia.
Qed.

Lemma childrenBitmap_zero ch : childrenBitmap ch = 0%Z <-> childrenNum ch = 0.
Proof. by apply bitmap_from_zero. Qed.

Lemma last_bit_one i c j :
  i + S j = 16 -> last_bit 16 0 (childrenBitmap (replicate i None ++ Some c :: replicate j None)) = i.
Proof.
  intros H. assert (j = 15 - i) as -> by lia.
  do 16 (destruct i as [|i]; [vm_compute; reflexivity|]). lia.
Qed.

(** The only child of a branch, which the loop of [handleDeletion] finds. *)
Lemma only_child ch :
  length ch = 16 -> childrenNum ch = 1 ->
  exists i c, last_bit 16 0 (childrenBitmap ch) = i /\ ch !! i = Some (Some c) /\
    forall j, j <> i -> ch !! j = None \/ ch !! j = Some None.
Proof.
  intros Hl H1. destruct (childrenNum_one ch H1) as (i & c & j & ->).
  rewrite length_app in Hl. simpl in Hl. rewrite !length_replicate in Hl.
  exists i, c. split_and!.
  - by apply last_bit_one.
  - rewrite lookup_app_r, length_replicate by (rewrite length_replicate; lia). by rewrite Nat.sub_diag.
  - intros x Hx. destruct (decide (x < i)).
    + right. rewrite lookup_app_l by (by rewrite length_replicate). by apply lookup_replicate_2.
    + rewrite lookup_app_r, length_replicate by (rewrite length_replicate; lia).
      destruct (x - i) as [|y] eqn:E; [lia|]. simpl. destruct (decide (y < j)).
      * right. by apply lookup_replicate_2.
      * left. apply lookup_ge_None. rewrite length_replicate. lia.
Qed.

(** ** The canonical form *)

Definition has (v : option bytes) : nat := match v with Some _ => 1 | None => 0 end.

(** What [insert] and [deleteNode] need of [P]. *)
Class BranchInv (P : option bytes -> list (option node) -> Prop) : Prop := {
  P_value pv ch v : P pv ch -> P (Some v) ch;
  P_child pv ch i c : P pv ch -> length ch = 16 -> i < 16 -> P pv (<[i := Some c]> ch);
  P_one v i c : i < 16 -> P (Some v) (<[i := Some c]> no_children);
  P_two i j c d : i < 16 -> j < 16 -> i <> j -> P None (<[j := Some d]> (<[i := Some c]> no_children));
  P_removed pv ch i : P pv ch -> length ch = 16 -> i < 16 ->
    childrenNum (<[i := None]> ch) + has pv <> 1 -> P pv (<[i := None]> ch);
  P_no_value pv ch : P pv ch -> childrenNum ch <> 1 -> P None ch
}.

(** The shape alone, and the canonical form: a branch without value has two
    children, one with a value has a child. *)
Definition any_branch (v : option bytes) (ch : list (option node)) : Prop := True.
Definition canonical (v : option bytes) (ch : list (option node)) : Prop :=
  2 <= childrenNum ch + has v.

#[export] Instance any_branch_inv : BranchInv any_branch.
Proof. done. Qed.

Lemma childrenNum_insert_Some ch i c :
  i < length ch -> childrenNum ch <= childrenNum (<[i := Some c]> ch) /\ 1 <= childrenNum (<[i := Some c]> ch).
Proof.
  intros [x Hx]%lookup_lt_is_Some. pose proof (childrenNum_insert ch i (Some c) x Hx) as H.
  destruct x as [x|]; unfold one in H; simpl in H; [|lia].
  assert (childrenNum ch <> 0); [|lia]. intros E%childrenNum_zero. rewrite E in Hx.
  by apply lookup_replicate in Hx as [].
Qed.

#[export] Instance canonical_inv : BranchInv canonical.
Proof.
  split; unfold canonical; simpl.
  - intros [] ch v; simpl; lia.
  - intros pv ch i c H Hl Hi. pose proof (childrenNum_insert_Some ch i c ltac:(lia)). lia.
  - intros v i c Hi. pose proof (childrenNum_insert_Some no_children i c Hi). lia.
  - intros i j c d Hi Hj Hij.
    pose proof (childrenNum_insert (<[i := Some c]> no_children) j (Some d) None) as H.
    rewrite list_lookup_insert_ne in H by done. specialize (H ltac:(by apply lookup_replicate_2)).
    pose proof (childrenNum_insert_Some no_children i c Hi). unfold one in H. simpl in H. lia.
  - intros pv ch i H Hl Hi Hne. assert (is_Some (ch !! i)) as [x Hx] by (apply lookup_lt_is_Some; lia).
    pose proof (childrenNum_insert ch i None x Hx) as E. unfold one in E. simpl in E.
    destruct x; simpl in E; lia.
  - intros [] ch; simpl; lia.
Qed.

(** ** The reference lookup *)

(** What the theorems need of the functor that fetches children: a node that
    is in memory is returned as it is. *)
Class Loader (load : node -> outcome (option node)) : Prop :=
  load_node n : isDummy n = false -> load n = Ok (Some n).

#[export] Instance default_Loader : Loader default_load.
Proof. done. Qed.

Section lookup.
Context (load : node -> outcome (option node)).

Definition child_at (ch : list (option node)) (i : nat) : option node :=
  match retrieveChild load ch i with Ok c => c | Err _ => None end.

Definition node_children (n : node) : list (option node) :=
  match n with Branch _ _ ch => ch | _ => [] end.

(** [walk n p k] looks [k] up below [n], of whose partial key [p] is left. *)
Fixpoint walk (n : node) (p k : KeyNibbles) {struct k} : option bytes :=
  match k, p with
  | [], [] => node_value n
  | [], _ :: _ => None
  | i :: k, x :: p => if decide (x = i) then walk n p k else None
  | i :: k, [] => c ← child_at (node_children n) i; walk c (node_key c) k
  end.

Definition find (n : node) (k : KeyNibbles) : option bytes := walk n (node_key n) k.

Definition find_root (root : option node) (k : KeyNibbles) : option bytes :=
  root ≫= fun n => find n k.

(** The lookup below a value and children, the partial key having been passed. *)
Definition below (v : option bytes) (ch : list (option node)) (s : KeyNibbles) : option bytes :=
  match s with
  | [] => v
  | i :: s => find_root (child_at ch i) s
  end.

Lemma walk_strip n p k : walk n p k = strip p k ≫= below (node_value n) (node_children n).
Proof.
  revert k. induction p as [|x p IH]; intros [|i k]; simpl; try done. by case_decide.
Qed.

Lemma find_Branch k v ch k' : find (Branch k v ch) k' = strip k k' ≫= below v ch.
Proof. apply walk_strip. Qed.

Lemma find_Leaf k v k' : find (Leaf k v) k' = if decide (k' = k) then v else None.
Proof.
  unfold find. rewrite walk_strip. simpl. destruct (strip k k') as [s|] eqn:E; simpl.
  - apply strip_Some in E as ->. destruct s as [|i s]; simpl.
    + by rewrite decide_True by (by rewrite app_nil_r).
    + rewrite decide_False; [done|]. intros H%(f_equal length). rewrite length_app in H. simpl in H. lia.
  - rewrite decide_False; [done|]. intros ->. rewrite <-(app_nil_r k) in E at 2.
    by rewrite strip_app_eq in E.
Qed.

(** Two nodes below the same partial key, of which one has a key more. *)
Lemma find_split c a b v (f g : KeyNibbles -> option bytes) k' :
  (forall s, g s = if decide (s = a) then v else strip b s ≫= f) ->
  strip c k' ≫= g = if decide (k' = c ++ a) then v else strip (c ++ b) k' ≫= f.
Proof.
  intros H. rewrite strip_app. destruct (strip c k') as [s|] eqn:E; simpl.
  - apply strip_Some in E as ->. rewrite H.
    by destruct (decide (s = a)) as [->|]; [rewrite decide_True|rewrite decide_False by naive_solver].
  - rewrite decide_False; [done|]. intros ->. by rewrite strip_app_eq in E.
Qed.

Lemma find_update c a v (f g : KeyNibbles -> option bytes) k' :
  (forall s, g s = if decide (s = a) then v else f s) ->
  strip c k' ≫= g = if decide (k' = c ++ a) then v else strip c k' ≫= f.
Proof.
  intros H. pose proof (find_split c a [] v f g k' H) as E. by rewrite app_nil_r in E.
Qed.

Context {HL : Loader load}.

Lemma child_at_insert ch i j c :
  i < length ch -> (forall n, c = Some n -> isDummy n = false) ->
  child_at (<[i := c]> ch) j = if decide (i = j) then c else child_at ch j.
Proof using HL.
  intros Hi Hc. unfold child_at, retrieveChild. case_decide as Hij.
  - subst j. rewrite list_lookup_insert_eq by done. destruct c as [n|]; [|done].
    by rewrite load_node by auto.
  - by rewrite list_lookup_insert_ne.
Qed.

Lemma child_at_none j : child_at no_children j = None.
Proof.
  unfold child_at, retrieveChild, no_children. destruct (_ !! j) as [c|] eqn:E; [|done].
  apply lookup_replicate in E as [-> _]. done.
Qed.

Lemma below_insert v ch i c s :
  i < length ch -> (forall n, c = Some n -> isDummy n = false) ->
  below v (<[i := c]> ch) s =
    match s with
    | [] => v
    | j :: s => if decide (i = j) then find_root c s else find_root (child_at ch j) s
    end.
Proof using HL. intros Hi Hc. destruct s as [|j s]; [done|]. simpl. rewrite child_at_insert by done. by case_decide. Qed.

(** ** Insertion *)

Lemma length_no_children : length no_children = 16.
Proof. done. Qed.

Ltac split_keys a b c a' b' Hd :=
  let Hl := fresh in destruct (common_prefix a b) as (c & a' & b' & -> & -> & Hl & Hd); rewrite Hl in *; clear Hl.

(** A branch over one child, at [i]. *)
Lemma below_one v i c s :
  isDummy c = false -> i < 16 ->
  below v (<[i := Some c]> no_children) s =
    match s with
    | [] => v
    | j :: s => if decide (i = j) then find c s else None
    end.
Proof using HL.
  intros Hc Hi. rewrite below_insert by (done || naive_solver). destruct s as [|j s]; [done|].
  by rewrite child_at_none.
Qed.

(** A branch over two children. *)
Lemma below_two i c j d s :
  isDummy c = false -> isDummy d = false -> i < 16 -> j < 16 -> i <> j ->
  below None (<[j := Some d]> (<[i := Some c]> no_children)) s =
    match s with
    | [] => None
    | x :: s => if decide (j = x) then find d s else if decide (i = x) then find c s else None
    end.
Proof using HL.
  intros Hc Hd Hi Hj Hij. rewrite below_insert by (rewrite ?length_insert; naive_solver).
  destruct s as [|x s]; [done|]. case_decide; [done|].
  rewrite child_at_insert by (done || naive_solver). case_decide; [done|]. by rewrite child_at_none.
Qed.

Lemma strip_find_Leaf k v s : strip k s ≫= below v [] = if decide (s = k) then v else None.
Proof. rewrite <-find_Leaf. unfold find. by rewrite walk_strip. Qed.

Lemma insert_at_leaf_find pk pv key k0 v m k' :
  insert_at_leaf pk pv key (Leaf k0 v) = Ok m ->
  isDummy m = false /\ find m k' = if decide (k' = key) then v else find (Leaf pk pv) k'.
Proof using HL.
  unfold insert_at_leaf. split_keys key pk c a b Hd. simpl node_value. simpl set_key.
  replace (find (Leaf (c ++ b) pv) k') with (strip (c ++ b) k' ≫= below pv []).
  2:{ unfold find. by rewrite walk_strip. }
  rewrite take_app_length, !drop_app_S, !length_app. intros H. case_decide as H1.
  { simplify_eq. split; [done|]. rewrite find_Leaf. case_decide; [done|].
    destruct H1 as [-> _]. rewrite strip_find_Leaf. by rewrite decide_False. }
  case_decide as H2.
  { assert (a = []) as -> by (apply length_zero_iff_nil; lia). destruct b as [|i b].
    { naive_solver. }
    rewrite decide_True in H by (simpl; lia). rewrite nibble_at_app in H. simpl in H. inv_ok H.
    apply set_child_ok in Ha as [Hi ->]. injection H as <-. split; [done|].
    rewrite find_Branch. apply find_split. intros s. rewrite below_one by done.
    destruct s as [|j s]; [done|]. simpl. case_decide; [|done]. subst j.
    by rewrite find_Leaf, strip_find_Leaf. }
  destruct a as [|i a]; [simpl in H2; lia|]. case_decide as H3.
  { assert (b = []) as -> by (apply length_zero_iff_nil; lia).
    rewrite nibble_at_app in H. simpl in H. inv_ok H. apply set_child_ok in Ha as [Hi ->].
    injection H as <-. split; [done|]. rewrite find_Branch. apply find_split. intros s.
    rewrite below_one by done. destruct s as [|j s]; [done|]. simpl.
    rewrite find_Leaf. repeat case_decide; naive_solver. }
  destruct b as [|j b]; [simpl in H3; lia|]. rewrite !nibble_at_app in H. simpl in H.
  inv_ok H. apply set_child_ok in Ha as [Hj ->]. inv_ok H. apply set_child_ok in Ha as [Hi ->].
  rewrite length_insert in Hi. injection H as <-. split; [done|].
  rewrite find_Branch. apply find_split. intros s. rewrite below_two by (done || naive_solver).
  destruct s as [|x s]; [done|]. simpl. rewrite !find_Leaf.
  destruct (decide (j = x)) as [->|]; [rewrite strip_find_Leaf|]; repeat case_decide; naive_solver.
Qed.

Lemma find_set_key n k k' :
  isDummy n = false -> find (set_key n k) k' = strip k k' ≫= below (node_value n) (node_children n).
Proof. intros Hn. unfold find. rewrite walk_strip. by destruct n. Qed.

Lemma retrieveChild_at ch i c : retrieveChild load ch i = Ok c -> child_at ch i = c.
Proof. unfold child_at. by intros ->. Qed.

Lemma updateBranch_find ins pk pv ch key k0 v m k' :
  (forall n k, ins None k n = Ok (set_key n k)) ->
  (forall c k m k', ins (Some c) k (Leaf k0 v) = Ok m ->
    isDummy m = false /\ find m k' = if decide (k' = k) then v else find c k') ->
  updateBranch load ins pk pv ch key (Leaf k0 v) = Ok m ->
  isDummy m = false /\ find m k' = if decide (k' = key) then v else find (Branch pk pv ch) k'.
Proof using HL.
  intros Hnone Hins. unfold updateBranch. split_keys key pk c a b Hd. simpl node_value.
  rewrite take_app_length, !drop_app_S, !length_app, !Hnone, find_Branch. simpl set_key.
  intros H. case_decide as H1.
  - assert (b = []) as -> by (apply length_zero_iff_nil; lia). rewrite app_nil_r in *.
    case_decide as H2.
    { assert (a = []) as -> by (by apply (app_inv_head c); rewrite H2, app_nil_r).
      injection H as <-. split; [done|]. rewrite find_Branch. apply find_update. by intros [|j s]. }
    destruct a as [|i a]; [by rewrite app_nil_r in H2|]. rewrite nibble_at_app in H. simpl in H. inv_ok H.
    apply retrieveChild_at in Ha. destruct a0 as [d|].
    + inv_ok H. inv_ok H. apply set_child_ok in Ha1 as [Hi ->]. injection H as <-. split; [done|].
      rewrite find_Branch. apply find_update. intros s.
      rewrite below_insert by (done || naive_solver). destruct s as [|j s]; [done|]. simpl.
      case_decide as Hij; [subst j; rewrite Ha; simpl|rewrite decide_False by naive_solver; done].
      rewrite (proj2 (Hins _ _ _ s Ha0)). repeat case_decide; naive_solver.
    + inv_ok H. apply set_child_ok in Ha0 as [Hi ->]. injection H as <-. split; [done|].
      rewrite find_Branch. apply find_update. intros s.
      rewrite below_insert by (done || naive_solver). destruct s as [|j s]; [done|]. simpl.
      case_decide as Hij; [subst j; rewrite Ha; simpl|rewrite decide_False by naive_solver; done].
      rewrite find_Leaf. repeat case_decide; naive_solver.
  - destruct b as [|j b]; [simpl in H1; lia|]. rewrite !nibble_at_app in H. simpl in H. inv_ok H.
    apply set_child_ok in Ha as [Hj ->]. case_decide as H2.
    + assert (a = []) as -> by (apply length_zero_iff_nil; lia).
      injection H as <-. split; [done|]. rewrite find_Branch. apply find_split. intros s.
      rewrite below_one by done. destruct s as [|x s]; [done|]. simpl. case_decide; [|done].
      by rewrite find_Branch.
    + destruct a as [|i a]; [simpl in H2; lia|]. simpl in H. inv_ok H.
      apply set_child_ok in Ha as [Hi ->]. rewrite length_insert in Hi. injection H as <-. split; [done|].
      rewrite find_Branch. apply find_split. intros s. rewrite below_two by (done || naive_solver).
      destruct s as [|x s]; [done|]. simpl. rewrite find_Leaf, find_Branch.
      repeat case_decide; naive_solver.
Qed.

Lemma insert_find fuel parent key k0 v m k' :
  insert load fuel parent key (Leaf k0 v) = Ok m ->
  isDummy m = false /\ find m k' = if decide (k' = key) then v else find_root parent k'.
Proof using HL.
  revert parent key m k'. induction fuel as [|fuel IH]; intros [p|] key m k'; simpl; try done.
  1,3: by intros [= <-]; split; [done|]; rewrite find_Leaf.
  destruct p as [pk pv|pk pv ch|]; [by apply insert_at_leaf_find| |done].
  apply updateBranch_find; [by destruct fuel|]. intros c k. apply (IH (Some c)).
Qed.

(** ** Deletion *)

Lemma child_at_empty ch i : childrenNum ch = 0 -> child_at ch i = None.
Proof.
  intros ->%childrenNum_zero. unfold child_at, retrieveChild.
  destruct (_ !! i) as [c|] eqn:E; [|done]. by apply lookup_replicate in E as [-> _].
Qed.

Lemma below_only ch idx n s :
  (forall j, j <> idx -> ch !! j = None \/ ch !! j = Some None) -> child_at ch idx = Some n ->
  below None ch s = strip [idx] s ≫= find n.
Proof.
  intros Hone Hidx. destruct s as [|j s]; [done|]. simpl. case_decide as Hj.
  - subst j. simpl. by rewrite Hidx.
  - unfold child_at, retrieveChild. by destruct (Hone j) as [-> | ->].
Qed.

(** [handleDeletion] keeps the lookups of the branch. *)
Lemma handleDeletion_find pk pv ch s m k' :
  length ch = 16 -> handleDeletion load pk pv ch (pk ++ s) = Ok m ->
  isDummy m = false /\ find m k' = find (Branch pk pv ch) k'.
Proof.
  intros Hl. unfold handleDeletion. rewrite getCommonPrefixLength_comm, getCommonPrefixLength_app.
  rewrite take_app_length, find_Branch. destruct ((_ =? _)%Z && _) eqn:E0.
  { apply andb_prop in E0 as [E0%Z.eqb_eq%childrenBitmap_zero _]. intros [= <-]. split; [done|].
    rewrite find_Leaf, <-strip_find_Leaf. destruct (strip pk k') as [[|i t]|]; [done| |done].
    simpl. by rewrite child_at_empty. }
  clear E0. destruct (bool_decide (childrenNum ch = 1) && _) eqn:E1.
  2:{ intros [= <-]. split; [done|]. by rewrite find_Branch. }
  apply andb_prop in E1 as [E1%bool_decide_eq_true Hv%negb_true_iff%bool_decide_eq_false].
  destruct pv as [v|]; [by destruct Hv|].
  destruct (only_child ch Hl E1) as (idx & c & -> & Hc & Hone). intros H. inv_ok H.
  apply retrieveChild_at in Ha. destruct a as [n|]; [|done].
  assert (strip pk k' ≫= below None ch = strip (pk ++ [idx]) k' ≫= find n) as ->.
  { rewrite strip_app. destruct (strip pk k') as [t|]; [|done]. simpl. by apply below_only. }
  destruct n as [ck cv|ck cv cch|dk]; injection H as <-; split; try done.
  - rewrite find_Leaf, <-strip_find_Leaf, cons_middle, (assoc_L (++)), strip_app.
    destruct (strip _ k') as [t|]; [|done]. simpl. by rewrite find_Leaf, strip_find_Leaf.
  - rewrite find_Branch, cons_middle, (assoc_L (++)), (strip_app (pk ++ [idx])).
    destruct (strip _ k') as [t|]; [|done]. simpl. by rewrite find_Branch.
  - rewrite find_Branch, strip_app. destruct (strip pk k') as [t|]; [|done]. simpl.
    by rewrite (below_only _ idx (Dummy dk)).
Qed.

(** ** The invariant *)

Definition nibbles_ok (k : KeyNibbles) : Prop := Forall (fun x => x < 16) k.

(** [inv P d n]: [n] has depth at most [d], every branch has 16 children that
    can be fetched, and its value and children satisfy [P]. *)
Fixpoint inv (P : option bytes -> list (option node) -> Prop) (d : nat) (n : node) : Prop :=
  match d with
  | O => False
  | S d =>
      match n with
      | Leaf k v => nibbles_ok k /\ is_Some v
      | Branch k v ch =>
          nibbles_ok k /\ length ch = 16 /\ P v ch /\
          forall i c, ch !! i = Some (Some c) -> exists c', load c = Ok (Some c') /\ inv P d c'
      | Dummy _ => False
      end
  end.

Definition root_inv P (root : option node) : Prop :=
  match root with Some n => exists d, inv P d n | None => True end.

Lemma inv_mono P d d' n : inv P d n -> d <= d' -> inv P d' n.
Proof.
  revert d' n. induction d as [|d IH]; intros d' n H Hd; [done|].
  destruct d' as [|d']; [lia|]. destruct n as [k v|k v ch|]; [done| |done].
  destruct H as (Hk & Hl & HP & Hch). split_and!; [done..|].
  intros i c Hc. destruct (Hch i c Hc) as (c' & Hc' & Hi). exists c'. split; [done|].
  apply IH; [done|lia].
Qed.

Lemma inv_real P d n : inv P d n -> isDummy n = false.
Proof. destruct d, n; simpl; naive_solver. Qed.

Lemma inv_child P d k v ch i :
  inv P (S d) (Branch k v ch) -> i < 16 ->
  retrieveChild load ch i = Ok (child_at ch i) /\ forall c, child_at ch i = Some c -> inv P d c.
Proof.
  intros (_ & Hl & _ & Hch) Hi. unfold child_at, retrieveChild.
  destruct (ch !! i) as [[c|]|] eqn:E; [| |apply lookup_ge_None in E; lia].
  - destruct (Hch i c E) as (c' & -> & Hc'). naive_solver.
  - naive_solver.
Qed.

Lemma inv_set_child P d k v ch i c :
  inv P (S d) (Branch k v ch) -> i < 16 -> (forall n, c = Some n -> inv P d n) ->
  P v (<[i := c]> ch) -> inv P (S d) (Branch k v (<[i := c]> ch)).
Proof using HL.
  intros (Hk & Hl & _ & Hch) Hi Hc HP. split_and!; [done|by rewrite length_insert|done|].
  intros j n Hn. destruct (decide (i = j)) as [->|].
  - rewrite list_lookup_insert_eq in Hn by lia. injection Hn as ->. exists n.
    rewrite load_node by (eapply inv_real; eauto). eauto.
  - rewrite list_lookup_insert_ne in Hn by done. eauto.
Qed.


End lookup.
