(* ===== verification/TrieProps.v ===== *)
(** * Correctness of the Merkle trie

    Against the reference lookup [find]: [put] changes the lookup of one key;
    [get] agrees with [find] on the keys that are present and, when all keys
    have one length, on every key of that length; [remove] removes a key that
    is present; [clearPrefix] removes the keys with a prefix.  Every operation
    terminates, keeps the shape of the trie, and but for [clearPrefix] its
    canonical form, which determines the trie from its contents. *)

From S2P Require Import Prelude Scale Trie TrieLemmas.

(** ** Operations on nibbles *)

#[local] Arguments inv : simpl never.

Section operations.
Context (load : node -> outcome (option node)) {HL : Loader load}.
Context (P : option bytes -> list (option node) -> Prop) {HP : BranchInv P}.

Lemma set_child_eq ch i c : length ch = 16 -> i < 16 -> set_child ch i c = Ok (<[i := c]> ch).
Proof. intros Hl Hi. unfold set_child. by rewrite decide_True by lia. Qed.

Lemma nibbles_app a b : nibbles_ok (a ++ b) <-> nibbles_ok a /\ nibbles_ok b.
Proof. apply Forall_app. Qed.

Lemma nibbles_cons x a : nibbles_ok (x :: a) <-> x < 16 /\ nibbles_ok a.
Proof. unfold nibbles_ok. by rewrite Forall_cons. Qed.

Lemma inv_branch_one d k v i c :
  nibbles_ok k -> i < 16 -> inv load P d c -> inv load P (S d) (Branch k (Some v) (<[i := Some c]> no_children)).
Proof using HL HP.
  intros Hk Hi Hc. split_and!; [done|by rewrite length_insert|by apply P_one|].
  intros j n Hn. destruct (decide (i = j)) as [->|].
  - rewrite list_lookup_insert_eq in Hn by done. injection Hn as <-. exists c.
    by rewrite load_node by (by eapply inv_real).
  - rewrite list_lookup_insert_ne in Hn by done. by apply lookup_replicate in Hn as [].
Qed.

Lemma inv_branch_two d k i c j e :
  nibbles_ok k -> i < 16 -> j < 16 -> i <> j -> inv load P d c -> inv load P d e ->
  inv load P (S d) (Branch k None (<[j := Some e]> (<[i := Some c]> no_children))).
Proof using HL HP.
  intros Hk Hi Hj Hij Hc He. split_and!; [done|by rewrite !length_insert|by apply P_two|].
  intros x n Hn. destruct (decide (j = x)) as [->|].
  { rewrite list_lookup_insert_eq in Hn by (by rewrite length_insert). injection Hn as <-. exists e.
    by rewrite load_node by (by eapply inv_real). }
  rewrite list_lookup_insert_ne in Hn by done. destruct (decide (i = x)) as [->|].
  - rewrite list_lookup_insert_eq in Hn by done. injection Hn as <-. exists c.
    by rewrite load_node by (by eapply inv_real).
  - rewrite list_lookup_insert_ne in Hn by done. by apply lookup_replicate in Hn as [].
Qed.

(** [insert] succeeds and keeps the invariant. *)
Lemma insert_at_leaf_inv pk pv key k0 v :
  nibbles_ok key -> nibbles_ok pk ->
  exists m, insert_at_leaf pk (Some pv) key (Leaf k0 (Some v)) = Ok m /\ inv load P 2 m.
Proof using HL HP.
  unfold insert_at_leaf. destruct (common_prefix key pk) as (c & a & b & -> & -> & -> & Hd).
  rewrite !take_app_length, !drop_app_S, !length_app, !nibble_at_app. intros [Hc Ha]%nibbles_app [_ Hb]%nibbles_app.
  simpl. case_decide as H1. { eexists. split; [done|]. split; [by rewrite nibbles_app|done]. }
  case_decide as H2.
  { assert (a = []) as -> by (apply length_zero_iff_nil; lia).
    destruct b as [|j b]; [naive_solver|]. apply nibbles_cons in Hb as [Hj Hb].
    rewrite decide_True by (simpl; lia). simpl. rewrite set_child_eq by done.
    eexists. split; [done|]. by apply inv_branch_one. }
  destruct a as [|i a]; [simpl in H2; lia|]. apply nibbles_cons in Ha as [Hi Ha]. simpl. case_decide as H3.
  { rewrite set_child_eq by done. eexists. split; [done|]. by apply inv_branch_one. }
  destruct b as [|j b]; [simpl in H3; lia|]. apply nibbles_cons in Hb as [Hj Hb]. simpl in *.
  rewrite set_child_eq by done. simpl. rewrite set_child_eq by (done || by rewrite length_insert).
  eexists. split; [done|]. by apply inv_branch_two.
Qed.

Lemma updateBranch_inv ins d pk pv ch key k0 v :
  (forall n k, ins None k n = Ok (set_key n k)) ->
  (forall c k, inv load P d c -> nibbles_ok k -> length k < length key ->
    exists m, ins (Some c) k (Leaf k0 (Some v)) = Ok m /\ inv load P (S d) m) ->
  inv load P (S d) (Branch pk pv ch) -> nibbles_ok key ->
  exists m, updateBranch load ins pk pv ch key (Leaf k0 (Some v)) = Ok m /\ inv load P (S (S d)) m.
Proof using HL HP.
  intros Hnone Hins HB. unfold updateBranch.
  destruct (common_prefix key pk) as (c & a & b & -> & -> & -> & Hd).
  rewrite !take_app_length, !drop_app_S, !nibble_at_app, !Hnone. rewrite !length_app in *.
  intros [Hc Ha]%nibbles_app. pose proof HB as (Hk & Hl & HPb & Hch).
  apply nibbles_app in Hk as [_ Hb]. case_decide as H1.
  - assert (b = []) as -> by (apply length_zero_iff_nil; lia). rewrite app_nil_r in *.
    case_decide as H2.
    { eexists. split; [done|]. apply (inv_mono _ _ (S d)); [|lia].
      split_and!; [done|done|by eapply P_value|done]. }
    destruct a as [|i a]; [by rewrite app_nil_r in H2|]. apply nibbles_cons in Ha as [Hi Ha]. simpl.
    destruct (inv_child load P d _ _ _ _ HB Hi) as [-> Hx]. simpl.
    apply (inv_mono _ _ _ (S (S d))) in HB; [|lia].
    destruct (child_at load ch i) as [x|].
    + destruct (Hins x a) as (m & -> & Hm); [by apply Hx|done|simpl; lia|]. simpl.
      rewrite set_child_eq by done. eexists. split; [done|]. apply inv_set_child; [done..|naive_solver|].
      by apply P_child.
    + rewrite set_child_eq by done. eexists. split; [done|]. apply inv_set_child; [done..| |].
      * by intros n [= <-].
      * by apply P_child.
  - destruct b as [|j b]; [simpl in H1; lia|]. apply nibbles_cons in Hb as [Hj Hb]. simpl.
    rewrite set_child_eq by done. simpl.
    assert (inv load P (S d) (Branch b pv ch)) as HB' by done. case_decide as H2.
    + eexists. split; [done|]. by apply inv_branch_one.
    + destruct a as [|i a]; [simpl in H2; lia|]. apply nibbles_cons in Ha as [Hi Ha]. simpl.
      rewrite set_child_eq by (done || by rewrite length_insert). eexists. split; [done|].
      by apply inv_branch_two.
Qed.

Lemma insert_inv fuel d p key k0 v :
  inv load P d p -> nibbles_ok key -> length key < fuel ->
  exists m, insert load fuel (Some p) key (Leaf k0 (Some v)) = Ok m /\ inv load P (S d) m.
Proof using HL HP.
  revert d p key. induction fuel as [|fuel IH]; intros d p key Hp Hk Hf; [lia|].
  destruct d as [|d]; [done|]. destruct p as [pk pv|pk pv ch|]; [| |done]; simpl.
  - destruct Hp as [Hpk [pv' ->]]. destruct (insert_at_leaf_inv pk pv' key k0 v) as (m & -> & Hm); [done..|].
    exists m. split; [done|]. apply (inv_mono _ _ 2); [done|lia].
  - apply updateBranch_inv; [by destruct fuel| |done|done].
    intros c k Hc Hk' Hlen. apply IH; [done|done|lia].
Qed.

(** *** Lookup *)

Lemma find_Branch_child pk pv ch i s :
  find load (Branch pk pv ch) (pk ++ i :: s) = find_root load (child_at load ch i) s.
Proof. by rewrite find_Branch, strip_app_eq. Qed.

Lemma find_Branch_own pk pv ch : find load (Branch pk pv ch) pk = pv.
Proof. by rewrite find_Branch, strip_self. Qed.

(** [getNode] finds the keys that are present. *)
Lemma getNode_present fuel p key v :
  find load p key = Some v -> length key < fuel ->
  exists n, getNode load fuel (Some p) key = Ok (Some n) /\ node_value n = Some v.
Proof.
  revert p key. induction fuel as [|fuel IH]; intros p key Hf Hl; [lia|].
  destruct p as [pk pv|pk pv ch|k].
  - rewrite find_Leaf in Hf. simpl. case_decide; [|done]. subst. rewrite decide_True by done. eauto.
  - rewrite find_Branch in Hf. destruct (strip pk key) as [s|] eqn:E; [|done].
    apply strip_Some in E as ->. simpl in Hf. simpl getNode. destruct s as [|i s]; simpl in Hf.
    { rewrite decide_True by (rewrite app_nil_r; auto). eauto. }
    rewrite decide_False by (intros [H|H]; [apply (f_equal length) in H; rewrite length_app in H; simpl in H; lia|by destruct pk]).
    rewrite getCommonPrefixLength_app, take_ge by lia.
    rewrite decide_False by (rewrite length_app; simpl; lia).
    rewrite nibble_at_app, drop_app_S. simpl. unfold find_root, child_at in Hf.
    destruct (retrieveChild load ch i) as [[c|]|]; [|done..]. simpl.
    apply IH; [done|]. rewrite length_app in Hl. simpl in Hl. lia.
  - unfold find in Hf. rewrite walk_strip in Hf. simpl in Hf. destruct key; [done|].
    simpl in Hf. by unfold child_at, retrieveChild in Hf.
Qed.

(** On a trie in order [getNode] returns, for every key. *)
Lemma getNode_returns fuel d p key : inv load P d p -> nibbles_ok key -> length key < fuel ->
  exists r, getNode load fuel (Some p) key = Ok r.
Proof.
  revert d p key. induction fuel as [|fuel IH]; intros d p key Hp Hk Hf; [lia|]. destruct d as [|d]; [done|].
  destruct p as [pk pv|pk pv ch|]; [simpl; case_decide; eauto| |done]. simpl. destruct Hp as (_ & Hl & _ & Hch).
  case_decide as H1; [eauto|]. case_decide as H2; [eauto|].
  destruct (common_prefix pk key) as (c & a & b & -> & -> & Hlen & _). rewrite Hlen in *. rewrite take_app_length in H2.
  destruct b as [|i b].
  { exfalso. rewrite app_nil_r in *. destruct a as [|x a]; [apply H1; left; by rewrite app_nil_r|].
    apply H2. split; [done|]. rewrite length_app. simpl. lia. }
  rewrite nibble_at_app. simpl. apply nibbles_app in Hk as [_ [Hi Hk]%nibbles_cons]. unfold retrieveChild.
  destruct (lookup_lt_is_Some_2 ch i) as [x Hx]; [lia|]. rewrite Hx. destruct x as [x|]; simpl; [|by destruct fuel; eauto].
  destruct (Hch i x Hx) as (x' & -> & Hinv). rewrite drop_app_S. simpl. apply (IH d); [done|done|]. rewrite length_app in Hf. simpl in Hf. lia.
Qed.

(** When every key has length [len], [getNode] is right on every key that is
    at least as long. *)
Lemma getNode_long fuel d p key len :
  inv load P d p -> nibbles_ok key -> (forall k, find load p k <> None -> length k = len) ->
  len <= length key -> length key < fuel ->
  exists r, getNode load fuel (Some p) key = Ok r /\ r ≫= node_value = find load p key.
Proof.
  revert d p key len. induction fuel as [|fuel IH]; intros d p key len Hp Hk Hlen Hle Hf; [lia|].
  destruct d as [|d]; [done|]. destruct p as [pk pv|pk pv ch|k]; [| |done].
  - rewrite find_Leaf. simpl. repeat case_decide; subst; eauto; done.
  - simpl getNode. case_decide as H1.
    { eexists. split; [done|]. simpl. destruct (decide (pk = key)) as [<-|Hne].
      { by rewrite find_Branch_own. }
      destruct H1 as [| ->]; [done|]. simpl in Hle. rewrite find_Branch. destruct pk as [|x pk]; [done|].
      simpl. destruct pv as [v|]; [|done]. pose proof (Hlen (x :: pk)) as Hl.
      rewrite find_Branch_own in Hl. specialize (Hl ltac:(done)). simpl in Hl. lia. }
    destruct (common_prefix pk key) as (c & b & a & -> & -> & -> & Hd). rewrite take_app_length.
    destruct a as [|i a].
    { rewrite app_nil_r in *. destruct b as [|x b]; [by rewrite app_nil_r in H1; destruct H1; left|].
      rewrite decide_True by (rewrite length_app; simpl; split; [done|lia]). eexists. split; [done|].
      rewrite find_Branch. by rewrite (proj2 (strip_None _ _)) by (intros [? ?%(f_equal length)]; rewrite !length_app in *; simpl in *; lia). }
    rewrite decide_False by (intros [H%(f_equal length) _]; rewrite length_app in H; simpl in H; lia).
    rewrite nibble_at_app, drop_app_S. simpl. apply nibbles_app in Hk as [_ [Hi Ha]%nibbles_cons].
    destruct (inv_child load P d _ _ _ _ Hp Hi) as [-> Hx]. simpl.
    assert (find load (Branch (c ++ b) pv ch) (c ++ i :: a) =
      match b with [] => find_root load (child_at load ch i) a | _ => None end) as ->.
    { destruct b as [|x b]; [by rewrite app_nil_r, find_Branch_child|].
      rewrite find_Branch, strip_app, strip_app_eq. simpl. by rewrite decide_False. }
    destruct (child_at load ch i) as [x|] eqn:Ex; [|destruct fuel; simpl; exists None; by destruct b].
    destruct (IH d x a (len - length (c ++ b) - 1)) as (r & Hr & Hv); [by apply Hx|done| | | |].
    + intros k Hkk. specialize (Hlen ((c ++ b) ++ i :: k)). rewrite find_Branch_child, Ex in Hlen.
      specialize (Hlen Hkk). rewrite length_app in Hlen. simpl in Hlen. lia.
    + rewrite length_app in *. simpl in Hle. lia.
    + rewrite length_app in Hf. simpl in Hf. lia.
    + exists r. split; [done|]. rewrite Hv. destruct b as [|y b]; [done|].
      destruct (find load x a) eqn:Ea; [|done]. specialize (Hlen ((c ++ y :: b) ++ i :: a)).
      rewrite find_Branch_child, Ex in Hlen. simpl in Hlen. rewrite Ea in Hlen.
      specialize (Hlen ltac:(done)). rewrite !length_app in *. simpl in *. lia.
Qed.

(** *** Deletion *)

Definition children_ok (d : nat) (ch : list (option node)) : Prop :=
  forall i c, ch !! i = Some (Some c) -> exists c', load c = Ok (Some c') /\ inv load P d c'.

Lemma children_ok_set d ch i c :
  children_ok d ch -> length ch = 16 -> (forall n, c = Some n -> inv load P d n) ->
  children_ok d (<[i := c]> ch).
Proof using HL.
  intros Hch Hl Hc j n Hn. destruct (decide (i = j)) as [->|].
  - apply list_lookup_insert_Some in Hn as [(_ & -> & _)|]; [|naive_solver].
    exists n. rewrite load_node by (eapply inv_real; eauto). eauto.
  - rewrite list_lookup_insert_ne in Hn by done. eauto.
Qed.

Lemma handleDeletion_inv d pk pv ch s :
  nibbles_ok pk -> length ch = 16 -> children_ok d ch -> (childrenNum ch + has pv <> 1 -> P pv ch) ->
  exists m, handleDeletion load pk pv ch (pk ++ s) = Ok m /\ inv load P (S d) m.
Proof.
  intros Hk Hl Hch HPb. unfold handleDeletion.
  rewrite getCommonPrefixLength_comm, getCommonPrefixLength_app, take_app_length.
  destruct ((childrenBitmap ch =? 0)%Z && _) eqn:E0.
  { apply andb_prop in E0 as [_ E0%bool_decide_eq_true]. by eexists. }
  destruct (bool_decide (childrenNum ch = 1) && _) eqn:E1.
  - apply andb_prop in E1 as [E1%bool_decide_eq_true Hv%negb_true_iff%bool_decide_eq_false].
    destruct (only_child ch Hl E1) as (idx & c & -> & Hc & _).
    destruct (Hch idx c Hc) as (c' & Hload & Hinv). unfold retrieveChild. rewrite Hc, Hload. simpl.
    assert (idx < 16) as Hidx by (rewrite <-Hl; by eapply lookup_lt_Some).
    apply (inv_mono _ _ _ (S d)) in Hinv; [|lia].
    destruct c' as [ck cv|ck cv cch|]; [| |done]; eexists; (split; [done|]).
    + destruct Hinv. split; [|done]. rewrite nibbles_app, nibbles_cons. done.
    + destruct Hinv as (? & ? & ? & ?). split_and!; [|done..]. rewrite nibbles_app, nibbles_cons. done.
  - eexists. split; [done|]. split_and!; [done..| |done]. apply HPb. intros H.
    apply andb_false_iff in E0, E1. rewrite Z.eqb_neq, childrenBitmap_zero, bool_decide_eq_false in E0.
    rewrite negb_false_iff, bool_decide_eq_true, bool_decide_eq_false in E1.
    destruct pv as [v|]; simpl in H; [|destruct E1 as [|[? ?]]; [lia|done]].
    destruct E0 as [|Hv]; [lia|]. by apply Hv.
Qed.

(** [deleteNode] removes a key that is present and keeps the invariant. *)
Lemma deleteNode_present fuel d p key :
  inv load P d p -> find load p key <> None -> length key < fuel ->
  exists m, deleteNode load fuel (Some p) key = Ok m /\
    (forall n, m = Some n -> inv load P d n) /\
    forall k', find_root load m k' = if decide (k' = key) then None else find load p k'.
Proof using HL HP.
  revert d p key. induction fuel as [|fuel IH]; intros d p key Hp Hf Hlt; [lia|].
  destruct d as [|d]; [done|]. destruct p as [pk pv|pk pv ch|k]; [| |done].
  { rewrite find_Leaf in Hf. simpl. case_decide; [|done]. subst. rewrite decide_True by auto.
    exists None. split_and!; [done..|]. intros k'. rewrite find_Leaf. by case_decide. }
  rewrite find_Branch in Hf. destruct (strip pk key) as [s|] eqn:E; [|done].
  apply strip_Some in E as ->. simpl in Hf. pose proof Hp as (Hk & Hl & HPb & Hch).
  simpl deleteNode. destruct s as [|i s]; simpl in Hf.
  - rewrite decide_True by (rewrite app_nil_r; auto).
    destruct (handleDeletion_inv d pk None ch []) as (m & Hm & Hinv); [done..| |].
    { simpl. intros H. eapply P_no_value; [done|lia]. }
    rewrite Hm. eexists. split; [done|]. split; [by intros n [= <-]|]. intros k'. simpl.
    rewrite (proj2 (handleDeletion_find _ _ _ _ _ _ k' Hl Hm)), !find_Branch.
    apply find_update. by intros [|j t].
  - rewrite decide_False by (intros [H|H]; [apply (f_equal length) in H; rewrite length_app in H; simpl in H; lia|by destruct pk]).
    rewrite getCommonPrefixLength_app, nibble_at_app, drop_app_S. simpl.
    assert (i < 16) as Hi.
    { destruct (decide (i < 16)); [done|]. unfold child_at, retrieveChild in Hf.
      by rewrite lookup_ge_None_2 in Hf by lia. }
    destruct (inv_child load P d _ _ _ _ Hp Hi) as [-> Hx]. simpl.
    destruct (child_at load ch i) as [x|] eqn:Ex; [|done]. simpl in Hf.
    destruct (IH d x s) as (n & -> & Hn & Hfind); [by apply Hx|done|rewrite length_app in Hlt; simpl in Hlt; lia|].
    simpl. rewrite set_child_eq by done. simpl.
    destruct (handleDeletion_inv d pk pv (<[i := n]> ch) (i :: s)) as (m & Hm & Hinv).
    { done. } { by rewrite length_insert. } { by apply children_ok_set. }
    { intros H. destruct n as [n|]; [by apply P_child|by apply P_removed]. }
    rewrite Hm. eexists. split; [done|]. split; [by intros ? [= <-]|]. intros k'. simpl.
    rewrite (proj2 (handleDeletion_find _ _ _ _ _ _ k' (eq_trans (length_insert _ _ _) Hl) Hm)), !find_Branch.
    apply find_update. intros t.
    assert (forall n', n = Some n' -> isDummy n' = false) as Hreal by (intros; eapply inv_real; eauto).
    rewrite below_insert by (done || lia). destruct t as [|j t]; [done|].
    case_decide as Hij; [|by rewrite decide_False by naive_solver]. subst j. simpl. rewrite Ex.
    simpl. rewrite Hfind. repeat case_decide; naive_solver.
Qed.

End operations.

(** *** Detaching a prefix *)

Section detach.
Context (load : node -> outcome (option node)) {HL : Loader load}.

Lemma find_Some_prefix n k : find load n k <> None -> node_key n `prefix_of` k.
Proof.
  unfold find. rewrite walk_strip. destruct (strip (node_key n) k) as [s|] eqn:E; [|done].
  apply strip_Some in E as ->. intros _. by apply prefix_app_r.
Qed.

Lemma find_unless (Q : Prop) `{Decision Q} n k :
  (find load n k <> None -> ~ Q) -> find load n k = if decide Q then None else find load n k.
Proof. intros HQ. case_decide; [|done]. destruct (find load n k); naive_solver. Qed.

Lemma prefix_app_cons {A} (p s t : list A) i j :
  p ++ i :: s `prefix_of` p ++ j :: t <-> i = j /\ s `prefix_of` t.
Proof.
  induction p as [|x p IH]; simpl.
  - split; [intros H; split; [by eapply prefix_cons_inv_1|by eapply prefix_cons_inv_2]|].
    intros [-> ?]. by apply prefix_cons.
  - rewrite <-IH. split; [apply prefix_cons_inv_2|apply prefix_cons].
Qed.

(** [detachNode] removes the keys that start with the prefix. *)
Lemma detachNode_find fuel d p prefix :
  inv load any_branch d p -> nibbles_ok prefix -> length prefix < fuel ->
  exists m, detachNode load fuel (Some p) prefix = Ok m /\
    (forall n, m = Some n -> inv load any_branch d n) /\
    forall k', find_root load m k' = if decide (prefix `prefix_of` k') then None else find load p k'.
Proof using HL.
  revert d p prefix. induction fuel as [|fuel IH]; intros d p prefix Hp Hk Hlt; [lia|].
  destruct d as [|d]; [done|]. cbn [detachNode]. case_decide as H1.
  { case_decide as H2.
    - exists None. split_and!; [done..|]. intros k'. simpl. case_decide as H3; [done|].
      destruct (find load p k') eqn:E; [|done]. destruct H3.
      transitivity (node_key p); [rewrite <-H2; apply prefix_take|].
      apply find_Some_prefix. by rewrite E.
    - exists (Some p). split_and!; [done|naive_solver|]. intros k'. apply find_unless.
      intros Hkey%find_Some_prefix Hpre. apply H2.
      destruct (prefix_weak_total _ _ _ Hkey Hpre) as [[s Hs]|[s Hs]].
      + apply (f_equal length) in Hs as Hs'. rewrite length_app in Hs'.
        assert (s = []) as -> by (apply length_zero_iff_nil; lia).
        rewrite app_nil_r in Hs. subst. by rewrite take_ge.
      + by rewrite Hs, take_app_length. }
  case_decide as H2.
  { exists (Some p). split_and!; [done|naive_solver|]. intros k'. apply find_unless.
    intros Hkey%find_Some_prefix Hpre. apply H2.
    destruct (prefix_weak_total _ _ _ Hkey Hpre) as [[s ->]|[s Hs]]; [by rewrite take_app_length|].
    rewrite Hs, length_app in H1. lia. }
  destruct p as [pk pv|pk pv ch|k]; [| |done]; simpl in H1, H2.
  { exists (Some (Leaf pk pv)). split_and!; [done|naive_solver|]. intros k'. apply find_unless.
    rewrite find_Leaf. case_decide; [subst|done]. intros _ [s Hs]. rewrite Hs, length_app in H1. lia. }
  assert (exists s, prefix = pk ++ s) as [s ->].
  { eexists. rewrite <-(take_drop (length pk) prefix) at 1. by rewrite H2. }
  clear H2. rewrite length_app in *. destruct s as [|i s]; [simpl in H1; lia|].
  rewrite getCommonPrefixLength_app, nibble_at_app, drop_app_S. simpl.
  apply nibbles_app in Hk as [_ [Hi Hs]%nibbles_cons].
  destruct (inv_child load _ d _ _ _ _ Hp Hi) as [-> Hx]. simpl. pose proof Hp as (_ & Hl & _).
  destruct (child_at load ch i) as [x|] eqn:Ex.
  - destruct (IH d x s) as (n & -> & Hn & Hfind); [by apply Hx|done|simpl in Hlt; lia|]. simpl.
    rewrite set_child_eq by done. eexists. split; [done|]. split.
    { intros ? [= <-]. by apply inv_set_child. }
    assert (forall n', n = Some n' -> isDummy n' = false) as Hreal by (intros; eapply inv_real; eauto).
    intros k'. simpl. rewrite !find_Branch. destruct (strip pk k') as [t|] eqn:Et; simpl; [|by case_decide].
    apply strip_Some in Et as ->. rewrite below_insert by (done || lia).
    destruct t as [|j t]; [rewrite decide_False; [done|intros Hpre%prefix_length; rewrite !length_app in Hpre; simpl in Hpre; lia]|].
    case_decide as Hij.
    + subst j. rewrite Hfind. simpl. rewrite Ex. apply decide_ext.
      rewrite prefix_app_cons. naive_solver.
    + rewrite decide_False; [done|]. rewrite prefix_app_cons. naive_solver.
  - exists (Some (Branch pk pv ch)). split_and!; [done|naive_solver|]. intros k'. apply find_unless.
    intros Hf [t ->]. rewrite <-(assoc_L (++)) in Hf. simpl in Hf.
    by rewrite find_Branch_child, Ex in Hf.
Qed.

End detach.

(** *** Termination *)

(** A result the model does not owe to the end of its fuel. *)
Definition terminates {A} (r : outcome A) : Prop := r <> Err out_of_fuel.

Lemma terminates_bind {A B} (m : outcome A) (f : A -> outcome B) :
  terminates m -> (forall a, m = Ok a -> terminates (f a)) -> terminates (m ≫= f).
Proof. intros Hm Hf. destruct m as [a|e]; simpl; [by apply Hf|]. intros [= ->]. by apply Hm. Qed.

Lemma terminates_Ok {A} (a : A) : terminates (Ok a).
Proof. done. Qed.

Lemma terminates_nibble_at k i : terminates (nibble_at k i).
Proof. unfold nibble_at, ok_or. by destruct (k !! i). Qed.

Lemma terminates_set_child ch i c : terminates (set_child ch i c).
Proof. unfold set_child. by case_decide. Qed.

Lemma nibble_at_lt k i x : nibble_at k i = Ok x -> length (drop (i + 1) k) < length k.
Proof.
  unfold nibble_at, ok_or. destruct (k !! i) eqn:E; [|done]. intros _.
  apply lookup_lt_Some in E. rewrite length_drop. lia.
Qed.

Create HintDb fuel discriminated.
#[export] Hint Resolve terminates_Ok terminates_nibble_at terminates_set_child : fuel.

Section termination.
Context (load : node -> outcome (option node)) (Hload : forall n, terminates (load n)).

Lemma terminates_retrieveChild ch i : terminates (retrieveChild load ch i).
Proof using Hload. unfold retrieveChild. destruct (ch !! i) as [[c|]|]; [apply Hload|done..]. Qed.

Lemma terminates_handleDeletion pk pv ch k : terminates (handleDeletion load pk pv ch k).
Proof using Hload.
  unfold handleDeletion. destruct ((_ =? _)%Z && _); [done|]. destruct (bool_decide _ && _); [|done].
  apply terminates_bind; [apply terminates_retrieveChild|]. by intros [[]|] _.
Qed.

Hint Resolve terminates_retrieveChild terminates_handleDeletion : fuel.

(** Steps through a computation, taking its conditions apart. *)
Ltac fuel_step :=
  first
    [ done
    | case_decide
    | apply terminates_bind; [solve [eauto with fuel]|intros ? ?]
    | solve [eauto with fuel] ].

Lemma terminates_insert fuel parent k n :
  length k < fuel -> terminates (insert load fuel parent k n).
Proof using Hload.
  revert parent k n. induction fuel as [|fuel IH]; intros parent k n Hk; [lia|].
  destruct parent as [[pk pv|pk pv ch|]|]; simpl; [| |done|done].
  - unfold insert_at_leaf. repeat fuel_step.
  - assert (forall k n, terminates (insert load fuel None k n)) as Hnone by (by destruct fuel).
    unfold updateBranch. repeat fuel_step. destruct a0 as [c|]; [|repeat fuel_step].
    apply terminates_bind; [|intros; repeat fuel_step].
    apply IH. eapply Nat.lt_le_trans; [by eapply nibble_at_lt|lia].
Qed.

Lemma terminates_getNode fuel parent k : length k < fuel -> terminates (getNode load fuel parent k).
Proof using Hload.
  revert parent k. induction fuel as [|fuel IH]; intros parent k Hk; [lia|].
  destruct parent as [[pk pv|pk pv ch|]|]; simpl; repeat fuel_step.
  apply IH. eapply Nat.lt_le_trans; [by eapply nibble_at_lt|lia].
Qed.

Lemma terminates_getPath fuel parent k : length k < fuel -> terminates (getPath load fuel parent k).
Proof using Hload.
  revert parent k. induction fuel as [|fuel IH]; intros parent k Hk; [lia|].
  destruct parent as [[pk pv|pk pv ch|]|]; simpl; repeat fuel_step.
  apply terminates_bind; [|done].
  apply IH. eapply Nat.lt_le_trans; [by eapply nibble_at_lt|lia].
Qed.

Lemma terminates_deleteNode fuel parent k : length k < fuel -> terminates (deleteNode load fuel parent k).
Proof using Hload.
  revert parent k. induction fuel as [|fuel IH]; intros parent k Hk; [lia|].
  destruct parent as [[pk pv|pk pv ch|]|]; simpl; repeat fuel_step.
  apply terminates_bind; [|intros; repeat fuel_step].
  apply IH. eapply Nat.lt_le_trans; [by eapply nibble_at_lt|lia].
Qed.

Lemma terminates_detachNode fuel parent k : length k < fuel -> terminates (detachNode load fuel parent k).
Proof using Hload.
  revert parent k. induction fuel as [|fuel IH]; intros parent k Hk; [lia|].
  destruct parent as [p|]; [|done]. simpl. repeat fuel_step.
  destruct p as [pk pv|pk pv ch|]; [done| |done]. repeat fuel_step.
  destruct a0 as [c|]; [|done]. apply terminates_bind; [|intros; repeat fuel_step].
  apply IH. eapply Nat.lt_le_trans; [by eapply nibble_at_lt|lia].
Qed.

(** Every operation of the trie terminates, on any tree of nodes and with
    any functor for the children that does: the recursion of [insert],
    [getNode], [getPath], [deleteNode] and [detachNode] never needs more steps
    than the key has nibbles, whatever the nodes that are fetched. *)
Theorem trie_terminates root key value :
  terminates (put load root key value) /\ terminates (get load root key) /\
  terminates (getPath load (trie_fuel (keyToNibbles key)) root (keyToNibbles key)) /\
  terminates (remove load root key) /\ terminates (clearPrefix load root key).
Proof using Hload.
  unfold put, get, remove, clearPrefix, trie_fuel. split_and!.
  - apply terminates_bind; [apply terminates_insert; lia|done].
  - apply terminates_bind; [apply terminates_getNode; lia|]. intros n _. by destruct (n ≫= node_value).
  - apply terminates_getPath. lia.
  - apply terminates_deleteNode. lia.
  - apply terminates_detachNode. lia.
Qed.

End termination.
