(* ===== verification/TrieMap.v ===== *)
(** * The Merkle trie as a map

    The operations of the trie on keys of bytes against a finite map from keys
    to values: [lookup] reads the trie with the reference [find].  The file
    also holds the uniqueness of canonical tries, by which the root does not
    depend on the order of the updates, and what the trie does on keys that are
    absent. *)

From S2P Require Import Prelude Scale ScaleProps Trie TrieLemmas TrieProps.

(** ** Keys *)

Lemma nibbles_of_eq c : nibbles_of c = [Z.to_nat (uchar c / 16); Z.to_nat (uchar c mod 16)].
Proof.
  unfold nibbles_of. rewrite Z.shiftr_div_pow2 by done.
  change 15%Z with (Z.ones 4). by rewrite Z.land_ones.
Qed.

Lemma keyToNibbles_eq key : keyToNibbles key = mjoin (nibbles_of <$> key).
Proof.
  destruct key as [|c [|c' key]]; [done| |done]. unfold keyToNibbles.
  destruct (Z.eqb_spec (uchar c) 0) as [E|]; [|done].
  change (mjoin _) with (nibbles_of c ++ []). by rewrite nibbles_of_eq, E.
Qed.

Lemma keyToNibbles_cons c key : keyToNibbles (c :: key) = nibbles_of c ++ keyToNibbles key.
Proof. by rewrite !keyToNibbles_eq. Qed.

Lemma keyToNibbles_ok key : nibbles_ok (keyToNibbles key).
Proof.
  induction key as [|c key IH]; [constructor|]. rewrite keyToNibbles_cons, nibbles_of_eq.
  pose proof (uchar_range c). simpl. rewrite !nibbles_cons. split_and!; [div_mod_lia..|done].
Qed.

Lemma length_keyToNibbles key : length (keyToNibbles key) = 2 * length key.
Proof.
  induction key as [|c key IH]; [done|]. rewrite keyToNibbles_cons, length_app, IH. simpl. lia.
Qed.

Lemma byteFromNibbles_of c :
  byteFromNibbles (Z.to_nat (uchar c / 16)) (Z.to_nat (uchar c mod 16)) = c.
Proof.
  destruct c as [[] [] [] [] [] [] [] []]; vm_compute; reflexivity.
Qed.

(** [nibblesToKey] inverts [keyToNibbles]. *)
Lemma nibblesToKey_keyToNibbles key : nibblesToKey (keyToNibbles key) = key.
Proof.
  unfold nibblesToKey. rewrite length_keyToNibbles, Nat.even_mul. simpl.
  induction key as [|c key IH]; [done|].
  rewrite keyToNibbles_cons, nibbles_of_eq. simpl. by rewrite byteFromNibbles_of, IH.
Qed.

Lemma keyToNibbles_inj k k' : keyToNibbles k = keyToNibbles k' -> k = k'.
Proof. intros H. by rewrite <-(nibblesToKey_keyToNibbles k), H, nibblesToKey_keyToNibbles. Qed.

Lemma keyToNibbles_app k k' : keyToNibbles (k ++ k') = keyToNibbles k ++ keyToNibbles k'.
Proof. rewrite !keyToNibbles_eq, fmap_app. apply join_app. Qed.

Lemma keyToNibbles_prefix p k : keyToNibbles p `prefix_of` keyToNibbles k <-> p `prefix_of` k.
Proof.
  split; [|by intros [s ->]; rewrite keyToNibbles_app; apply prefix_app_r].
  revert k. induction p as [|c p IH]; intros k H; [apply prefix_nil|].
  rewrite keyToNibbles_cons, nibbles_of_eq in H. simpl in H.
  destruct k as [|c' k]; [by apply prefix_nil_not in H|].
  rewrite keyToNibbles_cons, nibbles_of_eq in H. simpl in H.
  pose proof (prefix_cons_inv_1 _ _ _ _ H) as H1. apply prefix_cons_inv_2 in H.
  pose proof (prefix_cons_inv_1 _ _ _ _ H) as H2. apply prefix_cons_inv_2 in H.
  assert (c = c') as ->; [|by apply prefix_cons, IH].
  rewrite <-(byteFromNibbles_of c), <-(byteFromNibbles_of c'). congruence.
Qed.

(** ** The operations *)

Section map.
Context (load : node -> outcome (option node)) {HL : Loader load}.

Definition lookup (root : option node) (key : bytes) : option bytes :=
  find_root load root (keyToNibbles key).

Section invariant.
Context (P : option bytes -> list (option node) -> Prop) {HP : BranchInv P}.

Lemma put_inv root key value :
  root_inv load P root -> exists root', put load root key value = Ok root' /\ root_inv load P root'.
Proof using HL HP.
  intros Hinv. unfold put. destruct root as [p|]; [destruct Hinv as [d Hd]|].
  - destruct (insert_inv load P (trie_fuel (keyToNibbles key)) d p (keyToNibbles key)
      (keyToNibbles key) value Hd (keyToNibbles_ok key)) as (m & -> & Hi); [unfold trie_fuel; lia|].
    eexists. split; [done|]. by exists (S d).
  - eexists. split; [done|]. exists 1. split; [apply keyToNibbles_ok|done].
Qed.

Lemma put_find root key value root' n :
  put load root key value = Ok root' ->
  find_root load root' n = if decide (n = keyToNibbles key) then Some value else find_root load root n.
Proof using HL.
  unfold put. intros H. inv_ok H. injection H as <-.
  by apply (insert_find load _ _ _ _ _ _ n) in Ha as [_ Ha].
Qed.

(** C13. [put] refines the update of a map: on a trie that satisfies the
    invariant it succeeds, the trie it leaves satisfies the invariant, the key
    has the new value and every other key the value it had.  The invariant is
    the shape of the nodes alone or also their canonical form. *)
Theorem put_lookup root key value :
  root_inv load P root ->
  exists root', put load root key value = Ok root' /\ root_inv load P root' /\
    forall k, lookup root' k = if decide (k = key) then Some value else lookup root k.
Proof using HL HP.
  intros Hinv. destruct (put_inv root key value Hinv) as (root' & Hput & Hinv').
  exists root'. split_and!; [done..|]. intros k. unfold lookup. rewrite (put_find _ _ _ _ _ Hput).
  apply decide_ext. split; [apply keyToNibbles_inj|by intros ->].
Qed.

(** C14. [remove] of a key that is present refines the deletion from a map: it
    succeeds, keeps the invariant, and afterwards the key has no value and
    every other key the value it had. *)
Theorem remove_lookup root key :
  root_inv load P root -> is_Some (lookup root key) ->
  exists root', remove load root key = Ok root' /\ root_inv load P root' /\
    forall k, lookup root' k = if decide (k = key) then None else lookup root k.
Proof using HL HP.
  intros Hinv [v Hv]. destruct root as [p|]; [|done]. destruct Hinv as [d Hd]. unfold remove.
  destruct (deleteNode_present load P (trie_fuel (keyToNibbles key)) d p (keyToNibbles key) Hd)
    as (m & -> & Hm & Hf); [by unfold lookup in Hv; simpl in Hv; rewrite Hv|unfold trie_fuel; lia|].
  exists m. split_and!; [done|destruct m; simpl; eauto|]. intros k. unfold lookup. rewrite Hf.
  apply decide_ext. split; [apply keyToNibbles_inj|by intros ->].
Qed.

(** When all keys of a trie have the same length, as hashes have, [get] is
    the lookup of every key of that length, present or not: the value, or
    [NO_VALUE]. *)
Theorem get_same_length root key len :
  root_inv load P root -> (forall k, is_Some (find_root load root k) -> length k = 2 * len) ->
  length key = len ->
  get load root key = match lookup root key with Some v => Ok v | None => Err trie_no_value end.
Proof.
  intros Hinv Hlen Hk. unfold get, lookup. destruct root as [p|]; [|done]. destruct Hinv as [d Hd].
  destruct (getNode_long load P (trie_fuel (keyToNibbles key)) d p (keyToNibbles key) (2 * len))
    as (r & -> & Hr); [done|apply keyToNibbles_ok| |rewrite length_keyToNibbles; lia|unfold trie_fuel; lia|].
  - intros k Hf. apply Hlen. simpl. by apply not_eq_None_Some.
  - simpl. by rewrite Hr.
Qed.

End invariant.

(** [get] returns the value of every key that is present, and [contains]
    holds of it, in any trie. *)
Theorem get_present root key value :
  lookup root key = Some value ->
  get load root key = Ok value /\ contains load root key = true.
Proof.
  unfold lookup, get, contains. destruct root as [p|]; [|done]. intros H.
  destruct (getNode_present load (trie_fuel (keyToNibbles key)) p (keyToNibbles key) value H)
    as (n & -> & Hn); [unfold trie_fuel; lia|]. simpl. by rewrite Hn.
Qed.

(** [clearPrefix] removes exactly the keys that start with the prefix, and
    keeps the shape of the trie. *)
Theorem clearPrefix_lookup root prefix :
  root_inv load any_branch root ->
  exists root', clearPrefix load root prefix = Ok root' /\ root_inv load any_branch root' /\
    forall k, lookup root' k = if decide (prefix `prefix_of` k) then None else lookup root k.
Proof using HL.
  intros Hinv. unfold clearPrefix. destruct root as [p|].
  2:{ exists None. split_and!; [done..|]. intros k. by case_decide. }
  destruct Hinv as [d Hd].
  destruct (detachNode_find load (trie_fuel (keyToNibbles prefix)) d p (keyToNibbles prefix) Hd
    (keyToNibbles_ok prefix)) as (m & -> & Hm & Hf); [unfold trie_fuel; lia|].
  exists m. split_and!; [done|destruct m; simpl; eauto|]. intros k. unfold lookup. rewrite Hf.
  apply decide_ext, keyToNibbles_prefix.
Qed.

End map.

(** ** Canonical tries are determined by their contents *)

Section unique.
Abbreviation found := (find default_load).
Abbreviation canon := (inv default_load canonical).

Lemma child_at_default ch i : child_at default_load ch i = mjoin (ch !! i).
Proof. unfold child_at, retrieveChild. by destruct (ch !! i) as [[c|]|]. Qed.

Lemma childrenNum_pos ch : 1 <= childrenNum ch -> exists i c, ch !! i = Some (Some c).
Proof.
  induction ch as [|[c|] ch IH]; [cbn; lia|by exists 0, c|].
  rewrite childrenNum_cons. intros H. destruct IH as (i & c & Hc); [done|]. by exists (S i), c.
Qed.

Lemma childrenNum_ge_two ch :
  2 <= childrenNum ch -> exists i j c e, i <> j /\ ch !! i = Some (Some c) /\ ch !! j = Some (Some e).
Proof.
  intros H. destruct (childrenNum_pos ch) as (i & c & Hc); [lia|].
  pose proof (childrenNum_insert ch i None (Some c) Hc) as Hn. unfold one in Hn. simpl in Hn.
  destruct (childrenNum_pos (<[i := None]> ch)) as (j & e & He); [lia|].
  destruct (decide (i = j)) as [->|Hij].
  - apply list_lookup_insert_Some in He as [(_ & ? & _)|]; naive_solver.
  - rewrite list_lookup_insert_ne in He by done. by exists i, j, c, e.
Qed.

(** The child at an index that holds one. *)
Lemma canon_child d k v ch i c :
  canon (S d) (Branch k v ch) -> ch !! i = Some (Some c) ->
  canon d c /\ forall s, found (Branch k v ch) (k ++ i :: s) = found c s.
Proof.
  intros (_ & _ & _ & Hch) Hi. destruct (Hch i c Hi) as (c' & [= <-] & Hc'). split; [done|].
  intros s. rewrite find_Branch_child, child_at_default. by rewrite Hi.
Qed.

Lemma canon_nonempty d n : canon d n -> exists k, is_Some (found n k).
Proof.
  revert n. induction d as [|d IH]; intros n Hn; [done|]. destruct n as [k v|k v ch|]; [| |done].
  - exists k. rewrite find_Leaf, decide_True by done. by destruct Hn.
  - pose proof Hn as (_ & _ & HPb & _). unfold canonical in HPb.
    destruct (childrenNum_pos ch) as (i & c & Hi); [destruct v; simpl in HPb; lia|].
    destruct (canon_child _ _ _ _ _ _ Hn Hi) as [Hc Hf]. destruct (IH c Hc) as [s Hs].
    exists (k ++ i :: s). by rewrite Hf.
Qed.

(** A canonical branch has two keys with nothing in common beyond its own. *)
Lemma canon_two_keys d k v ch :
  canon (S d) (Branch k v ch) ->
  exists s t, is_Some (found (Branch k v ch) (k ++ s)) /\ is_Some (found (Branch k v ch) (k ++ t)) /\
    s <> t /\ forall p, p `prefix_of` k ++ s -> p `prefix_of` k ++ t -> p `prefix_of` k.
Proof.
  intros Hn. pose proof Hn as (_ & _ & HPb & _). unfold canonical in HPb. destruct v as [v|]; simpl in HPb.
  - destruct (childrenNum_pos ch) as (i & c & Hi); [lia|].
    destruct (canon_child _ _ _ _ _ _ Hn Hi) as [Hc Hf]. destruct (canon_nonempty _ _ Hc) as [s Hs].
    exists [], (i :: s). rewrite Hf, app_nil_r, find_Branch_own. naive_solver.
  - destruct (childrenNum_ge_two ch) as (i & j & c & e & Hij & Hi & Hj); [lia|].
    destruct (canon_child _ _ _ _ _ _ Hn Hi) as [Hc Hfc]. destruct (canon_nonempty _ _ Hc) as [s Hs].
    destruct (canon_child _ _ _ _ _ _ Hn Hj) as [He Hfe]. destruct (canon_nonempty _ _ He) as [t Ht].
    exists (i :: s), (j :: t). rewrite Hfc, Hfe. split_and!; [done..|naive_solver|].
    intros p Hp Hq. destruct (prefix_weak_total p k (k ++ i :: s)) as [|[r ->]]; [done|by apply prefix_app_r|done|].
    destruct r as [|x r]; [by rewrite app_nil_r|]. apply prefix_app_cons in Hp, Hq. naive_solver.
Qed.

Lemma find_prefix_key d n k : canon d n -> is_Some (found n k) -> node_key n `prefix_of` k.
Proof. intros _ H. eapply find_Some_prefix. by apply not_eq_None_Some. Qed.

(** Two canonical branches with the same contents have the same partial key. *)
Lemma canon_same_key d d' k v ch k' v' ch' :
  canon (S d) (Branch k v ch) -> canon (S d') (Branch k' v' ch') ->
  (forall s, found (Branch k v ch) s = found (Branch k' v' ch') s) -> k' `prefix_of` k.
Proof.
  intros Hn Hm Heq. destruct (canon_two_keys _ _ _ _ Hn) as (s & t & Hs & Ht & _ & Hp).
  rewrite Heq in Hs, Ht. apply (find_prefix_key _ _ _ Hm) in Hs, Ht. by apply Hp.
Qed.

Lemma canon_leaf_branch d k v k' v' ch :
  canon (S d) (Branch k' v' ch) -> (forall s, found (Leaf k v) s = found (Branch k' v' ch) s) -> False.
Proof.
  intros Hm Heq. destruct (canon_two_keys _ _ _ _ Hm) as (s & t & Hs & Ht & Hst & _).
  rewrite <-Heq, find_Leaf in Hs, Ht. apply Hst. apply (app_inv_head k').
  destruct (decide (k' ++ s = k)), (decide (k' ++ t = k)); try congruence;
    by (destruct Hs as [? Hs] || destruct Ht as [? Ht]).
Qed.

Lemma canon_unique d d' n m :
  canon d n -> canon d' m -> (forall k, found n k = found m k) -> n = m.
Proof.
  revert d' n m. induction d as [|d IH]; intros d' n m Hn Hm Heq; [done|].
  destruct d' as [|d']; [done|].
  destruct n as [k v|k v ch|], m as [k' v'|k' v' ch'|]; try done.
  - destruct Hn as [_ [w ->]]. pose proof (Heq k) as Hk. rewrite !find_Leaf, decide_True in Hk by done.
    case_decide; naive_solver.
  - by apply canon_leaf_branch with (2 := Heq) in Hm.
  - by apply canon_leaf_branch with (k := k') (v := v') in Hn.
  - assert (k = k') as <-.
    { apply (anti_symm prefix); [by eapply canon_same_key|]. by eapply (canon_same_key d d'). }
    pose proof (Heq k) as Hv. rewrite !find_Branch_own in Hv. subst v'. f_equal.
    pose proof Hn as (_ & Hl & _). pose proof Hm as (_ & Hl' & _).
    apply list_eq. intros i. destruct (decide (i < 16)) as [Hi|Hi].
    2:{ by rewrite !lookup_ge_None_2 by lia. }
    assert (is_Some (ch !! i)) as [x Hx] by (apply lookup_lt_is_Some; lia).
    assert (is_Some (ch' !! i)) as [y Hy] by (apply lookup_lt_is_Some; lia).
    assert (forall s, find_root default_load x s = find_root default_load y s) as Hxy.
    { intros s. specialize (Heq (k ++ i :: s)). rewrite !find_Branch_child, !child_at_default, Hx, Hy in Heq. done. }
    rewrite Hx, Hy. f_equal. destruct x as [x|], y as [y|]; [|exfalso..|done].
    + f_equal. apply (IH d'); [by eapply canon_child|by eapply canon_child|done].
    + destruct (canon_nonempty d x) as [s [w Hs]]; [by eapply canon_child|]. specialize (Hxy s).
      simpl in Hxy. by rewrite Hs in Hxy.
    + destruct (canon_nonempty d' y) as [s [w Hs]]; [by eapply canon_child|]. specialize (Hxy s).
      simpl in Hxy. by rewrite Hs in Hxy.
Qed.

End unique.

(** ** Order of insertion *)

Section order.

Fixpoint puts (root : option node) (l : list (bytes * bytes)) : outcome (option node) :=
  match l with
  | [] => Ok root
  | (k, v) :: l => root' ← put default_load root k v; puts root' l
  end.

Definition as_map (l : list (bytes * bytes)) : gmap KeyNibbles bytes :=
  list_to_map (prod_map keyToNibbles id <$> l).

Lemma puts_spec root l :
  root_inv default_load canonical root -> NoDup l.*1 ->
  exists root', puts root l = Ok root' /\ root_inv default_load canonical root' /\
    forall n, find_root default_load root' n =
      match as_map l !! n with Some v => Some v | None => find_root default_load root n end.
Proof.
  revert root. induction l as [|[k v] l IH]; intros root Hinv Hnd; simpl.
  { exists root. split_and!; [done..|]. intros n. unfold as_map. simpl. by rewrite lookup_empty. }
  apply NoDup_cons in Hnd as [Hk Hnd].
  destruct (put_inv default_load canonical root k v Hinv) as (r1 & Hr1 & Hinv1).
  destruct (IH r1 Hinv1 Hnd) as (r2 & Hr2 & Hinv2 & Hf). rewrite Hr1. simpl.
  exists r2. split_and!; [done..|]. intros n. rewrite Hf, (put_find default_load _ _ _ _ n Hr1).
  change (as_map ((k, v) :: l)) with (<[keyToNibbles k := v]> (as_map l)).
  case_decide as Hn; [subst n; rewrite lookup_insert_eq|by rewrite lookup_insert_ne].
  destruct (as_map l !! keyToNibbles k) as [w|] eqn:E; [|done]. destruct Hk.
  unfold as_map in E. apply elem_of_list_to_map_2 in E. apply list_elem_of_fmap in E as ([k' v'] & Hkv & Hin).
  injection Hkv as Hkk _. apply keyToNibbles_inj in Hkk as ->. apply list_elem_of_fmap. by exists (k', v').
Qed.

(** C16. The root does not depend on the order of insertion: two lists of
    entries with distinct keys that are permutations of each other lead from
    the same canonical trie to the same trie, node by node, and so to the same
    root hash. *)
Theorem puts_order_irrelevant root l l' :
  root_inv default_load canonical root -> NoDup l.*1 -> l ≡ₚ l' ->
  exists root', puts root l = Ok root' /\ puts root l' = Ok root'.
Proof.
  intros Hinv Hnd Hp. assert (NoDup l'.*1) as Hnd' by (by rewrite <-Hp).
  destruct (puts_spec root l Hinv Hnd) as (r & Hr & Hi & Hf).
  destruct (puts_spec root l' Hinv Hnd') as (r' & Hr' & Hi' & Hf').
  assert (as_map l = as_map l') as Hm.
  { unfold as_map. apply list_to_map_proper; [|by apply fmap_Permutation].
    rewrite <-list_fmap_compose. change (fst ∘ prod_map keyToNibbles id) with (keyToNibbles ∘ (@fst bytes bytes)).
    rewrite list_fmap_compose. apply NoDup_fmap_2; [|done]. intros ???. by apply keyToNibbles_inj. }
  assert (forall n, find_root default_load r n = find_root default_load r' n) as Heq.
  { intros n. by rewrite Hf, Hf', Hm. }
  exists r. split; [done|]. rewrite Hr'. f_equal.
  destruct r as [n|], r' as [m|]; [|exfalso..|done].
  - f_equal. destruct Hi as [d Hd], Hi' as [d' Hd']. symmetry. by eapply canon_unique.
  - destruct Hi as [d Hd]. destruct (canon_nonempty d n Hd) as [k [v Hv]]. specialize (Heq k). simpl in Heq. congruence.
  - destruct Hi' as [d Hd]. destruct (canon_nonempty d m Hd) as [k [v Hv]]. specialize (Heq k). simpl in Heq. congruence.
Qed.

End order.

(** ** Witnesses and counterexamples *)

(** A trie with four keys of two bytes. *)
Definition demo_entries : list (bytes * bytes) :=
  [(str "aa", str "1"); (str "ab", str "2"); (str "ba", str "3"); (str "xy", str "4")].

Definition demo_trie : option node :=
  match puts None demo_entries with Ok root => root | Err _ => None end.

Lemma demo_trie_puts : puts None demo_entries = Ok demo_trie.
Proof. by vm_compute. Qed.

Lemma demo_trie_spec :
  root_inv default_load canonical demo_trie /\
  forall n, find_root default_load demo_trie n = as_map demo_entries !! n.
Proof.
  destruct (puts_spec None demo_entries) as (r & Hr & Hinv & Hf); [done|by apply (bool_decide_unpack _)|].
  rewrite demo_trie_puts in Hr. injection Hr as <-. split; [done|]. intros n. rewrite Hf.
  by destruct (_ !! n).
Qed.

Lemma trie_terminates_witness :
  terminates (put default_load demo_trie (str "ac") (str "5")) /\
  terminates (get default_load demo_trie (str "ac")) /\
  terminates (getPath default_load (trie_fuel (keyToNibbles (str "ac"))) demo_trie (keyToNibbles (str "ac"))) /\
  terminates (remove default_load demo_trie (str "ac")) /\
  terminates (clearPrefix default_load demo_trie (str "ac")).
Proof. apply (trie_terminates default_load). done. Defined.

Lemma put_lookup_witness :
  exists root', put default_load demo_trie (str "ac") (str "5") = Ok root' /\
    root_inv default_load canonical root' /\
    forall k, lookup default_load root' k =
      if decide (k = str "ac") then Some (str "5") else lookup default_load demo_trie k.
Proof. apply (put_lookup default_load canonical demo_trie). apply demo_trie_spec. Defined.

Lemma remove_lookup_witness :
  exists root', remove default_load demo_trie (str "ab") = Ok root' /\
    root_inv default_load canonical root' /\
    forall k, lookup default_load root' k =
      if decide (k = str "ab") then None else lookup default_load demo_trie k.
Proof.
  apply (remove_lookup default_load canonical demo_trie); [apply demo_trie_spec|].
  exists (str "2"). by vm_compute.
Defined.

Lemma get_same_length_witness :
  get default_load demo_trie (str "zz") = Err trie_no_value.
Proof.
  apply (get_same_length default_load canonical demo_trie (str "zz") 2); [apply demo_trie_spec| |done].
  intros k. rewrite (proj2 demo_trie_spec). intros [v Hv].
  apply elem_of_list_to_map_2, list_elem_of_fmap in Hv as ([k' v'] & [= -> _] & Hin).
  rewrite length_keyToNibbles. assert (Forall (fun e => length e.1 = 2) demo_entries) as Hall by (by repeat constructor).
  rewrite Forall_forall in Hall. by rewrite (Hall _ Hin : length k' = 2).
Defined.

Lemma get_present_witness :
  get default_load demo_trie (str "ba") = Ok (str "3") /\ contains default_load demo_trie (str "ba") = true.
Proof. apply (get_present default_load demo_trie). by vm_compute. Defined.

Lemma clearPrefix_lookup_witness :
  exists root', clearPrefix default_load (Some (Leaf [6; 1] (Some (str "v")))) (str "b") = Ok root' /\
    root_inv default_load any_branch root' /\
    forall k, lookup default_load root' k =
      if decide (str "b" `prefix_of` k) then None
      else lookup default_load (Some (Leaf [6; 1] (Some (str "v")))) k.
Proof.
  apply (clearPrefix_lookup default_load). exists 1. split; [|done].
  repeat (apply Forall_cons; split; [lia|]). apply Forall_nil_2.
Defined.

Lemma puts_order_irrelevant_witness :
  exists root', puts None demo_entries = Ok root' /\ puts None (reverse demo_entries) = Ok root'.
Proof.
  apply (puts_order_irrelevant None); [done|by apply (bool_decide_unpack _)|].
  symmetry. apply reverse_Permutation.
Defined.

(** [get] and [contains] can find a key that is absent, and [remove] of an
    absent key can delete another one: [getNode] and [deleteNode] descend from a
    branch although the key leaves its partial key.  In the trie of [aa] and
    [ab] the key [b] has no value, yet reading it returns the value of [ab] and
    removing it deletes [ab]. *)
Theorem absent_key_confused :
  exists root root', puts None [(str "aa", str "1"); (str "ab", str "2")] = Ok root /\
    lookup default_load root (str "b") = None /\
    get default_load root (str "b") = Ok (str "2") /\ contains default_load root (str "b") = true /\
    remove default_load root (str "b") = Ok root' /\ lookup default_load root' (str "ab") = None.
Proof. eexists _, _. split_and!; by vm_compute. Qed.

(** [clearPrefix] leaves a branch with one child: the trie it leaves differs
    from the one built from the remaining entry, and so does its root hash. *)
Theorem clearPrefix_not_canonical :
  exists root root1 root2, puts None [(str "aa", str "1"); (str "ab", str "2")] = Ok root /\
    clearPrefix default_load root (str "ab") = Ok root1 /\ puts None [(str "aa", str "1")] = Ok root2 /\
    root1 <> root2.
Proof. eexists _, _, _. split_and!; by vm_compute. Qed.
