(* ===== verification/TrieCodec.v ===== *)
(** * The codec of trie nodes

    Models [src/src/storage/trie/serialization/supergenius_codec.cpp] and
    [buffer_stream.hpp]: header, partial key, children bitmap, value and the
    Merkle values of the children.  The hash [sgns_blake2b] is a library
    function and a parameter, [hash256]; values are encoded with the SCALE
    codec of [Scale]. *)

From S2P Require Import Prelude Scale Trie.

Local Open Scope Z_scope.

(** [scale::encode] and [scale::decode] of a [base::Buffer]. *)
Definition buffer_ty : ty := TVector (TInt false 1).

Definition encodeBuffer (b : bytes) : outcome bytes := encode buffer_ty (uchar <$> b).

Section codec.
Context (hash256 : bytes -> bytes) (max_size : ty -> Z).

Definition decodeBuffer : reader bytes :=
  l ← decode max_size buffer_ty; mret (byte <$> (l : list Z)).

(** ** Encoding *)

Definition ushortToBytes (b : Z) : bytes :=
  [byte (Z.land b 255); byte (Z.land (Z.shiftr b 8) 255)].

(** A buffer shorter than a hash stands for itself. *)
Definition merkleValue (buf : bytes) : bytes :=
  if decide (length buf < 32)%nat then buf else hash256 buf.

(** [node.getType()] as it is written to the header; [Special] has no
    header. *)
Definition header_type (n : node) : outcome Z :=
  match getTrieType n with
  | Special => Err (codec_error UNKNOWN_NODE_TYPE)
  | TLeaf => Ok 1
  | BranchEmptyValue => Ok 2
  | BranchWithValue => Ok 3
  end.

Definition encodeHeader (n : node) : outcome bytes :=
  let size := Z.of_nat (length (node_key n)) in
  if 65535 <? size then Err (codec_error TOO_MANY_NIBBLES) else
  type ← header_type n;
  let head := Z.shiftl type 6 in
  if size <? 63 then mret [byte (Z.lor head size)] else
  let l := size - 63 in
  mret (byte (head + 63) :: replicate (Z.to_nat (l / 255)) (byte 255) ++ [byte (l mod 255)]).

(** The loop of [encodeBranch] over the children. *)
Definition encode_children (enc : node -> outcome bytes) : list (option node) -> outcome bytes :=
  fix go ch :=
    match ch with
    | [] => Ok []
    | None :: ch => go ch
    | Some c :: ch =>
        merkle_value ← (match c with
                        | Dummy db_key => Ok db_key
                        | _ => b ← enc c; mret (merkleValue b)
                        end);
        scale_enc ← encodeBuffer merkle_value;
        rest ← go ch;
        mret (scale_enc ++ rest)
    end.

Fixpoint encodeNode (n : node) : outcome bytes :=
  match n with
  | Branch k v ch =>
      encoding ← encodeHeader n;
      let encoding := encoding ++ nibblesToKey k ++ ushortToBytes (childrenBitmap ch) in
      value ← (match v with Some v => encodeBuffer v | None => Ok [] end);
      children ← encode_children encodeNode ch;
      mret (encoding ++ value ++ children)
  | Leaf k v =>
      encoding ← encodeHeader n;
      match v with
      | None => Err (codec_error NO_NODE_VALUE)
      | Some v => value ← encodeBuffer v; mret (encoding ++ nibblesToKey k ++ value)
      end
  | Dummy _ => Err errc_invalid_argument
  end.

(** ** Decoding *)

(** [stream.next()] after [stream.hasMore(1)]. *)
Definition next_byte : reader Z := fun s =>
  match s with
  | [] => Err (codec_error INPUT_TOO_SMALL)
  | c :: s => Ok (uchar c, s)
  end.

(** The loop of [decodeHeader] that adds up the length of the partial key. *)
Fixpoint read_lengths (pk_length : Z) (s : bytes) : outcome (Z * bytes) :=
  match s with
  | [] => Err (codec_error INPUT_TOO_SMALL)
  | c :: s =>
      if uchar c =? 255 then read_lengths (pk_length + uchar c) s
      else Ok (pk_length + uchar c, s)
  end.

Definition node_type_of (t : Z) : NodeType :=
  match t with
  | 0 => Special
  | 1 => TLeaf
  | 2 => BranchEmptyValue
  | _ => BranchWithValue
  end.

Definition decodeHeader : reader (NodeType * Z) :=
  first ← next_byte;
  let type := node_type_of (Z.shiftr (Z.land first 192) 6) in
  let pk_length := Z.land first 63 in
  if pk_length =? 63 then
    pk_length ← read_lengths pk_length; mret (type, pk_length)
  else mret (type, pk_length).

Definition decodePartialKey (nibbles_num : Z) : reader KeyNibbles :=
  let byte_length := nibbles_num / 2 + nibbles_num mod 2 in
  partial_key ← decodeItems next_byte (Z.to_nat byte_length);
  let partial_key_nibbles := keyToNibbles (byte <$> partial_key) in
  mret (if nibbles_num mod 2 =? 1 then drop 1 partial_key_nibbles else partial_key_nibbles).

(** The loop of [decodeBranch] over the bits of the bitmap; [fuel] children are
    left. *)
Fixpoint decode_children (fuel : nat) (i children_bitmap : Z) : reader (list (option node)) :=
  match fuel with
  | O => mret []
  | S fuel =>
      if Z.testbit children_bitmap i then
        child_hash ← decodeBuffer;
        ch ← decode_children fuel (i + 1) (Z.clearbit children_bitmap i);
        mret (Some (Dummy child_hash) :: ch)
      else
        ch ← decode_children fuel (i + 1) children_bitmap;
        mret (None :: ch)
  end.

Definition decodeBranch (type : NodeType) (partial_key : KeyNibbles) : reader node :=
  more ← hasMore 2;
  if negb more then raise (codec_error INPUT_TOO_SMALL) else
  b0 ← next_byte;
  b1 ← next_byte;
  let children_bitmap := (b0 + Z.shiftl b1 8) mod 2 ^ 16 in
  value ← (match type with
           | BranchWithValue => v ← decodeBuffer; mret (Some v)
           | _ => mret None
           end);
  ch ← decode_children kMaxChildren 0 children_bitmap;
  mret (Branch partial_key value ch).

(** What follows the node in the buffer is not looked at. *)
Definition decodeNode (encoded_data : bytes) : outcome node :=
  r ← (header ← decodeHeader;
       let '(type, pk_length) := header in
       partial_key ← decodePartialKey pk_length;
       match type with
       | TLeaf => value ← decodeBuffer; mret (Leaf partial_key (Some value))
       | BranchEmptyValue | BranchWithValue => decodeBranch type partial_key
       | Special => raise (codec_error UNKNOWN_NODE_TYPE)
       end) encoded_data;
  mret r.1.

End codec.
