(* ===== verification/TrieCodecProps.v ===== *)
(** * Correctness of the codec of trie nodes

    Decoding the encoding of a node returns the node with every child replaced
    by a dummy node that holds the child's Merkle value. *)

From S2P Require Import Prelude Scale ScaleProps Trie TrieLemmas TrieProps TrieMap TrieCodec.

Local Open Scope Z_scope.

#[local] Arguments encodeBuffer : simpl never.
#[local] Arguments encodeHeader : simpl never.

(** ** Readers *)

(** [dec] reads exactly [b], into [v]. *)
Definition reads {A} (dec : reader A) (b : bytes) (v : A) : Prop :=
  forall r, dec (b ++ r) = Ok (v, r).

Lemma codes_reads {A} (dec : reader A) b v : codes dec b v -> reads dec b v.
Proof. by intros []. Qed.

Lemma reads_ret {A} (v : A) : reads (mret v) [] v.
Proof. done. Qed.

Lemma reads_bind {A B} (d : reader A) (f : A -> reader B) b b' a c :
  reads d b a -> reads (f a) b' c -> reads (d ≫= f) (b ++ b') c.
Proof. intros H1 H2 r. unfold mbind, reader_bind. by rewrite <-(assoc_L (++)), H1. Qed.

Lemma reads_map {A B} (d : reader A) (f : A -> B) b a :
  reads d b a -> reads (x ← d; mret (f x)) b (f a).
Proof. intros H. rewrite <-(app_nil_r b). eapply reads_bind; [done|apply reads_ret]. Qed.

Lemma reads_next_byte z : 0 <= z < 256 -> reads next_byte [byte z] z.
Proof. intros H r. simpl. by rewrite uchar_byte, Z.mod_small. Qed.

Lemma reads_items b : reads (decodeItems next_byte (length b)) b (uchar <$> b).
Proof.
  induction b as [|c b IH]; [apply reads_ret|].
  apply (reads_bind next_byte _ [c] b (uchar c)); [done|]. by apply (reads_map _ (cons (uchar c))).
Qed.

Lemma byte_uchar_list (b : bytes) : byte <$> (uchar <$> b) = b.
Proof.
  rewrite <-list_fmap_compose, (list_fmap_ext _ id) by (intros; apply byte_uchar). apply list_fmap_id.
Qed.

(** ** Partial keys *)

Lemma keyToNibbles_pairs n :
  nibbles_ok n -> Nat.even (length n) = true -> keyToNibbles (bytes_of_pairs n) = n.
Proof.
  revert n. fix IH 1. intros [|x [|y n]] Hn He; [done|done|].
  apply nibbles_cons in Hn as [Hx [Hy Hn]%nibbles_cons]. simpl bytes_of_pairs.
  rewrite keyToNibbles_cons, IH by done. change (x :: y :: n) with ([x; y] ++ n). f_equal.
  clear -Hx Hy.
  assert (forallb (fun x => forallb (fun y => bool_decide (nibbles_of (byteFromNibbles x y) = [x; y])) (seq 0 16))
    (seq 0 16) = true) as H by by vm_compute.
  rewrite forallb_forall in H. specialize (H x ltac:(apply in_seq; lia)).
  rewrite forallb_forall in H. specialize (H y ltac:(apply in_seq; lia)). by apply bool_decide_eq_true in H.
Qed.

Lemma length_bytes_of_pairs n : length (bytes_of_pairs n) = Nat.div2 (length n).
Proof. revert n. fix IH 1. intros [|x [|y n]]; [done..|]. simpl. by rewrite IH. Qed.

Lemma nibblesToKey_spec n :
  nibbles_ok n ->
  Z.of_nat (length (nibblesToKey n)) = Z.of_nat (length n) / 2 + Z.of_nat (length n) mod 2 /\
  (if Z.of_nat (length n) mod 2 =? 1 then drop 1 (keyToNibbles (nibblesToKey n))
   else keyToNibbles (nibblesToKey n)) = n.
Proof.
  intros Hn. unfold nibblesToKey. destruct (Nat.even (length n)) eqn:He.
  - rewrite keyToNibbles_pairs, length_bytes_of_pairs by done.
    apply Nat.even_spec in He as [m Hm]. rewrite Hm. rewrite Nat.div2_double.
    replace (Z.of_nat (2 * m) mod 2) with 0 by div_mod_lia.
    replace (Z.of_nat (2 * m) / 2) with (Z.of_nat m) by div_mod_lia. split; [lia|done].
  - destruct n as [|x n]; [done|]. apply nibbles_cons in Hn as [Hx Hn].
    assert (Nat.even (length n) = true) as He'.
    { simpl length in He. rewrite Nat.even_succ in He. by rewrite <-Nat.negb_odd, He. }
    cbn [length]. rewrite length_bytes_of_pairs, keyToNibbles_cons, keyToNibbles_pairs by done.
    apply Nat.even_spec in He' as [m Hm]. rewrite Hm, Nat.div2_double.
    replace (Z.of_nat (S (2 * m)) mod 2) with 1 by div_mod_lia.
    replace (Z.of_nat (S (2 * m)) / 2) with (Z.of_nat m) by div_mod_lia. split; [lia|].
    rewrite nibbles_of_eq, uchar_byte, (Z.mod_small (Z.of_nat x)) by lia. simpl.
    rewrite Z.mod_small, Nat2Z.id by lia. done.
Qed.

Lemma reads_partial_key n :
  nibbles_ok n -> reads (decodePartialKey (Z.of_nat (length n))) (nibblesToKey n) n.
Proof.
  intros Hn. destruct (nibblesToKey_spec n Hn) as [Hl Hk]. unfold decodePartialKey.
  rewrite <-Hl, Nat2Z.id. rewrite <-(byte_uchar_list (nibblesToKey n)) in Hk.
  pose proof (reads_map _ (fun l => if Z.of_nat (length n) mod 2 =? 1
    then drop 1 (keyToNibbles (byte <$> l)) else keyToNibbles (byte <$> l)) _ _ (reads_items (nibblesToKey n))) as H.
  simpl in H. rewrite Hk in H. exact H.
Qed.

(** ** Headers *)

Lemma header_short t size :
  1 <= t <= 3 -> 0 <= size < 63 ->
  Z.shiftr (Z.land (Z.lor (Z.shiftl t 6) size) 192) 6 = t /\ Z.land (Z.lor (Z.shiftl t 6) size) 63 = size /\
  0 <= Z.lor (Z.shiftl t 6) size < 256.
Proof.
  intros Ht Hs.
  assert (forallb (fun t => forallb (fun s => let h := Z.lor (Z.shiftl (Z.of_nat t) 6) (Z.of_nat s) in
    (Z.shiftr (Z.land h 192) 6 =? Z.of_nat t) && (Z.land h 63 =? Z.of_nat s) && (0 <=? h) && (h <? 256))
    (seq 0 63)) (seq 1 3) = true) as H by by vm_compute.
  rewrite forallb_forall in H. specialize (H (Z.to_nat t) ltac:(apply in_seq; lia)).
  rewrite forallb_forall in H. specialize (H (Z.to_nat size) ltac:(apply in_seq; lia)).
  rewrite !Z2Nat.id in H by lia. cbv zeta in H. lia.
Qed.

Lemma reads_lengths m x pk :
  0 <= x < 255 -> reads (read_lengths pk) (replicate m (byte 255) ++ [byte x]) (pk + 255 * Z.of_nat m + x).
Proof.
  intros Hx r. revert pk. induction m as [|m IH]; intros pk.
  - simpl. rewrite uchar_byte, Z.mod_small by lia. destruct (Z.eqb_spec x 255); [lia|].
    do 2 f_equal. lia.
  - cbn [replicate app read_lengths]. change (uchar (byte 255)) with 255. simpl Z.eqb. cbv iota.
    rewrite IH. do 2 f_equal. lia.
Qed.

Lemma reads_header n b t :
  encodeHeader n = Ok b -> header_type n = Ok t ->
  reads decodeHeader b (node_type_of t, Z.of_nat (length (node_key n))).
Proof.
  intros Hb Ht. assert (1 <= t <= 3) as Ht'.
  { unfold header_type in Ht. by destruct (getTrieType n); simplify_eq. }
  unfold encodeHeader in Hb. destruct (Z.ltb_spec 65535 (Z.of_nat (length (node_key n)))); [done|].
  rewrite Ht in Hb. simpl in Hb. set (size := Z.of_nat (length (node_key n))) in *.
  destruct (Z.ltb_spec size 63) as [Hs|Hs]; injection Hb as <-; unfold decodeHeader.
  - destruct (header_short t size) as (H1 & H2 & H3); [lia|lia|].
    apply (reads_bind next_byte _ [byte (Z.lor (Z.shiftl t 6) size)] [] (Z.lor (Z.shiftl t 6) size)); [by apply reads_next_byte|].
    rewrite H1, H2. destruct (Z.eqb_spec size 63); [lia|]. apply reads_ret.
  - replace (Z.shiftl t 6) with (64 * t) by (rewrite Z.shiftl_mul_pow2 by done; lia).
    apply (reads_bind next_byte _ [byte (64 * t + 63)] _ (64 * t + 63)); [apply reads_next_byte; lia|].
    replace (Z.shiftr (Z.land (64 * t + 63) 192) 6) with t.
    2:{ assert (t = 1 \/ t = 2 \/ t = 3) as [->|[->| ->]] by lia; done. }
    replace (Z.land (64 * t + 63) 63) with 63.
    2:{ assert (t = 1 \/ t = 2 \/ t = 3) as [->|[->| ->]] by lia; done. }
    apply (reads_map _ (fun pk => (node_type_of t, pk))).
    assert (0 <= (size - 63) mod 255 < 255) as Hm by (by apply Z.mod_pos_bound).
    pose proof (reads_lengths (Z.to_nat ((size - 63) / 255)) _ 63 Hm) as Hr.
    rewrite Z2Nat.id in Hr by (apply Z.div_pos; lia).
    replace (63 + 255 * ((size - 63) / 255) + (size - 63) mod 255) with size in Hr by div_mod_lia. exact Hr.
Qed.

(** ** The bitmap *)

Lemma testbit_shiftl_1 i j : 0 <= i -> 0 <= j -> Z.testbit (Z.shiftl 1 i) j = (i =? j).
Proof.
  intros Hi Hj. rewrite Z.shiftl_mul_pow2, Z.mul_1_l by done. by rewrite Z.pow2_bits_eqb.
Qed.

Lemma bitmap_from_low i ch j : 0 <= j < i -> Z.testbit (bitmap_from i ch) j = false.
Proof.
  revert i. induction ch as [|c ch IH]; intros i Hj; simpl; [apply Z.bits_0|].
  destruct c as [c|]; [|apply IH; lia].
  rewrite Z.lor_spec, IH, testbit_shiftl_1 by lia. simpl. lia.
Qed.

Lemma bitmap_from_head i c ch : 0 <= i -> Z.testbit (bitmap_from i (c :: ch)) i = bool_decide (is_Some c).
Proof.
  intros Hi. simpl. destruct c as [c|]; [|apply bitmap_from_low; lia].
  rewrite Z.lor_spec, testbit_shiftl_1, Z.eqb_refl by lia. apply orb_true_r.
Qed.

Lemma bitmap_from_tail i c ch j :
  0 <= i < j -> Z.testbit (bitmap_from i (c :: ch)) j = Z.testbit (bitmap_from (i + 1) ch) j.
Proof.
  intros Hj. simpl. destruct c as [c|]; [|done].
  rewrite Z.lor_spec, testbit_shiftl_1 by lia. destruct (Z.eqb_spec i j); [lia|]. apply orb_false_r.
Qed.

(** ** Nodes *)

Section nodes.
Context (hash256 : bytes -> bytes) (max_size : ty -> Z).

(** A buffer that can be held in memory. *)
Definition fits (b : bytes) : Prop :=
  Z.of_nat (length b) <= u64_max /\ Z.of_nat (length b) <= max_size (TInt false 1).

Lemma reads_buffer b : fits b -> exists e, encodeBuffer b = Ok e /\ reads (decodeBuffer max_size) e b.
Proof.
  intros [Hu Hm].
  destruct (proj1 (encode_codes max_size) buffer_ty (uchar <$> b)) as (e & He & Hc); [done| |].
  - simpl. rewrite length_fmap. split_and!; [done..|]. apply Forall_fmap, Forall_true.
    intros c. simpl. unfold int_range. cbn. apply uchar_range.
  - exists e. split; [done|]. apply codes_reads in Hc. rewrite <-(byte_uchar_list b).
    by apply (reads_map _ (fun l : list Z => byte <$> l)).
Qed.

(** The Merkle value of a child, and the children as they are read back. *)
Definition node_ref (c : node) : bytes :=
  match c with
  | Dummy k => k
  | _ => match encodeNode hash256 c with Ok b => merkleValue hash256 b | Err _ => [] end
  end.

Definition dummies (ch : list (option node)) : list (option node) :=
  map (option_map (fun c => Dummy (node_ref c))) ch.

Definition shallow (n : node) : node :=
  match n with
  | Branch k v ch => Branch k v (dummies ch)
  | _ => n
  end.

(** One step of [encode_children]. *)
Lemma encode_children_cons c ch e :
  encode_children hash256 (encodeNode hash256) (Some c :: ch) = Ok e ->
  exists a b, encodeBuffer (node_ref c) = Ok a /\
    encode_children hash256 (encodeNode hash256) ch = Ok b /\ e = a ++ b.
Proof.
  simpl. intros H. inv_ok H. inv_ok H. inv_ok H. injection H as <-.
  assert (node_ref c = a) as ->; [|eauto].
  destruct c; simpl in *; try (by simplify_eq); inv_ok Ha; injection Ha as <-; by rewrite Ha2.
Qed.

Lemma reads_children ch e i bm :
  encode_children hash256 (encodeNode hash256) ch = Ok e ->
  (forall c, Some c ∈ ch -> fits (node_ref c)) -> 0 <= i ->
  (forall j, i <= j < i + Z.of_nat (length ch) -> Z.testbit bm j = Z.testbit (bitmap_from i ch) j) ->
  reads (decode_children max_size (length ch) i bm) e (dummies ch).
Proof.
  revert e i bm. induction ch as [|c ch IH]; intros e i bm He Hfit Hi Hbm.
  { injection He as <-. apply reads_ret. }
  cbn [length] in *. assert (forall c, Some c ∈ ch -> fits (node_ref c)) as Hfit' by (intros; apply Hfit; by right).
  cbn [decode_children]. rewrite (Hbm i), bitmap_from_head by lia.
  destruct c as [c|].
  - rewrite bool_decide_eq_true_2 by done.
    apply encode_children_cons in He as (a & b & Ha & Hb & ->).
    destruct (reads_buffer (node_ref c)) as (a' & Ha' & Hr); [apply Hfit; by left|].
    rewrite Ha in Ha'. injection Ha' as <-. eapply reads_bind; [done|].
    apply (reads_map _ (cons (Some (Dummy (node_ref c))))). apply IH; [done..|lia|].
    intros j Hj. rewrite Z.clearbit_neq by lia. rewrite Hbm by lia. by rewrite bitmap_from_tail by lia.
  - rewrite bool_decide_eq_false_2 by (by intros []).
    apply (reads_map _ (cons None)). apply IH; [done..|lia|].
    intros j Hj. rewrite Hbm by lia. by rewrite bitmap_from_tail by lia.
Qed.

(** The nodes the codec reads back: nibbles in range, 16 children, buffers
    that fit. *)
Definition codec_wf (n : node) : Prop :=
  nibbles_ok (node_key n) /\ (forall v, node_value n = Some v -> fits v) /\
  match n with
  | Branch _ _ ch => length ch = 16%nat /\ forall c, Some c ∈ ch -> fits (node_ref c)
  | _ => True
  end.

Lemma testbit_ushort bm j : 0 <= j < 16 -> 
  Z.testbit ((bm mod 256 + Z.shiftl ((bm / 256) mod 256) 8) mod 2 ^ 16) j = Z.testbit bm j.
Proof.
  intros Hj. rewrite Z.shiftl_mul_pow2 by done. change (2 ^ 8) with 256.
  replace (bm mod 256 + (bm / 256) mod 256 * 256) with (bm mod 2 ^ 16).
  2:{ change (2 ^ 16) with (256 * 256). rewrite Z.rem_mul_r; lia. }
  rewrite Zmod_mod. by rewrite Z.mod_pow2_bits_low by lia.
Qed.

Lemma reads_branch k v ch a e type :
  encode_children hash256 (encodeNode hash256) ch = Ok e -> codec_wf (Branch k v ch) ->
  match v with Some v => encodeBuffer v | None => Ok [] end = Ok a ->
  type = getTrieType (Branch k v ch) ->
  reads (decodeBranch max_size type k) (ushortToBytes (childrenBitmap ch) ++ a ++ e) (Branch k v (dummies ch)).
Proof.
  intros He (_ & Hv & Hl & Hfit) Ha -> r. unfold decodeBranch, mbind at 1, reader_bind at 1, hasMore.
  rewrite bool_decide_eq_true_2 by (simpl; lia). cbn [negb]. revert r.
  unfold ushortToBytes. rewrite !land_255, shiftr_8. set (bm := childrenBitmap ch).
  apply (reads_bind next_byte _ [byte (bm mod 256)] _ (bm mod 256)); [by apply reads_next_byte, Z.mod_pos_bound|].
  apply (reads_bind next_byte _ [byte ((bm / 256) mod 256)] _ ((bm / 256) mod 256));
    [by apply reads_next_byte, Z.mod_pos_bound|].
  eapply (reads_bind _ _ a e v).
  - simpl node_value in Hv. destruct v as [v|]; simpl.
    + destruct (reads_buffer v) as (a' & Ha' & Hr); [by apply Hv|]. rewrite Ha in Ha'. injection Ha' as <-.
      by apply (reads_map _ Some).
    + injection Ha as <-. apply reads_ret.
  - apply (reads_map _ (Branch k v)). unfold kMaxChildren. rewrite <-Hl.
    apply reads_children; [done..|]. intros j Hj. rewrite testbit_ushort by lia. done.
Qed.

Lemma decodeNode_encodeNode n b :
  encodeNode hash256 n = Ok b -> codec_wf n -> decodeNode max_size b = Ok (shallow n).
Proof.
  intros Hb Hwf. unfold decodeNode.
  assert (exists body dec h t, b = h ++ nibblesToKey (node_key n) ++ body /\
    encodeHeader n = Ok h /\ header_type n = Ok t /\
    reads dec body (shallow n) /\ dec = match node_type_of t with
      | TLeaf => value ← decodeBuffer max_size; mret (Leaf (node_key n) (Some value))
      | BranchEmptyValue | BranchWithValue => decodeBranch max_size (node_type_of t) (node_key n)
      | Special => raise (codec_error UNKNOWN_NODE_TYPE)
      end) as (body & dec & h & t & -> & Hh & Ht & Hdec & ->).
  { destruct n as [k v|k v ch|]; [| |done]; simpl in Hb; inv_ok Hb.
    - destruct v as [v|]; [|done]. inv_ok Hb. injection Hb as <-.
      eexists a0, _, a, 1. split_and!; [done..| |done]. destruct Hwf as (_ & Hv & _).
      destruct (reads_buffer v) as (e & He & Hr); [by apply Hv|].
      rewrite Ha0 in He. injection He as <-. by apply (reads_map _ (fun v => Leaf k (Some v))).
    - inv_ok Hb. inv_ok Hb. injection Hb as <-.
      eexists (ushortToBytes (childrenBitmap ch) ++ a0 ++ a1), _, a, (match v with Some _ => 3 | None => 2 end).
      split_and!; [by rewrite <-!(assoc_L (++))|done|by destruct v| |done].
      destruct v; by apply reads_branch. }
  assert (reads (header ← decodeHeader; let '(type, pk_length) := header in
    partial_key ← decodePartialKey pk_length;
    match type with
    | TLeaf => value ← decodeBuffer max_size; mret (Leaf partial_key (Some value))
    | BranchEmptyValue | BranchWithValue => decodeBranch max_size type partial_key
    | Special => raise (codec_error UNKNOWN_NODE_TYPE)
    end) (h ++ nibblesToKey (node_key n) ++ body) (shallow n)) as H.
  { eapply reads_bind; [by apply reads_header|]. eapply reads_bind; [|done].
    apply reads_partial_key. apply Hwf. }
  specialize (H []). rewrite app_nil_r in H. by rewrite H.
Qed.

(** Every node of depth at most [d] that has a value where it needs one, at most
    65535 nibbles in a partial key, and buffers that fit. *)
Fixpoint encodable (d : nat) (n : node) : Prop :=
  match d with
  | O => False
  | S d =>
      nibbles_ok (node_key n) /\ Z.of_nat (length (node_key n)) <= 65535 /\
      (forall v, node_value n = Some v -> fits v) /\
      match n with
      | Leaf _ v => is_Some v
      | Branch _ _ ch =>
          length ch = 16%nat /\
          forall c, Some c ∈ ch -> match c with Dummy k => fits k | _ => encodable d c end
      | Dummy _ => False
      end
  end.

Lemma encodeHeader_total n :
  Z.of_nat (length (node_key n)) <= 65535 -> isDummy n = false -> exists h, encodeHeader n = Ok h.
Proof.
  intros Hl Hd. unfold encodeHeader. destruct (Z.ltb_spec 65535 (Z.of_nat (length (node_key n)))); [lia|].
  destruct n as [|k [v|] ch|]; [..|done]; simpl; destruct (_ <? 63); eauto.
Qed.

Context (Hhash : forall b, length (hash256 b) = 32%nat) (Hmax : 32 <= max_size (TInt false 1)).

Lemma merkleValue_fits b : fits (merkleValue hash256 b).
Proof using Hhash Hmax.
  unfold fits, merkleValue. assert (length (if decide (length b < 32)%nat then b else hash256 b) <= 32)%nat as H.
  { case_decide; [lia|]. by rewrite Hhash. }
  change u64_max with 18446744073709551615. lia.
Qed.

Lemma node_ref_fits c :
  match c with Dummy k => fits k | _ => exists b, encodeNode hash256 c = Ok b end -> fits (node_ref c).
Proof using Hhash Hmax. destruct c; simpl; [intros [b ->]; apply merkleValue_fits..|done]. Qed.

Lemma encode_children_total ch :
  (forall c, Some c ∈ ch -> match c with Dummy k => fits k | _ => exists b, encodeNode hash256 c = Ok b end) ->
  exists e, encode_children hash256 (encodeNode hash256) ch = Ok e.
Proof using Hhash Hmax.
  induction ch as [|[c|] ch IH]; intros Hch; [by eexists| |].
  - destruct IH as [e He]; [intros; apply Hch; by right|]. specialize (Hch c ltac:(by left)).
    destruct (reads_buffer (node_ref c) (node_ref_fits c Hch)) as (a & Ha & _).
    destruct c; cbn [encode_children]; try (destruct Hch as [b Hb]; cbn [node_ref] in Ha; rewrite Hb in Ha |- *);
      simpl in Ha |- *; rewrite Ha; simpl; rewrite He; by eexists.
  - apply IH. intros; apply Hch; by right.
Qed.

Lemma encodable_encodes d n :
  encodable d n -> codec_wf n /\ exists b, encodeNode hash256 n = Ok b.
Proof using Hhash Hmax.
  revert n. induction d as [|d IH]; intros n Hn; [done|]. destruct Hn as (Hk & Hl & Hv & Hn).
  assert (isDummy n = false) as Hd by (by destruct n).
  destruct (encodeHeader_total n Hl Hd) as [h Hh]. destruct n as [k v|k v ch|]; [| |done].
  - destruct Hn as [w ->]. split; [by split_and!|]. cbn [encodeNode]. rewrite Hh. simpl.
    destruct (reads_buffer w) as (a & Ha & _); [by apply Hv|]. rewrite Ha. by eexists.
  - destruct Hn as [Hlen Hch].
    assert (forall c, Some c ∈ ch -> match c with Dummy k => fits k | _ => exists b, encodeNode hash256 c = Ok b end) as Hch'.
    { intros c Hc. specialize (Hch c Hc). destruct c; [by apply IH..|done]. }
    split.
    { split_and!; [done..|]. intros c Hc. by apply node_ref_fits, Hch'. }
    destruct (encode_children_total ch Hch') as [e He]. cbn [encodeNode]. rewrite Hh. simpl.
    assert (exists a, match v with Some v => encodeBuffer v | None => Ok [] end = Ok a) as [a Ha].
    { destruct v as [v|]; [|by eexists]. destruct (reads_buffer v) as (a & Ha & _); [by apply Hv|]. eauto. }
    rewrite Ha. simpl. rewrite He. by eexists.
Qed.

(** C17. Decoding a node inverts encoding it, up to the children: a node whose
    partial keys have at most 65535 nibbles is encoded, and the node that is
    read back has the same type, partial key and value, each child being a
    dummy node with the Merkle value of the child that was written. *)
Theorem codec_round_trip d n :
  encodable d n -> exists b, encodeNode hash256 n = Ok b /\ decodeNode max_size b = Ok (shallow n).
Proof using Hhash Hmax.
  intros Hn. destruct (encodable_encodes d n Hn) as [Hwf [b Hb]].
  exists b. split; [done|]. by apply decodeNode_encodeNode.
Qed.

End nodes.

(** A hash for the witnesses, without collisions among short byte strings: the
    string itself, filled up to 31 bytes, and its length. *)
Definition demo_hash (b : bytes) : bytes :=
  take 31 (b ++ replicate 31 (byte 0)) ++ [byte (Z.of_nat (length b))].

Lemma demo_hash_length b : length (demo_hash b) = 32%nat.
Proof.
  unfold demo_hash. rewrite length_app, length_take, length_app, length_replicate. cbn [length]. lia.
Qed.

Lemma codec_round_trip_witness :
  exists b, encodeNode demo_hash (Branch [6; 1]%nat (Some (str "v")) (<[3%nat := Some (Leaf [2]%nat (Some (str "w")))]> no_children)) = Ok b /\
    decodeNode (fun _ => u64_max) b =
      Ok (shallow demo_hash (Branch [6; 1]%nat (Some (str "v")) (<[3%nat := Some (Leaf [2]%nat (Some (str "w")))]> no_children))).
Proof.
  apply (codec_round_trip demo_hash (fun _ => u64_max) demo_hash_length ltac:(by vm_compute) 2).
  assert (forall l, forallb (fun x => x <? 16)%nat l = true -> nibbles_ok l) as Hn.
  { intros l. rewrite forallb_forall. intros H. apply Forall_forall. intros x Hx.
    apply Nat.ltb_lt, H. by apply list_elem_of_In. }
  split_and!; [by apply Hn|by vm_compute|intros v [= <-]; by split|done|].
  intros c Hc. apply list_elem_of_lookup in Hc as [i Hi]. 
  do 16 (destruct i as [|i]; [simplify_eq/=; try (split_and!; [by apply Hn|by vm_compute|intros v [= <-]; by split|done])|]).
  done.
Defined.
