(* ===== verification/TrieSerializer.v ===== *)
(** * Storing tries

    Models [src/src/storage/trie/serialization/trie_serializer_impl.cpp] and the
    backend that prefixes the keys of nodes, [src/src/storage/trie/impl]
    [trie_storage_backend_impl.cpp] and [trie_storage_backend_batch.cpp], over
    the interface [BufferStorage].  Storing a trie replaces the nodes below its
    root by dummy nodes in place; the operations return the node they leave,
    also when they fail.

    A trie that was stored is found again: retrieving it by the root hash gives
    a trie with the same lookups, and so has the trie left in memory.  The
    theorem is about tries of which a part may still be in the storage, over
    any storage that implements [BufferStorage], for a hash without collisions
    among the encodings that occur. *)

From S2P Require Import Prelude Store BufferStorage Scale Trie TrieCodec ScaleProps TrieLemmas TrieProps TrieMap TrieCodecProps.
(** ** The backend *)

Section serializer.
Context {St B : Type} `{!BufferStorage St B}.
Context (node_prefix : bytes) (hash256 : bytes -> bytes) (max_size : ty -> Z).

Definition prefixKey (key : bytes) : bytes := node_prefix ++ key.

Definition backend_get (s : St) (key : bytes) : outcome bytes := st_get s (prefixKey key).

Definition backend_batch_put (b : B) (key value : bytes) : outcome unit * B :=
  st_bput b (prefixKey key) value.

(** ** The serializer *)

Definition getEmptyRootHash : bytes := hash256 [byte 0].

(** [storeChildren] over the children, [store] being [storeNode]: the nodes
    before a failure have been replaced. *)
Definition storeChildren (store : node -> B -> outcome bytes * node * B)
    : list (option node) -> B -> outcome unit * list (option node) * B :=
  fix go ch b :=
    match ch with
    | [] => (Ok tt, [], b)
    | Some (Dummy k) :: ch =>
        let '(r, ch', b') := go ch b in (r, Some (Dummy k) :: ch', b')
    | Some c :: ch =>
        match store c b with
        | (Ok hash, _, b1) =>
            let '(r, ch', b') := go ch b1 in (r, Some (Dummy hash) :: ch', b')
        | (Err e, c', b1) => (Err e, Some c' :: ch, b1)
        end
    | None :: ch =>
        let '(r, ch', b') := go ch b in (r, None :: ch', b')
    end.

(** The encoding of a node whose children have been stored is put under its
    Merkle value. *)
Definition put_node (n : node) (b : B) : outcome bytes * node * B :=
  match encodeNode hash256 n with
  | Err e => (Err e, n, b)
  | Ok enc =>
      let key := merkleValue hash256 enc in
      match backend_batch_put b key enc with
      | (Ok _, b') => (Ok key, n, b')
      | (Err e, b') => (Err e, n, b')
      end
  end.

Fixpoint storeNode (n : node) (b : B) : outcome bytes * node * B :=
  match n with
  | Branch k v ch =>
      match storeChildren storeNode ch b with
      | (Ok _, ch', b1) => put_node (Branch k v ch') b1
      | (Err e, ch', b1) => (Err e, Branch k v ch', b1)
      end
  | _ => put_node n b
  end.

(** The root is put under the hash of its encoding, and the batch is
    committed. *)
Definition put_root (n : node) (b : B) (s : St) : outcome bytes * node * St :=
  match encodeNode hash256 n with
  | Err e => (Err e, n, s)
  | Ok enc =>
      let key := hash256 enc in
      match backend_batch_put b key enc with
      | (Err e, _) => (Err e, n, s)
      | (Ok _, b') =>
          match st_commit b' s with
          | (Ok _, s') => (Ok key, n, s')
          | (Err e, s') => (Err e, n, s')
          end
      end
  end.

Definition storeRootNode (n : node) (s : St) : outcome bytes * node * St :=
  match n with
  | Branch k v ch =>
      match storeChildren storeNode ch st_batch with
      | (Ok _, ch', b1) => put_root (Branch k v ch') b1 s
      | (Err e, ch', _) => (Err e, Branch k v ch', s)
      end
  | _ => put_root n st_batch s
  end.

Definition storeTrie (root : option node) (s : St) : outcome bytes * option node * St :=
  match root with
  | None => (Ok getEmptyRootHash, None, s)
  | Some n => let '(r, n', s') := storeRootNode n s in (r, Some n', s')
  end.

Definition retrieveNode (s : St) (db_key : bytes) : outcome (option node) :=
  if decide (db_key = [] \/ db_key = getEmptyRootHash) then Ok None else
  enc ← backend_get s db_key;
  n ← decodeNode max_size enc;
  mret (Some n).

(** [retrieveChild] on a child that is present. *)
Definition load_child (s : St) (c : node) : outcome (option node) :=
  match c with
  | Dummy db_key => retrieveNode s db_key
  | _ => Ok (Some c)
  end.

(** The root of the trie [retrieveTrie] creates; its functor is
    [load_child]. *)
Definition retrieveTrie (s : St) (db_key : bytes) : outcome (option node) :=
  if decide (db_key = getEmptyRootHash) then Ok None else retrieveNode s db_key.

End serializer.

(** ** Correctness of storing tries *)

(** A hash of 32 bytes that separates the byte strings in [U], one of which is
    the encoding of the empty trie. *)
Class HashOn (hash256 : bytes -> bytes) (U : bytes -> Prop) : Prop := {
  hash_length b : length (hash256 b) = 32;
  hash_inj a b : U a -> U b -> hash256 a = hash256 b -> a = b;
  hash_empty : U [byte 0]
}.

(** ** Encodings *)

Section encodings.
Context (hash256 : bytes -> bytes) (max_size : ty -> Z).

(** The first byte of an encoding holds the type of the node. *)
Lemma encodeNode_head n e : encodeNode hash256 n = Ok e -> exists c e', e = c :: e' /\ c <> byte 0.
Proof.
  intros He. assert (exists h r, encodeHeader n = Ok h /\ e = h ++ r) as (h & r & Hh & ->).
  { destruct n as [k v|k v ch|]; [| |done]; simpl in He; inv_ok He.
    - destruct v; [|done]. inv_ok He. injection He as <-. eauto.
    - inv_ok He. inv_ok He. injection He as <-. rewrite <-!(assoc_L (++)). eauto. }
  unfold encodeHeader in Hh. case_match; [done|]. inv_ok Hh.
  assert (1 <= a <= 3)%Z as Ht.
  { unfold header_type in Ha. by destruct (getTrieType n); simplify_eq. }
  assert (forall z, z mod 256 <> 0 -> byte z <> byte 0)%Z as Hbyte.
  { intros z Hz Hb%(f_equal uchar). by rewrite !uchar_byte in Hb. }
  destruct (Z.ltb_spec (Z.of_nat (length (node_key n))) 63); injection Hh as <-; eexists _, _; (split; [done|]).
  - apply Hbyte. destruct (header_short a (Z.of_nat (length (node_key n)))) as (H1 & H2 & H3); [lia|lia|].
    rewrite Z.mod_small by done. intros E. rewrite E, Z.land_0_l, Z.shiftr_0_l in H1. lia.
  - apply Hbyte. rewrite Z.shiftl_mul_pow2 by done. assert (a = 1 \/ a = 2 \/ a = 3)%Z as [->|[->| ->]] by lia; done.
Qed.

Lemma bitmap_dummies i ch : bitmap_from i (dummies hash256 ch) = bitmap_from i ch.
Proof. revert i. induction ch as [|[c|] ch IH]; intros i; simpl; [done|by rewrite IH..]. Qed.

Lemma encode_children_dummies ch e :
  encode_children hash256 (encodeNode hash256) ch = Ok e ->
  encode_children hash256 (encodeNode hash256) (dummies hash256 ch) = Ok e.
Proof.
  revert e. induction ch as [|[c|] ch IH]; intros e He; [done| |].
  - apply encode_children_cons in He as (a & b & Ha & Hb & ->).
    change (dummies hash256 (Some c :: ch)) with (Some (Dummy (node_ref hash256 c)) :: dummies hash256 ch).
    cbn [encode_children mbind outcome_bind]. rewrite Ha. cbn [mbind outcome_bind].
    by rewrite (IH b Hb).
  - simpl in *. auto.
Qed.

(** The encoding does not depend on whether the children have been stored. *)
Lemma encodeNode_shallow n e :
  encodeNode hash256 n = Ok e -> encodeNode hash256 (shallow hash256 n) = Ok e.
Proof.
  destruct n as [|k v ch|]; [done| |done]. cbn [shallow encodeNode]. intros He.
  inv_ok He. inv_ok He. inv_ok He. injection He as <-.
  assert (encodeHeader (Branch k v (dummies hash256 ch)) = Ok a) as ->.
  { unfold encodeHeader, header_type in *. by destruct v. }
  cbn [mbind outcome_bind]. rewrite Ha0. cbn [mbind outcome_bind].
  rewrite (encode_children_dummies _ _ Ha1). unfold childrenBitmap. by rewrite bitmap_dummies.
Qed.

End encodings.

(** ** What the storage holds *)

Section store.
Context (hash256 : bytes -> bytes) (max_size : ty -> Z) (U : bytes -> Prop) {HH : HashOn hash256 U}.

Abbreviation mv := (merkleValue hash256).
Abbreviation empty_root := (getEmptyRootHash hash256).

(** The contents of a storage by the keys of nodes. *)
Definition env : Type := bytes -> option bytes.

Definition addresses (k v : bytes) : Prop := k = mv v \/ k = hash256 v.

Definition env_ok (E : env) : Prop := forall k v, E k = Some v -> U v /\ addresses k v.

Definition sub (E E' : env) : Prop := forall k v, E k = Some v -> E' k = Some v.

Lemma addresses_unique k v w : U v -> U w -> addresses k v -> addresses k w -> v = w.
Proof using HH.
  intros Hv Hw. unfold addresses, merkleValue.
  pose proof (hash_length (U := U) v). pose proof (hash_length (U := U) w).
  pose proof (hash_inj v w Hv Hw). repeat case_decide; intros [] []; subst; auto; try (exfalso; lia); congruence.
Qed.

(** Writing a node keeps what is stored. *)
Lemma env_put E E' k v :
  env_ok E -> U v -> addresses k v ->
  (forall k', E' k' = if decide (k' = k) then Some v else E k') -> env_ok E' /\ sub E E' /\ E' k = Some v.
Proof using HH.
  intros HE Hv Ha H. split_and!.
  - intros k' w. rewrite H. case_decide; [|apply HE]. intros [= <-]. by subst.
  - intros k' w Hw. rewrite H. case_decide as Hk; [|done]. subst k'. f_equal.
    destruct (HE k w Hw) as [Hw' Ha']. by apply (addresses_unique k).
  - rewrite H. by rewrite decide_True.
Qed.

Lemma sub_trans E1 E2 E3 : sub E1 E2 -> sub E2 E3 -> sub E1 E3.
Proof. intros H1 H2 k v Hk. by apply H2, H1. Qed.

Definition env_load (E : env) (c : node) : outcome (option node) :=
  match c with
  | Dummy k =>
      if decide (k = [] \/ k = empty_root) then Ok None else
      match E k with
      | Some enc => n ← decodeNode max_size enc; mret (Some n)
      | None => Err (database_error NOT_FOUND)
      end
  | _ => Ok (Some c)
  end.

#[export] Instance env_Loader E : Loader (env_load E).
Proof. intros [] H; done. Qed.

Lemma env_load_sub E E' c c' : sub E E' -> env_load E c = Ok c' -> env_load E' c = Ok c'.
Proof.
  intros Hs. destruct c; simpl; [done..|]. case_decide; [done|].
  destruct (E db_key) as [enc|] eqn:He; [|done]. by rewrite (Hs _ _ He).
Qed.

(** More nodes in the storage do not change the lookups. *)
Lemma find_sub E E' d n k :
  sub E E' -> inv (env_load E) any_branch d n -> find (env_load E') n k = find (env_load E) n k.
Proof.
  intros Hs. revert n k. induction d as [|d IH]; intros n k Hn; [done|].
  destruct n as [nk v|nk v ch|]; [by rewrite !find_Leaf| |done].
  rewrite !find_Branch. destruct (strip nk k) as [[|i s]|]; [done| |done]. simpl.
  destruct Hn as (_ & _ & _ & Hch). unfold child_at, retrieveChild.
  destruct (ch !! i) as [[c|]|] eqn:Hi; [|done..].
  destruct (Hch i c Hi) as (c' & Hc & Hinv). rewrite Hc, (env_load_sub _ _ _ _ Hs Hc).
  by apply IH.
Qed.

(** The encoding of a node is stored under its Merkle value. *)
Definition kept (E : env) (c : node) : Prop :=
  codec_wf hash256 max_size c /\ exists e, encodeNode hash256 c = Ok e /\ E (mv e) = Some e.

(** Every node below [n] that is in memory is stored. *)
Fixpoint saved (d : nat) (E : env) (n : node) : Prop :=
  match d with
  | O => False
  | S d => forall c, Some c ∈ node_children n -> isDummy c = false -> kept E c /\ saved d E c
  end.

Lemma kept_sub E E' c : sub E E' -> kept E c -> kept E' c.
Proof. intros Hs (Hwf & e & He & Hk). split; [done|]. exists e. split; [done|]. by apply Hs. Qed.

Lemma saved_sub d E E' n : sub E E' -> saved d E n -> saved d E' n.
Proof.
  intros Hs. revert n. induction d as [|d IH]; intros n Hn; [done|].
  intros c Hc Hd. destruct (Hn c Hc Hd) as [Hk Hsv]. split; [by eapply kept_sub|by apply IH].
Qed.

Lemma kept_load E c :
  env_ok E -> kept E c -> isDummy c = false ->
  env_load E (Dummy (node_ref hash256 c)) = Ok (Some (shallow hash256 c)).
Proof using HH.
  intros HE (Hwf & e & He & Hk) Hd.
  assert (node_ref hash256 c = mv e) as ->. { destruct c; simpl in *; [by rewrite He..|done]. }
  destruct (HE _ _ Hk) as [HU _]. simpl. rewrite Hk, (decodeNode_encodeNode hash256 max_size c e He Hwf).
  rewrite decide_False; [done|]. destruct (encodeNode_head _ _ _ He) as (c0 & e' & -> & Hc0).
  unfold merkleValue. pose proof (hash_length (U := U) (c0 :: e')) as H1.
  pose proof (hash_length (U := U) [byte 0]) as H2. unfold getEmptyRootHash.
  case_decide as Hlen; intros [H|H].
  - done.
  - rewrite H in Hlen. lia.
  - rewrite H in H1. done.
  - apply (hash_inj (U := U)) in H; [|done|apply hash_empty]. naive_solver.
Qed.

(** A trie and its copy with the children replaced have the same lookups. *)
Lemma find_shallow d E n k :
  env_ok E -> saved d E n -> find (env_load E) (shallow hash256 n) k = find (env_load E) n k.
Proof using HH.
  intros HE. revert n k. induction d as [|d IH]; intros n k Hn; [done|].
  destruct n as [|nk v ch|]; [done| |done]. simpl. rewrite !find_Branch.
  destruct (strip nk k) as [[|i s]|]; [done| |done]. simpl. unfold child_at, retrieveChild, dummies.
  rewrite (list_lookup_fmap (option_map (fun c => Dummy (node_ref hash256 c))) ch i : map _ ch !! i = _).
  destruct (ch !! i) as [[c|]|] eqn:Hi; [|done..]. simpl option_map.
  apply list_elem_of_lookup_2 in Hi. simpl.
  destruct (isDummy c) eqn:Hd; [by destruct c|].
  destruct (Hn c Hi Hd) as [Hk Hs].
  pose proof (kept_load E c HE Hk Hd) as Hl. cbn [env_load] in Hl. rewrite Hl.
  rewrite (load_node c Hd). by apply IH.
Qed.

End store.

(** ** Storing *)

Section storing.
Context {St B : Type} `{!BufferStorage St B} `{!BufferStorageSpec St B}.
Context (node_prefix : bytes) (hash256 : bytes -> bytes) (max_size : ty -> Z).
Context (U : bytes -> Prop) {HH : HashOn hash256 U}.

Abbreviation mv := (merkleValue hash256).
Abbreviation kept := (kept hash256 max_size).
Abbreviation saved := (saved hash256 max_size).
Abbreviation env_load := (env_load hash256 max_size).
Abbreviation env_ok := (env_ok hash256 U).

(** The nodes in the storage, and those once a batch has been committed. *)
Definition store_env (s : St) : env := fun k => st_find s (prefixKey node_prefix k).
Definition batch_env (s : St) (b : B) : env := fun k =>
  match b_find b (prefixKey node_prefix k) with Some v => Some v | None => store_env s k end.

(** What is needed of a node before it is stored: it can be encoded and read
    back, and its encoding and those of the nodes below are in [U]. *)
Fixpoint storable (d : nat) (n : node) : Prop :=
  match d with
  | O => False
  | S d =>
      codec_wf hash256 max_size n /\ (exists e, encodeNode hash256 n = Ok e /\ U e) /\
      forall c, Some c ∈ node_children n -> isDummy c = false -> storable d c
  end.

(** A step that stores something: the batch stays usable and keeps what it
    holds. *)
Definition extends (s : St) (b b' : B) : Prop :=
  b_ok b' /\ env_ok (batch_env s b') /\ sub (batch_env s b) (batch_env s b').

Lemma extends_refl s b : b_ok b -> env_ok (batch_env s b) -> extends s b b.
Proof. intros Hb HE. split_and!; [done..|]. by intros k v. Qed.

Lemma extends_trans s b1 b2 b3 : extends s b1 b2 -> extends s b2 b3 -> extends s b1 b3.
Proof. intros (? & ? & ?) (? & ? & ?). split_and!; [done..|]. by eapply sub_trans. Qed.

Lemma batch_put_env s b key v b' :
  b_ok b -> env_ok (batch_env s b) -> U v -> addresses hash256 key v ->
  backend_batch_put node_prefix b key v = (Ok tt, b') ->
  extends s b b' /\ batch_env s b' key = Some v.
Proof using HH.
  intros Hb HE Hv Ha Hput. destruct (st_bput_spec _ _ _ _ Hb Hput) as [Hb' Hf].
  destruct (env_put hash256 U (batch_env s b) (batch_env s b') key v HE Hv Ha) as (H1 & H2 & H3); [|done].
  intros k'. unfold batch_env. rewrite Hf. unfold prefixKey. repeat case_decide; try done; [|by subst].
  by apply app_inv_head in H.
Qed.

Lemma put_node_spec s b n e key n' b' :
  b_ok b -> env_ok (batch_env s b) -> encodeNode hash256 n = Ok e -> U e ->
  put_node node_prefix hash256 n b = (Ok key, n', b') ->
  n' = n /\ key = mv e /\ extends s b b' /\ batch_env s b' (mv e) = Some e.
Proof using HH.
  intros Hb HE He HU. unfold put_node. rewrite He.
  destruct (backend_batch_put node_prefix b (mv e) e) as [[[]|] b1] eqn:Hp; intros [= <- <- <-].
  split_and!; [done..| |]; eapply batch_put_env; try done; by left.
Qed.

(** The equations of [storeChildren]. *)
Lemma storeChildren_none store ch b :
  storeChildren (B := B) store (None :: ch) b =
    let '(r, ch', b') := storeChildren store ch b in (r, None :: ch', b').
Proof. done. Qed.

Lemma storeChildren_dummy store k ch b :
  storeChildren (B := B) store (Some (Dummy k) :: ch) b =
    let '(r, ch', b') := storeChildren store ch b in (r, Some (Dummy k) :: ch', b').
Proof. done. Qed.

Lemma storeChildren_node store c ch b :
  isDummy c = false ->
  storeChildren (B := B) store (Some c :: ch) b =
    match store c b with
    | (Ok hash, _, b1) =>
        let '(r, ch', b') := storeChildren store ch b1 in (r, Some (Dummy hash) :: ch', b')
    | (Err e, c', b1) => (Err e, Some c' :: ch, b1)
    end.
Proof. by destruct c. Qed.

(** [storeChildren], given that [store] does what [storeNode] does. *)
Lemma storeChildren_spec store s d ch b ch' b' :
  (forall c b key c' b', b_ok b -> env_ok (batch_env s b) -> storable d c -> store c b = (Ok key, c', b') ->
    extends s b b' /\ kept (batch_env s b') c /\ saved d (batch_env s b') c /\ key = node_ref hash256 c) ->
  b_ok b -> env_ok (batch_env s b) ->
  (forall c, Some c ∈ ch -> isDummy c = false -> storable d c) ->
  storeChildren store ch b = (Ok tt, ch', b') ->
  extends s b b' /\ ch' = dummies hash256 ch /\
  forall c, Some c ∈ ch -> isDummy c = false -> kept (batch_env s b') c /\ saved d (batch_env s b') c.
Proof.
  intros Hstore. revert b ch' b'. induction ch as [|x ch IH]; intros b ch' b' Hb HE Hch Hs.
  { injection Hs as <- <-. split; [by apply extends_refl|]. split; [done|by intros c ?%not_elem_of_nil]. }
  assert (forall c, Some c ∈ ch -> isDummy c = false -> storable d c) as Hch' by (intros; apply Hch; [by right|done]).
  destruct x as [c|]; [destruct (isDummy c) eqn:Hd|].
  - destruct c as [| |k]; [done..|]. rewrite storeChildren_dummy in Hs.
    destruct (storeChildren store ch b) as [[r ch1] b1] eqn:Hgo. injection Hs as -> <- <-.
    destruct (IH _ _ _ Hb HE Hch' Hgo) as (He & -> & Hk). split_and!; [apply He..|done|].
    intros c [[= ->]|Hc]%elem_of_cons Hdc; [done|by apply Hk].
  - rewrite storeChildren_node in Hs by done.
    destruct (store c b) as [[[key|] c'] b1] eqn:Hc; [|done].
    destruct (Hstore _ _ _ _ _ Hb HE (Hch c ltac:(by left) Hd) Hc) as (He1 & Hkept & Hsaved & ->).
    destruct (storeChildren store ch b1) as [[r ch1] b2] eqn:Hgo. injection Hs as -> <- <-.
    destruct (IH b1 _ _ ltac:(apply He1) ltac:(apply He1) Hch' Hgo) as (He2 & -> & Hk).
    split; [by eapply extends_trans|]. split; [done|].
    intros c0 [[= ->]|Hc0]%elem_of_cons Hdc; [|by apply Hk].
    destruct He2 as (_ & _ & Hsub). split; [by eapply kept_sub|by eapply saved_sub].
  - rewrite storeChildren_none in Hs.
    destruct (storeChildren store ch b) as [[r ch1] b1] eqn:Hgo. injection Hs as -> <- <-.
    destruct (IH _ _ _ Hb HE Hch' Hgo) as (He & -> & Hk). split_and!; [apply He..|done|].
    intros c [?|Hc]%elem_of_cons Hdc; [done|by apply Hk].
Qed.

(** [storeNode] writes the node and every node below it. *)
Lemma storeNode_spec s d n b key n' b' :
  b_ok b -> env_ok (batch_env s b) -> storable d n ->
  storeNode node_prefix hash256 n b = (Ok key, n', b') ->
  extends s b b' /\ kept (batch_env s b') n /\ saved d (batch_env s b') n /\ key = node_ref hash256 n.
Proof using HH.
  revert n b key n' b'. induction d as [|d IH]; intros n b key n' b' Hb HE Hn Hs; [done|].
  destruct Hn as (Hwf & (e & He & HU) & Hch). destruct n as [k v|k v ch|].
  - cbn [storeNode] in Hs. destruct (put_node_spec s _ _ _ _ _ _ Hb HE He HU Hs) as (_ & -> & Hx & Hk).
    split; [done|]. split; [split; [done|by exists e]|].
    split; [by intros c ?%not_elem_of_nil|by unfold node_ref; rewrite He].
  - cbn [storeNode] in Hs.
    destruct (storeChildren _ ch b) as [[[[]|] ch1] b1] eqn:Hsc; [|done].
    destruct (storeChildren_spec _ s d ch b ch1 b1 (IH) Hb HE Hch Hsc) as (Hx1 & -> & Hk1).
    pose proof (encodeNode_shallow hash256 _ _ He) as He'. simpl shallow in He'.
    destruct (put_node_spec s _ _ _ _ _ _ (proj1 Hx1) (proj1 (proj2 Hx1)) He' HU Hs) as (_ & -> & Hx2 & Hk2).
    split; [by eapply extends_trans|]. split; [split; [done|by exists e]|].
    split; [|by unfold node_ref; rewrite He].
    intros c Hc Hd. destruct (Hk1 c Hc Hd) as [Hkc Hsc']. destruct Hx2 as (_ & _ & Hsub).
    split; [by eapply kept_sub|by eapply saved_sub].
  - done.
Qed.

(** The functor of the serializer and that of [store_env] fetch the same. *)
Lemma load_child_env s c c' :
  load_child node_prefix hash256 max_size s c = Ok c' <-> env_load (store_env s) c = Ok c'.
Proof.
  destruct c as [| |k]; [done..|]. cbn [load_child TrieSerializer.env_load].
  unfold retrieveNode, backend_get, store_env. case_decide; [done|].
  pose proof (st_get_spec s (prefixKey node_prefix k)) as Hget.
  destruct (st_find s (prefixKey node_prefix k)); [by rewrite Hget|]. by destruct (st_get s _).
Qed.

Abbreviation load s := (load_child node_prefix hash256 max_size s).

Lemma find_load_env s n k : find (load s) n k = find (env_load (store_env s)) n k.
Proof.
  unfold find. generalize (node_key n). revert n. induction k as [|i k IH]; intros n p; [done|].
  destruct p as [|x p]; simpl; [|case_decide; [apply IH|done]].
  assert (child_at (load s) (node_children n) i = child_at (env_load (store_env s)) (node_children n) i) as ->.
  { unfold child_at, retrieveChild. destruct (node_children n !! i) as [[c|]|]; [|done..].
    pose proof (load_child_env s c) as Hl.
    destruct (load s c) as [x|], (env_load (store_env s) c) as [y|]; [|exfalso..|done].
    - by injection (proj1 (Hl x) eq_refl) as ->.
    - by pose proof (proj1 (Hl x) eq_refl).
    - by pose proof (proj2 (Hl y) eq_refl). }
  destruct (child_at _ _ i); [|done]. apply IH.
Qed.

Lemma inv_load_env s d n :
  inv (load s) any_branch d n -> inv (env_load (store_env s)) any_branch d n.
Proof.
  revert n. induction d as [|d IH]; intros n Hn; [done|]. destruct n as [|k v ch|]; [done| |done].
  destruct Hn as (Hk & Hl & HP & Hch). split_and!; [done..|]. intros i c Hc.
  destruct (Hch i c Hc) as (c' & Hc' & Hinv). exists c'. split; [by apply load_child_env|by apply IH].
Qed.

Lemma put_root_spec s b n e h n' s' :
  b_ok b -> env_ok (batch_env s b) -> encodeNode hash256 n = Ok e -> U e ->
  put_root node_prefix hash256 n b s = (Ok h, n', s') ->
  n' = n /\ h = hash256 e /\ env_ok (store_env s') /\ sub (batch_env s b) (store_env s') /\
  store_env s' (hash256 e) = Some e.
Proof using HH.
  intros Hb HE He HU. unfold put_root. rewrite He.
  destruct (backend_batch_put node_prefix b (hash256 e) e) as [[[]|] b1] eqn:Hp; [|done].
  destruct (st_commit b1 s) as [[[]|] s1] eqn:Hc; [|done]. intros [= <- <- <-].
  destruct (batch_put_env s b (hash256 e) e b1 Hb HE HU ltac:(by right) Hp) as ((Hb1 & HE1 & Hs1) & Hk1).
  assert (forall k, store_env s1 k = batch_env s b1 k) as Heq.
  { intros k. unfold store_env, batch_env. by rewrite (st_commit_spec _ _ _ Hb1 Hc). }
  split_and!; [done..| | |by rewrite Heq].
  - intros k v. rewrite Heq. apply HE1.
  - intros k v Hkv. rewrite Heq. by apply Hs1.
Qed.

(** Storing a root writes it and the nodes below it. *)
Lemma storeRootNode_spec s d n h n' s' :
  env_ok (store_env s) -> storable d n -> storeRootNode node_prefix hash256 n s = (Ok h, n', s') ->
  exists e, encodeNode hash256 n = Ok e /\ U e /\ h = hash256 e /\ n' = shallow hash256 n /\
    env_ok (store_env s') /\ sub (store_env s) (store_env s') /\ store_env s' h = Some e /\
    saved d (store_env s') n.
Proof using HH.
  intros HE Hn Hs. destruct d as [|d]; [done|]. destruct Hn as (Hwf & (e & He & HU) & Hch). exists e.
  destruct st_batch_spec as [Hb0 Hf0].
  assert (forall k, batch_env s st_batch k = store_env s k) as Heq0 by (intros k; unfold batch_env; by rewrite Hf0).
  assert (env_ok (batch_env s st_batch)) as HE0 by (intros k v; rewrite Heq0; apply HE).
  assert (sub (store_env s) (batch_env s st_batch)) as Hs0 by (intros k v; by rewrite Heq0).
  destruct n as [k v|k v ch|]; [| |done]; cbn [storeRootNode] in Hs.
  - destruct (put_root_spec s _ _ _ _ _ _ Hb0 HE0 He HU Hs) as (-> & -> & H1 & H2 & H3).
    split_and!; [done..|exact (sub_trans _ _ _ Hs0 H2)|done|by intros c ?%not_elem_of_nil].
  - destruct (storeChildren _ ch st_batch) as [[[[]|] ch1] b1] eqn:Hsc; [|done].
    destruct (storeChildren_spec _ s d ch _ ch1 b1 (storeNode_spec s d) Hb0 HE0 Hch Hsc) as (Hx1 & -> & Hk1).
    pose proof (encodeNode_shallow hash256 _ _ He) as He'. simpl shallow in He'.
    destruct Hx1 as (Hb1 & HE1 & Hs1).
    destruct (put_root_spec s _ _ _ _ _ _ Hb1 HE1 He' HU Hs) as (-> & -> & H1 & H2 & H3).
    split_and!; [done..|exact (sub_trans _ _ _ Hs0 (sub_trans _ _ _ Hs1 H2))|done|].
    intros c Hc Hd. destruct (Hk1 c Hc Hd) as [Hkc Hsc'].
    split; [by eapply kept_sub|by eapply saved_sub].
Qed.

(** A stored trie is found again: when [storeTrie] succeeds, retrieving
    the root hash it returns gives a trie in which every key has the value it
    had, and so has the trie that is left in memory, whose nodes have been
    replaced by dummy nodes.  The trie may hold dummy nodes of a part that was
    never loaded; the storage is one in which nodes lie under their hashes. *)
Theorem store_retrieve s d d' n h root' s' :
  env_ok (store_env s) -> storable d n -> inv (load s) any_branch d' n ->
  storeTrie node_prefix hash256 (Some n) s = (Ok h, root', s') ->
  exists m, retrieveTrie node_prefix hash256 max_size s' h = Ok (Some m) /\
    (forall k, find (load s') m k = find (load s) n k) /\
    (forall k, find_root (load s') root' k = find (load s) n k).
Proof using HH.
  intros HE Hn Hinv Hs. cbn [storeTrie] in Hs.
  destruct (storeRootNode node_prefix hash256 n s) as [[r n'] s1] eqn:Hroot. injection Hs as -> <- <-.
  destruct (storeRootNode_spec s d n h n' s1 HE Hn Hroot) as (e & He & HU & Hh & -> & HE' & Hsub & Hk & Hsv).
  assert (forall k, find (load s1) (shallow hash256 n) k = find (load s) n k) as Hfind.
  { intros k. rewrite !find_load_env. rewrite (find_shallow hash256 max_size U d) by done.
    apply (find_sub _ _ _ _ d'); [done|by apply inv_load_env]. }
  exists (shallow hash256 n). split_and!; [|done..].
  assert (h <> [] /\ h <> getEmptyRootHash hash256) as [Hne1 Hne2].
  { destruct (encodeNode_head _ _ _ He) as (c & e' & -> & Hc). rewrite Hh. split.
    - intros E%(f_equal length). by rewrite (hash_length (U := U)) in E.
    - unfold getEmptyRootHash. intros E. apply (hash_inj (U := U)) in E; [|done|apply hash_empty]. naive_solver. }
  unfold retrieveTrie, retrieveNode. rewrite decide_False by done. rewrite decide_False by naive_solver.
  unfold backend_get. pose proof (st_get_spec s1 (prefixKey node_prefix h)) as Hget.
  unfold store_env in Hk. rewrite Hk in Hget. rewrite Hget. simpl.
  destruct d as [|d]; [done|]. destruct Hn as (Hwf & _). by rewrite (decodeNode_encodeNode hash256 max_size n e He Hwf).
Qed.

End storing.

(** ** A witness *)

Lemma demo_hash_on : HashOn demo_hash (fun b => length b < 31).
Proof.
  split; [apply demo_hash_length| |simpl; lia].
  intros a b Ha Hb H. unfold demo_hash in H. apply app_inj_2 in H as [H1 H2]; [|done].
  injection H2 as H2. apply (f_equal uchar) in H2. rewrite !uchar_byte, !Z.mod_small in H2 by lia.
  apply Nat2Z.inj in H2. rewrite !take_app_ge, !take_replicate in H1 by lia.
  by apply app_inj_1 in H1 as [].
Qed.

Definition demo_node : node :=
  Branch [6]%nat None (<[1%nat := Some (Leaf [2]%nat (Some (str "w")))]>
    (<[2%nat := Some (Leaf [] (Some (str "v")))]> no_children)).

Lemma store_retrieve_witness :
  exists h root' s' m,
    storeTrie (str ":n:") demo_hash (Some demo_node) (∅ : InMemoryStorage) = (Ok h, root', s') /\
    retrieveTrie (str ":n:") demo_hash (fun _ => u64_max) s' h = Ok (Some m) /\
    (forall k, find (load_child (str ":n:") demo_hash (fun _ => u64_max) s') m k =
      find (load_child (str ":n:") demo_hash (fun _ => u64_max) ∅) demo_node k) /\
    (forall k, find_root (load_child (str ":n:") demo_hash (fun _ => u64_max) s') root' k =
      find (load_child (str ":n:") demo_hash (fun _ => u64_max) ∅) demo_node k).
Proof.
  destruct (storeTrie (str ":n:") demo_hash (Some demo_node) (∅ : InMemoryStorage)) as [[r root'] s'] eqn:E.
  assert (exists h, r = Ok h) as [h ->].
  { apply (f_equal (fun x => x.1.1)) in E. vm_compute in E. by eexists. }
  assert (forall c, Some c ∈ node_children demo_node ->
    c = Leaf [2]%nat (Some (str "w")) \/ c = Leaf [] (Some (str "v"))) as Hch.
  { intros c Hc. apply list_elem_of_lookup in Hc as [i Hi].
    do 16 (destruct i as [|i]; [simplify_eq/=; auto|]). done. }
  assert (forall k v, nibbles_ok k -> fits (fun _ => u64_max) v -> codec_wf demo_hash (fun _ => u64_max) (Leaf k (Some v))) as Hwf.
  { intros k v Hk Hv. split_and!; [done| |done]. by intros ? [= <-]. }
  assert (nibbles_ok [2] /\ nibbles_ok [6]) as [H2 H6] by (split; by repeat constructor; lia).
  destruct (store_retrieve (str ":n:") demo_hash (fun _ => u64_max) (fun b => length b < 31)
    (HH := demo_hash_on) ∅ 2 2 demo_node h root' s') as (m & Hm); [| | |done|].
  - intros k v Hk. by vm_compute in Hk.
  - split_and!.
    + split_and!; [exact H6|by intros v|]. split; [done|]. intros c Hc. destruct (Hch c Hc) as [-> | ->]; split; by vm_compute.
    + eexists. split; [by vm_compute|simpl; lia].
    + intros c Hc _. destruct (Hch c Hc) as [-> | ->].
      all: split_and!; [apply Hwf; [done || constructor|split; by vm_compute]|eexists; split; [by vm_compute|simpl; lia]|by intros ? ?%not_elem_of_nil].
  - split_and!; [exact H6|done|done|]. intros i c Hi. apply list_elem_of_lookup_2, Hch in Hi as [-> | ->];
      eexists; (split; [done|]); (split; [done || constructor|done]).
  - by exists h, root', s', m.
Defined.
