(* ===== verification/ChangesTrie.v ===== *)
(** * The changes trie

    Models [src/src/storage/changes_trie/impl]: the tracker of the changes of a
    block ([storage_changes_tracker_impl.cpp]) and the trie that is built of
    them ([changes_trie.cpp]), over the trie, its codec and the SCALE codec.
    The extrinsic index comes from a delegate; its result is an argument of the
    operations that call it.  Notifications of the subscription engine are
    recorded as events. *)

From S2P Require Import Prelude Scale ScaleProps Trie TrieLemmas TrieProps TrieMap TrieCodec TrieCodecProps.

(** ** The tracker *)

Record tracker : Type := {
  extrinsics_changes_ : gmap bytes (list Z);
  new_entries_ : gset bytes;
  parent_hash_ : bytes;
  parent_number_ : Z;
  notified : list (bytes * bytes * bytes)
}.

Definition index_ty : ty := TInt false 4.

Section changes.
Context (hash256 : bytes -> bytes) (max_size : ty -> Z).

Definition New (empty_hash : bytes) : tracker :=
  {| extrinsics_changes_ := ∅; new_entries_ := ∅; parent_hash_ := empty_hash;
     parent_number_ := u64_max; notified := [] |}.

Definition onBlockChange (new_parent_hash : bytes) (new_parent_number : Z) (t : tracker) : tracker :=
  {| extrinsics_changes_ := ∅; new_entries_ := ∅; parent_hash_ := new_parent_hash;
     parent_number_ := new_parent_number; notified := notified t |}.

(** The index [get_extrinsic_index_] returned, decoded. *)
Definition extrinsic_index (idx_bytes : outcome bytes) : outcome Z :=
  b ← idx_bytes; scale_decode max_size index_ty b.

Definition onPut (idx_bytes : outcome bytes) (key value : bytes) (is_new_entry : bool) (t : tracker)
    : outcome unit * tracker :=
  match extrinsic_index idx_bytes with
  | Err e => (Err e, t)
  | Ok idx =>
      let events := notified t ++ [(key, value, parent_hash_ t)] in
      match extrinsics_changes_ t !! key with
      | Some l =>
          (Ok tt, {| extrinsics_changes_ := <[key := l ++ [idx]]> (extrinsics_changes_ t);
                     new_entries_ := new_entries_ t; parent_hash_ := parent_hash_ t;
                     parent_number_ := parent_number_ t; notified := events |})
      | None =>
          (Ok tt, {| extrinsics_changes_ := <[key := [idx]]> (extrinsics_changes_ t);
                     new_entries_ := (if is_new_entry then {[key]} ∪ new_entries_ t else new_entries_ t);
                     parent_hash_ := parent_hash_ t; parent_number_ := parent_number_ t;
                     notified := events |})
      end
  end.

Definition onRemove (idx_bytes : outcome bytes) (key : bytes) (t : tracker) : outcome unit * tracker :=
  match extrinsic_index idx_bytes with
  | Err e => (Err e, t)
  | Ok idx =>
      let set_changes changes new :=
        {| extrinsics_changes_ := changes; new_entries_ := new; parent_hash_ := parent_hash_ t;
           parent_number_ := parent_number_ t; notified := notified t |} in
      match extrinsics_changes_ t !! key with
      | Some l =>
          if decide (key ∈ new_entries_ t) then
            (Ok tt, set_changes (delete key (extrinsics_changes_ t)) (new_entries_ t ∖ {[key]}))
          else (Ok tt, set_changes (<[key := l ++ [idx]]> (extrinsics_changes_ t)) (new_entries_ t))
      | None => (Ok tt, set_changes (<[key := [idx]]> (extrinsics_changes_ t)) (new_entries_ t))
      end
  end.

(** ** The trie *)

Definition KeyIndex_ty : ty := TPair (TInt false 8) buffer_ty.

(** [boost::variant<Unused<0>, ExtrinsicsChangesKey, BlocksChangesKey,
    ChildChangesKey>]. *)
Definition KeyIndexVariant : ty :=
  TVariant (More TUnit (More KeyIndex_ty (More KeyIndex_ty (One KeyIndex_ty)))).

Definition ExtrinsicsChangesKey (block : Z) (key : bytes) : value KeyIndexVariant :=
  inr (inl (block, uchar <$> key)).

Definition encode_change (parent_number : Z) (change : bytes * list Z) : outcome (bytes * bytes) :=
  let current_number := u64 (parent_number + 1) in
  key_enc ← encode KeyIndexVariant (ExtrinsicsChangesKey current_number change.1);
  value ← encode (TVector index_ty) change.2;
  mret (key_enc, value).

Fixpoint build_loop (parent_number : Z) (changes : list (bytes * list Z)) (trie : option node)
    : outcome (option node) :=
  match changes with
  | [] => Ok trie
  | change :: changes =>
      kv ← encode_change parent_number change;
      trie' ← put default_load trie kv.1 kv.2;
      build_loop parent_number changes trie'
  end.

Definition buildFromChanges (parent_number : Z) (changes : gmap bytes (list Z)) : outcome (option node) :=
  build_loop parent_number (in_key_order changes) None.

(** A root that cannot be encoded has the hash of zeros. *)
Definition getHash (root : option node) : bytes :=
  match root with
  | None => hash256 [byte 0]
  | Some n =>
      match encodeNode hash256 n with
      | Ok enc => hash256 enc
      | Err _ => replicate 32 (byte 0)
      end
  end.

Definition constructChangesTrie (parent : bytes) (t : tracker) : outcome bytes :=
  if decide (parent <> parent_hash_ t) then Err changes_invalid_parent_hash else
  trie ← buildFromChanges (parent_number_ t) (extrinsics_changes_ t);
  mret (getHash trie).

(** ** Properties *)

Definition tracker_ok (t : tracker) : Prop := new_entries_ t ⊆ dom (extrinsics_changes_ t).

Inductive event : Type :=
  | EvPut (idx_bytes : outcome bytes) (key value : bytes) (is_new : bool)
  | EvRemove (idx_bytes : outcome bytes) (key : bytes)
  | EvBlock (hash : bytes) (number : Z).

Definition step (t : tracker) (e : event) : tracker :=
  match e with
  | EvPut i k v n => (onPut i k v n t).2
  | EvRemove i k => (onRemove i k t).2
  | EvBlock h n => onBlockChange h n t
  end.

Lemma step_ok t e : tracker_ok t -> tracker_ok (step t e).
Proof.
  unfold tracker_ok. intros H. destruct e as [i k v n|i k|h n]; simpl.
  - unfold onPut. destruct (extrinsic_index i); [|done]. destruct (_ !! k) eqn:Hk; simpl.
    + set_solver.
    + destruct n; set_solver.
  - unfold onRemove. destruct (extrinsic_index i); [|done]. destruct (_ !! k) eqn:Hk; simpl; [|set_solver].
    case_decide; simpl; [rewrite dom_delete_L|]; set_solver.
  - set_solver.
Qed.

(** The entries tracked as new are tracked, after any sequence of events. *)
Lemma tracker_invariant h l : tracker_ok (fold_left step l (New h)).
Proof.
  assert (tracker_ok (New h)) as H by (unfold tracker_ok; set_solver).
  revert H. generalize (New h). induction l as [|e l IH]; intros t Ht; simpl; [done|].
  by apply IH, step_ok.
Qed.

(** A key that is put as new and removed in the same block is not tracked. *)
Theorem temporary_key_untracked i j key value t idx idx' :
  extrinsic_index i = Ok idx -> extrinsic_index j = Ok idx' -> tracker_ok t ->
  extrinsics_changes_ t !! key = None ->
  let t' := (onRemove j key (onPut i key value true t).2).2 in
  extrinsics_changes_ t' = extrinsics_changes_ t /\ new_entries_ t' = new_entries_ t.
Proof.
  intros Hi Hj Hok Hk. unfold onPut. rewrite Hi, Hk. simpl. unfold onRemove. rewrite Hj. simpl.
  rewrite lookup_insert_eq, decide_True by set_solver. simpl. split.
  - by rewrite delete_insert_id by done.
  - assert (key ∉ new_entries_ t) by (intros Hin; apply Hok, elem_of_dom in Hin as [? ?]; congruence).
    set_solver.
Qed.

(** What can be encoded: 64-bit numbers, 32-bit indices, buffers and lists that
    fit in memory. *)
Definition change_ok (pn : Z) (change : bytes * list Z) : Prop :=
  wf max_size KeyIndexVariant (ExtrinsicsChangesKey (u64 (pn + 1)) change.1) /\
  wf max_size (TVector index_ty) change.2.

Lemma encode_change_ok pn change :
  change_ok pn change -> exists kv, encode_change pn change = Ok kv.
Proof.
  intros [Hk Hv]. unfold encode_change.
  destruct (proj1 (encode_codes max_size) KeyIndexVariant _ eq_refl Hk) as (a & -> & _).
  destruct (proj1 (encode_codes max_size) (TVector index_ty) _ eq_refl Hv) as (b & Hb & _).
  cbn [mbind outcome_bind]. rewrite Hb. by eexists.
Qed.

Lemma uchar_fmap_inj (a b : bytes) : uchar <$> a = uchar <$> b -> a = b.
Proof. intros H. by rewrite <-(byte_uchar_list a), H, byte_uchar_list. Qed.

(** Different keys have different encodings. *)
Lemma encode_change_inj pn c c' kv kv' :
  change_ok pn c -> change_ok pn c' -> encode_change pn c = Ok kv -> encode_change pn c' = Ok kv' ->
  kv.1 = kv'.1 -> c.1 = c'.1.
Proof.
  intros [Hc _] [Hc' _] H H'. unfold encode_change in H, H'. inv_ok H. inv_ok H. inv_ok H'. inv_ok H'.
  injection H as <-. injection H' as <-. simpl. intros E.
  destruct (scale_prefix_free max_size KeyIndexVariant _ _ _ _ [] [] eq_refl Hc Hc' Ha Ha1) as [Heq _];
    [by rewrite E|]. injection Heq as Heq. by apply uchar_fmap_inj.
Qed.

Definition encoded (pn : Z) (c : bytes * list Z) : bytes * bytes :=
  match encode_change pn c with Ok kv => kv | Err _ => ([], []) end.

Lemma build_loop_puts pn l root :
  Forall (change_ok pn) l -> build_loop pn l root = puts root (encoded pn <$> l).
Proof.
  intros Hl. revert root. induction Hl as [|c l Hc Hl IH]; intros root; [done|].
  cbn [build_loop fmap list_fmap puts]. unfold encoded at 1.
  destruct (encode_change_ok pn c Hc) as [[k v] ->]. cbn [mbind outcome_bind fst snd].
  destruct (put default_load root k v); [|done]. apply IH.
Qed.

Lemma encoded_NoDup pn l : Forall (change_ok pn) l -> NoDup l.*1 -> NoDup (encoded pn <$> l).*1.
Proof.
  induction 1 as [|c l Hc Hl IH]; [done|]. rewrite !fmap_cons, !NoDup_cons. intros [Hn Hnd].
  split; [|by apply IH]. rewrite <-list_fmap_compose. intros Hin. apply list_elem_of_fmap in Hin as (c' & Heq & Hc').
  rewrite Forall_forall in Hl. specialize (Hl c' Hc'). simpl in Heq. unfold encoded in Heq.
  destruct (encode_change_ok pn c Hc) as [kv Hkv], (encode_change_ok pn c' Hl) as [kv' Hkv'].
  rewrite Hkv, Hkv' in Heq. apply Hn. rewrite (encode_change_inj pn c c' kv kv') by done.
  by apply list_elem_of_fmap_2.
Qed.

(** The changes trie of a block holds exactly its changes: building it
    succeeds, every changed key is found under its encoded index with the
    encoded list of the extrinsics that changed it, and nothing else is in the
    trie. *)
Theorem changes_trie_contents pn changes :
  (forall k l, changes !! k = Some l -> change_ok pn (k, l)) ->
  exists root, buildFromChanges pn changes = Ok root /\
    forall ke ve, lookup default_load root ke = Some ve <->
      exists k l, changes !! k = Some l /\ encode_change pn (k, l) = Ok (ke, ve).
Proof.
  intros Hok. unfold buildFromChanges. set (l := in_key_order changes).
  assert (l ≡ₚ map_to_list changes) as Hp by apply in_key_order_permutation.
  assert (forall k x, (k, x) ∈ l <-> changes !! k = Some x) as Hin.
  { intros k x. rewrite Hp. apply elem_of_map_to_list. }
  assert (Forall (change_ok pn) l) as Hall.
  { apply Forall_forall. intros [k x] Hkx. by apply Hok, Hin. }
  assert (NoDup (encoded pn <$> l).*1) as Hnd.
  { apply encoded_NoDup; [done|]. rewrite Hp. apply NoDup_fst_map_to_list. }
  rewrite build_loop_puts by done.
  destruct (puts_spec None (encoded pn <$> l) I Hnd) as (root & -> & _ & Hf). exists root. split; [done|].
  intros ke ve. unfold lookup. rewrite Hf. change (find_root default_load None _) with (@None bytes).
  assert (as_map (encoded pn <$> l) !! keyToNibbles ke = Some ve <-> (ke, ve) ∈ encoded pn <$> l) as Hm.
  { unfold as_map. rewrite <-elem_of_list_to_map.
    - rewrite list_elem_of_fmap. split; [|by exists (ke, ve)].
      intros ([k v] & [= Hk ->] & Hkv). by apply keyToNibbles_inj in Hk as ->.
    - rewrite <-list_fmap_compose. change (fst ∘ prod_map keyToNibbles id) with (keyToNibbles ∘ (@fst bytes bytes)).
      rewrite list_fmap_compose. apply NoDup_fmap_2; [|done]. intros ???. by apply keyToNibbles_inj. }
  transitivity (as_map (encoded pn <$> l) !! keyToNibbles ke = Some ve); [by destruct (_ !! _)|].
  rewrite Hm, list_elem_of_fmap. split.
  - intros ([k x] & Hkv & Hkx). exists k, x. split; [by apply Hin|]. unfold encoded in Hkv.
    rewrite Forall_forall in Hall. destruct (encode_change_ok pn (k, x) (Hall _ Hkx)) as [kv Hkv'].
    rewrite Hkv' in Hkv |- *. by subst.
  - intros (k & x & Hkx & He). exists (k, x). unfold encoded. rewrite He. split; [done|by apply Hin].
Qed.

End changes.

Lemma changes_trie_contents_witness :
  exists root kv, buildFromChanges 7 {[ str "k" := [0; 2]%Z ]} = Ok root /\
    encode_change 7 (str "k", [0; 2]%Z) = Ok kv /\ lookup default_load root kv.1 = Some kv.2.
Proof.
  destruct (changes_trie_contents (fun _ => u64_max) 7 {[ str "k" := [0; 2]%Z ]}) as (root & Hb & Hf).
  - intros k l Hk. apply lookup_singleton_Some in Hk as [<- <-].
    split; cbn [wf KeyIndexVariant alts_wf ExtrinsicsChangesKey KeyIndex_ty index_ty buffer_ty fst snd]; split_and!.
    all: repeat first [apply Forall_nil_2 | apply Forall_cons; split | by vm_compute].
  - assert (exists ke ve, encode_change 7 (str "k", [0; 2]%Z) = Ok (ke, ve)) as (ke & ve & He).
    { eexists _, _. vm_compute. reflexivity. }
    exists root, (ke, ve). refine (conj Hb (conj He _)). apply Hf. exists (str "k"), [0; 2]%Z.
    exact (conj (lookup_singleton_eq _ _) He).
Defined.
