(* ===== verification/TrieStorage.v ===== *)
(** * The trie storage and its batches

    Models [src/src/storage/trie/impl]: [trie_storage_impl.cpp], the persistent
    and ephemeral batches ([persistent_trie_batch_impl.cpp],
    [ephemeral_trie_batch_impl.cpp]) and the batch on top of another one
    ([topper_trie_batch_impl.cpp]).  [TrieBatch] is the interface of a batch;
    the batch on top is modelled against it. *)

From S2P Require Import Prelude Store BufferStorage Scale ScaleProps Trie TrieLemmas TrieProps TrieMap.
From S2P Require Import TrieCodec TrieCodecProps TrieSerializer ChangesTrie.

(** ** The interface of a batch *)

Class TrieBatch (P : Type) := {
  tb_get : P -> bytes -> outcome bytes;
  tb_contains : P -> bytes -> bool;
  tb_empty : P -> bool;
  tb_put : P -> bytes -> bytes -> outcome unit * P;
  tb_remove : P -> bytes -> outcome unit * P;
  tb_clearPrefix : P -> bytes -> outcome unit * P
}.

(** What a batch promises: it is a map, of which keys that are present are
    read and removed. *)
Class TrieBatchSpec (P : Type) `{!TrieBatch P} := {
  tb_find : P -> bytes -> option bytes;
  tb_ok : P -> Prop;
  tb_get_present p k v : tb_find p k = Some v -> tb_get p k = Ok v;
  tb_put_spec p k v : tb_ok p ->
    exists p', tb_put p k v = (Ok tt, p') /\ tb_ok p' /\
      forall k', tb_find p' k' = if decide (k' = k) then Some v else tb_find p k';
  tb_remove_spec p k : tb_ok p -> is_Some (tb_find p k) ->
    exists p', tb_remove p k = (Ok tt, p') /\ tb_ok p' /\
      forall k', tb_find p' k' = if decide (k' = k) then None else tb_find p k';
  tb_clearPrefix_spec p k : tb_ok p ->
    exists p', tb_clearPrefix p k = (Ok tt, p') /\ tb_ok p' /\
      forall k', tb_find p' k' = if decide (k `prefix_of` k') then None else tb_find p k'
}.

(** ** Ephemeral and persistent batches *)

Section batches.
Context (load : node -> outcome (option node)) (max_size : ty -> Z).

(** An operation on the trie of a batch: on failure the trie is kept. *)
Definition on_trie (r : outcome (option node)) (trie : option node) : outcome unit * option node :=
  match r with
  | Ok trie' => (Ok tt, trie')
  | Err e => (Err e, trie)
  end.

(** An ephemeral batch is its trie. *)
Definition EphemeralTrieBatch : Type := option node.

#[export] Instance ephemeral_batch : TrieBatch EphemeralTrieBatch := {
  tb_get := get load;
  tb_contains := contains load;
  tb_empty := empty;
  tb_put trie k v := on_trie (put load trie k v) trie;
  tb_remove trie k := on_trie (remove load trie k) trie;
  tb_clearPrefix trie k := on_trie (clearPrefix load trie k) trie
}.

Record PersistentTrieBatch : Type := {
  trie_ : option node;
  changes_ : option tracker
}.

Definition EXTRINSIC_INDEX_KEY : bytes := str ":extrinsic_index".

(** [scale::encode(0xffffffff)]. *)
Definition NO_EXTRINSIC_INDEX_VALUE : bytes := encodeInteger 4 (2 ^ 32 - 1).

(** The delegate the batch gives to the tracker. *)
Definition extrinsic_index_getter (trie : option node) : outcome bytes :=
  match get load trie EXTRINSIC_INDEX_KEY with
  | Err trie_no_value => Ok NO_EXTRINSIC_INDEX_VALUE
  | r => r
  end.

(** Reports a change of the trie to the tracker, if there is one. *)
Definition track (op : outcome bytes -> tracker -> outcome unit * tracker) (trie : option node)
    (changes : option tracker) : outcome unit * PersistentTrieBatch :=
  match changes with
  | None => (Ok tt, {| trie_ := trie; changes_ := None |})
  | Some t =>
      let '(r, t') := op (extrinsic_index_getter trie) t in
      (r, {| trie_ := trie; changes_ := Some t' |})
  end.

Definition persistent_put (b : PersistentTrieBatch) (key value : bytes) : outcome unit * PersistentTrieBatch :=
  let is_new_entry := negb (contains load (trie_ b) key) in
  match put load (trie_ b) key value with
  | Ok trie => track (fun idx => onPut max_size idx key value is_new_entry) trie (changes_ b)
  | Err e => (Err e, b)
  end.

Definition persistent_remove (b : PersistentTrieBatch) (key : bytes) : outcome unit * PersistentTrieBatch :=
  match remove load (trie_ b) key with
  | Ok trie => track (fun idx => onRemove max_size idx key) trie (changes_ b)
  | Err e => (Err e, b)
  end.

Definition persistent_clearPrefix (b : PersistentTrieBatch) (prefix : bytes) : outcome unit * PersistentTrieBatch :=
  match clearPrefix load (trie_ b) prefix with
  | Ok trie => (Ok tt, {| trie_ := trie; changes_ := changes_ b |})
  | Err e => (Err e, b)
  end.

#[export] Instance persistent_batch : TrieBatch PersistentTrieBatch := {
  tb_get b := get load (trie_ b);
  tb_contains b := contains load (trie_ b);
  tb_empty b := empty (trie_ b);
  tb_put := persistent_put;
  tb_remove := persistent_remove;
  tb_clearPrefix := persistent_clearPrefix
}.

(** *** They implement the interface *)

Context {HL : Loader load}.

Lemma get_found trie k v : lookup load trie k = Some v -> get load trie k = Ok v.
Proof.
  unfold lookup, get. destruct trie as [p|]; [|done]. intros H.
  destruct (getNode_present load (trie_fuel (keyToNibbles k)) p (keyToNibbles k) v H)
    as (n & -> & Hn); [unfold trie_fuel; lia|]. simpl. by rewrite Hn.
Qed.

Lemma put_map trie k v :
  root_inv load any_branch trie ->
  exists trie', put load trie k v = Ok trie' /\ root_inv load any_branch trie' /\
    forall k', lookup load trie' k' = if decide (k' = k) then Some v else lookup load trie k'.
Proof using HL.
  intros H. destruct (put_inv load any_branch trie k v H) as (trie' & Hput & Hinv).
  exists trie'. split_and!; [done..|]. intros k'. unfold lookup. rewrite (put_find load _ _ _ _ _ Hput).
  apply decide_ext. split; [apply keyToNibbles_inj|by intros ->].
Qed.

Lemma remove_map trie k :
  root_inv load any_branch trie -> is_Some (lookup load trie k) ->
  exists trie', remove load trie k = Ok trie' /\ root_inv load any_branch trie' /\
    forall k', lookup load trie' k' = if decide (k' = k) then None else lookup load trie k'.
Proof using HL.
  intros Hinv [v Hv]. destruct trie as [p|]; [|done]. destruct Hinv as [d Hd]. unfold remove.
  destruct (deleteNode_present load any_branch (trie_fuel (keyToNibbles k)) d p (keyToNibbles k) Hd)
    as (m & -> & Hm & Hf); [by unfold lookup in Hv; simpl in Hv; rewrite Hv|unfold trie_fuel; lia|].
  exists m. split_and!; [done|destruct m; simpl; eauto|]. intros k'. unfold lookup. rewrite Hf.
  apply decide_ext. split; [apply keyToNibbles_inj|by intros ->].
Qed.

Lemma clearPrefix_map trie k :
  root_inv load any_branch trie ->
  exists trie', clearPrefix load trie k = Ok trie' /\ root_inv load any_branch trie' /\
    forall k', lookup load trie' k' = if decide (k `prefix_of` k') then None else lookup load trie k'.
Proof using HL.
  intros Hinv. unfold clearPrefix. destruct trie as [p|].
  2:{ exists None. split_and!; [done..|]. intros k'. by case_decide. }
  destruct Hinv as [d Hd].
  destruct (detachNode_find load (trie_fuel (keyToNibbles k)) d p (keyToNibbles k) Hd
    (keyToNibbles_ok k)) as (m & -> & Hm & Hf); [unfold trie_fuel; lia|].
  exists m. split_and!; [done|destruct m; simpl; eauto|]. intros k'. unfold lookup. rewrite Hf.
  apply decide_ext, keyToNibbles_prefix.
Qed.

#[export] Instance ephemeral_batch_spec : TrieBatchSpec EphemeralTrieBatch.
Proof using HL.
  refine {| tb_find := lookup load; tb_ok := root_inv load any_branch |}; simpl.
  - apply get_found.
  - intros p k v Hp. destruct (put_map p k v Hp) as (p' & -> & H). by exists p'.
  - intros p k Hp Hk. destruct (remove_map p k Hp Hk) as (p' & -> & H). by exists p'.
  - intros p k Hp. destruct (clearPrefix_map p k Hp) as (p' & -> & H). by exists p'.
Defined.

(** A persistent batch without tracker. *)
#[export] Instance persistent_batch_spec : TrieBatchSpec PersistentTrieBatch.
Proof using HL.
  refine {| tb_find b := lookup load (trie_ b);
            tb_ok b := root_inv load any_branch (trie_ b) /\ changes_ b = None |}; simpl.
  - intros b. apply get_found.
  - intros b k v [Hp Hc]. unfold persistent_put. destruct (put_map (trie_ b) k v Hp) as (p' & -> & H1 & H2).
    rewrite Hc. by eexists.
  - intros b k [Hp Hc] Hk. unfold persistent_remove.
    destruct (remove_map (trie_ b) k Hp Hk) as (p' & -> & H1 & H2). rewrite Hc. by eexists.
  - intros b k [Hp Hc]. unfold persistent_clearPrefix.
    destruct (clearPrefix_map (trie_ b) k Hp) as (p' & -> & H1 & H2). by eexists.
Defined.

End batches.

(** ** A batch on top of another one *)

Section topper.
Context {P : Type} `{!TrieBatch P}.

(** [parent_] is a weak pointer: [None] once the parent is gone.  The cache
    holds the changed keys, [None] for a removed one. *)
Record TopperTrieBatch : Type := {
  cache_ : gmap bytes (option bytes);
  cleared_prefixes_ : list bytes;
  parent_ : option P
}.

Definition topper_new (parent : P) : TopperTrieBatch :=
  {| cache_ := ∅; cleared_prefixes_ := []; parent_ := Some parent |}.

(** One prefix of [wasClearedByPrefix]: all but the last byte of the shorter of
    key and prefix are compared; an empty one makes the iterator run away. *)
Definition is_cleared (key prefix : bytes) : outcome bool :=
  match Nat.min (length key) (length prefix) with
  | O => Err undefined_behaviour
  | S n => Ok (bool_decide (take n key = take n prefix))
  end.

Fixpoint cleared_loop (key : bytes) (prefixes : list bytes) : outcome bool :=
  match prefixes with
  | [] => Ok false
  | prefix :: prefixes =>
      c ← is_cleared key prefix;
      if (c : bool) then mret true else cleared_loop key prefixes
  end.

Definition wasClearedByPrefix (b : TopperTrieBatch) (key : bytes) : outcome bool :=
  cleared_loop key (cleared_prefixes_ b).

Definition topper_get (b : TopperTrieBatch) (key : bytes) : outcome bytes :=
  match cache_ b !! key with
  | Some (Some v) => Ok v
  | Some None => Err trie_no_value
  | None =>
      cleared ← wasClearedByPrefix b key;
      if (cleared : bool) then Err trie_no_value else
      match parent_ b with
      | Some p => tb_get p key
      | None => Err batch_parent_expired
      end
  end.

Definition topper_contains (b : TopperTrieBatch) (key : bytes) : outcome bool :=
  match cache_ b !! key with
  | Some o => Ok (bool_decide (is_Some o))
  | None =>
      cleared ← wasClearedByPrefix b key;
      if (cleared : bool) then Ok false else
      match parent_ b with
      | Some p => Ok (tb_contains p key)
      | None => Ok false
      end
  end.

Definition topper_empty (b : TopperTrieBatch) : bool :=
  if bool_decide (Exists (fun e : bytes * option bytes => is_Some e.2) (in_key_order (cache_ b))) then false else
  match parent_ b with
  | Some p => tb_empty p
  | None => true
  end.

Definition set_cache (b : TopperTrieBatch) (cache : gmap bytes (option bytes)) : TopperTrieBatch :=
  {| cache_ := cache; cleared_prefixes_ := cleared_prefixes_ b; parent_ := parent_ b |}.

Definition topper_put (b : TopperTrieBatch) (key value : bytes) : TopperTrieBatch :=
  set_cache b (<[key := Some value]> (cache_ b)).

Definition topper_remove (b : TopperTrieBatch) (key : bytes) : TopperTrieBatch :=
  set_cache b (<[key := None]> (cache_ b)).

(** The loop of [clearPrefix] over the cache: the first bytes of a key that is
    shorter than the prefix are out of its bounds. *)
Fixpoint clear_cached (prefix : bytes) (entries : list (bytes * option bytes))
    (cache : gmap bytes (option bytes)) : outcome (gmap bytes (option bytes)) :=
  match entries with
  | [] => Ok cache
  | (k, _) :: entries =>
      if decide (length k < length prefix) then Err undefined_behaviour else
      clear_cached prefix entries
        (if decide (take (length prefix) k = prefix) then <[k := None]> cache else cache)
  end.

Definition topper_clearPrefix (b : TopperTrieBatch) (prefix : bytes) : outcome unit * TopperTrieBatch :=
  match clear_cached prefix (in_key_order (cache_ b)) (cache_ b) with
  | Err e => (Err e, b)
  | Ok cache =>
      let b' := {| cache_ := cache; cleared_prefixes_ := cleared_prefixes_ b ++ [prefix]; parent_ := parent_ b |} in
      match parent_ b with
      | Some _ => (Ok tt, b')
      | None => (Err batch_parent_expired, b')
      end
  end.

Fixpoint write_prefixes (prefixes : list bytes) (p : P) : outcome unit * P :=
  match prefixes with
  | [] => (Ok tt, p)
  | prefix :: prefixes =>
      match tb_clearPrefix p prefix with
      | (Ok _, p') => write_prefixes prefixes p'
      | (Err e, p') => (Err e, p')
      end
  end.

Fixpoint write_entries (entries : list (bytes * option bytes)) (p : P) : outcome unit * P :=
  match entries with
  | [] => (Ok tt, p)
  | (k, o) :: entries =>
      match (match o with Some v => tb_put p k v | None => tb_remove p k end) with
      | (Ok _, p') => write_entries entries p'
      | (Err e, p') => (Err e, p')
      end
  end.

(** [writeBack], with the parent it leaves. *)
Definition writeBack (b : TopperTrieBatch) : outcome unit * option P :=
  match parent_ b with
  | None => (Err batch_parent_expired, None)
  | Some p =>
      match write_prefixes (cleared_prefixes_ b) p with
      | (Err e, p1) => (Err e, Some p1)
      | (Ok _, p1) =>
          let '(r, p2) := write_entries (in_key_order (cache_ b)) p1 in (r, Some p2)
      end
  end.

(** *** Writing back *)

Context `{!TrieBatchSpec P}.

Lemma write_prefixes_spec prefixes p :
  tb_ok p ->
  exists p', write_prefixes prefixes p = (Ok tt, p') /\ tb_ok p' /\
    forall k, tb_find p' k = if decide (Exists (fun x => x `prefix_of` k) prefixes) then None else tb_find p k.
Proof.
  revert p. induction prefixes as [|x prefixes IH]; intros p Hp; cbn [write_prefixes].
  { exists p. split_and!; [done..|]. intros k. rewrite decide_False; [done|]. by intros ?%Exists_nil. }
  destruct (tb_clearPrefix_spec p x Hp) as (p1 & -> & Hp1 & Hf1).
  destruct (IH p1 Hp1) as (p2 & -> & Hp2 & Hf2). exists p2. split_and!; [done..|].
  intros k. rewrite Hf2, Hf1. pose proof (Exists_cons (fun y => y `prefix_of` k) x prefixes).
  repeat case_decide; naive_solver.
Qed.

Lemma write_entries_spec entries p :
  tb_ok p -> NoDup entries.*1 -> (forall k, (k, None) ∈ entries -> is_Some (tb_find p k)) ->
  exists p', write_entries entries p = (Ok tt, p') /\ tb_ok p' /\
    forall k, tb_find p' k = match (list_to_map entries : gmap bytes (option bytes)) !! k with
      | Some o => o | None => tb_find p k end.
Proof.
  revert p. induction entries as [|[k o] entries IH]; intros p Hp Hnd Hrem; simpl.
  { exists p. split_and!; [done..|]. intros k. by rewrite lookup_empty. }
  apply NoDup_cons in Hnd as [Hk Hnd].
  assert (exists p1, (match o with Some v => tb_put p k v | None => tb_remove p k end) = (Ok tt, p1) /\ tb_ok p1 /\
    forall k', tb_find p1 k' = if decide (k' = k) then o else tb_find p k') as (p1 & -> & Hp1 & Hf1).
  { destruct o as [v|]; [by apply tb_put_spec|]. apply tb_remove_spec; [done|]. apply Hrem. by left. }
  destruct (IH p1 Hp1 Hnd) as (p2 & -> & Hp2 & Hf2).
  { intros k' Hk'. rewrite Hf1. rewrite decide_False; [apply Hrem; by right|].
    intros ->. apply Hk. by apply (list_elem_of_fmap_2 fst) in Hk'. }
  exists p2. split_and!; [done..|]. intros k'. rewrite Hf2, Hf1. case_decide as Hkk.
  - subst k'. rewrite lookup_insert_eq. by rewrite (not_elem_of_list_to_map_1 entries k).
  - by rewrite lookup_insert_ne.
Qed.

(** What a batch on top stands for: its cache over the parent without the
    prefixes that were cleared. *)
Definition topper_find (b : TopperTrieBatch) (p : P) (key : bytes) : option bytes :=
  match cache_ b !! key with
  | Some o => o
  | None => if decide (Exists (fun x => x `prefix_of` key) (cleared_prefixes_ b)) then None else tb_find p key
  end.

(** Writing a batch back applies it to its parent: when every key it
    removes is in the parent after the prefixes have been cleared, [writeBack]
    succeeds and every key of the parent has the value of the cache, or none
    when a cleared prefix covers it, or the value it had.  Proved against the
    interface [TrieBatch]. *)
Theorem writeBack_applies b p :
  parent_ b = Some p -> tb_ok p ->
  (forall k, cache_ b !! k = Some None ->
    ~ Exists (fun x => x `prefix_of` k) (cleared_prefixes_ b) /\ is_Some (tb_find p k)) ->
  exists p', writeBack b = (Ok tt, Some p') /\ tb_ok p' /\ forall k, tb_find p' k = topper_find b p k.
Proof.
  intros Hpar Hp Hrem. unfold writeBack. rewrite Hpar.
  destruct (write_prefixes_spec (cleared_prefixes_ b) p Hp) as (p1 & -> & Hp1 & Hf1).
  assert (forall k o, (k, o) ∈ in_key_order (cache_ b) <-> cache_ b !! k = Some o) as Hin.
  { intros k o. rewrite in_key_order_permutation. apply elem_of_map_to_list. }
  assert (NoDup (in_key_order (cache_ b)).*1) as Hnd.
  { rewrite in_key_order_permutation. apply NoDup_fst_map_to_list. }
  destruct (write_entries_spec (in_key_order (cache_ b)) p1 Hp1 Hnd) as (p2 & -> & Hp2 & Hf2).
  { intros k Hk%Hin. destruct (Hrem k Hk) as [Hc Hs]. rewrite Hf1. by rewrite decide_False. }
  exists p2. split_and!; [done..|]. intros k. rewrite Hf2, Hf1. unfold topper_find.
  rewrite (list_to_map_proper _ _ Hnd (in_key_order_permutation _)), list_to_map_to_list. done.
Qed.

(** Reading a key of the cache, or one of the parent while no prefix has been
    cleared, gives what [writeBack] is going to leave. *)
Lemma topper_get_find b p key v :
  parent_ b = Some p -> cleared_prefixes_ b = [] -> topper_find b p key = Some v -> topper_get b key = Ok v.
Proof.
  intros Hpar Hc. unfold topper_find, topper_get, wasClearedByPrefix. rewrite Hpar, Hc.
  destruct (cache_ b !! key) as [[w|]|]; cbn [cleared_loop mbind outcome_bind]; [naive_solver|done|].
  rewrite decide_False by (by intros ?%Exists_nil). apply tb_get_present.
Qed.

(** Clearing a prefix in a batch on top hides keys that do not start with
    it: the last byte of the shorter of key and prefix is not compared, so
    after a prefix of one byte has been cleared no key of the parent is found
    until the batch is written back. *)
Theorem one_byte_prefix_hides_all b p c key :
  parent_ b = Some p -> cache_ b = ∅ -> cleared_prefixes_ b = [] -> key <> [] ->
  exists b', topper_clearPrefix b [c] = (Ok tt, b') /\
    topper_get b' key = Err trie_no_value /\ topper_contains b' key = Ok false.
Proof.
  intros Hpar Hcache Hpre Hk. unfold topper_clearPrefix. rewrite Hcache. simpl. rewrite Hpar.
  eexists. split; [done|]. unfold topper_get, topper_contains, wasClearedByPrefix. simpl.
  rewrite Hpre, lookup_empty. by destruct key as [|x [|y key]].
Qed.

End topper.

(** ** The trie storage *)

Section trie_storage.
Context {St B : Type} `{!BufferStorage St B}.
Context (node_prefix : bytes) (hash256 : bytes -> bytes) (max_size : ty -> Z).

Abbreviation load := (load_child node_prefix hash256 max_size).

(** [root_hash_]; the storage below the serializer and the tracker, which is
    shared with the batches, are arguments of the operations. *)
Record TrieStorageImpl : Type := { root_hash_ : bytes }.

Definition createEmpty (s : St) : outcome TrieStorageImpl * St :=
  match storeTrie node_prefix hash256 None s with
  | (Ok empty_root, _, s') => (Ok {| root_hash_ := empty_root |}, s')
  | (Err e, _, s') => (Err e, s')
  end.

Definition createFromStorage (root_hash : bytes) : TrieStorageImpl := {| root_hash_ := root_hash |}.

Definition getRootHash (t : TrieStorageImpl) : bytes := root_hash_ t.

Definition getPersistentBatchAt (root : bytes) (changes : option tracker) (s : St) : outcome PersistentTrieBatch :=
  trie ← retrieveTrie node_prefix hash256 max_size s root;
  mret {| trie_ := trie; changes_ := changes |}.

Definition getPersistentBatch (t : TrieStorageImpl) (changes : option tracker) (s : St) : outcome PersistentTrieBatch :=
  getPersistentBatchAt (root_hash_ t) changes s.

Definition getEphemeralBatchAt (root : bytes) (s : St) : outcome EphemeralTrieBatch :=
  retrieveTrie node_prefix hash256 max_size s root.

Definition getEphemeralBatch (t : TrieStorageImpl) (s : St) : outcome EphemeralTrieBatch :=
  getEphemeralBatchAt (root_hash_ t) s.

(** [PersistentTrieBatchImpl::commit] with the handler the storage gives to its
    batches, which sets the root hash. *)
Definition commit (b : PersistentTrieBatch) (t : TrieStorageImpl) (s : St)
    : outcome bytes * PersistentTrieBatch * TrieStorageImpl * St :=
  let '(r, trie, s') := storeTrie node_prefix hash256 (trie_ b) s in
  let b' := {| trie_ := trie; changes_ := changes_ b |} in
  match r with
  | Ok root => (Ok root, b', {| root_hash_ := root |}, s')
  | Err e => (Err e, b', t, s')
  end.

(** *** What is committed is what later batches read *)

#[export] Instance load_child_Loader s : Loader (load s).
Proof. intros [] H; done. Qed.

Context `{!BufferStorageSpec St B} (U : bytes -> Prop) {HH : HashOn hash256 U}.

Lemma retrieve_empty s : retrieveTrie node_prefix hash256 max_size s (getEmptyRootHash hash256) = Ok None.
Proof. unfold retrieveTrie. by rewrite decide_True. Qed.

(** The storage after a trie has been committed: batches taken from it read the
    trie, and so does the batch that was committed. *)
Lemma commit_reads b t s d root b' t' s' :
  env_ok hash256 U (store_env node_prefix s) ->
  (forall n, trie_ b = Some n -> storable hash256 max_size U d n) ->
  root_inv (load s) any_branch (trie_ b) ->
  commit b t s = (Ok root, b', t', s') ->
  getRootHash t' = root /\ exists trie,
    retrieveTrie node_prefix hash256 max_size s' root = Ok trie /\
    (forall k, lookup (load s') trie k = lookup (load s) (trie_ b) k) /\
    (forall k, lookup (load s') (trie_ b') k = lookup (load s) (trie_ b) k).
Proof using HH.
  intros HE Hst Hinv Hc. unfold commit in Hc.
  destruct (storeTrie node_prefix hash256 (trie_ b) s) as [[r tr] s1] eqn:Hs.
  destruct r as [h|e]; [|done]. injection Hc as -> <- <- <-. split; [done|].
  destruct (trie_ b) as [n|].
  - destruct Hinv as [d' Hd'].
    destruct (store_retrieve _ _ _ U _ _ _ _ _ _ _ HE (Hst n eq_refl) Hd' Hs) as (m & Hm & H1 & H2).
    exists (Some m). split_and!; [done|intros k; apply H1|intros k; apply H2].
  - injection Hs as <- <- <-. exists None. split_and!; [apply retrieve_empty|done..].
Qed.

(** A session with the storage: a batch is taken at the current root, a
    key is put and the batch is committed.  Then the put succeeds, and when the
    commit succeeds the storage has the root hash it returns and a batch taken
    afterwards reads the key with its value and every other key as the first
    batch did; when it fails the storage keeps its root hash. *)
Theorem committed_put_visible t s b key value :
  env_ok hash256 U (store_env node_prefix s) ->
  getPersistentBatch t None s = Ok b ->
  root_inv (load s) any_branch (trie_ b) ->
  exists b1, persistent_put (load s) max_size b key value = (Ok tt, b1) /\
    forall d r b2 t' s', (forall n, trie_ b1 = Some n -> storable hash256 max_size U d n) ->
      commit b1 t s = (r, b2, t', s') ->
      match r with
      | Ok root => getRootHash t' = root /\ exists b3, getPersistentBatch t' None s' = Ok b3 /\
          get (load s') (trie_ b3) key = Ok value /\
          forall k v, k <> key -> lookup (load s) (trie_ b) k = Some v -> get (load s') (trie_ b3) k = Ok v
      | Err _ => getRootHash t' = getRootHash t
      end.
Proof using HH.
  intros HE Hb Hinv.
  assert (changes_ b = None) as Hch.
  { unfold getPersistentBatch, getPersistentBatchAt in Hb. inv_ok Hb. by injection Hb as <-. }
  destruct (put_map (load s) (trie_ b) key value Hinv) as (trie & Hput & Hinv' & Hf).
  exists {| trie_ := trie; changes_ := None |}. split; [unfold persistent_put; by rewrite Hput, Hch|].
  intros d r b2 t' s' Hst Hc. destruct r as [root|e].
  - destruct (commit_reads _ t s d root b2 t' s' HE Hst Hinv' Hc) as (Hr & tr & Htr & H1 & _).
    split; [done|]. exists {| trie_ := tr; changes_ := None |}. split_and!.
    + unfold getPersistentBatch, getPersistentBatchAt. unfold getRootHash in Hr. by rewrite Hr, Htr.
    + apply get_found. rewrite H1. simpl. by rewrite Hf, decide_True.
    + intros k v Hk Hv. apply get_found. rewrite H1. simpl. by rewrite Hf, decide_False.
  - unfold commit in Hc. destruct (storeTrie _ _ _ s) as [[[] tr] s1]; [done|]. by injection Hc as _ _ <- _.
Qed.

End trie_storage.

(** ** Witnesses *)

#[local] Instance demo_batch : TrieBatch EphemeralTrieBatch := ephemeral_batch default_load.
#[local] Instance demo_batch_spec : TrieBatchSpec EphemeralTrieBatch := ephemeral_batch_spec default_load.

Lemma writeBack_applies_witness :
  exists p p' : EphemeralTrieBatch, tb_ok p /\ tb_find p (str "old") = Some (str "1") /\
    writeBack (topper_remove (topper_put (topper_new p) (str "new") (str "2")) (str "old")) = (Ok tt, Some p') /\
    tb_find p' (str "new") = Some (str "2") /\ tb_find p' (str "old") = None /\ tb_find p' (str "on") = Some (str "3").
Proof.
  destruct (put_map default_load None (str "old") (str "1") I) as (p1 & _ & H1 & F1).
  destruct (put_map default_load p1 (str "on") (str "3") H1) as (p & _ & H2 & F2).
  destruct (writeBack_applies (P := EphemeralTrieBatch)
    (topper_remove (topper_put (topper_new p) (str "new") (str "2")) (str "old")) p) as (p' & Hw & Hp' & Hf); [done|done| |].
  - intros k Hk. split; [by intros ?%Exists_nil|].
    destruct (decide (k = str "old")) as [-> | Hne]; [by simpl; rewrite F2, F1|].
    cbn [topper_remove topper_put topper_new set_cache cache_] in Hk. rewrite lookup_insert_ne in Hk by congruence.
    apply lookup_insert_Some in Hk as [[_ ?]|[_ Hk]]; [done|by rewrite lookup_empty in Hk].
  - exists p, p'. rewrite !Hf. split_and!; [done|by simpl; rewrite F2, F1|done|done|done|].
    unfold topper_find. simpl. rewrite F2. done.
Defined.

Lemma one_byte_prefix_hides_all_witness :
  exists (p : EphemeralTrieBatch) b', tb_get p (str "x") = Ok (str "1") /\ topper_clearPrefix (topper_new p) (str "a") = (Ok tt, b') /\
    topper_get b' (str "x") = Err trie_no_value /\ topper_contains b' (str "x") = Ok false.
Proof.
  pose (p := Some (Leaf (keyToNibbles (str "x")) (Some (str "1"))) : EphemeralTrieBatch).
  destruct (one_byte_prefix_hides_all (topper_new p) p "a"%char (str "x")) as (b' & H1 & H2 & H3); [done..|].
  by exists p, b'.
Defined.

Lemma committed_put_visible_witness :
  exists b1 b2 t' s' root b3,
    let t := createFromStorage (getEmptyRootHash demo_hash) in
    let load := load_child (str ":n:") demo_hash (fun _ => u64_max) in
    persistent_put (load ∅) (fun _ => u64_max) {| trie_ := None; changes_ := None |} (str "k") (str "v") = (Ok tt, b1) /\
    commit (str ":n:") demo_hash b1 t (∅ : InMemoryStorage) = (Ok root, b2, t', s') /\
    getPersistentBatch (str ":n:") demo_hash (fun _ => u64_max) t' None s' = Ok b3 /\
    get (load s') (trie_ b3) (str "k") = Ok (str "v").
Proof.
  pose (t := createFromStorage (getEmptyRootHash demo_hash)).
  destruct (committed_put_visible (str ":n:") demo_hash (fun _ => u64_max) (fun b => length b < 31)
    (HH := demo_hash_on) t (∅ : InMemoryStorage) {| trie_ := None; changes_ := None |} (str "k") (str "v"))
    as (b1 & Hput & Hc); [intros k v Hk; by vm_compute in Hk|by vm_compute|done|].
  assert (b1 = {| trie_ := Some (Leaf [6; 11]%nat (Some (str "v"))); changes_ := None |}) as ->.
  { vm_compute in Hput. by injection Hput as <-. }
  destruct (commit (str ":n:") demo_hash {| trie_ := Some (Leaf [6; 11]%nat (Some (str "v"))); changes_ := None |} t
    (∅ : InMemoryStorage)) as [[[r b2] t'] s'] eqn:E.
  assert (exists root, r = Ok root) as [root ->].
  { apply (f_equal (fun x => x.1.1.1)) in E. vm_compute in E. by eexists. }
  destruct (Hc 1 (Ok root) b2 t' s') as (_ & b3 & H1 & H2 & _); [|done|].
  - intros n [= <-]. split_and!; [|eexists; split; [by vm_compute|simpl; lia]|by intros ? ?%not_elem_of_nil].
    split_and!; [by repeat constructor; lia|intros ? [= <-]; split; by vm_compute|done].
  - by exists {| trie_ := Some (Leaf [6; 11]%nat (Some (str "v"))); changes_ := None |}, b2, t', s', root, b3.
Defined.
