(* ===== verification/TransactionPool.v ===== *)
(** * The transaction pool

    Models [src/src/transaction_pool/impl]: the pool of verified transactions
    that wait for the tags they require, become ready when other transactions
    provide them, or are postponed when there is no room, and the moderator that
    bans transactions.

    A [std::shared_ptr] is [Some p] for an object [p] of the heap and [None]
    for a null pointer.  A [std::weak_ptr] is the number of its object;
    [lock] gives the object while something owns it: the pool through
    [imported_txs_], or [removeOne] through the node it extracted ([held]).
    Reading through a null pointer is [undefined_behaviour].

    The multimaps keep the identity of their nodes, because the code holds
    iterators while it calls operations that remove nodes.  An iterator is the
    number of its node, or [None] at the end; reading, advancing or erasing an
    iterator whose node is gone is [undefined_behaviour], comparing two
    iterators compares the nodes.  [find] gives the first node of a key, as the
    common implementations do, and a list that was moved from is empty.  Orders
    of the unordered maps are a parameter.  The recursive operations and the
    loops that may not end have fuel. *)

From S2P Require Import Prelude.

Open Scope Z_scope.

(** ** Transactions *)

Record Transaction : Type := mkTransaction {
  ext : bytes;
  bytes_ : Z;
  hash : bytes;
  priority : Z;
  valid_till : Z;
  requires : list bytes;
  provides : list bytes;
  should_propagate : bool
}.

#[export] Instance Transaction_eq_dec : EqDecision Transaction.
Proof. solve_decision. Defined.

Record Limits : Type := mkLimits {
  max_ready_num : Z;
  capacity : Z
}.

Definition default_limits : Limits := mkLimits 128 512.

(** ** Multimaps with iterators *)

Module Multimap.

Record node : Type := mkNode {
  node_id : nat;
  key : bytes;
  mapped : nat
}.

#[global] Instance node_eq_dec : EqDecision node.
Proof. solve_decision. Defined.

Notation t := (list node).
Definition iterator : Type := option nat.

(** [emplace] puts a node behind those of the same key. *)
Fixpoint emplace (n : node) (m : t) : t :=
  match m with
  | [] => [n]
  | x :: m' => if lex_lt uchar (key n) (key x) then n :: m else x :: emplace n m'
  end.

Definition begin (m : t) : iterator := node_id <$> head m.

Fixpoint from_key (tag : bytes) (m : t) : t :=
  match m with
  | [] => []
  | x :: m' => if lex_lt uchar (key x) tag then from_key tag m' else m
  end.

Fixpoint after_key (tag : bytes) (m : t) : t :=
  match m with
  | [] => []
  | x :: m' => if lex_lt uchar tag (key x) then m else after_key tag m'
  end.

Definition equal_range (tag : bytes) (m : t) : iterator * iterator :=
  (begin (from_key tag m), begin (after_key tag m)).

(** The nodes of [equal_range], for the loops that change nothing before them. *)
Definition range (tag : bytes) (m : t) : list node := filter (fun n => key n = tag) m.

Definition find (tag : bytes) (m : t) : iterator := begin (range tag m).

Fixpoint at_node (i : nat) (m : t) : t :=
  match m with
  | [] => []
  | x :: m' => if decide (node_id x = i) then m else at_node i m'
  end.

Definition deref (i : iterator) (m : t) : outcome node :=
  ok_or undefined_behaviour (i' ← i; head (at_node i' m)).

Definition next (i : iterator) (m : t) : outcome iterator :=
  n ← deref i m; Ok (begin (tail (at_node (node_id n) m))).

Definition erase (i : iterator) (m : t) : outcome t :=
  n ← deref i m; Ok (filter (fun x => node_id x <> node_id n) m).

End Multimap.

(** ** The pool *)

Module TransactionPoolImpl.

Record t : Type := mk {
  imported_txs_ : gmap bytes nat;
  ready_txs_ : gmap bytes nat;
  postponed_txs_ : list nat;
  tx_provides_tag_ : Multimap.t;
  tx_depends_on_tag_ : Multimap.t;
  tx_waits_tag_ : Multimap.t;
  limits_ : Limits;
  heap : gmap nat Transaction;
  held : list nat;
  next_node : nat
}.

Definition create (limits : Limits) : t := mk ∅ ∅ [] [] [] [] limits ∅ [] 0.

Definition set_imported (x : gmap bytes nat) (s : t) : t :=
  mk x (ready_txs_ s) (postponed_txs_ s) (tx_provides_tag_ s) (tx_depends_on_tag_ s) (tx_waits_tag_ s)
    (limits_ s) (heap s) (held s) (next_node s).
Definition set_ready (x : gmap bytes nat) (s : t) : t :=
  mk (imported_txs_ s) x (postponed_txs_ s) (tx_provides_tag_ s) (tx_depends_on_tag_ s) (tx_waits_tag_ s)
    (limits_ s) (heap s) (held s) (next_node s).
Definition set_postponed (x : list nat) (s : t) : t :=
  mk (imported_txs_ s) (ready_txs_ s) x (tx_provides_tag_ s) (tx_depends_on_tag_ s) (tx_waits_tag_ s)
    (limits_ s) (heap s) (held s) (next_node s).
Definition set_provides (x : Multimap.t) (s : t) : t :=
  mk (imported_txs_ s) (ready_txs_ s) (postponed_txs_ s) x (tx_depends_on_tag_ s) (tx_waits_tag_ s)
    (limits_ s) (heap s) (held s) (next_node s).
Definition set_depends (x : Multimap.t) (s : t) : t :=
  mk (imported_txs_ s) (ready_txs_ s) (postponed_txs_ s) (tx_provides_tag_ s) x (tx_waits_tag_ s)
    (limits_ s) (heap s) (held s) (next_node s).
Definition set_waits (x : Multimap.t) (s : t) : t :=
  mk (imported_txs_ s) (ready_txs_ s) (postponed_txs_ s) (tx_provides_tag_ s) (tx_depends_on_tag_ s) x
    (limits_ s) (heap s) (held s) (next_node s).
Definition set_heap (x : gmap nat Transaction) (s : t) : t :=
  mk (imported_txs_ s) (ready_txs_ s) (postponed_txs_ s) (tx_provides_tag_ s) (tx_depends_on_tag_ s)
    (tx_waits_tag_ s) (limits_ s) x (held s) (next_node s).
Definition set_held (x : list nat) (s : t) : t :=
  mk (imported_txs_ s) (ready_txs_ s) (postponed_txs_ s) (tx_provides_tag_ s) (tx_depends_on_tag_ s)
    (tx_waits_tag_ s) (limits_ s) (heap s) x (next_node s).
Definition set_next_node (x : nat) (s : t) : t :=
  mk (imported_txs_ s) (ready_txs_ s) (postponed_txs_ s) (tx_provides_tag_ s) (tx_depends_on_tag_ s)
    (tx_waits_tag_ s) (limits_ s) (heap s) (held s) x.

(** *** Pointers and nodes *)

Definition alive (p : nat) (s : t) : Prop := p ∈ held s \/ map_Exists (fun _ q => q = p) (imported_txs_ s).

#[export] Instance alive_dec (p : nat) (s : t) : Decision (alive p s).
Proof. unfold alive. apply _. Defined.

Definition lock (p : nat) (s : t) : option nat := if decide (alive p s) then Some p else None.

Definition nonnull (tx : option nat) : act t nat := lift (ok_or undefined_behaviour tx).
Definition read (p : nat) : act t Transaction := s ← gets heap; lift (ok_or undefined_behaviour (s !! p)).

(** [std::make_shared]. *)
Definition make_shared (tx : Transaction) : act t nat :=
  p ← gets (fun s => fresh (dom (heap s)));
  modify (fun s => set_heap (<[p := tx]> (heap s)) s);; mret p.

Definition new_node (tag : bytes) (p : nat) : act t Multimap.node :=
  n ← gets next_node;
  modify (set_next_node (S n));; mret (Multimap.mkNode n tag p).

Definition provides_emplace (tag : bytes) (p : nat) : act t unit :=
  n ← new_node tag p; modify (fun s => set_provides (Multimap.emplace n (tx_provides_tag_ s)) s).
Definition depends_emplace (tag : bytes) (p : nat) : act t unit :=
  n ← new_node tag p; modify (fun s => set_depends (Multimap.emplace n (tx_depends_on_tag_ s)) s).
Definition waits_emplace (tag : bytes) (p : nat) : act t unit :=
  n ← new_node tag p; modify (fun s => set_waits (Multimap.emplace n (tx_waits_tag_ s)) s).

Definition provides_erase (i : Multimap.iterator) : act t unit :=
  m ← gets tx_provides_tag_; m' ← lift (Multimap.erase i m); modify (set_provides m').
Definition depends_erase (i : Multimap.iterator) : act t unit :=
  m ← gets tx_depends_on_tag_; m' ← lift (Multimap.erase i m); modify (set_depends m').
Definition waits_erase (i : Multimap.iterator) : act t unit :=
  m ← gets tx_waits_tag_; m' ← lift (Multimap.erase i m); modify (set_waits m').

(** A loop over a list. *)
Fixpoint for_each {A} (f : A -> act t unit) (l : list A) : act t unit :=
  match l with
  | [] => mret tt
  | a :: l' => f a;; for_each f l'
  end.

(** *** Conditions *)

Definition hasSpaceInReady (s : t) : bool := Z.of_nat (size (ready_txs_ s)) <? max_ready_num (limits_ s).

Definition ensureSpace (s : t) : outcome unit :=
  if capacity (limits_ s) <? Z.of_nat (size (imported_txs_ s)) then Err (transaction_pool_error POOL_IS_FULL)
  else Ok tt.

Definition is_provided (tag : bytes) (s : t) : bool :=
  let range := Multimap.equal_range tag (tx_provides_tag_ s) in bool_decide (range.1 <> range.2).

Definition checkForReady (p : nat) : act t bool :=
  tx ← read p; gets (fun s => forallb (fun tag => is_provided tag s) (requires tx)).

Definition isInReady (p : nat) : act t bool :=
  tx ← read p;
  gets (fun s => match ready_txs_ s !! hash tx with Some q => bool_decide (alive q s) | None => false end).

Definition postponeTransaction (p : nat) : act t unit :=
  modify (fun s => set_postponed (postponed_txs_ s ++ [p]) s).

(** *** Becoming ready *)

(** The loop passes a node before it extracts it. *)
Definition commit_tag (p : nat) (tag : bytes) : act t unit :=
  nodes ← gets (fun s => Multimap.range tag (tx_waits_tag_ s));
  for_each (fun ci =>
    same ← gets (fun s => bool_decide (lock (Multimap.mapped ci) s = Some p));
    when same (
      waits_erase (Some (Multimap.node_id ci));;
      depends_emplace (Multimap.key ci) (Multimap.mapped ci))) nodes.

Definition commitRequiredTags (p : nat) : act t unit :=
  tx ← read p; for_each (commit_tag p) (requires tx).

Section ready.
Variable setReady : nat -> act t unit.

Fixpoint provide_loop (fuel : nat) (it last : Multimap.iterator) : act t unit :=
  match fuel with
  | O => lift (Err out_of_fuel)
  | S fuel' =>
      if decide (it = last) then mret tt else
      waits ← gets tx_waits_tag_;
      n ← lift (Multimap.deref it waits);
      it' ← lift (Multimap.next it waits);
      tx ← gets (lock (Multimap.mapped n));
      p ← nonnull tx;
      ok ← checkForReady p;
      when ok (
        space ← gets hasSpaceInReady;
        if (space : bool) then setReady p else postponeTransaction p);;
      provide_loop fuel' it' last
  end.

Definition provideTag (tag : bytes) : act t unit :=
  waits ← gets tx_waits_tag_;
  let range := Multimap.equal_range tag waits in
  provide_loop (S (length waits)) range.1 range.2.

Definition commitProvidedTags (p : nat) : act t unit :=
  tx ← read p; for_each (fun tag => provides_emplace tag p;; provideTag tag) (provides tx).

End ready.

Fixpoint setReady (fuel : nat) (p : nat) : act t unit :=
  match fuel with
  | O => lift (Err out_of_fuel)
  | S fuel' =>
      tx ← read p;
      ready ← gets ready_txs_;
      match ready !! hash tx with
      | Some _ => mret tt
      | None =>
          modify (set_ready (<[hash tx := p]> ready));;
          commitRequiredTags p;;
          commitProvidedTags (setReady fuel') p
      end
  end.

(** *** Leaving the ready transactions *)

Definition rollbackRequiredTags (p : nat) : act t unit :=
  tx ← read p; for_each (fun tag => waits_emplace tag p) (requires tx).

(** The first node of the range that belongs to [p]. *)
Definition first_of (p : nat) (nodes : list Multimap.node) (s : t) : option Multimap.node :=
  list_find (fun n => lock (Multimap.mapped n) s = Some p) nodes ≫= fun r => Some r.2.

Section unset.
Variable unsetReady : nat -> act t unit.

Fixpoint unprovide_loop (fuel : nat) (tag : bytes) : act t unit :=
  match fuel with
  | O => lift (Err out_of_fuel)
  | S fuel' =>
      it ← gets (fun s => Multimap.find tag (tx_depends_on_tag_ s));
      if decide (it = None) then mret tt else
      n ← (m ← gets tx_depends_on_tag_; lift (Multimap.deref it m));
      tx ← gets (lock (Multimap.mapped n));
      match tx with Some p => unsetReady p | None => mret tt end;;
      depends_erase it;;
      unprovide_loop fuel' tag
  end.

Definition unprovideTag (tag : bytes) : act t unit :=
  it ← gets (fun s => Multimap.find tag (tx_provides_tag_ s));
  when (bool_decide (it = None)) (
    depends ← gets tx_depends_on_tag_;
    unprovide_loop (S (length depends)) tag).

Definition rollbackProvidedTags (p : nat) : act t unit :=
  tx ← read p;
  for_each (fun tag =>
    n ← gets (fun s => first_of p (Multimap.range tag (tx_provides_tag_ s)) s);
    match n with Some n => provides_erase (Some (Multimap.node_id n)) | None => mret tt end;;
    unprovideTag tag) (provides tx).

End unset.

Fixpoint unsetReady (fuel : nat) (p : nat) : act t unit :=
  match fuel with
  | O => lift (Err out_of_fuel)
  | S fuel' =>
      tx ← read p;
      ready ← gets ready_txs_;
      match ready !! hash tx with
      | None => mret tt
      | Some _ =>
          modify (set_ready (delete (hash tx) ready));;
          rollbackRequiredTags p;;
          rollbackProvidedTags (unsetReady fuel') p
      end
  end.

(** *** Submission *)

Definition processTransactionAsReady (fuel : nat) (p : nat) : act t (outcome unit) :=
  space ← gets hasSpaceInReady;
  (if (space : bool) then setReady fuel p else postponeTransaction p);;
  mret (Ok tt).

Definition addTransactionAsWaiting (p : nat) : act t unit :=
  tx ← read p; for_each (fun tag => waits_emplace tag p) (requires tx).

Definition processTransactionAsWaiting (p : nat) : act t (outcome unit) :=
  space ← gets ensureSpace;
  match space with
  | Err e => mret (Err e)
  | Ok _ => addTransactionAsWaiting p;; mret (Ok tt)
  end.

Definition processTransaction (fuel : nat) (tx : option nat) : act t (outcome unit) :=
  space ← gets ensureSpace;
  match space with
  | Err e => mret (Err e)
  | Ok _ =>
      p ← nonnull tx;
      ready ← checkForReady p;
      if (ready : bool) then processTransactionAsReady fuel p else processTransactionAsWaiting p
  end.

Definition pool_is_full (r : outcome unit) : bool := bool_decide (r = Err (transaction_pool_error POOL_IS_FULL)).

Definition submitOne (fuel : nat) (tx : Transaction) : act t (outcome unit) :=
  p ← make_shared tx;
  imported ← gets imported_txs_;
  match imported !! hash tx with
  | Some _ => mret (Err (transaction_pool_error TX_ALREADY_IMPORTED))
  | None =>
      modify (set_imported (<[hash tx := p]> imported));;
      processResult ← processTransaction fuel (Some p);
      when (pool_is_full processResult) (modify (fun s => set_imported (delete (hash tx) (imported_txs_ s)) s));;
      mret processResult
  end.

Fixpoint submit (fuel : nat) (txs : list Transaction) : act t (outcome unit) :=
  match txs with
  | [] => mret (Ok tt)
  | tx :: txs' =>
      r ← submitOne fuel tx;
      match r with Err e => mret (Err e) | Ok _ => submit fuel txs' end
  end.

(** *** Removal *)

(** The iterator is not advanced when the first node is another transaction's. *)
Fixpoint del_loop (fuel : nat) (p : nat) (i last : Multimap.iterator) : act t unit :=
  match fuel with
  | O => lift (Err out_of_fuel)
  | S fuel' =>
      if decide (i = last) then mret tt else
      n ← (m ← gets tx_waits_tag_; lift (Multimap.deref i m));
      same ← gets (fun s => bool_decide (lock (Multimap.mapped n) s = Some p));
      if (same : bool) then waits_erase i else del_loop fuel' p i last
  end.

Definition delTransactionAsWaiting (fuel : nat) (p : nat) : act t unit :=
  tx ← read p;
  for_each (fun tag =>
    range ← gets (fun s => Multimap.equal_range tag (tx_waits_tag_ s));
    del_loop fuel p range.1 range.2) (requires tx).

Fixpoint postponed_loop (fuel : nat) (postponed_txs : list nat) : act t unit :=
  match postponed_txs with
  | [] => mret tt
  | w :: rest =>
      tx ← gets (lock w);
      result ← processTransaction fuel tx;
      if pool_is_full result then modify (fun s => set_postponed (postponed_txs_ s ++ rest) s)
      else postponed_loop fuel rest
  end.

Definition processPostponedTransactions (fuel : nat) : act t unit :=
  postponed_txs ← gets postponed_txs_;
  modify (set_postponed []);;
  postponed_loop fuel postponed_txs.

Definition removeOne (fuel : nat) (tx_hash : bytes) : act t (outcome unit) :=
  imported ← gets imported_txs_;
  match imported !! tx_hash with
  | None => mret (Err (transaction_pool_error TX_NOT_FOUND))
  | Some p =>
      modify (fun s => set_held [p] (set_imported (delete tx_hash imported) s));;
      unsetReady fuel p;;
      delTransactionAsWaiting fuel p;;
      processPostponedTransactions fuel;;
      modify (set_held []);;
      mret (Ok tt)
  end.

Fixpoint remove_loop (fuel : nat) (tx_hashes : list bytes) : act t unit :=
  match tx_hashes with
  | [] => mret tt
  | h :: hs => removeOne fuel h;; remove_loop fuel hs
  end.

Definition remove (fuel : nat) (tx_hashes : list bytes) : act t (outcome unit) :=
  remove_loop fuel tx_hashes;; mret (Ok tt).

(** *** Reading *)

Definition getReadyTransactions (s : t) : gmap bytes nat :=
  omap (fun q => lock q s) (ready_txs_ s).

Record Status : Type := mkStatus { ready_num : Z; waiting_num : Z }.

Definition getStatus (s : t) : Status :=
  mkStatus (Z.of_nat (size (ready_txs_ s)))
    (u64 (Z.of_nat (size (imported_txs_ s)) - Z.of_nat (size (ready_txs_ s)))).

End TransactionPoolImpl.

(** ** The moderator *)

(** What the pool uses of a moderator, [pool_moderator.hpp]. *)
Class PoolModerator (M : Type) : Type := {
  ban : bytes -> M -> M;
  banIfStale : Z -> Transaction -> M -> bool * M;
  isBanned : bytes -> M -> bool * M;
  updateBan : M -> M;
  bannedNum : M -> nat
}.

(** The promise the removal of stale transactions relies on: a transaction is
    stale when its longevity is past the current block. *)
Class PoolModeratorLaws (M : Type) `{PoolModerator M} : Prop := {
  banIfStale_stale : forall current_block tx m,
    (banIfStale current_block tx m).1 = bool_decide (valid_till tx <= current_block)
}.

Module PoolModeratorImpl.

Record Params : Type := mkParams {
  ban_for : Z;
  expected_size : Z
}.

Definition default_params : Params := mkParams (30 * 60 * 10 ^ 9) 2048.

(** [reads] is the number of reads of the clock so far. *)
Record t : Type := mk {
  params_ : Params;
  banned_until_ : gmap bytes Z;
  reads : nat
}.

Definition create (params : Params) : t := mk params ∅ 0.

(** The map is ordered by hash and [begin] is its least one. *)
Fixpoint shrink (fuel : nat) (limit : Z) (m : gmap bytes Z) : gmap bytes Z :=
  match fuel with
  | O => m
  | S fuel' =>
      if limit <? Z.of_nat (size m) then
        match in_key_order m with
        | [] => m
        | (k, _) :: _ => shrink fuel' limit (delete k m)
        end
      else m
  end.

Section clock.
Variable clock : nat -> Z.

Definition ban_impl (tx_hash : bytes) (m : t) : t :=
  let now := clock (reads m) in
  let banned :=
    match banned_until_ m !! tx_hash with
    | Some _ => banned_until_ m
    | None => <[tx_hash := now + ban_for (params_ m)]> (banned_until_ m)
    end in
  let banned :=
    if u64 (expected_size (params_ m) * 2) <? Z.of_nat (size banned)
    then shrink (size banned) (expected_size (params_ m)) banned else banned in
  mk (params_ m) banned (S (reads m)).

Definition banIfStale_impl (current_block : Z) (tx : Transaction) (m : t) : bool * t :=
  if current_block <? valid_till tx then (false, m) else (true, ban_impl (hash tx) m).

Definition isBanned_impl (tx_hash : bytes) (m : t) : bool * t :=
  match banned_until_ m !! tx_hash with
  | None => (false, m)
  | Some until => (clock (reads m) <=? until, mk (params_ m) (banned_until_ m) (S (reads m)))
  end.

Definition updateBan_impl (m : t) : t :=
  let now := clock (reads m) in
  mk (params_ m) (filter (fun e => ~ e.2 < now) (banned_until_ m)) (S (reads m)).

Definition bannedNum_impl (m : t) : nat := size (banned_until_ m).

#[export] Instance moderator_impl : PoolModerator t := {
  ban := ban_impl;
  banIfStale := banIfStale_impl;
  isBanned := isBanned_impl;
  updateBan := updateBan_impl;
  bannedNum := bannedNum_impl
}.

#[export] Instance moderator_impl_laws : PoolModeratorLaws t.
Proof.
  split. intros b tx m. cbn. unfold banIfStale_impl.
  destruct (Z.ltb_spec b (valid_till tx)); cbn; [rewrite bool_decide_eq_false_2|rewrite bool_decide_eq_true_2]; lia.
Qed.

End clock.

End PoolModeratorImpl.

(** ** Stale transactions *)

Module Stale.
Import TransactionPoolImpl.

Section stale.
Context {M : Type} `{PoolModerator M}.
Context {BlockId : Type}.

(** [getNumberById] of the repository of block headers, and the order in
    which a loop visits the imported transactions. *)
Variable getNumberById : BlockId -> outcome Z.
Variable iteration : gmap bytes nat -> list (bytes * nat).

Definition on_pool {A} (m : act t A) : act (t * M) A := fun '(s, md) =>
  match m s with Ok (a, s') => Ok (a, (s', md)) | Err e => Err e end.

Fixpoint stale_loop (number : Z) (txs : list (bytes * nat)) : act (t * M) (list bytes) :=
  match txs with
  | [] => mret []
  | (txHash, p) :: txs' =>
      tx ← on_pool (read p);
      stale ← (fun '(s, md) => let r := banIfStale number tx md in Ok (r.1, (s, r.2)));
      rest ← stale_loop number txs';
      mret (if (stale : bool) then txHash :: rest else rest)
  end.

Fixpoint remove_all (fuel : nat) (tx_hashes : list bytes) : act t (outcome unit) :=
  match tx_hashes with
  | [] => mret (Ok tt)
  | h :: hs =>
      r ← removeOne fuel h;
      match r with Err e => mret (Err e) | Ok _ => remove_all fuel hs end
  end.

(** [outcome::success()] makes an empty vector of the result. *)
Definition removeStale (fuel : nat) (at_ : BlockId) : act (t * M) (outcome (list Transaction)) :=
  match getNumberById at_ with
  | Err e => mret (Err e)
  | Ok number =>
      imported ← gets (fun s => imported_txs_ s.1);
      remove_to ← stale_loop number (iteration imported);
      r ← on_pool (remove_all fuel remove_to);
      match r with
      | Err e => mret (Err e)
      | Ok _ => modify (fun s => (s.1, updateBan s.2));; mret (Ok [])
      end
  end.

End stale.
End Stale.
