(* ===== verification/TransactionPoolInv.v ===== *)
(** * The invariant of the transaction pool

    The multimaps and their iterators; the invariant of a pool in which no two
    transactions require the same tag; how [setReady] and the nodes of waiting
    transactions keep it. *)

From S2P Require Import Prelude TransactionPool.
Import TransactionPoolImpl.

Open Scope Z_scope.

(** ** Multimaps *)

Module MultimapFacts.
Import Multimap.

Record ok (next : nat) (m : Multimap.t) : Prop := {
  ok_sorted : StronglySorted (fun a b => key_le (key a) (key b)) m;
  ok_ids : NoDup (node_id <$> m);
  ok_next : forall n, n ∈ m -> (node_id n < next)%nat
}.

Lemma ok_nil next : ok next [].
Proof. split; [constructor|constructor|by intros ? ?%not_elem_of_nil]. Qed.

Lemma ok_mono next next' m : ok next m -> (next <= next')%nat -> ok next' m.
Proof. intros [] ?. split; [done|done|]. intros n Hn. specialize (ok_next0 n Hn). lia. Qed.

Lemma key_le_antisym a b : key_le a b -> lex_lt uchar a b = false -> a = b.
Proof.
  unfold key_le. intros H1 H2. destruct (decide (a = b)) as [|Hne]; [done|].
  pose proof (lex_lt_total uchar uchar_inj a b Hne H2). congruence.
Qed.

Lemma elem_of_emplace n m x : x ∈ emplace n m <-> x = n \/ x ∈ m.
Proof.
  induction m as [|y m IH]; cbn [emplace]; [set_solver|].
  destruct (lex_lt uchar (key n) (key y)); set_solver.
Qed.

Lemma emplace_permutation n m : emplace n m ≡ₚ n :: m.
Proof.
  induction m as [|y m IH]; cbn [emplace]; [done|].
  destruct (lex_lt uchar (key n) (key y)); [done|]. rewrite IH. by constructor.
Qed.

Lemma emplace_sorted n m :
  StronglySorted (fun a b => key_le (key a) (key b)) m ->
  StronglySorted (fun a b => key_le (key a) (key b)) (emplace n m).
Proof.
  induction 1 as [|y m Hs IH Hy]; cbn [emplace]; [repeat constructor|].
  destruct (lex_lt uchar (key n) (key y)) eqn:E.
  - assert (key_le (key n) (key y)) as Hny by exact (lex_lt_asym uchar _ _ E).
    constructor; [by constructor|]. constructor; [done|].
    eapply Forall_impl; [exact Hy|]. intros z Hz.
    exact (pair_le_trans (key n, tt) (key y, tt) (key z, tt) Hny Hz).
  - constructor; [done|]. apply Forall_forall. intros z [->|Hz]%elem_of_emplace.
    + exact E.
    + by eapply Forall_forall in Hz; [|exact Hy].
Qed.

Lemma ok_emplace next tag p m : ok next m -> ok (S next) (emplace (mkNode next tag p) m).
Proof.
  intros [Hs Hi Hn]. split.
  - by apply emplace_sorted.
  - rewrite emplace_permutation. cbn. constructor; [|done].
    intros (x & Hx & Hin)%list_elem_of_fmap. specialize (Hn x Hin). lia.
  - intros x [->|Hx]%elem_of_emplace; cbn; [lia|]. specialize (Hn x Hx). lia.
Qed.

Lemma ok_filter next (P : node -> Prop) `{!forall x, Decision (P x)} m : ok next m -> ok next (filter P m).
Proof.
  intros [Hs Hi Hn]. split.
  - clear Hi Hn. induction Hs as [|y m Hs IH Hy]; [constructor|].
    rewrite filter_cons. destruct (decide (P y)); [|done]. constructor; [done|].
    apply Forall_forall. intros z [_ Hz]%list_elem_of_filter. by eapply Forall_forall in Hz; [|exact Hy].
  - apply (sublist_NoDup _ _ Hi), fmap_sublist, sublist_filter.
  - intros x [_ Hx]%list_elem_of_filter. by apply Hn.
Qed.

(** The ends of [equal_range] differ when the tag is there. *)
Lemma equal_range_present next m tag :
  ok next m -> ((equal_range tag m).1 <> (equal_range tag m).2 <-> exists n, n ∈ m /\ key n = tag).
Proof.
  intros [Hs Hi _]. unfold equal_range. cbn [fst snd].
  induction Hs as [|x m Hs IH Hx]; cbn [from_key after_key]; [set_solver|].
  cbn in Hi. apply NoDup_cons in Hi as [Hnx Hi]. specialize (IH Hi).
  destruct (lex_lt uchar (key x) tag) eqn:E1.
  - rewrite (lex_lt_asym uchar _ _ E1), IH. split; [set_solver|].
    intros (n & [->|Hn]%elem_of_cons & <-); [by rewrite lex_lt_irrefl in E1|eauto].
  - destruct (lex_lt uchar tag (key x)) eqn:E2.
    + split; [done|]. intros (n & [->|Hn]%elem_of_cons & <-); [by rewrite lex_lt_irrefl in E2|].
      eapply Forall_forall in Hn; [|exact Hx]. unfold key_le in Hn. congruence.
    + assert (key x = tag) as <- by (symmetry; by apply key_le_antisym).
      split; [intros _; exists x; split; [left|done]|]. intros _ Heq.
      apply Hnx, list_elem_of_fmap. cbn in Heq. clear -Heq. unfold begin in Heq.
      destruct (after_key (key x) m) as [|y l] eqn:Ha; [done|]. cbn in Heq. injection Heq as Heq.
      exists y. split; [done|].
      assert (y ∈ after_key (key x) m) as Hy by (rewrite Ha; left). clear Ha Heq.
      induction m as [|z m IHm]; cbn [after_key] in Hy; [set_solver|].
      destruct (lex_lt uchar (key x) (key z)); set_solver.
Qed.

Lemma at_node_split i pre n post :
  NoDup (node_id <$> pre ++ n :: post) -> node_id n = i -> at_node i (pre ++ n :: post) = n :: post.
Proof.
  intros Hnd <-. induction pre as [|y pre IH]; cbn [app at_node].
  - by rewrite decide_True.
  - cbn in Hnd. apply NoDup_cons in Hnd as [Hy Hnd]. rewrite decide_False; [by apply IH|].
    intros Heq. apply Hy. rewrite Heq, fmap_app. set_solver.
Qed.

(** In a multimap without two nodes of one key, the range of a key is a node
    and its successor. *)
Lemma equal_range_single next m n :
  ok next m -> NoDup (key <$> m) -> n ∈ m ->
  exists pre post, m = pre ++ n :: post /\ equal_range (key n) m = (Some (node_id n), begin post).
Proof.
  intros [Hs _ _] Hk Hn. unfold equal_range. induction Hs as [|x m Hs IH Hx]; [set_solver|].
  cbn in Hk. apply NoDup_cons in Hk as [Hkx Hk].
  apply elem_of_cons in Hn as [<-|Hn]; cbn [from_key after_key].
  - exists [], m. split; [done|]. rewrite lex_lt_irrefl. cbn. f_equal.
    destruct Hs as [|y m Hs Hy]; [done|]. cbn [after_key].
    apply Forall_cons in Hx as [Hxy _].
    destruct (lex_lt uchar (key n) (key y)) eqn:E; [done|].
    destruct Hkx. apply list_elem_of_fmap. exists y. split; [by apply key_le_antisym|left].
  - destruct (IH Hk Hn) as (pre & post & -> & Heq). exists (x :: pre), post. split; [done|].
    assert (key_le (key x) (key n)) as Hle by (eapply Forall_forall in Hx; [exact Hx|done]).
    assert (lex_lt uchar (key x) (key n) = true) as ->.
    { destruct (lex_lt uchar (key x) (key n)) eqn:E; [done|]. destruct Hkx.
      rewrite (key_le_antisym _ _ Hle E). by apply list_elem_of_fmap_2. }
    unfold key_le in Hle. by rewrite Hle.
Qed.

Lemma equal_range_absent next m tag :
  ok next m -> (forall n, n ∈ m -> key n <> tag) -> (equal_range tag m).1 = (equal_range tag m).2.
Proof.
  intros Hok Hno. destruct (decide ((equal_range tag m).1 = (equal_range tag m).2)) as [|Hne]; [done|].
  apply (equal_range_present _ _ _ Hok) in Hne as (n & Hn & Hk). by destruct (Hno n Hn).
Qed.

Lemma deref_mem next m n : ok next m -> n ∈ m -> deref (Some (node_id n)) m = Ok n.
Proof.
  intros Hok (pre & post & ->)%list_elem_of_split. unfold deref. cbn.
  by rewrite (at_node_split _ _ _ _ (ok_ids _ _ Hok)).
Qed.

Lemma next_split next_id pre n post :
  ok next_id (pre ++ n :: post) -> next (Some (node_id n)) (pre ++ n :: post) = Ok (begin post).
Proof.
  intros Hok. unfold next. rewrite (deref_mem _ _ n Hok) by set_solver. cbn.
  by rewrite (at_node_split _ _ _ _ (ok_ids _ _ Hok)).
Qed.

Lemma erase_mem next m n : ok next m -> n ∈ m -> erase (Some (node_id n)) m = Ok (filter (fun x => x <> n) m).
Proof.
  intros Hok Hn. unfold erase. rewrite (deref_mem _ _ _ Hok Hn). cbn. f_equal.
  apply filter_iff_mem. intros x Hx. split; [congruence|]. intros Hne Heq. apply Hne.
  by apply (NoDup_fmap_eq node_id m), Heq; [apply ok_ids in Hok|..].
Qed.

End MultimapFacts.

Export MultimapFacts (ok).
Notation keyed := Multimap.key.

(** ** Steps of the pool *)

Section steps.
Implicit Types (s : t) (p : nat) (tag : bytes).

Lemma runs_read p tx s Q : heap s !! p = Some tx -> Q tx s -> runs (read p) s Q.
Proof. intros Hp HQ. unfold read. run_step. run_step. by apply (runs_lift _ tx); [rewrite Hp|]. Qed.

Lemma runs_nonnull p s Q : Q p s -> runs (nonnull (Some p)) s Q.
Proof. intros HQ. by apply (runs_lift _ p). Qed.

Lemma runs_for_each {A} (f : A -> act t unit) (I : list A -> t -> Prop) l s :
  (forall a rest s, I (a :: rest) s -> runs (f a) s (fun _ s' => I rest s')) ->
  I l s -> runs (for_each f l) s (fun _ s' => I [] s').
Proof.
  intros Hf. revert s. induction l as [|a l IH]; intros s HI; cbn [for_each]; [by run_step|].
  run_step. eapply runs_mono; [by apply Hf|]. intros ? s' Hs'. by apply IH.
Qed.

(** What only the operations of the interface change. *)
Record frame s s' : Prop := mkFrame {
  frame_imported : imported_txs_ s' = imported_txs_ s;
  frame_postponed : postponed_txs_ s' = postponed_txs_ s;
  frame_limits : limits_ s' = limits_ s;
  frame_heap : heap s' = heap s;
  frame_held : held s' = held s
}.

Lemma pool_frame_refl s : frame s s.
Proof. by split. Qed.

Lemma pool_frame_trans s1 s2 s3 : frame s1 s2 -> frame s2 s3 -> frame s1 s3.
Proof. intros [] []. split; congruence. Qed.

Lemma alive_frame p s s' : frame s s' -> alive p s' <-> alive p s.
Proof. intros []. unfold alive. by rewrite frame_imported0, frame_held0. Qed.

Lemma lock_alive p s : alive p s -> lock p s = Some p.
Proof. intros H. unfold lock. by rewrite decide_True. Qed.

Lemma lock_eq p q s : alive p s -> lock q s = Some p <-> q = p.
Proof.
  intros H. unfold lock. split; [by case_decide; intros [= ->]|intros ->]. by rewrite decide_True.
Qed.

Definition provided tag s : Prop := exists n, n ∈ tx_provides_tag_ s /\ keyed n = tag.

Lemma is_provided_spec tag s : ok (next_node s) (tx_provides_tag_ s) -> is_provided tag s = true <-> provided tag s.
Proof. intros Hok. unfold is_provided. rewrite bool_decide_eq_true. by eapply MultimapFacts.equal_range_present. Qed.

Lemma runs_checkForReady p tx s Q :
  heap s !! p = Some tx -> ok (next_node s) (tx_provides_tag_ s) ->
  (forall b : bool, (b = true <-> forall tag, tag ∈ requires tx -> provided tag s) -> Q b s) ->
  runs (checkForReady p) s Q.
Proof.
  intros Hp Hok HQ. unfold checkForReady. run_step. apply (runs_read _ tx); [done|]. run_step. apply HQ.
  rewrite forallb_forall. setoid_rewrite <- list_elem_of_In.
  split; intros H tag Htag; by apply is_provided_spec, H.
Qed.

(** [commitRequiredTags] moves the waiting nodes of [p] to the dependent ones. *)
Record committed p (tags : list bytes) s s' : Prop := mkCommitted {
  committed_frame : frame s s';
  committed_ready : ready_txs_ s' = ready_txs_ s;
  committed_provides : tx_provides_tag_ s' = tx_provides_tag_ s;
  committed_waits : tx_waits_tag_ s' =
    filter (fun n => ~ (Multimap.mapped n = p /\ keyed n ∈ tags)) (tx_waits_tag_ s);
  committed_next : (next_node s <= next_node s')%nat;
  committed_depends : ok (next_node s) (tx_depends_on_tag_ s) -> ok (next_node s') (tx_depends_on_tag_ s');
  committed_nodes : forall n, n ∈ tx_depends_on_tag_ s' ->
    n ∈ tx_depends_on_tag_ s \/ (Multimap.mapped n = p /\ keyed n ∈ tags)
}.

Lemma committed_nil p s : committed p [] s s.
Proof.
  split; [apply pool_frame_refl|done|done| |done|done|by left].
  symmetry. apply filter_all. set_solver.
Qed.

Lemma committed_cons p tag tags s1 s2 s3 :
  committed p [tag] s1 s2 -> committed p tags s2 s3 -> committed p (tag :: tags) s1 s3.
Proof.
  intros [F1 R1 P1 W1 N1 D1 B1] [F2 R2 P2 W2 N2 D2 B2].
  split; [by eapply pool_frame_trans|congruence|congruence| |lia|auto|].
  - rewrite W2, W1, list_filter_filter. apply list_filter_iff. set_solver.
  - intros n [[?|?]%B1|[? ?]]%B2; set_solver.
Qed.

Lemma runs_waits_erase n s Q :
  ok (next_node s) (tx_waits_tag_ s) -> n ∈ tx_waits_tag_ s ->
  Q tt (set_waits (filter (fun x => x <> n) (tx_waits_tag_ s)) s) ->
  runs (waits_erase (Some (Multimap.node_id n))) s Q.
Proof.
  intros Hok Hn HQ. unfold waits_erase. run_step. run_step. run_step.
  eapply runs_lift; [by eapply MultimapFacts.erase_mem|]. by run_step.
Qed.

Lemma commit_tag_spec p tag s :
  ok (next_node s) (tx_waits_tag_ s) -> alive p s ->
  runs (commit_tag p tag) s (fun _ s' => committed p [tag] s s').
Proof.
  intros Hok Hp. unfold commit_tag. run_step. run_step.
  set (I := fun rest s1 =>
    NoDup rest /\ (forall n, n ∈ rest -> n ∈ tx_waits_tag_ s /\ keyed n = tag) /\
    frame s s1 /\ ready_txs_ s1 = ready_txs_ s /\ tx_provides_tag_ s1 = tx_provides_tag_ s /\
    tx_waits_tag_ s1 = filter (fun n => Multimap.mapped n = p -> keyed n = tag -> n ∈ rest) (tx_waits_tag_ s) /\
    (next_node s <= next_node s1)%nat /\
    (ok (next_node s) (tx_depends_on_tag_ s) -> ok (next_node s1) (tx_depends_on_tag_ s1)) /\
    (forall n, n ∈ tx_depends_on_tag_ s1 -> n ∈ tx_depends_on_tag_ s \/ (Multimap.mapped n = p /\ keyed n ∈ [tag]))).
  eapply runs_mono; [apply (runs_for_each _ I)|].
  - intros a rest s1 (Hnd & Hin & F & R & P & W & N & D & B). apply NoDup_cons in Hnd as [Ha Hnd].
    run_step. run_step. destruct (Hin a) as [Hain Hak]; [left|].
    assert (alive p s1) as Hp1 by by apply (alive_frame _ _ _ F).
    apply runs_when; [rewrite bool_decide_eq_true|rewrite bool_decide_eq_false]; rewrite (lock_eq _ _ _ Hp1); intros Hm.
    + run_step. apply runs_waits_erase.
      * rewrite W. eapply MultimapFacts.ok_mono; [by apply MultimapFacts.ok_filter|done].
      * rewrite W. apply list_elem_of_filter. split; [|done]. intros _ _. left.
      * exists tt. eexists. split; [reflexivity|]. unfold I. cbn.
        split_and!; [done|set_solver|by destruct F; split|done|done| |lia| |].
        -- rewrite W, list_filter_filter. apply filter_iff_mem. intros x Hx. clear -Ha Hm Hak. set_solver.
        -- intros HD. by apply MultimapFacts.ok_emplace, D.
        -- intros n [->|Hn]%MultimapFacts.elem_of_emplace; [right|by apply B]. split; [done|]. apply list_elem_of_singleton. done.
    + split_and!; [done|set_solver|done|done|done| |done|done|done].
      rewrite W. apply filter_iff_mem. intros x Hx. clear -Ha Hm Hak. set_solver.
  - unfold I, Multimap.range. split_and!; [|by intros n [? ?]%list_elem_of_filter|by split|done|done| |done|done|by left].
    + apply NoDup_filter. destruct Hok. by eapply NoDup_fmap_1.
    + symmetry. apply filter_all. intros x Hx _ Hk. by apply list_elem_of_filter.
  - intros _ s' (_ & _ & F & R & P & W & N & D & B). split; [done..| |done|done|done].
    rewrite W. apply list_filter_iff. set_solver.
Qed.

Lemma commitRequiredTags_spec p tx s :
  heap s !! p = Some tx -> ok (next_node s) (tx_waits_tag_ s) -> alive p s ->
  runs (commitRequiredTags p) s (fun _ s' => committed p (requires tx) s s').
Proof.
  intros Htx Hok Hp. unfold commitRequiredTags. run_step. apply (runs_read _ tx); [done|]. clear Htx.
  revert s Hok Hp. generalize (requires tx) as tags. induction tags as [|tag tags IH]; intros s Hok Hp.
  { run_step. apply committed_nil. }
  cbn [for_each]. run_step. eapply runs_mono; [by apply commit_tag_spec|]. intros ? s1 C1.
  eapply runs_mono; [apply IH|].
  - destruct C1. rewrite committed_waits0. eapply MultimapFacts.ok_mono; [by apply MultimapFacts.ok_filter|done].
  - apply (alive_frame _ _ _ (committed_frame _ _ _ _ C1)), Hp.
  - intros ? s2 C2. exact (committed_cons _ _ _ _ _ _ C1 C2).
Qed.

End steps.

(** ** The invariant

    [D] is the transactions the pool knows: the imported ones, and during a
    removal the removed one too.  A transaction that is not ready waits on each
    of its tags, one of which is missing; no tag is waited for twice.  The
    exceptions are for the states between the steps of an operation: nodes of
    [E] belong to transactions that are leaving, transactions of [X] may have all
    their tags, those of [N] may have no nodes. *)

Definition good (tx : Transaction) : Prop := NoDup (requires tx) /\ NoDup (provides tx).

Definition member (D : gmap bytes nat) (s : t) (p : nat) (tx : Transaction) : Prop :=
  heap s !! p = Some tx /\ D !! hash tx = Some p.

Definition waiting (D : gmap bytes nat) (s : t) (p : nat) (tx : Transaction) : Prop :=
  member D s p tx /\ ready_txs_ s !! hash tx = None.

Definition is_ready (s : t) (p : nat) (tx : Transaction) : Prop := member (ready_txs_ s) s p tx.

Definition none {A} : A -> Prop := fun _ => False.

Definition tagged (n : Multimap.node) : bytes * nat := (keyed n, Multimap.mapped n).

Record inv (D : gmap bytes nat) (E : bytes * nat -> Prop) (X N : nat -> Prop) (s : t) : Prop := mkInv {
  inv_domain : forall h p, D !! h = Some p ->
    exists tx, heap s !! p = Some tx /\ hash tx = h /\ good tx /\ alive p s;
  inv_ready : ready_txs_ s ⊆ D;
  inv_linear : forall p q tx tx' tag, member D s p tx -> member D s q tx' ->
    tag ∈ requires tx -> tag ∈ requires tx' -> p = q;
  inv_provides_ok : ok (next_node s) (tx_provides_tag_ s);
  inv_depends_ok : ok (next_node s) (tx_depends_on_tag_ s);
  inv_waits_ok : ok (next_node s) (tx_waits_tag_ s);
  inv_waits_keys : NoDup (keyed <$> tx_waits_tag_ s);
  inv_provides_pairs : NoDup (tagged <$> tx_provides_tag_ s);
  inv_waits : forall n, n ∈ tx_waits_tag_ s ->
    exists tx, waiting D s (Multimap.mapped n) tx /\ keyed n ∈ requires tx;
  inv_waits_all : forall p tx tag, waiting D s p tx -> ~ N p -> tag ∈ requires tx ->
    exists n, n ∈ tx_waits_tag_ s /\ tagged n = (tag, p);
  inv_provides : forall n, n ∈ tx_provides_tag_ s ->
    (exists tx, is_ready s (Multimap.mapped n) tx /\ keyed n ∈ provides tx) \/ E (tagged n);
  inv_missing : forall p tx, waiting D s p tx -> ~ X p -> exists tag, tag ∈ requires tx /\ ~ provided tag s;
  inv_depends : forall n, n ∈ tx_depends_on_tag_ s ->
    exists tx, heap s !! Multimap.mapped n = Some tx /\ keyed n ∈ requires tx
}.

(** The tags that transactions of [T] provide when they are put in an order in
    which each finds its required tags provided. *)
Inductive available (T : Transaction -> Prop) : bytes -> Prop :=
  | available_intro tx tag :
      T tx -> (forall r, r ∈ requires tx -> available T r) -> tag ∈ provides tx -> available T tag.

Definition imported (s : t) (tx : Transaction) : Prop := exists p, member (imported_txs_ s) s p tx.

(** Ready transactions find their tags available. *)
Definition sound (s : t) : Prop := forall p tx, is_ready s p tx ->
  imported s tx /\ forall tag, tag ∈ requires tx -> available (imported s) tag.

Section submission.
Implicit Types (s : t) (p : nat) (tag : bytes) (D : gmap bytes nat).

(** A state that has more ready transactions and all tags of the new ones,
    those of [B] excepted. *)
Record grows (B : nat -> Prop) s s' : Prop := mkGrows {
  grows_frame : frame s s';
  grows_ready : ready_txs_ s ⊆ ready_txs_ s';
  grows_provides : forall n, n ∈ tx_provides_tag_ s -> n ∈ tx_provides_tag_ s';
  grows_new : forall p tx, is_ready s' p tx -> ~ B p -> is_ready s p tx \/
    forall tag, tag ∈ provides tx -> (tag, p) ∈ tagged <$> tx_provides_tag_ s';
  grows_nodes : forall n, n ∈ tx_provides_tag_ s' ->
    n ∈ tx_provides_tag_ s \/ forall tx, ~ is_ready s (Multimap.mapped n) tx;
  grows_sound : sound s -> sound s'
}.

Lemma member_heap D s s' p tx : heap s' = heap s -> member D s' p tx <-> member D s p tx.
Proof. intros H. unfold member. by rewrite H. Qed.

Lemma is_ready_mono s s' p tx :
  heap s' = heap s -> ready_txs_ s ⊆ ready_txs_ s' -> is_ready s p tx -> is_ready s' p tx.
Proof. intros Hh Hr [H1 H2]. split; [congruence|]. by eapply lookup_weaken. Qed.

Lemma grows_refl B s : grows B s s.
Proof. split; auto using pool_frame_refl. Qed.

Lemma grows_trans B s1 s2 s3 : grows B s1 s2 -> grows none s2 s3 -> grows B s1 s3.
Proof.
  intros [F1 R1 P1 N1 W1 S1] [F2 R2 P2 N2 W2 S2].
  split; [by eapply pool_frame_trans|by etrans|by auto| | |by auto].
  - intros p tx Hr HB. apply N2 in Hr as [H|H]; [|by right|by intros []].
    apply N1 in H as [H|H]; [by left|right|done]. intros tag Htag.
    apply H in Htag as (n & Hn & Hin)%list_elem_of_fmap. rewrite Hn. apply list_elem_of_fmap_2, P2, Hin.
  - intros n [H|H]%W2; [by apply W1|]. right. intros tx Hr. apply (H tx).
    eapply is_ready_mono; [apply (frame_heap _ _ F1)|done|done].
Qed.

Lemma not_ready_size D E X N s p tx :
  inv D E X N s -> waiting D s p tx -> (size (ready_txs_ s) < size D)%nat.
Proof.
  intros HI [[_ HD] Hr]. apply map_subset_size. split; [apply (inv_ready _ _ _ _ _ HI)|].
  intros Hsub. rewrite (lookup_weaken_None _ _ _ Hr Hsub) in HD. done.
Qed.

Lemma provided_available s tag :
  (forall n, n ∈ tx_provides_tag_ s -> exists tx, is_ready s (Multimap.mapped n) tx /\ keyed n ∈ provides tx) ->
  sound s -> provided tag s -> available (imported s) tag.
Proof.
  intros Hp Hs (n & Hn & <-). destruct (Hp n Hn) as (tx & Hr & Hk). destruct (Hs _ _ Hr) as [Hi Ha].
  by apply (available_intro _ tx).
Qed.

Lemma inv_ready_nodes D X N s : inv D none X N s ->
  forall n, n ∈ tx_provides_tag_ s -> exists tx, is_ready s (Multimap.mapped n) tx /\ keyed n ∈ provides tx.
Proof. intros HI n Hn. by destruct (inv_provides _ _ _ _ _ HI n Hn) as [?|[]]. Qed.

Lemma frame_imported_txs s s' tx : frame s s' -> imported s' tx <-> imported s tx.
Proof. intros F. unfold imported, member. by rewrite (frame_imported _ _ F), (frame_heap _ _ F). Qed.

Lemma available_frame s s' tag : frame s s' -> available (imported s) tag -> available (imported s') tag.
Proof.
  intros F. induction 1 as [tx tag Hi _ IH Hp]. apply (available_intro _ tx); [|done|done].
  by apply (frame_imported_txs _ _ _ F).
Qed.

(** [setReady] up to the tags that the transaction provides. *)
Section become_ready.
Variables (X N : nat -> Prop) (s s' : t) (p : nat) (tx : Transaction).
Hypothesis HI : inv (imported_txs_ s) none X N s.
Hypothesis Hw : waiting (imported_txs_ s) s p tx.
Hypothesis HX : forall q, X q -> q = p.
Hypothesis HN : forall q, N q -> q = p.
Hypothesis Hc : committed p (requires tx) (set_ready (<[hash tx := p]> (ready_txs_ s)) s) s'.

Lemma become_ready_frame : frame s s'.
Proof using Hc. destruct Hc as [[] _ _ _ _ _ _]. by split. Qed.

Lemma become_ready_mono : ready_txs_ s ⊆ ready_txs_ s'.
Proof using Hc Hw. rewrite (committed_ready _ _ _ _ Hc). cbn. apply insert_subseteq, Hw. Qed.

Lemma become_ready_waiting q tx' :
  waiting (imported_txs_ s) s' q tx' -> waiting (imported_txs_ s) s q tx' /\ q <> p.
Proof using Hc Hw.
  pose proof become_ready_frame as F. destruct Hw as [[Hp HD] Hr]. intros [[Hq HDq] Hrq].
  rewrite (frame_heap _ _ F) in Hq. rewrite (committed_ready _ _ _ _ Hc) in Hrq. cbn in Hrq.
  apply lookup_insert_None in Hrq as [Hrq Hne]. split; [by split|]. intros ->. congruence.
Qed.

Lemma become_ready_inv : inv (imported_txs_ s) none none none s'.
Proof using HI Hw HX HN Hc.
  pose proof become_ready_frame as F. pose proof become_ready_mono as Hmono.
  destruct HI as [I1 I2 I3 I4 I5 I6 I7 I8 I9 I10 I11 I12 I13].
  destruct Hc as [_ CR CP CW CN CD CB]. cbn in *. pose proof (frame_heap _ _ F) as Fh.
  split.
  - intros h q Hq. destruct (I1 h q Hq) as (tx' & ? & ? & ? & ?). exists tx'. rewrite Fh.
    split_and!; [done..|]. by apply (alive_frame _ _ _ F).
  - rewrite CR. apply insert_subseteq_l; [apply Hw|done].
  - intros q q' tx1 tx2 tag. rewrite !(member_heap _ _ _ _ _ Fh). apply I3.
  - rewrite CP. by eapply MultimapFacts.ok_mono.
  - by apply CD.
  - rewrite CW. eapply MultimapFacts.ok_mono; [by apply MultimapFacts.ok_filter|done].
  - rewrite CW. apply (sublist_NoDup _ _ I7), fmap_sublist, sublist_filter.
  - by rewrite CP.
  - rewrite CW. intros n [Hn Hin]%list_elem_of_filter. destruct (I9 n Hin) as (tx' & [[Hq HDq] Hrq] & Hk).
    exists tx'. split; [|done]. split; [split; [congruence|done]|]. rewrite CR, lookup_insert_ne; [done|].
    intros Heq. destruct Hw as [[Hp HD] _]. rewrite Heq in HD. apply Hn. naive_solver.
  - intros q tx' tag Hq _ Htag. apply become_ready_waiting in Hq as [Hq Hne].
    destruct (I10 q tx' tag Hq) as (n & Hn & Heq); [naive_solver|done|]. exists n. split; [|done].
    rewrite CW. apply list_elem_of_filter. split; [|done]. injection Heq as _ <-. by intros [? _].
  - intros n Hn. left. rewrite CP in Hn. destruct (I11 n Hn) as [(tx' & Hr & Hk)|[]].
    exists tx'. split; [|done]. by eapply is_ready_mono.
  - intros q tx' Hq _. apply become_ready_waiting in Hq as [Hq Hne].
    destruct (I12 q tx' Hq) as (tag & Htag & Hno); [naive_solver|]. exists tag. split; [done|].
    unfold provided. by rewrite CP.
  - intros n Hn. rewrite Fh. apply CB in Hn as [Hn|[-> Hk]]; [by apply I13|].
    destruct Hw as [[Hp _] _]. by exists tx.
Qed.

Lemma become_ready_sound : (forall tag, tag ∈ requires tx -> provided tag s) -> sound s -> sound s'.
Proof using HI Hw Hc.
  pose proof become_ready_frame as F. intros Hall Hs q tx' [Hq Hrq].
  rewrite (frame_heap _ _ F) in Hq. rewrite (committed_ready _ _ _ _ Hc) in Hrq. cbn in Hrq.
  apply lookup_insert_Some in Hrq as [[Heq <-]|[Hne Hrq]].
  - destruct Hw as [[Hp HD] _]. assert (tx' = tx) as -> by congruence.
    split; [apply (frame_imported_txs _ _ _ F); by exists p|]. intros tag Htag. apply (available_frame _ _ _ F).
    apply provided_available; [by eapply inv_ready_nodes|done|by apply Hall].
  - destruct (Hs q tx') as [Hi Ha]; [done|]. split; [by apply (frame_imported_txs _ _ _ F)|].
    intros tag Htag. apply (available_frame _ _ _ F), Ha, Htag.
Qed.

Lemma become_ready_grows :
  (forall tag, tag ∈ requires tx -> provided tag s) -> grows (eq p) s s'.
Proof using HI Hw Hc.
  intros Hall. pose proof become_ready_frame as F. split; [done|apply become_ready_mono| | | |by apply become_ready_sound].
  - by rewrite (committed_provides _ _ _ _ Hc).
  - intros q tx' [Hq Hrq] Hne. left. split; [by rewrite <- (frame_heap _ _ F)|].
    rewrite (committed_ready _ _ _ _ Hc) in Hrq. cbn in Hrq.
    by apply lookup_insert_Some in Hrq as [[_ ?]|[_ ?]].
  - intros n. rewrite (committed_provides _ _ _ _ Hc). by left.
Qed.

End become_ready.

Definition with_provider tag p s : t :=
  set_provides (Multimap.emplace (Multimap.mkNode (next_node s) tag p) (tx_provides_tag_ s)) (set_next_node (S (next_node s)) s).

Lemma runs_provides_emplace tag p s Q : Q tt (with_provider tag p s) -> runs (provides_emplace tag p) s Q.
Proof. intros HQ. exists tt. eexists. split; [reflexivity|exact HQ]. Qed.

Lemma provided_with tag tag' p s : provided tag' (with_provider tag p s) <-> tag' = tag \/ provided tag' s.
Proof. unfold provided. cbn. setoid_rewrite MultimapFacts.elem_of_emplace. naive_solver. Qed.

Definition requiring s tag : nat -> Prop := fun q => exists tx, heap s !! q = Some tx /\ tag ∈ requires tx.

Lemma with_provider_inv D tag p tx s :
  inv D none none none s -> is_ready s p tx -> tag ∈ provides tx -> (tag, p) ∉ tagged <$> tx_provides_tag_ s ->
  inv D none (requiring s tag) none (with_provider tag p s).
Proof.
  intros [I1 I2 I3 I4 I5 I6 I7 I8 I9 I10 I11 I12 I13] Hr Htag Hno. split; cbn; try done.
  - by apply MultimapFacts.ok_emplace.
  - eapply MultimapFacts.ok_mono; [done|lia].
  - eapply MultimapFacts.ok_mono; [done|lia].
  - rewrite MultimapFacts.emplace_permutation. by constructor.
  - intros n [->|Hn]%MultimapFacts.elem_of_emplace; [left; by exists tx|by apply I11].
  - intros q tx' Hq HX. destruct (I12 q tx' Hq) as (r & Hin & Hnp); [by intros []|].
    exists r. split; [done|]. rewrite provided_with. intros [->|?]; [|done]. apply HX. exists tx'.
    split; [apply Hq|done].
Qed.

Lemma with_provider_grows tag p s0 s :
  grows (eq p) s0 s -> (forall tx, ~ is_ready s0 p tx) -> grows (eq p) s0 (with_provider tag p s).
Proof.
  intros [[] R P N W S] Hp. split; [by split|done| | | |by auto]; cbn.
  - intros n Hn. apply MultimapFacts.elem_of_emplace. right. by apply P.
  - intros q tx Hq Hne. destruct (N q tx Hq Hne) as [H|H]; [by left|right]. intros r Hr.
    apply H in Hr as (n & -> & Hn)%list_elem_of_fmap. apply list_elem_of_fmap_2, MultimapFacts.elem_of_emplace. by right.
  - intros n [->|Hn]%MultimapFacts.elem_of_emplace; [by right|by apply W].
Qed.

#[local] Instance provided_dec tag s : Decision (provided tag s).
Proof.
  destruct (decide (Exists (fun n => keyed n = tag) (tx_provides_tag_ s))) as [H|H]; [left|right].
  - by apply Exists_exists in H.
  - intros Hp. by apply H, Exists_exists.
Qed.

Lemma not_all_provided (tags : list bytes) s :
  ~ (forall tag, tag ∈ tags -> provided tag s) -> exists tag, tag ∈ tags /\ ~ provided tag s.
Proof.
  intros H. rewrite <- Forall_forall in H. apply not_Forall_Exists, Exists_exists in H; [done|apply _].
Qed.

Definition room s : Prop := Z.of_nat (size (imported_txs_ s)) <= max_ready_num (limits_ s).

Lemma room_frame s s' : frame s s' -> room s -> room s'.
Proof. intros []. unfold room. by rewrite frame_imported0, frame_limits0. Qed.

(** What [setReady] does to a transaction that has all its tags. *)
Definition readies (fuel : nat) : Prop := forall X N p tx s,
  inv (imported_txs_ s) none X N s -> waiting (imported_txs_ s) s p tx ->
  (forall q, X q -> q = p) -> (forall q, N q -> q = p) ->
  (forall tag, tag ∈ requires tx -> provided tag s) ->
  (size (imported_txs_ s) < fuel + size (ready_txs_ s))%nat -> room s ->
  runs (setReady fuel p) s (fun _ s' =>
    inv (imported_txs_ s) none none none s' /\ grows none s s' /\ is_ready s' p tx).

Lemma waiting_hasSpace D E X N s p tx :
  inv D E X N s -> waiting D s p tx -> D = imported_txs_ s -> room s -> hasSpaceInReady s = true.
Proof.
  intros HI Hw -> Hroom. apply (not_ready_size _ _ _ _ _ _ _ HI) in Hw.
  unfold hasSpaceInReady, room in *. apply Z.ltb_lt. lia.
Qed.

Section provide.
Variables (fuel : nat) (tag : bytes).
Hypothesis IH : readies fuel.

(** The one transaction that waits for the tag becomes ready or still misses
    another one. *)
Lemma provide_waiter n tx s :
  inv (imported_txs_ s) none (requiring s tag) none s -> n ∈ tx_waits_tag_ s -> keyed n = tag ->
  waiting (imported_txs_ s) s (Multimap.mapped n) tx -> tag ∈ requires tx ->
  (size (imported_txs_ s) < fuel + size (ready_txs_ s))%nat -> room s ->
  runs (checkForReady (Multimap.mapped n)) s (fun ok s1 =>
    runs (when ok (space ← gets hasSpaceInReady;
                   if (space : bool) then setReady fuel (Multimap.mapped n)
                   else postponeTransaction (Multimap.mapped n))) s1
      (fun _ s' => inv (imported_txs_ s) none none none s' /\ grows none s s')).
Proof using IH.
  intros HI Hn Hk Hw Htag Hfuel Hroom.
  assert (forall q tx', requiring s tag q -> waiting (imported_txs_ s) s q tx' -> q = Multimap.mapped n) as Honly.
  { intros q tx' (tx1 & Hq & Hr) [[Hq' HD] _]. assert (tx1 = tx') as -> by congruence.
    eapply (inv_linear _ _ _ _ _ HI); [by split|apply Hw|done|done]. }
  apply (runs_checkForReady _ tx); [apply Hw|by eapply inv_provides_ok|]. intros b Hb. apply runs_when.
  - intros ->. run_step. run_step. rewrite (waiting_hasSpace _ _ _ _ _ _ _ HI Hw eq_refl Hroom).
    eapply runs_mono; [apply (IH (fun q => q = Multimap.mapped n) none _ tx); try done|by intros ? ? (? & ? & _)].
    + destruct HI. split; try done. intros q tx' Hq Hne. apply (inv_missing0 q tx' Hq). intros Hx. by apply Hne, (Honly q tx').
    + by apply Hb.
  - intros ->. split; [|apply grows_refl]. destruct HI. split; try done. intros q tx' Hq _.
    destruct (decide (q = Multimap.mapped n)) as [->|Hne].
    + destruct Hq as [[Hq _] _], Hw as [[Hp _] _]. assert (tx' = tx) as -> by congruence.
      apply not_all_provided. by intros ?%Hb.
    + apply (inv_missing0 q tx' Hq). intros Hx. by apply Hne, (Honly q tx').
Qed.

Lemma provideTag_spec s :
  inv (imported_txs_ s) none (requiring s tag) none s ->
  (size (imported_txs_ s) < fuel + size (ready_txs_ s))%nat -> room s ->
  runs (provideTag (setReady fuel) tag) s
    (fun _ s' => inv (imported_txs_ s) none none none s' /\ grows none s s').
Proof using IH.
  intros HI Hfuel Hroom. unfold provideTag. run_step. run_step.
  destruct (decide (Exists (fun n => keyed n = tag) (tx_waits_tag_ s))) as [Hex|Hno].
  - apply Exists_exists in Hex as (n & Hn & Hk). destruct (inv_waits _ _ _ _ _ HI n Hn) as (tx & Hw & Hr).
    pose proof (inv_waits_ok _ _ _ _ _ HI) as Hok.
    destruct (MultimapFacts.equal_range_single _ _ n Hok (inv_waits_keys _ _ _ _ _ HI) Hn)
      as (pre & post & Hsplit & Hrange). rewrite <- Hk, Hrange. cbn [fst snd].
    assert (exists k, length (tx_waits_tag_ s) = S k) as [k ->].
    { rewrite Hsplit, length_app. cbn. eexists. by rewrite Nat.add_succ_r. }
    cbn [provide_loop]. rewrite decide_False.
    2:{ pose proof (proj2 (MultimapFacts.equal_range_present _ _ (keyed n) Hok)) as Hne. rewrite Hrange in Hne.
        apply Hne. by exists n. }
    run_step. run_step.
    run_step. eapply runs_lift; [by eapply MultimapFacts.deref_mem|].
    run_step. eapply runs_lift; [rewrite Hsplit; eapply MultimapFacts.next_split; by rewrite <- Hsplit|].
    destruct (inv_domain _ _ _ _ _ HI (hash tx) (Multimap.mapped n)) as (_ & _ & _ & _ & Hal); [apply Hw|].
    run_step. run_step. rewrite (lock_alive _ _ Hal). run_step. apply runs_nonnull.
    run_step. eapply runs_mono; [eapply provide_waiter; try done; congruence|].
    intros b s1 Hb. run_step. eapply runs_mono; [exact Hb|]. intros ? s2 Hs2. rewrite decide_True by done.
    by run_step.
  - assert (forall n, n ∈ tx_waits_tag_ s -> keyed n <> tag) as Habs.
    { intros n Hn Hk. apply Hno, Exists_exists. by exists n. }
    cbn [provide_loop]. rewrite decide_True by (by eapply MultimapFacts.equal_range_absent, Habs; eapply inv_waits_ok).
    run_step. split; [|apply grows_refl]. destruct HI. split; try done. intros q tx Hq _.
    apply (inv_missing0 q tx Hq). intros (tx' & Hq' & Hr). destruct Hq as [[Hq1 Hq2] Hq3].
    assert (tx' = tx) as -> by congruence.
    destruct (inv_waits_all0 q tx tag) as (n & Hn & [= Hk _]); [by split|by intros []|done|]. by apply (Habs n).
Qed.

End provide.

Lemma grows_size B s s' : grows B s s' -> (size (ready_txs_ s) <= size (ready_txs_ s'))%nat.
Proof. intros G. apply map_subseteq_size, (grows_ready _ _ _ G). Qed.

(** The provided tags, from a state [s0] in which [p] was not ready yet. *)
Lemma commitProvidedTags_spec fuel p tx s0 s :
  readies fuel -> good tx -> grows (eq p) s0 s -> (forall tx, ~ is_ready s0 p tx) ->
  inv (imported_txs_ s0) none none none s -> is_ready s p tx ->
  (forall tag, (tag, p) ∉ tagged <$> tx_provides_tag_ s) ->
  (size (imported_txs_ s) < fuel + size (ready_txs_ s))%nat -> room s ->
  runs (commitProvidedTags (setReady fuel) p) s (fun _ s' =>
    inv (imported_txs_ s0) none none none s' /\ grows none s0 s' /\ is_ready s' p tx).
Proof.
  intros IH [_ Hnd] Hg Hp HI Hr Hnone Hfuel Hroom. unfold commitProvidedTags.
  run_step. apply (runs_read _ tx); [apply Hr|].
  set (I := fun rest s1 =>
    NoDup rest /\ (forall tag, tag ∈ rest -> tag ∈ provides tx /\ (tag, p) ∉ tagged <$> tx_provides_tag_ s1) /\
    (forall tag, tag ∈ provides tx -> tag ∈ rest \/ (tag, p) ∈ tagged <$> tx_provides_tag_ s1) /\
    grows (eq p) s0 s1 /\ inv (imported_txs_ s0) none none none s1 /\ is_ready s1 p tx /\
    (size (imported_txs_ s1) < fuel + size (ready_txs_ s1))%nat /\ room s1).
  eapply runs_mono; [apply (runs_for_each _ I)|].
  - clear dependent s. intros tag rest s (Hnd1 & Hrest & Hdone & Hg & HI & Hr & Hfuel & Hroom).
    apply NoDup_cons in Hnd1 as [Htag Hnd1]. destruct (Hrest tag) as [Hprov Hno]; [left|].
    run_step. apply runs_provides_emplace.
    pose proof (frame_imported _ _ (grows_frame _ _ _ Hg)) as Him.
    eapply runs_mono; [apply provideTag_spec; [done| |done|done]|].
    { cbn [with_provider set_provides set_next_node imported_txs_]. rewrite Him. exact (with_provider_inv _ tag p tx s HI Hr Hprov Hno). }
    cbn [with_provider set_provides set_next_node imported_txs_]. rewrite Him. intros ? s1 [HI1 Hg1].
    assert (is_ready (with_provider tag p s) p tx) as Hr0 by done.
    assert (forall n, n ∈ tx_provides_tag_ s1 -> Multimap.mapped n = p -> n ∈ tx_provides_tag_ (with_provider tag p s)) as Hold.
    { intros n Hn <-. destruct (grows_nodes _ _ _ Hg1 n Hn) as [?|H]; [done|]. by destruct (H tx). }
    unfold I. split_and!; [done| | | |done| | |].
    + intros r Hin. destruct (Hrest r) as [? Hn]; [by right|]. split; [done|].
      intros (n & [= -> Hm] & Hn1)%list_elem_of_fmap. apply Hold in Hn1; [|done].
      apply MultimapFacts.elem_of_emplace in Hn1 as [->|Hn1]; [done|]. apply Hn, list_elem_of_fmap. exists n. by rewrite Hm.
    + intros r Hin. assert (forall n, n ∈ tx_provides_tag_ (with_provider tag p s) -> n ∈ tx_provides_tag_ s1) as Hsub
        by apply (grows_provides _ _ _ Hg1).
      destruct (Hdone r Hin) as [[->|?]%elem_of_cons|(n & -> & Hn)%list_elem_of_fmap]; [right|by left|right].
      * apply list_elem_of_fmap. eexists (Multimap.mkNode _ tag p). split; [done|]. apply Hsub, MultimapFacts.elem_of_emplace. by left.
      * apply list_elem_of_fmap_2, Hsub, MultimapFacts.elem_of_emplace. by right.
    + eapply grows_trans; [by apply with_provider_grows|done].
    + eapply is_ready_mono; [apply (frame_heap _ _ (grows_frame _ _ _ Hg1))|apply (grows_ready _ _ _ Hg1)|done].
    + pose proof (grows_size _ _ _ Hg1) as Hsz. rewrite (frame_imported _ _ (grows_frame _ _ _ Hg1)). cbn in *. lia.
    + by apply (room_frame _ _ (grows_frame _ _ _ Hg1)).
  - unfold I. split_and!; [done|naive_solver|naive_solver|done..].
  - intros ? s' (_ & _ & Hdone & Hg' & HI' & Hr' & _). split_and!; [done| |done]. destruct Hg'. split; try done.
    intros q tx' Hq _. destruct (decide (q = p)) as [->|Hne]; [|apply grows_new0; congruence].
    right. destruct Hq as [Hq _], Hr' as [Hr' _]. assert (tx' = tx) as -> by congruence.
    intros tag Htag. by destruct (Hdone tag Htag) as [?%not_elem_of_nil|?].
Qed.

Lemma setReady_readies fuel : readies fuel.
Proof.
  induction fuel as [|fuel IH]; intros X N p tx s HI Hw HX HN Hall Hfuel Hroom.
  { pose proof (map_subseteq_size _ _ (inv_ready _ _ _ _ _ HI)). lia. }
  pose proof Hw as [[Hp HD] Hnr].
  destruct (inv_domain _ _ _ _ _ HI _ _ HD) as (tx' & Hp' & _ & Hgood & Hal). assert (tx' = tx) as -> by congruence.
  cbn [setReady]. run_step. apply (runs_read _ tx); [done|]. run_step. run_step. rewrite Hnr. run_step. run_step.
  run_step. eapply runs_mono; [apply (commitRequiredTags_spec p tx); [done|apply (inv_waits_ok _ _ _ _ _ HI)|done]|].
  intros ? s1 Hc. pose proof (become_ready_frame _ _ _ _ Hc) as F.
  assert (ready_txs_ s1 = <[hash tx := p]> (ready_txs_ s)) as Hready by by rewrite (committed_ready _ _ _ _ Hc).
  apply (commitProvidedTags_spec fuel p tx s s1); [done|done| | | | | | |].
  - by eapply become_ready_grows.
  - intros tx1 [Hp1 Hr1]. congruence.
  - by eapply become_ready_inv.
  - split; [by rewrite (frame_heap _ _ F)|]. by rewrite Hready, lookup_insert_eq.
  - intros tag (n & [= -> Hm] & Hn)%list_elem_of_fmap. rewrite (committed_provides _ _ _ _ Hc) in Hn. cbn in Hn.
    destruct (inv_ready_nodes _ _ _ _ HI n Hn) as (tx1 & [H1 H2] & _). rewrite <- Hm in *. congruence.
  - rewrite Hready, (frame_imported _ _ F), map_size_insert_None by done. lia.
  - by apply (room_frame _ _ F).
Qed.

(** Nodes for all tags of a waiting transaction. *)
Record rewaits s s' : Prop := mkRewaits {
  rewaits_frame : frame s s';
  rewaits_ready : ready_txs_ s' = ready_txs_ s;
  rewaits_provides : tx_provides_tag_ s' = tx_provides_tag_ s;
  rewaits_depends : tx_depends_on_tag_ s' = tx_depends_on_tag_ s
}.

Definition with_waiter tag p s : t :=
  set_waits (Multimap.emplace (Multimap.mkNode (next_node s) tag p) (tx_waits_tag_ s)) (set_next_node (S (next_node s)) s).

Lemma with_waiter_inv D E X N tag p tx s :
  inv D E X N s -> waiting D s p tx -> tag ∈ requires tx -> (tag, p) ∉ tagged <$> tx_waits_tag_ s ->
  inv D E X N (with_waiter tag p s).
Proof.
  intros [I1 I2 I3 I4 I5 I6 I7 I8 I9 I10 I11 I12 I13] Hw Htag Hno. split; cbn; try done.
  - eapply MultimapFacts.ok_mono; [done|lia].
  - eapply MultimapFacts.ok_mono; [done|lia].
  - by apply MultimapFacts.ok_emplace.
  - rewrite MultimapFacts.emplace_permutation. constructor; [|done]. cbn.
    intros (n & -> & Hn)%list_elem_of_fmap. destruct (I9 n Hn) as (tx' & Hw' & Hk).
    apply Hno, list_elem_of_fmap. exists n. split; [|done]. unfold tagged. f_equal.
    apply (I3 p (Multimap.mapped n) tx tx' (keyed n)); [apply Hw|apply Hw'|done|done].
  - intros n [->|Hn]%MultimapFacts.elem_of_emplace; [by exists tx|by apply I9].
  - intros q tx' r Hq HN Hr. destruct (I10 q tx' r Hq HN Hr) as (n & Hn & Hk). exists n.
    split; [|done]. apply MultimapFacts.elem_of_emplace. by right.
Qed.

Lemma emplace_waits_spec D E X N p tx s :
  inv D E X N s -> waiting D s p tx -> good tx -> (forall q, N q -> q = p) ->
  (forall n, n ∈ tx_waits_tag_ s -> Multimap.mapped n <> p) ->
  runs (for_each (fun tag => waits_emplace tag p) (requires tx)) s
    (fun _ s' => inv D E X none s' /\ rewaits s s').
Proof.
  intros HI Hw [Hnd _] HN Hno.
  set (I := fun rest s1 =>
    NoDup rest /\ (forall tag, tag ∈ rest -> tag ∈ requires tx /\ (tag, p) ∉ tagged <$> tx_waits_tag_ s1) /\
    (forall tag, tag ∈ requires tx -> tag ∈ rest \/ (tag, p) ∈ tagged <$> tx_waits_tag_ s1) /\
    inv D E X N s1 /\ waiting D s1 p tx /\ rewaits s s1).
  eapply runs_mono; [apply (runs_for_each _ I)|].
  - intros tag rest s1 (Hnd1 & Hrest & Hdone & HI1 & Hw1 & R). apply NoDup_cons in Hnd1 as [Htag Hnd1].
    destruct (Hrest tag) as [Hreq Hn1]; [left|].
    exists tt, (with_waiter tag p s1). split; [reflexivity|]. unfold I. split_and!; [done| | | |done|].
    + intros r Hr. destruct (Hrest r) as [? Hn]; [by right|]. split; [done|]. cbn.
      intros (n & Heq & [->|Hin]%MultimapFacts.elem_of_emplace)%list_elem_of_fmap.
      * injection Heq as ->. done.
      * apply Hn. rewrite Heq. by apply list_elem_of_fmap_2.
    + intros r Hr. cbn. destruct (Hdone r Hr) as [[->|?]%elem_of_cons|(n & -> & Hn)%list_elem_of_fmap]; [right|by left|right].
      * apply list_elem_of_fmap. eexists (Multimap.mkNode _ tag p). split; [done|]. apply MultimapFacts.elem_of_emplace. by left.
      * apply list_elem_of_fmap_2, MultimapFacts.elem_of_emplace. by right.
    + by eapply with_waiter_inv.
    + destruct R as [[] ? ? ?]. split; [by split|done|done|done].
  - unfold I. split_and!; [done| |by left|done|done|by split; [apply pool_frame_refl|..]].
    intros tag Htag. split; [done|]. intros (n & [= _ Hm] & Hn)%list_elem_of_fmap. by destruct (Hno n Hn).
  - intros ? s' (_ & _ & Hdone & HI' & Hw' & R). split; [|done]. pose proof HI' as []. split; try done.
    intros q tx' r Hq _ Hr. destruct (decide (q = p)) as [->|Hne]; [|apply (inv_waits_all0 q tx'); naive_solver].
    destruct Hq as [[Hq _] _], Hw' as [[Hw' _] _]. assert (tx' = tx) as -> by congruence.
    destruct (Hdone r Hr) as [?%not_elem_of_nil|(n & Heq & Hn)%list_elem_of_fmap]; [done|]. by exists n.
Qed.

End submission.
