(* ===== verification/TransactionPoolProps.v ===== *)
(** * Properties of the transaction pool

    Submission under the invariant and the ready transactions as those whose
    tags are available; removal; bounds; inputs outside these conditions. *)

From S2P Require Import Prelude TransactionPool TransactionPoolInv.
Import TransactionPoolImpl.

Open Scope Z_scope.

(** ** Submission *)

Section submission.
Implicit Types (s : t) (p : nat) (tag : bytes).

(** Every tag of a ready transaction is provided by it. *)
Definition complete s : Prop := forall p tx tag,
  is_ready s p tx -> tag ∈ provides tx -> (tag, p) ∈ tagged <$> tx_provides_tag_ s.

(** The pool between two operations. *)
Record pool_inv s : Prop := mkPoolInv {
  pool_inv_inv : inv (imported_txs_ s) none none none s;
  pool_inv_complete : complete s;
  pool_inv_postponed : postponed_txs_ s = [];
  pool_inv_held : held s = []
}.

(** A transaction that can be added: its hash is new, there is room for it, and
    no imported transaction requires one of its tags. *)
Record admissible (tx : Transaction) s : Prop := mkAdmissible {
  admissible_hash : imported_txs_ s !! hash tx = None;
  admissible_good : good tx;
  admissible_tags : forall tx' tag, imported s tx' -> tag ∈ requires tx -> tag ∉ requires tx';
  admissible_ready : Z.of_nat (size (imported_txs_ s)) < max_ready_num (limits_ s);
  admissible_capacity : Z.of_nat (size (imported_txs_ s)) < capacity (limits_ s)
}.

Lemma imported_alive s h p : imported_txs_ s !! h = Some p -> alive p s.
Proof. intros H. right. by exists h, p. Qed.

Definition with_import p tx s : t :=
  set_imported (<[hash tx := p]> (imported_txs_ s)) (set_heap (<[p := tx]> (heap s)) s).

Section import.
Variables (s : t) (p : nat) (tx : Transaction).
Hypothesis HI : inv (imported_txs_ s) none none none s.
Hypothesis Hp : heap s !! p = None.
Hypothesis Hadm : admissible tx s.

Lemma import_old h q : imported_txs_ s !! h = Some q -> q <> p /\ h <> hash tx.
Proof using HI Hp Hadm.
  intros Hq. split; [|intros ->; destruct Hadm; congruence].
  intros ->. destruct (inv_domain _ _ _ _ _ HI h p Hq) as (? & ? & _). congruence.
Qed.

Lemma import_member q tx' :
  member (imported_txs_ (with_import p tx s)) (with_import p tx s) q tx' <->
  (q = p /\ tx' = tx) \/ member (imported_txs_ s) s q tx'.
Proof using HI Hp Hadm.
  unfold member. cbn. split.
  - intros [Hh Hi]. apply lookup_insert_Some in Hh as [[-> <-]|[Hne Hh]]; [by left|right].
    split; [done|]. apply lookup_insert_Some in Hi as [[_ ->]|[_ ?]]; done.
  - intros [[-> ->]|[Hh Hi]]; [by rewrite !lookup_insert_eq|].
    destruct (import_old _ _ Hi). by rewrite !lookup_insert_ne by done.
Qed.

Lemma import_is_ready q tx' : is_ready (with_import p tx s) q tx' <-> is_ready s q tx'.
Proof using HI Hp Hadm.
  unfold is_ready, member. cbn. split; intros [Hh Hr];
    (pose proof (lookup_weaken _ _ _ _ Hr (inv_ready _ _ _ _ _ HI)) as Hi; destruct (import_old _ _ Hi));
    by rewrite lookup_insert_ne in *.
Qed.

Lemma import_waiting : waiting (imported_txs_ (with_import p tx s)) (with_import p tx s) p tx.
Proof using HI Hadm.
  split; [unfold member; cbn; by rewrite !lookup_insert_eq|]. cbn.
  apply (lookup_weaken_None _ (imported_txs_ s)); [apply Hadm|apply (inv_ready _ _ _ _ _ HI)].
Qed.

Lemma import_waiting_old q tx' : q <> p ->
  waiting (imported_txs_ (with_import p tx s)) (with_import p tx s) q tx' <-> waiting (imported_txs_ s) s q tx'.
Proof using HI Hp Hadm. intros Hne. unfold waiting. rewrite import_member. cbn. naive_solver. Qed.

Lemma import_nodes n : n ∈ tx_waits_tag_ s -> Multimap.mapped n <> p.
Proof using HI Hp Hadm.
  intros Hn. destruct (inv_waits _ _ _ _ _ HI n Hn) as (tx' & [[_ Hi] _] & _). by destruct (import_old _ _ Hi).
Qed.

Lemma import_inv : inv (imported_txs_ (with_import p tx s)) none (eq p) (eq p) (with_import p tx s).
Proof using HI Hp Hadm.
  pose proof HI as [I1 I2 I3 I4 I5 I6 I7 I8 I9 I10 I11 I12 I13]. split; try done.
  - intros h q Hq. pose proof (imported_alive _ _ _ Hq) as Hal. cbn in *.
    apply lookup_insert_Some in Hq as [[<- <-]|[Hne Hq]].
    + exists tx. rewrite lookup_insert_eq. split_and!; [done|done|apply Hadm|done].
    + destruct (I1 h q Hq) as (tx' & ? & ? & ? & _), (import_old _ _ Hq). exists tx'. by rewrite lookup_insert_ne.
  - cbn. etrans; [exact I2|]. apply insert_subseteq, Hadm.
  - intros q q' tx1 tx2 tag. rewrite !import_member.
    intros [[-> ->]|H1] [[-> ->]|H2] Ht1 Ht2; [done| | |by eapply I3].
    + destruct (admissible_tags _ _ Hadm tx2 tag); [by exists q'|done|done].
    + destruct (admissible_tags _ _ Hadm tx1 tag); [by exists q|done|done].
  - intros n Hn. destruct (I9 n Hn) as (tx' & Hw & Hk). exists tx'. split; [|done].
    apply import_waiting_old; [by apply import_nodes|done].
  - intros q tx' tag Hq Hne Htag. apply (I10 q tx' tag); [|by intros []|done]. by apply import_waiting_old.
  - intros n Hn. left. destruct (I11 n Hn) as [(tx' & Hr & Hk)|[]]. exists tx'. by rewrite import_is_ready.
  - intros q tx' Hq Hne. apply (I12 q tx'); [|by intros []]. by apply import_waiting_old.
  - intros n Hn. destruct (I13 n Hn) as (tx' & Htx' & Hk). exists tx'. split; [|done]. cbn.
    rewrite lookup_insert_ne; [done|congruence].
Qed.

Lemma import_imported tx' : imported (with_import p tx s) tx' <-> tx' = tx \/ imported s tx'.
Proof using HI Hp Hadm. unfold imported. setoid_rewrite import_member. naive_solver. Qed.

Lemma import_sound : sound s -> sound (with_import p tx s).
Proof using HI Hp Hadm.
  intros Hs q tx' Hq%import_is_ready. destruct (Hs q tx' Hq) as [Hi Ha].
  split; [by apply import_imported; right|]. intros tag Htag. specialize (Ha tag Htag). clear Htag.
  induction Ha as [tx1 tag H1 _ IH H2]. apply (available_intro _ tx1); [by apply import_imported; right|done|done].
Qed.

End import.

Lemma complete_grows s s' : complete s -> grows none s s' -> complete s'.
Proof.
  intros Hc G p tx tag Hr Htag. destruct (grows_new _ _ _ G p tx Hr) as [H|H]; [by intros []| |by apply H].
  apply (Hc _ _ tag) in H as (n & -> & Hn)%list_elem_of_fmap; [|done].
  apply list_elem_of_fmap_2, (grows_provides _ _ _ G), Hn.
Qed.

Lemma complete_import s p tx : inv (imported_txs_ s) none none none s -> heap s !! p = None -> admissible tx s ->
  complete s -> complete (with_import p tx s).
Proof. intros HI Hp Hadm Hc q tx' tag Hr. by apply Hc, (import_is_ready s p tx HI Hp Hadm). Qed.

Lemma rewaits_grows s s' : rewaits s s' -> grows none s s'.
Proof.
  intros [F R P D]. split; [done|by rewrite R|by rewrite P| |intros n; rewrite P; by left|].
  - intros p tx [H1 H2] _. left. rewrite (frame_heap _ _ F) in H1. rewrite R in H2. by split.
  - intros Hs p tx [H1 H2]. rewrite (frame_heap _ _ F) in H1. rewrite R in H2. destruct (Hs p tx) as [Hi Ha]; [done|].
    split; [by apply (frame_imported_txs _ _ _ F)|]. intros tag Htag. apply (available_frame _ _ _ F), Ha, Htag.
Qed.

(** A new transaction becomes ready, or waits for the tags that are missing. *)
Lemma processTransaction_new fuel p tx s :
  inv (imported_txs_ s) none (eq p) (eq p) s -> waiting (imported_txs_ s) s p tx ->
  (forall n, n ∈ tx_waits_tag_ s -> Multimap.mapped n <> p) ->
  (size (imported_txs_ s) < fuel)%nat -> room s -> Z.of_nat (size (imported_txs_ s)) <= capacity (limits_ s) ->
  runs (processTransaction fuel (Some p)) s (fun r s' =>
    r = Ok tt /\ inv (imported_txs_ s) none none none s' /\ grows none s s').
Proof.
  intros HI Hw Hno Hfuel Hroom Hcap.
  assert (ensureSpace s = Ok tt) as Hspace by (unfold ensureSpace; by rewrite (proj2 (Z.ltb_ge _ _) Hcap)).
  unfold processTransaction. run_step. run_step. rewrite Hspace. run_step. apply runs_nonnull.
  run_step. apply (runs_checkForReady _ tx); [apply Hw|apply (inv_provides_ok _ _ _ _ _ HI)|].
  intros [|] Hb.
  - unfold processTransactionAsReady. run_step. run_step. rewrite (waiting_hasSpace _ _ _ _ _ _ _ HI Hw eq_refl Hroom).
    run_step. eapply runs_mono; [apply (setReady_readies fuel (eq p) (eq p) p tx); try done|].
    + by apply Hb.
    + lia.
    + intros ? s' (HI' & G & _). by run_step.
  - unfold processTransactionAsWaiting. run_step. run_step. rewrite Hspace. run_step.
    unfold addTransactionAsWaiting. run_step. apply (runs_read _ tx); [apply Hw|].
    destruct (inv_domain _ _ _ _ _ HI (hash tx) p) as (tx' & Htx' & _ & Hgood & _); [apply Hw|].
    assert (tx' = tx) as -> by (destruct Hw as [[? _] _]; congruence).
    eapply runs_mono; [apply (emplace_waits_spec (imported_txs_ s) none none (eq p) p tx); try done|].
    + pose proof (inv_missing _ _ _ _ _ HI) as Hmiss. destruct HI. split; try done. intros q tx' Hq _.
      destruct (decide (p = q)) as [<-|Hne]; [|by apply (Hmiss q tx')].
      destruct Hq as [[Hq _] _]. assert (tx' = tx) as -> by congruence. apply not_all_provided. by intros ?%Hb.
    + intros ? s' [HI' R]. run_step. split_and!; [done|done|by apply rewaits_grows].
Qed.

Lemma submitOne_spec fuel tx s :
  pool_inv s -> admissible tx s -> (S (size (imported_txs_ s)) < fuel)%nat ->
  runs (submitOne fuel tx) s (fun r s' =>
    r = Ok tt /\ pool_inv s' /\ limits_ s' = limits_ s /\ (sound s -> sound s') /\
    size (imported_txs_ s') = S (size (imported_txs_ s)) /\
    dom (imported_txs_ s') = {[hash tx]} ∪ dom (imported_txs_ s) /\
    forall tx', imported s' tx' <-> tx' = tx \/ imported s tx').
Proof.
  intros [HI Hc Hpp Hh] Hadm Hfuel. unfold submitOne, make_shared.
  set (p := fresh (dom (heap s))).
  assert (heap s !! p = None) as Hp by (apply not_elem_of_dom, is_fresh).
  do 8 run_step. cbn [set_heap imported_txs_]. rewrite (admissible_hash _ _ Hadm). do 2 run_step. fold p.
  cbn beta. change (set_imported (<[hash tx := p]> (imported_txs_ s)) (set_heap (<[p := tx]> (heap s)) s))
    with (with_import p tx s). run_step.
  assert (size (imported_txs_ (with_import p tx s)) = S (size (imported_txs_ s))) as Hsize
    by (cbn; by rewrite map_size_insert_None by apply Hadm).
  pose proof (admissible_ready _ _ Hadm). pose proof (admissible_capacity _ _ Hadm).
  eapply runs_mono; [apply (processTransaction_new fuel p tx)|].
  - by apply import_inv.
  - by apply import_waiting.
  - exact (import_nodes s p tx HI Hp Hadm).
  - lia.
  - unfold room. rewrite Hsize. cbn. lia.
  - rewrite Hsize. cbn. lia.
  - intros r s' (-> & HI' & G). pose proof (grows_frame _ _ _ G) as F. run_step.
    apply runs_when; [done|intros _]. run_step.
    pose proof (frame_imported _ _ F) as Fi.
    split_and!; [done| |by rewrite (frame_limits _ _ F)| |congruence| |].
    + split; [by rewrite Fi| |by rewrite (frame_postponed _ _ F)|by rewrite (frame_held _ _ F)].
      eapply complete_grows; [by apply complete_import|done].
    + intros Hs. apply (grows_sound _ _ _ G). by apply import_sound.
    + rewrite Fi. cbn. by rewrite dom_insert_L.
    + intros tx'. rewrite (frame_imported_txs _ _ _ F). by apply import_imported.
Qed.

Lemma create_heap limits p tx : ~ heap (create limits) !! p = Some tx.
Proof. cbn. by rewrite lookup_empty. Qed.

Lemma create_inv limits : pool_inv (create limits).
Proof.
  split; [|intros p tx tag [H _]; by apply create_heap in H|done|done].
  split; cbn; try apply MultimapFacts.ok_nil; try apply NoDup_nil_2; try done.
  - intros p q tx tx' tag [H _]. by apply create_heap in H.
  - by intros n ?%not_elem_of_nil.
  - intros p tx tag [[H _] _]. by apply create_heap in H.
  - by intros n ?%not_elem_of_nil.
  - intros p tx [[H _] _]. by apply create_heap in H.
  - by intros n ?%not_elem_of_nil.
Qed.

Lemma create_sound limits : sound (create limits).
Proof. intros p tx [H _]. by apply create_heap in H. Qed.

(** What a batch of transactions has to satisfy for a pool [s]: new hashes, no
    tag required twice, room for all. *)
Record batch_ok (txs : list Transaction) s : Prop := mkBatch {
  batch_hashes : NoDup (hash <$> txs);
  batch_new : forall tx, tx ∈ txs -> imported_txs_ s !! hash tx = None;
  batch_requires : NoDup (txs ≫= requires);
  batch_tags : forall tx tx' tag, tx ∈ txs -> imported s tx' -> tag ∈ requires tx -> tag ∉ requires tx';
  batch_provides : forall tx, tx ∈ txs -> NoDup (provides tx);
  batch_ready : Z.of_nat (size (imported_txs_ s) + length txs) <= max_ready_num (limits_ s);
  batch_capacity : Z.of_nat (size (imported_txs_ s) + length txs) <= capacity (limits_ s)
}.

Lemma batch_first tx txs s : batch_ok (tx :: txs) s -> admissible tx s.
Proof.
  intros [H1 H2 H3 H4 H5 H6 H7]. cbn in *. apply NoDup_app in H3 as (Hr & _).
  split; [apply H2; left|split; [done|apply H5; left]| |lia|lia].
  intros tx' tag Hi Htag. apply (H4 tx tx' tag); [left|done|done].
Qed.

Lemma batch_rest tx txs s s' :
  batch_ok (tx :: txs) s -> limits_ s' = limits_ s ->
  size (imported_txs_ s') = S (size (imported_txs_ s)) ->
  dom (imported_txs_ s') = {[hash tx]} ∪ dom (imported_txs_ s) ->
  (forall tx', imported s' tx' <-> tx' = tx \/ imported s tx') -> batch_ok txs s'.
Proof.
  intros [H1 H2 H3 H4 H5 H6 H7] Hl Hsz Hdom Him. cbn in *.
  apply NoDup_cons in H1 as [Hh H1]. apply NoDup_app in H3 as (_ & Hdis & H3).
  split; [done| |done| |intros; apply H5; by right|rewrite Hl; lia|rewrite Hl; lia].
  - intros tx' Hin. apply not_elem_of_dom. rewrite Hdom. intros [Heq%elem_of_singleton|Hd]%elem_of_union.
    + apply Hh. rewrite <- Heq. by apply list_elem_of_fmap_2.
    + apply elem_of_dom in Hd as [? Hd]. rewrite H2 in Hd; [done|by right].
  - intros tx1 tx' tag Hin Hi Htag. apply Him in Hi as [->|Hi].
    + intros Ht. apply (Hdis tag Ht), list_elem_of_bind. by exists tx1.
    + apply (H4 tx1 tx' tag); [by right|done|done].
Qed.

Lemma submit_spec fuel txs s :
  pool_inv s -> batch_ok txs s -> (size (imported_txs_ s) + length txs < fuel)%nat ->
  runs (submit fuel txs) s (fun r s' =>
    r = Ok tt /\ pool_inv s' /\ (sound s -> sound s') /\
    forall tx, imported s' tx <-> tx ∈ txs \/ imported s tx).
Proof.
  revert s. induction txs as [|tx txs IH]; intros s HI HB Hfuel; cbn [submit].
  { run_step. split_and!; [done|done|done|]. intros tx. split; [by right|]. by intros [?%not_elem_of_nil|?]. }
  cbn in Hfuel. run_step. eapply runs_mono; [apply submitOne_spec; [done|by eapply batch_first|lia]|].
  intros r s1 (-> & HI1 & Hl & Hs1 & Hsz & Hdom & Him).
  eapply runs_mono; [apply IH; [done|by eapply batch_rest|lia]|].
  intros r s2 (-> & HI2 & Hs2 & Him2). split_and!; [done|done|by auto|].
  intros tx'. rewrite Him2, Him, elem_of_cons. tauto.
Qed.

Lemma available_ext (T T' : Transaction -> Prop) tag :
  (forall tx, T tx -> T' tx) -> available T tag -> available T' tag.
Proof. intros H. induction 1 as [tx tag HT _ IH Hp]. apply (available_intro _ tx); auto. Qed.

(** What is available is provided by ready transactions. *)
Lemma available_provided s tag : pool_inv s -> available (imported s) tag -> provided tag s.
Proof.
  intros [HI Hc _ _]. induction 1 as [tx tag [p Hp] _ IH Htag].
  destruct (ready_txs_ s !! hash tx) as [q|] eqn:Hr.
  - assert (q = p) as ->.
    { pose proof (lookup_weaken _ _ _ _ Hr (inv_ready _ _ _ _ _ HI)). destruct Hp. congruence. }
    destruct (proj1 (list_elem_of_fmap _ _ _) (Hc p tx tag (conj (proj1 Hp) Hr) Htag)) as (n & [= -> _] & Hn).
    by exists n.
  - destruct (inv_missing _ _ _ _ _ HI p tx (conj Hp Hr)) as (r & Hin & Hno); [by intros []|].
    by destruct (Hno (IH r Hin)).
Qed.

(** A transaction of the pool is ready when all its tags are available. *)
Lemma ready_available s p tx : pool_inv s -> sound s -> member (imported_txs_ s) s p tx ->
  getReadyTransactions s !! hash tx = Some p <-> forall tag, tag ∈ requires tx -> available (imported s) tag.
Proof.
  intros HP Hs Hm. pose proof HP as [HI Hc _ _]. unfold getReadyTransactions.
  rewrite lookup_omap_Some. split.
  - intros (q & Hq & Hr). unfold lock in Hq. case_decide; [|done]. injection Hq as ->.
    apply (Hs p tx). split; [apply Hm|done].
  - intros Ha. exists p. split; [by apply lock_alive, (imported_alive _ (hash tx)), Hm|].
    destruct (ready_txs_ s !! hash tx) as [q|] eqn:Hr.
    + pose proof (lookup_weaken _ _ _ _ Hr (inv_ready _ _ _ _ _ HI)). destruct Hm. congruence.
    + destruct (inv_missing _ _ _ _ _ HI p tx (conj Hm Hr)) as (r & Hin & Hno); [by intros []|].
      by destruct Hno; apply available_provided, Ha.
Qed.

End submission.

(** ** The ready transactions *)

(** C30. A pool with room for a batch of transactions with different hashes,
    in which no tag is required twice, accepts the whole batch, in whatever
    order its transactions come: no iterator is used after its node is gone, no
    null pointer is read, and the recursion ends.  Afterwards the ready
    transactions are exactly those whose required tags are available, that is,
    provided by transactions that can themselves be put in an order in which
    each finds its tags provided. *)
Theorem ready_iff_available (limits : Limits) (fuel : nat) (txs : list Transaction) :
  batch_ok txs (create limits) -> (length txs < fuel)%nat ->
  runs (submit fuel txs) (create limits) (fun r s =>
    r = Ok tt /\ forall tx, tx ∈ txs ->
      is_Some (getReadyTransactions s !! hash tx) <-> forall tag, tag ∈ requires tx -> available (fun x => x ∈ txs) tag).
Proof.
  intros HB Hfuel. eapply runs_mono; [apply submit_spec; [apply create_inv|done|done]|].
  intros r s (-> & HP & Hs & Him). specialize (Hs (create_sound _)). split; [done|]. intros tx Htx.
  assert (forall x, imported s x <-> x ∈ txs) as Hx.
  { intros x. rewrite Him. split; [|by left]. intros [?|(p & Hp & _)]; [done|]. by apply create_heap in Hp. }
  destruct (proj2 (Hx tx) Htx) as [p Hp].
  transitivity (getReadyTransactions s !! hash tx = Some p).
  - split; [|by intros ->]. intros [q Hq]. rewrite Hq. apply lookup_omap_Some in Hq as (q' & Hl & Hr).
    unfold lock in Hl. case_decide; [|done]. injection Hl as ->.
    pose proof (lookup_weaken _ _ _ _ Hr (inv_ready _ _ _ _ _ (pool_inv_inv _ HP))). destruct Hp. congruence.
  - rewrite (ready_available _ _ _ HP Hs Hp). split; intros Ha tag Htag;
      (eapply available_ext; [|by apply Ha]); intros x; apply Hx.
Qed.

(** A chain submitted from its end: the last transaction waits for the second,
    the second for the first. *)
Definition chain : list Transaction :=
  [mkTransaction [] 0 (str "3") 0 10 [str "b"] [] true;
   mkTransaction [] 0 (str "2") 0 10 [str "a"] [str "b"] true;
   mkTransaction [] 0 (str "1") 0 10 [] [str "a"] true].

Lemma chain_batch : batch_ok chain (create default_limits).
Proof.
  split.
  - apply (bool_decide_unpack _). vm_compute. exact I.
  - intros tx _. cbn. apply lookup_empty.
  - apply (bool_decide_unpack _). vm_compute. exact I.
  - intros tx tx' tag _ (p & Hp & _). by apply create_heap in Hp.
  - apply Forall_forall, (bool_decide_unpack _). vm_compute. exact I.
  - vm_compute. discriminate.
  - vm_compute. discriminate.
Qed.

Lemma ready_iff_available_witness :
  batch_ok chain (create default_limits) /\
  runs (submit 4 chain) (create default_limits) (fun r s =>
    r = Ok tt /\ forall tx, tx ∈ chain ->
      is_Some (getReadyTransactions s !! hash tx) <-> forall tag, tag ∈ requires tx -> available (fun x => x ∈ chain) tag).
Proof.
  split; [exact chain_batch|]. apply (ready_iff_available default_limits 4 chain chain_batch). cbn. lia.
Defined.
