(* ===== verification/TransactionPoolRemoval.v ===== *)
(** * Removal from the transaction pool

    [removeOne] under the invariant of [TransactionPoolInv]: transactions that
    depended on a tag that is gone wait again, and the pool keeps its invariant;
    the removal of stale transactions against the interface of the moderator;
    bounds; inputs on which the pool fails. *)

From S2P Require Import Prelude TransactionPool TransactionPoolInv TransactionPoolProps.
Import TransactionPoolImpl.

Open Scope Z_scope.

Section removal.
Implicit Types (s : t) (p : nat) (tag : bytes) (D : gmap bytes nat).

(** A state with fewer ready transactions, in which the nodes that depend on a
    tag that was missing before are the same, the tags of [B] excepted. *)
Record shrinks (B : bytes -> Prop) s s' : Prop := mkShrinks {
  shrinks_frame : frame s s';
  shrinks_ready : ready_txs_ s' ⊆ ready_txs_ s;
  shrinks_provides : forall n, n ∈ tx_provides_tag_ s' -> n ∈ tx_provides_tag_ s;
  shrinks_depends : forall tag, ~ provided tag s -> ~ B tag ->
    Multimap.range tag (tx_depends_on_tag_ s') = Multimap.range tag (tx_depends_on_tag_ s)
}.

Lemma shrinks_refl B s : shrinks B s s.
Proof. split; auto using pool_frame_refl. Qed.

Lemma shrinks_provided B s s' tag : shrinks B s s' -> provided tag s' -> provided tag s.
Proof. intros S (n & Hn & Hk). exists n. split; [by apply (shrinks_provides _ _ _ S)|done]. Qed.

Lemma shrinks_trans B s1 s2 s3 : shrinks B s1 s2 -> shrinks B s2 s3 -> shrinks B s1 s3.
Proof.
  intros S1 S2. pose proof S1 as [F1 R1 P1 D1]. pose proof S2 as [F2 R2 P2 D2].
  split; [by eapply pool_frame_trans|by etrans|by auto|].
  intros tag Hno HB. rewrite D2; [by apply D1| |done]. intros H. by apply Hno, (shrinks_provided _ _ _ _ S1).
Qed.

(** What is alive is known. *)
Definition covers D s : Prop := forall q, alive q s -> exists h, D !! h = Some q.

Lemma covers_frame D s s' : frame s s' -> covers D s -> covers D s'.
Proof. intros F Hc q Hq. by apply Hc, (alive_frame _ _ _ F). Qed.

(** The state of a removal in progress. *)
Record leaving D (E : bytes * nat -> Prop) (X : nat -> Prop) s : Prop := mkLeaving {
  leaving_inv : inv D E X none s;
  leaving_complete : complete s;
  leaving_covers : covers D s
}.

(** What [unsetReady] does to a known transaction. *)
Definition unreadies (fuel : nat) : Prop := forall D E X p tx s,
  leaving D E X s -> member D s p tx ->
  (X p \/ exists tag, tag ∈ requires tx /\ ~ provided tag s) ->
  (size (ready_txs_ s) < fuel)%nat ->
  runs (unsetReady fuel p) s (fun _ s' =>
    leaving D E X s' /\ shrinks none s s' /\ ready_txs_ s' !! hash tx = None).

Lemma inv_provides_weaken D (E E' : bytes * nat -> Prop) X N s :
  inv D E X N s -> (forall n, n ∈ tx_provides_tag_ s -> E (tagged n) -> E' (tagged n)) -> inv D E' X N s.
Proof.
  intros [] HE. split; try done. intros n Hn. destruct (inv_provides n Hn) as [?|?]; [by left|right; auto].
Qed.

Lemma range_elem tag m n : n ∈ Multimap.range tag m <-> n ∈ m /\ keyed n = tag.
Proof. unfold Multimap.range. rewrite list_elem_of_filter. tauto. Qed.

(** Without the node [n] of a dependent transaction. *)
Definition without_dependent n s : t :=
  set_depends (filter (fun x => x <> n) (tx_depends_on_tag_ s)) s.

Lemma without_dependent_range tag n s :
  keyed n <> tag -> Multimap.range tag (tx_depends_on_tag_ (without_dependent n s)) = Multimap.range tag (tx_depends_on_tag_ s).
Proof.
  intros Hne. cbn. unfold Multimap.range. rewrite list_filter_filter. apply filter_iff_mem. intros x _.
  split; [tauto|]. intros Hx. split; [done|]. intros ->. done.
Qed.

Lemma without_dependent_leaving D E X n s : leaving D E X s -> leaving D E X (without_dependent n s).
Proof.
  intros [HI Hc Hcov]. split; [|done|done]. destruct HI. split; try done; cbn.
  - by apply MultimapFacts.ok_filter.
  - intros x [_ Hx]%list_elem_of_filter. by apply inv_depends.
Qed.

Lemma without_dependent_length tag n rest s :
  Multimap.range tag (tx_depends_on_tag_ s) = n :: rest ->
  (length (Multimap.range tag (tx_depends_on_tag_ (without_dependent n s))) <= length rest)%nat.
Proof.
  intros Hr. assert (Multimap.range tag (tx_depends_on_tag_ (without_dependent n s)) = filter (fun x => x <> n) (n :: rest)) as ->.
  { rewrite <- Hr. unfold Multimap.range. cbn. rewrite !list_filter_filter. apply list_filter_iff. tauto. }
  rewrite filter_cons_False by naive_solver. apply length_filter.
Qed.

Lemma without_dependent_shrinks n s : shrinks (eq (keyed n)) s (without_dependent n s).
Proof. split; [by split|done|done|]. intros tag _ Hne. by apply without_dependent_range. Qed.

Lemma shrinks_weaken (B B' : bytes -> Prop) s s' : shrinks B s s' -> (forall tag, B tag -> B' tag) -> shrinks B' s s'.
Proof. intros [] HB. split; auto. Qed.

Lemma shrinks_size B s s' : shrinks B s s' -> (size (ready_txs_ s') <= size (ready_txs_ s))%nat.
Proof. intros S. apply map_subseteq_size, (shrinks_ready _ _ _ S). Qed.

Section unprovide.
Variable fuel : nat.
Hypothesis IH : unreadies fuel.

(** The dependents of a tag that nothing provides any more wait again. *)
Lemma unprovide_loop_spec k D E X tag s :
  leaving D E X s -> ~ provided tag s -> (size (ready_txs_ s) < fuel)%nat ->
  (length (Multimap.range tag (tx_depends_on_tag_ s)) < k)%nat ->
  runs (unprovide_loop (unsetReady fuel) k tag) s (fun _ s' => leaving D E X s' /\ shrinks (eq tag) s s').
Proof using IH.
  revert s. induction k as [|k IHk]; intros s HL Hno Hfuel Hk; [lia|]. cbn [unprovide_loop]. run_step. run_step.
  unfold Multimap.find, Multimap.begin.
  destruct (Multimap.range tag (tx_depends_on_tag_ s)) as [|n rest] eqn:Hr; cbn [head fmap option_fmap option_map].
  { rewrite decide_True by done. run_step. split; [done|apply shrinks_refl]. }
  rewrite decide_False by done. pose proof (leaving_inv _ _ _ _ HL) as HI.
  assert (n ∈ tx_depends_on_tag_ s /\ keyed n = tag) as [Hn Htag] by (apply range_elem; rewrite Hr; left).
  run_step. run_step. run_step. eapply runs_lift; [by eapply MultimapFacts.deref_mem, Hn; apply inv_depends_ok in HI|].
  run_step. run_step. run_step.
  assert (runs (match lock (Multimap.mapped n) s with Some p => unsetReady fuel p | None => mret tt end) s
    (fun _ s' => leaving D E X s' /\ shrinks none s s')) as Hstep.
  { unfold lock. destruct (decide (alive (Multimap.mapped n) s)) as [Hal|]; [|run_step; split; [done|apply shrinks_refl]].
    destruct (leaving_covers _ _ _ _ HL _ Hal) as [h HD], (inv_domain _ _ _ _ _ HI _ _ HD) as (tx & Hp & <- & _).
    destruct (inv_depends _ _ _ _ _ HI n Hn) as (tx' & Hp' & Hreq). assert (tx' = tx) as -> by congruence.
    eapply runs_mono; [apply (IH D E X _ tx)|by intros ? ? (? & ? & _)]; [done|done| |done].
    right. exists (keyed n). by rewrite Htag in *. }
  eapply runs_mono; [exact Hstep|]. intros ? s1 [HL1 S1]. run_step.
  assert (Multimap.range tag (tx_depends_on_tag_ s1) = n :: rest) as Hr1
    by (rewrite (shrinks_depends _ _ _ S1); [done|done|by intros []]).
  assert (n ∈ tx_depends_on_tag_ s1) as Hn1 by (apply (range_elem tag); rewrite Hr1; left).
  run_step. run_step. run_step.
  eapply runs_lift; [eapply MultimapFacts.erase_mem, Hn1; apply (inv_depends_ok _ _ _ _ _ (leaving_inv _ _ _ _ HL1))|].
  run_step. change (set_depends (filter (fun x => x <> n) (tx_depends_on_tag_ s1)) s1) with (without_dependent n s1).
  pose proof (shrinks_size _ _ _ S1). pose proof (without_dependent_length _ _ _ _ Hr1).
  eapply runs_mono; [apply IHk|].
  - by apply without_dependent_leaving.
  - intros Hp. by apply Hno, (shrinks_provided _ _ _ _ S1).
  - cbn. lia.
  - cbn in Hk. lia.
  - intros ? s2 [HL2 S2]. split; [done|]. eapply shrinks_trans; [|exact S2].
    eapply shrinks_trans; [eapply shrinks_weaken; [exact S1|by intros ? []]|]. rewrite <- Htag. apply without_dependent_shrinks.
Qed.

Lemma unprovideTag_spec D E X tag s :
  leaving D E X s -> (size (ready_txs_ s) < fuel)%nat ->
  runs (unprovideTag (unsetReady fuel) tag) s (fun _ s' => leaving D E X s' /\ shrinks (eq tag) s s').
Proof using IH.
  intros HL Hfuel. unfold unprovideTag. run_step. run_step. apply runs_when.
  - rewrite bool_decide_eq_true. intros Hnone. run_step. run_step. apply unprovide_loop_spec; [done| |done|].
    + intros (n & Hn & Hk). assert (n ∈ Multimap.range tag (tx_provides_tag_ s)) as Hin by by apply range_elem.
      unfold Multimap.find, Multimap.begin in Hnone. by destruct (Multimap.range tag (tx_provides_tag_ s)); [set_solver|].
    + apply Nat.lt_succ_r, length_filter.
  - intros _. split; [done|apply shrinks_refl].
Qed.

(** Without the node [n] of a transaction that is leaving. *)
Lemma without_provider_leaving D (E : bytes * nat -> Prop) X n s :
  leaving D (fun e => E e \/ e = tagged n) X s -> n ∈ tx_provides_tag_ s ->
  (forall tx, ~ is_ready s (Multimap.mapped n) tx) ->
  leaving D E X (set_provides (filter (fun x => x <> n) (tx_provides_tag_ s)) s).
Proof.
  intros [HI Hc Hcov] Hn Hp. split; [| |done].
  - destruct HI. split; try done; cbn.
    + by apply MultimapFacts.ok_filter.
    + apply (sublist_NoDup _ _ inv_provides_pairs), fmap_sublist, sublist_filter.
    + intros x [Hx Hin]%list_elem_of_filter. destruct (inv_provides x Hin) as [?|[?|Heq]]; [by left|by right|].
      destruct Hx. by apply (NoDup_fmap_eq tagged (tx_provides_tag_ s)).
    + intros p tx Hw HX. destruct (inv_missing p tx Hw HX) as (tag & ? & Hno). exists tag. split; [done|].
      intros (x & [_ Hx]%list_elem_of_filter & Hk). apply Hno. by exists x.
  - intros p tx tag Hr Htag. destruct (proj1 (list_elem_of_fmap _ _ _) (Hc p tx tag Hr Htag)) as (x & Heq & Hx).
    rewrite Heq. apply list_elem_of_fmap_2. cbn. apply list_elem_of_filter. split; [|done]. intros ->.
    apply (Hp tx). injection Heq as _ <-. done.
Qed.

(** [rollbackProvidedTags] for a transaction that is not ready any more. *)
Lemma rollback_tag_spec D (E : bytes * nat -> Prop) X p tx tag rest s :
  leaving D (fun e => E e \/ (e.2 = p /\ e.1 ∈ tag :: rest)) X s -> member D s p tx ->
  ready_txs_ s !! hash tx = None -> (size (ready_txs_ s) < fuel)%nat ->
  runs (n ← gets (fun s => first_of p (Multimap.range tag (tx_provides_tag_ s)) s);
        match n with Some n => provides_erase (Some (Multimap.node_id n)) | None => mret tt end;;
        unprovideTag (unsetReady fuel) tag) s
    (fun _ s' => leaving D (fun e => E e \/ (e.2 = p /\ e.1 ∈ rest)) X s' /\ shrinks (eq tag) s s').
Proof using IH.
  intros HL [Hp HD] Hr Hfuel. pose proof (leaving_inv _ _ _ _ HL) as HI.
  destruct (inv_domain _ _ _ _ _ HI _ _ HD) as (_ & _ & _ & _ & Hal).
  run_step. run_step. unfold first_of.
  destruct (list_find _ _) as [[i n]|] eqn:Hf; cbn [option_bind mbind snd].
  - apply list_find_Some in Hf as (Hn & Hm & _). apply (lock_eq _ _ _ Hal) in Hm.
    apply list_elem_of_lookup_2, range_elem in Hn as [Hn Hk].
    run_step. unfold provides_erase. do 3 run_step.
    eapply runs_lift; [eapply MultimapFacts.erase_mem, Hn; apply (inv_provides_ok _ _ _ _ _ HI)|]. run_step.
    eapply runs_mono; [apply (unprovideTag_spec D (fun e => E e \/ (e.2 = p /\ e.1 ∈ rest)) X); [|exact Hfuel]|].
    + apply without_provider_leaving; [|done|].
      * destruct HL as [_ Hc Hcov]. split; [|done|done]. eapply inv_provides_weaken; [exact HI|]. intros x _.
        unfold tagged. cbn. intros [?|[Hx [->|?]%elem_of_cons]]; [by left; left|right; congruence|by left; right].
      * intros tx' [Hq Hrq]. rewrite Hm in Hq. congruence.
    + intros ? s' [HL' S]. split; [done|]. eapply shrinks_trans; [|exact S].
      split; [by split|done| |done]. by intros x [_ Hx]%list_elem_of_filter.
  - run_step. run_step. apply unprovideTag_spec; [|exact Hfuel].
    destruct HL as [_ Hc Hcov]. split; [|done|done]. eapply inv_provides_weaken; [exact HI|]. intros x Hx.
    unfold tagged. cbn. intros [?|[Hm [Hk|?]%elem_of_cons]]; [by left| |by right].
    apply list_find_None in Hf. eapply Forall_forall in Hf; [|apply range_elem; split; [exact Hx|exact Hk]].
    by destruct Hf; apply (lock_eq _ _ _ Hal).
Qed.

Lemma rollbackProvidedTags_spec D (E : bytes * nat -> Prop) X p tx s :
  leaving D (fun e => E e \/ (e.2 = p /\ e.1 ∈ provides tx)) X s -> member D s p tx ->
  ready_txs_ s !! hash tx = None -> (size (ready_txs_ s) < fuel)%nat ->
  runs (rollbackProvidedTags (unsetReady fuel) p) s (fun _ s' =>
    leaving D E X s' /\ shrinks (fun tag => tag ∈ provides tx) s s' /\ ready_txs_ s' !! hash tx = None).
Proof using IH.
  intros HL Hm Hr Hfuel. unfold rollbackProvidedTags. run_step. apply (runs_read _ tx); [apply Hm|].
  set (I := fun (rest : list bytes) s1 =>
    leaving D (fun e => E e \/ (e.2 = p /\ e.1 ∈ rest)) X s1 /\ (forall tag, tag ∈ rest -> tag ∈ provides tx) /\
    shrinks (fun tag => tag ∈ provides tx) s s1).
  assert (forall rest s1, I rest s1 -> ready_txs_ s1 !! hash tx = None) as Hnone.
  { intros rest s1 (_ & _ & S). exact (lookup_weaken_None _ _ _ Hr (shrinks_ready _ _ _ S)). }
  eapply runs_mono; [apply (runs_for_each _ I)|].
  - intros tag rest s1 HI1. pose proof (Hnone _ _ HI1) as Hr1. destruct HI1 as (HL1 & Hin & S1).
    pose proof (shrinks_size _ _ _ S1).
    eapply runs_mono; [apply (rollback_tag_spec D E X p tx tag rest s1); [done| |done|lia]|].
    + by apply (member_heap _ _ _ _ _ (frame_heap _ _ (shrinks_frame _ _ _ S1))).
    + intros ? s2 [HL2 S2]. split_and!; [done|set_solver|].
      eapply shrinks_trans; [exact S1|]. eapply shrinks_weaken; [exact S2|]. intros ? <-. apply Hin. left.
  - split_and!; [done|done|apply shrinks_refl].
  - intros ? s' HI'. pose proof (Hnone _ _ HI') as Hr'. destruct HI' as ([HI' Hc' Hcov'] & _ & S').
    split_and!; [|done|done]. split; [|done|done]. eapply inv_provides_weaken; [exact HI'|]. set_solver.
Qed.

End unprovide.

(** The transaction has left the ready ones, its nodes are still there. *)
Lemma unset_leaving D (E : bytes * nat -> Prop) X p tx s :
  leaving D E X s -> is_ready s p tx -> D !! hash tx = Some p ->
  (X p \/ exists tag, tag ∈ requires tx /\ ~ provided tag s) ->
  let s' := set_ready (delete (hash tx) (ready_txs_ s)) s in
  inv D (fun e => E e \/ (e.2 = p /\ e.1 ∈ provides tx)) X (eq p) s' /\ complete s' /\ waiting D s' p tx /\
  (forall n, n ∈ tx_waits_tag_ s' -> Multimap.mapped n <> p).
Proof.
  intros [HI Hc Hcov] [Hp Hr] HD Hmiss s'.
  assert (forall q tx', waiting D s' q tx' -> q = p /\ tx' = tx \/ waiting D s q tx') as Hwait.
  { intros q tx' [[Hq HDq] Hrq]. cbn in *. apply lookup_delete_None in Hrq as [Heq|Hrq]; [left|by right].
    rewrite <- Heq in HDq. assert (q = p) as -> by congruence. split; [done|congruence]. }
  pose proof HI as [I1 I2 I3 I4 I5 I6 I7 I8 I9 I10 I11 I12 I13]. split_and!.
  - split; try done.
    + cbn. etrans; [apply delete_subseteq|done].
    + intros n Hn. destruct (I9 n Hn) as (tx' & [Hm Hnr] & Hk). exists tx'. split; [|done]. split; [done|].
      cbn. by rewrite lookup_delete_None; right.
    + intros q tx' tag Hq Hne Htag. apply Hwait in Hq as [[-> _]|Hq]; [done|]. apply (I10 q tx' tag Hq); [by intros []|done].
    + intros n Hn. destruct (I11 n Hn) as [(tx' & [Hm Hrm] & Hk)|?]; [|right; by left].
      destruct (decide (hash tx = hash tx')) as [Heq|Hne]; [right; right|left].
      * rewrite <- Heq in Hrm. assert (Multimap.mapped n = p) as Hmp by congruence.
        rewrite Hmp in Hm. cbn. split; [done|congruence].
      * exists tx'. split; [|done]. split; [done|]. cbn. by rewrite lookup_delete_ne.
    + intros q tx' Hq HX. apply Hwait in Hq as [[-> ->]|Hq]; [by destruct Hmiss|]. by apply (I12 q tx').
  - intros q tx' tag [Hq Hrq] Htag. cbn in Hrq. apply lookup_delete_Some in Hrq as [_ Hrq]. by apply (Hc q tx').
  - split; [by split|]. cbn. by rewrite lookup_delete_eq.
  - intros n Hn Heq. destruct (I9 n Hn) as (tx' & [[Hm HDm] Hnr] & _). rewrite Heq in Hm. congruence.
Qed.

Lemma shrinks_provided_tags (B : bytes -> Prop) s s' :
  shrinks B s s' -> (forall tag, B tag -> provided tag s) -> shrinks none s s'.
Proof. intros [] HB. split; try done. intros tag Hno _. apply shrinks_depends0; auto. Qed.

Lemma unsetReady_unreadies fuel : unreadies fuel.
Proof.
  induction fuel as [|fuel IH]; intros D E X p tx s HL Hm Hmiss Hfuel; [lia|].
  cbn [unsetReady]. run_step. apply (runs_read _ tx); [apply Hm|]. run_step. run_step.
  destruct (ready_txs_ s !! hash tx) as [q|] eqn:Hr; [|run_step; split_and!; [done|apply shrinks_refl|done]].
  pose proof HL as [HI Hc Hcov]. assert (is_ready s p tx) as Hready.
  { split; [apply Hm|]. pose proof (lookup_weaken _ _ _ _ Hr (inv_ready _ _ _ _ _ HI)). destruct Hm. congruence. }
  destruct (unset_leaving D E X p tx s HL Hready (proj2 Hm) Hmiss) as (HI1 & Hc1 & Hw1 & Hn1).
  destruct (inv_domain _ _ _ _ _ HI _ _ (proj2 Hm)) as (tx' & Htx' & _ & Hgood & _).
  assert (tx' = tx) as -> by (destruct Hm; congruence).
  run_step. run_step. run_step. unfold rollbackRequiredTags. run_step. apply (runs_read _ tx); [apply Hm|].
  eapply runs_mono; [by apply (emplace_waits_spec _ _ _ _ _ _ _ HI1 Hw1 Hgood (fun q H => eq_sym H) Hn1)|].
  intros ? s2 [HI2 [F2 R2 P2 D2]].
  assert (frame s s2) as F by (destruct F2; by split).
  eapply runs_mono; [apply (rollbackProvidedTags_spec fuel IH D E X p tx s2)|].
  - split; [done| |by apply (covers_frame _ _ _ F)]. intros q1 tx' tag [Hq Hrq] Htag. rewrite P2.
    apply (Hc1 q1 tx' tag); [|done]. split; [by rewrite <- (frame_heap _ _ F2)|by rewrite <- R2].
  - by apply (member_heap _ _ _ _ _ (frame_heap _ _ F)).
  - rewrite R2. cbn. by rewrite lookup_delete_eq.
  - rewrite R2. cbn. rewrite map_size_delete_Some by by rewrite Hr.
    assert (size (ready_txs_ s) <> 0%nat) by (intros H0%map_size_empty_inv; by rewrite H0, lookup_empty in Hr). lia.
  - intros ? s3 (HL3 & S3 & Hr3). split_and!; [done| |done].
    apply (shrinks_provided_tags (fun tag => tag ∈ provides tx)).
    + eapply shrinks_trans; [|exact S3]. split; [done| | |].
      * rewrite R2. cbn. apply delete_subseteq.
      * by rewrite P2.
      * by rewrite D2.
    + intros tag Htag. destruct (proj1 (list_elem_of_fmap _ _ _) (Hc p tx tag Hready Htag)) as (n & [= -> _] & Hn).
      by exists n.
Qed.

(** The removed transaction waits for nothing. *)
Lemma delTransactionAsWaiting_spec fuel D E X p tx s :
  leaving D E X s -> waiting D s p tx -> (0 < fuel)%nat ->
  runs (delTransactionAsWaiting fuel p) s (fun _ s' =>
    s' = set_waits (filter (fun n => Multimap.mapped n <> p) (tx_waits_tag_ s)) s).
Proof.
  intros [HI _ _] Hw Hfuel. destruct fuel as [|fuel]; [lia|]. pose proof Hw as [[Hp HD] _].
  destruct (inv_domain _ _ _ _ _ HI _ _ HD) as (tx' & Htx' & _ & [Hnd _] & Hal). assert (tx' = tx) as -> by congruence.
  unfold delTransactionAsWaiting. run_step. apply (runs_read _ tx); [done|].
  set (I := fun (rest : list bytes) s1 => NoDup rest /\ (forall tag, tag ∈ rest -> tag ∈ requires tx) /\
    s1 = set_waits (filter (fun n => Multimap.mapped n = p -> keyed n ∈ rest) (tx_waits_tag_ s)) s).
  eapply runs_mono; [apply (runs_for_each _ I)|].
  - intros tag rest s1 (Hnd1 & Hin & Hs1). apply NoDup_cons in Hnd1 as [Htag Hnd1].
    destruct (inv_waits_all _ _ _ _ _ HI p tx tag) as (n & Hn & [= <- Hm]); [done|by intros []|apply Hin; left|].
    assert (ok (next_node s1) (tx_waits_tag_ s1)) as Hok
      by (rewrite Hs1; apply MultimapFacts.ok_filter, (inv_waits_ok _ _ _ _ _ HI)).
    assert (NoDup (keyed <$> tx_waits_tag_ s1)) as Hkeys.
    { rewrite Hs1. apply (sublist_NoDup _ _ (inv_waits_keys _ _ _ _ _ HI)), fmap_sublist, sublist_filter. }
    assert (n ∈ tx_waits_tag_ s1) as Hn1 by (rewrite Hs1; apply list_elem_of_filter; split; [left|done]).
    destruct (MultimapFacts.equal_range_single _ _ n Hok Hkeys Hn1) as (pre & post & _ & Hrange).
    run_step. run_step. rewrite Hrange. cbn [fst snd del_loop]. rewrite decide_False.
    2:{ pose proof (proj2 (MultimapFacts.equal_range_present _ _ (keyed n) Hok)) as Hne. rewrite Hrange in Hne.
        apply Hne. by exists n. }
    run_step. run_step. run_step. eapply runs_lift; [by eapply MultimapFacts.deref_mem|].
    run_step. run_step. rewrite bool_decide_eq_true_2 by (rewrite Hs1, Hm; by apply lock_alive).
    apply runs_waits_erase; [done|done|]. unfold I. split_and!; [done|set_solver|]. rewrite Hs1. cbn.
    unfold set_waits. cbn. f_equal. rewrite list_filter_filter. apply filter_iff_mem. intros x Hx. split.
    + intros [Hxn Hk] Hxp. apply elem_of_cons in Hk as [Hk|?]; [|done|done]. destruct Hxn.
      by apply (NoDup_fmap_eq keyed (tx_waits_tag_ s)); [apply (inv_waits_keys _ _ _ _ _ HI)|..].
    + intros Hk. split; [|intros ?; right; by apply Hk]. intros ->. by apply Htag, Hk.
  - unfold I. split_and!; [done|done|]. rewrite filter_all; [by destruct s|]. intros n Hn Hm.
    destruct (inv_waits _ _ _ _ _ HI n Hn) as (tx1 & [[H1 _] _] & Hk). rewrite Hm in H1. congruence.
  - intros ? s' (_ & _ & ->). f_equal. apply list_filter_iff. intros n. rewrite elem_of_nil. done.
Qed.

(** The state behind a removal. *)
Lemma removed_inv D p tx s :
  leaving D none (eq p) s -> waiting D s p tx -> postponed_txs_ s = [] ->
  imported_txs_ s = delete (hash tx) D ->
  pool_inv (set_held [] (set_waits (filter (fun n => Multimap.mapped n <> p) (tx_waits_tag_ s)) s)).
Proof.
  intros [HI Hc _] Hw Hpp Him. pose proof Hw as [[Hp HD] Hnr].
  pose proof HI as [I1 I2 I3 I4 I5 I6 I7 I8 I9 I10 I11 I12 I13].
  assert (forall q tx', heap s !! q = Some tx' -> imported_txs_ s !! hash tx' = Some q -> D !! hash tx' = Some q /\ q <> p) as Hold.
  { intros q tx' Hq. rewrite Him, lookup_delete_Some. intros [Hne HDq]. split; [done|]. intros ->. congruence. }
  assert (forall q tx', waiting (imported_txs_ s) s q tx' -> waiting D s q tx' /\ q <> p) as Hwait.
  { intros q tx' [[Hq Hi] Hr]. destruct (Hold q tx' Hq Hi). by split. }
  split; [|done|done|done]. split; cbn; try done.
  - intros h q Hq. pose proof Hq as Hq0. rewrite Him in Hq. apply lookup_delete_Some in Hq as [_ Hq].
    destruct (I1 h q Hq) as (tx' & ? & ? & ? & _). exists tx'. split_and!; [done..|]. right. by exists h, q.
  - rewrite Him. apply map_subseteq_spec. intros h q Hq. apply lookup_delete_Some.
    split; [congruence|by apply (lookup_weaken _ _ _ _ Hq)].
  - intros q q' tx1 tx2 tag [H1 H1'] [H2 H2']. apply (I3 q q' tx1 tx2 tag); split; [done|by apply Hold|done|by apply Hold].
  - by apply MultimapFacts.ok_filter.
  - apply (sublist_NoDup _ _ I7), fmap_sublist, sublist_filter.
  - intros n [Hne Hn]%list_elem_of_filter. destruct (I9 n Hn) as (tx' & [[Hm HDm] Hr] & Hk). exists tx'.
    split; [|done]. split; [|done]. split; [done|]. cbn. rewrite Him, lookup_delete_ne; [done|]. intros Heq.
    rewrite Heq in HD. congruence.
  - intros q tx' tag Hq _ Htag. destruct (Hwait q tx' Hq) as [Hq' Hne].
    destruct (I10 q tx' tag Hq') as (n & Hn & Heq); [by intros []|done|]. exists n. split; [|done].
    apply list_elem_of_filter. split; [|done]. injection Heq as _ ->. done.
  - intros q tx' Hq _. destruct (Hwait q tx' Hq) as [Hq' Hne]. apply (I12 q tx' Hq'). congruence.
Qed.

(** The state in which [removeOne] begins its work. *)
Definition extracted p tx s : t := set_held [p] (set_imported (delete (hash tx) (imported_txs_ s)) s).

Lemma extracted_leaving p tx s :
  pool_inv s -> member (imported_txs_ s) s p tx -> leaving (imported_txs_ s) none (eq p) (extracted p tx s).
Proof.
  intros [HI Hc Hpp Hh] [Hp HD]. split; [|done|].
  - pose proof HI as [I1 I2 I3 I4 I5 I6 I7 I8 I9 I10 I11 I12 I13]. split; try done.
    + intros h q Hq. destruct (I1 h q Hq) as (tx' & Htx' & <- & ? & _). exists tx'. split_and!; [done..|].
      destruct (decide (hash tx = hash tx')) as [Heq|Hne].
      * left. cbn. rewrite <- Heq in Hq. assert (q = p) as -> by congruence. left.
      * right. exists (hash tx'), q. split; [|done]. cbn. by rewrite lookup_delete_ne.
    + intros q tx' Hq _. apply (I12 q tx' Hq). by intros [].
  - intros q [->%list_elem_of_singleton|(h & ? & Hq & ->)]; [by exists (hash tx)|]. cbn in Hq.
    apply lookup_delete_Some in Hq as [_ Hq]. by exists h.
Qed.

Lemma removeOne_spec fuel tx_hash s :
  pool_inv s -> (size (imported_txs_ s) < fuel)%nat ->
  runs (removeOne fuel tx_hash) s (fun r s' =>
    r = (if decide (is_Some (imported_txs_ s !! tx_hash)) then Ok tt else Err (transaction_pool_error TX_NOT_FOUND)) /\
    pool_inv s' /\ imported_txs_ s' = delete tx_hash (imported_txs_ s) /\ heap s' = heap s /\ limits_ s' = limits_ s).
Proof.
  intros HP Hfuel. pose proof HP as [HI Hc Hpp Hh]. unfold removeOne. run_step. run_step.
  destruct (imported_txs_ s !! tx_hash) as [p|] eqn:HD; [rewrite decide_True by done|rewrite decide_False by (by intros [])].
  2:{ run_step. split_and!; [done|done| |done|done]. by rewrite delete_id. }
  destruct (inv_domain _ _ _ _ _ HI _ _ HD) as (tx & Hp & <- & _).
  run_step. run_step. change (set_held [p] (set_imported (delete (hash tx) (imported_txs_ s)) s)) with (extracted p tx s).
  pose proof (extracted_leaving p tx s HP (conj Hp HD)) as HL.
  pose proof (map_subseteq_size _ _ (inv_ready _ _ _ _ _ HI)).
  run_step. eapply runs_mono; [apply (unsetReady_unreadies fuel _ _ _ p tx _ HL); [done|by left|cbn; lia]|].
  intros ? s1 (HL1 & S1 & Hr1). pose proof (shrinks_frame _ _ _ S1) as F1.
  assert (waiting (imported_txs_ s) s1 p tx) as Hw1 by (split; [split; [by rewrite (frame_heap _ _ F1)|done]|done]).
  run_step. eapply runs_mono; [apply (delTransactionAsWaiting_spec fuel _ _ _ p tx s1 HL1 Hw1); lia|].
  intros ? s2 ->. pose proof (frame_postponed _ _ F1) as Hpp1. cbn in Hpp1. rewrite Hpp in Hpp1.
  run_step. unfold processPostponedTransactions. run_step. run_step. cbn [set_waits postponed_txs_]. rewrite Hpp1.
  run_step. run_step. cbn [postponed_loop]. run_step. run_step. run_step. run_step.
  pose proof (removed_inv _ _ _ _ HL1 Hw1 Hpp1 (frame_imported _ _ F1)) as HP'.
  split_and!; [done| |apply (frame_imported _ _ F1)|apply (frame_heap _ _ F1)|apply (frame_limits _ _ F1)].
  destruct s1. cbn in *. subst. exact HP'.
Qed.

End removal.

(** ** Pools in use *)

Section use.
Variable limits : Limits.

(** Enough fuel for one operation. *)
Definition pool_fuel (s : t) : nat := S (S (size (imported_txs_ s))).

(** The pools that come from an empty one by adding admissible transactions and
    removing whatever is asked for. *)
Inductive reachable : t -> Prop :=
  | reachable_create : reachable (create limits)
  | reachable_submit s tx r s' :
      reachable s -> admissible tx s -> submitOne (pool_fuel s) tx s = Ok (r, s') -> reachable s'
  | reachable_remove s h r s' : reachable s -> removeOne (pool_fuel s) h s = Ok (r, s') -> reachable s'.

Lemma reachable_pool_inv s : reachable s -> pool_inv s.
Proof.
  induction 1 as [|s tx r s' _ IH Hadm Hs|s h r s' _ IH Hs].
  - apply create_inv.
  - destruct (submitOne_spec (pool_fuel s) tx s IH Hadm) as (r' & s1 & Hs1 & _ & HP & _); [unfold pool_fuel; lia|].
    congruence.
  - destruct (removeOne_spec (pool_fuel s) h s IH) as (r' & s1 & Hs1 & _ & HP & _); [unfold pool_fuel; lia|].
    congruence.
Qed.

(** Every transaction of the pool that is not ready misses a tag, and every
    ready one is imported. *)
Definition settled (s : t) : Prop :=
  ready_txs_ s ⊆ imported_txs_ s /\
  forall p tx, waiting (imported_txs_ s) s p tx -> exists tag, tag ∈ requires tx /\ is_provided tag s = false.

Lemma pool_inv_settled s : pool_inv s -> settled s.
Proof.
  intros [HI _ _ _]. split; [apply (inv_ready _ _ _ _ _ HI)|]. intros p tx Hw.
  destruct (inv_missing _ _ _ _ _ HI p tx Hw) as (tag & Htag & Hno); [by intros []|]. exists tag. split; [done|].
  apply not_true_is_false. by rewrite (is_provided_spec _ _ (inv_provides_ok _ _ _ _ _ HI)).
Qed.

End use.

(** C31. On a pool that comes from an empty one by admissible submissions and by
    removals, the operations return: an admissible transaction is added, and any
    hash can be removed, which fails with [TX_NOT_FOUND] for an unknown one
    and otherwise takes the transaction and nothing else out of the pool.  Every
    transaction that is not ready afterwards misses a tag, although the tags of
    the removed transaction went away, and no ready transaction is left that is
    not in the pool. *)
Theorem pool_operations_return (limits : Limits) (s : t) :
  reachable limits s ->
  (forall tx, admissible tx s -> runs (submitOne (pool_fuel s) tx) s (fun r s' =>
    r = Ok tt /\ dom (imported_txs_ s') = {[hash tx]} ∪ dom (imported_txs_ s) /\ settled s')) /\
  (forall h, runs (removeOne (pool_fuel s) h) s (fun r s' =>
    r = (if decide (is_Some (imported_txs_ s !! h)) then Ok tt else Err (transaction_pool_error TX_NOT_FOUND)) /\
    imported_txs_ s' = delete h (imported_txs_ s) /\ settled s')).
Proof.
  intros HR%reachable_pool_inv. split.
  - intros tx Hadm. eapply runs_mono; [apply (submitOne_spec _ tx s HR Hadm); unfold pool_fuel; lia|].
    intros r s' (-> & HP & _ & _ & _ & Hdom & _). split_and!; [done|done|by apply pool_inv_settled].
  - intros h. eapply runs_mono; [apply (removeOne_spec _ h s HR); unfold pool_fuel; lia|].
    intros r s' (-> & HP & Him & _). split_and!; [done|done|by apply pool_inv_settled].
Qed.

(** ** Stale transactions *)

Section stale.
Import Stale.
Context {M : Type} `{PoolModeratorLaws M}.
Context {BlockId : Type}.
Variable getNumberById : BlockId -> outcome Z.
Variable iteration : gmap bytes nat -> list (bytes * nat).
Hypothesis iteration_entries : forall m, iteration m ≡ₚ map_to_list m.

(** The transaction is still valid at the block. *)
Definition valid_at (number : Z) (s : t) (p : nat) : bool :=
  match heap s !! p with Some tx => number <? valid_till tx | None => false end.

Lemma stale_loop_spec number l s md :
  (forall e, e ∈ l -> is_Some (heap s !! e.2)) ->
  runs (stale_loop number l) (s, md) (fun r s' =>
    s'.1 = s /\ r = fst <$> filter (fun e : bytes * nat => valid_at number s e.2 = false) l).
Proof using All.
  revert md. induction l as [|[h p] l IH]; intros md Hl; cbn [stale_loop]; [by run_step|].
  destruct (Hl (h, p)) as [tx Hp]; [left|]. cbn in Hp.
  assert (on_pool (M := M) (read p) (s, md) = Ok (tx, (s, md))) as Hread.
  { unfold on_pool, read, mbind, act_bind, gets, lift. by rewrite Hp. }
  run_step. exists tx, (s, md). split; [done|]. run_step.
  exists (bool_decide (valid_till tx <= number)), (s, (banIfStale number tx md).2).
  split; [by rewrite (banIfStale_stale number tx md)|]. run_step.
  eapply runs_mono; [apply IH; intros e He; apply Hl; by right|]. intros r s' [Hs ->]. run_step. split; [done|].
  assert (valid_at number s p = (number <? valid_till tx)) as Hv by (unfold valid_at; by rewrite Hp).
  rewrite filter_cons. cbn [snd]. destruct (decide (valid_at number s p = false)) as [Hd|Hd]; rewrite Hv in Hd.
  - by rewrite bool_decide_eq_true_2 by (apply Z.ltb_ge; done).
  - by rewrite bool_decide_eq_false_2 by (rewrite <- Z.ltb_ge; done).
Qed.

Lemma remove_all_spec fuel hs s :
  pool_inv s -> (size (imported_txs_ s) < fuel)%nat -> NoDup hs -> (forall h, h ∈ hs -> is_Some (imported_txs_ s !! h)) ->
  runs (remove_all fuel hs) s (fun r s' =>
    r = Ok tt /\ pool_inv s' /\ imported_txs_ s' = filter (fun e => e.1 ∉ hs) (imported_txs_ s)).
Proof.
  revert s. induction hs as [|h hs IH]; intros s HP Hfuel Hnd Hin; cbn [remove_all].
  { run_step. split_and!; [done|done|]. symmetry. apply map_filter_id. intros. apply not_elem_of_nil. }
  apply NoDup_cons in Hnd as [Hh Hnd].
  run_step. eapply runs_mono; [by apply removeOne_spec|]. intros r s1 (-> & HP1 & Him & _).
  rewrite decide_True by (apply Hin; left). eapply runs_mono; [apply IH; [done| |done|]|].
  - rewrite Him. pose proof (map_subseteq_size _ _ (delete_subseteq (imported_txs_ s) h)). lia.
  - intros k Hk. rewrite Him, lookup_delete_ne by (intros ->; done). apply Hin. by right.
  - intros r s2 (-> & HP2 & Him2). split_and!; [done|done|]. rewrite Him2, Him. apply map_eq. intros k.
    apply option_eq. intros q. rewrite !map_lookup_filter_Some, lookup_delete_Some. cbn. set_solver.
Qed.

(** On a pool as above, the removal of stale transactions returns and
    leaves exactly the imported transactions that are still valid at the
    given block, whatever moderator it works with and in whatever order it
    visits the transactions; the list it returns is empty. *)
Theorem removeStale_exact (limits : Limits) (s : t) (md : M) (at_ : BlockId) (number : Z) :
  reachable limits s -> getNumberById at_ = Ok number ->
  runs (removeStale getNumberById iteration (pool_fuel s) at_) (s, md) (fun r s' =>
    r = Ok [] /\ settled s'.1 /\
    imported_txs_ s'.1 = filter (fun e => valid_at number s e.2 = true) (imported_txs_ s)).
Proof using All.
  intros HR%reachable_pool_inv Hn. pose proof HR as [HI _ _ _]. unfold removeStale. rewrite Hn. run_step. run_step. cbn [fst].
  assert (forall e, e ∈ iteration (imported_txs_ s) <-> imported_txs_ s !! e.1 = Some e.2) as Hit.
  { intros [h p]. by rewrite iteration_entries, elem_of_map_to_list. }
  set (hs := fst <$> filter (fun e : bytes * nat => valid_at number s e.2 = false) (iteration (imported_txs_ s))).
  run_step. eapply runs_mono; [apply stale_loop_spec|].
  { intros [h p] He. apply Hit in He. destruct (inv_domain _ _ _ _ _ HI h p He) as (tx & Hp & _). by exists tx. }
  intros r [s1 md1] [Hs1 ->]. cbn in Hs1. subst s1. fold hs.
  assert (forall h p, imported_txs_ s !! h = Some p -> h ∈ hs <-> valid_at number s p = false) as Hhs.
  { intros h p Hp. unfold hs. rewrite list_elem_of_fmap. split.
    - intros ([h' p'] & -> & [Hv He%Hit]%list_elem_of_filter). cbn in *. congruence.
    - intros Hv. exists (h, p). split; [done|]. apply list_elem_of_filter. split; [done|]. by apply Hit. }
  destruct (remove_all_spec (pool_fuel s) hs s HR) as (r & s2 & Hrm & -> & HP2 & Him2).
  - unfold pool_fuel. lia.
  - unfold hs. refine (sublist_NoDup _ _ _ (fmap_sublist _ _ _ (sublist_filter _ _))).
    rewrite iteration_entries. apply NoDup_fst_map_to_list.
  - intros h Hh. unfold hs in Hh. apply list_elem_of_fmap in Hh as ([h' p] & -> & [_ He%Hit]%list_elem_of_filter). by eexists.
  - run_step. exists (Ok tt), (s2, md1). split; [unfold on_pool; by rewrite Hrm|]. run_step. run_step. run_step.
    split_and!; [done|by apply pool_inv_settled|]. cbn. rewrite Him2. apply map_filter_ext.
    intros h p Hp. cbn. rewrite (Hhs h p Hp). by destruct (valid_at number s p).
Qed.

End stale.

(** ** Examples *)

Definition first_tx : Transaction := mkTransaction [] 0 (str "1") 0 10 [] [str "a"] true.

Definition one_tx : t :=
  match submitOne 2 first_tx (create default_limits) with Ok (_, s) => s | Err _ => create default_limits end.

Lemma first_tx_admissible : admissible first_tx (create default_limits).
Proof.
  split; [apply lookup_empty|split; apply (bool_decide_unpack _); vm_compute; exact I| |vm_compute; reflexivity|vm_compute; reflexivity].
  intros tx' tag (p & Hp & _). by apply create_heap in Hp.
Qed.

Lemma one_tx_reachable : reachable default_limits one_tx.
Proof.
  apply (reachable_submit _ (create default_limits) first_tx (Ok tt)).
  - apply reachable_create.
  - apply first_tx_admissible.
  - vm_compute. reflexivity.
Qed.

Lemma pool_operations_return_witness :
  runs (removeOne (pool_fuel one_tx) (str "1")) one_tx (fun r s' =>
    r = (if decide (is_Some (imported_txs_ one_tx !! str "1")) then Ok tt else Err (transaction_pool_error TX_NOT_FOUND)) /\
    imported_txs_ s' = delete (str "1") (imported_txs_ one_tx) /\ settled s').
Proof. exact (proj2 (pool_operations_return default_limits one_tx one_tx_reachable) (str "1")). Defined.

Section stale_example.
Import PoolModeratorImpl.
#[local] Instance constant_clock : PoolModerator PoolModeratorImpl.t := moderator_impl (fun _ => 0).
#[local] Instance constant_clock_laws : PoolModeratorLaws PoolModeratorImpl.t := moderator_impl_laws (fun _ => 0).

(** At block 10 the transaction is stale. *)
Lemma removeStale_exact_witness :
  runs (Stale.removeStale (M := PoolModeratorImpl.t) (fun n : Z => Ok n) map_to_list (pool_fuel one_tx) 10)
    (one_tx, PoolModeratorImpl.create default_params) (fun r s' =>
      r = Ok [] /\ settled s'.1 /\
      imported_txs_ s'.1 = filter (fun e => valid_at 10 one_tx e.2 = true) (imported_txs_ one_tx)) /\
  valid_at 10 one_tx 0 = false.
Proof.
  split; [|vm_compute; reflexivity].
  exact (removeStale_exact (fun n : Z => Ok n) map_to_list (fun m => reflexivity _) default_limits one_tx
    (PoolModeratorImpl.create default_params) 10 10 one_tx_reachable eq_refl).
Defined.
End stale_example.
