(* ===== verification/TransactionPoolBounds.v ===== *)
(** * Bounds of the transaction pool, and where it fails

    The limits of the pool and of the moderator's list hold whatever is
    submitted and removed; outside the conditions of [TransactionPoolProps] and
    [TransactionPoolRemoval] the pool reads freed nodes, loops for ever or keeps
    transactions ready whose tags are gone. *)

From S2P Require Import Prelude TransactionPool TransactionPoolInv TransactionPoolProps TransactionPoolRemoval.
Import TransactionPoolImpl.

Open Scope Z_scope.

(** ** Limits *)

Section limits.
Implicit Types (s : t).

Definition ready_fits s : Prop := Z.of_nat (size (ready_txs_ s)) <= max_ready_num (limits_ s).

Record fits s s' : Prop := mkFits {
  fits_limits : limits_ s' = limits_ s;
  fits_imported : imported_txs_ s' = imported_txs_ s;
  fits_ready : ready_fits s -> ready_fits s'
}.

(** Whenever the operation returns, the ready transactions fit if they did. *)
Definition fit {A} (m : act t A) : Prop := forall s a s', m s = Ok (a, s') -> fits s s'.

Lemma fits_refl s : fits s s.
Proof. by split. Qed.

Lemma fits_trans s1 s2 s3 : fits s1 s2 -> fits s2 s3 -> fits s1 s3.
Proof. intros [] []. split; [congruence|congruence|auto]. Qed.

Lemma fit_ret {A} (a : A) : fit (mret a).
Proof. intros s b s' [= _ <-]. apply fits_refl. Qed.

Lemma fit_gets {A} (f : t -> A) : fit (gets f).
Proof. intros s b s' [= _ <-]. apply fits_refl. Qed.

Lemma fit_lift {A} (r : outcome A) : fit (lift r).
Proof. intros s b s'. unfold lift. destruct r; [|done]. intros [= _ <-]. apply fits_refl. Qed.

Lemma fit_modify f : (forall s, fits s (f s)) -> fit (modify f).
Proof. intros Hf s b s' [= _ <-]. apply Hf. Qed.

Lemma fit_bind {A B} (m : act t A) (f : A -> act t B) : fit m -> (forall a, fit (f a)) -> fit (m ≫= f).
Proof.
  intros Hm Hf s b s'. unfold mbind, act_bind. destruct (m s) as [[a s1]|] eqn:E; [|done]. intros Hs'.
  eapply fits_trans; [by eapply Hm|by eapply Hf].
Qed.

Lemma fit_when b (m : act t unit) : fit m -> fit (when b m).
Proof. intros Hm. destruct b; [done|apply fit_ret]. Qed.

Lemma fit_for_each {A} (f : A -> act t unit) l : (forall a, fit (f a)) -> fit (for_each f l).
Proof. intros Hf. induction l as [|a l IH]; cbn [for_each]; [apply fit_ret|by apply fit_bind]. Qed.

End limits.

Create HintDb fit.
#[export] Hint Resolve fit_ret fit_gets fit_lift : fit.

(** Proves [fit] for code that changes neither limits nor ready transactions. *)
Ltac fit_auto := repeat first
  [ solve [auto with fit]
  | match goal with |- forall _, _ => intros ? end
  | apply fit_bind
  | apply fit_for_each
  | apply fit_when
  | apply fit_modify; intros ?; by split
  | match goal with |- fit (match ?x with _ => _ end) => destruct x end
  | match goal with |- fit (if ?x then _ else _) => destruct x end ].

Section operations.
Implicit Types (s : t).

Lemma fit_commitRequiredTags p : fit (commitRequiredTags p).
Proof. unfold commitRequiredTags, commit_tag, waits_erase, depends_emplace, new_node, read. fit_auto. Qed.

Lemma fit_rollbackRequiredTags p : fit (rollbackRequiredTags p).
Proof. unfold rollbackRequiredTags, waits_emplace, new_node, read. fit_auto. Qed.

Lemma fit_checkForReady p : fit (checkForReady p).
Proof. unfold checkForReady, read. fit_auto. Qed.

Lemma fit_postpone p : fit (postponeTransaction p).
Proof. unfold postponeTransaction. fit_auto. Qed.
#[local] Hint Resolve fit_commitRequiredTags fit_rollbackRequiredTags fit_checkForReady fit_postpone : fit.

(** [setReady] where there is room. *)
Definition fit_with_space (m : act t unit) : Prop :=
  forall s a s', hasSpaceInReady s = true -> m s = Ok (a, s') -> fits s s'.

Lemma fit_ready_or_postpone (m : act t unit) p : fit_with_space m ->
  fit (space ← gets hasSpaceInReady; if (space : bool) then m else postponeTransaction p).
Proof.
  intros Hm s a s'. unfold mbind, act_bind, gets. destruct (hasSpaceInReady s) eqn:E.
  - by apply Hm.
  - apply fit_postpone.
Qed.

#[local] Hint Resolve fit_ready_or_postpone : fit.

Lemma fit_commitProvidedTags (ready : nat -> act t unit) p :
  (forall p, fit_with_space (ready p)) -> fit (commitProvidedTags ready p).
Proof.
  intros Hr. assert (forall fuel it last, fit (provide_loop ready fuel it last)) as Hloop.
  { induction fuel as [|fuel IH]; intros it last; cbn [provide_loop]; [apply fit_lift|].
    unfold nonnull. fit_auto. }
  unfold commitProvidedTags, provides_emplace, new_node, provideTag, read. fit_auto.
Qed.

Lemma read_same p s tx s' : read p s = Ok (tx, s') -> s' = s.
Proof. unfold read, mbind, act_bind, gets, lift. destruct (heap s !! p); cbn; congruence. Qed.

Lemma fit_setReady fuel p : fit_with_space (setReady fuel p).
Proof.
  revert p. induction fuel as [|fuel IH]; intros p s a s' Hs; [done|]. cbn [setReady].
  unfold mbind at 1, act_bind at 1. destruct (read p s) as [[tx s1]|] eqn:E; [|done].
  apply read_same in E as ->.
  unfold mbind at 1, act_bind at 1, gets. destruct (ready_txs_ s !! hash tx) eqn:Hr; [intros [= _ <-]; apply fits_refl|].
  unfold mbind at 1, act_bind at 1, modify. intros Hrest.
  eapply fits_trans; [|refine (fit_bind _ _ _ _ _ _ _ Hrest); [apply fit_commitRequiredTags|]].
  - split; [done|done|]. intros _. unfold ready_fits, hasSpaceInReady in *. cbn.
    rewrite map_size_insert_None by done. apply Z.ltb_lt in Hs. lia.
  - intros _. by apply fit_commitProvidedTags.
Qed.

Lemma fit_unsetReady fuel p : fit (unsetReady fuel p).
Proof.
  revert p. induction fuel as [|fuel IH]; intros p; cbn [unsetReady]; [apply fit_lift|].
  assert (forall k tag, fit (unprovide_loop (unsetReady fuel) k tag)) as Hloop.
  { induction k as [|k IHk]; intros tag; cbn [unprovide_loop]; [apply fit_lift|]. unfold depends_erase. fit_auto. }
  assert (fit (rollbackProvidedTags (unsetReady fuel) p)) as Hprov.
  { unfold rollbackProvidedTags, provides_erase, unprovideTag, read. fit_auto. }
  intros s a s'. unfold mbind at 1, act_bind at 1. destruct (read p s) as [[tx s1]|] eqn:E; [|done].
  apply read_same in E as ->.
  unfold mbind at 1, act_bind at 1, gets. destruct (ready_txs_ s !! hash tx) eqn:Hr; [|intros [= _ <-]; apply fits_refl].
  unfold mbind at 1, act_bind at 1, modify. intros Hrest.
  eapply fits_trans; [|refine (fit_bind _ _ _ _ _ _ _ Hrest); [apply fit_rollbackRequiredTags|done]].
  split; [done|done|]. unfold ready_fits. cbn.
  pose proof (map_subseteq_size _ _ (delete_subseteq (ready_txs_ s) (hash tx))). lia.
Qed.
#[local] Hint Resolve fit_unsetReady : fit.

Lemma fit_processTransactionAsReady fuel p : fit (processTransactionAsReady fuel p).
Proof.
  intros s a s' H. unfold processTransactionAsReady, mbind, act_bind, gets in H.
  destruct ((if hasSpaceInReady s then setReady fuel p else postponeTransaction p) s) as [[u s1]|] eqn:E; [|done].
  injection H as _ <-. destruct (hasSpaceInReady s) eqn:Hs; [by eapply fit_setReady|by eapply fit_postpone].
Qed.
#[local] Hint Resolve fit_processTransactionAsReady : fit.

Lemma fit_processTransaction fuel tx : fit (processTransaction fuel tx).
Proof.
  unfold processTransaction, nonnull, processTransactionAsWaiting, addTransactionAsWaiting, waits_emplace, new_node, read.
  fit_auto.
Qed.
#[local] Hint Resolve fit_processTransaction : fit.

Lemma fit_delTransactionAsWaiting fuel p : fit (delTransactionAsWaiting fuel p).
Proof.
  assert (forall k i last, fit (del_loop k p i last)) as Hloop.
  { induction k as [|k IH]; intros i last; cbn [del_loop]; [apply fit_lift|]. unfold waits_erase. fit_auto. }
  unfold delTransactionAsWaiting, read. fit_auto.
Qed.
#[local] Hint Resolve fit_delTransactionAsWaiting : fit.

Lemma fit_processPostponedTransactions fuel : fit (processPostponedTransactions fuel).
Proof.
  assert (forall l, fit (postponed_loop fuel l)) as Hloop by (induction l; cbn [postponed_loop]; fit_auto).
  unfold processPostponedTransactions. fit_auto.
Qed.
#[local] Hint Resolve fit_processPostponedTransactions : fit.

Lemma processTransaction_space fuel tx s r s' :
  processTransaction fuel tx s = Ok (r, s') -> pool_is_full r = false ->
  Z.of_nat (size (imported_txs_ s)) <= capacity (limits_ s).
Proof.
  unfold processTransaction, mbind, act_bind, gets, ensureSpace.
  destruct (Z.ltb_spec (capacity (limits_ s)) (Z.of_nat (size (imported_txs_ s)))); [|done].
  intros [= <- _]. unfold pool_is_full. by rewrite bool_decide_eq_true_2.
Qed.

(** What the limits promise. *)
Definition within_limits (limits : Limits) s : Prop :=
  limits_ s = limits /\ Z.of_nat (size (ready_txs_ s)) <= max_ready_num limits /\
  Z.of_nat (size (imported_txs_ s)) <= capacity limits.

Lemma submitOne_limits limits fuel tx s r s' :
  submitOne fuel tx s = Ok (r, s') -> within_limits limits s -> within_limits limits s'.
Proof.
  intros H (Hl & Hr & Hi). unfold submitOne, make_shared, mbind, act_bind, gets, modify in H. cbn [mret act_ret] in H.
  set (p := fresh _) in H. cbn [imported_txs_ set_heap] in H.
  destruct (imported_txs_ s !! hash tx) eqn:Hh.
  { injection H as _ <-. by split. }
  set (s1 := set_imported _ _) in H. destruct (processTransaction fuel (Some p) s1) as [[r1 s2]|] eqn:E; [|done].
  destruct (fit_processTransaction _ _ _ _ _ E) as [F1 F2 F3].
  assert (ready_fits s2) as Hr2 by (apply F3; unfold ready_fits; cbn; by rewrite Hl).
  unfold ready_fits in Hr2. rewrite F1 in Hr2. cbn in F1, F2, Hr2. rewrite Hl in *.
  destruct (pool_is_full r1) eqn:Hf; cbn [when] in H; unfold modify in H; injection H as <- <-.
  - split_and!; [done|done|]. cbn. by rewrite F2, delete_insert_id.
  - split_and!; [done|done|]. pose proof (processTransaction_space _ _ _ _ _ E Hf) as Hc. cbn in Hc. by rewrite F2, <- Hl.
Qed.

Lemma removeOne_limits limits fuel h s r s' :
  removeOne fuel h s = Ok (r, s') -> within_limits limits s -> within_limits limits s'.
Proof.
  intros H (Hl & Hr & Hi). unfold removeOne in H. unfold mbind at 1, act_bind at 1, gets in H.
  destruct (imported_txs_ s !! h) as [p|] eqn:Hh; [|injection H as _ <-; by split].
  unfold mbind at 1, act_bind at 1, modify at 1 in H.
  set (s1 := set_held [p] _) in H.
  assert (fits s1 s') as [F1 F2 F3] by (revert H; apply fit_bind; fit_auto).
  assert (ready_fits s') as Hr' by (apply F3; unfold ready_fits; cbn; by rewrite Hl).
  unfold ready_fits in Hr'. rewrite F1 in Hr'. cbn in *. rewrite Hl in *. split_and!; [done|done|].
  rewrite F2. pose proof (map_subseteq_size _ _ (delete_subseteq (imported_txs_ s) h)). lia.
Qed.

End operations.

(** A pool that any transactions were submitted to and any hashes removed from. *)
Inductive used (limits : Limits) : t -> Prop :=
  | used_create : used limits (create limits)
  | used_submit fuel tx s r s' : used limits s -> submitOne fuel tx s = Ok (r, s') -> used limits s'
  | used_remove fuel h s r s' : used limits s -> removeOne fuel h s = Ok (r, s') -> used limits s'.

(** Whatever is submitted to a pool and removed from it, it never holds
    more transactions than its capacity and never has more ready ones than its
    limit, also while transactions that became ready make others ready. *)
Theorem pool_within_limits (limits : Limits) (s : t) :
  0 <= max_ready_num limits -> 0 <= capacity limits -> used limits s ->
  Z.of_nat (size (ready_txs_ s)) <= max_ready_num limits /\ Z.of_nat (size (imported_txs_ s)) <= capacity limits.
Proof.
  intros H1 H2 Hu. assert (within_limits limits s) as (_ & ? & ?); [|done].
  induction Hu as [|fuel tx s r s' _ IH Hs|fuel h s r s' _ IH Hs].
  - split; [done|]. cbn. by rewrite !map_size_empty.
  - by eapply submitOne_limits.
  - by eapply removeOne_limits.
Qed.

(** ** The moderator's list *)

Section moderator.
Import PoolModeratorImpl.

Lemma in_key_order_nonempty {A} (m : gmap bytes A) : in_key_order m = [] -> m = ∅.
Proof.
  intros H. pose proof (in_key_order_permutation m) as Hp. rewrite H in Hp.
  apply map_to_list_empty_iff, Permutation_nil_r. by symmetry.
Qed.

Lemma in_key_order_head {A} (m : gmap bytes A) k v l : in_key_order m = (k, v) :: l -> m !! k = Some v.
Proof. intros H. apply elem_of_map_to_list. rewrite <- in_key_order_permutation, H. left. Qed.

Lemma shrink_size fuel limit m :
  0 <= limit -> (size m <= fuel)%nat -> Z.of_nat (size (shrink fuel limit m)) <= limit.
Proof.
  intros Hl. revert m. induction fuel as [|fuel IH]; intros m Hm; cbn [shrink]; [lia|].
  destruct (Z.ltb_spec limit (Z.of_nat (size m))); [|lia].
  destruct (in_key_order m) as [|[k v] l] eqn:E.
  - apply in_key_order_nonempty in E as ->. by rewrite map_size_empty in *.
  - apply in_key_order_head in E. apply IH. rewrite map_size_delete_Some by by rewrite E. lia.
Qed.

Inductive moderation : Type :=
  | Ban (tx_hash : bytes)
  | BanIfStale (current_block : Z) (tx : Transaction)
  | IsBanned (tx_hash : bytes)
  | UpdateBan.

Definition moderate (clock : nat -> Z) (op : moderation) (m : PoolModeratorImpl.t) : PoolModeratorImpl.t :=
  match op with
  | Ban h => ban_impl clock h m
  | BanIfStale n tx => (banIfStale_impl clock n tx m).2
  | IsBanned h => (isBanned_impl clock h m).2
  | UpdateBan => updateBan_impl clock m
  end.

Definition list_bounded (m : PoolModeratorImpl.t) : Prop :=
  Z.of_nat (bannedNum_impl m) <= 2 * expected_size (params_ m).

Lemma ban_bounded clock h m :
  0 <= expected_size (params_ m) < 2 ^ 63 -> list_bounded (ban_impl clock h m).
Proof.
  intros He. unfold list_bounded, bannedNum_impl, ban_impl. cbn.
  set (banned := match _ with Some _ => _ | None => _ end).
  rewrite (u64_id (expected_size (params_ m) * 2)) by u64_lia.
  destruct (Z.ltb_spec (expected_size (params_ m) * 2) (Z.of_nat (size banned))); [|lia].
  pose proof (shrink_size (size banned) (expected_size (params_ m)) banned). lia.
Qed.

Lemma moderate_bounded clock op m :
  0 <= expected_size (params_ m) < 2 ^ 63 -> list_bounded m ->
  list_bounded (moderate clock op m) /\ params_ (moderate clock op m) = params_ m.
Proof.
  intros He Hb. destruct op; cbn [moderate].
  - split; [by apply ban_bounded|done].
  - unfold banIfStale_impl. case_match; [done|]. split; [by apply ban_bounded|done].
  - unfold isBanned_impl. by case_match.
  - split; [|done]. unfold list_bounded, bannedNum_impl in *. cbn.
    pose proof (map_subseteq_size _ _ (map_filter_subseteq (fun e => ~ e.2 < clock (reads m)) (banned_until_ m))). lia.
Qed.

(** The list of banned transactions stays below twice its expected size,
    whatever is banned and asked; the loop that shortens it ends. *)
Theorem moderator_bounded (clock : nat -> Z) (params : Params) (ops : list moderation) :
  0 <= expected_size params < 2 ^ 63 ->
  list_bounded (foldl (fun m op => moderate clock op m) (PoolModeratorImpl.create params) ops).
Proof.
  intros He. assert (list_bounded (PoolModeratorImpl.create params)) as H0.
  { unfold list_bounded, bannedNum_impl. cbn. rewrite map_size_empty. lia. }
  revert H0. change params with (params_ (PoolModeratorImpl.create params)) in He.
  generalize dependent (PoolModeratorImpl.create params). induction ops as [|op ops IH]; intros m He Hb; [done|].
  destruct (moderate_bounded clock op m He Hb) as [Hb' Hp]. cbn. apply IH; [by rewrite Hp|done].
Qed.

End moderator.

(** ** Where the pool fails *)

Definition demo (h : string) (req prov : list string) : Transaction :=
  mkTransaction [] 0 (str h) 0 10 (str <$> req) (str <$> prov) true.

(** Two transactions wait for the tag [a]; the first provides another tag that
    the second waits for.  When [a] is provided, the iterator of the loop over
    the transactions that wait for it is freed by the inner call. *)
Definition diamond : list Transaction :=
  [demo "1" ["a"%string] ["b"%string]; demo "2" ["a"%string; "b"%string] []; demo "3" [] ["a"%string]].

Example diamond_reads_freed_node : submit 10 diamond (create default_limits) = Err undefined_behaviour.
Proof. vm_compute. reflexivity. Qed.

(** A loop on the first of two transactions that wait for one tag. *)
Lemma del_loop_diverges fuel p n i last s :
  i <> last -> Multimap.deref i (tx_waits_tag_ s) = Ok n -> lock (Multimap.mapped n) s <> Some p ->
  del_loop fuel p i last s = Err out_of_fuel.
Proof.
  intros Hi Hn Hp. induction fuel as [|fuel IH]; [done|]. cbn [del_loop]. rewrite decide_False by done.
  unfold mbind, act_bind, gets, lift in *. rewrite Hn, bool_decide_eq_false_2 by done. exact IH.
Qed.

(** When another transaction waits for the same tag and comes first, the
    removal of a waiting transaction does not return, however long it runs. *)
Theorem removal_hangs (fuel : nat) (s : t) (h : bytes) (p : nat) (tx : Transaction) (tag : bytes)
    (tags : list bytes) (n : Multimap.node) :
  imported_txs_ s !! h = Some p -> heap s !! p = Some tx -> ready_txs_ s !! hash tx = None ->
  requires tx = tag :: tags ->
  (Multimap.equal_range tag (tx_waits_tag_ s)).1 = Some (Multimap.node_id n) ->
  (Multimap.equal_range tag (tx_waits_tag_ s)).1 <> (Multimap.equal_range tag (tx_waits_tag_ s)).2 ->
  Multimap.deref (Some (Multimap.node_id n)) (tx_waits_tag_ s) = Ok n -> Multimap.mapped n <> p ->
  removeOne fuel h s = Err out_of_fuel.
Proof.
  intros Hi Hp Hr Hreq H1 H12 Hn Hm. unfold removeOne. unfold mbind at 1, act_bind at 1, gets at 1. rewrite Hi.
  unfold mbind at 1, act_bind at 1, modify at 1.
  set (s1 := set_held [p] _).
  assert (read p s1 = Ok (tx, s1)) as Hread by (unfold read, mbind, act_bind, gets, lift; cbn; by rewrite Hp).
  destruct fuel as [|fuel]; [done|].
  assert (unsetReady (S fuel) p s1 = Ok (tt, s1)) as Hunset.
  { cbn [unsetReady]. unfold mbind, act_bind. rewrite Hread. cbn. by rewrite Hr. }
  unfold mbind at 1, act_bind at 1. rewrite Hunset. unfold mbind at 1, act_bind at 1.
  assert (delTransactionAsWaiting (S fuel) p s1 = Err out_of_fuel) as ->; [|done].
  unfold delTransactionAsWaiting. unfold mbind at 1, act_bind at 1. rewrite Hread, Hreq. cbn [for_each].
  unfold mbind, act_bind, gets. rewrite (del_loop_diverges _ p n); [done|done| |].
  - change (tx_waits_tag_ s1) with (tx_waits_tag_ s). by rewrite H1.
  - unfold lock. case_decide; [congruence|done].
Qed.

Definition two_waiters : list Transaction := [demo "1" ["a"%string] []; demo "2" ["a"%string] []].

Definition two_waiting : t :=
  match submit 10 two_waiters (create default_limits) with Ok (_, s) => s | Err _ => create default_limits end.

Example second_waiter_removal_hangs (fuel : nat) : removeOne fuel (str "2") two_waiting = Err out_of_fuel.
Proof.
  apply (removal_hangs _ _ _ 1 (demo "2" ["a"%string] []) (str "a") [] (Multimap.mkNode 0 (str "a") 0));
    vm_compute; congruence.
Qed.

(** With room for one ready transaction the second one is postponed; it is
    removed, and the removal of the first reads a null pointer. *)
Definition postponed_pair : list Transaction := [demo "1" [] []; demo "2" [] []].

Example postponed_removal_reads_null :
  (submit 10 postponed_pair;; removeOne 10 (str "2");; removeOne 10 (str "1")) (create (mkLimits 1 512))
  = Err undefined_behaviour.
Proof. vm_compute. reflexivity. Qed.

(** A transaction that finds its tag provided is not recorded as dependent on
    it; it stays ready when the provider is removed. *)
Definition dependent_pair : list Transaction := [demo "1" [] ["a"%string]; demo "2" ["a"%string] []].

Example dependent_stays_ready :
  exists s, (submit 10 dependent_pair;; removeOne 10 (str "1")) (create default_limits) = Ok (Ok tt, s) /\
    is_Some (getReadyTransactions s !! str "2") /\ is_provided (str "a") s = false.
Proof. eexists. split; [vm_compute; reflexivity|]. split; [eexists; vm_compute; reflexivity|vm_compute; reflexivity]. Qed.

Lemma pool_within_limits_witness :
  Z.of_nat (size (ready_txs_ two_waiting)) <= 128 /\ Z.of_nat (size (imported_txs_ two_waiting)) <= 512.
Proof.
  apply (pool_within_limits default_limits two_waiting); [vm_compute; discriminate|vm_compute; discriminate|].
  eapply (used_submit _ 10 (demo "2" ["a"%string] [])); [eapply (used_submit _ 10 (demo "1" ["a"%string] []))|].
  - apply used_create.
  - vm_compute. reflexivity.
  - vm_compute. reflexivity.
Defined.
