(* ===== verification/BlockStorage.v ===== *)
(** * Block headers and block data in the database

    Models [src/src/blockchain/impl]: the keys of blocks ([types.cpp],
    [storage_util.cpp]), the repository of block headers
    ([key_value_block_header_repository.cpp]) and the block storage
    ([key_value_block_storage.cpp]).

    The database is the class [KeyValueDB], the part of the database object
    that the storage calls; [GlobalDB_db] is the database object itself,
    [memory_db] a map.  What the storage relies on is [KeyValueLaws].  Messages
    of protobuf and the hash are the class [BlocksLib]; a failed parse is only
    reported and the code goes on with what the message holds, so a parser
    returns whether it succeeded and the message.  An item of a header's digest is
    kept as its encoding.  [value()] of a failed result throws, which is
    [undefined_behaviour]. *)

From S2P Require Import Prelude Store HierarchicalKey CrdtSet CrdtHeads DagSyncer CrdtDataFilter CrdtDatastore.
From S2P Require Import GlobalDB Transactions Trie TrieCodec ChangesTrie.

Open Scope Z_scope.

(** ** Blocks *)

Record BlockHeader : Type := mkHeader {
  parent_hash : bytes;
  number : Z;
  state_root : bytes;
  extrinsics_root : bytes;
  digest : list bytes
}.

Record Block : Type := mkBlock {
  header : BlockHeader;
  body : list bytes
}.

Record BlockData : Type := mkBlockData {
  bd_hash : bytes;
  bd_header : option BlockHeader;
  bd_body : option (list bytes);
  bd_receipt : option bytes;
  bd_message_queue : option bytes;
  bd_justification : option bytes
}.

Inductive BlockId : Type :=
  | ByHash (hash : bytes)
  | ByNumber (n : Z).

Inductive BlockStatus : Type := InChain | Unknown.

(** A hash of zeros, which [Hash256] is made with. *)
Definition zero_hash : bytes := replicate 32 "000"%char.

Definition empty_header : BlockHeader := mkHeader zero_hash 0 zero_hash zero_hash [].
Definition empty_data : BlockData := mkBlockData zero_hash None None None None None.

(** ** Messages *)

Record BlockHeaderData : Type := mkHeaderData {
  hd_parent_hash : bytes;
  hd_block_number : Z;
  hd_state_root : bytes;
  hd_extrinsics_root : bytes
}.

Record BlockPayloadData : Type := mkPayloadData {
  pd_hash : bytes;
  pd_header : BlockHeaderData;
  pd_block_body : list bytes
}.

Class BlocksLib := {
  ser_block_id : Z -> bytes;
  parse_block_id : bytes -> bool * Z;
  ser_hash_data : bytes -> bytes;
  parse_hash_data : bytes -> bool * bytes;
  ser_header_data : BlockHeaderData -> bytes;
  parse_header_data : bytes -> bool * BlockHeaderData;
  ser_payload_data : BlockPayloadData -> bytes;
  parse_payload_data : bytes -> bool * BlockPayloadData;
  hasher_blake2b_256 : bytes -> bytes
}.

(** What is serialized is parsed back; a field of a number is a tag byte and
    the number in groups of seven bits, or nothing for zero; a hash has 32
    bytes. *)
Class BlocksSpec `{BlocksLib} : Prop := {
  block_id_parse n : is_u64 n -> parse_block_id (ser_block_id n) = (true, n);
  hash_data_parse h : parse_hash_data (ser_hash_data h) = (true, h);
  header_data_parse d : parse_header_data (ser_header_data d) = (true, d);
  payload_data_parse d : parse_payload_data (ser_payload_data d) = (true, d);
  block_id_wire n : ser_block_id n = [] \/ head (ser_block_id n) = Some "008"%char;
  block_id_length n : 0 <= n < 2 ^ 49 -> (length (ser_block_id n) <= 8)%nat;
  hash_length b : length (hasher_blake2b_256 b) = 32%nat
}.

(** ** The database *)

Class KeyValueDB (S : Type) : Type := {
  db_Get : bytes -> S -> outcome bytes;
  db_Put : bytes -> bytes -> S -> outcome unit * S;
  db_Remove : bytes -> S -> outcome unit * S
}.

(** The database is a map that does not fail. *)
Class KeyValueLaws (S : Type) `{KeyValueDB S} : Type := {
  db_map : S -> gmap bytes bytes;
  db_Get_map k s : db_Get k s = ok_or (database_error NOT_FOUND) (db_map s !! k);
  db_Put_ok k v s : (db_Put k v s).1 = Ok tt;
  db_Put_map k v s : db_map (db_Put k v s).2 = <[k := v]> (db_map s);
  db_Remove_ok k s : (db_Remove k s).1 = Ok tt;
  db_Remove_map k s : db_map (db_Remove k s).2 = delete k (db_map s)
}.

#[export] Instance memory_db : KeyValueDB (gmap bytes bytes) := {
  db_Get k s := ok_or (database_error NOT_FOUND) (s !! k);
  db_Put k v s := (Ok tt, <[k := v]> s);
  db_Remove k s := (Ok tt, delete k s)
}.

#[export] Instance memory_db_laws : KeyValueLaws (gmap bytes bytes).
Proof. by refine {| db_map s := s |}. Defined.

Section globaldb.
Context {DB : Type} `{!RocksDBLib DB}.
Context {boost : BoostLib} {plat : Platform} {regexlib : RegexLib} {codec : DeltaCodec}.
Context {cidlib : CIDLib} {ipld : IPLDLib} {S : Type} {syncer : DAGSyncer S}.
Context {B : Type} {bcaster : Broadcaster B}.

(** Every call passes the topic [topic]. *)
Definition GlobalDB_db : KeyValueDB (GlobalDB.t (DB := DB) (S := S) (B := B)) := {|
  db_Get k g := GlobalDB.Get k g;
  db_Put k v g := GlobalDB.Put k v {[ str "topic" ]} g;
  db_Remove k g := GlobalDB.Remove k {[ str "topic" ]} g
|}.
End globaldb.

Module KeyValueBlockStorage.

(** ** Keys of blocks *)

Section storage.
Context {S : Type} `{!KeyValueDB S}.
Context {blockslib : BlocksLib}.

(** [db->Get({key})] and the like, on the state. *)
Definition Get (key : bytes) : act S (outcome bytes) := gets (db_Get (HKey.HierarchicalKey key)).
Definition Put (key value : bytes) : act S (outcome unit) := fun s =>
  let '(r, s') := db_Put (HKey.HierarchicalKey key) value s in Ok (r, s').
Definition Remove (key : bytes) : act S (outcome unit) := fun s =>
  let '(r, s') := db_Remove (HKey.HierarchicalKey key) s in Ok (r, s').

(** [value()] of a result. *)
Definition value {A} (r : outcome A) : act S A :=
  match r with Ok a => mret a | Err _ => lift (Err undefined_behaviour) end.

Definition isNotFoundError (e : error) : bool := bool_decide (e = database_error NOT_FOUND).

Definition NumberToBuffer (n : Z) : bytes := ser_block_id n.

Definition BufferToNumber (key : bytes) : outcome Z :=
  if decide (8 < length key)%nat then Err repository_invalid_key else Ok (parse_block_id key).2.

Definition numberAndHashToLookupKey (n : Z) (hash : bytes) : bytes := NumberToBuffer n ++ hash.

Definition idToBufferKey (id : BlockId) : act S (outcome bytes) :=
  match id with
  | ByNumber n => mret (Ok (to_string n))
  | ByHash hash =>
      key ← Get (Blob.toReadableString hash);
      mret match key with
           | Err e => if isNotFoundError e then Err block_not_found else Err e
           | Ok key => Ok key
           end
  end.

Definition idToStringKey (id : BlockId) : act S (outcome bytes) :=
  match id with
  | ByNumber n => mret (Ok (to_string n))
  | ByHash hash =>
      key ← Get (Blob.toReadableString hash);
      match key with
      | Err _ => mret (Err block_not_found)
      | Ok key => n ← value (BufferToNumber key); mret (Ok (to_string n))
      end
  end.

(** The Merkle root of the entries. *)
Definition trieRoot (hash256 : bytes -> bytes) (key_vals : list (bytes * bytes)) : outcome bytes :=
  root ← foldl (fun root kv => r ← root; put default_load r kv.1 kv.2) (Ok None) key_vals;
  match root with
  | None => Ok (hash256 ["000"%char])
  | Some n => b ← encodeNode hash256 n; Ok (hash256 b)
  end.

(** ** The repository of block headers *)

Section repository.
Variable net_id : bytes.

Definition block_header_key_prefix : bytes := net_id ++ str "blockchain/".

Definition GetHeaderSerializedData (h : BlockHeader) : bytes :=
  ser_header_data (mkHeaderData (Blob.toReadableString (parent_hash h)) (number h)
    (Blob.toReadableString (state_root h)) (Blob.toReadableString (extrinsics_root h))).

(** The header of a message; the digest keeps its default. *)
Definition read_header (d : BlockHeaderData) : act S BlockHeader :=
  parent ← value (Blob.fromReadableString 32 (hd_parent_hash d));
  state ← value (Blob.fromReadableString 32 (hd_state_root d));
  extrinsics ← value (Blob.fromReadableString 32 (hd_extrinsics_root d));
  mret (mkHeader parent (hd_block_number d) state extrinsics []).

Definition GetBlockHeaderFromSerialized (data : bytes) : act S BlockHeader := read_header (parse_header_data data).2.

Definition getBlockHeader (id : BlockId) : act S (outcome BlockHeader) :=
  TRY header_string_val ← idToStringKey id;
  header_res ← Get (block_header_key_prefix ++ header_string_val);
  match header_res with
  | Err e => mret (Err (if isNotFoundError e then block_not_found else e))
  | Ok data => h ← GetBlockHeaderFromSerialized data; mret (Ok h)
  end.

Definition getNumberByHash (hash : bytes) : act S (outcome Z) :=
  TRY key ← idToBufferKey (ByHash hash); mret (BufferToNumber key).

Definition getHashByNumber (n : Z) : act S (outcome bytes) :=
  TRY h ← getBlockHeader (ByNumber n); mret (Ok (hasher_blake2b_256 (GetHeaderSerializedData h))).

Definition getNumberById (id : BlockId) : act S (outcome Z) :=
  match id with ByNumber n => mret (Ok n) | ByHash hash => getNumberByHash hash end.

Definition getHashById (id : BlockId) : act S (outcome bytes) :=
  match id with ByNumber n => getHashByNumber n | ByHash hash => mret (Ok hash) end.

Definition putBlockHeader (h : BlockHeader) : act S (outcome bytes) :=
  let encoded_header := GetHeaderSerializedData h in
  let header_hash := hasher_blake2b_256 encoded_header in
  TRY id_string ← idToStringKey (ByNumber (number h));
  TRY _ ← Put (Blob.toReadableString header_hash) (NumberToBuffer (number h));
  TRY _ ← Put (block_header_key_prefix ++ id_string) encoded_header;
  mret (Ok header_hash).

Definition removeBlockHeader (id : BlockId) : act S (outcome unit) :=
  TRY header_string_val ← idToStringKey id;
  Remove (block_header_key_prefix ++ header_string_val).

Definition getBlockStatus (id : BlockId) : act S (outcome BlockStatus) :=
  h ← getBlockHeader id; mret (Ok match h with Ok _ => InChain | Err _ => Unknown end).

(** ** The block storage *)

Definition payload_path (id_string : bytes) : bytes := block_header_key_prefix ++ id_string ++ str "/tx/0".

(** Justification, receipt and message queue have no field in the message. *)
Definition GetSerializedBlockData (d : BlockData) : bytes :=
  ser_payload_data (mkPayloadData (Blob.toReadableString (bd_hash d))
    match bd_header d with
    | Some h => mkHeaderData (Blob.toReadableString (parent_hash h)) (number h)
                  (Blob.toReadableString (state_root h)) (Blob.toReadableString (extrinsics_root h))
    | None => mkHeaderData [] 0 [] []
    end (default [] (bd_body d))).

Definition GetBlockDataFromSerialized (data : bytes) : act S BlockData :=
  let d := (parse_payload_data data).2 in
  h ← read_header (pd_header d);
  hash ← value (Blob.fromReadableString 32 (pd_hash d));
  mret (mkBlockData hash (Some h) (Some (pd_block_body d)) None None None).

Definition GetRawBlock (id : BlockId) : act S (outcome bytes) :=
  TRY key ← idToBufferKey id; Get (payload_path key).

Definition getBlockData (id : BlockId) : act S (outcome BlockData) :=
  TRY encoded_block_data ← GetRawBlock id;
  d ← GetBlockDataFromSerialized encoded_block_data; mret (Ok d).

Definition getBlockBody (id : BlockId) : act S (outcome (list bytes)) :=
  TRY block_data ← getBlockData id;
  mret match bd_body block_data with
       | Some b => Ok b
       | None => Err (block_storage_error BODY_DOES_NOT_EXIST)
       end.

Definition getJustification (block : BlockId) : act S (outcome bytes) :=
  TRY block_data ← getBlockData block;
  mret match bd_justification block_data with
       | Some j => Ok j
       | None => Err (block_storage_error JUSTIFICATION_DOES_NOT_EXIST)
       end.

(** The hash of merged data is not set. *)
Definition merge_data (new old : BlockData) : BlockData :=
  mkBlockData zero_hash (bd_header new ∪ bd_header old) (bd_body new ∪ bd_body old)
    (bd_receipt new ∪ bd_receipt old) (bd_message_queue new ∪ bd_message_queue old)
    (bd_justification new ∪ bd_justification old).

Definition putBlockData (block_number : Z) (block_data : BlockData) : act S (outcome unit) :=
  existing_block_data_res ← getBlockData (ByHash (bd_hash block_data));
  let to_insert := match existing_block_data_res with
                   | Err _ => block_data
                   | Ok existing_data => merge_data block_data existing_data
                   end in
  TRY id_string ← idToStringKey (ByNumber block_number);
  TRY _ ← Put (payload_path id_string) (GetSerializedBlockData to_insert);
  mret (Ok tt).

Definition putBlock (block : Block) : act S (outcome bytes) :=
  let block_hash := hasher_blake2b_256 (GetHeaderSerializedData (header block)) in
  block_in_storage_res ← getBlockHeader (ByHash block_hash);
  match block_in_storage_res with
  | Ok _ => mret (Err (block_storage_error BLOCK_EXISTS))
  | Err e =>
      if negb (bool_decide (e = block_not_found)) then mret (Err e) else
      TRY _ ← putBlockHeader (header block);
      TRY _ ← putBlockData (number (header block))
        (mkBlockData block_hash (Some (header block)) (Some (body block)) None None None);
      mret (Ok block_hash)
  end.

Definition putJustification (j hash : bytes) (block_number : Z) : act S (outcome unit) :=
  TRY _ ← putBlockData block_number (mkBlockData hash None None None None (Some j));
  mret (Ok tt).

Definition removeBlock (hash : bytes) (n : Z) : act S (outcome unit) :=
  TRY _ ← removeBlockHeader (ByNumber n);
  TRY key ← idToBufferKey (ByNumber n);
  Remove (payload_path key).

Definition genesis_key : bytes := str ":sgns:genesis_block_hash".
Definition last_finalized_key : bytes := str ":sgns:last_finalized_block_hash".

(** [std::copy] into the 32 bytes of a hash. *)
Definition copy_hash (b : bytes) : outcome bytes :=
  if decide (length b <= 32)%nat then Ok (b ++ drop (length b) zero_hash) else Err undefined_behaviour.

Definition getGenesisBlockHash : act S (outcome bytes) :=
  hash_res ← Get genesis_key;
  match hash_res with
  | Ok b => hash ← lift (copy_hash b); mret (Ok hash)
  | Err e => mret (Err (if isNotFoundError e then block_storage_error GENESIS_BLOCK_NOT_FOUND else e))
  end.

Definition getLastFinalizedBlockHash : act S (outcome bytes) :=
  hash_res ← Get last_finalized_key;
  match hash_res with
  | Ok b => hash ← value (Blob.fromReadableString 32 (parse_hash_data b).2); mret (Ok hash)
  | Err e => mret (Err (if isNotFoundError e then block_storage_error FINALIZED_BLOCK_NOT_FOUND else e))
  end.

Definition setLastFinalizedBlockHash (hash : bytes) : act S (outcome unit) :=
  TRY _ ← Put last_finalized_key (ser_hash_data (Blob.toReadableString hash)); mret (Ok tt).

Definition ensureGenesisNotExists : act S (outcome unit) :=
  res ← getLastFinalizedBlockHash;
  mret match res with
       | Ok _ => Err (block_storage_error GENESIS_BLOCK_ALREADY_EXISTS)
       | Err _ => Ok tt
       end.

(** The block that the handler is called with is the result. *)
Definition loadExisting : act S (outcome Block) :=
  TRY last_finalized_block_hash ← getLastFinalizedBlockHash;
  TRY block_header ← getBlockHeader (ByHash last_finalized_block_hash);
  mret (Ok (mkBlock block_header [])).

Definition span_hash (b : bytes) : outcome bytes :=
  if decide (length b = 32%nat) then Ok b else Err blob_incorrect_length.

Definition createWithGenesis (hash256 : bytes -> bytes) (state_root_ : bytes) : act S (outcome Block) :=
  TRY _ ← ensureGenesisNotExists;
  TRY state_root_blob ← mret (span_hash state_root_);
  root ← lift (trieRoot hash256 []);
  TRY extrinsics_root_ ← mret (span_hash root);
  let genesis_block := mkBlock (mkHeader zero_hash 0 state_root_blob extrinsics_root_ []) [] in
  TRY genesis_block_hash ← putBlock genesis_block;
  TRY _ ← Put genesis_key genesis_block_hash;
  TRY _ ← setLastFinalizedBlockHash genesis_block_hash;
  mret (Ok genesis_block).

Definition create (hash256 : bytes -> bytes) (state_root_ : bytes) : act S (outcome Block) :=
  last_finalized_block_hash_res ← getLastFinalizedBlockHash;
  match last_finalized_block_hash_res with
  | Ok _ => loadExisting
  | Err e =>
      if bool_decide (e = block_storage_error FINALIZED_BLOCK_NOT_FOUND)
      then createWithGenesis hash256 state_root_ else mret (Err e)
  end.

End repository.
End storage.
End KeyValueBlockStorage.
