(* ===== verification/BlockStorageProps.v ===== *)
(** * Properties of the block storage

    The keys of the storage differ; headers and blocks are read back; the
    genesis block survives a restart; what the storage loses. *)

From S2P Require Import Prelude HierarchicalKey Transactions BlockStorage.
Import KeyValueBlockStorage.

Open Scope Z_scope.

(** ** Keys *)

Section keys.

Definition slashes (k : bytes) : nat := length (filter (fun c => c = slash) k).

Lemma slashes_app a b : slashes (a ++ b) = (slashes a + slashes b)%nat.
Proof. unfold slashes. by rewrite filter_app, length_app. Qed.

Lemma slashes_none k : slash ∉ k -> slashes k = 0%nat.
Proof. intros H. unfold slashes. by rewrite (proj2 (filter_eq_nil_iff slash k) H). Qed.

(** A key that does not end in a slash gets one in front if it has none. *)
Lemma hkey_norm k : k <> [] -> last k <> Some slash ->
  HKey.HierarchicalKey k = if decide (head k = Some slash) then k else slash :: k.
Proof.
  intros Hne Hl. unfold HKey.HierarchicalKey. destruct k as [|c k]; [done|]. cbn [head].
  destruct (decide (c = slash)) as [->|Hc].
  - rewrite (decide_True (P := Some slash = Some slash)) by done. rewrite decide_False; [done|]. by intros [_ ?].
  - rewrite (decide_False (P := Some c = Some slash)) by congruence. rewrite decide_False; [done|].
    intros [_ H]. by apply Hl.
Qed.

Lemma hkey_inj_prefix p a b :
  p <> [] -> a <> [] -> b <> [] -> last a <> Some slash -> last b <> Some slash ->
  HKey.HierarchicalKey (p ++ a) = HKey.HierarchicalKey (p ++ b) -> a = b.
Proof.
  intros Hp Ha Hb Hla Hlb. destruct p as [|c p]; [done|].
  assert (forall x, x <> [] -> last x <> Some slash -> last ((c :: p) ++ x) <> Some slash) as Hlast.
  { intros x Hx Hl. rewrite last_app. by destruct (last x) eqn:E; [|apply last_None in E]. }
  rewrite !hkey_norm by (try done; by apply Hlast). cbn [app head]. case_decide; intros Heq.
  - injection Heq as Heq. by apply app_inv_head in Heq.
  - injection Heq as Heq. by apply app_inv_head in Heq.
Qed.

Variable net_id : bytes.

Lemma prefix_slashes x : x <> [] -> last x <> Some slash ->
  (2 <= slashes (HKey.HierarchicalKey (block_header_key_prefix net_id ++ x)))%nat.
Proof.
  intros Hx Hl.
  assert (block_header_key_prefix net_id ++ x <> []) as Hne by (intros [_ ?]%app_eq_nil; done).
  assert (last (block_header_key_prefix net_id ++ x) <> Some slash) as Hlast.
  { rewrite last_app. by destruct (last x) eqn:E; [|apply last_None in E]. }
  rewrite (hkey_norm _ Hne Hlast). unfold block_header_key_prefix.
  assert (slashes (str "blockchain/") = 1%nat) as Hb by (vm_compute; reflexivity).
  case_decide as Hh.
  - rewrite !slashes_app, Hb. destruct net_id as [|c l]; [discriminate Hh|]. injection Hh as ->.
    change (slashes (slash :: l)) with (slashes ([slash] ++ l)). rewrite slashes_app.
    change (slashes [slash]) with 1%nat. lia.
  - change (slash :: (net_id ++ str "blockchain/") ++ x) with ([slash] ++ (net_id ++ str "blockchain/") ++ x).
    rewrite !slashes_app, Hb. change (slashes [slash]) with 1%nat. lia.
Qed.

Lemma digit_not_slash (s : bytes) : forallb is_digit s = true -> slash ∉ s.
Proof.
  intros H Hin. apply list_elem_of_In in Hin. rewrite forallb_forall in H. specialize (H _ Hin). by vm_compute in H.
Qed.

Lemma last_not_slash (s : bytes) : slash ∉ s -> last s <> Some slash.
Proof. intros Hs Hl. apply Hs. rewrite last_lookup in Hl. by eapply list_elem_of_lookup_2. Qed.

Lemma to_string_no_slash n : 0 <= n -> slash ∉ to_string n.
Proof. intros Hn. apply digit_not_slash. auto with decimal. Qed.

(** What is no hexadecimal digit does not occur. *)
Lemma readable_digits x b : x ∉ hex_digit <$> seqZ 0 16 -> x ∉ Blob.toReadableString b.
Proof.
  intros Hx. unfold Blob.toReadableString. induction b as [|c b IH]; [set_solver|]. rewrite fmap_cons. cbn [concat app].
  assert (Hd : forall d, 0 <= d < 16 -> x <> hex_digit d).
  { intros d Hd ->. apply Hx, list_elem_of_fmap. exists d. split; [done|]. apply elem_of_seqZ. lia. }
  pose proof (uchar_range c). rewrite !not_elem_of_cons. split_and!; [| |done]; apply Hd.
  - split; [apply Z.div_pos; lia|apply Z.div_lt_upper_bound; lia].
  - apply Z.mod_pos_bound. lia.
Qed.

Lemma readable_no_slash b : slash ∉ Blob.toReadableString b.
Proof. apply readable_digits, (bool_decide_unpack _). vm_compute. exact I. Qed.

Lemma readable_inj a b : Blob.toReadableString a = Blob.toReadableString b -> a = b.
Proof. intros H. pose proof (read_loop_readable a) as Ha. rewrite H, read_loop_readable in Ha. congruence. Qed.

(** The keys the storage uses. *)
Definition hash_key (h : bytes) : bytes := HKey.HierarchicalKey (Blob.toReadableString h).
Definition number_key (n : Z) : bytes := HKey.HierarchicalKey (block_header_key_prefix net_id ++ to_string n).
Definition payload_key (id : bytes) : bytes := HKey.HierarchicalKey (payload_path net_id id).

Lemma hash_key_eq h : hash_key h = slash :: Blob.toReadableString h.
Proof.
  unfold hash_key. pose proof (readable_no_slash h) as Hs. destruct (Blob.toReadableString h) as [|c l] eqn:E; [reflexivity|].
  rewrite hkey_norm by (try done; by apply last_not_slash). rewrite decide_False; [done|]. intros [= ->]. apply Hs. left.
Qed.

Lemma hash_key_slashes h : slashes (hash_key h) = 1%nat.
Proof.
  rewrite hash_key_eq. change (slash :: Blob.toReadableString h) with ([slash] ++ Blob.toReadableString h).
  rewrite slashes_app, (slashes_none (Blob.toReadableString h)) by apply readable_no_slash. reflexivity.
Qed.

Lemma hash_key_inj h h' : hash_key h = hash_key h' -> h = h'.
Proof. rewrite !hash_key_eq. intros [= Heq]. by apply readable_inj. Qed.

Lemma number_key_slashes n : 0 <= n -> (2 <= slashes (number_key n))%nat.
Proof. intros Hn. apply prefix_slashes; [apply to_string_nonempty|]. by apply last_not_slash, to_string_no_slash. Qed.

Lemma path_tail id : id ++ str "/tx/0" <> [] /\ last (id ++ str "/tx/0") <> Some slash.
Proof. split; [by intros [_ ?]%app_eq_nil|]. rewrite last_app. vm_compute. discriminate. Qed.

Lemma payload_key_slashes id : (2 <= slashes (payload_key id))%nat.
Proof. destruct (path_tail id). by apply prefix_slashes. Qed.

Lemma prefix_nonempty : block_header_key_prefix net_id <> [].
Proof. by intros [_ ?]%app_eq_nil. Qed.

Lemma number_key_inj n n' : 0 <= n -> 0 <= n' -> number_key n = number_key n' -> n = n'.
Proof.
  intros Hn Hn' Heq. apply to_string_inj; [done|done|]. revert Heq. unfold number_key.
  apply hkey_inj_prefix; try apply to_string_nonempty; try (by apply last_not_slash, to_string_no_slash).
  apply prefix_nonempty.
Qed.

Lemma payload_key_inj id id' : payload_key id = payload_key id' -> id = id'.
Proof.
  intros Heq. destruct (path_tail id), (path_tail id').
  apply hkey_inj_prefix in Heq; [by apply app_inv_tail in Heq|apply prefix_nonempty|done..].
Qed.

Lemma number_payload_key n id : 0 <= n -> number_key n <> payload_key id.
Proof.
  intros Hn Heq. destruct (path_tail id). pose proof (to_string_no_slash n Hn) as Hs.
  apply hkey_inj_prefix in Heq; [|apply prefix_nonempty|apply to_string_nonempty|done|by apply last_not_slash|done].
  apply Hs. rewrite Heq. apply elem_of_app. right. left.
Qed.

Lemma slashes_ne a b : slashes a = 1%nat -> (2 <= slashes b)%nat -> a <> b.
Proof. intros Ha Hb ->. lia. Qed.

Lemma length_ne {A} (a b : list A) : length a <> length b -> a <> b.
Proof. by intros H ->. Qed.

Definition genesis_hkey : bytes := HKey.HierarchicalKey genesis_key.
Definition last_finalized_hkey : bytes := HKey.HierarchicalKey last_finalized_key.

Lemma constant_keys :
  slashes genesis_hkey = 1%nat /\ slashes last_finalized_hkey = 1%nat.
Proof. vm_compute. done. Qed.

Lemma hash_constant_keys h :
  hash_key h <> genesis_hkey /\ hash_key h <> last_finalized_hkey /\ genesis_hkey <> last_finalized_hkey.
Proof.
  assert (Hc : ":"%char ∉ hash_key h).
  { rewrite hash_key_eq. apply not_elem_of_cons. split; [done|]. apply readable_digits, (bool_decide_unpack _). vm_compute. exact I. }
  split_and!; [| |apply length_ne; vm_compute; lia]; intros E; apply Hc; rewrite E; apply (bool_decide_unpack _); vm_compute; exact I.
Qed.

End keys.

(** Decides that two keys of the storage differ. *)
Ltac key_ne :=
  solve [ assumption
        | apply slashes_ne; [apply hash_key_slashes|];
            (apply number_key_slashes; lia) || apply payload_key_slashes
        | apply not_eq_sym; apply slashes_ne; [apply hash_key_slashes|];
            (apply number_key_slashes; lia) || apply payload_key_slashes
        | apply slashes_ne; [apply constant_keys|]; (apply number_key_slashes; lia) || apply payload_key_slashes
        | apply not_eq_sym; apply slashes_ne; [apply constant_keys|];
            (apply number_key_slashes; lia) || apply payload_key_slashes
        | apply number_payload_key; lia
        | apply not_eq_sym, number_payload_key; lia
        | apply hash_constant_keys
        | apply not_eq_sym; apply hash_constant_keys ].

(** ** Steps *)

Section steps.
Context {S : Type} `{!KeyValueDB S, !KeyValueLaws S}.
Context {blockslib : BlocksLib} {blocksspec : BlocksSpec}.
Variable net_id : bytes.
Implicit Types (s : S).

Lemma runs_Get k s Q : Q (ok_or (database_error NOT_FOUND) (db_map s !! HKey.HierarchicalKey k)) s -> runs (Get k) s Q.
Proof. intros HQ. apply runs_gets. by rewrite db_Get_map. Qed.

Lemma runs_Put k v s Q :
  (forall s', db_map s' = <[HKey.HierarchicalKey k := v]> (db_map s) -> Q (Ok tt) s') -> runs (Put k v) s Q.
Proof.
  intros HQ. exists (Ok tt), (db_Put (HKey.HierarchicalKey k) v s).2. split; [|apply HQ, db_Put_map].
  unfold Put. pose proof (db_Put_ok (HKey.HierarchicalKey k) v s) as Hok.
  destruct (db_Put (HKey.HierarchicalKey k) v s) as [r s']. by rewrite <- Hok.
Qed.

Lemma runs_Remove k s Q :
  (forall s', db_map s' = delete (HKey.HierarchicalKey k) (db_map s) -> Q (Ok tt) s') -> runs (Remove k) s Q.
Proof.
  intros HQ. exists (Ok tt), (db_Remove (HKey.HierarchicalKey k) s).2. split; [|apply HQ, db_Remove_map].
  unfold Remove. pose proof (db_Remove_ok (HKey.HierarchicalKey k) s) as Hok.
  destruct (db_Remove (HKey.HierarchicalKey k) s) as [r s']. by rewrite <- Hok.
Qed.

Lemma runs_value {A} (r : outcome A) (a : A) s (Q : A -> S -> Prop) : r = Ok a -> Q a s -> runs (value r) s Q.
Proof. intros -> HQ. by apply runs_ret. Qed.

(** A header the storage can hold: hashes of 32 bytes and a number whose
    message has at most 8 bytes. *)
Record header_wf (h : BlockHeader) : Prop := mkHeaderWf {
  wf_parent : length (parent_hash h) = 32%nat;
  wf_state : length (state_root h) = 32%nat;
  wf_extrinsics : length (extrinsics_root h) = 32%nat;
  wf_number : 0 <= number h < 2 ^ 49
}.

(** The header without its digest, which is not stored. *)
Definition stored_header (h : BlockHeader) : BlockHeader :=
  mkHeader (parent_hash h) (number h) (state_root h) (extrinsics_root h) [].

Definition header_data (h : BlockHeader) : BlockHeaderData :=
  mkHeaderData (Blob.toReadableString (parent_hash h)) (number h)
    (Blob.toReadableString (state_root h)) (Blob.toReadableString (extrinsics_root h)).

Lemma fromReadable_to b : length b = 32%nat -> Blob.fromReadableString 32 (Blob.toReadableString b) = Ok b.
Proof.
  intros Hb. unfold Blob.fromReadableString. rewrite length_readable, Hb. cbn [Nat.mul]. rewrite decide_True by done.
  apply read_loop_readable.
Qed.

Lemma read_header_ok h s Q : header_wf h -> Q (stored_header h) s -> runs (read_header (header_data h)) s Q.
Proof.
  intros [H1 H2 H3 H4] HQ. unfold read_header, header_data. cbn.
  run_step. eapply runs_value; [by apply fromReadable_to|].
  run_step. eapply runs_value; [by apply fromReadable_to|].
  run_step. eapply runs_value; [by apply fromReadable_to|]. by run_step.
Qed.

Definition block_hash_of (h : BlockHeader) : bytes := hasher_blake2b_256 (GetHeaderSerializedData h).

(** The database holds the header: its number under its hash, and itself under
    its number. *)
Record has_header (h : BlockHeader) s : Prop := mkHasHeader {
  has_hash : db_map s !! hash_key (block_hash_of h) = Some (ser_block_id (number h));
  has_number : db_map s !! number_key net_id (number h) = Some (GetHeaderSerializedData h)
}.

Lemma idToStringKey_hash h n s Q :
  0 <= n < 2 ^ 49 -> db_map s !! hash_key h = Some (ser_block_id n) -> Q (Ok (to_string n)) s ->
  runs (idToStringKey (ByHash h)) s Q.
Proof.
  intros Hn Hh HQ. cbn [idToStringKey]. run_step. apply runs_Get. unfold hash_key in Hh. rewrite Hh. cbn [ok_or].
  run_step. apply (runs_value _ n).
  - unfold BufferToNumber. rewrite decide_False by (pose proof (block_id_length n Hn); lia).
    rewrite block_id_parse by u64_lia. done.
  - by run_step.
Qed.

Lemma getBlockHeader_at h s Q :
  header_wf h -> db_map s !! number_key net_id (number h) = Some (GetHeaderSerializedData h) ->
  Q (Ok (stored_header h)) s ->
  runs (header_res ← Get (block_header_key_prefix net_id ++ to_string (number h));
        match header_res with
        | Err e => mret (Err (if isNotFoundError e then block_not_found else e))
        | Ok data => h ← GetBlockHeaderFromSerialized data; mret (Ok h)
        end) s Q.
Proof.
  intros Hwf Hn HQ. run_step. apply runs_Get. unfold number_key in Hn. rewrite Hn. cbn [ok_or].
  run_step. unfold GetBlockHeaderFromSerialized, GetHeaderSerializedData. rewrite header_data_parse. cbn [snd].
  apply (read_header_ok h); [done|]. by run_step.
Qed.

Lemma getBlockHeader_number h s Q :
  header_wf h -> db_map s !! number_key net_id (number h) = Some (GetHeaderSerializedData h) ->
  Q (Ok (stored_header h)) s -> runs (getBlockHeader net_id (ByNumber (number h))) s Q.
Proof. intros Hwf Hn HQ. unfold getBlockHeader. apply runs_try. apply runs_ret. by apply getBlockHeader_at. Qed.

Lemma getBlockHeader_hash h hash s Q :
  header_wf h -> db_map s !! hash_key hash = Some (ser_block_id (number h)) ->
  db_map s !! number_key net_id (number h) = Some (GetHeaderSerializedData h) ->
  Q (Ok (stored_header h)) s -> runs (getBlockHeader net_id (ByHash hash)) s Q.
Proof.
  intros Hwf Hh Hn HQ. unfold getBlockHeader. apply runs_try.
  apply (idToStringKey_hash hash (number h)); [apply Hwf|done|]. by apply getBlockHeader_at.
Qed.

Lemma putBlockHeader_spec h s Q :
  (forall s', db_map s' = <[number_key net_id (number h) := GetHeaderSerializedData h]>
     (<[hash_key (block_hash_of h) := ser_block_id (number h)]> (db_map s)) -> Q (Ok (block_hash_of h)) s') ->
  runs (putBlockHeader net_id h) s Q.
Proof.
  intros HQ. unfold putBlockHeader. apply runs_try, runs_ret. apply runs_try, runs_Put. intros s1 H1.
  apply runs_try, runs_Put. intros s2 H2. apply runs_ret, HQ. by rewrite H2, H1.
Qed.

(** ** Blocks *)

(** Nothing is stored under the number of a block as its message; the block
    data is looked up there by hash and written under the decimal number. *)
Definition no_raw s : Prop := forall n, db_map s !! payload_key net_id (ser_block_id n) = None.

Lemma raw_ne n m : 0 <= n -> payload_key net_id (to_string n) <> payload_key net_id (ser_block_id m).
Proof.
  intros Hn Heq%payload_key_inj. destruct (block_id_wire m) as [E|E]; rewrite <- Heq in E.
  - by apply to_string_nonempty in E.
  - pose proof (to_string_digits n Hn) as Hd. destruct (to_string n) as [|c l]; [done|]. injection E as ->.
    by vm_compute in Hd.
Qed.

Definition block_data_of (b : Block) : BlockData :=
  mkBlockData (block_hash_of (header b)) (Some (header b)) (Some (body b)) None None None.

(** The database after a block was put. *)
Definition with_block (b : Block) (m : gmap bytes bytes) : gmap bytes bytes :=
  <[payload_key net_id (to_string (number (header b))) := GetSerializedBlockData (block_data_of b)]>
  (<[number_key net_id (number (header b)) := GetHeaderSerializedData (header b)]>
  (<[hash_key (block_hash_of (header b)) := ser_block_id (number (header b))]> m)).

Lemma block_hash_length h : length (block_hash_of h) = 32%nat.
Proof. apply hash_length. Qed.
#[local] Hint Resolve block_hash_length : core.

(** Data under a hash is never found. *)
Lemma getBlockData_hash hash n s Q :
  db_map s !! hash_key hash = Some (ser_block_id n) -> no_raw s -> Q (Err (database_error NOT_FOUND)) s ->
  runs (getBlockData net_id (ByHash hash)) s Q.
Proof.
  intros Hh Hraw HQ. unfold getBlockData, GetRawBlock. apply runs_try, runs_try. cbn [idToBufferKey].
  run_step. apply runs_Get. unfold hash_key in Hh. rewrite Hh. cbn [ok_or]. run_step. apply runs_Get.
  specialize (Hraw n). unfold payload_key in Hraw. by rewrite Hraw.
Qed.

Lemma putBlockData_new n d m s Q :
  0 <= n -> db_map s !! hash_key (bd_hash d) = Some (ser_block_id m) -> no_raw s ->
  (forall s', db_map s' = <[payload_key net_id (to_string n) := GetSerializedBlockData d]> (db_map s) -> Q (Ok tt) s') ->
  runs (putBlockData net_id n d) s Q.
Proof.
  intros Hn Hh Hraw HQ. unfold putBlockData. run_step. apply (getBlockData_hash _ m); [done|done|].
  apply runs_try, runs_ret. apply runs_try, runs_Put. intros s' Hs'. by apply runs_ret, HQ.
Qed.

Lemma no_raw_insert k v s s' :
  db_map s' = <[k := v]> (db_map s) -> (forall n, k <> payload_key net_id (ser_block_id n)) -> no_raw s -> no_raw s'.
Proof. intros Hs Hk Hraw n. by rewrite Hs, lookup_insert_ne. Qed.

Lemma no_raw_with_block b s s' : 0 <= number (header b) -> db_map s' = with_block b (db_map s) -> no_raw s -> no_raw s'.
Proof.
  intros Hn Hs Hraw n. rewrite Hs. unfold with_block.
  rewrite !lookup_insert_ne by (try key_ne; by apply raw_ne). apply Hraw.
Qed.

Lemma putBlock_spec b s :
  header_wf (header b) -> db_map s !! hash_key (block_hash_of (header b)) = None -> no_raw s ->
  runs (putBlock net_id b) s (fun r s' => r = Ok (block_hash_of (header b)) /\ db_map s' = with_block b (db_map s)).
Proof.
  intros Hwf Hnone Hraw. pose proof (wf_number _ Hwf) as Hn. unfold putBlock. run_step.
  fold (block_hash_of (header b)).
  assert (forall Q, Q (Err block_not_found) s -> runs (getBlockHeader net_id (ByHash (block_hash_of (header b)))) s Q) as Hget.
  { intros Q HQ. unfold getBlockHeader. apply runs_try. cbn [idToStringKey]. run_step. apply runs_Get.
    unfold hash_key in Hnone. rewrite Hnone. cbn [ok_or]. by run_step. }
  apply Hget. rewrite bool_decide_eq_true_2 by done. cbn [negb].
  apply runs_try, putBlockHeader_spec. intros s1 Hs1.
  apply runs_try, (putBlockData_new _ _ (number (header b))); [lia| | |].
  - cbn [bd_hash]. rewrite Hs1, lookup_insert_ne by key_ne. by rewrite lookup_insert_eq.
  - intros n. rewrite Hs1, !lookup_insert_ne by key_ne. apply Hraw.
  - intros s2 Hs2. apply runs_ret. split; [done|]. by rewrite Hs2, Hs1.
Qed.

(** The value an operation returns without changing the state. *)
Definition returns {A} (m : act S A) s (a : A) : Prop := runs m s (fun r s' => r = a /\ s' = s).

Lemma with_block_header b m s : header_wf (header b) -> db_map s = with_block b m -> has_header (header b) s.
Proof.
  intros Hwf Hs. pose proof (wf_number _ Hwf). split; rewrite Hs; unfold with_block.
  - rewrite !lookup_insert_ne by key_ne. by rewrite lookup_insert_eq.
  - rewrite lookup_insert_ne by key_ne. by rewrite lookup_insert_eq.
Qed.

Lemma getBlockBody_number n b s :
  header_wf (header b) ->
  db_map s !! payload_key net_id (to_string n) = Some (GetSerializedBlockData (block_data_of b)) ->
  returns (getBlockBody net_id (ByNumber n)) s (Ok (body b)).
Proof.
  intros Hwf Hd. unfold returns, getBlockBody, getBlockData, GetRawBlock. apply runs_try, runs_try, runs_try, runs_ret.
  apply runs_Get. unfold payload_key in Hd. rewrite Hd. cbn [ok_or].
  run_step. unfold GetBlockDataFromSerialized, GetSerializedBlockData. rewrite payload_data_parse. cbn [snd pd_header pd_hash block_data_of bd_header bd_hash].
  run_step. apply (read_header_ok (header b)); [done|]. run_step.
  eapply runs_value; [by apply fromReadable_to|]. run_step. run_step. by run_step.
Qed.

Lemma getNumberByHash_stored h s :
  header_wf h -> has_header h s -> returns (getNumberByHash (block_hash_of h)) s (Ok (number h)).
Proof.
  intros Hwf [Hh _]. pose proof (wf_number _ Hwf) as Hn. unfold returns, getNumberByHash. apply runs_try. cbn [idToBufferKey].
  run_step. apply runs_Get. unfold hash_key in Hh. rewrite Hh. cbn [ok_or]. run_step. apply runs_ret.
  unfold BufferToNumber. rewrite decide_False by (pose proof (block_id_length (number h) Hn); lia).
  by rewrite block_id_parse by u64_lia.
Qed.

Lemma getHashByNumber_stored h s :
  header_wf h -> has_header h s -> returns (getHashByNumber net_id (number h)) s (Ok (block_hash_of h)).
Proof.
  intros Hwf [_ Hn]. unfold returns, getHashByNumber. apply runs_try.
  apply getBlockHeader_number; [done|done|]. by apply runs_ret.
Qed.

Lemma putBlock_again b s :
  header_wf (header b) -> has_header (header b) s ->
  returns (putBlock net_id b) s (Err (block_storage_error BLOCK_EXISTS)).
Proof.
  intros Hwf [Hh Hn]. unfold returns, putBlock. run_step. fold (block_hash_of (header b)).
  apply (getBlockHeader_hash (header b)); [done..|]. by run_step.
Qed.

(** ** The genesis block *)

Definition genesis (hash256 : bytes -> bytes) (root : bytes) : Block :=
  mkBlock (mkHeader zero_hash 0 root (hash256 ["000"%char]) []) [].

(** A database that holds no blocks yet. *)
Record fresh_db (hash256 : bytes -> bytes) (root : bytes) s : Prop := mkFresh {
  fresh_finalized : db_map s !! last_finalized_hkey = None;
  fresh_genesis : db_map s !! hash_key (block_hash_of (header (genesis hash256 root))) = None;
  fresh_raw : no_raw s
}.

Lemma last_finalized_none s Q :
  db_map s !! last_finalized_hkey = None -> Q (Err (block_storage_error FINALIZED_BLOCK_NOT_FOUND)) s ->
  runs getLastFinalizedBlockHash s Q.
Proof.
  intros Hn HQ. unfold getLastFinalizedBlockHash. run_step. apply runs_Get.
  unfold last_finalized_hkey in Hn. rewrite Hn. by run_step.
Qed.

Lemma last_finalized_some h s Q :
  length h = 32%nat -> db_map s !! last_finalized_hkey = Some (ser_hash_data (Blob.toReadableString h)) ->
  Q (Ok h) s -> runs getLastFinalizedBlockHash s Q.
Proof.
  intros Hl Hh HQ. unfold getLastFinalizedBlockHash. run_step. apply runs_Get.
  unfold last_finalized_hkey in Hh. rewrite Hh. cbn [ok_or]. rewrite hash_data_parse. cbn [snd].
  run_step. eapply runs_value; [by apply fromReadable_to|]. by run_step.
Qed.

Lemma createWithGenesis_spec hash256 root s :
  length root = 32%nat -> length (hash256 ["000"%char]) = 32%nat -> fresh_db hash256 root s ->
  runs (createWithGenesis net_id hash256 root) s (fun r s' =>
    let g := genesis hash256 root in let h := block_hash_of (header g) in
    r = Ok g /\ db_map s' = <[last_finalized_hkey := ser_hash_data (Blob.toReadableString h)]>
                             (<[genesis_hkey := h]> (with_block g (db_map s)))).
Proof.
  intros Hroot Hempty [Hf Hg Hraw]. set (g := genesis hash256 root).
  assert (header_wf (header g)) as Hwf by (split; cbn; [done|done|done|lia]).
  unfold createWithGenesis, ensureGenesisNotExists. apply runs_try. run_step. apply last_finalized_none; [done|].
  run_step. apply runs_try, runs_ret. unfold span_hash. rewrite decide_True by done.
  run_step. eapply runs_lift; [reflexivity|]. apply runs_try, runs_ret. rewrite decide_True by done.
  apply runs_try. eapply runs_mono; [by apply (putBlock_spec g)|]. intros r s1 [-> Hs1].
  apply runs_try, runs_Put. intros s2 Hs2. apply runs_try. unfold setLastFinalizedBlockHash.
  apply runs_try, runs_Put. intros s3 Hs3. apply runs_ret, runs_ret. split; [done|]. by rewrite Hs3, Hs2, Hs1.
Qed.

End steps.

Section theorems.
Context {S : Type} `{!KeyValueDB S, !KeyValueLaws S}.
Context {blockslib : BlocksLib} {blocksspec : BlocksSpec}.
Variable net_id : bytes.

(** A new block that is put into the storage is there: its header is read
    by hash and by number, except for the digest, which has no field in the
    stored message; its body is read by number; its number is found by its hash
    and its hash by its number; and the block is refused when it is put once
    more. *)
Theorem block_read_back (b : Block) (s : S) :
  header_wf (header b) -> db_map s !! hash_key (block_hash_of (header b)) = None -> no_raw net_id s ->
  runs (putBlock net_id b) s (fun r s' =>
    r = Ok (block_hash_of (header b)) /\ no_raw net_id s' /\
    returns (getBlockHeader net_id (ByHash (block_hash_of (header b)))) s' (Ok (stored_header (header b))) /\
    returns (getBlockHeader net_id (ByNumber (number (header b)))) s' (Ok (stored_header (header b))) /\
    returns (getBlockBody net_id (ByNumber (number (header b)))) s' (Ok (body b)) /\
    returns (getNumberByHash (block_hash_of (header b))) s' (Ok (number (header b))) /\
    returns (getHashByNumber net_id (number (header b))) s' (Ok (block_hash_of (header b))) /\
    returns (putBlock net_id b) s' (Err (block_storage_error BLOCK_EXISTS))).
Proof using All.
  intros Hwf Hnone Hraw. eapply runs_mono; [by apply putBlock_spec|]. intros r s' [-> Hs'].
  pose proof (with_block_header net_id b _ s' Hwf Hs') as [Hh Hn].
  split_and!; [done| | | | | | |].
  - eapply no_raw_with_block; [apply Hwf|exact Hs'|done].
  - by apply (getBlockHeader_hash net_id (header b)).
  - by apply getBlockHeader_number.
  - apply (getBlockBody_number net_id _ b); [done|]. rewrite Hs'. unfold with_block. by rewrite lookup_insert_eq.
  - by apply (getNumberByHash_stored net_id).
  - by apply getHashByNumber_stored.
  - by apply putBlock_again.
Qed.

(** A storage created over a fresh database makes the genesis block with the
    given state root; when it is created again over that database, with
    whatever state root, it finds the same genesis block as last finalized
    block and changes nothing. *)
Theorem genesis_survives_restart (hash256 : bytes -> bytes) (root root' : bytes) (s : S) :
  length root = 32%nat -> length (hash256 ["000"%char]) = 32%nat -> fresh_db net_id hash256 root s ->
  runs (create net_id hash256 root) s (fun r s' =>
    r = Ok (genesis hash256 root) /\ returns (create net_id hash256 root') s' (Ok (genesis hash256 root)) /\
    returns getGenesisBlockHash s' (Ok (block_hash_of (header (genesis hash256 root))))).
Proof using All.
  intros Hroot Hempty Hfresh. unfold create at 1. run_step. apply last_finalized_none; [apply Hfresh|].
  rewrite bool_decide_eq_true_2 by done. eapply runs_mono; [by apply createWithGenesis_spec|].
  intros r s' [-> Hs']. cbn zeta in Hs'. set (g := genesis hash256 root) in *. set (h := block_hash_of (header g)) in *.
  assert (length h = 32%nat) as Hlen by apply hash_length.
  assert (header_wf (header g)) as Hwf by (split; cbn; [done|done|done|lia]).
  assert (db_map s' !! last_finalized_hkey = Some (ser_hash_data (Blob.toReadableString h))) as Hfin
    by (rewrite Hs'; by rewrite lookup_insert_eq).
  pose proof (wf_number _ Hwf) as Hn. split_and!; [done| |].
  - unfold returns, create. run_step. apply (last_finalized_some h); [done|done|]. unfold loadExisting.
    apply runs_try, (last_finalized_some h); [done|done|]. apply runs_try.
    apply (getBlockHeader_hash net_id (header g)); [done| | |by apply runs_ret].
    + rewrite Hs'. do 2 rewrite lookup_insert_ne by (apply not_eq_sym, (hash_constant_keys h)).
      unfold with_block. do 2 rewrite lookup_insert_ne by key_ne. by rewrite lookup_insert_eq.
    + rewrite Hs'. do 2 rewrite lookup_insert_ne by key_ne. unfold with_block.
      rewrite lookup_insert_ne by key_ne. by rewrite lookup_insert_eq.
  - unfold returns, getGenesisBlockHash. run_step. apply runs_Get. fold genesis_hkey.
    rewrite Hs', lookup_insert_ne, lookup_insert_eq by (apply not_eq_sym, (hash_constant_keys h)). cbn [ok_or].
    run_step. eapply (runs_lift _ h); [|by run_step]. unfold copy_hash. rewrite Hlen, decide_True by lia.
    by rewrite drop_ge, app_nil_r by (cbn; lia).
Qed.

(** ** What the storage loses *)

(** A justification is not in the stored message, and the data it is put with
    replaces that of the block: afterwards the body of the block cannot be read
    and the justification is not found. *)
Theorem justification_replaces_block (b : Block) (j : bytes) (s : S) :
  header_wf (header b) -> db_map s !! hash_key (block_hash_of (header b)) = None -> no_raw net_id s ->
  runs (TRY hash ← putBlock net_id b; putJustification net_id j hash (number (header b))) s (fun r s' =>
    r = Ok tt /\ getBlockBody net_id (ByNumber (number (header b))) s' = Err undefined_behaviour /\
    returns (getJustification net_id (ByHash (block_hash_of (header b)))) s' (Err (database_error NOT_FOUND))).
Proof using All.
  intros Hwf Hnone Hraw. pose proof (wf_number _ Hwf) as Hn. apply runs_try.
  eapply runs_mono; [by apply putBlock_spec|]. intros r s1 [-> Hs1].
  pose proof (with_block_header net_id b _ s1 Hwf Hs1) as [Hh _].
  assert (no_raw net_id s1) as Hraw1 by (eapply no_raw_with_block; [apply Hwf|exact Hs1|done]).
  unfold putJustification. apply runs_try.
  apply (putBlockData_new net_id _ _ (number (header b))); [lia|done|done|]. intros s2 Hs2. apply runs_ret.
  split_and!; [done| |].
  - unfold getBlockBody, getBlockData, GetRawBlock, try. cbn [idToBufferKey].
    unfold mbind, act_bind, mret, act_ret, Get, gets. rewrite db_Get_map.
    fold (payload_key net_id (to_string (number (header b)))). rewrite Hs2, lookup_insert_eq. cbn [ok_or].
    unfold GetBlockDataFromSerialized, GetSerializedBlockData. by rewrite payload_data_parse.
  - unfold returns, getJustification. apply runs_try. apply (getBlockData_hash net_id _ (number (header b))); [| |done].
    + rewrite Hs2, lookup_insert_ne by key_ne. done.
    + eapply no_raw_insert; [exact Hs2| |done]. intros n. apply raw_ne. lia.
Qed.

(** Headers are kept by number: of two blocks with one number the later one is
    read under both hashes, and removing it removes the header of both. *)
Theorem fork_overwrites (h1 h2 : BlockHeader) (s : S) :
  header_wf h1 -> header_wf h2 -> number h1 = number h2 ->
  runs (TRY _ ← putBlockHeader net_id h1; putBlockHeader net_id h2) s (fun _ s' =>
    returns (getBlockHeader net_id (ByHash (block_hash_of h1))) s' (Ok (stored_header h2)) /\
    runs (removeBlock net_id (block_hash_of h2) (number h2)) s' (fun r s'' =>
      r = Ok tt /\ returns (getBlockHeader net_id (ByHash (block_hash_of h1))) s'' (Err block_not_found))).
Proof using All.
  intros Hwf1 Hwf2 Heq. pose proof (wf_number _ Hwf1) as Hn1. pose proof (wf_number _ Hwf2) as Hn2.
  apply runs_try, putBlockHeader_spec. intros s1 Hs1. apply putBlockHeader_spec. intros s2 Hs2.
  assert (length (block_hash_of h1) = 32%nat) as Hl1 by apply hash_length.
  assert (db_map s2 !! hash_key (block_hash_of h1) = Some (ser_block_id (number h2))) as Hh.
  { rewrite Hs2, lookup_insert_ne by key_ne. destruct (decide (hash_key (block_hash_of h1) = hash_key (block_hash_of h2))) as [->|Hne].
    - by rewrite lookup_insert_eq.
    - rewrite lookup_insert_ne by done. rewrite Hs1, lookup_insert_ne by key_ne. by rewrite lookup_insert_eq, Heq. }
  split.
  - apply (getBlockHeader_hash net_id h2); [done|done| |done]. rewrite Hs2. by rewrite lookup_insert_eq.
  - unfold removeBlock, removeBlockHeader. apply runs_try, runs_try, runs_ret, runs_Remove. intros s3 Hs3.
    apply runs_try, runs_ret, runs_Remove. intros s4 Hs4. split; [done|].
    unfold returns, getBlockHeader. apply runs_try, (idToStringKey_hash _ (number h2)); [done| |].
    + rewrite Hs4, lookup_delete_ne by key_ne. rewrite Hs3, lookup_delete_ne by key_ne. done.
    + run_step. apply runs_Get. fold (number_key net_id (number h2)).
      rewrite Hs4, lookup_delete_ne by (apply not_eq_sym, number_payload_key; lia). rewrite Hs3.
      fold (number_key net_id (number h2)). rewrite lookup_delete_eq. cbn. by run_step.
Qed.

End theorems.

(** ** Examples *)

Module DemoBlocks.

(** Numbers in groups of seven bits, the least first. *)
Fixpoint varint (fuel : nat) (n : Z) : bytes :=
  match fuel with
  | O => []
  | S fuel' =>
      if n <? 128 then [ascii_of_N (Z.to_N n)]
      else ascii_of_N (Z.to_N (n mod 128 + 128)) :: varint fuel' (n / 128)
  end.

Fixpoint read_varint (b : bytes) : Z :=
  match b with
  | [] => 0
  | c :: b' => if uchar c <? 128 then uchar c else uchar c - 128 + 128 * read_varint b'
  end.

Lemma uchar_ascii n : 0 <= n < 256 -> uchar (ascii_of_N (Z.to_N n)) = n.
Proof. intros Hn. unfold uchar. rewrite N_ascii_embedding by lia. lia. Qed.

Lemma read_varint_varint fuel n : 0 <= n < 128 ^ Z.of_nat fuel -> read_varint (varint fuel n) = n.
Proof.
  revert n. induction fuel as [|fuel IH]; intros n Hn; [cbn in *; lia|].
  rewrite Nat2Z.inj_succ, Z.pow_succ_r in Hn by lia. cbn [varint].
  destruct (Z.ltb_spec n 128); cbn [read_varint].
  - rewrite uchar_ascii by lia. by rewrite (proj2 (Z.ltb_lt n 128)).
  - pose proof (Z.mod_pos_bound n 128 ltac:(lia)). rewrite uchar_ascii by lia.
    rewrite (proj2 (Z.ltb_ge (n mod 128 + 128) 128)) by lia. rewrite IH.
    + pose proof (Z.div_mod n 128 ltac:(lia)). lia.
    + split; [apply Z.div_pos; lia|apply Z.div_lt_upper_bound; lia].
Qed.

Lemma length_varint fuel n (k : nat) : 0 <= n < 128 ^ Z.of_nat (S k) -> (length (varint fuel n) <= S k)%nat.
Proof.
  revert n k. induction fuel as [|fuel IH]; intros n k Hn; cbn [varint length]; [lia|].
  destruct (Z.ltb_spec n 128); [cbn; lia|]. cbn [length].
  rewrite Nat2Z.inj_succ, Z.pow_succ_r in Hn by lia. destruct k as [|k]; [cbn in Hn; lia|].
  specialize (IH (n / 128) k). rewrite <- Nat.succ_le_mono. apply IH.
  split; [apply Z.div_pos; lia|apply Z.div_lt_upper_bound; lia].
Qed.

Definition header_tuple (d : BlockHeaderData) := (hd_parent_hash d, hd_block_number d, hd_state_root d, hd_extrinsics_root d).
Definition tuple_header (x : bytes * Z * bytes * bytes) : BlockHeaderData :=
  let '(p, n, s, e) := x in mkHeaderData p n s e.

Definition read_or {A} `{Countable A} (d : A) (b : bytes) : bool * A :=
  match decode_bytes b with Some x => (true, x) | None => (false, d) end.

#[export] Instance blocks_ref : BlocksLib := {
  ser_block_id n := if decide (n = 0) then [] else "008"%char :: varint 10 n;
  parse_block_id b := (true, match b with [] => 0 | _ :: b' => read_varint b' end);
  ser_hash_data h := h;
  parse_hash_data b := (true, b);
  ser_header_data d := encode_bytes (header_tuple d);
  parse_header_data b := prod_map id tuple_header (read_or ([], 0, [], []) b);
  ser_payload_data d := encode_bytes (pd_hash d, header_tuple (pd_header d), pd_block_body d);
  parse_payload_data b :=
    prod_map id (fun x => mkPayloadData x.1.1 (tuple_header x.1.2) x.2) (read_or ([], ([], 0, [], []), []) b);
  hasher_blake2b_256 b := take 32 (b ++ zero_hash)
}.

#[export] Instance blocks_ref_spec : BlocksSpec.
Proof.
  split; cbn -[varint].
  - intros n Hn. f_equal. case_decide; [done|]. apply read_varint_varint. unfold is_u64 in Hn. lia.
  - done.
  - intros [p n s e]. unfold read_or. by rewrite decode_encode_bytes.
  - intros [h [p n s e] l]. unfold read_or. by rewrite decode_encode_bytes.
  - intros n. case_decide; [by left|by right].
  - intros n Hn. case_decide; cbn -[varint]; [lia|]. pose proof (length_varint 10 n 6 ltac:(lia)). lia.
  - intros b. change (length (take 32 (b ++ zero_hash)) = 32%nat). rewrite length_take, length_app.
    change (length zero_hash) with 32%nat. lia.
Qed.

Definition demo_hash256 (b : bytes) : bytes := zero_hash.
Definition demo_block : Block := mkBlock (mkHeader zero_hash 7 zero_hash zero_hash [str "seal"]) [str "tx"].
Definition demo_net : bytes := str "net/".

Lemma demo_block_wf : header_wf (header demo_block).
Proof. split; [reflexivity|reflexivity|reflexivity|cbn; lia]. Qed.

Lemma empty_lookup k : db_map (∅ : gmap bytes bytes) !! k = None.
Proof. exact (lookup_empty (M := gmap bytes) k). Qed.

Lemma empty_no_raw : no_raw demo_net (∅ : gmap bytes bytes).
Proof. intros n. apply empty_lookup. Qed.

End DemoBlocks.

Section witnesses.
Import DemoBlocks.
Notation DB := (gmap bytes bytes).

Lemma block_read_back_witness :
  runs (putBlock demo_net demo_block) (∅ : DB) (fun r s' =>
    r = Ok (block_hash_of (header demo_block)) /\ no_raw demo_net s' /\
    returns (getBlockHeader demo_net (ByHash (block_hash_of (header demo_block)))) s' (Ok (stored_header (header demo_block))) /\
    returns (getBlockHeader demo_net (ByNumber 7)) s' (Ok (stored_header (header demo_block))) /\
    returns (getBlockBody demo_net (ByNumber 7)) s' (Ok [str "tx"]) /\
    returns (getNumberByHash (block_hash_of (header demo_block))) s' (Ok 7) /\
    returns (getHashByNumber demo_net 7) s' (Ok (block_hash_of (header demo_block))) /\
    returns (putBlock demo_net demo_block) s' (Err (block_storage_error BLOCK_EXISTS))).
Proof. exact (block_read_back demo_net demo_block (∅ : DB) demo_block_wf (empty_lookup _) empty_no_raw). Defined.

Lemma genesis_survives_restart_witness :
  runs (create demo_net demo_hash256 zero_hash) (∅ : DB) (fun r s' =>
    r = Ok (genesis demo_hash256 zero_hash) /\
    returns (create demo_net demo_hash256 (str "other")) s' (Ok (genesis demo_hash256 zero_hash)) /\
    returns getGenesisBlockHash s' (Ok (block_hash_of (header (genesis demo_hash256 zero_hash))))).
Proof.
  apply (genesis_survives_restart demo_net demo_hash256 zero_hash (str "other") (∅ : DB)); [reflexivity|reflexivity|].
  split; [apply empty_lookup|apply empty_lookup|exact empty_no_raw].
Defined.

End witnesses.
