(* ===== verification/BlockTree.v ===== *)
(** * The block tree

    Models [src/src/blockchain/impl/block_tree_impl.cpp]: the light tree of
    blocks above the last finalized one, with its set of leaves and its deepest
    leaf, over the block storage.

    A node has an identity, its address.  The nodes that exist are those of
    [tree_]; the references of [TreeMeta] are identities, and reading one that
    is not in the tree any more is [undefined_behaviour].  The weak pointer to a
    parent leads to the node above in the tree and is null at the root.  The
    storage and the repository of headers are the interface [BlockStore];
    [kv_block_store] is the implementation of [BlockStorage].  Extrinsics that
    are handed to the observer are recorded; what it answers is only logged.
    Walks along stored headers have fuel, since nothing in the storage keeps
    them from going round in circles.  The order in which the set of leaves is
    visited is a parameter; [std::sort] is a sort that keeps equal elements in
    their order. *)

From S2P Require Import Prelude BlockStorage.

Open Scope Z_scope.

(** ** Nodes *)

Inductive TreeNode : Type :=
  | mkNode (id_ : nat) (block_hash_ : bytes) (depth_ : Z) (finalized_ : bool) (children_ : list TreeNode).

Definition node_id (t : TreeNode) : nat := let '(mkNode i _ _ _ _) := t in i.
Definition block_hash (t : TreeNode) : bytes := let '(mkNode _ h _ _ _) := t in h.
Definition depth (t : TreeNode) : Z := let '(mkNode _ _ d _ _) := t in d.
Definition finalized (t : TreeNode) : bool := let '(mkNode _ _ _ f _) := t in f.
Definition children (t : TreeNode) : list TreeNode := let '(mkNode _ _ _ _ c) := t in c.

(** All nodes, a node before those below it. *)
Fixpoint nodes (t : TreeNode) : list TreeNode :=
  match t with mkNode _ _ _ _ cs => t :: concat (nodes <$> cs) end.

(** *** Search *)

(** The loop of [getByHash] over the queue. *)
Fixpoint bfs (fuel : nat) (hash : bytes) (nodes_to_scan : list TreeNode) : outcome (option TreeNode) :=
  match nodes_to_scan with
  | [] => Ok None
  | n :: rest =>
      match fuel with
      | O => Err out_of_fuel
      | S fuel' => if decide (block_hash n = hash) then Ok (Some n) else bfs fuel' hash (rest ++ children n)
      end
  end.

Definition getByHash (t : TreeNode) (hash : bytes) : outcome (option TreeNode) := bfs (length (nodes t)) hash [t].

Fixpoint first_some {A B} (f : A -> option B) (l : list A) : option B :=
  match l with
  | [] => None
  | a :: l' => match f a with Some b => Some b | None => first_some f l' end
  end.

(** The nodes from the root to the node [i]. *)
Fixpoint path_to (i : nat) (t : TreeNode) : option (list TreeNode) :=
  match t with
  | mkNode j _ _ _ cs =>
      if decide (j = i) then Some [t]
      else match first_some (path_to i) cs with Some p => Some (t :: p) | None => None end
  end.

(** The node, its parent, and so on up to the root. *)
Definition upwards (i : nat) (t : TreeNode) : list TreeNode := reverse (default [] (path_to i t)).

Definition node_at (i : nat) (t : TreeNode) : outcome TreeNode := ok_or undefined_behaviour (head (upwards i t)).

(** *** Changes *)

Fixpoint update_node (f : TreeNode -> TreeNode) (i : nat) (t : TreeNode) : TreeNode :=
  match t with
  | mkNode j h d fin cs => if decide (j = i) then f t else mkNode j h d fin (update_node f i <$> cs)
  end.

Definition add_child (c : TreeNode) (t : TreeNode) : TreeNode :=
  let '(mkNode i h d f cs) := t in mkNode i h d f (cs ++ [c]).
Definition set_children (cs : list TreeNode) (t : TreeNode) : TreeNode :=
  let '(mkNode i h d f _) := t in mkNode i h d f cs.
Definition set_finalized (t : TreeNode) : TreeNode :=
  let '(mkNode i h d _ cs) := t in mkNode i h d true cs.

(** *** Leaves *)

(** The leaves in the order in which [TreeMeta] meets them. *)
Fixpoint leaf_nodes (t : TreeNode) : list TreeNode :=
  match t with
  | mkNode _ _ _ _ [] => [t]
  | mkNode _ _ _ _ cs => concat (leaf_nodes <$> cs)
  end.

Definition deeper (a b : TreeNode) : TreeNode := if depth a <? depth b then b else a.

Definition deepest_of (t : TreeNode) : TreeNode := foldl deeper t (leaf_nodes t).

Record TreeMeta : Type := mkMeta {
  leaves : gset bytes;
  deepest_leaf : nat;
  last_finalized : nat
}.

Definition NewTreeMeta (t : TreeNode) : TreeMeta :=
  mkMeta (list_to_set (block_hash <$> leaf_nodes t)) (node_id (deepest_of t)) (node_id t).

(** *** Descendants *)

(** Along nodes with one child the node itself is recorded, and then its child
    is the node to look at. *)
Fixpoint collectDescendants (t : TreeNode) : list (bytes * Z) :=
  match t with
  | mkNode _ h d _ [c] => (h, d) :: collectDescendants c
  | mkNode _ _ _ _ cs => concat ((fun c => collectDescendants c ++ [(block_hash c, depth c)]) <$> cs)
  end.

(** ** The storage *)

Class BlockStore (St : Type) : Type := {
  st_getBlockHeader : BlockId -> act St (outcome BlockHeader);
  st_getBlockBody : BlockId -> act St (outcome (list bytes));
  st_getJustification : BlockId -> act St (outcome bytes);
  st_putBlockHeader : BlockHeader -> act St (outcome bytes);
  st_putBlock : Block -> act St (outcome bytes);
  st_putBlockData : Z -> BlockData -> act St (outcome unit);
  st_putJustification : bytes -> bytes -> Z -> act St (outcome unit);
  st_removeBlock : bytes -> Z -> act St (outcome unit);
  st_setLastFinalizedBlockHash : bytes -> act St (outcome unit);
  st_getNumberByHash : bytes -> act St (outcome Z);
  st_getHashByNumber : Z -> act St (outcome bytes);
  st_getHashById : BlockId -> act St (outcome bytes)
}.

Definition kv_block_store {S : Type} `{!KeyValueDB S} {blockslib : BlocksLib} (net_id : bytes) : BlockStore S := {|
  st_getBlockHeader := KeyValueBlockStorage.getBlockHeader net_id;
  st_getBlockBody := KeyValueBlockStorage.getBlockBody net_id;
  st_getJustification := KeyValueBlockStorage.getJustification net_id;
  st_putBlockHeader := KeyValueBlockStorage.putBlockHeader net_id;
  st_putBlock := KeyValueBlockStorage.putBlock net_id;
  st_putBlockData := KeyValueBlockStorage.putBlockData net_id;
  st_putJustification := KeyValueBlockStorage.putJustification net_id;
  st_removeBlock := KeyValueBlockStorage.removeBlock net_id;
  st_setLastFinalizedBlockHash := KeyValueBlockStorage.setLastFinalizedBlockHash;
  st_getNumberByHash := KeyValueBlockStorage.getNumberByHash;
  st_getHashByNumber := KeyValueBlockStorage.getHashByNumber net_id;
  st_getHashById := KeyValueBlockStorage.getHashById net_id
|}.

(** ** The tree *)

Module BlockTreeImpl.
Section tree.
Context {St : Type} `{BlockStore St}.

Record t : Type := mk {
  tree_ : TreeNode;
  tree_meta_ : TreeMeta;
  store : St;
  observed : list bytes;
  next_id : nat
}.

Definition set_tree (x : TreeNode) (s : t) : t := mk x (tree_meta_ s) (store s) (observed s) (next_id s).
Definition set_meta (x : TreeMeta) (s : t) : t := mk (tree_ s) x (store s) (observed s) (next_id s).
Definition set_store (x : St) (s : t) : t := mk (tree_ s) (tree_meta_ s) x (observed s) (next_id s).
Definition set_observed (x : list bytes) (s : t) : t := mk (tree_ s) (tree_meta_ s) (store s) x (next_id s).
Definition set_next_id (x : nat) (s : t) : t := mk (tree_ s) (tree_meta_ s) (store s) (observed s) x.

Definition on_store {A} (m : act St A) : act t A := fun s =>
  match m (store s) with Ok (a, st) => Ok (a, set_store st s) | Err e => Err e end.

Definition fail {A} (e : BlockTreeError) : act t (outcome A) := mret (Err (block_tree_error e)).

Definition find_node (hash : bytes) : act t (option TreeNode) := s ← gets tree_; lift (getByHash s hash).

Definition deref (i : nat) : act t TreeNode := s ← gets tree_; lift (node_at i s).

Definition create (last_finalized_block : BlockId) (st : St) : outcome (outcome t) :=
  match (TRY h ← st_getBlockHeader last_finalized_block;
         TRY hash_res ← st_getHashById last_finalized_block;
         mret (Ok (mkNode 0 hash_res (number h) true []))) st with
  | Err e => Err e
  | Ok (Err e, _) => Ok (Err e)
  | Ok (Ok tree, st') => Ok (Ok (mk tree (NewTreeMeta tree) st' [] 1))
  end.

(** *** Blocks *)

(** The new node and the meta data, after the block was stored. *)
Definition append_node (parent : TreeNode) (hash : bytes) (n : Z) : act t unit :=
  i ← gets next_id;
  let new_node := mkNode i hash n false [] in
  modify (fun s => set_next_id (S i) (set_tree (update_node (add_child new_node) (node_id parent) (tree_ s)) s));;
  meta ← gets tree_meta_;
  deepest ← deref (deepest_leaf meta);
  modify (set_meta (mkMeta (({[hash]} ∪ leaves meta) ∖ {[block_hash parent]})
    (if depth deepest <? n then i else deepest_leaf meta) (last_finalized meta))).

Definition addBlockHeader (h : BlockHeader) : act t (outcome unit) :=
  parent ← find_node (parent_hash h);
  match parent with
  | None => fail NO_PARENT
  | Some parent =>
      TRY block_hash ← on_store (st_putBlockHeader h);
      append_node parent block_hash (number h);; mret (Ok tt)
  end.

Definition addBlock (block : Block) : act t (outcome unit) :=
  parent ← find_node (parent_hash (header block));
  match parent with
  | None => fail NO_PARENT
  | Some parent =>
      TRY block_hash ← on_store (st_putBlock block);
      append_node parent block_hash (number (header block));; mret (Ok tt)
  end.

Definition addBlockBody (block_number : Z) (hash : bytes) (body : list bytes) : act t (outcome unit) :=
  on_store (st_putBlockData block_number (mkBlockData hash None (Some body) None None None)).

Definition getBlockHeader (block : BlockId) : act t (outcome BlockHeader) := on_store (st_getBlockHeader block).
Definition getBlockBody (block : BlockId) : act t (outcome (list bytes)) := on_store (st_getBlockBody block).
Definition getBlockJustification (block : BlockId) : act t (outcome bytes) := on_store (st_getJustification block).

(** *** Finalization *)

(** The first loop of [prune]: [up] is the nodes above [main], nearest first. *)
Fixpoint prune_loop (main : TreeNode) (up : list TreeNode) (tree : TreeNode) : TreeNode * list (bytes * Z) :=
  match up with
  | [] => (tree, [])
  | parent :: up' =>
      if finalized parent then (tree, []) else
      let siblings := filter (fun c => block_hash c <> block_hash main) (children parent) in
      let removed := concat ((fun c => collectDescendants c ++ [(block_hash c, depth c)]) <$> siblings) in
      let tree' := update_node (fun n => set_children (filter (fun c => node_id c = node_id main) (children n)) n)
                     (node_id parent) tree in
      let '(tree'', rest) := prune_loop parent up' tree' in (tree'', removed ++ rest)
  end.

Fixpoint remove_loop (to_remove : list (bytes * Z)) (extrinsics : list bytes) : act t (outcome (list bytes)) :=
  match to_remove with
  | [] => mret (Ok extrinsics)
  | (hash, n) :: rest =>
      block_body_res ← on_store (st_getBlockBody (ByHash hash));
      let extrinsics := extrinsics ++ match block_body_res with Ok b => b | Err _ => [] end in
      TRY _ ← on_store (st_removeBlock hash n);
      remove_loop rest extrinsics
  end.

Definition prune (node : TreeNode) : act t (outcome unit) :=
  tree ← gets tree_;
  let '(tree', to_remove) := prune_loop node (tail (upwards (node_id node) tree)) tree in
  modify (set_tree tree');;
  TRY extrinsics ← remove_loop to_remove [];
  modify (fun s => set_observed (observed s ++ extrinsics) s);;
  mret (Ok tt).

Definition finalize (block justification : bytes) : act t (outcome unit) :=
  node ← find_node block;
  match node with
  | None => fail NO_SUCH_BLOCK
  | Some node =>
      already ← on_store (st_getJustification (ByHash block));
      match already with
      | Ok _ => mret (Ok tt)
      | Err _ =>
          TRY _ ← on_store (st_putJustification justification block (depth node));
          modify (fun s => set_tree (update_node set_finalized (node_id node) (tree_ s)) s);;
          TRY _ ← prune node;
          new_tree ← deref (node_id node);
          modify (fun s => set_meta (NewTreeMeta new_tree) (set_tree new_tree s));;
          TRY _ ← on_store (st_setLastFinalizedBlockHash (block_hash node));
          mret (Ok tt)
      end
  end.

(** *** Chains *)

Definition getLastFinalized : act t (Z * bytes) :=
  meta ← gets tree_meta_; n ← deref (last_finalized meta); mret (depth n, block_hash n).

Definition deepestLeaf : act t (Z * bytes) :=
  meta ← gets tree_meta_; n ← deref (deepest_leaf meta); mret (depth n, block_hash n).

(** Upwards in the light tree. *)
Fixpoint chain_loop (top : TreeNode) (up : list TreeNode) (result : list bytes) : outcome (list bytes) :=
  match up with
  | [] => Err (block_tree_error INCORRECT_ARGS)
  | n :: up' =>
      if decide (node_id n = node_id top) then Ok (reverse (result ++ [block_hash top]))
      else chain_loop top up' (result ++ [block_hash n])
  end.

(** Along the headers of the database. *)
Fixpoint db_chain_loop (fuel : nat) (top current : bytes) (result : list bytes) : act t (outcome (list bytes)) :=
  match fuel with
  | O => lift (Err out_of_fuel)
  | S fuel' =>
      if decide (current = top) then mret (Ok (reverse (result ++ [current])))
      else
        current_header_res ← on_store (st_getBlockHeader (ByHash current));
        match current_header_res with
        | Err _ => fail INCORRECT_ARGS
        | Ok h => db_chain_loop fuel' top (parent_hash h) (result ++ [current])
        end
  end.

Definition getChainByBlocks (fuel : nat) (top_block bottom_block : bytes) : act t (outcome (list bytes)) :=
  top ← find_node top_block;
  bottom ← find_node bottom_block;
  match top, bottom with
  | Some top, Some bottom => tree ← gets tree_; mret (chain_loop top (upwards (node_id bottom) tree) [])
  | _, _ => db_chain_loop fuel top_block bottom_block []
  end.

Definition getChainByBlock (fuel : nat) (block : bytes) : act t (outcome (list bytes)) :=
  last ← getLastFinalized; getChainByBlocks fuel last.2 block.

Definition getChainByBlockMax (fuel : nat) (block : bytes) (ascending : bool) (maximum : Z)
    : act t (outcome (list bytes)) :=
  block_number_res ← on_store (st_getNumberByHash block);
  match block_number_res with
  | Err _ => fail NO_SUCH_BLOCK
  | Ok start =>
      finish ← (if ascending then mret (if start <? maximum then 0 else start - maximum)
                else leaf ← deepestLeaf;
                     mret (let candidate := u64 (start + maximum) in
                           if candidate <=? leaf.1 then candidate else leaf.1));
      finish_block_hash ← on_store (st_getHashByNumber finish);
      match finish_block_hash with
      | Err _ => fail NO_SUCH_BLOCK
      | Ok finish_hash =>
          if ascending then
            TRY chain ← getChainByBlocks fuel finish_hash block; mret (Ok (reverse chain))
          else getChainByBlocks fuel block finish_hash
      end
  end.

Fixpoint db_ancestor_loop (fuel : nat) (ancestor current : bytes) : act t bool :=
  match fuel with
  | O => lift (Err out_of_fuel)
  | S fuel' =>
      if decide (current = ancestor) then mret true
      else
        current_header_res ← on_store (st_getBlockHeader (ByHash current));
        match current_header_res with
        | Err _ => mret false
        | Ok h => db_ancestor_loop fuel' ancestor (parent_hash h)
        end
  end.

Definition hasDirectChain (fuel : nat) (ancestor descendant : bytes) : act t bool :=
  a ← find_node ancestor;
  d ← find_node descendant;
  match a, d with
  | Some a, Some d =>
      tree ← gets tree_;
      mret (existsb (fun n => bool_decide (node_id n = node_id a)) (upwards (node_id d) tree))
  | _, _ => db_ancestor_loop fuel ancestor descendant
  end.

Definition longestPath (fuel : nat) : act t (outcome (list bytes)) :=
  leaf ← deepestLeaf; getChainByBlock fuel leaf.2.

Definition getChildren (block : bytes) : act t (outcome (list bytes)) :=
  node ← find_node block;
  match node with
  | None => fail NO_SUCH_BLOCK
  | Some node => mret (Ok (block_hash <$> children node))
  end.

(** *** Leaves *)

Section leaves.
Variable order : gset bytes -> list bytes.

Definition getLeaves : act t (list bytes) := gets (fun s => order (leaves (tree_meta_ s))).

Fixpoint leaf_depths (l : list bytes) : act t (list (Z * bytes)) :=
  match l with
  | [] => mret []
  | leaf :: l' =>
      leaf_node ← find_node leaf;
      n ← lift (ok_or undefined_behaviour leaf_node);
      rest ← leaf_depths l';
      mret ((depth n, block_hash n) :: rest)
  end.

Definition depth_ge (a b : Z * bytes) : Prop := b.1 <= a.1.

#[local] Instance depth_ge_dec a b : Decision (depth_ge a b).
Proof. unfold depth_ge. apply _. Defined.

Definition getLeavesSorted : act t (list bytes) :=
  l ← getLeaves;
  depths ← leaf_depths l;
  mret (snd <$> merge_sort depth_ge depths).

Fixpoint walkBackUntilLess (fuel : nat) (start : bytes) (limit : Z) : act t (outcome bytes) :=
  match fuel with
  | O => lift (Err out_of_fuel)
  | S fuel' =>
      TRY current_header ← on_store (st_getBlockHeader (ByHash start));
      if number current_header <=? limit then mret (Ok start)
      else walkBackUntilLess fuel' (parent_hash current_header) limit
  end.

(** The inner loop of [getBestContaining]: whether the target is reached. *)
Fixpoint reaches_target (fuel : nat) (target : bytes) (target_number : Z) (current : bytes) : act t (outcome bool) :=
  match fuel with
  | O => lift (Err out_of_fuel)
  | S fuel' =>
      TRY current_header ← on_store (st_getBlockHeader (ByHash current));
      if decide (current = target) then mret (Ok true)
      else if number current_header <? target_number then mret (Ok false)
      else reaches_target fuel' target target_number (parent_hash current_header)
  end.

Fixpoint best_loop (fuel : nat) (target : bytes) (target_number : Z) (max_number : option Z) (l : list bytes)
    : act t (outcome (Z * bytes)) :=
  match l with
  | [] => fail TREE_BLOCK_NOT_FOUND
  | leaf_hash :: l' =>
      TRY best_hash ← match max_number with
                      | Some m => walkBackUntilLess fuel leaf_hash m
                      | None => mret (Ok leaf_hash)
                      end;
      TRY best_header ← on_store (st_getBlockHeader (ByHash best_hash));
      TRY found ← reaches_target fuel target target_number best_hash;
      if (found : bool) then mret (Ok (number best_header, best_hash))
      else best_loop fuel target target_number max_number l'
  end.

Definition getBestContaining (fuel : nat) (target_hash : bytes) (max_number : option Z) : act t (outcome (Z * bytes)) :=
  TRY target_header ← on_store (st_getBlockHeader (ByHash target_hash));
  if match max_number with Some m => m <? number target_header | None => false end then fail TARGET_IS_PAST_MAX else
  TRY canon_hash ← on_store (st_getHashByNumber (number target_header));
  let search := l ← getLeavesSorted; best_loop fuel target_hash (number target_header) max_number l in
  if decide (canon_hash = target_hash) then
    match max_number with
    | None => search
    | Some m =>
        h ← on_store (st_getBlockHeader (ByNumber m));
        match h with
        | Ok h => TRY hash ← on_store (st_getHashByNumber (number h)); mret (Ok (number h, hash))
        | Err _ => search
        end
    end
  else
    last ← getLastFinalized;
    TRY last_finalized ← on_store (st_getNumberByHash last.2);
    if number target_header <=? last_finalized then fail BLOCK_ON_DEAD_END else search.

End leaves.
End tree.
End BlockTreeImpl.
