(* ===== verification/BlockTreeProps.v ===== *)
(** * Properties of the block tree

    Searching finds exactly the nodes of the tree; the walk upwards from a node
    is the branch of the tree to it; adding a block keeps the leaves and the
    deepest leaf exact; pruning leaves the finalized node as it was.

    What adding a child, marking a node and cutting side branches do to the
    identities, the leaves and the branches of a tree. *)

From S2P Require Import Prelude BlockStorage BlockTree.
Open Scope Z_scope.

(** ** Nodes *)

Section tree_induction.
Variable P : TreeNode -> Prop.
Hypothesis step : forall i h d f cs, Forall P cs -> P (mkNode i h d f cs).

Fixpoint tree_induction (t : TreeNode) : P t :=
  match t with
  | mkNode i h d f cs =>
      step i h d f cs ((fix go (l : list TreeNode) : Forall P l :=
        match l with [] => Forall_nil_2 P | c :: l' => Forall_cons_2 P c l' (tree_induction c) (go l') end) cs)
  end.
End tree_induction.

Definition ids (t : TreeNode) : list nat := node_id <$> nodes t.
Definition hashes (t : TreeNode) : list bytes := block_hash <$> nodes t.

(** What a node says of its block. *)
Definition summary (t : TreeNode) : nat * bytes * Z := (node_id t, block_hash t, depth t).
Definition summaries (t : TreeNode) : list (nat * bytes * Z) := summary <$> nodes t.
Definition leaf_summaries (t : TreeNode) : list (nat * bytes * Z) := summary <$> leaf_nodes t.

Lemma nodes_unfold t : nodes t = t :: concat (nodes <$> children t).
Proof. by destruct t. Qed.

Lemma elem_of_below x (l : list TreeNode) : x ∈ concat (nodes <$> l) <-> exists c, c ∈ l /\ x ∈ nodes c.
Proof.
  rewrite list_elem_of_In, in_concat. setoid_rewrite <- list_elem_of_In. split.
  - intros (y & [c [-> Hc]]%list_elem_of_fmap & Hx). eauto.
  - intros (c & Hc & Hx). exists (nodes c). split; [by apply list_elem_of_fmap; eauto|done].
Qed.

Lemma elem_of_nodes x t : x ∈ nodes t <-> x = t \/ exists c, c ∈ children t /\ x ∈ nodes c.
Proof. by rewrite nodes_unfold, elem_of_cons, elem_of_below. Qed.

Lemma nodes_self t : t ∈ nodes t.
Proof. apply elem_of_nodes. by left. Qed.

Lemma nodes_trans a b c : b ∈ nodes a -> c ∈ nodes b -> c ∈ nodes a.
Proof.
  induction a as [i h d f cs IH] using tree_induction. rewrite Forall_forall in IH.
  rewrite (elem_of_nodes b). intros [->|(k & Hk & Hb)] Hc; [done|].
  apply elem_of_nodes. right. exists k. eauto.
Qed.

Lemma ids_elem x t : x ∈ nodes t -> node_id x ∈ ids t.
Proof. intros Hx. apply list_elem_of_fmap. eauto. Qed.

Lemma ids_unfold t : ids t = node_id t :: concat (ids <$> children t).
Proof. unfold ids. rewrite nodes_unfold, fmap_cons, fmap_concat, <- list_fmap_compose. done. Qed.

(** The parts of a list without repetition. *)
Lemma NoDup_concat_split {A B} (f : A -> list B) l1 x l2 : NoDup (concat (f <$> l1 ++ x :: l2)) ->
  NoDup (f x) /\ forall y, y ∈ l1 ++ l2 -> forall b, b ∈ f y -> b ∉ f x.
Proof.
  rewrite fmap_app, fmap_cons, concat_app. cbn. intros Hnd.
  apply NoDup_app in Hnd as (_ & H1 & (Hx & H2 & _)%NoDup_app). split; [done|].
  intros y [Hy|Hy]%elem_of_app b Hb Hbx.
  - apply (H1 b); [|apply elem_of_app; by left].
    apply list_elem_of_In, in_concat. exists (f y). rewrite <- !list_elem_of_In, list_elem_of_fmap. eauto.
  - apply (H2 b Hbx).
    apply list_elem_of_In, in_concat. exists (f y). rewrite <- !list_elem_of_In, list_elem_of_fmap. eauto.
Qed.

(** The child below which a node is, and the other children. *)
Lemma child_split t c : NoDup (ids t) -> c ∈ children t -> exists l1 l2,
  children t = l1 ++ c :: l2 /\ NoDup (ids c) /\ node_id t ∉ ids c /\
  forall y, y ∈ l1 ++ l2 -> forall i, i ∈ ids y -> i ∉ ids c.
Proof.
  rewrite ids_unfold, NoDup_cons. intros [Ht Hnd] (l1 & l2 & E)%list_elem_of_split.
  exists l1, l2. rewrite E in *. destruct (NoDup_concat_split ids l1 c l2 Hnd) as [Hc Ho].
  split_and!; [done|done| |done].
  intros Hi. apply Ht. rewrite fmap_app, fmap_cons, concat_app. cbn. set_solver.
Qed.

(** ** Searching *)

Definition weight (l : list TreeNode) : nat := length (concat (nodes <$> l)).

Lemma bfs_spec fuel hash l : (weight l <= fuel)%nat -> exists o, bfs fuel hash l = Ok o /\
  match o with
  | Some n => n ∈ concat (nodes <$> l) /\ block_hash n = hash
  | None => forall n, n ∈ concat (nodes <$> l) -> block_hash n <> hash
  end.
Proof.
  revert l. induction fuel as [|fuel IH]; intros [|n l] Hw; cbn [bfs].
  - exists None. split; [done|]. by intros n ?%elem_of_nil.
  - unfold weight in Hw. cbn in Hw. rewrite nodes_unfold in Hw. cbn in Hw. lia.
  - exists None. split; [done|]. by intros n ?%elem_of_nil.
  - destruct (decide (block_hash n = hash)) as [E|E].
    { exists (Some n). split; [done|]. split; [|done]. apply elem_of_below. exists n. split; [left|apply nodes_self]. }
    assert (Hsame : forall x, x ∈ concat (nodes <$> n :: l) <-> x = n \/ x ∈ concat (nodes <$> l ++ children n)).
    { intros x. rewrite !elem_of_below. setoid_rewrite elem_of_cons. setoid_rewrite elem_of_app. split.
      - intros (c & [->|Hc] & Hx); [|eauto 6]. apply elem_of_nodes in Hx as [->|(k & Hk & Hx)]; eauto 6.
      - intros [->|(c & [Hc|Hc] & Hx)]; [exists n; eauto using nodes_self|eauto|].
        exists n. split; [by left|]. apply elem_of_nodes. eauto. }
    destruct (IH (l ++ children n)) as (o & Ho & Hspec).
    { unfold weight in *. rewrite fmap_app, concat_app, length_app. cbn in Hw. rewrite nodes_unfold in Hw.
      cbn in Hw. rewrite length_app in Hw. lia. }
    exists o. split; [done|]. destruct o as [m|].
    + destruct Hspec as [Hm Hh]. split; [|done]. apply Hsame. by right.
    + intros m [->|Hm]%Hsame; [done|]. by apply Hspec.
Qed.

Lemma getByHash_spec t hash : exists o, getByHash t hash = Ok o /\
  match o with
  | Some n => n ∈ nodes t /\ block_hash n = hash
  | None => hash ∉ hashes t
  end.
Proof.
  assert (E : concat (nodes <$> [t]) = nodes t) by (cbn; apply app_nil_r).
  destruct (bfs_spec (length (nodes t)) hash [t]) as (o & Ho & Hspec); [unfold weight; by rewrite E|].
  exists o. rewrite E in Hspec. split; [done|]. destruct o; [done|].
  intros (n & -> & Hn)%list_elem_of_fmap. by apply (Hspec n).
Qed.

Lemma getByHash_found t n : NoDup (hashes t) -> n ∈ nodes t -> getByHash t (block_hash n) = Ok (Some n).
Proof.
  intros Hnd Hn. destruct (getByHash_spec t (block_hash n)) as ([m|] & -> & Hspec).
  - destruct Hspec as [Hm E]. do 2 f_equal. by eapply NoDup_fmap_eq.
  - destruct Hspec. apply list_elem_of_fmap. eauto.
Qed.

(** ** Branches *)

(** From [a] down to [b], each node a child of the one before. *)
Inductive branch : TreeNode -> list TreeNode -> TreeNode -> Prop :=
  | branch_end a : branch a [a] a
  | branch_step a c l b : c ∈ children a -> branch c l b -> branch a (a :: l) b.

Lemma branch_below a l b : branch a l b -> b ∈ nodes a.
Proof. induction 1; apply elem_of_nodes; eauto. Qed.

Lemma branch_nodes a l b : branch a l b -> forall x, x ∈ l -> x ∈ nodes a /\ b ∈ nodes x.
Proof.
  induction 1 as [a|a c l b Hc Hb IH]; intros x Hx.
  - apply list_elem_of_singleton in Hx as ->. split; apply nodes_self.
  - pose proof (branch_below _ _ _ (branch_step _ _ _ _ Hc Hb)) as Hba.
    apply elem_of_cons in Hx as [->|Hx]; [by split; [apply nodes_self|]|].
    destruct (IH x Hx) as [Hxc ?]. split; [|done]. apply elem_of_nodes. eauto.
Qed.

Lemma branch_suffix a l b l1 x l2 : branch a l b -> l = l1 ++ x :: l2 -> branch x (x :: l2) b.
Proof.
  intros Hb. revert l1. induction Hb as [a|a c l b Hc Hb IH]; intros [|y l1] E; simplify_eq/=.
  - constructor.
  - by destruct l1.
  - by econstructor.
  - by eapply IH.
Qed.

Lemma branch_last a l b : branch a l b -> exists l', l = l' ++ [b].
Proof.
  induction 1 as [a|a c l b Hc Hb [l' ->]]; [by exists []|]. by exists (a :: l').
Qed.

Lemma path_to_none i t : i ∉ ids t -> path_to i t = None.
Proof.
  induction t as [j h d f cs IH] using tree_induction. rewrite ids_unfold. cbn [node_id children path_to].
  intros [Hj Hcs]%not_elem_of_cons. rewrite decide_False by done.
  replace (first_some (path_to i) cs) with (@None (list TreeNode)); [done|].
  clear Hj. induction IH as [|c cs Hc _ IHl]; [done|]. cbn in Hcs. apply not_elem_of_app in Hcs as [H1 H2].
  cbn. by rewrite Hc, <- IHl.
Qed.

Lemma first_some_split {A B} (f : A -> option B) l1 x l2 b :
  (forall y, y ∈ l1 -> f y = None) -> f x = Some b -> first_some f (l1 ++ x :: l2) = Some b.
Proof.
  intros Hn Hx. induction l1 as [|y l1 IH]; cbn; [by rewrite Hx|]. rewrite (Hn y) by left. apply IH.
  intros z Hz. apply Hn. by right.
Qed.

Lemma path_to_child t c i p : NoDup (ids t) -> c ∈ children t -> path_to i c = Some p -> i ∈ ids c ->
  path_to i t = Some (t :: p).
Proof.
  intros Hnd Hc Hp Hi. destruct (child_split t c Hnd Hc) as (l1 & l2 & E & _ & Ht & Ho).
  destruct t as [j h d f cs]. cbn in *. subst cs. rewrite decide_False by congruence.
  rewrite (first_some_split _ l1 c l2 p); [done| |done].
  intros y Hy. apply path_to_none. intros Hiy. eapply (Ho y); eauto. apply elem_of_app. by left.
Qed.

Lemma path_to_branch t b : NoDup (ids t) -> b ∈ nodes t -> exists p, path_to (node_id b) t = Some p /\ branch t p b.
Proof.
  induction t as [j h d f cs IH] using tree_induction. rewrite Forall_forall in IH.
  intros Hnd [->|(c & Hc & Hb)]%elem_of_nodes.
  - eexists. cbn. rewrite decide_True by done. split; [done|constructor].
  - destruct (child_split _ c Hnd Hc) as (_ & _ & _ & Hndc & _).
    destruct (IH c Hc Hndc Hb) as (p & Hp & Hbr). eexists. split.
    + eapply path_to_child; eauto using ids_elem.
    + by econstructor.
Qed.

(** Every node above [b] is on the branch to it. *)
Lemma branch_complete t b p a : NoDup (ids t) -> branch t p b -> a ∈ nodes t -> b ∈ nodes a -> a ∈ p.
Proof.
  intros Hnd Hbr. induction Hbr as [t|t c l b Hc Hbr IH]; intros Ha Hb.
  - apply elem_of_nodes in Ha as [->|(c & Hc & Ha)]; [left|].
    destruct (child_split t c Hnd Hc) as (_ & _ & _ & _ & Ht & _). destruct Ht.
    apply ids_elem. by eapply nodes_trans.
  - apply elem_of_nodes in Ha as [->|(k & Hk & Ha)]; [left|]. right.
    destruct (child_split t c Hnd Hc) as (l1 & l2 & E & Hndc & _ & Ho). rewrite E in Hk.
    pose proof (branch_below _ _ _ Hbr) as Hbc.
    apply elem_of_app in Hk as [Hk|[->|Hk]%elem_of_cons]; [|by apply IH|].
    all: destruct (Ho k ltac:(set_solver) (node_id b)); apply ids_elem; eauto using nodes_trans.
Qed.

Lemma NoDup_ids_below t a : NoDup (ids t) -> a ∈ nodes t -> NoDup (ids a).
Proof.
  induction t as [j h d f cs IH] using tree_induction. rewrite Forall_forall in IH.
  intros Hnd [->|(c & Hc & Ha)]%elem_of_nodes; [done|].
  destruct (child_split _ c Hnd Hc) as (_ & _ & _ & Hndc & _). by apply (IH c).
Qed.

Lemma branch_tail a l b : NoDup (ids a) -> branch a (a :: l) b -> forall x, x ∈ l -> node_id x <> node_id a.
Proof.
  intros Hnd Hbr x Hx E. inversion Hbr as [|? c ? ? Hc Hbr']; subst; [by apply elem_of_nil in Hx|].
  destruct (child_split a c Hnd Hc) as (_ & _ & _ & _ & Ha & _). apply Ha. rewrite <- E.
  apply ids_elem. by apply (branch_nodes _ _ _ Hbr').
Qed.

Lemma upwards_branch t b : NoDup (ids t) -> b ∈ nodes t -> exists p, upwards (node_id b) t = reverse p /\ branch t p b.
Proof.
  intros Hnd Hb. destruct (path_to_branch t b Hnd Hb) as (p & Hp & Hbr). exists p. unfold upwards. by rewrite Hp.
Qed.

Lemma node_at_elem t b : NoDup (ids t) -> b ∈ nodes t -> node_at (node_id b) t = Ok b.
Proof.
  intros Hnd Hb. destruct (upwards_branch t b Hnd Hb) as (p & Hp & Hbr). unfold node_at. rewrite Hp.
  destruct (branch_last _ _ _ Hbr) as [p' ->]. by rewrite reverse_snoc.
Qed.

(** ** Chains *)

Module Chains.
Import BlockTreeImpl.

Section chains.
Context {St : Type} `{BlockStore St}.
Implicit Type s : @BlockTreeImpl.t St.

Lemma chain_loop_found top l rest acc : (forall x, x ∈ l -> node_id x <> node_id top) ->
  chain_loop top (l ++ top :: rest) acc = Ok (reverse (acc ++ (block_hash <$> l) ++ [block_hash top])).
Proof.
  revert acc. induction l as [|x l IH]; intros acc Hl; cbn [app chain_loop].
  - by rewrite decide_True.
  - rewrite decide_False by (apply Hl; left). rewrite IH by (intros y Hy; apply Hl; by right).
    rewrite fmap_cons. by rewrite <- (assoc_L (++) acc).
Qed.

Lemma chain_loop_missing top l acc : (forall x, x ∈ l -> node_id x <> node_id top) ->
  chain_loop top l acc = Err (block_tree_error INCORRECT_ARGS).
Proof.
  revert acc. induction l as [|x l IH]; intros acc Hl; cbn; [done|].
  rewrite decide_False by (apply Hl; left). apply IH. intros y Hy. apply Hl. by right.
Qed.

Lemma find_node_found s n : NoDup (hashes (tree_ s)) -> n ∈ nodes (tree_ s) ->
  find_node (block_hash n) s = Ok (Some n, s).
Proof. intros Hnd Hn. unfold find_node, mbind, act_bind, gets, lift. by rewrite getByHash_found. Qed.

Lemma chain_found a b s fuel p1 p2 : NoDup (hashes (tree_ s)) -> a ∈ nodes (tree_ s) -> b ∈ nodes (tree_ s) ->
  (forall x, x ∈ p2 -> node_id x <> node_id a) -> upwards (node_id b) (tree_ s) = reverse (p1 ++ a :: p2) ->
  getChainByBlocks fuel (block_hash a) (block_hash b) s = Ok (Ok (block_hash <$> a :: p2), s) /\
  hasDirectChain fuel (block_hash a) (block_hash b) s = Ok (true, s).
Proof.
  intros Hnd Ha Hb Hp2 Hup. unfold getChainByBlocks, hasDirectChain, mbind, act_bind.
  assert (E : reverse (p1 ++ a :: p2) = reverse p2 ++ a :: reverse p1).
  { by rewrite reverse_app, reverse_cons, <- (assoc_L (++)). }
  rewrite !find_node_found by done. unfold gets. rewrite Hup, E. split.
  - rewrite (chain_loop_found a (reverse p2) (reverse p1) []) by (intros x; rewrite elem_of_reverse; apply Hp2).
    unfold mret, act_ret. by rewrite app_nil_l, reverse_snoc, fmap_reverse, reverse_involutive.
  - unfold mret, act_ret. do 2 f_equal. apply existsb_exists. exists a.
    split; [apply list_elem_of_In; set_solver|by apply bool_decide_eq_true].
Qed.

Lemma chain_missing a b s fuel : NoDup (hashes (tree_ s)) -> a ∈ nodes (tree_ s) -> b ∈ nodes (tree_ s) ->
  (forall x, x ∈ upwards (node_id b) (tree_ s) -> node_id x <> node_id a) ->
  getChainByBlocks fuel (block_hash a) (block_hash b) s = Ok (Err (block_tree_error INCORRECT_ARGS), s) /\
  hasDirectChain fuel (block_hash a) (block_hash b) s = Ok (false, s).
Proof.
  intros Hnd Ha Hb Hup. unfold getChainByBlocks, hasDirectChain, mbind, act_bind.
  rewrite !find_node_found by done. unfold gets. split; [by rewrite chain_loop_missing|].
  unfold mret, act_ret. do 2 f_equal. apply not_true_is_false. intros (x & Hx & E)%existsb_exists.
  apply list_elem_of_In in Hx. apply bool_decide_eq_true in E. by apply (Hup x).
Qed.

(** The chain between two blocks of the light tree. *)
Lemma chain_between (s : BlockTreeImpl.t) (a b : TreeNode) (fuel : nat) :
  NoDup (ids (tree_ s)) -> NoDup (hashes (tree_ s)) -> a ∈ nodes (tree_ s) -> b ∈ nodes (tree_ s) ->
  (b ∈ nodes a -> exists l, branch a l b /\
     getChainByBlocks fuel (block_hash a) (block_hash b) s = Ok (Ok (block_hash <$> l), s) /\
     hasDirectChain fuel (block_hash a) (block_hash b) s = Ok (true, s)) /\
  (b ∉ nodes a ->
     getChainByBlocks fuel (block_hash a) (block_hash b) s = Ok (Err (block_tree_error INCORRECT_ARGS), s) /\
     hasDirectChain fuel (block_hash a) (block_hash b) s = Ok (false, s)).
Proof.
  intros Hi Hh Ha Hb. destruct (upwards_branch _ b Hi Hb) as (p & Hp & Hbr). split; intros Hab.
  - destruct (list_elem_of_split p a) as (p1 & p2 & ->); [by eapply branch_complete|].
    pose proof (branch_suffix _ _ _ p1 a p2 Hbr eq_refl) as Hs. exists (a :: p2). split; [done|].
    eapply chain_found; [done..| |done]. eapply branch_tail; [by eapply NoDup_ids_below|done].
  - apply chain_missing; [done..|]. rewrite Hp. intros x Hx E. rewrite elem_of_reverse in Hx. apply Hab.
    destruct (branch_nodes _ _ _ Hbr x Hx) as [Hxt Hbx].
    by rewrite <- (NoDup_fmap_eq node_id _ x a Hi Hxt Ha E).
Qed.

(** Of two blocks of the light tree, the chain from the first to the second
    is the branch of the tree between them, in order and with both ends, when
    the second is at or below the first, and then there is a direct chain.
    Otherwise the arguments are reported as incorrect and there is no direct
    chain.  The tree and the storage are not changed or even consulted. *)
Theorem chain_is_branch (s : BlockTreeImpl.t) (a b : TreeNode) (fuel : nat) :
  NoDup (ids (tree_ s)) -> NoDup (hashes (tree_ s)) -> a ∈ nodes (tree_ s) -> b ∈ nodes (tree_ s) ->
  (b ∈ nodes a -> exists l, branch a l b /\
     getChainByBlocks fuel (block_hash a) (block_hash b) s = Ok (Ok (block_hash <$> l), s) /\
     hasDirectChain fuel (block_hash a) (block_hash b) s = Ok (true, s)) /\
  (b ∉ nodes a ->
     getChainByBlocks fuel (block_hash a) (block_hash b) s = Ok (Err (block_tree_error INCORRECT_ARGS), s) /\
     hasDirectChain fuel (block_hash a) (block_hash b) s = Ok (false, s)).
Proof. apply chain_between. Qed.

End chains.
End Chains.

(** ** Changing the block tree *)

(** ** Changing one node *)

Lemma ids_inv i t : i ∈ ids t -> node_id t = i \/ exists c, c ∈ children t /\ i ∈ ids c.
Proof.
  intros (n & -> & [->|(c & Hc & Hn)]%elem_of_nodes)%list_elem_of_fmap; [by left|]. right. eauto using ids_elem.
Qed.

Lemma ids_child t c i : c ∈ children t -> i ∈ ids c -> i ∈ ids t.
Proof. intros Hc (n & -> & Hn)%list_elem_of_fmap. apply ids_elem, elem_of_nodes. eauto. Qed.

Lemma update_absent f i t : i ∉ ids t -> update_node f i t = t.
Proof.
  induction t as [j h d fin cs IH] using tree_induction. rewrite ids_unfold. cbn [node_id children update_node].
  intros [Hj Hcs]%not_elem_of_cons. rewrite decide_False by done. f_equal. clear Hj.
  induction IH as [|c cs Hc _ IHl]; [done|]. cbn in Hcs. apply not_elem_of_app in Hcs as [H1 H2].
  rewrite fmap_cons. by rewrite Hc, IHl.
Qed.

Lemma update_here f t : update_node f (node_id t) t = f t.
Proof. destruct t. cbn. by rewrite decide_True. Qed.

(** Below a child, only that child changes. *)
Lemma update_child f t c i : NoDup (ids t) -> c ∈ children t -> i ∈ ids c -> exists l1 l2,
  children t = l1 ++ c :: l2 /\ NoDup (ids c) /\ node_id t ∉ ids c /\
  (forall y, y ∈ l1 ++ l2 -> forall m, m ∈ ids c -> m ∉ ids y) /\
  update_node f i t = set_children (l1 ++ update_node f i c :: l2) t.
Proof.
  intros Hnd Hc Hi. destruct (child_split t c Hnd Hc) as (l1 & l2 & E & Hndc & Ht & Ho).
  assert (Hid : node_id t <> i) by congruence.
  assert (Hout : forall y, y ∈ l1 ++ l2 -> forall m, m ∈ ids c -> m ∉ ids y) by (intros y Hy m Hm Hmy; by eapply Ho).
  exists l1, l2. split_and!; [done..|]. destruct t as [j h d fin cs]. cbn in *. subst cs.
  rewrite decide_False by done. f_equal. rewrite fmap_app, fmap_cons.
  assert (Hall : forall l : list TreeNode, (forall y, y ∈ l -> i ∉ ids y) -> update_node f i <$> l = l).
  { intros l Hl. rewrite <- (list_fmap_id l) at 2. apply list_fmap_ext. intros k y Hy. apply update_absent, Hl.
    by eapply list_elem_of_lookup_2. }
  rewrite !Hall; [done| |]; intros y Hy; (apply Hout; [apply elem_of_app; auto|done]).
Qed.

Lemma children_set cs t : children (set_children cs t) = cs.
Proof. by destruct t. Qed.

Lemma node_id_set cs t : node_id (set_children cs t) = node_id t.
Proof. by destruct t. Qed.

Lemma summary_set cs t : summary (set_children cs t) = summary t.
Proof. by destruct t. Qed.

Lemma summaries_unfold t : summaries t = summary t :: concat (summaries <$> children t).
Proof. unfold summaries. rewrite nodes_unfold, fmap_cons, fmap_concat, <- list_fmap_compose. done. Qed.

Lemma ids_summaries t : ids t = (fst ∘ fst) <$> summaries t.
Proof. unfold ids, summaries. by rewrite <- list_fmap_compose. Qed.

Lemma hashes_summaries t : hashes t = (snd ∘ fst) <$> summaries t.
Proof. unfold hashes, summaries. by rewrite <- list_fmap_compose. Qed.

Lemma concat_middle {A B} (f : A -> list B) l1 x l2 :
  concat (f <$> l1 ++ x :: l2) = concat (f <$> l1) ++ f x ++ concat (f <$> l2).
Proof. by rewrite fmap_app, fmap_cons, concat_app. Qed.

(** ** Adding a child *)

Lemma summaries_add c i t : NoDup (ids t) -> i ∈ ids t ->
  summaries (update_node (add_child c) i t) ≡ₚ summaries c ++ summaries t.
Proof.
  induction t as [j h d fin cs IH] using tree_induction. rewrite Forall_forall in IH.
  intros Hnd [<-|(k & Hk & Hi)]%ids_inv.
  - rewrite update_here. cbn [add_child]. rewrite !summaries_unfold. cbn [children].
    rewrite concat_middle. cbn [fmap list_fmap concat]. rewrite app_nil_r. change (summary (mkNode j h d fin (cs ++ [c])))
      with (summary (mkNode j h d fin cs)). rewrite (summaries_unfold c). solve_Permutation.
  - destruct (update_child (add_child c) _ k i Hnd Hk Hi) as (l1 & l2 & E & Hndk & _ & _ & ->).
    rewrite (summaries_unfold (set_children _ _)), (summaries_unfold (mkNode j h d fin cs)), summary_set, children_set, E.
    rewrite !concat_middle, (IH k Hk Hndk Hi). solve_Permutation.
Qed.

Lemma leaf_nodes_inner t : children t <> [] -> leaf_nodes t = concat (leaf_nodes <$> children t).
Proof. destruct t as [i h d f [|c cs]]; done. Qed.

Lemma leaf_nodes_leaf t : children t = [] -> leaf_nodes t = [t].
Proof. destruct t as [i h d f [|c cs]]; done. Qed.

Lemma leaf_below t x : x ∈ leaf_nodes t -> x ∈ nodes t /\ children x = [].
Proof.
  induction t as [i h d f cs IH] using tree_induction. rewrite Forall_forall in IH.
  destruct cs as [|c cs]; [intros ->%list_elem_of_singleton; by split; [apply nodes_self|]|].
  rewrite leaf_nodes_inner by done. rewrite list_elem_of_In, in_concat. cbn [children].
  intros (l & Hl%list_elem_of_In & Hx%list_elem_of_In). apply list_elem_of_fmap in Hl as (k & -> & Hk).
  destruct (IH k Hk Hx). split; [|done]. apply elem_of_nodes. eauto.
Qed.

Lemma leaf_exists t : exists x, x ∈ leaf_nodes t.
Proof.
  induction t as [i h d f cs IH] using tree_induction. destruct cs as [|c cs]; [eexists; by left|].
  apply Forall_cons in IH as [[x Hx] _]. exists x. rewrite leaf_nodes_inner by done. cbn. set_solver.
Qed.

Lemma leaf_summaries_inner t x : children t <> [] ->
  x ∈ leaf_summaries t <-> exists c, c ∈ children t /\ x ∈ leaf_summaries c.
Proof.
  intros Hc. unfold leaf_summaries. rewrite leaf_nodes_inner, fmap_concat, <- list_fmap_compose by done.
  by rewrite elem_of_concat_fmap.
Qed.

Lemma leaf_summaries_ids t x : x ∈ leaf_summaries t -> x.1.1 ∈ ids t.
Proof. intros (n & -> & Hn)%list_elem_of_fmap. by apply ids_elem, leaf_below. Qed.

(** The new leaf is the child, and the node it hangs on is a leaf no more. *)
Lemma leaf_summaries_add c i t x : NoDup (ids t) -> i ∈ ids t -> children c = [] ->
  x ∈ leaf_summaries (update_node (add_child c) i t) <-> x = summary c \/ (x ∈ leaf_summaries t /\ x.1.1 <> i).
Proof.
  intros Hnd Hi Hc. assert (Hleaf : leaf_summaries c = [summary c]) by (unfold leaf_summaries; by rewrite leaf_nodes_leaf).
  revert Hnd Hi. induction t as [j h d fin cs IH] using tree_induction. rewrite Forall_forall in IH.
  intros Hnd [<-|(k & Hk & Hi)]%ids_inv.
  - rewrite update_here. cbn [add_child]. rewrite leaf_summaries_inner by (cbn; by destruct cs). cbn [children].
    destruct cs as [|k cs].
    + split.
      * intros (y & ->%list_elem_of_singleton & Hx). rewrite Hleaf in Hx. left. by apply list_elem_of_singleton.
      * intros [->|(E & Hn)]; [exists c; rewrite Hleaf; split; left|].
        apply list_elem_of_singleton in E as ->. by destruct Hn.
    + rewrite leaf_summaries_inner by done. cbn [children]. setoid_rewrite elem_of_app. split.
      * intros (y & [Hy| ->%list_elem_of_singleton] & Hx);
          [|rewrite Hleaf in Hx; left; by apply list_elem_of_singleton]. right. split; [eauto|].
        intros E. destruct (child_split _ y Hnd Hy) as (_ & _ & _ & _ & Ho & _). apply Ho. rewrite <- E.
        by apply leaf_summaries_ids.
      * intros [->|[(y & Hy & Hx) _]]; [|eauto]. exists c. rewrite Hleaf. split; [right|]; left.
  - destruct (update_child (add_child c) _ k i Hnd Hk Hi) as (l1 & l2 & E & Hndk & _ & Ho & ->).
    rewrite !leaf_summaries_inner by (rewrite ?children_set, ?E; by destruct l1). rewrite children_set, E.
    specialize (IH k Hk Hndk Hi). split.
    + intros (y & [Hy|[->|Hy]%elem_of_cons]%elem_of_app & Hx).
      2: { apply IH in Hx as [->|[Hx Hn]]; [by left|]. right. split; [|done]. exists k. set_solver. }
      all: right; split; [exists y; set_solver|]; intros <-; apply (Ho y ltac:(set_solver) _ Hi); by apply leaf_summaries_ids.
    + intros [->|[(y & [Hy|[->|Hy]%elem_of_cons]%elem_of_app & Hx) Hn]].
      1, 3: exists (update_node (add_child c) i k); split; [set_solver|apply IH; auto].
      all: exists y; set_solver.
Qed.

Lemma summary_add c i t : summary (update_node (add_child c) i t) = summary t.
Proof. destruct t. cbn. by case_decide. Qed.

(** ** Edges *)

(** Every block and its parent are related. *)
Section edges.
Variable R : TreeNode -> TreeNode -> Prop.

Definition edges (t : TreeNode) : Prop := forall a c, a ∈ nodes t -> c ∈ children a -> R a c.

Lemma edges_unfold t : edges t <-> forall c, c ∈ children t -> R t c /\ edges c.
Proof.
  split.
  - intros Hr c Hc. split; [apply Hr; [apply nodes_self|done]|].
    intros a k Ha Hk. apply Hr; [|done]. apply elem_of_nodes. eauto.
  - intros Hr a c [->|(k & Hk & Ha)]%elem_of_nodes Hc; [by apply Hr|]. by apply (Hr k Hk).
Qed.

(** The relation is one of hashes and depths. *)
Hypothesis R_summary : forall a a' c c', summary a = summary a' -> summary c = summary c' -> R a c -> R a' c'.

Lemma edges_add c p t : NoDup (ids t) -> p ∈ nodes t -> edges t -> children c = [] -> R p c ->
  edges (update_node (add_child c) (node_id p) t).
Proof using R_summary.
  intros Hnd Hp Hr Hc Hd. revert Hnd Hp Hr.
  induction t as [j h d fin cs IH] using tree_induction. rewrite Forall_forall in IH.
  intros Hnd [->|(k & Hk & Hp)]%elem_of_nodes Hr; rewrite edges_unfold in Hr.
  - rewrite update_here. apply edges_unfold. cbn [add_child children] in *.
    intros x [Hx| ->%list_elem_of_singleton]%elem_of_app.
    + destruct (Hr x Hx) as [? Hrx]. split; [|done]. by eapply R_summary; [| |eassumption].
    + split; [by eapply R_summary; [| |exact Hd]|]. apply edges_unfold. rewrite Hc. by intros ? ?%elem_of_nil.
  - destruct (update_child (add_child c) _ k (node_id p) Hnd Hk (ids_elem _ _ Hp)) as (l1 & l2 & E & Hndk & _ & _ & ->).
    apply edges_unfold. rewrite children_set. rewrite E in Hr.
    assert (Hself : forall x y, R (mkNode j h d fin cs) x -> summary x = summary y ->
      R (set_children (l1 ++ update_node (add_child c) (node_id p) k :: l2) (mkNode j h d fin cs)) y)
      by (intros x y Hx Hs; by eapply R_summary; [| |exact Hx]).
    assert (Hkeep : forall x, x ∈ l1 ++ k :: l2 -> R (set_children (l1 ++ update_node (add_child c) (node_id p) k :: l2)
      (mkNode j h d fin cs)) x /\ edges x) by (intros x [Hx ?]%Hr; split; [by eapply Hself|done]).
    intros x [Hx|[->|Hx]%elem_of_cons]%elem_of_app; [apply Hkeep, elem_of_app; by left| |apply Hkeep, elem_of_app; by right; right].
    destruct (Hr k) as [? Hrk]; [apply elem_of_app; right; left|].
    split; [eapply Hself; [eassumption|by rewrite summary_add]|by apply IH].
Qed.

End edges.

(** ** Depths *)

(** Blocks are deeper than their parents. *)
Definition rising : TreeNode -> Prop := edges (fun a c => depth a < depth c).

Lemma rising_unfold t : rising t <-> forall c, c ∈ children t -> depth t < depth c /\ rising c.
Proof. apply edges_unfold. Qed.

Lemma rising_below t x : rising t -> x ∈ nodes t -> x = t \/ depth t < depth x.
Proof.
  induction t as [i h d f cs IH] using tree_induction. rewrite Forall_forall in IH.
  rewrite rising_unfold. intros Hr [->|(c & Hc & Hx)]%elem_of_nodes; [by left|]. right.
  destruct (Hr c Hc) as [Hd Hrc]. destruct (IH c Hc Hrc Hx) as [->|?]; lia.
Qed.

Lemma rising_add c p t : NoDup (ids t) -> p ∈ nodes t -> rising t -> children c = [] -> depth p < depth c ->
  rising (update_node (add_child c) (node_id p) t).
Proof. apply edges_add. unfold summary. intros a a' k k' [= _ _ ->] [= _ _ ->]. done. Qed.

(** [TreeMeta] of a subtree finds a deepest leaf. *)
Lemma foldl_deeper l a : (foldl deeper a l = a \/ foldl deeper a l ∈ l) /\ depth a <= depth (foldl deeper a l) /\
  forall x, x ∈ l -> depth x <= depth (foldl deeper a l).
Proof.
  revert a. induction l as [|y l IH]; intros a; cbn; [split_and!; [by left|lia|by intros x ?%elem_of_nil]|].
  assert (depth a <= depth (deeper a y) /\ depth y <= depth (deeper a y) /\ (deeper a y = a \/ deeper a y = y))
    as (Ha & Hy & Hor) by (unfold deeper; destruct (Z.ltb_spec (depth a) (depth y)); split_and!; auto; lia).
  destruct (IH (deeper a y)) as (Hin & Hle & Hall). split_and!; [|lia|].
  - destruct Hin as [->|?]; [|by right; right]. destruct Hor as [->| ->]; [by left|right; left].
  - intros x [->|Hx]%elem_of_cons; [lia|by apply Hall].
Qed.

Lemma deepest_of_spec t : rising t -> deepest_of t ∈ leaf_nodes t /\
  forall x, x ∈ leaf_nodes t -> depth x <= depth (deepest_of t).
Proof.
  intros Hr. unfold deepest_of. destruct (foldl_deeper (leaf_nodes t) t) as ([E|Hin] & _ & Hall); [|done].
  split; [|done]. rewrite E in *. destruct (leaf_exists t) as [x Hx]. destruct (leaf_below t x Hx) as [Hn _].
  destruct (rising_below t x Hr Hn) as [<-|Hlt]; [done|]. specialize (Hall x Hx). lia.
Qed.

(** ** Cutting branches *)

Lemma path_to_sound i t p : path_to i t = Some p -> exists b, branch t p b /\ node_id b = i.
Proof.
  revert p. induction t as [j h d f cs IH] using tree_induction. intros p. cbn. case_decide as Hj.
  { intros [= <-]. eexists. split; [constructor|done]. }
  destruct (first_some (path_to i) cs) as [q|] eqn:Hq; [|done]. intros [= <-].
  assert (exists c b, c ∈ cs /\ branch c q b /\ node_id b = i) as (c & b & Hc & Hb & Hi).
  { clear Hj. induction IH as [|c cs Hc _ IHl]; [done|]. cbn in Hq. destruct (path_to i c) as [q'|].
    - simplify_eq. destruct (Hc q eq_refl) as (b & Hb & Hi). exists c, b. split; [left|done].
    - destruct (IHl Hq) as (c' & b & Hc' & Hb). exists c', b. split; [by right|done]. }
  exists b. split; [by econstructor|done].
Qed.

(** A change of one node on the branch to [i] that keeps the branch below it. *)
Lemma path_update f i x q q' t p : NoDup (ids t) -> x ∈ nodes t ->
  path_to i x = Some q -> path_to i (f x) = Some q' -> node_id <$> q' = node_id <$> q -> path_to i t = Some p ->
  exists p', path_to i (update_node f (node_id x) t) = Some p' /\ node_id <$> p' = node_id <$> p /\ last p' = last q'.
Proof.
  intros Hnd Hx Hq Hq' Hids. revert p Hnd Hx.
  assert (Hix : i ∈ ids x) by (destruct (path_to_sound _ _ _ Hq) as (b & Hb & <-); eauto using ids_elem, branch_below).
  induction t as [j h d fin cs IH] using tree_induction. rewrite Forall_forall in IH.
  intros p Hnd [->|(k & Hk & Hx)]%elem_of_nodes Hp.
  { rewrite update_here. exists q'. by simplify_eq. }
  assert (Hik : i ∈ ids k) by (apply list_elem_of_fmap in Hix as (n & -> & ?); eauto using ids_elem, nodes_trans).
  destruct (update_child f _ k (node_id x) Hnd Hk (ids_elem _ _ Hx)) as (l1 & l2 & E & Hndk & Hj & Ho & ->).
  apply list_elem_of_fmap in Hik as Hb. destruct Hb as (b & Eb & Hb).
  destruct (path_to_branch k b Hndk Hb) as (pk & Hpk & _). rewrite <- Eb in Hpk.
  rewrite (path_to_child _ k i pk Hnd Hk Hpk Hik) in Hp. apply Some_inj in Hp as <-.
  destruct (IH k Hk pk Hndk Hx Hpk) as (pk' & Hpk' & Hids' & Hlast).
  exists (mkNode j h d fin (l1 ++ update_node f (node_id x) k :: l2) :: pk').
  cbn [set_children path_to node_id] in *. rewrite decide_False by congruence.
  rewrite (first_some_split _ l1 _ l2 pk'); [| |done].
  - split_and!; [done|by cbn; f_equal|]. rewrite <- Hlast. apply path_to_sound in Hpk' as (? & Hbr & _).
    by destruct pk'; [inversion Hbr|].
  - intros y Hy. apply path_to_none, Ho; [apply elem_of_app; by left|done].
Qed.

Lemma NoDup_filter_one {A} (f : A -> nat) l1 x l2 : NoDup (f <$> l1 ++ x :: l2) ->
  filter (fun y => f y = f x) (l1 ++ x :: l2) = [x].
Proof.
  intros Hnd. rewrite fmap_app, fmap_cons in Hnd. apply NoDup_app in Hnd as (_ & H1 & [H2 _]%NoDup_cons).
  assert (Hnone : forall l, f x ∉ f <$> l -> filter (fun y => f y = f x) l = []).
  { induction l as [|y l IH]; [done|]. rewrite fmap_cons, not_elem_of_cons. intros [Hy Hl].
    rewrite filter_cons_False by congruence. by apply IH. }
  rewrite filter_app, filter_cons_True, (Hnone l2 H2) by done. rewrite Hnone; [done|].
  intros Hin. apply (H1 _ Hin). left.
Qed.

Lemma branch_path t p b : NoDup (ids t) -> branch t p b -> path_to (node_id b) t = Some p.
Proof.
  intros Hnd Hbr. induction Hbr as [[j h d f cs]|t c l b Hc Hbr IH]; [cbn; by rewrite decide_True|].
  destruct (child_split t c Hnd Hc) as (_ & _ & _ & Hndc & _).
  eapply path_to_child; eauto using ids_elem, branch_below.
Qed.

Lemma ids_update_sub f x t : NoDup (ids t) -> x ∈ nodes t -> ids (f x) `sublist_of` ids x ->
  ids (update_node f (node_id x) t) `sublist_of` ids t.
Proof.
  intros Hnd Hx Hsub. revert Hnd Hx. induction t as [j h d fin cs IH] using tree_induction. rewrite Forall_forall in IH.
  intros Hnd [->|(k & Hk & Hx)]%elem_of_nodes; [by rewrite update_here|].
  destruct (update_child f _ k (node_id x) Hnd Hk (ids_elem _ _ Hx)) as (l1 & l2 & E & Hndk & _ & _ & ->).
  rewrite (ids_unfold (set_children _ _)), (ids_unfold (mkNode j h d fin cs)), node_id_set, children_set, E, !concat_middle.
  apply sublist_skip, sublist_app; [done|]. apply sublist_app; [by apply IH|done].
Qed.

(** A node with its children other than [m] cut off. *)
Definition keep_child (m : nat) (n : TreeNode) : TreeNode :=
  set_children (filter (fun c => node_id c = m) (children n)) n.

Lemma child_ids_NoDup t : NoDup (ids t) -> NoDup (node_id <$> children t).
Proof.
  rewrite ids_unfold, NoDup_cons. intros [_ Hnd]. induction (children t) as [|c cs IH]; [constructor|].
  cbn in Hnd. apply NoDup_app in Hnd as (_ & Hc & Hnd). rewrite fmap_cons. apply NoDup_cons. split; [|by apply IH].
  intros (k & E & Hk)%list_elem_of_fmap. apply (Hc (node_id c)); [apply ids_elem, nodes_self|].
  apply elem_of_concat_fmap. exists k. split; [done|]. rewrite E. apply ids_elem, nodes_self.
Qed.

Lemma keep_child_one x y : NoDup (ids x) -> y ∈ children x -> keep_child (node_id y) x = set_children [y] x.
Proof.
  intros Hnd Hy. unfold keep_child. f_equal. pose proof (child_ids_NoDup x Hnd) as Hc.
  apply list_elem_of_split in Hy as (l1 & l2 & E). rewrite E in *. by apply NoDup_filter_one.
Qed.

Lemma keep_child_sub x y : NoDup (ids x) -> y ∈ children x -> ids (keep_child (node_id y) x) `sublist_of` ids x.
Proof.
  intros Hnd Hy. rewrite keep_child_one by done. apply list_elem_of_split in Hy as (l1 & l2 & E).
  rewrite (ids_unfold (set_children _ _)), (ids_unfold x), node_id_set, children_set, E, concat_middle. cbn.
  rewrite app_nil_r. apply sublist_skip, sublist_inserts_l, sublist_inserts_r. done.
Qed.

Lemma prune_step i t p p1 x y p2 : NoDup (ids t) -> path_to i t = Some p -> p = p1 ++ x :: y :: p2 ->
  let t' := update_node (keep_child (node_id y)) (node_id x) t in
  NoDup (ids t') /\ exists p', path_to i t' = Some p' /\ node_id <$> p' = node_id <$> p /\ last p' = last p.
Proof.
  intros Hnd Hp E t'. destruct (path_to_sound _ _ _ Hp) as (b & Hbr & <-).
  pose proof (branch_suffix _ _ _ p1 x (y :: p2) Hbr E) as Hs.
  assert (Hx : x ∈ nodes t) by (apply (branch_nodes _ _ _ Hbr); rewrite E; apply elem_of_app; right; left).
  pose proof (NoDup_ids_below t x Hnd Hx) as Hndx.
  inversion Hs as [|? c ? ? Hc Hbr']; subst. assert (c = y) as -> by (by inversion Hbr').
  split; [eapply sublist_NoDup; [exact Hnd|]; apply ids_update_sub; [done..|by apply keep_child_sub]|].
  assert (Hq' : branch (set_children [y] x) (set_children [y] x :: y :: p2) b).
  { econstructor; [|exact Hbr']. rewrite children_set. left. }
  assert (Hpath : path_to (node_id b) (keep_child (node_id y) x) = Some (set_children [y] x :: y :: p2)).
  { rewrite keep_child_one by done. apply branch_path; [|done]. rewrite <- keep_child_one by done.
    eapply sublist_NoDup; [exact Hndx|by apply keep_child_sub]. }
  destruct (path_update _ _ x _ _ t _ Hnd Hx (branch_path _ _ _ Hndx Hs) Hpath
    ltac:(by rewrite !fmap_cons, node_id_set) Hp) as (p' & Hp' & Hids & Hlast).
  exists p'. split_and!; [done|done|]. by rewrite Hlast, last_app_cons.
Qed.
