(* ===== verification/BlockTreeSpec.v ===== *)
(** * The block tree against the promises of its storage

    [BlockStoreSpec] is what the tree needs of the storage: its operations
    return, and a stored block gets the hash of its header.  Against it, the
    leaves, the deepest leaf and the last finalized block that the tree keeps
    are those of the tree after every operation, and finalizing a block leaves
    exactly the blocks at or below it.

    A block added to the tree is in the tree and in the key-value storage.  The
    storage in memory keeps the promises of [BlockStoreSpec]; on it the
    operations are run, and what pruning leaves behind is shown. *)

From S2P Require Import Prelude BlockStorage BlockTree BlockTreeProps HierarchicalKey Transactions BlockStorageProps.
Open Scope Z_scope.

Class BlockStoreSpec (St : Type) `{BlockStore St} : Type := {
  st_hash : BlockHeader -> bytes;
  st_inv : St -> Prop;
  law_putBlockHeader h st : st_inv st ->
    runs (st_putBlockHeader h) st (fun r st' => st_inv st' /\ forall x, r = Ok x -> x = st_hash h);
  law_putBlock b st : st_inv st ->
    runs (st_putBlock b) st (fun r st' => st_inv st' /\ forall x, r = Ok x -> x = st_hash (header b));
  law_getJustification b st : st_inv st -> runs (st_getJustification b) st (fun _ st' => st_inv st');
  law_putJustification j h n st : st_inv st -> runs (st_putJustification j h n) st (fun _ st' => st_inv st');
  law_getBlockBody b st : st_inv st -> runs (st_getBlockBody b) st (fun _ st' => st_inv st');
  law_removeBlock h n st : st_inv st -> runs (st_removeBlock h n) st (fun _ st' => st_inv st');
  law_setLastFinalizedBlockHash h st : st_inv st -> runs (st_setLastFinalizedBlockHash h) st (fun _ st' => st_inv st')
}.

Module TreeSpec.
Import BlockTreeImpl.

Section tree.
Context {St : Type} `{BlockStore St}.
Implicit Type s : @BlockTreeImpl.t St.

Record tree_inv (s : @BlockTreeImpl.t St) : Prop := {
  inv_ids : NoDup (ids (tree_ s));
  inv_hashes : NoDup (hashes (tree_ s));
  inv_next : forall i, i ∈ ids (tree_ s) -> (i < next_id s)%nat;
  inv_rising : rising (tree_ s);
  inv_leaves : leaves (tree_meta_ s) = list_to_set (block_hash <$> leaf_nodes (tree_ s));
  inv_deepest : exists n, n ∈ leaf_nodes (tree_ s) /\ node_id n = deepest_leaf (tree_meta_ s) /\
    forall x, x ∈ leaf_nodes (tree_ s) -> depth x <= depth n;
  inv_last : last_finalized (tree_meta_ s) = node_id (tree_ s)
}.

Lemma runs_on_store {A} (m : act St A) s (Q : A -> t -> Prop) :
  runs m (store s) (fun a st => Q a (set_store st s)) -> runs (on_store m) s Q.
Proof. unfold runs, on_store. intros (a & st & -> & HQ). eauto. Qed.

(** Only the storage of an invariant state may change. *)
Lemma inv_set_store st s : tree_inv s -> tree_inv (set_store st s).
Proof. intros []. by split. Qed.

Lemma runs_find s hash (Q : option TreeNode -> t -> Prop) :
  (forall n, n ∈ nodes (tree_ s) -> block_hash n = hash -> Q (Some n) s) ->
  (hash ∉ hashes (tree_ s) -> Q None s) -> runs (find_node hash) s Q.
Proof.
  intros Hs Hn. destruct (getByHash_spec (tree_ s) hash) as (o & Ho & Hspec).
  exists o, s. split; [unfold find_node, mbind, act_bind, gets, lift; by rewrite Ho|].
  destruct o; [by apply Hs; apply Hspec|by apply Hn].
Qed.

Lemma deref_eq s i n : node_at i (tree_ s) = Ok n -> deref i s = Ok (n, s).
Proof. intros E. unfold deref, mbind, act_bind, gets, lift. by rewrite E. Qed.

Lemma runs_deref s i n (Q : TreeNode -> t -> Prop) : node_at i (tree_ s) = Ok n -> Q n s -> runs (deref i) s Q.
Proof. intros E HQ. exists n, s. split; [by apply deref_eq|done]. Qed.

(** ** Adding a block *)

Lemma node_of_summary t i h d : NoDup (ids t) -> (i, h, d) ∈ summaries t ->
  exists n, node_at i t = Ok n /\ node_id n = i /\ depth n = d.
Proof.
  intros Hnd (n & E & Hn)%list_elem_of_fmap. injection E as -> -> ->.
  exists n. by rewrite node_at_elem.
Qed.

Lemma list_to_set_summaries t : list_to_set (block_hash <$> leaf_nodes t) =@{gset bytes}
  list_to_set ((fun x => x.1.2) <$> leaf_summaries t).
Proof. unfold leaf_summaries. by rewrite <- list_fmap_compose. Qed.

Section add.
Variables (s : @BlockTreeImpl.t St) (p : TreeNode) (hash : bytes) (n : Z).
Hypothesis Hinv : tree_inv s.
Hypothesis Hp : p ∈ nodes (tree_ s).
Hypothesis Hn : depth p < n.
Hypothesis Hfresh : hash ∉ hashes (tree_ s).

Let c := mkNode (next_id s) hash n false [].
Let tree' := update_node (add_child c) (node_id p) (tree_ s).

Lemma added_summaries : summaries tree' ≡ₚ summary c :: summaries (tree_ s).
Proof using Hinv Hp. unfold tree'. rewrite summaries_add; [done|apply Hinv|by apply ids_elem]. Qed.

Lemma added_ids : NoDup (ids tree').
Proof using Hinv Hp.
  rewrite ids_summaries, added_summaries, fmap_cons. apply NoDup_cons. rewrite <- ids_summaries. split; [|apply Hinv].
  intros Hi%(inv_next s Hinv). cbn in Hi. lia.
Qed.

Lemma added_hashes : NoDup (hashes tree').
Proof using Hinv Hp Hfresh.
  rewrite hashes_summaries, added_summaries, fmap_cons. apply NoDup_cons. rewrite <- hashes_summaries.
  split; [done|apply Hinv].
Qed.

Lemma added_leaf x : x ∈ leaf_summaries tree' <-> x = summary c \/ (x ∈ leaf_summaries (tree_ s) /\ x.1.1 <> node_id p).
Proof using Hinv Hp. apply leaf_summaries_add; [apply Hinv|by apply ids_elem|done]. Qed.

(** A leaf is the parent when it has its hash. *)
Lemma leaf_is_parent x : x ∈ leaf_summaries (tree_ s) -> (x.1.1 = node_id p <-> x.1.2 = block_hash p).
Proof using Hinv Hp.
  intros (m & -> & Hm)%list_elem_of_fmap. apply leaf_below in Hm as [Hm _]. cbn. split; intros E.
  - by rewrite (NoDup_fmap_eq node_id _ m p (inv_ids s Hinv) Hm Hp E).
  - by rewrite (NoDup_fmap_eq block_hash _ m p (inv_hashes s Hinv) Hm Hp E).
Qed.

Lemma added_leaves : ({[hash]} ∪ leaves (tree_meta_ s)) ∖ {[block_hash p]} =@{gset bytes}
  list_to_set (block_hash <$> leaf_nodes tree').
Proof using All.
  rewrite (inv_leaves s Hinv), !list_to_set_summaries. apply set_eq. intros h.
  rewrite elem_of_difference, elem_of_union, !elem_of_singleton, !elem_of_list_to_set, !list_elem_of_fmap.
  assert (Hph : hash <> block_hash p) by (intros ->; apply Hfresh, list_elem_of_fmap; eauto).
  setoid_rewrite added_leaf. split.
  - intros [[->|(x & -> & Hx)] Hne]; [exists (summary c); auto|]. exists x. split; [done|]. right. split; [done|].
    by rewrite leaf_is_parent.
  - intros (x & -> & [->|[Hx Hne]]); [by split; [left|]|]. split; [eauto|]. by rewrite leaf_is_parent in Hne.
Qed.

Lemma added_deepest m : m ∈ leaf_nodes (tree_ s) -> (forall x, x ∈ leaf_nodes (tree_ s) -> depth x <= depth m) ->
  exists k, k ∈ leaf_nodes tree' /\ node_id k = (if depth m <? n then next_id s else node_id m) /\
    forall x, x ∈ leaf_nodes tree' -> depth x <= depth k.
Proof using Hinv Hp Hn.
  intros Hm Hmax.
  assert (Hle : forall x, x ∈ leaf_summaries tree' -> x.2 <= Z.max n (depth m)).
  { intros x [->|[(y & -> & Hy)%list_elem_of_fmap _]]%added_leaf; cbn; [lia|]. specialize (Hmax y Hy). lia. }
  assert (Hk : (if depth m <? n then summary c else summary m) ∈ leaf_summaries tree').
  { apply added_leaf. destruct (Z.ltb_spec (depth m) n); [by left|]. right.
    split; [apply list_elem_of_fmap; eauto|]. intros E. cbn in E. apply leaf_below in Hm as [Hm _].
    rewrite (NoDup_fmap_eq node_id _ m p (inv_ids s Hinv) Hm Hp E) in *. lia. }
  apply list_elem_of_fmap in Hk as (k & E & Hk). exists k. split; [done|].
  assert (depth k = Z.max n (depth m) /\ node_id k = if depth m <? n then next_id s else node_id m) as [Hd Hid].
  { destruct (Z.ltb_spec (depth m) n); injection E as E1 E2 E3; split; lia. }
  split; [done|]. intros x Hx. rewrite Hd. apply (Hle (summary x)), list_elem_of_fmap. eauto.
Qed.

Lemma append_node_inv st : runs (append_node p hash n) (set_store st s) (fun _ s' =>
  tree_inv s' /\ tree_ s' = tree' /\ store s' = st).
Proof using All.
  destruct (inv_deepest s Hinv) as (m & Hm & Em & Hmax).
  assert (Hms : summary m ∈ summaries tree').
  { rewrite added_summaries. right. apply list_elem_of_fmap. exists m. split; [done|by apply leaf_below]. }
  destruct (node_of_summary tree' _ _ _ added_ids Hms) as (m' & Hat & Eid & Ed).
  unfold append_node. apply runs_bind, runs_gets, runs_bind, runs_modify, runs_bind, runs_gets, runs_bind.
  cbn. rewrite <- Em. apply (runs_deref _ _ m'); [done|]. apply runs_modify.
  destruct (added_deepest m Hm Hmax) as (k & Hk & Ek & Hkmax). split; [|done]. split; cbn.
  - apply added_ids.
  - apply added_hashes.
  - intros i. change (i ∈ ids tree' -> (i < S (next_id s))%nat). rewrite ids_summaries, added_summaries, fmap_cons.
    rewrite <- ids_summaries. intros [->|Hi]%elem_of_cons; [cbn; lia|]. apply (inv_next s Hinv) in Hi. lia.
  - by apply rising_add; [apply Hinv|done|apply Hinv| |].
  - apply added_leaves.
  - exists k. split_and!; [done| |done]. by rewrite Ek, Ed.
  - rewrite (inv_last s Hinv). destruct (tree_ s). cbn. by case_decide.
Qed.

End add.

(** ** Finalizing a block *)

Lemma prune_loop_path i main up tree p rest : NoDup (ids tree) -> path_to i tree = Some p ->
  node_id <$> p = reverse (node_id <$> up) ++ node_id main :: rest ->
  exists p', path_to i (prune_loop main up tree).1 = Some p' /\ last p' = last p.
Proof.
  revert main tree p rest. induction up as [|parent up IH]; intros main tree p rest Hnd Hp Hids; cbn; [eauto|].
  destruct (finalized parent); cbn; [eauto|].
  rewrite fmap_cons, reverse_cons, <- (assoc_L (++)) in Hids. cbn in Hids.
  pose proof Hids as (p1 & q & E1 & E2 & ->)%fmap_app_inv.
  destruct q as [|x [|y p2]]; [done..|]. injection E2 as Ex Ey E2.
  destruct (prune_step i tree _ p1 x y p2 Hnd Hp eq_refl) as (Hnd' & p' & Hp' & Hi' & Hl').
  rewrite <- Ex, <- Ey in *. destruct (prune_loop parent up _) as [t' l] eqn:Hloop. cbn.
  edestruct (IH parent) as (p'' & Hp'' & Hl''); [exact Hnd'|exact Hp'|by rewrite Hi', Hids, Ex|].
  unfold keep_child in Hp''. rewrite Hloop in Hp''. exists p''. split; [done|congruence].
Qed.

Lemma finalized_tree t n : NoDup (ids t) -> n ∈ nodes t ->
  let t1 := update_node set_finalized (node_id n) t in
  node_at (node_id n) (prune_loop n (tail (upwards (node_id n) t1)) t1).1 = Ok (set_finalized n).
Proof.
  intros Hnd Hn t1. destruct (path_to_branch t n Hnd Hn) as (p & Hp & _).
  pose proof (NoDup_ids_below t n Hnd Hn) as Hndn.
  assert (Hid : node_id (set_finalized n) = node_id n) by (by destruct n).
  assert (Hnd1 : NoDup (ids t1)).
  { eapply sublist_NoDup; [exact Hnd|]. apply ids_update_sub; [done..|]. destruct n. done. }
  assert (Hself : forall m, path_to (node_id m) m = Some [m]) by (intros []; cbn; by rewrite decide_True).
  destruct (path_update set_finalized (node_id n) n [n] [set_finalized n] t p Hnd Hn (Hself n)) as (p1 & Hp1 & _ & Hl1).
  { rewrite <- Hid at 1. apply Hself. }
  { cbn. by rewrite Hid. }
  { done. }
  fold t1 in Hp1. cbn in Hl1. apply last_Some in Hl1 as [p' ->].
  assert (Hup : tail (upwards (node_id n) t1) = reverse p') by (unfold upwards; rewrite Hp1; cbn [from_option id]; by rewrite reverse_snoc).
  rewrite Hup. destruct (prune_loop_path (node_id n) n (reverse p') t1 _ [] Hnd1 Hp1) as (p'' & Hp'' & Hl'').
  { by rewrite fmap_app, fmap_reverse, reverse_involutive; cbn; rewrite Hid. }
  rewrite last_snoc in Hl''. apply last_Some in Hl'' as [q ->].
  unfold node_at, upwards. rewrite Hp''. cbn [from_option id]. by rewrite reverse_snoc.
Qed.

Lemma summaries_finalized n : summaries (set_finalized n) = summaries n.
Proof. destruct n. done. Qed.

Lemma leaf_summaries_finalized n : leaf_summaries (set_finalized n) = leaf_summaries n.
Proof. destruct n as [i h d f [|c cs]]; done. Qed.

Lemma rising_finalized n : rising n -> rising (set_finalized n).
Proof. rewrite !rising_unfold. by destruct n. Qed.

Lemma NoDup_hashes_below t n : NoDup (hashes t) -> n ∈ nodes t -> NoDup (hashes n).
Proof.
  induction t as [i h d f cs IH] using tree_induction. rewrite Forall_forall in IH. unfold hashes. rewrite nodes_unfold.
  cbn. intros Hnd [->|Hn]%elem_of_cons; [by unfold hashes; rewrite nodes_unfold|].
  apply NoDup_cons in Hnd as [_ Hnd]. apply elem_of_below in Hn as (c & Hc & Hn). apply (IH c Hc); [|done].
  rewrite fmap_concat, <- list_fmap_compose in Hnd. apply list_elem_of_split in Hc as (l1 & l2 & ->).
  by apply (NoDup_concat_split (fun x => block_hash <$> nodes x) l1 c l2) in Hnd as [? _].
Qed.

Lemma new_tree_inv s n st obs : tree_inv s -> n ∈ nodes (tree_ s) ->
  tree_inv (mk (set_finalized n) (NewTreeMeta (set_finalized n)) st obs (next_id s)).
Proof.
  intros Hinv Hn. assert (Hr : rising (set_finalized n)).
  { apply rising_finalized. intros a c Ha Hc. apply (inv_rising s Hinv); [by eapply nodes_trans|done]. }
  destruct (deepest_of_spec _ Hr) as [Hd Hmax]. split; cbn [tree_ tree_meta_ store next_id]; [| | |done|done|by exists (deepest_of (set_finalized n))|done].
  - rewrite ids_summaries, summaries_finalized, <- ids_summaries. eapply NoDup_ids_below; [apply Hinv|done].
  - rewrite hashes_summaries, summaries_finalized, <- hashes_summaries. eapply NoDup_hashes_below; [apply Hinv|done].
  - intros i. rewrite ids_summaries, summaries_finalized, <- ids_summaries.
    intros (m & -> & Hm)%list_elem_of_fmap. apply (inv_next s Hinv), ids_elem. by eapply nodes_trans.
Qed.

End tree.

(** ** The operations over a storage that keeps its promises *)

Section spec.
Context {St : Type} `{BlockStoreSpec St}.
Implicit Type s : @BlockTreeImpl.t St.

(** The storage refuses no change that finalizing makes. *)
Definition writes_succeed : Prop := forall st, st_inv st ->
  (forall j h n, runs (st_putJustification j h n) st (fun r _ => r = Ok tt)) /\
  (forall h n, runs (st_removeBlock h n) st (fun r _ => r = Ok tt)) /\
  (forall h, runs (st_setLastFinalizedBlockHash h) st (fun r _ => r = Ok tt)).

(** The tree and the storage are in order. *)
Definition in_order s : Prop := tree_inv s /\ st_inv (store s).

Lemma remove_loop_returns l ex s : st_inv (store s) -> runs (remove_loop l ex) s (fun r s' =>
  st_inv (store s') /\ (exists st, s' = set_store st s) /\ (writes_succeed -> exists ex', r = Ok ex')).
Proof.
  revert ex s. induction l as [|[hash n] l IH]; intros ex s Hst; cbn.
  { apply runs_ret. split_and!; [done| |eauto]. exists (store s). by destruct s. }
  apply runs_bind, runs_on_store. eapply runs_mono; [by apply law_getBlockBody|]. intros r st1 H1.
  assert (Hrm : runs (st_removeBlock hash n) st1 (fun r st2 => st_inv st2 /\ (writes_succeed -> r = Ok tt))).
  { destruct (law_removeBlock hash n st1 H1) as (a & st2 & E & H2). exists a, st2. split_and!; [done..|].
    intros Hw. destruct (Hw st1 H1) as (_ & Hrm & _). destruct (Hrm hash n) as (a' & st2' & E' & ->). congruence. }
  apply runs_try, runs_on_store. eapply runs_mono; [exact Hrm|]. intros [[]|e] st2 [H2 Hw].
  - eapply runs_mono; [by apply IH|]. intros r' s' (? & (st & ->) & ?). split_and!; [done|by exists st|done].
  - split_and!; [done|by exists st2|]. intros ?%Hw. done.
Qed.

Lemma prune_returns n s : st_inv (store s) -> runs (prune n) s (fun r s' =>
  st_inv (store s') /\ next_id s' = next_id s /\
  tree_ s' = (prune_loop n (tail (upwards (node_id n) (tree_ s))) (tree_ s)).1 /\ (writes_succeed -> r = Ok tt)).
Proof.
  intros Hst. unfold prune. apply runs_bind, runs_gets. destruct (prune_loop _ _ _) as [t' l] eqn:E.
  apply runs_bind, runs_modify, runs_try. eapply runs_mono; [by apply remove_loop_returns|].
  intros [ex|e] s' (Hs' & (st & ->) & Hw).
  - apply runs_bind, runs_modify, runs_ret. done.
  - split_and!; [done..|]. intros [ex ?]%Hw. done.
Qed.

(** Finalizing a block that has no justification yet. *)
Definition finalized_at (n : TreeNode) s' : Prop := in_order s' /\ tree_ s' = set_finalized n.

Lemma finalize_new n j s e st1 : tree_inv s -> n ∈ nodes (tree_ s) ->
  st_getJustification (ByHash (block_hash n)) (store s) = Ok (Err e, st1) -> st_inv st1 ->
  runs (finalize (block_hash n) j) s (fun r s' => (r = Ok tt -> finalized_at n s') /\ (writes_succeed -> r = Ok tt)).
Proof.
  intros Hinv Hn Hj H1. unfold finalize. apply runs_bind, runs_find.
  2: { intros []. apply list_elem_of_fmap. eauto. }
  intros m Hm Em. rewrite (NoDup_fmap_eq block_hash _ m n (inv_hashes s Hinv) Hm Hn Em). clear m Hm Em.
  apply runs_bind, runs_on_store. exists (Err e), st1. split; [done|].
  apply runs_try, runs_on_store.
  destruct (law_putJustification j (block_hash n) (depth n) st1 H1) as (r2 & st2 & E2 & H2).
  exists r2, st2. split; [done|]. destruct r2 as [[]|e2].
  2: { split; [done|]. intros Hw. destruct (Hw st1 H1) as [Hput _].
       destruct (Hput j (block_hash n) (depth n)) as (? & ? & ? & ->). congruence. }
  apply runs_bind, runs_modify, runs_try. eapply runs_mono; [by apply prune_returns|].
  intros [[]|e3] s3 (H3 & Hnext & Htree & Hw3); cbn in Hnext, Htree.
  2: { split; [done|]. intros ?%Hw3. done. }
  apply runs_bind, (runs_deref _ _ (set_finalized n)); [rewrite Htree; apply finalized_tree; [apply Hinv|done]|].
  apply runs_bind, runs_modify, runs_try, runs_on_store. cbn.
  destruct (law_setLastFinalizedBlockHash (block_hash n) (store s3) H3) as (r4 & st4 & E4 & H4).
  exists r4, st4. split; [done|]. destruct r4 as [[]|e4].
  - apply runs_ret. split; [|done]. intros _. split; [|done].
    split; [|done]. pose proof (new_tree_inv s n st4 (observed s3) Hinv Hn) as Hnew. rewrite <- Hnext in Hnew. exact Hnew.
  - split; [done|]. intros Hw. destruct (Hw _ H3) as (_ & _ & Hset). destruct (Hset (block_hash n)) as (? & ? & ? & ->).
    congruence.
Qed.

(** ** Theorems *)

Inductive operation : Type :=
  | AddBlockHeader (h : BlockHeader)
  | AddBlock (b : Block)
  | Finalize (block justification : bytes).

Definition run_op (o : operation) : act t (outcome unit) :=
  match o with
  | AddBlockHeader h => addBlockHeader h
  | AddBlock b => addBlock b
  | Finalize block j => finalize block j
  end.

(** A new block: not in the tree, and with a number past its parent's. *)
Definition new_block s (h : BlockHeader) : Prop := st_hash h ∉ hashes (tree_ s) /\
  forall p, p ∈ nodes (tree_ s) -> block_hash p = parent_hash h -> depth p < number h.

Definition op_valid s (o : operation) : Prop :=
  match o with
  | AddBlockHeader h => new_block s h
  | AddBlock b => new_block s (header b)
  | Finalize _ _ => True
  end.

Definition adds (o : operation) : Prop := match o with Finalize _ _ => False | _ => True end.

Lemma add_inv s h (m : act St (outcome bytes)) : in_order s -> new_block s h ->
  runs m (store s) (fun r st' => st_inv st' /\ forall x, r = Ok x -> x = st_hash h) ->
  runs (parent ← find_node (parent_hash h);
        match parent with
        | None => fail NO_PARENT
        | Some parent => TRY block_hash ← on_store m; append_node parent block_hash (number h);; mret (Ok tt)
        end) s (fun _ s' => in_order s').
Proof.
  intros [Hinv Hs] [Hfresh Hdepth] Hm. apply runs_bind, runs_find; [|intros _; by apply runs_ret].
  intros p Hp Ep. apply runs_try, runs_on_store. eapply runs_mono; [exact Hm|].
  intros [x|e] st [Hst Hx]; [|by split; [apply inv_set_store|]]. rewrite (Hx x eq_refl).
  apply runs_bind. eapply runs_mono; [apply (append_node_inv s); auto|]. intros ? s' (Hi & _ & Est). apply runs_ret.
  split; [done|by rewrite Est].
Qed.

(** C32. Whatever new blocks are added, with or without their bodies, and
    whatever is finalized, the set of leaves is exactly the hashes of the leaves
    of the tree, the deepest leaf is a leaf that no other leaf is deeper than,
    the last finalized block is the root, and no block or node occurs twice.
    An addition that fails keeps this too; finalizing does when it succeeds. *)
Theorem tree_meta_exact (o : operation) (s : t) : in_order s -> op_valid s o ->
  runs (run_op o) s (fun r s' => r = Ok tt \/ adds o -> in_order s').
Proof.
  intros Hs. pose proof Hs as [Hinv Hst]. destruct o as [h|b|block j]; cbn [op_valid run_op]; intros Hv.
  - eapply runs_mono; [apply (add_inv s h); [done|done|by apply law_putBlockHeader]|]. by intros.
  - eapply runs_mono; [apply (add_inv s (header b)); [done|done|by apply law_putBlock]|]. by intros.
  - destruct (decide (block ∈ hashes (tree_ s))) as [(n & -> & Hn)%list_elem_of_fmap|Hno].
    + destruct (law_getJustification (ByHash (block_hash n)) (store s) Hst) as ([y|e] & st1 & E & H1).
      * exists (Ok tt), (set_store st1 s). split; [|by intros _; split; [apply inv_set_store|]].
        unfold finalize, mbind, act_bind. rewrite (Chains.find_node_found s n) by (apply Hinv || done).
        unfold on_store. by rewrite E.
      * eapply runs_mono; [by eapply finalize_new|]. intros r s' [Hr _] [Hok|[]]. by apply Hr.
    + apply runs_bind, runs_find; [intros n Hn <-; destruct Hno; by apply list_elem_of_fmap; eauto|].
      intros _. apply runs_ret. by intros [?|[]].
Qed.

(** C33. Finalizing a block of the tree that has no justification yet makes it
    the last finalized block and the root: the blocks of the light tree are then
    exactly those at or below it, in the same shape, and the leaves and the
    deepest leaf are theirs.  It succeeds when the storage takes the changes. *)
Theorem finalize_keeps_subtree (n : TreeNode) (justification : bytes) (s : t) (e : error) (st1 : St) :
  writes_succeed -> tree_inv s -> n ∈ nodes (tree_ s) ->
  st_getJustification (ByHash (block_hash n)) (store s) = Ok (Err e, st1) -> st_inv st1 ->
  runs (finalize (block_hash n) justification) s (fun r s' =>
    r = Ok tt /\ tree_ s' = set_finalized n /\ in_order s' /\
    getLastFinalized s' = Ok ((depth n, block_hash n), s') /\
    forall h, (exists m, getByHash (tree_ s') h = Ok (Some m)) <-> h ∈ hashes n).
Proof.
  intros Hw Hinv Hn Hj H1. eapply runs_mono; [by eapply finalize_new|]. intros r s' [Hfin Hok].
  destruct (Hfin (Hok Hw)) as [[Hinv' Hst'] Ht]. split; [by apply Hok|]. split; [done|]. split; [done|]. split.
  - unfold getLastFinalized, mbind, act_bind, gets. rewrite (inv_last s' Hinv').
    rewrite (deref_eq s' _ (tree_ s')) by (apply node_at_elem; [apply Hinv'|apply nodes_self]). rewrite Ht. by destruct n.
  - intros h. rewrite Ht. assert (E : hashes (set_finalized n) = hashes n)
      by (by rewrite hashes_summaries, summaries_finalized, <- hashes_summaries).
    destruct (getByHash_spec (set_finalized n) h) as ([m|] & -> & Hspec); rewrite <- E.
    + destruct Hspec as [Hm <-]. split; [intros _; apply list_elem_of_fmap|]; eauto.
    + split; [by intros [? ?]|done].
Qed.

End spec.
End TreeSpec.

(** ** The block tree over the key-value storage, and over one in memory *)

Import BlockTreeImpl TreeSpec.


(** ** The key-value storage *)

Section kv.
Context {S : Type} `{!KeyValueDB S, !KeyValueLaws S}.
Context {blockslib : BlocksLib} {blocksspec : BlocksSpec}.
Variable net_id : bytes.

#[local] Instance kv_store : BlockStore S := kv_block_store net_id.

(** A new block whose parent is in the tree is added: it is then a leaf of
    the tree with its number as depth, its header is read by its hash and its
    body by its number from the same database, and the tree is in order. *)
Theorem added_block_known (b : Block) (p : TreeNode) (s : BlockTreeImpl.t) :
  tree_inv s -> p ∈ nodes (tree_ s) -> block_hash p = parent_hash (header b) -> depth p < number (header b) ->
  block_hash_of (header b) ∉ hashes (tree_ s) -> header_wf (header b) ->
  db_map (store s) !! hash_key (block_hash_of (header b)) = None -> no_raw net_id (store s) ->
  runs (addBlock b) s (fun r s' =>
    r = Ok tt /\ tree_inv s' /\ no_raw net_id (store s') /\
    block_hash_of (header b) ∈ leaves (tree_meta_ s') /\
    (exists n, getByHash (tree_ s') (block_hash_of (header b)) = Ok (Some n) /\ depth n = number (header b)) /\
    runs (getBlockHeader (ByHash (block_hash_of (header b)))) s' (fun r _ => r = Ok (stored_header (header b))) /\
    runs (getBlockBody (ByNumber (number (header b)))) s' (fun r _ => r = Ok (body b))).
Proof using All.
  intros Hinv Hp Ep Hd Hfresh Hwf Hnone Hraw. unfold addBlock. rewrite <- Ep.
  apply runs_bind, runs_find; [|intros []; apply list_elem_of_fmap; eauto]. intros q Hq Eq.
  rewrite (NoDup_fmap_eq block_hash _ q p (inv_hashes s Hinv) Hq Hp Eq). clear q Hq Eq.
  apply runs_try, runs_on_store. eapply runs_mono; [by apply putBlock_spec|]. intros r st [-> Hst].
  pose proof (with_block_header net_id b _ st Hwf Hst) as Hhas.
  apply runs_bind. eapply runs_mono; [apply (append_node_inv s p); [done..]|]. intros _ s' (Hinv' & Ht & Es). apply runs_ret.
  set (c := mkNode (next_id s) (block_hash_of (header b)) (number (header b)) false []) in *.
  assert (Hleaf : summary c ∈ leaf_summaries (tree_ s')) by (rewrite Ht; apply added_leaf; auto).
  apply list_elem_of_fmap in Hleaf as (n & E & Hn). injection E as Eid Eh Ed.
  split_and!; [done|done| | | | |]; rewrite ?Es.
  - eapply no_raw_with_block; [apply Hwf|exact Hst|done].
  - rewrite (inv_leaves s' Hinv'), elem_of_list_to_set, list_elem_of_fmap. eauto.
  - exists n. split; [|done]. rewrite Eh. apply getByHash_found; [apply Hinv'|by apply leaf_below].
  - apply runs_on_store. rewrite Es. by apply (getBlockHeader_hash net_id (header b)); [done|apply Hhas..|].
  - apply runs_on_store. rewrite Es. eapply runs_mono; [apply (getBlockBody_number net_id _ b st Hwf)|by intros ? ? [-> _]].
    rewrite Hst. unfold with_block. by rewrite lookup_insert_eq.
Qed.

End kv.

(** ** A storage in memory *)

Module MemoryBlocks.

Record t : Type := mk {
  headers : gmap bytes BlockHeader;
  bodies : gmap bytes (list bytes);
  justifications : gmap bytes bytes;
  last : bytes
}.

Definition hash_of (h : BlockHeader) : bytes := state_root h.

Definition find {A} (f : t -> gmap bytes A) (b : BlockId) : act t (outcome A) := gets (fun s =>
  match b with ByHash h => ok_or block_not_found (f s !! h) | ByNumber _ => Err block_not_found end).

Definition put_header (h : BlockHeader) : act t (outcome bytes) := fun s =>
  Ok (Ok (hash_of h), mk (<[hash_of h := h]> (headers s)) (bodies s) (justifications s) (last s)).

Definition put_body (h : bytes) (l : list bytes) : act t (outcome unit) := fun s =>
  Ok (Ok tt, mk (headers s) (<[h := l]> (bodies s)) (justifications s) (last s)).

#[export] Instance memory_blocks : BlockStore t := {
  st_getBlockHeader := find headers;
  st_getBlockBody := find bodies;
  st_getJustification := find justifications;
  st_putBlockHeader := put_header;
  st_putBlock b := TRY h ← put_header (header b); TRY _ ← put_body h (body b); mret (Ok h);
  st_putBlockData _ d := put_body (bd_hash d) (default [] (bd_body d));
  st_putJustification j h _ := fun s =>
    Ok (Ok tt, mk (headers s) (bodies s) (<[h := j]> (justifications s)) (last s));
  st_removeBlock h _ := fun s =>
    Ok (Ok tt, mk (delete h (headers s)) (delete h (bodies s)) (delete h (justifications s)) (last s));
  st_setLastFinalizedBlockHash h := fun s => Ok (Ok tt, mk (headers s) (bodies s) (justifications s) h);
  st_getNumberByHash h := TRY x ← find headers (ByHash h); mret (Ok (number x));
  st_getHashByNumber n := gets (fun s =>
    ok_or block_not_found (fst <$> head (filter (fun x => number x.2 = n) (map_to_list (headers s)))));
  st_getHashById b := mret (match b with ByHash h => Ok h | ByNumber _ => Err block_not_found end)
}.

Ltac returned := unfold runs; cbn; eauto 10.

#[export] Instance memory_blocks_spec : BlockStoreSpec t.
Proof.
  refine {| st_hash := hash_of; st_inv _ := True |}; intros; try (by returned).
  all: eexists _, _; split; [reflexivity|]; split; [done|]; intros x [= <-]; done.
Defined.

Lemma memory_writes : writes_succeed (St := t).
Proof. intros st _. split_and!; intros; returned. Qed.

End MemoryBlocks.

(** ** What is run on it *)

Module DemoTree.
Import MemoryBlocks.

Definition blk (parent hash : string) (n : Z) (txs : list bytes) : Block :=
  mkBlock (mkHeader (str parent) n (str hash) [] []) txs.

Definition root : TreeNode := mkNode 0 (str "r") 0 true [].
Definition start : BlockTreeImpl.t := BlockTreeImpl.mk root (NewTreeMeta root) (MemoryBlocks.mk ∅ ∅ ∅ []) [] 1.

Fixpoint run (l : list operation) (s : BlockTreeImpl.t) : BlockTreeImpl.t :=
  match l with
  | [] => s
  | o :: l' => match run_op o s with Ok (_, s') => run l' s' | Err _ => s end
  end.

(** The root with the chains [a], [b] and [c], [d]. *)
Definition forked : BlockTreeImpl.t := run
  [AddBlock (blk "r" "a" 1 []); AddBlock (blk "r" "c" 1 [str "tx"]); AddBlock (blk "a" "b" 2 []);
   AddBlock (blk "c" "d" 2 [str "ty"])] start.

Definition node_b : TreeNode := mkNode 3 (str "b") 2 false [].
Definition node_d : TreeNode := mkNode 4 (str "d") 2 false [].
Definition node_a : TreeNode := mkNode 1 (str "a") 1 false [node_b].
Definition node_c : TreeNode := mkNode 2 (str "c") 1 false [node_d].

Lemma forked_tree : tree_ forked = mkNode 0 (str "r") 0 true [node_a; node_c].
Proof. vm_compute. reflexivity. Qed.

Ltac by_decision := apply (bool_decide_unpack _); vm_compute; exact I.

Lemma forked_inv : tree_inv forked.
Proof.
  split.
  - by_decision.
  - by_decision.
  - apply Forall_forall. by_decision.
  - assert (F : Forall (fun a => Forall (fun c => depth a < depth c) (children a)) (nodes (tree_ forked))) by by_decision.
    rewrite Forall_forall in F. intros a c Ha Hc. specialize (F a Ha). rewrite Forall_forall in F. by apply F.
  - vm_compute. reflexivity.
  - exists node_b. rewrite forked_tree. split_and!; [left|reflexivity|]. apply Forall_forall. by_decision.
  - reflexivity.
Qed.

Lemma forked_in_order : in_order forked.
Proof. split; [exact forked_inv|done]. Qed.

Lemma node_a_in : node_a ∈ nodes (tree_ forked).
Proof. rewrite forked_tree. right. left. Qed.

Lemma node_b_in : node_b ∈ nodes (tree_ forked).
Proof. rewrite forked_tree. right. right. left. Qed.

Lemma chain_is_branch_witness :
  (exists l, branch node_a l node_b /\
     getChainByBlocks 0 (str "a") (str "b") forked = Ok (Ok (block_hash <$> l), forked) /\
     hasDirectChain 0 (str "a") (str "b") forked = Ok (true, forked)) /\
  getChainByBlocks 0 (str "b") (str "a") forked = Ok (Err (block_tree_error INCORRECT_ARGS), forked).
Proof.
  split.
  - apply (Chains.chain_is_branch forked node_a node_b 0 (inv_ids _ forked_inv) (inv_hashes _ forked_inv) node_a_in node_b_in).
    right. left.
  - apply (Chains.chain_is_branch forked node_b node_a 0 (inv_ids _ forked_inv) (inv_hashes _ forked_inv) node_b_in node_a_in).
    intros E%list_elem_of_singleton. discriminate E.
Defined.

Lemma tree_meta_exact_witness :
  runs (run_op (AddBlock (blk "b" "e" 3 []))) forked (fun r s' => r = Ok tt \/ True -> in_order s') /\
  runs (run_op (Finalize (str "a") [])) forked (fun r s' => r = Ok tt \/ False -> in_order s').
Proof.
  split; apply tree_meta_exact; [exact forked_in_order| |exact forked_in_order|exact I].
  split; [by_decision|].
  assert (F : Forall (fun p => block_hash p = str "b" -> depth p < 3) (nodes (tree_ forked))) by by_decision.
  by rewrite Forall_forall in F.
Defined.

Lemma finalize_keeps_subtree_witness :
  runs (finalize (str "a") (str "j")) forked (fun r s' =>
    r = Ok tt /\ tree_ s' = set_finalized node_a /\ in_order s' /\
    getLastFinalized s' = Ok ((1, str "a"), s') /\
    forall h, (exists m, getByHash (tree_ s') h = Ok (Some m)) <-> h ∈ hashes node_a).
Proof.
  apply (finalize_keeps_subtree node_a (str "j") forked block_not_found (store forked) memory_writes forked_inv node_a_in);
    [vm_compute; reflexivity|exact I].
Defined.

(** ** What pruning leaves *)

(** The block [d] is not in the tree any more after [a] is finalized, and is
    still in the storage; its extrinsics and those of [c] are not handed back.
    The root is finalized, so its other children are never collected. *)
Theorem prune_forgets_root_branches :
  match finalize (str "a") [] forked with
  | Ok (r, s) => r = Ok tt /\ getByHash (tree_ s) (str "d") = Ok None /\ observed s = [] /\
      is_Some (headers (store s) !! str "c") /\ is_Some (headers (store s) !! str "d")
  | Err _ => False
  end.
Proof. vm_compute. eauto 10. Qed.

(** Below a node with one child, the node is collected and the end of the chain
    is not, whatever the blocks are. *)
Theorem collect_misses_tip (i j : nat) (h k : bytes) (d e : Z) (f g : bool) :
  collectDescendants (mkNode i h d f [mkNode j k e g []]) = [(h, d)].
Proof. reflexivity. Qed.

End DemoTree.

(** ** The key-value storage, run *)

Module DemoKv.
Import DemoBlocks.

Definition created (st : gmap bytes bytes) : BlockTreeImpl.t :=
  let tree := mkNode 0 zero_hash 0 true [] in BlockTreeImpl.mk tree (NewTreeMeta tree) st [] 1.

(** The tree as [create] makes it. *)
Lemma created_inv st : tree_inv (created st).
Proof.
  split; [apply NoDup_singleton|apply NoDup_singleton| | |reflexivity| |reflexivity].
  - intros i ->%list_elem_of_singleton. cbn. lia.
  - apply rising_unfold. by intros c ?%elem_of_nil.
  - exists (tree_ (created st)). split_and!; [left|reflexivity|]. intros x ->%list_elem_of_singleton. done.
Qed.

Lemma added_block_known_witness :
  runs (addBlock (H := kv_block_store demo_net) demo_block) (created ∅) (fun r s' =>
    r = Ok tt /\ tree_inv s' /\ no_raw demo_net (store s') /\
    block_hash_of (header demo_block) ∈ leaves (tree_meta_ s') /\
    (exists n, getByHash (tree_ s') (block_hash_of (header demo_block)) = Ok (Some n) /\ depth n = 7) /\
    runs (getBlockHeader (H := kv_block_store demo_net) (ByHash (block_hash_of (header demo_block)))) s'
      (fun r _ => r = Ok (stored_header (header demo_block))) /\
    runs (getBlockBody (H := kv_block_store demo_net) (ByNumber 7)) s' (fun r _ => r = Ok [str "tx"])).
Proof.
  apply (added_block_known demo_net demo_block (tree_ (created ∅)) (created ∅) (created_inv ∅));
    [left|reflexivity|cbn; lia| |exact demo_block_wf|apply empty_lookup|exact empty_no_raw].
  apply (bool_decide_unpack _). vm_compute. exact I.
Defined.

End DemoKv.
