(* ===== verification/Votes.v ===== *)
(** * Votes of the finality protocol

    Models [src/src/verification/finality]: the votes ([structs.hpp]), the set
    of voters ([voter_set.cpp]), the weight of a vote ([vote_weight.cpp]), the
    tracker of the votes of a round ([impl/vote_tracker_impl.cpp]) and the
    signing of votes ([impl/vote_crypto_provider_impl.cpp]).

    The two vectors of a [VoteWeight] have one length, since its constructor
    makes them so and nothing changes their lengths. *)

From S2P Require Import Prelude Scale.

Open Scope Z_scope.

(** ** Votes *)

Record BlockInfo : Type := mkInfo {
  block_number : Z;
  block_hash : bytes
}.

#[export] Instance BlockInfo_eq_dec : EqDecision BlockInfo.
Proof. solve_decision. Defined.

Inductive Vote : Type :=
  | Prevote (b : BlockInfo)
  | Precommit (b : BlockInfo)
  | PrimaryPropose (b : BlockInfo).

Definition block_info (v : Vote) : BlockInfo :=
  match v with Prevote b | Precommit b | PrimaryPropose b => b end.

Record SignedMessage : Type := mkSigned {
  message : Vote;
  signature : bytes;
  id : bytes;
  ts : Z
}.

Definition vote_hash (m : SignedMessage) : bytes := block_hash (block_info (message m)).

(** ** Voters *)

Module VoterSet.

Record t : Type := mk {
  voters_ : list bytes;
  id_ : Z;
  weight_map_ : gmap bytes Z;
  total_weight_ : Z
}.

Definition create (id_of_set : Z) : t := mk [] id_of_set ∅ 0.

(** [unordered_map::insert] keeps an entry that is there. *)
Definition insert (voter : bytes) (weight : Z) (s : t) : t :=
  mk (voters_ s ++ [voter]) (id_ s)
    (match weight_map_ s !! voter with Some _ => weight_map_ s | None => <[voter := weight]> (weight_map_ s) end)
    (u64 (total_weight_ s + weight)).

Definition voterIndex (voter : bytes) (s : t) : option nat := fst <$> list_find (fun v => v = voter) (voters_ s).

Definition voterWeight (voter : bytes) (s : t) : option Z := weight_map_ s !! voter.

Definition voterWeightAt (voter_index : nat) (s : t) : outcome (option Z) :=
  match voters_ s !! voter_index with
  | None => Ok None
  | Some v => match weight_map_ s !! v with Some w => Ok (Some w) | None => Err undefined_behaviour end
  end.

End VoterSet.

(** ** Weights *)

Module VoteWeight.

Record t : Type := mk {
  prevotes_sum : Z;
  precommits_sum : Z;
  prevotes : list Z;
  precommits : list Z
}.

Definition kMaxNumberOfVoters : nat := 256.

Definition create (voters_size : nat) : t := mk 0 0 (replicate voters_size 0) (replicate voters_size 0).

(** The loop of [operator+=] on one vector. *)
Fixpoint add_front (a b : list Z) : list Z :=
  match a, b with
  | x :: a', y :: b' => u64 (x + y) :: add_front a' b'
  | _, _ => a
  end.

Definition add (a b : t) : t :=
  mk (u64 (prevotes_sum a + prevotes_sum b)) (u64 (precommits_sum a + precommits_sum b))
    (add_front (prevotes a) (prevotes b)) (add_front (precommits a) (precommits b)).

Definition setPrevote (index : nat) (weight : Z) (v : t) : outcome t :=
  old ← ok_or undefined_behaviour (prevotes v !! index);
  Ok (mk (u64 (u64 (prevotes_sum v - old) + weight)) (precommits_sum v) (<[index := weight]> (prevotes v)) (precommits v)).

Definition setPrecommit (index : nat) (weight : Z) (v : t) : outcome t :=
  old ← ok_or undefined_behaviour (precommits v !! index);
  Ok (mk (prevotes_sum v) (u64 (u64 (precommits_sum v - old) + weight)) (prevotes v) (<[index := weight]> (precommits v))).

Definition prevoteComparator (lhs rhs : t) : bool := prevotes_sum lhs <? prevotes_sum rhs.
Definition precommitComparator (lhs rhs : t) : bool := precommits_sum lhs <? precommits_sum rhs.

(** The loop of [totalWeight] on one vector: [i] is the voter, [n] how many are left. *)
Fixpoint with_equivocators (votes : list Z) (equivocators : list bool) (voter_set : VoterSet.t) (i n : nat)
    (acc : list Z) : outcome (list Z) :=
  match n with
  | O => Ok acc
  | S n' =>
      vote ← ok_or undefined_behaviour (votes !! i);
      acc' ← (if vote =? 0 then
                eq ← ok_or undefined_behaviour (equivocators !! i);
                if (eq : bool) then
                  w ← VoterSet.voterWeightAt i voter_set;
                  w ← ok_or undefined_behaviour w;
                  Ok (<[i := u64 (vote + w)]> acc)
                else Ok acc
              else Ok acc);
      with_equivocators votes equivocators voter_set (S i) n' acc'
  end.

Definition accumulate (l : list Z) : Z := foldl (fun a x => u64 (a + x)) 0 l.

Definition totalWeight (prevotes_equivocators precommits_equivocators : list bool) (voter_set : VoterSet.t) (v : t)
    : outcome (Z * Z) :=
  let n := length (VoterSet.voters_ voter_set) in
  p ← with_equivocators (prevotes v) prevotes_equivocators voter_set 0 n (prevotes v);
  c ← with_equivocators (precommits v) precommits_equivocators voter_set 0 n (precommits v);
  Ok (accumulate p, accumulate c).

End VoteWeight.

(** ** The tracker *)

Module VoteTrackerImpl.

Inductive PushResult : Type := SUCCESS | DUPLICATED | EQUIVOCATED.

Inductive VoteVariant : Type :=
  | VotingMessage (m : SignedMessage)
  | EquivocatoryVotingMessage (first second : SignedMessage).

Record t : Type := mk {
  messages_ : gmap bytes VoteVariant;
  ordered_votes_ : list (Z * SignedMessage);
  total_weight_ : Z
}.

Definition create : t := mk ∅ [] 0.

(** Assignment through [operator[]] of a map in the order of its keys. *)
Fixpoint assign (k : Z) (v : SignedMessage) (l : list (Z * SignedMessage)) : list (Z * SignedMessage) :=
  match l with
  | [] => [(k, v)]
  | (k', v') :: l' =>
      if k <? k' then (k, v) :: l else if k =? k' then (k, v) :: l' else (k', v') :: assign k v l'
  end.

Definition push (vote : SignedMessage) (weight : Z) (s : t) : PushResult * t :=
  match messages_ s !! id vote with
  | None => (SUCCESS, mk (<[id vote := VotingMessage vote]> (messages_ s)) (assign (ts vote) vote (ordered_votes_ s))
               (u64 (total_weight_ s + weight)))
  | Some (VotingMessage m) =>
      if decide (vote_hash m = vote_hash vote) then (DUPLICATED, s)
      else (EQUIVOCATED, mk (<[id vote := EquivocatoryVotingMessage m vote]> (messages_ s)) (ordered_votes_ s)
              (u64 (total_weight_ s + weight)))
  | Some (EquivocatoryVotingMessage _ _) => (DUPLICATED, s)
  end.

Definition getMessages (s : t) : list VoteVariant := snd <$> in_key_order (messages_ s).

Definition getMedianMessage (hash : bytes) (s : t) : outcome SignedMessage :=
  let tmp_votes := filter (fun m => hash = vote_hash m) (snd <$> ordered_votes_ s) in
  let size := length tmp_votes in
  if decide (size = 0%nat) then Err undefined_behaviour else
  ok_or undefined_behaviour
    (tmp_votes !! (if decide (size mod 2 = 0)%nat then (size / 2 - 1)%nat else (size / 2)%nat)).

Definition getTotalWeight (s : t) : Z := total_weight_ s.

End VoteTrackerImpl.

(** ** Signing *)

(** The ED25519 library; a verification can fail. *)
Class ED25519 : Type := {
  ed_sign : bytes -> bytes -> outcome bytes;  (* key, message *)
  ed_public : bytes -> bytes;
  ed_verify : bytes -> bytes -> bytes -> outcome bool  (* signature, message, public key *)
}.

(** What is signed is verified with the public key. *)
Class ED25519Spec `{ED25519} : Prop := {
  ed_verify_sign key msg sig : ed_sign key msg = Ok sig -> ed_verify sig msg (ed_public key) = Ok true
}.

Module VoteCryptoProviderImpl.
Section crypto.
Context `{ED25519}.

Record t : Type := mk {
  private_key : bytes;
  round_number_ : Z;
  voter_set_ : VoterSet.t
}.

(** A vote is a variant of three types with one codec. *)
Definition TInfo : ty := TPair (TBlob 32) (TInt false 8).
Definition TVote : ty := TVariant (More TInfo (More TInfo (One TInfo))).

Definition info_value (b : BlockInfo) : value TInfo := (block_hash b, block_number b).

Definition vote_value (v : Vote) : value TVote :=
  match v with
  | Prevote b => inl (info_value b)
  | Precommit b => inr (inl (info_value b))
  | PrimaryPropose b => inr (inr (info_value b))
  end.

(** [outcome::result::value], which throws on an error. *)
Definition value_of {A} (r : outcome A) : outcome A :=
  match r with Ok a => Ok a | Err _ => Err undefined_behaviour end.

Definition payload (v : Vote) (p : t) : outcome bytes := value_of
  (encode (TPair TVote (TPair (TInt false 8) (TInt false 8)))
    (vote_value v, (round_number_ p, VoterSet.id_ (voter_set_ p)))).

(** What is signed has the time of the signature at its end. *)
Definition timed_payload (v : Vote) (msg_ts : Z) (p : t) : outcome bytes := value_of
  (encode (TPair TVote (TPair (TInt false 8) (TPair (TInt false 8) (TInt false 8))))
    (vote_value v, (round_number_ p, (VoterSet.id_ (voter_set_ p), msg_ts)))).

Definition verify_message (m : SignedMessage) (p : t) : outcome bool :=
  b ← payload (message m) p;
  Ok (match ed_verify (signature m) b (id m) with Ok v => v | Err _ => false end).

Definition verifyPrimaryPropose (m : SignedMessage) (p : t) : outcome bool :=
  match message m with PrimaryPropose _ => verify_message m p | _ => Ok false end.
Definition verifyPrevote (m : SignedMessage) (p : t) : outcome bool :=
  match message m with Prevote _ => verify_message m p | _ => Ok false end.
Definition verifyPrecommit (m : SignedMessage) (p : t) : outcome bool :=
  match message m with Precommit _ => verify_message m p | _ => Ok false end.

Definition voteSignature (now : Z) (v : Vote) (p : t) : outcome bytes :=
  b ← timed_payload v now p; value_of (ed_sign (private_key p) b).

Definition sign_vote (now : Z) (v : Vote) (p : t) : outcome SignedMessage :=
  sign ← voteSignature now v p; Ok (mkSigned v sign (ed_public (private_key p)) 0).

Definition signPrimaryPropose (now : Z) (b : BlockInfo) (p : t) : outcome SignedMessage := sign_vote now (PrimaryPropose b) p.
Definition signPrevote (now : Z) (b : BlockInfo) (p : t) : outcome SignedMessage := sign_vote now (Prevote b) p.
Definition signPrecommit (now : Z) (b : BlockInfo) (p : t) : outcome SignedMessage := sign_vote now (Precommit b) p.

End crypto.
End VoteCryptoProviderImpl.
