(* ===== verification/VotesProps.v ===== *)
(** * Properties of votes, weights and the tracker

    Adding weights is a commutative sum; the tracker holds the first vote of
    every voter and the first one that contradicts it; a vote that the node signs
    does not pass the verification of the other nodes. *)

From S2P Require Import Prelude Scale Votes.

Open Scope Z_scope.

(** ** Sums of weights *)

Module Tally.
Import VoteWeight.

Lemma add_front_length a b : length (add_front a b) = length a.
Proof. revert b. induction a as [|x a IH]; intros [|y b]; cbn; [done..|]. by rewrite IH. Qed.

Lemma add_front_lookup a b i : add_front a b !! i =
  match a !! i, b !! i with Some x, Some y => Some (u64 (x + y)) | Some x, None => Some x | None, _ => None end.
Proof.
  revert b i. induction a as [|x a IH]; intros [|y b] [|i]; cbn; try done.
  by destruct (a !! i).
Qed.

Lemma u64_swap x a b : u64 (u64 (x + a) + b) = u64 (u64 (x + b) + a).
Proof. rewrite !u64_add_id. f_equal. lia. Qed.

Lemma u64_assoc x a b : u64 (x + u64 (a + b)) = u64 (u64 (x + a) + b).
Proof. rewrite (Z.add_comm x), !u64_add_id. f_equal. lia. Qed.

Lemma add_front_swap x a b : add_front (add_front x a) b = add_front (add_front x b) a.
Proof.
  apply list_eq. intros i. rewrite !add_front_lookup.
  destruct (x !! i), (a !! i), (b !! i); try done. f_equal. apply u64_swap.
Qed.

(** The order in which weights are added does not matter. *)
Lemma add_swap x a b : add (add x a) b = add (add x b) a.
Proof. unfold add. cbn. f_equal; [apply u64_swap|apply u64_swap|apply add_front_swap|apply add_front_swap]. Qed.

Definition zero : t := create kMaxNumberOfVoters.

(** The weight that collects the votes of a list. *)
Definition tally (l : list t) : t := foldl add zero l.

Lemma foldl_add_swap l x a : foldl add (add x a) l = add (foldl add x l) a.
Proof. revert x. induction l as [|b l IH]; intros x; cbn; [done|]. by rewrite add_swap, IH. Qed.

Lemma tally_cons a l : tally (a :: l) = add (tally l) a.
Proof. apply foldl_add_swap. Qed.

Lemma tally_permutation l l' : l ≡ₚ l' -> tally l = tally l'.
Proof.
  induction 1 as [|a l l' _ IH|a b l|l l' l'' _ IH1 _ IH2]; [done| | |congruence].
  - by rewrite !tally_cons, IH.
  - rewrite !tally_cons. apply add_swap.
Qed.

Lemma tally_snoc l a : tally (l ++ [a]) = add (tally l) a.
Proof. unfold tally. by rewrite foldl_app. Qed.

(** Weights that the code can make: both vectors at most as long as those of an
    entry of the graph. *)
Definition small (w : t) : Prop := (length (prevotes w) <= kMaxNumberOfVoters)%nat /\
  (length (precommits w) <= kMaxNumberOfVoters)%nat.

Lemma tally_length l : length (prevotes (tally l)) = kMaxNumberOfVoters /\
  length (precommits (tally l)) = kMaxNumberOfVoters.
Proof.
  induction l as [|a l [IH1 IH2]]; [by split|]. rewrite tally_cons. unfold add. cbn [prevotes precommits].
  by rewrite !add_front_length.
Qed.

Lemma add_front_assoc x a b : (length b <= length a)%nat -> add_front x (add_front a b) = add_front (add_front x a) b.
Proof.
  intros Hl. apply list_eq. intros i. rewrite !add_front_lookup. destruct (x !! i) as [x'|]; [|done].
  destruct (a !! i) as [a'|] eqn:Ea.
  - destruct (b !! i); [|done]. f_equal. apply u64_assoc.
  - assert (b !! i = None) as -> by (apply lookup_ge_None; apply lookup_ge_None in Ea; lia). done.
Qed.

(** The components stay 64-bit integers. *)
Definition in_range (w : t) : Prop := is_u64 (prevotes_sum w) /\ is_u64 (precommits_sum w) /\
  Forall is_u64 (prevotes w) /\ Forall is_u64 (precommits w).

Lemma add_front_range a b : Forall is_u64 a -> Forall is_u64 (add_front a b).
Proof.
  intros Ha. revert b. induction Ha as [|x a Hx Ha IH]; intros [|y b]; cbn; auto.
  constructor; [apply u64_range|apply IH].
Qed.

Lemma tally_range l : in_range (tally l).
Proof.
  induction l as [|a l (_ & _ & H1 & H2)].
  - split_and!; [done|done| |]; apply Forall_replicate; done.
  - rewrite tally_cons. split_and!; [apply u64_range|apply u64_range| |]; by apply add_front_range.
Qed.

Lemma add_front_zeros a n : Forall is_u64 a -> add_front a (replicate n 0) = a.
Proof.
  intros Ha. revert n. induction Ha as [|x a Hx Ha IH]; intros [|n]; cbn; [done..|].
  by rewrite Z.add_0_r, u64_id, IH.
Qed.

Lemma add_zero w : in_range w -> add w zero = w.
Proof.
  destruct w as [ps cs p c]. intros (H1 & H2 & H3 & H4). unfold add, zero, create. cbn -[replicate] in *.
  by rewrite !Z.add_0_r, !u64_id, !add_front_zeros.
Qed.

Lemma add_assoc x a b : (length (prevotes b) <= length (prevotes a))%nat ->
  (length (precommits b) <= length (precommits a))%nat -> add x (add a b) = add (add x a) b.
Proof.
  intros H1 H2. unfold add. cbn. f_equal; [apply u64_assoc|apply u64_assoc|by apply add_front_assoc|by apply add_front_assoc].
Qed.

Lemma add_tally l l' : Forall small l' -> add (tally l) (tally l') = tally (l ++ l').
Proof.
  induction l' as [|a l' IH]; intros Hs.
  - rewrite app_nil_r. apply add_zero, tally_range.
  - apply Forall_cons in Hs as [[H1 H2] Hs]. destruct (tally_length l') as [E1 E2].
    rewrite tally_cons, add_assoc, IH by (done || lia).
    rewrite <- tally_snoc. apply tally_permutation. solve_Permutation.
Qed.

End Tally.

(** ** The tracker *)

Module Tracker.
Import VoteTrackerImpl.

Definition push_all (l : list (SignedMessage * Z)) (s : t) : t := foldl (fun s x => (push x.1 x.2 s).2) s l.

Definition votes_of (i : bytes) (l : list (SignedMessage * Z)) : list SignedMessage :=
  filter (fun m => id m = i) (fst <$> l).

(** What is to be held of the votes of one voter: the first one, and the first
    one for another block. *)
Definition held (l : list SignedMessage) : option VoteVariant :=
  match l with
  | [] => None
  | v :: rest =>
      match list_find (fun m => vote_hash v <> vote_hash m) rest with
      | None => Some (VotingMessage v)
      | Some (_, m) => Some (EquivocatoryVotingMessage v m)
      end
  end.

Lemma held_snoc l v : held (l ++ [v]) =
  match held l with
  | None => Some (VotingMessage v)
  | Some (VotingMessage m) =>
      if decide (vote_hash m = vote_hash v) then Some (VotingMessage m) else Some (EquivocatoryVotingMessage m v)
  | Some (EquivocatoryVotingMessage m m') => Some (EquivocatoryVotingMessage m m')
  end.
Proof.
  destruct l as [|a l]; [done|]. cbn. destruct (list_find _ l) as [[k m]|] eqn:E.
  - by rewrite (list_find_app_l _ _ _ _ _ E).
  - rewrite list_find_app_r by done. cbn. repeat case_decide; done.
Qed.

Lemma votes_of_snoc i l x : votes_of i (l ++ [x]) = votes_of i l ++ (if decide (id x.1 = i) then [x.1] else []).
Proof. unfold votes_of. rewrite fmap_app, filter_app. by f_equal. Qed.

Lemma push_messages v w s i : messages_ (push v w s).2 !! i =
  if decide (id v = i) then
    match messages_ s !! i with
    | None => Some (VotingMessage v)
    | Some (VotingMessage m) =>
        if decide (vote_hash m = vote_hash v) then Some (VotingMessage m) else Some (EquivocatoryVotingMessage m v)
    | Some (EquivocatoryVotingMessage m m') => Some (EquivocatoryVotingMessage m m')
    end
  else messages_ s !! i.
Proof.
  unfold push. case_decide as Hi.
  - subst i. destruct (messages_ s !! id v) as [[m|m m']|] eqn:E; [case_decide|..]; cbn; rewrite ?lookup_insert_eq; done.
  - destruct (messages_ s !! id v) as [[m|m m']|]; [case_decide|..]; cbn; rewrite ?lookup_insert_ne by done; done.
Qed.

Lemma push_all_snoc l x s : push_all (l ++ [x]) s = (push x.1 x.2 (push_all l s)).2.
Proof. unfold push_all. by rewrite foldl_app. Qed.

Lemma push_all_messages l i : messages_ (push_all l create) !! i = held (votes_of i l).
Proof.
  induction l as [|x l IH] using rev_ind; [apply lookup_empty|].
  rewrite push_all_snoc, push_messages, votes_of_snoc, IH. case_decide; [by rewrite held_snoc|by rewrite app_nil_r].
Qed.

(** The weight of what is held: an equivocation counts twice. *)
Section weight.
Variable wt : bytes -> Z.

Definition copies (v : VoteVariant) : Z := match v with VotingMessage _ => 1 | EquivocatoryVotingMessage _ _ => 2 end.

Definition mass (m : gmap bytes VoteVariant) : Z := map_fold (fun i v acc => acc + wt i * copies v) 0 m.

Lemma mass_insert i v m : m !! i = None -> mass (<[i := v]> m) = mass m + wt i * copies v.
Proof. intros Hi. unfold mass. rewrite map_fold_insert_L; [done| |done]. intros. lia. Qed.

Lemma mass_replace i v v' m : m !! i = Some v -> mass (<[i := v']> m) = mass m + wt i * (copies v' - copies v).
Proof.
  intros Hi. assert (Hd : delete i m !! i = None) by apply lookup_delete_eq.
  rewrite <- insert_delete_eq, mass_insert by done. rewrite <- (insert_delete_id m i v Hi) at 2.
  rewrite mass_insert by done. lia.
Qed.

Lemma push_mass v s : total_weight_ s = u64 (mass (messages_ s)) ->
  let s' := (push v (wt (id v)) s).2 in total_weight_ s' = u64 (mass (messages_ s')).
Proof.
  intros Hs. unfold push. destruct (messages_ s !! id v) as [[m|m m']|] eqn:E; [case_decide| |]; cbn; [done| |done|].
  - rewrite (mass_replace _ _ _ _ E), Hs, u64_add_id. f_equal. cbn. lia.
  - rewrite mass_insert, Hs, u64_add_id by done. f_equal. cbn. lia.
Qed.

End weight.

(** After any sequence of pushed votes the tracker holds, of every voter,
    the first vote and the first later one for another block and nothing else;
    when every voter votes with its own weight, the total weight is that of
    what is held, in which a voter who equivocated counts twice. *)
Theorem tracker_exact (wt : bytes -> Z) (l : list SignedMessage) :
  let s := push_all ((fun m => (m, wt (id m))) <$> l) create in
  (forall i, messages_ s !! i = held (filter (fun m => id m = i) l)) /\
  getTotalWeight s = u64 (mass wt (messages_ s)).
Proof.
  split.
  - intros i. rewrite push_all_messages. unfold votes_of. by rewrite <- list_fmap_compose, list_fmap_id.
  - induction l as [|m l IH] using rev_ind; [done|]. unfold getTotalWeight in *.
    rewrite fmap_app. cbn [fmap list_fmap]. rewrite push_all_snoc. by apply push_mass.
Qed.

End Tracker.

(** ** Signing *)

(** A signature that consists of the key and the message. *)
Module DemoSignature.

#[export] Instance demo_ed : ED25519 := {
  ed_sign key msg := Ok (key ++ msg);
  ed_public key := key;
  ed_verify sig msg pub := Ok (bool_decide (sig = pub ++ msg))
}.

#[export] Instance demo_ed_spec : ED25519Spec.
Proof. split. intros key msg sig [= <-]. cbn. by rewrite bool_decide_eq_true_2. Qed.

End DemoSignature.

Section signing.
Import VoteCryptoProviderImpl DemoSignature.

(** A vote that a node signs is not verified, not even by itself: the time of
    the signature is signed and not part of what is verified. *)
Theorem own_prevote_refused (now : Z) (b : BlockInfo) (p : t) :
  exists m, signPrevote now b p = Ok m /\ ts m = 0 /\ verifyPrevote m p = Ok false.
Proof.
  eexists. split; [reflexivity|]. split; [reflexivity|]. cbn. f_equal. apply bool_decide_eq_false_2.
  intros E. apply (f_equal length) in E. rewrite !length_app in E. cbn in E. rewrite !length_app in E. cbn in E. lia.
Qed.

End signing.
