(* ===== verification/VoteGraph.v ===== *)
(** * The vote graph

    Models [src/src/verification/finality/vote_graph.hpp] and
    [vote_graph/vote_graph_impl.cpp]: the blocks that were voted for, each with
    the blocks between it and the next one above it, and the weight of the votes
    at or below it.

    The chain is the interface [Chain] of [chain.hpp].  The order in which the
    set of heads is visited is a parameter.  A failed assertion and an exception
    of [unordered_map::at] are [undefined_behaviour].  Walks upwards and the
    search for a descendent have the number of entries as fuel, the search for
    the merge point the length of the edges.  The condition of a search can read
    a weight out of range, so that it is an outcome. *)

From S2P Require Import Prelude Scale Votes.

Open Scope Z_scope.

(** [getAncestry base block]: the blocks from the parent of [block] up to, and
    without, [base]; an error when [block] is not below [base]. *)
Class Chain : Type := { getAncestry : bytes -> bytes -> outcome (list bytes) }.

Module VoteGraphImpl.

Record Entry : Type := mkEntry {
  number : Z;
  ancestors : list bytes;
  descendents : list bytes;
  cumulative_vote : VoteWeight.t
}.

Definition new_entry (n : Z) : Entry := mkEntry n [] [] (VoteWeight.create VoteWeight.kMaxNumberOfVoters).

Definition set_ancestors (l : list bytes) (e : Entry) : Entry := mkEntry (number e) l (descendents e) (cumulative_vote e).
Definition set_descendents (l : list bytes) (e : Entry) : Entry := mkEntry (number e) (ancestors e) l (cumulative_vote e).
Definition add_vote (w : VoteWeight.t) (e : Entry) : Entry :=
  mkEntry (number e) (ancestors e) (descendents e) (VoteWeight.add (cumulative_vote e) w).

Definition getAncestorBlockBy (n : Z) (e : Entry) : option bytes :=
  if number e <=? n then None else ancestors e !! Z.to_nat (number e - n - 1).

Definition inDirectAncestry (e : Entry) (hash : bytes) (n : Z) : bool :=
  bool_decide (getAncestorBlockBy n e = Some hash).

Record t : Type := mk {
  base_ : BlockInfo;
  entries_ : gmap bytes Entry;
  heads_ : gset bytes
}.

Definition create (base : BlockInfo) : t :=
  mk base {[block_hash base := new_entry (block_number base)]} {[block_hash base]}.

Definition set_entries (m : gmap bytes Entry) (s : t) : t := mk (base_ s) m (heads_ s).

Definition at_ (h : bytes) (m : gmap bytes Entry) : outcome Entry := ok_or undefined_behaviour (m !! h).

Section graph.
Context `{Chain}.
Variable order : gset bytes -> list bytes.

(** *** Where a block is *)

(** The inner loop of [findContainingNodes], from one head upwards. *)
Fixpoint walk (fuel : nat) (m : gmap bytes Entry) (block : BlockInfo) (current : bytes)
    (found : gset bytes * list bytes) : outcome (gset bytes * list bytes) :=
  let '(visited, containing) := found in
  match m !! current with
  | None => Ok found
  | Some active =>
      if decide (current ∈ visited) then Ok found else
      let visited := {[current]} ∪ visited in
      match getAncestorBlockBy (block_number block) active with
      | Some h => Ok (visited, if decide (h = block_hash block) then containing ++ [current] else containing)
      | None =>
          match last (ancestors active) with
          | None => Ok (visited, containing)
          | Some parent =>
              match fuel with
              | O => Err out_of_fuel
              | S fuel' => walk fuel' m block parent (visited, containing)
              end
          end
      end
  end.

Fixpoint walk_heads (m : gmap bytes Entry) (block : BlockInfo) (l : list bytes) (found : gset bytes * list bytes)
    : outcome (list bytes) :=
  match l with
  | [] => Ok found.2
  | head :: l' => found' ← walk (size m) m block head found; walk_heads m block l' found'
  end.

Definition findContainingNodes (block : BlockInfo) (s : t) : outcome (option (list bytes)) :=
  if decide (is_Some (entries_ s !! block_hash block)) then Ok None else
  containing ← walk_heads (entries_ s) block (order (heads_ s)) (∅, []);
  Ok (Some containing).

(** *** Inserting a vote *)

(** The first block of the ancestry that has an entry. *)
Fixpoint first_entry (m : gmap bytes Entry) (l : list bytes) (i : nat) : option nat :=
  match l with
  | [] => None
  | h :: l' => match m !! h with Some _ => Some i | None => first_entry m l' (S i) end
  end.

Definition append (block : BlockInfo) : act t (outcome unit) :=
  s ← gets (fun s => s);
  TRY ancestry ← mret (getAncestry (block_hash (base_ s)) (block_hash block));
  let ancestry := ancestry ++ [block_hash (base_ s)] in
  let found := first_entry (entries_ s) ancestry 0 in
  let ancestorIndex := default 0%nat found in
  ancestorHash ← lift (ok_or undefined_behaviour (ancestry !! ancestorIndex));
  let m := match found with
           | Some _ => alter (fun e => set_descendents (descendents e ++ [block_hash block]) e) ancestorHash (entries_ s)
           | None => entries_ s
           end in
  let newEntry := set_ancestors (take (S ancestorIndex) ancestry) (new_entry (block_number block)) in
  let m := match m !! block_hash block with Some _ => m | None => <[block_hash block := newEntry]> m end in
  modify (fun s => mk (base_ s) m ({[block_hash block]} ∪ (heads_ s ∖ {[ancestorHash]})));;
  mret (Ok tt).

(** The loop of [introduceBranch]; [prev] is [None] until the first round. *)
Fixpoint branch_loop (ancestor : BlockInfo) (l : list bytes) (m : gmap bytes Entry) (newEntry : Entry)
    (prev : option (option bytes)) : outcome (gmap bytes Entry * Entry * option bytes) :=
  match l with
  | [] => Ok (m, newEntry, default None prev)
  | descendent :: l' =>
      e ← at_ descendent m;
      if negb (inDirectAncestry e (block_hash ancestor) (block_number ancestor)) then Err undefined_behaviour else
      let offset_size := Z.to_nat (number e - block_number ancestor) in
      if decide (length (ancestors e) <= offset_size)%nat then Err undefined_behaviour else
      let '(newEntry, prev) :=
        match prev with
        | None => (set_ancestors (drop offset_size (ancestors e)) newEntry, Some (last (ancestors e)))
        | Some p => (newEntry, Some p)
        end in
      let m := <[descendent := set_ancestors (take offset_size (ancestors e)) e]> m in
      let newEntry := add_vote (cumulative_vote e) (set_descendents (descendents newEntry ++ [descendent]) newEntry) in
      branch_loop ancestor l' m newEntry prev
  end.

Definition introduceBranch (l : list bytes) (ancestor : BlockInfo) : act t unit :=
  m ← gets entries_;
  r ← lift (branch_loop ancestor l m (new_entry (block_number ancestor)) None);
  let '(m, newEntry, prevAncestorOpt) := r in
  m ← lift (match prevAncestorOpt with
            | None => Ok m
            | Some prev =>
                e ← at_ prev m;
                Ok (<[prev := set_descendents
                       (filter (fun h => h ∉ descendents newEntry) (descendents e) ++ [block_hash ancestor]) e]> m)
            end);
  modify (set_entries (match m !! block_hash ancestor with Some _ => m | None => <[block_hash ancestor := newEntry]> m end)).

(** The loop that adds the weight to the block and to everything above it. *)
Fixpoint add_upwards (fuel : nat) (w : VoteWeight.t) (inspectingHash : bytes) (m : gmap bytes Entry)
    : outcome (gmap bytes Entry) :=
  match fuel with
  | O => Err out_of_fuel
  | S fuel' =>
      e ← at_ inspectingHash m;
      let m := <[inspectingHash := add_vote w e]> m in
      match last (ancestors e) with
      | None => Ok m
      | Some parent => add_upwards fuel' w parent m
      end
  end.

(** The first part of [insert]: the block gets an entry. *)
Definition ensure_entry (block : BlockInfo) : act t (outcome unit) :=
  s ← gets (fun s => s);
  containingOpt ← lift (findContainingNodes block s);
  match containingOpt with
  | Some [] => append block
  | Some containing => introduceBranch containing block;; mret (Ok tt)
  | None => mret (Ok tt)
  end.

Definition insert (block : BlockInfo) (voteWeight : VoteWeight.t) : act t (outcome unit) :=
  TRY _ ← ensure_entry block;
  m ← gets entries_;
  m ← lift (add_upwards (size m) voteWeight (block_hash block) m);
  modify (set_entries m);;
  mret (Ok tt).

Definition insert_vote (v : Vote) (voteWeight : VoteWeight.t) : act t (outcome unit) := insert (block_info v) voteWeight.

(** *** Moving the base *)

Definition adjustBase (ancestry_proof : list bytes) : act t unit :=
  s ← gets (fun s => s);
  match last ancestry_proof with
  | None => mret tt
  | Some new_hash =>
      if block_number (base_ s) <? Z.of_nat (length ancestry_proof) then mret tt else
      old ← lift (at_ (block_hash (base_ s)) (entries_ s));
      let m := <[block_hash (base_ s) := set_ancestors (ancestors old ++ ancestry_proof) old]> (entries_ s) in
      let new_number := block_number (base_ s) - Z.of_nat (length ancestry_proof) in
      let newEntry := mkEntry new_number [] [block_hash (base_ s)] (cumulative_vote old) in
      modify (fun s => mk (mkInfo new_number new_hash) (<[new_hash := newEntry]> m) (heads_ s))
  end.

(** *** The block to vote for *)

Section ghost.
Variable condition : VoteWeight.t -> outcome bool.
Variable comparator : VoteWeight.t -> VoteWeight.t -> bool.

(** The inner loop of [ghostFindMergePoint]. *)
Fixpoint merge_step (m : gmap bytes Entry) (n : Z) (l : list bytes)
    (blocks : gmap bytes VoteWeight.t) (best : option (bytes * VoteWeight.t))
    : outcome (gmap bytes VoteWeight.t * option (bytes * VoteWeight.t)) :=
  match l with
  | [] => Ok (blocks, best)
  | d_node :: l' =>
      e ← at_ d_node m;
      match getAncestorBlockBy n e with
      | None => merge_step m n l' blocks best
      | Some d_block =>
          match blocks !! d_block with
          | None => merge_step m n l' (<[d_block := cumulative_vote e]> blocks) best
          | Some w =>
              let w' := VoteWeight.add w (cumulative_vote e) in
              let better := match best with None => true | Some (_, b) => comparator b w' end in
              c ← condition w';
              merge_step m n l' (<[d_block := w']> blocks) (if c && better then Some (d_block, w') else best)
          end
      end
  end.

(** Keeps the descendents above which the block is. *)
Fixpoint keep_above (m : gmap bytes Entry) (hash : bytes) (n : Z) (l : list bytes) : outcome (list bytes) :=
  match l with
  | [] => Ok []
  | d :: l' =>
      e ← at_ d m;
      rest ← keep_above m hash n l';
      Ok (if inDirectAncestry e hash n then d :: rest else rest)
  end.

Fixpoint merge_loop (fuel : nat) (m : gmap bytes Entry) (base_number offset best_number : Z) (l : list bytes)
    (blocks : gmap bytes VoteWeight.t) (hashes : list bytes) : outcome (list bytes * Z) :=
  match fuel with
  | O => Err out_of_fuel
  | S fuel' =>
      let offset := offset + 1 in
      r ← merge_step m (u64 (base_number + offset)) l blocks None;
      match r.2 with
      | None => Ok (hashes, best_number)
      | Some (new_best, _) =>
          let best_number := u64 (best_number + 1) in
          l' ← keep_above m new_best best_number l;
          merge_loop fuel' m base_number offset best_number l' ∅ (hashes ++ [new_best])
      end
  end.

Definition edges (m : gmap bytes Entry) : nat := map_fold (fun _ e n => (length (ancestors e) + n)%nat) 0%nat m.

Definition ghostFindMergePoint (active_node_hash : bytes) (active_node : Entry) (force_constrain : option BlockInfo)
    (m : gmap bytes Entry) : outcome (list bytes * Z) :=
  l ← match force_constrain with
      | None => Ok (descendents active_node)
      | Some b => keep_above m (block_hash b) (block_number b) (descendents active_node)
      end;
  merge_loop (S (edges m)) m (number active_node) 0 (number active_node) l ∅ [active_node_hash].

(** The loop over the descendents of one entry in [findGhost]. *)
Fixpoint ghost_step (m : gmap bytes Entry) (constrain : option BlockInfo) (l : list bytes)
    (node_key : bytes) (active_node : Entry) (queue : list Entry) : outcome (bytes * Entry * list Entry) :=
  match l with
  | [] => Ok (node_key, active_node, queue)
  | h :: l' =>
      e ← at_ h m;
      let skip := match constrain with
                  | Some b => negb (inDirectAncestry e (block_hash b) (block_number b))
                  | None => false
                  end in
      if skip then ghost_step m constrain l' node_key active_node queue else
      c ← condition (cumulative_vote e);
      if c && (number active_node <=? number e) then ghost_step m constrain l' h e (queue ++ [e])
      else ghost_step m constrain l' node_key active_node queue
  end.

Fixpoint ghost_loop (fuel : nat) (m : gmap bytes Entry) (constrain : option BlockInfo) (queue : list Entry)
    (node_key : bytes) (active_node : Entry) : outcome (bytes * Entry) :=
  match queue with
  | [] => Ok (node_key, active_node)
  | e :: rest =>
      match fuel with
      | O => Err out_of_fuel
      | S fuel' =>
          r ← ghost_step m constrain (descendents e) node_key active_node rest;
          let '(node_key, active_node, queue) := r in
          ghost_loop fuel' m None queue node_key active_node
      end
  end.

(** After the first round the search is not constrained any more, and neither
    is the search for the merge point. *)
Definition findGhost (current_best : option BlockInfo) (s : t) : outcome (option BlockInfo) :=
  let m := entries_ s in
  start ← match current_best with
          | None => Ok (Some (block_hash (base_ s), None))
          | Some b =>
              containingOpt ← findContainingNodes b s;
              match containingOpt with
              | Some [] => Ok None
              | Some (c :: _) =>
                  e ← at_ c m;
                  key ← ok_or undefined_behaviour (last (ancestors e));
                  Ok (Some (key, Some b))
              | None => Ok (Some (block_hash b, None))
              end
          end;
  match start with
  | None => Ok None
  | Some (node_key, constrain) =>
      active_node ← at_ node_key m;
      c ← condition (cumulative_vote active_node);
      if negb c then Ok None else
      r ← ghost_loop (S (size m)) m constrain [active_node] node_key active_node;
      sub ← ghostFindMergePoint r.1 r.2 None m;
      Ok (match last sub.1 with None => None | Some h => Some (mkInfo sub.2 h) end)
  end.

(** The walk of [findAncestor] up to an entry that fulfils the condition. *)
Fixpoint ancestor_loop (fuel : nat) (m : gmap bytes Entry) (node_key : bytes) (canonical active : Entry)
    : outcome (option (bytes * Entry * Entry)) :=
  c ← condition (cumulative_vote active);
  if (c : bool) then Ok (Some (node_key, canonical, active)) else
  match last (ancestors active) with
  | None => Ok None
  | Some parent =>
      match fuel with
      | O => Err out_of_fuel
      | S fuel' => e ← at_ parent m; ancestor_loop fuel' m parent active e
      end
  end.

(** Every hash of the subchain is looked for at the number of the last one. *)
Definition findAncestor (block : BlockInfo) (s : t) : outcome (option BlockInfo) :=
  let m := entries_ s in
  let search key canonical :=
    active ← at_ key m;
    r ← ancestor_loop (size m) m key canonical active;
    match r with
    | None => Ok None
    | Some (key, canonical, active) =>
        sub ← ghostFindMergePoint key active None m;
        Ok (match filter (fun h => inDirectAncestry canonical h sub.2 = true) (reverse sub.1) with
            | [] => None
            | h :: _ => Some (mkInfo sub.2 h)
            end)
    end in
  nodesOpt ← findContainingNodes block s;
  match nodesOpt with
  | None =>
      e ← at_ (block_hash block) m;
      c ← condition (cumulative_vote e);
      if (c : bool) then Ok (Some block) else
      match last (ancestors e) with
      | None => Ok None
      | Some key => search key e
      end
  | Some [] => Ok None
  | Some (c :: _) =>
      e ← at_ c m;
      key ← ok_or undefined_behaviour (last (ancestors e));
      search key e
  end.

End ghost.
End graph.
End VoteGraphImpl.
