(* ===== verification/VoteGraphProps.v ===== *)
(** * The invariant of the vote graph

    [Ancestry] gives every block its list of ancestors, which its hash fixes for
    ever; the number of a block is how many it has.  [ChainSpec] states what the
    graph and the rounds rely on: what the chain answers is right.  A chain need
    not know every block; [ChainComplete] is one that does.
    [graph_inv] relates the entries of a graph to the chain and to
    the votes that were inserted.

    The search for a block finds exactly the entries whose edges contain it;
    inserting a vote keeps the invariant, so that every entry counts exactly the
    votes at or below its block. *)

From S2P Require Import Prelude Scale Votes VotesProps VoteGraph.
Import VoteGraphImpl Tally.

Open Scope Z_scope.

Class Ancestry : Type := {
  anc : bytes -> list bytes;
  anc_tail h p l : anc h = p :: l -> anc p = l
}.

Class ChainSpec `{Ancestry} `{Chain} : Prop := {
  getAncestry_self b : getAncestry b b = Ok [];
  getAncestry_sound base block l : base <> block -> getAncestry base block = Ok l -> exists rest, anc block = l ++ base :: rest
}.

Class ChainComplete `{ChainSpec} : Prop := {
  getAncestry_complete base block : base ∈ anc block -> exists l, getAncestry base block = Ok l
}.

(** ** The chain *)

Section chain.
Context `{Ancestry}.

Definition num (h : bytes) : Z := Z.of_nat (length (anc h)).

(** [b] is [a] or below it. *)
Definition descends (a b : bytes) : Prop := b = a \/ a ∈ anc b.

#[export] Instance descends_dec a b : Decision (descends a b).
Proof. unfold descends. apply _. Defined.

Lemma anc_suffix b l1 a l2 : anc b = l1 ++ a :: l2 -> anc a = l2.
Proof.
  revert b. induction l1 as [|x l1 IH]; intros b E; [by eapply anc_tail|].
  apply (IH x). by apply (anc_tail b).
Qed.

Lemma num_suffix b l1 a l2 : anc b = l1 ++ a :: l2 -> num a = num b - Z.of_nat (length l1) - 1.
Proof. intros E. unfold num. rewrite (anc_suffix _ _ _ _ E), E, length_app. cbn. lia. Qed.

Lemma num_lt a b : a ∈ anc b -> num a < num b.
Proof. intros (l1 & l2 & E)%list_elem_of_split. rewrite (num_suffix _ _ _ _ E). lia. Qed.

Lemma num_le a b : descends a b -> num a <= num b.
Proof. intros [->|Ha%num_lt]; lia. Qed.

Lemma anc_trans a b c : a ∈ anc b -> b ∈ anc c -> a ∈ anc c.
Proof.
  intros Ha (l1 & l2 & E)%list_elem_of_split. rewrite (anc_suffix _ _ _ _ E) in Ha. rewrite E. set_solver.
Qed.

Lemma descends_trans a b c : descends a b -> descends b c -> descends a c.
Proof.
  intros [->|Hab] [->|Hbc]; [by left|by right|by right|]. right. by eapply anc_trans.
Qed.

(** The ancestor with a given number. *)
Lemma anc_lookup b i a : anc b !! i = Some a -> num a = num b - Z.of_nat i - 1.
Proof.
  intros Hi. pose proof (take_drop_middle _ _ _ Hi) as E. symmetry in E. rewrite (num_suffix _ _ _ _ E).
  rewrite length_take. apply lookup_lt_Some in Hi. lia.
Qed.

Lemma anc_unique a a' b : a ∈ anc b -> a' ∈ anc b -> num a = num a' -> a = a'.
Proof.
  intros [i Hi]%list_elem_of_lookup [j Hj]%list_elem_of_lookup E.
  pose proof (anc_lookup _ _ _ Hi). pose proof (anc_lookup _ _ _ Hj). assert (i = j) as -> by lia. congruence.
Qed.

Lemma anc_NoDup b : NoDup (anc b).
Proof.
  apply NoDup_alt. intros i j a Hi Hj. pose proof (anc_lookup _ _ _ Hi). pose proof (anc_lookup _ _ _ Hj). lia.
Qed.

Lemma anc_linear a a' b : a ∈ anc b -> a' ∈ anc b -> a = a' \/ a ∈ anc a' \/ a' ∈ anc a.
Proof.
  intros (l1 & l2 & E)%list_elem_of_split Ha'. rewrite E in Ha'. pose proof (anc_suffix _ _ _ _ E) as Ea.
  apply elem_of_app in Ha' as [(k1 & k2 & ->)%list_elem_of_split|[->|Ha']%elem_of_cons]; [|by left|].
  - right. left. rewrite <- (assoc_L (++)) in E. cbn in E. rewrite (anc_suffix _ _ _ _ E). set_solver.
  - right. right. by rewrite Ea.
Qed.

Lemma descends_linear a a' b : descends a b -> descends a' b -> a = a' \/ a ∈ anc a' \/ a' ∈ anc a.
Proof.
  intros [->|Ha] [->|Ha']; [by left|by right; right|by right; left|by eapply anc_linear].
Qed.

(** ** Edges *)

Implicit Types (m : gmap bytes Entry).

(** The edge of a block leads to the nearest entry above it. *)
Record edge_ok (m : gmap bytes Entry) (h : bytes) (edge : list bytes) : Prop := {
  edge_split : exists l p rest, edge = l ++ [p] /\ anc h = l ++ p :: rest /\ is_Some (m !! p) /\
    forall x, x ∈ l -> m !! x = None
}.

Definition entry_ok (B : bytes) (m : gmap bytes Entry) (h : bytes) (e : Entry) : Prop :=
  number e = num h /\ descends B h /\ (if decide (h = B) then ancestors e = [] else edge_ok m h (ancestors e)).

Record graph_shape (B : bytes) (m : gmap bytes Entry) : Prop := {
  shape_base : is_Some (m !! B);
  shape_entry h e : m !! h = Some e -> entry_ok B m h e
}.

Record links_ok (m : gmap bytes Entry) : Prop := {
  links_NoDup h e : m !! h = Some e -> NoDup (descendents e);
  links_iff h e d : m !! h = Some e -> d ∈ descendents e <-> exists e', m !! d = Some e' /\ last (ancestors e') = Some h
}.

Definition heads_ok (m : gmap bytes Entry) (heads : gset bytes) : Prop :=
  (forall h, h ∈ heads -> is_Some (m !! h)) /\
  forall h, is_Some (m !! h) -> exists d, d ∈ heads /\ descends h d.

(** The votes at or below a block. *)
Definition votes_below (votes : list (bytes * VoteWeight.t)) (h : bytes) : list VoteWeight.t :=
  snd <$> filter (fun v => descends h v.1) votes.

Record counted (m : gmap bytes Entry) (votes : list (bytes * VoteWeight.t)) : Prop := {
  counted_votes h e : m !! h = Some e -> cumulative_vote e = tally (votes_below votes h);
  counted_entry v : v ∈ votes -> is_Some (m !! v.1);
  counted_small v : v ∈ votes -> small v.2
}.

Record graph_inv (s : t) (votes : list (bytes * VoteWeight.t)) : Prop := {
  inv_base : block_number (base_ s) = num (block_hash (base_ s));
  inv_shape : graph_shape (block_hash (base_ s)) (entries_ s);
  inv_links : links_ok (entries_ s);
  inv_heads : heads_ok (entries_ s) (heads_ s);
  inv_counted : counted (entries_ s) votes
}.

Section shape.
Variables (B : bytes) (m : gmap bytes Entry).
Hypothesis Hshape : graph_shape B m.

Lemma entry_base e : m !! B = Some e -> ancestors e = [].
Proof using Hshape. intros He. destruct (shape_entry _ _ Hshape _ _ He) as (_ & _ & Ha). by rewrite decide_True in Ha. Qed.

Lemma entry_edge h e : m !! h = Some e -> h <> B -> edge_ok m h (ancestors e).
Proof using Hshape. intros He Hn. destruct (shape_entry _ _ Hshape _ _ He) as (_ & _ & Ha). by rewrite decide_False in Ha. Qed.

Lemma entry_number h e : m !! h = Some e -> number e = num h.
Proof using Hshape. intros He. apply (shape_entry _ _ Hshape _ _ He). Qed.

Lemma entry_below h e : m !! h = Some e -> descends B h.
Proof using Hshape. intros He. apply (shape_entry _ _ Hshape _ _ He). Qed.

Lemma edge_prefix h e : m !! h = Some e -> exists rest, anc h = ancestors e ++ rest.
Proof using Hshape.
  intros He. destruct (decide (h = B)) as [->|Hn]; [rewrite (entry_base e He); by eexists|].
  destruct (entry_edge h e He Hn) as [(l & p & rest & -> & E & _)]. exists rest. by rewrite E, <- (assoc_L (++)).
Qed.

Lemma edge_anc h e x : m !! h = Some e -> x ∈ ancestors e -> x ∈ anc h.
Proof using Hshape. intros He Hx. destruct (edge_prefix h e He) as [rest ->]. set_solver. Qed.

(** The block of an edge at a number. *)
Lemma ancestor_by_number h e n x : m !! h = Some e ->
  getAncestorBlockBy n e = Some x <-> x ∈ ancestors e /\ num x = n.
Proof using Hshape.
  intros He. destruct (edge_prefix h e He) as [rest E]. unfold getAncestorBlockBy. rewrite (entry_number h e He).
  destruct (Z.leb_spec (num h) n) as [Hle|Hlt]; split.
  - done.
  - intros [Hx%(edge_anc h e x He)%num_lt Hn]. lia.
  - intros Hx. split; [by eapply list_elem_of_lookup_2|].
    assert (Ha : anc h !! Z.to_nat (num h - n - 1) = Some x) by (rewrite E; by apply lookup_app_l_Some).
    rewrite (anc_lookup _ _ _ Ha). lia.
  - intros [[i Hi]%list_elem_of_lookup Hn].
    assert (Ha : anc h !! i = Some x) by (rewrite E; by apply lookup_app_l_Some).
    pose proof (anc_lookup _ _ _ Ha). by replace (Z.to_nat (num h - n - 1)) with i by lia.
Qed.

Lemma parent_above h e p : m !! h = Some e -> last (ancestors e) = Some p ->
  is_Some (m !! p) /\ p ∈ anc h /\ forall u, is_Some (m !! u) -> u ∈ anc h -> descends u p.
Proof using Hshape.
  intros He Hp. destruct (decide (h = B)) as [->|Hn]; [by rewrite (entry_base e He) in Hp|].
  destruct (entry_edge h e He Hn) as [(l & q & rest & E & Ea & Hq & Hl)]. rewrite E, last_snoc in Hp. injection Hp as ->.
  split_and!; [done|rewrite Ea; set_solver|]. intros u [eu Hu] Hua. rewrite Ea in Hua.
  apply elem_of_app in Hua as [Hx%Hl|[->|Hr]%elem_of_cons]; [congruence|by left|].
  right. by rewrite (anc_suffix _ _ _ _ Ea).
Qed.

Lemma no_parent h e : m !! h = Some e -> last (ancestors e) = None -> h = B.
Proof using Hshape.
  intros He Hp. destruct (decide (h = B)) as [|Hn]; [done|].
  destruct (entry_edge h e He Hn) as [(l & q & rest & E & _)]. by rewrite E, last_snoc in Hp.
Qed.

(** Entries at or above an entry. *)
Lemma above_cases h e u : m !! h = Some e -> is_Some (m !! u) -> descends u h ->
  u = h \/ exists p, last (ancestors e) = Some p /\ descends u p.
Proof using Hshape.
  intros He Hu [->|Ha]; [by left|]. right. destruct (last (ancestors e)) as [p|] eqn:Hp.
  - exists p. split; [done|]. by apply (parent_above h e p He Hp).
  - rewrite (no_parent h e He Hp) in Ha. destruct Hu as [eu Hu]. destruct (entry_below u eu Hu) as [->|HB].
    + apply num_lt in Ha. lia.
    + apply num_lt in Ha, HB. lia.
Qed.

(** A block that has no entry is on the edge of an entry at or above any entry
    below it. *)
Lemma on_some_edge x b eb : m !! x = None -> descends B x -> m !! b = Some eb -> x ∈ anc b ->
  exists u eu, m !! u = Some eu /\ descends u b /\ x ∈ ancestors eu.
Proof using Hshape.
  intros Hx HB. remember (Z.to_nat (num b)) as n eqn:En. revert b eb En.
  induction n as [n IH] using lt_wf_ind. intros b eb En Hb Hxb.
  destruct (last (ancestors eb)) as [p|] eqn:Hp.
  - destruct (decide (x ∈ ancestors eb)) as [Hin|Hout]; [exists b, eb; by split_and!; [|left|]|].
    destruct (parent_above b eb p Hb Hp) as ([ep Hep] & Hpb & _). pose proof (num_lt _ _ Hpb).
    assert (Hxp : x ∈ anc p).
    { destruct (edge_prefix b eb Hb) as [rest E]. apply last_Some in Hp as [l El]. rewrite El, <- (assoc_L (++)) in E.
      cbn in E. rewrite (anc_suffix _ _ _ _ E). rewrite E in Hxb. rewrite El in Hout. set_solver. }
    destruct (IH (Z.to_nat (num p)) ltac:(unfold num in *; lia) p ep eq_refl Hep Hxp) as (u & eu & Hu & Hd & He).
    exists u, eu. split_and!; [done| |done]. eapply descends_trans; [done|]. by right.
  - rewrite (no_parent b eb Hb Hp) in *. destruct HB as [->|HB].
    + apply num_lt in Hxb. lia.
    + apply num_lt in Hxb, HB. lia.
Qed.

(** Two entries with one block on their edges are not one above the other. *)
Lemma edges_apart x u eu v ev b : m !! x = None -> m !! u = Some eu -> m !! v = Some ev ->
  x ∈ ancestors eu -> x ∈ ancestors ev -> descends u b -> descends v b -> u = v.
Proof using Hshape.
  intros Hx Hu Hv Hxu Hxv Hub Hvb.
  assert (Hno : forall u eu v ev, m !! u = Some eu -> m !! v = Some ev -> x ∈ ancestors eu -> x ∈ ancestors ev -> u ∉ anc v).
  { clear u eu v ev Hu Hv Hxu Hxv Hub Hvb. intros u eu v ev Hu Hv Hxu Hxv Huv.
    destruct (last (ancestors ev)) as [p|] eqn:Hp; [|apply last_None in Hp; rewrite Hp in Hxv; by apply elem_of_nil in Hxv].
    destruct (parent_above v ev p Hv Hp) as ([ep Hep] & Hpv & Hall). pose proof (num_le _ _ (Hall u ltac:(eauto) Huv)).
    pose proof (num_lt _ _ (edge_anc _ _ _ Hu Hxu)).
    assert (num p <= num x); [|lia].
    destruct (edge_prefix v ev Hv) as [rest E]. apply last_Some in Hp as [l El]. rewrite El in *.
    apply elem_of_app in Hxv as [(l1 & l2 & ->)%list_elem_of_split| ->%list_elem_of_singleton]; [|lia].
    rewrite <- !(assoc_L (++)) in E. cbn in E. apply num_le. right. rewrite (anc_suffix _ _ _ _ E). set_solver. }
  destruct (descends_linear u v b Hub Hvb) as [->|[Huv|Hvu]]; [done| |].
  - by destruct (Hno u eu v ev).
  - by destruct (Hno v ev u eu).
Qed.

End shape.
End chain.

(** ** Properties of the vote graph *)

Import VoteGraphImpl Tally.


Section walk.
Context `{Ancestry}.
Variables (B : bytes) (m : gmap bytes Entry) (block : BlockInfo).
Notation x := (block_hash block).
Hypothesis Hshape : graph_shape B m.
Hypothesis Hnum : block_number block = num x.
Hypothesis Hx : m !! x = None.

Definition on_edge (d : bytes) : Prop := exists e, m !! d = Some e /\ x ∈ ancestors e.

(** What is found so far: the visited entries whose edges contain the block, and
    with a visited entry everything above it has been looked at. *)
Record found_ok (visited : gset bytes) (containing : list bytes) : Prop := {
  found_NoDup : NoDup containing;
  found_iff d : d ∈ containing <-> d ∈ visited /\ on_edge d;
  found_known v : v ∈ visited -> is_Some (m !! v)
}.

Definition closed (visited : gset bytes) (v : bytes) : Prop :=
  forall u, descends u v -> on_edge u -> u ∈ visited.

Definition unseen (visited : gset bytes) : nat := size (dom m ∖ visited).

Lemma unseen_visit c visited : is_Some (m !! c) -> c ∉ visited -> (unseen ({[c]} ∪ visited) < unseen visited)%nat.
Proof.
  intros Hc%elem_of_dom Hv. unfold unseen.
  assert (Hsub : dom m ∖ ({[c]} ∪ visited) ⊂ dom m ∖ visited) by set_solver. by apply subset_size.
Qed.

Lemma found_visit c e visited containing : m !! c = Some e -> c ∉ visited -> found_ok visited containing ->
  found_ok ({[c]} ∪ visited) (if decide (x ∈ ancestors e) then containing ++ [c] else containing).
Proof.
  intros Hc Hv [Hnd Hiff Hk]. assert (Hcn : c ∉ containing) by (rewrite Hiff; tauto).
  assert (Hce : on_edge c <-> x ∈ ancestors e).
  { split; [intros (e' & He' & Hin); congruence|]. intros Hin. by exists e. }
  split.
  - case_decide; [|done]. apply NoDup_app. split_and!; [done| |apply NoDup_singleton]. set_solver.
  - intros d. case_decide as Hin; [rewrite elem_of_app, list_elem_of_singleton|]; rewrite Hiff, elem_of_union, elem_of_singleton.
    + split; [intros [?| ->]; tauto|tauto].
    + split; [tauto|]. intros [[->|Hd] He]; [tauto|done].
  - intros v [->%elem_of_singleton|Hin]%elem_of_union; [by eexists|by apply Hk].
Qed.

(** A walk that stops at an edge has nothing left to look for above. *)
Lemma closed_stop c e h visited : m !! c = Some e -> getAncestorBlockBy (block_number block) e = Some h ->
  closed ({[c]} ∪ visited) c.
Proof using All.
  intros Hc Hh. rewrite Hnum in Hh. apply (ancestor_by_number B m Hshape c e _ h Hc) in Hh as [Hin Hn].
  intros u Hu (eu & Heu & Hxu). destruct Hu as [->|Huc]; [set_solver|]. exfalso.
  pose proof (edge_anc B m Hshape _ _ _ Heu Hxu) as Hxau. pose proof (anc_trans _ _ _ Hxau Huc) as Hxc.
  rewrite (anc_unique h x c (edge_anc B m Hshape _ _ _ Hc Hin) Hxc Hn) in Hin.
  assert (u = c) as ->; [|apply num_lt in Huc; lia].
  eapply (edges_apart B m Hshape x u eu c e c); [done..|by right|by left].
Qed.

(** During a walk the entries passed so far wait for what is above [current]. *)
Definition closed_up_to (visited : gset bytes) (current v : bytes) : Prop :=
  forall u, descends u v -> on_edge u -> u ∈ visited \/ descends u current.

Definition settled (visited : gset bytes) (current : bytes) : Prop :=
  forall v, v ∈ visited -> closed visited v \/ (current ∈ anc v /\ closed_up_to visited current v).

Lemma settled_closed visited c : settled visited c -> closed visited c -> forall v, v ∈ visited -> closed visited v.
Proof.
  intros Hs Hc v Hv. destruct (Hs v Hv) as [?|[_ Hup]]; [done|]. intros u Hu He.
  destruct (Hup u Hu He) as [?|Huc]; [done|by apply Hc].
Qed.

Lemma settled_visit c visited : settled visited c -> closed ({[c]} ∪ visited) c ->
  forall v, v ∈ {[c]} ∪ visited -> closed ({[c]} ∪ visited) v.
Proof.
  intros Hs Hc v [->%elem_of_singleton|Hv]%elem_of_union; [done|]. intros u Hu He.
  destruct (Hs v Hv) as [Hcl|[_ Hup]]; [apply elem_of_union; right; by apply Hcl|].
  destruct (Hup u Hu He) as [?|Huc]; [set_solver|by apply Hc].
Qed.

Lemma settled_parent c e p visited : m !! c = Some e -> last (ancestors e) = Some p -> settled visited c ->
  settled ({[c]} ∪ visited) p.
Proof using Hshape.
  clear Hnum Hx. intros Hc Hp Hs v Hv. destruct (parent_above B m Hshape c e p Hc Hp) as (_ & Hpc & _).
  assert (Hcase : forall u, descends u c -> on_edge u -> u ∈ {[c]} ∪ visited \/ descends u p).
  { intros u Hu (eu & Heu & _). destruct (above_cases B m Hshape c e u Hc ltac:(eauto) Hu) as [->|(q & Hq & Huq)].
    - left. set_solver.
    - right. congruence. }
  apply elem_of_union in Hv as [->%elem_of_singleton|Hv]; [by right|].
  destruct (Hs v Hv) as [Hcl|[Hcv Hup]].
  - left. intros u Hu He. apply elem_of_union. right. by apply Hcl.
  - right. split; [by eapply anc_trans|]. intros u Hu He. destruct (Hup u Hu He) as [?|Huc]; [left; set_solver|by apply Hcase].
Qed.

Definition walked (r : outcome (gset bytes * list bytes)) (visited : gset bytes) (current : bytes) : Prop :=
  exists visited' containing', r = Ok (visited', containing') /\ found_ok visited' containing' /\
    visited ⊆ visited' /\ current ∈ visited' /\ forall v, v ∈ visited' -> closed visited' v.

Lemma walk_spec fuel current visited containing : (unseen visited <= fuel)%nat -> is_Some (m !! current) ->
  found_ok visited containing -> settled visited current ->
  walked (walk fuel m block current (visited, containing)) visited current.
Proof using All.
  revert current visited containing. induction fuel as [|fuel IH]; intros c visited containing Hf [e Hc] Hok Hs;
    cbn [walk]; rewrite Hc; (destruct (decide (c ∈ visited)) as [Hin|Hout];
      [eexists _, _; split_and!; [done..|]; apply (settled_closed visited c Hs);
       by destruct (Hs c Hin) as [?|[?%num_lt _]]; [|lia]|]).
  1: pose proof (unseen_visit c visited ltac:(eauto) Hout); lia.
  pose proof (unseen_visit c visited ltac:(eauto) Hout) as Hless.
  pose proof (found_visit c e visited containing Hc Hout Hok) as Hfv.
  pose proof (ancestor_by_number B m Hshape c e (block_number block) x Hc) as Hiff.
  destruct (getAncestorBlockBy _ e) as [h|] eqn:Hh.
  - assert (Hdec : (if decide (h = x) then containing ++ [c] else containing) =
                   (if decide (x ∈ ancestors e) then containing ++ [c] else containing)).
    { destruct (decide (h = x)) as [->|Hne], (decide (x ∈ ancestors e)) as [Hi|Hi]; try done.
      - destruct Hi. by apply Hiff.
      - destruct Hne. assert (Some h = Some x) by (by apply Hiff). congruence. }
    rewrite Hdec. eexists _, _. split_and!; [done|done|set_solver|set_solver|].
    apply settled_visit; [done|by eapply closed_stop].
  - assert (Hnx : x ∉ ancestors e) by (intros Hi; assert (None = Some x) by (by apply Hiff); done).
    rewrite decide_False in Hfv by done. destruct (last (ancestors e)) as [p|] eqn:Hp.
    + destruct (parent_above B m Hshape c e p Hc Hp) as (Hpm & _).
      destruct (IH p ({[c]} ∪ visited) containing ltac:(lia) Hpm Hfv (settled_parent c e p visited Hc Hp Hs))
        as (v' & c' & -> & Hok' & Hsub & _ & Hcl). eexists _, _. split_and!; [done|done|set_solver|set_solver|done].
    + eexists _, _. split_and!; [done|done|set_solver|set_solver|]. apply settled_visit; [done|].
      intros u Hu (eu & Heu & _). destruct (above_cases B m Hshape c e u Hc ltac:(eauto) Hu) as [->|(q & Hq & _)]; [set_solver|congruence].
Qed.

Lemma walk_heads_spec l visited containing : (forall h, h ∈ l -> is_Some (m !! h)) -> found_ok visited containing ->
  (forall v, v ∈ visited -> closed visited v) ->
  exists c', walk_heads m block l (visited, containing) = Ok c' /\ NoDup c' /\
    (forall d, d ∈ c' -> on_edge d) /\
    forall d, on_edge d -> (exists h, h ∈ l /\ descends d h) \/ d ∈ visited -> d ∈ c'.
Proof using All.
  revert visited containing. induction l as [|h l IH]; intros visited containing Hl Hok Hcl; cbn [walk_heads].
  - exists containing. split_and!; [done|apply Hok| |].
    + intros d Hd. by apply (found_iff _ _ Hok).
    + intros d Hd [(h & Hh%elem_of_nil & _)|Hv]; [done|]. by apply (found_iff _ _ Hok).
  - destruct (walk_spec (size m) h visited containing) as (v' & c1 & -> & Hok' & Hsub & Hh & Hcl').
    { unfold unseen. rewrite <- size_dom. apply subseteq_size. set_solver. }
    { apply Hl. left. }
    { done. }
    { intros v Hv. left. by apply Hcl. }
    cbn. destruct (IH v' c1) as (c' & -> & Hnd & H1 & H2); [intros k Hk; apply Hl; by right|done|done|].
    exists c'. split_and!; [done..|]. intros d Hd [(k & [->|Hk]%elem_of_cons & Hdk)|Hv].
    + apply H2; [done|]. right. by apply (Hcl' h Hh).
    + apply H2; [done|]. left. eauto.
    + apply H2; [done|]. right. set_solver.
Qed.

End walk.

Lemma findContaining_spec `{Ancestry} (order : gset bytes -> list bytes) (block : BlockInfo) s :
  (forall X, order X ≡ₚ elements X) ->
  graph_shape (block_hash (base_ s)) (entries_ s) -> heads_ok (entries_ s) (heads_ s) ->
  block_number block = num (block_hash block) -> entries_ s !! block_hash block = None ->
  exists c, findContainingNodes order block s = Ok (Some c) /\ NoDup c /\
    forall d, d ∈ c <-> on_edge (entries_ s) block d.
Proof.
  intros Hord Hshape [Hh Hcov] Hnum Hx. unfold findContainingNodes. rewrite decide_False by (rewrite Hx; by intros []).
  destruct (walk_heads_spec _ _ block Hshape Hnum Hx (order (heads_ s)) ∅ []) as (c & -> & Hnd & H1 & H2).
  - intros h Hin. rewrite Hord, elem_of_elements in Hin. by apply Hh.
  - split; [constructor| |]; set_solver.
  - set_solver.
  - exists c. split; [done|]. split; [done|]. intros d. split; [apply H1|]. intros Hd. apply H2; [done|]. left.
    destruct Hd as (e & He & _). destruct (Hcov d ltac:(eauto)) as (h & Hin & Hdh). exists h. split; [|done].
    by rewrite Hord, elem_of_elements.
Qed.
