(* ===== verification/VoteGraphCount.v ===== *)
(** * Counting votes in the graph

    A new entry, at the end of the graph or on the edges of some entries, keeps
    the invariant; then the weight of a vote is added to its block and to
    everything above it. *)

From S2P Require Import Prelude Scale Votes VotesProps VoteGraph VoteGraphProps.
Import VoteGraphImpl Tally.

Open Scope Z_scope.

(** ** Sums over a partition *)

Section partition.
Context `{Ancestry}.

Lemma votes_below_cons v votes h : votes_below (v :: votes) h =
  (if decide (descends h v.1) then [v.2] else []) ++ votes_below votes h.
Proof. unfold votes_below. rewrite filter_cons. by case_decide. Qed.

Lemma concat_fmap_app {A B} (f g : A -> list B) (l : list A) :
  concat ((fun a => f a ++ g a) <$> l) ≡ₚ concat (f <$> l) ++ concat (g <$> l).
Proof. induction l as [|a l IH]; cbn; [done|]. rewrite IH. solve_Permutation. Qed.

Lemma concat_single {A B} (P : A -> Prop) `{!forall a, Decision (P a)} (b : B) (l : list A) a :
  NoDup l -> a ∈ l -> P a -> (forall a', a' ∈ l -> P a' -> a' = a) ->
  concat ((fun a => if decide (P a) then [b] else []) <$> l) = [b].
Proof.
  induction l as [|c l IH]; [by intros _ ?%elem_of_nil|]. intros [Hc Hnd]%NoDup_cons Ha HP Hu. cbn.
  assert (Hnone : forall k, (forall a', a' ∈ k -> ~ P a') -> concat ((fun a => if decide (P a) then [b] else []) <$> k) = []).
  { induction k as [|d k IHk]; intros Hk; [done|]. cbn. rewrite decide_False by (apply Hk; left). apply IHk.
    intros a' Ha'. apply Hk. by right. }
  destruct (decide (P c)) as [HPc|HPc].
  - assert (c = a) as -> by (apply Hu; [left|done]). rewrite Hnone; [done|]. intros a' Ha' HPa'.
    apply Hc. rewrite <- (Hu a'); [done|by right|done].
  - apply elem_of_cons in Ha as [->|Ha]; [done|]. apply IH; [done..|]. intros a' Ha' HPa'. apply Hu; [by right|done].
Qed.

Lemma votes_partition votes x (L : list bytes) : NoDup L ->
  (forall v d, v ∈ votes -> d ∈ L -> descends d v.1 -> descends x v.1) ->
  (forall v, v ∈ votes -> descends x v.1 -> exists d, d ∈ L /\ descends d v.1) ->
  (forall v d d', v ∈ votes -> d ∈ L -> d' ∈ L -> descends d v.1 -> descends d' v.1 -> d' = d) ->
  votes_below votes x ≡ₚ concat (votes_below votes <$> L).
Proof.
  intros Hnd. induction votes as [|v votes IH]; intros H1 H2 H3.
  - unfold votes_below. cbn. clear. induction L; done.
  - rewrite votes_below_cons.
    replace (votes_below (v :: votes) <$> L) with
      ((fun d => (if decide (descends d v.1) then [v.2] else []) ++ votes_below votes d) <$> L)
      by (apply list_fmap_ext; intros ? d _; by rewrite votes_below_cons).
    rewrite concat_fmap_app, IH; [| | |].
    2-4: intros; (eapply H1 || eapply H2 || eapply H3); eauto; by right.
    apply Permutation_app; [|done]. case_decide as Hx.
    + destruct (H2 v ltac:(left) Hx) as (d & Hd & Hdv).
      rewrite (concat_single (fun d => descends d v.1) v.2 L d); [done..|]. intros d' Hd' Hdv'. eapply (H3 v); [left|done..].
    + assert (Hnone : forall d, d ∈ L -> ~ descends d v.1) by (intros d Hd Hdv; apply Hx; eapply H1; [left|done..]).
      clear -Hnone. induction L as [|d L IHL]; [done|]. cbn. rewrite decide_False by (apply Hnone; left). apply IHL.
      intros d' Hd'. apply Hnone. by right.
Qed.

(** Apart below [x], the votes of some blocks are among those of [x]. *)
Lemma votes_submseteq votes x (L : list bytes) : NoDup L ->
  (forall v d, v ∈ votes -> d ∈ L -> descends d v.1 -> descends x v.1) ->
  (forall v d d', v ∈ votes -> d ∈ L -> d' ∈ L -> descends d v.1 -> descends d' v.1 -> d' = d) ->
  concat (votes_below votes <$> L) ⊆+ votes_below votes x.
Proof.
  intros Hnd. induction votes as [|v votes IH]; intros H1 H3.
  - unfold votes_below at 1. cbn. replace (concat _) with (@nil VoteWeight.t); [apply submseteq_nil_l|].
    clear. induction L; done.
  - rewrite votes_below_cons.
    replace (votes_below (v :: votes) <$> L) with
      ((fun d => (if decide (descends d v.1) then [v.2] else []) ++ votes_below votes d) <$> L)
      by (apply list_fmap_ext; intros ? d _; by rewrite votes_below_cons).
    rewrite concat_fmap_app. apply submseteq_app; [|apply IH; intros; [eapply H1|eapply H3]; eauto; by right].
    destruct (decide (Exists (fun d => descends d v.1) L)) as [(d & Hd & Hdv)%Exists_exists|Hno].
    + rewrite (concat_single (fun d => descends d v.1) v.2 L d), decide_True; [done|by eapply (H1 v); [left|..]|done..|].
      intros d' Hd' Hdv'. eapply (H3 v); [left|done..].
    + replace (concat _) with (@nil VoteWeight.t); [apply submseteq_nil_l|]. rewrite Exists_exists in Hno.
      clear -Hno. induction L as [|d L IHL]; [done|]. cbn. rewrite decide_False by (intros Hd; apply Hno; exists d; split; [left|done]).
      apply IHL. intros (d' & Hd' & ?). apply Hno. exists d'. split; [by right|done].
Qed.

Lemma foldl_tally acc (ls : list (list VoteWeight.t)) : Forall (Forall small) ls ->
  foldl VoteWeight.add (tally acc) (tally <$> ls) = tally (acc ++ concat ls).
Proof.
  intros Hs. revert acc. induction Hs as [|l ls Hl Hs IH]; intros acc; cbn; [by rewrite app_nil_r|].
  by rewrite add_tally, IH, (assoc_L (++)).
Qed.

(** ** A new entry *)

Section new_entry.
Variables (B x p : bytes) (L : list bytes) (m m' : gmap bytes Entry) (new : Entry).
Variable votes : list (bytes * VoteWeight.t).

(** The map after a new entry for [x] between [p] and the entries [L]. *)
Record adds_entry : Prop := {
  adds_fresh : m !! x = None;
  adds_below : descends B x;
  adds_new : m' !! x = Some new;
  adds_number : number new = num x;
  adds_edge : edge_ok m x (ancestors new);
  adds_parent : last (ancestors new) = Some p;
  adds_NoDup : NoDup L;
  adds_on_edge d : d ∈ L <-> exists e, m !! d = Some e /\ x ∈ ancestors e;
  adds_cut d e : d ∈ L -> m !! d = Some e ->
    exists l1 l2, ancestors e = l1 ++ x :: l2 /\ last (x :: l2) = Some p /\ m' !! d = Some (set_ancestors (l1 ++ [x]) e);
  adds_link e : m !! p = Some e ->
    m' !! p = Some (set_descendents (filter (fun h => h ∉ L) (descendents e) ++ [x]) e);
  adds_other h : h <> x -> h <> p -> h ∉ L -> m' !! h = m !! h;
  adds_descendents : descendents new = L;
  adds_votes : cumulative_vote new = tally (votes_below votes x)
}.

Hypothesis Hadd : adds_entry.
Hypothesis Hshape : graph_shape B m.

Lemma parent_entry : exists ep, m !! p = Some ep /\ p ∉ L /\ p <> x.
Proof using Hadd Hshape.
  destruct (adds_edge Hadd) as [(l & q & rest & E & Ea & [ep Hep] & _)].
  pose proof (adds_parent Hadd) as Hp. rewrite E, last_snoc in Hp. injection Hp as ->.
  assert (Hpx : p ∈ anc x) by (rewrite Ea; set_solver). exists ep. split_and!; [done| |].
  - intros (e & He & Hin)%(adds_on_edge Hadd). pose proof (num_lt _ _ (edge_anc _ _ Hshape _ _ _ He Hin)).
    apply num_lt in Hpx. lia.
  - intros ->. rewrite (adds_fresh Hadd) in Hep. done.
Qed.

(** An entry after the change, and what it was. *)
Lemma entry_cases h e' : m' !! h = Some e' ->
  (h = x /\ e' = new) \/ exists e, m !! h = Some e /\ h <> x /\ number e' = number e /\
    cumulative_vote e' = cumulative_vote e /\
    (h ∈ L \/ ancestors e' = ancestors e) /\ (h = p \/ descendents e' = descendents e).
Proof using Hadd Hshape.
  intros He'. destruct parent_entry as (ep & Hep & HpL & Hpx).
  destruct (decide (h = x)) as [->|Hx]; [left; rewrite (adds_new Hadd) in He'; split; congruence|]. right.
  destruct (decide (h ∈ L)) as [HL|HL].
  - pose proof HL as (e & He & _)%(adds_on_edge Hadd). destruct (adds_cut Hadd h e HL He) as (l1 & l2 & _ & _ & Hm').
    rewrite Hm' in He'. injection He' as <-. exists e. split_and!; auto.
  - destruct (decide (h = p)) as [->|Hp].
    + rewrite (adds_link Hadd ep Hep) in He'. injection He' as <-. exists ep. split_and!; auto.
    + rewrite (adds_other Hadd) in He' by done. exists e'. split_and!; auto.
Qed.

Lemma entry_known h : is_Some (m' !! h) <-> h = x \/ is_Some (m !! h).
Proof using Hadd Hshape.
  destruct parent_entry as (ep & Hep & HpL & Hpx). split.
  - intros [e' He']. destruct (entry_cases h e' He') as [[-> _]|(e & He & _)]; eauto.
  - intros [->|[e He]]; [rewrite (adds_new Hadd); eauto|].
    destruct (decide (h ∈ L)) as [HL|HL].
    + destruct (adds_cut Hadd h e HL He) as (l1 & l2 & _ & _ & ->). eauto.
    + destruct (decide (h = p)) as [->|Hp]; [rewrite (adds_link Hadd e He); eauto|].
      rewrite (adds_other Hadd); [eauto| |done|done]. intros ->. rewrite (adds_fresh Hadd) in He. done.
Qed.

Lemma unknown_stays h : m !! h = None -> h <> x -> m' !! h = None.
Proof using Hadd Hshape.
  intros Hh Hx. apply eq_None_not_Some. rewrite entry_known, Hh. intros [?|[]%is_Some_None]; done.
Qed.

Lemma new_shape : graph_shape B m'.
Proof using Hadd Hshape.
  split.
  { apply entry_known. right. apply Hshape. }
  intros h e' He'. assert (HxB : x <> B).
  { intros E. destruct (shape_base _ _ Hshape) as [eB HeB]. rewrite <- E, (adds_fresh Hadd) in HeB. done. }
  assert (Hmono : forall h edge, x ∉ edge -> edge_ok m h edge -> edge_ok m' h edge).
  { intros k edge Hxe [(l & q & rest & -> & Ea & Hq & Hl)]. split. exists l, q, rest. split_and!; [done|done| |].
    - apply entry_known. by right.
    - intros y Hy. apply unknown_stays; [by apply Hl|set_solver]. }
  destruct (entry_cases h e' He') as [[-> ->]|(e & He & Hx & En & _ & Hanc & _)].
  - split_and!; [apply Hadd|apply Hadd|]. rewrite decide_False by done. apply Hmono; [|apply Hadd].
    destruct (adds_edge Hadd) as [(l & q & rest & -> & Ea & _)]. intros Hin.
    assert (Hxx : x ∈ anc x) by (rewrite Ea; set_solver). apply num_lt in Hxx. lia.
  - destruct (shape_entry _ _ Hshape h e He) as (Hnum & Hb & Ha). split_and!; [congruence|done|].
    destruct (decide (h ∈ L)) as [HL|HL].
    + destruct (adds_cut Hadd h e HL He) as (l1 & l2 & Ee & _ & Hm'). rewrite Hm' in He'. injection He' as <-.
      destruct (decide (h = B)) as [->|HB]; [rewrite Ha in Ee; by destruct l1|].
      destruct Ha as [(l & q & rest & E & Ea & Hq & Hl)]. pose proof Ee as Ee'. rewrite E in Ee'.
      assert (Hl1 : forall y, y ∈ l1 -> y <> x /\ m !! y = None).
      { intros y Hy. destruct l2 as [|z l2 _] using rev_ind.
        - apply app_inj_tail in Ee' as [-> ->]. rewrite (adds_fresh Hadd) in Hq. by destruct Hq.
        - assert (Eq : l ++ [q] = (l1 ++ x :: l2) ++ [z]) by (rewrite Ee', <- (assoc_L (++)); done).
          apply app_inj_tail in Eq as [-> ->]. split; [|apply Hl; set_solver]. intros ->.
          pose proof (anc_NoDup h) as Hnd. rewrite Ea, <- (assoc_L (++)) in Hnd.
          apply NoDup_app in Hnd as (_ & Hno & _). apply (Hno x Hy). left. }
      split. exists l1, x, (l2 ++ rest). cbn. split_and!; [done| |rewrite (adds_new Hadd); eauto|].
      * destruct (edge_prefix _ _ Hshape h e He) as [rest' Er]. rewrite Ee, <- (assoc_L (++)) in Er. cbn in Er.
        assert (rest' = rest) as ->; [|done].
        rewrite Ea in Er. change (l ++ q :: rest) with (l ++ [q] ++ rest) in Er. rewrite (assoc_L (++)), Ee' in Er.
        rewrite <- (assoc_L (++)) in Er. by apply app_inv_head in Er as [= ->%app_inv_head].
      * intros y [Hyx Hy]%Hl1. by apply unknown_stays.
    + assert (Ee : ancestors e' = ancestors e) by (by destruct Hanc). rewrite Ee.
      destruct (decide (h = B)); [done|]. apply Hmono; [|done]. intros Hin. apply HL, Hadd. eauto.
Qed.

Lemma new_counted : counted m votes -> counted m' votes.
Proof using Hadd Hshape.
  intros [Hc He Hs]. split; [| |done].
  - intros h e' He'. destruct (entry_cases h e' He') as [[-> ->]|(e & Hm & _ & _ & -> & _)]; [apply Hadd|by apply Hc].
  - intros v Hv. apply entry_known. right. by apply He.
Qed.

Lemma last_ancestor h e' q : m' !! h = Some e' -> last (ancestors e') = Some q <->
  (h = x /\ q = p) \/ (h ∈ L /\ q = x) \/ (h <> x /\ h ∉ L /\ exists e, m !! h = Some e /\ last (ancestors e) = Some q).
Proof using Hadd Hshape.
  intros He'. assert (HxL : x ∉ L).
  { intros (e & He & _)%(adds_on_edge Hadd). rewrite (adds_fresh Hadd) in He. done. }
  destruct (entry_cases h e' He') as [[-> ->]|(e & He & Hx & _ & _ & Hanc & _)].
  - rewrite (adds_parent Hadd). split; [intros [= ->]; auto|]. intros [[_ ->]|[[? _]|[? _]]]; done.
  - destruct (decide (h ∈ L)) as [HL|HL].
    + destruct (adds_cut Hadd h e HL He) as (l1 & l2 & _ & _ & Hm'). rewrite Hm' in He'. injection He' as <-. cbn.
      rewrite last_snoc. split; [intros [= ->]; auto|]. intros [[? _]|[[_ ->]|(_ & ? & _)]]; done.
    + assert (Ee : ancestors e' = ancestors e) by (by destruct Hanc). rewrite Ee. split; [eauto 10|].
      intros [[? _]|[[? _]|(_ & _ & e2 & He2 & Hl)]]; [done|done|congruence].
Qed.

Lemma cut_parent d e : d ∈ L -> m !! d = Some e -> last (ancestors e) = Some p.
Proof using Hadd.
  intros HL He. destruct (adds_cut Hadd d e HL He) as (l1 & l2 & -> & Hl & _). by rewrite last_app_cons.
Qed.

Lemma new_links : links_ok m -> links_ok m'.
Proof using Hadd Hshape.
  intros Hlk. destruct parent_entry as (ep & Hep & HpL & Hpx).
  assert (Hold : forall h e d, m !! h = Some e -> h <> p -> h <> x ->
            d ∈ descendents e <-> exists e', m' !! d = Some e' /\ last (ancestors e') = Some h).
  { intros h e d He Hp Hx. rewrite (links_iff _ Hlk h e d He). split.
    - intros (ed & Hed & Hl). destruct (proj2 (entry_known d) ltac:(eauto)) as [ed' Hed']. exists ed'. split; [done|].
      apply (last_ancestor d ed' h Hed'). right. right. split_and!; [|intros HL|eauto].
      + intros ->. rewrite (adds_fresh Hadd) in Hed. done.
      + rewrite (cut_parent d ed HL Hed) in Hl. congruence.
    - intros (ed' & Hed' & Hl). apply (last_ancestor d ed' h Hed') in Hl as [[_ ?]|[[_ ?]|(_ & _ & Hl)]]; done. }
  split.
  - intros h e' He'. destruct (entry_cases h e' He') as [[-> ->]|(e & He & Hx & _ & _ & _ & [->|Hd])].
    + rewrite (adds_descendents Hadd). apply Hadd.
    + rewrite (adds_link Hadd e He) in He'. injection He' as <-. cbn. apply NoDup_app. split_and!.
      * apply NoDup_filter. by eapply links_NoDup.
      * intros d [_ Hd]%list_elem_of_filter ->%list_elem_of_singleton.
        apply (links_iff _ Hlk p e x He) in Hd as (ex & Hex & _). rewrite (adds_fresh Hadd) in Hex. done.
      * apply NoDup_singleton.
    + rewrite Hd. by eapply links_NoDup.
  - intros h e' d He'. destruct (decide (h = p)) as [->|Hp].
    + rewrite (adds_link Hadd ep Hep) in He'. injection He' as <-. cbn.
      rewrite elem_of_app, list_elem_of_filter, list_elem_of_singleton, (links_iff _ Hlk p ep d Hep). split.
      * intros [[HL (ed & Hed & Hl)]| ->]; [|exists new; split; [apply Hadd|apply Hadd]].
        destruct (proj2 (entry_known d) ltac:(eauto)) as [ed' Hed']. exists ed'. split; [done|].
        apply (last_ancestor d ed' p Hed'). right. right. split_and!; [|done|eauto].
        intros ->. rewrite (adds_fresh Hadd) in Hed. done.
      * intros (ed' & Hed' & Hl). apply (last_ancestor d ed' p Hed') in Hl as [[-> _]|[[_ ?]|(_ & HL & Hl)]]; auto. congruence.
    + destruct (entry_cases h e' He') as [[-> ->]|(e & He & Hx & _ & _ & _ & [?|Hd])]; [|done|rewrite Hd; by apply Hold].
      rewrite (adds_descendents Hadd). split.
      * intros HL. pose proof HL as (e & He & _)%(adds_on_edge Hadd).
        destruct (adds_cut Hadd d e HL He) as (l1 & l2 & _ & _ & Hm'). eexists. split; [exact Hm'|]. cbn. apply last_snoc.
      * intros (ed' & Hed' & Hl). apply (last_ancestor d ed' x Hed') in Hl as [[_ ?]|[[? _]|(_ & _ & e & He & Hl)]]; [congruence|done|].
        destruct (parent_above _ _ Hshape d e x He Hl) as ([ex Hex] & _). rewrite (adds_fresh Hadd) in Hex. done.
Qed.

Lemma parent_anc : p ∈ anc x.
Proof using Hadd Hshape.
  destruct (adds_edge Hadd) as [(l & q & rest & E & Ea & _)]. pose proof (adds_parent Hadd) as Hp.
  rewrite E, last_snoc in Hp. injection Hp as ->. rewrite Ea. set_solver.
Qed.

Lemma heads_appended heads : heads_ok m heads -> heads_ok m' ({[x]} ∪ (heads ∖ {[p]})).
Proof using Hadd Hshape.
  intros [H1 H2]. split.
  - intros h [->%elem_of_singleton|[Hh _]%elem_of_difference]%elem_of_union; apply entry_known; auto.
  - intros h [->|Hh]%entry_known; [exists x; split; [set_solver|by left]|].
    destruct (H2 h Hh) as (d & Hd & Hdh). destruct (decide (d = p)) as [->|Hn]; [|exists d; set_solver].
    exists x. split; [set_solver|]. eapply descends_trans; [done|]. right. apply parent_anc.
Qed.

Lemma heads_branched heads : L <> [] -> heads_ok m heads -> heads_ok m' heads.
Proof using Hadd Hshape.
  intros HL [H1 H2]. split; [intros h Hh; apply entry_known; auto|].
  intros h [->|Hh]%entry_known; [|by apply H2]. destruct L as [|d L'] eqn:EL; [done|].
  pose proof (adds_on_edge Hadd d) as Hd. rewrite EL in Hd. destruct (proj1 Hd ltac:(left)) as (e & He & Hin).
  destruct (H2 d ltac:(eauto)) as (k & Hk & Hdk). exists k. split; [done|].
  eapply descends_trans; [|done]. right. by eapply edge_anc.
Qed.

(** The graph after the change, with the heads it then has. *)
Lemma new_inv s base heads : graph_inv s votes -> m = entries_ s -> B = block_hash (base_ s) -> base = base_ s ->
  heads_ok m' heads -> graph_inv (mk base m' heads) votes.
Proof using Hadd Hshape.
  intros Hinv Em EB -> Hh. split; cbn [base_ entries_ heads_]; [apply Hinv| | |done|].
  - rewrite <- EB. apply new_shape.
  - apply new_links. rewrite Em. apply Hinv.
  - apply new_counted. rewrite Em. apply Hinv.
Qed.

End new_entry.
End partition.
