(* ===== verification/VoteGraphTheorems.v ===== *)
(** * The vote graph counts the votes

    Appending, introducing a branch and adding the weight of a vote, and from
    them the theorem about any sequence of votes. *)

From S2P Require Import Prelude Scale Votes VotesProps VoteGraph VoteGraphProps VoteGraphCount.
Import VoteGraphImpl Tally.

Open Scope Z_scope.

(** ** Adding a weight *)

Section weights.
Context `{Ancestry}.

(** Maps that differ in the weights only. *)
Definition same_shape (m m' : gmap bytes Entry) : Prop := forall h e', m' !! h = Some e' ->
  exists e, m !! h = Some e /\ number e' = number e /\ ancestors e' = ancestors e /\ descendents e' = descendents e.

Lemma shape_same B m m' : same_shape m m' -> same_shape m' m -> graph_shape B m -> graph_shape B m'.
Proof.
  intros Hs Hs' [HB He].
  assert (Hk : forall h, is_Some (m !! h) -> is_Some (m' !! h)) by (intros h [e [e' [? _]]%Hs']; eauto).
  split; [by apply Hk|]. intros h e' He'. destruct (Hs h e' He') as (e & Hm & En & Ea & _).
  destruct (He h e Hm) as (Hn & Hb & Hedge). split_and!; [congruence|done|]. rewrite Ea. case_decide; [done|].
  destruct Hedge as [(l & p & rest & El & Ean & Hp & Hl)]. split. exists l, p, rest. split_and!; auto.
  intros y Hy. destruct (m' !! y) as [ey|] eqn:E; [|done]. destruct (Hs y ey E) as (ey' & Hey & _).
  rewrite Hl in Hey by done. done.
Qed.

Lemma links_same m m' : same_shape m m' -> same_shape m' m -> links_ok m -> links_ok m'.
Proof.
  intros Hs Hs' Hlk. split.
  - intros h e' He'. destruct (Hs h e' He') as (e & Hm & _ & _ & ->). by eapply links_NoDup.
  - intros h e' d He'. destruct (Hs h e' He') as (e & Hm & _ & _ & ->). rewrite (links_iff m Hlk h e d Hm). split.
    + intros (ed & Hed & Hl). destruct (Hs' d ed Hed) as (ed' & Hed' & _ & Ea & _). exists ed'. split; [done|congruence].
    + intros (ed' & Hed' & Hl). destruct (Hs d ed' Hed') as (ed & Hed & _ & Ea & _). exists ed. split; [done|congruence].
Qed.

Lemma heads_same m m' heads : same_shape m m' -> same_shape m' m -> heads_ok m heads -> heads_ok m' heads.
Proof.
  intros Hs Hs' [H1 H2]. split.
  - intros h Hh. destruct (H1 h Hh) as [e (e' & He' & _)%Hs']. eauto.
  - intros h [e' (e & He & _)%Hs]. apply H2. eauto.
Qed.

Definition weighted (w : VoteWeight.t) (x : bytes) (m m' : gmap bytes Entry) : Prop := forall u,
  m' !! u = if decide (descends u x) then add_vote w <$> m !! u else m !! u.

Lemma weighted_same w x m m' : weighted w x m m' -> same_shape m m' /\ same_shape m' m.
Proof.
  intros Hw. split; intros h e He.
  - rewrite (Hw h) in He. case_decide; [|by eauto]. apply fmap_Some in He as (e0 & He0 & ->). by exists e0.
  - specialize (Hw h). rewrite He in Hw. case_decide; cbn in Hw; eexists; by rewrite Hw.
Qed.

Definition entries_above (m : gmap bytes Entry) (x : bytes) : nat :=
  length (filter (fun u => is_Some (m !! u)) (x :: anc x)).

Lemma entries_above_bound m x : (entries_above m x <= size m)%nat.
Proof.
  unfold entries_above. rewrite <- size_dom. rewrite <- (size_list_to_set (C := gset bytes)).
  - apply subseteq_size. intros u. rewrite elem_of_list_to_set, list_elem_of_filter, elem_of_dom. by intros [? _].
  - apply NoDup_filter. apply NoDup_cons. split; [intros Hx%num_lt; lia|apply anc_NoDup].
Qed.

Lemma entries_above_parent B m x e p : graph_shape B m -> m !! x = Some e -> last (ancestors e) = Some p ->
  entries_above m x = S (entries_above m p).
Proof.
  intros Hs He Hp. destruct (decide (x = B)) as [->|HB]; [by rewrite (entry_base B m Hs e He) in Hp|].
  destruct (entry_edge B m Hs x e He HB) as [(l & q & rest & El & Ea & Hq & Hl)].
  rewrite El, last_snoc in Hp. injection Hp as ->. unfold entries_above.
  rewrite filter_cons_True by (rewrite He; eauto). cbn [length]. f_equal.
  rewrite Ea, (anc_suffix _ _ _ _ Ea), filter_app. replace (filter _ l) with (@nil bytes); [done|]. symmetry.
  apply filter_none. intros y Hy. rewrite Hl by done. by intros [].
Qed.

Lemma entries_above_same m m' x : same_shape m m' -> same_shape m' m -> entries_above m' x = entries_above m x.
Proof.
  intros Hs Hs'. unfold entries_above. f_equal. apply list_filter_iff. intros u. split.
  - intros [e (e' & ? & _)%Hs]. eauto.
  - intros [e (e' & ? & _)%Hs']. eauto.
Qed.

Lemma add_upwards_spec B fuel w x m : graph_shape B m -> is_Some (m !! x) -> (entries_above m x <= fuel)%nat ->
  exists m', add_upwards fuel w x m = Ok m' /\ weighted w x m m'.
Proof.
  revert x m. induction fuel as [|fuel IH]; intros x m Hs [e He] Hf.
  { unfold entries_above in Hf. rewrite filter_cons_True in Hf by (rewrite He; eauto). cbn in Hf. lia. }
  cbn [add_upwards]. unfold at_. rewrite He. cbn.
  set (m1 := <[x := add_vote w e]> m).
  assert (Hs1 : same_shape m m1 /\ same_shape m1 m).
  { split; intros h e' He'; (destruct (decide (h = x)) as [->|Hn]; unfold m1 in *).
    - rewrite lookup_insert_eq in He'. injection He' as <-. by exists e.
    - rewrite lookup_insert_ne in He' by done. by exists e'.
    - rewrite lookup_insert_eq. eexists. split; [done|]. by simplify_eq.
    - rewrite lookup_insert_ne by done. by exists e'. }
  assert (Hnoself : forall p, p ∈ anc x -> ~ descends x p) by (intros p Hp%num_lt Hd%num_le; lia).
  destruct (last (ancestors e)) as [p|] eqn:Hp.
  - destruct (parent_above B m Hs x e p He Hp) as (Hpm & Hpx & _).
    destruct (IH p m1) as (m' & -> & Hw').
    + apply (shape_same B m); [apply Hs1|apply Hs1|done].
    + destruct Hpm as [ep Hep]. destruct (proj2 Hs1 p ep Hep) as (ep' & ? & _). eauto.
    + rewrite (entries_above_same m m1) by apply Hs1. rewrite (entries_above_parent B m x e p Hs He Hp) in Hf. lia.
    + exists m'. split; [done|]. intros u. rewrite (Hw' u). destruct (decide (u = x)) as [->|Hn].
      * rewrite decide_False by (by apply Hnoself). rewrite decide_True by (by left). unfold m1. by rewrite lookup_insert_eq, He.
      * unfold m1. rewrite lookup_insert_ne by done. destruct (m !! u) as [eu|] eqn:Hu; [|by repeat case_decide].
        assert (Hiff : descends u p <-> descends u x).
        { split; [intros Hd; eapply descends_trans; [done|by right]|]. intros Hd.
          destruct (above_cases B m Hs x e u He ltac:(eauto) Hd) as [?|(q & Hq & ?)]; [done|congruence]. }
        destruct (decide (descends u p)), (decide (descends u x)); tauto.
  - eexists. split; [done|]. intros u. destruct (decide (u = x)) as [->|Hn].
    + rewrite decide_True by (by left). unfold m1. by rewrite lookup_insert_eq, He.
    + unfold m1. rewrite lookup_insert_ne by done. destruct (m !! u) as [eu|] eqn:Hu; [|by case_decide].
      rewrite decide_False; [done|]. intros Hd.
      destruct (above_cases B m Hs x e u He ltac:(eauto) Hd) as [?|(q & Hq & ?)]; [done|congruence].
Qed.

Lemma counted_weighted m m' votes x w : weighted w x m m' -> is_Some (m !! x) -> small w ->
  counted m votes -> counted m' (votes ++ [(x, w)]).
Proof.
  intros Hw Hx Hsm [Hc He Hs]. destruct (weighted_same w x m m' Hw) as [Hs1 Hs2].
  assert (Hk : forall h, is_Some (m !! h) -> is_Some (m' !! h)) by (intros h [e (e' & ? & _)%Hs2]; eauto).
  split.
  - intros h e' He'. unfold votes_below. rewrite filter_app, fmap_app. rewrite (Hw h) in He'.
    rewrite filter_cons, filter_nil. cbn [fst]. case_decide as Hd.
    + apply fmap_Some in He' as (e & Hm & ->). cbn. rewrite tally_snoc, (Hc h e Hm). done.
    + cbn. rewrite app_nil_r. by apply Hc.
  - intros v [Hv| ->%list_elem_of_singleton]%elem_of_app; [by apply Hk, He|by apply Hk].
  - intros v [Hv| ->%list_elem_of_singleton]%elem_of_app; [by apply Hs|done].
Qed.

End weights.

Section inserting.
Context `{Ancestry}.
Implicit Types (s : t) (votes : list (bytes * VoteWeight.t)).

(** ** Appending *)

Lemma first_entry_spec m l i : (exists q, q ∈ l /\ is_Some (m !! q)) ->
  exists l1 q l2, l = l1 ++ q :: l2 /\ first_entry m l i = Some (i + length l1)%nat /\ is_Some (m !! q) /\
    forall y, y ∈ l1 -> m !! y = None.
Proof.
  revert i. induction l as [|h l IH]; intros i (q & Hq & Hm); [by apply elem_of_nil in Hq|]. cbn.
  destruct (m !! h) as [e|] eqn:E.
  - exists [], h, l. cbn. rewrite Nat.add_0_r. split_and!; [done|done|by rewrite E|by intros y ?%elem_of_nil].
  - apply elem_of_cons in Hq as [->|Hq]; [rewrite E in Hm; by destruct Hm|].
    destruct (IH (S i) ltac:(eauto)) as (l1 & q' & l2 & -> & -> & Hq' & Hl). exists (h :: l1), q', l2.
    split_and!; [done|cbn; f_equal; lia|done|]. intros y [->|Hy]%elem_of_cons; [done|by apply Hl].
Qed.

(** ** Introducing a branch *)

(** The edge of an entry around a block on it. *)
Lemma edge_around B m x d e : graph_shape B m -> m !! x = None -> m !! d = Some e -> x ∈ ancestors e ->
  exists l1 l2, ancestors e = l1 ++ x :: l2 /\ Z.to_nat (number e - num x) = S (length l1) /\ l2 <> [] /\
    edge_ok m x l2 /\ inDirectAncestry e x (num x) = true.
Proof.
  intros Hs Hx Hd Hin. assert (HdB : d <> B).
  { intros ->. rewrite (entry_base B m Hs e Hd) in Hin. by apply elem_of_nil in Hin. }
  destruct (entry_edge B m Hs d e Hd HdB) as [(l & q & rest & E & Ea & Hq & Hl)].
  assert (Hxq : x <> q) by (intros ->; rewrite Hx in Hq; by destruct Hq).
  assert (Hxl : x ∈ l) by (rewrite E in Hin; set_solver). apply list_elem_of_split in Hxl as (l1 & l2 & ->).
  exists l1, (l2 ++ [q]). rewrite <- (assoc_L (++)) in Ea. cbn in Ea.
  split_and!; [by rewrite E, <- (assoc_L (++))| |by destruct l2| |].
  - rewrite (entry_number B m Hs d e Hd), (num_suffix _ _ _ _ Ea). lia.
  - split. exists l2, q, rest. split_and!; [done|by rewrite (anc_suffix _ _ _ _ Ea)|done|]. intros y Hy. apply Hl. set_solver.
  - apply bool_decide_eq_true. by apply (ancestor_by_number B m Hs d e (num x) x Hd).
Qed.

Definition cum_at (m : gmap bytes Entry) (d : bytes) : VoteWeight.t :=
  match m !! d with Some e => cumulative_vote e | None => zero end.

(** What the loop needs of an entry, and what it makes of it. *)
Definition splits (block : BlockInfo) (e : Entry) : Prop :=
  inDirectAncestry e (block_hash block) (block_number block) = true /\
  (Z.to_nat (number e - block_number block) < length (ancestors e))%nat.

Definition cut_entry (block : BlockInfo) (e : Entry) : Entry :=
  set_ancestors (take (Z.to_nat (number e - block_number block)) (ancestors e)) e.

Lemma branch_loop_spec block l m new prev : NoDup l -> (forall d, d ∈ l -> exists e, m !! d = Some e /\ splits block e) ->
  exists m' new' prev', branch_loop block l m new prev = Ok (m', new', prev') /\
    (forall h, m' !! h = if decide (h ∈ l) then cut_entry block <$> m !! h else m !! h) /\
    number new' = number new /\ descendents new' = descendents new ++ l /\
    cumulative_vote new' = foldl VoteWeight.add (cumulative_vote new) (cum_at m <$> l) /\
    match prev, l with
    | None, d :: _ => forall e, m !! d = Some e ->
        ancestors new' = drop (Z.to_nat (number e - block_number block)) (ancestors e) /\ prev' = last (ancestors e)
    | _, _ => ancestors new' = ancestors new /\ prev' = default None prev
    end.
Proof.
  revert m new prev. induction l as [|d l IH]; intros m new prev Hnd Hl.
  { exists m, new, (default None prev). split_and!; [done|done|done|by rewrite app_nil_r|done|by destruct prev]. }
  apply NoDup_cons in Hnd as [Hd Hnd]. destruct (Hl d ltac:(left)) as (e & He & Hdir & Hoff).
  cbn [branch_loop]. unfold at_. rewrite He. cbn [ok_or mbind outcome_bind]. rewrite Hdir. cbn [negb].
  rewrite decide_False by lia.
  set (st := match prev with
             | None => (set_ancestors (drop (Z.to_nat (number e - block_number block)) (ancestors e)) new,
                        Some (last (ancestors e)))
             | Some p => (new, Some p)
             end).
  assert (Hst : exists new1 p, st = (new1, Some p) /\ number new1 = number new /\ descendents new1 = descendents new /\
    cumulative_vote new1 = cumulative_vote new /\
    match prev with
    | None => ancestors new1 = drop (Z.to_nat (number e - block_number block)) (ancestors e) /\ p = last (ancestors e)
    | Some q => ancestors new1 = ancestors new /\ p = q
    end) by (destruct prev; eexists _, _; split_and!; done).
  destruct Hst as (new1 & p & -> & En & Ed & Ec & Ep). fold (cut_entry block e).
  edestruct (IH (<[d := cut_entry block e]> m)) as (m' & new' & prev' & -> & Hm' & En' & Ed' & Ec' & Ep'); [done| |].
  { intros k Hk. rewrite lookup_insert_ne by (intros ->; done). apply Hl. by right. }
  exists m', new', prev'. split_and!; [done| |cbn in En'; congruence| | |].
  - intros h. rewrite Hm'. destruct (decide (h = d)) as [->|Hn].
    + rewrite decide_False, decide_True by (done || left). by rewrite lookup_insert_eq, He.
    + rewrite lookup_insert_ne by done. destruct (decide (h ∈ l)), (decide (h ∈ d :: l)); set_solver.
  - rewrite Ed'. cbn. by rewrite Ed, <- (assoc_L (++)).
  - assert (Hc : cum_at m d = cumulative_vote e) by (unfold cum_at; by rewrite He).
    rewrite Ec'. cbn. rewrite Ec, Hc. f_equal. apply list_fmap_ext. intros i k Hk.
    unfold cum_at. rewrite lookup_insert_ne; [done|]. intros ->. apply Hd. by eapply list_elem_of_lookup_2.
  - cbn in Ep'. destruct Ep' as [Ea' ->]. destruct prev as [q|]; [by destruct Ep as [<- ->]|].
    intros e0 He0. assert (e0 = e) as -> by (apply Some_inj; by rewrite <- He, <- He0). by destruct Ep as [<- ->].
Qed.

Lemma edge_unique m x a b : edge_ok m x a -> edge_ok m x b -> a = b.
Proof.
  intros [(l & p & r & -> & E & Hp & Hl)] [(l' & p' & r' & -> & E' & Hp' & Hl')]. rewrite E in E'. clear E.
  revert l' Hl' E'. induction l as [|y l IH]; intros [|y' l'] Hl' E; injection E as -> E; [done| | |].
  - rewrite (Hl' y') in Hp by left. by destruct Hp.
  - rewrite (Hl p') in Hp' by left. by destruct Hp'.
  - cbn. f_equal. apply IH; [|by intros z Hz; apply Hl'; right|done]. intros z Hz. apply Hl. by right.
Qed.

(** The votes at or below a block are those of the entries whose edges contain
    it. *)
Lemma branch_votes B m votes block L : graph_shape B m -> counted m votes -> m !! block_hash block = None ->
  descends B (block_hash block) -> NoDup L -> (forall d, d ∈ L <-> on_edge m block d) ->
  foldl VoteWeight.add zero (cum_at m <$> L) = tally (votes_below votes (block_hash block)).
Proof.
  intros Hs Hc Hx HB Hnd HL. set (x := block_hash block) in *.
  assert (E : cum_at m <$> L = tally <$> (votes_below votes <$> L)).
  { rewrite <- list_fmap_compose. apply list_fmap_ext. intros i d (e & He & _)%list_elem_of_lookup_2%HL. unfold cum_at.
    rewrite He. by apply (counted_votes m votes Hc). }
  rewrite E. change zero with (tally []). rewrite foldl_tally.
  - apply tally_permutation. symmetry. apply votes_partition; [done| | |].
    + intros v d Hv (e & He & Hin)%HL Hd. eapply descends_trans; [|done]. right. by eapply edge_anc.
    + intros v Hv Hd. destruct (counted_entry m votes Hc v Hv) as [ev Hev]. destruct Hd as [Ev|Hxv]; [rewrite Ev in Hev; congruence|].
      destruct (on_some_edge B m Hs x v.1 ev Hx HB Hev Hxv) as (u & eu & Hu & Hd & Hin). exists u. split; [|done].
      apply HL. by exists eu.
    + intros v d d' Hv (e & He & Hin)%HL (e' & He' & Hin')%HL Hd Hd'. by eapply (edges_apart B m Hs x d' e' d e v.1).
  - apply Forall_fmap, Forall_forall. intros d _. cbn. unfold votes_below. apply Forall_fmap, Forall_forall.
    intros v [_ Hv]%list_elem_of_filter. by apply (counted_small m votes Hc).
Qed.

Section branch.
Variables (B : bytes) (m : gmap bytes Entry) (block : BlockInfo) (L : list bytes) (votes : list (bytes * VoteWeight.t)).
Notation x := (block_hash block).
Hypothesis Hs : graph_shape B m.
Hypothesis Hc : counted m votes.
Hypothesis Hnum : block_number block = num x.
Hypothesis Hx : m !! x = None.
Hypothesis HB : descends B x.
Hypothesis Hne : L <> [].
Hypothesis Hnd : NoDup L.
Hypothesis HL : forall d, d ∈ L <-> on_edge m block d.

(** All the edges continue above the block in the same way. *)
Lemma branch_target : exists l2 p, edge_ok m x l2 /\ last l2 = Some p /\
  forall d e, d ∈ L -> m !! d = Some e -> exists l1, ancestors e = l1 ++ x :: l2 /\
    Z.to_nat (number e - block_number block) = S (length l1) /\ inDirectAncestry e x (block_number block) = true.
Proof using Hs Hnum Hx Hne Hnd HL.
  assert (Har : forall d e, d ∈ L -> m !! d = Some e -> exists l1 l2, ancestors e = l1 ++ x :: l2 /\
    Z.to_nat (number e - num x) = S (length l1) /\ l2 <> [] /\ edge_ok m x l2 /\ inDirectAncestry e x (num x) = true).
  { intros d e (e' & He' & Hin)%HL He. assert (e' = e) as -> by congruence. by apply (edge_around B m x d e). }
  destruct L as [|d0 L'] eqn:EL; [done|]. destruct (proj1 (HL d0) ltac:(left)) as (e0 & He0 & _).
  destruct (Har d0 e0 ltac:(left) He0) as (_ & l2 & _ & _ & _ & Hedge & _). exists l2.
  pose proof Hedge as [(l & p & _ & -> & _)]. exists p. split; [done|]. split; [apply last_snoc|].
  intros d e Hd He. destruct (Har d e Hd He) as (l1 & l2' & Ea & Eo & _ & Hedge' & Hdir). exists l1.
  rewrite Hnum. rewrite (edge_unique m x _ _ Hedge Hedge'). done.
Qed.

Lemma introduceBranch_adds s : entries_ s = m ->
  exists m' p new, introduceBranch L block s = Ok (tt, set_entries m' s) /\ adds_entry B x p L m m' new votes.
Proof using All.
  intros Em. destruct branch_target as (l2 & p & Hedge & Hp & Hcut).
  destruct (branch_loop_spec block L m (new_entry (block_number block)) None Hnd)
    as (m1 & new & prev & Hloop & Hm1 & En & Ed & Ec & Ep).
  { intros d Hd. destruct (proj1 (HL d) Hd) as (e & He & _). exists e. split; [done|].
    destruct (Hcut d e Hd He) as (l1 & Ea & Eo & Hdir). split; [done|]. rewrite Eo, Ea, length_app.
    destruct l2; [done|]. cbn. lia. }
  pose proof Hedge as [(l & q & r & El & Eax & [ep Hep] & _)].
  assert (q = p) as -> by (rewrite El, last_snoc in Hp; congruence).
  assert (Hpx : p ∈ anc x) by (rewrite Eax; set_solver).
  assert (HpL : p ∉ L).
  { intros (e & He & Hin)%HL. pose proof (num_lt _ _ (edge_anc B m Hs _ _ _ He Hin)). apply num_lt in Hpx. lia. }
  assert (HxL : x ∉ L) by (intros (e & He & _)%HL; congruence).
  assert (Hnew : ancestors new = l2 /\ prev = Some p).
  { destruct L as [|d0 L'] eqn:EL; [done|]. destruct (proj1 (HL d0) ltac:(left)) as (e0 & He0 & _).
    destruct (Hcut d0 e0 ltac:(left) He0) as (l1 & Ea & Eo & _). destruct (Ep e0 He0) as [Ean Epr].
    rewrite Eo, Ea in Ean. rewrite Ea, last_app_cons in Epr. split.
    - rewrite Ean. replace (l1 ++ x :: l2) with ((l1 ++ [x]) ++ l2) by (by rewrite <- (assoc_L (++))).
      apply drop_app_length'. rewrite length_app. cbn. lia.
    - rewrite Epr. destruct l2; [done|exact Hp]. }
  destruct Hnew as [Ean ->].
  assert (Hm1p : m1 !! p = Some ep) by (rewrite Hm1, decide_False; done).
  set (m2 := <[p := set_descendents (filter (fun h => h ∉ L) (descendents ep) ++ [x]) ep]> m1).
  assert (Hpx' : p <> x) by (intros E; rewrite E in Hep; congruence).
  assert (Hm2x : m2 !! x = None) by (unfold m2; rewrite lookup_insert_ne, Hm1, decide_False; done).
  exists (<[x := new]> m2), p, new. split.
  { unfold introduceBranch, mbind, act_bind, gets, lift. rewrite Em, Hloop. cbn [mbind outcome_bind]. unfold at_.
    rewrite Hm1p. cbn [ok_or mbind outcome_bind]. rewrite Ed. cbn [descendents new_entry app]. fold m2. unfold modify.
    by rewrite Hm2x. }
  cbn in Ec. split; try done.
  - apply lookup_insert_eq.
  - cbn in En. congruence.
  - by rewrite Ean.
  - by rewrite Ean.
  - intros d e Hd He. destruct (Hcut d e Hd He) as (l1 & Ea & Eo & _). exists l1, l2. split; [done|]. split; [by destruct l2|].
    rewrite lookup_insert_ne by (intros <-; done). unfold m2. rewrite lookup_insert_ne by (intros <-; done).
    rewrite Hm1, decide_True, He by done. cbn. unfold cut_entry. rewrite Eo, Ea. do 2 f_equal.
    replace (l1 ++ x :: l2) with ((l1 ++ [x]) ++ l2) by (by rewrite <- (assoc_L (++))).
    apply take_app_length'. rewrite length_app. cbn. lia.
  - intros e He. assert (e = ep) as -> by congruence. rewrite lookup_insert_ne by done. apply lookup_insert_eq.
  - intros h H1 H2 H3. rewrite lookup_insert_ne by done. unfold m2. rewrite lookup_insert_ne by done.
    by rewrite Hm1, decide_False.
  - rewrite Ec. by eapply branch_votes.
Qed.

End branch.

(** ** Inserting a vote *)

(** What inserting makes of a graph before the weight is added. *)
Definition prepared s votes (block : BlockInfo) (r : outcome (outcome unit * t)) : Prop :=
  exists s', r = Ok (Ok tt, s') /\ base_ s' = base_ s /\ graph_inv s' votes /\ is_Some (entries_ s' !! block_hash block) /\
    forall h, is_Some (entries_ s' !! h) -> h = block_hash block \/ is_Some (entries_ s !! h).

(** A new entry prepares the graph for the vote. *)
Lemma prepared_adds s votes block p L m' new heads (r : outcome (outcome unit * t)) : graph_inv s votes ->
  adds_entry (block_hash (base_ s)) (block_hash block) p L (entries_ s) m' new votes -> heads_ok m' heads ->
  r = Ok (Ok tt, mk (base_ s) m' heads) -> prepared s votes block r.
Proof.
  intros Hinv Hadd Hheads ->. pose proof (inv_shape _ _ Hinv) as Hs. eexists. split; [done|]. split; [done|].
  split; [by eapply new_inv|]. cbn. split; [rewrite (adds_new _ _ _ _ _ _ _ _ Hadd); eauto|].
  intros h [e He]. destruct (entry_cases _ _ _ _ _ _ _ _ Hadd Hs h e He) as [[-> _]|(e0 & He0 & _)]; [by left|right; eauto].
Qed.

Lemma not_on_edge s votes block : graph_inv s votes -> ~ descends (block_hash (base_ s)) (block_hash block) ->
  entries_ s !! block_hash block = None /\ forall d, ~ on_edge (entries_ s) block d.
Proof.
  intros Hinv Hno. pose proof (inv_shape _ _ Hinv) as Hs. split.
  - apply eq_None_not_Some. intros [e He]. apply Hno. by apply (entry_below _ _ Hs _ e).
  - intros d (e & He & Hin). set (B := block_hash (base_ s)) in *. set (m := entries_ s) in *.
    destruct (m !! block_hash block) as [ex|] eqn:Ex; [apply Hno; by apply (entry_below _ _ Hs _ ex)|].
    destruct (edge_around B m _ d e Hs Ex He Hin) as (l1 & l2 & Ea & _ & _ & _).
    destruct (entry_below _ _ Hs d e He) as [->|HBd]; [rewrite (entry_base _ _ Hs e He) in Ea; by destruct l1|].
    destruct (anc_linear B (block_hash block) d HBd (edge_anc _ _ Hs _ _ _ He Hin)) as [E|[HB|HxB]].
    + apply Hno. by left.
    + apply Hno. by right.
    + destruct (edge_around B m _ d e Hs Ex He Hin) as (k1 & k2 & _ & _ & _ & [(l & q & r & _ & Eax & [eq Hq] & _)] & _).
      assert (Hqx : q ∈ anc (block_hash block)) by (rewrite Eax; set_solver).
      pose proof (num_le _ _ (entry_below _ _ Hs q eq Hq)). apply num_lt in Hqx, HxB. lia.
Qed.

Lemma graph_create_inv base : block_number base = num (block_hash base) -> graph_inv (create base) [].
Proof.
  intros Hn. split; cbn [create base_ entries_ heads_]; [done| | | |].
  - split; [by rewrite lookup_singleton_eq|]. intros h e [<- <-]%lookup_singleton_Some.
    split_and!; [done|by left|by rewrite decide_True].
  - split; intros h e; [|intros d]; intros [<- <-]%lookup_singleton_Some; [constructor|]. split; [by intros ?%elem_of_nil|].
    by intros (e' & [_ <-]%lookup_singleton_Some & Hl).
  - split; [intros h ->%elem_of_singleton; by rewrite lookup_singleton_eq|].
    intros h [e [<- _]%lookup_singleton_Some]. exists (block_hash base). split; [set_solver|by left].
  - split; [|by intros v ?%elem_of_nil..]. by intros h e [_ <-]%lookup_singleton_Some.
Qed.

Context `{!Chain} `{!ChainSpec}.

(** A block below the base that no edge contains gets an entry at the end. *)
Lemma append_spec s votes block l0 : graph_inv s votes -> block_number block = num (block_hash block) ->
  entries_ s !! block_hash block = None -> getAncestry (block_hash (base_ s)) (block_hash block) = Ok l0 ->
  (forall d, ~ on_edge (entries_ s) block d) -> prepared s votes block (append block s).
Proof.
  intros Hinv Hnum Hx Hb Hno. set (x := block_hash block) in *. set (B := block_hash (base_ s)) in *.
  set (m := entries_ s) in *. pose proof (inv_shape _ _ Hinv) as Hs. fold B m in Hs.
  destruct (shape_base _ _ Hs) as [eB HeB].
  assert (HBx : B <> x) by (intros E; rewrite E in HeB; congruence).
  destruct (getAncestry_sound B x l0 HBx Hb) as [rest Ea]. assert (HB : B ∈ anc x) by (rewrite Ea; set_solver).
  destruct (first_entry_spec m (l0 ++ [B]) 0) as (l1 & q & l2 & El & Hf & [eq Hq] & Hl1).
  { exists B. split; [set_solver|]. eauto. }
  assert (Eax : anc x = l1 ++ q :: (l2 ++ rest)).
  { rewrite Ea. change (l0 ++ B :: rest) with (l0 ++ [B] ++ rest). rewrite (assoc_L (++)), El, <- (assoc_L (++)). done. }
  set (new := set_ancestors (l1 ++ [q]) (new_entry (block_number block))).
  set (m1 := alter (fun e => set_descendents (descendents e ++ [x]) e) q m).
  assert (Hqx : q <> x) by (intros ->; congruence).
  assert (Hm1 : m1 !! x = None) by (unfold m1; by rewrite lookup_alter_ne).
  assert (Hnone : votes_below votes x = []).
  { unfold votes_below. rewrite filter_none; [done|]. intros v Hv Hd.
    destruct (counted_entry _ _ (inv_counted _ _ Hinv) v Hv) as [ev Hev]. fold m in Hev.
    destruct Hd as [E|Hxv]; [rewrite E in Hev; congruence|].
    destruct (on_some_edge B m Hs x v.1 ev Hx ltac:(by right) Hev Hxv) as (u & eu & Hu & _ & Hin).
    apply (Hno u). by exists eu. }
  assert (Hadd : adds_entry B x q [] m (<[x := new]> m1) new votes).
  { split; try done.
    - by right.
    - by rewrite lookup_insert_eq.
    - split. exists l1, q, (l2 ++ rest). split_and!; eauto.
    - cbn. by rewrite last_snoc.
    - constructor.
    - intros d. split; [by intros ?%elem_of_nil|]. intros Hd. by destruct (Hno d).
    - by intros d e ?%elem_of_nil.
    - intros e He. rewrite lookup_insert_ne by done. unfold m1. rewrite lookup_alter_eq, He. cbn. do 3 f_equal.
      by rewrite filter_all by set_solver.
    - intros h ? ? _. rewrite lookup_insert_ne by done. unfold m1. by rewrite lookup_alter_ne.
    - cbn. by rewrite Hnone. }
  eapply (prepared_adds _ _ _ _ _ _ _ ({[x]} ∪ (heads_ s ∖ {[q]}))); [done|exact Hadd| |].
  - eapply heads_appended; [done|done|apply Hinv].
  - assert (Hidx : (l0 ++ [B]) !! length l1 = Some q) by (rewrite El; by apply list_lookup_middle).
    assert (Htake : take (S (length l1)) (l0 ++ [B]) = l1 ++ [q]).
    { rewrite El. change (l1 ++ q :: l2) with (l1 ++ [q] ++ l2). rewrite (assoc_L (++)). apply take_app_length'.
      rewrite length_app. cbn. lia. }
    unfold append, mbind, act_bind, gets, try, mret, act_ret. fold B x m. rewrite Hb.
    unfold mbind, act_bind, lift, modify. rewrite Hf. change (default 0%nat (Some (0 + length l1)%nat)) with (length l1). rewrite Hidx.
    cbn [ok_or]. rewrite Htake. fold m1 new. by rewrite Hm1.
Qed.

Variable order : gset bytes -> list bytes.
Hypothesis Horder : forall X, order X ≡ₚ elements X.

(** The block gets an entry unless the chain does not lead from it to the base. *)
Lemma ensure_entry_spec s votes block : graph_inv s votes -> block_number block = num (block_hash block) ->
  (prepared s votes block (ensure_entry order block s) /\ descends (block_hash (base_ s)) (block_hash block)) \/
  exists e, getAncestry (block_hash (base_ s)) (block_hash block) = Err e /\ ensure_entry order block s = Ok (Err e, s).
Proof using All.
  intros Hinv Hnum. pose proof (inv_shape _ _ Hinv) as Hs. unfold ensure_entry, mbind, act_bind, gets, lift.
  destruct (entries_ s !! block_hash block) as [e|] eqn:He.
  { left. unfold findContainingNodes. rewrite decide_True by (rewrite He; eauto).
    split; [|by eapply entry_below]. exists s. split_and!; [done..|rewrite He; eauto|auto]. }
  destruct (findContaining_spec order block s Horder Hs (inv_heads _ _ Hinv) Hnum He) as (c & -> & Hnd & HL).
  destruct c as [|c0 c].
  - destruct (getAncestry (block_hash (base_ s)) (block_hash block)) as [l0|err] eqn:Ha.
    + left. split; [apply (append_spec _ _ _ l0); [done..|]; intros d Hd%HL; by apply elem_of_nil in Hd|]. right.
      assert (HBx : block_hash (base_ s) <> block_hash block).
      { intros E. destruct (shape_base _ _ Hs) as [eB HeB]. rewrite E in HeB. congruence. }
      destruct (getAncestry_sound _ _ l0 HBx Ha) as [rest ->]. set_solver.
    + right. exists err. split; [done|]. unfold append, mbind, act_bind, gets, try, mret, act_ret. by rewrite Ha.
  - left. assert (HB : descends (block_hash (base_ s)) (block_hash block)).
    { destruct (decide (descends (block_hash (base_ s)) (block_hash block))) as [|Hno]; [done|].
      destruct (not_on_edge s votes block Hinv Hno) as [_ Hno']. destruct (Hno' c0). apply HL. left. }
    split; [|done].
    destruct (introduceBranch_adds _ _ block (c0 :: c) votes Hs (inv_counted _ _ Hinv) Hnum He HB ltac:(done) Hnd HL s eq_refl)
      as (m' & p & new & Hr & Hadd).
    eapply prepared_adds; [done|exact Hadd|eapply heads_branched; [done..|apply Hinv]|by rewrite Hr].
Qed.

(** A vote is counted, or the chain does not lead to the base and nothing changes. *)
Lemma graph_insert_spec s votes block w : graph_inv s votes -> block_number block = num (block_hash block) -> small w ->
  (exists s', insert order block w s = Ok (Ok tt, s') /\ base_ s' = base_ s /\
     graph_inv s' (votes ++ [(block_hash block, w)]) /\ descends (block_hash (base_ s)) (block_hash block) /\
     forall h, is_Some (entries_ s' !! h) -> h = block_hash block \/ is_Some (entries_ s !! h)) \/
  exists e, getAncestry (block_hash (base_ s)) (block_hash block) = Err e /\ insert order block w s = Ok (Err e, s).
Proof using All.
  intros Hinv Hnum Hw. unfold insert, try, mbind, act_bind.
  destruct (ensure_entry_spec s votes block Hinv Hnum) as [[(s1 & -> & Hbase & Hinv1 & Hx1 & Hk1) HB]|(e & He & ->)].
  - left. pose proof (inv_shape _ _ Hinv1) as Hs1.
    destruct (add_upwards_spec _ (size (entries_ s1)) w (block_hash block) _ Hs1 Hx1 (entries_above_bound _ _)) as (m' & Hup & Hwt).
    exists (set_entries m' s1). unfold gets, lift. rewrite Hup. split; [done|]. split; [done|].
    destruct (weighted_same _ _ _ _ Hwt) as [Hs2 Hs3].
    split; [|split; [done|]; intros h [e' (e1 & ? & _)%Hs2]; apply Hk1; eauto].
    split; cbn; [apply Hinv1|by eapply shape_same|eapply links_same; [done..|apply Hinv1]|
      eapply heads_same; [done..|apply Hinv1]|eapply counted_weighted; [done..|apply Hinv1]].
  - right. by exists e.
Qed.

(** ** Sequences of votes *)

Context `{!ChainComplete}.

(** The answers of a complete chain. *)
Lemma ancestry_refused base block e : getAncestry base block = Err e -> ~ descends base block.
Proof.
  intros E [->|[l Hl]%getAncestry_complete]; [rewrite getAncestry_self in E|]; congruence.
Qed.

Fixpoint insert_all (l : list (BlockInfo * VoteWeight.t)) : act t (list (outcome unit)) :=
  match l with
  | [] => mret []
  | (b, w) :: l' => r ← insert order b w; rs ← insert_all l'; mret (r :: rs)
  end.

Definition vote_ok (v : BlockInfo * VoteWeight.t) : Prop := block_number v.1 = num (block_hash v.1) /\ small v.2.

Definition accepted (B : bytes) (l : list (BlockInfo * VoteWeight.t)) : list (bytes * VoteWeight.t) :=
  (fun v => (block_hash v.1, v.2)) <$> filter (fun v => descends B (block_hash v.1)) l.

Lemma insert_all_spec l s votes : graph_inv s votes -> Forall vote_ok l ->
  exists rs s', insert_all l s = Ok (rs, s') /\ base_ s' = base_ s /\
    graph_inv s' (votes ++ accepted (block_hash (base_ s)) l) /\
    Forall2 (fun v r => r = Ok tt <-> descends (block_hash (base_ s)) (block_hash v.1)) l rs.
Proof using All.
  revert s votes. induction l as [|[b w] l IH]; intros s votes Hinv Hl.
  { exists [], s. unfold accepted. cbn. rewrite app_nil_r. by split_and!. }
  apply Forall_cons in Hl as [[Hn Hw] Hl]. cbn in Hn, Hw.
  unfold accepted. rewrite filter_cons. cbn [fst]. cbn [insert_all]. unfold mbind, act_bind, mret, act_ret.
  destruct (graph_insert_spec s votes b w Hinv Hn Hw) as [(s1 & -> & Hb & Hinv1 & HB & _)|(e & HB%ancestry_refused & ->)].
  - rewrite decide_True by done. destruct (IH s1 _ Hinv1 Hl) as (rs & s' & -> & Hb' & Hinv' & Hrs).
    rewrite Hb in *. eexists _, s'. split_and!; [done|done| |constructor; [done|exact Hrs]].
    rewrite fmap_cons. cbn [fst snd]. by rewrite <- (assoc_L (++)) in Hinv'.
  - rewrite decide_False by done. destruct (IH s _ Hinv Hl) as (rs & s' & -> & Hb' & Hinv' & Hrs).
    eexists _, s'. split_and!; [done|done|done|constructor; [done|exact Hrs]].
Qed.

(** C34. From a graph with a base, over a chain that knows every block, whatever votes are inserted in whatever order:
    every insertion returns, it succeeds exactly for the blocks at or below the
    base, every block that got a vote has an entry, and the weight of every
    entry, also of those that were put between others later, is the sum of the
    votes for its block and the blocks below it. *)
Theorem votes_counted (base : BlockInfo) (l : list (BlockInfo * VoteWeight.t)) :
  block_number base = num (block_hash base) -> Forall vote_ok l ->
  exists rs s, insert_all l (create base) = Ok (rs, s) /\
    Forall2 (fun v r => r = Ok tt <-> descends (block_hash base) (block_hash v.1)) l rs /\
    (forall v, v ∈ accepted (block_hash base) l -> is_Some (entries_ s !! v.1)) /\
    (forall h e, entries_ s !! h = Some e -> number e = num h /\
       cumulative_vote e = tally (votes_below (accepted (block_hash base) l) h)).
Proof using All.
  intros Hb Hl. destruct (insert_all_spec l (create base) [] (graph_create_inv base Hb) Hl) as (rs & s & Hr & _ & Hinv & Hrs).
  exists rs, s. split_and!; [done|done|apply (inv_counted _ _ Hinv)|]. intros h e He. split.
  - by apply (entry_number _ _ (inv_shape _ _ Hinv)).
  - by apply (counted_votes _ _ (inv_counted _ _ Hinv)).
Qed.

End inserting.
