(* ===== verification/VoteGraphGhost.v ===== *)
(** * The block chosen by the vote graph

    The searches return, and what they return is supported: the votes at or
    below the block fulfil the condition. *)

From S2P Require Import Prelude Scale Votes VotesProps VoteGraph VoteGraphProps VoteGraphCount VoteGraphTheorems.
Import VoteGraphImpl Tally.

Open Scope Z_scope.

Lemma at_known h m e : m !! h = Some e -> at_ h m = Ok e.
Proof. intros He. unfold at_. by rewrite He. Qed.

Section ghost.
Context `{Ancestry}.
Variables (condition : VoteWeight.t -> outcome bool) (comparator : VoteWeight.t -> VoteWeight.t -> bool).
Variable cond : VoteWeight.t -> bool.
Variables (B : bytes) (m : gmap bytes Entry) (votes : list (bytes * VoteWeight.t)).
Hypothesis Hshape : graph_shape B m.
Hypothesis Hlinks : links_ok m.
Hypothesis Hcounted : counted m votes.
Hypothesis Hrange : forall h, is_Some (m !! h) -> num h < 2 ^ 64.
(** The condition is evaluated for sums of votes only. *)
Hypothesis Hcond : forall a, condition (tally a) = Ok (cond (tally a)).
(** What is known of a block when some of the votes at or below it fulfil the
    condition. *)
Variable supported : bytes -> Prop.
Hypothesis Henough : forall x a, a ⊆+ votes_below votes x -> cond (tally a) = true -> supported x.

Lemma supported_entry h : cond (tally (votes_below votes h)) = true -> supported h.
Proof using Henough. by apply Henough. Qed.

(** ** The deepest entry *)

Definition entry_at (h : bytes) (e : Entry) : Prop := m !! h = Some e.

Lemma entry_condition h e : m !! h = Some e -> condition (cumulative_vote e) = Ok (cond (tally (votes_below votes h))).
Proof using Hcounted Hcond. intros He. by rewrite (counted_votes m votes Hcounted h e He). Qed.

Lemma ghost_step_spec constrain l node_key active queue Q : (forall d, d ∈ l -> is_Some (m !! d)) ->
  entry_at node_key active -> supported node_key -> Forall2 entry_at Q queue ->
  exists k a q C, ghost_step condition m constrain l node_key active queue = Ok (k, a, q) /\
    entry_at k a /\ supported k /\ Forall2 entry_at (Q ++ C) q /\ C `sublist_of` l.
Proof using All.
  revert node_key active queue Q. induction l as [|h l IH]; intros k a q Q Hl Hk Hsup HQ; cbn [ghost_step].
  { exists k, a, q, []. rewrite app_nil_r. split_and!; done. }
  destruct (Hl h ltac:(left)) as [e He]. unfold at_. rewrite He. cbn [ok_or mbind outcome_bind].
  assert (Hskip : exists k' a' q' C, ghost_step condition m constrain l k a q = Ok (k', a', q') /\
    entry_at k' a' /\ supported k' /\ Forall2 entry_at (Q ++ C) q' /\ C `sublist_of` h :: l).
  { destruct (IH k a q Q) as (k' & a' & q' & C & ? & ? & ? & ? & ?); [|done..|].
    - intros d Hd. apply Hl. by right.
    - exists k', a', q', C. split_and!; [done..|by apply sublist_cons]. }
  destruct (match constrain with Some b => _ | None => _ end); [done|].
  rewrite (entry_condition h e He). cbn [mbind outcome_bind]. destruct (cond _ && _) eqn:Hb; [|done].
  apply andb_true_iff in Hb as [Hb _].
  destruct (IH h e (q ++ [e]) (Q ++ [h])) as (k' & a' & q' & C & ? & ? & ? & HF & ?); [|done|by apply supported_entry| |].
  - intros d Hd. apply Hl. by right.
  - apply Forall2_app; [done|]. by repeat constructor.
  - exists k', a', q', (h :: C). rewrite <- (assoc_L (++)) in HF. split_and!; [done..|by apply sublist_skip].
Qed.

(** The entries taken from the queue so far and those in it are different: an
    entry is reached from its parent only. *)
Record visits (start : bytes) (V Q : list bytes) : Prop := {
  visits_NoDup : NoDup (V ++ Q);
  visits_known h : h ∈ V ++ Q -> is_Some (m !! h) /\ descends start h;
  visits_parent h : h ∈ V ++ Q -> h = start \/ exists e p, m !! h = Some e /\ last (ancestors e) = Some p /\ p ∈ V
}.

Lemma visits_step start V q Q e C : visits start V (q :: Q) -> m !! q = Some e -> C `sublist_of` descendents e ->
  visits start (V ++ [q]) (Q ++ C).
Proof using All.
  intros [Hnd Hk Hp] Hq HC.
  assert (Hchild : forall c, c ∈ C -> exists ec, m !! c = Some ec /\ last (ancestors ec) = Some q).
  { intros c Hc. apply (links_iff m Hlinks q e c Hq). by eapply elem_of_submseteq, sublist_submseteq. }
  assert (HqV : q ∉ V) by (intros Hin; apply NoDup_app in Hnd as (_ & Hno & _); apply (Hno q Hin); left).
  assert (Hfresh : forall c, c ∈ C -> c ∉ V ++ q :: Q).
  { intros c Hc Hin. destruct (Hchild c Hc) as (ec & Hec & Hl). destruct (Hp c Hin) as [->|(e' & p' & He' & Hl' & HpV)].
    - destruct (parent_above B m Hshape _ _ _ Hec Hl) as (_ & Hqa & _). apply num_lt in Hqa.
      assert (Hsq : descends start q) by (apply Hk; set_solver). apply num_le in Hsq. lia.
    - apply HqV. congruence. }
  assert (Eq : (V ++ [q]) ++ Q ++ C = (V ++ q :: Q) ++ C) by (by rewrite <- !(assoc_L (++))).
  split; rewrite ?Eq.
  - apply NoDup_app. split_and!; [done|set_solver|]. eapply sublist_NoDup; [|done]. by eapply links_NoDup.
  - intros h [Hh|Hh]%elem_of_app; [by apply Hk|]. destruct (Hchild h Hh) as (eh & Heh & Hl). split; [eauto|].
    destruct (parent_above B m Hshape _ _ _ Heh Hl) as (_ & Hqh & _). apply (descends_trans _ q); [apply Hk; set_solver|by right].
  - intros h [Hh|Hh]%elem_of_app.
    + destruct (Hp h Hh) as [->|(e' & p' & ? & ? & ?)]; [by left|]. right. exists e', p'. set_solver.
    + right. destruct (Hchild h Hh) as (eh & Heh & Hl). exists eh, q. set_solver.
Qed.

Lemma visits_bound start V Q : visits start V Q -> (length V + length Q <= size m)%nat.
Proof.
  intros [Hnd Hk _]. rewrite <- length_app, <- size_dom, <- (size_list_to_set (C := gset bytes)) by done.
  apply subseteq_size. intros h. rewrite elem_of_list_to_set, elem_of_dom. by intros [? _]%Hk.
Qed.

Lemma ghost_loop_spec fuel constrain start V Q queue node_key active : visits start V Q -> (size m <= fuel + length V)%nat ->
  Forall2 entry_at Q queue -> entry_at node_key active -> supported node_key ->
  exists k a, ghost_loop condition fuel m constrain queue node_key active = Ok (k, a) /\ entry_at k a /\ supported k.
Proof using All.
  revert constrain V Q queue node_key active. induction fuel as [|fuel IH]; intros constrain V Q queue k a HV Hf HQ Hk Hs.
  - destruct HQ as [|q e Q queue Hq HQ]; [by exists k, a|]. apply visits_bound in HV. cbn in HV. lia.
  - destruct HQ as [|q e Q queue Hq HQ]; [by exists k, a|]. cbn [ghost_loop].
    destruct (ghost_step_spec constrain (descendents e) k a queue Q) as (k' & a' & q' & C & -> & Hk' & Hs' & HQ' & HC); [|done..|].
    + intros d (ed & Hed & _)%(links_iff m Hlinks q e d Hq). eauto.
    + cbn [mbind outcome_bind]. eapply IH; [by eapply visits_step| |done..]. rewrite length_app. cbn. lia.
Qed.

(** ** The merge point *)

Lemma edges_bound d e : m !! d = Some e -> (length (ancestors e) <= edges m)%nat.
Proof.
  intros He. unfold edges. rewrite <- (insert_delete_id m d e He), map_fold_insert_L; [lia|intros; lia|apply lookup_delete_eq].
Qed.

(** A block on the edge of an entry, below the entry above. *)
Lemma edge_interior d e p x : m !! d = Some e -> last (ancestors e) = Some p -> x ∈ ancestors e -> num p < num x ->
  m !! x = None /\ descends B x /\ num x - num p < Z.of_nat (length (ancestors e)).
Proof using All.
  intros He Hp Hx Hn. destruct (decide (d = B)) as [->|HB]; [by rewrite (entry_base B m Hshape e He) in Hp|].
  destruct (entry_edge B m Hshape d e He HB) as [(l & q & rest & E & Ea & [eq Hq] & Hl)].
  rewrite E, last_snoc in Hp. injection Hp as ->.
  assert (Hxl : x ∈ l). { rewrite E in Hx. apply elem_of_app in Hx as [?| ->%list_elem_of_singleton]; [done|lia]. }
  split; [by apply Hl|]. apply list_elem_of_split in Hxl as (l1 & l2 & ->). rewrite <- (assoc_L (++)) in Ea. cbn in Ea.
  pose proof (anc_suffix _ _ _ _ Ea) as Eax. split.
  - eapply (descends_trans _ p); [by eapply entry_below|]. right. rewrite Eax. set_solver.
  - pose proof (num_suffix x l2 p rest Eax). rewrite E, !length_app. cbn. lia.
Qed.

(** Enough votes below some of the entries around a block are enough for it. *)
Lemma supported_by x D : m !! x = None -> NoDup D -> (forall d, d ∈ D -> exists e, m !! d = Some e /\ x ∈ ancestors e) ->
  cond (tally (concat (votes_below votes <$> D))) = true -> supported x.
Proof using All.
  intros Hx Hnd HD. apply Henough, votes_submseteq; [done| |].
  - intros v d Hv (e & He & Hin)%HD Hd. eapply descends_trans; [|done]. right. by eapply edge_anc.
  - intros v d d' Hv (e & He & Hin)%HD (e' & He' & Hin')%HD Hd Hd'. by eapply (edges_apart B m Hshape x d' e' d e v.1).
Qed.

Section merge.
Variables (n : Z).

Definition at_number (x d : bytes) : Prop := exists e, m !! d = Some e /\ getAncestorBlockBy n e = Some x.

(** The weight kept for a block: that of some of the entries looked at. *)
Definition from_some (P : list bytes) (x : bytes) (w : VoteWeight.t) : Prop := exists D, D `sublist_of` P /\
  D <> [] /\ Forall (at_number x) D /\ w = tally (concat (votes_below votes <$> D)).

Lemma from_some_snoc P x w d : from_some P x w -> from_some (P ++ [d]) x w.
Proof. intros (D & HD & ?). exists D. split; [by apply sublist_inserts_r|done]. Qed.

Lemma merge_step_spec l P blocks best : (forall d, d ∈ l -> is_Some (m !! d)) ->
  (forall x w, blocks !! x = Some w -> from_some P x w) ->
  (forall x w, best = Some (x, w) -> from_some P x w /\ cond w = true) ->
  exists blocks' best', merge_step condition comparator m n l blocks best = Ok (blocks', best') /\
    forall x w, best' = Some (x, w) -> from_some (P ++ l) x w /\ cond w = true.
Proof using All.
  revert P blocks best. induction l as [|d l IH]; intros P blocks best Hl Hblocks Hbest; cbn [merge_step].
  { exists blocks, best. split; [done|]. by rewrite app_nil_r. }
  destruct (Hl d ltac:(left)) as [e He]. unfold at_. rewrite He. cbn [ok_or mbind outcome_bind].
  assert (Hl' : forall k, k ∈ l -> is_Some (m !! k)) by (intros k Hk; apply Hl; by right).
  replace (P ++ d :: l) with ((P ++ [d]) ++ l) by (by rewrite <- (assoc_L (++))).
  assert (Hbest' : forall x w, best = Some (x, w) -> from_some (P ++ [d]) x w /\ cond w = true).
  { intros x w E. destruct (Hbest x w E). split; [by apply from_some_snoc|done]. }
  destruct (getAncestorBlockBy n e) as [y|] eqn:Hy.
  2: { apply IH; [done| |done]. intros x w Hx. by apply from_some_snoc, Hblocks. }
  assert (Hy' : at_number y d) by (by exists e).
  assert (Hc : cumulative_vote e = tally (votes_below votes d)) by (by apply (counted_votes m votes Hcounted)).
  destruct (blocks !! y) as [w|] eqn:Hw.
  - assert (Hw' : from_some (P ++ [d]) y (VoteWeight.add w (cumulative_vote e))).
    { destruct (Hblocks y w Hw) as (D & HD & Hne & HDy & ->). exists (D ++ [d]). split_and!.
      - by apply sublist_app.
      - by destruct D.
      - apply Forall_app. split; [done|]. by constructor.
      - rewrite Hc, add_tally, fmap_app, concat_app; [by cbn; rewrite app_nil_r|].
        apply Forall_fmap, Forall_forall. intros v [_ Hv]%list_elem_of_filter. by apply (counted_small m votes Hcounted). }
    assert (condition (VoteWeight.add w (cumulative_vote e)) = Ok (cond (VoteWeight.add w (cumulative_vote e)))) as ->.
    { destruct Hw' as (D & _ & _ & _ & ->). apply Hcond. }
    cbn [mbind outcome_bind]. apply IH; [done| |].
    + intros x w' Hx. destruct (decide (x = y)) as [->|Hn]; [rewrite lookup_insert_eq in Hx; by injection Hx as <-|].
      rewrite lookup_insert_ne in Hx by done. by apply from_some_snoc, Hblocks.
    + intros x w' Hx. destruct (cond _ && _) eqn:Hc'; [|by apply Hbest']. injection Hx as <- <-.
      apply andb_true_iff in Hc' as [? _]. done.
  - apply IH; [done| |done]. intros x w' Hx. destruct (decide (x = y)) as [->|Hn].
    + rewrite lookup_insert_eq in Hx. injection Hx as <-. exists [d]. split_and!; [by apply sublist_inserts_l|done|by constructor|].
      cbn. by rewrite app_nil_r.
    + rewrite lookup_insert_ne in Hx by done. by apply from_some_snoc, Hblocks.
Qed.

End merge.

Lemma keep_above_spec hash n l : (forall d, d ∈ l -> is_Some (m !! d)) ->
  exists l', keep_above m hash n l = Ok l' /\ l' `sublist_of` l /\
    forall d e, d ∈ l' -> m !! d = Some e -> inDirectAncestry e hash n = true.
Proof.
  induction l as [|d l IH]; intros Hl; cbn [keep_above]; [exists []; split_and!; [done..|by intros d e ?%elem_of_nil]|].
  destruct (Hl d ltac:(left)) as [e He]. unfold at_. rewrite He. cbn [ok_or mbind outcome_bind].
  destruct IH as (l' & -> & Hsub & Hd); [intros k Hk; apply Hl; by right|]. cbn [mbind outcome_bind].
  eexists. split; [done|]. destruct (inDirectAncestry e hash n) eqn:E; (split; [by constructor|]); [|done].
  intros k ek [->|Hk]%elem_of_cons Hek; [congruence|by eapply Hd].
Qed.

(** What is known of a chosen block. *)
Definition chosen (n : Z) (h : bytes) : Prop := n = num h /\ descends B h /\ supported h.

(** The round that finds one more block. *)
Lemma merge_round p k l x w : (forall d, d ∈ l -> exists e, m !! d = Some e /\ last (ancestors e) = Some p) ->
  NoDup l -> (forall d, d ∈ l -> num p + Z.of_nat k < num d) ->
  from_some (u64 (num p + (Z.of_nat k + 1))) l x w -> cond w = true ->
  chosen (num p + Z.of_nat (S k)) x /\ (S k < edges m)%nat /\ num p + Z.of_nat (S k) < 2 ^ 64.
Proof using All.
  intros Hl Hnd Hk (D & HD & Hne & HDx & ->) Hc. rewrite Forall_forall in HDx.
  assert (HDl : forall d, d ∈ D -> d ∈ l) by (intros d Hd; by eapply elem_of_submseteq, sublist_submseteq).
  assert (Hu : forall d, d ∈ D -> u64 (num p + (Z.of_nat k + 1)) = num p + Z.of_nat (S k) /\ num p + Z.of_nat (S k) < 2 ^ 64).
  { intros d Hd. pose proof (Hk d (HDl d Hd)). destruct (Hl d (HDl d Hd)) as (e & He & _).
    pose proof (Hrange d ltac:(eauto)). unfold u64, num in *. rewrite Z.mod_small; lia. }
  assert (Hin : forall d, d ∈ D -> exists e, m !! d = Some e /\ x ∈ ancestors e /\ num x = num p + Z.of_nat (S k) /\
    last (ancestors e) = Some p).
  { intros d Hd. destruct (HDx d Hd) as (e & He & Ha). destruct (Hu d Hd) as [Eu _].
    apply (ancestor_by_number B m Hshape d e _ x He) in Ha as [Hxa Hxn]. destruct (Hl d (HDl d Hd)) as (e' & He' & Hlast).
    assert (e' = e) as -> by congruence. exists e. split_and!; [done|done|congruence|done]. }
  destruct D as [|d0 D'] eqn:ED; [done|]. rewrite <- ED in *. assert (Hd0 : d0 ∈ D) by (rewrite ED; left).
  destruct (Hin d0 Hd0) as (e0 & He0 & Hx0 & Hxn & Hl0).
  destruct (edge_interior d0 e0 p x He0 Hl0 Hx0 ltac:(lia)) as (Hxm & HxB & Hlen).
  pose proof (edges_bound d0 e0 He0). split; [|split; [lia|apply (Hu d0 Hd0)]]. split_and!; [done|done|].
  apply (supported_by x D); [done|by eapply sublist_NoDup| |done]. intros d (e & ? & ? & _)%Hin. eauto.
Qed.

Lemma merge_loop_spec fuel p k l hashes : NoDup l ->
  (forall d, d ∈ l -> exists e, m !! d = Some e /\ last (ancestors e) = Some p) ->
  (k <= edges m < fuel + k)%nat -> (forall d, d ∈ l -> num p + Z.of_nat k < num d) ->
  (exists h, last hashes = Some h /\ chosen (num p + Z.of_nat k) h) -> Forall (fun h => chosen (num h) h) hashes ->
  exists hs b h, merge_loop condition comparator fuel m (num p) (Z.of_nat k) (num p + Z.of_nat k) l ∅ hashes = Ok (hs, b) /\
    last hs = Some h /\ chosen b h /\ Forall (fun h => chosen (num h) h) hs.
Proof using All.
  revert k l hashes. induction fuel as [|fuel IH]; intros k l hashes Hnd Hl Hf Hk (h & Hh & Hch) Hall; [lia|].
  cbn [merge_loop].
  assert (Hkn : forall d, d ∈ l -> is_Some (m !! d)) by (intros d (e & ? & _)%Hl; eauto).
  destruct (merge_step_spec (u64 (num p + (Z.of_nat k + 1))) l [] ∅ None Hkn) as (blocks & best & -> & Hbest); [done|done|].
  cbn [mbind outcome_bind snd]. destruct best as [[x w]|]; [|by exists hashes, (num p + Z.of_nat k), h].
  destruct (Hbest x w eq_refl) as [Hfrom Hc]. rewrite app_nil_l in Hfrom.
  destruct (merge_round p k l x w Hl Hnd Hk Hfrom Hc) as (Hx & Hedges & Hsm).
  assert (En : u64 (num p + Z.of_nat k + 1) = num p + Z.of_nat (S k)) by (unfold u64, num in *; rewrite Z.mod_small; lia).
  rewrite En. destruct (keep_above_spec x (num p + Z.of_nat (S k)) l Hkn) as (l' & -> & Hsub & Hdir). cbn [mbind outcome_bind].
  assert (Hll : forall d, d ∈ l' -> d ∈ l) by (intros d Hd; by eapply elem_of_submseteq, sublist_submseteq).
  replace (Z.of_nat k + 1) with (Z.of_nat (S k)) by lia. apply IH; [by eapply sublist_NoDup|auto|lia| | |].
  - intros d Hd. destruct (Hl d (Hll d Hd)) as (e & He & _). specialize (Hdir d e Hd He). apply bool_decide_eq_true in Hdir.
    apply (ancestor_by_number B m Hshape d e _ x He) in Hdir as [Hin <-]. by apply num_lt, (edge_anc B m Hshape d e).
  - exists x. by rewrite last_snoc.
  - apply Forall_app. split; [done|]. constructor; [|constructor]. destruct Hx as (_ & ? & ?). done.
Qed.

Lemma ghostFindMergePoint_spec h e : m !! h = Some e -> supported h ->
  exists hs b h', ghostFindMergePoint condition comparator h e None m = Ok (hs, b) /\ last hs = Some h' /\ chosen b h' /\
    Forall (fun h => chosen (num h) h) hs.
Proof using All.
  intros He Hsup. unfold ghostFindMergePoint. cbn [mbind outcome_bind].
  assert (En : number e = num h) by (by apply (entry_number B m Hshape)).
  assert (Hh : chosen (num h) h) by (split_and!; [done|by eapply entry_below|done]).
  destruct (merge_loop_spec (S (edges m)) h 0 (descendents e) [h]) as (hs & b & h' & Hr & ?).
  - by eapply links_NoDup.
  - intros d Hd. by apply (links_iff m Hlinks h e d He).
  - lia.
  - intros d (ed & Hed & Hl)%(links_iff m Hlinks h e d He). destruct (parent_above B m Hshape _ _ _ Hed Hl) as (_ & Hhd & _).
    apply num_lt in Hhd. lia.
  - exists h. split; [done|]. by rewrite Z.add_0_r.
  - by constructor.
  - exists hs, b, h'. rewrite En. rewrite Z.add_0_r in Hr. done.
Qed.

(** ** The walk upwards *)

Lemma ancestor_loop_spec fuel c canonical key active : entry_at c canonical -> last (ancestors canonical) = Some key ->
  entry_at key active -> (entries_above m key <= S fuel)%nat ->
  exists r, ancestor_loop condition fuel m key canonical active = Ok r /\
    match r with
    | None => True
    | Some (k, can, act) => entry_at k act /\ supported k /\ exists c', entry_at c' can /\ descends c' c
    end.
Proof using All.
  revert c canonical key active. induction fuel as [|fuel IH]; intros c can key act Hc Hl Hk Hf; cbn [ancestor_loop];
    rewrite (entry_condition key act Hk); cbn [mbind outcome_bind]; destruct (cond _) eqn:Hb;
    try (eexists; split; [done|]; split_and!; [done|by apply supported_entry|]; exists c; by split; [|left]);
    (destruct (last (ancestors act)) as [p|] eqn:Hp; [|by exists None]);
    pose proof (entries_above_parent B m key act p Hshape Hk Hp) as Ha;
    destruct (parent_above B m Hshape key act p Hk Hp) as ([ep Hep] & _).
  - assert (0 < entries_above m p)%nat; [|lia].
    unfold entries_above. rewrite filter_cons_True by (rewrite Hep; eauto). cbn. lia.
  - unfold at_. rewrite Hep. cbn [ok_or mbind outcome_bind].
    destruct (IH key act p ep Hk Hp Hep ltac:(lia)) as (r & -> & Hr). exists r. split; [done|].
    destruct r as [[[k can'] act']|]; [|done]. destruct Hr as (? & ? & c' & ? & ?). split_and!; [done..|].
    exists c'. split; [done|]. eapply descends_trans; [done|]. right. by apply (parent_above B m Hshape c can key Hc Hl).
Qed.

(** What [findAncestor] does from an entry on. *)
Lemma ancestor_search c canonical key : entry_at c canonical -> last (ancestors canonical) = Some key ->
  exists r, (active ← at_ key m;
    r ← ancestor_loop condition (size m) m key canonical active;
    match r with
    | None => Ok None
    | Some (key, canonical, active) =>
        sub ← ghostFindMergePoint condition comparator key active None m;
        Ok (match filter (fun h => inDirectAncestry canonical h sub.2 = true) (reverse sub.1) with
            | [] => None
            | h :: _ => Some (mkInfo sub.2 h)
            end)
    end) = Ok r /\ forall b, r = Some b -> chosen (block_number b) (block_hash b) /\ block_hash b ∈ anc c.
Proof using All.
  intros Hc Hl. destruct (parent_above B m Hshape c canonical key Hc Hl) as ([ek Hek] & _).
  unfold at_. rewrite Hek. cbn [ok_or mbind outcome_bind].
  destruct (ancestor_loop_spec (size m) c canonical key ek Hc Hl Hek) as (r & -> & Hr).
  { pose proof (entries_above_bound m key). lia. }
  cbn [mbind outcome_bind]. destruct r as [[[k can] act]|]; [|by exists None]. destruct Hr as (Hk & Hs & c' & Hc' & Hd).
  destruct (ghostFindMergePoint_spec k act Hk Hs) as (hs & b & h' & -> & _ & _ & Hall). cbn [mbind outcome_bind fst snd].
  eexists. split; [done|]. intros b' E. destruct (filter _ _) as [|h l] eqn:Ef; [done|]. injection E as <-.
  assert (Hh : h ∈ filter (fun h => inDirectAncestry can h b = true) (reverse hs)) by (rewrite Ef; left).
  apply list_elem_of_filter in Hh as [Hdir Hin]. rewrite elem_of_reverse in Hin. cbn [block_number block_hash].
  apply bool_decide_eq_true in Hdir. apply (ancestor_by_number B m Hshape c' can b h Hc') in Hdir as [Hh <-].
  rewrite Forall_forall in Hall. split; [by apply Hall|].
  pose proof (edge_anc B m Hshape _ _ _ Hc' Hh). destruct Hd as [->|Hd]; [done|by eapply anc_trans].
Qed.

End ghost.

Section searches.
Context `{Ancestry}.
Variables (order : gset bytes -> list bytes) (condition : VoteWeight.t -> outcome bool).
Variables (comparator : VoteWeight.t -> VoteWeight.t -> bool) (cond : VoteWeight.t -> bool).
Variables (s : t) (votes : list (bytes * VoteWeight.t)).
Hypothesis Horder : forall X, order X ≡ₚ elements X.
Hypothesis Hinv : graph_inv s votes.
Hypothesis Hrange : forall h, is_Some (entries_ s !! h) -> num h < 2 ^ 64.
Hypothesis Hcond : forall a, condition (tally a) = Ok (cond (tally a)).
Variable supported : bytes -> Prop.
Hypothesis Henough : forall x a, a ⊆+ votes_below votes x -> cond (tally a) = true -> supported x.

Notation m := (entries_ s).
Notation B := (block_hash (base_ s)).

(** From an entry on the search for the block to vote for. *)
Lemma ghost_search node_key e constrain : m !! node_key = Some e -> cond (tally (votes_below votes node_key)) = true ->
  exists b, (r ← ghost_loop condition (S (size m)) m constrain [e] node_key e;
    sub ← ghostFindMergePoint condition comparator r.1 r.2 None m;
    Ok (match last sub.1 with None => None | Some h => Some (mkInfo sub.2 h) end)) = Ok (Some b) /\
    chosen B supported (block_number b) (block_hash b).
Proof using All.
  intros He Hsup. pose proof (inv_shape _ _ Hinv) as Hs.
  destruct (ghost_loop_spec condition comparator cond _ _ votes Hs (inv_links _ _ Hinv) (inv_counted _ _ Hinv) Hrange Hcond supported Henough
    (S (size m)) constrain node_key [] [node_key] [e] node_key e)
    as (k & a & -> & Hk & Hk'); [|cbn; lia|by repeat constructor|done|by eapply supported_entry|].
  - split; [apply NoDup_singleton| |]; intros h ->%list_elem_of_singleton; [|by left]. split; [eauto|by left].
  - cbn [mbind outcome_bind fst snd].
    destruct (ghostFindMergePoint_spec condition comparator cond _ _ votes Hs (inv_links _ _ Hinv) (inv_counted _ _ Hinv)
      Hrange Hcond supported Henough k a Hk Hk') as (hs & b & h' & -> & Hl & Hb & _). cbn [mbind outcome_bind fst snd]. rewrite Hl.
    eexists. split; [done|]. done.
Qed.

(** An entry that contains a block on its edge. *)
Lemma containing_entry b c l : findContainingNodes order b s = Ok (Some (c :: l)) -> block_number b = num (block_hash b) ->
  exists e key, m !! c = Some e /\ block_hash b ∈ ancestors e /\ last (ancestors e) = Some key /\ is_Some (m !! key).
Proof using All.
  intros E Hb. pose proof (inv_shape _ _ Hinv) as Hs. destruct (m !! block_hash b) eqn:Hm.
  { unfold findContainingNodes in E. by rewrite decide_True in E by (rewrite Hm; eauto). }
  destruct (findContaining_spec order b s Horder Hs (inv_heads _ _ Hinv) Hb Hm) as (c' & E' & _ & Hiff).
  rewrite E in E'. injection E' as <-. destruct (proj1 (Hiff c) ltac:(left)) as (e & He & Hin).
  destruct (last (ancestors e)) as [key|] eqn:Hl; [|apply last_None in Hl; rewrite Hl in Hin; by apply elem_of_nil in Hin].
  exists e, key. split_and!; [done..|]. by apply (parent_above B m Hs c e key He Hl).
Qed.

(** The three answers of the search for the entries around a block. *)
Lemma containing_cases b : block_number b = num (block_hash b) ->
  (is_Some (m !! block_hash b) /\ findContainingNodes order b s = Ok None) \/
  (m !! block_hash b = None /\ exists c, findContainingNodes order b s = Ok (Some c)).
Proof using Horder Hinv.
  intros Hb. destruct (m !! block_hash b) eqn:Hm.
  - left. split; [eauto|]. unfold findContainingNodes. by rewrite decide_True by (rewrite Hm; eauto).
  - right. split; [done|].
    destruct (findContaining_spec order b s Horder (inv_shape _ _ Hinv) (inv_heads _ _ Hinv) Hb Hm) as (c & E & _). eauto.
Qed.

(** The search returns for every starting block; what it finds is supported, and
    without a starting block it finds something when all votes are enough. *)
Lemma findGhost_spec current_best :
  (forall b, current_best = Some b -> block_number b = num (block_hash b)) ->
  exists r, findGhost order condition comparator current_best s = Ok r /\
    match r with
    | None => current_best = None -> cond (tally (votes_below votes B)) = false
    | Some b => chosen B supported (block_number b) (block_hash b)
    end.
Proof using All.
  intros Hb. unfold findGhost. pose proof (inv_shape _ _ Hinv) as Hs. pose proof (inv_counted _ _ Hinv) as Hc.
  assert (Hgo : forall key constrain, is_Some (m !! key) -> (key = B \/ is_Some current_best) ->
    exists r, (active_node ← at_ key m; c ← condition (cumulative_vote active_node);
      if negb c then Ok None else
      r ← ghost_loop condition (S (size m)) m constrain [active_node] key active_node;
      sub ← ghostFindMergePoint condition comparator r.1 r.2 None m;
      Ok (match last sub.1 with None => None | Some h => Some (mkInfo sub.2 h) end)) = Ok r /\
    match r with
    | None => current_best = None -> cond (tally (votes_below votes B)) = false
    | Some b => chosen B supported (block_number b) (block_hash b)
    end).
  { intros key constrain [e He] Hkey. unfold at_. rewrite He. cbn [ok_or mbind outcome_bind].
    rewrite (entry_condition condition cond m votes Hc Hcond key e He). cbn [mbind outcome_bind].
    destruct (cond _) eqn:Hb'; cbn [negb].
    - destruct (ghost_search key e constrain He Hb') as (b & Eb & Hch). by exists (Some b).
    - exists None. split; [done|]. intros ->. by destruct Hkey as [<-|[]]. }
  destruct current_best as [b|]; [|cbn [mbind outcome_bind]; apply Hgo; [apply Hs|by left]].
  specialize (Hb b eq_refl). destruct (containing_cases b Hb) as [[Hm ->]|[Hm [[|c l] E]]]; [| |rewrite E]; cbn [mbind outcome_bind].
  - apply Hgo; eauto.
  - rewrite E. cbn [mbind outcome_bind]. by exists None.
  - destruct (containing_entry b c l E Hb) as (e & key & He & _ & Hl & Hk). rewrite (at_known c m e He).
    cbn [ok_or mbind outcome_bind]. rewrite Hl. cbn [ok_or mbind outcome_bind]. apply Hgo; eauto.
Qed.

(** The search upwards from a block returns; what it finds is supported and on
    one branch with the block, above it when the block has an entry. *)
Lemma findAncestor_spec block : block_number block = num (block_hash block) ->
  exists r, findAncestor order condition comparator block s = Ok r /\ forall b, r = Some b ->
    chosen B supported (block_number b) (block_hash b) /\
    (descends (block_hash b) (block_hash block) \/ m !! block_hash block = None /\ descends (block_hash block) (block_hash b)).
Proof using All.
  intros Hb. unfold findAncestor. pose proof (inv_shape _ _ Hinv) as Hs. pose proof (inv_counted _ _ Hinv) as Hc.
  pose proof (ancestor_search condition comparator cond _ _ votes Hs (inv_links _ _ Hinv) Hc Hrange Hcond supported Henough) as Hsearch.
  destruct (containing_cases block Hb) as [[[e He] ->]|[Hm [[|c l] E]]]; [| |rewrite E]; cbn [mbind outcome_bind].
  - rewrite (at_known _ m e He). cbn [mbind outcome_bind].
    rewrite (entry_condition condition cond m votes Hc Hcond _ e He). cbn [mbind outcome_bind]. destruct (cond _) eqn:Hb'.
    { exists (Some block). split; [done|]. intros b [= <-]. split; [|by left; left].
      split_and!; [done|by eapply entry_below|by eapply supported_entry]. }
    destruct (last (ancestors e)) as [key|] eqn:Hl; [|by exists None].
    destruct (Hsearch _ e key He Hl) as (r & -> & Hr). exists r. split; [done|]. intros b Eb. destruct (Hr b Eb).
    split; [done|]. left. by right.
  - rewrite E. cbn [mbind outcome_bind]. by exists None.
  - destruct (containing_entry block c l E Hb) as (e & key & He & Hin & Hl & Hk). rewrite (at_known c m e He).
    cbn [ok_or mbind outcome_bind]. rewrite Hl. cbn [ok_or mbind outcome_bind].
    destruct (Hsearch _ e key He Hl) as (r & -> & Hr). exists r. split; [done|]. intros b Eb. destruct (Hr b Eb) as [Hch Hbc].
    split; [done|]. pose proof (edge_anc _ _ Hs _ _ _ He Hin) as Hblock.
    destruct (anc_linear _ _ _ Hbc Hblock) as [->|[?|?]]; [by left; left|by left; right|right; split; [done|by right]].
Qed.

End searches.

(** The search for the block to vote for returns, with or without a block
    to start from.  What it finds is a block at or below the base, with its
    number, for which the votes at or below it fulfil the condition; without a
    block to start from it finds nothing exactly when all the votes together do
    not fulfil the condition.  The condition is one that more votes do not
    break. *)
Theorem ghost_is_supported `{Ancestry} (order : gset bytes -> list bytes) (condition : VoteWeight.t -> outcome bool)
    (comparator : VoteWeight.t -> VoteWeight.t -> bool) (cond : VoteWeight.t -> bool)
    (s : t) (votes : list (bytes * VoteWeight.t)) (current_best : option BlockInfo) :
  (forall X, order X ≡ₚ elements X) -> graph_inv s votes ->
  (forall h, is_Some (entries_ s !! h) -> num h < 2 ^ 64) ->
  (forall a, condition (tally a) = Ok (cond (tally a))) ->
  (forall a b, a ⊆+ b -> b ⊆+ votes.*2 -> cond (tally a) = true -> cond (tally b) = true) ->
  (forall b, current_best = Some b -> block_number b = num (block_hash b)) ->
  exists r, findGhost order condition comparator current_best s = Ok r /\
    match r with
    | None => current_best = None -> cond (tally (votes_below votes (block_hash (base_ s)))) = false
    | Some b => block_number b = num (block_hash b) /\ descends (block_hash (base_ s)) (block_hash b) /\
        cond (tally (votes_below votes (block_hash b))) = true
    end.
Proof.
  intros Horder Hinv Hrange Hcond Hmono Hb.
  apply (findGhost_spec order condition comparator cond s votes Horder Hinv Hrange Hcond
    (fun h => cond (tally (votes_below votes h)) = true)); [|done].
  intros x a Ha. apply Hmono; [done|]. apply fmap_submseteq, sublist_submseteq, sublist_filter.
Qed.
