(* ===== verification/VoteGraphDemo.v ===== *)
(** * The vote graph on a concrete chain

    A block is the list of the steps to it, the last one first, and its parent
    the list without that step.  On this chain the theorems are applied, and it
    is shown where the searches that start from a block go wrong. *)

From S2P Require Import Prelude Scale Votes VotesProps VoteGraph VoteGraphProps VoteGraphCount VoteGraphTheorems VoteGraphGhost.
Import VoteGraphImpl Tally.

Open Scope Z_scope.

Module DemoChain.

Fixpoint path_anc (h : bytes) : list bytes :=
  match h with [] => [] | _ :: p => p :: path_anc p end.

Definition path_ancestry (base block : bytes) : outcome (list bytes) :=
  if decide (base = block) then Ok [] else
  match list_find (fun h => h = base) (path_anc block) with
  | Some (i, _) => Ok (take i (path_anc block))
  | None => Err (block_tree_error INCORRECT_ARGS)
  end.

#[export] Instance demo_chain : Chain := {| getAncestry := path_ancestry |}.

Lemma path_anc_tail h p l : path_anc h = p :: l -> path_anc p = l.
Proof. destruct h as [|c h]; [done|]. by intros [= -> ->]. Qed.

#[export] Instance demo_ancestry : Ancestry := {| anc := path_anc; anc_tail := path_anc_tail |}.

#[export] Instance demo_chain_spec : ChainSpec.
Proof.
  split.
  - intros b. cbn. unfold path_ancestry. by rewrite decide_True.
  - intros base block l Hne. cbn. unfold path_ancestry. rewrite decide_False by done.
    destruct (list_find _ _) as [[i h]|] eqn:Hf; [|done]. intros [= <-].
    apply list_find_Some in Hf as (Hi & -> & _). exists (drop (S i) (path_anc block)). symmetry. by apply take_drop_middle.
Qed.

#[export] Instance demo_chain_complete : ChainComplete.
Proof.
  split. intros base block Hin. cbn in Hin |- *. unfold path_ancestry. case_decide; [eauto|].
  destruct (list_find_elem_of (fun h => h = base) _ _ Hin eq_refl) as [[i h] ->]. eauto.
Qed.

(** The set of heads in the order of its elements. *)
Definition demo_order (X : gset bytes) : list bytes := elements X.

Definition block (s : string) : BlockInfo := mkInfo (Z.of_nat (String.length s)) (str s).
Definition genesis : BlockInfo := mkInfo 0 [].
Definition weight (n : Z) : VoteWeight.t := VoteWeight.mk n 0 [] [].
Definition at_least (n : Z) (w : VoteWeight.t) : bool := n <=? VoteWeight.prevotes_sum w.
Definition asks (n : Z) (w : VoteWeight.t) : outcome bool := Ok (at_least n w).

Fixpoint run_votes (l : list (string * Z)) (s : t) : t :=
  match l with
  | [] => s
  | (b, n) :: l' => match insert demo_order (block b) (weight n) s with Ok (_, s') => run_votes l' s' | Err _ => s end
  end.

(** ** Thresholds *)

Definition total (l : list VoteWeight.t) : Z := foldr Z.add 0 (VoteWeight.prevotes_sum <$> l).

Lemma tally_total l : VoteWeight.prevotes_sum (tally l) = u64 (total l).
Proof.
  induction l as [|a l IH]; [done|]. rewrite tally_cons. cbn. rewrite IH, u64_add_id. f_equal. unfold total. cbn. lia.
Qed.

Lemma weights_permutation a b : a ≡ₚ b -> total a = total b.
Proof. unfold total. induction 1; cbn in *; lia. Qed.

Lemma weights_app a b : total (a ++ b) = total a + total b.
Proof. unfold total. induction a as [|x a IH]; cbn in *; lia. Qed.

Lemma weights_nonneg l : Forall (fun w => 0 <= VoteWeight.prevotes_sum w) l -> 0 <= total l.
Proof. unfold total. induction 1; cbn in *; lia. Qed.

(** A threshold for the weight is not undone by more votes as long as all of
    them together do not overflow. *)
Lemma at_least_monotone n l : Forall (fun w => 0 <= VoteWeight.prevotes_sum w) l -> total l < 2 ^ 64 ->
  forall a b, a ⊆+ b -> b ⊆+ l -> at_least n (tally a) = true -> at_least n (tally b) = true.
Proof.
  intros Hl Ht a b [k Hk]%submseteq_Permutation [k' Hk']%submseteq_Permutation.
  rewrite (weights_permutation _ _ Hk'), (weights_app b k') in Ht.
  rewrite Hk' in Hl. apply Forall_app in Hl as [Hb Hk'n]. pose proof (weights_permutation _ _ Hk) as Eb. rewrite weights_app in Eb.
  pose proof (weights_nonneg _ Hb). pose proof (weights_nonneg _ Hk'n). rewrite Hk in Hb. apply Forall_app in Hb as [Ha Hkn].
  pose proof (weights_nonneg _ Ha). pose proof (weights_nonneg _ Hkn).
  unfold at_least. rewrite !tally_total, !u64_id by (unfold is_u64; lia). lia.
Qed.

(** ** The theorems on the chain *)

Definition demo_votes : list (BlockInfo * VoteWeight.t) :=
  [(block "1ca", weight 1); (block "2ca", weight 1); (block "ba", weight 1); (block "a", weight 1)].

Lemma genesis_ok : block_number genesis = num (block_hash genesis).
Proof. reflexivity. Qed.

Lemma demo_votes_ok : Forall vote_ok demo_votes.
Proof. repeat constructor; cbn; lia. Qed.

Lemma demo_order_ok X : demo_order X ≡ₚ elements X.
Proof. done. Qed.

Lemma votes_counted_witness :
  exists rs s, insert_all demo_order demo_votes (create genesis) = Ok (rs, s) /\
    Forall2 (fun v r => r = Ok tt <-> descends [] (block_hash v.1)) demo_votes rs /\
    (forall v, v ∈ accepted [] demo_votes -> is_Some (entries_ s !! v.1)) /\
    (forall h e, entries_ s !! h = Some e -> number e = num h /\
       cumulative_vote e = tally (votes_below (accepted [] demo_votes) h)).
Proof. exact (votes_counted demo_order demo_order_ok genesis demo_votes genesis_ok demo_votes_ok). Defined.

Definition demo_state : t :=
  match insert_all demo_order demo_votes (create genesis) with Ok (_, s) => s | Err _ => create genesis end.

Lemma demo_state_inv : graph_inv demo_state (accepted [] demo_votes).
Proof.
  destruct (insert_all_spec demo_order demo_order_ok demo_votes (create genesis) [] (graph_create_inv genesis genesis_ok) demo_votes_ok)
    as (rs & s & Hr & _ & Hinv & _). unfold demo_state. by rewrite Hr.
Qed.

Lemma demo_state_range h : is_Some (entries_ demo_state !! h) -> num h < 2 ^ 64.
Proof.
  intros [e He]. revert h e He. change (map_Forall (fun h (_ : Entry) => num h < 2 ^ 64) (entries_ demo_state)).
  apply (bool_decide_unpack _). vm_compute. exact I.
Qed.

Lemma ghost_is_supported_witness :
  exists r, findGhost demo_order (asks 2) VoteWeight.prevoteComparator (Some (block "ca")) demo_state = Ok r /\
    match r with
    | None => Some (block "ca") = None -> at_least 2 (tally (votes_below (accepted [] demo_votes) (block_hash (base_ demo_state)))) = false
    | Some b => block_number b = num (block_hash b) /\ descends (block_hash (base_ demo_state)) (block_hash b) /\
        at_least 2 (tally (votes_below (accepted [] demo_votes) (block_hash b))) = true
    end.
Proof.
  apply (ghost_is_supported demo_order (asks 2) VoteWeight.prevoteComparator (at_least 2) demo_state (accepted [] demo_votes)
    (Some (block "ca")) demo_order_ok demo_state_inv demo_state_range).
  - intros a. reflexivity.
  - apply at_least_monotone; [apply (bool_decide_unpack _); vm_compute; exact I|vm_compute; reflexivity].
  - intros b [= <-]. reflexivity.
Defined.

(** ** Searches from a block *)

(** The block [a] is above [ba] and has three votes; two are asked for, and
    [findAncestor] of [ba] finds nothing: the merge point [ca] is on another
    branch, and [a] is looked for at its number. *)
Theorem findAncestor_misses :
  let s := run_votes [("1ca"%string, 1); ("2ca"%string, 1); ("ba"%string, 1)] (create genesis) in
  findAncestor demo_order (asks 2) VoteWeight.prevoteComparator (block "ba") s = Ok None /\
  str "a" ∈ anc (str "ba") /\ at_least 2 (tally [weight 1; weight 1; weight 1]) = true.
Proof. split_and!; [vm_compute; reflexivity|left|reflexivity]. Qed.

(** The block [ba] has one vote and two are asked for; the best descendent of
    [ba] is said to be [ca], which is on another branch. *)
Theorem findGhost_leaves_branch :
  let s := run_votes [("1ba"%string, 1); ("1ca"%string, 2); ("2ca"%string, 2)] (create genesis) in
  findGhost demo_order (asks 2) VoteWeight.prevoteComparator (Some (block "ba")) s = Ok (Some (block "ca")) /\
  ~ descends (str "ba") (str "ca").
Proof. split; [vm_compute; reflexivity|]. apply (bool_decide_unpack _). vm_compute. exact I. Qed.

End DemoChain.
