(* ===== verification/VoterWeights.v ===== *)
(** * The weight of voters

    Sums of the weights of voters, the threshold of a round, and what the total
    weight of a sum of votes is: every voter counts once, with its own weight,
    when it voted or equivocated. *)

From S2P Require Import Prelude Scale Votes VotesProps.
Import Tally.

Open Scope Z_scope.

(** ** Sums *)

Definition sumZ (l : list Z) : Z := foldr Z.add 0 l.

Lemma sumZ_app l k : sumZ (l ++ k) = sumZ l + sumZ k.
Proof. induction l as [|x l IH]; unfold sumZ in *; cbn in *; lia. Qed.

Lemma sumZ_le l k : Forall2 Z.le l k -> sumZ l <= sumZ k.
Proof. induction 1; unfold sumZ in *; cbn in *; lia. Qed.

Lemma sumZ_zero l : Forall (fun x => x = 0) l -> sumZ l = 0.
Proof. induction 1; unfold sumZ in *; cbn in *; lia. Qed.

Lemma accumulate_sum l a : foldl (fun a x => u64 (a + x)) (u64 a) l = u64 (a + sumZ l).
Proof.
  revert a. induction l as [|x l IH]; intros a; cbn; [f_equal; lia|]. rewrite u64_add_id, IH. f_equal. unfold sumZ. cbn. lia.
Qed.

(** ** Sets of voters *)

Section voters.
Variable vs : VoterSet.t.

Definition wt (v : bytes) : Z := default 0 (VoterSet.weight_map_ vs !! v).

(** The weight of the voters in a set. *)
Definition weight_of (P : bytes -> Prop) `{forall v, Decision (P v)} : Z :=
  sumZ ((fun v => if decide (P v) then wt v else 0) <$> VoterSet.voters_ vs).

(** The voters are different, at most as many as a weight has room for, each has
    a weight, and their weights do not overflow. *)
Record voters_ok : Prop := {
  voters_NoDup : NoDup (VoterSet.voters_ vs);
  voters_many : (length (VoterSet.voters_ vs) <= VoteWeight.kMaxNumberOfVoters)%nat;
  voters_known v : v ∈ VoterSet.voters_ vs <-> is_Some (VoterSet.weight_map_ vs !! v);
  voters_weight v : 0 <= wt v;
  voters_total : VoterSet.total_weight_ vs = sumZ (wt <$> VoterSet.voters_ vs);
  voters_range : 0 < VoterSet.total_weight_ vs < 2 ^ 64
}.

Hypothesis Hvs : voters_ok.

Lemma sum_fmap_le {A} (f g : A -> Z) l : (forall x, x ∈ l -> f x <= g x) -> sumZ (f <$> l) <= sumZ (g <$> l).
Proof.
  intros Hle. apply sumZ_le, Forall2_fmap, Forall_Forall2_diag, Forall_forall. exact Hle.
Qed.

Lemma weight_of_mono P Q `{forall v, Decision (P v), forall v, Decision (Q v)} :
  (forall v, v ∈ VoterSet.voters_ vs -> P v -> Q v) -> weight_of P <= weight_of Q.
Proof using Hvs.
  intros HPQ. apply sum_fmap_le. intros v Hv. pose proof (voters_weight Hvs v).
  repeat case_decide; try lia. naive_solver.
Qed.

(** Two sets share at least what they weigh beyond the whole. *)
Lemma weight_of_common P Q `{forall v, Decision (P v), forall v, Decision (Q v)} :
  weight_of P + weight_of Q <= VoterSet.total_weight_ vs + weight_of (fun v => P v /\ Q v).
Proof using Hvs.
  rewrite (voters_total Hvs). unfold weight_of. induction (VoterSet.voters_ vs) as [|v l IH]; unfold sumZ in *; cbn in *; [lia|].
  pose proof (voters_weight Hvs v). repeat case_decide; try lia; tauto.
Qed.

Lemma weight_of_total P `{forall v, Decision (P v)} : weight_of P <= VoterSet.total_weight_ vs.
Proof using Hvs.
  rewrite (voters_total Hvs). apply sum_fmap_le. intros v _. pose proof (voters_weight Hvs v). case_decide; lia.
Qed.

(** *** Lookups *)

Lemma wt_at i v : VoterSet.voters_ vs !! i = Some v -> VoterSet.voterWeightAt i vs = Ok (Some (wt v)).
Proof using Hvs.
  intros Hi. unfold VoterSet.voterWeightAt, wt. rewrite Hi.
  destruct (proj1 (voters_known Hvs v) ltac:(by eapply list_elem_of_lookup_2)) as [w ->]. done.
Qed.

Lemma voterIndex_spec v i : VoterSet.voterIndex v vs = Some i <-> VoterSet.voters_ vs !! i = Some v.
Proof using Hvs.
  unfold VoterSet.voterIndex. split.
  - intros ([j x] & Hf & ->)%fmap_Some. apply list_find_Some in Hf as (Hj & -> & _). done.
  - intros Hi. apply fmap_Some. exists (i, v). split; [|done]. apply list_find_Some. split_and!; [done..|].
    intros j y Hj Hlt ->. pose proof (NoDup_lookup _ _ _ _ (voters_NoDup Hvs) Hi Hj). lia.
Qed.

Lemma voterWeight_spec v w : VoterSet.voterWeight v vs = Some w ->
  w = wt v /\ exists i, VoterSet.voterIndex v vs = Some i /\ VoterSet.voters_ vs !! i = Some v.
Proof using Hvs.
  intros Hw. unfold VoterSet.voterWeight in Hw. split; [unfold wt; by rewrite Hw|].
  assert (Hv : v ∈ VoterSet.voters_ vs) by (apply (voters_known Hvs); rewrite Hw; eauto).
  apply list_elem_of_lookup in Hv as [i Hi]. exists i. by rewrite voterIndex_spec.
Qed.

Lemma wt_range i v : VoterSet.voters_ vs !! i = Some v -> is_u64 (wt v).
Proof using Hvs.
  intros Hi. pose proof (voters_weight Hvs v) as Hw. split; [done|].
  pose proof (voters_range Hvs) as [_ Hr]. rewrite (voters_total Hvs) in Hr.
  rewrite <- (take_drop_middle _ _ _ Hi), fmap_app, sumZ_app in Hr. cbn in Hr.
  assert (Hpos : forall l, 0 <= sumZ (wt <$> l)).
  { intros l. induction l as [|x l IH]; unfold sumZ in *; cbn in *; [lia|]. pose proof (voters_weight Hvs x). lia. }
  pose proof (Hpos (take i (VoterSet.voters_ vs))). pose proof (Hpos (drop (S i) (VoterSet.voters_ vs))).
  unfold sumZ in *. lia.
Qed.

(** ** The total weight of a sum of votes *)

Section total.
Variable sel : VoteWeight.t -> list Z.
Hypothesis Hsel_zero : sel zero = replicate VoteWeight.kMaxNumberOfVoters 0.
Hypothesis Hsel_add : forall a b, sel (VoteWeight.add a b) = VoteWeight.add_front (sel a) (sel b).

(** What the votes of a list give the voter with an index. *)
Definition given (i : nat) (l : list VoteWeight.t) : Z := sumZ ((fun w => default 0 (sel w !! i)) <$> l).

Lemma tally_given i l : (i < VoteWeight.kMaxNumberOfVoters)%nat -> sel (tally l) !! i = Some (u64 (given i l)).
Proof using Hsel_zero Hsel_add.
  intros Hi. unfold given. induction l as [|w l IH].
  - change (tally []) with zero. rewrite Hsel_zero, lookup_replicate_2 by done. done.
  - rewrite tally_cons, Hsel_add, add_front_lookup, IH. cbn. destruct (sel w !! i) as [y|]; cbn.
    + rewrite u64_add_id. do 2 f_equal. unfold sumZ. lia.
    + done.
Qed.

(** The votes of voters: each gives its voter its weight and nothing to others. *)
Record votes_fair (L : list VoteWeight.t) : Prop := {
  fair_length w : w ∈ L -> length (sel w) = length (VoterSet.voters_ vs);
  fair_own w i v : w ∈ L -> VoterSet.voters_ vs !! i = Some v -> sel w !! i = Some 0 \/ sel w !! i = Some (wt v);
  fair_once i v : VoterSet.voters_ vs !! i = Some v -> given i L <= wt v
}.

Variable L : list VoteWeight.t.
Hypothesis HL : votes_fair L.

Lemma given_cases i v a : VoterSet.voters_ vs !! i = Some v -> a ⊆+ L -> given i a = 0 \/ given i a = wt v.
Proof using All.
  intros Hi Ha. pose proof (voters_weight Hvs v) as Hw.
  assert (Hval : forall l, (forall w, w ∈ l -> w ∈ L) -> given i l = 0 \/ wt v <= given i l).
  { intros l. unfold given. induction l as [|w l IH]; intros Hl; [by left|]. cbn.
    destruct IH as [IH|IH]; [intros x Hx; apply Hl; by right| |]; destruct (fair_own L HL w i v ltac:(apply Hl; left) Hi) as [->| ->];
      cbn; unfold sumZ in *; lia. }
  assert (Hpos : forall l, (forall w, w ∈ l -> w ∈ L) -> 0 <= given i l) by (intros l Hl; destruct (Hval l Hl); lia).
  destruct (Hval a) as [?|Hge]; [intros w Hx; by eapply elem_of_submseteq|by left|]. right.
  apply submseteq_Permutation in Ha as [k Hk]. pose proof (fair_once L HL i v Hi) as Hle.
  assert (Hsum : given i L = given i a + given i k).
  { unfold given. rewrite <- sumZ_app, <- fmap_app. clear - Hk. induction Hk; unfold sumZ in *; cbn in *; lia. }
  assert (0 <= given i k) by (apply Hpos; intros w Hx; rewrite Hk; set_solver). lia.
Qed.

Lemma given_mono i v a b : VoterSet.voters_ vs !! i = Some v -> a ⊆+ b -> b ⊆+ L -> given i a <= given i b.
Proof using All.
  intros Hi Hab Hb. pose proof (voters_weight Hvs v). apply submseteq_Permutation in Hab as [k Hk].
  assert (Hsum : given i b = given i a + given i k).
  { unfold given. rewrite <- sumZ_app, <- fmap_app. clear - Hk. induction Hk; unfold sumZ in *; cbn in *; lia. }
  destruct (given_cases i v k Hi) as [E|E]; [|lia..].
  transitivity b; [|done]. rewrite Hk. apply submseteq_inserts_l. done.
Qed.

Lemma given_outside i a : a ⊆+ L -> (length (VoterSet.voters_ vs) <= i)%nat -> given i a = 0.
Proof using All.
  intros Ha Hi. unfold given. apply sumZ_zero, Forall_fmap, Forall_forall. intros w Hw. cbn.
  rewrite lookup_ge_None_2; [done|]. rewrite (fair_length L HL w); [done|]. by eapply elem_of_submseteq.
Qed.

(** *** With equivocators *)

Variable eqs : list bool.
Hypothesis Heqs : length eqs = length (VoterSet.voters_ vs).

(** What a voter counts for the votes [a]. *)
Definition counts (a : list VoteWeight.t) (i : nat) (v : bytes) : Z :=
  if given i a =? 0 then if default false (eqs !! i) then wt v else 0 else given i a.

Lemma with_equivocators_spec a n i acc : a ⊆+ L -> (i + n = length (VoterSet.voters_ vs))%nat ->
  length acc = VoteWeight.kMaxNumberOfVoters ->
  (forall j, (i <= j)%nat -> acc !! j = sel (tally a) !! j) ->
  (forall j v, (j < i)%nat -> VoterSet.voters_ vs !! j = Some v -> acc !! j = Some (counts a j v)) ->
  exists c, VoteWeight.with_equivocators (sel (tally a)) eqs vs i n acc = Ok c /\
    length c = VoteWeight.kMaxNumberOfVoters /\
    (forall j v, VoterSet.voters_ vs !! j = Some v -> c !! j = Some (counts a j v)) /\
    (forall j, (length (VoterSet.voters_ vs) <= j < VoteWeight.kMaxNumberOfVoters)%nat -> c !! j = Some 0).
Proof using All.
  intros Ha. pose proof (voters_many Hvs) as Hmany. revert i acc. induction n as [|n IH]; intros i acc Hin Hlen Hrest Hdone.
  - exists acc. split; [done|]. split; [done|]. split.
    + intros j v Hj. apply Hdone; [|done]. apply lookup_lt_Some in Hj. lia.
    + intros j Hj. rewrite Hrest, tally_given by lia. by rewrite given_outside by (done || lia).
  - cbn [VoteWeight.with_equivocators].
    destruct (lookup_lt_is_Some_2 (VoterSet.voters_ vs) i) as [v Hv]; [lia|].
    destruct (lookup_lt_is_Some_2 eqs i) as [q Hq]; [lia|].
    pose proof (wt_range i v Hv) as Hr. unfold is_u64 in Hr. pose proof (given_cases i v a Hv Ha) as Hc.
    assert (Hg : u64 (given i a) = given i a) by (apply u64_id; unfold is_u64; lia).
    rewrite tally_given, Hg, Hq by lia. cbn [ok_or mbind outcome_bind].
    assert (Hstep : exists acc', (if given i a =? 0 then if q then w ← VoterSet.voterWeightAt i vs; w ← ok_or undefined_behaviour w;
        Ok (<[i := u64 (given i a + w)]> acc) else Ok acc else Ok acc) = Ok acc' /\ length acc' = length acc /\
        acc' !! i = Some (counts a i v) /\ forall j, j <> i -> acc' !! j = acc !! j).
    { assert (Hacc : acc !! i = Some (given i a)) by (by rewrite Hrest, tally_given, Hg by lia).
      unfold counts. rewrite Hq. cbn [default]. destruct (Z.eqb_spec (given i a) 0) as [E|E]; [destruct q|].
      - rewrite (wt_at i v Hv). cbn [ok_or mbind outcome_bind]. eexists. split; [done|].
        rewrite length_insert. split; [done|]. rewrite E, Z.add_0_l, u64_id by done. cbn. split; [apply list_lookup_insert_eq; lia|].
        intros j Hj. by apply list_lookup_insert_ne.
      - exists acc. rewrite E in Hacc. by cbn.
      - by exists acc. }
    destruct Hstep as (acc' & Hs & Hl' & Hi' & Hn'). cbn in Hs |- *. rewrite Hs. cbn [mbind outcome_bind].
    apply IH; [lia|lia| |].
    + intros j Hj. rewrite Hn' by lia. apply Hrest. lia.
    + intros j x Hj Hx. destruct (decide (j = i)) as [->|Hne]; [congruence|]. rewrite Hn' by done. apply Hdone; [lia|done].
Qed.

(** What all voters count. *)
Definition counted_total (a : list VoteWeight.t) : Z := sumZ (imap (counts a) (VoterSet.voters_ vs)).

Lemma counts_range a i v : a ⊆+ L -> VoterSet.voters_ vs !! i = Some v -> 0 <= counts a i v <= wt v.
Proof using All.
  intros Ha Hi. pose proof (voters_weight Hvs v). pose proof (given_cases i v a Hi Ha). unfold counts.
  destruct (given i a =? 0), (default false (eqs !! i)); lia.
Qed.

Lemma imap_le {A} (f : nat -> A -> Z) (g : A -> Z) l : (forall i x, l !! i = Some x -> f i x <= g x) ->
  sumZ (imap f l) <= sumZ (g <$> l).
Proof.
  intros Hle. apply sumZ_le, Forall2_same_length_lookup. rewrite length_imap, length_fmap. split; [done|].
  intros i x y Hx Hy. rewrite list_lookup_imap in Hx. rewrite list_lookup_fmap in Hy.
  destruct (l !! i) as [z|] eqn:Ez; [|done]. cbn in *. simplify_eq. by apply Hle.
Qed.

Lemma counted_total_range a : a ⊆+ L -> is_u64 (counted_total a).
Proof using All.
  intros Ha. pose proof (voters_range Hvs) as [_ Hr]. rewrite (voters_total Hvs) in Hr. unfold counted_total. split.
  - transitivity (sumZ ((fun _ => 0) <$> VoterSet.voters_ vs)).
    + rewrite sumZ_zero; [done|]. by apply Forall_fmap, Forall_true.
    + apply sumZ_le, Forall2_same_length_lookup. rewrite length_imap, length_fmap. split; [done|].
      intros i x y Hx Hy. rewrite list_lookup_imap in Hy. rewrite list_lookup_fmap in Hx.
      destruct (VoterSet.voters_ vs !! i) as [z|] eqn:Ez; [|done]. cbn in *. simplify_eq. by apply counts_range.
  - eapply Z.le_lt_trans; [|exact Hr]. apply imap_le. intros i v Hi. by apply counts_range.
Qed.

Lemma total_of_votes a : a ⊆+ L ->
  exists c, VoteWeight.with_equivocators (sel (tally a)) eqs vs 0 (length (VoterSet.voters_ vs)) (sel (tally a)) = Ok c /\
    VoteWeight.accumulate c = counted_total a.
Proof using All.
  intros Ha. pose proof (voters_many Hvs) as Hmany.
  destruct (with_equivocators_spec a (length (VoterSet.voters_ vs)) 0 (sel (tally a)) Ha) as (c & Hc & Hlen & Hin & Hout).
  - done.
  - clear - Hsel_zero Hsel_add. induction a as [|w a IH]; [change (tally []) with zero; rewrite Hsel_zero; apply length_replicate|].
    by rewrite tally_cons, Hsel_add, add_front_length.
  - done.
  - intros j v Hj. lia.
  - exists c. split; [done|]. unfold VoteWeight.accumulate.
    change 0 with (u64 0) at 1. rewrite accumulate_sum, Z.add_0_l.
    assert (Ec : c = imap (counts a) (VoterSet.voters_ vs) ++
      replicate (VoteWeight.kMaxNumberOfVoters - length (VoterSet.voters_ vs)) 0).
    { apply list_eq. intros j. destruct (decide (j < length (VoterSet.voters_ vs))%nat) as [Hj|Hj].
      - destruct (lookup_lt_is_Some_2 _ _ Hj) as [v Hv]. rewrite lookup_app_l by (by rewrite length_imap).
        rewrite list_lookup_imap, Hv. cbn. by apply Hin.
      - rewrite lookup_app_r, length_imap by (rewrite length_imap; lia).
        destruct (decide (j < VoteWeight.kMaxNumberOfVoters)%nat) as [Hk|Hk].
        + rewrite lookup_replicate_2 by lia. apply Hout. lia.
        + rewrite (lookup_ge_None_2 c), (lookup_ge_None_2 (replicate _ _)) by (rewrite ?length_replicate; lia). done. }
    rewrite Ec, sumZ_app, (sumZ_zero (replicate _ _)) by (by apply Forall_replicate). rewrite Z.add_0_r.
    by apply u64_id, counted_total_range.
Qed.

Lemma counted_total_mono a b : a ⊆+ b -> b ⊆+ L -> counted_total a <= counted_total b.
Proof using All.
  intros Hab Hb. apply sumZ_le, Forall2_same_length_lookup. rewrite !length_imap. split; [done|].
  intros i x y Hx Hy. rewrite list_lookup_imap in Hx, Hy. destruct (VoterSet.voters_ vs !! i) as [v|] eqn:Hi; [|done].
  cbn in *. simplify_eq. pose proof (given_mono i v a b Hi Hab Hb). pose proof (voters_weight Hvs v).
  pose proof (given_cases i v a Hi ltac:(by etrans)). pose proof (given_cases i v b Hi Hb). unfold counts.
  destruct (Z.eqb_spec (given i a) 0), (Z.eqb_spec (given i b) 0), (default false (eqs !! i)); lia.
Qed.

(** An upper bound: the voters that voted or equivocated. *)
Lemma counted_total_le a P `{forall v, Decision (P v)} : a ⊆+ L ->
  (forall i v, VoterSet.voters_ vs !! i = Some v -> given i a <> 0 \/ eqs !! i = Some true -> P v) ->
  counted_total a <= weight_of P.
Proof using All.
  intros Ha HP. apply imap_le. intros i v Hi. pose proof (counts_range a i v Ha Hi). case_decide as Hd; [lia|].
  unfold counts. destruct (Z.eqb_spec (given i a) 0) as [E|E]; [|destruct Hd; eauto].
  destruct (eqs !! i) as [[]|] eqn:Eq; cbn; [|lia..]. destruct Hd. eauto.
Qed.

End total.
End voters.
