(* ===== verification/VotingRound.v ===== *)
(** * A round of voting

    Models [src/src/verification/finality/impl/voting_round_impl.cpp]: one round
    of the finality protocol, from the proposal of the primary over prevotes and
    precommits to the finalized block, with the messages of
    [impl/environment_impl.cpp] that it sends.

    A round has its own state [t] and two [RoundState]s, its own one and that of
    the round before, which is shared with that round.  What it asks of the
    chain is the interface [Environment].  The calls it makes that do not return
    a value to it, to the gossiper, to the handler of completed rounds, to the
    timer and to [Finality::executeNextRound], are recorded in the order in which
    they are made; the last one is the only one that comes back to the round and
    is always the last call of an operation.  The members that the constructor
    sets and nothing changes are the record [config].  The handler
    [on_complete_handler_] is set and cleared and never called.  Loggers are left
    out; [Finality] is alive while one of its rounds is. *)

From S2P Require Import Prelude Scale Votes VoteGraph.

Open Scope Z_scope.

(** ** Messages and states *)

Record RoundState : Type := mkRoundState {
  last_finalized_block : BlockInfo;
  best_prevote_candidate : BlockInfo;
  best_final_candidate : BlockInfo;
  finalized : option BlockInfo
}.

Record CompletedRound : Type := mkCompleted {
  completed_number : Z;
  completed_state : RoundState
}.

Record VoteMessage : Type := mkVoteMessage {
  vote_round : Z;
  counter : Z;
  vote : SignedMessage
}.

Record Fin : Type := mkFin {
  fin_round : Z;
  fin_vote : BlockInfo;
  justification : list SignedMessage
}.

Definition is_prevote (m : SignedMessage) : bool := match message m with Prevote _ => true | _ => false end.
Definition is_precommit (m : SignedMessage) : bool := match message m with Precommit _ => true | _ => false end.
Definition is_primary_propose (m : SignedMessage) : bool := match message m with PrimaryPropose _ => true | _ => false end.

(** ** The environment of a round *)

Class Environment (E : Type) : Type := {
  env_chain : E -> Chain;
  env_bestChainContaining : E -> bytes -> outcome BlockInfo;
  env_finalize : bytes -> list SignedMessage -> act E (outcome unit)
}.

Definition isEqualOrDescendOf {chain : Chain} (base block : bytes) : bool :=
  if decide (base = block) then true else negb (has_failure (getAncestry base block)).

Module VotingRoundImpl.

Inductive Stage : Type :=
  | INIT | START
  | START_PREVOTE | PREVOTE_RUNS | END_PREVOTE
  | START_PRECOMMIT | PRECOMMIT_RUNS | END_PRECOMMIT
  | START_WAITING | WAITING_RUNS | END_WAITING
  | COMPLETED.

#[export] Instance Stage_eq_dec : EqDecision Stage.
Proof. solve_decision. Defined.

(** The calls that leave the round. *)
Inductive call : Type :=
  | GossipVote (m : VoteMessage)
  | GossipFinalize (f : Fin)
  | OnCompleted (r : outcome CompletedRound)
  | ExecuteNextRound
  | CancelTimer
  | AsyncWait (expiry : Z) (stage : Stage).

Record config : Type := mkConfig {
  voter_set_ : VoterSet.t;
  round_number_ : Z;
  duration_ : Z;
  id_ : bytes;
  vote_crypto_provider_ : VoteCryptoProviderImpl.t;
  threshold_ : Z;
  isPrimary_ : bool
}.

Record t : Type := mk {
  cfg : config;
  stage_ : Stage;
  on_complete_handler_ : option Stage;
  start_time_ : Z;
  prevotes_ : VoteTrackerImpl.t;
  precommits_ : VoteTrackerImpl.t;
  graph_ : VoteGraphImpl.t;
  prevote_equivocators_ : list bool;
  precommit_equivocators_ : list bool;
  primary_vote_ : option BlockInfo;
  completable_ : bool
}.

Definition set_stage (x : Stage) (r : t) : t := mk (cfg r) x (on_complete_handler_ r) (start_time_ r) (prevotes_ r)
  (precommits_ r) (graph_ r) (prevote_equivocators_ r) (precommit_equivocators_ r) (primary_vote_ r) (completable_ r).
Definition set_handler (x : option Stage) (r : t) : t := mk (cfg r) (stage_ r) x (start_time_ r) (prevotes_ r)
  (precommits_ r) (graph_ r) (prevote_equivocators_ r) (precommit_equivocators_ r) (primary_vote_ r) (completable_ r).
Definition set_start_time (x : Z) (r : t) : t := mk (cfg r) (stage_ r) (on_complete_handler_ r) x (prevotes_ r)
  (precommits_ r) (graph_ r) (prevote_equivocators_ r) (precommit_equivocators_ r) (primary_vote_ r) (completable_ r).
Definition set_prevotes (x : VoteTrackerImpl.t) (r : t) : t := mk (cfg r) (stage_ r) (on_complete_handler_ r) (start_time_ r) x
  (precommits_ r) (graph_ r) (prevote_equivocators_ r) (precommit_equivocators_ r) (primary_vote_ r) (completable_ r).
Definition set_precommits (x : VoteTrackerImpl.t) (r : t) : t := mk (cfg r) (stage_ r) (on_complete_handler_ r) (start_time_ r)
  (prevotes_ r) x (graph_ r) (prevote_equivocators_ r) (precommit_equivocators_ r) (primary_vote_ r) (completable_ r).
Definition set_graph (x : VoteGraphImpl.t) (r : t) : t := mk (cfg r) (stage_ r) (on_complete_handler_ r) (start_time_ r)
  (prevotes_ r) (precommits_ r) x (prevote_equivocators_ r) (precommit_equivocators_ r) (primary_vote_ r) (completable_ r).
Definition set_prevote_equivocators (x : list bool) (r : t) : t := mk (cfg r) (stage_ r) (on_complete_handler_ r)
  (start_time_ r) (prevotes_ r) (precommits_ r) (graph_ r) x (precommit_equivocators_ r) (primary_vote_ r) (completable_ r).
Definition set_precommit_equivocators (x : list bool) (r : t) : t := mk (cfg r) (stage_ r) (on_complete_handler_ r)
  (start_time_ r) (prevotes_ r) (precommits_ r) (graph_ r) (prevote_equivocators_ r) x (primary_vote_ r) (completable_ r).
Definition set_primary_vote (x : BlockInfo) (r : t) : t := mk (cfg r) (stage_ r) (on_complete_handler_ r) (start_time_ r)
  (prevotes_ r) (precommits_ r) (graph_ r) (prevote_equivocators_ r) (precommit_equivocators_ r) (Some x) (completable_ r).
Definition set_completable (x : bool) (r : t) : t := mk (cfg r) (stage_ r) (on_complete_handler_ r) (start_time_ r)
  (prevotes_ r) (precommits_ r) (graph_ r) (prevote_equivocators_ r) (precommit_equivocators_ r) (primary_vote_ r) x.

(** *** Construction *)

Definition getThreshold (voters : VoterSet.t) : Z :=
  let faulty := u64 (VoterSet.total_weight_ voters - 1) / 3 in
  u64 (VoterSet.total_weight_ voters - faulty).

(** The voter whose turn it is; the modulus of an empty set is undefined. *)
Definition primary_of (round_number : Z) (voters : VoterSet.t) : outcome bytes :=
  let n := length (VoterSet.voters_ voters) in
  if decide (n = 0%nat) then Err undefined_behaviour else
  ok_or undefined_behaviour (VoterSet.voters_ voters !! Z.to_nat (round_number mod Z.of_nat n)).

Definition create (voters : VoterSet.t) (round_number duration : Z) (peer_id : bytes)
    (crypto : VoteCryptoProviderImpl.t) (graph : VoteGraphImpl.t) : outcome t :=
  primary ← primary_of round_number voters;
  let n := length (VoterSet.voters_ voters) in
  Ok (mk (mkConfig voters round_number duration peer_id crypto (getThreshold voters) (bool_decide (primary = peer_id)))
        INIT None 0 VoteTrackerImpl.create VoteTrackerImpl.create graph (replicate n false) (replicate n false) None false).

(** The state a round starts with, from that of the round before. *)
Definition constructCurrentState (previous : RoundState) : RoundState :=
  let b := default (last_finalized_block previous) (finalized previous) in
  mkRoundState b b b None.

Section round.
Context `{ED25519}.
Context {E : Type} `{Environment E}.
Variable order : gset bytes -> list bytes.

Record st : Type := mkSt {
  self : t;
  previous : RoundState;
  current : RoundState;
  env : E;
  now : Z;
  calls : list call
}.

Definition this {A} (f : t -> A) : act st A := gets (fun s => f (self s)).
Definition on_self (f : t -> t) : act st unit :=
  modify (fun s => mkSt (f (self s)) (previous s) (current s) (env s) (now s) (calls s)).
Definition on_current (f : RoundState -> RoundState) : act st unit :=
  modify (fun s => mkSt (self s) (previous s) (f (current s)) (env s) (now s) (calls s)).
Definition emit (c : call) : act st unit :=
  modify (fun s => mkSt (self s) (previous s) (current s) (env s) (now s) (calls s ++ [c])).
Definition assert_ (b : bool) : act st unit := if b then mret tt else lift (Err undefined_behaviour).

Definition set_prevote_candidate (b : BlockInfo) (c : RoundState) : RoundState :=
  mkRoundState (last_finalized_block c) b (best_final_candidate c) (finalized c).
Definition set_final_candidate (b : BlockInfo) (c : RoundState) : RoundState :=
  mkRoundState (last_finalized_block c) (best_prevote_candidate c) b (finalized c).
Definition set_state_finalized (f : option BlockInfo) (c : RoundState) : RoundState :=
  mkRoundState (last_finalized_block c) (best_prevote_candidate c) (best_final_candidate c) f.

(** *** Messages to the other nodes *)

Definition onProposed (round set_id : Z) (propose : SignedMessage) : act st (outcome unit) :=
  assert_ (is_primary_propose propose);; emit (GossipVote (mkVoteMessage round set_id propose));; mret (Ok tt).
Definition onPrevoted (round set_id : Z) (prevote : SignedMessage) : act st (outcome unit) :=
  assert_ (is_prevote prevote);; emit (GossipVote (mkVoteMessage round set_id prevote));; mret (Ok tt).
Definition onPrecommitted (round set_id : Z) (precommit : SignedMessage) : act st (outcome unit) :=
  assert_ (is_precommit precommit);; emit (GossipVote (mkVoteMessage round set_id precommit));; mret (Ok tt).
Definition onCommitted (round : Z) (v : BlockInfo) (j : list SignedMessage) : act st (outcome unit) :=
  emit (GossipFinalize (mkFin round v j));; mret (Ok tt).

(** *** Own votes *)

Definition set_id (c : config) : Z := VoterSet.id_ (voter_set_ c).

Definition doProposal : act st unit :=
  c ← this cfg;
  p ← gets previous;
  t ← gets now;
  on_self (set_primary_vote (best_final_candidate p));;
  m ← lift (VoteCryptoProviderImpl.signPrimaryPropose t (best_final_candidate p) (vote_crypto_provider_ c));
  onProposed (round_number_ c) (set_id c) m;;
  mret tt.

(** The block whose best chain is voted for. *)
Definition find_descendent_of {chain : Chain} (last_round_state : RoundState) (primary_vote : option BlockInfo) : outcome BlockInfo :=
  let last_round_estimate := best_final_candidate last_round_state in
  match primary_vote with
  | None => Ok last_round_estimate
  | Some primary =>
      let last_prevote_g := best_prevote_candidate last_round_state in
      if decide (primary = last_prevote_g) then Ok primary else
      if block_number last_prevote_g <=? block_number primary then Ok last_round_estimate else
      match getAncestry (block_hash last_round_estimate) (block_hash last_prevote_g) with
      | Err _ => Ok last_round_estimate
      | Ok ancestry =>
          let to_sub := u64 (block_number primary + 1) in
          let offset := if to_sub <=? block_number last_prevote_g then block_number last_prevote_g - to_sub else 0 in
          h ← ok_or undefined_behaviour (ancestry !! Z.to_nat offset);
          Ok (if decide (h = block_hash primary) then primary else last_round_estimate)
      end
  end.

Definition constructPrevote (last_round_state : RoundState) : act st (outcome SignedMessage) :=
  r ← gets self;
  e ← gets env;
  t ← gets now;
  d ← lift (find_descendent_of (chain := env_chain e) last_round_state (primary_vote_ r));
  match env_bestChainContaining e (block_hash d) with
  | Err _ => mret (Err error_code_zero)
  | Ok best_chain =>
      m ← lift (VoteCryptoProviderImpl.signPrevote t best_chain (vote_crypto_provider_ (cfg r)));
      mret (Ok m)
  end.

Definition doPrevote : act st unit :=
  c ← this cfg;
  p ← gets previous;
  prevote ← constructPrevote p;
  match prevote with
  | Ok m => onPrevoted (round_number_ c) (set_id c) m;; mret tt
  | Err _ => mret tt
  end.

Definition constructPrecommit : act st (outcome SignedMessage) :=
  c ← this cfg;
  s ← gets current;
  t ← gets now;
  m ← lift (VoteCryptoProviderImpl.signPrecommit t (best_prevote_candidate s) (vote_crypto_provider_ c));
  mret (Ok m).

Definition doPrecommit : act st unit :=
  c ← this cfg;
  p ← gets previous;
  s ← gets current;
  e ← gets env;
  let last_round_estimate := best_final_candidate p in
  let candidate := block_hash (best_prevote_candidate s) in
  let should_precommit := bool_decide (candidate = block_hash last_round_estimate)
    || isEqualOrDescendOf (chain := env_chain e) (block_hash last_round_estimate) candidate in
  if should_precommit then
    precommit ← constructPrecommit;
    match precommit with
    | Ok m => onPrecommitted (round_number_ c) (set_id c) m;; mret tt
    | Err _ => lift (Err undefined_behaviour)
    end
  else emit (OnCompleted (Err (voting_round_error LAST_ESTIMATE_BETTER_THAN_PREVOTE))).

(** *** The stages *)

Definition endWaitingStage : act st unit :=
  s ← this stage_;
  assert_ (bool_decide (s = WAITING_RUNS));;
  on_self (set_stage END_WAITING);;
  on_self (set_handler None);;
  emit ExecuteNextRound.

Definition isReadyToEnd : act st bool :=
  c ← this completable_;
  p ← gets previous;
  mret (c && match finalized p with
             | Some f => block_number (best_final_candidate p) <=? block_number f
             | None => false
             end).

Definition startWaitingStage : act st unit :=
  s ← this stage_;
  assert_ (bool_decide (s = END_PRECOMMIT));;
  on_self (set_stage START_WAITING);;
  ready ← isReadyToEnd;
  if (ready : bool) then on_self (set_stage WAITING_RUNS);; endWaitingStage
  else on_self (set_handler (Some WAITING_RUNS));; on_self (set_stage WAITING_RUNS).

Definition endPrecommitStage : act st unit :=
  s ← this stage_;
  assert_ (bool_decide (s = PRECOMMIT_RUNS));;
  on_self (set_stage END_PRECOMMIT);;
  doPrecommit;;
  emit CancelTimer;;
  on_self (set_handler None);;
  startWaitingStage.

Definition startPrecommitStage : act st unit :=
  r ← gets self;
  assert_ (bool_decide (stage_ r = END_PREVOTE));;
  on_self (set_stage START_PRECOMMIT);;
  if completable_ r then on_self (set_stage PRECOMMIT_RUNS);; endPrecommitStage
  else
    emit CancelTimer;;
    emit (AsyncWait (start_time_ r + duration_ (cfg r) * 4) PRECOMMIT_RUNS);;
    on_self (set_handler (Some PRECOMMIT_RUNS));;
    on_self (set_stage PRECOMMIT_RUNS).

Definition endPrevoteStage : act st unit :=
  s ← this stage_;
  assert_ (bool_decide (s = PREVOTE_RUNS));;
  on_self (set_stage END_PREVOTE);;
  doPrevote;;
  emit CancelTimer;;
  on_self (set_handler None);;
  startPrecommitStage.

Definition startPrevoteStage : act st unit :=
  r ← gets self;
  assert_ (bool_decide (stage_ r = START));;
  on_self (set_stage START_PREVOTE);;
  if completable_ r then on_self (set_stage PREVOTE_RUNS);; endPrevoteStage
  else
    emit CancelTimer;;
    emit (AsyncWait (start_time_ r + duration_ (cfg r) * 2) PREVOTE_RUNS);;
    on_self (set_handler (Some PREVOTE_RUNS));;
    on_self (set_stage PREVOTE_RUNS).

Definition play : act st unit :=
  r ← gets self;
  if decide (stage_ r <> INIT) then mret tt else
  on_self (set_stage START);;
  t ← gets now;
  on_self (set_start_time t);;
  p ← gets previous;
  when (isPrimary_ (cfg r) && (block_number (last_finalized_block p) <? block_number (best_final_candidate p))) doProposal;;
  startPrevoteStage.

Definition end_ : act st unit :=
  on_self (set_stage COMPLETED);; on_self (set_handler None);; emit CancelTimer.

(** The handler of the timer, which does not look at the error code it gets. *)
Definition on_timer (stage : Stage) : act st unit :=
  s ← this stage_;
  if decide (s = stage) then
    match stage with
    | PREVOTE_RUNS => endPrevoteStage
    | PRECOMMIT_RUNS => endPrecommitStage
    | _ => mret tt
    end
  else mret tt.

(** *** Votes of others *)

Definition isPrimary (peer_id : bytes) (c : config) : outcome bool :=
  primary ← primary_of (round_number_ c) (voter_set_ c); Ok (bool_decide (primary = peer_id)).

Definition onPrimaryPropose (primary_propose : SignedMessage) : act st unit :=
  c ← this cfg;
  primary ← lift (isPrimary (id primary_propose) c);
  if negb primary then mret tt else
  isValid ← lift (VoteCryptoProviderImpl.verifyPrimaryPropose primary_propose (vote_crypto_provider_ c));
  if negb isValid then mret tt else
  on_self (set_primary_vote (block_info (message primary_propose))).

Definition insert_into_graph (m : Vote) (w : VoteWeight.t) : act st (outcome unit) :=
  s ← gets (fun s => s);
  r ← lift (@VoteGraphImpl.insert_vote (env_chain (env s)) order m w (graph_ (self s)));
  on_self (set_graph r.2);;
  mret r.1.

Definition onSignedPrevote (m : SignedMessage) : act st unit :=
  assert_ (is_prevote m);;
  r ← gets self;
  let voters := voter_set_ (cfg r) in
  match VoterSet.voterWeight (id m) voters with
  | None => mret tt
  | Some weight =>
      let '(pushed, tracker) := VoteTrackerImpl.push m weight (prevotes_ r) in
      on_self (set_prevotes tracker);;
      match pushed with
      | VoteTrackerImpl.SUCCESS =>
          match VoterSet.voterIndex (id m) voters with
          | None => mret tt
          | Some index =>
              w ← lift (VoteWeight.setPrevote index weight (VoteWeight.create (length (VoterSet.voters_ voters))));
              insert_into_graph (message m) w;;
              mret tt
          end
      | VoteTrackerImpl.DUPLICATED => mret tt
      | VoteTrackerImpl.EQUIVOCATED =>
          match VoterSet.voterIndex (id m) voters with
          | None => mret tt
          | Some index => on_self (set_prevote_equivocators (<[index := true]> (prevote_equivocators_ r)))
          end
      end
  end.

Definition onSignedPrecommit (m : SignedMessage) : act st bool :=
  assert_ (is_precommit m);;
  r ← gets self;
  let voters := voter_set_ (cfg r) in
  match VoterSet.voterWeight (id m) voters with
  | None => mret false
  | Some weight =>
      let '(pushed, tracker) := VoteTrackerImpl.push m weight (precommits_ r) in
      on_self (set_precommits tracker);;
      match pushed with
      | VoteTrackerImpl.SUCCESS =>
          match VoterSet.voterIndex (id m) voters with
          | None => mret false
          | Some index =>
              w ← lift (VoteWeight.setPrecommit index weight (VoteWeight.create (length (VoterSet.voters_ voters))));
              inserted ← insert_into_graph (message m) w;
              mret (negb (has_failure inserted))
          end
      | VoteTrackerImpl.DUPLICATED => mret false
      | VoteTrackerImpl.EQUIVOCATED =>
          match VoterSet.voterIndex (id m) voters with
          | None => mret false
          | Some index =>
              on_self (set_precommit_equivocators (<[index := true]> (precommit_equivocators_ r)));; mret true
          end
      end
  end.

(** The weight for a block, equivocators included. *)
Definition total_weight (r : t) (w : VoteWeight.t) : outcome (Z * Z) :=
  VoteWeight.totalWeight (prevote_equivocators_ r) (precommit_equivocators_ r) (voter_set_ (cfg r)) w.

Definition has_prevotes (r : t) (w : VoteWeight.t) : outcome bool :=
  x ← total_weight r w; Ok (threshold_ (cfg r) <=? x.1).
Definition has_precommits (r : t) (w : VoteWeight.t) : outcome bool :=
  x ← total_weight r w; Ok (threshold_ (cfg r) <=? x.2).

Definition updatePrevoteGhost : act st unit :=
  r ← gets self;
  c ← gets current;
  if VoteTrackerImpl.getTotalWeight (prevotes_ r) <? threshold_ (cfg r) then mret tt else
  let ghost_block_info :=
    if decide (block_hash (best_prevote_candidate c) = block_hash (last_finalized_block c)) then None
    else Some (best_prevote_candidate c) in
  prevote_ghost ← lift (VoteGraphImpl.findGhost order (has_prevotes r) VoteWeight.prevoteComparator ghost_block_info (graph_ r));
  match prevote_ghost with
  | Some b => on_current (set_prevote_candidate b)
  | None => mret tt
  end.

(** The weight of the voters that precommitted twice. *)
Fixpoint equivocations (voters : VoterSet.t) (equivocators : list bool) (i : nat) (n : nat) : outcome Z :=
  match n with
  | O => Ok 0
  | S n' =>
      eq ← ok_or undefined_behaviour (equivocators !! i);
      x ← (if (eq : bool) then w ← VoterSet.voterWeightAt i voters; ok_or undefined_behaviour w else Ok 0);
      rest ← equivocations voters equivocators (S i) n';
      Ok (u64 (x + rest))
  end.

(** Whether a block can still get enough precommits. *)
Definition possible_to_precommit (r : t) (current_equivocations : Z) (w : VoteWeight.t) : outcome bool :=
  let total := VoterSet.total_weight_ (voter_set_ (cfg r)) in
  let current_precommits := VoteTrackerImpl.getTotalWeight (precommits_ r) in
  let tolerated_equivocations := u64 (total - threshold_ (cfg r)) in
  let additional_equiv := u64 (tolerated_equivocations - current_equivocations) in
  x ← total_weight r w;
  let precommited_for := x.2 in
  let possible_equivocations := Z.min (u64 (current_precommits - precommited_for)) additional_equiv in
  let remaining_commit_votes := u64 (total - current_precommits) in
  let full_possible_weight := u64 (u64 (precommited_for + remaining_commit_votes) + possible_equivocations) in
  Ok (threshold_ (cfg r) <=? full_possible_weight).

Definition update : act st unit :=
  r ← gets self;
  c ← gets current;
  if VoteTrackerImpl.getTotalWeight (prevotes_ r) <? threshold_ (cfg r) then mret tt else
  let prevote_ghost := best_prevote_candidate c in
  let enough := threshold_ (cfg r) <=? VoteTrackerImpl.getTotalWeight (precommits_ r) in
  when enough
    (f ← lift (VoteGraphImpl.findAncestor order (has_precommits r) VoteWeight.precommitComparator prevote_ghost (graph_ r));
     on_current (set_state_finalized f));;
  current_equivocations ← lift (equivocations (voter_set_ (cfg r)) (precommit_equivocators_ r) 0
    (length (VoterSet.voters_ (voter_set_ (cfg r)))));
  let possible := possible_to_precommit r current_equivocations in
  if negb enough then on_current (set_final_candidate prevote_ghost) else
  b ← lift (VoteGraphImpl.findAncestor order possible VoteWeight.precommitComparator prevote_ghost (graph_ r));
  when (bool_decide (is_Some b)) (on_current (set_final_candidate (default prevote_ghost b)));;
  block ← gets (fun s => best_final_candidate (current s));
  completable ←
    (if decide (block_hash block = block_hash prevote_ghost) then
       g ← lift (VoteGraphImpl.findGhost order possible VoteWeight.precommitComparator (Some block) (graph_ r));
       mret (match g with Some g => bool_decide (g = prevote_ghost) | None => true end)
     else mret true);
  on_self (set_completable completable).

(** *** Finalizing *)

Fixpoint justify {chain : Chain} (finalized_hash : bytes) (l : list VoteTrackerImpl.VoteVariant) : list SignedMessage :=
  match l with
  | [] => []
  | VoteTrackerImpl.VotingMessage m :: l' =>
      if is_precommit m && isEqualOrDescendOf finalized_hash (vote_hash m) then m :: justify finalized_hash l'
      else justify finalized_hash l'
  | VoteTrackerImpl.EquivocatoryVotingMessage m m' :: l' => m :: m' :: justify finalized_hash l'
  end.

Definition finalizingPrecommits (finalized_hash : bytes) : act st (list SignedMessage) :=
  s ← gets (fun s => s);
  mret (justify (chain := env_chain (env s)) finalized_hash (VoteTrackerImpl.getMessages (precommits_ (self s)))).

Definition notify : act st (outcome unit) :=
  r ← gets self;
  if completable_ r then
    c ← gets current;
    f ← lift (ok_or undefined_behaviour (finalized c));
    j ← finalizingPrecommits (block_hash f);
    onCommitted (round_number_ (cfg r)) f j
  else mret (Err (voting_round_error NEW_STATE_EQUAL_TO_OLD)).

Definition tryFinalize : act st bool :=
  completable ← this completable_;
  if negb completable then mret false else
  r ← notify;
  match r with
  | Ok _ => mret true
  | Err e => emit (OnCompleted (Err e));; mret false
  end.

Definition onPrevote (prevote : SignedMessage) : act st unit :=
  c ← this cfg;
  isValid ← lift (VoteCryptoProviderImpl.verifyPrevote prevote (vote_crypto_provider_ c));
  if negb isValid then mret tt else
  onSignedPrevote prevote;;
  updatePrevoteGhost;;
  update;;
  tryFinalize;;
  mret tt.

Definition onPrecommit (precommit : SignedMessage) : act st unit :=
  c ← this cfg;
  isValid ← lift (VoteCryptoProviderImpl.verifyPrecommit precommit (vote_crypto_provider_ c));
  if negb isValid then mret tt else
  ok ← onSignedPrecommit precommit;
  if negb ok then emit (OnCompleted (Err (voting_round_error LAST_ESTIMATE_BETTER_THAN_PREVOTE))) else
  update;;
  tryFinalize;;
  mret tt.

(** *** Finalization of others *)

(** The loop over the precommits of a justification: the weight for the block,
    [None] when the justification is refused. *)
Fixpoint validate_loop {chain : Chain} (r : t) (v : BlockInfo) (items : list SignedMessage) (validators : gmap bytes bytes)
    (equivocators : gset bytes) (total : Z) : outcome (option Z) :=
  match items with
  | [] => Ok (Some total)
  | m :: items' =>
      let voters := voter_set_ (cfg r) in
      known ← match VoterSet.voterIndex (id m) voters with
              | Some i => ok_or undefined_behaviour (precommit_equivocators_ r !! i)
              | None => Ok false
              end;
      if (known : bool) then validate_loop r v items' validators equivocators total else
      valid ← VoteCryptoProviderImpl.verifyPrecommit m (vote_crypto_provider_ (cfg r));
      if negb valid then Ok None else
      let weight (h : bytes) : outcome Z :=
        if has_failure (getAncestry (block_hash v) h) then Ok 0
        else ok_or undefined_behaviour (VoterSet.voterWeight (id m) voters) in
      match validators !! id m with
      | None =>
          w ← weight (vote_hash m);
          validate_loop r v items' (<[id m := vote_hash m]> validators) equivocators (u64 (total + w))
      | Some first =>
          if decide (id m ∈ equivocators) then Ok None else
          w ← weight first;
          validate_loop r v items' validators ({[id m]} ∪ equivocators) (u64 (total - w))
      end
  end.

Definition validate {chain : Chain} (r : t) (v : BlockInfo) (j : list SignedMessage) : outcome bool :=
  total ← validate_loop r v j ∅ ∅ 0;
  Ok (match total with Some w => threshold_ (cfg r) <=? w | None => false end).

Definition onFinalize (f : Fin) : act st unit :=
  s ← gets (fun s => s);
  valid ← lift (validate (chain := env_chain (env s)) (self s) (fin_vote f) (justification f));
  if (valid : bool) then
    r ← lift (env_finalize (block_hash (fin_vote f)) (justification f) (env s));
    modify (fun s => mkSt (self s) (previous s) (current s) r.2 (now s) (calls s));;
    match r.1 with
    | Err _ => mret tt
    | Ok _ => emit (OnCompleted (Ok (mkCompleted (round_number_ (cfg (self s))) (current s))))
    end
  else emit (OnCompleted (Err (voting_round_error FIN_VALIDATION_FAILED))).

End round.
End VotingRoundImpl.
