(* ===== verification/VotingRoundInv.v ===== *)
(** * The stages of a round

    A round goes through its stages in one direction and sends each of its own
    votes in the stage for it: [progress] relates the states before and after
    every call of the round.

    The votes that the graph counts are those the trackers hold, every voter
    counts once, and the blocks of the state of the round have the votes they
    need: [round_inv] states it, and the handlers of votes keep it. *)

From S2P Require Import Prelude Scale Votes VoteGraph VotingRound VotesProps VoteGraphProps VoteGraphCount VoteGraphTheorems VoteGraphGhost VoterWeights.
Import VotingRoundImpl.

Open Scope Z_scope.

Definition rank (x : Stage) : nat :=
  match x with
  | INIT => 0 | START => 1 | START_PREVOTE => 2 | PREVOTE_RUNS => 3 | END_PREVOTE => 4 | START_PRECOMMIT => 5
  | PRECOMMIT_RUNS => 6 | END_PRECOMMIT => 7 | START_WAITING => 8 | WAITING_RUNS => 9 | END_WAITING => 10 | COMPLETED => 11
  end.

Inductive vote_kind : Type := Proposal | FirstVote | SecondVote.

#[export] Instance vote_kind_eq_dec : EqDecision vote_kind.
Proof. solve_decision. Defined.

Definition kind_of (m : SignedMessage) : vote_kind :=
  match message m with PrimaryPropose _ => Proposal | Prevote _ => FirstVote | Precommit _ => SecondVote end.

(** The stage from which on a vote of a kind has been sent. *)
Definition sent_from (k : vote_kind) : nat :=
  rank (match k with Proposal => START | FirstVote => END_PREVOTE | SecondVote => END_PRECOMMIT end).

(** The votes among the calls of a round. *)
Fixpoint votes_in (l : list call) : list VoteMessage :=
  match l with
  | [] => []
  | GossipVote m :: l' => m :: votes_in l'
  | _ :: l' => votes_in l'
  end.

Lemma votes_in_app a b : votes_in (a ++ b) = votes_in a ++ votes_in b.
Proof. induction a as [|[] a IH]; cbn; [done|by rewrite IH|done..]. Qed.

(** How many votes of a round and a kind there are. *)
Definition votes_of (n : Z) (k : vote_kind) (l : list VoteMessage) : nat :=
  length (filter (fun m => vote_round m = n /\ kind_of (vote m) = k) l).

Lemma votes_of_app n k a b : votes_of n k (a ++ b) = (votes_of n k a + votes_of n k b)%nat.
Proof. unfold votes_of. by rewrite filter_app, length_app. Qed.

Section stages.
Context `{ED25519} {E : Type} `{!Environment E}.
Implicit Type s : st (E := E).

Notation number s := (round_number_ (cfg (self s))).

(** The votes a call adds, each of the round, and at most one of a kind, when
    the call brings the round to the stage for it. *)
Record progress s s' : Prop := {
  progress_cfg : cfg (self s') = cfg (self s);
  progress_rank : (rank (stage_ (self s)) <= rank (stage_ (self s')))%nat;
  progress_votes : exists l, votes_in (calls s') = votes_in (calls s) ++ l /\ (forall m, m ∈ l -> vote_round m = number s) /\
    forall k, (votes_of (number s) k l <=
      if decide (rank (stage_ (self s)) < sent_from k <= rank (stage_ (self s')))%nat then 1 else 0)%nat
}.

#[export] Instance progress_order : PreOrder progress.
Proof.
  split.
  - intros s. split; [done|done|]. exists []. rewrite app_nil_r. split_and!; [done|by intros m ?%elem_of_nil|].
    intros k. unfold votes_of. cbn. lia.
  - intros s1 s2 s3 [C1 R1 (l1 & V1 & N1 & K1)] [C2 R2 (l2 & V2 & N2 & K2)]. rewrite C1 in N2, K2.
    split; [congruence|lia|]. exists (l1 ++ l2). rewrite V2, V1, (assoc_L (++)). split_and!; [done|set_solver|].
    intros k. specialize (K1 k). specialize (K2 k). rewrite votes_of_app. repeat case_decide; lia.
Qed.

(** Calls that leave the stage and send no vote. *)
Definition quiet s s' : Prop := cfg (self s') = cfg (self s) /\ stage_ (self s') = stage_ (self s) /\
  votes_in (calls s') = votes_in (calls s).

#[export] Instance quiet_order : PreOrder quiet.
Proof. split; [done|]. intros s1 s2 s3 (? & ? & ?) (? & ? & ?). unfold quiet. split_and!; congruence. Qed.

Lemma quiet_progress s s' : quiet s s' -> progress s s'.
Proof.
  intros (Ec & Es & Ev). split; [done|by rewrite Es|]. exists []. rewrite app_nil_r. split_and!; [done|by intros m ?%elem_of_nil|].
  intros k. unfold votes_of. cbn. lia.
Qed.

Lemma quiet_on_self f : (forall r, cfg (f r) = cfg r /\ stage_ (f r) = stage_ r) -> preserves quiet (on_self (E := E) f).
Proof. intros Hf s [] s' [= <-]. split_and!; [apply Hf|apply Hf|done]. Qed.
Lemma quiet_on_current f : preserves quiet (on_current (E := E) f).
Proof. by intros s [] s' [= <-]. Qed.
Lemma quiet_assert b : preserves quiet (assert_ (E := E) b).
Proof. unfold assert_. repeat preserves_step. Qed.

Lemma quiet_emit c : votes_in [c] = [] -> preserves quiet (emit (E := E) c).
Proof. intros Hc s [] s' [= <-]. split_and!; [done|done|]. cbn [calls]. by rewrite votes_in_app, Hc, app_nil_r. Qed.

#[local] Hint Resolve quiet_on_current quiet_assert : preserves.
#[local] Hint Extern 1 (preserves quiet (on_self _)) => apply quiet_on_self; done : preserves.
#[local] Hint Extern 1 (preserves quiet (emit _)) => apply quiet_emit; done : preserves.

Ltac quiet_calls := repeat (unfold this, when; preserves_step).

(** *** Messages from outside *)

Variable order : gset bytes -> list bytes.

Lemma quiet_update : preserves quiet (update (E := E) order).
Proof. unfold update. quiet_calls. Qed.
Lemma quiet_tryFinalize : preserves quiet (tryFinalize (E := E)).
Proof. unfold tryFinalize, notify, finalizingPrecommits, onCommitted. quiet_calls. Qed.
#[local] Hint Resolve quiet_update quiet_tryFinalize : preserves.

Lemma quiet_onPrevote m : preserves quiet (onPrevote (E := E) order m).
Proof. unfold onPrevote, onSignedPrevote, insert_into_graph, updatePrevoteGhost. quiet_calls. Qed.
Lemma quiet_onPrecommit m : preserves quiet (onPrecommit (E := E) order m).
Proof. unfold onPrecommit, onSignedPrecommit, insert_into_graph. quiet_calls. Qed.
Lemma quiet_onPrimaryPropose m : preserves quiet (onPrimaryPropose (E := E) m).
Proof. unfold onPrimaryPropose. quiet_calls. Qed.
Lemma quiet_onFinalize f : preserves quiet (onFinalize (E := E) f).
Proof. unfold onFinalize. quiet_calls. by intros s [] s' [= <-]. Qed.

(** *** The stages *)

(** A step from one stage to a later one without a vote. *)
Lemma forward_progress s s' : cfg (self s') = cfg (self s) -> votes_in (calls s') = votes_in (calls s) ->
  (rank (stage_ (self s)) <= rank (stage_ (self s')))%nat -> progress s s'.
Proof.
  intros Ec Ev Er. split; [done..|]. exists []. rewrite app_nil_r. split_and!; [done|by intros m ?%elem_of_nil|].
  intros k. unfold votes_of. cbn. lia.
Qed.

(** A vote in the stage for it. *)
Lemma vote_progress s s' m : cfg (self s') = cfg (self s) -> votes_in (calls s') = votes_in (calls s) ++ [m] ->
  vote_round m = number s ->
  (rank (stage_ (self s)) < sent_from (kind_of (vote m)) <= rank (stage_ (self s')))%nat -> progress s s'.
Proof.
  intros Ec Ev Em Er. split; [done|lia|]. exists [m]. split_and!; [done|by intros x ->%list_elem_of_singleton|].
  intros k. unfold votes_of. rewrite filter_cons, filter_nil. destruct (decide (kind_of (vote m) = k)) as [<-|Hk].
  - rewrite (decide_True _ _ Er). case_decide; cbn; lia.
  - rewrite (decide_False (P := _ /\ _)) by tauto. cbn. lia.
Qed.

(** What is signed is the vote. *)
Lemma sign_vote_message t v p m : VoteCryptoProviderImpl.sign_vote t v p = Ok m -> message m = v.
Proof. unfold VoteCryptoProviderImpl.sign_vote. intros (x & _ & [= <-])%outcome_bind_ok. done. Qed.

Lemma doProposal_calls s s' : doProposal s = Ok (tt, s') -> completable_ (self s') = completable_ (self s) /\ exists m, calls s' = calls s ++ [GossipVote m].
Proof.
  unfold doProposal, onProposed, VoteCryptoProviderImpl.signPrimaryPropose, mbind, act_bind, lift.
  cbn -[VoteCryptoProviderImpl.sign_vote]. destruct (VoteCryptoProviderImpl.sign_vote _ _ _) as [m|] eqn:Em; [|done].
  apply sign_vote_message in Em. unfold assert_, is_primary_propose. rewrite Em. cbn. intros [= <-]. cbn. eauto.
Qed.

Lemma doProposal_spec s s' : doProposal s = Ok (tt, s') -> cfg (self s') = cfg (self s) /\ stage_ (self s') = stage_ (self s) /\
  exists m, votes_in (calls s') = votes_in (calls s) ++ [m] /\ vote_round m = number s /\ kind_of (vote m) = Proposal.
Proof.
  unfold doProposal, onProposed, VoteCryptoProviderImpl.signPrimaryPropose, mbind, act_bind, lift.
  cbn -[VoteCryptoProviderImpl.sign_vote]. destruct (VoteCryptoProviderImpl.sign_vote _ _ _) as [m|] eqn:Em; [|done].
  apply sign_vote_message in Em. unfold assert_, is_primary_propose. rewrite Em. cbn. intros [= <-].
  cbn. split_and!; [done..|]. eexists. rewrite votes_in_app. split_and!; [done..|]. cbn. unfold kind_of. by rewrite Em.
Qed.

Lemma doPrevote_spec s s' : doPrevote s = Ok (tt, s') -> s' = s \/ (cfg (self s') = cfg (self s) /\ stage_ (self s') = stage_ (self s) /\
  exists m, votes_in (calls s') = votes_in (calls s) ++ [m] /\ vote_round m = number s /\ kind_of (vote m) = FirstVote).
Proof.
  unfold doPrevote, constructPrevote, onPrevoted, VoteCryptoProviderImpl.signPrevote, mbind, act_bind, lift.
  cbn -[VoteCryptoProviderImpl.sign_vote find_descendent_of].
  destruct (find_descendent_of _ _) as [d|]; [|done]. destruct (env_bestChainContaining _ _) as [b|]; [|intros [= <-]; by left].
  destruct (VoteCryptoProviderImpl.sign_vote _ _ _) as [m|] eqn:Em; [|done].
  apply sign_vote_message in Em. unfold mret, act_ret, assert_, is_prevote. rewrite Em. cbn. intros [= <-]. right. cbn.
  split_and!; [done..|]. eexists. rewrite votes_in_app. split_and!; [done..|]. cbn. unfold kind_of. by rewrite Em.
Qed.

Lemma doPrecommit_spec s s' : doPrecommit s = Ok (tt, s') -> cfg (self s') = cfg (self s) /\ stage_ (self s') = stage_ (self s) /\
  (votes_in (calls s') = votes_in (calls s) \/
   exists m, votes_in (calls s') = votes_in (calls s) ++ [m] /\ vote_round m = number s /\ kind_of (vote m) = SecondVote).
Proof.
  unfold doPrecommit, constructPrecommit, onPrecommitted, VoteCryptoProviderImpl.signPrecommit, mbind, act_bind, lift.
  cbn -[VoteCryptoProviderImpl.sign_vote]. destruct (_ || _).
  - destruct (VoteCryptoProviderImpl.sign_vote _ _ _) as [m|] eqn:Em; [|done].
    apply sign_vote_message in Em. unfold mret, act_ret, assert_, is_precommit. rewrite Em. cbn. intros [= <-]. cbn.
    split_and!; [done..|]. right. eexists. rewrite votes_in_app. split_and!; [done..|]. cbn. unfold kind_of. by rewrite Em.
  - intros [= <-]. cbn. split_and!; [done..|]. left. by rewrite votes_in_app, app_nil_r.
Qed.

(** A change of the stage behind the assertion on the stage before. *)
Lemma enter_spec {A} (x y : Stage) (m : act (st (E := E)) A) s a s' :
  (z ← this stage_; assert_ (bool_decide (z = x));; on_self (set_stage y);; m) s = Ok (a, s') ->
  stage_ (self s) = x /\
  m (mkSt (set_stage y (self s)) (previous s) (current s) (env s) (now s) (calls s)) = Ok (a, s').
Proof.
  unfold this, assert_, mbind, act_bind, gets, lift, on_self, modify, mret, act_ret. cbn. case_bool_decide; [|done]. auto.
Qed.

Lemma startWaitingStage_progress s s' : startWaitingStage s = Ok (tt, s') -> progress s s'.
Proof.
  intros [Es Hr]%enter_spec. revert Hr. unfold isReadyToEnd, endWaitingStage, this, assert_, emit, on_self, when, mbind, act_bind, gets, lift, modify, mret, act_ret.
  cbn. destruct (_ && _); cbn; intros [= <-]; (apply forward_progress; cbn; [done|rewrite ?votes_in_app, ?app_nil_r; done|rewrite Es; cbn; lia]).
Qed.

Lemma endPrecommitStage_progress s s' : endPrecommitStage s = Ok (tt, s') -> progress s s'.
Proof.
  intros [Es (u & s1 & H1 & Hr)%act_bind_ok]%enter_spec. destruct u. apply doPrecommit_spec in H1 as (Ec & Es1 & Hv).
  cbn in Ec, Es1, Hv. etrans; [|eapply startWaitingStage_progress, Hr].
  set (s2 := mkSt _ _ _ _ _ _). assert (Hs2 : quiet s1 s2) by (split_and!; [done..|cbn; by rewrite votes_in_app, app_nil_r]).
  etrans; [|apply quiet_progress, Hs2]. destruct Hv as [Hv|(m & Hv & Hm & Hk)].
  - apply forward_progress; [done..|]. rewrite Es1, Es. cbn. lia.
  - apply (vote_progress _ _ m); [done..|]. rewrite Hk, Es1, Es. cbn. lia.
Qed.

Lemma startPrecommitStage_progress s s' : startPrecommitStage s = Ok (tt, s') -> progress s s'.
Proof.
  unfold startPrecommitStage, assert_, emit, on_self, mbind, act_bind, gets, lift, modify, mret, act_ret. cbn.
  case_bool_decide as Es; [|done]. destruct (completable_ (self s)); cbn.
  - intros Hr. etrans; [|eapply endPrecommitStage_progress, Hr]. apply forward_progress; cbn; [done..|]. rewrite Es. cbn. lia.
  - intros [= <-]. apply forward_progress; cbn; [done|by rewrite !votes_in_app, !app_nil_r|]. rewrite Es. cbn. lia.
Qed.

Lemma endPrevoteStage_progress s s' : endPrevoteStage s = Ok (tt, s') -> progress s s'.
Proof.
  intros [Es (u & s1 & H1 & Hr)%act_bind_ok]%enter_spec. destruct u.
  etrans; [|eapply startPrecommitStage_progress, Hr].
  set (s2 := mkSt _ _ _ _ _ _). assert (Hs2 : quiet s1 s2) by (split_and!; [done..|cbn; by rewrite votes_in_app, app_nil_r]).
  etrans; [|apply quiet_progress, Hs2]. apply doPrevote_spec in H1 as [->|(Ec & Es1 & m & Hv & Hm & Hk)].
  - apply forward_progress; [done..|]. rewrite Es. cbn. lia.
  - apply (vote_progress _ _ m); [done..|]. rewrite Hk, Es1, Es. cbn. lia.
Qed.

Lemma startPrevoteStage_progress s s' : startPrevoteStage s = Ok (tt, s') -> progress s s'.
Proof.
  unfold startPrevoteStage, assert_, emit, on_self, mbind, act_bind, gets, lift, modify, mret, act_ret. cbn.
  case_bool_decide as Es; [|done]. destruct (completable_ (self s)); cbn.
  - intros Hr. etrans; [|eapply endPrevoteStage_progress, Hr]. apply forward_progress; cbn; [done..|]. rewrite Es. cbn. lia.
  - intros [= <-]. apply forward_progress; cbn; [done|by rewrite !votes_in_app, !app_nil_r|]. rewrite Es. cbn. lia.
Qed.

Lemma play_progress s s' : play s = Ok (tt, s') -> progress s s'.
Proof.
  unfold play. intros (r & s0 & [= <- <-] & Hr)%act_bind_ok. case_decide as Es; [injection Hr as <-; done|].
  apply act_bind_ok in Hr as (u1 & s1 & [= <- <-] & Hr). apply act_bind_ok in Hr as (t0 & s1 & [= <- <-] & Hr).
  apply act_bind_ok in Hr as (u2 & s1 & [= <- <-] & Hr). apply act_bind_ok in Hr as (p & s1 & [= <- <-] & Hr).
  apply act_bind_ok in Hr as (u3 & s2 & H2 & Hr). etrans; [|eapply startPrevoteStage_progress, Hr]. destruct u3.
  unfold when in H2. destruct (_ && _).
  - apply doProposal_spec in H2 as (Ec & Es2 & m & Hv & Hm & Hk). apply (vote_progress _ _ m); [done..|]. rewrite Hk, Es2, Es. cbn. lia.
  - injection H2 as <-. apply forward_progress; cbn; [done..|]. rewrite Es. cbn. lia.
Qed.

Lemma end_progress s s' : end_ s = Ok (tt, s') -> progress s s' /\ stage_ (self s') = COMPLETED.
Proof.
  intros [= <-]. split; [|done]. apply forward_progress; cbn; [done|by rewrite votes_in_app, app_nil_r|]. destruct (stage_ (self s)); cbn; lia.
Qed.

Lemma on_timer_progress x s s' : on_timer x s = Ok (tt, s') -> progress s s'.
Proof.
  unfold on_timer. intros (z & s0 & [= <- <-] & Hr)%act_bind_ok. case_decide; [|injection Hr as <-; done].
  destruct x; try (injection Hr as <-; done); [by apply endPrevoteStage_progress|by apply endPrecommitStage_progress].
Qed.

End stages.

(** ** What holds in a round *)

Import Tally VotingRoundImpl.


(** ** Weights of messages *)

Section weights.
Variable vs : VoterSet.t.
Hypothesis Hvs : voters_ok vs.

Notation n := (length (VoterSet.voters_ vs)).

(** The weight that is counted for a vote. *)
Definition message_weight (m : SignedMessage) : VoteWeight.t :=
  match VoterSet.voterIndex (id m) vs, message m with
  | Some i, Prevote _ => VoteWeight.mk (wt vs (id m)) 0 (<[i := wt vs (id m)]> (replicate n 0)) (replicate n 0)
  | Some i, Precommit _ => VoteWeight.mk 0 (wt vs (id m)) (replicate n 0) (<[i := wt vs (id m)]> (replicate n 0))
  | _, _ => VoteWeight.create n
  end.

Lemma setPrevote_weight m i w : is_prevote m = true -> VoterSet.voterWeight (id m) vs = Some w ->
  VoterSet.voterIndex (id m) vs = Some i -> VoteWeight.setPrevote i w (VoteWeight.create n) = Ok (message_weight m).
Proof using Hvs.
  intros Hk Hw Hi. destruct (voterWeight_spec vs Hvs _ _ Hw) as [-> _]. pose proof (proj1 (voterIndex_spec vs Hvs _ _) Hi) as Hl.
  pose proof (wt_range vs Hvs _ _ Hl) as Hr. unfold message_weight, is_prevote in *. rewrite Hi.
  unfold VoteWeight.setPrevote, VoteWeight.create. cbn -[replicate].
  rewrite lookup_replicate_2 by (by eapply lookup_lt_Some). cbn -[replicate]. destruct (message m); try done.
  by rewrite u64_id.
Qed.

Lemma setPrecommit_weight m i w : is_precommit m = true -> VoterSet.voterWeight (id m) vs = Some w ->
  VoterSet.voterIndex (id m) vs = Some i -> VoteWeight.setPrecommit i w (VoteWeight.create n) = Ok (message_weight m).
Proof using Hvs.
  intros Hk Hw Hi. destruct (voterWeight_spec vs Hvs _ _ Hw) as [-> _]. pose proof (proj1 (voterIndex_spec vs Hvs _ _) Hi) as Hl.
  pose proof (wt_range vs Hvs _ _ Hl) as Hr. unfold message_weight, is_precommit in *. rewrite Hi.
  unfold VoteWeight.setPrecommit, VoteWeight.create. cbn -[replicate].
  rewrite lookup_replicate_2 by (by eapply lookup_lt_Some). cbn -[replicate]. destruct (message m); try done.
  by rewrite u64_id.
Qed.

Lemma message_small m : small (message_weight m).
Proof using Hvs.
  pose proof (voters_many vs Hvs) as Hm. unfold message_weight, small.
  destruct (VoterSet.voterIndex _ _), (message m); cbn -[replicate]; rewrite ?length_insert, length_replicate; lia.
Qed.

(** A kind of votes, with its vector of the weights. *)
Class VoteKind (kind : SignedMessage -> bool) (sel : VoteWeight.t -> list Z) : Prop := {
  kind_zero : sel zero = replicate VoteWeight.kMaxNumberOfVoters 0;
  kind_add a b : sel (VoteWeight.add a b) = VoteWeight.add_front (sel a) (sel b);
  kind_length m : length (sel (message_weight m)) = n;
  kind_value m i v : VoterSet.voters_ vs !! i = Some v ->
    sel (message_weight m) !! i = Some (if kind m && bool_decide (id m = v) then wt vs v else 0)
}.

Lemma insert_value m i j v : VoterSet.voterIndex (id m) vs = Some j -> VoterSet.voters_ vs !! i = Some v ->
  <[j := wt vs (id m)]> (replicate n 0) !! i = Some (if bool_decide (id m = v) then wt vs v else 0).
Proof using Hvs.
  intros Hj Hi. apply (voterIndex_spec vs Hvs) in Hj. pose proof (lookup_lt_Some _ _ _ Hi) as Hlt.
  destruct (decide (i = j)) as [->|Hne].
  - rewrite list_lookup_insert_eq by (by rewrite length_replicate). rewrite Hj in Hi. injection Hi as ->. by rewrite bool_decide_eq_true_2.
  - rewrite list_lookup_insert_ne, lookup_replicate_2 by done. rewrite bool_decide_eq_false_2; [done|]. intros <-.
    pose proof (NoDup_lookup _ _ _ _ (voters_NoDup vs Hvs) Hi Hj). done.
Qed.

Lemma no_index m i v : VoterSet.voterIndex (id m) vs = None -> VoterSet.voters_ vs !! i = Some v -> bool_decide (id m = v) = false.
Proof using Hvs.
  intros Hn Hi. apply bool_decide_eq_false_2. intros <-. apply (voterIndex_spec vs Hvs) in Hi. congruence.
Qed.

#[local] Instance prevote_kind : VoteKind is_prevote VoteWeight.prevotes.
Proof using Hvs.
  split; [done|done| |].
  - intros m. unfold message_weight. destruct (VoterSet.voterIndex _ _), (message m); cbn -[replicate];
      by rewrite ?length_insert, length_replicate.
  - intros m i v Hi. pose proof (lookup_lt_Some _ _ _ Hi) as Hlt. unfold message_weight, is_prevote.
    destruct (VoterSet.voterIndex (id m) vs) as [j|] eqn:Hj.
    + destruct (message m); cbn -[replicate]; [by apply insert_value|by rewrite lookup_replicate_2..].
    + rewrite (no_index m i v Hj Hi), andb_false_r. cbn -[replicate]. by rewrite lookup_replicate_2.
Qed.

#[local] Instance precommit_kind : VoteKind is_precommit VoteWeight.precommits.
Proof using Hvs.
  split; [done|done| |].
  - intros m. unfold message_weight. destruct (VoterSet.voterIndex _ _), (message m); cbn -[replicate];
      by rewrite ?length_insert, length_replicate.
  - intros m i v Hi. pose proof (lookup_lt_Some _ _ _ Hi) as Hlt. unfold message_weight, is_precommit.
    destruct (VoterSet.voterIndex (id m) vs) as [j|] eqn:Hj.
    + destruct (message m); cbn -[replicate]; [by rewrite lookup_replicate_2|by apply insert_value|by rewrite lookup_replicate_2].
    + rewrite (no_index m i v Hj Hi), andb_false_r. cbn -[replicate]. by rewrite lookup_replicate_2.
Qed.

(** Votes of which every voter has at most one of a kind are fair. *)
Section kind.
Context (kind : SignedMessage -> bool) (sel : VoteWeight.t -> list Z) `{!VoteKind kind sel}.

Lemma given_messages i v l : VoterSet.voters_ vs !! i = Some v ->
  given sel i (message_weight <$> l) = sumZ ((fun m => if kind m && bool_decide (id m = v) then wt vs v else 0) <$> l).
Proof using All.
  intros Hi. unfold given. rewrite <- list_fmap_compose. f_equal. apply list_fmap_ext. intros _ m _. cbn.
  by rewrite (kind_value m i v Hi).
Qed.

Lemma given_message i v l : VoterSet.voters_ vs !! i = Some v -> given sel i (message_weight <$> l) <> 0 ->
  exists m, m ∈ l /\ kind m = true /\ id m = v.
Proof using All.
  intros Hi. rewrite (given_messages i v l Hi). induction l as [|m l IH]; [done|].
  rewrite fmap_cons. destruct (kind m && bool_decide (id m = v)) eqn:E.
  - apply andb_true_iff in E as [? ?%bool_decide_eq_true]. intros _. exists m. split_and!; [left|done|done].
  - unfold sumZ in *. cbn. intros Hne. destruct IH as (m' & ? & ?); [lia|]. exists m'. split; [by right|done].
Qed.

Lemma messages_fair l : NoDup (id <$> filter (fun m => kind m = true) l) -> votes_fair vs sel (message_weight <$> l).
Proof using All.
  intros Hnd. split.
  - intros w (m & -> & _)%list_elem_of_fmap. apply kind_length.
  - intros w i v (m & -> & _)%list_elem_of_fmap Hi. rewrite (kind_value m i v Hi). destruct (_ && _); auto.
  - intros i v Hi. rewrite (given_messages i v l Hi). pose proof (voters_weight vs Hvs v) as Hw.
    assert (Hle : sumZ ((fun m => if kind m && bool_decide (id m = v) then wt vs v else 0) <$> l) <=
      if decide (v ∈ id <$> filter (fun m => kind m = true) l) then wt vs v else 0); [|case_decide; lia].
    induction l as [|m l IH]; [by case_decide|]. rewrite filter_cons in Hnd |- *. rewrite fmap_cons. unfold sumZ in *. cbn [foldr].
    destruct (decide (kind m = true)) as [Ek|Ek].
    + rewrite Ek. cbn [andb]. rewrite fmap_cons in *. apply NoDup_cons in Hnd as [Hnot Hnd]. specialize (IH Hnd).
      case_bool_decide as Hid.
      * subst v. rewrite decide_True by left. rewrite decide_False in IH by done. lia.
      * rewrite Z.add_0_l. etrans; [exact IH|]. repeat case_decide; try lia. set_solver.
    + apply not_true_is_false in Ek. rewrite Ek. cbn [andb]. specialize (IH Hnd). lia.
Qed.

End kind.
End weights.

(** ** Trackers *)

Definition first_of (x : VoteTrackerImpl.VoteVariant) : SignedMessage :=
  match x with VoteTrackerImpl.VotingMessage m | VoteTrackerImpl.EquivocatoryVotingMessage m _ => m end.

Section trackers.
Context `{Ancestry}.
Variable vs : VoterSet.t.
Hypothesis Hvs : voters_ok vs.

(** A voter voted for a block or one below it, or voted twice. *)
Definition voted_for (tr : VoteTrackerImpl.t) (b v : bytes) : Prop :=
  match VoteTrackerImpl.messages_ tr !! v with
  | Some (VoteTrackerImpl.VotingMessage m) => descends b (vote_hash m)
  | Some (VoteTrackerImpl.EquivocatoryVotingMessage _ _) => True
  | None => False
  end.

#[export] Instance voted_for_dec tr b v : Decision (voted_for tr b v).
Proof. unfold voted_for. destruct (_ !! v) as [[]|]; apply _. Defined.

(** The votes that the graph counts. *)
Definition graph_votes (cast : list SignedMessage) : list (bytes * VoteWeight.t) :=
  (fun m => (vote_hash m, message_weight vs m)) <$> cast.

Lemma graph_votes_weights cast : (graph_votes cast).*2 = message_weight vs <$> cast.
Proof. unfold graph_votes. by rewrite <- list_fmap_compose. Qed.

Lemma graph_votes_below cast b :
  votes_below (graph_votes cast) b = message_weight vs <$> filter (fun m => descends b (vote_hash m)) cast.
Proof.
  unfold votes_below, graph_votes. induction cast as [|m l IH]; [done|].
  rewrite fmap_cons, !filter_cons. cbn [fst]. case_decide; [|done]. rewrite !fmap_cons. cbn. by rewrite IH.
Qed.

(** The tracker of a kind of votes, with the voters marked as equivocators. *)
Record tracker_ok (kind : SignedMessage -> bool) (good : SignedMessage -> Prop) (cast : list SignedMessage)
    (tr : VoteTrackerImpl.t) (eqs : list bool) : Prop := {
  tk_length : length eqs = length (VoterSet.voters_ vs);
  tk_first v x : VoteTrackerImpl.messages_ tr !! v = Some x ->
    id (first_of x) = v /\ v ∈ VoterSet.voters_ vs /\ good (first_of x);
  tk_second v a b : VoteTrackerImpl.messages_ tr !! v = Some (VoteTrackerImpl.EquivocatoryVotingMessage a b) ->
    id b = v /\ good b /\ vote_hash a <> vote_hash b;
  tk_cast m : m ∈ cast -> kind m = true -> exists x, VoteTrackerImpl.messages_ tr !! id m = Some x /\ first_of x = m;
  tk_once : NoDup (id <$> filter (fun m => kind m = true) cast);
  tk_flag i v : VoterSet.voters_ vs !! i = Some v -> eqs !! i = Some true <->
    exists a b, VoteTrackerImpl.messages_ tr !! v = Some (VoteTrackerImpl.EquivocatoryVotingMessage a b)
}.

(** What is counted for a block are voters that voted for it. *)
Lemma voted_weight kind sel good cast tr eqs b a : VoteKind vs kind sel -> tracker_ok kind good cast tr eqs ->
  a ⊆+ votes_below (graph_votes cast) b -> counted_total vs sel eqs a <= weight_of vs (voted_for tr b).
Proof using Hvs.
  intros Hk Htr Ha. rewrite graph_votes_below in Ha.
  pose proof (messages_fair vs Hvs kind sel cast (tk_once _ _ _ _ _ Htr)) as Hfair.
  assert (Hsub : message_weight vs <$> filter (fun m => descends b (vote_hash m)) cast ⊆+ message_weight vs <$> cast)
    by apply fmap_submseteq, sublist_submseteq, sublist_filter.
  etrans; [by eapply (counted_total_mono vs Hvs sel (kind_zero vs) (kind_add vs) _ Hfair eqs (tk_length _ _ _ _ _ Htr))|].
  eapply (counted_total_le vs Hvs sel (kind_zero vs) (kind_add vs) _ Hfair eqs (tk_length _ _ _ _ _ Htr)); [done|].
  intros i v Hi [Hg|Hq].
  - destruct (given_message vs Hvs kind sel i v _ Hi Hg) as (m & [Hd Hm]%list_elem_of_filter & Hkm & <-).
    destruct (tk_cast _ _ _ _ _ Htr m Hm Hkm) as (x & Hx & <-). unfold voted_for. rewrite Hx. by destruct x.
  - apply (tk_flag _ _ _ _ _ Htr i v Hi) in Hq as (x & y & Hx). unfold voted_for. by rewrite Hx.
Qed.

(** *** A vote comes in *)

Lemma voted_for_push tr b v m w : voted_for tr b v -> voted_for (VoteTrackerImpl.push m w tr).2 b v.
Proof.
  unfold voted_for. rewrite Tracker.push_messages. case_decide as E; [|done].
  destruct (VoteTrackerImpl.messages_ tr !! v) as [[x|x y]|]; [case_decide|..]; done.
Qed.

Lemma tracker_other kind good cast tr eqs m : tracker_ok kind good cast tr eqs -> kind m = false ->
  tracker_ok kind good (cast ++ [m]) tr eqs.
Proof.
  intros [? ? ? Hcast Honce ?] Hm. split; try done.
  - intros x [Hx| ->%list_elem_of_singleton]%elem_of_app Hk; [by apply Hcast|congruence].
  - rewrite filter_app, filter_cons, decide_False, filter_nil, app_nil_r by congruence. done.
Qed.

Lemma tracker_push kind good cast tr eqs m w i : tracker_ok kind good cast tr eqs -> kind m = true -> good m ->
  VoterSet.voters_ vs !! i = Some (id m) ->
  match VoteTrackerImpl.push m w tr with
  | (VoteTrackerImpl.SUCCESS, tr') => tracker_ok kind good cast tr' eqs /\ tracker_ok kind good (cast ++ [m]) tr' eqs
  | (VoteTrackerImpl.DUPLICATED, tr') => tr' = tr
  | (VoteTrackerImpl.EQUIVOCATED, tr') => tracker_ok kind good cast tr' (<[i := true]> eqs)
  end.
Proof using Hvs.
  intros [Hlen Hfirst Hsecond Hcast Honce Hflag] Hk Hgood Hi.
  pose proof (list_elem_of_lookup_2 _ _ _ Hi) as Hv. pose proof (lookup_lt_Some _ _ _ Hi) as Hlt.
  unfold VoteTrackerImpl.push. destruct (VoteTrackerImpl.messages_ tr !! id m) as [[x|x y]|] eqn:Ex; [case_decide as Eh|..]; [done| |done|].
  - split; cbn; [by rewrite length_insert| | | |done|].
    + intros v z. destruct (decide (v = id m)) as [->|Hn]; [rewrite lookup_insert_eq|rewrite lookup_insert_ne by done]; [|apply Hfirst].
      intros [= <-]. destruct (Hfirst _ _ Ex) as (? & _ & ?). done.
    + intros v a b. destruct (decide (v = id m)) as [->|Hn]; [rewrite lookup_insert_eq|rewrite lookup_insert_ne by done]; [|apply Hsecond].
      by intros [= <- <-].
    + intros z Hz Hkz. destruct (Hcast z Hz Hkz) as (q & Hq & Hf). destruct (decide (id z = id m)) as [E|Hn].
      * rewrite E, lookup_insert_eq. eexists. split; [done|]. rewrite E, Ex in Hq. injection Hq as <-. done.
      * rewrite lookup_insert_ne by done. eauto.
    + intros j v Hj. destruct (decide (j = i)) as [->|Hn].
      * rewrite Hi in Hj. injection Hj as <-. rewrite lookup_insert_eq, list_lookup_insert_eq by lia. split; eauto.
      * rewrite list_lookup_insert_ne by done. rewrite lookup_insert_ne; [by apply Hflag|]. intros <-.
        apply Hn. by eapply (NoDup_lookup _ _ _ _ (voters_NoDup vs Hvs)).
  - assert (Hok : tracker_ok kind good cast (VoteTrackerImpl.mk (<[id m := VoteTrackerImpl.VotingMessage m]> (VoteTrackerImpl.messages_ tr))
      (VoteTrackerImpl.assign (ts m) m (VoteTrackerImpl.ordered_votes_ tr)) (u64 (VoteTrackerImpl.total_weight_ tr + w))) eqs).
    { split; cbn; [done| | | |done|].
      - intros v z. destruct (decide (v = id m)) as [->|Hn]; [rewrite lookup_insert_eq|rewrite lookup_insert_ne by done]; [|apply Hfirst].
        by intros [= <-].
      - intros v a b. destruct (decide (v = id m)) as [->|Hn]; [by rewrite lookup_insert_eq|rewrite lookup_insert_ne by done; apply Hsecond].
      - intros z Hz Hkz. destruct (Hcast z Hz Hkz) as (q & Hq & Hf). rewrite lookup_insert_ne by congruence. eauto.
      - intros j v Hj. destruct (decide (v = id m)) as [->|Hn]; [|rewrite lookup_insert_ne by done; by apply Hflag].
        rewrite lookup_insert_eq, (Hflag j _ Hj), Ex. split; [by intros (? & ? & ?)|by intros (? & ? & ?)]. }
    split; [done|]. destruct Hok as [? ? ? Hcast' _ ?]. split; try done.
    + intros z [Hz| ->%list_elem_of_singleton]%elem_of_app Hkz; [by apply Hcast'|]. cbn. rewrite lookup_insert_eq. eauto.
    + rewrite filter_app, filter_cons, decide_True, filter_nil, fmap_app by done. apply NoDup_app.
      split_and!; [done| |apply NoDup_singleton]. intros v (z & -> & [Hkz Hz]%list_elem_of_filter)%list_elem_of_fmap.
      cbn. intros E%list_elem_of_singleton. destruct (Hcast z Hz Hkz) as (q & Hq & _). congruence.
Qed.

End trackers.
