(* ===== verification/VotingRoundVotes.v ===== *)
(** * The handlers of votes keep the invariant of a round

    [EnvironmentSpec] is what a round relies on: the answers of the chain are
    right.  Against it the handlers of votes return and keep [round_inv], from
    which the blocks in the state of the round have their votes. *)

From S2P Require Import Prelude Scale Votes VotesProps VoteGraph VoteGraphProps VoteGraphCount VoteGraphTheorems VoteGraphGhost VoterWeights VotingRound VotingRoundInv.
Import Tally VotingRoundImpl.

Open Scope Z_scope.

Class EnvironmentSpec (E : Type) `{Environment E} `{Ancestry} : Prop := {
  env_chain_spec e :: ChainSpec (H0 := env_chain e);
  env_best_below e h b : env_bestChainContaining e h = Ok b ->
    descends h (block_hash b) /\ block_number b = num (block_hash b)
}.

Section invariant.
Context `{ED25519}.
Context `{Ancestry}.

Definition good_prevote (p : VoteCryptoProviderImpl.t) (m : SignedMessage) : Prop :=
  VoteCryptoProviderImpl.verifyPrevote m p = Ok true.
Definition good_precommit (p : VoteCryptoProviderImpl.t) (m : SignedMessage) : Prop :=
  VoteCryptoProviderImpl.verifyPrecommit m p = Ok true.

(** A block at or below the base, with its number. *)
Definition placed (base b : BlockInfo) : Prop :=
  block_number b = num (block_hash b) /\ descends (block_hash base) (block_hash b).

Record votes_inv (cast : list SignedMessage) (r : t) : Prop := {
  vi_voters : voters_ok (voter_set_ (cfg r));
  vi_graph : graph_inv (graph_ r) (graph_votes (voter_set_ (cfg r)) cast);
  vi_range h : is_Some (VoteGraphImpl.entries_ (graph_ r) !! h) -> num h < 2 ^ 64;
  vi_prevotes : tracker_ok (voter_set_ (cfg r)) is_prevote (good_prevote (vote_crypto_provider_ (cfg r))) cast
    (prevotes_ r) (prevote_equivocators_ r);
  vi_precommits : tracker_ok (voter_set_ (cfg r)) is_precommit (good_precommit (vote_crypto_provider_ (cfg r))) cast
    (precommits_ r) (precommit_equivocators_ r)
}.

(** Enough voters voted for a block. *)
Definition has_quorum (r : t) (tr : VoteTrackerImpl.t) (b : bytes) : Prop :=
  threshold_ (cfg r) <= weight_of (voter_set_ (cfg r)) (voted_for tr b).

Record state_inv (r : t) (c : RoundState) : Prop := {
  si_base : VoteGraphImpl.base_ (graph_ r) = last_finalized_block c;
  si_prevote : placed (last_finalized_block c) (best_prevote_candidate c);
  si_final : placed (last_finalized_block c) (best_final_candidate c);
  si_prevote_quorum : best_prevote_candidate c = last_finalized_block c \/ has_quorum r (prevotes_ r) (block_hash (best_prevote_candidate c));
  si_finalized b : finalized c = Some b -> placed (last_finalized_block c) b /\ has_quorum r (precommits_ r) (block_hash b)
}.

Definition round_inv (r : t) (c : RoundState) : Prop := (exists cast, votes_inv cast r) /\ state_inv r c.

(** ** The conditions of the searches *)

Lemma with_equivocators_returns votes eqs vs i n acc : voters_ok vs -> (i + n = length (VoterSet.voters_ vs))%nat ->
  length eqs = length (VoterSet.voters_ vs) -> (length (VoterSet.voters_ vs) <= length votes)%nat ->
  exists c, VoteWeight.with_equivocators votes eqs vs i n acc = Ok c.
Proof.
  intros Hvs Hin He Hl. revert i acc Hin. induction n as [|n IH]; intros i acc Hin; [by exists acc|].
  cbn [VoteWeight.with_equivocators]. destruct (lookup_lt_is_Some_2 votes i) as [x ->]; [lia|]. cbn [ok_or mbind outcome_bind].
  destruct (lookup_lt_is_Some_2 eqs i) as [q ->]; [lia|]. destruct (lookup_lt_is_Some_2 (VoterSet.voters_ vs) i) as [v Hv]; [lia|].
  cbn [ok_or mbind outcome_bind]. destruct (x =? 0); [destruct q|]; cbn [ok_or mbind outcome_bind]; [|apply IH; lia..].
  rewrite (wt_at vs Hvs i v Hv). cbn [ok_or mbind outcome_bind]. apply IH. lia.
Qed.

Section conditions.
Variables (cast : list SignedMessage) (r : t).
Hypothesis Hinv : votes_inv cast r.

Notation vs := (voter_set_ (cfg r)).

Lemma total_weight_returns a : exists x, total_weight r (tally a) = Ok x.
Proof using Hinv.
  pose proof (vi_voters _ _ Hinv) as Hvs. pose proof (voters_many _ Hvs). destruct (tally_length a) as [E1 E2].
  unfold total_weight, VoteWeight.totalWeight.
  destruct (with_equivocators_returns (VoteWeight.prevotes (tally a)) (prevote_equivocators_ r) vs 0 (length (VoterSet.voters_ vs))
    (VoteWeight.prevotes (tally a)) Hvs eq_refl) as [p ->]; [apply (tk_length _ _ _ _ _ _ (vi_prevotes _ _ Hinv))|lia|].
  destruct (with_equivocators_returns (VoteWeight.precommits (tally a)) (precommit_equivocators_ r) vs 0 (length (VoterSet.voters_ vs))
    (VoteWeight.precommits (tally a)) Hvs eq_refl) as [c E]; [apply (tk_length _ _ _ _ _ _ (vi_precommits _ _ Hinv))|lia|].
  cbn [mbind outcome_bind]. rewrite E. cbn [mbind outcome_bind]. eauto.
Qed.

Lemma total_weight_spec a : a ⊆+ message_weight vs <$> cast ->
  total_weight r (tally a) = Ok (counted_total vs VoteWeight.prevotes (prevote_equivocators_ r) a,
    counted_total vs VoteWeight.precommits (precommit_equivocators_ r) a).
Proof using Hinv.
  intros Ha. pose proof (vi_voters _ _ Hinv) as Hvs. pose proof (prevote_kind vs Hvs) as K1. pose proof (precommit_kind vs Hvs) as K2.
  pose proof (vi_prevotes _ _ Hinv) as T1. pose proof (vi_precommits _ _ Hinv) as T2.
  pose proof (messages_fair vs Hvs _ _ cast (tk_once _ _ _ _ _ _ T1)) as F1.
  pose proof (messages_fair vs Hvs _ _ cast (tk_once _ _ _ _ _ _ T2)) as F2. unfold total_weight, VoteWeight.totalWeight.
  destruct (total_of_votes vs Hvs _ (kind_zero vs) (kind_add vs) _ F1 _ (tk_length _ _ _ _ _ _ T1) a Ha) as (c1 & -> & <-).
  destruct (total_of_votes vs Hvs _ (kind_zero vs) (kind_add vs) _ F2 _ (tk_length _ _ _ _ _ _ T2) a Ha) as (c2 & E & <-).
  cbn [mbind outcome_bind]. by rewrite E.
Qed.

Lemma below_votes b a : a ⊆+ votes_below (graph_votes vs cast) b -> a ⊆+ message_weight vs <$> cast.
Proof.
  intros Ha. etrans; [exact Ha|]. rewrite graph_votes_below. apply fmap_submseteq, sublist_submseteq, sublist_filter.
Qed.

(** The value of a condition that is evaluated for sums of votes. *)
Definition holds (condition : VoteWeight.t -> outcome bool) (w : VoteWeight.t) : bool :=
  match condition w with Ok b => b | Err _ => false end.

Lemma has_prevotes_holds a : has_prevotes r (tally a) = Ok (holds (has_prevotes r) (tally a)).
Proof using Hinv. unfold holds, has_prevotes. destruct (total_weight_returns a) as [x ->]. done. Qed.

Lemma has_precommits_holds a : has_precommits r (tally a) = Ok (holds (has_precommits r) (tally a)).
Proof using Hinv. unfold holds, has_precommits. destruct (total_weight_returns a) as [x ->]. done. Qed.

Lemma possible_holds e a : possible_to_precommit r e (tally a) = Ok (holds (possible_to_precommit r e) (tally a)).
Proof using Hinv. unfold holds, possible_to_precommit. destruct (total_weight_returns a) as [x ->]. done. Qed.

Lemma prevote_quorum b a : a ⊆+ votes_below (graph_votes vs cast) b -> holds (has_prevotes r) (tally a) = true ->
  has_quorum r (prevotes_ r) b.
Proof using Hinv.
  intros Ha. pose proof (vi_voters _ _ Hinv) as Hvs. pose proof (prevote_kind vs Hvs).
  unfold holds, has_prevotes. rewrite (total_weight_spec a) by (by eapply below_votes). cbn. intros Hle%Z.leb_le.
  unfold has_quorum. etrans; [exact Hle|]. by eapply voted_weight; [done|done|apply (vi_prevotes _ _ Hinv)|].
Qed.

Lemma precommit_quorum b a : a ⊆+ votes_below (graph_votes vs cast) b -> holds (has_precommits r) (tally a) = true ->
  has_quorum r (precommits_ r) b.
Proof using Hinv.
  intros Ha. pose proof (vi_voters _ _ Hinv) as Hvs. pose proof (precommit_kind vs Hvs).
  unfold holds, has_precommits. rewrite (total_weight_spec a) by (by eapply below_votes). cbn. intros Hle%Z.leb_le.
  unfold has_quorum. etrans; [exact Hle|]. by eapply voted_weight; [done|done|apply (vi_precommits _ _ Hinv)|].
Qed.

(** The sum over the equivocators returns. *)
Lemma equivocations_returns i n : (i + n = length (VoterSet.voters_ vs))%nat ->
  exists x, equivocations vs (precommit_equivocators_ r) i n = Ok x.
Proof using Hinv.
  pose proof (vi_voters _ _ Hinv) as Hvs. pose proof (tk_length _ _ _ _ _ _ (vi_precommits _ _ Hinv)) as Hl.
  revert i. induction n as [|n IH]; intros i Hin; [by exists 0|]. cbn [equivocations].
  destruct (lookup_lt_is_Some_2 (precommit_equivocators_ r) i) as [q ->]; [lia|].
  destruct (lookup_lt_is_Some_2 (VoterSet.voters_ vs) i) as [v Hv]; [lia|].
  destruct (IH (S i) ltac:(lia)) as [rest E]. cbn [ok_or mbind outcome_bind].
  destruct q; [rewrite (wt_at vs Hvs i v Hv)|]; cbn [ok_or mbind outcome_bind]; rewrite E; cbn [mbind outcome_bind]; eauto.
Qed.

End conditions.

(** ** The state of the round *)

Lemma good_prevote_kind p m : good_prevote p m -> is_prevote m = true.
Proof. unfold good_prevote, VoteCryptoProviderImpl.verifyPrevote, is_prevote. by destruct (message m). Qed.

Lemma good_precommit_kind p m : good_precommit p m -> is_precommit m = true.
Proof. unfold good_precommit, VoteCryptoProviderImpl.verifyPrecommit, is_precommit. by destruct (message m). Qed.

Lemma prevote_not_precommit m : is_prevote m = true -> is_precommit m = false.
Proof. unfold is_prevote, is_precommit. by destruct (message m). Qed.

Lemma precommit_not_prevote m : is_precommit m = true -> is_prevote m = false.
Proof. unfold is_prevote, is_precommit. by destruct (message m). Qed.

Lemma quorum_mono r r' tr tr' b : voters_ok (voter_set_ (cfg r)) -> cfg r' = cfg r ->
  (forall b v, voted_for tr b v -> voted_for tr' b v) -> has_quorum r tr b -> has_quorum r' tr' b.
Proof.
  intros Hvs E Hv Hq. unfold has_quorum in *. rewrite E. etrans; [exact Hq|]. apply weight_of_mono; [done|]. intros v _. apply Hv.
Qed.

(** The state stays right while votes come in. *)
Lemma state_inv_grow r r' c : voters_ok (voter_set_ (cfg r)) -> cfg r' = cfg r ->
  VoteGraphImpl.base_ (graph_ r') = VoteGraphImpl.base_ (graph_ r) ->
  (forall b v, voted_for (prevotes_ r) b v -> voted_for (prevotes_ r') b v) ->
  (forall b v, voted_for (precommits_ r) b v -> voted_for (precommits_ r') b v) ->
  state_inv r c -> state_inv r' c.
Proof.
  intros Hvs E Hb Hp Hc [? ? ? Hq Hf]. split; [congruence|done|done| |].
  - destruct Hq as [?|Hq]; [by left|right]. by eapply quorum_mono.
  - intros b Eb. destruct (Hf b Eb). split; [done|]. by eapply quorum_mono.
Qed.

(** ** Votes *)

Section handlers.
Context {E : Type} `{!Environment E} `{!EnvironmentSpec E}.
Variable order : gset bytes -> list bytes.
Hypothesis Horder : forall X, order X ≡ₚ elements X.
Implicit Type s : st (E := E).

(** What a message says of its block is right. *)
Definition numbered (m : SignedMessage) : Prop :=
  block_number (block_info (message m)) = num (vote_hash m) /\ num (vote_hash m) < 2 ^ 64.

(** Only the votes of the round change. *)
Record kept s s' : Prop := {
  kept_st : s' = mkSt (self s') (previous s) (current s') (env s) (now s) (calls s);
  kept_cfg : cfg (self s') = cfg (self s);
  kept_stage : stage_ (self s') = stage_ (self s);
  kept_base : last_finalized_block (current s') = last_finalized_block (current s)
}.

Lemma kept_trans s1 s2 s3 : kept s1 s2 -> kept s2 s3 -> kept s1 s3.
Proof. intros [E1 ? ? ?] [E2 ? ? ?]. split; [|congruence..]. rewrite E2, E1. done. Qed.

Lemma runs_on_self f s (Q : unit -> st -> Prop) :
  Q tt (mkSt (f (self s)) (previous s) (current s) (env s) (now s) (calls s)) -> runs (on_self f) s Q.
Proof. intros HQ. by apply runs_modify. Qed.

Lemma runs_assert b s (Q : unit -> st -> Prop) : b = true -> Q tt s -> runs (assert_ b) s Q.
Proof. intros -> HQ. by apply runs_ret. Qed.

(** A vote that the tracker took goes into the graph or is refused by it. *)
Lemma insert_runs cast s m : votes_inv cast (self s) -> numbered m ->
  tracker_ok (voter_set_ (cfg (self s))) is_prevote (good_prevote (vote_crypto_provider_ (cfg (self s)))) (cast ++ [m])
    (prevotes_ (self s)) (prevote_equivocators_ (self s)) ->
  tracker_ok (voter_set_ (cfg (self s))) is_precommit (good_precommit (vote_crypto_provider_ (cfg (self s)))) (cast ++ [m])
    (precommits_ (self s)) (precommit_equivocators_ (self s)) ->
  runs (insert_into_graph order (message m) (message_weight (voter_set_ (cfg (self s))) m)) s (fun _ s' =>
    exists g cast', s' = mkSt (set_graph g (self s)) (previous s) (current s) (env s) (now s) (calls s) /\
      VoteGraphImpl.base_ g = VoteGraphImpl.base_ (graph_ (self s)) /\ votes_inv cast' (set_graph g (self s))).
Proof using Horder EnvironmentSpec0.
  intros Hinv [Hn Hr] T1 T2. pose proof (vi_voters _ _ Hinv) as Hvs. unfold insert_into_graph, VoteGraphImpl.insert_vote.
  run_step. run_step. run_step.
  destruct (graph_insert_spec (H0 := env_chain (env s)) order Horder (graph_ (self s)) _ (block_info (message m))
    (message_weight (voter_set_ (cfg (self s))) m) (vi_graph _ _ Hinv) Hn (message_small _ Hvs m))
    as [(g & Eg & Hb & Hg & _ & Hk)|(e & _ & Eg)]; (eapply runs_lift; [exact Eg|]; cbn [fst snd]; run_step;
    apply runs_on_self; run_step; eexists _, _; split; [done|]).
  - split; [done|]. apply (Build_votes_inv (cast ++ [m])); cbn; [done| | |done|done].
    + unfold graph_votes. by rewrite fmap_app.
    + intros h [->|Hh]%Hk; [done|]. by apply (vi_range _ _ Hinv).
  - split; [done|]. destruct Hinv. by apply (Build_votes_inv cast).
Qed.

Lemma onSignedPrevote_runs s m : round_inv (self s) (current s) -> numbered m ->
  good_prevote (vote_crypto_provider_ (cfg (self s))) m ->
  runs (onSignedPrevote order m) s (fun _ s' => round_inv (self s') (current s') /\ kept s s').
Proof using Horder EnvironmentSpec0.
  intros [[cast Hinv] Hst] Hn Hgood. pose proof (vi_voters _ _ Hinv) as Hvs. pose proof (good_prevote_kind _ _ Hgood) as Hk.
  unfold onSignedPrevote. run_step. apply runs_assert; [done|]. run_step. run_step.
  assert (Hsame : round_inv (self s) (current s) /\ kept s s).
  { split; [by split; [eauto|]|]. by destruct s. }
  destruct (VoterSet.voterWeight _ _) as [w|] eqn:Hw; [|by run_step].
  destruct (voterWeight_spec _ Hvs _ _ Hw) as (_ & i & Hi & Hl). rewrite Hi.
  pose proof (tracker_push _ Hvs _ _ _ _ _ m w i (vi_prevotes _ _ Hinv) Hk Hgood Hl) as Hpush.
  pose proof (fun b v => voted_for_push (prevotes_ (self s)) b v m w) as Hgrow.
  destruct (VoteTrackerImpl.push m w (prevotes_ (self s))) as [p tr]. cbn [snd] in Hgrow. run_step. apply runs_on_self.
  destruct p.
  - destruct Hpush as [T T']. rewrite (setPrevote_weight _ Hvs m i w Hk Hw Hi). run_step. eapply runs_lift; [done|]. run_step.
    eapply runs_mono; [apply (insert_runs cast (mkSt (set_prevotes tr (self s)) (previous s) (current s) (env s) (now s) (calls s)) m); cbn|].
    + destruct Hinv. by apply (Build_votes_inv cast).
    + done.
    + done.
    + apply tracker_other; [apply Hinv|by apply prevote_not_precommit].
    + cbn. intros _ s' (g & cast' & -> & Hb & Hv). run_step. split; [|by split]. split; [eauto|].
      by eapply (state_inv_grow (self s)).
  - subst tr. run_step. split; [|by split]. split; [exists cast; by destruct Hinv|]. by eapply (state_inv_grow (self s)).
  - apply runs_on_self. split; [|by split]. split; [exists cast; by destruct Hinv|]. by eapply (state_inv_grow (self s)).
Qed.

Lemma onSignedPrecommit_runs s m : round_inv (self s) (current s) -> numbered m ->
  good_precommit (vote_crypto_provider_ (cfg (self s))) m ->
  runs (onSignedPrecommit order m) s (fun _ s' => round_inv (self s') (current s') /\ kept s s').
Proof using Horder EnvironmentSpec0.
  intros [[cast Hinv] Hst] Hn Hgood. pose proof (vi_voters _ _ Hinv) as Hvs. pose proof (good_precommit_kind _ _ Hgood) as Hk.
  unfold onSignedPrecommit. run_step. apply runs_assert; [done|]. run_step. run_step.
  assert (Hsame : round_inv (self s) (current s) /\ kept s s).
  { split; [by split; [eauto|]|]. by destruct s. }
  destruct (VoterSet.voterWeight _ _) as [w|] eqn:Hw; [|by run_step].
  destruct (voterWeight_spec _ Hvs _ _ Hw) as (_ & i & Hi & Hl). rewrite Hi.
  pose proof (tracker_push _ Hvs _ _ _ _ _ m w i (vi_precommits _ _ Hinv) Hk Hgood Hl) as Hpush.
  pose proof (fun b v => voted_for_push (precommits_ (self s)) b v m w) as Hgrow.
  destruct (VoteTrackerImpl.push m w (precommits_ (self s))) as [p tr]. cbn [snd] in Hgrow. run_step. apply runs_on_self.
  destruct p.
  - destruct Hpush as [T T']. rewrite (setPrecommit_weight _ Hvs m i w Hk Hw Hi). run_step. eapply runs_lift; [done|]. run_step.
    eapply runs_mono; [apply (insert_runs cast (mkSt (set_precommits tr (self s)) (previous s) (current s) (env s) (now s) (calls s)) m); cbn|].
    + destruct Hinv. by apply (Build_votes_inv cast).
    + done.
    + apply tracker_other; [apply Hinv|by apply precommit_not_prevote].
    + done.
    + cbn. intros x s' (g & cast' & -> & Hb & Hv). run_step. split; [|by split]. split; [eauto|].
      by eapply (state_inv_grow (self s)).
  - subst tr. run_step. split; [|by split]. split; [exists cast; by destruct Hinv|]. by eapply (state_inv_grow (self s)).
  - run_step. apply runs_on_self. run_step. split; [|by split]. split; [exists cast; by destruct Hinv|]. by eapply (state_inv_grow (self s)).
Qed.

(** ** The state after a vote *)

Lemma updatePrevoteGhost_runs s : round_inv (self s) (current s) ->
  runs (updatePrevoteGhost order) s (fun _ s' => round_inv (self s') (current s') /\ kept s s').
Proof using Horder.
  intros Hall. pose proof Hall as [[cast Hinv] Hst]. unfold updatePrevoteGhost. run_step. run_step. run_step. run_step.
  destruct (_ <? _); [by run_step; split; [|by destruct s]|].
  run_step.
  destruct (findGhost_spec order (has_prevotes (self s)) VoteWeight.prevoteComparator (holds (has_prevotes (self s))) (graph_ (self s))
    _ Horder (vi_graph _ _ Hinv) (vi_range _ _ Hinv) (has_prevotes_holds _ _ Hinv)
    (has_quorum (self s) (prevotes_ (self s))) (prevote_quorum _ _ Hinv)
    (if decide (block_hash (best_prevote_candidate (current s)) = block_hash (last_finalized_block (current s))) then None
     else Some (best_prevote_candidate (current s)))) as (g & Eg & Hg).
  { intros b. case_decide; [done|]. intros [= <-]. apply (si_prevote _ _ Hst). }
  eapply runs_lift; [exact Eg|]. destruct g as [b|]; [|by run_step; split; [|by destruct s]].
  destruct Hg as (Hn & Hd & Hq). apply runs_modify. split; [|by split]. split; [eauto|].
  destruct Hst as [Hb ? ? ? ?]. rewrite Hb in Hd. by split; [|split|..]; auto.
Qed.

(** What the search for the finalized block leaves. *)
Lemma finalized_runs cast s (b : bool) : votes_inv cast (self s) -> state_inv (self s) (current s) ->
  runs (when b (f ← lift (VoteGraphImpl.findAncestor order (has_precommits (self s)) VoteWeight.precommitComparator
      (best_prevote_candidate (current s)) (graph_ (self s))); on_current (set_state_finalized f))) s
    (fun _ s' => exists f, state_inv (self s) (set_state_finalized f (current s)) /\
      s' = mkSt (self s) (previous s) (set_state_finalized f (current s)) (env s) (now s) (calls s)).
Proof using Horder.
  intros Hinv Hst. run_step; [|exists (finalized (current s)); by destruct s as [? ? []]].
  destruct (findAncestor_spec order (has_precommits (self s)) VoteWeight.precommitComparator (holds (has_precommits (self s)))
    (graph_ (self s)) _ Horder (vi_graph _ _ Hinv) (vi_range _ _ Hinv) (has_precommits_holds _ _ Hinv)
    (has_quorum (self s) (precommits_ (self s))) (precommit_quorum _ _ Hinv) _ (proj1 (si_prevote _ _ Hst))) as (f & Ef & Hf).
  run_step. eapply runs_lift; [exact Ef|]. apply runs_modify. exists f. split; [|done].
  destruct Hst as [Hb ? ? ? ?]. split; cbn; try done. intros x Ex. destruct (Hf x Ex) as [(? & Hd & ?) _]. rewrite Hb in Hd. by split.
Qed.

(** What the search for the last candidate leaves. *)
Lemma candidate_runs cast s x : votes_inv cast (self s) -> state_inv (self s) (current s) ->
  let ghost := best_prevote_candidate (current s) in
  let possible := possible_to_precommit (self s) x in
  runs (b ← lift (VoteGraphImpl.findAncestor order possible VoteWeight.precommitComparator ghost (graph_ (self s)));
    when (bool_decide (is_Some b)) (on_current (set_final_candidate (default ghost b)));;
    block ← gets (fun s => best_final_candidate (current s));
    completable ←
      (if decide (block_hash block = block_hash ghost) then
         g ← lift (VoteGraphImpl.findGhost order possible VoteWeight.precommitComparator (Some block) (graph_ (self s)));
         mret (match g with Some g => bool_decide (g = ghost) | None => true end)
       else mret true);
    on_self (set_completable completable)) s
    (fun _ s' => round_inv (self s') (current s') /\ kept s s').
Proof using Horder.
  intros Hinv Hst ghost possible.
  destruct (findAncestor_spec order possible VoteWeight.precommitComparator (holds possible) (graph_ (self s)) _ Horder
    (vi_graph _ _ Hinv) (vi_range _ _ Hinv) (possible_holds _ _ Hinv x) (fun _ => True) ltac:(done) ghost (proj1 (si_prevote _ _ Hst)))
    as (f & Ef & Hf).
  run_step. eapply runs_lift; [exact Ef|].
  set (c' := match f with Some b => set_final_candidate b (current s) | None => current s end).
  assert (Hst' : state_inv (self s) c' /\ last_finalized_block c' = last_finalized_block (current s)).
  { subst c'. destruct f as [b|]; [|done]. destruct (Hf b eq_refl) as [(? & Hd & _) _]. destruct Hst as [Hb ? ? ? ?].
    rewrite Hb in Hd. by split. }
  run_step. eapply (runs_mono _ _ (fun _ s' => s' = mkSt (self s) (previous s) c' (env s) (now s) (calls s))).
  { subst c'. destruct f as [b|]; cbn; [by apply runs_modify|]. run_step. by destruct s. }
  intros _ s2 ->. run_step. run_step. cbn [current]. destruct Hst' as [Hst' Hl'].
  assert (Hdone : forall b, round_inv (set_completable b (self s)) c' /\
    kept s (mkSt (set_completable b (self s)) (previous s) c' (env s) (now s) (calls s))).
  { intros b. split; [|by split]. split; [exists cast; by destruct Hinv|]. by destruct Hst'. }
  run_step. case_decide; [|run_step; apply runs_on_self; apply Hdone].
  destruct (findGhost_spec order possible VoteWeight.precommitComparator (holds possible) (graph_ (self s)) _ Horder
    (vi_graph _ _ Hinv) (vi_range _ _ Hinv) (possible_holds _ _ Hinv x) (fun _ => True) ltac:(done) (Some (best_final_candidate c')))
    as (g & Eg & _).
  { intros b [= <-]. apply (si_final _ _ Hst'). }
  run_step. eapply runs_lift; [exact Eg|]. run_step. apply runs_on_self. apply Hdone.
Qed.

Lemma update_runs s : round_inv (self s) (current s) ->
  runs (update order) s (fun _ s' => round_inv (self s') (current s') /\ kept s s').
Proof using Horder.
  intros Hall. pose proof Hall as [[cast Hinv] Hst]. unfold update. run_step. run_step. run_step. run_step.
  destruct (_ <? _); [by run_step; split; [|by destruct s]|].
  run_step. eapply runs_mono; [by apply (finalized_runs cast)|]. intros _ s1 (f & Hst1 & ->).
  destruct (equivocations_returns _ _ Hinv 0 _ eq_refl) as [x Ex]. run_step. eapply runs_lift; [exact Ex|].
  set (s1 := mkSt (self s) (previous s) (set_state_finalized f (current s)) (env s) (now s) (calls s)).
  destruct (negb _).
  { apply runs_modify. split; [|by split]. split; [eauto|]. destruct Hst1. by split. }
  eapply runs_mono; [exact (candidate_runs cast s1 x Hinv Hst1)|]. intros _ s2 [? ?]. split; [done|].
  by apply (kept_trans _ s1).
Qed.

(** *** Finalizing *)

(** [tryFinalize] returns when there is a finalized block to announce. *)
Lemma tryFinalize_runs s : (completable_ (self s) = true -> is_Some (finalized (current s))) ->
  runs tryFinalize s (fun _ s' => exists l, s' = mkSt (self s) (previous s) (current s) (env s) (now s) (calls s ++ l) /\
    forall m, GossipVote m ∉ l).
Proof.
  intros Hf. unfold tryFinalize, notify. run_step. run_step. cbn. destruct (completable_ (self s)) eqn:Ec; cbn [negb].
  - destruct (Hf eq_refl) as [f Ef]. run_step. run_step. run_step. rewrite Ec. repeat run_step.
    eapply runs_lift; [by rewrite Ef|]. unfold finalizingPrecommits, onCommitted, emit. repeat run_step. eexists. split; [done|]. intros m Hm%list_elem_of_singleton. done.
  - run_step. exists []. rewrite app_nil_r. split; [by destruct s|]. intros m Hm%elem_of_nil. done.
Qed.

End handlers.
End invariant.
