(* ===== verification/VotingRoundTheorems.v ===== *)
(** * Blocks are finalized with a quorum

    In every state that a round can reach, the block it says is finalized has
    precommits of voters with the weight of the threshold; the same holds of a
    block whose justification another node sent and the round accepted.  Two
    such certificates for blocks on different branches show that voters with
    more than a third of the weight voted twice.

    The theorems on finalized blocks: they have a quorum, in the state of a round
    and in a message that a round accepts, and two of them on different branches
    expose voters with more than a third of the weight. *)

From S2P Require Import Prelude Scale Votes VotesProps VoteGraph VoteGraphProps VoteGraphCount VoteGraphTheorems VoteGraphGhost VoterWeights VotingRound VotingRoundInv VotingRoundVotes.
Import Tally VotingRoundImpl.

Open Scope Z_scope.

(** ** Thresholds *)

Lemma threshold_value vs : voters_ok vs ->
  getThreshold vs = VoterSet.total_weight_ vs - (VoterSet.total_weight_ vs - 1) / 3.
Proof.
  intros Hvs. pose proof (voters_range vs Hvs). unfold getThreshold.
  rewrite (u64_id (_ - 1)) by (unfold is_u64; lia). apply u64_id. unfold is_u64.
  pose proof (Z.div_le_upper_bound (VoterSet.total_weight_ vs - 1) 3 (VoterSet.total_weight_ vs)).
  pose proof (Z.div_pos (VoterSet.total_weight_ vs - 1) 3). lia.
Qed.

Section sets.
Variable vs : VoterSet.t.
Hypothesis Hvs : voters_ok vs.

Lemma weight_of_filter P `{forall v, Decision (P v)} : weight_of vs P = sumZ (wt vs <$> filter P (VoterSet.voters_ vs)).
Proof.
  unfold weight_of. induction (VoterSet.voters_ vs) as [|v l IH]; [done|].
  rewrite fmap_cons, filter_cons. unfold sumZ in *. cbn. case_decide; cbn; lia.
Qed.

Lemma weight_of_ext P Q `{forall v, Decision (P v), forall v, Decision (Q v)} : (forall v, P v <-> Q v) ->
  weight_of vs P = weight_of vs Q.
Proof using Hvs. intros HPQ. apply Z.le_antisymm; apply weight_of_mono; naive_solver. Qed.

Lemma weight_of_insert P Q v `{forall v, Decision (P v), forall v, Decision (Q v)} : v ∈ VoterSet.voters_ vs ->
  ~ P v -> Q v -> (forall u, u <> v -> P u <-> Q u) -> weight_of vs Q = weight_of vs P + wt vs v.
Proof using Hvs.
  intros Hv HP HQ Hother. pose proof (voters_NoDup vs Hvs) as Hnd. unfold weight_of.
  apply list_elem_of_split in Hv as (l1 & l2 & E). rewrite E in *. apply NoDup_app in Hnd as (_ & Hn1 & Hn2).
  apply NoDup_cons in Hn2 as [Hn2 _].
  assert (Hsame : forall l : list bytes, v ∉ l -> fmap (M := list) (fun u => if decide (Q u) then wt vs u else 0) l =
    (fun u => if decide (P u) then wt vs u else 0) <$> l).
  { intros l Hl. apply list_fmap_ext. intros _ u Hu%list_elem_of_lookup_2. assert (u <> v) by (by intros ->).
    pose proof (Hother u). repeat case_decide; tauto. }
  rewrite !fmap_app, !fmap_cons, !sumZ_app. rewrite (Hsame l1), (Hsame l2); [|done|].
  - rewrite (decide_True _ _ HQ), (decide_False _ _ HP). unfold sumZ. cbn. lia.
  - intros Hin. apply (Hn1 v Hin). left.
Qed.

End sets.

(** ** Certificates *)

Section certificates.
Context `{ED25519} `{Ancestry}.
Variables (vs : VoterSet.t) (p : VoteCryptoProviderImpl.t).
Hypothesis Hvs : voters_ok vs.

(** A voter signed two precommits of the round for different blocks. *)
Definition equivocated (v : bytes) : Prop := exists m m', good_precommit p m /\ good_precommit p m' /\ id m = v /\ id m' = v /\
  vote_hash m <> vote_hash m'.

Definition backs (b v : bytes) : Prop :=
  (exists m, good_precommit p m /\ id m = v /\ descends b (vote_hash m)) \/ equivocated v.

(** Voters with the weight of the threshold precommitted to a block or one below
    it, or equivocated. *)
Definition certified (b : bytes) : Prop := exists l, NoDup l /\
  (forall v, v ∈ l -> v ∈ VoterSet.voters_ vs /\ backs b v) /\ getThreshold vs <= sumZ (wt vs <$> l).

Lemma certified_by (b : bytes) P `{forall v, Decision (P v)} : (forall v, v ∈ VoterSet.voters_ vs -> P v -> backs b v) ->
  getThreshold vs <= weight_of vs P -> certified b.
Proof using Hvs.
  intros HP Hw. exists (filter P (VoterSet.voters_ vs)). split; [apply NoDup_filter, (voters_NoDup vs Hvs)|]. split.
  - intros v [HPv Hv]%list_elem_of_filter. auto.
  - by rewrite <- weight_of_filter.
Qed.

(** A list of different voters weighs what the set weighs. *)
Lemma weight_of_list l : NoDup l -> (forall v, v ∈ l -> v ∈ VoterSet.voters_ vs) -> sumZ (wt vs <$> l) = weight_of vs (fun v => v ∈ l).
Proof using Hvs.
  intros Hnd Hl. rewrite weight_of_filter.
  assert (Hp : l ≡ₚ filter (fun v => v ∈ l) (VoterSet.voters_ vs)).
  { apply NoDup_Permutation; [done|apply NoDup_filter, (voters_NoDup vs Hvs)|]. intros v. rewrite list_elem_of_filter. naive_solver. }
  generalize (filter (fun v => v ∈ l) (VoterSet.voters_ vs)) Hp. clear. intros k Hp. unfold sumZ. induction Hp; cbn; lia.
Qed.

(** The voters behind both of two blocks on different branches equivocated. *)
Lemma backs_both b1 b2 v : ~ descends b1 b2 -> ~ descends b2 b1 -> backs b1 v -> backs b2 v -> equivocated v.
Proof.
  intros H12 H21 [(m1 & G1 & I1 & D1)|?] [(m2 & G2 & I2 & D2)|?]; try done. exists m1, m2. split_and!; try done. intros Eh.
  rewrite Eh in D1. destruct (descends_linear b1 b2 _ D1 D2) as [->|[?|?]]; [apply H12; by left|apply H12; by right|apply H21; by right].
Qed.

Lemma conflict_equivocators b1 b2 : certified b1 -> certified b2 -> ~ descends b1 b2 -> ~ descends b2 b1 ->
  exists l, NoDup l /\ (forall v, v ∈ l -> v ∈ VoterSet.voters_ vs /\ equivocated v) /\
    VoterSet.total_weight_ vs < 3 * sumZ (wt vs <$> l).
Proof using Hvs.
  intros (l1 & N1 & B1 & W1) (l2 & N2 & B2 & W2) H12 H21.
  exists (filter (fun v => v ∈ l1 /\ v ∈ l2) (VoterSet.voters_ vs)). split; [apply NoDup_filter, (voters_NoDup vs Hvs)|]. split.
  - intros v [[Hv1 Hv2] Hv]%list_elem_of_filter. split; [done|]. by apply (backs_both b1 b2); [..|apply B1|apply B2].
  - rewrite <- weight_of_filter. rewrite weight_of_list in W1 by (done || intros v Hv; by apply B1).
    rewrite weight_of_list in W2 by (done || intros v Hv; by apply B2).
    pose proof (weight_of_common vs Hvs (fun v => v ∈ l1) (fun v => v ∈ l2)) as Hc. cbn beta in Hc. rewrite (threshold_value vs Hvs) in *.
    pose proof (voters_range vs Hvs). pose proof (Z.div_mod (VoterSet.total_weight_ vs - 1) 3 ltac:(lia)).
    pose proof (Z.mod_pos_bound (VoterSet.total_weight_ vs - 1) 3 ltac:(lia)). lia.
Qed.

End certificates.

(** ** What a round can reach *)

Section reach.
Context `{ED25519} `{Ancestry}.
Context {E : Type} `{!Environment E} `{!EnvironmentSpec E}.
Variable order : gset bytes -> list bytes.
Hypothesis Horder : forall X, order X ≡ₚ elements X.
Implicit Type s : st (E := E).

(** A call of the round from outside, or a change of the world around it: the
    chain, the clock and the state that it shares with the round before. *)
Inductive round_step : st (E := E) -> st (E := E) -> Prop :=
  | step_prevote m s s' : numbered m -> onPrevote order m s = Ok (tt, s') -> round_step s s'
  | step_precommit m s s' : numbered m -> onPrecommit order m s = Ok (tt, s') -> round_step s s'
  | step_propose m s s' : onPrimaryPropose m s = Ok (tt, s') -> round_step s s'
  | step_finalize f s s' : onFinalize f s = Ok (tt, s') -> round_step s s'
  | step_play s s' : play s = Ok (tt, s') -> round_step s s'
  | step_end s s' : end_ s = Ok (tt, s') -> round_step s s'
  | step_timer stage s s' : on_timer stage s = Ok (tt, s') -> round_step s s'
  | step_world p e n s : round_step s (mkSt (self s) p (current s) e n (calls s)).

(** *** Calls that do not touch the votes *)

Definition votes_same (r r' : t) : Prop := cfg r' = cfg r /\ prevotes_ r' = prevotes_ r /\ precommits_ r' = precommits_ r /\
  graph_ r' = graph_ r /\ prevote_equivocators_ r' = prevote_equivocators_ r /\ precommit_equivocators_ r' = precommit_equivocators_ r.

Definition same_votes s s' : Prop := votes_same (self s) (self s') /\ current s' = current s.

#[local] Instance same_votes_order : PreOrder same_votes.
Proof.
  split; [done|]. intros s1 s2 s3 [(? & ? & ? & ? & ? & ?) ?] [(? & ? & ? & ? & ? & ?) ?].
  unfold same_votes, votes_same. split_and!; congruence.
Qed.

Lemma same_on_self f : (forall r, votes_same r (f r)) -> preserves same_votes (on_self (E := E) f).
Proof. intros Hf s [] s' [= <-]. by split. Qed.

Lemma same_emit c : preserves same_votes (emit (E := E) c).
Proof. by intros s [] s' [= <-]. Qed.

Lemma same_assert b : preserves same_votes (assert_ (E := E) b).
Proof. unfold assert_. repeat preserves_step. Qed.

#[local] Hint Resolve same_emit same_assert : preserves.
#[local] Hint Extern 1 (preserves _ (on_self _)) => apply same_on_self; done : preserves.

Ltac same_calls := repeat (unfold this, when; preserves_step).

Lemma same_doProposal : preserves same_votes (doProposal (E := E)).
Proof. unfold doProposal, onProposed. same_calls. Qed.
Lemma same_doPrevote : preserves same_votes (doPrevote (E := E)).
Proof. unfold doPrevote, constructPrevote, onPrevoted. same_calls. Qed.
Lemma same_doPrecommit : preserves same_votes (doPrecommit (E := E)).
Proof. unfold doPrecommit, constructPrecommit, onPrecommitted. same_calls. Qed.
#[local] Hint Resolve same_doProposal same_doPrevote same_doPrecommit : preserves.

Lemma same_endPrecommitStage : preserves same_votes (endPrecommitStage (E := E)).
Proof. unfold endPrecommitStage, startWaitingStage, isReadyToEnd, endWaitingStage. same_calls. Qed.
#[local] Hint Resolve same_endPrecommitStage : preserves.
Lemma same_endPrevoteStage : preserves same_votes (endPrevoteStage (E := E)).
Proof. unfold endPrevoteStage, startPrecommitStage. same_calls. Qed.
#[local] Hint Resolve same_endPrevoteStage : preserves.

Lemma same_play : preserves same_votes (play (E := E)).
Proof. unfold play, startPrevoteStage. same_calls. Qed.
Lemma same_end : preserves same_votes (end_ (E := E)).
Proof. unfold end_. same_calls. Qed.
Lemma same_timer stage : preserves same_votes (on_timer (E := E) stage).
Proof. unfold on_timer. same_calls. Qed.
Lemma same_propose m : preserves same_votes (onPrimaryPropose (E := E) m).
Proof. unfold onPrimaryPropose. same_calls. Qed.
Lemma same_tryFinalize : preserves same_votes (tryFinalize (E := E)).
Proof. unfold tryFinalize, notify, finalizingPrecommits, onCommitted. same_calls. Qed.
Lemma same_onFinalize f : preserves same_votes (onFinalize (E := E) f).
Proof.
  unfold onFinalize. same_calls. by intros s [] s' [= <-].
Qed.

Lemma round_inv_same s s' : same_votes s s' -> round_inv (self s) (current s) -> round_inv (self s') (current s').
Proof.
  intros [(E1 & E2 & E3 & E4 & E5 & E6) ->] [[cast []] []]. split.
  - exists cast. split; rewrite ?E1, ?E2, ?E3, ?E4, ?E5, ?E6; done.
  - unfold has_quorum in *. split; unfold has_quorum; rewrite ?E1, ?E2, ?E3, ?E4; done.
Qed.

(** *** The invariant *)

Lemma prevote_step m s s' : round_inv (self s) (current s) -> numbered m -> onPrevote order m s = Ok (tt, s') ->
  round_inv (self s') (current s') /\ cfg (self s') = cfg (self s).
Proof using Horder EnvironmentSpec0.
  intros Hinv Hn. unfold onPrevote. intros (c & s0 & [= <- <-] & Hr)%act_bind_ok.
  apply act_bind_ok in Hr as (v & s0 & Hv & Hr). unfold lift in Hv.
  destruct (VoteCryptoProviderImpl.verifyPrevote _ _) as [[]|] eqn:Hgood; simplify_eq/=; [|by injection Hr as <-].
  apply act_bind_ok in Hr as (u1 & s1 & H1 & Hr). apply act_bind_ok in Hr as (u2 & s2 & H2 & Hr).
  apply act_bind_ok in Hr as (u3 & s3 & H3 & Hr). apply act_bind_ok in Hr as (u4 & s4 & H4 & [= <-]).
  destruct (runs_det _ _ _ _ _ (onSignedPrevote_runs order Horder _ m Hinv Hn Hgood) H1) as [I1 K1].
  destruct (runs_det _ _ _ _ _ (updatePrevoteGhost_runs order Horder s1 I1) H2) as [I2 K2].
  destruct (runs_det _ _ _ _ _ (update_runs order Horder s2 I2) H3) as [I3 K3].
  pose proof (same_tryFinalize _ _ _ H4) as H4'. split; [by eapply round_inv_same|].
  destruct H4' as [(-> & _) _]. by rewrite (kept_cfg _ _ K3), (kept_cfg _ _ K2), (kept_cfg _ _ K1).
Qed.

Lemma precommit_step m s s' : round_inv (self s) (current s) -> numbered m -> onPrecommit order m s = Ok (tt, s') ->
  round_inv (self s') (current s') /\ cfg (self s') = cfg (self s).
Proof using Horder EnvironmentSpec0.
  intros Hinv Hn. unfold onPrecommit. intros (c & s0 & [= <- <-] & Hr)%act_bind_ok.
  apply act_bind_ok in Hr as (v & s0 & Hv & Hr). unfold lift in Hv.
  destruct (VoteCryptoProviderImpl.verifyPrecommit _ _) as [[]|] eqn:Hgood; simplify_eq/=; [|by injection Hr as <-].
  apply act_bind_ok in Hr as (ok & s1 & H1 & Hr).
  destruct (runs_det _ _ _ _ _ (onSignedPrecommit_runs order Horder _ m Hinv Hn Hgood) H1) as [I1 K1].
  destruct ok; cbn in Hr.
  - apply act_bind_ok in Hr as (u2 & s2 & H2 & Hr). apply act_bind_ok in Hr as (u3 & s3 & H3 & [= <-]).
    destruct (runs_det _ _ _ _ _ (update_runs order Horder s1 I1) H2) as [I2 K2].
    pose proof (same_tryFinalize _ _ _ H3) as H3'. split; [by eapply round_inv_same|].
    destruct H3' as [(-> & _) _]. by rewrite (kept_cfg _ _ K2), (kept_cfg _ _ K1).
  - apply same_emit in Hr. split; [by eapply round_inv_same|]. destruct Hr as [(-> & _) _]. apply (kept_cfg _ _ K1).
Qed.

Lemma round_step_inv s s' : round_step s s' -> round_inv (self s) (current s) ->
  round_inv (self s') (current s') /\ cfg (self s') = cfg (self s).
Proof using Horder EnvironmentSpec0.
  intros Hstep Hinv. destruct Hstep as [m s s' Hn Hr|m s s' Hn Hr|m s s' Hr|f s s' Hr|s s' Hr|s s' Hr|g s s' Hr|p e n s].
  - by eapply prevote_step.
  - by eapply precommit_step.
  - apply same_propose in Hr. split; [by eapply round_inv_same|apply Hr].
  - apply same_onFinalize in Hr. split; [by eapply round_inv_same|apply Hr].
  - apply same_play in Hr. split; [by eapply round_inv_same|apply Hr].
  - apply same_end in Hr. split; [by eapply round_inv_same|apply Hr].
  - apply same_timer in Hr. split; [by eapply round_inv_same|apply Hr].
  - done.
Qed.

Lemma round_reachable_inv s s' : rtc round_step s s' -> round_inv (self s) (current s) ->
  round_inv (self s') (current s') /\ cfg (self s') = cfg (self s).
Proof using Horder EnvironmentSpec0.
  induction 1 as [s|s1 s2 s3 H1 _ IH]; [done|]. intros Hinv. destruct (round_step_inv _ _ H1 Hinv) as [Hi2 E2].
  destruct (IH Hi2). split; congruence.
Qed.

End reach.

(** ** Safety of the rounds *)

Import Tally VotingRoundImpl.


(** ** A new round *)

Section fresh.
Context `{ED25519} `{Ancestry}.
Context {E : Type} `{!Environment E}.

(** A round as it is made from the state of the one before. *)
Definition fresh_round (vs : VoterSet.t) (crypto : VoteCryptoProviderImpl.t) (s : st (E := E)) : Prop :=
  exists n d peer, create vs n d peer crypto (VoteGraphImpl.create (last_finalized_block (current s))) = Ok (self s) /\
    current s = constructCurrentState (previous s).

Definition known_block (b : BlockInfo) : Prop := block_number b = num (block_hash b) /\ num (block_hash b) < 2 ^ 64.

Lemma fresh_tracker vs kind good : tracker_ok vs kind good [] VoteTrackerImpl.create (replicate (length (VoterSet.voters_ vs)) false).
Proof.
  split; [apply length_replicate|done|done|by intros m ?%elem_of_nil|constructor|]. intros i v Hi. split.
  - apply lookup_lt_Some in Hi. by rewrite lookup_replicate_2.
  - by intros (a & b & ?).
Qed.

Lemma fresh_inv vs crypto s : voters_ok vs -> known_block (last_finalized_block (current s)) -> fresh_round vs crypto s ->
  round_inv (self s) (current s) /\ voter_set_ (cfg (self s)) = vs /\ vote_crypto_provider_ (cfg (self s)) = crypto /\
    threshold_ (cfg (self s)) = getThreshold vs.
Proof.
  intros Hvs [Hn Hr] (n & d & peer & Hc & Hs). unfold create in Hc.
  destruct (primary_of n vs) as [pr|]; [|done]. injection Hc as <-. split; [|done]. split.
  - exists []. split; cbn; [done|by apply graph_create_inv| |apply fresh_tracker..].
    intros h [e [<- _]%lookup_singleton_Some]. done.
  - rewrite Hs in *. cbn in *. split; cbn; try done; [split; [done|by left]..|by left].
Qed.

End fresh.

(** ** Quorums of a round *)

Section quorums.
Context `{ED25519} `{Ancestry}.

Lemma voted_backs vs kind cast tr eqs crypto b v : tracker_ok vs kind (good_precommit crypto) cast tr eqs -> voted_for tr b v ->
  backs crypto b v.
Proof.
  intros Htr. unfold voted_for. destruct (VoteTrackerImpl.messages_ tr !! v) as [[m|m m']|] eqn:Em; [|intros _|done];
    destruct (tk_first _ _ _ _ _ _ Htr v _ Em) as (Hid & _ & Hg); cbn in Hid, Hg.
  - intros Hd. left. exists m. done.
  - right. destruct (tk_second _ _ _ _ _ _ Htr v _ _ Em) as (Hid' & Hg' & Hne). exists m, m'. done.
Qed.

Lemma quorum_certified r c b : round_inv r c -> threshold_ (cfg r) = getThreshold (voter_set_ (cfg r)) ->
  finalized c = Some b -> certified (voter_set_ (cfg r)) (vote_crypto_provider_ (cfg r)) (block_hash b).
Proof.
  intros [[cast Hinv] Hst] Ht Hf. destruct (si_finalized _ _ Hst b Hf) as [_ Hq]. unfold has_quorum in Hq. rewrite Ht in Hq.
  eapply certified_by; [apply Hinv| |exact Hq]. intros v _ Hv. eapply voted_backs; [apply (vi_precommits _ _ Hinv)|done].
Qed.

End quorums.



(** ** Finalizations of others *)

Section validate.
Context `{ED25519} `{Ancestry} {chain : Chain} `{!ChainSpec}.
Variables (r : t) (b : BlockInfo) (j : list SignedMessage).
Hypothesis Hvs : voters_ok (voter_set_ (cfg r)).

Notation vs := (voter_set_ (cfg r)).

Definition reaches (h : bytes) : bool := negb (has_failure (getAncestry (block_hash b) h)).

(** The voters that count: the block of the first precommit is below [b]. *)
Definition counting (validators : gmap bytes bytes) (equivocators : gset bytes) (v : bytes) : Prop :=
  match validators !! v with Some h => (v ∉ equivocators) /\ reaches h = true | None => False end.

#[local] Instance counting_dec validators equivocators v : Decision (counting validators equivocators v).
Proof. unfold counting. destruct (validators !! v); apply _. Defined.

Record validating (validators : gmap bytes bytes) (equivocators : gset bytes) (total : Z) : Prop := {
  va_total : total = weight_of vs (counting validators equivocators);
  va_first v h : validators !! v = Some h ->
    exists m, m ∈ j /\ good_precommit (vote_crypto_provider_ (cfg r)) m /\ id m = v /\ vote_hash m = h;
  va_known v : v ∈ equivocators -> is_Some (validators !! v)
}.

Lemma voter_of v w : VoterSet.voterWeight v vs = Some w -> w = wt vs v /\ v ∈ VoterSet.voters_ vs.
Proof using All.
  intros Hw. destruct (voterWeight_spec vs Hvs v w Hw) as (-> & i & _ & Hi). split; [done|]. by eapply list_elem_of_lookup_2.
Qed.

Lemma weight_u64 P `{forall v, Decision (P v)} : u64 (weight_of vs P) = weight_of vs P.
Proof using All.
  apply u64_id. pose proof (voters_range vs Hvs). pose proof (weight_of_total vs Hvs P). split; [|lia].
  unfold weight_of. generalize (VoterSet.voters_ vs). intros l. unfold sumZ. induction l as [|v l IH]; cbn; [lia|].
  pose proof (voters_weight vs Hvs v). case_decide; lia.
Qed.

(** The first precommit of a voter. *)
Lemma validating_new validators equivocators total m w : validating validators equivocators total -> m ∈ j ->
  validators !! id m = None -> good_precommit (vote_crypto_provider_ (cfg r)) m ->
  (if reaches (vote_hash m) then VoterSet.voterWeight (id m) vs = Some w else w = 0) ->
  validating (<[id m := vote_hash m]> validators) equivocators (u64 (total + w)).
Proof using All.
  intros [Htot Hfirst Hknown] Hin Hnone Hgood Hw.
  assert (Hother : forall u, u <> id m -> counting validators equivocators u <-> counting (<[id m := vote_hash m]> validators) equivocators u)
    by (intros u Hu; unfold counting; by rewrite lookup_insert_ne).
  assert (Hold : ~ counting validators equivocators (id m)) by (unfold counting; rewrite Hnone; by intros []).
  assert (Heq : id m ∉ equivocators) by (intros [h Hh]%Hknown; congruence).
  split.
  - rewrite Htot, <- (weight_u64 (counting (<[id m := vote_hash m]> validators) equivocators)). f_equal. destruct (reaches (vote_hash m)) eqn:Er.
    + destruct (voter_of _ _ Hw) as [-> Hv]. symmetry. apply weight_of_insert; [done..| |done].
      unfold counting. by rewrite lookup_insert_eq.
    + subst w. rewrite Z.add_0_r. apply weight_of_ext; [done|]. intros u. destruct (decide (u = id m)) as [->|Hu]; [|by apply Hother].
      split; [done|]. unfold counting. rewrite lookup_insert_eq, Er. by intros [_ ?].
  - intros v h. destruct (decide (v = id m)) as [->|Hn]; [rewrite lookup_insert_eq|rewrite lookup_insert_ne by done; apply Hfirst].
    intros [= <-]. by exists m.
  - intros v [h Hh]%Hknown. destruct (decide (v = id m)) as [->|Hn]; [rewrite lookup_insert_eq|rewrite lookup_insert_ne by done]; eauto.
Qed.

(** A second one takes the weight away. *)
Lemma validating_twice validators equivocators total v h w : validating validators equivocators total ->
  validators !! v = Some h -> v ∉ equivocators -> (if reaches h then VoterSet.voterWeight v vs = Some w else w = 0) ->
  validating validators ({[v]} ∪ equivocators) (u64 (total - w)).
Proof using All.
  intros [Htot Hfirst Hknown] Hh Hne Hw.
  assert (Hother : forall u, u <> v -> counting validators ({[v]} ∪ equivocators) u <-> counting validators equivocators u).
  { intros u Hu. unfold counting. destruct (validators !! u); [|done]. rewrite elem_of_union, elem_of_singleton. tauto. }
  assert (Hgone : ~ counting validators ({[v]} ∪ equivocators) v) by (unfold counting; rewrite Hh; set_solver).
  split; [|done|].
  - rewrite Htot, <- (weight_u64 (counting validators ({[v]} ∪ equivocators))). f_equal. destruct (reaches h) eqn:Er.
    + destruct (voter_of _ _ Hw) as [-> Hv].
      rewrite (weight_of_insert vs Hvs (counting validators ({[v]} ∪ equivocators)) (counting validators equivocators) v Hv Hgone); [lia| |done].
      unfold counting. by rewrite Hh.
    + subst w. rewrite Z.sub_0_r. apply weight_of_ext; [done|]. intros u. destruct (decide (u = v)) as [->|Hu]; [|by symmetry; apply Hother].
      split; [|done]. unfold counting. rewrite Hh, Er. by intros [_ ?].
  - intros u [->%elem_of_singleton|Hu]%elem_of_union; [eauto|by apply Hknown].
Qed.

Lemma validate_loop_spec items validators equivocators total w : items ⊆ j -> validating validators equivocators total ->
  validate_loop r b items validators equivocators total = Ok (Some w) ->
  exists validators' equivocators', validating validators' equivocators' w.
Proof using All.
  revert validators equivocators total. induction items as [|m items IH]; intros validators equivocators total Hsub Hva; cbn [validate_loop].
  { intros [= <-]. eauto. }
  assert (m ∈ j) as Hmj by (apply Hsub; left). assert (items ⊆ j) as Hsub' by (intros x Hx; apply Hsub; by right).
  destruct (match VoterSet.voterIndex _ _ with Some _ => _ | None => _ end) as [[]|]; cbn [mbind outcome_bind]; [by apply IH| |done].
  destruct (VoteCryptoProviderImpl.verifyPrecommit _ _) as [[]|] eqn:Hgood; cbn [mbind outcome_bind negb]; [|done..].
  assert (Hweight : forall h (x : Z), (if has_failure (getAncestry (block_hash b) h) then Ok 0
    else ok_or undefined_behaviour (VoterSet.voterWeight (id m) vs)) = Ok x ->
    if reaches h then VoterSet.voterWeight (id m) vs = Some x else x = 0).
  { intros h x. unfold reaches. destruct (has_failure _); cbn; [by intros [= <-]|].
    destruct (VoterSet.voterWeight _ _); cbn; [by intros [= <-]|done]. }
  destruct (validators !! id m) as [h|] eqn:Hm; [case_decide as Hq; [done|]|]; intros (x & Hx%Hweight & Hr)%outcome_bind_ok.
  - eapply IH; [done| |exact Hr]. by eapply validating_twice.
  - eapply IH; [done| |exact Hr]. by eapply validating_new.
Qed.

(** Voters with the weight of the threshold have each a valid precommit in the
    justification, for the block or for one below it. *)
Definition justified : Prop := exists l, NoDup l /\
  (forall v, v ∈ l -> v ∈ VoterSet.voters_ vs /\
     exists m, m ∈ j /\ good_precommit (vote_crypto_provider_ (cfg r)) m /\ id m = v /\ descends (block_hash b) (vote_hash m)) /\
  getThreshold vs <= sumZ (wt vs <$> l).

(** What a round accepts is justified. *)
Lemma validate_justified : threshold_ (cfg r) = getThreshold vs -> validate r b j = Ok true -> justified.
Proof using All.
  intros Ht. unfold validate. intros ([w|] & Hl & [= Hw%Z.leb_le])%outcome_bind_ok.
  destruct (validate_loop_spec j ∅ ∅ 0 w) as (validators & equivocators & [-> Hfirst _]); [done| |done|].
  { split; [|done|by intros v ?%not_elem_of_empty]. unfold weight_of. symmetry. apply sumZ_zero, Forall_fmap, Forall_true.
    intros v. cbn. rewrite decide_False; [done|]. unfold counting. rewrite lookup_empty. by intros []. }
  rewrite Ht in Hw. exists (filter (counting validators equivocators) (VoterSet.voters_ vs)).
  split; [apply NoDup_filter, (voters_NoDup vs Hvs)|]. split; [|by rewrite <- weight_of_filter].
  intros v [Hc Hv]%list_elem_of_filter. split; [done|]. unfold counting in Hc.
  destruct (validators !! v) as [h|] eqn:Ev; [|done]. destruct Hc as [_ Hr]. destruct (Hfirst v h Ev) as (m & Hin & Hg & Hid & <-).
  exists m. split_and!; [done..|]. unfold reaches in Hr. destruct (getAncestry _ _) as [l|] eqn:Ha; [|done].
  destruct (decide (block_hash b = vote_hash m)) as [->|Hne]; [by left|]. right.
  destruct (getAncestry_sound _ _ l Hne Ha) as [rest ->]. set_solver.
Qed.

End validate.

(** C35. A finalization that another node sends changes the chain, and completes
    the round with a result, only when it is justified: when voters with the
    weight of the threshold have each a valid precommit of the round in the
    justification of the message, for the block or for one below it.  Otherwise
    the round is completed with an error and nothing else happens.  The handler is
    taken to return, and the chain and the set of voters to be as the environment
    promises. *)
Theorem fin_needs_quorum `{ED25519} `{Ancestry} {E : Type} `{!Environment E} `{!EnvironmentSpec E} (s s' : st (E := E)) (f : Fin) :
  voters_ok (voter_set_ (cfg (self s))) -> threshold_ (cfg (self s)) = getThreshold (voter_set_ (cfg (self s))) ->
  onFinalize f s = Ok (tt, s') ->
  justified (self s) (fin_vote f) (justification f) \/
  s' = mkSt (self s) (previous s) (current s) (env s) (now s)
    (calls s ++ [OnCompleted (Err (voting_round_error FIN_VALIDATION_FAILED))]).
Proof.
  intros Hvs Ht. unfold onFinalize. intros (x & s1 & [= <- <-] & Hr)%act_bind_ok. apply act_bind_ok in Hr as (v & s2 & Hv & Hr).
  unfold lift in Hv. destruct (validate _ _ _) as [[]|] eqn:Hval; [| |done]; injection Hv as <- <-.
  - left. by apply (validate_justified (chain := env_chain (env s))).
  - right. by injection Hr as <-.
Qed.
