(* ===== verification/Finality.v ===== *)
(** * The rounds of a node

    Models [src/src/verification/finality/impl/finality_impl.cpp]: the current
    and the previous round, the making of the next one, the messages handed to
    them, the storage of completed rounds and the start from it.

    Rounds and their states are objects with addresses, since a round shares the
    state of the round before, which can still change.  A round exists while the
    node or the round slots refer to it; a handler of a timer refers to its round
    without keeping it, so that running it for a round that is gone is
    [undefined_behaviour].  The event loop has the waits of the timers, which
    become ready when they expire or are cancelled, and the ready handlers in the
    order in which they became ready.  The calls that a round makes are carried
    out after its operation, in their order, see [VotingRound].
    [executeNextRound] plays a new round, which could end at once and execute the
    next one; a new round has no votes, so that one level of fuel is enough. *)

From S2P Require Import Prelude Scale Votes VoteGraph VotingRound BlockStorage.
Import VotingRoundImpl.

Open Scope Z_scope.

(** ** Stored data *)

Definition GetAuthoritySetKey : bytes := str "finality_voters".
Definition GetSetStateKey : bytes := str "finality_completed_round".
Definition GetGenesisBlockHashLookupKey : bytes := str ":sgns:genesis_block_hash".

Definition TRoundState : ty :=
  TPair VoteCryptoProviderImpl.TInfo (TPair VoteCryptoProviderImpl.TInfo (TPair VoteCryptoProviderImpl.TInfo
    (TOption VoteCryptoProviderImpl.TInfo))).
Definition TCompletedRound : ty := TPair (TInt false 8) (TPtr TRoundState).
Definition TVoterSet : ty := TPair (TVector (TPair (TBlob 32) (TInt false 8))) (TInt false 8).

Definition info_of (v : value VoteCryptoProviderImpl.TInfo) : BlockInfo := mkInfo v.2 v.1.

Definition state_value (s : RoundState) : value TRoundState :=
  (VoteCryptoProviderImpl.info_value (last_finalized_block s), (VoteCryptoProviderImpl.info_value (best_prevote_candidate s),
    (VoteCryptoProviderImpl.info_value (best_final_candidate s), VoteCryptoProviderImpl.info_value <$> finalized s))).

Definition state_of (v : value TRoundState) : RoundState :=
  mkRoundState (info_of v.1) (info_of v.2.1) (info_of v.2.2.1) (info_of <$> v.2.2.2).

Definition completed_value (c : CompletedRound) : value TCompletedRound :=
  (completed_number c, Some (state_value (completed_state c))).

(** The voters are inserted one after the other. *)
Definition voter_set_of (v : value TVoterSet) : VoterSet.t :=
  foldl (fun s x => VoterSet.insert x.1 x.2 s) (VoterSet.create v.2) v.1.

Module FinalityImpl.
Section finality.
Context `{ED25519} {E : Type} `{!Environment E} {DB : Type} `{!KeyValueDB DB}.
Variable order : gset bytes -> list bytes.
Variable max_size : ty -> Z.
Variable keypair_ : bytes.

Record round_object : Type := mkRound {
  body : t;
  previous_state : nat;
  current_state : nat
}.

Inductive task : Type :=
  | RunNextRound
  | RunPlay (r : nat)
  | RunTimer (r : nat) (stage : Stage).

Record node : Type := mkNode {
  rounds : list round_object;
  states : list RoundState;
  previous_round_ : option nat;
  current_round_ : option nat;
  environment_ : E;
  storage_ : DB;
  clock : Z;
  sent : list VoteMessage;
  sent_fins : list Fin;
  waits : list (nat * Z * Stage);
  ready : list task
}.

Definition set_rounds (x : list round_object) (n : node) : node := mkNode x (states n) (previous_round_ n) (current_round_ n)
  (environment_ n) (storage_ n) (clock n) (sent n) (sent_fins n) (waits n) (ready n).
Definition set_states (x : list RoundState) (n : node) : node := mkNode (rounds n) x (previous_round_ n) (current_round_ n)
  (environment_ n) (storage_ n) (clock n) (sent n) (sent_fins n) (waits n) (ready n).
Definition set_slots (p c : option nat) (n : node) : node := mkNode (rounds n) (states n) p c
  (environment_ n) (storage_ n) (clock n) (sent n) (sent_fins n) (waits n) (ready n).
Definition set_environment (x : E) (n : node) : node := mkNode (rounds n) (states n) (previous_round_ n) (current_round_ n)
  x (storage_ n) (clock n) (sent n) (sent_fins n) (waits n) (ready n).
Definition set_storage (x : DB) (n : node) : node := mkNode (rounds n) (states n) (previous_round_ n) (current_round_ n)
  (environment_ n) x (clock n) (sent n) (sent_fins n) (waits n) (ready n).
Definition set_clock (x : Z) (n : node) : node := mkNode (rounds n) (states n) (previous_round_ n) (current_round_ n)
  (environment_ n) (storage_ n) x (sent n) (sent_fins n) (waits n) (ready n).
Definition add_sent (x : VoteMessage) (n : node) : node := mkNode (rounds n) (states n) (previous_round_ n) (current_round_ n)
  (environment_ n) (storage_ n) (clock n) (sent n ++ [x]) (sent_fins n) (waits n) (ready n).
Definition add_fin (x : Fin) (n : node) : node := mkNode (rounds n) (states n) (previous_round_ n) (current_round_ n)
  (environment_ n) (storage_ n) (clock n) (sent n) (sent_fins n ++ [x]) (waits n) (ready n).
Definition set_events (w : list (nat * Z * Stage)) (r : list task) (n : node) : node := mkNode (rounds n) (states n)
  (previous_round_ n) (current_round_ n) (environment_ n) (storage_ n) (clock n) (sent n) (sent_fins n) w r.

(** *** The event loop *)

Definition post (x : task) : act node unit := modify (fun n => set_events (waits n) (ready n ++ [x]) n).

(** The handlers of the waits of a round become ready. *)
Definition cancel (r : nat) : act node unit := modify (fun n =>
  set_events (filter (fun w => w.1.1 <> r) (waits n))
    (ready n ++ ((fun w => RunTimer w.1.1 w.2) <$> filter (fun w => w.1.1 = r) (waits n))) n).

Definition async_wait (r : nat) (expiry : Z) (stage : Stage) : act node unit :=
  modify (fun n => set_events (waits n ++ [(r, expiry, stage)]) (ready n) n).

Definition alive (n : node) (r : nat) : bool :=
  bool_decide (previous_round_ n = Some r) || bool_decide (current_round_ n = Some r).

(** *** Completed rounds *)

Definition onCompletedRound (completed : outcome CompletedRound) : act node unit :=
  match completed with
  | Err _ => post RunNextRound
  | Ok c =>
      b ← lift (VoteCryptoProviderImpl.value_of (encode TCompletedRound (completed_value c)));
      st ← gets storage_;
      let '(put_res, st) := db_Put GetSetStateKey b st in
      modify (set_storage st);;
      match put_res with
      | Err _ => mret tt
      | Ok _ =>
          if has_failure (db_Get GetSetStateKey st) then lift (Err undefined_behaviour) else post RunNextRound
      end
  end.

(** *** Operations of rounds *)

Definition handle_call (execute : act node unit) (r : nat) (c : call) : act node unit :=
  match c with
  | GossipVote m => modify (add_sent m)
  | GossipFinalize f => modify (add_fin f)
  | OnCompleted x => onCompletedRound x
  | ExecuteNextRound => execute
  | CancelTimer => cancel r
  | AsyncWait expiry stage => async_wait r expiry stage
  end.

Fixpoint handle_calls (execute : act node unit) (r : nat) (l : list call) : act node unit :=
  match l with
  | [] => mret tt
  | c :: l' => handle_call execute r c;; handle_calls execute r l'
  end.

Definition on_round (execute : act node unit) (r : nat) (m : act (st (E := E)) unit) : act node unit :=
  n ← gets (fun n => n);
  o ← lift (ok_or undefined_behaviour (if alive n r then rounds n !! r else None));
  p ← lift (ok_or undefined_behaviour (states n !! previous_state o));
  c ← lift (ok_or undefined_behaviour (states n !! current_state o));
  res ← lift (m (mkSt (body o) p c (environment_ n) (clock n) []));
  modify (fun n => set_rounds (<[r := mkRound (self res.2) (previous_state o) (current_state o)]> (rounds n)) n);;
  modify (fun n => set_states (<[current_state o := current res.2]> (states n)) n);;
  modify (set_environment (env res.2));;
  handle_calls execute r (calls res.2).

(** *** Making rounds *)

Definition getVoters : act node (outcome VoterSet.t) :=
  st ← gets storage_;
  mret (voters_encoded ← db_Get GetAuthoritySetKey st;
        v ← scale_decode max_size TVoterSet voters_encoded;
        Ok (voter_set_of v)).

(** The length of a round, 333 milliseconds, in nanoseconds. *)
Definition duration : Z := 333000000.

(** A round on top of the state at an address; [None] when there are no voters. *)
Definition make_round (new_round_number : Z) (previous_ptr : nat) : act node (option nat) :=
  voters_res ← getVoters;
  match voters_res with
  | Err _ => mret None
  | Ok voters =>
      match VoterSet.voters_ voters with
      | [] => mret None
      | _ =>
          n ← gets (fun n => n);
          p ← lift (ok_or undefined_behaviour (states n !! previous_ptr));
          let graph := VoteGraphImpl.create (default (last_finalized_block p) (finalized p)) in
          let crypto := VoteCryptoProviderImpl.mk keypair_ new_round_number voters in
          r ← lift (create voters new_round_number duration (ed_public keypair_) crypto graph);
          modify (set_states (states n ++ [constructCurrentState p]));;
          modify (set_rounds (rounds n ++ [mkRound r previous_ptr (length (states n))]));;
          mret (Some (length (rounds n)))
      end
  end.

Definition makeInitialRound (previous_round_number : Z) (previous_ptr : nat) : act node (option nat) :=
  make_round (u64 (previous_round_number + 1)) previous_ptr.

Definition makeNextRound (round : nat) : act node (option nat) :=
  n ← gets (fun n => n);
  o ← lift (ok_or undefined_behaviour (rounds n !! round));
  make_round (u64 (round_number_ (cfg (body o)) + 1)) (current_state o).

Fixpoint executeNextRound (fuel : nat) : act node unit :=
  match fuel with
  | O => lift (Err out_of_fuel)
  | S fuel' =>
      n ← gets (fun n => n);
      current ← lift (ok_or undefined_behaviour (current_round_ n));
      modify (set_slots (Some current) (previous_round_ n));;
      on_round (executeNextRound fuel') current end_;;
      new ← makeNextRound current;
      modify (set_slots (Some current) new);;
      match previous_round_ n with Some old => cancel old | None => mret tt end;;
      new ← lift (ok_or undefined_behaviour new);
      on_round (executeNextRound fuel') new play
  end.

(** *** Messages *)

Definition selectRound (round_number : Z) (n : node) : option nat :=
  let has r := match rounds n !! r with Some o => bool_decide (round_number_ (cfg (body o)) = round_number) | None => false end in
  match current_round_ n with
  | Some r => if has r then Some r else
      match previous_round_ n with Some q => if has q then Some q else None | None => None end
  | None => match previous_round_ n with Some q => if has q then Some q else None | None => None end
  end.

(** The list of authorities is empty until it is read from somewhere. *)
Definition weighted_authorities : list bytes := [].

Definition onVoteMessage (msg : VoteMessage) : act node unit :=
  target ← gets (selectRound (vote_round msg));
  match target with
  | None => mret tt
  | Some r =>
      if decide (id (vote msg) ∈ weighted_authorities) then
        on_round (executeNextRound 1) r
          (match message (vote msg) with
           | PrimaryPropose _ => onPrimaryPropose (vote msg)
           | Prevote _ => onPrevote order (vote msg)
           | Precommit _ => onPrecommit order (vote msg)
           end)
      else mret tt
  end.

Definition onFinalize (f : Fin) : act node unit :=
  target ← gets (selectRound (fin_round f));
  match target with
  | None => mret tt
  | Some r => on_round (executeNextRound 1) r (VotingRoundImpl.onFinalize f)
  end.

(** *** Start *)

(** [std::copy] into a hash of 32 bytes. *)
Definition hash_of (b : bytes) : outcome bytes :=
  if decide (32 < length b)%nat then Err undefined_behaviour else Ok (b ++ replicate (32 - length b) "000"%char).

Definition getLastCompletedRound : act node (outcome CompletedRound) :=
  st ← gets storage_;
  match db_Get GetSetStateKey st with
  | Ok b =>
      match scale_decode max_size TCompletedRound b with
      | Ok (n, Some s) => mret (Ok (mkCompleted n (state_of s)))
      | Ok (_, None) => lift (Err undefined_behaviour)
      | Err e => mret (Err e)
      end
  | Err e =>
      if decide (e <> database_error NOT_FOUND) then mret (Err e) else
      match db_Get GetGenesisBlockHashLookupKey st with
      | Err e => mret (Err e)
      | Ok b =>
          genesis_hash ← lift (hash_of b);
          let g := mkInfo 1 genesis_hash in
          mret (Ok (mkCompleted 0 (mkRoundState g g g (Some g))))
      end
  end.

Definition start : act node bool :=
  last_round_res ← getLastCompletedRound;
  match last_round_res with
  | Err e => if decide (e <> database_error NOT_FOUND) then mret false else lift (Err undefined_behaviour)
  | Ok c =>
      n ← gets (fun n => n);
      modify (set_states (states n ++ [completed_state c]));;
      new ← makeInitialRound (completed_number c) (length (states n));
      modify (fun n => set_slots (previous_round_ n) new n);;
      match new with
      | None => mret false
      | Some r => post (RunPlay r);; mret true
      end
  end.

(** *** Running handlers *)

Definition run_task (x : task) : act node unit :=
  match x with
  | RunNextRound => executeNextRound 1
  | RunPlay r => n ← gets (fun n => n); if alive n r then on_round (executeNextRound 1) r play else mret tt
  | RunTimer r stage => on_round (executeNextRound 1) r (on_timer stage)
  end.

(** The first ready handler. *)
Definition run_one : act node unit :=
  n ← gets (fun n => n);
  match ready n with
  | [] => mret tt
  | x :: rest => modify (set_events (waits n) rest);; run_task x
  end.

(** A wait expires. *)
Definition expire (i : nat) : act node unit :=
  n ← gets (fun n => n);
  match waits n !! i with
  | Some (r, expiry, stage) =>
      if expiry <=? clock n then modify (set_events (delete i (waits n)) (ready n ++ [RunTimer r stage])) else mret tt
  | None => mret tt
  end.

End finality.
End FinalityImpl.
