(* ===== verification/VotingRoundDemo.v ===== *)
(** * Rounds on a concrete chain

    Four voters of weight one on the chain of [VoteGraphDemo].  The theorems on
    rounds are applied to runs of theirs, and runs are shown in which the code
    does not do what it means to. *)

From S2P Require Import Prelude Scale Votes VotesProps VoteGraph VoteGraphProps VoteGraphCount VoteGraphTheorems VoteGraphGhost VoteGraphDemo VoterWeights VotingRound VotingRoundInv VotingRoundVotes VotingRoundTheorems.
Import DemoSignature DemoChain VotingRoundImpl.

Open Scope Z_scope.

Module DemoRound.

(** The environment has the chain, where every block is the end of its own best
    chain, and finalizes without failing. *)
#[export] Instance demo_environment : Environment unit := {
  env_chain _ := demo_chain;
  env_bestChainContaining _ h := Ok (mkInfo (Z.of_nat (length h)) h);
  env_finalize _ _ := mret (Ok tt)
}.

Lemma path_length h : length (path_anc h) = length h.
Proof. induction h as [|c h IH]; cbn; congruence. Qed.

#[export] Instance demo_environment_spec : EnvironmentSpec unit.
Proof.
  split; [intros []; exact demo_chain_spec|]. intros e h b [= <-]. split; [by left|]. cbn. unfold num. cbn. by rewrite path_length.
Qed.

Definition names : list bytes := str <$> ["A"; "B"; "C"; "D"]%string.
Definition voters : VoterSet.t := foldl (fun s v => VoterSet.insert v 1 s) (VoterSet.create 0) names.
Definition provider (key : bytes) : VoteCryptoProviderImpl.t := VoteCryptoProviderImpl.mk key 7 voters.
Definition crypto : VoteCryptoProviderImpl.t := provider (str "A").

Lemma voters_are_ok : voters_ok voters.
Proof.
  assert (Hm : VoterSet.weight_map_ voters = list_to_map ((., 1) <$> names)) by (vm_compute; reflexivity).
  split; [by apply (bool_decide_unpack _); vm_compute|by apply (bool_decide_unpack _); vm_compute| | |by vm_compute|by vm_compute].
  - intros v. rewrite Hm. rewrite <- elem_of_dom, dom_list_to_map_L, elem_of_list_to_set. done.
  - intros v. unfold wt. rewrite Hm. destruct (_ !! v) as [w|] eqn:Hw; cbn; [|lia].
    apply elem_of_list_to_map_2, list_elem_of_fmap in Hw as (u & [= _ ->] & _). lia.
Qed.

(** A vote with the signature that is verified. *)
Definition signed (v : string) (x : Vote) : SignedMessage :=
  mkSigned x (str v ++ match VoteCryptoProviderImpl.payload x crypto with Ok b => b | Err _ => [] end) (str v) 0.
Definition prevote (v b : string) : SignedMessage := signed v (Prevote (block b)).
Definition precommit (v b : string) : SignedMessage := signed v (Precommit (block b)).

Definition genesis_state : RoundState := mkRoundState genesis genesis genesis (Some genesis).

Definition make (p : VoteCryptoProviderImpl.t) : st (E := unit) :=
  match create voters 7 333 (VoteCryptoProviderImpl.private_key p) p (VoteGraphImpl.create genesis) with
  | Ok r => mkSt r genesis_state (constructCurrentState genesis_state) tt 0 []
  | Err _ => mkSt (mk (mkConfig voters 7 333 [] p 0 false) INIT None 0 VoteTrackerImpl.create VoteTrackerImpl.create
      (VoteGraphImpl.create genesis) [] [] None false) genesis_state genesis_state tt 0 []
  end.

(** The votes of others, one after the other. *)
Fixpoint receive (l : list SignedMessage) (s : st (E := unit)) : outcome (st (E := unit)) :=
  match l with
  | [] => Ok s
  | m :: l' =>
      r ← (match message m with Prevote _ => onPrevote demo_order m s | _ => onPrecommit demo_order m s end);
      receive l' r.2
  end.

Lemma receive_steps l s s' : Forall numbered l -> receive l s = Ok s' -> rtc (round_step demo_order) s s'.
Proof.
  intros Hl. revert s. induction Hl as [|m l Hm _ IH]; intros s; cbn [receive]; [by intros [= <-]|].
  intros ([[] s1] & Hs & Hr)%outcome_bind_ok. eapply rtc_l; [|by apply IH].
  destruct (message m); [eapply step_prevote|eapply step_precommit|eapply step_precommit]; done.
Qed.

Definition at_end (l : list SignedMessage) (s : st (E := unit)) : st (E := unit) :=
  match receive l s with Ok s' => s' | Err _ => s end.

Definition has_number (m : SignedMessage) : bool :=
  (block_number (block_info (message m)) =? Z.of_nat (length (vote_hash m))) && (Z.of_nat (length (vote_hash m)) <? 2 ^ 64).

Lemma votes_numbered l : forallb has_number l = true -> Forall numbered l.
Proof.
  intros Hl. apply Forall_forall. intros m Hm%list_elem_of_In. apply (proj1 (forallb_forall _ _) Hl), andb_true_iff in Hm as [H1 H2].
  unfold numbered, num. cbn. rewrite path_length. split; lia.
Qed.

(** Three of the voters vote for a block. *)
Definition all_for (vs : list string) (b : string) : list SignedMessage := ((fun v => prevote v b) <$> vs) ++ ((fun v => precommit v b) <$> vs).

Definition round_a : st (E := unit) := make crypto.
Definition round_d : st (E := unit) := make (provider (str "D")).

Definition finalized_a : st (E := unit) := at_end (all_for ["A"; "B"; "C"]%string "a") round_a.
Definition finalized_b : st (E := unit) := at_end (all_for ["D"; "A"; "B"]%string "b") round_d.

Lemma at_end_steps l s : has_failure (receive l s) = false -> forallb has_number l = true -> rtc (round_step demo_order) s (at_end l s).
Proof.
  intros Hr Hl. apply (receive_steps l); [by apply votes_numbered|]. unfold at_end. by destruct (receive l s).
Qed.

Lemma received : has_failure (receive (all_for ["A"; "B"; "C"]%string "a") round_a) = false /\
  has_failure (receive (all_for ["D"; "A"; "B"]%string "b") round_d) = false.
Proof. split; vm_compute; reflexivity. Qed.

Lemma known_numbers : forallb has_number (all_for ["A"; "B"; "C"]%string "a") = true /\
  forallb has_number (all_for ["D"; "A"; "B"]%string "b") = true.
Proof. split; vm_compute; reflexivity. Qed.

Lemma reach_a : rtc (round_step demo_order) round_a finalized_a.
Proof. exact (at_end_steps _ round_a (proj1 received) (proj1 known_numbers)). Qed.

Lemma reach_b : rtc (round_step demo_order) round_d finalized_b.
Proof. exact (at_end_steps _ round_d (proj2 received) (proj2 known_numbers)). Qed.

Lemma made p : fresh_round voters p (make p).
Proof. exists 7, 333, (VoteCryptoProviderImpl.private_key p). split; reflexivity. Qed.


Lemma branches : ~ descends (str "a") (str "b") /\ ~ descends (str "b") (str "a").
Proof. split; intros [[=]|Hin%list_elem_of_singleton]; discriminate. Qed.


Definition fin_a : Fin := mkFin 7 (block "a") ((fun v => precommit v "a") <$> ["A"; "B"; "C"]%string).

Definition after_fin : st (E := unit) := match onFinalize fin_a round_a with Ok (_, s) => s | Err _ => round_a end.

Lemma fin_needs_quorum_witness : justified (self round_a) (block "a") ((fun v => precommit v "a") <$> ["A"; "B"; "C"]%string).
Proof.
  destruct (fin_needs_quorum round_a after_fin fin_a) as [Hc|Hs]; [exact voters_are_ok|vm_compute; reflexivity..|exact Hc|].
  apply (f_equal (fun s => match calls s with [OnCompleted (Ok _)] => true | _ => false end)) in Hs. vm_compute in Hs. discriminate.
Defined.

(** ** Where a round goes wrong *)

Definition split_votes : list SignedMessage :=
  ((fun v => prevote v "ba") <$> ["A"; "B"; "C"]%string) ++ [precommit "A" "1ca"; precommit "B" "1ca"].

(** The precommits are for two blocks below one that is not in the graph: the
    round is completable and has no finalized block, and the notification reads
    the value that is not there. *)
Theorem completable_not_finalized :
  has_failure (receive split_votes round_a) = false /\
  receive (split_votes ++ [precommit "C" "2ca"]) round_a = Err undefined_behaviour.
Proof. split; vm_compute; reflexivity. Qed.

(** The last round had its prevotes for a block below its estimate. *)
Definition ahead_state : RoundState := mkRoundState genesis (block "ba") (block "a") (Some genesis).

(** The primary proposes the estimate of the last round, as [doProposal] does;
    the prevotes of that round were for a block below it: the place of the
    proposal in the ancestry is looked up one past its end. *)
Theorem proposal_of_estimate_throws :
  constructPrevote ahead_state (mkSt (set_primary_vote (best_final_candidate ahead_state) (self round_a))
    ahead_state (constructCurrentState ahead_state) tt 0 []) = Err undefined_behaviour.
Proof. vm_compute; reflexivity. Qed.

End DemoRound.
