(* ===== verification/FinalityVotes.v ===== *)
(** * A node votes once

    Over a whole run of the node, with its timers, messages and completed rounds
    in any order, at most one proposal, one prevote and one precommit is sent for
    a round. *)

From S2P Require Import Prelude Scale Votes VoteGraph VotingRound VotingRoundInv BlockStorage Finality.
Import VotingRoundImpl FinalityImpl.

Open Scope Z_scope.

Section votes.
Context `{ED25519} {E : Type} `{!Environment E} {DB : Type} `{!KeyValueDB DB}.
Variable order : gset bytes -> list bytes.
Variable max_size : ty -> Z.
Variable keypair_ : bytes.

Notation node := (node (E := E) (DB := DB)).
Notation execute := (executeNextRound max_size keypair_).
Implicit Type n : node.

(** ** What is kept *)

Definition allowed (x : Stage) (k : vote_kind) : nat := if decide (rank x < sent_from k)%nat then 0 else 1.

(** The rounds of a run have consecutive numbers, all but the last are over, and
    every vote is of one of them and the only one of its kind. *)
Record rounds_inv (n0 : Z) (rs : list round_object) (l : list VoteMessage) : Prop := {
  ri_number i o : rs !! i = Some o -> round_number_ (cfg (body o)) = n0 + Z.of_nat i;
  ri_over i o : rs !! i = Some o -> (S i < length rs)%nat -> stage_ (body o) = COMPLETED;
  ri_votes m : m ∈ l -> exists i, (i < length rs)%nat /\ vote_round m = n0 + Z.of_nat i;
  ri_once i o k : rs !! i = Some o -> (votes_of (n0 + Z.of_nat i) k l <= allowed (stage_ (body o)) k)%nat
}.

(** A round that is over sends nothing and stays over. *)
Lemma completed_silent (s s' : st (E := E)) : progress s s' -> stage_ (self s) = COMPLETED ->
  stage_ (self s') = COMPLETED /\ votes_in (calls s') = votes_in (calls s).
Proof.
  intros [_ Hr (l & Hv & Hn & Hk)] Es. rewrite Es in *. split; [destruct (stage_ (self s')); cbn in Hr; [lia..|done]|].
  destruct l as [|m l]; [by rewrite Hv, app_nil_r|]. specialize (Hk (kind_of (vote m))). unfold votes_of in Hk.
  rewrite filter_cons, decide_True in Hk by (split; [apply Hn; left|done]). rewrite decide_False in Hk by (destruct (kind_of (vote m)); cbn; lia). cbn in Hk. lia.
Qed.

Lemma votes_of_none r k l : (forall m, m ∈ l -> vote_round m <> r) -> votes_of r k l = 0%nat.
Proof. intros Hl. unfold votes_of. rewrite filter_none; [done|]. intros m Hm [? _]. by apply (Hl m). Qed.

(** A call of a round. *)
Lemma rounds_inv_call (n0 : Z) rs l r o p c e t (s' : st (E := E)) p' c' : rounds_inv n0 rs l -> rs !! r = Some o ->
  progress (mkSt (body o) p c e t []) s' -> rounds_inv n0 (<[r := mkRound (self s') p' c']> rs) (l ++ votes_in (calls s')).
Proof.
  intros [Hnum Hover Hvotes Honce] Hr Hp. pose proof (lookup_lt_Some _ _ _ Hr) as Hlt.
  pose proof Hp as [Ec Er (k & Ek & Hk & Hc)]. cbn in Ec, Er, Ek, Hk, Hc. rewrite Ek. rewrite (Hnum r o Hr) in *. split.
  - intros i x. destruct (decide (i = r)) as [->|Hi]; [rewrite list_lookup_insert_eq by done|rewrite list_lookup_insert_ne by done; apply Hnum].
    intros [= <-]. cbn. rewrite Ec. by apply Hnum.
  - rewrite length_insert. intros i x. destruct (decide (i = r)) as [->|Hi];
      [rewrite list_lookup_insert_eq by done|rewrite list_lookup_insert_ne by done; apply Hover].
    intros [= <-] Hl. cbn. by apply (completed_silent _ _ Hp), (Hover r o).
  - rewrite length_insert. intros m [Hm|Hm]%elem_of_app; [by apply Hvotes|]. exists r. auto.
  - intros i x j. destruct (decide (i = r)) as [->|Hi]; [rewrite list_lookup_insert_eq by done|rewrite list_lookup_insert_ne by done].
    + intros [= <-]. cbn. rewrite votes_of_app. specialize (Honce r o j Hr). specialize (Hc j). unfold allowed in *.
      repeat case_decide; lia.
    + intros Hx. rewrite votes_of_app, (votes_of_none _ _ k), Nat.add_0_r; [by apply Honce|]. intros m Hm%Hk. lia.
Qed.

(** A new round. *)
Lemma rounds_inv_new (n0 : Z) rs l o : rounds_inv n0 rs l -> (forall i x, rs !! i = Some x -> stage_ (body x) = COMPLETED) ->
  round_number_ (cfg (body o)) = n0 + Z.of_nat (length rs) -> rounds_inv n0 (rs ++ [o]) l.
Proof.
  intros [Hnum Hover Hvotes Honce] Hall Ho. split.
  - intros i x [[_ Hx]|[-> <-]]%lookup_snoc_Some; [by apply Hnum|done].
  - rewrite length_app. cbn. intros i x [[_ Hx]|[-> _]]%lookup_snoc_Some Hl; [by eapply Hall|lia].
  - rewrite length_app. intros m (i & ? & ?)%Hvotes. exists i. split; [lia|done].
  - intros i x k [[_ Hx]|[-> _]]%lookup_snoc_Some; [by apply Honce|].
    rewrite votes_of_none; [lia|]. intros m (i & ? & ->)%Hvotes. lia.
Qed.

Definition node_inv (n0 : Z) n (pend : list VoteMessage) : Prop := rounds_inv n0 (rounds n) (sent n ++ pend) /\
  forall c, current_round_ n = Some c -> S c = length (rounds n).

(** ** Calls that do not concern the votes *)

Definition aside n n' : Prop := rounds n' = rounds n /\ sent n' = sent n /\ current_round_ n' = current_round_ n /\
  previous_round_ n' = previous_round_ n.

#[local] Instance aside_order : PreOrder aside.
Proof. split; [done|]. intros n1 n2 n3 (? & ? & ? & ?) (? & ? & ? & ?). unfold aside. split_and!; congruence. Qed.

Lemma aside_modify f : (forall n, aside n (f n)) -> preserves aside (modify f).
Proof. intros Hf n [] n' [= <-]. apply Hf. Qed.

#[local] Hint Extern 1 (preserves aside (modify _)) => apply aside_modify; done : preserves.

Lemma aside_onCompletedRound x : preserves aside (onCompletedRound (E := E) (DB := DB) x).
Proof. unfold onCompletedRound, post. repeat preserves_step. Qed.

Lemma aside_inv (n0 : Z) n n' pend : aside n n' -> node_inv n0 n pend -> node_inv n0 n' pend.
Proof. intros (E1 & E2 & E3 & _) [? ?]. unfold node_inv. by rewrite E1, E2, E3. Qed.

(** Rounds are not forgotten. *)
Definition grows n n' : Prop := (length (rounds n) <= length (rounds n'))%nat.

#[local] Instance grows_order : PreOrder grows.
Proof. split; [intros n|intros n1 n2 n3]; unfold grows; lia. Qed.

Lemma aside_grows n n' : aside n n' -> grows n n'.
Proof. intros (E1 & _). unfold grows. by rewrite E1. Qed.

(** ** The calls of a round *)

Section calls.
Variable run_next : act node unit.
Hypothesis Hgrows : preserves grows run_next.
Variable n0 : Z.
Hypothesis Hnext : forall n pend n', node_inv n0 n pend -> run_next n = Ok (tt, n') -> n0 + Z.of_nat (length (rounds n')) < 2 ^ 64 ->
  node_inv n0 n' pend.

Lemma handle_call_grows r c : preserves grows (handle_call run_next r c).
Proof using Hgrows.
  destruct c; cbn; [| |intros n a n' ?%aside_onCompletedRound; by apply aside_grows|done| |];
    intros n a n' [= <- <-]; unfold grows; done.
Qed.

Lemma handle_calls_grows r l : preserves grows (handle_calls run_next r l).
Proof using Hgrows.
  induction l as [|c l IH]; cbn [handle_calls]; [by intros n a n' [= <- <-]|]. apply preserves_bind; [apply _|apply handle_call_grows|done].
Qed.

Lemma handle_calls_inv r l n pend n' : node_inv n0 n (votes_in l ++ pend) -> handle_calls run_next r l n = Ok (tt, n') ->
  n0 + Z.of_nat (length (rounds n')) < 2 ^ 64 -> node_inv n0 n' pend.
Proof using All.
  revert n. induction l as [|c l IH]; intros n Hinv; cbn [handle_calls]; [by intros [= <-]|].
  intros ([] & n1 & H1 & Hr)%act_bind_ok Hb. pose proof (handle_calls_grows r l _ _ _ Hr) as Hg. unfold grows in Hg.
  apply (IH n1); [|done|done]. destruct c; cbn in *.
  - injection H1 as <-. destruct Hinv as [Hi Hc]. split; cbn; [|done]. by rewrite <- (assoc_L (++)).
  - injection H1 as <-. done.
  - apply aside_onCompletedRound in H1. by eapply aside_inv.
  - eapply Hnext; [done..|]. lia.
  - injection H1 as <-. done.
  - injection H1 as <-. done.
Qed.

Definition loaded n o p c : st (E := E) := mkSt (body o) p c (environment_ n) (clock n) [].

(** The node after the operation of a round, before its calls are carried out. *)
Definition stored r o (s' : st (E := E)) n : node :=
  set_environment (env s') (set_states (<[current_state o := current s']> (states n))
    (set_rounds (<[r := mkRound (self s') (previous_state o) (current_state o)]> (rounds n)) n)).

Lemma on_round_ok r m n n' : on_round run_next r m n = Ok (tt, n') ->
  exists o p c s', alive n r = true /\ rounds n !! r = Some o /\ m (loaded n o p c) = Ok (tt, s') /\
    handle_calls run_next r (calls s') (stored r o s' n) = Ok (tt, n').
Proof.
  unfold on_round. intros (x & n1 & [= <- <-] & Hr)%act_bind_ok.
  apply act_bind_ok in Hr as (o & n1 & Ho & Hr). apply act_bind_ok in Hr as (p & n2 & Hp & Hr).
  apply act_bind_ok in Hr as (c & n3 & Hc & Hr). apply act_bind_ok in Hr as ([[] s'] & n4 & Hm & Hr). unfold lift in *.
  destruct (alive n r); [|done]. destruct (rounds n !! r) eqn:Er; [|done]. injection Ho as <- <-.
  destruct (states n !! previous_state _); [|done]. injection Hp as <- <-.
  destruct (states n !! current_state _); [|done]. injection Hc as <- <-.
  destruct (m _) as [[[] s1]|] eqn:Em; [|done]. injection Hm as <- <-.
  eexists _, _, _, _. split_and!; [done|done|exact Em|]. exact Hr.
Qed.

Lemma on_round_grows r m : preserves grows (on_round run_next r m).
Proof using Hgrows.
  intros n [] n' (o & p & c & s' & _ & _ & _ & Hc)%on_round_ok. apply handle_calls_grows in Hc. unfold grows in *. cbn in Hc.
  by rewrite length_insert in Hc.
Qed.

Lemma on_round_inv r m n pend n' : (forall s s', m s = Ok (tt, s') -> progress s s') -> node_inv n0 n pend ->
  on_round run_next r m n = Ok (tt, n') -> n0 + Z.of_nat (length (rounds n')) < 2 ^ 64 -> node_inv n0 n' pend.
Proof using All.
  intros Hm [Hi Hc] (o & p & c & s' & _ & Ho & Hms & Hcalls)%on_round_ok Hb.
  eapply handle_calls_inv; [|exact Hcalls|done]. split.
  - apply Hm in Hms. pose proof (rounds_inv_call _ _ _ r o _ _ _ _ s' (previous_state o) (current_state o) Hi Ho Hms) as [H1 H2 H3 H4].
    assert (Hp : sent n ++ votes_in (calls s') ++ pend ≡ₚ (sent n ++ pend) ++ votes_in (calls s')) by solve_Permutation.
    split; cbn; [done|done| |].
    + intros x Hx. apply H3. by rewrite <- Hp.
    + intros i x k Hx. unfold votes_of. rewrite Hp. by apply (H4 i x k).
  - cbn. by rewrite length_insert.
Qed.

End calls.

(** ** The next round *)

Lemma create_fresh v num d i c g r : create v num d i c g = Ok r ->
  round_number_ (cfg r) = num /\ stage_ r = INIT /\ completable_ r = false.
Proof.
  unfold create. destruct (primary_of _ _); cbn; [|done]. by intros [= <-].
Qed.

Lemma make_round_ok num ptr n x n' : make_round max_size keypair_ num ptr n = Ok (x, n') ->
  (x = None /\ aside n n') \/
  exists o k, x = Some k /\ k = length (rounds n) /\ rounds n' = rounds n ++ [o] /\ round_number_ (cfg (body o)) = num /\
    stage_ (body o) = INIT /\ completable_ (body o) = false /\ sent n' = sent n /\
    current_round_ n' = current_round_ n /\ previous_round_ n' = previous_round_ n.
Proof.
  unfold make_round. intros (v & n1 & [= <- <-] & Hr)%act_bind_ok.
  destruct (_ : outcome VoterSet.t) as [v|] in Hr; [|by injection Hr as <- <-; left].
  destruct (VoterSet.voters_ v) as [|z l] eqn:Ev; [by injection Hr as <- <-; left|].
  apply act_bind_ok in Hr as (n1 & n2 & [= <- <-] & Hr). apply act_bind_ok in Hr as (p & n3 & Hp & Hr).
  unfold lift in *. destruct (states n !! ptr); [|done]. injection Hp as <- <-.
  apply act_bind_ok in Hr as (x0 & n3 & Hc & Hr). destruct (create _ _ _ _ _ _) as [r'|] eqn:Ec; [|done]. injection Hc as <- <-.
  apply create_fresh in Ec as (? & ? & ?). injection Hr as <- <-. right. eexists _, _. by split_and!.
Qed.

Lemma end_ok (s : st (E := E)) : end_ s = Ok (tt, mkSt (set_handler None (set_stage COMPLETED (self s)))
  (previous s) (current s) (env s) (now s) (calls s ++ [CancelTimer])).
Proof. by destruct s as [[]]. Qed.

(** A round that starts waits for the prevotes; it does not end at once. *)
Lemma play_waits (s s' : st (E := E)) : completable_ (self s) = false -> play s = Ok (tt, s') ->
  ExecuteNextRound ∉ calls s -> ExecuteNextRound ∉ calls s'.
Proof.
  unfold play. intros Hc (r & s0 & [= <- <-] & Hr)%act_bind_ok Hs. case_decide as Es; [by injection Hr as <-|].
  apply act_bind_ok in Hr as (u1 & s1 & [= <- <-] & Hr). apply act_bind_ok in Hr as (t0 & s1 & [= <- <-] & Hr).
  apply act_bind_ok in Hr as (u2 & s1 & [= <- <-] & Hr). apply act_bind_ok in Hr as (p & s1 & [= <- <-] & Hr).
  apply act_bind_ok in Hr as (u3 & s2 & H2 & Hr).
  assert (completable_ (self s2) = false /\ ExecuteNextRound ∉ calls s2) as [Hc2 Hn2].
  { unfold when in H2. destruct (_ && _); [|by injection H2 as <- <-]. destruct u3; apply doProposal_calls in H2 as (-> & m & ->). split; [done|].
    cbn. set_solver. }
  revert Hr. unfold startPrevoteStage, assert_, emit, on_self, mbind, act_bind, gets, lift, modify, mret, act_ret. cbn.
  case_bool_decide; [|done]. rewrite Hc2. cbn. intros [= <-]. cbn. set_solver.
Qed.

Lemma handle_calls_next f g r l n : ExecuteNextRound ∉ l -> handle_calls f r l n = handle_calls (E := E) (DB := DB) g r l n.
Proof.
  revert n. induction l as [|c l IH]; intros n Hl; cbn [handle_calls]; [done|].
  apply not_elem_of_cons in Hl as [Hc Hl]. unfold mbind, act_bind.
  replace (handle_call g r c n) with (handle_call f r c n) by (by destruct c).
  destruct (handle_call f r c n) as [[[] n1]|]; [by apply IH|done].
Qed.

Lemma on_round_next f g r m n : (forall o p c s', rounds n !! r = Some o -> m (loaded n o p c) = Ok (tt, s') -> ExecuteNextRound ∉ calls s') ->
  on_round f r m n = on_round (DB := DB) g r m n.
Proof.
  intros Hm. unfold on_round, mbind, act_bind, gets, lift, modify. cbn.
  destruct (if alive n r then rounds n !! r else None) as [o|] eqn:Eo; cbn; [|done].
  destruct (states n !! previous_state o) as [p|]; cbn; [|done]. destruct (states n !! current_state o) as [c|]; cbn; [|done].
  destruct (m _) as [[[] s']|] eqn:Em; cbn; [|done]. apply handle_calls_next. eapply Hm; [|exact Em]. by destruct (alive n r).
Qed.

Lemma end_next f g r n : on_round f r end_ n = on_round (DB := DB) g r end_ n.
Proof. apply on_round_next. intros o p c s' _. rewrite end_ok. intros [= <-]. cbn. set_solver. Qed.

Lemma makeNextRound_ok r n x n' : makeNextRound max_size keypair_ r n = Ok (x, n') ->
  exists o, rounds n !! r = Some o /\ make_round max_size keypair_ (u64 (round_number_ (cfg (body o)) + 1)) (current_state o) n = Ok (x, n').
Proof.
  unfold makeNextRound. intros (n1 & n2 & [= <- <-] & Hr)%act_bind_ok. apply act_bind_ok in Hr as (o & n1 & Ho & Hr).
  unfold lift in Ho. destruct (rounds n !! r) as [o1|]; [|done]. injection Ho as <- <-. eauto.
Qed.

(** Making the next round does not end it, so one level is enough. *)
Lemma executeNextRound_one fuel n : execute (S fuel) n = execute 1 n.
Proof.
  cbn [executeNextRound]. unfold mbind, act_bind, gets, lift, modify. cbn.
  destruct (current_round_ n) as [c|]; cbn; [|done]. rewrite (end_next _ (lift (Err out_of_fuel)) c).
  destruct (on_round _ c end_ _) as [[[] n1]|]; [|done].
  destruct (makeNextRound _ _ c n1) as [[x n2]|] eqn:En; [|done]. apply makeNextRound_ok in En as (o & _ & Hx).
  apply make_round_ok in Hx as [[-> _]|(o' & k & -> & -> & Hr & _ & _ & Hc & _)]; [by destruct (previous_round_ n)|].
  assert (Hplay : forall n3 f g, rounds n3 = rounds n2 -> on_round f (length (rounds n1)) play n3 = on_round g (length (rounds n1)) play n3).
  { intros n3 f g E3. apply on_round_next. intros o1 p c1 s' Ho1 Hp. eapply play_waits; [|exact Hp|set_solver].
    rewrite E3, Hr, lookup_app_r, Nat.sub_diag in Ho1 by done. by injection Ho1 as <-. }
  destruct (previous_round_ n); cbn; by apply Hplay.
Qed.

(** The node when the new round starts. *)
Lemma execute_ok fuel n n' : execute (S fuel) n = Ok (tt, n') ->
  exists c o o' n1, current_round_ n = Some c /\ rounds n !! c = Some o /\
    rounds n1 = <[c := mkRound (set_handler None (set_stage COMPLETED (body o))) (previous_state o) (current_state o)]> (rounds n) ++ [o'] /\
    round_number_ (cfg (body o')) = u64 (round_number_ (cfg (body o)) + 1) /\ sent n1 = sent n /\
    current_round_ n1 = Some (length (rounds n)) /\ on_round (execute fuel) (length (rounds n)) play n1 = Ok (tt, n').
Proof.
  cbn [executeNextRound]. intros (x & n1 & [= <- <-] & Hr)%act_bind_ok. apply act_bind_ok in Hr as (c & n1 & Hc & Hr).
  unfold lift in Hc. destruct (current_round_ n) as [c'|] eqn:Ec; [|done]. injection Hc as <- <-.
  apply act_bind_ok in Hr as (u1 & n1 & [= <- <-] & Hr). apply act_bind_ok in Hr as ([] & n1 & Hend & Hr).
  apply on_round_ok in Hend as (o & p & c1 & s' & _ & Ho & Hs & Hn1). rewrite end_ok in Hs. injection Hs as <-. injection Hn1 as <-.
  apply act_bind_ok in Hr as (x & n2 & (o1 & Ho1 & Hm)%makeNextRound_ok & Hr). cbn in Ho, Ho1.
  rewrite list_lookup_insert_eq in Ho1 by (by eapply lookup_lt_Some). injection Ho1 as <-.
  apply make_round_ok in Hm as [[-> _]|(o' & k & -> & Hk & Hr2 & Hnum & _ & _ & Hs2 & _)].
  { destruct (previous_round_ n); done. }
  cbn in Hr2, Hnum, Hs2, Hk. rewrite length_insert in Hk. subst k. exists c', o, o'.
  destruct (previous_round_ n); eexists; (split_and!; cycle 6; [exact Hr|done|done|exact Hr2|exact Hnum|exact Hs2|done]).
Qed.

Lemma executeNextRound_grows fuel : preserves grows (execute fuel).
Proof.
  induction fuel as [|fuel IH]; [done|]. intros n [] n' (c & o & o' & n1 & _ & _ & Hr & _ & _ & _ & Hp)%execute_ok.
  apply on_round_grows in Hp; [|done]. unfold grows in *. rewrite Hr, length_app, length_insert in Hp. lia.
Qed.

Lemma executeNextRound_inv (n0 : Z) fuel n pend n' : 0 <= n0 -> node_inv n0 n pend -> execute fuel n = Ok (tt, n') ->
  n0 + Z.of_nat (length (rounds n')) < 2 ^ 64 -> node_inv n0 n' pend.
Proof.
  intros H0. revert n pend n'. induction fuel as [|fuel IH]; intros n pend n' [Hi Hc] Hr; [done|].
  apply execute_ok in Hr as (c & o & o' & n1 & Ec & Eo & Er & Ho & Es & Ec1 & Hp). intros Hb.
  pose proof (on_round_grows _ (executeNextRound_grows fuel) _ _ _ _ _ Hp) as Hg. unfold grows in Hg.
  rewrite Er, length_app, length_insert in Hg. cbn in Hg.
  eapply on_round_inv; [apply executeNextRound_grows|exact IH|apply play_progress| |exact Hp|done].
  specialize (Hc c Ec). split; [|intros ? [= <-]%(eq_trans (eq_sym Ec1)); rewrite Er, length_app, length_insert; cbn; lia].
  rewrite Er, Es. set (x := mkRound _ _ _).
  assert (Hi' : rounds_inv n0 (<[c := x]> (rounds n)) (sent n ++ pend)).
  { rewrite <- (app_nil_r (sent n ++ pend)). set (s0 := mkSt (body o) (mkRoundState (mkInfo 0 []) (mkInfo 0 []) (mkInfo 0 []) None)
      (mkRoundState (mkInfo 0 []) (mkInfo 0 []) (mkInfo 0 []) None) (environment_ n) 0 []).
    refine (rounds_inv_call n0 (rounds n) _ c o _ _ _ _ _ _ _ Hi Eo (proj1 (end_progress s0 _ (end_ok s0)))). }
  apply rounds_inv_new; [done| |].
  - intros i y Hy. destruct (decide (i = c)) as [->|Hn].
    + rewrite list_lookup_insert_eq in Hy by lia. by injection Hy as <-.
    + eapply (ri_over _ _ _ Hi' i y Hy). apply lookup_lt_Some in Hy. rewrite length_insert in *. lia.
  - rewrite Ho, (ri_number _ _ _ Hi c o Eo), length_insert. unfold u64. rewrite Z.mod_small by lia. lia.
Qed.

(** ** Runs of a node *)

(** The event loop runs a handler or a wait expires, a message arrives, time
    passes, blocks are added to the tree, the storage is written by others. *)
Inductive node_step n : node -> Prop :=
  | run_handler n' : run_one max_size keypair_ n = Ok (tt, n') -> node_step n n'
  | wait_expires i n' : expire i n = Ok (tt, n') -> node_step n n'
  | vote_arrives m n' : onVoteMessage order max_size keypair_ m n = Ok (tt, n') -> node_step n n'
  | fin_arrives f n' : FinalityImpl.onFinalize max_size keypair_ f n = Ok (tt, n') -> node_step n n'
  | time_passes t : clock n <= t -> node_step n (set_clock t n)
  | chain_changes e : node_step n (set_environment e n)
  | storage_changes d : node_step n (set_storage d n).

(** Every step is a call of one round, the change to the next one, or neither. *)
Inductive effect n : node -> Prop :=
  | no_effect : effect n n
  | next_round n' : execute 1 n = Ok (tt, n') -> effect n n'
  | round_call r m n' : (forall s s', m s = Ok (tt, s') -> progress s s') -> on_round (execute 1) r m n = Ok (tt, n') -> effect n n'.

Lemma run_task_effect x n n' : run_task max_size keypair_ x n = Ok (tt, n') -> effect n n'.
Proof.
  destruct x as [|r|r z]; cbn [run_task].
  - by constructor 2.
  - intros (y & n1 & [= <- <-] & Hx)%act_bind_ok. destruct (alive n r); [|injection Hx as <-; constructor].
    eapply round_call, Hx. apply play_progress.
  - intros Hx. eapply round_call, Hx. apply on_timer_progress.
Qed.

Lemma onVoteMessage_effect m n n' : onVoteMessage order max_size keypair_ m n = Ok (tt, n') -> effect n n'.
Proof.
  unfold onVoteMessage. intros (y & n1 & [= <- <-] & Hx)%act_bind_ok.
  destruct (selectRound _ n) as [r|]; [|injection Hx as <-; constructor]. case_decide; [|injection Hx as <-; constructor].
  eapply round_call, Hx. intros s s' Hs. apply quiet_progress.
  destruct (message (vote m)); [eapply quiet_onPrevote, Hs|eapply quiet_onPrecommit, Hs|eapply quiet_onPrimaryPropose, Hs].
Qed.

Lemma onFinalize_effect f n n' : FinalityImpl.onFinalize max_size keypair_ f n = Ok (tt, n') -> effect n n'.
Proof.
  unfold FinalityImpl.onFinalize. intros (y & n1 & [= <- <-] & Hx)%act_bind_ok.
  destruct (selectRound _ n) as [r|]; [|injection Hx as <-; constructor].
  eapply round_call, Hx. intros s s' Hs. eapply quiet_progress, quiet_onFinalize, Hs.
Qed.

Lemma node_step_effect n n' : node_step n n' -> exists n1, aside n n1 /\ effect n1 n'.
Proof.
  intros [x Hx|i x Hx|m x Hx|f x Hx|t Ht|e|d].
  - apply act_bind_ok in Hx as (y & n1 & [= <- <-] & Hx).
    destruct (ready n) as [|tk l]; [injection Hx as <-; exists n; split; [done|constructor]|].
    apply act_bind_ok in Hx as (u & n1 & [= <- <-] & Hx). eexists. by split; [|eapply run_task_effect, Hx].
  - apply act_bind_ok in Hx as (y & n1 & [= <- <-] & Hx). exists x. split; [|constructor].
    destruct (waits n !! i) as [[[r ex] z]|]; [destruct (ex <=? clock n)|]; by injection Hx as <-.
  - exists n. split; [done|]. by eapply onVoteMessage_effect.
  - exists n. split; [done|]. by eapply onFinalize_effect.
  - exists (set_clock t n). split; [done|constructor].
  - exists (set_environment e n). split; [done|constructor].
  - exists (set_storage d n). split; [done|constructor].
Qed.

Lemma node_step_grows n n' : node_step n n' -> grows n n'.
Proof.
  intros (n1 & Ha%aside_grows & He)%node_step_effect. etrans; [exact Ha|].
  destruct He as [|x Hx|r m x _ Hx]; [done|by apply executeNextRound_grows in Hx|].
  eapply on_round_grows, Hx. apply executeNextRound_grows.
Qed.

Lemma node_step_inv (n0 : Z) n n' : 0 <= n0 -> node_step n n' -> node_inv n0 n [] ->
  n0 + Z.of_nat (length (rounds n')) < 2 ^ 64 -> node_inv n0 n' [].
Proof.
  intros H0 (n1 & Ha & He)%node_step_effect Hi Hb. pose proof (aside_inv n0 n n1 [] Ha Hi) as Hi1.
  destruct He as [|x Hx|r m x Hm Hx]; [done|by eapply executeNextRound_inv|].
  eapply on_round_inv; [apply executeNextRound_grows|intros *; by apply executeNextRound_inv|done..].
Qed.

Lemma run_inv (n0 : Z) n n' : 0 <= n0 -> rtc node_step n n' -> node_inv n0 n [] ->
  n0 + Z.of_nat (length (rounds n')) < 2 ^ 64 -> node_inv n0 n' [].
Proof.
  intros H0 Hs Hi Hb. induction Hs as [|n n1 n' Hs Hss IH]; [done|]. apply IH; [|done].
  assert (Hg : grows n1 n') by (clear -Hss; induction Hss as [|n1 n2 n3 H1 _ IH]; [done|etrans; [eapply node_step_grows, H1|done]]).
  unfold grows in Hg. eapply node_step_inv; [done..|]. lia.
Qed.

Lemma getLastCompletedRound_reads : preserves eq (getLastCompletedRound (E := E) (DB := DB) max_size).
Proof. unfold getLastCompletedRound. repeat (preserves_step || case_decide || case_match). Qed.

(** The node after the start has one round, which has sent nothing. *)
Lemma start_ok n n' : rounds n = [] -> start max_size keypair_ n = Ok (true, n') ->
  exists o, rounds n' = [o] /\ stage_ (body o) = INIT /\ sent n' = sent n /\ current_round_ n' = Some 0%nat /\
    0 <= round_number_ (cfg (body o)).
Proof.
  intros Hn. unfold start. intros (l & n1 & Hl & Hr)%act_bind_ok.
  apply getLastCompletedRound_reads in Hl as <-.
  destruct l as [c|]; [|by case_decide]. apply act_bind_ok in Hr as (x & n1 & [= <- <-] & Hr).
  apply act_bind_ok in Hr as (u & n1 & [= <- <-] & Hr). apply act_bind_ok in Hr as (new & n1 & Hm & Hr).
  apply act_bind_ok in Hr as (u1 & n2 & [= <- <-] & Hr).
  apply make_round_ok in Hm as [[-> _]|(o & k & -> & -> & Ho & En & Es & _ & Et & _)]; [done|]. injection Hr as <-.
  exists o. cbn in *. rewrite Hn in *. split_and!; [done..|]. rewrite En. unfold u64. by apply Z.mod_pos_bound.
Qed.

(** C4. Over a run of the node from its start, it sends at most one vote of a kind
    for a round: no two proposals, no two prevotes, no two precommits. Handlers,
    timers, votes and finalizations of others, new blocks and changes of the
    stored voter set may come in any order. *)
Theorem votes_cast_once n n1 n2 r k : rounds n = [] -> sent n = [] -> start max_size keypair_ n = Ok (true, n1) ->
  rtc node_step n1 n2 ->
  (forall o, o ∈ rounds n1 -> round_number_ (cfg (body o)) + Z.of_nat (length (rounds n2)) < 2 ^ 64) ->
  (votes_of r k (sent n2) <= 1)%nat.
Proof.
  intros Hr Hs (o & Eo & Est & Es & Ec & Hpos)%start_ok Hrun Hb; [|done]. rewrite Eo in Hb. specialize (Hb o (list_elem_of_here _ _)).
  destruct (run_inv _ _ _ Hpos Hrun) as [[_ _ Hv Honce] _]; [|done|].
  - split; [|rewrite Ec, Eo; by intros c [= <-]]. rewrite Eo, Es, Hs. split.
    + intros [|i] x; [|done]. intros [= <-]. cbn. lia.
    + intros [|i] x; cbn; [lia|done].
    + by intros m ?%elem_of_nil.
    + intros [|i] x j; [|done]. intros [= <-]. unfold votes_of. cbn. lia.
  - rewrite app_nil_r in *. destruct (votes_of r k (sent n2)) eqn:En; [lia|].
    assert (Hm : exists m, m ∈ sent n2 /\ vote_round m = r).
    { unfold votes_of in En. destruct (filter _ _) as [|m l] eqn:Ef; [done|]. exists m.
      assert (Hm : m ∈ m :: l) by left. rewrite <- Ef in Hm. apply list_elem_of_filter in Hm as [[? _] ?]. done. }
    destruct Hm as (m & (i & Hi & Em)%Hv & Er). apply lookup_lt_is_Some_2 in Hi as [x Hx].
    specialize (Honce i x k Hx). rewrite <- Em, Er, En in Honce. unfold allowed in Honce. case_decide; lia.
Qed.

End votes.
