(* ===== verification/FinalityRestart.v ===== *)
(** * Completed rounds and the restart of a node

    A completed round is read back from the storage as it was written, and a node
    that starts from the storage goes on with the round after it.

    A node starts from a completed round in its storage, and its timers run
    until it has sent its prevote and its precommit. *)

From S2P Require Import Prelude Scale ScaleProps Votes VoteGraph VotingRound BlockStorage Finality VotesProps VoteGraphDemo VotingRoundInv VotingRoundDemo FinalityVotes.
Import VotingRoundImpl FinalityImpl.

Open Scope Z_scope.

Section restart.
Context `{ED25519} {E : Type} `{!Environment E} {DB : Type} `{!KeyValueDB DB} `{!KeyValueLaws DB}.
Variable max_size : ty -> Z.
Variable keypair_ : bytes.

Notation node := (node (E := E) (DB := DB)).
Implicit Type n m : node.

Definition info_ok (b : BlockInfo) : Prop := is_u64 (block_number b) /\ length (block_hash b) = 32%nat.

(** Blocks have hashes of 32 bytes and numbers of 64 bits. *)
Record completed_ok (c : CompletedRound) : Prop := {
  ok_number : is_u64 (completed_number c);
  ok_last : info_ok (last_finalized_block (completed_state c));
  ok_prevote : info_ok (best_prevote_candidate (completed_state c));
  ok_final : info_ok (best_final_candidate (completed_state c));
  ok_finalized b : finalized (completed_state c) = Some b -> info_ok b
}.

Lemma state_of_value s : state_of (state_value s) = s.
Proof. by destruct s as [[] [] [] [[]|]]. Qed.

Lemma completed_wf c : completed_ok c -> wf max_size TCompletedRound (completed_value c).
Proof.
  intros [Hn Hl Hp Hf Hfin]. unfold info_ok, is_u64 in *. cbn. destruct (finalized (completed_state c)) as [b|]; cbn.
  - specialize (Hfin b eq_refl). split_and!; (tauto || lia).
  - split_and!; (tauto || lia).
Qed.

Lemma stored_codes t v : ty_ok t = true -> wf max_size t v ->
  exists b, encode t v = Ok b /\ scale_decode max_size t b = Ok v.
Proof.
  intros Ht Hv. destruct (proj1 (encode_codes max_size) t v Ht Hv) as (b & Hb & Hc & _). exists b. split; [done|].
  unfold scale_decode. by rewrite <- (app_nil_r b), Hc.
Qed.

(** What the storage holds after a round is completed. *)
Lemma onCompletedRound_stores c n : completed_ok c ->
  exists b n1, onCompletedRound (Ok c) n = Ok (tt, n1) /\ ready n1 = ready n ++ [RunNextRound] /\
    db_map (storage_ n1) = <[GetSetStateKey := b]> (db_map (storage_ n)) /\
    scale_decode max_size TCompletedRound b = Ok (completed_value c).
Proof using All.
  intros Hc. destruct (stored_codes TCompletedRound (completed_value c) eq_refl (completed_wf c Hc)) as (b & Hb & Hd).
  pose proof (db_Put_ok GetSetStateKey b (storage_ n)) as Hp. pose proof (db_Put_map GetSetStateKey b (storage_ n)) as Hm.
  unfold onCompletedRound, mbind, act_bind, gets, lift, modify, mret, act_ret, post. rewrite Hb. cbn.
  destruct (db_Put _ _ _) as [u d]. cbn in Hp, Hm. subst u. cbn. rewrite db_Get_map, Hm, lookup_insert_eq. cbn.
  eexists b, _. split_and!; [done| |exact Hm|done]. done.
Qed.

Lemma getLastCompletedRound_stored c b m : db_map (storage_ m) !! GetSetStateKey = Some b ->
  scale_decode max_size TCompletedRound b = Ok (completed_value c) -> getLastCompletedRound max_size m = Ok (Ok c, m).
Proof using All.
  intros Hb Hd. unfold getLastCompletedRound, mbind, act_bind, gets. rewrite db_Get_map, Hb. cbn -[scale_decode]. rewrite Hd.
  cbn. rewrite state_of_value. by destruct c.
Qed.

Lemma make_round_makes num ptr m v p : getVoters max_size m = Ok (Ok v, m) -> VoterSet.voters_ v <> [] -> states m !! ptr = Some p ->
  exists r, create v num duration (ed_public keypair_) (VoteCryptoProviderImpl.mk keypair_ num v)
      (VoteGraphImpl.create (default (last_finalized_block p) (finalized p))) = Ok r /\
    make_round max_size keypair_ num ptr m = Ok (Some (length (rounds m)),
      set_rounds (rounds m ++ [mkRound r ptr (length (states m))]) (set_states (states m ++ [constructCurrentState p]) m)).
Proof using Type.
  intros Hv Hne Hp. destruct (create _ _ _ _ _ _) as [r|e] eqn:Ec.
  - exists r. split; [done|]. unfold make_round, mbind, act_bind, gets, lift, modify. rewrite Hv. cbn.
    destruct (VoterSet.voters_ v) eqn:El; [done|]. rewrite Hp. cbn. by rewrite Ec.
  - revert Ec. unfold create, primary_of. rewrite decide_False by (by destruct (VoterSet.voters_ v)).
    set (i := Z.to_nat _). destruct (lookup_lt_is_Some_2 (VoterSet.voters_ v) i) as [x ->]; [|done].
    subst i. assert (length (VoterSet.voters_ v) <> 0%nat) by by destruct (VoterSet.voters_ v).
    pose proof (Z.mod_pos_bound num (Z.of_nat (length (VoterSet.voters_ v))) ltac:(lia)). lia.
Qed.

(** C36. A node that starts from the storage that another one wrote goes on after
    the last completed round: it reads that round back as it was, its new round
    has the next number, the completed state before it, and a vote graph based at
    the finalized block. *)
Theorem restart_resumes c n m v b : completed_ok c -> wf max_size TVoterSet v -> VoterSet.voters_ (voter_set_of v) <> [] ->
  encode TVoterSet v = Ok b -> db_map (storage_ n) !! GetAuthoritySetKey = Some b ->
  exists n1, onCompletedRound (Ok c) n = Ok (tt, n1) /\
    (storage_ m = storage_ n1 -> getLastCompletedRound max_size m = Ok (Ok c, m) /\
     exists o m1, start max_size keypair_ m = Ok (true, m1) /\ rounds m1 = rounds m ++ [o] /\
       current_round_ m1 = Some (length (rounds m)) /\ ready m1 = ready m ++ [RunPlay (length (rounds m))] /\
       round_number_ (cfg (body o)) = u64 (completed_number c + 1) /\ stage_ (body o) = INIT /\
       states m1 !! previous_state o = Some (completed_state c) /\
       states m1 !! current_state o = Some (constructCurrentState (completed_state c)) /\
       graph_ (body o) = VoteGraphImpl.create (default (last_finalized_block (completed_state c)) (finalized (completed_state c))) /\
       voter_set_ (cfg (body o)) = voter_set_of v).
Proof using All.
  intros Hc Hv Hne Hb Hk. destruct (onCompletedRound_stores c n Hc) as (b' & n1 & Hr & _ & Hm & Hd).
  exists n1. split; [done|]. intros Es.
  assert (Hl : getLastCompletedRound max_size m = Ok (Ok c, m))
    by (apply (getLastCompletedRound_stored c b'); [rewrite Es, Hm; apply lookup_insert_eq|done]).
  split; [done|]. unfold start, mbind, act_bind at 1. rewrite Hl.
  destruct (stored_codes TVoterSet v eq_refl Hv) as (b1 & Hb1 & Hd1). rewrite Hb in Hb1. injection Hb1 as <-.
  assert (Hg : db_Get GetAuthoritySetKey (storage_ m) = Ok b) by (rewrite db_Get_map, Es, Hm, lookup_insert_ne, Hk by done; done).
  set (m2 := set_states (states m ++ [completed_state c]) m).
  destruct (make_round_makes (u64 (completed_number c + 1)) (length (states m)) m2 (voter_set_of v) (completed_state c)) as (r & Hcr & Hmk).
  - unfold getVoters, mbind, act_bind, gets. change (storage_ m2) with (storage_ m). rewrite Hg. cbn -[scale_decode]. by rewrite Hd1.
  - done.
  - cbn. by rewrite lookup_app_r, Nat.sub_diag by done.
  - unfold makeInitialRound, mbind, act_bind, gets, modify. cbn -[make_round]. fold m2. rewrite Hmk. cbn.
    eexists _, _. revert Hcr. unfold create. destruct (primary_of _ _); [|done]. intros [= <-].
    split_and!; [done..| | |done|done]; cbn; [|by rewrite lookup_app_r, Nat.sub_diag by (rewrite ?length_app; done)].
    by rewrite lookup_app_l, lookup_app_r, Nat.sub_diag by (rewrite ?length_app; cbn; lia).
Qed.

End restart.

(** ** A node on a concrete storage *)

Import DemoSignature DemoChain DemoRound VotingRoundImpl FinalityImpl.


(** ** Votes of others *)

(** The node asks a list of authorities that it leaves empty, so that it hands
    no vote to its rounds. *)
Theorem votes_ignored `{ED25519} {E : Type} `{!Environment E} {DB : Type} `{!KeyValueDB DB} order max_size keypair_
    (m : VoteMessage) (n : node (E := E) (DB := DB)) : onVoteMessage order max_size keypair_ m n = Ok (tt, n).
Proof.
  unfold onVoteMessage, mbind, act_bind, gets. destruct (selectRound _ n) as [r|]; [|done].
  rewrite decide_False; [done|]. apply not_elem_of_nil.
Qed.

Module DemoNode.

Notation node := (node (E := unit) (DB := gmap bytes bytes)).

Definition no_limit (t : ty) : Z := u64_max.
Definition pad (s : string) : bytes := str s ++ replicate (32 - String.length s) "000"%char.
Definition key : bytes := pad "A".
Definition base : BlockInfo := mkInfo 32 (pad "genesis").
Definition completed : CompletedRound := mkCompleted 7 (mkRoundState base base base (Some base)).
Definition stored_voters : value TVoterSet := ((fun s => (pad s, 1)) <$> ["A"; "B"; "C"; "D"]%string, 0).

Definition encoded (t : ty) (v : value t) : bytes := match encode t v with Ok b => b | Err _ => [] end.

Definition voters_only : gmap bytes bytes := {[GetAuthoritySetKey := encoded TVoterSet stored_voters]}.

Definition new_node (d : gmap bytes bytes) : node := mkNode [] [] None None tt d 0 [] [] [] [].

(** What can happen to the node. *)
Inductive event : Type := Handler | Expiry (i : nat) | Time (t : Z).

Definition happen (x : event) (n : node) : outcome (unit * node) :=
  match x with
  | Handler => run_one no_limit key n
  | Expiry i => expire i n
  | Time t => if clock n <=? t then Ok (tt, set_clock t n) else Err undefined_behaviour
  end.

Fixpoint run (l : list event) (n : node) : outcome node :=
  match l with
  | [] => Ok n
  | x :: l' => r ← happen x n; run l' r.2
  end.

Lemma run_steps l n n' : run l n = Ok n' -> rtc (node_step demo_order no_limit key) n n'.
Proof.
  revert n. induction l as [|x l IH]; intros n; cbn [run]; [by intros [= <-]|].
  intros ([[] n1] & Hs & Hr)%outcome_bind_ok. eapply rtc_l; [|by apply IH]. destruct x as [|i|u]; cbn in Hs.
  - by eapply run_handler.
  - by eapply wait_expires.
  - destruct (clock n <=? u) eqn:Ht; [|done]. injection Hs as <-. apply time_passes. lia.
Qed.

Definition first_node : node := new_node (<[GetSetStateKey := encoded TCompletedRound (completed_value completed)]> voters_only).
Definition started : node := match start no_limit key first_node with Ok (_, n) => n | Err _ => first_node end.
Definition events : list event := [Handler; Time 700000000; Expiry 0; Handler; Time 1400000000; Expiry 0; Handler].
Definition voted : node := match run events started with Ok n => n | Err _ => started end.

(** It has sent a prevote and a precommit of round 8. *)
Lemma voted_votes : (fun m => (vote_round m, kind_of (vote m))) <$> sent voted = [(8, FirstVote); (8, SecondVote)].
Proof. vm_compute; reflexivity. Qed.

Lemma starts : match start no_limit key first_node with Ok (b, _) => b | Err _ => false end = true.
Proof. vm_compute; reflexivity. Qed.

Lemma start_started : start no_limit key first_node = Ok (true, started).
Proof. generalize starts. unfold started. destruct (start _ _ _) as [[[] n]|]; done. Qed.

Lemma runs_events : has_failure (run events started) = false.
Proof. vm_compute; reflexivity. Qed.

Lemma run_voted : run events started = Ok voted.
Proof. generalize runs_events. unfold voted. destruct (run _ _); done. Qed.

Lemma numbers_left : forallb (fun o => round_number_ (cfg (body o)) + Z.of_nat (length (rounds voted)) <? 2 ^ 64) (rounds started) = true.
Proof. vm_compute; reflexivity. Qed.

Lemma votes_cast_once_witness : (votes_of 8 FirstVote (sent voted) <= 1)%nat.
Proof.
  apply (votes_cast_once demo_order no_limit key first_node started voted 8 FirstVote).
  - reflexivity.
  - reflexivity.
  - exact start_started.
  - exact (run_steps events _ _ run_voted).
  - intros o Ho. apply Z.ltb_lt, (proj1 (forallb_forall _ _) numbers_left), list_elem_of_In, Ho.
Defined.

Lemma completed_is_ok : completed_ok completed.
Proof. split; [done|split; [done|by vm_compute]..|]. intros b [= <-]. split; [done|by vm_compute]. Qed.

Lemma voters_wf : wf no_limit TVoterSet stored_voters.
Proof. split; [|done]. split; [done|]. split; [done|]. repeat (constructor; [by vm_compute|]). constructor. Qed.

Definition after_completed : node := match onCompletedRound (Ok completed) (new_node voters_only) with Ok (_, n) => n | Err _ => new_node ∅ end.
Definition second_node : node := new_node (storage_ after_completed).

(** A second node starts from the storage of the first. *)
Lemma restart_resumes_witness : getLastCompletedRound no_limit second_node = Ok (Ok completed, second_node) /\
  exists o m1, start no_limit key second_node = Ok (true, m1) /\ rounds m1 = [o] /\ round_number_ (cfg (body o)) = 8.
Proof.
  destruct (restart_resumes no_limit key completed (new_node voters_only) second_node stored_voters (encoded TVoterSet stored_voters))
    as (n1 & Hn & Hm); [exact completed_is_ok|exact voters_wf|vm_compute; discriminate|vm_compute; reflexivity|by apply lookup_singleton_eq|].
  destruct Hm as (Hl & o & m1 & Hs & Hr & _ & _ & Hnum & _).
  - unfold second_node, after_completed. rewrite Hn. reflexivity.
  - split; [exact Hl|]. exists o, m1. split; [exact Hs|]. split; [exact Hr|]. rewrite Hnum. reflexivity.
Defined.

End DemoNode.
