(* ===== verification/Environment.v ===== *)
(** * The environment of the rounds

    Models [src/src/verification/finality/impl/environment_impl.cpp] over the block
    tree: the ancestry of a block, the best chain with a block, and finalizing a
    block with its justification, and the observer of a syncing node
    ([syncing_round_observer.cpp]).  What the environment sends for the rounds is in
    [VotingRound].

    The rounds are verified against [ChainSpec] and [env_best_below]: an ancestry
    is a piece of the chain of parents, and the best chain with a block ends at or
    below it.  A tree and a storage whose blocks are linked by their parents
    ([linked]) keep both promises.

    The key-value storage keeps headers by number.  Created with the genesis block
    and grown by blocks of new numbers it is [linked] ([createWithGenesis_linked],
    [addBlock_linked]); a second block of a number takes the place of the first one
    ([fork_overwrites] of [BlockStorageProps]), and it is not any more.  The example
    is a chain in that storage. *)

From S2P Require Import Prelude Scale BlockStorage BlockTree Votes VoteGraph VotingRound BlockTreeProps VoteGraphProps BlockStorageProps BlockTreeSpec.
Open Scope Z_scope.

(** The repository of headers next to the tree, over the same storage. *)
Class HeaderRepository (St : Type) : Type := { repo_getBlockHeader : bytes -> act St (outcome BlockHeader) }.

(** ** Justifications *)

Definition TSignedMessage : ty := TPair (TVector (TInt false 1)) (TPair (TBlob 64) (TPair (TBlob 32) (TInt false 8))).

Definition byte_values (b : bytes) : list Z := (fun c => Z.of_N (N_of_ascii c)) <$> b.

(** The vote is encoded on its own, into a buffer. *)
Definition signed_value (m : SignedMessage) : outcome (value TSignedMessage) :=
  b ← VoteCryptoProviderImpl.value_of (encode VoteCryptoProviderImpl.TVote (VoteCryptoProviderImpl.vote_value (message m)));
  Ok (byte_values b, (signature m, (id m, ts m))).

Fixpoint signed_values (l : list SignedMessage) : outcome (list (value TSignedMessage)) :=
  match l with
  | [] => Ok []
  | m :: l' => v ← signed_value m; r ← signed_values l'; Ok (v :: r)
  end.

Definition encode_justification (j : list SignedMessage) : outcome bytes :=
  l ← signed_values j; VoteCryptoProviderImpl.value_of (encode (TVector TSignedMessage) l).

Module EnvironmentImpl.
Section environment.
Context {St : Type} `{!BlockStore St} `{!HeaderRepository St}.
Variable order : gset bytes -> list bytes.

Notation tree := (@BlockTreeImpl.t St).

Definition getAncestry (fuel : nat) (base block : bytes) : act tree (outcome (list bytes)) :=
  if decide (base = block) then mret (Ok []) else
  TRY chain ← BlockTreeImpl.getChainByBlocks fuel base block;
  if decide (length chain < 2)%nat then lift (Err undefined_behaviour)
  else mret (Ok (removelast (tail (reverse chain)))).

Fixpoint walk_to (fuel : nat) (target : Z) (best_hash : bytes) (best_header : BlockHeader) : act tree (outcome BlockInfo) :=
  if decide (number best_header = target) then mret (Ok (mkInfo (number best_header) best_hash)) else
  match fuel with
  | O => lift (Err out_of_fuel)
  | S fuel' =>
      TRY new_best_header ← BlockTreeImpl.on_store (repo_getBlockHeader (parent_hash best_header));
      walk_to fuel' target (parent_hash best_header) new_best_header
  end.

Definition bestChainContaining (fuel : nat) (base : bytes) : act tree (outcome BlockInfo) :=
  TRY best_info ← BlockTreeImpl.getBestContaining order fuel base None;
  TRY best_header ← BlockTreeImpl.on_store (repo_getBlockHeader best_info.2);
  walk_to fuel best_info.1 best_info.2 best_header.

Definition finalize (block_hash : bytes) (finality_justification : list SignedMessage) : act tree (outcome unit) :=
  j ← lift (encode_justification finality_justification);
  BlockTreeImpl.finalize block_hash j.

End environment.
End EnvironmentImpl.

(** A node that syncs finalizes what it is told, without a look at the votes. *)
Module SyncingRoundObserver.
Section observer.
Context {St : Type} `{!BlockStore St}.

Definition onVoteMessage (msg : VoteMessage) : act (@BlockTreeImpl.t St) unit := mret tt.

Definition onFinalize (f : Fin) : act (@BlockTreeImpl.t St) unit :=
  fin_res ← EnvironmentImpl.finalize (Votes.block_hash (fin_vote f)) (justification f);
  mret tt.

End observer.
End SyncingRoundObserver.

(** ** The environment implements the chain of the rounds *)

Import EnvironmentImpl.


Section environment.
Context {St : Type} `{!BlockStore St} `{!HeaderRepository St}.
Context `{Ancestry}.
Variable order : gset bytes -> list bytes.

(** What the first block names as its parent. *)
Variable origin : bytes.

Notation tree := (@BlockTreeImpl.t St).
Implicit Type s : tree.

(** The header of the block [h]: it names the parent of the block, and the number
    of the block is the number of its ancestors. *)
Definition header_linked (h : bytes) (hd : BlockHeader) : Prop :=
  number hd = num h /\ (anc h = parent_hash hd :: anc (parent_hash hd) \/ anc h = [] /\ parent_hash hd = origin).

Definition child_linked (n c : TreeNode) : Prop :=
  anc (BlockTree.block_hash c) = BlockTree.block_hash n :: anc (BlockTree.block_hash n).

(** The header read under a hash is the one of that block, blocks are linked by
    the hash of their parent, in the storage and in the tree, and reading leaves
    the storage as it is. *)
Record linked s : Prop := {
  linked_header h hd st : st_getBlockHeader (ByHash h) (BlockTreeImpl.store s) = Ok (Ok hd, st) -> header_linked h hd;
  linked_origin hd st : st_getBlockHeader (ByHash origin) (BlockTreeImpl.store s) <> Ok (Ok hd, st);
  linked_read b r st : st_getBlockHeader b (BlockTreeImpl.store s) = Ok (r, st) -> st = BlockTreeImpl.store s;
  linked_repo h : repo_getBlockHeader h (BlockTreeImpl.store s) = st_getBlockHeader (ByHash h) (BlockTreeImpl.store s);
  linked_number n r st : st_getHashByNumber n (BlockTreeImpl.store s) = Ok (r, st) -> st = BlockTreeImpl.store s;
  linked_hash h r st : st_getNumberByHash h (BlockTreeImpl.store s) = Ok (r, st) -> st = BlockTreeImpl.store s;
  linked_tree : edges child_linked (BlockTreeImpl.tree_ s);
  linked_ids : NoDup (ids (BlockTreeImpl.tree_ s));
  linked_hashes : NoDup (hashes (BlockTreeImpl.tree_ s))
}.

(** ** Ancestry *)

Lemma branch_anc s a l b : linked s -> branch a l b -> (forall x, x ∈ l -> x ∈ nodes (BlockTreeImpl.tree_ s)) ->
  (a = b /\ l = [a]) \/ exists mid, BlockTree.block_hash <$> l = BlockTree.block_hash a :: reverse mid ++ [BlockTree.block_hash b] /\
    anc (BlockTree.block_hash b) = mid ++ BlockTree.block_hash a :: anc (BlockTree.block_hash a).
Proof.
  intros Hl. induction 1 as [a|a c l b Hc Hb IH]; intros Hin; [by left|]. right.
  assert (Ha : a ∈ nodes (BlockTreeImpl.tree_ s)) by (apply Hin; left).
  pose proof (linked_tree _ Hl a c Ha Hc) as Ec. destruct IH as [[-> ->]|(mid & El & Eb)].
  - intros x Hx. apply Hin. by right.
  - exists []. split; [done|]. by rewrite Ec.
  - exists (mid ++ [BlockTree.block_hash c]). rewrite fmap_cons, El, reverse_app. split; [done|].
    by rewrite Eb, Ec, <- (assoc_L (++)).
Qed.

Lemma on_store_read {A} (m : act St A) s a s' : BlockTreeImpl.on_store m s = Ok (a, s') ->
  exists st, m (BlockTreeImpl.store s) = Ok (a, st) /\ s' = BlockTreeImpl.set_store st s.
Proof. unfold BlockTreeImpl.on_store. destruct (m _) as [[x st]|]; [|done]. intros [= <- <-]. eauto. Qed.

Lemma set_store_same s : BlockTreeImpl.set_store (BlockTreeImpl.store s) s = s.
Proof. by destruct s. Qed.

(** Reading a header. *)
Lemma header_read s h r s' : linked s -> BlockTreeImpl.on_store (st_getBlockHeader (ByHash h)) s = Ok (r, s') ->
  s' = s /\ forall hd, r = Ok hd -> header_linked h hd /\ h <> origin.
Proof.
  intros Hl (st & Hr & ->)%on_store_read. pose proof (linked_read _ Hl _ _ _ Hr) as ->. rewrite set_store_same. split; [done|].
  intros hd ->. split; [by eapply linked_header|]. intros ->. by eapply linked_origin.
Qed.

Lemma db_chain_anc fuel s top current acc chain s' : linked s -> top <> origin ->
  BlockTreeImpl.db_chain_loop fuel top current acc s = Ok (Ok chain, s') -> s' = s /\ current <> origin /\
    exists l, reverse chain = acc ++ current :: l /\
      ((current = top /\ l = []) \/ exists mid rest, l = mid ++ [top] /\ anc current = mid ++ top :: rest).
Proof.
  intros Hl Hto. revert current acc. induction fuel as [|fuel IH]; intros current acc; cbn [BlockTreeImpl.db_chain_loop]; [done|].
  case_decide as Et.
  - intros [= <- <-]. split_and!; [done|congruence|]. exists []. rewrite reverse_involutive. auto.
  - intros (r & s1 & [-> Hh]%(header_read _ _ _ _ Hl) & Hr)%act_bind_ok. destruct r as [hd|]; [|done].
    destruct (Hh hd eq_refl) as [[_ Ha] Ho]. apply IH in Hr as (-> & Hpo & l & Hc & Hcase). split_and!; [done..|].
    destruct Ha as [Ha|[_ ?]]; [|done]. exists (parent_hash hd :: l).
    rewrite Hc, <- (assoc_L (++)). split; [done|]. right. rewrite Ha. destruct Hcase as [[-> ->]|(mid & rest & -> & ->)].
    + by exists [], (anc top).
    + by exists (parent_hash hd :: mid), rest.
Qed.

Lemma chain_anc fuel s top block chain s' : linked s -> top <> origin -> top <> block ->
  BlockTreeImpl.getChainByBlocks fuel top block s = Ok (Ok chain, s') ->
  s' = s /\ exists mid rest, reverse chain = block :: mid ++ [top] /\ anc block = mid ++ top :: rest.
Proof.
  intros Hl Hto Hne Hr. pose proof Hr as Hc. revert Hc. unfold BlockTreeImpl.getChainByBlocks.
  intros (ta & s1 & Ht & Hc)%act_bind_ok. apply act_bind_ok in Hc as (tb & s2 & Hb & Hc).
  destruct (getByHash_spec (BlockTreeImpl.tree_ s) top) as (oa & Ha1 & Ha2).
  destruct (getByHash_spec (BlockTreeImpl.tree_ s) block) as (ob & Hb1 & Hb2).
  unfold BlockTreeImpl.find_node, mbind, act_bind, gets, lift in Ht. rewrite Ha1 in Ht. injection Ht as <- <-.
  unfold BlockTreeImpl.find_node, mbind, act_bind, gets, lift in Hb. rewrite Hb1 in Hb. injection Hb as <- <-.
  assert (Hdb : BlockTreeImpl.db_chain_loop fuel top block [] s = Ok (Ok chain, s') ->
    s' = s /\ exists mid rest, reverse chain = block :: mid ++ [top] /\ anc block = mid ++ top :: rest).
  { intros (-> & _ & l & -> & [[-> _]|(mid & rest & -> & ->)])%db_chain_anc; [done|split; [done|by exists mid, rest]|done..]. }
  destruct oa as [a|]; [|by apply Hdb]. destruct ob as [b|]; [|by apply Hdb].
  destruct Ha2 as [Han <-], Hb2 as [Hbn <-].
  destruct (Chains.chain_between s a b fuel (linked_ids _ Hl) (linked_hashes _ Hl) Han Hbn) as [Hin Hout].
  destruct (decide (node_id b ∈ ids a)) as [Hab|Hab].
  - apply list_elem_of_fmap in Hab as (x & Ex & Hx).
    rewrite <- (NoDup_fmap_eq node_id _ b x (linked_ids _ Hl) Hbn (nodes_trans _ _ _ Han Hx) Ex) in Hx.
    destruct (Hin Hx) as (l & Hbr & Hg & _). rewrite Hr in Hg. injection Hg as -> ->.
    assert (Hl' : forall y, y ∈ l -> y ∈ nodes (BlockTreeImpl.tree_ s))
      by (intros y Hy; eapply nodes_trans; [exact Han|apply (branch_nodes _ _ _ Hbr y Hy)]).
    destruct (branch_anc s a l b Hl Hbr Hl') as [[-> _]|(mid & -> & ->)]; [done|].
    split; [done|]. eexists mid, _. split; [|done]. by rewrite reverse_cons, reverse_app, reverse_involutive.
  - destruct (Hout (fun Hx => Hab (ids_elem _ _ Hx))) as [Hg _]. by rewrite Hr in Hg.
Qed.

(** The chain that the rounds see.  None of them asks for an ancestry from
    [origin], which is no block. *)
Definition tree_chain (fuel : nat) s : Chain := {|
  VoteGraph.getAncestry base block :=
    if decide (base = origin /\ base <> block) then Err block_not_found else
    match getAncestry fuel base block s with Ok (r, _) => r | Err e => Err e end |}.

Lemma getAncestry_anc fuel s base block l s' : linked s -> base <> origin -> base <> block ->
  getAncestry fuel base block s = Ok (Ok l, s') -> s' = s /\ exists rest, anc block = l ++ base :: rest.
Proof.
  intros Hl Hbo Hne. unfold getAncestry. rewrite decide_False by done. unfold try, mbind, act_bind.
  destruct (BlockTreeImpl.getChainByBlocks fuel base block s) as [[[chain|] s1]|] eqn:Hc; [|done..].
  case_decide; [done|]. destruct (chain_anc _ _ _ _ _ _ Hl Hbo Hne Hc) as (-> & mid & rest & Er & ->).
  intros [= <- <-]. split; [done|]. exists rest. rewrite Er. cbn. by rewrite removelast_last.
Qed.

Lemma tree_chain_spec fuel s : linked s -> ChainSpec (H0 := tree_chain fuel s).
Proof.
  intros Hl. split.
  - intros b. cbn. rewrite decide_False by tauto. unfold getAncestry. by rewrite decide_True.
  - intros base block l Hne. cbn. case_decide as Ho; [done|].
    destruct (getAncestry fuel base block s) as [[r s']|] eqn:Ha; [|done]. intros ->.
    eapply getAncestry_anc; [done| |done|exact Ha]. tauto.
Qed.

(** ** The best chain *)

Lemma try_ok {A B} (m : act tree (outcome A)) (f : A -> act tree (outcome B)) s b s' : try m f s = Ok (Ok b, s') ->
  exists a s1, m s = Ok (Ok a, s1) /\ f a s1 = Ok (Ok b, s').
Proof. unfold try. intros ([a|e] & s1 & Hm & Hf)%act_bind_ok; [eauto|done]. Qed.

Lemma reaches_anc fuel s target n current r s' : linked s -> target <> origin ->
  BlockTreeImpl.reaches_target fuel target n current s = Ok (r, s') ->
  s' = s /\ (r = Ok true -> current <> origin /\ descends target current).
Proof.
  intros Hl Hto. revert current. induction fuel as [|fuel IH]; intros current; cbn [BlockTreeImpl.reaches_target]; [done|].
  unfold try. intros (x & s1 & [-> Hh]%(header_read _ _ _ _ Hl) & Hr)%act_bind_ok. destruct x as [hd|]; [|by injection Hr as <- <-].
  destruct (Hh hd eq_refl) as [[_ Ha] Ho]. case_decide as Ec; [injection Hr as <- <-; split; [done|split; [done|by left]]|].
  destruct (_ <? n); [by injection Hr as <- <-|]. apply IH in Hr as [-> Hd]. split; [done|].
  intros [Hpo Hp]%Hd. split; [done|]. destruct Ha as [Ha|[_ ?]]; [|done].
  destruct Hp as [Hp|Hp]; right; rewrite Ha, ?Hp; [left|by right].
Qed.

Lemma best_loop_below fuel s target n l b s' : linked s -> target <> origin ->
  BlockTreeImpl.best_loop fuel target n None l s = Ok (Ok b, s') ->
  s' = s /\ descends target b.2 /\ b.1 = num b.2.
Proof.
  intros Hl Hto. induction l as [|h l IH]; cbn [BlockTreeImpl.best_loop]; [done|].
  intros (x & s1 & [= <- <-] & Hr)%try_ok. apply try_ok in Hr as (hd & s1 & [-> Hh]%(header_read _ _ _ _ Hl) & Hr).
  destruct (Hh hd eq_refl) as [[Hn _] _]. apply try_ok in Hr as (found & s1 & Hf & Hr). destruct found.
  - apply reaches_anc in Hf as [-> Hd]; [|done..]. injection Hr as <- <-. split_and!; [done|by apply Hd|done].
  - apply reaches_anc in Hf as [-> _]; [|done..]. by apply IH.
Qed.

Lemma getLastFinalized_reads : preserves eq (BlockTreeImpl.getLastFinalized (St := St)).
Proof. unfold BlockTreeImpl.getLastFinalized, BlockTreeImpl.deref. repeat preserves_step. Qed.

Lemma getLeavesSorted_reads : preserves eq (BlockTreeImpl.getLeavesSorted (St := St) order).
Proof.
  assert (Hd : forall l, preserves eq (BlockTreeImpl.leaf_depths (St := St) l)).
  { induction l as [|h l IH]; cbn [BlockTreeImpl.leaf_depths]; unfold BlockTreeImpl.find_node; repeat (preserves_step || apply IH). }
  unfold BlockTreeImpl.getLeavesSorted, BlockTreeImpl.getLeaves. repeat (preserves_step || apply Hd).
Qed.

Lemma getBestContaining_below fuel s target b s' : linked s -> BlockTreeImpl.getBestContaining order fuel target None s = Ok (Ok b, s') ->
  s' = s /\ descends target b.2 /\ b.1 = num b.2.
Proof.
  intros Hl (hd & s1 & [-> Hh]%(header_read _ _ _ _ Hl) & Hr)%try_ok. destruct (Hh hd eq_refl) as [_ Hto].
  apply try_ok in Hr as (canon & s1 & Hc & Hr). apply on_store_read in Hc as (st & Hc & ->).
  rewrite (linked_number _ Hl _ _ _ Hc), set_store_same in Hr.
  assert (Hsearch : (l ← BlockTreeImpl.getLeavesSorted order; BlockTreeImpl.best_loop fuel target (number hd) None l) s = Ok (Ok b, s') ->
    s' = s /\ descends target b.2 /\ b.1 = num b.2).
  { intros (l & s1 & <-%getLeavesSorted_reads & Hb)%act_bind_ok. by eapply best_loop_below. }
  case_decide; [by apply Hsearch|]. apply act_bind_ok in Hr as (last & s1 & <-%getLastFinalized_reads & Hr).
  apply try_ok in Hr as (m & s1 & Hm & Hr). apply on_store_read in Hm as (st' & Hm & ->).
  rewrite (linked_hash _ Hl _ _ _ Hm), set_store_same in Hr. destruct (_ <=? m); [done|by apply Hsearch].
Qed.

Lemma bestChainContaining_below fuel s base b s' : linked s -> bestChainContaining order fuel base s = Ok (Ok b, s') ->
  s' = s /\ descends base (Votes.block_hash b) /\ block_number b = num (Votes.block_hash b).
Proof.
  intros Hl (i & s1 & (-> & Hd & Hn)%getBestContaining_below & Hr)%try_ok; [|done].
  apply try_ok in Hr as (hd & s1 & Hh & Hr). apply on_store_read in Hh as (st & Hh & ->). rewrite (linked_repo _ Hl) in Hh.
  pose proof (linked_read _ Hl _ _ _ Hh) as ->. rewrite set_store_same in Hr.
  destruct (linked_header _ Hl _ _ _ Hh) as [Hnum _]. unfold walk_to in Hr.
  destruct fuel; rewrite decide_True in Hr by congruence; injection Hr as <- <-; cbn; split_and!; congruence.
Qed.

(** C37. The environment over a block tree keeps what the rounds rely on, when
    the header read under a hash is the header of that block and names its parent,
    the light tree has each block below its parent, and the reads leave the storage
    as it is ([linked]).  The ancestry it returns is the chain of parents between
    the two blocks, for every base that is a block and not the hash which the first
    block names as its parent; it is returned for every two blocks of the light
    tree of which one is below the other; and the best chain with a block ends at
    or below that block, with the number of its end.  A key-value storage that
    holds no two blocks of one number is [linked] ([addBlock_linked]); one that
    does is not, since it reads the later of the two under both hashes. *)
Theorem environment_implements_chain fuel s : linked s ->
  (forall base block l s', base <> origin -> base <> block -> getAncestry fuel base block s = Ok (Ok l, s') ->
     s' = s /\ exists rest, anc block = l ++ base :: rest) /\
  ChainSpec (H0 := tree_chain fuel s) /\
  (forall a b, a ∈ nodes (BlockTreeImpl.tree_ s) -> b ∈ nodes a ->
     exists l, getAncestry fuel (BlockTree.block_hash a) (BlockTree.block_hash b) s = Ok (Ok l, s)) /\
  (forall base b s', bestChainContaining order fuel base s = Ok (Ok b, s') ->
     s' = s /\ descends base (Votes.block_hash b) /\ block_number b = num (Votes.block_hash b)).
Proof.
  intros Hl. split; [intros base block l s'; by apply getAncestry_anc|]. split; [by apply tree_chain_spec|]. split; [|intros base b s'; by apply bestChainContaining_below].
  intros a b Ha Hab. unfold getAncestry. case_decide as Heq; [by exists []|].
  destruct (proj1 (Chains.chain_between s a b fuel (linked_ids _ Hl) (linked_hashes _ Hl) Ha (nodes_trans _ _ _ Ha Hab)) Hab)
    as (l & Hbr & Hg & _). unfold try, mbind, act_bind. rewrite Hg.
  rewrite decide_False; [eexists; reflexivity|]. rewrite length_fmap. inversion Hbr as [|? c l' ? Hc Hb']; subst; [done|].
  destruct Hb'; cbn; lia.
Qed.

End environment.

(** ** The environment over the key-value storage *)

Import KeyValueBlockStorage TreeSpec.

Section kv.
Context {S : Type} `{!KeyValueDB S, !KeyValueLaws S}.
Context {blockslib : BlocksLib} {blocksspec : BlocksSpec}.
Context `{Ancestry}.
Variables net_id origin : bytes.

#[local] Instance kv_store : BlockStore S := kv_block_store net_id.
#[local] Instance kv_repository : HeaderRepository S := {|
  repo_getBlockHeader h := KeyValueBlockStorage.getBlockHeader net_id (ByHash h) |}.

(** Every hash of the database is the one of a header that is kept under its
    number. *)
Definition headers_linked (m : gmap bytes bytes) : Prop := forall h b, m !! hash_key h = Some b ->
  exists hd, h = block_hash_of hd /\ header_wf hd /\ b = ser_block_id (number hd) /\
    m !! number_key net_id (number hd) = Some (GetHeaderSerializedData hd) /\ header_linked origin h hd /\ h <> origin.

Lemma Get_reads key : preserves eq (Get (S := S) key).
Proof. unfold Get. repeat preserves_step. Qed.

Lemma value_reads {A} (r : outcome A) : preserves eq (value (S := S) r).
Proof. destruct r; cbn; repeat preserves_step. Qed.

#[local] Hint Resolve Get_reads value_reads : preserves.

Lemma getBlockHeader_reads b : preserves eq (getBlockHeader (S := S) net_id b).
Proof. destruct b; unfold getBlockHeader, idToStringKey, GetBlockHeaderFromSerialized, read_header, try; repeat preserves_step. Qed.

Lemma getHashByNumber_reads n : preserves eq (getHashByNumber (S := S) net_id n).
Proof. unfold getHashByNumber, try. repeat (apply getBlockHeader_reads || preserves_step). Qed.

Lemma getNumberByHash_reads h : preserves eq (getNumberByHash (S := S) h).
Proof. unfold getNumberByHash, idToBufferKey, try. repeat preserves_step. Qed.

(** What is read under a hash is the header of that block. *)
Lemma headers_linked_read st h hd st' : headers_linked (db_map st) -> getBlockHeader net_id (ByHash h) st = Ok (Ok hd, st') ->
  header_linked origin h hd /\ h <> origin.
Proof using All.
  intros Hst Hr. destruct (db_map st !! hash_key h) as [b|] eqn:Hb.
  - destruct (Hst h b Hb) as (hd' & Eh & Hwf & -> & Hhas & Hlink & Ho). split; [|done].
    assert (runs (getBlockHeader net_id (ByHash h)) st (fun r _ => r = Ok (stored_header hd'))) as (r & st1 & Hr1 & ->).
    { by apply (getBlockHeader_hash net_id hd'). }
    rewrite Hr in Hr1. by injection Hr1 as -> _.
  - unfold getBlockHeader, idToStringKey, try, mbind, act_bind, Get, gets in Hr. rewrite db_Get_map in Hr.
    unfold hash_key in Hb. by rewrite Hb in Hr.
Qed.

(** The tree and the storage are in order. *)
Record chain_stored (s : @BlockTreeImpl.t S) : Prop := {
  chain_inv : tree_inv s;
  chain_raw : no_raw net_id (BlockTreeImpl.store s);
  chain_headers : headers_linked (db_map (BlockTreeImpl.store s));
  chain_edges : edges child_linked (BlockTreeImpl.tree_ s)
}.

Lemma chain_stored_linked s : chain_stored s -> linked origin s.
Proof using All.
  intros [Hinv _ Hh He]. split; cbn; try done.
  - intros h hd st Hr. by eapply headers_linked_read.
  - intros hd st Hr. by apply (headers_linked_read _ _ _ _ Hh) in Hr as [_ ?].
  - intros b r st Hr. symmetry. by eapply getBlockHeader_reads.
  - intros n r st Hr. symmetry. by eapply getHashByNumber_reads.
  - intros h r st Hr. symmetry. by eapply getNumberByHash_reads.
  - apply Hinv.
  - apply Hinv.
Qed.

(** A block of a new number is put. *)
Lemma headers_linked_put b m : header_wf (header b) -> m !! number_key net_id (number (header b)) = None ->
  header_linked origin (block_hash_of (header b)) (header b) -> block_hash_of (header b) <> origin ->
  headers_linked m -> headers_linked (with_block net_id b m).
Proof using All.
  intros Hwf Hnew Hlink Ho Hm h v Hv. pose proof (wf_number _ Hwf) as Hn. unfold with_block in *.
  rewrite !(lookup_insert_ne _ _ (hash_key h)) in Hv by key_ne.
  destruct (decide (h = block_hash_of (header b))) as [->|Hne].
  - rewrite lookup_insert_eq in Hv. injection Hv as <-. exists (header b). split_and!; [done..| |done|done].
    by rewrite lookup_insert_ne, lookup_insert_eq by key_ne.
  - rewrite lookup_insert_ne in Hv by (intros E%hash_key_inj; by subst).
    destruct (Hm h v Hv) as (hd & Eh & Hhwf & -> & Hat & Hhl & Hho). pose proof (wf_number _ Hhwf).
    assert (number hd <> number (header b)) by (intros E; rewrite E in Hat; congruence).
    exists hd. split_and!; [done..| |done|done]. rewrite lookup_insert_ne by key_ne.
    rewrite lookup_insert_ne by (intros E%number_key_inj; lia). by rewrite lookup_insert_ne by key_ne.
Qed.

Lemma headers_linked_insert k v m : (forall h, k <> hash_key h) -> (forall n, 0 <= n -> k <> number_key net_id n) ->
  headers_linked m -> headers_linked (<[k := v]> m).
Proof using All.
  intros Hkh Hkn Hm h b. rewrite lookup_insert_ne by done. intros (hd & Eh & Hwf & -> & Hat & Hl)%Hm.
  pose proof (wf_number _ Hwf). exists hd. split_and!; [done..| |apply Hl|apply Hl]. rewrite lookup_insert_ne; [done|]. apply Hkn. lia.
Qed.

(** The storage that the genesis block was put into, whose parent hash is the
    origin. *)
Lemma createWithGenesis_linked hash256 root st : length root = 32%nat -> length (hash256 ["000"%char]) = 32%nat ->
  fresh_db net_id hash256 root st -> db_map st !! number_key net_id 0 = None -> headers_linked (db_map st) -> origin = zero_hash ->
  let g := genesis hash256 root in anc (block_hash_of (header g)) = [] -> block_hash_of (header g) <> origin ->
  runs (createWithGenesis net_id hash256 root) st (fun _ st' => headers_linked (db_map st') /\ no_raw net_id st').
Proof using All.
  intros Hroot Hempty Hf Hn Hm Ho g Ha Hg.
  assert (Hwf : header_wf (header g)) by (split; [done|done|done|cbn; lia]).
  eapply runs_mono; [by apply createWithGenesis_spec|]. intros _ st' [_ Hst]. cbn zeta in Hst. fold g in Hst. split.
  - rewrite Hst. apply headers_linked_insert; [intros h; key_ne|intros n ?; key_ne|].
    apply headers_linked_insert; [intros h; key_ne|intros n ?; key_ne|].
    apply headers_linked_put; [done|done| |done|done]. split; [unfold num; by rewrite Ha|]. by right.
  - pose proof (wf_number _ Hwf). intros n. rewrite Hst, !lookup_insert_ne by key_ne. unfold with_block.
    rewrite !lookup_insert_ne by (try key_ne; by apply raw_ne). apply Hf.
Qed.

(** Adding a block of a new number to the tree and its storage leaves both in
    order. *)
Lemma addBlock_linked b p s : chain_stored s -> p ∈ nodes (BlockTreeImpl.tree_ s) ->
  BlockTree.block_hash p = parent_hash (header b) -> BlockTree.depth p < number (header b) -> header_wf (header b) ->
  db_map (BlockTreeImpl.store s) !! number_key net_id (number (header b)) = None ->
  block_hash_of (header b) ∉ hashes (BlockTreeImpl.tree_ s) ->
  db_map (BlockTreeImpl.store s) !! hash_key (block_hash_of (header b)) = None ->
  number (header b) = num (block_hash_of (header b)) ->
  anc (block_hash_of (header b)) = parent_hash (header b) :: anc (parent_hash (header b)) ->
  block_hash_of (header b) <> origin ->
  runs (BlockTreeImpl.addBlock b) s (fun r s' => r = Ok tt /\ chain_stored s').
Proof using All.
  intros [Hinv Hraw Hh He] Hp Ep Hd Hwf Hnum Hfresh Hnone Hn Ha Ho. unfold BlockTreeImpl.addBlock. rewrite <- Ep.
  apply runs_bind, runs_find; [|intros []; apply list_elem_of_fmap; eauto]. intros q Hq Eq.
  rewrite (NoDup_fmap_eq BlockTree.block_hash _ q p (inv_hashes s Hinv) Hq Hp Eq). clear q Hq Eq.
  apply runs_try, runs_on_store. eapply runs_mono; [by apply putBlock_spec|]. intros r st [-> Hst].
  apply runs_bind. eapply runs_mono; [apply (append_node_inv s p); [done..]|]. intros _ s' (Hinv' & Ht & Es). apply runs_ret.
  split; [done|]. split; rewrite ?Es, ?Ht; [done| | |].
  - eapply no_raw_with_block; [apply Hwf|exact Hst|done].
  - rewrite Hst. apply headers_linked_put; [done|done|split; [done|by left]|done|done].
  - apply edges_add; [|apply Hinv|done|done|done|].
    + unfold child_linked, summary. intros a a' k k' [= _ -> _] [= _ -> _]. done.
    + unfold child_linked. cbn. by rewrite Ha, Ep.
Qed.

End kv.

(** ** The environment over a chain in the key-value storage *)

Module DemoEnvironment.
Import DemoBlocks.

Notation DB := (gmap bytes bytes).

#[local] Ltac by_decision := DemoTree.by_decision.

Definition root (c : ascii) : bytes := replicate 32 c.

(** The genesis block and two blocks above it. *)
Definition first_block : Block := genesis demo_hash256 (root "g").
Definition hash_0 : bytes := block_hash_of (header first_block).
Definition block_1 : Block := mkBlock (mkHeader hash_0 1 (root "a") zero_hash []) [str "tx"].
Definition hash_1 : bytes := block_hash_of (header block_1).
Definition block_2 : Block := mkBlock (mkHeader hash_1 2 (root "b") zero_hash []) [].
Definition hash_2 : bytes := block_hash_of (header block_2).

Definition demo_anc (h : bytes) : list bytes :=
  if decide (h = hash_1) then [hash_0] else if decide (h = hash_2) then [hash_1; hash_0] else [].

Lemma demo_anc_tail h p l : demo_anc h = p :: l -> demo_anc p = l.
Proof. unfold demo_anc at 1. repeat case_decide; intros [= <- <-]; vm_compute; reflexivity. Qed.

#[export] Instance demo_ancestry : Ancestry := {| anc := demo_anc; anc_tail := demo_anc_tail |}.

#[local] Instance demo_store : BlockStore DB := kv_block_store demo_net.
#[local] Instance demo_repository : HeaderRepository DB := kv_repository demo_net.

(** The tree of the genesis block, over the storage that was created with it. *)
Definition demo_tree (st : DB) : @BlockTreeImpl.t DB :=
  let tree := mkNode 0 hash_0 0 true [] in BlockTreeImpl.mk tree (NewTreeMeta tree) st [] 1.

Definition state_after {St A} (m : act St A) (s : St) : St := match m s with Ok (_, s') => s' | Err _ => s end.

Lemma runs_after {St A} (m : act St A) s (Q : A -> St -> Prop) : runs m s Q -> exists a, Q a (state_after m s).
Proof. unfold state_after. intros (a & s' & -> & HQ). eauto. Qed.

Definition state_0 : @BlockTreeImpl.t DB := demo_tree (state_after (createWithGenesis demo_net demo_hash256 (root "g")) ∅).
Definition state_1 : @BlockTreeImpl.t DB := state_after (BlockTreeImpl.addBlock block_1) state_0.
Definition state_2 : @BlockTreeImpl.t DB := state_after (BlockTreeImpl.addBlock block_2) state_1.

Lemma demo_tree_inv st : tree_inv (demo_tree st).
Proof.
  split; [apply NoDup_singleton|apply NoDup_singleton| | |reflexivity| |reflexivity].
  - intros i ->%list_elem_of_singleton. cbn. lia.
  - apply rising_unfold. by intros c ?%elem_of_nil.
  - exists (BlockTreeImpl.tree_ (demo_tree st)). split_and!; [left|reflexivity|]. intros x ->%list_elem_of_singleton. done.
Qed.

Lemma state_0_stored : chain_stored demo_net zero_hash state_0.
Proof.
  destruct (runs_after (createWithGenesis demo_net demo_hash256 (root "g")) (∅ : DB) _
    (createWithGenesis_linked demo_net zero_hash demo_hash256 (root "g") ∅ eq_refl eq_refl
      (mkFresh _ _ _ _ (empty_lookup _) (empty_lookup _) empty_no_raw) (empty_lookup _)
      (fun h b E => ltac:(by rewrite empty_lookup in E)) eq_refl ltac:(by_decision) ltac:(by_decision))) as (r & Hh & Hr).
  split; [apply demo_tree_inv|done|done|]. apply edges_unfold. by intros c ?%elem_of_nil.
Qed.

Lemma state_1_stored : chain_stored demo_net zero_hash state_1.
Proof.
  destruct (runs_after (BlockTreeImpl.addBlock block_1) state_0 _
    (addBlock_linked demo_net zero_hash block_1 (BlockTreeImpl.tree_ state_0) state_0 state_0_stored (nodes_self _)
      eq_refl ltac:(by_decision) ltac:(split; by_decision) ltac:(by_decision) ltac:(by_decision) ltac:(by_decision)
      ltac:(by_decision) ltac:(by_decision) ltac:(by_decision))) as (r & _ & Hs). exact Hs.
Qed.

Definition node_1 : TreeNode := mkNode 1 hash_1 1 false [].

Lemma state_2_stored : chain_stored demo_net zero_hash state_2.
Proof.
  destruct (runs_after (BlockTreeImpl.addBlock block_2) state_1 _
    (addBlock_linked demo_net zero_hash block_2 node_1 state_1 state_1_stored ltac:(vm_compute; right; left)
      eq_refl ltac:(by_decision) ltac:(split; by_decision) ltac:(by_decision) ltac:(by_decision) ltac:(by_decision)
      ltac:(by_decision) ltac:(by_decision) ltac:(by_decision))) as (r & _ & Hs). exact Hs.
Qed.

Definition leaves_order (X : gset bytes) : list bytes := elements X.

Definition found {A} `{EqDecision A} (b : A) (o : outcome (outcome A * @BlockTreeImpl.t DB)) : bool :=
  match o with Ok (Ok x, _) => bool_decide (x = b) | _ => false end.

Lemma found_ok {A} `{EqDecision A} (b : A) o : found b o = true -> exists s, o = Ok (Ok b, s).
Proof. destruct o as [[[x|] s]|]; [|done..]. intros ->%bool_decide_eq_true. eauto. Qed.

Lemma ancestry_of_2 : found [hash_1] (getAncestry 5 hash_0 hash_2 state_2) = true.
Proof. vm_compute; reflexivity. Qed.

Lemma best_of_1 : found (mkInfo 2 hash_2) (bestChainContaining leaves_order 5 hash_1 state_2) = true.
Proof. vm_compute; reflexivity. Qed.

Definition node_0 : TreeNode := BlockTreeImpl.tree_ state_2.
Definition node_2 : TreeNode := mkNode 2 hash_2 2 false [].

Lemma environment_implements_chain_witness : (exists rest, anc hash_2 = [hash_1] ++ hash_0 :: rest) /\
  ChainSpec (H0 := tree_chain zero_hash 5 state_2) /\
  (exists l, getAncestry 5 (BlockTree.block_hash node_0) (BlockTree.block_hash node_2) state_2 = Ok (Ok l, state_2)) /\
  descends hash_1 hash_2.
Proof.
  destruct (environment_implements_chain leaves_order zero_hash 5 state_2
    (chain_stored_linked demo_net zero_hash state_2 state_2_stored)) as (Ha & Hc & Ht & Hb). split_and!.
  - destruct (found_ok _ _ ancestry_of_2) as [s Hs]. refine (proj2 (Ha _ _ _ _ _ _ Hs)); by_decision.
  - exact Hc.
  - exact (Ht node_0 node_2 (nodes_self _) ltac:(vm_compute; right; right; left)).
  - destruct (found_ok _ _ best_of_1) as [s Hs]. exact (proj1 (proj2 (Hb _ _ _ Hs))).
Defined.

End DemoEnvironment.
