(* ===== verification/Authority.v ===== *)
(** * The authorities of a block

    Models [src/src/verification/authority/impl]: the tree of scheduled changes
    ([schedule_node.cpp], [schedule_node.hpp]) and the manager that records
    changes of the authorities and answers who the authorities of a block are
    ([authority_manager_impl.cpp]).

    A list of authorities is behind a shared pointer, and the manager compares
    pointers: a pointer is an address with the list, which is constant, or null.
    The children of a node are a vector of pointers, of which some can be null.
    The loops [for (auto &descendant : std::move(node->descendants))] do not move
    the vector, they run over it: an element that is passed on leaves a null
    pointer behind, and one that is appended to the same vector invalidates the
    end of the loop, which is [undefined_behaviour]. *)

From S2P Require Import Prelude Scale BlockStorage Votes.

Open Scope Z_scope.

(** ** Authorities and messages *)

Definition AuthorityList : Type := list (bytes * Z).

Definition list_ptr : Type := option (nat * AuthorityList).

(** Pointers are compared by their address. *)
Definition same_ptr (p q : list_ptr) : bool := bool_decide (fst <$> p = fst <$> q).

Definition deref_list (p : list_ptr) : outcome AuthorityList := ok_or undefined_behaviour (snd <$> p).

Inductive Verification : Type :=
  | UnusedMessage
  | ScheduledChange (authorities : AuthorityList) (subchain_length : Z)
  | ForcedChange (authorities : AuthorityList) (subchain_length : Z)
  | OnDisabled (authority_index : Z)
  | Pause (subchain_length : Z)
  | Resume (subchain_length : Z).

(** ** The tree *)

Definition INACTIVE : Z := 0.

(** A node but for its children; [parent] is never read. *)
Record schedule : Type := mkSchedule {
  block : BlockInfo;
  actual_authorities : list_ptr;
  enabled : bool;
  scheduled_after : Z;
  scheduled_authorities : list_ptr;
  forced_for : Z;
  forced_authorities : list_ptr;
  pause_after : Z;
  resume_for : Z
}.

Definition set_actual (p : list_ptr) (d : schedule) : schedule := mkSchedule (block d) p (enabled d) (scheduled_after d)
  (scheduled_authorities d) (forced_for d) (forced_authorities d) (pause_after d) (resume_for d).
Definition set_enabled (b : bool) (d : schedule) : schedule := mkSchedule (block d) (actual_authorities d) b (scheduled_after d)
  (scheduled_authorities d) (forced_for d) (forced_authorities d) (pause_after d) (resume_for d).
Definition set_scheduled (n : Z) (p : list_ptr) (d : schedule) : schedule := mkSchedule (block d) (actual_authorities d) (enabled d) n p
  (forced_for d) (forced_authorities d) (pause_after d) (resume_for d).
Definition set_forced (n : Z) (p : list_ptr) (d : schedule) : schedule := mkSchedule (block d) (actual_authorities d) (enabled d)
  (scheduled_after d) (scheduled_authorities d) n p (pause_after d) (resume_for d).
Definition set_pause (n : Z) (d : schedule) : schedule := mkSchedule (block d) (actual_authorities d) (enabled d) (scheduled_after d)
  (scheduled_authorities d) (forced_for d) (forced_authorities d) n (resume_for d).
Definition set_resume (n : Z) (d : schedule) : schedule := mkSchedule (block d) (actual_authorities d) (enabled d) (scheduled_after d)
  (scheduled_authorities d) (forced_for d) (forced_authorities d) (pause_after d) n.

Inductive ScheduleNode : Type :=
  | Node (d : schedule) (descendants : list (option ScheduleNode)).

Definition data (n : ScheduleNode) : schedule := let '(Node d _) := n in d.
Definition descendants (n : ScheduleNode) : list (option ScheduleNode) := let '(Node _ l) := n in l.

Definition new_schedule (b : BlockInfo) : schedule := mkSchedule b None true INACTIVE None INACTIVE None INACTIVE INACTIVE.

Definition createAsRoot (b : BlockInfo) : ScheduleNode := Node (new_schedule b) [].

Definition ensureReadyToSchedule (d : schedule) : outcome unit :=
  if decide (scheduled_after d <> INACTIVE) then Err (authority_update_error NO_SCHEDULED_CHANGE_APPLIED_YET) else
  if decide (forced_for d <> INACTIVE) then Err (authority_update_error NO_FORCED_CHANGE_APPLIED_YET) else
  if decide (pause_after d <> INACTIVE) then Err (authority_update_error NO_PAUSE_APPLIED_YET) else
  if decide (resume_for d <> INACTIVE) then Err (authority_update_error NO_RESUME_APPLIED_YET) else
  Ok tt.

Definition makeDescendant (d : schedule) (b : BlockInfo) (finalized : bool) : schedule :=
  let n := new_schedule b in
  if decide (scheduled_after d <> INACTIVE) then
    if finalized && (scheduled_after d <=? block_number b) then set_actual (scheduled_authorities d) n
    else set_scheduled (scheduled_after d) (scheduled_authorities d) (set_enabled (enabled d) (set_actual (actual_authorities d) n))
  else if decide (forced_for d <> INACTIVE) then
    if forced_for d <=? block_number b then set_actual (forced_authorities d) n
    else set_forced (forced_for d) (forced_authorities d) (set_enabled (enabled d) (set_actual (actual_authorities d) n))
  else if decide (pause_after d <> INACTIVE) then
    let n := set_actual (actual_authorities d) n in
    if finalized && (pause_after d <=? block_number b) then set_enabled false n
    else set_pause (pause_after d) (set_enabled (enabled d) n)
  else if decide (resume_for d <> INACTIVE) then
    let n := set_actual (actual_authorities d) n in
    if resume_for d <=? block_number b then set_enabled true n
    else set_resume (resume_for d) (set_enabled (enabled d) n)
  else set_enabled (enabled d) (set_actual (actual_authorities d) n).

(** ** The codec of the tree *)

Definition TAuthorityList : ty := TVector (TPair (TBlob 32) (TInt false 8)).

Definition encode_ptr (p : list_ptr) : outcome bytes := encode (TPtr TAuthorityList) (snd <$> p).

(** A block number, and a list after it when it is not zero. *)
Definition encode_change (n : Z) (p : list_ptr) : outcome bytes :=
  a ← encode (TInt false 8) n;
  if decide (n <> INACTIVE) then b ← encode_ptr p; Ok (a ++ b) else Ok a.

Definition encode_schedule (d : schedule) : outcome bytes :=
  a ← encode VoteCryptoProviderImpl.TInfo (VoteCryptoProviderImpl.info_value (block d));
  b ← encode_ptr (actual_authorities d);
  c ← encode TBool (enabled d);
  e ← encode_change (scheduled_after d) (scheduled_authorities d);
  f ← encode_change (forced_for d) (forced_authorities d);
  g ← encode (TInt false 8) (pause_after d);
  h ← encode (TInt false 8) (resume_for d);
  Ok (a ++ b ++ c ++ e ++ f ++ g ++ h).

Fixpoint encode_node (n : ScheduleNode) : outcome bytes :=
  match n with
  | Node d l =>
      a ← encode_schedule d;
      b ← encodeCollection (fun c => match c with
                                     | Some c => encode_node c
                                     | None => Err (encode_error DEREF_NULLPOINTER)
                                     end) (Z.of_nat (length l)) l;
      Ok (a ++ b)
  end.

Section decoder.
Context (max_size : ty -> Z).

(** A decoded pointer gets an address of its own, see [fresh_node]. *)
Definition decode_ptr : reader list_ptr := v ← decode max_size (TPtr TAuthorityList); mret (pair 0%nat <$> v).

Definition decode_change : reader (Z * list_ptr) :=
  n ← decode max_size (TInt false 8);
  if decide (n <> 0) then p ← decode_ptr; mret (n, p) else mret (INACTIVE, None).

Definition decode_schedule : reader schedule :=
  i ← decode max_size VoteCryptoProviderImpl.TInfo;
  a ← decode_ptr;
  e ← decode max_size TBool;
  s ← decode_change;
  f ← decode_change;
  p ← decode max_size (TInt false 8);
  r ← decode max_size (TInt false 8);
  mret (mkSchedule (mkInfo i.2 i.1) a e s.1 s.2 f.1 f.2 p r).

(** The depth of the recursion; the type of the size check is that of a pointer. *)
Fixpoint decode_node (fuel : nat) : reader ScheduleNode :=
  match fuel with
  | O => raise out_of_fuel
  | S fuel' =>
      d ← decode_schedule;
      l ← decodeVector max_size (TPtr TUnit) (c ← decode_node fuel'; mret (Some c));
      mret (Node d l)
  end.
End decoder.

(** ** The manager *)

(** The block tree next to the manager. *)
Class DirectChain : Type := { hasDirectChain : bytes -> bytes -> bool }.

Module AuthorityManagerImpl.
Section manager.
Context `{!DirectChain} {DB : Type} `{!KeyValueDB DB}.
Variable max_size : ty -> Z.

Record t : Type := mk {
  root_ : option ScheduleNode;
  storage_ : DB;
  next_address : nat
}.

Definition set_root (n : ScheduleNode) (s : t) : t := mk (Some n) (storage_ s) (next_address s).

Definition new_list (l : AuthorityList) : act t list_ptr := fun s =>
  Ok (Some (next_address s, l), mk (root_ s) (storage_ s) (S (next_address s))).

Definition SCHEDULER_TREE : bytes := str ":sgns:authorities:scheduler_tree".
Definition known_engines : list bytes := [str "BABE"; str "FRNK"].

Definition directChainExists (ancestor descendant : BlockInfo) : bool :=
  if (block_number ancestor <=? 1) && (block_number ancestor <? block_number descendant) then true
  else (block_number ancestor <? block_number descendant) && hasDirectChain (block_hash ancestor) (block_hash descendant).

(** The node of a block is at a path of positions from the root. *)
Fixpoint ancestor_path (b : BlockInfo) (n : ScheduleNode) : outcome (list nat) :=
  match n with
  | Node d l =>
      if decide (block d = b) then Ok [] else
      (fix scan (i : nat) (l : list (option ScheduleNode)) : outcome (list nat) :=
         match l with
         | [] => Ok []
         | None :: _ => Err undefined_behaviour
         | Some c :: l' =>
             if bool_decide (block (data c) = b) || directChainExists (block (data c)) b
             then p ← ancestor_path b c; Ok (i :: p)
             else scan (S i) l'
         end) 0%nat l
  end.

Fixpoint node_at (p : list nat) (n : ScheduleNode) : option ScheduleNode :=
  match p with
  | [] => Some n
  | i :: p' => c ← descendants n !! i; c ← c; node_at p' c
  end.

Fixpoint update_at (p : list nat) (m : ScheduleNode) (n : ScheduleNode) : ScheduleNode :=
  match p with
  | [] => m
  | i :: p' => Node (data n) (alter (fmap (update_at p' m)) i (descendants n))
  end.

Definition root : act t ScheduleNode := s ← gets root_; lift (ok_or undefined_behaviour s).

(** The path of the node and the node; [None] is a null pointer. *)
Definition getAppropriateAncestor (b : BlockInfo) : act t (option (list nat * ScheduleNode)) :=
  r ← root;
  if (block_number b <? block_number (block (data r)))
     || (negb (bool_decide (block (data r) = b)) && negb (directChainExists (block (data r)) b)) then mret None
  else
    p ← lift (ancestor_path b r);
    n ← lift (ok_or undefined_behaviour (node_at p r));
    mret (Some (p, n)).

(** The node where a change is recorded is used without a check. *)
Definition ancestor_of (b : BlockInfo) : act t (list nat * ScheduleNode) :=
  a ← getAppropriateAncestor b; lift (ok_or undefined_behaviour a).

(** The loop over the children of a node: [f] is what happens to the data of one
    that passes to the new node. *)
Fixpoint reorganize (f : schedule -> schedule) (b : BlockInfo) (l : list (option ScheduleNode)) : outcome (list (option ScheduleNode)) :=
  match l with
  | [] => Ok []
  | None :: _ => Err undefined_behaviour
  | Some c :: l' =>
      if directChainExists b (block (data c)) then
        r ← reorganize f b l'; Ok (Some (Node (f (data c)) (descendants c)) :: r)
      else Err undefined_behaviour
  end.

(** The new node takes the children, and null pointers stay in their places. *)
Definition add_node (f : schedule -> schedule) (p : list nat) (n : ScheduleNode) (new_node : schedule) : act t (outcome unit) :=
  l ← lift (reorganize f (block new_node) (descendants n));
  r ← root;
  modify (set_root (update_at p (Node (data n) (replicate (length (descendants n)) None ++ [Some (Node new_node l)])) r));;
  mret (Ok tt).

Definition apply_forced (ancestor d : schedule) : schedule :=
  if forced_for ancestor <=? block_number (block d) then set_forced INACTIVE None (set_actual (forced_authorities ancestor) d) else d.
Definition apply_resume (ancestor d : schedule) : schedule :=
  if resume_for ancestor <=? block_number (block d) then set_resume INACTIVE (set_enabled true d) else d.

Definition authorities (b : BlockInfo) : act t (outcome list_ptr) :=
  a ← getAppropriateAncestor b;
  match a with
  | None => mret (Err (authority_manager_error ORPHAN_BLOCK_OR_ALREADY_FINALISED))
  | Some (_, n) =>
      let adjusted_node := if decide (block (data n) = b) then data n else makeDescendant (data n) b false in
      if enabled adjusted_node then mret (Ok (actual_authorities adjusted_node))
      else
        l ← lift (deref_list (actual_authorities adjusted_node));
        q ← new_list ((fun x => (x.1, 0)) <$> l);
        mret (Ok q)
  end.

Definition applyScheduledChange (b : BlockInfo) (l : AuthorityList) (activate_at : Z) : act t (outcome unit) :=
  a ← ancestor_of b;
  let new_node := makeDescendant (data a.2) b false in
  TRY _ ← mret (ensureReadyToSchedule new_node);
  q ← new_list l;
  let new_node := set_scheduled activate_at q new_node in
  add_node (apply_forced new_node) a.1 a.2 new_node.

Definition applyForcedChange (b : BlockInfo) (l : AuthorityList) (activate_at : Z) : act t (outcome unit) :=
  a ← ancestor_of b;
  let new_node := makeDescendant (data a.2) b false in
  TRY _ ← mret (ensureReadyToSchedule new_node);
  q ← new_list l;
  let new_node := if activate_at <=? block_number b then set_actual q new_node else set_forced activate_at q new_node in
  add_node (fun d => apply_resume new_node (apply_forced new_node d)) a.1 a.2 new_node.

Definition applyOnDisabled (b : BlockInfo) (authority_index : Z) : act t (outcome unit) :=
  a ← ancestor_of b;
  let new_node := makeDescendant (data a.2) b false in
  known ← lift (deref_list (actual_authorities (data a.2)));
  if Z.of_nat (length known) <=? authority_index then mret (Err (authority_update_error WRONG_AUTHORITY_INDEX)) else
  l ← lift (deref_list (actual_authorities new_node));
  x ← lift (ok_or undefined_behaviour (l !! Z.to_nat authority_index));
  q ← new_list (<[Z.to_nat authority_index := (x.1, 0)]> l);
  let new_node := set_actual q new_node in
  add_node (fun d => if same_ptr (actual_authorities d) (actual_authorities (data a.2)) then set_actual q d else d) a.1 a.2 new_node.

Definition applyPause (b : BlockInfo) (activate_at : Z) : act t (outcome unit) :=
  a ← ancestor_of b;
  let new_node := makeDescendant (data a.2) b false in
  TRY _ ← mret (ensureReadyToSchedule new_node);
  add_node (fun d => d) a.1 a.2 (set_pause activate_at new_node).

Definition applyResume (b : BlockInfo) (activate_at : Z) : act t (outcome unit) :=
  a ← ancestor_of b;
  let new_node := makeDescendant (data a.2) b false in
  TRY _ ← mret (ensureReadyToSchedule new_node);
  let new_node := set_resume activate_at new_node in
  add_node (fun d => apply_resume new_node (apply_forced new_node d)) a.1 a.2 new_node.

Definition onVerification (engine_id : bytes) (b : BlockInfo) (message : Verification) : act t (outcome unit) :=
  if decide (engine_id ∉ known_engines) then mret (Err (authority_manager_error UNKNOWN_ENGINE_ID)) else
  match message with
  | ScheduledChange l n => applyScheduledChange b l (u64 (block_number b + n))
  | ForcedChange l n => applyForcedChange b l (u64 (block_number b + n))
  | OnDisabled i => applyOnDisabled b i
  | Pause n => applyPause b (u64 (block_number b + n))
  | Resume n => applyResume b (u64 (block_number b + n))
  | UnusedMessage => mret (Err (authority_update_error UNSUPPORTED_MESSAGE_TYPE))
  end.

(** The children below the finalized block stay, the others are dropped. *)
Fixpoint below (b : BlockInfo) (l : list (option ScheduleNode)) : outcome (list (option ScheduleNode)) :=
  match l with
  | [] => Ok []
  | None :: _ => Err undefined_behaviour
  | Some c :: l' => r ← below b l'; Ok (if directChainExists b (block (data c)) then Some c :: r else r)
  end.

Definition store_root : act t (outcome unit) :=
  r ← root;
  match encode_node r with
  | Err e => mret (Err e)
  | Ok b =>
      s ← gets (fun s => s);
      let '(res, d) := db_Put SCHEDULER_TREE b (storage_ s) in
      modify (fun s => mk (root_ s) d (next_address s));;
      mret res
  end.

Definition onFinalize (b : BlockInfo) : act t (outcome unit) :=
  r ← root;
  if decide (b = block (data r)) then mret (Ok tt) else
  if block_number b <? block_number (block (data r)) then mret (Err (authority_manager_error WRONG_FINALISATION_ORDER)) else
  a ← ancestor_of b;
  let new_node := makeDescendant (data a.2) b true in
  l ← lift (below b (descendants a.2));
  modify (set_root (Node new_node l));;
  store_root.

(** Addresses for the lists of a decoded tree. *)
Definition fresh_ptr (p : list_ptr) (k : nat) : list_ptr * nat :=
  match p with Some x => (Some (k, x.2), S k) | None => (None, k) end.

Definition fresh_schedule (d : schedule) (k : nat) : schedule * nat :=
  let '(a, k) := fresh_ptr (actual_authorities d) k in
  let '(s, k) := fresh_ptr (scheduled_authorities d) k in
  let '(f, k) := fresh_ptr (forced_authorities d) k in
  (mkSchedule (block d) a (enabled d) (scheduled_after d) s (forced_for d) f (pause_after d) (resume_for d), k).

Fixpoint fresh_node (n : ScheduleNode) (k : nat) : ScheduleNode * nat :=
  match n with
  | Node d l =>
      let '(d, k) := fresh_schedule d k in
      let '(l, k) := (fix fresh_list (l : list (option ScheduleNode)) (k : nat) : list (option ScheduleNode) * nat :=
        match l with
        | [] => ([], k)
        | None :: l' => let '(l', k) := fresh_list l' k in (None :: l', k)
        | Some c :: l' => let '(c, k) := fresh_node c k in let '(l', k) := fresh_list l' k in (Some c :: l', k)
        end) l k in
      (Node d l, k)
  end.

Definition prepare (genesis_authorities : AuthorityList) : act t bool :=
  st ← gets storage_;
  match db_Get SCHEDULER_TREE st with
  | Err _ =>
      q ← new_list genesis_authorities;
      modify (set_root (Node (set_actual q (new_schedule (mkInfo 0 zero_hash))) []));;
      mret true
  | Ok b =>
      match decode_node max_size (S (length b)) b with
      | Err out_of_fuel => lift (Err out_of_fuel)
      | Err undefined_behaviour => lift (Err undefined_behaviour)
      | Err _ => mret false
      | Ok (n, _) =>
          s ← gets (fun s => s);
          let '(n, k) := fresh_node n (next_address s) in
          modify (fun s => mk (Some n) (storage_ s) k);;
          mret true
      end
  end.

(** The result of storing is only logged. *)
Definition stop : act t unit :=
  s ← gets root_;
  match s with
  | None => mret tt
  | Some _ => _ ← store_root; mret tt
  end.

End manager.
End AuthorityManagerImpl.
