(* ===== verification/AuthorityTimeline.v ===== *)
(** * Changes of the authorities along a chain

    As long as changes arrive along one chain, the tree of the manager is a chain,
    its search finds the last recorded block above the one in question, and the
    changes take effect where they should.  [directChainExists] is used through
    two facts only, which [BlockTreeProps] shows of the block tree.

    What the manager of the authorities promises, as a list of dated entries, and
    the proof that [AuthorityManagerImpl] keeps it for changes and finalizations
    along one chain: a forced change and a resumption take effect at their block, a
    scheduled change and a pause with the first finalized block that is far
    enough, and a change is refused while one is outstanding.  The manager keeps a
    tree of nodes and computes the answers from the last recorded one. *)

From S2P Require Import Prelude Scale BlockStorage Votes Authority.
Import AuthorityManagerImpl.

Open Scope Z_scope.

Section chain.
Context `{!DirectChain} {DB : Type} `{!KeyValueDB DB}.

Notation manager := (@t DB).
Implicit Type s : manager.

Definition at_or_below (a b : BlockInfo) : bool := bool_decide (a = b) || directChainExists a b.

(** ** Trees that are chains *)

Fixpoint chain_tree (d : schedule) (l : list schedule) : ScheduleNode :=
  Node d (match l with [] => [] | e :: l' => [Some (chain_tree e l')] end).

(** How far down the chain the search goes. *)
Fixpoint steps_to (b : BlockInfo) (d : schedule) (l : list schedule) : nat :=
  if decide (block d = b) then 0 else
  match l with
  | [] => 0
  | e :: l' => if at_or_below (block e) b then S (steps_to b e l') else 0
  end.

Lemma steps_bound b d l : (steps_to b d l <= length l)%nat.
Proof.
  revert d. induction l as [|e l IH]; intros d; cbn; case_decide; try lia. destruct (at_or_below _ _); [|lia].
  specialize (IH e). lia.
Qed.

Lemma ancestor_path_chain b d l : ancestor_path b (chain_tree d l) = Ok (replicate (steps_to b d l) 0%nat).
Proof.
  revert d. induction l as [|e l IH]; intros d; cbn; case_decide; try done.
  replace (data (chain_tree e l)) with e by (by destruct l). fold (at_or_below (block e) b).
  destruct (at_or_below _ _); [|done]. by rewrite IH.
Qed.

Lemma node_at_chain k d l : (k <= length l)%nat -> exists e, (d :: l) !! k = Some e /\
  node_at (replicate k 0%nat) (chain_tree d l) = Some (chain_tree e (drop k l)).
Proof.
  revert d l. induction k as [|k IH]; intros d l Hk; [by exists d|]. destruct l as [|e l]; cbn in Hk; [lia|].
  destruct (IH e l) as (x & Hx & Hn); [lia|]. by exists x.
Qed.

Fixpoint tip (d : schedule) (l : list schedule) : schedule := match l with [] => d | e :: l' => tip e l' end.

Lemma tip_lookup d l : (d :: l) !! length l = Some (tip d l).
Proof. revert d. induction l as [|e l IH]; intros d; [done|apply IH]. Qed.

Lemma tip_app d l e : tip d (l ++ [e]) = e.
Proof. revert d. induction l as [|x l IH]; intros d; [done|apply IH]. Qed.

Lemma update_at_tip d l e : update_at (replicate (length l) 0%nat) (Node (tip d l) [Some (Node e [])]) (chain_tree d l) =
  chain_tree d (l ++ [e]).
Proof.
  revert d. induction l as [|x l IH]; intros d; [done|]. cbn [length replicate update_at chain_tree data descendants app tip].
  cbn [alter list_alter fmap option_fmap option_map]. by rewrite IH.
Qed.

(** ** Managers that hold a chain *)

(** Every recorded block is below the one before. *)
Fixpoint descending (d : schedule) (l : list schedule) : Prop :=
  match l with [] => True | e :: l' => directChainExists (block d) (block e) = true /\ descending e l' end.

Definition holds_chain s (d : schedule) (l : list schedule) : Prop := root_ s = Some (chain_tree d l) /\ descending d l.

(** [b] is below every recorded block. *)
Definition beyond (b : BlockInfo) (d : schedule) (l : list schedule) : Prop :=
  Forall (fun e => directChainExists (block e) b = true) (d :: l).

Lemma direct_number a b : directChainExists a b = true -> block_number a < block_number b.
Proof. unfold directChainExists. destruct (_ && _) eqn:E; [apply andb_true_iff in E as [_ E]; lia|]. intros [E' _]%andb_true_iff. lia. Qed.

Lemma direct_ne a b : directChainExists a b = true -> a <> b.
Proof. intros Hd%direct_number ->. lia. Qed.

Lemma beyond_steps b d l : beyond b d l -> steps_to b d l = length l.
Proof.
  revert d. induction l as [|e l IH]; intros d Hb; cbn; apply Forall_cons in Hb as [Hd Hb]; rewrite decide_False by (by apply direct_ne); [done|].
  unfold at_or_below. apply Forall_cons in Hb as [He Hb]. rewrite He, orb_true_r. f_equal. apply IH. by constructor.
Qed.

Lemma data_chain d l : data (chain_tree d l) = d.
Proof. by destruct l. Qed.

(** The search finds the last recorded block at or above the one in question. *)
Lemma ancestor_chain b s d l : holds_chain s d l ->
  exists e, (d :: l) !! steps_to b d l = Some e /\
    getAppropriateAncestor b s = Ok (if at_or_below (block d) b
      then Some (replicate (steps_to b d l) 0%nat, chain_tree e (drop (steps_to b d l) l)) else None, s).
Proof.
  intros [Hr _]. destruct (node_at_chain (steps_to b d l) d l (steps_bound b d l)) as (e & He & Hn). exists e. split; [done|].
  unfold getAppropriateAncestor, root, mbind, act_bind, gets, lift. rewrite Hr. cbn [ok_or option_bind]. rewrite data_chain.
  unfold at_or_below. destruct (bool_decide (block d = b)) eqn:Eb; cbn [negb orb andb].
  - apply bool_decide_eq_true in Eb. subst b. rewrite Z.ltb_irrefl. cbn. by rewrite ancestor_path_chain; cbn; rewrite Hn.
  - destruct (directChainExists (block d) b) eqn:Ed; cbn [negb].
    + apply direct_number in Ed. destruct (Z.ltb_spec (block_number b) (block_number (block d))); [lia|]. cbn.
      by rewrite ancestor_path_chain; cbn; rewrite Hn.
    + by rewrite orb_true_r.
Qed.

Lemma ancestor_tip b s d l : holds_chain s d l -> beyond b d l ->
  ancestor_of b s = Ok ((replicate (length l) 0%nat, Node (tip d l) []), s).
Proof.
  intros Hc Hb. destruct (ancestor_chain b s d l Hc) as (e & He & Ha). rewrite (beyond_steps b d l Hb) in He, Ha.
  rewrite tip_lookup in He. injection He as <-. unfold ancestor_of, mbind, act_bind. rewrite Ha.
  apply Forall_cons in Hb as [Hd _]. unfold at_or_below. rewrite Hd, orb_true_r, drop_all. done.
Qed.

(** Recording a change at the end of the chain. *)
Lemma add_node_tip f s d l e : holds_chain s d l -> directChainExists (block (tip d l)) (block e) = true ->
  exists s', add_node f (replicate (length l) 0%nat) (Node (tip d l) []) e s = Ok (Ok tt, s') /\ holds_chain s' d (l ++ [e]) /\
    storage_ s' = storage_ s /\ next_address s' = next_address s.
Proof.
  intros [Hr Hd] He. unfold add_node, root, mbind, act_bind, gets, lift, modify, mret, act_ret. cbn. rewrite Hr. cbn.
  eexists. split; [done|]. cbn. split_and!; [|done|done]. split; cbn; [by rewrite update_at_tip|].
  clear Hr. revert d Hd He. induction l as [|x l IH]; intros d Hd He; cbn in *; [done|]. destruct Hd as [? ?]. split; [done|]. by apply IH.
Qed.

End chain.

(** ** Who the authorities of a block are *)

Import AuthorityManagerImpl.


(** ** The specification *)

(** The authorities, and whether the engine is enabled. *)
Definition standing : Type := AuthorityList * bool.

Inductive pending : Type :=
  | PNone
  | PScheduled (a : Z) (l : AuthorityList)
  | PForced (a : Z) (l : AuthorityList)
  | PPause (a : Z)
  | PResume (a : Z).

(** The entries, newest first, with the block number they are in force from, and
    the last change. *)
Record history : Type := mkHistory { entries : list (Z * standing); last_change : pending }.

Fixpoint in_force (l : list (Z * standing)) (n : Z) : option standing :=
  match l with [] => None | (a, x) :: l' => if a <=? n then Some x else in_force l' n end.

(** The change that is outstanding at block number [n]. *)
Definition outstanding (p : pending) (n : Z) : pending :=
  match p with
  | PNone => PNone
  | PScheduled _ _ | PPause _ => p
  | PForced a _ | PResume a => if a <=? n then PNone else p
  end.

Definition refusal (p : pending) : option error :=
  match p with
  | PNone => None
  | PScheduled _ _ => Some (authority_update_error NO_SCHEDULED_CHANGE_APPLIED_YET)
  | PForced _ _ => Some (authority_update_error NO_FORCED_CHANGE_APPLIED_YET)
  | PPause _ => Some (authority_update_error NO_PAUSE_APPLIED_YET)
  | PResume _ => Some (authority_update_error NO_RESUME_APPLIED_YET)
  end.

(** A change of block [n] that finds [x] in force there. *)
Definition record_change (n : Z) (x : standing) (m : Verification) (h : history) : history :=
  match m with
  | ScheduledChange l k => mkHistory (entries h) (PScheduled (n + k) l)
  | ForcedChange l k =>
      if decide (k = 0) then mkHistory ((n, (l, x.2)) :: entries h) PNone
      else mkHistory ((n + k, (l, true)) :: entries h) (PForced (n + k) l)
  | Pause k => mkHistory (entries h) (PPause (n + k))
  | Resume k => mkHistory ((n + k, (x.1, true)) :: entries h) (PResume (n + k))
  | _ => h
  end.

Definition spec_change (n : Z) (m : Verification) (h : history) : outcome unit * history :=
  match refusal (outstanding (last_change h) n), in_force (entries h) n with
  | Some e, _ => (Err e, h)
  | None, Some x => (Ok tt, record_change n x m h)
  | None, None => (Ok tt, h)
  end.

Definition spec_finalize (n : Z) (h : history) : history :=
  match last_change h, in_force (entries h) n with
  | PScheduled a l, _ => if a <=? n then mkHistory ((n, (l, true)) :: entries h) PNone else h
  | PPause a, Some x => if a <=? n then mkHistory ((n, (x.1, false)) :: entries h) PNone else h
  | _, _ => h
  end.

(** While the engine is disabled the authorities have no weight. *)
Definition answer (x : standing) : AuthorityList := if x.2 then x.1 else (fun y => (y.1, 0)) <$> x.1.

(** ** What a node stands for *)

Definition mark : Type := standing * pending.

Definition descend (finalized : bool) (n : Z) (m : mark) : mark :=
  match m.2 with
  | PNone => m
  | PScheduled a l => if finalized && (a <=? n) then ((l, true), PNone) else m
  | PForced a l => if a <=? n then ((l, true), PNone) else m
  | PPause a => if finalized && (a <=? n) then ((m.1.1, false), PNone) else m
  | PResume a => if a <=? n then ((m.1.1, true), PNone) else m
  end.

Definition idle (d : schedule) : Prop := scheduled_after d = 0 /\ forced_for d = 0 /\ pause_after d = 0 /\ resume_for d = 0.

Definition pends (d : schedule) (p : pending) : Prop :=
  match p with
  | PNone => idle d
  | PScheduled a l => a <> 0 /\ scheduled_after d = a /\ snd <$> scheduled_authorities d = Some l /\
      forced_for d = 0 /\ pause_after d = 0 /\ resume_for d = 0
  | PForced a l => a <> 0 /\ forced_for d = a /\ snd <$> forced_authorities d = Some l /\
      scheduled_after d = 0 /\ pause_after d = 0 /\ resume_for d = 0
  | PPause a => a <> 0 /\ pause_after d = a /\ scheduled_after d = 0 /\ forced_for d = 0 /\ resume_for d = 0
  | PResume a => a <> 0 /\ resume_for d = a /\ scheduled_after d = 0 /\ forced_for d = 0 /\ pause_after d = 0
  end.

Definition stands_for (d : schedule) (m : mark) : Prop :=
  snd <$> actual_authorities d = Some m.1.1 /\ enabled d = m.1.2 /\ pends d m.2.

Ltac inactive := unfold INACTIVE in *; repeat (case_decide; try lia).

Lemma makeDescendant_block d b f : block (makeDescendant d b f) = b.
Proof. unfold makeDescendant. by repeat case_decide; repeat case_match. Qed.

Lemma descend_stands d m b f : stands_for d m -> stands_for (makeDescendant d b f) (descend f (block_number b) m).
Proof.
  destruct m as [[cur en] [|a l|a l|a|a]]; unfold stands_for, descend; cbn [fst snd]; intros (Ha & He & Hp); unfold pends, idle in Hp;
    unfold makeDescendant.
  - destruct Hp as (-> & -> & -> & ->). inactive. by cbn; unfold idle; cbn; split_and!.
  - destruct Hp as (Hn & -> & Hl & Hf & Hp & Hr). inactive. by destruct (f && _); cbn; unfold idle; cbn; split_and!.
  - destruct Hp as (Hn & -> & Hl & -> & Hp & Hr). inactive. by destruct (_ <=? _); cbn; unfold idle; cbn; split_and!.
  - destruct Hp as (Hn & -> & -> & -> & Hr). inactive. by destruct (f && _); cbn; unfold idle; cbn; split_and!.
  - destruct Hp as (Hn & -> & -> & -> & ->). inactive. by destruct (_ <=? _); cbn; unfold idle; cbn; split_and!.
Qed.

Lemma ready_outcome d m : stands_for d m -> ensureReadyToSchedule d = match refusal m.2 with Some e => Err e | None => Ok tt end.
Proof.
  destruct m as [x [|a l|a l|a|a]]; intros (_ & _ & Hp); unfold pends, idle in Hp; cbn [snd] in Hp; unfold ensureReadyToSchedule; cbn [refusal snd].
  - destruct Hp as (-> & -> & -> & ->). by inactive.
  - destruct Hp as (? & -> & _). by inactive.
  - destruct Hp as (? & -> & _ & -> & _). by inactive.
  - destruct Hp as (? & -> & -> & -> & _). by inactive.
  - destruct Hp as (? & -> & -> & -> & ->). by inactive.
Qed.

(** Going down in two steps is going down at once. *)
Lemma descend_twice n n' m : n <= n' -> descend false n' (descend false n m) = descend false n' m.
Proof.
  intros Hn. destruct m as [x [|a l|a l|a|a]]; cbn; try done; destruct (Z.leb_spec a n); cbn; try done;
    destruct (Z.leb_spec a n'); done || lia.
Qed.

Definition waits_for_finality (p : pending) : bool := match p with PScheduled _ _ | PPause _ => true | _ => false end.

Lemma descend_final n m : waits_for_finality m.2 = false -> descend true n m = descend false n m.
Proof. by destruct m as [x []]. Qed.

(** ** The tree of the manager against the entries *)

Section timeline.
Context `{!DirectChain} {DB : Type} `{!KeyValueDB DB}.

(** The blocks of one chain. *)
Context (path : BlockInfo -> Prop).
Hypothesis linear : forall a b, path a -> path b -> a = b \/ directChainExists a b = true \/ directChainExists b a = true.

Notation manager := (@t DB).
Implicit Types (s : manager) (h : history) (m : mark) (d e : schedule).

Notation number d := (block_number (block d)).

(** Each node explains the numbers up to the next one, and the last node all that
    follow, with the outstanding change. *)
Fixpoint explained h d m (l : list (schedule * mark)) : Prop :=
  stands_for d m /\ path (block d) /\ descend false (number d) m = m /\
  match l with
  | [] => (forall n, number d <= n -> in_force (entries h) n = Some (descend false n m).1 /\
             outstanding (last_change h) n = (descend false n m).2) /\
          (match last_change h with PScheduled a _ | PPause a => number d <= a | _ => True end)
  | (e, m') :: l' => waits_for_finality m.2 = false /\ number d < number e /\
      (forall n, number d <= n < number e -> in_force (entries h) n = Some (descend false n m).1) /\ explained h e m' l'
  end.

Lemma explained_head h d m l : explained h d m l -> stands_for d m /\ path (block d) /\ descend false (number d) m = m.
Proof. destruct l as [|[]]; cbn; tauto. Qed.

Lemma path_direct a b : path a -> path b -> block_number a < block_number b -> directChainExists a b = true.
Proof. intros Ha Hb Hn. destruct (linear a b Ha Hb) as [->|[Hq|Hq%direct_number]]; [lia|done|lia]. Qed.

Lemma path_at_or_below a b : path a -> path b -> at_or_below a b = (block_number a <=? block_number b).
Proof.
  intros Ha Hb. unfold at_or_below. destruct (Z.leb_spec (block_number a) (block_number b)) as [Hn|Hn].
  - destruct (linear a b Ha Hb) as [->|[->|Hq%direct_number]]; [by rewrite bool_decide_true|apply orb_true_r|lia].
  - apply orb_false_iff. split; [apply bool_decide_false; intros ->; lia|].
    apply not_true_is_false. intros Hq%direct_number. lia.
Qed.

Definition tip_of d (l : list (schedule * mark)) : schedule := tip d l.*1.

(** The search ends at the node that explains the number of the block. *)
Lemma search_explained h d m l c : explained h d m l -> path c -> number d <= block_number c ->
  exists e m' l', node_at (replicate (steps_to c d l.*1) 0%nat) (chain_tree d l.*1) = Some (chain_tree e l'.*1) /\
    explained h e m' l' /\ number e <= block_number c /\ match l' with [] => True | x :: _ => block_number c < number x.1 end /\
    tip_of e l' = tip_of d l.
Proof.
  revert d m. induction l as [|[e m'] l IH]; intros d m Hx Hc Hn; cbn [fmap list_fmap steps_to fst].
  - exists d, m, []. by case_decide.
  - assert (path (block d)) as Hd by (by apply explained_head in Hx as (_ & ? & _)).
    pose proof Hx as (_ & _ & _ & _ & Hlt & _ & He). assert (path (block e)) as He' by (by apply explained_head in He as (_ & ? & _)).
    case_decide as Eb.
    { exists d, m, ((e, m') :: l). subst c. split; [done|]. split; [exact Hx|]. cbn. split_and!; [lia|lia|done]. }
    rewrite path_at_or_below by done. destruct (Z.leb_spec (number e) (block_number c)).
    + destruct (IH e m' He Hc) as (x & mx & lx & Hnode & ?); [lia|]. exists x, mx, lx. split; [exact Hnode|done].
    + exists d, m, ((e, m') :: l). split; [done|]. split; [exact Hx|]. cbn. split_and!; [lia|lia|done].
Qed.

(** What the manager holds: the entries, the number of the last finalized block and
    that of the last recorded one. *)
Definition keeps s h (fin last : Z) : Prop := exists d m l, root_ s = Some (chain_tree d l.*1) /\ explained h d m l /\
  number d = fin /\ number (tip_of d l) = last /\ match last_change h with PScheduled a _ | PPause a => fin < a | _ => True end.

Lemma ancestor_explained s h d m l c : root_ s = Some (chain_tree d l.*1) -> explained h d m l -> path c -> number d <= block_number c ->
  exists p e m' l', getAppropriateAncestor c s = Ok (Some (p, chain_tree e l'.*1), s) /\
    explained h e m' l' /\ number e <= block_number c /\ match l' with [] => True | x :: _ => block_number c < number x.1 end /\
    tip_of e l' = tip_of d l.
Proof.
  intros Hr Hx Hc Hn. destruct (search_explained h d m l c Hx Hc Hn) as (e & m' & l' & Hnode & Hrest).
  exists (replicate (steps_to c d l.*1) 0%nat), e, m', l'. split; [|done].
  assert (path (block d)) as Hd by (by apply explained_head in Hx as (_ & ? & _)).
  pose proof (path_at_or_below (block d) c Hd Hc) as Hab. unfold at_or_below in Hab.
  unfold getAppropriateAncestor, root, mbind, act_bind, gets, lift. rewrite Hr. cbn [ok_or]. rewrite data_chain.
  rewrite (proj2 (Z.ltb_ge _ _)) by lia. rewrite (proj2 (Z.leb_le _ _) Hn) in Hab. rewrite <- negb_orb, Hab. cbn.
  by rewrite ancestor_path_chain; cbn; rewrite Hnode.
Qed.

(** The answer of the manager is what is in force. *)
Lemma authorities_in_force s h fin last c : keeps s h fin last -> path c -> fin <= block_number c ->
  exists x q s', in_force (entries h) (block_number c) = Some x /\ authorities c s = Ok (Ok (Some q), s') /\ q.2 = answer x /\ root_ s' = root_ s.
Proof.
  intros (d & m & l & Hr & Hx & <- & _ & _) Hc Hn.
  destruct (ancestor_explained s h d m l c Hr Hx Hc Hn) as (p & e & m' & l' & Ha & He & Hle & Hlt & _).
  assert (in_force (entries h) (block_number c) = Some (descend false (block_number c) m').1) as Hin.
  { destruct l' as [|[e' me] l']; cbn in He; [by apply He|apply He; cbn in Hlt; lia]. }
  destruct (explained_head _ _ _ _ He) as (Hs & _ & Hid).
  assert (stands_for (if decide (block e = c) then e else makeDescendant e c false) (descend false (block_number c) m')) as (Hact & Hen & _).
  { case_decide; [subst c; by rewrite Hid|by apply descend_stands]. }
  destruct (descend false (block_number c) m') as [[cur en] p']. cbn in Hin, Hact, Hen.
  apply fmap_Some in Hact as ((a & cur') & Hact & Hcur). cbn in Hcur. subst cur'.
  exists (cur, en). unfold authorities, mbind, act_bind. rewrite Ha, data_chain. cbv zeta. rewrite Hen, Hact.
  destruct en; eexists _, _; split_and!; done.
Qed.

(** *** Recording a change *)

Lemma tip_explained h d m l : explained h d m l -> exists mt, explained h (tip_of d l) mt [] /\ number d <= number (tip_of d l).
Proof.
  revert d m. induction l as [|[e m'] l IH]; intros d m Hx; [by exists m|].
  destruct Hx as (_ & _ & _ & _ & Hlt & _ & He). destruct (IH e m' He) as (mt & Ht & Hle). exists mt. split; [exact Ht|].
  change (tip_of d ((e, m') :: l)) with (tip_of e l). lia.
Qed.

Lemma explained_descending h d m l : explained h d m l -> descending d l.*1.
Proof.
  revert d m. induction l as [|[e m'] l IH]; intros d m Hx; [done|]. pose proof Hx as (_ & Hd & _ & _ & Hlt & _ & He).
  split; [|by eapply IH]. apply path_direct; [done|by apply explained_head in He as (_ & ? & _)|done].
Qed.

Lemma explained_beyond h d m l b : explained h d m l -> path b -> number (tip_of d l) < block_number b -> beyond b d l.*1.
Proof.
  revert d m. induction l as [|[e m'] l IH]; intros d m Hx Hb Hn.
  - constructor; [|done]. apply path_direct; [apply Hx|done|done].
  - pose proof Hx as (_ & Hd & _ & _ & Hlt & _ & He). specialize (IH e m' He Hb Hn). constructor; [|done].
    apply path_direct; [done|done|]. destruct (tip_explained _ _ _ _ He) as (_ & _ & Hle).
    change (tip_of d ((e, m') :: l)) with (tip_of e l) in Hn. lia.
Qed.

Definition stays_open h d m : Prop := (forall n, number d <= n -> in_force (entries h) n = Some (descend false n m).1 /\
    outstanding (last_change h) n = (descend false n m).2) /\
  (match last_change h with PScheduled a _ | PPause a => number d <= a | _ => True end).

Lemma extend_explained h h' d m l e m' : explained h d m l -> stands_for e m' -> path (block e) -> descend false (number e) m' = m' ->
  number (tip_of d l) < number e -> outstanding (last_change h) (number e) = PNone ->
  (forall n, n < number e -> in_force (entries h') n = in_force (entries h) n) -> stays_open h' e m' ->
  explained h' d m (l ++ [(e, m')]).
Proof.
  intros Hx Hs He Hid Hn Ho Hsame [Hopen ?]. revert d m Hx Hn. induction l as [|[c mc] l IH]; intros d m Hx Hn.
  - destruct Hx as (? & ? & ? & Hall & _). cbn. change (tip_of d []) with d in Hn. split_and!; try done.
    + destruct (Hall (number e)) as [_ Ho']; [lia|]. rewrite Ho in Ho'. by destruct m as [x []].
    + intros n Hnn. rewrite Hsame by lia. apply Hall. lia.
  - change (tip_of d ((c, mc) :: l)) with (tip_of c l) in Hn. destruct Hx as (? & ? & ? & ? & Hlt & Hall & Hc).
    destruct (tip_explained _ _ _ _ Hc) as (_ & _ & Hle). cbn [app explained]. split_and!; try done.
    + intros n Hnn. rewrite Hsame by lia. by apply Hall.
    + by apply IH.
Qed.

(** The node for a new block, before the change, and what is in force from there. *)
Lemma new_node_stands h d mt b : explained h d mt [] -> number d < block_number b ->
  exists x, stands_for (makeDescendant d b false) (x, outstanding (last_change h) (block_number b)) /\
    in_force (entries h) (block_number b) = Some x /\
    (outstanding (last_change h) (block_number b) = PNone -> forall n, block_number b <= n -> in_force (entries h) n = Some x /\ outstanding (last_change h) n = PNone).
Proof.
  intros (Hs & _ & _ & Hall & _) Hn. exists (descend false (block_number b) mt).1. destruct (Hall (block_number b)) as [Hi Ho]; [lia|].
  split_and!; [|done|].
  - rewrite Ho, <- surjective_pairing. by apply descend_stands.
  - intros Hnone n Hle. destruct (Hall n) as [Hi' Ho']; [lia|]. rewrite Hi', Ho', <- (descend_twice _ _ _ Hle).
    rewrite Ho in Hnone. by destruct (descend false (block_number b) mt) as [x p]; cbn in Hnone |- *; subst p.
Qed.

Definition delay (msg : Verification) : option Z :=
  match msg with ScheduledChange _ k | ForcedChange _ k | Pause k => Some k | Resume k => if decide (k = 0) then None else Some k | _ => None end.

(** The messages of the theorem: a resumption has a delay. *)
Definition proper_message (b : BlockInfo) (msg : Verification) : Prop :=
  0 < block_number b /\ match delay msg with Some k => 0 <= k /\ is_u64 (block_number b + k) | None => False end.

(** The node that records an accepted change. *)
Definition changed (msg : Verification) (k : nat) (d : schedule) : schedule :=
  match msg with
  | ScheduledChange l n => set_scheduled (number d + n) (Some (k, l)) d
  | ForcedChange l n => if decide (n = 0) then set_actual (Some (k, l)) d else set_forced (number d + n) (Some (k, l)) d
  | Pause n => set_pause (number d + n) d
  | Resume n => set_resume (number d + n) d
  | _ => d
  end.

Definition changed_mark (n : Z) (msg : Verification) (x : standing) : mark :=
  match msg with
  | ScheduledChange l k => (x, PScheduled (n + k) l)
  | ForcedChange l k => if decide (k = 0) then ((l, x.2), PNone) else (x, PForced (n + k) l)
  | Pause k => (x, PPause (n + k))
  | Resume k => (x, PResume (n + k))
  | _ => (x, PNone)
  end.

Lemma changed_block msg k d : block (changed msg k d) = block d.
Proof. destruct msg; cbn; try done. by case_decide. Qed.

Lemma changed_stands msg k d x b : block d = b -> proper_message b msg -> stands_for d (x, PNone) ->
  stands_for (changed msg k d) (changed_mark (block_number b) msg x).
Proof.
  intros <- [Hb Hm] (Ha & He & Hs & Hf & Hp & Hr). destruct msg; cbn in Hm |- *; try done; try case_decide; cbn in Hm; try done;
    unfold stands_for; cbn; unfold idle; cbn; split_and!; done || lia.
Qed.

Lemma record_open h b msg x : proper_message b msg -> in_force (entries h) (block_number b) = Some x ->
  (forall n, block_number b <= n -> in_force (entries h) n = Some x /\ outstanding (last_change h) n = PNone) ->
  let h' := record_change (block_number b) x msg h in
  (forall n, n < block_number b -> in_force (entries h') n = in_force (entries h) n) /\
  (forall n, block_number b <= n -> in_force (entries h') n = Some (descend false n (changed_mark (block_number b) msg x)).1 /\
     outstanding (last_change h') n = (descend false n (changed_mark (block_number b) msg x)).2) /\
  (match last_change h' with PScheduled a _ | PPause a => block_number b <= a | _ => True end) /\
  descend false (block_number b) (changed_mark (block_number b) msg x) = changed_mark (block_number b) msg x.
Proof.
  intros [Hb Hm] Hx Hall h'. subst h'. destruct msg as [|l k|l k| |k|k]; cbn in Hm |- *; try done; try case_decide; cbn in Hm |- *; try done.
  - split_and!; [done|intros n Hn; split; [by apply Hall|done]|lia|done].
  - split_and!; [|intros n Hn; by rewrite (proj2 (Z.leb_le _ _) Hn)|done|done].
    intros n Hn. by rewrite (proj2 (Z.leb_gt _ _) Hn).
  - split_and!; [| |done|by rewrite (proj2 (Z.leb_gt _ _)) by lia].
    + intros n Hn. by rewrite (proj2 (Z.leb_gt _ _)) by lia.
    + intros n Hn. destruct (Z.leb_spec (block_number b + k) n); [done|]. split; [by apply Hall|done].
  - split_and!; [done|intros n Hn; split; [by apply Hall|done]|lia|done].
  - split_and!; [| |done|by rewrite (proj2 (Z.leb_gt _ _)) by lia].
    + intros n Hn. by rewrite (proj2 (Z.leb_gt _ _)) by lia.
    + intros n Hn. destruct (Z.leb_spec (block_number b + k) n); [done|]. split; [by apply Hall|done].
Qed.

Lemma onVerification_outcome engine b msg s p n : engine ∈ known_engines -> proper_message b msg -> ancestor_of b s = Ok ((p, n), s) ->
  exists f s', root_ s' = root_ s /\ onVerification engine b msg s =
    let new_node := makeDescendant (data n) b false in
    match ensureReadyToSchedule new_node with
    | Err e => Ok (Err e, s)
    | Ok _ => add_node f p n (changed msg (next_address s) new_node) s'
    end.
Proof.
  intros He [Hb Hm] Ha. unfold onVerification. rewrite decide_False by (intros Hno; by apply Hno).
  destruct msg as [|l k|l k| |k|k]; cbn [delay] in Hm; try done; try (case_decide; [done|]); destruct Hm as [Hk Hu]; rewrite (u64_id _ Hu);
    unfold applyScheduledChange, applyForcedChange, applyPause, applyResume, mbind, act_bind; rewrite Ha; cbv zeta; cbn [fst snd changed];
    rewrite makeDescendant_block.
  - eexists (apply_forced _), (mk (root_ s) (storage_ s) (S (next_address s))). split; [done|].
    unfold try, mbind, act_bind, mret, act_ret. cbn. by destruct (ensureReadyToSchedule _).
  - destruct (decide (k = 0)) as [Hz|Hz]; [rewrite (proj2 (Z.leb_le _ _)) by lia|rewrite (proj2 (Z.leb_gt _ _)) by lia];
    (eexists (fun d => apply_resume _ (apply_forced _ d)), (mk (root_ s) (storage_ s) (S (next_address s))); split; [done|];
     unfold try, mbind, act_bind, mret, act_ret; cbn; by destruct (ensureReadyToSchedule _)).
  - eexists (fun d => d), s. split; [done|]. unfold try, mbind, act_bind, mret, act_ret. cbn. by destruct (ensureReadyToSchedule _).
  - eexists (fun d => apply_resume _ (apply_forced _ d)), s. split; [done|].
    unfold try, mbind, act_bind, mret, act_ret. cbn. by destruct (ensureReadyToSchedule _).
Qed.

Definition recorded (r : outcome unit) (n last : Z) : Z := match r with Ok _ => n | Err _ => last end.

Lemma message_kept engine b msg s h fin last : engine ∈ known_engines -> keeps s h fin last -> path b -> last < block_number b -> proper_message b msg ->
  let '(r, h') := spec_change (block_number b) msg h in
  exists s', onVerification engine b msg s = Ok (r, s') /\ keeps s' h' fin (recorded r (block_number b) last).
Proof.
  intros He (d & m & l & Hr & Hx & Hfin & Hlast & Hw) Hb Hn Hm. subst last.
  destruct (tip_explained _ _ _ _ Hx) as (mt & Ht & Hle). destruct (new_node_stands _ _ _ _ Ht Hn) as (x & Hnew & Hi & Hall).
  assert (holds_chain s d l.*1) as Hc by (split; [done|by eapply explained_descending]).
  pose proof (explained_beyond _ _ _ _ _ Hx Hb Hn) as Hbey. pose proof (ancestor_tip _ _ _ _ Hc Hbey) as Ha.
  destruct (onVerification_outcome _ _ _ _ _ _ He Hm Ha) as (f & s1 & Hroot & ->). cbn [data]. fold (tip_of d l).
  rewrite (ready_outcome _ _ Hnew). unfold spec_change. rewrite Hi. cbn [snd].
  destruct (refusal _) as [err|] eqn:Eo; [eexists; split; [done|]; by exists d, m, l|].
  assert (outstanding (last_change h) (block_number b) = PNone) as Hnone by (by destruct (outstanding _ _)).
  specialize (Hall Hnone). rewrite Hnone in Hnew. destruct (record_open h b msg x Hm Hi Hall) as (Hold & Hopen & Hwait & Hid).
  set (e := changed msg (next_address s) (makeDescendant (tip_of d l) b false)).
  assert (block e = b) as Heb by (unfold e; by rewrite changed_block, makeDescendant_block).
  destruct (add_node_tip f s1 d l.*1 e) as (s2 & Hadd & [Hr2 _] & _).
  { split; [by rewrite Hroot|apply Hc]. }
  { rewrite Heb. apply path_direct; [|done|done]. by apply explained_head in Ht as (_ & ? & _). }
  rewrite length_fmap in Hadd. rewrite length_fmap. exists s2. split; [exact Hadd|].
  exists d, m, (l ++ [(e, changed_mark (block_number b) msg x)]). rewrite fmap_app. split_and!; [done| |done| |].
  - eapply extend_explained; rewrite ?Heb; try done.
    + apply changed_stands; [by rewrite makeDescendant_block|done..].
    + by split; rewrite Heb.
  - unfold tip_of. rewrite fmap_app. cbn [fmap list_fmap fst]. by rewrite tip_app, Heb.
  - clear -Hwait Hn Hle Hfin. destruct (last_change (record_change _ _ _ _)); done || lia.
Qed.

(** *** Finalizing a block *)

Lemma store_root_keeps s n : root_ s = Some n -> exists r s', store_root s = Ok (r, s') /\ root_ s' = Some n.
Proof.
  intros Hr. unfold store_root, root, mbind, act_bind, gets, lift, modify, mret, act_ret. rewrite Hr. cbn.
  destruct (encode_node n); [|by eauto]. cbn. destruct (db_Put _ _ _) as [r db]. cbn. eauto.
Qed.

Lemma finalize_idle n h : match last_change h with PScheduled a _ | PPause a => n < a | _ => True end -> spec_finalize n h = h.
Proof.
  unfold spec_finalize. destruct (last_change h); try done; intros Hn; rewrite (proj2 (Z.leb_gt _ _)) by lia; [done|by case_match].
Qed.

(** The change that waits takes effect with the block, for the node of the block
    and for the entries. *)
Lemma finalize_open h d m b : explained h d m [] -> number d <= block_number b ->
  let h' := spec_finalize (block_number b) h in let m' := descend true (block_number b) m in
  (forall n, block_number b <= n -> in_force (entries h') n = Some (descend false n m').1 /\ outstanding (last_change h') n = (descend false n m').2) /\
  match last_change h' with PScheduled a _ | PPause a => block_number b < a | _ => True end.
Proof.
  intros (_ & _ & _ & Hall & _) Hb h' m'. destruct (waits_for_finality m.2) eqn:Ew.
  - destruct (Hall (block_number b) Hb) as [Hi Ho]. destruct m as [x [|a l|a l|a|a]]; try done; cbn in Hi, Ho; subst h' m'; unfold spec_finalize, descend; cbn [fst snd andb];
      destruct (last_change h) eqn:El; cbn in Ho; try done; try (by case_match); injection Ho as ->; subst; rewrite ?Hi;
      destruct (Z.leb_spec a (block_number b)); cbn [fst snd entries last_change].
    + split; [|done]. intros n Hn. cbn. by rewrite (proj2 (Z.leb_le _ _) Hn).
    + rewrite El. split; [|done]. intros n Hn. apply Hall. lia.
    + split; [|done]. intros n Hn. cbn. by rewrite (proj2 (Z.leb_le _ _) Hn).
    + rewrite El. split; [|done]. intros n Hn. apply Hall. lia.
  - assert (waits_for_finality (last_change h) = false) as Hw.
    { destruct (Hall (number d)) as [_ Ho]; [lia|]. clear -Ho Ew. destruct m as [x p], (last_change h); try done;
        unfold descend in Ho; cbn in Ho, Ew; destruct p; cbn in Ho; try done; by case_match. }
    subst h' m'. rewrite descend_final by done. rewrite finalize_idle by (by destruct (last_change h)).
    split; [|by destruct (last_change h)]. intros n Hn. rewrite descend_twice by done. apply Hall. lia.
Qed.

Lemma descend_idem fin n m : descend false n (descend fin n m) = descend fin n m.
Proof.
  destruct m as [x [|a l|a l|a|a]]; try done; unfold descend; cbn.
  - by destruct (fin && _).
  - by destruct (Z.leb_spec a n); cbn; [|rewrite (proj2 (Z.leb_gt _ _)) by lia].
  - by destruct (fin && _).
  - by destruct (Z.leb_spec a n); cbn; [|rewrite (proj2 (Z.leb_gt _ _)) by lia].
Qed.

(** The new root explains the numbers from the block on. *)
Lemma finalize_explained h d m l b : explained h d m l -> path b -> number d <= block_number b ->
  match l with [] => True | x :: _ => block_number b < number x.1 end ->
  let h' := spec_finalize (block_number b) h in
  explained h' (makeDescendant d b true) (descend true (block_number b) m) l /\
  match last_change h' with PScheduled a _ | PPause a => block_number b < a | _ => True end.
Proof.
  intros Hx Hb Hn Hl h'. destruct (explained_head _ _ _ _ Hx) as (Hs & Hd & _).
  pose proof (descend_stands d m b true Hs) as Hs'. destruct l as [|[e m'] l].
  - destruct (finalize_open h d m b Hx Hn) as [Hall Hw]. split; [|done]. cbn. rewrite makeDescendant_block. split_and!; [done|done|apply descend_idem|done|].
    revert Hw. fold h'. destruct (last_change h'); done || lia.
  - cbn in Hl. destruct Hx as (_ & _ & _ & Hwait & Hlt & Hall & He). destruct (tip_explained _ _ _ _ He) as (mt & (_ & _ & _ & _ & Hw) & Hle).
    assert (match last_change h with PScheduled a _ | PPause a => block_number b < a | _ => True end) as Hw'.
    { revert Hw. destruct (last_change h); done || lia. }
    subst h'. rewrite (finalize_idle _ _ Hw'). split; [|done]. cbn [explained]. rewrite makeDescendant_block, descend_final by done.
    rewrite descend_final in Hs' by done. split_and!; [done|done|apply descend_idem| |lia| |done].
    + destruct m as [x [|a l'|a l'|a|a]]; try done; unfold descend; cbn; by destruct (_ <=? _).
    + intros n Hnn. rewrite descend_twice by lia. apply Hall. lia.
Qed.

Lemma below_chain b d e (l : list (schedule * mark)) : path b ->
  (match l with [] => True | x :: _ => path (block x.1) /\ block_number b < number x.1 end) ->
  below b (descendants (chain_tree d l.*1)) = Ok (descendants (chain_tree e l.*1)).
Proof.
  intros Hb Hl. destruct l as [|[x mx] l]; [done|]. destruct Hl as [Hx Hn]. cbn in Hx, Hn |- *.
  by rewrite data_chain, (path_direct b (block x)).
Qed.

Lemma tip_number h d m l : explained h d m l -> number d <= number (tip_of d l).
Proof. intros Hx. by destruct (tip_explained _ _ _ _ Hx) as (_ & _ & ?). Qed.

Lemma root_ok s n : root_ s = Some n -> root s = Ok (n, s).
Proof. intros Hr. unfold root, mbind, act_bind, gets, lift. by rewrite Hr. Qed.

Lemma finalize_kept s h fin last b : keeps s h fin last -> path b -> fin <= block_number b ->
  exists r s', onFinalize b s = Ok (r, s') /\ keeps s' (spec_finalize (block_number b) h) (block_number b) (Z.max last (block_number b)).
Proof.
  intros (d & m & l & Hr & Hx & <- & <- & Hw) Hb Hn. unfold onFinalize, mbind, act_bind.
  rewrite (root_ok _ _ Hr), data_chain. pose proof (tip_number _ _ _ _ Hx) as Hle. case_decide as Eb.
  - subst b. eexists _, s. split; [done|]. rewrite finalize_idle by done. exists d, m, l. by rewrite Z.max_l by done.
  - rewrite (proj2 (Z.ltb_ge _ _)) by lia. destruct (ancestor_explained s h d m l b Hr Hx Hb Hn) as (p & e & m' & l' & Ha & He & Hle' & Hl & Ht).
    unfold ancestor_of, mbind, act_bind, lift. rewrite Ha. cbn [ok_or fst snd]. rewrite data_chain.
    destruct (finalize_explained h e m' l' b He Hb Hle' Hl) as [Hx' Hw'].
    rewrite (below_chain b e (makeDescendant e b true) l' Hb).
    2: { destruct l' as [|[x mx] l']; [done|]. split; [|done]. destruct He as (_ & _ & _ & _ & _ & _ & He). by apply explained_head in He as (_ & ? & _). }
    unfold modify. replace (Node _ _) with (chain_tree (makeDescendant e b true) l'.*1) by (by destruct l').
    destruct (store_root_keeps (set_root (chain_tree (makeDescendant e b true) l'.*1) s) _ eq_refl) as (r & s' & Hst & Hr').
    exists r, s'. split; [exact Hst|]. eexists _, _, l'. split; [exact Hr'|]. split; [exact Hx'|]. rewrite makeDescendant_block. split_and!; [done| |done].
    rewrite <- Ht. destruct l' as [|[x mx] l']; [cbn in *; rewrite makeDescendant_block; lia|].
    destruct Hx' as (_ & _ & _ & _ & _ & _ & Hx'). apply tip_number in Hx'. cbn in Hl |- *. unfold tip_of in *. cbn in *. lia.
Qed.

(** ** Runs *)

Inductive operation : Type := Message (b : BlockInfo) (msg : Verification) | Finalized (b : BlockInfo).

(** The manager: the outcomes of the messages; that of a finalization is the one of
    storing the tree. *)
Fixpoint perform (engine : bytes) (l : list operation) : act manager (list (outcome unit)) :=
  match l with
  | [] => mret []
  | Message b msg :: l' => r ← onVerification engine b msg; rs ← perform engine l'; mret (r :: rs)
  | Finalized b :: l' => _ ← onFinalize b; perform engine l'
  end.

Record expected : Type := mkExpected { ex_history : history; ex_fin : Z; ex_last : Z }.

Fixpoint spec_perform (l : list operation) (x : expected) : list (outcome unit) * expected :=
  match l with
  | [] => ([], x)
  | Message b msg :: l' =>
      let '(r, h) := spec_change (block_number b) msg (ex_history x) in
      let '(rs, x) := spec_perform l' (mkExpected h (ex_fin x) (recorded r (block_number b) (ex_last x))) in (r :: rs, x)
  | Finalized b :: l' =>
      spec_perform l' (mkExpected (spec_finalize (block_number b) (ex_history x)) (block_number b) (Z.max (ex_last x) (block_number b)))
  end.

(** Messages of blocks after the last recorded one, and finalizations that do not go back. *)
Fixpoint in_order (l : list operation) (x : expected) : Prop :=
  match l with
  | [] => True
  | Message b msg :: l' => path b /\ ex_last x < block_number b /\ proper_message b msg /\
      in_order l' (let '(r, h) := spec_change (block_number b) msg (ex_history x) in mkExpected h (ex_fin x) (recorded r (block_number b) (ex_last x)))
  | Finalized b :: l' => path b /\ ex_fin x <= block_number b /\
      in_order l' (mkExpected (spec_finalize (block_number b) (ex_history x)) (block_number b) (Z.max (ex_last x) (block_number b)))
  end.

Lemma perform_keeps engine l s x : engine ∈ known_engines -> keeps s (ex_history x) (ex_fin x) (ex_last x) -> in_order l x ->
  let '(rs, x') := spec_perform l x in
  exists s', perform engine l s = Ok (rs, s') /\ keeps s' (ex_history x') (ex_fin x') (ex_last x').
Proof.
  intros He. revert s x. induction l as [|[b msg|b] l IH]; intros s x Hk Ho; cbn [spec_perform perform]; [by exists s| |].
  - destruct Ho as (Hb & Hn & Hm & Ho). pose proof (message_kept engine b msg s _ _ _ He Hk Hb Hn Hm) as Hmsg.
    destruct (spec_change _ _ _) as [r h]. destruct Hmsg as (s' & Hs & Hk'). specialize ((fun Hq => IH s' _ Hq Ho) Hk') as IH'.
    destruct (spec_perform _ _) as [rs x']. destruct IH' as (s2 & Hp & Hk2). exists s2. split; [|done].
    unfold mbind, act_bind. by rewrite Hs, Hp.
  - destruct Ho as (Hb & Hn & Ho). destruct (finalize_kept s _ _ _ b Hk Hb Hn) as (r & s' & Hs & Hk').
    specialize ((fun Hq => IH s' _ Hq Ho) Hk') as IH'. destruct (spec_perform _ _) as [rs x']. destruct IH' as (s2 & Hp & Hk2). exists s2. split; [|done].
    unfold mbind, act_bind. by rewrite Hs.
Qed.

(** A manager that starts with the authorities of the genesis. *)
Definition genesis_expected (l : AuthorityList) : expected := mkExpected (mkHistory [(0, (l, true))] PNone) 0 0.

Lemma prepared_keeps max_size (l : AuthorityList) s (e : error) : db_Get SCHEDULER_TREE (storage_ s) = Err e -> path (mkInfo 0 zero_hash) ->
  exists s', prepare max_size l s = Ok (true, s') /\ keeps s' (ex_history (genesis_expected l)) 0 0.
Proof.
  intros Hg Hp. unfold prepare, mbind, act_bind, gets. rewrite Hg. eexists. split; [done|].
  eexists (set_actual _ (new_schedule (mkInfo 0 zero_hash))), ((l, true), PNone), []. split; [done|]. cbn. split_and!; try done.
  intros n Hn. by rewrite (proj2 (Z.leb_le _ _) Hn).
Qed.

(** C6. The manager of the authorities answers what is in force.  The blocks are
    those of one chain, and forced and scheduled changes, pauses and resumptions
    arrive in its order: each message is of a block strictly later than the last
    recorded change and the last finalized block, a resumption has a delay, the
    block where a message takes effect has a 64-bit number, and finalizations do
    not go back.  Then each message is accepted or refused as the specification
    says (refused with the matching error while a change is outstanding), and for
    every block of the chain from the last finalized one on the manager returns the
    authorities of the latest entry that is in force at its number, with no weight
    while the engine is paused: a forced change and a resumption count from their
    block on, a scheduled change and a pause from the first finalized block that is
    far enough.  A message of an earlier block than the last recorded one leaves a
    manager whose answers are undefined ([change_above_undefined]). *)
Theorem changes_in_force max_size genesis engine ops s (e : error) :
  db_Get SCHEDULER_TREE (storage_ s) = Err e -> path (mkInfo 0 zero_hash) -> engine ∈ known_engines ->
  in_order ops (genesis_expected genesis) ->
  let '(rs, x) := spec_perform ops (genesis_expected genesis) in
  exists s0 s1, prepare max_size genesis s = Ok (true, s0) /\ perform engine ops s0 = Ok (rs, s1) /\
    forall c, path c -> ex_fin x <= block_number c -> exists y q s2,
      in_force (entries (ex_history x)) (block_number c) = Some y /\ authorities c s1 = Ok (Ok (Some q), s2) /\ q.2 = answer y.
Proof.
  intros Hg Hp He Ho. destruct (prepared_keeps max_size genesis s e Hg Hp) as (s0 & Hs0 & Hk).
  pose proof (perform_keeps engine ops s0 _ He Hk Ho) as Hrun. destruct (spec_perform _ _) as [rs x]. destruct Hrun as (s1 & Hs1 & Hk1).
  exists s0, s1. split_and!; [done..|]. intros c Hc Hn. destruct (authorities_in_force _ _ _ _ _ Hk1 Hc Hn) as (y & q & s2 & ? & ? & ? & _). by exists y, q, s2.
Qed.

End timeline.
