(* ===== verification/AuthorityRestart.v ===== *)
(** * The authorities after a restart

    The tree the manager stores is read back: the decoder inverts the encoder but
    for the addresses of the lists, and the answers do not depend on them.

    The block tree of [BlockTree] as the tree next to the manager: the blocks of a
    branch are a chain in the sense of [AuthorityTimeline].  On a concrete tree a
    run of the manager, and what happens when changes do not arrive along one
    chain. *)

From S2P Require Import Prelude HierarchicalKey Scale ScaleProps BlockStorage BlockTree BlockTreeProps BlockTreeSpec Votes Authority AuthorityTimeline.
Import AuthorityManagerImpl.

Open Scope Z_scope.

(** ** Trees up to addresses *)

Definition erase_ptr (p : list_ptr) : list_ptr := pair 0%nat ∘ snd <$> p.

Definition erase_schedule (d : schedule) : schedule := mkSchedule (block d) (erase_ptr (actual_authorities d)) (enabled d)
  (scheduled_after d) (erase_ptr (scheduled_authorities d)) (forced_for d) (erase_ptr (forced_authorities d)) (pause_after d) (resume_for d).

Fixpoint erase (n : ScheduleNode) : ScheduleNode :=
  match n with Node d l => Node (erase_schedule d) (fmap (M := option) erase <$> l) end.

Lemma node_induction (P : ScheduleNode -> Prop) :
  (forall d l, (forall c, Some c ∈ l -> P c) -> P (Node d l)) -> forall n, P n.
Proof.
  intros Hn. fix IH 1. intros [d l]. apply Hn. induction l as [|[c|] l IHl].
  - clear IH. intros x Hx. by apply not_elem_of_nil in Hx.
  - pose proof (IH c) as Hc. clear IH. intros x Hx. apply elem_of_cons in Hx as [Hx|Hx]; [by injection Hx as ->|by apply IHl].
  - clear IH. intros x Hx. apply elem_of_cons in Hx as [Hx|Hx]; [discriminate Hx|by apply IHl].
Qed.

Lemma snd_erase_ptr p : snd <$> erase_ptr p = snd <$> p.
Proof. by destruct p. Qed.

Lemma encode_schedule_erase d : encode_schedule (erase_schedule d) = encode_schedule d.
Proof. unfold encode_schedule, encode_change, encode_ptr. cbn. by rewrite !snd_erase_ptr. Qed.

Lemma encodeItems_ext {A B} (f : A -> outcome bytes) (g : B -> outcome bytes) (h : A -> B) l :
  (forall x, x ∈ l -> g (h x) = f x) -> encodeItems g (h <$> l) = encodeItems f l.
Proof.
  induction l as [|x l IH]; intros Hl; [done|]. cbn. rewrite Hl by left. destruct (f x); [|done]. cbn.
  by rewrite IH by (intros y Hy; apply Hl; by right).
Qed.

Lemma encode_node_erase n : encode_node (erase n) = encode_node n.
Proof.
  induction n as [d l IH] using node_induction. cbn [erase encode_node]. rewrite encode_schedule_erase.
  destruct (encode_schedule d); [|done]. cbn [mbind]. unfold encodeCollection. rewrite length_fmap.
  erewrite encodeItems_ext; [done|]. intros [c|] Hc; [by apply IH|done].
Qed.

(** ** Trees that can be stored *)

Section restart.
Context (max_size : ty -> Z).

Definition list_ok (p : list_ptr) : Prop := exists a, p = Some a /\ wf max_size TAuthorityList a.2.

Definition change_ok (n : Z) (p : list_ptr) : Prop := is_u64 n /\ (n = 0 /\ p = None \/ n <> 0 /\ list_ok p).

Record schedule_ok (d : schedule) : Prop := {
  ok_number : is_u64 (block_number (block d));
  ok_hash : length (block_hash (block d)) = 32%nat;
  ok_actual : list_ok (actual_authorities d);
  ok_scheduled : change_ok (scheduled_after d) (scheduled_authorities d);
  ok_forced : change_ok (forced_for d) (forced_authorities d);
  ok_pause : is_u64 (pause_after d);
  ok_resume : is_u64 (resume_for d)
}.

(** No null pointer among the children. *)
Fixpoint node_ok (n : ScheduleNode) : Prop :=
  match n with
  | Node d l => schedule_ok d /\ Z.of_nat (length l) <= u64_max /\ Z.of_nat (length l) <= max_size (TPtr TUnit) /\
      (fix all (l : list (option ScheduleNode)) : Prop :=
         match l with [] => True | None :: _ => False | Some c :: l' => node_ok c /\ all l' end) l
  end.

Lemma node_ok_children d l : node_ok (Node d l) -> forall o, o ∈ l -> exists c, o = Some c /\ node_ok c.
Proof.
  intros (_ & _ & _ & Hl) o. induction l as [|[c|] l IH]; intros Ho; [by apply not_elem_of_nil in Ho| |done].
  destruct Hl as [Hc Hl]. apply elem_of_cons in Ho as [->|Ho]; [by exists c|by apply IH].
Qed.

Fixpoint height (n : ScheduleNode) : nat :=
  match n with
  | Node _ l => S (foldr (fun o k => match o with Some c => Nat.max (height c) k | None => k end) 0%nat l)
  end.

Lemma height_child d l c : Some c ∈ l -> (height c < height (Node d l))%nat.
Proof.
  intros Hc. cbn. induction l as [|o l IH]; [by apply not_elem_of_nil in Hc|].
  apply elem_of_cons in Hc as [<-|Hc]; cbn; [lia|]. specialize (IH Hc). destruct o; lia.
Qed.

(** ** The decoder inverts the encoder *)

Lemma codes_ok t v : ty_ok t = true -> wf max_size t v -> exists b, encode t v = Ok b /\ codes (decode max_size t) b v.
Proof. apply (proj1 (encode_codes max_size)). Qed.

Lemma u64_int n : is_u64 n -> wf max_size (TInt false 8) n.
Proof. unfold is_u64. cbn. unfold int_range. cbn. lia. Qed.

Lemma ptr_codes p : list_ok p -> exists b, encode_ptr p = Ok b /\ codes (decode_ptr max_size) b (erase_ptr p).
Proof.
  intros (a & -> & Ha). destruct (codes_ok (TPtr TAuthorityList) (Some a.2) eq_refl Ha) as (b & Hb & Hc). exists b. split; [exact Hb|].
  by apply (codes_map _ (fun v : option AuthorityList => pair 0%nat <$> v)) in Hc.
Qed.

Lemma change_codes n p : change_ok n p -> exists b, encode_change n p = Ok b /\ codes (decode_change max_size) b (n, erase_ptr p).
Proof.
  intros [Hu Hn]. destruct (codes_ok (TInt false 8) n eq_refl (u64_int n Hu)) as (a & Ha & Hca). unfold encode_change, decode_change, INACTIVE.
  rewrite Ha. cbn [mbind outcome_bind]. destruct Hn as [[-> ->]|[Hn Hp]].
  - rewrite decide_False by lia. exists a. split; [done|]. rewrite <- (app_nil_r a). eapply codes_bind; [exact Hca|]. cbn. apply codes_ret.
  - rewrite decide_True by done. destruct (ptr_codes p Hp) as (b & -> & Hcb). eexists. split; [done|]. eapply codes_bind; [exact Hca|].
    rewrite decide_True by done. by apply (codes_map _ (fun q => (n, q))).
Qed.

Lemma schedule_codes d : schedule_ok d -> exists b, encode_schedule d = Ok b /\ b <> [] /\ codes (decode_schedule max_size) b (erase_schedule d).
Proof.
  intros [Hn Hh Ha Hs Hf Hp Hr]. unfold encode_schedule, decode_schedule.
  destruct (codes_ok VoteCryptoProviderImpl.TInfo (VoteCryptoProviderImpl.info_value (block d)) eq_refl) as (b1 & -> & C1); [split; [done|by apply u64_int]|].
  destruct (ptr_codes _ Ha) as (b2 & -> & C2). destruct (codes_ok TBool (enabled d) eq_refl I) as (b3 & -> & C3).
  destruct (change_codes _ _ Hs) as (b4 & -> & C4). destruct (change_codes _ _ Hf) as (b5 & -> & C5).
  destruct (codes_ok (TInt false 8) _ eq_refl (u64_int _ Hp)) as (b6 & -> & C6). destruct (codes_ok (TInt false 8) _ eq_refl (u64_int _ Hr)) as (b7 & -> & C7).
  eexists. split; [done|]. split.
  - intros [-> _]%app_nil. destruct C1 as [C1 _]. specialize (C1 []). discriminate C1.
  - repeat (eapply codes_bind; [eassumption|]). replace (erase_schedule d) with
      (mkSchedule (mkInfo (block_number (block d)) (block_hash (block d))) (erase_ptr (actual_authorities d)) (enabled d) (scheduled_after d)
        (erase_ptr (scheduled_authorities d)) (forced_for d) (erase_ptr (forced_authorities d)) (pause_after d) (resume_for d)) by (unfold erase_schedule; by destruct (block d)).
    eapply (codes_map _ _ _ _ C7).
Qed.

Lemma node_codes n : node_ok n -> forall fuel, (height n <= fuel)%nat -> encodes encode_node (decode_node max_size fuel) (erase n).
Proof.
  induction n as [d l IH] using node_induction. intros Hok fuel Hf. pose proof (node_ok_children d l Hok) as Hch. destruct Hok as (Hd & Hu & Hm & _).
  destruct fuel as [|fuel]; [cbn in Hf; lia|]. unfold encodes. cbn [erase encode_node decode_node]. rewrite encode_schedule_erase.
  destruct (schedule_codes d Hd) as (a & -> & _ & Ca).
  destruct (encodes_vector max_size (TPtr TUnit) (fun c => match c with Some c => encode_node c | None => Err (encode_error DEREF_NULLPOINTER) end)
    (c ← decode_node max_size fuel; mret (Some c)) (fmap (M := option) erase <$> l)) as (b & Hb & Cb); rewrite ?length_fmap; [done|done| |].
  - apply Forall_fmap, Forall_forall. intros o Ho. destruct (Hch o Ho) as (c & -> & Hc). pose proof (height_child d l c Ho) as Hh.
    destruct (IH c Ho Hc fuel) as (bc & Hbc & Cc); [lia|]. exists bc. split; [exact Hbc|]. exact (codes_map _ Some _ _ Cc).
  - cbn [mbind outcome_bind]. rewrite length_fmap in Hb. rewrite Hb. eexists. split; [done|]. eapply codes_bind; [exact Ca|]. exact (codes_map _ (Node (erase_schedule d)) _ _ Cb).
Qed.

(** The fuel of [prepare] is enough. *)
Lemma encodeItems_length {A} (f : A -> outcome bytes) l b x : encodeItems f l = Ok b -> x ∈ l ->
  exists bx, f x = Ok bx /\ (length bx <= length b)%nat.
Proof.
  revert b. induction l as [|y l IH]; intros b Hb Hx; [by apply not_elem_of_nil in Hx|]. cbn in Hb.
  destruct (f y) as [by'|] eqn:Ey; [|done]. cbn in Hb. destruct (encodeItems f l) as [bl|] eqn:El; [|done]. injection Hb as <-.
  rewrite length_app. apply elem_of_cons in Hx as [->|Hx]; [exists by'; split; [done|lia]|].
  destruct (IH bl eq_refl Hx) as (bx & Hbx & Hle). exists bx. split; [done|lia].
Qed.

Lemma height_bytes n : node_ok n -> forall b, encode_node n = Ok b -> (height n <= length b)%nat.
Proof.
  induction n as [d l IH] using node_induction. intros Hok b Hb. pose proof (node_ok_children d l Hok) as Hch. destruct Hok as (Hd & _).
  cbn [encode_node] in Hb. destruct (schedule_codes d Hd) as (a & Ha & Hne & _). rewrite Ha in Hb. cbn [mbind outcome_bind] in Hb. unfold encodeCollection in Hb.
  destruct (encodeCompactInteger _) as [k|]; [|done]. cbn in Hb. destruct (encodeItems _ l) as [bl|] eqn:El; [|done]. cbn in Hb. injection Hb as <-.
  rewrite !length_app. assert (0 < length a)%nat by (destruct a; [done|cbn; lia]).
  assert (forall c, Some c ∈ l -> height c <= length bl)%nat as Hc.
  { intros c Hc. destruct (Hch _ Hc) as (c' & E & Hok). injection E as <-. destruct (encodeItems_length _ _ _ _ El Hc) as (bx & Hbx & Hle).
    pose proof (IH c Hc Hok bx Hbx). lia. }
  enough (foldr (fun o k => match o with Some c => Nat.max (height c) k | None => k end) 0%nat l <= length bl)%nat by (cbn; lia).
  clear -Hc. induction l as [|[c|] l IHl]; cbn; [lia| |]; [|apply IHl; intros x Hx; apply Hc; by right].
  pose proof (Hc c ltac:(left)). assert (foldr (fun o k => match o with Some c => Nat.max (height c) k | None => k end) 0%nat l <= length bl)%nat; [|lia].
  apply IHl. intros x Hx. apply Hc. by right.
Qed.

(** ** The answers do not depend on addresses *)

Context `{!DirectChain} {DB : Type} `{!KeyValueDB DB} `{!KeyValueLaws DB}.
Notation manager := (@t DB).
Implicit Type s : manager.

Lemma data_erase n : data (erase n) = erase_schedule (data n).
Proof. by destruct n. Qed.

Lemma ancestor_path_erase b n : ancestor_path b (erase n) = ancestor_path b n.
Proof.
  induction n as [d l IH] using node_induction. cbn. case_decide; [done|]. generalize 0%nat as i.
  induction l as [|[c|] l IHl]; intros i; cbn; [done| |done]. rewrite data_erase. cbn. rewrite IH by left.
  rewrite IHl by (intros x Hx; apply IH; by right). done.
Qed.

Lemma node_at_erase p n : node_at p (erase n) = erase <$> node_at p n.
Proof.
  revert n. induction p as [|i p IH]; intros [d l]; [done|]. cbn. rewrite list_lookup_fmap.
  destruct (l !! i) as [[c|]|]; cbn; [apply IH|done|done].
Qed.

Lemma makeDescendant_erase d b f : makeDescendant (erase_schedule d) b f = erase_schedule (makeDescendant d b f).
Proof. unfold makeDescendant. cbn. by repeat case_decide; repeat case_match. Qed.

(** What is answered about a block, and nothing about addresses. *)
Definition answers (b : BlockInfo) s : outcome (outcome (option AuthorityList)) :=
  match authorities b s with
  | Ok (Ok p, _) => Ok (Ok (snd <$> p))
  | Ok (Err e, _) => Ok (Err e)
  | Err e => Err e
  end.

Lemma answers_erase b s s' n : root_ s = Some n -> root_ s' = Some (erase n) -> answers b s' = answers b s.
Proof.
  intros Hr Hr'. unfold answers, authorities, getAppropriateAncestor, root, mbind, act_bind, gets, lift. rewrite Hr, Hr'. cbn [ok_or].
  rewrite data_erase. cbn [erase_schedule block]. destruct (_ || _); [done|]. rewrite ancestor_path_erase. destruct (ancestor_path b n) as [p|]; [|done].
  rewrite node_at_erase. destruct (node_at p n) as [m|]; [|done]. cbn. rewrite data_erase. cbn [erase_schedule block].
  assert (forall x : schedule, 
    (if decide (block (data m) = b) then erase_schedule (data m) else makeDescendant (erase_schedule (data m)) b false) = 
    erase_schedule (if decide (block (data m) = b) then data m else makeDescendant (data m) b false)) as E.
  { intros _. case_decide; [done|apply makeDescendant_erase]. }
  rewrite (E (data m)). generalize (if decide (block (data m) = b) then data m else makeDescendant (data m) b false) as d. intros d.
  cbn. destruct (enabled d); cbn; [by rewrite snd_erase_ptr|]. by destruct (actual_authorities d).
Qed.

Lemma answers_same b s s' n n' : root_ s = Some n -> root_ s' = Some n' -> erase n' = erase n -> answers b s' = answers b s.
Proof.
  intros Hr Hr' He. rewrite <- (answers_erase b s (set_root (erase n) s) n Hr eq_refl).
  symmetry. apply (answers_erase b s' _ n' Hr'). cbn. by rewrite He.
Qed.

Lemma erase_erase n : erase (erase n) = erase n.
Proof.
  induction n as [d l IH] using node_induction. cbn. f_equal.
  - destruct d as [? [[]|] ? ? [[]|] ? [[]|] ? ?]; reflexivity.
  - rewrite <- list_fmap_compose. apply list_fmap_ext. intros i [c|] Hi; cbn; [|done]. f_equal. apply IH. by eapply list_elem_of_lookup_2.
Qed.

Lemma fresh_schedule_erase d k : erase_schedule (fresh_schedule d k).1 = erase_schedule d.
Proof. destruct d as [? [[]|] ? ? [[]|] ? [[]|] ? ?]; reflexivity. Qed.

Lemma fresh_node_erase n k : erase (fresh_node n k).1 = erase n.
Proof.
  revert k. induction n as [d l IH] using node_induction. intros k. cbn [fresh_node].
  pose proof (fresh_schedule_erase d k) as Hd. destruct (fresh_schedule d k) as [d' k1]. cbn in Hd.
  match goal with |- context [let '(_, _) := ?f l k1 in _] => set (fresh_list := f) end.
  assert (forall k, fmap (M := option) erase <$> (fresh_list l k).1 = fmap (M := option) erase <$> l) as Hl.
  { clear k k1 Hd. induction l as [|[c|] l IHl]; intros k; [done| |].
    - cbn. pose proof (IH c ltac:(left) k) as Hc. destruct (fresh_node c k) as [c' k2].
      specialize (IHl (fun x Hx => IH x (list_elem_of_further _ _ _ Hx)) k2). fold fresh_list. destruct (fresh_list l k2) as [l' k3]. cbn in *. by rewrite Hc, IHl.
    - cbn. specialize (IHl (fun x Hx => IH x (list_elem_of_further _ _ _ Hx)) k). fold fresh_list. destruct (fresh_list l k) as [l' k3]. cbn in *. by rewrite IHl. }
  specialize (Hl k1). destruct (fresh_list l k1) as [l' k2]. cbn in *. by rewrite Hd, Hl.
Qed.

(** C38. The authorities survive a restart.  When the manager stops, the tree is
    stored, and a manager that prepares on the same storage answers about every
    block what the old one answered. *)
Theorem authorities_survive_restart s n genesis k : root_ s = Some n -> node_ok n ->
  exists s1 s2, stop s = Ok (tt, s1) /\ prepare max_size genesis (mk None (storage_ s1) k) = Ok (true, s2) /\
    forall b, answers b s2 = answers b s.
Proof.
  intros Hr Hok. destruct (node_codes n Hok (height n)) as (b & Hb & _); [done|]. rewrite encode_node_erase in Hb.
  pose proof (db_Put_ok SCHEDULER_TREE b (storage_ s)) as Hp. pose proof (db_Put_map SCHEDULER_TREE b (storage_ s)) as Hm.
  unfold stop, store_root, root, mbind, act_bind, gets, lift, modify, mret, act_ret. rewrite Hr. cbn [ok_or]. rewrite Hr. cbn [ok_or]. rewrite Hb. cbn.
  destruct (db_Put _ _ _) as [u d]. cbn in Hp, Hm. subst u. cbn.
  destruct (node_codes n Hok (S (length b))) as (b' & Hb' & Hc & _); [pose proof (height_bytes n Hok b Hb); lia|].
  rewrite encode_node_erase, Hb in Hb'. injection Hb' as <-. specialize (Hc []). rewrite app_nil_r in Hc.
  pose proof (fresh_node_erase (erase n) k) as Hf. rewrite erase_erase in Hf.
  exists (mk (Some n) d (next_address s)). unfold prepare, mbind, act_bind, gets, modify, mret, act_ret. cbn [storage_ next_address].
  rewrite db_Get_map, Hm, lookup_insert_eq. cbn [ok_or]. rewrite Hc. cbn [next_address]. destruct (fresh_node (erase n) k) as [n' k'].
  eexists. split; [by destruct s; cbn in Hr; rewrite Hr|]. split; [reflexivity|]. intros c. by apply (answers_same c s _ n n').
Qed.
End restart.

(** ** The manager of the authorities on the block tree *)

Import AuthorityManagerImpl.


(** ** The chain of a branch *)

Section tree.
Context {St : Type} `{BlockStore St}.

(** The answer of the tree, which is not changed by the question. *)
Definition tree_chain (fuel : nat) (t : @BlockTreeImpl.t St) : DirectChain := {|
  hasDirectChain := fun a b => match BlockTreeImpl.hasDirectChain fuel a b t with Ok (r, _) => r | Err _ => false end
|}.

Definition node_info (n : TreeNode) : BlockInfo := mkInfo (depth n) (BlockTree.block_hash n).

(** The block the manager starts with, and the blocks of the branch after it. *)
Definition on_branch (l : list TreeNode) (c : BlockInfo) : Prop :=
  c = mkInfo 0 zero_hash \/ exists n, n ∈ l /\ 0 < depth n /\ c = node_info n.

Lemma branch_comparable a l b x y : branch a l b -> x ∈ l -> y ∈ l -> y ∈ nodes x \/ x ∈ nodes y.
Proof.
  intros Hb. revert x y. induction Hb as [a|a c l b Hc Hb IH]; intros x y Hx Hy.
  - apply list_elem_of_singleton in Hx as ->. apply list_elem_of_singleton in Hy as ->. left. apply nodes_self.
  - assert (branch a (a :: l) b) as Hab by (by eapply branch_step).
    apply elem_of_cons in Hx as [->|Hx]; [left; apply (branch_nodes _ _ _ Hab y Hy)|].
    apply elem_of_cons in Hy as [->|Hy]; [right; apply (branch_nodes _ _ _ Hab x); by right|]. by apply IH.
Qed.

Lemma branch_linear fuel (t : @BlockTreeImpl.t St) l b : TreeSpec.tree_inv t -> branch (BlockTreeImpl.tree_ t) l b ->
  let _ := tree_chain fuel t in
  forall x y, on_branch l x -> on_branch l y -> x = y \/ directChainExists x y = true \/ directChainExists y x = true.
Proof.
  intros Hi Hb chain x y Hx Hy.
  assert (forall n m, n ∈ l -> m ∈ l -> m ∈ nodes n -> n = m \/ directChainExists (node_info n) (node_info m) = true) as Hdown.
  { intros n m Hn Hm Hnm. assert (n ∈ nodes (BlockTreeImpl.tree_ t)) as Hnt by (apply (branch_nodes _ _ _ Hb n Hn)).
    assert (m ∈ nodes (BlockTreeImpl.tree_ t)) as Hmt by (apply (branch_nodes _ _ _ Hb m Hm)).
    destruct (rising_below n m) as [->|Hd]; [|done|by left|].
    { intros u v Hu Hv. eapply (TreeSpec.inv_rising _ Hi); [by apply (nodes_trans _ n u)|done]. }
    right. unfold directChainExists, node_info. cbn [block_number Votes.block_hash].
    destruct (Chains.chain_between t n m fuel (TreeSpec.inv_ids _ Hi) (TreeSpec.inv_hashes _ Hi) Hnt Hmt) as [Hyes _].
    destruct (Hyes Hnm) as (_ & _ & _ & Hdc). cbn. rewrite Hdc, (proj2 (Z.ltb_lt _ _) Hd). by destruct (_ <=? 1). }
  destruct Hx as [->|(n & Hn & Hpn & ->)], Hy as [->|(m & Hm & Hpm & ->)]; [by left| | |].
  - right. left. unfold directChainExists. cbn. by rewrite (proj2 (Z.ltb_lt _ _) Hpm).
  - right. right. unfold directChainExists. cbn. by rewrite (proj2 (Z.ltb_lt _ _) Hpn).
  - destruct (branch_comparable _ _ _ n m Hb Hn Hm) as [Hnm|Hmn].
    + destruct (Hdown n m Hn Hm Hnm) as [->|Hd]; eauto.
    + destruct (Hdown m n Hm Hn Hmn) as [->|Hd]; eauto.
Qed.
End tree.

(** ** A run *)

Module DemoAuthorities.
Import DemoTree.

(** A chain of five blocks and a block beside it. *)
Definition grown : BlockTreeImpl.t := run (TreeSpec.AddBlock <$>
  [blk "r" "a" 1 []; blk "a" "b" 2 []; blk "b" "c" 3 []; blk "c" "d" 4 []; blk "d" "e" 5 []; blk "b" "x" 3 []]) start.

Definition node_e : TreeNode := mkNode 5 (str "e") 5 false [].
Definition node_d : TreeNode := mkNode 4 (str "d") 4 false [node_e].
Definition node_x : TreeNode := mkNode 6 (str "x") 3 false [].
Definition node_c : TreeNode := mkNode 3 (str "c") 3 false [node_d].
Definition node_b : TreeNode := mkNode 2 (str "b") 2 false [node_c; node_x].
Definition node_a : TreeNode := mkNode 1 (str "a") 1 false [node_b].

Lemma grown_tree : BlockTreeImpl.tree_ grown = mkNode 0 (str "r") 0 true [node_a].
Proof. vm_compute. reflexivity. Qed.

Lemma grown_inv : TreeSpec.tree_inv grown.
Proof.
  split.
  - by_decision.
  - by_decision.
  - apply Forall_forall. by_decision.
  - assert (F : Forall (fun a => Forall (fun c => depth a < depth c) (children a)) (nodes (BlockTreeImpl.tree_ grown))) by by_decision.
    rewrite Forall_forall in F. intros a c Ha Hc. specialize (F a Ha). rewrite Forall_forall in F. by apply F.
  - vm_compute. reflexivity.
  - exists node_e. rewrite grown_tree. split_and!; [left|reflexivity|]. apply Forall_forall. by_decision.
  - reflexivity.
Qed.

Definition main_branch : list TreeNode := [mkNode 0 (str "r") 0 true [node_a]; node_a; node_b; node_c; node_d; node_e].

Lemma main_is_branch : branch (BlockTreeImpl.tree_ grown) main_branch node_e.
Proof. unfold main_branch. rewrite grown_tree. repeat (eapply branch_step; [left|]). apply branch_end. Qed.

#[local] Existing Instance MemoryBlocks.memory_blocks.
#[local] Instance grown_chain : DirectChain := tree_chain 0 grown.

Definition old_list : AuthorityList := [(repeat "o"%char 32, 1)].
Definition forced_list : AuthorityList := [(repeat "f"%char 32, 1)].
Definition scheduled_list : AuthorityList := [(repeat "s"%char 32, 2)].

(** A forced change at [b] for block 4, a pause that comes too early, a scheduled
    change at [d] for block 5, and two finalizations. *)
Definition ops : list operation :=
  [Message (node_info node_b) (ForcedChange forced_list 2); Message (node_info node_c) (Pause 0);
   Message (node_info node_d) (ScheduledChange scheduled_list 1); Finalized (node_info node_c); Finalized (node_info node_e)].

Definition idle_manager : t (DB := gmap bytes bytes) := mk None ∅ 0.

Definition engine : bytes := str "BABE".

Ltac on_list := first [left; reflexivity|left|right; on_list].

Lemma on_main n : n ∈ main_branch -> 0 < depth n -> on_branch main_branch (node_info n).
Proof. intros Hn Hd. right. eauto. Qed.

Lemma ops_in_order : AuthorityTimeline.in_order (on_branch main_branch) ops (genesis_expected old_list).
Proof.
  repeat match goal with
  | |- _ /\ _ => split
  | |- on_branch _ _ => apply on_main; [on_list|reflexivity]
  | |- proper_message _ _ => split; [reflexivity|split; [discriminate|split; [discriminate|reflexivity]]]
  | |- AuthorityTimeline.in_order _ _ _ => cbn [AuthorityTimeline.in_order ops]
  | |- _ < _ => vm_compute; reflexivity
  | |- _ <= _ => vm_compute; discriminate
  end; exact I.
Qed.

Lemma changes_in_force_witness : exists s0 s1 q s2,
  prepare (fun _ => 2 ^ 40) old_list idle_manager = Ok (true, s0) /\
  perform engine ops s0 = Ok ([Ok tt; Err (authority_update_error NO_FORCED_CHANGE_APPLIED_YET); Ok tt], s1) /\
  authorities (node_info node_e) s1 = Ok (Ok (Some q), s2) /\ q.2 = scheduled_list.
Proof.
  destruct (changes_in_force (on_branch main_branch) (branch_linear 0 grown _ _ grown_inv main_is_branch) (fun _ => 2 ^ 40) old_list engine ops
    idle_manager (database_error NOT_FOUND)) as (s0 & s1 & Hp & Hr & Ha);
    [reflexivity|by left|apply (bool_decide_unpack _); vm_compute; exact I|exact ops_in_order|].
  destruct (Ha (node_info node_e)) as (y & q & s2 & Hy & Hq & Hans); [apply on_main; [on_list|reflexivity]|discriminate|].
  exists s0, s1, q, s2. split; [exact Hp|]. split; [exact Hr|]. split; [exact Hq|]. rewrite Hans. vm_compute in Hy. by injection Hy as <-.
Defined.

(** A stored tree: a forced change at block 2 that is still outstanding. *)
Definition stored_hash : bytes := repeat "h"%char 32.
Definition stored_root : schedule := set_actual (Some (0%nat, old_list)) (new_schedule (mkInfo 1 stored_hash)).
Definition stored_child : schedule := set_forced 9 (Some (1%nat, forced_list)) (set_actual (Some (0%nat, old_list)) (new_schedule (mkInfo 2 stored_hash))).
Definition stored_manager : t (DB := gmap bytes bytes) := mk (Some (chain_tree stored_root [stored_child])) ∅ 2.

Lemma listed_ok a l : Forall (fun x : bytes * Z => length x.1 = 32%nat /\ 0 <= x.2 < 2 ^ 64) l -> Z.of_nat (length l) <= 2 ^ 32 ->
  list_ok (fun _ => 2 ^ 40) (Some (a, l)).
Proof.
  intros Hl Hn. exists (a, l). split; [done|]. cbn. split_and!; [unfold u64_max; lia|lia|].
  eapply Forall_impl; [exact Hl|]. intros [x w] [Hx Hw]. split; [exact Hx|]. unfold int_range. cbn in *. lia.
Qed.

Lemma stored_ok : node_ok (fun _ => 2 ^ 40) (chain_tree stored_root [stored_child]).
Proof.
  assert (forall a l, l ∈ [old_list; forced_list] -> list_ok (fun _ => 2 ^ 40) (Some (a, l))) as Hl.
  { intros a l Hl. apply listed_ok.
    - assert (F : Forall (fun l => Forall (fun x : bytes * Z => length x.1 = 32%nat /\ 0 <= x.2 < 2 ^ 64) l) [old_list; forced_list]).
      { repeat (constructor || discriminate). }
      rewrite Forall_forall in F. by apply F.
    - assert (F : Forall (fun l : AuthorityList => Z.of_nat (length l) <= 2 ^ 32) [old_list; forced_list]) by (repeat constructor; discriminate).
      rewrite Forall_forall in F. by apply F. }
  assert (forall n, 0 <= n < 100 -> is_u64 n) as Hu by (unfold is_u64; lia).
  assert (schedule_ok (fun _ => 2 ^ 40) stored_root) as H1.
  { split; [apply Hu; cbn; lia|reflexivity|apply Hl; left|..]; try (apply Hu; cbn; unfold INACTIVE; lia); (split; [apply Hu; cbn; unfold INACTIVE; lia|by left]). }
  assert (schedule_ok (fun _ => 2 ^ 40) stored_child) as H2.
  { split; [apply Hu; cbn; lia|reflexivity|apply Hl; left| | |apply Hu; cbn; unfold INACTIVE; lia|apply Hu; cbn; unfold INACTIVE; lia].
    - split; [apply Hu; cbn; unfold INACTIVE; lia|by left].
    - split; [apply Hu; cbn; lia|]. right. split; [discriminate|]. apply Hl. right. left. }
  cbn. unfold u64_max. split_and!; (done || lia).
Qed.

Lemma authorities_survive_restart_witness : exists s1 s2,
  stop stored_manager = Ok (tt, s1) /\ prepare (fun _ => 2 ^ 40) [] (mk None (storage_ s1) 0) = Ok (true, s2) /\
  forall b, answers b s2 = answers b stored_manager.
Proof. apply (authorities_survive_restart (fun _ => 2 ^ 40) stored_manager _ [] 0 eq_refl stored_ok). Defined.

(** ** Changes that do not arrive along one chain *)

Definition after (l : list operation) : outcome (list (outcome unit) * t (DB := gmap bytes bytes)) :=
  match prepare (fun _ => 2 ^ 40) old_list idle_manager with Ok (_, s) => perform engine l s | Err e => Err e end.

(** A change of block [x] beside a recorded change of block [c]: the child that
    stays is appended to the vector the loop runs over. *)
Theorem change_on_fork_undefined :
  after [Message (node_info node_c) (ScheduledChange scheduled_list 1); Message (node_info node_x) (ScheduledChange forced_list 1)]
  = Err undefined_behaviour.
Proof. vm_compute. reflexivity. Qed.

(** A change of block [b] above a recorded change of block [c] is accepted; a null
    pointer is left where the node of [c] was, and the next question about a
    block below the root follows it. *)
Theorem change_above_undefined : exists s,
  after [Message (node_info node_c) (ScheduledChange scheduled_list 1); Message (node_info node_b) (Pause 1)] = Ok ([Ok tt; Ok tt], s) /\
  authorities (node_info node_e) s = Err undefined_behaviour.
Proof. eexists. split; [vm_compute; reflexivity|vm_compute; reflexivity]. Qed.

(** A forced change above a recorded change: the number of the inactive forced
    change is zero, which every block has reached, and the recorded block loses
    its authorities. *)
Theorem change_above_clears_authorities d l :
  forced_for d = INACTIVE -> forced_authorities d = None -> 0 <= block_number (block l) ->
  actual_authorities (apply_forced d l) = None.
Proof. intros Hf Ha Hn. unfold apply_forced. rewrite Hf, (proj2 (Z.leb_le _ _)) by (unfold INACTIVE; lia). exact Ha. Qed.

(** A message of a block that is not below the finalized one dereferences the null
    pointer of the search. *)
Theorem orphan_change_undefined :
  after [Finalized (node_info node_c); Message (node_info node_x) (Pause 1)] = Err undefined_behaviour.
Proof. vm_compute. reflexivity. Qed.

End DemoAuthorities.
