(* ===== verification/WasmMemory.v ===== *)
(** * The memory of the runtime

    Models [src/src/runtime/binaryen/wasm_memory_impl.cpp] with
    [src/src/runtime/types.hpp] and [src/src/runtime/wasm_result.hpp]: the allocator
    that hands out pieces of the linear memory of a wasm module, and loads and
    stores.

    The linear memory itself is Binaryen's: the class [ShellMemory] has what is
    called of it, with its laws in [ShellMemoryLaws].  Pointers and sizes are 32-bit
    unsigned integers; the sums and products that wrap around are written out.
    [unordered_map]s are maps, and the order in which one is run over is the
    parameter [order].  [allocate], [freealloc] and [growAlloc] call each other, so
    they have fuel; the lemmas below say when two calls are enough and when none
    are.

    The pieces the allocator hands out are apart from each other and inside the
    memory, and the memory with its allocator implements a heap: a map from
    pointers to contents. *)

From S2P Require Import Prelude Scale ScaleProps.
Open Scope Z_scope.

(** ** Spans *)

Definition kMaxMemorySize : Z := 2 ^ 32 - 1.
Definition is_u32 (z : Z) : Prop := 0 <= z < 2 ^ 32.

Definition splitSpan (span : Z) : Z * Z :=
  let minor_part := Z.land span 4294967295 in
  let major_part := Z.land (Z.shiftr span 32) 4294967295 in
  (minor_part, major_part).

Record WasmResult : Type := mkResult { address : Z; length_ : Z }.

Definition WasmResult_of (v : Z) : WasmResult := let '(ptr, len) := splitSpan v in mkResult ptr len.

Definition combine (r : WasmResult) : Z := Z.lor (address r) (u64 (Z.shiftl (length_ r) 32)).

(** ** The linear memory *)

(** The object representation of a value of some size at an address; outside of the
    memory nothing is checked. *)
Class ShellMemory (M : Type) : Type := {
  mem_resize : Z -> M -> M;
  mem_get : nat -> Z -> M -> outcome bytes;
  mem_set : Z -> bytes -> M -> outcome M
}.

(** The memory is a vector of bytes with at least the size it was given last. *)
Class ShellMemoryLaws (M : Type) `{ShellMemory M} : Type := {
  mem_bytes : M -> bytes;
  mem_get_bytes n a m : 0 <= a -> a + Z.of_nat n <= Z.of_nat (length (mem_bytes m)) ->
    mem_get n a m = Ok (take n (drop (Z.to_nat a) (mem_bytes m)));
  mem_set_bytes a b m : 0 <= a -> a + Z.of_nat (length b) <= Z.of_nat (length (mem_bytes m)) ->
    exists m', mem_set a b m = Ok m' /\
      mem_bytes m' = take (Z.to_nat a) (mem_bytes m) ++ b ++ drop (Z.to_nat a + length b) (mem_bytes m);
  mem_resize_size n m : n <= Z.of_nat (length (mem_bytes (mem_resize n m)));
  mem_resize_bytes n m i : (i < Z.to_nat n)%nat -> (i < length (mem_bytes m))%nat -> mem_bytes (mem_resize n m) !! i = mem_bytes m !! i
}.

Module WasmMemoryImpl.
Section memory.
Context {M : Type} `{!ShellMemory M}.
Variable order : gmap Z Z -> list (Z * Z).

Record t : Type := mk {
  memory_ : M;
  size_ : Z;
  offset_ : Z;
  allocated_ : gmap Z Z;
  deallocated_ : gmap Z Z
}.

Definition set_memory (m : M) (s : t) : t := mk m (size_ s) (offset_ s) (allocated_ s) (deallocated_ s).

(** *** Pieces *)

Definition resize (new_size : Z) (s : t) : t := mk (mem_resize new_size (memory_ s)) new_size (offset_ s) (allocated_ s) (deallocated_ s).

Definition new (memory : M) (size : Z) : t := resize size (mk memory size 1 ∅ ∅).

Definition reset (s : t) : t := mk (memory_ s) (size_ s) 1 ∅ ∅.

Definition size (s : t) : Z := size_ s.

(** The smallest piece that is large enough, the first of them in the order. *)
Definition findContaining (size : Z) (s : t) : Z :=
  snd (foldl (fun '(min_value, min_key) '(key, value) =>
                if (value <? min_value) && (size <=? value) then (value, key) else (min_value, min_key))
         (kMaxMemorySize, 0) (order (deallocated_ s))).

Definition deallocate (ptr : Z) (s : t) : option Z * t :=
  match allocated_ s !! ptr with
  | None => (None, s)
  | Some size => (Some size, mk (memory_ s) (size_ s) (offset_ s) (delete ptr (allocated_ s)) (<[ptr := size]> (deallocated_ s)))
  end.

(** [allocate], [freealloc] and [growAlloc] call each other: [rec] is [allocate]. *)
Definition growAlloc (rec : Z -> act t Z) (size : Z) : act t Z := fun s =>
  if kMaxMemorySize - size <? offset_ s then Ok (0, s) else
  if offset_ s <? kMaxMemorySize - u32 (size * 4) then rec size (resize (u32 (offset_ s + u32 (size * 4))) s)
  else rec size (resize (u32 (offset_ s + size)) s).

Definition freealloc (rec : Z -> act t Z) (size : Z) : act t Z := fun s =>
  let ptr := findContaining size s in
  if decide (ptr = 0) then growAlloc rec size s
  else Ok (ptr, mk (memory_ s) (size_ s) (offset_ s) (<[ptr := size]> (allocated_ s)) (delete ptr (deallocated_ s))).

Fixpoint allocate (fuel : nat) (size : Z) : act t Z :=
  match fuel with
  | O => fun _ => Err out_of_fuel
  | S fuel' => fun s =>
      if decide (size = 0) then Ok (0, s) else
      let ptr := offset_ s in
      let new_offset := u32 (ptr + size) in
      if new_offset <? ptr then Ok (0, s) else
      if new_offset <=? size_ s then Ok (ptr, mk (memory_ s) (size_ s) new_offset (<[ptr := size]> (allocated_ s)) (deallocated_ s)) else
      freealloc (allocate fuel') size s
  end.

(** *** Loads and stores *)

(** [load8s] to [load64u], on a machine with the least byte first. *)
Definition load_int (signed : bool) (size : nat) (addr : Z) (s : t) : outcome Z :=
  b ← mem_get size addr (memory_ s);
  Ok (if signed then to_signed (8 * Z.of_nat size) (le_value b) else le_value b).

Definition load128 (addr : Z) (s : t) : outcome bytes := mem_get 16 addr (memory_ s).

(** [store8] to [store64]. *)
Definition store_int (size : nat) (addr value : Z) (s : t) : outcome t :=
  m ← mem_set addr (le_bytes size value) (memory_ s); Ok (set_memory m s).

Definition store128 (addr : Z) (value : bytes) (s : t) : outcome t := m ← mem_set addr value (memory_ s); Ok (set_memory m s).

Fixpoint load_bytes (count : nat) (i : Z) (m : M) : outcome bytes :=
  match count with
  | O => Ok []
  | S count' => b ← mem_get 1 i m; r ← load_bytes count' (i + 1) m; Ok (b ++ r)
  end.

(** The bound of the loop wraps around, and the loop is then not entered. *)
Definition loadN (addr n : Z) (s : t) : outcome bytes := load_bytes (Z.to_nat (u32 (addr + n) - addr)) addr (memory_ s).

(** A string of the same bytes. *)
Definition loadStr (addr n : Z) (s : t) : outcome bytes := load_bytes (Z.to_nat (u32 (addr + n) - addr)) addr (memory_ s).

Fixpoint store_bytes (i : Z) (value : bytes) (m : M) : outcome M :=
  match value with
  | [] => Ok m
  | c :: value' => m ← mem_set i [c] m; store_bytes (i + 1) value' m
  end.

Definition storeBuffer_at (addr : Z) (value : bytes) (s : t) : outcome t :=
  m ← store_bytes addr value (memory_ s); Ok (set_memory m s).

Definition storeBuffer (fuel : nat) (value : bytes) : act t Z :=
  wasm_pointer ← allocate fuel (u32 (Z.of_nat (length value)));
  if decide (wasm_pointer = 0) then mret 0 else
  s ← gets (fun s => s);
  s ← lift (storeBuffer_at wasm_pointer value s);
  modify (fun _ => s);;
  mret (combine (mkResult wasm_pointer (u32 (Z.of_nat (length value))))).

End memory.
End WasmMemoryImpl.

(** A memory for tests: a vector of bytes that is never smaller than a page. *)
Module VectorMemory.

Definition min_size : Z := 4096.

#[export] Instance vector_memory : ShellMemory bytes := {
  mem_resize n m := let k := Z.to_nat (Z.max min_size n) in take k m ++ repeat "000"%char (k - length m);
  mem_get n a m := if (0 <=? a) && (a + Z.of_nat n <=? Z.of_nat (length m)) then Ok (take n (drop (Z.to_nat a) m)) else Err undefined_behaviour;
  mem_set a b m := if (0 <=? a) && (a + Z.of_nat (length b) <=? Z.of_nat (length m))
    then Ok (take (Z.to_nat a) m ++ b ++ drop (Z.to_nat a + length b) m) else Err undefined_behaviour
}.

#[export] Instance vector_memory_laws : ShellMemoryLaws bytes.
Proof.
  refine {| mem_bytes m := m |}; cbn.
  - intros n a m Ha Hn. by rewrite (proj2 (Z.leb_le _ _) Ha), (proj2 (Z.leb_le _ _) Hn).
  - intros a b m Ha Hb. rewrite (proj2 (Z.leb_le _ _) Ha), (proj2 (Z.leb_le _ _) Hb). eauto.
  - intros n m. rewrite length_app, length_take, repeat_length. lia.
  - intros n m i Hi Hm. rewrite lookup_app_l by (rewrite length_take; lia). apply lookup_take_lt. lia.
Defined.

End VectorMemory.

(** ** The allocator is a heap *)

Import WasmMemoryImpl.


(** ** Spans *)

Lemma u32_id z : is_u32 z -> u32 z = z.
Proof. intros Hz. by apply Z.mod_small. Qed.

Lemma land_u32 z : Z.land z 4294967295 = z mod 2 ^ 32.
Proof. change 4294967295 with (Z.ones 32). by rewrite Z.land_ones. Qed.

(** A span is taken apart into the pointer and the size it was made of. *)
Lemma span_round_trip a n : is_u32 a -> is_u32 n -> splitSpan (combine (mkResult a n)) = (a, n).
Proof.
  unfold is_u32. intros Ha Hn. unfold splitSpan, combine. cbn [address length_]. rewrite Z.shiftl_mul_pow2 by lia.
  rewrite u64_id by (unfold is_u64; lia). rewrite <- Z.shiftl_mul_pow2 by lia. rewrite Z.shiftr_lor, Z.shiftr_shiftl_l, Z.shiftl_0_r by lia.
  rewrite (Z.shiftr_div_pow2 a) by lia. rewrite (Z.div_small a), Z.lor_0_l by lia. rewrite Z.land_lor_distr_l, !land_u32.
  rewrite Z.shiftl_mul_pow2, Z_mod_mult, Z.lor_0_r, !Z.mod_small by lia. done.
Qed.

Section inv.
Context {M : Type} `{!ShellMemory M} `{!ShellMemoryLaws M}.
Context (order : gmap Z Z -> list (Z * Z)).
Hypothesis order_entries : forall m, order m ≡ₚ map_to_list m.

Notation memory := (@t M).
Implicit Type s : memory.

(** ** The invariant *)

Definition piece s (p n : Z) : Prop := allocated_ s !! p = Some n \/ deallocated_ s !! p = Some n.

Record mem_inv s : Prop := {
  inv_offset : 1 <= offset_ s <= size_ s;
  inv_size : size_ s < 2 ^ 32;
  inv_mem : size_ s <= Z.of_nat (length (mem_bytes (memory_ s)));
  inv_apart : allocated_ s ##ₘ deallocated_ s;
  inv_pieces p n : piece s p n -> 1 <= p /\ 1 <= n /\ p + n <= offset_ s;
  inv_disjoint p n q k : piece s p n -> piece s q k -> p = q \/ p + n <= q \/ q + k <= p
}.

(** ** Finding a piece *)

Lemma find_fold size l : let '(v, k) := foldl (fun '(min_value, min_key) '(key, value) =>
    if (value <? min_value) && (size <=? value) then (value, key) else (min_value, min_key)) (kMaxMemorySize, 0) l in
  ((v, k) = (kMaxMemorySize, 0) \/ (k, v) ∈ l /\ size <= v < kMaxMemorySize) /\
  forall k' v', (k', v') ∈ l -> size <= v' < kMaxMemorySize -> v <= v'.
Proof.
  induction l as [|[key value] l IH] using rev_ind; cbn; [split; [by left|]; intros k' v' Hk; by apply not_elem_of_nil in Hk|].
  rewrite foldl_app. cbn. destruct (foldl _ _ l) as [v k]. destruct IH as [Hor Hmin].
  destruct (Z.ltb_spec value v), (Z.leb_spec size value); cbn.
  - split; [right; split; [set_solver|]; destruct Hor as [[= -> ->]|[_ ?]]; lia|].
    intros k' v' Hk Hv. apply elem_of_app in Hk as [Hk|Hk%list_elem_of_singleton]; [|injection Hk; lia]. specialize (Hmin k' v' Hk Hv). lia.
  - split; [destruct Hor as [?|[? ?]]; [by left|right; split; [set_solver|done]]|].
    intros k' v' Hk Hv. apply elem_of_app in Hk as [Hk|Hk%list_elem_of_singleton]; [by eapply Hmin|injection Hk; lia].
  - split; [destruct Hor as [?|[? ?]]; [by left|right; split; [set_solver|done]]|].
    intros k' v' Hk Hv. apply elem_of_app in Hk as [Hk|Hk%list_elem_of_singleton]; [by eapply Hmin|injection Hk; lia].
  - split; [destruct Hor as [?|[? ?]]; [by left|right; split; [set_solver|done]]|].
    intros k' v' Hk Hv. apply elem_of_app in Hk as [Hk|Hk%list_elem_of_singleton]; [by eapply Hmin|injection Hk; lia].
Qed.

Lemma findContaining_best size s : mem_inv s -> 
  (findContaining order size s = 0 /\ forall p n, deallocated_ s !! p = Some n -> size <= n -> n = kMaxMemorySize) \/
  (exists n, deallocated_ s !! findContaining order size s = Some n /\ size <= n /\ findContaining order size s <> 0 /\
     forall p k, deallocated_ s !! p = Some k -> size <= k -> n <= k).
Proof.
  intros Hi. unfold findContaining. pose proof (find_fold size (order (deallocated_ s))) as Hf.
  destruct (foldl _ _ _) as [v k]. destruct Hf as [Hor Hmin]. cbn.
  assert (forall p n, deallocated_ s !! p = Some n -> (p, n) ∈ order (deallocated_ s) /\ n <= kMaxMemorySize) as Hin.
  { intros p n Hp. split; [by rewrite order_entries, elem_of_map_to_list|].
    destruct (inv_pieces s Hi p n (or_intror Hp)) as (? & ? & ?). pose proof (inv_size s Hi). pose proof (inv_offset s Hi). unfold kMaxMemorySize. lia. }
  destruct Hor as [[= -> ->]|[Hk Hv]].
  - left. split; [done|]. intros p n Hp Hn. destruct (Hin p n Hp) as [Hpo Hle].
    destruct (decide (n = kMaxMemorySize)); [done|]. specialize (Hmin p n Hpo ltac:(lia)). lia.
  - right. rewrite order_entries in Hk. apply elem_of_map_to_list in Hk. exists v. split_and!; [done|lia| |].
    + intros ->. destruct (inv_pieces s Hi 0 v (or_intror Hk)). lia.
    + intros p n Hp Hn. destruct (Hin p n Hp) as [Hpo Hle]. destruct (decide (n < kMaxMemorySize)); [by apply (Hmin p n Hpo)|lia].
Qed.

(** ** Allocation *)

Lemma piece_fresh s p n : mem_inv s -> piece s p n -> p <> offset_ s.
Proof. intros Hi Hp ->. destruct (inv_pieces s Hi _ _ Hp). lia. Qed.

Lemma bump_inv s n : mem_inv s -> 1 <= n -> offset_ s + n <= size_ s ->
  mem_inv (mk (memory_ s) (size_ s) (offset_ s + n) (<[offset_ s := n]> (allocated_ s)) (deallocated_ s)).
Proof.
  intros Hi Hn Hle. pose proof (inv_offset s Hi) as Ho.
  assert (forall p k, piece (mk (memory_ s) (size_ s) (offset_ s + n) (<[offset_ s := n]> (allocated_ s)) (deallocated_ s)) p k ->
    p = offset_ s /\ k = n \/ piece s p k) as Hp.
  { intros p k [Hp|Hp]; cbn in Hp; [|right; by right]. apply lookup_insert_Some in Hp as [[<- <-]|[_ Hp]]; [by left|right; by left]. }
  split; cbn.
  - lia.
  - apply Hi.
  - apply Hi.
  - apply map_disjoint_insert_l_2; [|apply Hi]. destruct (deallocated_ s !! offset_ s) eqn:E; [|done].
    exfalso. by apply (piece_fresh s (offset_ s) z Hi); [right|].
  - intros p k [[-> ->]|Hk]%Hp; [lia|]. pose proof (inv_pieces s Hi p k Hk). lia.
  - intros p k q j [[-> ->]|Hk]%Hp [[-> ->]|Hj]%Hp; [by left| | |by apply Hi].
    + pose proof (inv_pieces s Hi q j Hj). lia.
    + pose proof (inv_pieces s Hi p k Hk). lia.
Qed.

Lemma reuse_inv s p k n : mem_inv s -> deallocated_ s !! p = Some k -> 1 <= n <= k ->
  mem_inv (mk (memory_ s) (size_ s) (offset_ s) (<[p := n]> (allocated_ s)) (delete p (deallocated_ s))).
Proof.
  intros Hi Hk Hn. assert (piece s p k) as Hpk by (by right).
  assert (forall q j, piece (mk (memory_ s) (size_ s) (offset_ s) (<[p := n]> (allocated_ s)) (delete p (deallocated_ s))) q j ->
    q = p /\ j = n \/ q <> p /\ piece s q j) as Hp.
  { intros q j [Hq|Hq]; cbn in Hq.
    - apply lookup_insert_Some in Hq as [[<- <-]|[? Hq]]; [by left|right; split; [done|by left]].
    - apply lookup_delete_Some in Hq as [? Hq]. right. split; [done|by right]. }
  split; cbn; try apply Hi.
  - apply map_disjoint_insert_l_2; [apply lookup_delete_eq|]. apply map_disjoint_delete_r, Hi.
  - intros q j [[-> ->]|[_ Hq]]%Hp; [pose proof (inv_pieces s Hi p k Hpk); lia|by apply Hi].
  - intros q j q' j' [[-> ->]|[Hne Hq]]%Hp [[-> ->]|[Hne' Hq']]%Hp; [by left| | |by apply Hi].
    + destruct (inv_disjoint s Hi p k q' j' Hpk Hq') as [?|?]; [done|lia].
    + destruct (inv_disjoint s Hi q j p k Hq Hpk) as [?|?]; [done|lia].
Qed.

Lemma resize_inv s n : mem_inv s -> offset_ s <= n < 2 ^ 32 -> mem_inv (resize n s).
Proof. intros Hi Hn. split; cbn; try apply Hi; [pose proof (inv_offset s Hi); lia|lia|apply mem_resize_size]. Qed.

(** The bytes below the offset stay. *)
Definition kept_below s s' : Prop := forall i, Z.of_nat i < offset_ s -> mem_bytes (memory_ s') !! i = mem_bytes (memory_ s) !! i.

Lemma resize_kept s n : mem_inv s -> offset_ s <= n -> kept_below s (resize n s).
Proof.
  intros Hi Hn i Hlt. pose proof (inv_offset s Hi). pose proof (inv_mem s Hi). cbn. apply mem_resize_bytes; lia.
Qed.

(** A new piece at [p]. *)
Record gives s (n p : Z) s' : Prop := {
  gives_inv : mem_inv s';
  gives_map : allocated_ s' = <[p := n]> (allocated_ s);
  gives_new : allocated_ s !! p = None;
  gives_kept : kept_below s s';
  gives_apart q k : allocated_ s !! q = Some k -> q + k <= p \/ p + n <= q;
  gives_inside : 1 <= p /\ p + n <= size_ s'
}.

Lemma gives_bump s n : mem_inv s -> 1 <= n -> offset_ s + n <= size_ s ->
  gives s n (offset_ s) (mk (memory_ s) (size_ s) (offset_ s + n) (<[offset_ s := n]> (allocated_ s)) (deallocated_ s)).
Proof.
  intros Hi Hn Hle. pose proof (inv_offset s Hi). split; try done.
  - by apply bump_inv.
  - destruct (allocated_ s !! offset_ s) eqn:E; [|done]. exfalso. by apply (piece_fresh s (offset_ s) z Hi); [left|].
  - intros q k Hq. pose proof (inv_pieces s Hi q k (or_introl Hq)). lia.
  - cbn. lia.
Qed.

Lemma gives_reuse s p k n : mem_inv s -> deallocated_ s !! p = Some k -> 1 <= n <= k ->
  gives s n p (mk (memory_ s) (size_ s) (offset_ s) (<[p := n]> (allocated_ s)) (delete p (deallocated_ s))).
Proof.
  intros Hi Hk Hn. split; try done.
  - by eapply reuse_inv.
  - eapply map_disjoint_Some_l; [|exact Hk]. symmetry. apply Hi.
  - intros q j Hq. destruct (inv_disjoint s Hi q j p k (or_introl Hq) (or_intror Hk)) as [->|?]; [|lia].
    exfalso. by eapply (map_disjoint_spec (allocated_ s) (deallocated_ s)); [apply Hi|exact Hq|exact Hk].
  - cbn. pose proof (inv_pieces s Hi p k (or_intror Hk)). pose proof (inv_offset s Hi). lia.
Qed.

Lemma gives_resized s m n p s' : offset_ s <= m -> mem_inv s -> gives (resize m s) n p s' -> gives s n p s'.
Proof.
  intros Hm Hi [Hinv Hmap Hnew Hkept Hap Hin]. split; try done. intros i Hlt. rewrite (Hkept i Hlt). by apply resize_kept.
Qed.

Lemma allocate_eq fuel n s : allocate order (S fuel) n s =
  if decide (n = 0) then Ok (0, s) else
  if u32 (offset_ s + n) <? offset_ s then Ok (0, s) else
  if u32 (offset_ s + n) <=? size_ s
  then Ok (offset_ s, mk (memory_ s) (size_ s) (u32 (offset_ s + n)) (<[offset_ s := n]> (allocated_ s)) (deallocated_ s))
  else freealloc order (allocate order fuel) n s.
Proof. done. Qed.

Lemma wrapped_below a n : 0 <= a < 2 ^ 32 -> 1 <= n < 2 ^ 32 -> 2 ^ 32 <= a + n -> u32 (a + n) < a.
Proof.
  intros Ha Hn Ho. unfold u32. rewrite (Z.mod_eq (a + n)) by lia.
  assert ((a + n) / 2 ^ 32 = 1) as -> by (symmetry; apply Z.div_unique with (a + n - 2 ^ 32); lia). lia.
Qed.

Lemma allocate_outcome fuel n s : mem_inv s -> is_u32 n -> 4 * n < 2 ^ 32 -> (2 <= fuel)%nat ->
  exists p s', allocate order fuel n s = Ok (p, s') /\
    (if decide (n = 0 \/ 2 ^ 32 <= offset_ s + n) then p = 0 /\ s' = s else gives s n p s').
Proof.
  intros Hi Hn Hq Hf. destruct fuel as [|[|fuel]]; [lia..|]. clear Hf. pose proof (inv_offset s Hi) as Ho. pose proof (inv_size s Hi) as Hs.
  unfold is_u32 in Hn. rewrite allocate_eq. destruct (decide (n = 0 \/ 2 ^ 32 <= offset_ s + n)) as [Hc|Hc].
  { exists 0, s. split; [|done]. case_decide; [done|]. destruct Hc as [?|Hov]; [done|]. rewrite (proj2 (Z.ltb_lt _ _)); [done|].
    apply wrapped_below; lia. }
  rewrite decide_False by tauto. rewrite (u32_id (offset_ s + n)) by (unfold is_u32; lia). rewrite (proj2 (Z.ltb_ge _ _)) by lia.
  destruct (Z.leb_spec (offset_ s + n) (size_ s)) as [Hle|Hgt]; [eexists _, _; split; [done|apply gives_bump; (done || lia)]|].
  unfold freealloc. destruct (findContaining_best n s Hi) as [[-> _]|(k & Hk & Hnk & Hne & _)].
  2: { rewrite decide_False by done. eexists _, _. split; [done|]. eapply gives_reuse; [done|done|lia]. }
  rewrite decide_True by done. unfold growAlloc, kMaxMemorySize. rewrite (proj2 (Z.ltb_ge _ _)) by lia.
  rewrite (u32_id (n * 4)) by (unfold is_u32; lia).
  set (m := if offset_ s <? 2 ^ 32 - 1 - n * 4 then offset_ s + n * 4 else offset_ s + n).
  assert (offset_ s + n <= m < 2 ^ 32) as Hm by (unfold m; destruct (Z.ltb_spec (offset_ s) (2 ^ 32 - 1 - n * 4)); lia).
  exists (offset_ s). eexists. split.
  - transitivity (allocate order (S fuel) n (resize m s)).
    { unfold m. destruct (Z.ltb_spec (offset_ s) (2 ^ 32 - 1 - n * 4)); rewrite u32_id by (unfold is_u32; lia); done. }
    rewrite allocate_eq. cbn [resize offset_ size_]. rewrite decide_False by tauto. rewrite (u32_id (offset_ s + n)) by (unfold is_u32; lia). rewrite (proj2 (Z.ltb_ge _ _)), (proj2 (Z.leb_le _ _)) by lia. done.
  - apply (gives_resized s m); [lia|done|]. apply (gives_bump (resize m s)); [apply resize_inv; (done || lia)|lia|cbn; lia].
Qed.

(** C19. The pieces the allocator hands out do not overlap.  For a size whose
    fourfold fits the 32 bits, [allocate] returns; it returns the null pointer
    exactly when the size is zero or the end of the piece would not be an address,
    and then nothing has changed.  Otherwise the new piece is inside the memory,
    apart from every live piece, it is recorded with its size, the bytes that
    were there are kept when the memory grows, and the allocator is in order. *)
Theorem allocate_exact fuel n s : mem_inv s -> is_u32 n -> 4 * n < 2 ^ 32 -> (2 <= fuel)%nat ->
  exists p s', allocate order fuel n s = Ok (p, s') /\
    (p = 0 <-> n = 0 \/ 2 ^ 32 <= offset_ s + n) /\ (p = 0 -> s' = s) /\ mem_inv s' /\
    (p <> 0 -> 1 <= p /\ p + n <= size_ s' /\ allocated_ s' = <[p := n]> (allocated_ s) /\
       (forall q k, allocated_ s !! q = Some k -> q + k <= p \/ p + n <= q) /\ kept_below s s').
Proof.
  intros Hi Hn Hq Hf. destruct (allocate_outcome fuel n s Hi Hn Hq Hf) as (p & s' & He & Ho). exists p, s'. split; [done|].
  case_decide as Hc; [destruct Ho as [-> ->]; by split_and!|]. destruct Ho as [Hinv Hmap Hnew Hkept Hap [Hp Hin]].
  split_and!; [split; [lia|tauto]|lia|done|by intros _].
Qed.

(** The fourfold of a size of a quarter of the address space and more wraps
    around.  Up to a third of it the memory is then resized below what is needed:
    the allocator calls itself in the same state, for ever. *)
Theorem allocate_never_returns n s : 2 ^ 30 <= n -> 3 * n < 2 ^ 32 -> size_ s < offset_ s + n -> 0 <= offset_ s -> offset_ s + n < 2 ^ 32 ->
  findContaining order n s = 0 -> forall fuel, allocate order fuel n s = Err out_of_fuel.
Proof.
  intros Hlo Hhi Hsize Ho Hend Hfind fuel. revert s Hsize Ho Hend Hfind. induction fuel as [|fuel IH]; intros s Hsize Ho Hend Hfind; [done|].
  assert (u32 (n * 4) = n * 4 - 2 ^ 32) as Hw.
  { unfold u32. rewrite Z.mod_eq by lia. assert (n * 4 / 2 ^ 32 = 1) as -> by (symmetry; apply Z.div_unique with (n * 4 - 2 ^ 32); lia). lia. }
  rewrite allocate_eq. rewrite decide_False by lia. rewrite (u32_id (offset_ s + n)) by (unfold is_u32; lia).
  rewrite (proj2 (Z.ltb_ge _ _)), (proj2 (Z.leb_gt _ _)) by lia. unfold freealloc. rewrite Hfind, decide_True by done.
  unfold growAlloc, kMaxMemorySize. rewrite Hw, (proj2 (Z.ltb_ge _ _)), (proj2 (Z.ltb_lt _ _)) by lia.
  rewrite (u32_id (offset_ s + _)) by (unfold is_u32; lia). apply IH; cbn; try done; lia.
Qed.

(** A freed piece that is large enough is not used when the end of a new one would
    not be an address. *)
Theorem freed_piece_not_reused fuel n s q k : mem_inv s -> 1 <= n < 2 ^ 32 -> 2 ^ 32 <= offset_ s + n -> deallocated_ s !! q = Some k -> n <= k ->
  allocate order (S fuel) n s = Ok (0, s).
Proof.
  intros Hi Hn Ho _ _. pose proof (inv_offset s Hi). pose proof (inv_size s Hi). rewrite allocate_eq, decide_False by lia.
  rewrite (proj2 (Z.ltb_lt _ _)); [done|]. apply wrapped_below; lia.
Qed.

(** ** Contents *)

Definition slice (p n : Z) (b : bytes) : bytes := take (Z.to_nat n) (drop (Z.to_nat p) b).

Lemma slice_ext p n b b' : 0 <= p -> (forall i, p <= Z.of_nat i < p + n -> b' !! i = b !! i) -> slice p n b' = slice p n b.
Proof.
  intros Hp Hb. apply list_eq. intros i. unfold slice. rewrite !lookup_take. case_decide; [|done]. rewrite !lookup_drop. apply Hb. lia.
Qed.

Lemma slice_self (v b : bytes) p : 0 <= p -> (forall i, (i < length v)%nat -> b !! (Z.to_nat p + i)%nat = v !! i) ->
  slice p (Z.of_nat (length v)) b = v.
Proof.
  intros Hp Hb. apply list_eq. intros i. unfold slice. rewrite lookup_take, Nat2Z.id. case_decide as Hi; [by rewrite lookup_drop; apply Hb|].
  symmetry. apply lookup_ge_None. lia.
Qed.

Lemma mem_set_lookup a b m : 0 <= a -> a + Z.of_nat (length b) <= Z.of_nat (length (mem_bytes m)) -> exists m', mem_set a b m = Ok m' /\
  length (mem_bytes m') = length (mem_bytes m) /\
  forall i, mem_bytes m' !! i = if decide (Z.to_nat a <= i < Z.to_nat a + length b)%nat then b !! (i - Z.to_nat a)%nat else mem_bytes m !! i.
Proof.
  intros Ha Hb. destruct (mem_set_bytes a b m Ha Hb) as (m' & Hm & Hbytes). exists m'. split; [done|]. rewrite Hbytes.
  assert (Z.to_nat a + length b <= length (mem_bytes m))%nat by lia. split; [rewrite !length_app, length_take, length_drop; lia|].
  intros i. destruct (decide (i < Z.to_nat a)%nat).
  - rewrite lookup_app_l by (rewrite length_take; lia). rewrite lookup_take_lt by lia. by rewrite decide_False by lia.
  - rewrite lookup_app_r by (rewrite length_take; lia). rewrite length_take, Nat.min_l by lia. case_decide as Hi.
    + by rewrite lookup_app_l by lia.
    + rewrite lookup_app_r by lia. rewrite lookup_drop. f_equal. lia.
Qed.

Lemma store_bytes_lookup v : forall a m, 0 <= a -> a + Z.of_nat (length v) <= Z.of_nat (length (mem_bytes m)) -> exists m', store_bytes a v m = Ok m' /\
  length (mem_bytes m') = length (mem_bytes m) /\
  forall i, mem_bytes m' !! i = if decide (Z.to_nat a <= i < Z.to_nat a + length v)%nat then v !! (i - Z.to_nat a)%nat else mem_bytes m !! i.
Proof.
  induction v as [|c v IH]; intros a m Ha Hv; cbn [store_bytes length] in *.
  - exists m. split_and!; [done..|]. intros i. by rewrite decide_False by lia.
  - destruct (mem_set_lookup a [c] m Ha) as (m1 & -> & Hl1 & H1); [cbn; lia|]. cbn [mbind outcome_bind].
    destruct (IH (a + 1) m1) as (m2 & Hs & Hl2 & H2); [lia|lia|]. exists m2. split_and!; [exact Hs|lia|]. intros i. rewrite H2, H1. cbn [length].
    repeat case_decide; try lia; try done.
    + replace (i - Z.to_nat a)%nat with (S (i - Z.to_nat (a + 1))) by lia. done.
    + by replace (i - Z.to_nat a)%nat with 0%nat by lia.
Qed.

Lemma load_bytes_slice n : forall a m, 0 <= a -> a + Z.of_nat n <= Z.of_nat (length (mem_bytes m)) ->
  load_bytes n a m = Ok (take n (drop (Z.to_nat a) (mem_bytes m))).
Proof.
  induction n as [|n IH]; intros a m Ha Hn; [done|]. cbn [load_bytes]. rewrite mem_get_bytes, IH by lia. cbn [mbind outcome_bind]. f_equal.
  replace (Z.to_nat (a + 1)) with (S (Z.to_nat a)) by lia.
  destruct (drop (Z.to_nat a) (mem_bytes m)) as [|c l] eqn:E.
  - apply (f_equal length) in E. rewrite length_drop in E. cbn in E. lia.
  - cbn [take app]. do 2 f_equal. replace (S (Z.to_nat a)) with (Z.to_nat a + 1)%nat by lia. by rewrite <- drop_drop, E.
Qed.

(** ** The heap *)

Definition heap s : gmap Z bytes := map_imap (fun p n => Some (slice p n (mem_bytes (memory_ s)))) (allocated_ s).

Lemma heap_lookup s p : heap s !! p = (fun n => slice p n (mem_bytes (memory_ s))) <$> allocated_ s !! p.
Proof. unfold heap. rewrite map_lookup_imap. by destruct (allocated_ s !! p). Qed.

Lemma slice_length s p n : mem_inv s -> allocated_ s !! p = Some n -> Z.of_nat (length (slice p n (mem_bytes (memory_ s)))) = n.
Proof.
  intros Hi Hp. destruct (inv_pieces s Hi p n (or_introl Hp)) as (? & ? & ?). pose proof (inv_mem s Hi). pose proof (inv_offset s Hi).
  unfold slice. rewrite length_take, length_drop. lia.
Qed.

(** Operations of the memory, with their replies. *)
Inductive op : Type :=
  | Allocate (n : Z)
  | StoreBuffer (v : bytes)
  | StoreAt (p off : Z) (v : bytes)
  | Load (p off n : Z)
  | Deallocate (p : Z)
  | Reset.

Inductive reply : Type := Word (z : Z) | Data (b : bytes) | Freed (n : option Z) | Done.

Definition step (fuel : nat) (o : op) : act memory reply :=
  match o with
  | Allocate n => p ← allocate order fuel n; mret (Word p)
  | StoreBuffer v => z ← storeBuffer order fuel v; mret (Word z)
  | StoreAt p off v => s ← gets (fun s => s); s' ← lift (storeBuffer_at (p + off) v s); modify (fun _ => s');; mret Done
  | Load p off n => s ← gets (fun s => s); b ← lift (loadN (p + off) n s); mret (Data b)
  | Deallocate p => fun s => let '(n, s') := deallocate p s in Ok (Freed n, s')
  | Reset => fun s => Ok (Done, reset s)
  end.

(** What a heap does.  The contents of a new piece are not specified. *)
Inductive heap_step (h : gmap Z bytes) : op -> reply -> gmap Z bytes -> Prop :=
  | heap_allocate n p b : p <> 0 -> h !! p = None -> Z.of_nat (length b) = n -> heap_step h (Allocate n) (Word p) (<[p := b]> h)
  | heap_exhausted n : heap_step h (Allocate n) (Word 0) h
  | heap_store v p : p <> 0 -> h !! p = None ->
      heap_step h (StoreBuffer v) (Word (combine (mkResult p (Z.of_nat (length v))))) (<[p := v]> h)
  | heap_store_exhausted v : heap_step h (StoreBuffer v) (Word 0) h
  | heap_write p off v b : h !! p = Some b ->
      heap_step h (StoreAt p off v) Done (<[p := take (Z.to_nat off) b ++ v ++ drop (Z.to_nat off + length v) b]> h)
  | heap_load p off n b : h !! p = Some b -> heap_step h (Load p off n) (Data (slice off n b)) h
  | heap_free p b : h !! p = Some b -> heap_step h (Deallocate p) (Freed (Some (Z.of_nat (length b)))) (delete p h)
  | heap_free_unknown p : h !! p = None -> heap_step h (Deallocate p) (Freed None) h
  | heap_reset : heap_step h Reset Done ∅.

(** The size that an operation asks the allocator for. *)
Definition asked (o : op) : option Z :=
  match o with Allocate n => Some n | StoreBuffer v => Some (Z.of_nat (length v)) | _ => None end.

(** Sizes that the allocator can take four times, and accesses inside a piece. *)
Definition proper_op (h : gmap Z bytes) (o : op) : Prop :=
  match o with
  | Allocate n => is_u32 n /\ 4 * n < 2 ^ 32
  | StoreBuffer v => 4 * Z.of_nat (length v) < 2 ^ 32
  | StoreAt p off v => exists b, h !! p = Some b /\ 0 <= off /\ off + Z.of_nat (length v) <= Z.of_nat (length b)
  | Load p off n => exists b, h !! p = Some b /\ 0 <= off /\ 0 <= n /\ off + n <= Z.of_nat (length b)
  | Deallocate _ | Reset => True
  end.

Lemma heap_gives s n p s' : mem_inv s -> gives s n p s' -> heap s' = <[p := slice p n (mem_bytes (memory_ s'))]> (heap s) /\ heap s !! p = None.
Proof.
  intros Hi [Hinv Hmap Hnew Hkept _ _]. split; [|by rewrite heap_lookup, Hnew]. apply map_eq. intros q. rewrite heap_lookup, Hmap.
  destruct (decide (q = p)) as [->|Hne]; [by rewrite !lookup_insert_eq|]. rewrite !lookup_insert_ne by done. rewrite heap_lookup.
  destruct (allocated_ s !! q) as [k|] eqn:E; [|done]. cbn. f_equal. destruct (inv_pieces s Hi q k (or_introl E)).
  apply slice_ext; [lia|]. intros i Hr. apply Hkept. lia.
Qed.

(** Writing inside a piece. *)
Lemma write_piece s p n off v : mem_inv s -> allocated_ s !! p = Some n -> 0 <= off -> off + Z.of_nat (length v) <= n ->
  exists s', storeBuffer_at (p + off) v s = Ok s' /\ mem_inv s' /\
    heap s' = <[p := take (Z.to_nat off) (slice p n (mem_bytes (memory_ s))) ++ v ++
                     drop (Z.to_nat off + length v) (slice p n (mem_bytes (memory_ s)))]> (heap s).
Proof.
  intros Hi Hp Ho Hv. destruct (inv_pieces s Hi p n (or_introl Hp)) as (Hp1 & Hn1 & Hpn).
  pose proof (inv_mem s Hi) as Hm. pose proof (inv_offset s Hi) as Hof.
  destruct (store_bytes_lookup v (p + off) (memory_ s)) as (m & Hst & Hl & Hlook); [lia|lia|].
  exists (set_memory m s). unfold storeBuffer_at. rewrite Hst. split; [done|]. split; [by destruct Hi; split; cbn; rewrite ?Hl|].
  apply map_eq. intros q. rewrite heap_lookup. cbn [set_memory allocated_ memory_]. destruct (decide (q = p)) as [->|Hne].
  - rewrite lookup_insert_eq, Hp. cbn. f_equal. pose proof (slice_length s p n Hi Hp) as Hsl. apply list_eq. intros i. unfold slice in *.
    destruct (decide (i < Z.to_nat n)%nat) as [Hin|Hin].
    + rewrite lookup_take_lt, lookup_drop, Hlook by lia. destruct (decide (i < Z.to_nat off)%nat).
      * rewrite decide_False by lia. rewrite lookup_app_l by (rewrite length_take; lia). by rewrite !lookup_take_lt, lookup_drop by lia.
      * rewrite lookup_app_r by (rewrite length_take; lia). rewrite length_take, Nat.min_l by lia. case_decide.
        -- rewrite lookup_app_l by lia. f_equal. lia.
        -- rewrite lookup_app_r by lia. rewrite lookup_drop, lookup_take_lt, lookup_drop by lia. f_equal. lia.
    + rewrite !lookup_ge_None_2; [done| |].
      * rewrite !length_app, length_take, !length_drop. lia.
      * rewrite length_take. lia.
  - rewrite lookup_insert_ne, heap_lookup by done. destruct (allocated_ s !! q) as [k|] eqn:E; [|done]. cbn. f_equal.
    destruct (inv_pieces s Hi q k (or_introl E)). destruct (inv_disjoint s Hi p n q k (or_introl Hp) (or_introl E)) as [?|Hd]; [done|].
    apply slice_ext; [lia|]. intros i Hr. rewrite Hlook. by rewrite decide_False by lia.
Qed.

Lemma deallocate_inv s p n : mem_inv s -> allocated_ s !! p = Some n ->
  mem_inv (mk (memory_ s) (size_ s) (offset_ s) (delete p (allocated_ s)) (<[p := n]> (deallocated_ s))).
Proof.
  intros Hi Hp. assert (forall q k, piece (mk (memory_ s) (size_ s) (offset_ s) (delete p (allocated_ s)) (<[p := n]> (deallocated_ s))) q k -> piece s q k) as Hq.
  { intros q k [Hq|Hq]; cbn in Hq; [apply lookup_delete_Some in Hq as [_ Hq]; by left|].
    apply lookup_insert_Some in Hq as [[<- <-]|[_ Hq]]; [by left|by right]. }
  split; cbn; try apply Hi.
  - apply map_disjoint_insert_r_2; [apply lookup_delete_eq|]. apply map_disjoint_delete_l, Hi.
  - intros q k Hk%Hq. by apply Hi.
  - intros q k q' k' Hk%Hq Hk'%Hq. by apply Hi.
Qed.

Lemma load_inside s p b off n : mem_inv s -> heap s !! p = Some b -> 0 <= off -> 0 <= n -> off + n <= Z.of_nat (length b) ->
  loadN (p + off) n s = Ok (slice off n b).
Proof.
  intros Hi Hb Hoff Hn Hl. rewrite heap_lookup in Hb. apply fmap_Some in Hb as (k & Hk & ->). rewrite (slice_length s p k Hi Hk) in Hl.
  destruct (inv_pieces s Hi p k (or_introl Hk)) as (? & ? & ?). pose proof (inv_mem s Hi). pose proof (inv_offset s Hi). pose proof (inv_size s Hi).
  unfold loadN. rewrite (u32_id (p + off + n)) by (unfold is_u32; lia). rewrite load_bytes_slice by lia. f_equal.
  replace (p + off + n - (p + off)) with n by lia. apply list_eq. intros i. unfold slice. rewrite !lookup_take. case_decide; [|done].
  rewrite !lookup_drop, lookup_take_lt, lookup_drop by lia. f_equal. lia.
Qed.

Lemma load_piece s p b : mem_inv s -> heap s !! p = Some b -> loadN p (Z.of_nat (length b)) s = Ok b.
Proof.
  intros Hi Hb. rewrite <- (Z.add_0_r p). rewrite (load_inside s p b) by (done || lia). f_equal. apply slice_self; [lia|]. done.
Qed.

(** A piece is at an address, and so is its end. *)
Lemma piece_bounds s p b : mem_inv s -> heap s !! p = Some b -> 1 <= p /\ 1 <= Z.of_nat (length b) /\ p + Z.of_nat (length b) < 2 ^ 32.
Proof.
  intros Hi Hb. rewrite heap_lookup in Hb. apply fmap_Some in Hb as (n & Hn & ->). rewrite (slice_length s p n Hi Hn).
  destruct (inv_pieces s Hi p n (or_introl Hn)). pose proof (inv_offset s Hi). pose proof (inv_size s Hi). lia.
Qed.

Lemma storeBuffer_outcome fuel v s : (2 <= fuel)%nat -> mem_inv s -> 4 * Z.of_nat (length v) < 2 ^ 32 ->
  exists z s', storeBuffer order fuel v s = Ok (z, s') /\ mem_inv s' /\
    if decide (Z.of_nat (length v) = 0 \/ 2 ^ 32 <= offset_ s + Z.of_nat (length v)) then z = 0 /\ s' = s
    else exists p, p <> 0 /\ z = combine (mkResult p (Z.of_nat (length v))) /\ heap s !! p = None /\ heap s' = <[p := v]> (heap s).
Proof.
  intros Hf Hi Hv. unfold storeBuffer, mbind, act_bind, gets, lift, modify, mret, act_ret.
  set (n := Z.of_nat (length v)) in *. rewrite (u32_id n) by (unfold is_u32; lia).
  destruct (allocate_outcome fuel n s Hi) as (p & s1 & -> & Ho); [unfold is_u32; lia|done|done|].
  destruct (decide (n = 0 \/ 2 ^ 32 <= offset_ s + n)); [destruct Ho as [-> ->]; rewrite decide_True by done; by eexists _, _|].
  pose proof (gives_inside _ _ _ _ Ho) as [Hp Hpn]. rewrite decide_False by lia. destruct (heap_gives s n p s1 Hi Ho) as [Hh Hnew].
  assert (allocated_ s1 !! p = Some n) as Hpa by (rewrite (gives_map _ _ _ _ Ho); apply lookup_insert_eq).
  destruct (write_piece s1 p n 0 v (gives_inv _ _ _ _ Ho) Hpa) as (s2 & Hst & Hinv & Hheap); [lia|lia|].
  rewrite Z.add_0_r in Hst. rewrite Hst. eexists _, s2. split; [done|]. split; [done|]. exists p. split_and!; [lia|done|done|].
  rewrite Hheap, Hh. rewrite drop_ge, app_nil_r by (pose proof (slice_length s1 p n (gives_inv _ _ _ _ Ho) Hpa); lia). cbn [Z.to_nat take app].
  by rewrite insert_insert_eq.
Qed.

(** C18. The memory with its allocator implements a heap.  Let an allocation or
    a buffer ask for a size whose fourfold fits the 32 bits, and let a load or a
    store at an offset stay inside a live piece.  Then the operation returns,
    keeps the invariant, and does to the contents of the live pieces what the
    heap does: an allocation takes a fresh pointer, a stored buffer is found
    under the pointer and size of the returned span, a store inside a piece
    changes its bytes in that piece only, a load reads the bytes of the piece at
    the offset, a freed piece is gone with its size reported, an unknown pointer
    is reported, and a reset forgets everything.  An allocation or a buffer is
    answered with zero exactly when its size is zero or the end of a new piece
    would not be an address. *)
Theorem memory_refines_heap fuel o s : (2 <= fuel)%nat -> mem_inv s -> proper_op (heap s) o ->
  exists r s', step fuel o s = Ok (r, s') /\ heap_step (heap s) o r (heap s') /\ mem_inv s' /\
    forall n, asked o = Some n -> r = Word 0 <-> n = 0 \/ 2 ^ 32 <= offset_ s + n.
Proof.
  intros Hf Hi Ho. destruct o as [n|v|p off v|p off n|p|]; cbn [proper_op] in Ho.
  - destruct Ho as [Hn Hq]. destruct (allocate_outcome fuel n s Hi Hn Hq Hf) as (p & s' & He & Hg). exists (Word p), s'.
    unfold step, mbind, act_bind. rewrite He. split; [done|].
    case_decide; [destruct Hg as [-> ->]; split_and!; [constructor|done|]; by intros ? [= <-]|].
    destruct (heap_gives s n p s' Hi Hg) as [-> Hnew]. pose proof (gives_inside _ _ _ _ Hg). split_and!; [|apply Hg|].
    + constructor; [lia|done|]. apply (slice_length s' p n); [apply Hg|]. rewrite (gives_map _ _ _ _ Hg). apply lookup_insert_eq.
    + intros ? [= <-]. split; [intros [= ->]; lia|done].
  - destruct (storeBuffer_outcome fuel v s Hf Hi Ho) as (z & s' & He & Hinv & Hz). exists (Word z), s'. unfold step, mbind, act_bind. rewrite He.
    split; [done|]. case_decide; [destruct Hz as [-> ->]; split_and!; [constructor|done|]; by intros ? [= <-]|].
    destruct Hz as (p & Hp & -> & Hnew & ->). split_and!; [by constructor|done|]. intros ? [= <-]. split; [|done].
    intros [= Hz]. by apply Z.lor_eq_0_iff in Hz as [Hz _].
  - destruct Ho as (b & Hb & Hoff & Hv). pose proof Hb as Hb'. rewrite heap_lookup in Hb. apply fmap_Some in Hb as (n & Hn & ->).
    rewrite (slice_length s p n Hi Hn) in Hv. destruct (write_piece s p n off v Hi Hn Hoff Hv) as (s' & Hst & Hinv & Hheap).
    exists Done, s'. unfold step, mbind, act_bind, gets, lift, modify, mret, act_ret. rewrite Hst. rewrite Hheap. split_and!; [done|by constructor|done..].
  - destruct Ho as (b & Hb & Hoff & Hn & Hl). exists (Data (slice off n b)), s. split_and!; [|by constructor|done..].
    unfold step, mbind, act_bind, gets, lift. by rewrite (load_inside s p b).
  - cbn [step]. unfold deallocate. destruct (allocated_ s !! p) as [n|] eqn:E.
    + eexists _, _. split; [done|]. split_and!; [|by apply deallocate_inv|done]. rewrite <- (slice_length s p n Hi E) at 1.
      assert (heap s !! p = Some (slice p n (mem_bytes (memory_ s)))) as Hh by (by rewrite heap_lookup, E).
      replace (heap (mk _ _ _ _ _)) with (delete p (heap s)); [by constructor|]. apply map_eq. intros q. rewrite heap_lookup. cbn.
      destruct (decide (q = p)) as [->|]; [by rewrite !lookup_delete_eq|]. by rewrite !lookup_delete_ne, heap_lookup by done.
    + eexists _, _. split; [done|]. split_and!; [|done..]. constructor. by rewrite heap_lookup, E.
  - exists Done, (reset s). split; [done|]. split_and!; [replace (heap (reset s)) with (∅ : gmap Z bytes); [constructor|]| |done].
    + apply map_eq. intros q. by rewrite heap_lookup.
    + pose proof (inv_offset s Hi). split; cbn; try apply Hi; [lia|apply map_disjoint_empty_l|intros p n [[=]|[=]]|intros p n q k [[=]|[=]]].
Qed.

(** The memory starts in order, without pieces. *)
Lemma new_memory_inv m n : 1 <= n < 2 ^ 32 -> mem_inv (new m n) /\ heap (new m n) = ∅.
Proof.
  intros Hn. split; [split; cbn; [lia|lia|apply mem_resize_size|apply map_disjoint_empty_l|intros p k [[=]|[=]]|intros p k q j [[=]|[=]]]|].
  apply map_eq. intros q. by rewrite heap_lookup.
Qed.
End inv.

(** ** A run *)

Module DemoMemory.
Export VectorMemory.

Definition by_key : gmap Z Z -> list (Z * Z) := map_to_list.
Definition start : t (M := bytes) := new [] 64.

Lemma start_inv : mem_inv start.
Proof. apply new_memory_inv. lia. Qed.

Lemma allocate_exact_witness : exists p s', allocate by_key 2 100 start = Ok (p, s') /\ p <> 0 /\ 1 <= p /\ p + 100 <= size_ s' /\ mem_inv s'.
Proof.
  destruct (allocate_exact by_key (fun m => reflexivity _) 2 100 start start_inv) as (p & s' & He & Hz & _ & Hi & Hp); [unfold is_u32; lia|lia|lia|].
  exists p, s'. assert (p <> 0) as Hne by (intros E%Hz; cbn in E; lia). destruct (Hp Hne) as (? & ? & _). by split_and!.
Defined.

(** Two bytes inside a stored buffer are read. *)
Definition with_data : t (M := bytes) := match step by_key 2 (StoreBuffer (str "data")) start with Ok (_, s) => s | Err _ => start end.

Lemma with_data_inv : mem_inv with_data.
Proof.
  destruct (storeBuffer_outcome by_key (fun m => reflexivity _) 2 (str "data") start) as (z & s' & He & Hi & _); [lia|exact start_inv|cbn; lia|].
  unfold with_data, step, mbind, act_bind. by rewrite He.
Qed.

Lemma memory_refines_heap_witness : exists r s',
  step by_key 2 (Load 1 1 2) with_data = Ok (r, s') /\ r = Data (str "at") /\
  heap_step (heap with_data) (Load 1 1 2) r (heap s') /\ mem_inv s'.
Proof.
  destruct (memory_refines_heap by_key (fun m => reflexivity _) 2 (Load 1 1 2) with_data) as (r & s' & He & Hh & Hi & _);
    [lia|exact with_data_inv|exists (str "data"); split; [vm_compute; reflexivity|cbn; lia]|].
  exists r, s'. split; [exact He|]. split; [|split; [exact Hh|exact Hi]].
  assert (step by_key 2 (Load 1 1 2) with_data = Ok (Data (str "at"), with_data)) as E by (vm_compute; reflexivity).
  rewrite E in He. injection He as <- _. reflexivity.
Defined.

(** A quarter of the address space is never returned. *)
Lemma quarter_never_allocated fuel : allocate by_key fuel (2 ^ 30) start = Err out_of_fuel.
Proof. apply allocate_never_returns; cbn; done || lia. Qed.

End DemoMemory.
