(* ===== verification/TrieCursor.v ===== *)
(** * The cursor of the trie

    Models [src/src/storage/trie/supergenius_trie/supergenius_trie_cursor.cpp].  The
    cursor holds pointers to nodes and compares them; a pointer to a node of the
    trie is its position, the indices of the children from the root down, with the
    node.  [last_visited_child_] is a list with its back first.  The loops over
    nodes have fuel; [TrieCursorProps] shows that the number of nodes is enough.

    A child index is an [int8_t] that is passed on as [uint8_t]. *)

From S2P Require Import Prelude Scale Trie.

Open Scope Z_scope.

Record TriePathEntry : Type := mkEntry {
  parent_at : list nat;
  parent : node;
  child_idx : Z
}.

Definition children_of (n : node) : list (option node) := match n with Branch _ _ ch => ch | _ => [] end.

Module SuperGeniusTrieCursor.
Section cursor.
Context (load : node -> outcome (option node)) (root : option node).

Record t : Type := mk {
  current_ : option (list nat * node);
  visited_root_ : bool;
  last_visited_child_ : list TriePathEntry
}.

Definition new : t := mk None false [].

(** *** Children *)

Definition u8 (z : Z) : Z := z mod 256.

Fixpoint next_child (count : nat) (i : nat) (ch : list (option node)) : Z :=
  match count with
  | O => -1
  | S count' => match ch !! i with Some (Some _) => Z.of_nat i | _ => next_child count' (S i) ch end
  end.

(** [for (uint8_t i = child_idx + 1; i < kMaxChildren; i++)]. *)
Definition getNextChildIdx (p : node) (child_idx : Z) : Z :=
  let i := Z.to_nat (u8 (child_idx + 1)) in next_child (kMaxChildren - i) i (children_of p).

Definition hasNextChild (p : node) (child_idx : Z) : bool := negb (bool_decide (getNextChildIdx p (u8 child_idx) = -1)).

Definition updateLastVisitedChild (e : TriePathEntry) (idx : Z) (l : list TriePathEntry) : list TriePathEntry :=
  let l := match l with
           | b :: l' => if decide (parent_at b = parent_at e) then l' else l
           | [] => l
           end in
  mkEntry (parent_at e) (parent e) idx :: l.

(** *** Positions *)

Definition isValid (s : t) : bool := match current_ s with Some (_, n) => bool_decide (is_Some (node_value n)) | None => false end.

(** The inner loops of [next]: entries without a next child are dropped. *)
Fixpoint ascend (l : list TriePathEntry) : list TriePathEntry :=
  match l with
  | [] => []
  | e :: l' => if hasNextChild (parent e) (child_idx e) then l else ascend l'
  end.

(** A branch gets an entry of its own, before its first child. *)
Definition entered (at_ : list nat) (n : node) (l : list TriePathEntry) : list TriePathEntry :=
  match n with
  | Branch _ _ _ =>
      match l with
      | b :: _ => if decide (parent_at b = at_) then l else mkEntry at_ n (-1) :: l
      | [] => [mkEntry at_ n (-1)]
      end
  | _ => l
  end.

(** One turn of the loop of [next]; the flag tells that the end was reached. *)
Definition turn : act t (outcome bool) := fun s =>
  match current_ s with
  | None => Err undefined_behaviour
  | Some (_, Dummy _) => Ok (Ok false, s)
  | Some (at_, n) =>
      match ascend (entered at_ n (last_visited_child_ s)) with
      | [] => Ok (Ok true, mk None (visited_root_ s) [])
      | e :: l' =>
          let i := getNextChildIdx (parent e) (u8 (child_idx e)) in
          match retrieveChild load (children_of (parent e)) (Z.to_nat i) with
          | Err out_of_fuel => Err out_of_fuel
          | Err undefined_behaviour => Err undefined_behaviour
          | Err err => Ok (Err err, mk (current_ s) (visited_root_ s) (e :: l'))
          | Ok None => Err undefined_behaviour
          | Ok (Some c) =>
              Ok (Ok false, mk (Some (parent_at e ++ [Z.to_nat i], c)) (visited_root_ s) (updateLastVisitedChild e i (e :: l')))
          end
      end
  end.

Fixpoint advance (fuel : nat) : act t (outcome unit) :=
  match fuel with
  | O => fun _ => Err out_of_fuel
  | S fuel' =>
      TRY done ← turn;
      if done : bool then mret (Ok tt) else
      valid ← gets isValid;
      if valid : bool then mret (Ok tt) else advance fuel'
  end.

Definition next (fuel : nat) : act t (outcome unit) := fun s =>
  let s := if visited_root_ s then s else mk (pair [] <$> root) false (last_visited_child_ s) in
  match current_ s with
  | None => Ok (Err (cursor_error (match root with None => NULL_ROOT | Some _ => INVALID_CURSOR_POSITION end)), s)
  | Some _ =>
      let visited := visited_root_ s in
      let s := mk (current_ s) true (last_visited_child_ s) in
      if negb visited && bool_decide (is_Some (root ≫= node_value)) then Ok (Ok tt, s)
      else advance fuel s
  end.

Definition seekToFirst (fuel : nat) : act t (outcome unit) := fun s =>
  next fuel (mk (pair [] <$> root) false (last_visited_child_ s)).

(** The entries of a path from the root, at a position. *)
Fixpoint path_entries (at_ : list nat) (path : list (node * nat)) (acc : list TriePathEntry) : list TriePathEntry :=
  match path with
  | [] => acc
  | (branch, idx) :: path' => path_entries (at_ ++ [idx]) path' (mkEntry at_ branch (Z.of_nat idx) :: acc)
  end.

Definition constructLastVisitedChildPath (key : bytes) : outcome (list (node * nat)) :=
  getPath load (trie_fuel (keyToNibbles key)) root (keyToNibbles key).

Definition seek (key : bytes) : act t (outcome unit) := fun s =>
  match root with
  | None => Ok (Err (cursor_error NULL_ROOT), mk None (visited_root_ s) (last_visited_child_ s))
  | Some _ =>
      let s := mk (current_ s) true (last_visited_child_ s) in
      match constructLastVisitedChildPath key with
      | Err out_of_fuel => Err out_of_fuel
      | Err undefined_behaviour => Err undefined_behaviour
      | Err e => Ok (Err e, s)
      | Ok path =>
          match getNode load (trie_fuel (keyToNibbles key)) root (keyToNibbles key) with
          | Err out_of_fuel => Err out_of_fuel
          | Err undefined_behaviour => Err undefined_behaviour
          | Err e => Ok (Err e, s)
          | Ok n =>
              match n ≫= node_value, n with
              | Some _, Some n => Ok (Ok tt, mk (Some (path.*2, n)) true (path_entries [] path []))
              | _, _ => Ok (Err (cursor_error CURSOR_NOT_FOUND), mk None true (last_visited_child_ s))
              end
          end
      end
  end.

Definition createAt (key : bytes) : outcome t :=
  n ← getNode load (trie_fuel (keyToNibbles key)) root (keyToNibbles key);
  path ← constructLastVisitedChildPath key;
  Ok (mk (pair path.*2 <$> n) true (path_entries [] path [])).

(** The loop of [seekToLast] over the children of a branch: every child that is
    there becomes the current node, down to the first one. *)
Fixpoint last_children (i : nat) (at_ : list nat) (branch : node) (cur : list nat * node) (l : list TriePathEntry) :
    outcome ((list nat * node) * list TriePathEntry) :=
  match i with
  | O => Ok (cur, l)
  | S i' =>
      match children_of branch !! i' with
      | None => Err undefined_behaviour
      | Some None => last_children i' at_ branch cur l
      | Some (Some _) =>
          c ← retrieveChild load (children_of branch) i';
          c ← ok_or undefined_behaviour c;
          last_children i' at_ branch (at_ ++ [i'], c) (mkEntry at_ branch (Z.of_nat i') :: l)
      end
  end.

Fixpoint last_loop (fuel : nat) (cur : list nat * node) (l : list TriePathEntry) : outcome ((list nat * node) * list TriePathEntry) :=
  match fuel with
  | O => Err out_of_fuel
  | S fuel' =>
      match cur.2 with
      | Leaf _ _ => Ok (cur, l)
      | Branch _ _ _ => r ← last_children kMaxChildren cur.1 cur.2 cur l; last_loop fuel' r.1 r.2
      | Dummy _ => Err undefined_behaviour
      end
  end.

Definition seekToLast (fuel : nat) : act t (outcome unit) := fun s =>
  match root with
  | None => Ok (Err (cursor_error NULL_ROOT), mk None (visited_root_ s) (last_visited_child_ s))
  | Some n =>
      match last_loop fuel ([], n) [] with
      | Err out_of_fuel => Err out_of_fuel
      | Err undefined_behaviour => Err undefined_behaviour
      | Err e => Ok (Err e, mk (current_ s) true [])
      | Ok (cur, l) => Ok (Ok tt, mk (Some cur) true l)
      end
  end.

(** *** Keys and values *)

Fixpoint key_prefix (l : list TriePathEntry) : KeyNibbles :=
  match l with
  | [] => []
  | e :: l' => key_prefix l' ++ node_key (parent e) ++ [Z.to_nat (u8 (child_idx e))]
  end.

Definition collectKey (n : node) (s : t) : bytes := nibblesToKey (key_prefix (last_visited_child_ s) ++ node_key n).

Definition key (s : t) : outcome bytes :=
  match current_ s with Some (_, n) => Ok (collectKey n s) | None => Err (cursor_error INVALID_CURSOR_POSITION) end.

Definition value (s : t) : outcome bytes :=
  match current_ s with
  | Some (_, n) => ok_or undefined_behaviour (node_value n)
  | None => Err (cursor_error INVALID_CURSOR_POSITION)
  end.

End cursor.
End SuperGeniusTrieCursor.
