(* ===== verification/TrieCursorProps.v ===== *)
(** * The cursor visits every entry, in the order of the keys

    The nodes of a trie in the order in which the cursor reaches them are
    [visits]; what is still to come from a state of the cursor is [todo], and a
    turn of its loop takes the first of it.

    A walk from the first entry reads every entry of the trie once, in the order
    of the keys; from an entry that is sought the next one is the least above
    it.  At the end, what the cursor does when it is used again and what
    [seekToLast] does. *)

From S2P Require Import Prelude Scale ScaleProps Trie TrieLemmas TrieProps TrieMap TrieCursor Store.
Import SuperGeniusTrieCursor.

Open Scope nat_scope.

(** ** The nodes in order *)

(** A node with its position and its full key. *)
Definition item : Type := list nat * KeyNibbles * node.

Section order.
Context (load : node -> outcome (option node)) {HL : Loader load}.

Notation child n i := (child_at load (children_of n) i).

Definition over_children (f : nat -> node -> list item) (n : node) (k : nat) : list item :=
  concat ((fun i => match child n i with Some c => f i c | None => [] end) <$> seq k (16 - k)).

(** A node before its children, the children in order. *)
Fixpoint visits (d : nat) (n : node) (at_ : list nat) (pre : KeyNibbles) : list item :=
  match d with
  | O => []
  | S d => (at_, pre ++ node_key n, n) :: over_children (fun i c => visits d c (at_ ++ [i]) (pre ++ node_key n ++ [i])) n 0
  end.

Lemma over_children_ext f g n k : (forall i c, k <= i < 16 -> child n i = Some c -> f i c = g i c) -> over_children f n k = over_children g n k.
Proof.
  intros H. unfold over_children. f_equal. apply list_fmap_ext. intros j i Hi. apply lookup_seq in Hi as [-> Hi].
  destruct (child n _) as [c|] eqn:E; [|done]. apply H; [lia|done].
Qed.

Lemma node_children_of n : node_children n = children_of n.
Proof. done. Qed.

Lemma child_inv d n i c : inv load any_branch (S d) n -> i < 16 -> child n i = Some c -> inv load any_branch d c.
Proof.
  intros Hn Hi Hc. destruct n as [k v|k v ch|]; [by destruct i| |done]. by apply (inv_child load any_branch d k v ch i Hn Hi).
Qed.

Lemma visits_mono d n at_ pre : inv load any_branch d n -> visits d n at_ pre = visits (S d) n at_ pre.
Proof.
  revert n at_ pre. induction d as [|d IH]; intros n at_ pre Hn; [done|].
  change (visits (S (S d)) n at_ pre) with ((at_, pre ++ node_key n, n) :: over_children (fun i c => visits (S d) c (at_ ++ [i]) (pre ++ node_key n ++ [i])) n 0).
  cbn [visits]. f_equal. apply over_children_ext. intros i c Hi Hc. apply IH. apply (child_inv d n i c); [done|lia|done].
Qed.

(** ** What is to come *)

Context (D : nat).

Definition at_child (at_ : list nat) (pre : KeyNibbles) (n : node) (i : nat) (c : node) : list item :=
  visits D c (at_ ++ [i]) (pre ++ node_key n ++ [i]).

Lemma visits_unfold n at_ pre : inv load any_branch D n -> visits D n at_ pre = (at_, pre ++ node_key n, n) :: over_children (at_child at_ pre n) n 0.
Proof.
  intros Hn. destruct D as [|d] eqn:E; [done|]. cbn [visits]. f_equal. unfold at_child. rewrite E. apply over_children_ext.
  intros i c Hi Hc. apply visits_mono. apply (child_inv d n i c); [done|lia|done].
Qed.

(** The entries are branches above [at_], the nearest first. *)
Fixpoint stack_ok (at_ : list nat) (l : list TriePathEntry) : Prop :=
  match l with
  | [] => True
  | e :: l' => length (parent_at e) < length at_ /\ inv load any_branch D (parent e) /\ (-1 <= child_idx e < 16)%Z /\
      is_Some (match parent e with Branch k _ _ => Some k | _ => None end) /\ stack_ok (parent_at e) l'
  end.

Fixpoint rest (l : list TriePathEntry) : list item :=
  match l with
  | [] => []
  | e :: l' => over_children (at_child (parent_at e) (key_prefix l') (parent e)) (parent e) (Z.to_nat (child_idx e + 1)) ++ rest l'
  end.

Definition todo (at_ : list nat) (n : node) (l : list TriePathEntry) : list item :=
  over_children (at_child at_ (key_prefix l) n) n 0 ++ rest l.

(** *** The next child *)

Lemma u8_next z : (-1 <= z < 16)%Z -> u8 (u8 z + 1) = (z + 1)%Z.
Proof. intros Hz. unfold u8. rewrite Zplus_mod_idemp_l. apply Z.mod_small. lia. Qed.

Lemma child_present d n i : inv load any_branch (S d) n -> (exists c, children_of n !! i = Some (Some c)) <-> is_Some (child n i).
Proof.
  intros Hn. unfold child_at, retrieveChild. split.
  - intros [c Hc]. rewrite Hc. destruct n as [k v|k v ch|]; [done| |done]. destruct Hn as (_ & _ & _ & Hch).
    destruct (Hch i c Hc) as (c' & -> & _). by exists c'.
  - intros [c Hc]. destruct (children_of n !! i) as [[x|]|]; [by exists x|done|done].
Qed.

Lemma over_children_step f n k : k < 16 ->
  over_children f n k = match child n k with Some c => f k c | None => [] end ++ over_children f n (S k).
Proof. intros Hk. unfold over_children. replace (16 - k) with (S (16 - S k)) by lia. done. Qed.

Lemma next_child_spec n count i : inv load any_branch D n -> (i + count = 16)%nat ->
  (next_child count i (children_of n) = (-1)%Z /\ forall f, over_children f n i = []) \/
  exists j c, next_child count i (children_of n) = Z.of_nat j /\ i <= j < 16 /\ child n j = Some c /\
    forall f, over_children f n i = f j c ++ over_children f n (S j).
Proof.
  intros Hn. destruct D as [|d] eqn:ED; [done|]. revert i. induction count as [|count IH]; intros i Hi; cbn [next_child].
  - left. split; [done|]. intros f. unfold over_children. by replace (16 - i) with 0 by lia.
  - destruct (children_of n !! i) as [[x|]|] eqn:E.
    + assert (is_Some (child n i)) as [c Hc] by (apply (child_present d); [done|eauto]). right. exists i, c.
      split_and!; [done|lia|lia|done|]. intros f. rewrite over_children_step, Hc by lia. done.
    + destruct (IH (S i)) as [[-> Hf]|(j & c & -> & Hj & Hc & Hf)]; [lia| |];
        assert (child n i = None) as Hnone by (unfold child_at, retrieveChild; by rewrite E).
      * left. split; [done|]. intros f. by rewrite over_children_step, Hnone, Hf by lia.
      * right. exists j, c. split_and!; [done|lia|lia|done|]. intros f. by rewrite over_children_step, Hnone, Hf by lia.
    + destruct (IH (S i)) as [[-> Hf]|(j & c & -> & Hj & Hc & Hf)]; [lia| |];
        assert (child n i = None) as Hnone by (unfold child_at, retrieveChild; by rewrite E).
      * left. split; [done|]. intros f. by rewrite over_children_step, Hnone, Hf by lia.
      * right. exists j, c. split_and!; [done|lia|lia|done|]. intros f. by rewrite over_children_step, Hnone, Hf by lia.
Qed.

Lemma getNext_spec n z : inv load any_branch D n -> (-1 <= z < 16)%Z ->
  (getNextChildIdx n (u8 z) = (-1)%Z /\ forall f, over_children f n (Z.to_nat (z + 1)) = []) \/
  exists j c, getNextChildIdx n (u8 z) = Z.of_nat j /\ (j < 16)%nat /\ child n j = Some c /\
    forall f, over_children f n (Z.to_nat (z + 1)) = f j c ++ over_children f n (S j).
Proof.
  intros Hn Hz. unfold getNextChildIdx. rewrite u8_next by done. unfold kMaxChildren.
  destruct (next_child_spec n (16 - Z.to_nat (z + 1)) (Z.to_nat (z + 1)) Hn) as [H|(j & c & ? & ? & H)]; [lia|by left|].
  right. exists j, c. split_and!; [done|lia|apply H|apply H].
Qed.

(** *** A turn of the loop *)

Lemma ascend_spec at_ l : stack_ok at_ l ->
  (ascend l = [] /\ rest l = []) \/
  exists e l' j c, ascend l = e :: l' /\ stack_ok (parent_at e ++ [j]) (e :: l') /\ getNextChildIdx (parent e) (u8 (child_idx e)) = Z.of_nat j /\
    j < 16 /\ child (parent e) j = Some c /\
    rest l = at_child (parent_at e) (key_prefix l') (parent e) j c ++
      over_children (at_child (parent_at e) (key_prefix l') (parent e)) (parent e) (S j) ++ rest l'.
Proof.
  revert at_. induction l as [|e l IH]; intros at_ Hl; [by left|]. destruct Hl as (Hlen & He & Hi & Hb & Hl). cbn [ascend rest].
  unfold hasNextChild. destruct (getNext_spec (parent e) (child_idx e) He Hi) as [[-> Hf]|(j & c & Hj & Hlt & Hc & Hf)].
  - rewrite bool_decide_eq_true_2 by done. cbn [negb]. rewrite Hf. by apply (IH (parent_at e)).
  - rewrite Hj, bool_decide_eq_false_2 by lia. cbn [negb]. right. exists e, l, j, c. split_and!; try done.
    + cbn. rewrite length_app. cbn. split_and!; done || lia.
    + by rewrite Hf, <- (assoc_L (++)).
Qed.

(** The state of the cursor at a node. *)
Definition at_node (s : t) (at_ : list nat) (n : node) : Prop :=
  current_ s = Some (at_, n) /\ inv load any_branch D n /\ stack_ok at_ (last_visited_child_ s).

Definition todo_of (s : t) (at_ : list nat) (n : node) : list item := todo at_ n (last_visited_child_ s).

(** The cursor is at the first of [l], or at the end when there is none. *)
Definition positioned (s : t) (l : list item) : Prop :=
  match l with
  | [] => current_ s = None
  | (at_, k, n) :: l' => at_node s at_ n /\ k = key_prefix (last_visited_child_ s) ++ node_key n /\ todo_of s at_ n = l'
  end.

Lemma rest_pushed at_ n l : rest (mkEntry at_ n (-1) :: l) = todo at_ n l.
Proof. done. Qed.

Lemma entered_spec at_ n l : inv load any_branch D n -> stack_ok at_ l ->
  stack_ok (at_ ++ [0]) (entered at_ n l) /\ rest (entered at_ n l) = todo at_ n l.
Proof.
  intros Hn Hl. unfold todo. assert (match n with Dummy _ => False | _ => True end) as Hreal by (by destruct D, n).
  destruct n as [k v|k v ch|]; [| |done]; cbn [entered].
  - split; [|done]. destruct l as [|b l]; [done|]. destruct Hl as (? & ?). split; [rewrite length_app; lia|done].
  - assert (match l with b :: _ => if decide (parent_at b = at_) then l else mkEntry at_ (Branch k v ch) (-1) :: l
      | [] => [mkEntry at_ (Branch k v ch) (-1)] end = mkEntry at_ (Branch k v ch) (-1) :: l) as ->.
    { destruct l as [|b l]; [done|]. rewrite decide_False; [done|]. intros E. destruct Hl as (Hlen & _). rewrite E in Hlen. lia. }
    split; [|by rewrite rest_pushed]. cbn. rewrite length_app. cbn. split_and!; try done; lia.
Qed.

Lemma positioned_child s e l' j c : stack_ok (parent_at e ++ [j]) (e :: l') -> j < 16 -> child (parent e) j = Some c ->
  positioned (mk (Some (parent_at e ++ [j], c)) (visited_root_ s) (updateLastVisitedChild e (Z.of_nat j) (e :: l')))
    (at_child (parent_at e) (key_prefix l') (parent e) j c ++
      over_children (at_child (parent_at e) (key_prefix l') (parent e)) (parent e) (S j) ++ rest l').
Proof.
  intros (_ & He & Hi & Hb & Hst) Hlt Hch.
  assert (inv load any_branch D c) as Hci.
  { destruct D as [|d] eqn:ED; [done|]. apply inv_mono with d; [|lia]. by apply (child_inv d (parent e) j c). }
  assert (u8 (Z.of_nat j) = Z.of_nat j) as Hu by (unfold u8; apply Z.mod_small; lia).
  unfold at_child at 1. rewrite visits_unfold by done. cbn [app]. unfold updateLastVisitedChild. rewrite decide_True by done. split; [|split].
  - split; [done|]. split; [done|]. cbn. rewrite length_app. cbn. split_and!; done || lia.
  - cbn. rewrite Hu, Nat2Z.id. by rewrite <- !(assoc_L (++)).
  - unfold todo_of, todo. cbn [last_visited_child_ rest key_prefix child_idx parent parent_at].
    rewrite Hu, Nat2Z.id. by replace (Z.to_nat (Z.of_nat j + 1)) with (S j) by lia.
Qed.

Lemma turn_spec s at_ n : at_node s at_ n -> exists s', turn load s = Ok (Ok (bool_decide (todo_of s at_ n = [])), s') /\
  visited_root_ s' = visited_root_ s /\ positioned s' (todo_of s at_ n).
Proof.
  intros (Hc & Hn & Hl). destruct (entered_spec at_ n _ Hn Hl) as [Hl' Hr]. unfold turn, todo_of. rewrite Hc, <- Hr.
  assert (match n with Dummy _ => False | _ => True end) as Hreal by (by destruct D, n).
  destruct (ascend_spec _ _ Hl') as [[Ha Hr0]|(e & l' & j & c & Ha & Hst & Hj & Hlt & Hch & Hre)].
  - rewrite Ha, Hr0. eexists. by destruct n.
  - rewrite Ha, Hj, Nat2Z.id, Hre. pose proof (positioned_child s e l' j c Hst Hlt Hch) as Hp.
    assert (retrieveChild load (children_of (parent e)) j = Ok (Some c)) as ->.
    { unfold child_at in Hch. destruct (retrieveChild _ _ _); [by subst|done]. }
    rewrite bool_decide_eq_false_2 by (intros E; rewrite E in Hp; discriminate Hp).
    eexists. by destruct n.
Qed.

(** *** The loop *)

(** From the first node with a value on. *)
Fixpoint skip (l : list item) : list item :=
  match l with
  | [] => []
  | x :: l' => if decide (is_Some (node_value x.2)) then l else skip l'
  end.

Lemma skip_length l : length (skip l) <= length l.
Proof. induction l as [|x l IH]; cbn; [done|]. case_decide; cbn; lia. Qed.

Lemma skip_suffix l : exists p, l = p ++ skip l.
Proof. induction l as [|x l [p IH]]; [by exists []|]. cbn. case_decide; [by exists []|]. exists (x :: p). cbn. by rewrite <- IH. Qed.

Lemma skip_elem l x : x ∈ skip l -> x ∈ l.
Proof. destruct (skip_suffix l) as [p Hp]. intros Hx. rewrite Hp. apply elem_of_app. by right. Qed.

Lemma skip_keeps l x v : x ∈ l -> node_value x.2 = Some v -> x ∈ skip l.
Proof.
  intros Hx Hv. induction l as [|y l IH]; [done|]. cbn. case_decide as Hy; [done|].
  apply elem_of_cons in Hx as [->|Hx]; [destruct Hy; eauto|by apply IH].
Qed.

Lemma positioned_valid s l : positioned s l -> isValid s = match l with x :: _ => bool_decide (is_Some (node_value x.2)) | [] => false end.
Proof. destruct l as [|[[at_ k] n] l]; cbn; unfold isValid; [by intros ->|]. by intros [[-> _] _]. Qed.

Lemma advance_spec fuel s at_ n : at_node s at_ n -> length (todo_of s at_ n) < fuel ->
  exists s', advance load fuel s = Ok (Ok tt, s') /\ visited_root_ s' = visited_root_ s /\ positioned s' (skip (todo_of s at_ n)).
Proof.
  revert s at_ n. induction fuel as [|fuel IH]; intros s at_ n Hs Hf; [lia|].
  destruct (turn_spec s at_ n Hs) as (s1 & Ht & Hv & Hp). cbn [advance]. unfold try, mbind, act_bind. rewrite Ht.
  pose proof (positioned_valid _ _ Hp) as Hval. destruct (todo_of s at_ n) as [|[[at1 k1] n1] l] eqn:El; cbn [bool_decide].
  - rewrite bool_decide_eq_true_2 by done. by exists s1.
  - rewrite bool_decide_eq_false_2 by done. unfold gets. rewrite Hval. cbn [skip snd]. destruct (decide (is_Some (node_value n1))) as [Hn|Hn]; [rewrite bool_decide_eq_true_2 by done; by exists s1|rewrite bool_decide_eq_false_2 by done].
    destruct Hp as (Hn1 & _ & Htodo). destruct (IH s1 at1 n1 Hn1) as (s2 & H2 & Hv2 & Hp2); [rewrite Htodo; cbn in Hf; lia|].
    exists s2. rewrite H2, Hv2, <- Htodo. by split_and!.
Qed.
End order.

(** ** Entries *)

Definition entries (l : list item) : list (KeyNibbles * bytes) := omap (fun x => pair x.1.2 <$> node_value x.2) l.

Lemma entries_skip l : entries (skip l) = entries l.
Proof. induction l as [|x l IH]; [done|]. cbn. case_decide as Hx; [done|]. destruct (node_value x.2); [|done]. destruct Hx. eauto. Qed.

Lemma entries_app l l' : entries (l ++ l') = entries l ++ entries l'.
Proof. apply omap_app. Qed.

(** The order of the keys. *)
Fixpoint nib_lt (a b : KeyNibbles) : Prop :=
  match a, b with
  | _, [] => False
  | [], _ :: _ => True
  | x :: a, y :: b => x < y \/ x = y /\ nib_lt a b
  end.

Lemma nib_lt_app p a b : nib_lt (p ++ a) (p ++ b) <-> nib_lt a b.
Proof. induction p as [|x p IH]; [done|]. cbn. rewrite IH. split; [intros [?|[_ ?]]; [lia|done]|by right]. Qed.

Lemma nib_lt_key a b : nib_lt (keyToNibbles a) (keyToNibbles b) <-> lex_lt uchar a b = true.
Proof.
  revert b. induction a as [|x a IH]; intros [|y b]; rewrite ?keyToNibbles_cons, ?nibbles_of_eq; [done|done|done|]. cbn [app nib_lt lex_lt].
  rewrite IH. pose proof (uchar_range x). pose proof (uchar_range y).
  assert (uchar x < uchar y <-> (Z.to_nat (uchar x / 16) < Z.to_nat (uchar y / 16))%nat \/
    Z.to_nat (uchar x / 16) = Z.to_nat (uchar y / 16) /\ (Z.to_nat (uchar x mod 16) < Z.to_nat (uchar y mod 16))%nat)%Z as Hlt by div_mod_lia.
  assert (uchar x = uchar y <-> Z.to_nat (uchar x / 16) = Z.to_nat (uchar y / 16) /\ Z.to_nat (uchar x mod 16) = Z.to_nat (uchar y mod 16))%Z as Heq by div_mod_lia.
  destruct (Z.ltb_spec (uchar x) (uchar y)); [split; [done|intros _; tauto]|].
  destruct (Z.ltb_spec (uchar y) (uchar x)); [split; [intros Hor; exfalso|done]; assert (~ uchar x = uchar y)%Z by lia; assert (~ uchar x < uchar y)%Z by lia; tauto|].
  assert (uchar x = uchar y) as E by lia. apply Heq in E. assert (~ uchar x < uchar y)%Z by lia. tauto.
Qed.

Section sorted.
Context (load : node -> outcome (option node)) {HL : Loader load}.

Definition key_of (x : item) : KeyNibbles := x.1.2.
Definition item_lt (x y : item) : Prop := nib_lt (key_of x) (key_of y).

Lemma over_children_elem f n k x :
  x ∈ over_children load f n k <-> exists i c, k <= i < 16 /\ child_at load (children_of n) i = Some c /\ x ∈ f i c.
Proof.
  unfold over_children. rewrite list_elem_of_In, in_concat. setoid_rewrite <- list_elem_of_In. setoid_rewrite list_elem_of_fmap. split.
  - intros (l & (i & -> & Hi) & Hx). apply elem_of_seq in Hi. destruct (child_at _ _ i) as [c|] eqn:E; [|by apply not_elem_of_nil in Hx].
    exists i, c. split_and!; [lia|lia|done|done].
  - intros (i & c & Hi & Hc & Hx). exists (f i c). split; [|done]. exists i. rewrite Hc. split; [done|]. apply elem_of_seq. lia.
Qed.

Lemma visits_prefix d n at_ pre x : x ∈ visits load d n at_ pre -> (pre ++ node_key n) `prefix_of` key_of x.
Proof.
  revert n at_ pre. induction d as [|d IH]; intros n at_ pre Hx; [by apply not_elem_of_nil in Hx|]. cbn [visits] in Hx.
  apply elem_of_cons in Hx as [->|Hx]; [done|]. apply over_children_elem in Hx as (i & c & _ & _ & Hx).
  apply IH in Hx. etrans; [|exact Hx]. exists ([i] ++ node_key c). by rewrite <- !(assoc_L (++)).
Qed.

Lemma over_children_sorted f n k (P : KeyNibbles) :
  (forall i c, StronglySorted item_lt (f i c)) -> (forall i c x, x ∈ f i c -> exists s, key_of x = P ++ i :: s) ->
  StronglySorted item_lt (over_children load f n k).
Proof.
  intros Hs Hp. remember (16 - k) as m eqn:Em. revert k Em. induction m as [|m IH]; intros k Em.
  - unfold over_children. rewrite <- Em. constructor.
  - rewrite over_children_step by lia. apply StronglySorted_app. split_and!; [|destruct (child_at _ _ _); [apply Hs|constructor]|apply IH; lia].
    intros x y Hx Hy. destruct (child_at _ _ _) as [c|]; [|by apply not_elem_of_nil in Hx]. destruct (Hp k c x Hx) as (s & Ex).
    apply over_children_elem in Hy as (i & c' & Hi & _ & Hy). destruct (Hp i c' y Hy) as (s' & Ey).
    unfold item_lt. rewrite Ex, Ey, nib_lt_app. cbn. lia.
Qed.

Lemma below_prefix d c at_ pre i x : x ∈ visits load d c at_ (pre ++ [i]) -> exists s, key_of x = pre ++ i :: s.
Proof. intros [s ->]%visits_prefix. eexists. by rewrite <- !(assoc_L (++)). Qed.

Lemma visits_sorted d n at_ pre : StronglySorted item_lt (visits load d n at_ pre).
Proof.
  revert n at_ pre. induction d as [|d IH]; intros n at_ pre; [constructor|]. cbn [visits]. constructor.
  - apply (over_children_sorted _ _ _ (pre ++ node_key n)); [intros i c; apply IH|]. intros i c x Hx. rewrite (assoc_L (++)) in Hx. by eapply below_prefix.
  - apply Forall_forall. intros x Hx. apply over_children_elem in Hx as (i & c & _ & _ & Hx). rewrite (assoc_L (++)) in Hx.
    apply below_prefix in Hx as (s & Hx). unfold item_lt. rewrite Hx. unfold key_of. cbn.
    rewrite <- (app_nil_r (pre ++ node_key n)) at 1. by rewrite nib_lt_app.
Qed.

Lemma entries_elem l k v : (k, v) ∈ entries l <-> exists x, x ∈ l /\ key_of x = k /\ node_value x.2 = Some v.
Proof.
  unfold entries, key_of. rewrite list_elem_of_omap. split; intros (x & Hx & H); exists x; split; try done.
  - destruct (node_value x.2); [|done]. by injection H as <- <-.
  - destruct H as [<- ->]. done.
Qed.

Lemma visits_elem d n at_ pre k v : inv load any_branch d n ->
  (k, v) ∈ entries (visits load d n at_ pre) <-> exists k', k = pre ++ k' /\ find load n k' = Some v.
Proof.
  revert n at_ pre k. induction d as [|d IH]; intros n at_ pre k Hn; [done|]. cbn [visits]. rewrite entries_elem.
  setoid_rewrite elem_of_cons. unfold find. setoid_rewrite walk_strip. split.
  - intros (x & [->|Hx] & Hk & Hv).
    + exists (node_key n). split; [done|]. by rewrite strip_self.
    + apply over_children_elem in Hx as (i & c & Hi & Hc & Hx).
      destruct (proj1 (IH c (at_ ++ [i]) (pre ++ node_key n ++ [i]) k (child_inv load d n i c Hn ltac:(lia) Hc))) as (s & -> & Hs); [apply entries_elem; eauto|].
      exists (node_key n ++ i :: s). split; [by rewrite <- !(assoc_L (++))|]. rewrite strip_app_eq. cbn. unfold find_root.
      change (node_children n) with (children_of n). by rewrite Hc.
  - intros (k' & -> & Hf). destruct (strip _ _) as [s|] eqn:E; [|done]. apply strip_Some in E as ->. cbn in Hf. destruct s as [|i s]; cbn in Hf.
    + exists (at_, pre ++ node_key n, n). split; [by left|]. by rewrite app_nil_r.
    + unfold find_root in Hf. change (node_children n) with (children_of n) in Hf. destruct (child_at load (children_of n) i) as [c|] eqn:Hc; [|done]. cbn in Hf.
      assert (i < 16) as Hi.
      { unfold child_at, retrieveChild in Hc. destruct (children_of n !! i) as [o|] eqn:Eo; [|done]. apply lookup_lt_Some in Eo.
        destruct n as [? ?|? ? ch|]; [cbn in Eo; lia| |done]. destruct Hn as (_ & Hl & _). cbn in Eo. lia. }
      pose proof (proj2 (IH c (at_ ++ [i]) (pre ++ node_key n ++ [i]) ((pre ++ node_key n ++ [i]) ++ s) (child_inv load d n i c Hn Hi Hc)) ltac:(eauto)) as Hin.
      apply entries_elem in Hin as (x & Hx & Hk & Hv). exists x. split_and!; [|by rewrite Hk, <- !(assoc_L (++))|done].
      right. apply over_children_elem. exists i, c. split_and!; [lia|done|done|done].
Qed.
End sorted.

(** ** What the cursor of the trie promises *)

Import SuperGeniusTrieCursor.

Open Scope nat_scope.

Section theorems.
Context (load : node -> outcome (option node)) {HL : Loader load}.
Context (D : nat) (n : node).
Hypothesis Hn : inv load any_branch D n.

Notation root := (Some n).
Notation items := (visits load D n [] []).

(** The cursor is at the first of [l], which has a value, or at the end. *)
Definition ready (s : t) (l : list item) : Prop :=
  visited_root_ s = true /\ positioned load D s l /\ match l with x :: _ => is_Some (node_value x.2) | [] => True end.

Lemma ready_skip s l : visited_root_ s = true -> positioned load D s (skip l) -> ready s (skip l).
Proof.
  intros Hv Hp. split_and!; [done..|]. clear Hp. induction l as [|x l IH]; [done|]. cbn. by case_decide.
Qed.

Lemma next_ready fuel s x l : ready s (x :: l) -> length l < fuel ->
  exists s', next load root fuel s = Ok (Ok tt, s') /\ ready s' (skip l).
Proof.
  destruct x as [[at_ k] m]. intros (Hv & (Hm & _ & Ht) & _) Hf. unfold next. rewrite Hv. pose proof Hm as [Hc Hrest]. rewrite Hc, Hv. cbn [negb andb].
  destruct (advance_spec load D fuel (mk (current_ s) true (last_visited_child_ s)) at_ m) as (s' & Ha & Hv' & Hp);
    [by split|unfold todo_of in *; cbn [last_visited_child_]; by rewrite Ht|].
  exists s'. rewrite Hc in Ha. split; [exact Ha|]. unfold todo_of in *. cbn [last_visited_child_] in Hp. rewrite Ht in Hp. by apply ready_skip.
Qed.

Lemma next_end fuel s : ready s [] -> next load root fuel s = Ok (Err (cursor_error INVALID_CURSOR_POSITION), s).
Proof. intros (Hv & Hc & _). unfold next. rewrite Hv. cbn in Hc. by rewrite Hc. Qed.

(** On a cursor that has not been used. *)
Lemma first_ready fuel s : last_visited_child_ s = [] -> length items < fuel ->
  exists s', seekToFirst load root fuel s = Ok (Ok tt, s') /\ ready s' (skip items).
Proof using Hn.
  intros Hl Hf. rewrite (visits_unfold load D n [] [] Hn) in *. cbn [length] in Hf. cbn [skip snd app].
  assert (at_node load D (mk (Some ([], n)) true []) [] n) as Hat by (split_and!; done).
  unfold seekToFirst, next. cbn. rewrite Hl. destruct (node_value n) as [v|] eqn:Ev.
  - eexists. split; [done|]. rewrite decide_True by done. split_and!; try done. split_and!; [done|done|].
    unfold todo_of, todo. cbn [last_visited_child_ key_prefix rest]. by rewrite app_nil_r.
  - destruct (advance_spec load D fuel (mk (Some ([], n)) true []) [] n Hat) as (s' & Ha & Hv & Hp).
    { unfold todo_of, todo. cbn [last_visited_child_ key_prefix rest]. rewrite app_nil_r. lia. }
    exists s'. rewrite Ha. split; [done|]. rewrite decide_False by (intros [? ?]; done).
    unfold todo_of, todo in Hp. cbn [last_visited_child_ key_prefix rest] in Hp. rewrite app_nil_r in Hp. by apply ready_skip.
Qed.

Lemma ready_reads s x l : ready s (x :: l) -> exists v, node_value x.2 = Some v /\ isValid s = true /\
  key s = Ok (nibblesToKey (key_of x)) /\ value s = Ok v.
Proof.
  destruct x as [[at_ k] m]. intros (_ & Hp & [v Hv]). exists v. cbn in Hv. split; [done|]. destruct Hp as ([Hc _] & -> & _).
  unfold isValid, key, value, collectKey. rewrite Hc, Hv. done.
Qed.

(** ** A walk *)

(** What a client reads that goes on to the end. *)
Fixpoint collect (count fuel : nat) : act t (list (bytes * bytes)) :=
  match count with
  | O => fun _ => Err out_of_fuel
  | S count' =>
      s ← gets (fun s => s);
      if isValid s then
        k ← lift (key s); v ← lift (value s); _ ← next load root fuel; r ← collect count' fuel; mret ((k, v) :: r)
      else mret []
  end.

Definition walk_all (fuel : nat) : act t (list (bytes * bytes)) := _ ← seekToFirst load root fuel; collect fuel fuel.

Lemma collect_ready count fuel s l : ready s (skip l) -> length l < fuel -> length l < count ->
  exists s', collect count fuel s = Ok (prod_map nibblesToKey id <$> entries l, s') /\ ready s' [].
Proof.
  revert s l. induction count as [|count IH]; intros s l Hs Hf Hc; [lia|]. cbn [collect]. unfold mbind, act_bind, gets, lift, mret, act_ret.
  rewrite <- (entries_skip l). pose proof (skip_length l) as Hle. destruct (skip l) as [|x l'] eqn:El.
  - assert (isValid s = false) as -> by (destruct Hs as (_ & Hp & _); by rewrite (positioned_valid _ _ _ _ Hp)). by exists s.
  - destruct (ready_reads s x l' Hs) as (v & Hv & -> & -> & ->). cbn in Hle. destruct (next_ready fuel s x l' Hs) as (s1 & -> & Hs1); [lia|].
    destruct (IH s1 l' Hs1) as (s2 & -> & Hs2); [lia|lia|]. exists s2. split; [|done]. unfold entries. cbn. by rewrite Hv.
Qed.

(** The keys of the trie are whole bytes. *)
Definition byte_keys : Prop := forall k v, find load n k = Some v -> exists b, k = keyToNibbles b.

Lemma items_elem k v : (k, v) ∈ entries items <-> find load n k = Some v.
Proof using Hn. rewrite (visits_elem load D n [] [] k v Hn). split; [by intros (? & -> & ?)|eauto]. Qed.

Lemma item_key x v : byte_keys -> x ∈ items -> node_value x.2 = Some v -> key_of x = keyToNibbles (nibblesToKey (key_of x)).
Proof using Hn.
  intros Hb Hx Hv. destruct (Hb (key_of x) v) as [b Hk]; [apply items_elem, entries_elem; eauto|]. by rewrite Hk, nibblesToKey_keyToNibbles.
Qed.

Lemma entries_sorted l : byte_keys -> (forall x, x ∈ l -> x ∈ items) -> StronglySorted item_lt l ->
  StronglySorted key_lt (prod_map nibblesToKey id <$> entries l).
Proof using Hn.
  intros Hb Hl Hs. induction Hs as [|x l Hs IH Hx]; [constructor|]. unfold entries. cbn. specialize (IH (fun y Hy => Hl y (list_elem_of_further _ _ _ Hy))).
  destruct (node_value x.2) as [v|] eqn:Ev; [|done]. cbn. constructor; [done|]. apply Forall_fmap, Forall_forall. intros [k w] Hin.
  apply entries_elem in Hin as (y & Hy & <- & Hw). rewrite Forall_forall in Hx. specialize (Hx y Hy). unfold key_lt. apply nib_lt_key. cbn.
  assert (x ∈ items) as Hxi by (apply Hl; left). assert (y ∈ items) as Hyi by (apply Hl; by right).
  unfold item_lt in Hx. by rewrite (item_key y w Hb Hyi Hw), (item_key x v Hb Hxi Ev) in Hx.
Qed.

Lemma walk_enumerates : byte_keys -> exists bound, forall fuel, bound <= fuel ->
  exists l s, walk_all fuel new = Ok (l, s) /\ StronglySorted key_lt l /\
    forall k v, (k, v) ∈ l <-> lookup load root k = Some v.
Proof using Hn.
  intros Hb. exists (S (length items)). intros fuel Hf. unfold walk_all, mbind, act_bind.
  destruct (first_ready fuel new eq_refl) as (s1 & -> & Hs1); [lia|]. destruct (collect_ready fuel fuel s1 items Hs1) as (s2 & -> & _); [lia|lia|].
  eexists _, s2. split; [done|]. split; [apply entries_sorted; [done|done|apply visits_sorted]|].
  intros k v. unfold lookup. cbn [find_root option_bind mbind]. rewrite <- items_elem. rewrite list_elem_of_fmap. split.
  - intros ([k' v'] & [= -> ->] & Hin). cbn. apply entries_elem in Hin as Hin'. destruct Hin' as (x & Hx & <- & Hv). by rewrite <- (item_key x v' Hb).
  - intros Hin. exists (keyToNibbles k, v). cbn. by rewrite nibblesToKey_keyToNibbles.
Qed.

(** ** The next key *)

Lemma over_children_split f m i c : i < 16 -> child_at load (children_of m) i = Some c -> forall k, k <= i ->
  exists before, over_children load f m k = before ++ f i c ++ over_children load f m (S i).
Proof.
  intros Hi Hc k Hk. remember (i - k) as j eqn:Ej. revert k Hk Ej. induction j as [|j IH]; intros k Hk Ej.
  - assert (k = i) as -> by lia. exists []. by rewrite over_children_step, Hc by lia.
  - destruct (IH (S k)) as [b Hb]; [lia|lia|]. eexists (_ ++ b). by rewrite over_children_step, Hb, (assoc_L (++)) by lia.
Qed.

(** The path of a key that is present leads to its node, with what comes after. *)
Lemma seek_path fuel m key v at_ acc : inv load any_branch D m -> stack_ok load D at_ acc -> find load m key = Some v -> length key < fuel ->
  exists path c before, getPath load fuel (Some m) key = Ok path /\ getNode load fuel (Some m) key = Ok (Some c) /\ node_value c = Some v /\
    inv load any_branch D c /\ stack_ok load D (at_ ++ path.*2) (path_entries at_ path acc) /\
    key_prefix (path_entries at_ path acc) ++ node_key c = key_prefix acc ++ key /\
    visits load D m at_ (key_prefix acc) ++ rest load D acc =
      before ++ (at_ ++ path.*2, key_prefix acc ++ key, c) :: todo load D (at_ ++ path.*2) c (path_entries at_ path acc).
Proof using Hn.
  revert m key at_ acc. induction fuel as [|fuel IH]; intros m key at_ acc Hm Hst Hf Hl; [lia|].
  assert (forall pk, pk = key -> node_key m = pk -> node_value m = Some v -> exists before,
    visits load D m at_ (key_prefix acc) ++ rest load D acc = before ++ (at_ ++ [], key_prefix acc ++ key, m) :: todo load D (at_ ++ []) m acc) as Hhere.
  { intros pk <- <- _. exists []. rewrite visits_unfold, app_nil_r by done. done. }
  destruct m as [pk pv|pk pv ch|k]; [| |by destruct D].
  - rewrite find_Leaf in Hf. case_decide as Ek; [subst key|done]. destruct (Hhere pk eq_refl eq_refl Hf) as [b Hb]. exists [], (Leaf pk pv), b. cbn.
    rewrite !decide_True by done. split_and!; try done. by rewrite app_nil_r.
  - rewrite find_Branch in Hf. destruct (strip pk key) as [s|] eqn:E; [|done]. apply strip_Some in E as ->. cbn in Hf. destruct s as [|i s]; cbn in Hf.
    { rewrite app_nil_r in *. destruct (Hhere pk eq_refl eq_refl Hf) as [b Hb]. exists [], (Branch pk pv ch), b. cbn.
      rewrite !decide_True by auto. split_and!; try done. by rewrite app_nil_r. }
    unfold find_root in Hf. destruct (child_at load ch i) as [c|] eqn:Hc; [|done]. cbn in Hf.
    assert (i < 16 /\ inv load any_branch D c) as [Hi Hci].
    { destruct D as [|d]; [done|]. assert (i < 16) as Hi; [|split; [done|apply inv_mono with d; [by apply (child_inv load d (Branch pk pv ch) i c)|lia]]].
      unfold child_at, retrieveChild in Hc. destruct (ch !! i) as [o|] eqn:Eo; [|done]. apply lookup_lt_Some in Eo. destruct Hm as (_ & Hlen & _). lia. }
    assert (retrieveChild load ch i = Ok (Some c)) as Hr by (unfold child_at in Hc; destruct (retrieveChild load ch i); [by subst|done]).
    set (acc' := mkEntry at_ (Branch pk pv ch) (Z.of_nat i) :: acc).
    assert (key_prefix acc' = key_prefix acc ++ pk ++ [i]) as Hkp.
    { cbn. unfold u8. by rewrite Z.mod_small, Nat2Z.id by lia. }
    destruct (IH c s (at_ ++ [i]) acc' Hci) as (path & x & before & Hp & Hg & Hv & Hx & Hst' & Hk & Hvis); [|done|rewrite length_app in Hl; cbn in Hl; lia|].
    { cbn. rewrite length_app. cbn. split_and!; done || lia. }
    exists ((Branch pk pv ch, i) :: path), x. cbn [getPath getNode].
    assert (~ (pk = pk ++ i :: s \/ pk ++ i :: s = [])) as Hd1.
    { intros [Hq|Hq]; [apply (f_equal length) in Hq; rewrite length_app in Hq; cbn in Hq; lia|by destruct pk]. }
    assert (~ (pk = pk ++ i :: s /\ length (pk ++ i :: s) < length pk)) as Hd2 by (rewrite length_app; cbn; lia).
    rewrite getCommonPrefixLength_app, take_ge by lia. do 2 (rewrite decide_False by done). do 2 (rewrite decide_False by done).
    rewrite nibble_at_app, drop_app_S. cbn -[todo visits rest]. rewrite Hr. cbn -[todo visits rest]. rewrite Hp, Hg. cbn [fmap list_fmap snd path_entries].
    rewrite <- (assoc_L (++)) in Hst', Hvis. cbn [app] in Hst', Hvis. rewrite Hkp in Hk, Hvis.
    destruct (over_children_split (at_child load D at_ (key_prefix acc) (Branch pk pv ch)) (Branch pk pv ch) i c Hi Hc 0) as [b Hb]; [lia|].
    exists ((at_, key_prefix acc ++ pk, Branch pk pv ch) :: b ++ before). split_and!; try done.
    + fold acc'. rewrite Hk. by rewrite <- !(assoc_L (++)).
    + rewrite visits_unfold by done. rewrite Hb. cbn [app]. f_equal. rewrite <- !(assoc_L (++)). f_equal.
      assert (rest load D acc' = over_children load (at_child load D at_ (key_prefix acc) (Branch pk pv ch)) (Branch pk pv ch) (S i) ++ rest load D acc) as Hrest.
      { cbn [rest acc' child_idx parent parent_at]. by replace (Z.to_nat (Z.of_nat i + 1)) with (S i) by lia. }
      unfold at_child at 1. cbn [node_key]. rewrite <- Hrest, Hvis. by rewrite <- !(assoc_L (++)).
Qed.

Lemma seek_ready s k v : lookup load root k = Some v -> exists s' before x l, seek load root k s = Ok (Ok tt, s') /\
  items = before ++ x :: l /\ ready s' (x :: l) /\ key_of x = keyToNibbles k /\ node_value x.2 = Some v.
Proof using Hn.
  intros Hk. destruct (seek_path (trie_fuel (keyToNibbles k)) n (keyToNibbles k) v [] [] Hn I Hk) as (path & c & before & Hp & Hg & Hv & Hc & Hst & Hkey & Hvis);
    [unfold trie_fuel; lia|]. cbn [rest key_prefix app] in *. rewrite app_nil_r in Hvis.
  unfold seek, constructLastVisitedChildPath. rewrite Hp, Hg. cbn. rewrite Hv. eexists _, before, (path.*2, keyToNibbles k, c), _. split; [done|].
  split; [exact Hvis|]. split_and!; try done.
Qed.

(** The entries after the one with the key. *)
Lemma sorted_split before x l y : items = before ++ x :: l -> y ∈ items -> nib_lt (key_of x) (key_of y) <-> y ∈ l.
Proof using Type.
  intros E Hy. pose proof (visits_sorted load D n [] []) as Hs. rewrite E in Hs, Hy. apply StronglySorted_app in Hs as (Hcross & _ & Hs).
  apply StronglySorted_inv in Hs as [_ Hx]. rewrite Forall_forall in Hx. split; [|by intros Hin; apply Hx].
  intros Hlt. assert (forall a b, nib_lt a b -> ~ nib_lt b a) as Hasym.
  { induction a as [|p a IHa]; intros [|q b]; cbn; try tauto. intros [?|[-> ?]] [?|[? ?]]; try lia. by eapply IHa. }
  apply elem_of_app in Hy as [Hy|Hy]; [exfalso; apply (Hasym _ _ Hlt), Hcross; [done|left]|].
  apply elem_of_cons in Hy as [->|Hy]; [exfalso; by apply (Hasym _ _ Hlt)|done].
Qed.

Definition seek_next (k : bytes) (fuel : nat) : act t (outcome unit) := TRY _ ← seek load root k; next load root fuel.

Definition above (k k' : bytes) : Prop := is_Some (lookup load root k') /\ lex_lt uchar k k' = true.

Lemma seek_next_least k : byte_keys -> is_Some (lookup load root k) -> exists bound, forall fuel, bound <= fuel -> forall s,
  exists s', seek_next k fuel s = Ok (Ok tt, s') /\
    if isValid s' then exists k', key s' = Ok k' /\ above k k' /\ (forall j, above k j -> j = k' \/ lex_lt uchar k' j = true)
    else forall j, ~ above k j.
Proof using Hn.
  intros Hb [v Hk]. exists (S (length items)). intros fuel Hf s. destruct (seek_ready s k v Hk) as (s1 & before & x & l & Hs1 & E & Hr & Hxk & Hxv).
  unfold seek_next, try, mbind, act_bind. rewrite Hs1. destruct (next_ready fuel s1 x l Hr) as (s2 & -> & Hr2).
  { rewrite E, length_app in Hf. cbn in Hf. lia. }
  exists s2. split; [done|].
  assert (forall j, above k j -> exists y w, y ∈ l /\ key_of y = keyToNibbles j /\ node_value y.2 = Some w) as Habove.
  { intros j [[w Hw] Hlt]. apply nib_lt_key in Hlt. unfold lookup in Hw. cbn in Hw. apply items_elem, entries_elem in Hw as (y & Hy & Hyk & Hyw).
    exists y, w. split_and!; [|done|done]. apply (sorted_split before x l y E Hy). by rewrite Hxk, Hyk. }
  destruct (skip l) as [|y l'] eqn:El.
  - assert (isValid s2 = false) as -> by (destruct Hr2 as (_ & Hp & _); by rewrite (positioned_valid _ _ _ _ Hp)).
    intros j Hj. destruct (Habove j Hj) as (y & w & Hy & Hyk & Hyw).
    assert ((keyToNibbles j, w) ∈ entries (skip l)) as Hin by (rewrite entries_skip; apply entries_elem; eauto). rewrite El in Hin. by apply not_elem_of_nil in Hin.
  - destruct (ready_reads s2 y l' Hr2) as (w & Hw & -> & Hkey & _).
    assert (y ∈ l) as Hy by (apply (skip_elem l); rewrite El; left).
    assert (y ∈ items) as Hyi by (rewrite E; apply elem_of_app; right; by right). pose proof (item_key y w Hb Hyi Hw) as Hyk.
    exists (nibblesToKey (key_of y)). split; [done|]. split.
    + split; [|apply nib_lt_key; rewrite <- Hyk, <- Hxk; by apply (sorted_split before x l y E Hyi)].
      exists w. unfold lookup. cbn. apply items_elem, entries_elem. eauto.
    + intros j Hj. destruct (Habove j Hj) as (z & u & Hz & Hzk & Hzu).
      assert (z ∈ skip l) as Hzs by (by apply skip_keeps with u). rewrite El in Hzs. apply elem_of_cons in Hzs as [->|Hzs].
      * left. by rewrite Hzk, nibblesToKey_keyToNibbles.
      * right. apply nib_lt_key. rewrite <- Hyk, <- Hzk. destruct (skip_suffix l) as [p Hp]. rewrite El in Hp.
        apply (sorted_split (before ++ x :: p) y l' z); [by rewrite E, Hp, <- (assoc_L (++))|rewrite E; apply elem_of_app; right; by right|done].
Qed.
End theorems.

Section promises.
Context (load : node -> outcome (option node)) {HL : Loader load}.

(** C15. The cursor reads the whole trie.  On a trie that satisfies the invariant
    and whose keys are whole bytes, a new cursor that seeks the first entry and
    then goes on to the end terminates and reads exactly the entries of the
    trie, each key once and in increasing order. *)
Theorem cursor_enumerates (n : node) : root_inv load any_branch (Some n) -> byte_keys load n ->
  exists bound, forall fuel, bound <= fuel -> exists l s, walk_all load n fuel new = Ok (l, s) /\
    StronglySorted key_lt l /\ forall k v, (k, v) ∈ l <-> lookup load (Some n) k = Some v.
Proof using Type. intros [d Hd]. by apply (walk_enumerates load d n). Qed.

(** The entry after a key that is present is the least above it.  [seek] of
    a key of the trie and then [next] succeed from any state of the cursor; the
    cursor is then at the least key above the sought one, and is not valid
    exactly when there is none. *)
Theorem next_key_is_least (n : node) (k : bytes) : root_inv load any_branch (Some n) -> byte_keys load n -> is_Some (lookup load (Some n) k) ->
  exists bound, forall fuel, bound <= fuel -> forall s, exists s', seek_next load n k fuel s = Ok (Ok tt, s') /\
    if isValid s' then exists k', key s' = Ok k' /\ above load n k k' /\ (forall j, above load n k j -> j = k' \/ lex_lt uchar k' j = true)
    else forall j, ~ above load n k j.
Proof using Type. intros [d Hd]. by apply (seek_next_least load d n). Qed.

End promises.

(** ** On a trie *)

(** The keys that were put are whole bytes. *)
Lemma puts_byte_keys l root : puts None l = Ok (Some root) -> NoDup l.*1 -> byte_keys default_load root.
Proof.
  intros Hp Hnd k v Hk. destruct (puts_spec None l I Hnd) as (r & Hr & _ & Hf). rewrite Hp in Hr. injection Hr as <-.
  specialize (Hf k). cbn in Hf. rewrite Hk in Hf. destruct (as_map l !! k) as [w|] eqn:E; [|done].
  unfold as_map in E. apply elem_of_list_to_map_2, list_elem_of_fmap in E as ([b u] & [= -> ->] & _). by exists b.
Qed.

Module DemoCursor.

Definition demo_root : node := match demo_trie with Some n => n | None => Leaf [] None end.

Lemma demo_puts : puts None demo_entries = Ok (Some demo_root).
Proof. vm_compute. reflexivity. Qed.

Lemma demo_nodup : NoDup demo_entries.*1.
Proof. apply (bool_decide_unpack _). vm_compute. exact I. Qed.

Lemma canonical_any load d n : inv load canonical d n -> inv load any_branch d n.
Proof.
  revert n. induction d as [|d IH]; intros n; [done|]. destruct n as [k v|k v ch|]; [done| |done].
  intros (Hk & Hl & _ & Hch). split_and!; [done..|]. intros i c Hc. destruct (Hch i c Hc) as (c' & ? & ?). eauto.
Qed.

Lemma demo_root_inv : root_inv default_load any_branch (Some demo_root).
Proof.
  destruct (puts_spec None demo_entries I demo_nodup) as (r & Hr & Hd & _).
  rewrite demo_puts in Hr. injection Hr as <-. destruct Hd as [d Hd]. exists d. by apply canonical_any.
Qed.

Lemma cursor_enumerates_witness : exists bound, forall fuel, bound <= fuel -> exists l s,
  walk_all default_load demo_root fuel new = Ok (l, s) /\ StronglySorted key_lt l /\ (str "ab", str "2") ∈ l.
Proof.
  destruct (cursor_enumerates default_load demo_root demo_root_inv (puts_byte_keys _ _ demo_puts demo_nodup)) as [b Hb].
  exists b. intros fuel Hf. destruct (Hb fuel Hf) as (l & s & Hw & Hs & He). exists l, s. split_and!; [done..|]. apply He. vm_compute. reflexivity.
Defined.

Lemma next_key_is_least_witness : exists bound, forall fuel, bound <= fuel -> exists s', seek_next default_load demo_root (str "ab") fuel new = Ok (Ok tt, s') /\
  if isValid s' then exists k', key s' = Ok k' /\ above default_load demo_root (str "ab") k' else False.
Proof.
  destruct (next_key_is_least default_load demo_root (str "ab") demo_root_inv (puts_byte_keys _ _ demo_puts demo_nodup)) as [b Hb]; [by eexists|].
  exists b. intros fuel Hf. destruct (Hb fuel Hf new) as (s' & Hs & Hv). exists s'. split; [done|]. destruct (isValid s').
  - destruct Hv as (k' & ? & ? & _). by exists k'.
  - apply (Hv (str "ba")). split; [by eexists|reflexivity].
Defined.

(** *** A cursor that is used again *)

(** The keys of a walk from the state [s]. *)
Definition walk_from (s : t) : option (list bytes) :=
  match (_ ← seekToFirst default_load (Some demo_root) 100; collect default_load demo_root 100 100) s with
  | Ok (l, _) => Some l.*1
  | Err _ => None
  end.

Definition after_seek : t := match seek default_load (Some demo_root) (str "ba") new with Ok (_, s) => s | Err _ => new end.

(** [seekToFirst] keeps the path of the entry that was sought before: the entries
    it then reports have wrong keys, and some come twice. *)
Theorem seekToFirst_keeps_path : walk_from new = Some [str "aa"; str "ab"; str "ba"; str "xy"] /\
  walk_from after_seek <> walk_from new.
Proof. split; [vm_compute; reflexivity|]. vm_compute. discriminate. Qed.

(** [seekToLast] goes to the first child of a branch, not to the last one, and
    reports a key that is not in the trie. *)
Theorem seekToLast_not_last : exists s, seekToLast default_load (Some demo_root) 100 new = Ok (Ok tt, s) /\
  value s = Ok (str "1") /\ (forall k, key s = Ok k -> lookup default_load (Some demo_root) k = None).
Proof.
  eexists. split; [vm_compute; reflexivity|]. split; [reflexivity|]. intros k Hk. vm_compute in Hk. injection Hk as <-. vm_compute. reflexivity.
Qed.

End DemoCursor.
