(* ===== verification/StorageExtension.v ===== *)
(** * The storage of the runtime

    Models the calls by which the runtime reads and writes its storage
    ([src/src/extensions/impl/storage_extension.cpp]) and its memory
    ([memory_extension.cpp]), with the provider of the current batch
    ([src/src/runtime/common/trie_storage_provider_impl.cpp]) and the root of a
    list of values
    ([src/src/storage/trie/serialization/ordered_trie_hash.hpp]).

    Arguments and results are pointers and spans of the memory of [WasmMemory];
    keys and values are in the batches of [TrieStorage].  The tracker of changes
    is shared by the batches of one storage, so it is kept once, next to the
    trie of the persistent batch.  The current batch, when it is persistent, is
    the persistent batch itself.

    The calls of the runtime composed with its memory and the current batch. *)

From S2P Require Import Prelude BufferStorage Scale Trie TrieMap TrieCodec TrieSerializer ChangesTrie TrieStorage TrieCursor WasmMemory ScaleProps TrieLemmas TrieProps TrieCursorProps.
Open Scope Z_scope.

(** ** The root of a list of values *)

Section ordered.
Context (hash256 : bytes -> bytes).

Fixpoint put_values (key : Z) (values : list bytes) (trie : option node) : outcome (option node) :=
  match values with
  | [] => Ok trie
  | v :: values' =>
      enc ← encode TCompact key;
      trie ← put default_load trie enc v;
      put_values (key + 1) values' trie
  end.

Definition calculateOrderedTrieHash (values : list bytes) : outcome bytes :=
  match values with
  | [] => Ok (hash256 [byte 0])
  | _ =>
      trie ← put_values 0 values None;
      n ← ok_or undefined_behaviour trie;
      enc ← encodeNode hash256 n;
      Ok (hash256 enc)
  end.
End ordered.

(** ** The current batch *)

Inductive current : Type := CurNull | CurEphemeral (trie : EphemeralTrieBatch) | CurPersistent.

Module TrieStorageProviderImpl.
Section provider.
Context {St B : Type} `{!BufferStorage St B}.
Context (node_prefix : bytes) (hash256 : bytes -> bytes) (max_size : ty -> Z).

Record t : Type := mk {
  trie_storage_ : TrieStorageImpl;
  store : St;
  tracker_ : option tracker;
  persistent_batch_ : option (option node);
  current_batch_ : current
}.

Definition set_batches (p : option (option node)) (c : current) (s : t) : t := mk (trie_storage_ s) (store s) (tracker_ s) p c.

Definition setToEphemeral : act t (outcome unit) :=
  s ← gets (fun s => s);
  TRY batch ← returned (getEphemeralBatch node_prefix hash256 max_size (trie_storage_ s) (store s));
  modify (set_batches (persistent_batch_ s) (CurEphemeral batch));;
  mret (Ok tt).

Definition setToEphemeralAt (state_root : bytes) : act t (outcome unit) :=
  s ← gets (fun s => s);
  TRY batch ← returned (getEphemeralBatchAt node_prefix hash256 max_size state_root (store s));
  modify (set_batches (persistent_batch_ s) (CurEphemeral batch));;
  mret (Ok tt).

Definition setToPersistent : act t (outcome unit) :=
  s ← gets (fun s => s);
  match persistent_batch_ s with
  | Some b => modify (set_batches (Some b) CurPersistent);; mret (Ok tt)
  | None =>
      TRY batch ← returned (getPersistentBatch node_prefix hash256 max_size (trie_storage_ s) (tracker_ s) (store s));
      modify (set_batches (Some (trie_ batch)) CurPersistent);;
      mret (Ok tt)
  end.

Definition setToPersistentAt (state_root : bytes) : act t (outcome unit) :=
  s ← gets (fun s => s);
  TRY batch ← returned (getPersistentBatchAt node_prefix hash256 max_size state_root (tracker_ s) (store s));
  modify (set_batches (Some (trie_ batch)) CurPersistent);;
  mret (Ok tt).

Definition isCurrentlyPersistent (s : t) : bool := match current_batch_ s with CurPersistent => true | _ => false end.

(** The trie of the current batch; a null batch is dereferenced by every user. *)
Definition current_trie : act t (option node) :=
  s ← gets (fun s => s);
  match current_batch_ s with
  | CurNull => lift (Err undefined_behaviour)
  | CurEphemeral trie => mret trie
  | CurPersistent => lift (ok_or undefined_behaviour (persistent_batch_ s))
  end.

Definition node_loader (s : t) : node -> outcome (option node) := load_child node_prefix hash256 max_size (store s).

(** An operation of the current batch that changes it. *)
Definition on_batch (ephemeral : EphemeralTrieBatch -> outcome unit * EphemeralTrieBatch)
    (persistent : PersistentTrieBatch -> outcome unit * PersistentTrieBatch) : act t (outcome unit) :=
  trie ← current_trie;
  s ← gets (fun s => s);
  match current_batch_ s with
  | CurPersistent =>
      let '(r, b) := persistent {| trie_ := trie; changes_ := tracker_ s |} in
      modify (fun s => mk (trie_storage_ s) (store s) (changes_ b) (Some (trie_ b)) CurPersistent);;
      returned r
  | _ =>
      let '(r, trie) := ephemeral trie in
      modify (set_batches (persistent_batch_ s) (CurEphemeral trie));;
      returned r
  end.

Definition batch_get (key : bytes) : act t (outcome bytes) :=
  trie ← current_trie; s ← gets (fun s => s); returned (get (node_loader s) trie key).

Definition batch_contains (key : bytes) : act t bool :=
  trie ← current_trie; s ← gets (fun s => s); mret (contains (node_loader s) trie key).

Definition batch_put (key value : bytes) : act t (outcome unit) :=
  s ← gets (fun s => s);
  on_batch (fun trie => on_trie (put (node_loader s) trie key value) trie)
    (fun b => persistent_put (node_loader s) max_size b key value).

Definition batch_remove (key : bytes) : act t (outcome unit) :=
  s ← gets (fun s => s);
  on_batch (fun trie => on_trie (remove (node_loader s) trie key) trie)
    (fun b => persistent_remove (node_loader s) max_size b key).

Definition batch_clearPrefix (prefix : bytes) : act t (outcome unit) :=
  s ← gets (fun s => s);
  on_batch (fun trie => on_trie (clearPrefix (node_loader s) trie prefix) trie)
    (fun b => persistent_clearPrefix (node_loader s) b prefix).

(** [commit] of the persistent batch. *)
Definition batch_commit : act t (outcome bytes) :=
  s ← gets (fun s => s);
  trie ← lift (ok_or undefined_behaviour (persistent_batch_ s));
  let '(r, b, st, db) := commit node_prefix hash256 {| trie_ := trie; changes_ := tracker_ s |} (trie_storage_ s) (store s) in
  modify (fun s => mk st db (changes_ b) (Some (trie_ b)) (current_batch_ s));;
  returned r.

Definition forceCommit : act t (outcome bytes) :=
  p ← gets persistent_batch_;
  match p with
  | Some _ => batch_commit
  | None => mret (Ok [])
  end.

End provider.
End TrieStorageProviderImpl.

(** ** The calls *)

Module StorageExtension.
Import TrieStorageProviderImpl.
Section extension.
Context {St B : Type} `{!BufferStorage St B}.
Context (node_prefix : bytes) (hash256 : bytes -> bytes) (max_size : ty -> Z).
Context {M : Type} `{!ShellMemory M} (order : gmap Z Z -> list (Z * Z)).

Record t : Type := mk {
  storage_provider_ : TrieStorageProviderImpl.t (St := St);
  memory_ : WasmMemoryImpl.t (M := M)
}.

Definition on_provider {A} (m : act TrieStorageProviderImpl.t A) : act t A := fun s =>
  match m (storage_provider_ s) with Ok (a, p) => Ok (a, mk p (memory_ s)) | Err e => Err e end.

Definition on_memory {A} (m : act WasmMemoryImpl.t A) : act t A := fun s =>
  match m (memory_ s) with Ok (a, m) => Ok (a, mk (storage_provider_ s) m) | Err e => Err e end.

Definition loadN (addr n : Z) : act t bytes := m ← gets memory_; lift (WasmMemoryImpl.loadN addr n m).

Definition storeBuffer_at (addr : Z) (value : bytes) : act t unit :=
  m ← gets memory_; m ← lift (WasmMemoryImpl.storeBuffer_at addr value m); modify (fun s => mk (storage_provider_ s) m).

Definition store32 (addr value : Z) : act t unit :=
  m ← gets memory_; m ← lift (WasmMemoryImpl.store_int 4 addr value m); modify (fun s => mk (storage_provider_ s) m).

(** The fuel of the allocator. *)
Definition allocator_fuel : nat := 2.

Definition allocate (size : Z) : act t Z := on_memory (WasmMemoryImpl.allocate order allocator_fuel size).
Definition storeBuffer (value : bytes) : act t Z := on_memory (WasmMemoryImpl.storeBuffer order allocator_fuel value).

Definition size_of (b : bytes) : Z := Z.of_nat (length b).

(** *** Data storage; failures are logged *)

Definition ext_clear_prefix (prefix_data prefix_length : Z) : act t unit :=
  prefix ← loadN prefix_data prefix_length;
  _ ← on_provider (batch_clearPrefix node_prefix hash256 max_size prefix);
  mret tt.

Definition ext_clear_storage (key_data key_length : Z) : act t unit :=
  key ← loadN key_data key_length;
  _ ← on_provider (batch_remove node_prefix hash256 max_size key);
  mret tt.

Definition ext_exists_storage (key_data key_length : Z) : act t Z :=
  key ← loadN key_data key_length;
  c ← on_provider (batch_contains node_prefix hash256 max_size key);
  mret (if c : bool then 1 else 0).

Definition ext_get_allocated_storage (key_data key_length len_ptr : Z) : act t Z :=
  key ← loadN key_data key_length;
  data ← on_provider (batch_get node_prefix hash256 max_size key);
  let length := match data with Ok d => size_of d | Err _ => kMaxMemorySize end in
  store32 len_ptr (u32 length);;
  match data with
  | Err _ => mret 0
  | Ok d =>
      data_ptr ← allocate (u32 length);
      if decide (data_ptr <> 0) then storeBuffer_at data_ptr d;; mret data_ptr else mret data_ptr
  end.

(** [get] with an offset: the iterators are moved beyond the end when the offset is. *)
Definition get_part (key : bytes) (offset max_length : Z) : act t (outcome bytes) :=
  TRY data ← on_provider (batch_get node_prefix hash256 max_size key);
  if size_of data <? offset then lift (Err undefined_behaviour) else
  let data_length := Z.min max_length (u32 (size_of data - offset)) in
  mret (Ok (take (Z.to_nat data_length) (drop (Z.to_nat offset) data))).

Definition ext_get_storage_into (key_data key_length value_data value_length value_offset : Z) : act t Z :=
  key ← loadN key_data key_length;
  data ← get_part key value_offset value_length;
  match data with
  | Err _ => mret kMaxMemorySize
  | Ok d => storeBuffer_at value_data d;; mret (u32 (size_of d))
  end.

Definition kErrorSpan : Z := 2 ^ 64 - 1.

Definition ext_storage_read_version_1 (key_pos value_out offset : Z) : act t Z :=
  let '(key_ptr, key_size) := splitSpan key_pos in
  let '(value_ptr, value_size) := splitSpan value_out in
  key ← loadN key_ptr key_size;
  data ← get_part key offset value_size;
  match data with
  | Ok d => storeBuffer_at value_ptr d;; mret (combine (mkResult 0 (u32 (size_of d))))
  | Err _ => mret kErrorSpan
  end.

Definition ext_set_storage (key_data key_length value_data value_length : Z) : act t unit :=
  key ← loadN key_data key_length;
  value ← loadN value_data value_length;
  _ ← on_provider (batch_put node_prefix hash256 max_size key value);
  mret tt.

Definition ext_storage_set_version_1 (key value : Z) : act t unit :=
  let '(key_ptr, key_size) := splitSpan key in
  let '(value_ptr, value_size) := splitSpan value in
  ext_set_storage key_ptr key_size value_ptr value_size.

Definition ext_storage_get_version_1 (key : Z) : act t Z :=
  let '(key_ptr, key_size) := splitSpan key in
  key_buffer ← loadN key_ptr key_size;
  data ← on_provider (batch_get node_prefix hash256 max_size key_buffer);
  match data with
  | Err _ => mret kMaxMemorySize
  | Ok d => storeBuffer d
  end.

Definition ext_storage_clear_version_1 (key_data : Z) : act t unit :=
  let '(key_ptr, key_size) := splitSpan key_data in ext_clear_storage key_ptr key_size.

Definition ext_storage_exists_version_1 (key_data : Z) : act t Z :=
  let '(key_ptr, key_size) := splitSpan key_data in ext_exists_storage key_ptr key_size.

Definition ext_storage_clear_prefix_version_1 (prefix : Z) : act t unit :=
  let '(prefix_ptr, prefix_size) := splitSpan prefix in ext_clear_prefix prefix_ptr prefix_size.

(** *** Keys in order *)

Definition getStorageNextKey (fuel : nat) (key : bytes) : act t (outcome (option bytes)) :=
  s ← gets (fun s => s);
  trie ← on_provider current_trie;
  let load := node_loader node_prefix hash256 max_size (storage_provider_ s) in
  match (TRY _ ← SuperGeniusTrieCursor.seek load trie key; SuperGeniusTrieCursor.next load trie fuel) SuperGeniusTrieCursor.new with
  | Err e => lift (Err e)
  | Ok (Err e, _) => mret (Err e)
  | Ok (Ok _, cursor) =>
      if SuperGeniusTrieCursor.isValid cursor then
        TRY next_key ← returned (SuperGeniusTrieCursor.key cursor); mret (Ok (Some next_key))
      else mret (Ok None)
  end.

Definition ext_storage_next_key_version_1 (fuel : nat) (key_span : Z) : act t Z :=
  let '(key_ptr, key_size) := splitSpan key_span in
  key_bytes ← loadN key_ptr key_size;
  res ← getStorageNextKey fuel key_bytes;
  match res with
  | Err _ => mret kErrorSpan
  | Ok key_opt =>
      match encode (TOption buffer_ty) (fmap (M := list) uchar <$> key_opt) with
      | Ok enc => storeBuffer enc
      | Err _ => mret kErrorSpan
      end
  end.

(** *** Roots *)

(** The batch is committed; the value of a failed result is taken all the same. *)
Definition commit_current : act t bytes :=
  s ← gets (fun s => s);
  res ← on_provider (if isCurrentlyPersistent (storage_provider_ s) then batch_commit node_prefix hash256 else forceCommit node_prefix hash256);
  lift (match res with Ok root => Ok root | Err _ => Err undefined_behaviour end).

Definition ext_storage_root (result : Z) : act t unit := root ← commit_current; storeBuffer_at result root.

Definition ext_storage_root_version_1 : act t Z := root ← commit_current; storeBuffer root.

Fixpoint load_lengths (count : nat) (addr : Z) : act t (list Z) :=
  match count with
  | O => mret []
  | S count' =>
      m ← gets memory_;
      n ← lift (WasmMemoryImpl.load_int false 4 addr m);
      rest ← load_lengths count' (u32 (addr + 4));
      mret (n :: rest)
  end.

Fixpoint load_values (addr offset : Z) (lengths : list Z) : act t (list bytes) :=
  match lengths with
  | [] => mret []
  | n :: lengths' => v ← loadN (u32 (addr + offset)) n; rest ← load_values addr (u32 (offset + n)) lengths'; mret (v :: rest)
  end.

Definition ext_blake2_256_enumerated_trie_root (values_data lengths_data values_num result : Z) : act t unit :=
  lengths ← load_lengths (Z.to_nat values_num) lengths_data;
  values ← load_values values_data 0 lengths;
  h ← returned (calculateOrderedTrieHash hash256 values);
  match h with Ok h => storeBuffer_at result h | Err _ => mret tt end.

(** The address in the span of a stored buffer. *)
Definition store_hash (h : bytes) : act t Z := res ← storeBuffer h; mret (address (WasmResult_of res)).

Definition ext_trie_blake2_256_ordered_root_version_1 (values_data : Z) : act t Z :=
  let '(ptr, size) := splitSpan values_data in
  buffer ← loadN ptr size;
  values ← lift (match scale_decode max_size (TVector buffer_ty) buffer with Ok v => Ok v | Err _ => Err undefined_behaviour end);
  h ← lift (match calculateOrderedTrieHash hash256 (fmap (M := list) byte <$> values) with Ok h => Ok h | Err _ => Err undefined_behaviour end);
  store_hash h.

(** The results of the puts are dropped. *)
Definition ext_trie_blake2_256_root_version_1 (values_data : Z) : act t Z :=
  let '(ptr, size) := splitSpan values_data in
  buffer ← loadN ptr size;
  pairs ← lift (match scale_decode max_size (TVector (TPair buffer_ty buffer_ty)) buffer with Ok v => Ok v | Err _ => Err undefined_behaviour end);
  match pairs with
  | [] => store_hash (hash256 [byte 0])
  | _ =>
      let trie := foldl (fun trie p => snd (on_trie (put default_load trie (byte <$> p.1) (byte <$> p.2)) trie)) None pairs in
      h ← lift (match trie with
                | None => Err undefined_behaviour
                | Some n => match encodeNode hash256 n with Ok enc => Ok (hash256 enc) | Err _ => Err undefined_behaviour end
                end);
      store_hash h
  end.

(** *** The memory *)

Definition ext_malloc (size : Z) : act t Z := allocate size.

Definition ext_free (ptr : Z) : act t unit := on_memory (fun m => Ok (tt, snd (WasmMemoryImpl.deallocate ptr m))).

End extension.
End StorageExtension.

(** ** What the runtime stores it reads back *)

Import TrieStorageProviderImpl StorageExtension.


Section props.
Context {St B : Type} `{!BufferStorage St B}.
Context (node_prefix : bytes) (hash256 : bytes -> bytes) (max_size : ty -> Z).
Context {M : Type} `{!ShellMemory M} `{!ShellMemoryLaws M} (order : gmap Z Z -> list (Z * Z)).
Hypothesis order_entries : forall m, order m ≡ₚ map_to_list m.

Notation provider := (@TrieStorageProviderImpl.t St).
Notation loader := (node_loader node_prefix hash256 max_size).
Implicit Type p : provider.

(** ** The current batch as a map *)

Definition trie_of p : option (option node) :=
  match current_batch_ p with CurNull => None | CurEphemeral trie => Some trie | CurPersistent => persistent_batch_ p end.

Definition batch_find p (k : bytes) : option bytes := trie_of p ≫= fun trie => lookup (loader p) trie k.

(** The current batch is there and in order; changes may be tracked or not. *)
Definition batch_ok p : Prop := exists trie, trie_of p = Some trie /\ root_inv (loader p) any_branch trie.

(** An error that a caller receives. *)
Definition plain_error (e : error) : Prop := e <> undefined_behaviour /\ e <> out_of_fuel.

Lemma returned_plain {T A} (r : outcome A) (x : T) : (forall e, r = Err e -> plain_error e) -> returned r x = Ok (r, x).
Proof. intros Hr. destruct r as [a|e]; [done|]. destruct (Hr e eq_refl). by destruct e. Qed.

Lemma loader_ok p : Loader (loader p).
Proof. apply load_child_Loader. Qed.

Lemma current_trie_of p trie : trie_of p = Some trie -> current_trie p = Ok (trie, p).
Proof.
  unfold trie_of, current_trie, mbind, act_bind, gets, lift. destruct (current_batch_ p); [done|by intros [= ->]|]. by intros ->.
Qed.

Lemma batch_get_present p k v : batch_ok p -> batch_find p k = Some v -> batch_get node_prefix hash256 max_size k p = Ok (Ok v, p).
Proof.
  intros (trie & Ht & _) Hf. unfold batch_find in Hf. rewrite Ht in Hf. cbn in Hf. unfold batch_get, mbind, act_bind, gets.
  rewrite (current_trie_of p trie Ht). pose proof (loader_ok p). by rewrite (get_found (loader p) trie k v Hf).
Qed.

(** The tracker may refuse a change, when the index of the extrinsic that is
    stored in the trie does not decode. *)
Lemma getter_plain p trie e : root_inv (loader p) any_branch trie -> extrinsic_index_getter (loader p) trie = Err e -> plain_error e.
Proof.
  unfold extrinsic_index_getter, get. set (k := keyToNibbles EXTRINSIC_INDEX_KEY). intros Hinv.
  assert (exists n, getNode (loader p) (trie_fuel k) trie k = Ok n) as [n ->].
  { destruct trie as [t|]; [|by eexists]. destruct Hinv as [d Hd]. apply (getNode_returns _ any_branch _ d); [done|apply keyToNibbles_ok|unfold trie_fuel; lia]. }
  cbn [mbind outcome_bind]. destruct (n ≫= node_value); intros E; discriminate E.
Qed.

Lemma index_plain (idx : outcome bytes) e : (forall e, idx = Err e -> plain_error e) -> extrinsic_index max_size idx = Err e -> plain_error e.
Proof.
  intros Hidx. unfold extrinsic_index. destruct idx as [b|e']; cbn [mbind outcome_bind]; [|intros [= ->]; by apply Hidx].
  unfold scale_decode, index_ty. cbn [decode]. unfold decodeIntegral. rewrite decide_False by done.
  unfold decodeInteger, hasMore, mbind, reader_bind. cbn [negb orb]. case_bool_decide; cbn [negb]; [|intros [= <-]; by split].
  assert (forall n m v b e, sum_bytes n m v b = Err e -> plain_error e) as Hsum.
  { induction n as [|n IH]; intros m v c e'; [done|]. cbn [sum_bytes]. unfold mbind, reader_bind, nextByte.
    destruct c; [intros [= <-]; by split|]. apply IH. }
  destruct (sum_bytes _ _ _ _) as [[]|e'] eqn:E; [done|]. intros [= <-]. by eapply Hsum.
Qed.

(** A trie that was changed is kept, whatever the tracker says. *)
Lemma track_keeps p trie changes key value new : root_inv (loader p) any_branch trie ->
  let x := track (loader p) (fun idx => onPut max_size idx key value new) trie changes in
  trie_ x.2 = trie /\ forall e, x.1 = Err e -> plain_error e.
Proof.
  intros Hinv. cbv zeta. unfold track. destruct changes as [t|]; [|by split].
  unfold onPut. destruct (extrinsic_index _ _) as [i|e] eqn:E; [by destruct (_ !! key)|].
  split; [done|]. intros ? [= <-]. revert E. apply index_plain. intros e'. by apply getter_plain.
Qed.

Lemma batch_put_stores p k v : batch_ok p -> exists r p', batch_put node_prefix hash256 max_size k v p = Ok (r, p') /\ batch_ok p' /\
  forall k', batch_find p' k' = if decide (k' = k) then Some v else batch_find p k'.
Proof.
  intros (trie & Ht & Hinv). pose proof (loader_ok p) as HLp. destruct (put_map (loader p) trie k v Hinv) as (trie' & Hput & Hinv' & Hf).
  unfold batch_put, on_batch, mbind, act_bind, gets. rewrite (current_trie_of p trie Ht). unfold batch_find. rewrite Ht. cbn [mbind option_bind].
  unfold trie_of in Ht. destruct (current_batch_ p) eqn:Ec; [done| |].
  - injection Ht as ->. unfold on_trie. rewrite Hput. eexists _, _. split; [done|]. split; [|done]. by eexists.
  - unfold persistent_put. cbn [trie_ changes_]. rewrite Hput.
    destruct (track_keeps p trie' (tracker_ p) k v (negb (contains (loader p) trie k)) Hinv') as [Htrie Hplain].
    destruct (track _ _ _ _) as [r b]. cbn [fst snd] in Htrie, Hplain. unfold modify. rewrite (returned_plain r) by done. rewrite Htrie.
    eexists _, _. split; [done|]. split; [|done]. by eexists.
Qed.

(** ** Spans *)

Definition span (q : Z) (b : bytes) : Z := combine (mkResult q (Z.of_nat (length b))).

Notation state := (@StorageExtension.t St M).
Implicit Type s : state.

Lemma span_of_piece s q b : mem_inv (memory_ s) -> heap (memory_ s) !! q = Some b -> splitSpan (span q b) = (q, Z.of_nat (length b)).
Proof. intros Hi Hb. destruct (piece_bounds _ _ _ Hi Hb) as (? & ? & ?). apply span_round_trip; unfold is_u32; lia. Qed.

Lemma loadN_piece s q b : mem_inv (memory_ s) -> heap (memory_ s) !! q = Some b -> loadN q (Z.of_nat (length b)) s = Ok (b, s).
Proof. intros Hi Hb. unfold loadN, mbind, act_bind, gets, lift. by rewrite load_piece. Qed.

(** The reply to a call: the null span, with nothing changed, when the memory is
    exhausted, and else the span of a fresh piece with the contents. *)
Definition replied s (z : Z) (b : bytes) s' : Prop :=
  mem_inv (memory_ s') /\ storage_provider_ s' = storage_provider_ s /\
  if decide (Z.of_nat (length b) = 0 \/ 2 ^ 32 <= WasmMemoryImpl.offset_ (memory_ s) + Z.of_nat (length b)) then z = 0 /\ memory_ s' = memory_ s
  else exists q, q <> 0 /\ z = span q b /\ heap (memory_ s) !! q = None /\ heap (memory_ s') = <[q := b]> (heap (memory_ s)).

Lemma storeBuffer_replies s b : mem_inv (memory_ s) -> 4 * Z.of_nat (length b) < 2 ^ 32 -> exists z s', storeBuffer order b s = Ok (z, s') /\ replied s z b s'.
Proof using order_entries.
  intros Hi Hb. destruct (storeBuffer_outcome order order_entries allocator_fuel b (memory_ s)) as (z & m & He & Hinv & Hz); [unfold allocator_fuel; lia|done|done|].
  exists z, (mk (storage_provider_ s) m). unfold storeBuffer, on_memory. rewrite He. split; [done|]. by split_and!.
Qed.


(** ** The next key *)

Lemma buffer_encodes (o : option bytes) : (forall b, o = Some b -> Z.of_nat (length b) <= u64_max) ->
  exists enc, encode (TOption buffer_ty) (fmap (M := list) uchar <$> o) = Ok enc.
Proof.
  intros Ho. destruct (proj1 (encode_codes (fun _ => u64_max)) (TOption buffer_ty) (fmap (M := list) uchar <$> o) eq_refl) as (enc & He & _); [|by exists enc].
  destruct o as [b|]; [|done]. specialize (Ho b eq_refl). cbn. rewrite length_fmap. split_and!; [done|done|].
  apply Forall_fmap, Forall_forall. intros c _. unfold int_range. cbn. pose proof (uchar_range c). lia.
Qed.

(** [o] is the least key above [k], if there is one. *)
Definition least_above p n (k : bytes) (o : option bytes) : Prop :=
  match o with
  | Some k' => above (loader p) n k k' /\ forall j, above (loader p) n k j -> j = k' \/ lex_lt uchar k' j = true
  | None => forall j, ~ above (loader p) n k j
  end.

Lemma getStorageNextKey_least s n k : trie_of (storage_provider_ s) = Some (Some n) -> root_inv (loader (storage_provider_ s)) any_branch (Some n) ->
  byte_keys (loader (storage_provider_ s)) n -> is_Some (batch_find (storage_provider_ s) k) ->
  exists bound, forall fuel, (bound <= fuel)%nat -> exists o, least_above (storage_provider_ s) n k o /\
    getStorageNextKey node_prefix hash256 max_size fuel k s = Ok (Ok o, s).
Proof.
  intros Ht [d Hd] Hb Hk. pose proof (loader_ok (storage_provider_ s)). unfold batch_find in Hk. rewrite Ht in Hk. cbn in Hk.
  destruct (seek_next_least (loader (storage_provider_ s)) d n Hd k Hb Hk) as [bound Hn]. exists bound. intros fuel Hf.
  destruct (Hn fuel Hf SuperGeniusTrieCursor.new) as (c & Hc & Hv). unfold seek_next in Hc.
  unfold getStorageNextKey, mbind, act_bind, gets, on_provider. rewrite (current_trie_of _ _ Ht). cbn [storage_provider_ memory_]. rewrite Hc.
  destruct (SuperGeniusTrieCursor.isValid c).
  - destruct Hv as (k' & Hkey & Habove). exists (Some k'). split; [done|]. unfold try, mbind, act_bind. rewrite Hkey. by destruct s.
  - exists None. split; [done|]. by destruct s.
Qed.

(** The runtime can walk its storage.  For a key of the current batch in a
    live piece of the memory, [ext_storage_next_key] returns the encoding of the
    least key above it, or of none when it is the last, in a fresh piece; the
    storage is not changed. *)
Theorem runtime_next_key s n kp key : mem_inv (memory_ s) -> trie_of (storage_provider_ s) = Some (Some n) ->
  root_inv (loader (storage_provider_ s)) any_branch (Some n) -> byte_keys (loader (storage_provider_ s)) n ->
  (forall k, is_Some (batch_find (storage_provider_ s) k) -> Z.of_nat (length k) <= u64_max) ->
  heap (memory_ s) !! kp = Some key -> is_Some (batch_find (storage_provider_ s) key) ->
  exists bound, forall fuel, (bound <= fuel)%nat -> exists o enc, least_above (storage_provider_ s) n key o /\
    encode (TOption buffer_ty) (fmap (M := list) uchar <$> o) = Ok enc /\
    (4 * Z.of_nat (length enc) < 2 ^ 32 -> exists z s', ext_storage_next_key_version_1 node_prefix hash256 max_size order fuel (span kp key) s = Ok (z, s') /\ replied s z enc s').
Proof using order_entries.
  intros Hi Ht Hinv Hb Hlen Hkp Hk. destruct (getStorageNextKey_least s n key Ht Hinv Hb Hk) as [bound Hnext]. exists bound. intros fuel Hf.
  destruct (Hnext fuel Hf) as (o & Ho & Hg). destruct (buffer_encodes o) as [enc He].
  { intros b ->. destruct Ho as [[Ha _] _]. apply Hlen. unfold batch_find. rewrite Ht. exact Ha. }
  exists o, enc. split_and!; [done..|]. intros Hl. destruct (storeBuffer_replies s enc Hi Hl) as (z & s' & Hst & Hr). exists z, s'. split; [|done].
  unfold ext_storage_next_key_version_1. rewrite (span_of_piece s) by done. unfold mbind, act_bind. rewrite (loadN_piece s) by done.
  rewrite Hg, He. exact Hst.
Qed.
End props.

(** ** A run *)

(** A trie whose nodes are all in memory reads the same with every loader. *)
Section loaders.
Context (load : node -> outcome (option node)) {HL : Loader load}.

Lemma inv_loader P d n : inv default_load P d n -> inv load P d n.
Proof using HL.
  revert n. induction d as [|d IH]; intros n; [done|]. destruct n as [k v|k v ch|]; [done| |done].
  intros (Hk & Hl & HP & Hch). split_and!; [done..|]. intros i c Hc. destruct (Hch i c Hc) as (c' & [= <-] & Hi).
  exists c. split; [|by apply IH]. apply HL. by eapply inv_real.
Qed.

Lemma find_loader d n k : inv default_load any_branch d n -> find load n k = find default_load n k.
Proof using HL.
  revert n k. induction d as [|d IH]; intros n k Hn; [done|]. destruct n as [pk v|pk v ch|]; [by rewrite !find_Leaf| |done].
  rewrite !find_Branch. destruct (strip pk k) as [[|i s]|]; [done| |done]. cbn. unfold find_root, child_at, retrieveChild.
  destruct Hn as (_ & _ & _ & Hch). destruct (ch !! i) as [[c|]|] eqn:E; [|done|done]. destruct (Hch i c E) as (c' & [= <-] & Hi).
  rewrite (HL c) by (by eapply inv_real). cbn. by apply IH.
Qed.
End loaders.

Module DemoExtension.
Import DemoMemory DemoCursor.

Definition no_hash (b : bytes) : bytes := replicate 32 "h"%char.

(** A memory with the texts [ab] and [value]. *)
Definition stored (v : bytes) (m : WasmMemoryImpl.t (M := bytes)) : WasmMemoryImpl.t (M := bytes) :=
  match WasmMemoryImpl.storeBuffer by_key 2 v m with Ok (_, m') => m' | Err _ => m end.

Definition memory : WasmMemoryImpl.t (M := bytes) := stored (str "value") (stored (str "ab") start).

Lemma stored_inv v m : mem_inv m -> 4 * Z.of_nat (length v) < 2 ^ 32 -> mem_inv (stored v m).
Proof. intros Hm Hv. unfold stored. by destruct (storeBuffer_outcome by_key (fun m => reflexivity _) 2 v m ltac:(lia) Hm Hv) as (z & m' & -> & Hi & _). Qed.

Lemma memory_inv : mem_inv memory.
Proof. apply stored_inv; [apply stored_inv; [exact start_inv|cbn; lia]|cbn; lia]. Qed.

(** The current batch is ephemeral, on the trie of [TrieMap]. *)
Definition demo_provider : TrieStorageProviderImpl.t (St := InMemoryStorage) :=
  TrieStorageProviderImpl.mk (createFromStorage []) ∅ None None (CurEphemeral (Some demo_root)).

Definition demo_state : StorageExtension.t (St := InMemoryStorage) (M := bytes) := StorageExtension.mk demo_provider memory.

Notation sizes := (fun _ : ty => u64_max).
Notation demo_loader := (node_loader (str ":n:") no_hash sizes demo_provider).

Lemma demo_loaded : root_inv demo_loader any_branch (Some demo_root).
Proof. destruct demo_root_inv as [d Hd]. exists d. apply inv_loader; [apply loader_ok|done]. Qed.

Lemma demo_batch_ok : batch_ok (str ":n:") no_hash sizes demo_provider.
Proof. exists (Some demo_root). split; [done|exact demo_loaded]. Qed.

Lemma demo_byte_keys : byte_keys demo_loader demo_root.
Proof.
  intros k v Hk. destruct demo_root_inv as [d Hd]. rewrite (find_loader demo_loader (HL := loader_ok _ _ _ _) d) in Hk by done.
  by apply (puts_byte_keys _ _ demo_puts demo_nodup k v).
Qed.

(** The persistent batch on the same trie, with a tracker. *)
Definition tracked_state : StorageExtension.t (St := InMemoryStorage) (M := bytes) :=
  StorageExtension.mk (TrieStorageProviderImpl.mk (createFromStorage []) ∅ (Some (New [])) (Some (Some demo_root)) CurPersistent) memory.


Lemma runtime_next_key_witness : exists bound, forall fuel, (bound <= fuel)%nat -> exists o enc,
  least_above (str ":n:") no_hash sizes demo_provider demo_root (str "ab") o /\ encode (TOption buffer_ty) (fmap (M := list) uchar <$> o) = Ok enc.
Proof.
  destruct (runtime_next_key (str ":n:") no_hash sizes by_key (fun m => reflexivity _) demo_state demo_root 1 (str "ab"))
    as [b Hb]; [exact memory_inv|reflexivity|exact demo_loaded|exact demo_byte_keys| |vm_compute; reflexivity|by eexists|].
  - intros k [v Hk]. cbn in Hk. unfold lookup in Hk. destruct demo_root_inv as [d Hd]. cbn in Hk.
    rewrite (find_loader demo_loader (HL := loader_ok _ _ _ _) d) in Hk by done.
    destruct (puts_spec None demo_entries I demo_nodup) as (r & Hr & _ & Hf). rewrite demo_puts in Hr. injection Hr as <-. specialize (Hf (keyToNibbles k)). cbn [find_root option_bind mbind] in Hf.
    rewrite Hk in Hf. destruct (as_map demo_entries !! keyToNibbles k) as [w|] eqn:E; [|done]. unfold as_map in E.
    apply elem_of_list_to_map_2, list_elem_of_fmap in E as ([b u] & E & Hin). injection E as E _. apply keyToNibbles_inj in E as ->.
    assert (Forall (fun e : bytes * bytes => Z.of_nat (length e.1) <= u64_max) demo_entries) as F by (repeat constructor; discriminate).
    rewrite Forall_forall in F. by apply (F (b, u)).
  - exists b. intros fuel Hf. destruct (Hb fuel Hf) as (o & enc & Ho & He & _). by exists o, enc.
Defined.

(** *** What goes wrong *)

(** A read from beyond the end of a value moves an iterator beyond the end. *)
Theorem read_beyond_undefined : ext_storage_read_version_1 (str ":n:") no_hash sizes (span 1 (str "ab")) (span 3 (str "value")) 2 demo_state = Err undefined_behaviour.
Proof. vm_compute. reflexivity. Qed.

(** The key after one that is not in the storage is an error, whatever keys follow. *)
Theorem next_key_of_absent : exists s', let s := StorageExtension.mk demo_provider (stored (str "ac") start) in
  ext_storage_next_key_version_1 (str ":n:") no_hash sizes by_key 100 (span 1 (str "ac")) s = Ok (kErrorSpan, s') /\
  is_Some (batch_find (str ":n:") no_hash sizes demo_provider (str "ba")) /\ lex_lt uchar (str "ac") (str "ba") = true.
Proof. eexists. split; [vm_compute; reflexivity|]. split; [by eexists|reflexivity]. Qed.

End DemoExtension.
