(* ===== verification/Production.v ===== *)
(** * Block production: digests, epochs, lottery and validation

    Models [src/src/verification/production/impl]: the digests of a block
    ([production_digests_util.cpp]), the storage of epochs
    ([epoch_storage_impl.cpp]), the lottery for slots
    ([production_lottery_impl.cpp]), and the validator of blocks
    ([src/src/verification/validation/production_block_validator.cpp]), with the
    types of [src/src/verification/production/types] and
    [src/src/primitives/digest.hpp].

    The digest of a header holds its items in their encoding, as in
    [BlockStorage]; an item is decoded when it is looked at.  The message of a
    [Verification] item is not part of its encoding, so an item that was decoded
    has none.  The signatures and the random function of sr25519 are the class
    [SR25519]; of the threshold, which is computed in [double], the function [pow] of
    the C library is a parameter. *)

From Stdlib Require Import Floats.SpecFloat.
From S2P Require Import Prelude Scale ScaledInteger TrieCodec BlockStorage Votes Authority.

Open Scope Z_scope.

(** ** Third-party code *)

Record SR25519Keypair : Type := mkKeypair { secret_key : bytes; public_key : bytes }.

Definition VRFOutput : Type := bytes * bytes.

Class SR25519 : Type := {
  sr_public : bytes -> bytes;
  sr_sign : SR25519Keypair -> bytes -> bytes;
  sr_verify : bytes -> bytes -> bytes -> outcome bool;  (* signature, message, public key *)
  vrf_sign : bytes -> SR25519Keypair -> Z -> option VRFOutput;
  vrf_verify : bytes -> VRFOutput -> bytes -> Z -> bool * bool  (* is_valid, is_less *)
}.

Definition keypair_ok `{SR25519} (k : SR25519Keypair) : Prop := public_key k = sr_public (secret_key k).

(** What is signed is verified with the public key, and an output that was drawn
    below a threshold is verified for the same message and threshold. *)
Class SR25519Spec `{SR25519} : Prop := {
  sr_verify_sign k m : keypair_ok k -> sr_verify (sr_sign k m) m (public_key k) = Ok true;
  vrf_verify_sign k m t o : keypair_ok k -> vrf_sign m k t = Some o -> vrf_verify m o (public_key k) t = (true, true);
  vrf_sign_size k m t o : vrf_sign m k t = Some o -> length o.1 = 32%nat /\ length o.2 = 64%nat;
  sr_sign_size k m : length (sr_sign k m) = 64%nat
}.

(** ** Digests *)

Definition kProductionEngineId : bytes := str "BABE".

Inductive DigestItem : Type :=
  | UnusedItem
  | ChangesTrieRoot (h : bytes)
  | VerificationItem (engine_id data : bytes)
  | SealItem (engine_id data : bytes)
  | PreRuntimeItem (engine_id data : bytes).

Definition TCommon : ty := TPair (TBlob 4) buffer_ty.
Definition TDigestItem : ty :=
  TVariant (More TUnit (More TUnit (More (TBlob 32) (More TUnit (More TCommon (More TCommon (One TCommon))))))).

Definition common (engine_id data : bytes) : value TCommon := (engine_id, uchar <$> data).

Definition item_value (i : DigestItem) : value TDigestItem :=
  match i with
  | UnusedItem => inl tt
  | ChangesTrieRoot h => inr (inr (inl h))
  | VerificationItem e d => inr (inr (inr (inr (inl (common e d)))))
  | SealItem e d => inr (inr (inr (inr (inr (inl (common e d))))))
  | PreRuntimeItem e d => inr (inr (inr (inr (inr (inr (common e d))))))
  end.

Definition item_of_value (v : value TDigestItem) : DigestItem :=
  match v with
  | inr (inr (inl h)) => ChangesTrieRoot h
  | inr (inr (inr (inr (inl c)))) => VerificationItem c.1 (byte <$> c.2)
  | inr (inr (inr (inr (inr (inl c))))) => SealItem c.1 (byte <$> c.2)
  | inr (inr (inr (inr (inr (inr c))))) => PreRuntimeItem c.1 (byte <$> c.2)
  | _ => UnusedItem
  end.

(** The message of a [Verification] item after decoding. *)
Definition payload : Verification := UnusedMessage.

Record ProductionBlockHeader : Type := mkProductionHeader {
  slot_number : Z;
  vrf_output : VRFOutput;
  authority_index : Z
}.

(** The two parts of the output are [std::array]s. *)
Definition TVRFOutput : ty := TPair (TArray 32 (TInt false 1)) (TArray 64 (TInt false 1)).
Definition TProductionHeader : ty :=
  TPair (TInt false 1) (TPair (TInt false 8) (TPair (TInt false 8) (TPair (TInt false 4) TVRFOutput))).

Definition header_value (h : ProductionBlockHeader) : value TProductionHeader :=
  (0, (authority_index h, (slot_number h, (1, (uchar <$> (vrf_output h).1, uchar <$> (vrf_output h).2))))).

Definition header_of_value (v : value TProductionHeader) : ProductionBlockHeader :=
  let '(_, (i, (n, (_, (o, p))))) := v in mkProductionHeader n (byte <$> (o : list Z), byte <$> (p : list Z)) i.

Definition TSeal : ty := TBlob 64.

Record NextEpochDescriptor : Type := mkDescriptor { ned_authorities : AuthorityList; ned_randomness : bytes }.

Definition TNextEpochDescriptor : ty := TPair TAuthorityList (TBlob 32).
Definition TVerificationLog : ty := TVariant (More (TInt false 4) (More TNextEpochDescriptor (One (TInt false 8)))).

(** *** Encoded headers *)

Definition encode_header (h : BlockHeader) : outcome bytes :=
  a ← encode (TBlob 32) (parent_hash h);
  b ← encode TCompact (number h);
  c ← encode (TBlob 32) (state_root h);
  d ← encode (TBlob 32) (extrinsics_root h);
  e ← encode TCompact (Z.of_nat (length (digest h)));
  Ok (a ++ b ++ c ++ d ++ e ++ concat (digest h)).

Definition set_digest (d : list bytes) (h : BlockHeader) : BlockHeader :=
  mkHeader (parent_hash h) (number h) (state_root h) (extrinsics_root h) d.

(** [digest.pop_back()], which nobody calls on an empty digest. *)
Definition pop_digest (h : BlockHeader) : outcome BlockHeader :=
  match digest h with [] => Err undefined_behaviour | _ => Ok (set_digest (removelast (digest h)) h) end.

Section digests.
Context (max_size : ty -> Z).

Definition item_of (b : bytes) : DigestItem :=
  match scale_decode max_size TDigestItem b with Ok v => item_of_value v | Err _ => UnusedItem end.

Definition decode_production_header (data : bytes) : outcome ProductionBlockHeader :=
  v ← scale_decode max_size TProductionHeader data; Ok (header_of_value v).

(** The first pre-runtime item that holds a header. *)
Fixpoint find_header (l : list bytes) : outcome ProductionBlockHeader :=
  match l with
  | [] => Err (digest_error INVALID_DIGESTS)
  | b :: l' =>
      match item_of b with
      | PreRuntimeItem _ data => match decode_production_header data with Ok h => Ok h | Err _ => find_header l' end
      | _ => find_header l'
      end
  end.

Definition getProductionDigests (block_header : BlockHeader) : outcome (bytes * ProductionBlockHeader) :=
  let digests := digest block_header in
  if decide (length digests < 2)%nat then Err (digest_error INVALID_DIGESTS) else
  match item_of (default [] (last digests)) with
  | SealItem _ data =>
      seal ← scale_decode max_size TSeal data;
      h ← find_header (removelast digests);
      Ok (seal, h)
  | _ => Err (digest_error INVALID_DIGESTS)
  end.

(** A second descriptor makes an error of the result, a third one replaces the
    error.  The outer [outcome] is for a decoder that throws. *)
Definition add_epoch_log (acc : outcome NextEpochDescriptor) (b : bytes) : outcome (outcome NextEpochDescriptor) :=
  match item_of b with
  | VerificationItem e data =>
      if decide (e = kProductionEngineId) then
        match scale_decode max_size TVerificationLog data with
        | Ok (inr (inl d)) =>
            match acc with
            | Err _ => Ok (Ok (mkDescriptor d.1 d.2))
            | Ok _ => Ok (Err (digest_error MULTIPLE_EPOCH_CHANGE_DIGESTS))
            end
        | Err undefined_behaviour => Err undefined_behaviour
        | _ => Ok acc
        end
      else Ok acc
  | _ => Ok acc
  end.

Fixpoint epoch_logs (acc : outcome NextEpochDescriptor) (l : list bytes) : outcome (outcome NextEpochDescriptor) :=
  match l with
  | [] => Ok acc
  | b :: l' => acc ← add_epoch_log acc b; epoch_logs acc l'
  end.

Definition getNextEpochDigest (h : BlockHeader) : outcome (outcome NextEpochDescriptor) :=
  epoch_logs (Err (digest_error NEXT_EPOCH_DIGEST_DOES_NOT_EXIST)) (digest h).

End digests.

(** [base::uint64_t_to_bytes] and [Buffer::putUint64]: the highest byte first. *)
Definition uint64_t_to_bytes (n : Z) : bytes := rev (le_bytes 8 n).

(** [base::bytes_to_uint64_t]: the lowest byte first. *)
Definition bytes_to_uint64_t (b : bytes) : Z := le_value b.

(** ** The storage of epochs *)

Module EpochStorageImpl.
Section epochs.
Context (max_size : ty -> Z) {DB : Type} `{!KeyValueDB DB}.

Definition EPOCH_PREFIX : bytes := str "epchdcr0".

Definition epoch_key (epoch_number : Z) : bytes := EPOCH_PREFIX ++ uint64_t_to_bytes epoch_number.

Definition addEpochDescriptor (epoch_number : Z) (d : NextEpochDescriptor) : act DB (outcome unit) := fun s =>
  match encode TNextEpochDescriptor (ned_authorities d, ned_randomness d) with
  | Err _ => Err undefined_behaviour
  | Ok v => Ok (db_Put (epoch_key epoch_number) v s)
  end.

Definition getEpochDescriptor (epoch_number : Z) (s : DB) : outcome NextEpochDescriptor :=
  encoded_ed ← db_Get (epoch_key epoch_number) s;
  v ← scale_decode max_size TNextEpochDescriptor encoded_ed;
  Ok (mkDescriptor v.1 v.2).

End epochs.
End EpochStorageImpl.

(** ** The lottery *)

Record Epoch : Type := mkEpoch {
  epoch_index : Z;
  start_slot : Z;
  epoch_duration : Z;
  epoch_authorities : AuthorityList;
  epoch_randomness : bytes
}.

Section threshold.
Context (pow : double -> double -> double).

Definition double_add : double -> double -> double := SFadd 53 1024.
Definition double_sub : double -> double -> double := SFsub 53 1024.
Definition double_div : double -> double -> double := SFdiv 53 1024.
Definition double_one : double := double_of_u64 1.

(** [2^128] times the number, towards zero; a number that is not finite is no
    [cpp_rational]. *)
Definition scaled_rational (x : double) : outcome Z :=
  match x with
  | S754_zero _ => Ok 0
  | S754_finite s m e => Ok ((if s then -1 else 1) * Z.shiftl (Z.pos m) (e + 128))
  | _ => Err undefined_behaviour
  end.

(** The conversion to [uint128_t] keeps the low bits. *)
Definition calculateThreshold (c_pair : Z * Z) (authorities : AuthorityList) (authority_index : Z) : outcome Z :=
  let c := double_div (double_of_u64 c_pair.1) (double_of_u64 c_pair.2) in
  a ← ok_or undefined_behaviour (authorities !! Z.to_nat authority_index);
  let sum := foldl (fun acc (x : bytes * Z) => double_add acc (double_of_u64 x.2)) (double_of_u64 0) authorities in
  let theta := double_div (double_of_u64 a.2) sum in
  t ← scaled_rational (double_sub double_one (pow (double_sub double_one c) theta));
  Ok (t mod 2 ^ 128).

End threshold.

(** The randomness and the number of the slot. *)
Definition vrf_input (randomness : bytes) (slot : Z) : bytes := randomness ++ uint64_t_to_bytes slot.

Module ProductionLotteryImpl.
Section lottery.
Context `{SR25519} (hash256 : bytes -> bytes).

Record t : Type := mk { last_epoch_vrf_values_ : list bytes; computed_epochs_randomnesses : gset Z }.

Fixpoint leadership_loop (randomness : bytes) (threshold : Z) (keypair : SR25519Keypair) (count : nat) (i : Z) : list (option VRFOutput) :=
  match count with
  | O => []
  | S count' => vrf_sign (vrf_input randomness i) keypair threshold :: leadership_loop randomness threshold keypair count' (i + 1)
  end.

Definition slotsLeadership (epoch : Epoch) (threshold : Z) (keypair : SR25519Keypair) : list (option VRFOutput) :=
  let first := u64 (epoch_index epoch * epoch_duration epoch) in
  let last := u64 (u64 (epoch_index epoch + 1) * epoch_duration epoch) in
  leadership_loop (epoch_randomness epoch) threshold keypair (Z.to_nat (last - first)) first.

(** Called twice for an epoch, the assertion fails. *)
Definition computeRandomness (last_epoch_randomness : bytes) (last_epoch_index : Z) : act t bytes := fun s =>
  if decide (last_epoch_index ∈ computed_epochs_randomnesses s) then Err undefined_behaviour else
  let new_randomness := last_epoch_randomness ++ uint64_t_to_bytes last_epoch_index ++ concat (last_epoch_vrf_values_ s) in
  Ok (hash256 new_randomness, mk [] ({[last_epoch_index]} ∪ computed_epochs_randomnesses s)).

Definition submitVRFValue (value : bytes) (s : t) : t := mk (last_epoch_vrf_values_ s ++ [value]) (computed_epochs_randomnesses s).

End lottery.
End ProductionLotteryImpl.

(** ** The validator *)

Module ProductionBlockValidator.
Section validator.
Context `{SR25519} (hash256 : bytes -> bytes) (max_size : ty -> Z).

(** [blocks_producers_]. *)
Definition t : Type := gmap Z (gset Z).

Definition verifySignature (h : BlockHeader) (seal : bytes) (public_key : bytes) : outcome bool :=
  unsealed_header ← pop_digest h;
  match encode_header unsealed_header with
  | Err _ => Err undefined_behaviour
  | Ok b => match sr_verify seal (hash256 b) public_key with Ok r => Ok r | Err _ => Ok false end
  end.

Definition verifyVRF (h : ProductionBlockHeader) (public_key : bytes) (threshold : Z) (randomness : bytes) : bool :=
  let '(is_valid, is_less) := vrf_verify (vrf_input randomness (slot_number h)) (vrf_output h) public_key threshold in
  if negb is_valid then false else is_less.

Definition verifyProducer (h : ProductionBlockHeader) (s : t) : bool * t :=
  let peer := authority_index h in
  match s !! slot_number h with
  | None => (true, <[slot_number h := {[peer]}]> s)
  | Some slot => if decide (peer ∈ slot) then (false, s) else (true, <[slot_number h := {[peer]} ∪ slot]> s)
  end.

(** Every extrinsic is taken to be valid. *)
Definition verifyTransactions (body : list bytes) : bool := forallb (fun _ => true) body.

Definition validateHeader (h : BlockHeader) (authority_id : bytes) (threshold : Z) (randomness : bytes) : act t (outcome unit) := fun s =>
  match getProductionDigests max_size h with
  | Err e => Ok (Err e, s)
  | Ok (seal, production_header) =>
      match verifySignature h seal authority_id with
      | Err e => Err e
      | Ok false => Ok (Err (validation_error INVALID_SIGNATURE), s)
      | Ok true =>
          if negb (verifyVRF production_header authority_id threshold randomness) then Ok (Err (validation_error INVALID_VRF), s) else
          let '(first, s) := verifyProducer production_header s in
          if negb first then Ok (Err (validation_error TWO_BLOCKS_IN_SLOT), s) else Ok (Ok tt, s)
      end
  end.

Definition validateBlock (b : Block) (authority_id : bytes) (threshold : Z) (randomness : bytes) : act t (outcome unit) :=
  TRY _ ← validateHeader (header b) authority_id threshold randomness;
  if negb (verifyTransactions (body b)) then mret (Err (validation_error INVALID_TRANSACTIONS)) else mret (Ok tt).

End validator.
End ProductionBlockValidator.
