(* ===== verification/Authorship.v ===== *)
(** * Proposing a block

    Models [src/src/authorship/impl]: the builder of a block
    ([block_builder_impl.cpp], [block_builder_factory_impl.cpp]) and the proposer
    ([proposer_impl.cpp]), with the inherent data that is put into a block
    ([src/src/primitives/inherent_data.hpp]).

    The calls of the runtime execute code of the chain, and are the class
    [Runtime] on a state of its own.  The repository of headers is the storage of
    [BlockTree], the transactions are those of [TransactionPool]; the ready
    transactions are a [std::map], so they come in the order of their hashes.

    A proposed block holds the inherent extrinsics and then every transaction that
    was ready, and these are then out of the pool ([proposal_exact]).  Inherent
    data are read back ([inherent_data_round_trip]).  A block that could not be
    finalised loses its transactions, and a transaction that cannot be applied
    stops every proposal. *)

From S2P Require Import Prelude Scale TrieCodec BlockStorage BlockTree TransactionPool ScaleProps TrieCodecProps TransactionPoolInv TransactionPoolProps TransactionPoolRemoval.
Open Scope Z_scope.

(** ** Inherent data *)

Module InherentData.

Definition t : Type := gmap bytes bytes.

Definition putData (ty_ : ty) (identifier : bytes) (inherent : value ty_) (data : t) : outcome (outcome unit * t) :=
  match data !! identifier with
  | Some _ => Ok (Err inherent_identifier_already_exists, data)
  | None =>
      match encode ty_ inherent with
      | Err _ => Err undefined_behaviour
      | Ok b => Ok (Ok tt, <[identifier := b]> data)
      end
  end.

Definition replaceData (ty_ : ty) (identifier : bytes) (inherent : value ty_) (data : t) : outcome t :=
  match encode ty_ inherent with
  | Err _ => Err undefined_behaviour
  | Ok b => Ok (<[identifier := b]> data)
  end.

Definition TInherentData : ty := TVector (TPair (TBlob 8) buffer_ty).

Definition encode_data (data : t) : outcome bytes :=
  encode TInherentData ((fun e : bytes * bytes => (e.1, uchar <$> e.2)) <$> in_key_order data).

Section decoder.
Context (max_size : ty -> Z).

Definition getData (ty_ : ty) (identifier : bytes) (data : t) : outcome (value ty_) :=
  match data !! identifier with
  | Some buf => scale_decode max_size ty_ buf
  | None => Err inherent_identifier_does_not_exist
  end.

Fixpoint insert_items (l : list (bytes * list Z)) (data : t) : outcome t :=
  match l with
  | [] => Ok data
  | (k, v) :: l' =>
      match data !! k with
      | Some _ => Err inherent_identifier_already_exists
      | None => insert_items l' (<[k := byte <$> v]> data)
      end
  end.

Definition decode_data (b : bytes) : outcome t :=
  l ← scale_decode max_size TInherentData b; insert_items l ∅.

End decoder.
End InherentData.

(** ** The runtime *)

(** The result of applying an extrinsic: an outcome, which is any byte of the
    runtime, or an error. *)
Inductive ApplyResult : Type :=
  | ApplyOutcome (n : Z)
  | ApplyError (n : Z).

Definition SUCCESS_ : Z := 0.
Definition FAIL_ : Z := 1.

Class Runtime (R : Type) : Type := {
  rt_initialise_block : BlockHeader -> R -> outcome unit * R;
  rt_inherent_extrinsics : InherentData.t -> R -> outcome (list bytes) * R;
  rt_apply_extrinsic : bytes -> R -> outcome ApplyResult * R;
  rt_finalise_block : R -> outcome BlockHeader * R
}.

Section authorship.
Context {R : Type} `{!Runtime R} {St : Type} `{!BlockStore St}.

Record site : Type := mkSite {
  pool : TransactionPoolImpl.t;
  runtime : R;
  backend : St
}.

Definition on_runtime {A} (f : R -> A * R) : act site A := fun s =>
  let '(a, r) := f (runtime s) in Ok (a, mkSite (pool s) r (backend s)).
Definition on_backend {A} (m : act St A) : act site A := fun s =>
  match m (backend s) with Ok (a, st) => Ok (a, mkSite (pool s) (runtime s) st) | Err e => Err e end.
Definition on_pool {A} (m : act TransactionPoolImpl.t A) : act site A := fun s =>
  match m (pool s) with Ok (a, p) => Ok (a, mkSite p (runtime s) (backend s)) | Err e => Err e end.

(** [BlockHeaderRepository::getNumberById]. *)
Definition getNumberById (id : BlockId) : act St (outcome Z) :=
  match id with ByNumber n => mret (Ok n) | ByHash h => st_getNumberByHash h end.

End authorship.

Arguments site : clear implicits.
Arguments mkSite {R St}.

(** ** The builder *)

Module BlockBuilderImpl.
Section builder.
Context {R : Type} `{!Runtime R} {St : Type} `{!BlockStore St}.

Record t : Type := mk { block_header_ : BlockHeader; extrinsics_ : list bytes }.

Definition pushExtrinsic (extrinsic : bytes) (b : t) : act (site R St) (outcome t) :=
  TRY apply_res ← on_runtime (rt_apply_extrinsic extrinsic);
  match apply_res with
  | ApplyOutcome n =>
      if decide (n = SUCCESS_) then mret (Ok (mk (block_header_ b) (extrinsics_ b ++ [extrinsic]))) else
      if decide (n = FAIL_) then mret (Err extrinsic_application_failed) else lift (Err undefined_behaviour)
  | ApplyError _ => mret (Err extrinsic_application_failed)
  end.

Definition bake (b : t) : act (site R St) (outcome Block) :=
  TRY finalised_header ← on_runtime rt_finalise_block;
  mret (Ok (mkBlock finalised_header (extrinsics_ b))).

(** [BlockBuilderFactoryImpl::create]. *)
Definition create (parent_id : BlockId) (inherent_digest : list bytes) : act (site R St) (outcome t) :=
  TRY parent_hash ← on_backend (st_getHashById parent_id);
  TRY parent_number ← on_backend (getNumberById parent_id);
  let h := mkHeader parent_hash (u64 (parent_number + 1)) zero_hash zero_hash inherent_digest in
  TRY _ ← on_runtime (rt_initialise_block h);
  mret (Ok (mk h [])).

End builder.
End BlockBuilderImpl.

(** ** The proposer *)

Module ProposerImpl.
Section proposer.
Context {R : Type} `{!Runtime R} {St : Type} `{!BlockStore St}.

Fixpoint push_all (xts : list bytes) (b : BlockBuilderImpl.t) : act (site R St) (outcome BlockBuilderImpl.t) :=
  match xts with
  | [] => mret (Ok b)
  | xt :: xts' => TRY b ← BlockBuilderImpl.pushExtrinsic xt b; push_all xts' b
  end.

(** The extrinsics of the ready transactions. *)
Fixpoint read_all (ready_txs : list (bytes * nat)) : act (site R St) (list bytes) :=
  match ready_txs with
  | [] => mret []
  | (_, p) :: l => tx ← on_pool (TransactionPoolImpl.read p); rest ← read_all l; mret (ext tx :: rest)
  end.

(** A failed removal is logged. *)
Fixpoint remove_all (fuel : nat) (ready_txs : list (bytes * nat)) : act (site R St) unit :=
  match ready_txs with
  | [] => mret tt
  | (h, _) :: l => _ ← on_pool (TransactionPoolImpl.removeOne fuel h); remove_all fuel l
  end.

Definition propose (fuel : nat) (parent_block_id : BlockId) (inherent_data : InherentData.t) (inherent_digest : list bytes)
    : act (site R St) (outcome Block) :=
  TRY block_builder ← BlockBuilderImpl.create parent_block_id inherent_digest;
  TRY inherent_xts ← on_runtime (rt_inherent_extrinsics inherent_data);
  TRY block_builder ← push_all inherent_xts block_builder;
  ready_txs ← gets (fun s => in_key_order (TransactionPoolImpl.getReadyTransactions (pool s)));
  xts ← read_all ready_txs;
  TRY block_builder ← push_all xts block_builder;
  block ← BlockBuilderImpl.bake block_builder;
  remove_all fuel ready_txs;;
  mret block.

End proposer.
End ProposerImpl.

(** ** Proposals *)

(** [ApplyOutcome] is cast from any byte of the runtime; a byte that is none of
    the enumeration makes [pushExtrinsic] leave its [switch] without a result.
    [unless P] is a run that returns, or is undefined and then [P] holds. *)
Definition unless {S A : Type} (P : Prop) (m : act S A) (s : S) (Q : A -> S -> Prop) : Prop :=
  match m s with Ok (a, s') => Q a s' | Err e => e = undefined_behaviour /\ P end.

Section unless.
Context {S : Type} (P : Prop).

Lemma unless_runs {A} (m : act S A) s Q : runs m s Q -> unless P m s Q.
Proof. unfold unless. by intros (a & s' & -> & HQ). Qed.

Lemma unless_bind {A B} (m : act S A) (f : A -> act S B) s Q :
  unless P m s (fun a s' => unless P (f a) s' Q) -> unless P (m ≫= f) s Q.
Proof. unfold unless, mbind, act_bind. by destruct (m s) as [[a s']|e]. Qed.

Lemma unless_mono {A} (m : act S A) s (Q Q' : A -> S -> Prop) : unless P m s Q -> (forall a s', Q a s' -> Q' a s') -> unless P m s Q'.
Proof. unfold unless. destruct (m s) as [[a s']|e]; eauto. Qed.

Lemma unless_try {A B} (m : act S (outcome A)) (f : A -> act S (outcome B)) s Q :
  unless P m s (fun r s' => match r with Ok a => unless P (f a) s' Q | Err e => Q (Err e) s' end) -> unless P (try m f) s Q.
Proof. intros Hm. apply unless_bind. eapply unless_mono; [exact Hm|]. by intros [a|e] s'. Qed.

End unless.

Section proposal.
Context {R : Type} `{Runtime R} {St : Type} `{!BlockStore St}.
Import TransactionPoolImpl.

Notation site := (site R St).

Lemma runs_on_pool {A} (m : act TransactionPoolImpl.t A) (s : site) (Q : A -> site -> Prop) :
  runs m (pool s) (fun a p => Q a (mkSite p (runtime s) (backend s))) -> runs (on_pool m) s Q.
Proof. intros (a & p & E & HQ). exists a, (mkSite p (runtime s) (backend s)). unfold on_pool. by rewrite E. Qed.

Lemma runs_on_runtime {A} (f : R -> A * R) (s : site) (Q : A -> site -> Prop) :
  Q (f (runtime s)).1 (mkSite (pool s) (f (runtime s)).2 (backend s)) -> runs (on_runtime f) s Q.
Proof. intros HQ. unfold runs, on_runtime. destruct (f (runtime s)) as [a r]. eauto. Qed.

Definition returns_always {A} (m : act St A) : Prop := forall st, exists a st', m st = Ok (a, st').

Lemma runs_on_backend {A} (m : act St A) (s : site) (Q : A -> site -> Prop) : returns_always m ->
  (forall a st, m (backend s) = Ok (a, st) -> Q a (mkSite (pool s) (runtime s) st)) -> runs (on_backend m) s Q.
Proof. intros Hm HQ. destruct (Hm (backend s)) as (a & st & E). exists a, (mkSite (pool s) (runtime s) st). unfold on_backend. rewrite E. eauto. Qed.

(** Everything but the pool. *)
Definition same_pool (s s' : site) : Prop := pool s' = pool s.

(** The runtime once gave an outcome that is none of the enumeration. *)
Definition strange_outcome : Prop :=
  exists x r n r', rt_apply_extrinsic x r = (Ok (ApplyOutcome n), r') /\ n <> SUCCESS_ /\ n <> FAIL_.

(** The runtime applied the extrinsics, one after the other and each with success. *)
Inductive applied : list bytes -> R -> R -> Prop :=
  | applied_nil r : applied [] r r
  | applied_cons x xs r r1 r2 : rt_apply_extrinsic x r = (Ok (ApplyOutcome SUCCESS_), r1) -> applied xs r1 r2 -> applied (x :: xs) r r2.

Lemma applied_app xs ys r r1 r2 : applied xs r r1 -> applied ys r1 r2 -> applied (xs ++ ys) r r2.
Proof. induction 1; [done|]. intros. cbn. econstructor; eauto. Qed.

(** The runtime was told of a block on top of the parent, with the given digest. *)
Definition initialised (id : BlockId) (dg : list bytes) (s : site) (r : R) : Prop :=
  exists parent n st1 st2, st_getHashById id (backend s) = Ok (Ok parent, st1) /\ getNumberById id st1 = Ok (Ok n, st2) /\
    rt_initialise_block (mkHeader parent (u64 (n + 1)) zero_hash zero_hash dg) (runtime s) = (Ok tt, r).

Lemma push_all_runs xts b s : unless strange_outcome (ProposerImpl.push_all xts b) s (fun r s' => same_pool s s' /\
  forall b', r = Ok b' -> BlockBuilderImpl.extrinsics_ b' = BlockBuilderImpl.extrinsics_ b ++ xts /\ applied xts (runtime s) (runtime s')).
Proof.
  revert b s. induction xts as [|xt xts IH]; intros b s; cbn [ProposerImpl.push_all].
  { split; [done|]. intros b' [= <-]. rewrite app_nil_r. split; [done|constructor]. }
  apply unless_try. unfold BlockBuilderImpl.pushExtrinsic. apply unless_try, unless_runs, runs_on_runtime.
  destruct (rt_apply_extrinsic xt (runtime s)) as [[[n|n]|e] r] eqn:E; cbn [fst snd]; [|done..].
  destruct (decide (n = SUCCESS_)) as [->|Hs].
  - apply unless_runs, runs_ret. eapply unless_mono; [apply IH|]. intros r' s' [Hp Hb]. split; [done|].
    intros b' Hr. destruct (Hb b' Hr) as [-> Ha]. cbn. rewrite <- (assoc_L (++)). split; [done|]. by econstructor.
  - destruct (decide (n = FAIL_)); [done|]. split; [done|]. by exists xt, (runtime s), n, r.
Qed.

Lemma create_runs id dg s : returns_always (st_getHashById id) -> returns_always (getNumberById id) ->
  runs (BlockBuilderImpl.create id dg) s (fun r s' => same_pool s s' /\
    forall b, r = Ok b -> BlockBuilderImpl.extrinsics_ b = [] /\ initialised id dg s (runtime s')).
Proof.
  intros H1 H2. unfold BlockBuilderImpl.create. apply runs_try, runs_on_backend; [done|]. intros [h|e] st Eh; [|done].
  apply runs_try, runs_on_backend; [done|]. intros [n|e] st' En; [|done].
  apply runs_try, runs_on_runtime. destruct (rt_initialise_block _ _) as [[[]|e] r] eqn:Er; cbn; [|done].
  apply runs_ret. split; [done|]. intros b [= <-]. split; [done|]. by exists h, n, st, st'.
Qed.

(** The ready transactions in the order of their hashes, and what they carry. *)
Definition ready (p : TransactionPoolImpl.t) : list (bytes * nat) := in_key_order (getReadyTransactions p).
Definition ready_extrinsics (p : TransactionPoolImpl.t) : list bytes :=
  omap (fun e => ext <$> heap p !! e.2) (ready p).

Lemma ready_elem p h q : pool_inv p -> (h, q) ∈ ready p -> ready_txs_ p !! h = Some q /\ imported_txs_ p !! h = Some q /\
  exists tx, heap p !! q = Some tx.
Proof.
  intros [HI _ _ _] Hin. unfold ready in Hin. rewrite in_key_order_permutation in Hin. apply elem_of_map_to_list in Hin.
  unfold getReadyTransactions in Hin. rewrite lookup_omap in Hin. apply bind_Some in Hin as (q' & Hq & Hl).
  unfold lock in Hl. case_decide; [|done]. injection Hl as ->.
  pose proof (lookup_weaken _ _ _ _ Hq (inv_ready _ _ _ _ _ HI)) as Him. split_and!; [done..|].
  destruct (inv_domain _ _ _ _ _ HI _ _ Him) as (tx & Ht & _). eauto.
Qed.

Lemma ready_nodup p : NoDup (fst <$> ready p).
Proof. unfold ready. rewrite in_key_order_permutation. apply NoDup_fst_map_to_list. Qed.

Lemma read_all_runs l (s : site) : (forall e, e ∈ l -> exists tx, heap (pool s) !! e.2 = Some tx) ->
  runs (ProposerImpl.read_all l) s (fun r s' => s' = s /\ r = omap (fun e => ext <$> heap (pool s) !! e.2) l).
Proof.
  induction l as [|[h p] l IH]; intros Hl; cbn [ProposerImpl.read_all]; [by apply runs_ret|].
  destruct (Hl (h, p)) as [tx Htx]; [left|]. cbn in Htx. apply runs_bind, runs_on_pool.
  exists tx, (pool s). split; [unfold read, mbind, act_bind, gets, lift; by rewrite Htx|].
  destruct s as [pl rt bk]. cbn in *. apply runs_bind. eapply runs_mono; [apply IH|].
  - intros e He. apply Hl. by right.
  - intros r s' [-> ->]. apply runs_ret. by rewrite Htx.
Qed.

Lemma remove_all_runs fuel l (s : site) : pool_inv (pool s) -> (size (imported_txs_ (pool s)) < fuel)%nat ->
  runs (ProposerImpl.remove_all fuel l) s (fun _ s' => pool_inv (pool s') /\ runtime s' = runtime s /\
    imported_txs_ (pool s') = filter (fun e => e.1 ∉ fst <$> l) (imported_txs_ (pool s))).
Proof.
  revert s. induction l as [|[h p] l IH]; intros s HP Hfuel; cbn [ProposerImpl.remove_all].
  { apply runs_ret. split; [done|]. split; [done|]. symmetry. apply map_filter_id. intros. apply not_elem_of_nil. }
  apply runs_bind, runs_on_pool. eapply runs_mono; [by apply removeOne_spec|]. intros r p' (_ & HP' & Him & _).
  eapply runs_mono; [apply IH; [done|]|].
  - cbn. rewrite Him. pose proof (map_subseteq_size _ _ (delete_subseteq (imported_txs_ (pool s)) h)). lia.
  - cbn. intros [] s' (HP2 & Hrt & Him2). split; [done|]. split; [done|]. rewrite Him2, Him. apply map_eq. intros k. apply option_eq. intros q.
    rewrite !map_lookup_filter_Some, lookup_delete_Some. cbn. set_solver.
Qed.

(** The pool without its ready transactions. *)
Definition without_ready (p : TransactionPoolImpl.t) : gmap bytes nat := filter (fun e => e.1 ∉ fst <$> ready p) (imported_txs_ p).

(** C29. A proposal on a pool that comes from an empty one by admissible
    submissions and by removals, over a storage whose two lookups of the parent
    return, is undefined only if the runtime gives an outcome that is none of the
    enumeration.  Otherwise it returns, and the pool is in order.  A proposed
    block was made by the runtime in this way: it was told of a block on top of
    the parent with the given digest, it made the inherent extrinsics from the
    given data, it applied these and then the extrinsics of all ready
    transactions in the order of their hashes, all with success, and finalised the
    header of the block.  The body of the block is exactly the list of these
    extrinsics, and the pool is left without the ready transactions.  After an
    error the pool is as it was, or the header was not finalised and the pool is
    without the ready transactions as well. *)
Theorem proposal_exact (limits : Limits) (id : BlockId) (data : InherentData.t) (dg : list bytes) (s : site) :
  reachable limits (pool s) -> returns_always (st_getHashById id) -> returns_always (getNumberById id) ->
  unless strange_outcome (ProposerImpl.propose (pool_fuel (pool s)) id data dg) s (fun r s' =>
    settled (pool s') /\
    match r with
    | Ok b => exists inherents r1 r2 r3,
        initialised id dg s r1 /\ rt_inherent_extrinsics data r1 = (Ok inherents, r2) /\
        body b = inherents ++ ready_extrinsics (pool s) /\ applied (body b) r2 r3 /\
        rt_finalise_block r3 = (Ok (header b), runtime s') /\ imported_txs_ (pool s') = without_ready (pool s)
    | Err e => pool s' = pool s \/
        (exists r3, rt_finalise_block r3 = (Err e, runtime s')) /\ imported_txs_ (pool s') = without_ready (pool s)
    end).
Proof.
  intros HP%reachable_pool_inv H1 H2. pose proof (pool_inv_settled _ HP) as Hset. unfold ProposerImpl.propose.
  apply unless_try, unless_runs. eapply runs_mono; [by apply create_runs|]. intros [b0|e] s1 [E1 Hb0]; [|rewrite E1; eauto].
  destruct (Hb0 b0 eq_refl) as [Hx0 Hi]. apply unless_try, unless_runs, runs_on_runtime.
  destruct (rt_inherent_extrinsics _ _) as [[xts|e] r1] eqn:Ein; cbn [fst snd]; [|rewrite E1; eauto].
  apply unless_try. eapply unless_mono; [apply push_all_runs|]. intros [b1|e] s2 [E2 Hb1]; unfold same_pool in E2; cbn in E2; rewrite E1 in E2; [|rewrite E2; eauto].
  destruct (Hb1 b1 eq_refl) as [Hx1 Ha1]. apply unless_bind, unless_runs, runs_gets. rewrite E2. fold (ready (pool s)).
  apply unless_bind, unless_runs. eapply runs_mono; [apply read_all_runs|].
  { rewrite E2. intros [h q] He. by destruct (ready_elem _ _ _ HP He) as (_ & _ & ?). }
  intros exts s3 [-> ->]. rewrite E2. fold (ready_extrinsics (pool s)).
  apply unless_try. eapply unless_mono; [apply push_all_runs|]. intros [b2|e] s4 [E4 Hb2]; unfold same_pool in E4; rewrite E2 in E4; [|rewrite E4; eauto].
  destruct (Hb2 b2 eq_refl) as [Hx2 Ha2]. rewrite Hx1, Hx0 in Hx2. cbn in Hx2, Ha1.
  apply unless_runs, runs_bind. unfold BlockBuilderImpl.bake. apply runs_try, runs_on_runtime.
  destruct (rt_finalise_block _) as [[hd|e] r4] eqn:Ef; cbn [fst snd]; [apply runs_ret|].
  all: apply runs_bind; (eapply runs_mono; [apply remove_all_runs; cbn [pool]; rewrite E4; [done|unfold pool_fuel; lia]|]).
  all: cbn [pool runtime]; rewrite E4; intros [] s5 (HP5 & Hrt & Him); apply runs_ret; (split; [by apply pool_inv_settled|]).
  - exists xts, (runtime s1), r1, (runtime s4). rewrite Hrt. cbn [body header]. rewrite Hx2. split_and!; try done. by eapply applied_app.
  - right. rewrite Hrt. eauto.
Qed.

End proposal.

(** ** Inherent data *)

Section inherent.
Context (max_size : ty -> Z).

(** The data fit: identifiers have 8 bytes, and sizes are below the limits. *)
Definition data_ok (data : InherentData.t) : Prop :=
  Z.of_nat (size data) <= u64_max /\ Z.of_nat (size data) <= max_size (TPair (TBlob 8) buffer_ty) /\
  forall k v, data !! k = Some v -> length k = 8%nat /\ Z.of_nat (length v) <= u64_max /\ Z.of_nat (length v) <= max_size (TInt false 1).

Lemma insert_items_spec (l : list (bytes * bytes)) : forall data : gmap bytes bytes, NoDup (fst <$> l) -> (forall k, k ∈ fst <$> l -> data !! k = None) ->
  InherentData.insert_items ((fun e : bytes * bytes => (e.1, uchar <$> e.2)) <$> l) data = Ok (list_to_map l ∪ data : gmap bytes bytes).
Proof.
  induction l as [|[k v] l IH]; intros data Hnd Hfresh; [by rewrite fmap_nil, left_id_L by apply _|].
  apply NoDup_cons in Hnd as [Hk Hnd]. rewrite fmap_cons. cbn [InherentData.insert_items fst snd].
  unfold InherentData.t. rewrite (Hfresh k) by left. unfold InherentData.t in IH. rewrite IH; [|done|].
  - f_equal. rewrite byte_uchar_list, list_to_map_cons, <- insert_union_l, insert_union_r; [done|].
    by apply not_elem_of_list_to_map_1.
  - intros k' Hk'. rewrite lookup_insert_ne by (intros ->; done). apply Hfresh. by right.
Qed.

Lemma data_wf data : data_ok data ->
  wf max_size InherentData.TInherentData ((fun e : bytes * bytes => (e.1, uchar <$> e.2)) <$> in_key_order data).
Proof.
  intros (H1 & H2 & H3). cbn [wf InherentData.TInherentData]. rewrite length_fmap.
  assert (length (in_key_order data) = size data) as -> by (by rewrite in_key_order_permutation, length_map_to_list).
  split_and!; [done..|]. apply Forall_fmap, Forall_forall. intros [k v] Hkv. rewrite in_key_order_permutation in Hkv.
  apply elem_of_map_to_list, H3 in Hkv as (Hk & Hv1 & Hv2). cbn. rewrite !length_fmap. split_and!; [done..|].
  apply Forall_fmap, Forall_true. intros c. apply uchar_range.
Qed.

(** Inherent data are encoded in the order of the identifiers, and decoding
    returns them. *)
Theorem inherent_data_round_trip (data : InherentData.t) : data_ok data ->
  exists b, InherentData.encode_data data = Ok b /\ InherentData.decode_data max_size b = Ok data.
Proof.
  intros Hok. destruct (proj1 (encode_codes max_size) InherentData.TInherentData _ eq_refl (data_wf data Hok)) as (b & Hb & Hc & _).
  exists b. split; [exact Hb|]. unfold InherentData.decode_data, scale_decode. rewrite <- (app_nil_r b), Hc. cbn [mbind outcome_bind].
  rewrite insert_items_spec.
  - f_equal. rewrite right_id_L by apply _. unfold InherentData.t in *.
    rewrite <- (list_to_map_to_list data) at 2. apply list_to_map_proper; [|by rewrite in_key_order_permutation].
    rewrite in_key_order_permutation. apply NoDup_fst_map_to_list.
  - rewrite in_key_order_permutation. apply NoDup_fst_map_to_list.
  - intros k _. apply lookup_empty.
Qed.

End inherent.
