(* ===== verification/ProductionNode.v ===== *)
(** * Block production: the executor of blocks and the slots

    Models [src/src/verification/production/impl]: the executor, which requests
    blocks and applies them ([block_executor.cpp], with the request and the
    response of [production_synchronizer_impl.cpp]), and the producer, which waits
    for slots, makes blocks in its own and follows the announced ones
    ([production_impl.cpp]).

    The executor works on the block tree of [BlockTree], the authority manager of
    [Authority], whose database also holds the epochs, the validator of
    [Production] and the pool of [TransactionPool].  The producer adds the
    proposer of [Authorship].  The readings of the clock are a sequence; the
    timer, the requests and the announcements are recorded, and an answer and the
    expiry of the timer are operations of their own.  Time points are not bounded.
    The loop that rewinds slots has fuel, which is also passed to the pool. *)

From S2P Require Import Prelude Scale ScaledInteger TrieCodec BlockStorage BlockTree TransactionPool Votes Authority Production Authorship.

Open Scope Z_scope.

Record ProductionConfiguration : Type := mkConfiguration {
  slot_duration : Z;
  epoch_length : Z;
  leadership_rate : Z * Z;
  genesis_authorities : AuthorityList;
  randomness : bytes
}.

(** What is called after the blocks of a response. *)
Inductive continuation : Type := Nothing | CaughtUp.

Record BlocksRequest : Type := mkRequest {
  req_client : Z;
  req_from : BlockId;
  req_to : bytes;
  req_next : continuation
}.

(** A block needs a header. *)
Fixpoint getBlocks (response : list BlockData) : option (list Block) :=
  match response with
  | [] => Some []
  | d :: l =>
      h ← bd_header d;
      rest ← getBlocks l;
      Some (mkBlock h (default [] (bd_body d)) :: rest)
  end.

(** ** The executor *)

Module BlockExecutor.
Section executor.
Context `{SR25519} {blockslib : BlocksLib} {St : Type} `{!BlockStore St} {DB : Type} `{!KeyValueDB DB} `{!DirectChain}.
Context (pow : double -> double -> double) (max_size : ty -> Z) (config : ProductionConfiguration).

Record t : Type := mk {
  tree : BlockTreeImpl.t (St := St);
  authority : AuthorityManagerImpl.t (DB := DB);
  producers : ProductionBlockValidator.t;
  tx_pool_ : TransactionPoolImpl.t;
  clients : nat;
  requests : list BlocksRequest
}.

Definition on_tree {A} (m : act BlockTreeImpl.t A) : act t A := fun s =>
  match m (tree s) with
  | Ok (a, x) => Ok (a, mk x (authority s) (producers s) (tx_pool_ s) (clients s) (requests s))
  | Err e => Err e
  end.
Definition on_authority {A} (m : act AuthorityManagerImpl.t A) : act t A := fun s =>
  match m (authority s) with
  | Ok (a, x) => Ok (a, mk (tree s) x (producers s) (tx_pool_ s) (clients s) (requests s))
  | Err e => Err e
  end.
Definition on_epochs {A} (m : act DB A) : act t A := on_authority (fun s =>
  match m (AuthorityManagerImpl.storage_ s) with
  | Ok (a, x) => Ok (a, AuthorityManagerImpl.mk (AuthorityManagerImpl.root_ s) x (AuthorityManagerImpl.next_address s))
  | Err e => Err e
  end).
Definition on_producers {A} (m : act ProductionBlockValidator.t A) : act t A := fun s =>
  match m (producers s) with
  | Ok (a, x) => Ok (a, mk (tree s) (authority s) x (tx_pool_ s) (clients s) (requests s))
  | Err e => Err e
  end.
Definition on_pool {A} (m : act TransactionPoolImpl.t A) : act t A := fun s =>
  match m (tx_pool_ s) with
  | Ok (a, x) => Ok (a, mk (tree s) (authority s) (producers s) x (clients s) (requests s))
  | Err e => Err e
  end.
Definition add_request (r : BlocksRequest) (s : t) : t :=
  mk (tree s) (authority s) (producers s) (tx_pool_ s) (clients s) (requests s ++ [r]).

Definition drop_request (i : nat) (s : t) : t :=
  mk (tree s) (authority s) (producers s) (tx_pool_ s) (clients s) (delete i (requests s)).

(** [result.value()] *)
Definition value_of {A} (r : outcome A) : outcome A := match r with Ok a => Ok a | Err _ => Err undefined_behaviour end.

Definition header_hash (h : BlockHeader) : outcome bytes := b ← value_of (encode_header h); Ok (hasher_blake2b_256 b).

Definition getEpochDescriptor (epoch_number : Z) : act t (outcome NextEpochDescriptor) :=
  s ← gets authority; returned (EpochStorageImpl.getEpochDescriptor max_size epoch_number (AuthorityManagerImpl.storage_ s)).

(** The messages of the items; the first error ends the loop. *)
Fixpoint observe (b : BlockInfo) (digests : list bytes) : act t (outcome unit) :=
  match digests with
  | [] => mret (Ok tt)
  | d :: l =>
      match item_of max_size d with
      | VerificationItem e _ =>
          TRY _ ← on_authority (AuthorityManagerImpl.onVerification e b payload); observe b l
      | _ => observe b l
      end
  end.

Fixpoint remove_extrinsics (fuel : nat) (body : list bytes) : act t (outcome unit) :=
  match body with
  | [] => mret (Ok tt)
  | x :: l =>
      res ← on_pool (TransactionPoolImpl.removeOne fuel (hasher_blake2b_256 x));
      match res with
      | Err e => if decide (e = transaction_pool_error TX_NOT_FOUND) then remove_extrinsics fuel l else mret (Err e)
      | Ok _ => remove_extrinsics fuel l
      end
  end.

Definition applyBlock (fuel : nat) (b : Block) : act t (outcome unit) :=
  block_hash ← lift (header_hash (header b));
  existing ← on_tree (BlockTreeImpl.getBlockBody (ByHash block_hash));
  match existing with
  | Ok _ => mret (Err (block_tree_error TREE_BLOCK_EXISTS))
  | Err _ =>
      TRY production_digests ← returned (getProductionDigests max_size (header b));
      let production_header := production_digests.2 in
      epoch_index ← lift (udiv (slot_number production_header) (epoch_length config));
      this_block_epoch_descriptor_res ← getEpochDescriptor epoch_index;
      let descriptor := match this_block_epoch_descriptor_res with
                        | Ok d => d
                        | Err _ => mkDescriptor (genesis_authorities config) (randomness config)
                        end in
      threshold ← lift (calculateThreshold pow (leadership_rate config) (ned_authorities descriptor) (authority_index production_header));
      next_epoch_digest_res ← lift (getNextEpochDigest max_size (header b));
      match next_epoch_digest_res with
      | Ok d => r ← on_epochs (EpochStorageImpl.addEpochDescriptor (u64 (epoch_index + 2)) d); lift (value_of r)
      | Err _ => mret tt
      end;;
      producer ← lift (ok_or undefined_behaviour (ned_authorities descriptor !! Z.to_nat (authority_index production_header)));
      TRY _ ← on_producers (ProductionBlockValidator.validateHeader hasher_blake2b_256 max_size (header b) producer.1 threshold
                              (ned_randomness descriptor));
      unsealed ← lift (pop_digest (header b));
      TRY _ ← on_tree (BlockTreeImpl.addBlock b);
      TRY _ ← observe (mkInfo (number (header b)) block_hash) (digest unsealed);
      remove_extrinsics fuel (body b)
  end.

(** The loop over the blocks of a response: a block that exists is passed over,
    another error ends it. *)
Fixpoint apply_all (fuel : nat) (blocks : list Block) : act t unit :=
  match blocks with
  | [] => mret tt
  | b :: l =>
      apply_res ← applyBlock fuel b;
      match apply_res with
      | Ok _ => apply_all fuel l
      | Err e => if decide (e = block_tree_error TREE_BLOCK_EXISTS) then apply_all fuel l else mret tt
      end
  end.

(** [ProductionSynchronizerImpl::pollClients]: the client is found by the index
    of the authority, without a check. *)
Definition requestBlocks (from : BlockId) (to : bytes) (authority_index : Z) (next : continuation) : act t unit :=
  n ← gets clients;
  if decide (Z.of_nat n <= authority_index) then lift (Err undefined_behaviour)
  else modify (add_request (mkRequest authority_index from to next)).

Definition requestBlocks_header (new_header : BlockHeader) (next : continuation) : act t unit :=
  last ← on_tree BlockTreeImpl.getLastFinalized;
  new_block_hash ← lift (header_hash new_header);
  if decide (number new_header < last.1) then lift (Err undefined_behaviour) else
  d ← lift (value_of (getProductionDigests max_size new_header));
  requestBlocks (ByHash last.2) new_block_hash (authority_index d.2) next.

(** The answer to a request: whether [next] was called. *)
Definition on_response (fuel : nat) (response_res : outcome (list BlockData)) : act t bool :=
  match response_res with
  | Ok ((_ :: _) as blocks) =>
      match getBlocks blocks with
      | Some bs => apply_all fuel bs;; mret true
      | None => mret false
      end
  | _ => mret false
  end.

Definition request_new (h : BlockHeader) (block_hash : bytes) : act t unit :=
  d ← lift (value_of (getProductionDigests max_size h));
  parent ← on_tree (BlockTreeImpl.getBlockHeader (ByHash (parent_hash h)));
  match parent with
  | Err _ =>
      last ← on_tree BlockTreeImpl.getLastFinalized;
      requestBlocks (ByHash last.2) block_hash (authority_index d.2) Nothing
  | Ok _ => requestBlocks (ByHash (parent_hash h)) block_hash (authority_index d.2) Nothing
  end.

(** The handler works on a state [S] that the executor is a part of. *)
Definition processNextBlock {S} (on_executor : forall A, act t A -> act S A) (h : BlockHeader) (new_block_handler : BlockHeader -> act S unit)
    : act S unit :=
  block_hash ← lift (header_hash h);
  known ← on_executor _ (on_tree (BlockTreeImpl.getBlockHeader (ByHash block_hash)));
  match known with
  | Ok _ => mret tt
  | Err _ => new_block_handler h;; on_executor _ (request_new h block_hash)
  end.

End executor.
End BlockExecutor.

(** ** The producer *)

Inductive ProductionState : Type := WAIT_BLOCK | CATCHING_UP | NEED_SLOT_TIME | SYNCHRONIZED.
Inductive ExecutionStrategy : Type := GENESIS | SYNC_FIRST.

(** [int64_t] of 64 bits. *)
Definition i64 (z : Z) : Z := if u64 z <? 2 ^ 63 then u64 z else u64 z - 2 ^ 64.

Definition encode_item (i : DigestItem) : outcome bytes := BlockExecutor.value_of (encode TDigestItem (item_value i)).

Definition getAuthorityIndex (authorities : AuthorityList) (authority_key : bytes) : option Z :=
  (fun x => Z.of_nat x.1) <$> list_find (fun a : bytes * Z => a.1 = authority_key) authorities.

Module ProductionImpl.
Section production.
Context `{SR25519} {blockslib : BlocksLib} {St : Type} `{!BlockStore St} {DB : Type} `{!KeyValueDB DB} `{!DirectChain}.
Context {R : Type} `{!Runtime R}.
Context (pow : double -> double -> double) (max_size : ty -> Z) (config : ProductionConfiguration).
Context (keypair_ : SR25519Keypair) (clock : nat -> Z).

Record t : Type := mk {
  current_state_ : ProductionState;
  current_epoch_ : Epoch;
  first_slot_times_ : list Z;
  first_production_slot : option Z;
  current_slot_ : Z;
  slots_leadership_ : list (option VRFOutput);
  next_slot_finish_time_ : Z;
  execution_strategy_ : option ExecutionStrategy;
  timer_ : option Z;
  readings : nat;
  announced : list BlockHeader;
  executor : BlockExecutor.t (St := St) (DB := DB);
  runtime_ : R
}.

Definition set_state (x : ProductionState) (s : t) : t := mk x (current_epoch_ s) (first_slot_times_ s) (first_production_slot s)
  (current_slot_ s) (slots_leadership_ s) (next_slot_finish_time_ s) (execution_strategy_ s) (timer_ s) (readings s) (announced s)
  (executor s) (runtime_ s).
Definition set_epoch (x : Epoch) (s : t) : t := mk (current_state_ s) x (first_slot_times_ s) (first_production_slot s)
  (current_slot_ s) (slots_leadership_ s) (next_slot_finish_time_ s) (execution_strategy_ s) (timer_ s) (readings s) (announced s)
  (executor s) (runtime_ s).
Definition set_first_slot (x : list Z) (y : option Z) (s : t) : t := mk (current_state_ s) (current_epoch_ s) x y
  (current_slot_ s) (slots_leadership_ s) (next_slot_finish_time_ s) (execution_strategy_ s) (timer_ s) (readings s) (announced s)
  (executor s) (runtime_ s).
Definition set_slot (x y : Z) (s : t) : t := mk (current_state_ s) (current_epoch_ s) (first_slot_times_ s) (first_production_slot s)
  x (slots_leadership_ s) y (execution_strategy_ s) (timer_ s) (readings s) (announced s) (executor s) (runtime_ s).
Definition set_leadership (x : list (option VRFOutput)) (s : t) : t := mk (current_state_ s) (current_epoch_ s) (first_slot_times_ s)
  (first_production_slot s) (current_slot_ s) x (next_slot_finish_time_ s) (execution_strategy_ s) (timer_ s) (readings s)
  (announced s) (executor s) (runtime_ s).
Definition set_strategy (x : ExecutionStrategy) (s : t) : t := mk (current_state_ s) (current_epoch_ s) (first_slot_times_ s)
  (first_production_slot s) (current_slot_ s) (slots_leadership_ s) (next_slot_finish_time_ s) (Some x) (timer_ s)
  (readings s) (announced s) (executor s) (runtime_ s).
Definition set_timer (x : option Z) (s : t) : t := mk (current_state_ s) (current_epoch_ s) (first_slot_times_ s)
  (first_production_slot s) (current_slot_ s) (slots_leadership_ s) (next_slot_finish_time_ s) (execution_strategy_ s) x
  (readings s) (announced s) (executor s) (runtime_ s).
Definition set_readings (x : nat) (s : t) : t := mk (current_state_ s) (current_epoch_ s) (first_slot_times_ s)
  (first_production_slot s) (current_slot_ s) (slots_leadership_ s) (next_slot_finish_time_ s) (execution_strategy_ s) (timer_ s)
  x (announced s) (executor s) (runtime_ s).
Definition set_announced (x : list BlockHeader) (s : t) : t := mk (current_state_ s) (current_epoch_ s) (first_slot_times_ s)
  (first_production_slot s) (current_slot_ s) (slots_leadership_ s) (next_slot_finish_time_ s) (execution_strategy_ s) (timer_ s)
  (readings s) x (executor s) (runtime_ s).
Definition set_parts (x : BlockExecutor.t) (y : R) (s : t) : t := mk (current_state_ s) (current_epoch_ s) (first_slot_times_ s)
  (first_production_slot s) (current_slot_ s) (slots_leadership_ s) (next_slot_finish_time_ s) (execution_strategy_ s) (timer_ s)
  (readings s) (announced s) x y.

Definition on_executor {A} (m : act BlockExecutor.t A) : act t A := fun s =>
  match m (executor s) with Ok (a, x) => Ok (a, set_parts x (runtime_ s) s) | Err e => Err e end.

(** The proposer works on the pool, the runtime and the storage of blocks. *)
Definition on_site {A} (m : act (site R St) A) : act t A := fun s =>
  let x := executor s in
  match m (mkSite (BlockExecutor.tx_pool_ x) (runtime_ s) (BlockTreeImpl.store (BlockExecutor.tree x))) with
  | Ok (a, p) =>
      Ok (a, set_parts (BlockExecutor.mk (BlockTreeImpl.set_store (backend p) (BlockExecutor.tree x)) (BlockExecutor.authority x)
                          (BlockExecutor.producers x) (pool p) (BlockExecutor.clients x) (BlockExecutor.requests x))
                       (runtime p) s)
  | Err e => Err e
  end.

Definition now : act t Z := i ← gets readings; modify (set_readings (S i));; mret (clock i).

(** *** Epochs *)

Definition getEpochLeadership (epoch : Epoch) : outcome (list (option VRFOutput)) :=
  authority_index ← ok_or undefined_behaviour (getAuthorityIndex (epoch_authorities epoch) (public_key keypair_));
  threshold ← calculateThreshold pow (leadership_rate config) (epoch_authorities epoch) authority_index;
  Ok (ProductionLotteryImpl.slotsLeadership epoch threshold keypair_).

(** Without a descriptor the authorities and the randomness stay. *)
Definition finishEpoch : act t unit :=
  e ← gets current_epoch_;
  slot ← gets current_slot_;
  let index := u64 (epoch_index e + 1) in
  next_epoch_digest_res ← on_executor (BlockExecutor.getEpochDescriptor max_size index);
  let d := match next_epoch_digest_res with Ok d => d | Err _ => mkDescriptor (epoch_authorities e) (epoch_randomness e) end in
  let e := mkEpoch index slot (epoch_duration e) (ned_authorities d) (ned_randomness d) in
  modify (set_epoch e);;
  l ← lift (getEpochLeadership e);
  modify (set_leadership l).

(** *** Slots *)

Definition epoch_ends (slot : Z) : outcome bool :=
  if decide (slot = 0) then Ok false else r ← umod slot (epoch_length config); Ok (r =? 0).

Fixpoint runSlot (fuel : nat) : act t unit :=
  match fuel with
  | O => lift (Err out_of_fuel)
  | S fuel' =>
      slot ← gets current_slot_;
      b ← lift (epoch_ends slot);
      when b finishEpoch;;
      n ← now;
      finish ← gets next_slot_finish_time_;
      if (finish <? n) && (slot_duration config <? n - finish) then
        modify (set_slot (u64 (slot + 1)) (finish + slot_duration config));; runSlot fuel'
      else modify (set_timer (Some finish))
  end.

Definition runEpoch (fuel : nat) (epoch : Epoch) (starting_slot_finish_time : Z) : act t unit :=
  if decide (epoch_authorities epoch = []) then lift (Err undefined_behaviour) else
  modify (fun s => set_slot (start_slot epoch) (next_slot_finish_time_ s) (set_epoch epoch s));;
  l ← lift (getEpochLeadership epoch);
  modify (fun s => set_slot (current_slot_ s) starting_slot_finish_time (set_leadership l s));;
  runSlot fuel.

(** *** Making a block *)

Definition kTimestampId : bytes := str "timstap0".
Definition kProdSlotId : bytes := str "prodslot".

(** The data are empty and the identifiers differ, so neither put fails. *)
Definition inherent_data (now_ slot : Z) : outcome InherentData.t :=
  r ← InherentData.putData (TInt false 8) kTimestampId (u64 (Z.quot now_ (10 ^ 6))) ∅;
  r ← InherentData.putData (TInt false 8) kProdSlotId slot r.2;
  Ok r.2.

Definition productionPreDigest (slot : Z) (output : VRFOutput) (authority_index : Z) : outcome DigestItem :=
  b ← encode TProductionHeader (header_value (mkProductionHeader slot output authority_index));
  Ok (PreRuntimeItem kProductionEngineId b).

Definition sealBlock (b : Block) : outcome DigestItem :=
  pre_seal_hash ← BlockExecutor.header_hash (header b);
  encoded_seal ← BlockExecutor.value_of (encode TSeal (sr_sign keypair_ pre_seal_hash));
  Ok (SealItem kProductionEngineId encoded_seal).

(** An error of the storage is logged. *)
Definition store_next_epoch (h : BlockHeader) : act t unit :=
  r ← lift (getNextEpochDigest max_size h);
  match r with
  | Ok d =>
      e ← gets current_epoch_;
      _ ← on_executor (BlockExecutor.on_epochs (EpochStorageImpl.addEpochDescriptor (u64 (epoch_index e + 2)) d));
      mret tt
  | Err _ => mret tt
  end.

(** The results of the observer are not looked at. *)
Fixpoint observe_all (b : BlockInfo) (digests : list bytes) : act t unit :=
  match digests with
  | [] => mret tt
  | d :: l => _ ← on_executor (BlockExecutor.observe max_size b [d]); observe_all b l
  end.

Definition processSlotLeadership (fuel : nat) (output : VRFOutput) : act t unit :=
  slot ← gets current_slot_;
  n ← now;
  data ← lift (inherent_data n slot);
  best ← on_executor (BlockExecutor.on_tree BlockTreeImpl.deepestLeaf);
  e ← gets current_epoch_;
  authority_index ← lift (ok_or undefined_behaviour (getAuthorityIndex (epoch_authorities e) (public_key keypair_)));
  match productionPreDigest slot output authority_index with
  | Err _ => mret tt
  | Ok item =>
      pre_digest ← lift (encode_item item);
      pre_seal_block_res ← on_site (ProposerImpl.propose fuel (ByHash best.2) data [pre_digest]);
      match pre_seal_block_res with
      | Err _ => mret tt
      | Ok b =>
          store_next_epoch (header b);;
          seal ← lift (sealBlock b);
          seal ← lift (encode_item seal);
          let b := mkBlock (set_digest (digest (header b) ++ [seal]) (header b)) (body b) in
          _ ← now;
          observe_all (mkInfo best.1 best.2) (digest (header b));;
          add_res ← on_executor (BlockExecutor.on_tree (BlockTreeImpl.addBlock b));
          match add_res with
          | Err _ => mret tt
          | Ok _ =>
              store_next_epoch (header b);;
              modify (fun s => set_announced (announced s ++ [header b]) s)
          end
      end
  end.

Definition finishSlot (fuel : nat) : act t unit :=
  s ← gets (fun s => s);
  i ← lift (umod (current_slot_ s) (epoch_duration (current_epoch_ s)));
  slot_leadership ← lift (ok_or undefined_behaviour (slots_leadership_ s !! Z.to_nat i));
  match slot_leadership with
  | Some output => processSlotLeadership fuel output
  | None => mret tt
  end;;
  modify (fun s => set_slot (u64 (current_slot_ s + 1)) (next_slot_finish_time_ s + slot_duration config) s);;
  runSlot fuel.

(** The callback of the timer, for a wait that ended well or with an error. *)
Definition on_timer (fuel : nat) (ok : bool) : act t unit :=
  armed ← gets timer_;
  match armed with
  | None => mret tt
  | Some _ => modify (set_timer None);; when ok (finishSlot fuel)
  end.

(** *** Starting and following *)

(** The constructor stores the first two epochs; a failure is an assertion. *)
Definition construct : act t unit :=
  let d := mkDescriptor (genesis_authorities config) (randomness config) in
  r ← on_executor (BlockExecutor.on_epochs (EpochStorageImpl.addEpochDescriptor 0 d));
  _ ← lift (BlockExecutor.value_of r);
  r ← on_executor (BlockExecutor.on_epochs (EpochStorageImpl.addEpochDescriptor 1 d));
  lift (BlockExecutor.value_of r).

Definition start (fuel : nat) : act t bool :=
  strategy ← gets execution_strategy_;
  match strategy with
  | None => mret false
  | Some strategy =>
      _ ← on_executor (BlockExecutor.on_tree BlockTreeImpl.deepestLeaf);
      match strategy with
      | SYNC_FIRST => modify (set_state WAIT_BLOCK);; mret true
      | GENESIS =>
          epoch_digest_res ← on_executor (BlockExecutor.getEpochDescriptor max_size 0);
          match epoch_digest_res with
          | Err _ => mret false
          | Ok d =>
              n ← now;
              modify (set_state SYNCHRONIZED);;
              runEpoch fuel (mkEpoch 0 0 (epoch_length config) (ned_authorities d) (ned_randomness d)) (n + slot_duration config);;
              mret true
          end
      end
  end.

Definition kSlotTail : Z := 30.

(** [std::nth_element] puts the median in the middle. *)
Definition median (l : list Z) : outcome Z := ok_or undefined_behaviour (merge_sort Z.le l !! (length l / 2)%nat).

Definition synchronizeSlots (fuel : nat) (new_header : BlockHeader) : act t unit :=
  d ← lift (BlockExecutor.value_of (getProductionDigests max_size new_header));
  let observed_slot := slot_number d.2 in
  f ← gets first_production_slot;
  let first := default (u64 (observed_slot + kSlotTail)) f in
  let diff := u64 (first - observed_slot) in
  n ← now;
  modify (fun s => set_first_slot (first_slot_times_ s ++ [i64 (n + diff * slot_duration config)]) (Some first) s);;
  if first <=? observed_slot then
    modify (set_state SYNCHRONIZED);;
    times ← gets first_slot_times_;
    first_slot_ending_time ← lift (median times);
    index ← lift (udiv first (epoch_length config));
    next_epoch_digest_res ← on_executor (BlockExecutor.getEpochDescriptor max_size index);
    match next_epoch_digest_res with
    | Err _ => mret tt
    | Ok d => runEpoch fuel (mkEpoch index first (epoch_length config) (ned_authorities d) (ned_randomness d)) first_slot_ending_time
    end
  else mret tt.

Definition onBlockAnnounce (fuel : nat) (h : BlockHeader) : act t unit :=
  state ← gets current_state_;
  match state with
  | WAIT_BLOCK => modify (set_state CATCHING_UP);; on_executor (BlockExecutor.requestBlocks_header max_size h CaughtUp)
  | NEED_SLOT_TIME => BlockExecutor.processNextBlock max_size (@on_executor) h (synchronizeSlots fuel)
  | CATCHING_UP | SYNCHRONIZED => BlockExecutor.processNextBlock max_size (@on_executor) h (fun _ => mret tt)
  end.

(** An answer to the pending request [i], which is called once. *)
Definition on_response (fuel : nat) (i : nat) (response_res : outcome (list BlockData)) : act t unit :=
  pending ← gets (fun s => BlockExecutor.requests (executor s) !! i);
  match pending with
  | None => mret tt
  | Some r =>
      on_executor (modify (BlockExecutor.drop_request i));;
      called ← on_executor (BlockExecutor.on_response pow max_size config fuel response_res);
      match req_next r with
      | CaughtUp => when called (modify (set_state NEED_SLOT_TIME))
      | Nothing => mret tt
      end
  end.

End production.
End ProductionImpl.

(** [SyncingProductionObserver::onBlockAnnounce]: a node that only follows. *)
Definition syncing_onBlockAnnounce `{SR25519} {blockslib : BlocksLib} {St : Type} `{!BlockStore St} {DB : Type} `{!KeyValueDB DB}
    (max_size : ty -> Z) (h : BlockHeader) : act (BlockExecutor.t (St := St) (DB := DB)) unit :=
  BlockExecutor.processNextBlock max_size (fun A m => m) h (fun _ => mret tt).
