(* ===== verification/ProductionProps.v ===== *)
(** * Digests, epochs and validation of blocks

    The items of a digest are read back, but the header of a block is not: the
    output of the random function is encoded with the sizes of its two arrays and
    decoded without them, so what a producer draws is not what a validator checks
    ([own_block_validated]).  An authority gets one block per slot through the
    validator ([one_block_per_slot]), and the descriptors of epochs are read back
    ([addEpochDescriptor_spec]). *)

From S2P Require Import Prelude Scale ScaleProps ScaledInteger TrieCodec TrieCodecProps BlockStorage BlockTree TransactionPool Votes Authority Production Authorship ProductionNode.

Open Scope Z_scope.

(** ** Arrays of bytes *)

Lemma encode_byte_items (b : bytes) : encodeItems (encode (TInt false 1)) (uchar <$> b) = Ok b.
Proof.
  induction b as [|c b IH]; [done|]. rewrite fmap_cons. cbn [encodeItems]. rewrite IH. cbn. do 2 f_equal.
  rewrite land_255. transitivity (byte (uchar c)); [unfold byte; by rewrite Zmod_mod|apply byte_uchar].
Qed.

Lemma decode_byte_items max_size (b r : bytes) :
  decodeItems (decode max_size (TInt false 1)) (length b) (b ++ r) = Ok (uchar <$> b, r).
Proof.
  induction b as [|c b IH]; [done|]. rewrite fmap_cons. cbn [length app decodeItems]. unfold mbind, reader_bind.
  replace (decode max_size (TInt false 1) (c :: b ++ r)) with (Ok (uchar c, b ++ r)) by done. by rewrite IH.
Qed.

Lemma decode_array max_size n (b r : bytes) :
  length b = n -> decode max_size (TArray n (TInt false 1)) (b ++ r) = Ok (uchar <$> b, r).
Proof. intros <-. apply decode_byte_items. Qed.

Lemma encode_pair t u (a : value t) (b : value u) x y :
  encode t a = Ok x -> encode u b = Ok y -> encode (TPair t u) (a, b) = Ok (x ++ y).
Proof. intros Hx Hy. cbn. rewrite Hx. cbn. by rewrite Hy. Qed.

Lemma decode_pair max_size t u s (a : value t) s' (b : value u) s'' :
  decode max_size t s = Ok (a, s') -> decode max_size u s' = Ok (b, s'') -> decode max_size (TPair t u) s = Ok ((a, b), s'').
Proof. intros Ha Hb. cbn. unfold mbind, reader_bind. by rewrite Ha, Hb. Qed.

(** ** The header of production *)

(** What is read of an output that was written. *)
Definition misread (o : VRFOutput) : VRFOutput :=
  (byte 128 :: take 31 o.1, drop 31 o.1 ++ [byte 1; byte 1] ++ take 61 o.2).

Lemma output_misread max_size (o : VRFOutput) r :
  length o.1 = 32%nat -> length o.2 = 64%nat ->
  exists b q, encode TVRFOutput (uchar <$> o.1, uchar <$> o.2) = Ok b /\
    decode max_size TVRFOutput (b ++ r) = Ok ((uchar <$> (misread o).1, uchar <$> (misread o).2), q).
Proof.
  destruct o as [o p]. cbn [fst snd]. intros Ho Hp.
  exists (byte 128 :: o ++ byte 1 :: byte 1 :: p), (drop 61 p ++ r). split.
  - cbn [TVRFOutput encode fst snd]. unfold encodeCollection. rewrite !encode_byte_items. done.
  - assert ((byte 128 :: o ++ byte 1 :: byte 1 :: p) ++ r
            = (byte 128 :: take 31 o) ++ (drop 31 o ++ [byte 1; byte 1] ++ take 61 p) ++ drop 61 p ++ r) as ->.
    { cbn. f_equal. rewrite <- !(assoc_L (++)). cbn. rewrite (assoc_L (++) (take 31 o)), take_drop.
      do 3 f_equal. by rewrite (assoc_L (++)), take_drop. }
    eapply decode_pair; apply decode_array; [cbn; rewrite length_take; lia|].
    unfold misread. cbn [fst snd]. by rewrite !length_app, length_drop, length_take, Ho, Hp.
Qed.

Definition header_ok (h : ProductionBlockHeader) : Prop :=
  is_u64 (slot_number h) /\ is_u64 (authority_index h) /\ length (vrf_output h).1 = 32%nat /\ length (vrf_output h).2 = 64%nat.

Definition misread_header (h : ProductionBlockHeader) : ProductionBlockHeader :=
  mkProductionHeader (slot_number h) (misread (vrf_output h)) (authority_index h).

Lemma codes_int max_size size v : int_size size = true -> int_range false size v ->
  exists b, encode (TInt false size) v = Ok b /\ forall r, decode max_size (TInt false size) (b ++ r) = Ok (v, r).
Proof. intros Hs Hv. eexists. split; [done|]. by apply codes_decodeIntegral. Qed.

Lemma header_decoded max_size h : header_ok h ->
  exists b, encode TProductionHeader (header_value h) = Ok b /\ decode_production_header max_size b = Ok (misread_header h).
Proof.
  intros (Hn & Hi & Ho & Hp).
  destruct (codes_int max_size 1 0) as (b1 & E1 & D1); [done|by vm_compute|].
  destruct (codes_int max_size 8 (authority_index h)) as (b2 & E2 & D2); [done|exact Hi|].
  destruct (codes_int max_size 8 (slot_number h)) as (b3 & E3 & D3); [done|exact Hn|].
  destruct (codes_int max_size 4 1) as (b4 & E4 & D4); [done|by vm_compute|].
  destruct (output_misread max_size (vrf_output h) [] Ho Hp) as (b5 & q & E5 & D5). rewrite app_nil_r in D5.
  exists (b1 ++ b2 ++ b3 ++ b4 ++ b5). split.
  - exact (encode_pair _ _ _ _ _ _ E1 (encode_pair _ _ _ _ _ _ E2 (encode_pair _ _ _ _ _ _ E3 (encode_pair _ _ _ _ _ _ E4 E5)))).
  - unfold decode_production_header, scale_decode.
    pose proof (decode_pair max_size _ _ _ _ _ _ _ (D1 _) (decode_pair max_size _ _ _ _ _ _ _ (D2 _)
      (decode_pair max_size _ _ _ _ _ _ _ (D3 _) (decode_pair max_size _ _ _ _ _ _ _ (D4 _) D5)))) as D.
    unfold TProductionHeader. rewrite D. cbn [outcome_bind mbind header_of_value]. by rewrite !byte_uchar_list.
Qed.

(** ** Items *)

Section items.
Context (max_size : ty -> Z).

Lemma scale_decode_encode t v : ty_ok t = true -> wf max_size t v -> exists b, encode t v = Ok b /\ scale_decode max_size t b = Ok v.
Proof.
  intros Ht Hv. destruct (proj1 (encode_codes max_size) t v Ht Hv) as (b & Hb & Hc & _). exists b. split; [done|].
  unfold scale_decode. by rewrite <- (app_nil_r b), Hc.
Qed.

Definition fits (data : bytes) : Prop := Z.of_nat (length data) <= u64_max /\ Z.of_nat (length data) <= max_size (TInt false 1).

Definition item_ok (i : DigestItem) : Prop :=
  match i with
  | UnusedItem => True
  | ChangesTrieRoot h => length h = 32%nat
  | VerificationItem e d | SealItem e d | PreRuntimeItem e d => length e = 4%nat /\ fits d
  end.

Lemma common_wf e d : length e = 4%nat -> fits d -> wf max_size TCommon (common e d).
Proof.
  intros He [H1 H2]. unfold common, TCommon. split; [exact He|]. cbn. rewrite !length_fmap. split_and!; [done..|].
  apply Forall_fmap, Forall_true. intros c. unfold int_range. cbn. apply uchar_range.
Qed.

Lemma item_wf i : item_ok i -> wf max_size TDigestItem (item_value i).
Proof.
  destruct i; cbn [item_ok]; [done|intros Hh; exact Hh|..]; intros [He Hd];
    exact (common_wf _ _ He Hd).
Qed.

Lemma item_of_item i : item_of_value (item_value i) = i.
Proof. destruct i; cbn; by rewrite ?byte_uchar_list. Qed.

(** An item is read back. *)
Lemma item_read i : item_ok i -> exists b, encode_item i = Ok b /\ item_of max_size b = i.
Proof.
  intros Hi. destruct (scale_decode_encode TDigestItem (item_value i)) as (b & Hb & Hd); [done|by apply item_wf|].
  exists b. unfold encode_item, item_of. rewrite Hb, Hd. split; [done|]. apply item_of_item.
Qed.

Lemma item_read_of i b : item_ok i -> encode_item i = Ok b -> item_of max_size b = i.
Proof. intros Hi Hb. destruct (item_read i Hi) as (b' & Hb' & Hr). rewrite Hb in Hb'. by injection Hb' as <-. Qed.

End items.

(** ** A block of the node *)

Lemma set_digest_id h : set_digest (digest h) h = h.
Proof. by destruct h. Qed.

Lemma pop_sealed h seal : pop_digest (set_digest (digest h ++ [seal]) h) = Ok h.
Proof.
  unfold pop_digest. cbn [digest set_digest]. rewrite removelast_last. destruct (digest h ++ [seal]) eqn:E; [by apply app_nil in E as [_ E]|].
  f_equal. by destruct h.
Qed.

Section own.
Context `{SR25519Spec} {blockslib : BlocksLib} (max_size : ty -> Z).

Lemma pre_digest_data slot o idx item :
  ProductionImpl.productionPreDigest slot o idx = Ok item ->
  exists b, item = PreRuntimeItem kProductionEngineId b /\ encode TProductionHeader (header_value (mkProductionHeader slot o idx)) = Ok b.
Proof. unfold ProductionImpl.productionPreDigest. intros (b & Hb & [= <-])%outcome_bind_ok. by exists b. Qed.

Lemma header_bytes h b : encode TProductionHeader (header_value h) = Ok b -> header_ok h -> length b = 120%nat.
Proof.
  intros Hb (Hn & Hi & Ho & Hp). unfold header_value in Hb.
  pose proof (encode_byte_items (vrf_output h).1) as E1. pose proof (encode_byte_items (vrf_output h).2) as E2.
  unfold TProductionHeader, TVRFOutput in Hb. cbn [encode fst snd] in Hb, E1, E2.
  unfold encodeCollection in Hb. rewrite E1, E2 in Hb. injection Hb as <-.
  repeat first [rewrite length_cons | rewrite length_app | rewrite Ho | rewrite Hp]. done.
Qed.

(** The digests of a block that was made with [productionPreDigest] and
    [sealBlock]. *)
Lemma sealed_digests k b slot o idx item pre rest sitem seal :
  header_ok (mkProductionHeader slot o idx) ->
  ProductionImpl.productionPreDigest slot o idx = Ok item -> encode_item item = Ok pre -> digest (header b) = pre :: rest ->
  ProductionImpl.sealBlock k b = Ok sitem -> encode_item sitem = Ok seal ->
  120 <= max_size (TInt false 1) ->
  exists hash, BlockExecutor.header_hash (header b) = Ok hash /\
    getProductionDigests max_size (set_digest (digest (header b) ++ [seal]) (header b)) =
      Ok (sr_sign k hash, mkProductionHeader slot (misread o) idx).
Proof.
  intros Hok Hpre Epre Hd Hseal Eseal Hmax.
  unfold ProductionImpl.sealBlock in Hseal. apply outcome_bind_ok in Hseal as (hash & Hh & (sb & Hs & [= <-])%outcome_bind_ok).
  exists hash. split; [done|]. injection Hs as <-.
  apply pre_digest_data in Hpre as (hb & -> & Ehb).
  apply (item_read_of max_size) in Epre; [|cbn; split; [done|]; unfold fits; rewrite (header_bytes _ _ Ehb Hok); unfold u64_max; lia].
  apply (item_read_of max_size) in Eseal; [|cbn; split; [done|]; unfold fits; rewrite sr_sign_size; unfold u64_max; lia].
  destruct (header_decoded max_size _ Hok) as (hb' & Ehb' & Dhb). rewrite Ehb in Ehb'. injection Ehb' as <-.
  unfold getProductionDigests. cbn [digest set_digest]. rewrite decide_False by (rewrite Hd, length_app, length_cons; cbn; lia).
  rewrite last_snoc, removelast_last. change (default [] (Some seal)) with seal. rewrite Eseal.
  destruct (scale_decode_encode max_size TSeal (sr_sign k hash)) as (sb & [= <-] & Dsb); [done|apply sr_sign_size|].
  rewrite Dsb, Hd. cbn [find_header mbind outcome_bind]. rewrite Epre, Dhb. done.
Qed.

(** C28. What the validator says of a block of an honest leader: the block made
    with the output that the lottery drew for the slot, sealed with the key of
    the leader, passes the check of its digests and its signature.  The output is
    then checked, but not the one that was drawn: it was encoded with the sizes
    of its arrays and decoded without, so the validator sees the drawn bytes
    shifted behind a size ([misread]), and the block is accepted only if these
    bytes are a valid proof too, and none of the authority was accepted for the
    slot before. *)
Theorem own_block_validated (k : SR25519Keypair) (b : Block) (r : bytes) (threshold slot idx : Z) (o : VRFOutput)
    (item sitem : DigestItem) (pre seal : bytes) (rest : list bytes) (s : ProductionBlockValidator.t) :
  keypair_ok k -> is_u64 slot -> is_u64 idx -> 120 <= max_size (TInt false 1) ->
  vrf_sign (vrf_input r slot) k threshold = Some o ->
  ProductionImpl.productionPreDigest slot o idx = Ok item -> encode_item item = Ok pre -> digest (header b) = pre :: rest ->
  ProductionImpl.sealBlock k b = Ok sitem -> encode_item sitem = Ok seal ->
  ProductionBlockValidator.validateHeader hasher_blake2b_256 max_size
    (set_digest (digest (header b) ++ [seal]) (header b)) (public_key k) threshold r s =
  Ok (if decide (vrf_verify (vrf_input r slot) (misread o) (public_key k) threshold = (true, true)) then
        if decide (idx ∈ default ∅ (s !! slot)) then (Err (validation_error TWO_BLOCKS_IN_SLOT), s)
        else (Ok tt, <[slot := {[idx]} ∪ default ∅ (s !! slot)]> s)
      else (Err (validation_error INVALID_VRF), s)).
Proof.
  intros Hk Hslot Hidx Hmax Hvrf Hpre Epre Hd Hseal Eseal. destruct (vrf_sign_size _ _ _ _ Hvrf) as [Ho Hp].
  destruct (sealed_digests k b slot o idx item pre rest sitem seal) as (hash & Hh & Hdig); [done..|].
  unfold ProductionBlockValidator.validateHeader. rewrite Hdig. unfold ProductionBlockValidator.verifySignature.
  rewrite pop_sealed. cbn [mbind outcome_bind]. unfold BlockExecutor.header_hash in Hh.
  apply outcome_bind_ok in Hh as (hb & Hhb & [= <-]). destruct (encode_header (header b)); [|done]. injection Hhb as ->.
  rewrite sr_verify_sign by done. unfold ProductionBlockValidator.verifyVRF. cbn [slot_number vrf_output].
  destruct (vrf_verify _ _ _ _) as [[] []]; cbn [negb]; [|by rewrite decide_False by done..].
  rewrite decide_True by done. unfold ProductionBlockValidator.verifyProducer. cbn [slot_number authority_index].
  destruct (s !! slot) as [p|] eqn:Es.
  - change (default ∅ (Some p)) with p. by destruct (decide (idx ∈ p)).
  - change (default ∅ None) with (∅ : gset Z). rewrite decide_False by apply not_elem_of_empty. cbn. do 3 f_equal. by rewrite union_empty_r_L.
Qed.

End own.

(** ** One block per slot *)

Section validations.
Context `{SR25519} (hash256 : bytes -> bytes) (max_size : ty -> Z).

Notation validateHeader := (ProductionBlockValidator.validateHeader hash256 max_size).

(** A header with the authority, the threshold and the randomness it is checked for. *)
Record validation : Type := mkValidation { v_header : BlockHeader; v_authority : bytes; v_threshold : Z; v_randomness : bytes }.

Definition producer (v : validation) : option (Z * Z) :=
  match getProductionDigests max_size (v_header v) with
  | Ok (_, h) => Some (slot_number h, authority_index h)
  | Err _ => None
  end.

Fixpoint validate_all (l : list validation) : act ProductionBlockValidator.t (list (outcome unit)) :=
  match l with
  | [] => mret []
  | v :: l' =>
      r ← validateHeader (v_header v) (v_authority v) (v_threshold v) (v_randomness v);
      rs ← validate_all l';
      mret (r :: rs)
  end.

(** The producers of the accepted headers. *)
Fixpoint accepted (l : list validation) (rs : list (outcome unit)) : list (Z * Z) :=
  match l, rs with
  | v :: l', Ok _ :: rs' => option_list (producer v) ++ accepted l' rs'
  | _ :: l', _ :: rs' => accepted l' rs'
  | _, _ => []
  end.

Definition seen (s : ProductionBlockValidator.t) (p : Z * Z) : Prop := p.2 ∈ default ∅ (s !! p.1).

Lemma verifyProducer_spec h s :
  let p := (slot_number h, authority_index h) in
  (seen s p /\ ProductionBlockValidator.verifyProducer h s = (false, s)) \/
  (~ seen s p /\ exists s', ProductionBlockValidator.verifyProducer h s = (true, s') /\ forall q, seen s' q <-> q = p \/ seen s q).
Proof.
  destruct h as [slot o idx]. unfold ProductionBlockValidator.verifyProducer, seen, ProductionBlockValidator.t in *.
  cbn [slot_number authority_index fst snd].
  destruct (s !! slot) as [set|] eqn:Es; cbn [default].
  1: destruct (decide (idx ∈ set)) as [Hin|Hin]; [by left|].
  all: right; split; [set_solver|]; eexists; (split; [done|]); intros [slot' idx']; cbn [fst snd].
  all: destruct (decide (slot' = slot)) as [->|Hne]; [rewrite lookup_insert, decide_True by done|rewrite lookup_insert_ne by done].
  all: rewrite ?Es; cbn; set_solver.
Qed.

Lemma validateHeader_spec v s r s' :
  validateHeader (v_header v) (v_authority v) (v_threshold v) (v_randomness v) s = Ok (r, s') ->
  match r with
  | Ok _ => exists p, producer v = Some p /\ ~ seen s p /\ forall q, seen s' q <-> q = p \/ seen s q
  | Err e => s' = s /\ (e = validation_error TWO_BLOCKS_IN_SLOT -> forall p, producer v = Some p -> seen s p)
  end.
Proof.
  unfold ProductionBlockValidator.validateHeader, producer.
  destruct (getProductionDigests _ _) as [[seal h]|e] eqn:Ed; [|by intros [= <- <-]].
  destruct (ProductionBlockValidator.verifySignature _ _ _ _) as [[]|]; [|by intros [= <- <-]|done].
  destruct (negb _); [by intros [= <- <-]|].
  destruct (verifyProducer_spec h s) as [[Hs ->]|[Hs (s1 & -> & Hq)]]; cbn; intros [= <- <-]; [|by eauto].
  split; [done|]. by intros _ p [= <-].
Qed.

Lemma validate_all_spec l : forall s rs s', validate_all l s = Ok (rs, s') ->
  length rs = length l /\
  NoDup (accepted l rs) /\ (forall p, p ∈ accepted l rs -> ~ seen s p) /\
  (forall i v p, l !! i = Some v -> producer v = Some p -> rs !! i = Some (Err (validation_error TWO_BLOCKS_IN_SLOT)) ->
    p ∈ accepted (take i l) (take i rs) \/ seen s p).
Proof.
  induction l as [|v l IH]; intros s rs s'; cbn [validate_all].
  { intros [= <- <-]. split_and!; [done|apply NoDup_nil_2|intros p Hp; by apply elem_of_nil in Hp|done]. }
  intros (r & s1 & Hr & (rs1 & s2 & Hrs & [= <- <-])%act_bind_ok)%act_bind_ok.
  destruct (IH _ _ _ Hrs) as (Hlen & Hnd & Hfresh & Htwo). apply validateHeader_spec in Hr.
  destruct r as [[]|e]; cbn [accepted length].
  - destruct Hr as (p & Hp & Hns & Hq). rewrite Hp. cbn [option_list app]. split_and!; [by rewrite Hlen|..].
    + apply NoDup_cons. split; [|done]. intros Hin. apply (Hfresh _ Hin), Hq. by left.
    + intros q [->|Hin]%elem_of_cons; [done|]. intros Hs. apply (Hfresh _ Hin), Hq. by right.
    + intros [|i] w q Hw Hwq Hrw; [done|]. cbn in *. rewrite Hp. cbn.
      destruct (Htwo _ _ _ Hw Hwq Hrw) as [Hin|[->|Hs]%Hq]; [left; by right|left; by left|by right].
  - destruct Hr as [-> He]. split_and!; [by rewrite Hlen|done|done|].
    intros [|i] w q Hw Hwq Hrw; cbn in *; [|by eapply Htwo]. injection Hw as <-. injection Hrw as ->. right. by apply He.
Qed.

(** C26. A validator accepts at most one block of an authority in a slot: among
    the headers it accepts, in whatever order they come and whatever is checked
    of them besides, no two have the same slot and authority, and it says that
    there are two blocks in a slot only of a header for whose slot and authority
    it accepted one before. *)
Theorem one_block_per_slot (l : list validation) (rs : list (outcome unit)) (s : ProductionBlockValidator.t) :
  validate_all l ∅ = Ok (rs, s) ->
  NoDup (accepted l rs) /\
  forall i v p, l !! i = Some v -> producer v = Some p -> rs !! i = Some (Err (validation_error TWO_BLOCKS_IN_SLOT)) ->
    p ∈ accepted (take i l) (take i rs).
Proof.
  intros (_ & Hnd & _ & Htwo)%validate_all_spec. split; [done|]. intros i v p Hv Hp Hr.
  destruct (Htwo i v p Hv Hp Hr) as [|Hs]; [done|]. unfold seen, ProductionBlockValidator.t in Hs. rewrite lookup_empty in Hs.
  by apply not_elem_of_empty in Hs.
Qed.

End validations.

(** ** Descriptors of epochs *)

Lemma uint64_bytes_inj a b : is_u64 a -> is_u64 b -> uint64_t_to_bytes a = uint64_t_to_bytes b -> a = b.
Proof.
  intros Ha Hb E. apply (f_equal (fun l => le_value (rev l))) in E. unfold uint64_t_to_bytes in E.
  rewrite !rev_involutive, !le_value_le_bytes in E. change (256 ^ Z.of_nat 8) with (2 ^ 64) in E.
  by rewrite !Z.mod_small in E.
Qed.

(** The two conversions of [mp_utils.cpp] use different orders of the bytes. *)
Theorem uint64_bytes_reversed : bytes_to_uint64_t (uint64_t_to_bytes 1) = 2 ^ 56.
Proof. by vm_compute. Qed.

Section epochs.
Context (max_size : ty -> Z) {DB : Type} `{KeyValueLaws DB}.

Definition descriptor_ok (d : NextEpochDescriptor) : Prop := wf max_size TNextEpochDescriptor (ned_authorities d, ned_randomness d).

Lemma addEpochDescriptor_spec e d s : descriptor_ok d ->
  runs (EpochStorageImpl.addEpochDescriptor e d) s (fun r s' => r = Ok tt /\
    forall e', is_u64 e -> is_u64 e' ->
      EpochStorageImpl.getEpochDescriptor max_size e' s' =
        if decide (e' = e) then Ok d else EpochStorageImpl.getEpochDescriptor max_size e' s).
Proof.
  intros Hd. destruct (scale_decode_encode max_size TNextEpochDescriptor _ eq_refl Hd) as (b & Eb & Db).
  unfold EpochStorageImpl.addEpochDescriptor, runs. rewrite Eb.
  set (k := EpochStorageImpl.epoch_key e). exists (db_Put k b s).1, (db_Put k b s).2.
  split; [by rewrite <- surjective_pairing|]. split; [apply db_Put_ok|]. intros e' He He'.
  unfold EpochStorageImpl.getEpochDescriptor. rewrite !db_Get_map, db_Put_map. case_decide as Hee.
  - subst e'. rewrite lookup_insert, decide_True by done. cbn. rewrite Db. by destruct d.
  - rewrite lookup_insert_ne; [done|]. unfold k, EpochStorageImpl.epoch_key. intros E%app_inv_head. by apply Hee, uint64_bytes_inj.
Qed.

End epochs.
