(* ===== verification/ProductionSlots.v ===== *)
(** * The slots of a producer

    A producer that is synchronized stays in step: whatever it is told and
    whenever its timer fires, the slot, the end of the slot, the epoch and the
    drawn leadership go together ([leader_of_own_slot]).

    A block gets into the tree only if it was signed by an authority of its epoch
    that drew its slot ([only_validated_blocks]). *)

From S2P Require Import Prelude Scale ScaledInteger TrieCodec BlockStorage BlockTree TransactionPool Votes Authority Production Authorship ProductionNode.
Open Scope Z_scope.

(** ** The lottery *)

Section lottery.
Context `{SR25519}.

Lemma leadership_loop_lookup r t k count i j : (j < count)%nat ->
  ProductionLotteryImpl.leadership_loop r t k count i !! j = Some (vrf_sign (vrf_input r (i + Z.of_nat j)) k t).
Proof.
  revert i j. induction count as [|count IH]; intros i j Hj; [lia|]. destruct j as [|j]; cbn [ProductionLotteryImpl.leadership_loop lookup list_lookup].
  - by rewrite Z.add_0_r.
  - rewrite IH by lia. by replace (i + 1 + Z.of_nat j) with (i + Z.of_nat (S j)) by lia.
Qed.

(** The entry of a slot is the output drawn for the slot. *)
Lemma slotsLeadership_lookup (e : Epoch) t k m :
  0 < epoch_duration e -> 0 <= m -> m + epoch_duration e < 2 ^ 64 -> epoch_index e = m / epoch_duration e ->
  ProductionLotteryImpl.slotsLeadership e t k !! Z.to_nat (m mod epoch_duration e) = Some (vrf_sign (vrf_input (epoch_randomness e) m) k t).
Proof.
  intros Hd Hn Hb Hi. unfold ProductionLotteryImpl.slotsLeadership. rewrite Hi. set (d := epoch_duration e) in *. rename m into n.
  pose proof (Z.div_mod n d ltac:(lia)) as Hdm. pose proof (Z.mod_pos_bound n d Hd) as Hm. pose proof (Z.div_pos n d Hn Hd) as Hq.
  assert (n / d <= n) by (apply Z.div_le_upper_bound; nia).
  rewrite (u64_id (n / d + 1)) by u64_lia. rewrite (u64_id (n / d * d)), (u64_id ((n / d + 1) * d)) by (unfold is_u64; nia).
  rewrite leadership_loop_lookup by nia. by replace (n / d * d + Z.of_nat (Z.to_nat (n mod d))) with n by lia.
Qed.

End lottery.

Module Slots.
Import ProductionImpl.
Section slots.
Context `{SR25519} {blockslib : BlocksLib} {St : Type} `{!BlockStore St} {DB : Type} `{!KeyValueDB DB} `{!DirectChain}.
Context {R : Type} `{!Runtime R}.
Context (pow : double -> double -> double) (max_size : ty -> Z) (config : ProductionConfiguration).
Context (keypair_ : SR25519Keypair) (clock : nat -> Z).

Notation node := (ProductionImpl.t (St := St) (DB := DB) (R := R)).
Notation exec := (BlockExecutor.t (St := St) (DB := DB)).

(** ** Events *)

Inductive event : Type :=
  | Expired (ok : bool)
  | Announced (h : BlockHeader)
  | Answered (i : nat) (response : outcome (list BlockData)).

Definition handle (fuel : nat) (e : event) : act node unit :=
  match e with
  | Expired ok => on_timer pow max_size config keypair_ clock fuel ok
  | Announced h => onBlockAnnounce pow max_size config keypair_ clock fuel h
  | Answered i r => on_response pow max_size config fuel i r
  end.

Definition step (s s' : node) : Prop := exists fuel e, handle fuel e s = Ok (tt, s').

(** ** What the rest of the node leaves alone *)

(** No answer makes the node look for the time of a slot. *)
Definition settled (x : exec) : Prop := Forall (fun r => req_next r = Nothing) (BlockExecutor.requests x).

Definition quiet (x x' : exec) : Prop := settled x -> settled x'.

#[local] Instance quiet_preorder : PreOrder quiet.
Proof. unfold quiet. split; [intros x; done|intros x y z ??; eauto]. Qed.

Definition frame (s s' : node) : Prop :=
  current_state_ s' = current_state_ s /\ current_epoch_ s' = current_epoch_ s /\ current_slot_ s' = current_slot_ s /\
  slots_leadership_ s' = slots_leadership_ s /\ next_slot_finish_time_ s' = next_slot_finish_time_ s /\ timer_ s' = timer_ s /\
  quiet (executor s) (executor s').

#[local] Instance frame_preorder : PreOrder frame.
Proof.
  split; [intros s; unfold frame; split_and!; done|].
  intros s1 s2 s3 (A1 & A2 & A3 & A4 & A5 & A6 & A7) (B1 & B2 & B3 & B4 & B5 & B6 & B7).
  unfold frame. split_and!; try congruence. by etrans.
Qed.

Lemma preserves_modify {T} (Q : T -> T -> Prop) f : (forall s, Q s (f s)) -> preserves Q (modify f).
Proof. intros Hf s a s' [= <- <-]. apply Hf. Qed.

Lemma preserves_when {T} (Q : T -> T -> Prop) `{!PreOrder Q} b m : preserves Q m -> preserves Q (when b m).
Proof. intros Hm. destruct b; [done|]. apply preserves_ret; apply _. Qed.

Lemma preserves_returned {T A} (Q : T -> T -> Prop) `{!PreOrder Q} (r : outcome A) : preserves Q (returned r).
Proof. intros s a s'. unfold returned. destruct r as [|[]]; intros E; first [discriminate | injection E as <- <-; reflexivity]. Qed.

Lemma preserves_try {T A B} (Q : T -> T -> Prop) `{!PreOrder Q} (m : act T (outcome A)) (f : A -> act T (outcome B)) :
  preserves Q m -> (forall a, preserves Q (f a)) -> preserves Q (try m f).
Proof. intros Hm Hf. apply preserves_bind; [done..|]. intros [a|e]; [apply Hf|]. apply preserves_ret; apply _. Qed.

(** The parts of the executor without its requests. *)
Lemma quiet_tree {A} (m : act BlockTreeImpl.t A) : preserves quiet (BlockExecutor.on_tree (St := St) (DB := DB) m).
Proof. intros s a s'. unfold BlockExecutor.on_tree. destruct (m _) as [[]|]; [|done]. intros [= <- <-]. exact (fun Hs => Hs). Qed.
Lemma quiet_authority {A} (m : act AuthorityManagerImpl.t A) : preserves quiet (BlockExecutor.on_authority (St := St) (DB := DB) m).
Proof. intros s a s'. unfold BlockExecutor.on_authority. destruct (m _) as [[]|]; [|done]. intros [= <- <-]. exact (fun Hs => Hs). Qed.
Lemma quiet_producers {A} (m : act ProductionBlockValidator.t A) : preserves quiet (BlockExecutor.on_producers (St := St) (DB := DB) m).
Proof. intros s a s'. unfold BlockExecutor.on_producers. destruct (m _) as [[]|]; [|done]. intros [= <- <-]. exact (fun Hs => Hs). Qed.
Lemma quiet_pool {A} (m : act TransactionPoolImpl.t A) : preserves quiet (BlockExecutor.on_pool (St := St) (DB := DB) m).
Proof. intros s a s'. unfold BlockExecutor.on_pool. destruct (m _) as [[]|]; [|done]. intros [= <- <-]. exact (fun Hs => Hs). Qed.
Lemma quiet_epochs {A} (m : act DB A) : preserves quiet (BlockExecutor.on_epochs (St := St) (DB := DB) m).
Proof. apply quiet_authority. Qed.

Hint Resolve quiet_tree quiet_authority quiet_producers quiet_pool quiet_epochs : preserves.
Hint Extern 0 (preserves _ (returned _)) => apply preserves_returned; apply _ : preserves.

Ltac quiet_step :=
  first [ apply preserves_try; [apply _| |intros ?] | apply preserves_when; [apply _|] | preserves_step ].

Lemma quiet_observe b l : preserves quiet (BlockExecutor.observe (St := St) (DB := DB) max_size b l).
Proof. induction l as [|d l IH]; cbn [BlockExecutor.observe]; repeat first [exact IH | quiet_step]. Qed.

Lemma quiet_remove fuel l : preserves quiet (BlockExecutor.remove_extrinsics (St := St) (DB := DB) fuel l).
Proof. induction l as [|d l IH]; cbn [BlockExecutor.remove_extrinsics]; repeat first [exact IH | quiet_step]. Qed.

Lemma quiet_descriptor e : preserves quiet (BlockExecutor.getEpochDescriptor (St := St) (DB := DB) max_size e).
Proof. unfold BlockExecutor.getEpochDescriptor. repeat quiet_step. Qed.

Hint Resolve quiet_observe quiet_remove quiet_descriptor : preserves.

Lemma quiet_applyBlock fuel b : preserves quiet (BlockExecutor.applyBlock (St := St) (DB := DB) pow max_size config fuel b).
Proof. unfold BlockExecutor.applyBlock. repeat quiet_step. Qed.

Lemma quiet_apply_all fuel l : preserves quiet (BlockExecutor.apply_all (St := St) (DB := DB) pow max_size config fuel l).
Proof.
  induction l as [|b l IH]; cbn [BlockExecutor.apply_all]; repeat first [exact IH | apply quiet_applyBlock | quiet_step].
Qed.

Lemma quiet_response fuel r : preserves quiet (BlockExecutor.on_response (St := St) (DB := DB) pow max_size config fuel r).
Proof. unfold BlockExecutor.on_response. repeat first [apply quiet_apply_all | quiet_step]. Qed.

Lemma quiet_request from to i : preserves quiet (BlockExecutor.requestBlocks (St := St) (DB := DB) from to i Nothing).
Proof.
  unfold BlockExecutor.requestBlocks. repeat quiet_step. apply preserves_modify. intros x Hx. unfold settled. cbn.
  apply Forall_app. split; [done|]. by apply Forall_singleton.
Qed.

Lemma quiet_request_new h b : preserves quiet (BlockExecutor.request_new (St := St) (DB := DB) max_size h b).
Proof. unfold BlockExecutor.request_new. repeat first [apply quiet_request | quiet_step]. Qed.

Lemma frame_executor {A} (m : act exec A) : preserves quiet m -> preserves frame (on_executor (R := R) m).
Proof.
  intros Hm s a s'. unfold on_executor. destruct (m (executor s)) as [[b x]|] eqn:E; [|done]. intros [= <- <-].
  apply Hm in E. unfold frame. by split_and!.
Qed.

Lemma frame_site {A} (m : act (site R St) A) : preserves frame (on_site (DB := DB) m).
Proof. intros s a s'. unfold on_site. destruct (m _) as [[]|]; [|done]. intros [= <- <-]. unfold frame. split_and!; first [done | exact (fun Hs => Hs)]. Qed.

Lemma frame_now : preserves frame (now (St := St) (DB := DB) (R := R) clock).
Proof. unfold now. repeat quiet_step. apply preserves_modify. intros s. unfold frame. split_and!; first [done | exact (fun Hs => Hs)]. Qed.

Hint Resolve frame_site frame_now : preserves.
Hint Extern 1 (preserves frame (on_executor _)) => apply frame_executor; eauto with preserves : preserves.

Lemma frame_store h : preserves frame (store_next_epoch (St := St) (DB := DB) (R := R) max_size h).
Proof. unfold store_next_epoch. repeat quiet_step. Qed.

Lemma frame_observe b l : preserves frame (observe_all (St := St) (DB := DB) (R := R) max_size b l).
Proof. induction l as [|d l IH]; cbn [observe_all]; repeat first [exact IH | quiet_step]. Qed.

Hint Resolve frame_store frame_observe : preserves.

Lemma frame_process fuel o : preserves frame (processSlotLeadership (St := St) (DB := DB) (R := R) max_size keypair_ clock fuel o).
Proof.
  unfold processSlotLeadership. repeat quiet_step.
  all: apply preserves_modify; intros s; unfold frame; split_and!; first [done | exact (fun Hs => Hs)].
Qed.

(** An announcement to a node that does not look for blocks or the time. *)
Lemma announce_frame fuel h s s' : current_state_ s = SYNCHRONIZED \/ current_state_ s = CATCHING_UP ->
  onBlockAnnounce pow max_size config keypair_ clock fuel h s = Ok (tt, s') -> frame s s'.
Proof.
  intros Hstate He. unfold onBlockAnnounce in He. apply act_bind_ok in He as (st & s1 & [= <- <-] & He).
  assert (BlockExecutor.processNextBlock max_size (@on_executor _ _ _) h (fun _ => mret tt) s = Ok (tt, s')) as He'
    by (by destruct Hstate as [Hstate|Hstate]; rewrite Hstate in He). clear He. revert He'. unfold BlockExecutor.processNextBlock.
  match goal with |- ?m s = _ -> _ => enough (preserves frame m) as Hm by apply Hm end.
  repeat first [apply frame_executor, quiet_request_new | quiet_step].
Qed.

Lemma response_frame fuel i r s s' : settled (executor s) -> on_response pow max_size config fuel i r s = Ok (tt, s') -> frame s s'.
Proof.
  intros Hset He. unfold on_response in He. apply act_bind_ok in He as (p & s1 & [= <- <-] & He).
  destruct (BlockExecutor.requests (executor s) !! i) as [q|] eqn:Eq; [|by injection He as <-].
  assert (req_next q = Nothing) as Hq by (by eapply (Forall_lookup_1 _ _ _ _ Hset)). rewrite Hq in He. revert He.
  match goal with |- ?m s = _ -> _ => enough (preserves frame m) as Hm by apply Hm end.
  repeat first [apply frame_executor, quiet_response | quiet_step].
  apply frame_executor, preserves_modify. intros x Hx. apply Forall_delete, Hx.
Qed.

(** ** In step *)

Notation len := (epoch_length config).
Notation dur := (slot_duration config).

(** The first slot of the epoch that was started, and when it ends. *)
Context (first_slot first_finish : Z).

(** A first slot that begins an epoch, other than slot 0, is taken for the end of
    its own epoch: the node is then one epoch ahead. *)
Definition ahead : Z := if decide (first_slot <> 0 /\ first_slot mod len = 0) then 1 else 0.

Lemma ahead_bounds : 0 <= ahead <= 1.
Proof using. unfold ahead. case_decide; lia. Qed.

(** The node is in the slot [n], counted without wrap around. *)
Definition at_slot (n : Z) (s : node) : Prop :=
  first_slot <= n /\ current_slot_ s = u64 n /\ next_slot_finish_time_ s = first_finish + dur * (n - first_slot).

Definition in_epoch (n e : Z) (s : node) : Prop :=
  epoch_duration (current_epoch_ s) = len /\
  (n + (1 + ahead) * len < 2 ^ 64 -> epoch_index (current_epoch_ s) = e) /\
  getEpochLeadership pow config keypair_ (current_epoch_ s) = Ok (slots_leadership_ s).

Definition calm (s : node) : Prop := current_state_ s = SYNCHRONIZED /\ settled (executor s).

(** Before the end of an epoch is noticed. *)
Definition before_slot (s : node) : Prop := calm s /\ exists n, at_slot n s /\ in_epoch n (Z.max 0 (n - 1) / len + ahead) s.

Definition in_step (s : node) : Prop :=
  calm s /\ exists n, at_slot n s /\ in_epoch n (n / len + ahead) s /\ (timer_ s = None \/ timer_ s = Some (next_slot_finish_time_ s)).

Hypothesis Hlen : 0 < len.
Hypothesis Hfirst : 0 <= first_slot.

Lemma frame_calm s s' : frame s s' -> calm s -> calm s'.
Proof using. intros (E & _ & _ & _ & _ & _ & Hq) [Hs Hx]. split; [by rewrite E|]. by apply Hq. Qed.

Lemma frame_at n s s' : frame s s' -> at_slot n s -> at_slot n s'.
Proof using. unfold at_slot. by intros (_ & _ & -> & _ & -> & _). Qed.

Lemma frame_epoch n e s s' : frame s s' -> in_epoch n e s -> in_epoch n e s'.
Proof using. unfold in_epoch. by intros (_ & -> & _ & -> & _). Qed.

Lemma frame_in_step s s' : frame s s' -> in_step s -> in_step s'.
Proof using.
  intros Hf [Hc (n & Ha & He & Ht)]. split; [by eapply frame_calm|]. exists n.
  split_and!; [by eapply frame_at|by eapply frame_epoch|]. by destruct Hf as (_ & _ & _ & _ & -> & -> & _).
Qed.

(** The division only changes at the end of an epoch. *)
Lemma div_pred n : 0 < n -> n mod len <> 0 -> (n - 1) / len = n / len.
Proof using Hlen.
  intros Hn Hm. pose proof (Z.div_mod n len ltac:(lia)). pose proof (Z.mod_pos_bound n len Hlen).
  symmetry. apply (Z.div_unique_pos (n - 1) len (n / len) (n mod len - 1)); lia.
Qed.

Lemma div_pred_end n : 0 < n -> n mod len = 0 -> (n - 1) / len + 1 = n / len.
Proof using Hlen.
  intros Hn Hm. pose proof (Z.div_mod n len ltac:(lia)).
  enough ((n - 1) / len = n / len - 1) by lia.
  symmetry. apply (Z.div_unique_pos (n - 1) len (n / len - 1) (len - 1)); lia.
Qed.

(** A new epoch changes nothing of the slot. *)
Lemma finishEpoch_spec n s s' :
  calm s -> at_slot n s -> finishEpoch pow max_size config keypair_ s = Ok (tt, s') ->
  calm s' /\ at_slot n s' /\ epoch_duration (current_epoch_ s') = epoch_duration (current_epoch_ s) /\
  epoch_index (current_epoch_ s') = u64 (epoch_index (current_epoch_ s) + 1) /\
  getEpochLeadership pow config keypair_ (current_epoch_ s') = Ok (slots_leadership_ s').
Proof using.
  intros Hc Ha. unfold finishEpoch.
  intros (e & s1 & [= <- <-] & (slot & s2 & [= <- <-] & (d & s3 & Hd & Hr)%act_bind_ok)%act_bind_ok)%act_bind_ok.
  assert (frame s s3) as Hf by (revert Hd; apply frame_executor, quiet_descriptor).
  apply (frame_calm _ _ Hf) in Hc. apply (frame_at _ _ _ Hf) in Ha.
  apply act_bind_ok in Hr as ([] & s4 & [= <-] & (l & s5 & Hl & [= <-])%act_bind_ok).
  unfold lift in Hl. destruct (getEpochLeadership _ _ _ _) as [l'|] eqn:El; [|done]. injection Hl as -> <-.
  split_and!; [exact Hc|exact Ha|done..].
Qed.

(** The end of an epoch is noticed. *)
Lemma epoch_noticed n b s s' :
  calm s -> at_slot n s -> in_epoch n (Z.max 0 (n - 1) / len + ahead) s ->
  epoch_ends config (current_slot_ s) = Ok b -> when b (finishEpoch pow max_size config keypair_) s = Ok (tt, s') ->
  calm s' /\ at_slot n s' /\ in_epoch n (n / len + ahead) s'.
Proof using Hlen Hfirst.
  intros Hc Ha (Hdur & Hidx & Hlead) Eb Hw. pose proof Ha as (Hn & Hslot & _). unfold epoch_ends in Eb.
  pose proof ahead_bounds as Hx. assert (len <= (1 + ahead) * len <= 2 * len) as Hx2 by nia.
  assert (b = true /\ (n + (1 + ahead) * len < 2 ^ 64 -> 0 < n /\ n mod len = 0) \/
          b = false /\ (n + (1 + ahead) * len < 2 ^ 64 -> Z.max 0 (n - 1) / len = n / len)) as [[-> Hm]|[-> Hm]].
  { rewrite Hslot in Eb. destruct (decide (n + (1 + ahead) * len < 2 ^ 64)) as [Hs|]; [|destruct b; [left|right]; split; [done|lia|done|lia]].
    rewrite u64_id in Eb by u64_lia. destruct (decide (n = 0)) as [->|Hne]; [injection Eb as <-; by right|].
    unfold umod in Eb. destruct (Z.eqb_spec len 0); [lia|]. cbn in Eb. injection Eb as <-.
    destruct (Z.eqb_spec (n mod len) 0) as [Hm|Hm]; [left|right]; (split; [done|]); intros _; [lia|].
    rewrite Z.max_r by lia. apply div_pred; [lia|done]. }
  - destruct (finishEpoch_spec n s s' Hc Ha Hw) as (Hc' & Ha' & Hd' & Hi' & Hl'). split; [done|]. split; [done|]. split; [by rewrite Hd'|]. split; [|done].
    intros Hb. destruct (Hm Hb) as [Hpos Hmod]. rewrite Hi', Hidx, Z.max_r by lia. pose proof (div_pred_end n Hpos Hmod) as Hend.
    replace ((n - 1) / len + ahead + 1) with (n / len + ahead) by lia. apply u64_id.
    pose proof (Z.div_pos n len ltac:(lia) Hlen). assert (n / len <= n) by (apply Z.div_le_upper_bound; nia). u64_lia.
  - injection Hw as <-. split; [done|]. split; [done|]. split; [done|]. split; [|done]. intros Hb. rewrite <- (Hm Hb). by apply Hidx.
Qed.

(** To the next slot. *)
Definition advanced (s : node) : node := set_slot (u64 (current_slot_ s + 1)) (next_slot_finish_time_ s + dur) s.

Lemma advanced_before n s : calm s -> at_slot n s -> in_epoch n (n / len + ahead) s -> before_slot (advanced s).
Proof using Hfirst.
  intros Hc (Hn & Hslot & Hfin) He. split; [exact Hc|]. exists (n + 1). split_and!.
  - unfold at_slot, advanced. cbn. rewrite Hslot, Hfin, u64_add_id. split_and!; lia.
  - destruct He as (Hd & Hi & Hl). split; [done|]. split; [|done]. intros Hb. rewrite Z.max_r by lia. replace (n + 1 - 1) with n by lia.
    apply Hi. lia.
Qed.

Lemma runSlot_spec fuel : forall s s', before_slot s -> runSlot pow max_size config keypair_ clock fuel s = Ok (tt, s') ->
  in_step s' /\ timer_ s' = Some (next_slot_finish_time_ s').
Proof using Hlen Hfirst.
  induction fuel as [|fuel IH]; intros s s' [Hc (n & Ha & He)]; [done|]. cbn [runSlot].
  intros (slot & s1 & [= <- <-] & (b & s2 & Hb & Hr)%act_bind_ok)%act_bind_ok.
  unfold lift in Hb. destruct (epoch_ends config (current_slot_ s)) as [b'|] eqn:Eb; [|done]. injection Hb as -> <-.
  apply act_bind_ok in Hr as ([] & s3 & Hw & (t & s4 & Ht & (f & s5 & [= <- <-] & Hr)%act_bind_ok)%act_bind_ok).
  destruct (epoch_noticed n b s s3 Hc Ha He Eb Hw) as (Hc3 & Ha3 & He3).
  assert (frame s3 s4) as Hf by (revert Ht; apply frame_now).
  apply (frame_calm _ _ Hf) in Hc3. apply (frame_at _ _ _ Hf) in Ha3. apply (frame_epoch _ _ _ _ Hf) in He3.
  destruct (_ && _).
  - apply act_bind_ok in Hr as ([] & s6 & [= <-] & Hr). apply (IH _ _) in Hr; [done|].
    replace (current_slot_ s) with (current_slot_ s4) by (destruct Ha as (_ & -> & _), Ha3 as (_ & -> & _); done).
    by apply (advanced_before n).
  - injection Hr as <-. split; [|done]. split; [done|]. exists n. split_and!; [done..|]. by right.
Qed.

Lemma runEpoch_spec fuel e s s' :
  first_slot = start_slot e -> epoch_duration e = len -> epoch_index e = first_slot / len ->
  is_u64 first_slot -> calm s ->
  runEpoch pow max_size config keypair_ clock fuel e first_finish s = Ok (tt, s') ->
  in_step s' /\ timer_ s' = Some (next_slot_finish_time_ s').
Proof using Hlen Hfirst.
  intros Hst Hdur Hidx Hu Hc. unfold runEpoch. case_decide as Hne; [done|].
  intros ([] & s1 & [= <-] & (l & s2 & Hl & ([] & s3 & [= <-] & Hr)%act_bind_ok)%act_bind_ok)%act_bind_ok.
  unfold lift in Hl. destruct (getEpochLeadership _ _ _ _) as [l'|] eqn:El; [|done]. injection Hl as -> <-.
  eapply runSlot_spec; [|exact Hr]. split; [exact Hc|]. exists first_slot. split_and!.
  - unfold at_slot. cbn. rewrite <- Hst, (u64_id first_slot) by done. split_and!; lia.
  - split; [done|]. split; [|done]. intros _. cbn. rewrite Hidx. unfold ahead.
    destruct (decide (first_slot = 0)) as [->|Hz]; [by rewrite decide_False by naive_solver|]. rewrite Z.max_r by lia. case_decide as Hm.
    + destruct Hm as [_ Hm]. by rewrite div_pred_end by lia.
    + rewrite div_pred; [lia..|]. naive_solver.
Qed.

Lemma finishSlot_spec fuel s s' : in_step s -> finishSlot pow max_size config keypair_ clock fuel s = Ok (tt, s') ->
  in_step s' /\ timer_ s' = Some (next_slot_finish_time_ s').
Proof using Hlen Hfirst.
  intros Hs. unfold finishSlot.
  intros (x & s1 & [= <- <-] & (i & s2 & Hi & (o & s3 & Ho & ([] & s4 & Hp & ([] & s5 & [= <-] & Hr)%act_bind_ok)%act_bind_ok)%act_bind_ok)%act_bind_ok)%act_bind_ok.
  assert (s2 = s) as -> by (unfold lift in Hi; destruct (umod _ _); by simplify_eq).
  assert (s3 = s) as -> by (unfold lift in Ho; destruct (ok_or _ _); by simplify_eq).
  assert (frame s s4) as Hf.
  { destruct o; [revert Hp; apply frame_process|]. injection Hp as <-. reflexivity. }
  apply (frame_in_step _ _ Hf) in Hs as [Hc (n & Ha & He & _)].
  eapply runSlot_spec; [|exact Hr]. by apply (advanced_before n).
Qed.

Lemma handle_in_step s s' : in_step s -> step s s' -> in_step s'.
Proof using Hlen Hfirst.
  intros Hs (fuel & e & He). pose proof Hs as [[Hstate Hset] _]. destruct e as [ok|h|i r]; cbn [handle] in He.
  - unfold on_timer in He. apply act_bind_ok in He as (armed & s1 & [= <- <-] & He).
    destruct (timer_ s); [|by injection He as <-]. apply act_bind_ok in He as ([] & s2 & [= <-] & He).
    assert (in_step (set_timer None s)) as Hs'.
    { destruct Hs as [Hc (n & Ha & Hep & _)]. split; [exact Hc|]. exists n. split_and!; [exact Ha|exact Hep|by left]. }
    destruct ok; [|by injection He as <-]. by apply (finishSlot_spec fuel _ _ Hs').
  - apply (frame_in_step s); [|done]. apply (announce_frame fuel h); [by left|done].
  - apply (frame_in_step s); [|done]. by apply (response_frame fuel i r).
Qed.

Lemma leadership_drawn n s : 0 <= n -> n + (1 + ahead) * len < 2 ^ 64 -> in_epoch n (n / len + ahead) s ->
  exists idx threshold,
    getAuthorityIndex (epoch_authorities (current_epoch_ s)) (public_key keypair_) = Some idx /\
    calculateThreshold pow (leadership_rate config) (epoch_authorities (current_epoch_ s)) idx = Ok threshold /\
    slots_leadership_ s !! Z.to_nat (n mod len) =
      Some (vrf_sign (vrf_input (epoch_randomness (current_epoch_ s)) (n + ahead * len)) keypair_ threshold).
Proof using Hlen.
  intros Hn Hb (Hd & Hi & Hl). specialize (Hi Hb). unfold getEpochLeadership in Hl.
  destruct (getAuthorityIndex _ _) as [idx|] eqn:Ei; [|done]. cbn in Hl. apply outcome_bind_ok in Hl as (threshold & Ht & [= <-]).
  exists idx, threshold. split_and!; [done..|]. pose proof ahead_bounds.
  rewrite <- (Z.mod_add n ahead len) by lia. rewrite <- Hd in *. apply slotsLeadership_lookup; [lia|nia..|]. by rewrite Z.div_add by lia.
Qed.

(** ** Progress *)

(** The node is an authority and has a threshold. *)
Definition can_lead (l : AuthorityList) : Prop :=
  exists idx threshold, getAuthorityIndex l (public_key keypair_) = Some idx /\
    calculateThreshold pow (leadership_rate config) l idx = Ok threshold.

(** The node is an authority now and in every stored epoch. *)
Definition able (s : node) : Prop :=
  can_lead (epoch_authorities (current_epoch_ s)) /\
  forall i, match EpochStorageImpl.getEpochDescriptor max_size i (AuthorityManagerImpl.storage_ (BlockExecutor.authority (executor s))) with
            | Ok d => can_lead (ned_authorities d)
            | Err undefined_behaviour | Err out_of_fuel => False
            | Err _ => True
            end.

Lemma can_lead_leadership e : can_lead (epoch_authorities e) -> exists l, getEpochLeadership pow config keypair_ e = Ok l.
Proof using. intros (idx & t & Hi & Ht). eexists. unfold getEpochLeadership. rewrite Hi. cbn. by rewrite Ht. Qed.

(** What is stored for an epoch, without a change of the node. *)
Lemma descriptor_returns i s : able s ->
  runs (on_executor (BlockExecutor.getEpochDescriptor max_size i)) s (fun r s' => s' = s /\
    forall d, r = Ok d -> can_lead (ned_authorities d)).
Proof using.
  intros [_ He]. specialize (He i). unfold runs, on_executor, BlockExecutor.getEpochDescriptor, returned.
  unfold mbind, act_bind, gets.
  destruct (EpochStorageImpl.getEpochDescriptor _ _ _) as [d|[]]; try done; eexists _, s; (split; [by destruct s|]); split; try done.
  by intros ? [= <-].
Qed.

Lemma finishEpoch_returns s : able s -> runs (finishEpoch pow max_size config keypair_) s (fun _ s' =>
  able s' /\ current_slot_ s' = current_slot_ s /\ next_slot_finish_time_ s' = next_slot_finish_time_ s /\ readings s' = readings s).
Proof using.
  intros Hable. pose proof Hable as [Hlead He]. unfold finishEpoch. apply runs_bind, runs_gets, runs_bind, runs_gets, runs_bind.
  eapply runs_mono; [by apply descriptor_returns|]. intros r s' [-> Hd].
  set (d := match r with Ok d => d | Err _ => _ end).
  assert (can_lead (ned_authorities d)) as Hcan by (destruct r; [by apply Hd|done]).
  apply runs_bind, runs_modify, runs_bind. destruct (can_lead_leadership (mkEpoch (u64 (epoch_index (current_epoch_ s) + 1)) (current_slot_ s)
    (epoch_duration (current_epoch_ s)) (ned_authorities d) (ned_randomness d)) Hcan) as [l Hl].
  eapply runs_lift; [exact Hl|]. apply runs_modify. by split_and!.
Qed.

(** At its last reading the clock is at most one slot after the end of the slot
    that the node waits for. *)
Definition caught_up (s : node) : Prop := exists i, readings s = S i /\ clock i <= next_slot_finish_time_ s + dur.

(** When a reading is not a slot behind, [runSlot] has returned by then. *)
Lemma runSlot_returns k : forall s, able s -> 0 < dur ->
  clock (readings s + k) <= next_slot_finish_time_ s + dur * (Z.of_nat k + 1) ->
  forall fuel, (k < fuel)%nat -> runs (runSlot pow max_size config keypair_ clock fuel) s (fun _ s' =>
    able s' /\ timer_ s' = Some (next_slot_finish_time_ s') /\ next_slot_finish_time_ s <= next_slot_finish_time_ s' /\ caught_up s').
Proof using Hlen.
  induction k as [|k IH]; intros s Hable Hdur Hk fuel Hfuel; (destruct fuel as [|fuel]; [lia|]); cbn [runSlot].
  all: apply runs_bind, runs_gets, runs_bind.
  all: assert (exists b, epoch_ends config (current_slot_ s) = Ok b) as [b Hb].
  1,3: unfold epoch_ends; case_decide; [by eexists|]; unfold umod; destruct (Z.eqb_spec len 0); [lia|]; by eexists.
  all: eapply runs_lift; [exact Hb|]; apply runs_bind.
  all: enough (runs (when b (finishEpoch pow max_size config keypair_)) s (fun _ s' => able s' /\ current_slot_ s' = current_slot_ s /\
         next_slot_finish_time_ s' = next_slot_finish_time_ s /\ readings s' = readings s)) as Hw.
  2,4: by destruct b; [by apply finishEpoch_returns|apply runs_ret].
  all: eapply runs_mono; [exact Hw|]; intros [] s1 (Hable1 & Hslot & Hfin & Hread).
  all: unfold now; apply runs_bind, runs_bind, runs_gets, runs_bind, runs_modify, runs_ret, runs_bind, runs_gets; cbn [next_slot_finish_time_ set_readings].
  all: rewrite Hread, Hfin.
  - rewrite Nat.add_0_r in Hk. destruct (Z.ltb_spec dur (clock (readings s) - next_slot_finish_time_ s)); [lia|].
    rewrite andb_false_r. apply runs_modify. split_and!; [exact Hable1|by rewrite <- Hfin|cbn; lia|].
    exists (readings s). cbn. split; [done|lia].
  - destruct (_ && _) eqn:Eb.
    + apply runs_bind, runs_modify. eapply runs_mono; [apply IH; [exact Hable1|done| |lia]|].
      * cbn. replace (S (readings s + k))%nat with (readings s + S k)%nat by lia. lia.
      * cbn. intros [] s2 (? & ? & ? & ?). split_and!; [done..|lia|done].
    + apply runs_modify. split_and!; [exact Hable1|by rewrite <- Hfin|cbn; lia|].
      exists (readings s). cbn. split; [done|]. rewrite Hfin. apply andb_false_iff in Eb as [Eb|Eb]; apply Z.ltb_ge in Eb; lia.
Qed.

(** Making a block in this slot, if the node leads it, returns with [s1]. *)
Definition makes (s s1 : node) : Prop :=
  match slots_leadership_ s !! Z.to_nat (current_slot_ s mod epoch_duration (current_epoch_ s)) with
  | Some None => s1 = s
  | Some (Some o) => exists fuel0, forall fuel, (fuel0 <= fuel)%nat ->
      processSlotLeadership max_size keypair_ clock fuel o s = Ok (tt, s1)
  | None => False
  end.

(** In the long run the readings of the clock are less than a slot apart. *)
Definition slow_clock : Prop := forall i t, exists k, clock (i + k) <= t + dur * Z.of_nat k.

Lemma finishSlot_makes s s1 : 0 < epoch_duration (current_epoch_ s) -> makes s s1 ->
  exists fuel0, forall fuel, (fuel0 <= fuel)%nat ->
    finishSlot pow max_size config keypair_ clock fuel s = runSlot pow max_size config keypair_ clock fuel (advanced s1).
Proof using.
  intros Hd Hm. unfold makes in Hm. set (i := current_slot_ s mod epoch_duration (current_epoch_ s)) in Hm.
  assert (umod (current_slot_ s) (epoch_duration (current_epoch_ s)) = Ok i) as Hi
    by (unfold umod; destruct (Z.eqb_spec (epoch_duration (current_epoch_ s)) 0); [lia|done]).
  destruct (slots_leadership_ s !! Z.to_nat i) as [[o|]|] eqn:El; [|subst s1|done].
  - destruct Hm as [fuel0 Hp]. exists fuel0. intros fuel Hfuel. unfold finishSlot, mbind, act_bind, gets, lift.
    rewrite Hi, El. cbn [ok_or]. by rewrite (Hp fuel Hfuel).
  - exists 0%nat. intros fuel _. unfold finishSlot, mbind, act_bind, gets, lift. rewrite Hi, El. done.
Qed.

Lemma makes_frame s s1 : makes s s1 -> next_slot_finish_time_ s1 = next_slot_finish_time_ s.
Proof using.
  unfold makes. destruct (_ !! _) as [[o|]|]; [|by intros ->|done]. intros [fuel0 Hp].
  by destruct (frame_process fuel0 o _ _ _ (Hp fuel0 (le_n _))) as (_ & _ & _ & _ & -> & _).
Qed.

Lemma on_timer_returns s s1 : slow_clock -> 0 < dur -> 0 < epoch_duration (current_epoch_ s) ->
  is_Some (timer_ s) -> makes (set_timer None s) s1 -> able s1 -> next_slot_finish_time_ s1 = next_slot_finish_time_ s ->
  exists fuel0, forall fuel, (fuel0 <= fuel)%nat -> runs (on_timer pow max_size config keypair_ clock fuel true) s (fun _ s' =>
    able s' /\ timer_ s' = Some (next_slot_finish_time_ s') /\ next_slot_finish_time_ s + dur <= next_slot_finish_time_ s' /\ caught_up s').
Proof using Hlen.
  intros Hclock Hdur Hd [f Ht] Hm Hable Hfin.
  destruct (finishSlot_makes (set_timer None s) s1 Hd Hm) as [fuel1 Hf1].
  destruct (Hclock (readings s1) (next_slot_finish_time_ s1 + dur + dur)) as [k Hk].
  exists (max fuel1 (S k)). intros fuel Hfuel. unfold on_timer. apply runs_bind, runs_gets. rewrite Ht.
  apply runs_bind, runs_modify. cbn [when]. unfold runs. rewrite Hf1 by lia.
  destruct (runSlot_returns k (advanced s1)) with (fuel := fuel) as ([] & s' & Hr & Ha & Htm & Hle & Hcu); [exact Hable|done| |lia|].
  - cbn. lia.
  - exists tt, s'. cbn in Hle. split_and!; [done..|lia|done].
Qed.

End slots.

Section theorem.
Context `{SR25519} {blockslib : BlocksLib} {St : Type} `{!BlockStore St} {DB : Type} `{!KeyValueDB DB} `{!DirectChain}.
Context {R : Type} `{!Runtime R}.
Context (pow : double -> double -> double) (max_size : ty -> Z) (config : ProductionConfiguration).
Context (keypair_ : SR25519Keypair) (clock : nat -> Z).

(** C7. A synchronized producer is in step.  It starts with the epoch of its first
    slot, and no request that makes it look for the time of a slot is pending;
    then whatever is announced and answered, however the clock runs, and however
    often the timer fires, the slot counts on from the first one, each slot ends
    one duration after the one before, and the timer waits for this end.  The
    epoch is the one of the slot, or, exactly when the first slot is not slot 0
    and begins an epoch, the one after it; and the entry that says whether the
    node leads the slot is the output of the random function for the slot with
    the same place in that epoch, under the randomness of the epoch and the
    threshold of the node in it.  So a node that starts inside an epoch or at
    slot 0 holds the outputs of its own slots, and a node that joins at the start
    of an epoch those of slots one epoch later.  The epoch and the entry are
    stated while the numbers of the slots fit in 64 bits. *)
Theorem leader_of_own_slot (fuel : nat) (e : Epoch) (finish : Z) (s0 s1 s : ProductionImpl.t (St := St) (DB := DB) (R := R)) :
  0 < epoch_length config -> is_u64 (start_slot e) -> epoch_duration e = epoch_length config ->
  epoch_index e = start_slot e / epoch_length config ->
  calm s0 -> runEpoch pow max_size config keypair_ clock fuel e finish s0 = Ok (tt, s1) ->
  rtc (step pow max_size config keypair_ clock) s1 s ->
  let extra := if decide (start_slot e <> 0 /\ start_slot e mod epoch_length config = 0) then 1 else 0 in
  exists n, start_slot e <= n /\ current_slot_ s = u64 n /\
    next_slot_finish_time_ s = finish + slot_duration config * (n - start_slot e) /\
    (timer_ s = None \/ timer_ s = Some (next_slot_finish_time_ s)) /\
    (n + (1 + extra) * epoch_length config < 2 ^ 64 ->
      epoch_index (current_epoch_ s) = n / epoch_length config + extra /\
      exists idx threshold,
        getAuthorityIndex (epoch_authorities (current_epoch_ s)) (public_key keypair_) = Some idx /\
        calculateThreshold pow (leadership_rate config) (epoch_authorities (current_epoch_ s)) idx = Ok threshold /\
        slots_leadership_ s !! Z.to_nat (n mod epoch_length config) =
          Some (vrf_sign (vrf_input (epoch_randomness (current_epoch_ s)) (n + extra * epoch_length config)) keypair_ threshold)).
Proof.
  intros Hlen Hu Hdur Hidx Hc Hr Hsteps. cbv zeta.
  assert (0 <= start_slot e) as Hpos by apply Hu.
  apply (runEpoch_spec pow max_size config keypair_ clock (start_slot e) finish Hlen Hpos) in Hr as [Hin _]; [|done..].
  assert (in_step pow config keypair_ (start_slot e) finish s) as [_ (n & (Hn & Hslot & Hfin) & He & Ht)].
  { clear Hc. induction Hsteps as [|x y z Hxy _ IH]; [done|]. by apply IH, (handle_in_step pow max_size config keypair_ clock _ _ Hlen Hpos x). }
  exists n. split_and!; [done..|]. intros Hb. split; [by apply He|].
  apply (leadership_drawn pow config keypair_ (start_slot e) Hlen n s); [lia|done..].
Qed.

(** C27. Slots go on.  Let the timer of a synchronized producer fire.  Let the
    making of a block return, if the node leads the slot ([makes]); let the node
    then be an authority of the running epoch and of every epoch whose descriptor
    is stored ([able]); and let the readings of its clock be in the long run less
    than a slot apart ([slow_clock]).  Then the handler returns with enough fuel.
    It has counted on over the slots that the clock had left: the last reading is
    at most one duration after the end of the slot the node is now in
    ([caught_up]), which is at least one duration later than before.  The timer is
    set for this end, the node is in step, and it is able again. *)
Theorem slots_go_on (first_slot first_finish : Z) (s s1 : ProductionImpl.t (St := St) (DB := DB) (R := R)) :
  0 < epoch_length config -> 0 <= first_slot -> 0 < slot_duration config ->
  in_step pow config keypair_ first_slot first_finish s -> is_Some (timer_ s) ->
  makes max_size keypair_ clock (set_timer None s) s1 -> able pow max_size config keypair_ s1 -> slow_clock config clock ->
  exists fuel0, forall fuel, (fuel0 <= fuel)%nat -> runs (on_timer pow max_size config keypair_ clock fuel true) s (fun _ s' =>
    in_step pow config keypair_ first_slot first_finish s' /\ able pow max_size config keypair_ s' /\
    timer_ s' = Some (next_slot_finish_time_ s') /\
    next_slot_finish_time_ s + slot_duration config <= next_slot_finish_time_ s' /\ caught_up config clock s').
Proof.
  intros Hlen Hpos Hdur Hs Ht Hm Hable Hclock. pose proof Hs as [_ (n & _ & (Hd & _) & _)].
  destruct (on_timer_returns pow max_size config keypair_ clock Hlen s s1) as [fuel0 Hf]; [done|done|by rewrite Hd|done..| |].
  - by apply (makes_frame max_size keypair_ clock (set_timer None s)).
  - exists fuel0. intros fuel Hfuel. destruct (Hf fuel Hfuel) as ([] & s' & Hr & Ha & Htm & Hle & Hcu).
    exists tt, s'. split_and!; [done| |done..].
    apply (handle_in_step pow max_size config keypair_ clock _ _ Hlen Hpos s); [done|]. exists fuel, (Expired true). exact Hr.
Qed.

(** A node whose request for the missing blocks failed is stuck: no announcement
    and no answer makes it look for the time of a slot any more. *)
Theorem catching_up_stalls (s s' : ProductionImpl.t (St := St) (DB := DB) (R := R)) :
  current_state_ s = CATCHING_UP -> settled (executor s) -> timer_ s = None ->
  rtc (step pow max_size config keypair_ clock) s s' ->
  current_state_ s' = CATCHING_UP /\ timer_ s' = None.
Proof.
  intros Hstate Hset Ht Hsteps. enough (current_state_ s' = CATCHING_UP /\ settled (executor s') /\ timer_ s' = None) by naive_solver.
  induction Hsteps as [|x y z (fuel & e & He) _ IH]; [done|].
  assert (frame x y) as (E1 & _ & _ & _ & _ & E6 & Hq).
  { destruct e as [ok|h|i r]; cbn [handle] in He.
    - unfold on_timer in He. apply act_bind_ok in He as (armed & x1 & [= <- <-] & He). rewrite Ht in He. injection He as <-. apply frame_preorder.
    - apply (announce_frame pow max_size config keypair_ clock fuel h x y); [by right|done].
    - by apply (response_frame pow max_size config fuel i r x y). }
  apply IH; [by rewrite E1|by apply Hq|by rewrite E6].
Qed.

End theorem.
End Slots.

(** ** The executor of blocks *)

Module Executor.
Import BlockExecutor.
Section executor.
Context `{SR25519} {blockslib : BlocksLib} {St : Type} `{!BlockStore St} {DB : Type} `{!KeyValueDB DB} `{!DirectChain}.
Context (pow : double -> double -> double) (max_size : ty -> Z) (config : ProductionConfiguration).

Notation exec := (BlockExecutor.t (St := St) (DB := DB)).

(** The tree of blocks, the pool and the changes of authorities. *)
Definition untouched (x x' : exec) : Prop :=
  BlockTreeImpl.tree_ (tree x') = BlockTreeImpl.tree_ (tree x) /\ BlockTreeImpl.tree_meta_ (tree x') = BlockTreeImpl.tree_meta_ (tree x) /\
  tx_pool_ x' = tx_pool_ x /\ AuthorityManagerImpl.root_ (authority x') = AuthorityManagerImpl.root_ (authority x).

#[local] Instance untouched_preorder : PreOrder untouched.
Proof. split; [done|]. intros x y z (? & ? & ? & ?) (? & ? & ? & ?). unfold untouched. split_and!; congruence. Qed.

(** The descriptors of epochs: as before, or with the one that the block carries
    added, for the epoch after the next. *)
Definition epochs_announced (b : Block) (x x' : exec) : Prop :=
  AuthorityManagerImpl.storage_ (authority x') = AuthorityManagerImpl.storage_ (authority x) \/
  exists seal h d, getProductionDigests max_size (header b) = Ok (seal, h) /\ getNextEpochDigest max_size (header b) = Ok (Ok d) /\
    EpochStorageImpl.addEpochDescriptor (u64 (slot_number h / epoch_length config + 2)) d (AuthorityManagerImpl.storage_ (authority x)) =
      Ok (Ok tt, AuthorityManagerImpl.storage_ (authority x')).

(** What the epoch of a block is checked with. *)
Definition descriptor_at (e : Z) (x : exec) : NextEpochDescriptor :=
  match EpochStorageImpl.getEpochDescriptor max_size e (AuthorityManagerImpl.storage_ (authority x)) with
  | Ok d => d
  | Err _ => mkDescriptor (genesis_authorities config) (randomness config)
  end.

(** The block was sealed by an authority of the epoch of its slot, which drew the
    slot below its threshold and had no block accepted in it. *)
Definition validated (b : Block) (x : exec) : Prop :=
  exists seal h producer threshold unsealed encoded,
    let d := descriptor_at (slot_number h / epoch_length config) x in
    getProductionDigests max_size (header b) = Ok (seal, h) /\
    ned_authorities d !! Z.to_nat (authority_index h) = Some producer /\
    calculateThreshold pow (leadership_rate config) (ned_authorities d) (authority_index h) = Ok threshold /\
    pop_digest (header b) = Ok unsealed /\ encode_header unsealed = Ok encoded /\
    sr_verify seal (hasher_blake2b_256 encoded) producer.1 = Ok true /\
    vrf_verify (vrf_input (ned_randomness d) (slot_number h)) (vrf_output h) producer.1 threshold = (true, true) /\
    authority_index h ∉ default ∅ (producers x !! slot_number h).

Lemma validateHeader_ok h a t r p p' :
  ProductionBlockValidator.validateHeader hasher_blake2b_256 max_size h a t r p = Ok (Ok tt, p') ->
  exists seal ph unsealed encoded,
    getProductionDigests max_size h = Ok (seal, ph) /\ pop_digest h = Ok unsealed /\ encode_header unsealed = Ok encoded /\
    sr_verify seal (hasher_blake2b_256 encoded) a = Ok true /\
    vrf_verify (vrf_input r (slot_number ph)) (vrf_output ph) a t = (true, true) /\
    authority_index ph ∉ default ∅ (p !! slot_number ph).
Proof.
  unfold ProductionBlockValidator.validateHeader, ProductionBlockValidator.verifySignature, ProductionBlockValidator.verifyVRF.
  destruct (getProductionDigests max_size h) as [[seal ph]|] eqn:Ed; [|done].
  destruct (pop_digest h) as [unsealed|] eqn:Ep; [|done]. cbn [mbind outcome_bind].
  destruct (encode_header unsealed) as [encoded|] eqn:Ee; [|done].
  destruct (sr_verify _ _ _) as [[]|] eqn:Es; [|done..].
  destruct (vrf_verify _ _ _ _) as [[] []] eqn:Ev; cbn [negb]; [|done..].
  intros Hp. exists seal, ph, unsealed, encoded. split_and!; [done..|].
  unfold ProductionBlockValidator.verifyProducer in Hp. destruct (p !! slot_number ph); cbn; [|apply not_elem_of_empty].
  by destruct (decide _).
Qed.

Lemma untouched_getBlockBody h x a x' : on_tree (BlockTreeImpl.getBlockBody h) x = Ok (a, x') ->
  untouched x x' /\ producers x' = producers x /\ authority x' = authority x.
Proof.
  unfold on_tree, BlockTreeImpl.getBlockBody, BlockTreeImpl.on_store. destruct (st_getBlockBody _ _) as [[]|]; [|done].
  by intros [= <- <-].
Qed.

Lemma untouched_epochs {A} (m : act DB A) x a x' : on_epochs m x = Ok (a, x') -> untouched x x' /\ producers x' = producers x.
Proof. unfold on_epochs, on_authority. destruct (m _) as [[]|]; [|done]. by intros [= <- <-]. Qed.

Lemma getEpochDescriptor_at e x r x' : BlockExecutor.getEpochDescriptor max_size e x = Ok (r, x') ->
  x' = x /\ match r with Ok d => d | Err _ => mkDescriptor (genesis_authorities config) (randomness config) end = descriptor_at e x.
Proof.
  unfold BlockExecutor.getEpochDescriptor, descriptor_at, returned, mbind, act_bind, gets.
  destruct (EpochStorageImpl.getEpochDescriptor _ _ _) as [d|[]]; intros E; try done; by injection E as <- <-.
Qed.

(** A header that is refused leaves no trace in the record of the producers. *)
Lemma validateHeader_err h a t r p p' e :
  ProductionBlockValidator.validateHeader hasher_blake2b_256 max_size h a t r p = Ok (Err e, p') -> p' = p.
Proof.
  unfold ProductionBlockValidator.validateHeader, ProductionBlockValidator.verifyProducer.
  repeat (case_match; simplify_eq/=; try done). all: intros [=]; congruence.
Qed.

Lemma stored_epoch e ne x x' :
  match ne with
  | Ok d => r ← on_epochs (EpochStorageImpl.addEpochDescriptor (u64 (e + 2)) d); lift (value_of r)
  | Err _ => mret tt
  end x = Ok (tt, x') ->
  untouched x x' /\ producers x' = producers x /\
  (AuthorityManagerImpl.storage_ (authority x') = AuthorityManagerImpl.storage_ (authority x) \/
   exists d, ne = Ok d /\ EpochStorageImpl.addEpochDescriptor (u64 (e + 2)) d (AuthorityManagerImpl.storage_ (authority x)) =
     Ok (Ok tt, AuthorityManagerImpl.storage_ (authority x'))).
Proof.
  destruct ne as [d|]; [|intros [= <-]; split_and!; [done|done|by left]].
  intros (r & x1 & Hst & Hv)%act_bind_ok. destruct (untouched_epochs _ _ _ _ Hst) as [Hu Hp].
  unfold lift in Hv. destruct r as [[]|]; [|done]. injection Hv as <-. split_and!; [done..|]. right. exists d. split; [done|].
  unfold on_epochs, on_authority in Hst. destruct (EpochStorageImpl.addEpochDescriptor _ _ _) as [[]|]; [|done]. by injection Hst as -> <-.
Qed.

(** C8. A block is applied only if it was validated.  When [applyBlock] returns,
    there are two cases.  Either it returns an error; then the tree of blocks,
    the pool, the schedule of the authorities and the record of the producers are
    as before, and so are the descriptors of epochs, except that the descriptor
    the block carries may have been stored for the epoch after the next, though
    the block was refused.  Or the seal of the block is the signature of the
    header without it by the authority that the block names, among the authorities
    of the epoch of its slot; the output it carries is valid for the slot under the
    randomness of the epoch and below the threshold of the authority; and no block
    of this authority was accepted in the slot before. *)
Theorem only_validated_blocks (fuel : nat) (b : Block) (x x' : exec) (r : outcome unit) :
  applyBlock pow max_size config fuel b x = Ok (r, x') ->
  ((exists e, r = Err e) /\ untouched x x' /\ producers x' = producers x /\ epochs_announced b x x') \/ validated b x.
Proof.
  unfold applyBlock. intros (hash & x1 & Hh & (ex & x2 & Hex & Hr)%act_bind_ok)%act_bind_ok.
  assert (x1 = x) as -> by (unfold lift in Hh; destruct (header_hash _); by simplify_eq).
  destruct (untouched_getBlockBody _ _ _ _ Hex) as (Hu & Hpr & Hau).
  assert (epochs_announced b x x2) as Hep by (left; by rewrite Hau).
  destruct ex as [body|e]; [injection Hr as <- <-; eauto 6|].
  apply act_bind_ok in Hr as (dg & x3 & Hdg & Hr).
  unfold returned in Hdg. destruct (getProductionDigests max_size (header b)) as [[seal h]|e'] eqn:Ed.
  2: { destruct e'; try done; injection Hdg as <- <-; injection Hr as <- <-; left; eauto 6. }
  injection Hdg as <- <-. cbn [snd] in Hr.
  apply act_bind_ok in Hr as (e2 & x4 & He2 & (dr & x5 & Hdr & Hr)%act_bind_ok).
  unfold lift, udiv in He2. destruct (Z.eqb_spec (epoch_length config) 0); [done|]. injection He2 as <- <-.
  apply getEpochDescriptor_at in Hdr as [-> Hd].
  assert (descriptor_at (slot_number h / epoch_length config) x2 = descriptor_at (slot_number h / epoch_length config) x) as Hsame
    by (unfold descriptor_at; by rewrite Hau).
  rewrite Hd, Hsame in Hr. clear Hd Hsame dr.
  apply act_bind_ok in Hr as (t & x6 & Ht & (ne & x7 & Hne & ([] & x8 & Hst & (p & x9 & Hp & Hr)%act_bind_ok)%act_bind_ok)%act_bind_ok).
  unfold lift in Ht, Hne, Hp.
  destruct (calculateThreshold _ _ _ _) as [t'|] eqn:Et; [|done]. injection Ht as -> <-.
  destruct (getNextEpochDigest _ _) as [ne'|] eqn:Ene; [|done]. injection Hne as -> <-.
  apply stored_epoch in Hst as (Hu8 & Hpr8 & Hst).
  destruct (ned_authorities _ !! _) as [p'|] eqn:Ep; [|done]. injection Hp as -> <-.
  apply act_bind_ok in Hr as (v & x10 & Hv & Hr). unfold on_producers in Hv. rewrite Hpr8, Hpr in Hv.
  destruct (ProductionBlockValidator.validateHeader _ _ _ _ _ _ _) as [[[[]|e'] p2]|] eqn:Ev; [| |done]; injection Hv as <- <-.
  - right. destruct (validateHeader_ok _ _ _ _ _ _ Ev) as (seal' & h' & u & en & Ed' & Hpop & Hen & Hsr & Hvrf & Hfree).
    rewrite Ed in Ed'. injection Ed' as <- <-. by exists seal, h, p, t, u, en.
  - left. injection Hr as <- <-. split; [eauto|]. split; [etrans; [exact Hu|exact Hu8]|]. apply validateHeader_err in Ev as ->. split; [done|].
    rewrite Hau in Hst. destruct Hst as [Hst|(d & -> & Hst)]; [by left|]. right. by exists seal, h, d.
Qed.

End executor.
End Executor.
