(* ===== verification/ProductionDemo.v ===== *)
(** * Producers and validators at work

    Concrete keys, a runtime that returns the header it was given, and a small
    network: the theorems of [ProductionProps], [ProductionSlots] and [Authorship]
    are applied to them, and what goes wrong is shown. *)

From Stdlib Require Import Floats.SpecFloat.
From S2P Require Import Prelude Scale ScaleProps ScaledInteger TrieCodec BlockStorage BlockStorageProps BlockTree BlockTreeProps BlockTreeSpec TransactionPool TransactionPoolInv TransactionPoolProps TransactionPoolRemoval Votes Authority Production Authorship ProductionNode ProductionProps ProductionSlots.

Open Scope Z_scope.

Module DemoProduction.
#[export] Existing Instance MemoryBlocks.memory_blocks.

(** ** Parameters *)

Definition pad (n : nat) (b : bytes) : bytes := take n (b ++ replicate n "000"%char).

Lemma length_pad n b : length (pad n b) = n.
Proof. unfold pad. rewrite length_take, length_app, length_replicate. lia. Qed.

(** The messages of [DemoBlocks], and a hash that looks at every byte. *)
#[export] Instance demo_lib : BlocksLib := {
  ser_block_id := @ser_block_id DemoBlocks.blocks_ref;
  parse_block_id := @parse_block_id DemoBlocks.blocks_ref;
  ser_hash_data := @ser_hash_data DemoBlocks.blocks_ref;
  parse_hash_data := @parse_hash_data DemoBlocks.blocks_ref;
  ser_header_data := @ser_header_data DemoBlocks.blocks_ref;
  parse_header_data := @parse_header_data DemoBlocks.blocks_ref;
  ser_payload_data := @ser_payload_data DemoBlocks.blocks_ref;
  parse_payload_data := @parse_payload_data DemoBlocks.blocks_ref;
  hasher_blake2b_256 b := pad 32 (str "h" ++ le_bytes 8 (foldl (fun a c => (31 * a + uchar c) mod 2 ^ 61) 7 b))
}.

(** A slot with an even number is drawn. *)
Definition drawn (m : bytes) : bool := Z.even (uchar (default "000"%char (last m))).

Definition out (m pk : bytes) : VRFOutput := (pad 32 (drop 32 m ++ m), pad 64 (pk ++ m)).

#[export] Instance toy_sr : SR25519 := {
  sr_public sk := sk;
  sr_sign k m := pad 64 (secret_key k ++ m);
  sr_verify sig m pk := Ok (bool_decide (sig = pad 64 (pk ++ m)));
  vrf_sign m k t := if drawn m && (0 <? t) then Some (out m (secret_key k)) else None;
  vrf_verify m o pk t := (bool_decide (o = out m pk), drawn m && (0 <? t))
}.

#[export] Instance toy_sr_spec : SR25519Spec.
Proof.
  split.
  - intros k m Hk. cbn. rewrite Hk. cbn. by rewrite bool_decide_eq_true_2.
  - intros k m t o Hk. cbn. destruct (drawn m && (0 <? t)); [|done]. intros [= <-]. rewrite Hk. cbn.
    by rewrite bool_decide_eq_true_2.
  - intros k m t o. cbn. destruct (drawn m && (0 <? t)); [|done]. intros [= <-]. split; apply length_pad.
  - intros k m. apply length_pad.
Qed.

#[export] Instance any_chain : DirectChain := {| hasDirectChain _ _ := true |}.

(** The header is finalised with a root of its own. *)
#[export] Instance toy_runtime : Runtime BlockHeader := {
  rt_initialise_block h _ := (Ok tt, h);
  rt_inherent_extrinsics _ r := (Ok [str "now"], r);
  rt_apply_extrinsic _ r := (Ok (ApplyOutcome SUCCESS_), r);
  rt_finalise_block r := (Ok (mkHeader (parent_hash r) (number r) (pad 32 (str "block" ++ uint64_t_to_bytes (number r))) zero_hash (digest r)), r)
}.

Definition half : double := S754_finite false 4503599627370496 (-53).
Definition pow_ (x y : double) : double := half.
Definition sizes (t : ty) : Z := u64_max.

Definition key_ : bytes := replicate 32 "k"%char.
Definition keypair : SR25519Keypair := mkKeypair key_ key_.
Definition config : ProductionConfiguration := mkConfiguration 10 2 (1, 2) [(key_, 1)] zero_hash.
Definition clock (i : nat) : Z := 100 + Z.of_nat i.

Definition root_header : BlockHeader := mkHeader zero_hash 0 zero_hash zero_hash [].

Definition tree0 : BlockTreeImpl.t :=
  let n := mkNode 0 zero_hash 0 true [] in
  BlockTreeImpl.mk n (NewTreeMeta n) (MemoryBlocks.mk {[zero_hash := root_header]} ∅ ∅ []) [] 1.

Definition executor0 : BlockExecutor.t (St := MemoryBlocks.t) (DB := gmap bytes bytes) :=
  BlockExecutor.mk tree0 (AuthorityManagerImpl.mk None ∅ 0) ∅ (TransactionPoolImpl.create default_limits) 2 [].

Definition node0 : ProductionImpl.t (St := MemoryBlocks.t) (DB := gmap bytes bytes) (R := BlockHeader) :=
  ProductionImpl.mk WAIT_BLOCK (mkEpoch 0 0 0 [] []) [] None 0 [] 0 (Some GENESIS) None 0 [] executor0 root_header.

Definition state_of {T A} (r : outcome (A * T)) (s : T) : T := match r with Ok (_, s') => s' | Err _ => s end.

Definition result_of {T A} (r : outcome (A * T)) : outcome A := match r with Ok (a, _) => Ok a | Err e => Err e end.

Lemma state_of_ok {T A} (r : outcome (A * T)) (s : T) a : result_of r = Ok a -> r = Ok (a, state_of r s).
Proof. destruct r as [[b s']|]; [|done]. by intros [= ->]. Qed.

Definition constructed := state_of (ProductionImpl.construct config node0) node0.

(** ** A block of the node *)

Definition value_or {A} (r : outcome A) (d : A) : A := match r with Ok a => a | Err _ => d end.

Definition threshold_ : Z := 2 ^ 127.
Definition own_output : VRFOutput := out (vrf_input zero_hash 0) key_.
Definition own_item : DigestItem := value_or (ProductionImpl.productionPreDigest 0 own_output 0) UnusedItem.
Definition own_pre : bytes := value_or (encode_item own_item) [].
Definition own_block : Block := mkBlock (mkHeader zero_hash 1 zero_hash zero_hash [own_pre]) [].
Definition own_seal_item : DigestItem := value_or (ProductionImpl.sealBlock keypair own_block) UnusedItem.
Definition own_seal : bytes := value_or (encode_item own_seal_item) [].

(** The block of the leader of slot 0 is refused. *)
Lemma own_block_validated_witness :
  vrf_sign (vrf_input zero_hash 0) keypair threshold_ = Some own_output /\
  ProductionBlockValidator.validateHeader hasher_blake2b_256 sizes
    (set_digest (digest (header own_block) ++ [own_seal]) (header own_block)) key_ threshold_ zero_hash ∅ =
  Ok (Err (validation_error INVALID_VRF), ∅).
Proof.
  split; [by vm_compute|]. etrans.
  - apply (own_block_validated sizes keypair own_block zero_hash threshold_ 0 0 own_output own_item own_seal_item own_pre own_seal [] ∅);
      try (vm_compute; reflexivity); by vm_compute.
  - vm_compute. reflexivity.
Defined.

(** ** A block as it should be encoded *)

(** The data of the header without the sizes of the arrays. *)
Definition plain_data (slot idx : Z) : bytes :=
  let o := out (vrf_input zero_hash slot) key_ in
  byte 0 :: le_bytes 8 idx ++ le_bytes 8 slot ++ le_bytes 4 1 ++ o.1 ++ o.2.

Definition with_seal (k : SR25519Keypair) (b : Block) : Block :=
  let seal := value_or (i ← ProductionImpl.sealBlock k b; encode_item i) [] in
  mkBlock (set_digest (digest (header b) ++ [seal]) (header b)) (body b).

Definition plain_block (slot idx n : Z) (more : list bytes) : Block :=
  mkBlock (mkHeader zero_hash n (pad 32 (str "plain")) zero_hash
    (value_or (encode_item (PreRuntimeItem kProductionEngineId (plain_data slot idx))) [] :: more)) [].

Definition good : Block := with_seal keypair (plain_block 2 0 1 []).
Definition check : validation := mkValidation (header good) key_ threshold_ zero_hash.

(** The same block is accepted once. *)
Lemma one_block_per_slot_witness :
  exists s, validate_all hasher_blake2b_256 sizes [check; check] ∅ = Ok ([Ok tt; Err (validation_error TWO_BLOCKS_IN_SLOT)], s) /\
    NoDup (accepted sizes [check; check] [Ok tt; Err (validation_error TWO_BLOCKS_IN_SLOT)]) /\ (2, 0) ∈ accepted sizes [check] [Ok tt].
Proof.
  exists {[2 := {[0]}]}. split; [vm_compute; reflexivity|].
  destruct (one_block_per_slot hasher_blake2b_256 sizes [check; check] [Ok tt; Err (validation_error TWO_BLOCKS_IN_SLOT)] {[2 := {[0]}]})
    as [Hnd Htwo]; [vm_compute; reflexivity|].
  split; [exact Hnd|]. apply (Htwo 1%nat check (2, 0)); vm_compute; reflexivity.
Defined.

(** ** Blocks from others *)

Definition executor1 := ProductionImpl.executor constructed.
Notation apply := (BlockExecutor.applyBlock pow_ sizes config 5).
Definition applied (b : Block) := state_of (apply b executor1) executor1.
Definition known (b : Block) (x : BlockExecutor.t (St := MemoryBlocks.t) (DB := gmap bytes bytes)) : bool :=
  bool_decide (state_root (header b) ∈ leaves (BlockTreeImpl.tree_meta_ (BlockExecutor.tree x))).

Lemma only_validated_blocks_witness :
  apply good executor1 = Ok (Ok tt, applied good) /\ known good (applied good) = true /\
  Executor.validated pow_ sizes config good executor1.
Proof.
  assert (apply good executor1 = Ok (Ok tt, applied good)) as E
    by (apply state_of_ok; vm_compute; reflexivity).
  split; [exact E|]. split; [vm_compute; reflexivity|].
  destruct (Executor.only_validated_blocks pow_ sizes config 5 good executor1 (applied good) (Ok tt) E) as [[[e He] _]|Hv]; [discriminate He|exact Hv].
Defined.

(** A block that is refused sets the authorities of a later epoch: the descriptor
    it carries is stored before its signature is looked at. *)
Definition thief : bytes := replicate 32 "t"%char.
Definition stolen_epoch : bytes :=
  value_or (data ← encode TVerificationLog (inr (inl ([(thief, 1)], zero_hash))); encode_item (VerificationItem kProductionEngineId data)) [].
Definition forged : Block := with_seal (mkKeypair thief thief) (plain_block 2 0 1 [stolen_epoch]).

Theorem unvalidated_epoch_stored :
  apply forged executor1 = Ok (Err (validation_error INVALID_SIGNATURE), applied forged) /\
  EpochStorageImpl.getEpochDescriptor sizes 3 (AuthorityManagerImpl.storage_ (BlockExecutor.authority (applied forged))) =
    Ok (mkDescriptor [(thief, 1)] zero_hash).
Proof. split; [apply state_of_ok|]; vm_compute; reflexivity. Qed.

(** A valid block with a message for the authorities is added to the tree, and
    then reported as an error: the message is not part of the encoding. *)
Definition message : bytes := value_or (encode_item (VerificationItem kProductionEngineId [])) [].
Definition announcing : Block := with_seal keypair (plain_block 2 0 1 [message]).

Theorem message_fails_after_adding :
  apply announcing executor1 = Ok (Err (authority_update_error UNSUPPORTED_MESSAGE_TYPE), applied announcing) /\
  known announcing (applied announcing) = true.
Proof. split; [apply state_of_ok|]; vm_compute; reflexivity. Qed.

(** The index of an authority is used without a check. *)
Theorem unknown_authority_undefined : apply (with_seal keypair (plain_block 2 7 1 [])) executor1 = Err undefined_behaviour.
Proof. vm_compute. reflexivity. Qed.

(** An announced header without digests ends a node that waits for one. *)
Theorem bare_announce_undefined :
  ProductionImpl.onBlockAnnounce pow_ sizes config keypair clock 5 (mkHeader zero_hash 1 zero_hash zero_hash []) constructed =
  Err undefined_behaviour.
Proof. vm_compute. reflexivity. Qed.

(** ** Slots *)

Definition synchronized := ProductionImpl.set_state SYNCHRONIZED constructed.
Definition epoch0 : Epoch := mkEpoch 0 0 2 [(key_, 1)] zero_hash.
Definition running := state_of (ProductionImpl.runEpoch pow_ sizes config keypair clock 5 epoch0 110 synchronized) synchronized.
Definition fired := state_of (ProductionImpl.on_timer pow_ sizes config keypair clock 5 true running) running.

Lemma synchronized_calm : Slots.calm synchronized.
Proof. split; [reflexivity|]. apply Forall_nil_2. Qed.

Lemma runs_epoch0 : ProductionImpl.runEpoch pow_ sizes config keypair clock 5 epoch0 110 synchronized = Ok (tt, running).
Proof. apply state_of_ok. vm_compute. reflexivity. Qed.

(** After a slot in which the node made a block. *)
Lemma leader_of_own_slot_witness :
  length (ProductionImpl.announced fired) = 1%nat /\
  exists n, 0 <= n /\ ProductionImpl.current_slot_ fired = u64 n /\
    ProductionImpl.next_slot_finish_time_ fired = 110 + 10 * (n - 0) /\
    (ProductionImpl.timer_ fired = None \/ ProductionImpl.timer_ fired = Some (ProductionImpl.next_slot_finish_time_ fired)) /\
    (n + (1 + 0) * 2 < 2 ^ 64 ->
      epoch_index (ProductionImpl.current_epoch_ fired) = n / 2 + 0 /\
      exists idx threshold,
        getAuthorityIndex (epoch_authorities (ProductionImpl.current_epoch_ fired)) key_ = Some idx /\
        calculateThreshold pow_ (1, 2) (epoch_authorities (ProductionImpl.current_epoch_ fired)) idx = Ok threshold /\
        ProductionImpl.slots_leadership_ fired !! Z.to_nat (n mod 2) =
          Some (vrf_sign (vrf_input (epoch_randomness (ProductionImpl.current_epoch_ fired)) (n + 0 * 2)) keypair threshold)).
Proof.
  split; [vm_compute; reflexivity|].
  apply (Slots.leader_of_own_slot pow_ sizes config keypair clock 5 epoch0 110 synchronized running fired);
    [reflexivity|split; reflexivity || discriminate|reflexivity|reflexivity|exact synchronized_calm|exact runs_epoch0|].
  apply rtc_once. exists 5%nat, (Slots.Expired true). apply state_of_ok. vm_compute. reflexivity.
Defined.

Lemma key_can_lead : Slots.can_lead pow_ config keypair [(key_, 1)].
Proof. exists 0, threshold_. split; vm_compute; reflexivity. Qed.

(** Only the epochs 0 and 1 are stored. *)
Lemma fired_able : Slots.able pow_ sizes config keypair (ProductionImpl.set_timer None fired).
Proof.
  split; [exact key_can_lead|]. intros i.
  set (d := value_or (encode TNextEpochDescriptor ([(key_, 1)], zero_hash)) []).
  assert (AuthorityManagerImpl.storage_ (BlockExecutor.authority (ProductionImpl.executor (ProductionImpl.set_timer None fired))) =
    <[EpochStorageImpl.epoch_key 1 := d]> {[EpochStorageImpl.epoch_key 0 := d]}) as -> by (vm_compute; reflexivity).
  unfold EpochStorageImpl.getEpochDescriptor. cbn [db_Get memory_db].
  assert (scale_decode sizes TNextEpochDescriptor d = Ok ([(key_, 1)], zero_hash)) as Hd by (vm_compute; reflexivity).
  set (k := EpochStorageImpl.epoch_key i).
  assert ((<[EpochStorageImpl.epoch_key 1 := d]> {[EpochStorageImpl.epoch_key 0 := d]} : gmap bytes bytes) !! k = None \/
          (<[EpochStorageImpl.epoch_key 1 := d]> {[EpochStorageImpl.epoch_key 0 := d]} : gmap bytes bytes) !! k = Some d) as [E|E].
  { rewrite lookup_insert. case_decide; [by right|]. rewrite lookup_singleton. case_decide; [by right|by left]. }
  - rewrite E. exact I.
  - rewrite E. cbn [ok_or mbind outcome_bind]. rewrite Hd. exact key_can_lead.
Qed.

Lemma fired_in_step : Slots.in_step pow_ config keypair 0 110 fired.
Proof.
  apply (Slots.handle_in_step pow_ sizes config keypair clock 0 110 eq_refl (Z.le_refl 0) running).
  - apply (Slots.runEpoch_spec pow_ sizes config keypair clock 0 110 eq_refl (Z.le_refl 0) 5 epoch0 synchronized running);
      [reflexivity|reflexivity|reflexivity|split; reflexivity || discriminate|exact synchronized_calm|exact runs_epoch0].
  - exists 5%nat, (Slots.Expired true). apply state_of_ok. vm_compute. reflexivity.
Qed.

(** The node does not lead slot 1. *)
Lemma fired_makes : Slots.makes sizes keypair clock (ProductionImpl.set_timer None fired) (ProductionImpl.set_timer None fired).
Proof.
  unfold Slots.makes.
  assert (ProductionImpl.slots_leadership_ (ProductionImpl.set_timer None fired) !!
    Z.to_nat (ProductionImpl.current_slot_ (ProductionImpl.set_timer None fired) mod
              epoch_duration (ProductionImpl.current_epoch_ (ProductionImpl.set_timer None fired))) = Some None) as ->
    by (vm_compute; reflexivity).
  reflexivity.
Qed.

Lemma clock_slow : Slots.slow_clock config clock.
Proof. intros i t. exists (Z.to_nat (100 + Z.of_nat i - t)). unfold clock. cbn [slot_duration config]. lia. Qed.

(** From slot 1, after the block of slot 0. *)
Lemma slots_go_on_witness :
  exists fuel0, forall fuel, (fuel0 <= fuel)%nat ->
    runs (ProductionImpl.on_timer pow_ sizes config keypair clock fuel true) fired (fun _ s' =>
      Slots.in_step pow_ config keypair 0 110 s' /\ Slots.able pow_ sizes config keypair s' /\
      ProductionImpl.timer_ s' = Some (ProductionImpl.next_slot_finish_time_ s') /\
      ProductionImpl.next_slot_finish_time_ fired + 10 <= ProductionImpl.next_slot_finish_time_ s' /\
      Slots.caught_up config clock s').
Proof.
  apply (Slots.slots_go_on pow_ sizes config keypair clock 0 110 fired (ProductionImpl.set_timer None fired));
    [reflexivity|discriminate|reflexivity|exact fired_in_step|exists 120; vm_compute; reflexivity|
     exact fired_makes|exact fired_able|exact clock_slow].
Defined.

(** A node that synchronizes with the first slot of an epoch counts the epoch
    twice: in slot 32, with epochs of 32 slots, it is in epoch 2. *)
Definition config32 : ProductionConfiguration := mkConfiguration 10 32 (1, 2) [(key_, 1)] zero_hash.
Definition need_time := ProductionImpl.set_state NEED_SLOT_TIME constructed.
Definition observed (s : ProductionImpl.t (St := MemoryBlocks.t) (DB := gmap bytes bytes) (R := BlockHeader)) (slot : Z) :=
  state_of (ProductionImpl.onBlockAnnounce pow_ sizes config32 keypair clock 5 (header (with_seal keypair (plain_block slot 0 slot []))) s) s.
Definition joined := observed (observed need_time 2) 32.

Theorem epoch_counted_twice :
  ProductionImpl.current_state_ joined = SYNCHRONIZED /\ ProductionImpl.current_slot_ joined = 32 /\
  epoch_index (ProductionImpl.current_epoch_ joined) = 2 /\ 32 / epoch_length config32 = 1.
Proof. split_and!; vm_compute; reflexivity. Qed.

(** With a rate of one every slot should be led: the threshold is zero instead. *)
Theorem certain_threshold_zero (pow : double -> double -> double) :
  pow (S754_zero false) (double_of_u64 1) = S754_zero false ->
  calculateThreshold pow (1, 1) [(key_, 1)] 0 = Ok 0.
Proof.
  intros Hp. unfold calculateThreshold. cbv zeta. cbn [fst snd].
  assert (double_sub double_one (double_div (double_of_u64 1) (double_of_u64 1)) = S754_zero false) as -> by (vm_compute; reflexivity).
  assert (foldl (fun acc (x : bytes * Z) => double_add acc (double_of_u64 x.2)) (double_of_u64 0) [(key_, 1)] = double_of_u64 1) as ->
    by (vm_compute; reflexivity).
  change (ok_or undefined_behaviour ([(key_, 1)] !! Z.to_nat 0)) with (Ok (key_, 1)). cbn [mbind outcome_bind snd].
  assert (double_div (double_of_u64 1) (double_of_u64 1) = double_of_u64 1) as -> by (vm_compute; reflexivity).
  rewrite Hp. vm_compute. reflexivity.
Qed.

(** ** Proposals *)

Definition site1 : site BlockHeader MemoryBlocks.t := mkSite one_tx root_header (BlockTreeImpl.store tree0).

Lemma store_returns id : returns_always (St := MemoryBlocks.t) (st_getHashById id) /\ returns_always (St := MemoryBlocks.t) (getNumberById id).
Proof.
  split; intros st; [by eexists _, _|]. destruct id as [h|n]; [|by eexists _, _]. cbn.
  unfold MemoryBlocks.find, gets, try, mbind, act_bind. by destruct (MemoryBlocks.headers st !! h); eexists _, _.
Qed.

Definition body_of {T} (r : outcome (outcome Block * T)) : option (list bytes) :=
  match r with Ok (Ok b, _) => Some (body b) | _ => None end.

(** A pool with one transaction. *)
Lemma proposal_exact_witness :
  ready_extrinsics one_tx = [ext first_tx] /\
  exists b s', ProposerImpl.propose (pool_fuel one_tx) (ByHash zero_hash) ∅ [] site1 = Ok (Ok b, s') /\
    body b = [str "now"; ext first_tx] /\ settled (pool s') /\
    TransactionPoolImpl.imported_txs_ (pool s') = without_ready one_tx.
Proof.
  split; [vm_compute; reflexivity|].
  pose proof (proposal_exact default_limits (ByHash zero_hash) ∅ [] site1 one_tx_reachable (proj1 (store_returns _)) (proj2 (store_returns _))) as Hp.
  unfold unless in Hp. change (pool site1) with one_tx in Hp.
  assert (body_of (ProposerImpl.propose (pool_fuel one_tx) (ByHash zero_hash) ∅ [] site1) = Some [str "now"; ext first_tx]) as Hb
    by (vm_compute; reflexivity).
  unfold body_of in Hb. destruct (ProposerImpl.propose _ _ _ _ site1) as [[[b|e] s']|e]; [|discriminate Hb..].
  exists b, s'. split; [reflexivity|]. injection Hb as Hb. split; [exact Hb|]. destruct Hp as (Hset & i & r1 & r2 & r3 & Hp). split; [exact Hset|apply Hp].
Defined.

(** A runtime that does not finalise: there is no block, and the transaction is
    out of the pool. *)
Definition no_end : Runtime BlockHeader := {|
  rt_initialise_block h _ := (Ok tt, h);
  rt_inherent_extrinsics _ r := (Ok [], r);
  rt_apply_extrinsic _ r := (Ok (ApplyOutcome SUCCESS_), r);
  rt_finalise_block r := (Err errc_invalid_argument, r)
|}.

Theorem failed_bake_loses_transactions :
  result_of (ProposerImpl.propose (Runtime0 := no_end) 5 (ByHash zero_hash) ∅ [] site1) = Ok (Err errc_invalid_argument) /\
  size (TransactionPoolImpl.imported_txs_ one_tx) = 1%nat /\
  size (TransactionPoolImpl.imported_txs_
    (pool (state_of (ProposerImpl.propose (Runtime0 := no_end) 5 (ByHash zero_hash) ∅ [] site1) site1))) = 0%nat.
Proof. split_and!; vm_compute; reflexivity. Qed.

(** A runtime that refuses the transaction: there is no block, and the transaction
    stays, so that the next proposal fails as well. *)
Definition refusing : Runtime BlockHeader := {|
  rt_initialise_block h _ := (Ok tt, h);
  rt_inherent_extrinsics _ r := (Ok [], r);
  rt_apply_extrinsic _ r := (Ok (ApplyError 3), r);
  rt_finalise_block r := (Ok r, r)
|}.

Theorem refused_transaction_stops_proposals :
  result_of (ProposerImpl.propose (Runtime0 := refusing) 5 (ByHash zero_hash) ∅ [] site1) = Ok (Err extrinsic_application_failed) /\
  pool (state_of (ProposerImpl.propose (Runtime0 := refusing) 5 (ByHash zero_hash) ∅ [] site1) site1) = one_tx.
Proof. split; vm_compute; reflexivity. Qed.

End DemoProduction.
